(* ===== verification/_CoqProject ===== *)
-Q . S2P
Prelude.v
Encoding.v
Text.v
IpAddr.v
Ids.v
Tags.v
Event.v
Filter.v
FilterWire.v
Storage.v
SpecProofs.v
Samples.v
CoreTheorems.v
RedbKeys.v
Redb.v
RedbProofs.v
Memory.v
MemoryProofs.v
MemoryTheorems.v
RedbTheorems.v
Nips.v
Message.v
Sync.v
Database.v
Server.v
ServerProofs.v
HttpAuth.v
Management.v
RelaySamples.v
Backends.v
ServerTheorems.v
ManagementTheorems.v
Entities.v
EntityTheorems.v
RelayLists.v
Gossip.v
GossipProofs.v
GossipTheorems.v
Delegation.v
NegPayload.v
WireTheorems.v
Client.v
ClientProofs.v
ClientSamples.v
ClientTheorems.v
EndToEnd.v
Pool.v
PoolTheorems.v
GiftWrap.v
GiftWrapProofs.v
GiftWrapSamples.v
GiftWrapTheorems.v
Nip46.v
RemoteSigner.v
RemoteSignerProofs.v
RemoteSignerTheorems.v
Derive.v
Nip47.v
Nwc.v
NwcProofs.v
NwcTheorems.v
Parser.v
Facade.v
FacadeSync.v
FacadeProofs.v
FacadeSamples.v
FacadeTheorems.v
FacadeSyncTheorems.v
TagReader.v
Threads.v
ThreadTheorems.v
Zaps.v
ZapTheorems.v
Nip49.v
Lists.v
ListTheorems.v
Counting.v
Scanning.v
Wiki.v
Media.v
