(* ===== verification/Prelude.v ===== *)
(** * Nula: a verification library for the Nostr SDK

    Nula ([src/crates]) is an SDK for the Nostr protocol.  Its core is the signed
    event, the filter language that selects events, the stores that keep them,
    the relay server that clients publish to and read from, and the client side:
    the connection to one relay, the pool over many, the graph that knows
    which relays a user is on, and the client an application holds.  This library models these parts as functions and
    records with the names and the control flow of the Rust code and proves what
    makes them correct.

    ** The program's parts and the files that model them

    - [Encoding]: big-endian bytes, decimal integers ([u16]/[u64] parsing and
      printing), the hex wrappers of [nula-core/src/util/hex.rs].
    - [Text], [IpAddr]: what the code uses of Rust's strings ([trim], [split],
      [strip_prefix], UTF-8) and of [std::net] (reading and classifying
      addresses).
    - [Ids]: [EventId] ([event/id.rs]), [PublicKey] ([key/public_key.rs]),
      [Timestamp] ([types/timestamp.rs]), [Kind] ([event/kind.rs]).
    - [Tags]: tag letters and tag kinds ([event/tag/single_letter.rs],
      [event/tag/kind.rs]), tags ([event/tag/tag.rs]) and tag lists with their
      lazily built letter index ([event/tag/list.rs]).  The [OnceLock] of the
      code is the field [cache]; every method passes the list on explicitly.
    - [Event]: coordinates ([event/coordinate.rs]), events, their canonical form
      and id ([event/mod.rs], [event/event.rs]), unsigned events, the builder,
      and NIP-09, NIP-40 and NIP-70 ([nips/nip09.rs], [nip40.rs], [nip70.rs]).
    - [Filter], [FilterWire]: [nula-core/src/filter.rs]; the record, its
      builders, the matcher over the trait [MatchableEvent] (a class here), and
      the JSON form entry by entry with the canonical fingerprint.
    - [Storage]: what both backends of [nula-storage] share ([status.rs],
      [events.rs], [pick_loser]), the reference answer [query_ref] to a query
      and [Module Spec], the abstract store: a finite map of live events, the
      tombstones of ids and coordinates, and the vanished authors.
    - [SpecProofs]: the laws of the abstract store.
    - [Memory], [MemoryProofs], [MemoryTheorems]: [nula-storage/src/memory], the
      store with its five indexes ([BTreeMap]/[HashMap] as [gmap], a [BTreeSet]
      as a [gset] walked in key order), the query planner, every operation.
    - [RedbKeys], [Redb], [RedbProofs], [RedbTheorems]: [nula-storage/src/redb], byte keys and scan bounds, the
      payload codec and its borrowed projection, the seven tables and every read
      and write path inside a transaction.
    - [Nips]: proof of work with its mining loop ([nips/nip13.rs]), relay
      addresses ([types/relay_url.rs]), client authentication ([nips/nip42.rs]).
    - [Message]: subscription ids, reason prefixes, the client and relay messages
      of [nula-core/src/message] and their JSON arrays, the derived JSON form of
      an event.
    - [Sync]: the two roles of a set-reconciliation session ([nula-sync]).
    - [Database]: the trait [NostrDatabase] as a class, with the contract (a
      second class) that ties an implementation to [Spec]; [Backends] makes both
      stores instances and proves the contract for them.
    - [Server], [ServerProofs], [ServerTheorems]: one connection of the relay
      ([nula-relay/src/server/connection.rs], [options.rs], [policy.rs]).  Its
      state is the record [Conn]: shared storage, published events, frames sent,
      subscriptions, reconciliation sessions, authentication, rate limiter.  A
      handler is a state-passing function with the error [DispatchError]; the
      [select!] of the loop is [select], and [run] is a whole connection, in which
      other connections may change the storage between two inputs ([Other]).
    - [HttpAuth], [Management], [ManagementTheorems]: HTTP authorization
      ([nips/nip98.rs]), the management API ([nips/nip86.rs]), the moderation
      state that is also the write policy ([server/management.rs]) and the
      endpoint that guards it ([server/relay.rs]).
    - [Entities], [EntityTheorems]: secret keys ([key/secret_key.rs]), the bech32
      entities of NIP-19 with their records ([nips/nip19]) and the [nostr:]
      addresses of NIP-21 ([nips/nip21.rs]).  [ToBech32], [FromBech32],
      [ToNostrUri] and [FromNostrUri] are classes here as they are traits there.
    - [RelayLists]: the relay lists of NIP-65 and NIP-17; [Delegation]: NIP-26;
      [NegPayload]: the binary payload of NIP-77 (theorems in [WireTheorems]).
    - [GiftWrap], [GiftWrapProofs], [GiftWrapSamples], [GiftWrapTheorems]:
      versioned encryption ([nips/nip44.rs]), gift wraps ([nips/nip59.rs]) and the
      private messages carried in them ([nips/nip17.rs]); entropy is an argument
      (the record [Draws]).
      The older encryption ([nips/nip04.rs]) is there too.
    - [Nip46]: the remote-signing
      protocol ([nips/nip46.rs]): methods, permissions, requests, results,
      envelopes, connection addresses.
    - [RemoteSigner], [RemoteSignerProofs], [RemoteSignerTheorems]:
      [nula-signer].  [Module Bunker] is the side that holds the
      keys ([bunker.rs]): from a request's event to the event of its answer.
      [Module Connect] is the client ([client.rs], [dispatcher.rs], [pending.rs]):
      the table of waiting calls, the calls under way and the dispatcher are the
      record [Inner], and [run] is any sequence of the steps that callers, the
      pool, the timer and the subscription take.
    - [Derive]: what [serde] derives for structs, and [serde_json::Value].
    - [Nip47]: the wallet-connect protocol ([nips/nip47.rs]).  [Nwc],
      [NwcProofs], [NwcTheorems]: [nula-nwc], the typed methods
      ([methods.rs]) and the client ([client.rs], [dispatcher.rs], [pending.rs]) with
      the same kind of state and steps as the remote signer's.
    - [Parser]: the content parser ([parser.rs]), positions being
      byte offsets.
    - [Gossip], [GossipProofs], [GossipTheorems]: [nula-gossip].  The state
      [Inner] is the map of routes by user, the options and a store behind the
      class [NostrDatabase]; learning from an event, selecting relays, routing a
      filter or an event, refreshing and warming up are state-passing functions,
      and what the pool streams back is an argument.
    - [Client], [ClientProofs], [ClientSamples], [ClientTheorems]: the connection
      to one relay ([nula-relay/src/inner]).  The task that owns the socket is the
      record [Actor]: status, counters, socket, subscriptions, waiting publishes,
      reconnect deadline, and the log of everything its callers can observe.  One
      turn of the loop is [turn], from one arm of the [select!] (a [Wakeup]) to
      [Running], [Exited] or [Panicked]; [run] is any sequence of turns, an arm
      that is not ready being skipped.  A reply channel and a subscription's
      stream are numbers, so that who is answered and what is dropped can be
      counted.
    - [EndToEnd]: client and relay composed over the frames they exchange.
    - [Pool], [PoolTheorems]: many relays ([nula-relay/src/pool]): the table,
      fan-out, notifications and the merging stream.
    - [Facade], [FacadeSync], [FacadeProofs], [FacadeTheorems],
      [FacadeSyncTheorems]: the client an application holds ([nula/src]), which
      composes pool, router, signer, database and admission policy.  Its state is
      the record [InnerClient]; every method is a function on it, with what relays,
      clock, entropy and policy answer as arguments, and the steps an application
      takes are [Op].  [FacadeSync] is the reconciliation driver ([sync.rs]).
    - [TagReader]: readers that walk the tags of an event into slots and refuse the
      first bad one.  [Threads], [ThreadTheorems]: threads, comments, reactions and
      reposts ([nips/nip10.rs], [nip22.rs], [nip25.rs], [nip18.rs]).  [Zaps],
      [ZapTheorems]: zaps ([nips/nip57.rs]).  [Lists], [ListTheorems]: follow lists and
      curated lists ([nips/nip02.rs], [nip51.rs]).  [Nip49]: encrypted secret keys.
      [Counting]: counts and their sketches ([nips/nip45.rs]).  [Scanning]: addresses,
      shortcodes and search queries in texts, identifiers ([nips/nip27.rs],
      [nip30.rs], [nip50.rs], [nip05.rs]).  [Wiki]: wiki articles ([nips/nip54.rs]).
      [Media]: image dimensions, file metadata, attachments and pictures
      ([types/image.rs], [nips/nip94.rs], [nip92.rs], [nip68.rs]).
    - [CoreTheorems], [WireTheorems]: the theorems on the core types, and on
      messages, proof of work and authentication.
    - [Samples], [RelaySamples], [ClientSamples], [FacadeSamples]: concrete keys, events, runs and
      instances the examples are evaluated on.

    ** Code outside the repository

    Third-party crates are type classes, and what the code relies on is a class
    of laws that theorems assume: [FasterHex] (hex digits), [Secp256k1]
    (on-curve check), [EventCrypto] (JSON printer, SHA-256, BIP-340),
    [SerdeJson] (reading [u16], [u64], [usize] and strings), [Postcard] (the
    payload serializer, with its borrowed reading), [KvTable] (a redb table: an
    ordered map of byte strings), [UrlCrate] and [UrlBase] (URL parsing),
    [SigSerde] (signatures in JSON), [NegentropyCrate] with [NegentropyLaws] (a
    session that ends has found the differences), [Base64], [JsonText] and
    [JsonReads] (JSON text is read back), [SecretScalar] (which bytes are a secret
    key), [Bech32Crate] with [Bech32Laws], [UrlText] (an address is its text),
    [SigText] (signatures in hex), [LruCrate] with [LruLaws], [Nip44Crates] with
    [Nip44Laws] (shared secret, key derivation, cipher and tag), [Base64Laws] and
    [JsonEvents] (JSON text is read back), [AesCbc] with [AesCbcLaws], [JsonBorrow]
    and [JsonRpc] (objects of JSON text), [UrlQuery] with [UrlQueryLaws] (the query
    of a URL), [FormUrlEncoded] with [FormLaws], [JsonValues] with [JsonValueLaws]
    (values as maps), [JsonPlainText] (plain values are read back), [Fe32Crate] with
    [Fe32Laws] (the characters of bech32), [UrlNotEmpty] (no URL is empty), [SealingCrates] with [SealingLaws]
    (normalisation, key derivation and the sealing cipher), [UnicodeChars] with
    [UnicodeAscii] (letters and digits), [LendsDocument] (what of a JSON text is
    read without a copy), [StrLowercase] with [StrLowercaseAscii].
    Each has an instance ([HexModel], [Samples], [RedbTheorems], [RelaySamples],
    [ManagementTheorems] and the theorem files) on which the examples are
    evaluated, so the laws can be met.  The clocks, random tokens and the policies
    of a relay are arguments (the records [Env]); a relay's socket is the number
    of frames it still takes, a client's the frames written and the sends that
    fail.

    ** What the theorems show

    - Stores: every save of either backend, after any sequence of operations,
      has the outcome and the effect of [Spec.save] ([memory_save_refines],
      [redb_save_refines]), so the two agree where they have the same options,
      which means no capacity and no NIP-62 ([backends_agree]); indexes stay
      exact and slots unique ([memory_invariant], [redb_invariant]); queries
      through an index are the full scan, memory's coordinate index only while
      no live event carries two [d] values ([memory_query_refines],
      [redb_query_refines]); counting, deleting and set reconciliation agree
      with queries.
    - Protocol rules: what a deletion request removes and refuses from then on,
      that deletion is permanent, that a vanish request empties and bars its
      author, that versions of a slot converge whatever their order, that a
      bounded store keeps the newest events.
    - Keys and payloads: scan bounds are exact, keys sort like timestamps, the
      projection of a payload matches like the event.
    - Relay: in every execution, what a connection saves or broadcasts was sent by
      its client and passed every gate, authentication by an answer to this
      connection's own challenge included ([connection_writes]); an EVENT gets one answer that agrees with the
      abstract store, a REQ gets the matching events and then EOSE, and what one
      client publishes another is served ([event_answered], [request_answered],
      [published_event_served]); subscriptions and rates stay bounded and live
      events reach exactly the matching subscriptions.  These are proved against
      the class [DatabaseContract], which both backends discharge.
    - Moderation: a ban silences its author on every connection until it is
      lifted, and only an authorized administrator reaches the state
      ([banned_author_silenced], [management_guarded]).
    - Protocol: messages survive JSON exactly when well formed, mining finds the
      least nonce and terminates, difficulty is a bound on the id, a client's
      answer to a challenge is accepted exactly while it is fresh.
    - Client: in every run status, socket, timers and tables fit together
      ([client_invariant]); every reply and stream handed in is answered or ended
      exactly once ([senders_conserved]), every command by its deadline
      ([commands_answered]); items reach the stream they are for
      ([items_routed]); a lost connection is retried for as long as the policy
      says, and subscriptions are requested again ([keeps_reconnecting],
      [reconnect_attempted]); where a subscription is lost track of
      ([subscription_leaks]).
    - Client and relay: what a caller of publish is told is the verdict of the
      relay's store, or the reason in the relay's own [OK] ([publish_end_to_end]).
    - Pool: fan-out asks each relay once and partitions the answers, the merged
      stream delivers and saves each event once, the table is bounded.
    - Gossip: a filter that names authors or tagged keys is split by relay
      without losing or adding an event, one that names both goes whole to the
      relays of any of them, an event goes to the relays of those it concerns and a gift wrap to no public
      relay, learning does not depend on order and survives a restart, selection
      keeps its limits.
    - Entities and payloads: whatever is read is well formed and whatever is well
      formed reads back; delegations verify exactly when their conditions hold;
      how the payload reader fails.
    - Private messages: what is wrapped for a recipient is what the recipient
      unwraps, whoever a message is attributed to has sealed it, and a message
      reaches everyone it is for ([gift_wrap_round_trip], [unwrap_authentic],
      [chat_delivered]); sizes of encrypted payloads ([encryption_sizes]).
    - Conversations and zaps: threads, comments, reactions, reposts and zaps read back
      from the events that carry them ([thread_round_trip], [comment_round_trip],
      [reaction_round_trip], [repost_round_trip], [zap_round_trip]), and the checks of a
      zap request let through exactly what they say.
    - Lists and keys: lists with private items open for their owner
      ([private_list_round_trip], [follow_list_round_trip]); a sealed key opens with the
      password it was sealed with ([sealed_key_opens]).
    - Texts: sketches merge like the sets they count ([sketches_merge]); scanners find
      every address and shortcode, in order and without overlap ([references_found],
      [shortcodes_spans]); search queries read back ([query_back]); an identifier is
      verified exactly when its document lists the key ([identifier_verified]); wiki
      names are normal, articles, redirects and merge requests read back
      ([ascii_name_normal], [article_round_trip], [redirect_round_trip],
      [merge_round_trip]).
    - Media: file metadata and attachments read back, and whatever is read can be
      written again ([file_metadata_round_trip], [file_metadata_reread],
      [attachment_round_trip], [attachment_reread]); pictures read back but for their
      language labels ([picture_round_trip]).
    - Remote signing: a remote call is answered like a local one
      ([remote_call_answered]); the bunker does nothing its secret or its policy did
      not allow ([bunker_guarded]); every call returns once ([calls_accounted]), its
      error paths ([call_error_paths]); the signer's key is the address's or that of
      the first who echoed the secret ([signer_latched]); addresses and envelopes read back
      ([connection_round_trip]).
    - Wallet connect: what a wallet answers to a typed call is what its caller gets
      ([wallet_call_answered]); only the wallet's key answers, each call returns once
      ([wallet_calls_accounted]); addresses, adverts and notifications read back
      ([wallet_round_trip]); how calls fail ([wallet_failures]).
    - Content: every text is cut into tokens that make it up, without a panic
      ([content_tokens]).
    - Facade: with a router an event goes where the router says and nowhere else,
      or, when it says nothing, to the write relays ([event_sent]); nothing enters pool or database past the admission policy,
      and connections only by the one call that does not ask it
      ([admission_guarded]); a fetch is the union of what arrived ([fetch_union]);
      a private message goes only to the relays its recipients chose or, without a
      router, to the write relays ([private_message_sent]); the registry of subscriptions against what the
      relays were asked ([subscription_registry]); a sync with a relay that
      answers its requests finds and fetches exactly the difference
      ([sync_converges]) and accounts for every id whatever the relay
      does ([sync_accounted]).
    - Core: filters match what they say and survive JSON, fingerprints ignore
      order, signed events verify, requests, ids and coordinates round-trip,
      deadlines are exact, the tag index is never stale.

    ** Bounds and fuel

    Machine integers are [N] with explicit range hypotheses ([Event.wf],
    [stored_ok], [kinds_in_range]); saturating arithmetic is written out.  These
    loops carry fuel: [Dec.digits] gets one more than the binary size of the
    number, which bounds its decimal digits; [Nip77.digits7] gets ten, the base-128
    digits of a 64-bit number; [Memory.evict_loop] gets one more
    than the number of stored events, each iteration removing one; [Tlv.drain] and
    the range loop of [Nip77.decode_payload] get the length of the input, of which
    each iteration consumes a byte; the loops of the content parser get the length
    of the text, those of the scanners one more; and [Nip13.mine_loop] is proved to finish with more fuel than there
    are 64-bit nonces.  The lemmas on them ([Dec.parse_to_string], [memory_capacity_newest],
    [mine_and_sign_spec], [entity_round_trip], [neg_payload_round_trip],
    [content_tokens]) are about
    the completed loops.  The loops that serve for ever (a connection of the relay,
    the client's task, the merging stream) are runs over a list of inputs, any
    list, so their theorems hold of every finite prefix.  The reconciliation driver
    has the bound of the code, [MAX_NEG_ROUNDS] messages.  [usize::MAX] as the
    missing limit is [None]; instants and durations are nanoseconds, and an
    instant beyond [instant_max] is the panic it is in the code.

    ** Not modelled

    Locks, futures and blocking tasks around the stores; file handling and
    failures of the redb engine itself;
    sockets, HTTP framing, the accept loop and the NIP-11 document of the relay;
    the transports and builders of the client and the pool; the timeouts of the
    facade's calls, its setters and getters; the inside of the negentropy algorithm; the builders and the
    pools of the remote signer and the wallet client; the floating-point estimate of a
    sketch.  The tag vocabularies of the other NIPs,
    the browser signer, the keyring, the blob client and the command line are not
    part of this library. *)

(** ** Prelude: results, bytes, lists *)

From Stdlib Require Import NArith Lia.
From Stdlib Require Export Strings.Byte.
From stdpp Require Export sorting.
From stdpp Require Export base gmap sets list strings numbers.
Export list_basics.list list_relations.list list_monad.list list_misc.list list_numbers.list.

(** ** Rust's [Result] and the [?] operator *)

Inductive result (A E : Type) : Type :=
| Ok (a : A)
| Err (e : E).
Arguments Ok {A E} a.
Arguments Err {A E} e.

#[global] Instance result_eq_dec {A E} `{!EqDecision A, !EqDecision E} :
  EqDecision (result A E).
Proof. solve_decision. Defined.

Definition result_bind {A B E} (c : result A E) (k : A → result B E) : result B E :=
  match c with Ok a => k a | Err e => Err e end.

Definition map_err {A E F} (f : E → F) (c : result A E) : result A F :=
  match c with Ok a => Ok a | Err e => Err (f e) end.

Definition result_ok {A E} (c : result A E) : option A :=
  match c with Ok a => Some a | Err _ => None end.

Definition ok_or {A E} (o : option A) (e : E) : result A E :=
  match o with Some a => Ok a | None => Err e end.

Declare Scope result_scope.
Delimit Scope result_scope with result.
Notation "'let?' x ':=' c 'in' k" := (result_bind c (λ x, k))
  (at level 10, x name, c at level 100, k at level 200) : result_scope.
Notation "'let?' ' x ':=' c 'in' k" := (result_bind c (λ y, match y with x => k end))
  (at level 10, x strict pattern, c at level 100, k at level 200) : result_scope.
Open Scope result_scope.

(** ** Tactics *)

(** Split a [result_bind], an [option] match or an [if] that blocks reduction
    in a hypothesis or in the goal, remembering the scrutinee. *)
Ltac split_match :=
  match goal with
  | H : context [match ?x with _ => _ end] |- _ => destruct x eqn:?; simplify_eq/=
  | |- context [match ?x with _ => _ end] => destruct x eqn:?; simplify_eq/=
  end.
Ltac split_matches := repeat split_match.

(** Turn the boolean tests of the modelled code into propositions. *)
Ltac reflect_bools :=
  repeat match goal with
  | H : (_ && _) = true |- _ => apply andb_prop in H as [? ?]
  | H : (_ || _) = false |- _ => apply orb_false_elim in H as [? ?]
  | H : (_ || _) = true |- _ => apply orb_prop in H as [?|?]
  | H : negb _ = true |- _ => apply negb_true_iff in H
  | H : negb _ = false |- _ => apply negb_false_iff in H
  | H : bool_decide _ = true |- _ => apply bool_decide_eq_true in H
  | H : bool_decide _ = false |- _ => apply bool_decide_eq_false in H
  | H : (_ <=? _)%N = true |- _ => apply N.leb_le in H
  | H : (_ <=? _)%N = false |- _ => apply N.leb_gt in H
  | H : (_ <? _)%N = true |- _ => apply N.ltb_lt in H
  | H : (_ <? _)%N = false |- _ => apply N.ltb_ge in H
  | H : (_ =? _)%N = true |- _ => apply N.eqb_eq in H
  | H : (_ =? _)%N = false |- _ => apply N.eqb_neq in H
  end.

Lemma pair_by_fst {A B} (p : A * B) a : p.1 = a → p = (a, p.2).
Proof. destruct p; simpl; congruence. Qed.

Create HintDb nula.

(** ** Bytes *)

#[global] Instance byte_eq_dec : EqDecision byte := Byte.byte_eq_dec.

Lemma byte_of_to_N (b : byte) : Byte.of_N (Byte.to_N b) = Some b.
Proof. apply Byte.of_to_N. Qed.

#[global] Instance byte_countable : Countable byte.
Proof. exact (inj_countable Byte.to_N Byte.of_N byte_of_to_N). Defined.

#[global] Instance byte_inhabited : Inhabited byte := populate x00.

Lemma byte_to_N_inj (a b : byte) : Byte.to_N a = Byte.to_N b → a = b.
Proof.
  intros H. apply (f_equal Byte.of_N) in H. rewrite !byte_of_to_N in H. congruence.
Qed.

Lemma byte_to_N_lt (b : byte) : (Byte.to_N b < 256)%N.
Proof. pose proof (Byte.to_N_bounded b). lia. Qed.

(** The low eight bits of a machine integer ([as u8]). *)
Definition byte_of_N (n : N) : byte := default x00 (Byte.of_N (n mod 256)).

Lemma byte_of_N_to_N (b : byte) : byte_of_N (Byte.to_N b) = b.
Proof.
  unfold byte_of_N. rewrite N.mod_small by apply byte_to_N_lt.
  by rewrite byte_of_to_N.
Qed.

Lemma to_N_byte_of_N (n : N) : Byte.to_N (byte_of_N n) = (n mod 256)%N.
Proof.
  unfold byte_of_N. destruct (Byte.of_N (n mod 256)) as [b|] eqn:E; simpl.
  - by apply Byte.to_of_N in E.
  - apply Byte.of_N_None_iff in E. pose proof (N.mod_lt n 256). lia.
Qed.

(** The bytes of a Rust [str] / [String] (stored as its UTF-8 bytes). *)
Definition as_bytes (s : string) : list byte := String.list_byte_of_string s.

Lemma as_bytes_cons c (s : string) :
  as_bytes (String c s) = Ascii.byte_of_ascii c :: as_bytes s.
Proof. done. Qed.

Lemma as_bytes_app (s t : string) : as_bytes (s +:+ t) = as_bytes s ++ as_bytes t.
Proof.
  induction s as [|c s IH]; [done|].
  change (as_bytes (String c (s +:+ t)) = as_bytes (String c s) ++ as_bytes t).
  by rewrite !as_bytes_cons, IH.
Qed.

Lemma length_as_bytes (s : string) : length (as_bytes s) = String.length s.
Proof. induction s as [|c s IH]; [done|]. rewrite as_bytes_cons. simpl. by rewrite IH. Qed.

Lemma as_bytes_inj (s t : string) : as_bytes s = as_bytes t → s = t.
Proof.
  unfold as_bytes. intros H. apply (f_equal String.string_of_list_byte) in H.
  by rewrite !String.string_of_list_byte_of_string in H.
Qed.

(** ** Lexicographic order on byte slices ([Ord for \[u8\]]) *)

Fixpoint bytes_cmp (a b : list byte) : comparison :=
  match a, b with
  | [], [] => Eq
  | [], _ :: _ => Lt
  | _ :: _, [] => Gt
  | x :: a', y :: b' =>
      match N.compare (Byte.to_N x) (Byte.to_N y) with
      | Eq => bytes_cmp a' b'
      | c => c
      end
  end.

Definition bytes_le (a b : list byte) : Prop := bytes_cmp a b ≠ Gt.
Definition bytes_lt (a b : list byte) : Prop := bytes_cmp a b = Lt.

#[global] Instance bytes_le_dec a b : Decision (bytes_le a b).
Proof. unfold bytes_le. destruct (bytes_cmp a b); [left|left|right]; congruence. Defined.
#[global] Instance bytes_lt_dec a b : Decision (bytes_lt a b).
Proof. unfold bytes_lt. destruct (bytes_cmp a b); [right|left|right]; congruence. Defined.

Lemma bytes_cmp_antisym a b : bytes_cmp b a = CompOpp (bytes_cmp a b).
Proof.
  revert b. induction a as [|x a IH]; intros [|y b]; simpl; try done.
  rewrite (N.compare_antisym (Byte.to_N x) (Byte.to_N y)).
  destruct (N.compare (Byte.to_N x) (Byte.to_N y)); simpl; auto.
Qed.

Lemma bytes_cmp_eq a b : bytes_cmp a b = Eq ↔ a = b.
Proof.
  split.
  - revert b. induction a as [|x a IH]; intros [|y b]; simpl; try done.
    destruct (N.compare_spec (Byte.to_N x) (Byte.to_N y)) as [E|?|?]; try done.
    intros ?%IH. apply byte_to_N_inj in E. by subst.
  - intros <-. induction a as [|x a IH]; simpl; [done|]. by rewrite N.compare_refl.
Qed.

Lemma bytes_cmp_lt_trans a b c :
  bytes_cmp a b = Lt → bytes_cmp b c = Lt → bytes_cmp a c = Lt.
Proof.
  revert b c. induction a as [|x a IH]; intros [|y b] [|z c]; simpl; try done.
  destruct (N.compare_spec (Byte.to_N x) (Byte.to_N y)) as [E1|?|?]; try done;
  destruct (N.compare_spec (Byte.to_N y) (Byte.to_N z)) as [E2|?|?]; try done;
  destruct (N.compare_spec (Byte.to_N x) (Byte.to_N z)) as [E3|?|?]; try done; try lia.
  apply IH.
Qed.

#[global] Instance bytes_le_trans : Transitive bytes_le.
Proof.
  intros a b c. unfold bytes_le. intros H1 H2.
  destruct (bytes_cmp a b) eqn:E1; [|clear H1|done].
  - by apply bytes_cmp_eq in E1 as ->.
  - destruct (bytes_cmp b c) eqn:E2; [| |done].
    + apply bytes_cmp_eq in E2 as ->. by rewrite E1.
    + by rewrite (bytes_cmp_lt_trans _ _ _ E1 E2).
Qed.

#[global] Instance bytes_le_antisym : AntiSymm (=) bytes_le.
Proof.
  intros a b. unfold bytes_le. rewrite (bytes_cmp_antisym a b).
  destruct (bytes_cmp a b) eqn:E; simpl; try done. intros _ _. by apply bytes_cmp_eq.
Qed.

#[global] Instance bytes_le_total : Total bytes_le.
Proof.
  intros a b. unfold bytes_le. rewrite (bytes_cmp_antisym a b).
  destruct (bytes_cmp a b); simpl; auto.
Qed.

#[global] Instance bytes_le_refl : Reflexive bytes_le.
Proof. intros a. unfold bytes_le. by rewrite (proj2 (bytes_cmp_eq a a) eq_refl). Qed.

Lemma bytes_lt_le_ne a b : bytes_lt a b ↔ bytes_le a b ∧ a ≠ b.
Proof.
  unfold bytes_lt, bytes_le. rewrite <-(bytes_cmp_eq a b).
  destruct (bytes_cmp a b); intuition congruence.
Qed.

Lemma bytes_not_le a b : ¬ bytes_le a b ↔ bytes_lt b a.
Proof.
  unfold bytes_lt, bytes_le. rewrite (bytes_cmp_antisym a b).
  destruct (bytes_cmp a b); simpl; intuition congruence.
Qed.

(** Equal-length prefixes decide the comparison first. *)
Lemma bytes_cmp_app a1 b1 a2 b2 :
  length a1 = length b1 →
  bytes_cmp (a1 ++ a2) (b1 ++ b2) =
    match bytes_cmp a1 b1 with Eq => bytes_cmp a2 b2 | c => c end.
Proof.
  revert b1. induction a1 as [|x a1 IH]; intros [|y b1] Hlen; simplify_eq/=; [done|].
  destruct (N.compare (Byte.to_N x) (Byte.to_N y)); auto.
Qed.

(** ** Ordered iteration of [BTreeSet] and [BTreeMap]

    A [BTreeSet<A>] is a [gset A] and a [BTreeMap<K, V>] a [gmap K V]; what the
    B-tree adds over the hash containers is the iteration order, which is the
    key order [R]. *)

Section btree.
Context {A : Type} `{Countable A} (R : relation A) `{!∀ x y, Decision (R x y)}.

(** [BTreeSet::iter]. *)
Definition btree_iter (s : gset A) : list A := merge_sort R (elements s).

(** [BTreeMap::values]. *)
Definition btree_values {V} (m : gmap A V) : list V :=
  omap (λ k, m !! k) (btree_iter (dom m)).

Lemma elem_of_btree_iter s x : x ∈ btree_iter s ↔ x ∈ s.
Proof. unfold btree_iter. by rewrite merge_sort_Permutation, elem_of_elements. Qed.

Lemma NoDup_btree_iter s : NoDup (btree_iter s).
Proof. unfold btree_iter. rewrite merge_sort_Permutation. apply NoDup_elements. Qed.

Lemma length_btree_iter s : length (btree_iter s) = size s.
Proof. unfold btree_iter. by rewrite merge_sort_Permutation. Qed.

Context `{!Total R, !Transitive R}.

Lemma StronglySorted_btree_iter s : StronglySorted R (btree_iter s).
Proof. apply Sorted_StronglySorted; [done|]. apply Sorted_merge_sort; apply _. Qed.

Lemma btree_iter_unique `{!AntiSymm (=) R} s l :
  StronglySorted R l → NoDup l → (∀ x, x ∈ l ↔ x ∈ s) → l = btree_iter s.
Proof.
  intros Hs Hnd Hel. eapply StronglySorted_unique; eauto using StronglySorted_btree_iter.
  apply NoDup_Permutation; auto using NoDup_btree_iter.
  intros x. by rewrite Hel, elem_of_btree_iter.
Qed.
End btree.

(** ** Lists *)

Section lists.
Context {A B : Type}.

(** [Iterator::take(limit)] with [limit = filter.limit.unwrap_or(usize::MAX)];
    a [Vec] never holds more than [usize::MAX] elements, so [None] takes all. *)
Definition take_limit (limit : option N) (l : list A) : list A :=
  match limit with None => l | Some n => take (N.to_nat n) l end.

Lemma elem_of_take_limit limit (l : list A) x : x ∈ take_limit limit l → x ∈ l.
Proof.
  destruct limit; simpl; [|done]. intros (i & ? & _)%elem_of_take.
  by eapply list_elem_of_lookup_2.
Qed.

Lemma length_take_limit n (l : list A) : (length (take_limit (Some n) l) ≤ N.to_nat n)%nat.
Proof. simpl. rewrite length_take. lia. Qed.

Lemma StronglySorted_sublist (R : relation A) l1 l2 :
  l1 `sublist_of` l2 → StronglySorted R l2 → StronglySorted R l1.
Proof.
  induction 1 as [|x l1 l2 Hsub IH|x l1 l2 Hsub IH]; intros Hs; [done|..];
    apply StronglySorted_cons in Hs as [Hx Hs]; auto.
  apply StronglySorted_cons. split; auto.
  rewrite Forall_forall in *. intros y Hy. apply Hx.
  eapply sublist_subseteq; eauto.
Qed.

Lemma take_limit_sublist limit (l : list A) : take_limit limit l `sublist_of` l.
Proof. destruct limit; [apply sublist_take|reflexivity]. Qed.

Lemma filter_sublist_of (P : A → Prop) `{!∀ x, Decision (P x)} (l : list A) :
  filter P l `sublist_of` l.
Proof. apply sublist_filter. Qed.

Lemma StronglySorted_omap (RA : relation A) (RB : relation B) (f : A → option B) l :
  (∀ x y x' y', f x = Some x' → f y = Some y' → RA x y → RB x' y') →
  StronglySorted RA l → StronglySorted RB (omap f l).
Proof.
  intros Hf. induction 1 as [|x l Hs IH Hx]; simpl; [constructor|].
  destruct (f x) as [x'|] eqn:Ex; [|done].
  constructor; [done|]. apply Forall_forall. intros y' (y & Hy & Ey)%list_elem_of_omap.
  rewrite Forall_forall in Hx. eapply Hf; eauto.
Qed.

Lemma NoDup_fmap_inj_elem (f : A → B) (l : list A) x y :
  NoDup (f <$> l) → x ∈ l → y ∈ l → f x = f y → x = y.
Proof.
  induction l as [|a l IH]; [set_solver|]. rewrite fmap_cons, NoDup_cons, !elem_of_cons.
  intros [Hn Hnd] [->|Hx] [->|Hy] E; [done| | |by apply IH].
  - destruct Hn. rewrite E. by apply list_elem_of_fmap_2.
  - destruct Hn. rewrite <-E. by apply list_elem_of_fmap_2.
Qed.

Lemma NoDup_omap_inj (f : A → option B) l :
  (∀ x y z, x ∈ l → y ∈ l → f x = Some z → f y = Some z → x = y) →
  NoDup l → NoDup (omap f l).
Proof.
  intros Hinj. induction 1 as [|x l Hx Hnd IH]; simpl; [constructor|].
  destruct (f x) as [x'|] eqn:Ex.
  - constructor.
    + intros (y & Hy & Ey)%list_elem_of_omap.
      apply Hx. rewrite (Hinj x y x'); auto; set_solver.
    + apply IH. intros ?????. apply Hinj; set_solver.
  - apply IH. intros ?????. apply Hinj; set_solver.
Qed.

(** Last element: [DoubleEndedIterator::next_back]. *)
Lemma StronglySorted_last (R : relation A) `{!Reflexive R} l x :
  StronglySorted R l → last l = Some x → ∀ y, y ∈ l → R y x.
Proof.
  induction 1 as [|z l Hs IH Hz]; simpl; [done|].
  destruct l as [|w l]; intros Hl y Hy.
  - simplify_eq/=. apply list_elem_of_singleton in Hy as ->. done.
  - rewrite Forall_forall in Hz. apply elem_of_cons in Hy as [->|Hy]; [|by apply IH].
    apply Hz. by apply last_Some_elem_of.
Qed.
End lists.

#[global] Hint Resolve take_limit_sublist filter_sublist_of : nula.

(** A property of the numbers below [k] holds when it holds of each of them. *)
Lemma N_bounded_forall (k : nat) (P : N → Prop) :
  Forall P (N.of_nat <$> seq 0 k) → ∀ d, (d < N.of_nat k)%N → P d.
Proof.
  rewrite Forall_forall. intros HP d Hd. apply HP. apply list_elem_of_fmap.
  exists (N.to_nat d). split; [lia|]. apply elem_of_seq. lia.
Qed.
