(* ===== verification/Encoding.v ===== *)
(** * Encodings shared by the event model

    - [Module Hex]: [crates/nula-core/src/util/hex.rs], over the [faster_hex]
      crate, which is a parameter ([Class FasterHex]) with its documented
      behaviour as laws ([Class FasterHexLaws]);
    - [Module Dec]: the standard library's decimal [Display] and [FromStr] of
      the unsigned machine integers, which [Kind], [Timestamp], [Coordinate] and
      the NIP-09/40 parsers use;
    - [Module BigEndian]: [to_be_bytes] / [from_be_bytes], used by the redb keys. *)

From Stdlib Require Import Ascii NArith Lia.
From S2P Require Import Prelude.

(** ** Big-endian machine integers *)

Module BigEndian.

(** [uK::to_be_bytes], [k] bytes. *)
Fixpoint to_be_bytes (k : nat) (n : N) : list byte :=
  match k with
  | O => []
  | S k' => to_be_bytes k' (n / 256) ++ [byte_of_N n]
  end.

(** [uK::from_be_bytes]. *)
Definition from_be_bytes (bs : list byte) : N :=
  foldl (λ acc b, (acc * 256 + Byte.to_N b)%N) 0%N bs.

Lemma length_to_be_bytes k n : length (to_be_bytes k n) = k.
Proof. revert n. induction k; intros; simpl; [done|]. rewrite length_app, IHk. simpl. lia. Qed.

Lemma pow256_S k : (256 ^ N.of_nat (S k) = 256 ^ N.of_nat k * 256)%N.
Proof. rewrite Nat2N.inj_succ, N.pow_succ_r'. lia. Qed.

Lemma from_to_be_bytes k n :
  (n < 256 ^ N.of_nat k)%N → from_be_bytes (to_be_bytes k n) = n.
Proof.
  revert n. induction k as [|k IH]; intros n Hn; [simpl in *; unfold from_be_bytes; simpl; lia|].
  rewrite pow256_S in Hn. simpl. unfold from_be_bytes in *. rewrite foldl_app, IH; simpl.
  - rewrite to_N_byte_of_N. pose proof (N.div_mod n 256). lia.
  - apply N.Div0.div_lt_upper_bound. lia.
Qed.

Lemma compare_div_mod (n m : N) :
  N.compare n m =
    match N.compare (n / 256) (m / 256) with
    | Eq => N.compare (n mod 256) (m mod 256)
    | c => c
    end.
Proof.
  pose proof (N.div_mod n 256 ltac:(done)). pose proof (N.div_mod m 256 ltac:(done)).
  pose proof (N.mod_lt n 256 ltac:(done)). pose proof (N.mod_lt m 256 ltac:(done)).
  revert H H0 H1 H2.
  generalize (n / 256)%N (m / 256)%N (n mod 256)%N (m mod 256)%N.
  intros q1 q2 r1 r2 -> -> Hr1 Hr2.
  destruct (N.compare_spec q1 q2) as [->|?|?];
    [destruct (N.compare_spec r1 r2) as [->|?|?]|..];
    rewrite ?N.compare_eq_iff, ?N.compare_lt_iff, ?N.compare_gt_iff; lia.
Qed.

(** Byte order of the encoding is the numeric order. *)
Lemma bytes_cmp_be k n m :
  (n < 256 ^ N.of_nat k)%N → (m < 256 ^ N.of_nat k)%N →
  bytes_cmp (to_be_bytes k n) (to_be_bytes k m) = N.compare n m.
Proof.
  revert n m. induction k as [|k IH]; intros n m Hn Hm.
  { simpl in *. symmetry. apply N.compare_eq_iff. lia. }
  rewrite pow256_S in Hn, Hm. simpl.
  rewrite bytes_cmp_app by by rewrite !length_to_be_bytes.
  rewrite IH by (apply N.Div0.div_lt_upper_bound; lia).
  rewrite (compare_div_mod n m). simpl. rewrite !to_N_byte_of_N.
  by destruct (N.compare (n / 256) (m / 256)); try done;
    destruct (N.compare (n mod 256) (m mod 256)).
Qed.

Lemma to_be_bytes_inj k n m :
  (n < 256 ^ N.of_nat k)%N → (m < 256 ^ N.of_nat k)%N →
  to_be_bytes k n = to_be_bytes k m → n = m.
Proof. intros Hn Hm E. by rewrite <-(from_to_be_bytes k n), <-(from_to_be_bytes k m), E. Qed.

Lemma value_snoc l b : from_be_bytes (l ++ [b]) = (from_be_bytes l * 256 + Byte.to_N b)%N.
Proof. unfold from_be_bytes. by rewrite foldl_snoc. Qed.

Lemma value_bound l : (from_be_bytes l < 256 ^ N.of_nat (length l))%N.
Proof.
  induction l as [|b l IH] using rev_ind; [done|].
  rewrite value_snoc, length_app, Nat.add_comm.
  change (length [b] + length l)%nat with (S (length l)).
  rewrite pow256_S. pose proof (byte_to_N_lt b). lia.
Qed.

Lemma value_cons b l :
  from_be_bytes (b :: l) = (Byte.to_N b * 256 ^ N.of_nat (length l) + from_be_bytes l)%N.
Proof.
  induction l as [|c l IH] using rev_ind; [unfold from_be_bytes; simpl; lia|].
  rewrite app_comm_cons, !value_snoc, IH, length_app, Nat.add_comm.
  change (length [c] + length l)%nat with (S (length l)). rewrite pow256_S. lia.
Qed.

Lemma to_from_be_bytes l : to_be_bytes (length l) (from_be_bytes l) = l.
Proof.
  induction l as [|b l IH] using rev_ind; [done|].
  rewrite length_app, Nat.add_comm. change (length [b] + length l)%nat with (S (length l)).
  rewrite value_snoc. cbn [to_be_bytes]. pose proof (byte_to_N_lt b).
  rewrite (N.mul_comm (from_be_bytes l) 256), N.add_comm.
  replace ((Byte.to_N b + 256 * from_be_bytes l) / 256)%N with (from_be_bytes l).
  2:{ rewrite N.mul_comm, N.div_add by done. rewrite N.div_small by done. lia. }
  rewrite IH. do 2 f_equal. apply byte_to_N_inj. rewrite to_N_byte_of_N.
  rewrite N.mul_comm, N.Div0.mod_add. by apply N.mod_small.
Qed.

End BigEndian.

(** ** Decimal text of unsigned integers *)

Module Dec.
Local Open Scope N_scope.

Definition digit_char (d : N) : Ascii.ascii := Ascii.ascii_of_N (48 + d).

(** [char::to_digit(10)]. *)
Definition char_digit (c : Ascii.ascii) : option N :=
  let n := Ascii.N_of_ascii c in
  if (48 <=? n) && (n <=? 57) then Some (n - 48) else None.

(** [Display for uK]; [fuel] bounds the number of digits. *)
Fixpoint digits (fuel : nat) (n : N) (acc : string) : string :=
  match fuel with
  | O => acc
  | S fuel' =>
      let acc' := String (digit_char (n mod 10)) acc in
      if (n / 10 =? 0) then acc' else digits fuel' (n / 10) acc'
  end.

(** A number has at most as many decimal digits as it has bits. *)
Definition to_string (n : N) : string := digits (S (N.to_nat (N.size n))) n EmptyString.

Fixpoint parse_digits (max acc : N) (s : string) : option N :=
  match s with
  | EmptyString => Some acc
  | String c s' =>
      match char_digit c with
      | None => None
      | Some d =>
          let acc' := acc * 10 + d in
          if acc' <=? max then parse_digits max acc' s' else None
      end
  end.

(** [str::parse::<uK>] with [max = uK::MAX]: an optional [+], then at least one
    decimal digit, with overflow reported as an error. *)
Definition parse_uint (max : N) (s : string) : option N :=
  match s with
  | EmptyString => None
  | String c s' =>
      if Ascii.eqb c "+"%char then
        match s' with EmptyString => None | _ => parse_digits max 0 s' end
      else parse_digits max 0 s
  end.

Definition u16_max : N := 65535.
Definition u64_max : N := 18446744073709551615.
Definition parse_u16 : string → option N := parse_uint u16_max.
Definition parse_u64 : string → option N := parse_uint u64_max.

Lemma char_digit_digit_char d : d < 10 → char_digit (digit_char d) = Some d.
Proof.
  intros Hd. unfold char_digit, digit_char.
  rewrite Ascii.N_ascii_embedding by lia.
  replace (48 <=? 48 + d) with true by (symmetry; apply N.leb_le; lia).
  replace (48 + d <=? 57) with true by (symmetry; apply N.leb_le; lia).
  simpl. f_equal. lia.
Qed.

Lemma digit_char_not_plus d : d < 10 → Ascii.eqb (digit_char d) "+"%char = false.
Proof.
  intros Hd. apply Ascii.eqb_neq. intros E. apply (f_equal Ascii.N_of_ascii) in E.
  unfold digit_char in E. rewrite Ascii.N_ascii_embedding in E by lia. simpl in E. lia.
Qed.

Lemma parse_digits_bound max acc s n :
  acc <= max → parse_digits max acc s = Some n → n <= max.
Proof.
  revert acc. induction s as [|c s IH]; intros acc Hacc Hp; simpl in Hp; [by simplify_eq|].
  split_matches; reflect_bools; eauto.
Qed.

Lemma parse_uint_bound max s n : parse_uint max s = Some n → n <= max.
Proof.
  unfold parse_uint. destruct s as [|c s]; [done|].
  destruct (Ascii.eqb c "+"%char); [destruct s; [done|]|];
    intros Hp; (eapply (parse_digits_bound max 0); [lia|exact Hp]).
Qed.

(** The digits of [n] followed by [acc], parsed from [0], reach [n] at [acc]. *)
Lemma parse_digits_digits max fuel n acc :
  n < 2 ^ N.of_nat fuel → n <= max →
  parse_digits max 0 (digits fuel n acc) = parse_digits max n acc ∨ fuel = O.
Proof.
  revert n acc. induction fuel as [|fuel IH]; intros n acc Hf Hn; [by right|left].
  simpl. set (d := n mod 10).
  assert (d < 10) as Hd by (apply N.mod_lt; done).
  assert (n = n / 10 * 10 + d) as Hdiv by (pose proof (N.div_mod n 10); unfold d; lia).
  assert (∀ a, a = n / 10 →
    parse_digits max a (String (digit_char d) acc) = parse_digits max n acc) as Hstep.
  { intros a ->. simpl. rewrite char_digit_digit_char by done. rewrite <-Hdiv.
    by rewrite (proj2 (N.leb_le n max)). }
  destruct (N.eqb_spec (n / 10) 0) as [E|E].
  { rewrite <-(Hstep 0); [done|lia]. }
  assert (n / 10 < 2 ^ N.of_nat fuel) as Hlt.
  { rewrite Nat2N.inj_succ, N.pow_succ_r' in Hf. nia. }
  destruct (IH (n / 10) (String (digit_char d) acc)) as [-> | ->]; [done|lia|by apply Hstep|].
  simpl in Hlt. lia.
Qed.

Lemma digits_head fuel n acc :
  ∃ d s, d < 10 ∧ digits (S fuel) n acc = String (digit_char d) s.
Proof.
  revert n acc. induction fuel as [|fuel IH]; intros n acc.
  - simpl. exists (n mod 10). destruct (n / 10 =? 0); eauto using N.mod_lt.
  - change (digits (S (S fuel)) n acc) with
      (let acc' := String (digit_char (n mod 10)) acc in
       if (n / 10 =? 0) then acc' else digits (S fuel) (n / 10) acc').
    cbv zeta. destruct (n / 10 =? 0); [eauto using N.mod_lt|apply IH].
Qed.

(** Printing then parsing an in-range integer gives it back. *)
Lemma parse_to_string max n : n <= max → parse_uint max (to_string n) = Some n.
Proof.
  intros Hn. unfold to_string, parse_uint.
  destruct (digits_head (N.to_nat (N.size n)) n EmptyString) as (d & s & Hd & E).
  assert (parse_digits max 0 (digits (S (N.to_nat (N.size n))) n EmptyString) = Some n) as Hp.
  { destruct (parse_digits_digits max (S (N.to_nat (N.size n))) n EmptyString); try done.
    rewrite Nat2N.inj_succ, N2Nat.id, N.pow_succ_r'.
    pose proof (N.size_gt n). lia. }
  rewrite E in *. by rewrite digit_char_not_plus.
Qed.

Definition is_digit_char (c : Ascii.ascii) : bool := bool_decide (is_Some (char_digit c)).

Fixpoint string_forallb (p : Ascii.ascii → bool) (s : string) : bool :=
  match s with EmptyString => true | String c s' => p c && string_forallb p s' end.

Lemma digits_all_digits fuel n acc :
  string_forallb is_digit_char acc = true →
  string_forallb is_digit_char (digits fuel n acc) = true.
Proof.
  revert n acc. induction fuel as [|fuel IH]; intros n acc Hacc; simpl; [done|].
  assert (is_digit_char (digit_char (n mod 10)) = true) as Hd.
  { unfold is_digit_char. rewrite char_digit_digit_char by (by apply N.mod_lt).
    by apply bool_decide_eq_true. }
  destruct (n / 10 =? 0); [|apply IH]; simpl; by rewrite Hd.
Qed.

Lemma to_string_digits n : string_forallb is_digit_char (to_string n) = true.
Proof. by apply digits_all_digits. Qed.

End Dec.

(** ** Hex *)

(** The error type of the [faster_hex] crate, as [util/hex.rs] matches on it. *)
Inductive FhError :=
| FhInvalidChar
| FhInvalidLength (len : nat)
| FhOverflow.

(** The three [faster_hex] functions the code calls.  A function that fills a
    caller-provided buffer takes the length of the buffer and returns its new
    contents. *)
Class FasterHex := {
  fh_hex_string : list byte → string;
  fh_hex_encode : list byte → nat → result (list byte) FhError;
  fh_hex_decode : list byte → nat → result (list byte) FhError;
}.

Module Hex.
Local Open Scope N_scope.

Inductive HexError :=
| InvalidChar
| InvalidLength (len : nat)
| LengthMismatch (expected actual : nat)
| Overflow.

#[global] Instance HexError_eq_dec : EqDecision HexError.
Proof. solve_decision. Defined.

(** [impl From<faster_hex::Error> for HexError]. *)
Definition from_fh (err : FhError) : HexError :=
  match err with
  | FhInvalidChar => InvalidChar
  | FhInvalidLength len => InvalidLength len
  | FhOverflow => Overflow
  end.

(** One lowercase hex digit, as [{:x}] prints it. *)
Definition nibble_char (d : N) : ascii :=
  if d <? 10 then ascii_of_N (48 + d) else ascii_of_N (87 + d).

(** [fmt_lower]: [{byte:02x}] for each byte. *)
Fixpoint fmt_lower (bs : list byte) : string :=
  match bs with
  | [] => EmptyString
  | b :: bs' =>
      String (nibble_char (Byte.to_N b / 16))
        (String (nibble_char (Byte.to_N b mod 16)) (fmt_lower bs'))
  end.

Section hex.
Context `{FasterHex}.

Definition encode (bytes : list byte) : string := fh_hex_string bytes.

Definition encode_to_slice (bytes : list byte) (out_len : nat) : result (list byte) HexError :=
  let expected := (length bytes * 2)%nat in
  if negb (out_len =? expected)%nat then Err (LengthMismatch expected out_len)
  else map_err from_fh (fh_hex_encode bytes out_len).

Definition decode (input : list byte) : result (list byte) HexError :=
  if negb (length input mod 2 =? 0)%nat then Err (InvalidLength (length input))
  else map_err from_fh (fh_hex_decode input (length input / 2)).

Definition decode_to_slice (input : list byte) (out_len : nat) : result (list byte) HexError :=
  let expected := (out_len * 2)%nat in
  if negb (length input =? expected)%nat then Err (LengthMismatch expected (length input))
  else map_err from_fh (fh_hex_decode input out_len).
End hex.

(** A lowercase hex digit: the test [b.is_ascii_digit() || (b'a'..=b'f').contains(&b)]. *)
Definition is_lower_hex_byte (b : byte) : bool :=
  let n := Byte.to_N b in
  ((48 <=? n) && (n <=? 57)) || ((97 <=? n) && (n <=? 102)).

Lemma is_lower_hex_nibble d :
  d < 16 → is_lower_hex_byte (byte_of_ascii (nibble_char d)) = true.
Proof.
  revert d. apply (N_bounded_forall 16). repeat constructor.
Qed.

Lemma length_fmt_lower bs : length (as_bytes (fmt_lower bs)) = (2 * length bs)%nat.
Proof.
  induction bs as [|b bs IH]; [done|].
  cbn [fmt_lower]. rewrite !as_bytes_cons. cbn [length]. rewrite IH. lia.
Qed.

Lemma fmt_lower_is_hex bs : forallb is_lower_hex_byte (as_bytes (fmt_lower bs)) = true.
Proof.
  induction bs as [|b bs IH]; [done|].
  cbn [fmt_lower]. rewrite !as_bytes_cons. cbn [forallb].
  pose proof (byte_to_N_lt b). rewrite !is_lower_hex_nibble, IH; [done|..].
  - apply N.mod_lt. done.
  - apply N.Div0.div_lt_upper_bound. lia.
Qed.

End Hex.

(** What the crate's documentation promises and the code relies on: encoding
    yields lowercase hex, a decode fills its whole buffer, and decoding inverts
    the lowercase encoding. *)
Class FasterHexLaws `{FasterHex} : Prop := {
  fh_hex_string_lower : ∀ bs, fh_hex_string bs = Hex.fmt_lower bs;
  fh_hex_decode_length : ∀ src n out, fh_hex_decode src n = Ok out → length out = n;
  fh_hex_decode_lower : ∀ bs,
    fh_hex_decode (as_bytes (Hex.fmt_lower bs)) (length bs) = Ok bs;
}.
Arguments FasterHexLaws : clear implicits.
Arguments FasterHexLaws {_}.

Section hex_lemmas.
Context `{FasterHexLaws}.

Lemma hex_encode_spec bs : Hex.encode bs = Hex.fmt_lower bs.
Proof. apply fh_hex_string_lower. Qed.

Lemma hex_decode_encode bs : Hex.decode (as_bytes (Hex.encode bs)) = Ok bs.
Proof.
  unfold Hex.decode. rewrite hex_encode_spec, Hex.length_fmt_lower.
  rewrite (Nat.mul_comm 2), Nat.Div0.mod_mul, Nat.div_mul by done. simpl.
  by rewrite fh_hex_decode_lower.
Qed.

Lemma hex_decode_to_slice_encode bs :
  Hex.decode_to_slice (as_bytes (Hex.encode bs)) (length bs) = Ok bs.
Proof.
  unfold Hex.decode_to_slice. rewrite hex_encode_spec, Hex.length_fmt_lower.
  rewrite (Nat.mul_comm 2), Nat.eqb_refl. simpl. by rewrite fh_hex_decode_lower.
Qed.

Lemma hex_decode_length input out :
  Hex.decode input = Ok out → length input = (2 * length out)%nat.
Proof.
  unfold Hex.decode. destruct (Nat.eqb_spec (length input mod 2) 0) as [E|]; [|done].
  simpl. destruct (fh_hex_decode _ _) eqn:Ed; simpl; [|done]. intros [= ->].
  apply fh_hex_decode_length in Ed. rewrite Ed.
  rewrite (Nat.div_mod_eq (length input) 2) at 1. by rewrite E, Nat.add_0_r.
Qed.
End hex_lemmas.

(** A concrete decoder with the documented behaviour, used by the witnesses. *)
Module HexModel.
Local Open Scope N_scope.

Definition unhex_char (b : byte) : option N :=
  let n := Byte.to_N b in
  if (48 <=? n) && (n <=? 57) then Some (n - 48)
  else if (97 <=? n) && (n <=? 102) then Some (n - 87)
  else if (65 <=? n) && (n <=? 70) then Some (n - 55)
  else None.

Fixpoint unhex (src : list byte) : option (list byte) :=
  match src with
  | [] => Some []
  | h :: l :: src' =>
      match unhex_char h, unhex_char l, unhex src' with
      | Some hi, Some lo, Some out => Some (byte_of_N (hi * 16 + lo) :: out)
      | _, _, _ => None
      end
  | _ => None
  end.

#[global] Instance faster_hex : FasterHex := {|
  fh_hex_string := Hex.fmt_lower;
  fh_hex_encode bs n :=
    if (n =? 2 * length bs)%nat then Ok (as_bytes (Hex.fmt_lower bs))
    else Err (FhInvalidLength n);
  fh_hex_decode src n :=
    if negb (length src =? 2 * n)%nat then Err (FhInvalidLength (length src))
    else match unhex src with
         | Some out => if (length out =? n)%nat then Ok out else Err FhOverflow
         | None => Err FhInvalidChar
         end;
|}.

Lemma unhex_nibble d : d < 16 → unhex_char (byte_of_ascii (Hex.nibble_char d)) = Some d.
Proof.
  revert d. apply (N_bounded_forall 16). repeat constructor.
Qed.

Lemma unhex_fmt_lower bs : unhex (as_bytes (Hex.fmt_lower bs)) = Some bs.
Proof.
  induction bs as [|b bs IH]; [done|].
  cbn [Hex.fmt_lower]. rewrite !as_bytes_cons. cbn [unhex].
  pose proof (byte_to_N_lt b) as Hb.
  rewrite !unhex_nibble, IH by (first [by apply N.mod_lt | apply N.Div0.div_lt_upper_bound; lia]).
  f_equal. f_equal. rewrite (N.mul_comm _ 16), <-N.div_mod by done. apply byte_of_N_to_N.
Qed.

#[global] Instance faster_hex_laws : FasterHexLaws.
Proof.
  split.
  - done.
  - intros src n out. unfold fh_hex_decode, faster_hex.
    destruct (negb _); [done|]. destruct (unhex src) as [l|]; [|done].
    destruct (Nat.eqb_spec (length l) n); [|done]. by intros [= <-].
  - intros bs; simpl. rewrite Hex.length_fmt_lower, unhex_fmt_lower. simpl.
    by rewrite !Nat.eqb_refl.
Qed.

End HexModel.
