(* ===== verification/Text.v ===== *)
(** * Text

    The functions of Rust's [str] that the code uses: UTF-8 validation
    ([Module Utf8]), the characters of a string, trimming, prefixes and
    separators.  A Rust [String] is the Stdlib [string] of its UTF-8 bytes. *)

From Stdlib Require Import Ascii NArith Lia.
From S2P Require Import Prelude Encoding.

(** ** UTF-8 *)

(** [core::str::Utf8Error]. *)
Record Utf8Error := mkUtf8Error { valid_up_to : nat; error_len : option nat }.

Module Utf8.

Local Open Scope N_scope.

Definition within (lo hi : N) (b : byte) : bool := (lo <=? Byte.to_N b) && (Byte.to_N b <=? hi).

(** A continuation byte: [b as i8 < -64]. *)
Definition continuation (b : byte) : bool := within 128 191 b.

(** The second byte allowed after the first one of a three-byte character. *)
Definition second_of_three (first second : byte) : bool :=
  (within 224 224 first && within 160 191 second)
  || (within 225 236 first && within 128 191 second)
  || (within 237 237 first && within 128 159 second)
  || (within 238 239 first && within 128 191 second).

(** The second byte allowed after the first one of a four-byte character. *)
Definition second_of_four (first second : byte) : bool :=
  (within 240 240 first && within 144 191 second)
  || (within 241 243 first && within 128 191 second)
  || (within 244 244 first && within 128 143 second).

(** [run_utf8_validation] from offset [index] on. *)
Fixpoint validate (index : nat) (bs : list byte) : result unit Utf8Error :=
  let err l := Err (mkUtf8Error index l) in
  match bs with
  | [] => Ok tt
  | first :: rest =>
      if Byte.to_N first <? 128 then validate (index + 1) rest
      else if within 194 223 first then
        match rest with
        | [] => err None
        | b2 :: rest => if continuation b2 then validate (index + 2) rest else err (Some 1%nat)
        end
      else if within 224 239 first then
        match rest with
        | [] => err None
        | b2 :: rest =>
            if second_of_three first b2 then
              match rest with
              | [] => err None
              | b3 :: rest => if continuation b3 then validate (index + 3) rest else err (Some 2%nat)
              end
            else err (Some 1%nat)
        end
      else if within 240 244 first then
        match rest with
        | [] => err None
        | b2 :: rest =>
            if second_of_four first b2 then
              match rest with
              | [] => err None
              | b3 :: rest =>
                  if continuation b3 then
                    match rest with
                    | [] => err None
                    | b4 :: rest =>
                        if continuation b4 then validate (index + 4) rest else err (Some 3%nat)
                    end
                  else err (Some 2%nat)
              end
            else err (Some 1%nat)
        end
      else err (Some 1%nat)
  end.

(** [str::from_utf8]. *)
Definition from_utf8 (bs : list byte) : result string Utf8Error :=
  let? _ := validate 0 bs in Ok (String.string_of_list_byte bs).

(** [Display for Utf8Error]. *)
Definition error_string (e : Utf8Error) : string :=
  let index := Dec.to_string (N.of_nat (valid_up_to e)) in
  match error_len e with
  | Some n => "invalid utf-8 sequence of " +:+ Dec.to_string (N.of_nat n) +:+ " bytes from index " +:+ index
  | None => "incomplete utf-8 byte sequence from index " +:+ index
  end.

(** What holds of every Rust [str]. *)
Definition is_str (s : string) : Prop := validate 0 (as_bytes s) = Ok tt.

#[global] Instance is_str_dec s : Decision (is_str s).
Proof.
  unfold is_str. destruct (validate 0 (as_bytes s)) as [[]|]; [by left|right; congruence].
Defined.

Lemma from_utf8_as_bytes s : is_str s → from_utf8 (as_bytes s) = Ok s.
Proof.
  unfold is_str, from_utf8, as_bytes. intros ->. simpl.
  by rewrite String.string_of_list_byte_of_string.
Qed.

Lemma from_utf8_Ok bs s : from_utf8 bs = Ok s → is_str s ∧ as_bytes s = bs.
Proof.
  unfold from_utf8, is_str, as_bytes. destruct (validate 0 bs) as [[]|] eqn:E; [|done].
  intros [= <-]. by rewrite String.list_byte_of_string_of_list_byte.
Qed.

(** ASCII text is UTF-8. *)
Definition ascii_only (s : string) : bool :=
  forallb (λ b, Byte.to_N b <? 128) (as_bytes s).

Lemma ascii_validate index bs :
  forallb (λ b, Byte.to_N b <? 128) bs = true → validate index bs = Ok tt.
Proof.
  revert index. induction bs as [|b bs IH]; intros index; [done|].
  cbn [forallb validate]. intros [-> ?]%andb_prop. by apply IH.
Qed.

Lemma ascii_is_str s : ascii_only s = true → is_str s.
Proof. apply ascii_validate. Qed.

End Utf8.

(** ** [str::chars] *)

Definition is_continuation (c : ascii) : bool :=
  let n := N_of_ascii c in ((128 <=? n) && (n <? 192))%N.

Fixpoint chars (s : string) : list string :=
  match s with
  | EmptyString => []
  | String c s' =>
      match chars s' with
      | String d r :: t =>
          if is_continuation d then String c (String d r) :: t
          else String c EmptyString :: String d r :: t
      | _ => [String c EmptyString]
      end
  end.

Definition char_str (c : ascii) : string := String c EmptyString.

Lemma string_app_assoc (a b c : string) : (a +:+ b) +:+ c = a +:+ (b +:+ c).
Proof. apply as_bytes_inj. by rewrite !as_bytes_app, <-app_assoc. Qed.

(** ** Separators *)

(** [str::split_once] and [str::splitn] on a character. *)

Fixpoint split_once (sep : ascii) (s : string) : option (string * string) :=
  match s with
  | EmptyString => None
  | String c s' =>
      if Ascii.eqb c sep then Some (EmptyString, s')
      else match split_once sep s' with
           | Some (a, b) => Some (String c a, b)
           | None => None
           end
  end.

Fixpoint splitn (n : nat) (sep : ascii) (s : string) : list string :=
  match n with
  | O => []
  | 1%nat => [s]
  | S n' =>
      match split_once sep s with
      | Some (a, b) => a :: splitn n' sep b
      | None => [s]
      end
  end.

Fixpoint no_char (sep : ascii) (s : string) : bool :=
  match s with EmptyString => true | String c s' => negb (Ascii.eqb c sep) && no_char sep s' end.

Lemma split_once_app sep a b :
  no_char sep a = true → split_once sep (a +:+ String sep b) = Some (a, b).
Proof.
  induction a as [|c a IH]; intros Ha; simpl in *.
  - by rewrite Ascii.eqb_refl.
  - reflect_bools. rewrite H. by rewrite IH.
Qed.

Lemma split_once_None sep s : no_char sep s = true → split_once sep s = None.
Proof. induction s as [|c s IH]; simpl; [done|]. intros. reflect_bools. by rewrite H, IH. Qed.

(** [str::split] on one character. *)
Fixpoint split (sep : ascii) (s : string) : list string :=
  match s with
  | EmptyString => [EmptyString]
  | String c s' =>
      if Ascii.eqb c sep then EmptyString :: split sep s'
      else match split sep s' with
           | [] => [String c EmptyString]
           | piece :: rest => String c piece :: rest
           end
  end.

(** [slice::join] with a one-character separator. *)
Fixpoint join (sep : ascii) (pieces : list string) : string :=
  match pieces with
  | [] => EmptyString
  | [p] => p
  | p :: rest => p +:+ String sep (join sep rest)
  end.

Lemma split_ne sep s : split sep s ≠ [].
Proof. destruct s as [|c s]; simpl; [done|]. by repeat case_match. Qed.

Lemma split_no_char sep s : no_char sep s = true → split sep s = [s].
Proof.
  induction s as [|c s IH]; simpl; [done|]. intros [Hc Hs]%andb_prop.
  apply negb_true_iff in Hc. by rewrite Hc, IH.
Qed.

Lemma split_app sep a s : no_char sep a = true → split sep (a +:+ String sep s) = a :: split sep s.
Proof.
  induction a as [|c a IH]; cbn [no_char].
  - intros _. simpl. by rewrite Ascii.eqb_refl.
  - intros [Hc Ha]%andb_prop. apply negb_true_iff in Hc.
    change (split sep (String c a +:+ String sep s))
      with (if Ascii.eqb c sep then EmptyString :: split sep (a +:+ String sep s)
            else match split sep (a +:+ String sep s) with
                 | [] => [String c EmptyString] | piece :: rest => String c piece :: rest end).
    rewrite Hc. by rewrite IH.
Qed.

Lemma split_join sep ps :
  ps ≠ [] → Forall (λ p, no_char sep p = true) ps → split sep (join sep ps) = ps.
Proof.
  induction ps as [|p [|q ps] IH]; intros Hne Hf; [done|..].
  - apply Forall_cons in Hf as [Hf _]. exact (split_no_char _ _ Hf).
  - apply Forall_cons in Hf as [Hp Hf]. 
    change (join sep (p :: q :: ps)) with (p +:+ String sep (join sep (q :: ps))).
    rewrite split_app by done.
    by rewrite IH.
Qed.

Lemma join_split sep s : join sep (split sep s) = s.
Proof.
  induction s as [|c s IH]; [done|]. simpl.
  pose proof (split_ne sep s). destruct (split sep s) as [|p rest] eqn:E; [done|].
  destruct (Ascii.eqb_spec c sep) as [->|].
  - simpl. by rewrite <-IH.
  - simpl in *. destruct rest; simpl in *; by rewrite <-IH.
Qed.

Lemma no_char_app sep a b : no_char sep (a +:+ b) = no_char sep a && no_char sep b.
Proof.
  induction a as [|c a IH]; [done|].
  change (negb (Ascii.eqb c sep) && no_char sep (a +:+ b)
          = (negb (Ascii.eqb c sep) && no_char sep a) && no_char sep b).
  by rewrite IH, andb_assoc.
Qed.

(** ** Trimming, prefixes, case *)

Module Text.

(** The bytes [ns] as a string. *)
Definition utf8 (ns : list N) : string := String.string_of_list_byte (byte_of_N <$> ns).

(** [char::is_whitespace] on a character's UTF-8 form: the Unicode property
    White_Space. *)
Definition white_space : list string :=
  map utf8
    [[9]; [10]; [11]; [12]; [13]; [32]; [194; 133]; [194; 160]; [225; 154; 128];
     [226; 128; 128]; [226; 128; 129]; [226; 128; 130]; [226; 128; 131]; [226; 128; 132];
     [226; 128; 133]; [226; 128; 134]; [226; 128; 135]; [226; 128; 136]; [226; 128; 137];
     [226; 128; 138]; [226; 128; 168]; [226; 128; 169]; [226; 128; 175]; [226; 129; 159];
     [227; 128; 128]]%N.
Definition is_whitespace (c : string) : bool := bool_decide (c ∈ white_space).

Fixpoint skip_white (cs : list string) : list string :=
  match cs with
  | [] => []
  | c :: cs' => if is_whitespace c then skip_white cs' else cs
  end.

(** [str::trim]. *)
Definition trim (s : string) : string :=
  String.concat EmptyString (rev (skip_white (rev (skip_white (chars s))))).

(** [str::strip_prefix]. *)
Fixpoint strip_prefix (prefix s : string) : option string :=
  match prefix, s with
  | EmptyString, _ => Some s
  | String a prefix', String b s' =>
      if Ascii.eqb a b then strip_prefix prefix' s' else None
  | String _ _, EmptyString => None
  end.

Lemma strip_prefix_app p s : strip_prefix p (p +:+ s) = Some s.
Proof. induction p as [|c p IH]; simpl; [done|]. by rewrite Ascii.eqb_refl. Qed.

Lemma strip_prefix_Some p s r : strip_prefix p s = Some r → s = p +:+ r.
Proof.
  revert s. induction p as [|c p IH]; intros s; [by intros [= <-]|].
  destruct s as [|d s]; [done|]. simpl. destruct (Ascii.eqb_spec c d) as [->|]; [|done].
  by intros ->%IH.
Qed.

Definition starts_with (s p : string) : bool := bool_decide (is_Some (strip_prefix p s)).

(** [str::to_ascii_uppercase]. *)
Definition upper (c : ascii) : ascii :=
  let n := N_of_ascii c in
  if ((97 <=? n) && (n <=? 122))%N then ascii_of_N (n - 32) else c.
Fixpoint to_ascii_uppercase (s : string) : string :=
  match s with EmptyString => EmptyString | String c s' => String (upper c) (to_ascii_uppercase s') end.

(** [str::to_ascii_lowercase]. *)
Definition lower (c : ascii) : ascii :=
  let n := N_of_ascii c in
  if ((65 <=? n) && (n <=? 90))%N then ascii_of_N (n + 32) else c.
Fixpoint to_ascii_lowercase (s : string) : string :=
  match s with EmptyString => EmptyString | String c s' => String (lower c) (to_ascii_lowercase s') end.

Lemma lower_lower c : lower (lower c) = lower c.
Proof. by destruct c as [[] [] [] [] [] [] [] []]. Qed.
Lemma to_ascii_lowercase_idemp s : to_ascii_lowercase (to_ascii_lowercase s) = to_ascii_lowercase s.
Proof. induction s as [|c s IH]; simpl; [done|]. by rewrite lower_lower, IH. Qed.

End Text.

(** ** Texts of printable characters: blanks, trimming and words *)

Definition graphic (c : ascii) : bool := let n := N_of_ascii c in ((33 <=? n) && (n <=? 126))%N.

Lemma graphic_continuation c : graphic c = true → is_continuation c = false.
Proof. by destruct c as [[] [] [] [] [] [] [] []]. Qed.
Lemma graphic_not_white c : graphic c = true → Text.is_whitespace (char_str c) = false.
Proof. destruct c as [[] [] [] [] [] [] [] []]; vm_compute; done. Qed.

Lemma chars_graphic s : Dec.string_forallb graphic s = true → chars s = char_str <$> String.list_ascii_of_string s.
Proof.
  induction s as [|c s IH]; [done|]. cbn [Dec.string_forallb]. intros [Hc Hs]%andb_prop. cbn [chars]. rewrite (IH Hs).
  destruct s as [|d s]; [done|]. cbn [String.list_ascii_of_string fmap list_fmap char_str].
  cbn [Dec.string_forallb] in Hs. apply andb_prop in Hs as [Hd _]. by rewrite (graphic_continuation d Hd).
Qed.
Lemma skip_white_none cs : Forall (λ c, Text.is_whitespace c = false) cs → Text.skip_white cs = cs.
Proof. destruct 1 as [|c cs Hc _]; [done|]. cbn. by rewrite Hc. Qed.
Lemma concat_chars s : String.concat EmptyString (char_str <$> String.list_ascii_of_string s) = s.
Proof.
  induction s as [|c s IH]; [done|]. cbn [String.list_ascii_of_string fmap list_fmap String.concat].
  destruct (String.list_ascii_of_string s) as [|d l] eqn:E; [by destruct s|].
  change (char_str c +:+ (EmptyString +:+ String.concat EmptyString (char_str <$> d :: l)) = String c s).
  rewrite IH. done.
Qed.
Lemma trim_graphic s : Dec.string_forallb graphic s = true → Text.trim s = s.
Proof.
  intros Hs. unfold Text.trim. rewrite (chars_graphic s Hs).
  assert (Forall (λ c, Text.is_whitespace c = false) (char_str <$> String.list_ascii_of_string s)) as Hw.
  { clear -Hs. induction s as [|c s IH]; [by constructor|]. cbn [Dec.string_forallb] in Hs. apply andb_prop in Hs as [Hc Hs].
    constructor; [by apply graphic_not_white|by apply IH]. }
  rewrite (skip_white_none _ Hw), skip_white_none, rev_involutive; [apply concat_chars|]. by apply Forall_rev.
Qed.

Lemma string_forallb_impl (p q : ascii → bool) s :
  (∀ c, p c = true → q c = true) → Dec.string_forallb p s = true → Dec.string_forallb q s = true.
Proof.
  intros Hpq. induction s as [|c s IH]; [done|]. cbn [Dec.string_forallb].
  intros [Hc Hs]%andb_prop. by rewrite (Hpq c Hc), (IH Hs).
Qed.
Lemma string_forallb_app (p : ascii → bool) a b :
  Dec.string_forallb p (a +:+ b) = Dec.string_forallb p a && Dec.string_forallb p b.
Proof.
  induction a as [|c a IH]; [done|].
  change (p c && Dec.string_forallb p (a +:+ b) = p c && Dec.string_forallb p a && Dec.string_forallb p b).
  by rewrite IH, andb_assoc.
Qed.
Lemma string_forallb_no_char c (p : ascii → bool) s :
  p c = false → Dec.string_forallb p s = true → no_char c s = true.
Proof.
  intros Hc. induction s as [|d s IH]; [done|]. cbn [Dec.string_forallb no_char]. intros [Hd ?]%andb_prop.
  rewrite IH by done. destruct (Ascii.eqb_spec d c) as [->|]; [congruence|done].
Qed.

(** ** ASCII texts *)

Definition ascii_char (c : ascii) : bool := (N_of_ascii c <? 128)%N.
Lemma ascii_only_chars s : Dec.string_forallb ascii_char s = true → Utf8.ascii_only s = true.
Proof.
  unfold Utf8.ascii_only. induction s as [|c s IH]; [done|]. cbn [Dec.string_forallb]. intros [Hc Hs]%andb_prop.
  rewrite as_bytes_cons. cbn [forallb]. rewrite (IH Hs), andb_true_r. revert Hc. by destruct c as [[] [] [] [] [] [] [] []].
Qed.
Lemma hex_chars host : forallb Hex.is_lower_hex_byte (as_bytes host) = true →
  no_char "?" host = true ∧ Dec.string_forallb ascii_char host = true.
Proof.
  induction host as [|c host IH]; [done|]. rewrite as_bytes_cons. cbn [forallb]. intros [Hc Hh]%andb_prop.
  destruct (IH Hh) as [H1 H2]. cbn [no_char Dec.string_forallb]. rewrite H1, H2, !andb_true_r.
  revert Hc. by destruct c as [[] [] [] [] [] [] [] []].
Qed.

(** ** Words *)

(** [str::split_whitespace]. *)
Fixpoint split_white (cs : list string) : list string :=
  match cs with
  | [] => [EmptyString]
  | c :: cs =>
      if Text.is_whitespace c then EmptyString :: split_white cs
      else match split_white cs with p :: ps => (c +:+ p) :: ps | [] => [c] end
  end.
Definition split_whitespace (s : string) : list string := filter (λ p, p ≠ EmptyString) (split_white (chars s)).

Definition word (w : string) : Prop := w ≠ EmptyString ∧ Dec.string_forallb graphic w = true.

Definition printable (c : ascii) : bool := let n := N_of_ascii c in ((32 <=? n) && (n <=? 126))%N.
Lemma chars_printable s : Dec.string_forallb printable s = true → chars s = char_str <$> String.list_ascii_of_string s.
Proof.
  induction s as [|c s IH]; [done|]. cbn [Dec.string_forallb]. intros [Hc Hs]%andb_prop. cbn [chars]. rewrite (IH Hs).
  destruct s as [|d s]; [done|]. cbn [String.list_ascii_of_string fmap list_fmap char_str].
  cbn [Dec.string_forallb] in Hs. apply andb_prop in Hs as [Hd _].
  assert (is_continuation d = false) as ->; [|done]. revert Hd. by destruct d as [[] [] [] [] [] [] [] []].
Qed.

Lemma split_white_cons cs : ∃ p ps, split_white cs = p :: ps.
Proof.
  induction cs as [|c cs (p & ps & E)]; [by eexists _, _|]. cbn. destruct (Text.is_whitespace c); [by eexists _, _|].
  rewrite E. by eexists _, _.
Qed.
Lemma split_white_word w cs : Dec.string_forallb graphic w = true →
  split_white ((char_str <$> String.list_ascii_of_string w) ++ cs) =
  match split_white cs with p :: ps => (w +:+ p) :: ps | [] => [w] end.
Proof.
  induction w as [|c w IH]; cbn [Dec.string_forallb].
  - intros _. destruct (split_white_cons cs) as (p & ps & E). cbn [String.list_ascii_of_string fmap list_fmap app]. by rewrite E.
  - intros [Hc Hw]%andb_prop. cbn [String.list_ascii_of_string fmap list_fmap app split_white].
    rewrite (graphic_not_white c Hc), (IH Hw). destruct (split_white_cons cs) as (p & ps & E). by rewrite E.
Qed.

Lemma string_app_nil (s : string) : s +:+ EmptyString = s.
Proof. apply as_bytes_inj. by rewrite as_bytes_app, app_nil_r. Qed.
Lemma list_ascii_app a b :
  String.list_ascii_of_string (a +:+ b) = String.list_ascii_of_string a ++ String.list_ascii_of_string b.
Proof.
  induction a as [|c a IH]; [done|].
  change (c :: String.list_ascii_of_string (a +:+ b) = c :: (String.list_ascii_of_string a ++ String.list_ascii_of_string b)).
  by rewrite IH.
Qed.

(** Words joined by blanks are the words. *)
Lemma split_whitespace_join ws : Forall word ws → split_whitespace (Text.join " " ws) = ws.
Proof.
  intros Hws. unfold split_whitespace.
  assert (∀ l, Forall word l → Dec.string_forallb printable (Text.join " " l) = true) as Hpr.
  { clear. induction 1 as [|w l [_ Hw] _ IH]; [done|]. assert (Dec.string_forallb printable w = true) as Hp.
    { apply (string_forallb_impl graphic); [|done]. intros c. by destruct c as [[] [] [] [] [] [] [] []]. }
    destruct l as [|v l]; [done|]. change (Text.join " " (w :: v :: l)) with (w +:+ String " " (Text.join " " (v :: l))).
    rewrite string_forallb_app, Hp. cbn [Dec.string_forallb]. exact IH. }
  rewrite (chars_printable _ (Hpr ws Hws)). clear Hpr. induction Hws as [|w ws [Hne Hw] Hws IH]; [done|]. destruct ws as [|v ws].
  - change (Text.join " " [w]) with w. rewrite <-(app_nil_r (char_str <$> _)), (split_white_word w [] Hw). cbn [split_white].
    by rewrite string_app_nil, filter_cons_True.
  - change (Text.join " " (w :: v :: ws)) with (w +:+ String " " (Text.join " " (v :: ws))).
    rewrite list_ascii_app, fmap_app, (split_white_word w _ Hw). cbn [String.list_ascii_of_string fmap list_fmap split_white].
    change (Text.is_whitespace (char_str " ")) with true. cbn iota.
    rewrite string_app_nil, filter_cons_True by done. by rewrite IH.
Qed.
