(* ===== verification/IpAddr.v ===== *)
(** * IP addresses

    The standard library's [IpAddr]: its parser and its [Display], which the
    moderation state and the relay policy of the routing graph use. *)

From Stdlib Require Import Ascii NArith Lia.
From S2P Require Import Prelude Encoding Text.

Module IpAddr.

(** Four octets, or eight 16-bit groups. *)
Inductive t :=
| V4 (octets : list N)
| V6 (groups : list N).

#[global] Instance t_eq_dec : EqDecision t.
Proof. solve_decision. Defined.
#[global] Instance t_countable : Countable t.
Proof.
  refine (inj_countable (λ a, match a with V4 l => (true, l) | V6 l => (false, l) end)
    (λ p, Some (if p.1 then V4 p.2 else V6 p.2)) _). by intros [].
Defined.

(** [char::to_digit]. *)
Definition to_digit (radix : N) (c : ascii) : option N :=
  let n := N_of_ascii c in
  let d := (if (48 <=? n) && (n <=? 57) then Some (n - 48)
            else if (97 <=? n) && (n <=? 122) then Some (n - 87)
            else if (65 <=? n) && (n <=? 90) then Some (n - 55) else None)%N in
  d ≫= λ d, if (d <? radix)%N then Some d else None.

(** The digits at the front, with what follows. *)
Fixpoint digits (radix : N) (s : string) : list N * string :=
  match s with
  | EmptyString => ([], s)
  | String c s' =>
      match to_digit radix c with
      | Some d => let '(ds, r) := digits radix s' in (d :: ds, r)
      | None => ([], s)
      end
  end.

(** A reader returns the value and the rest of the input, or [None] without
    consuming anything. *)
Definition read_number (radix : N) (max_digits : nat) (max : N) (zero_prefix : bool) (s : string) :
    option (N * string) :=
  let '(ds, r) := digits radix s in
  let v := foldl (λ acc d, acc * radix + d)%N 0%N ds in
  match ds with
  | [] => None
  | d :: ds' =>
      if (max_digits <? length ds)%nat || (max <? v)%N ||
         (negb zero_prefix && (d =? 0)%N && negb (length ds' =? 0)%nat)
      then None else Some (v, r)
  end.

Definition read_given_char (c : ascii) (s : string) : option string :=
  match s with String d s' => if Ascii.eqb c d then Some s' else None | EmptyString => None end.

Definition read_separator {A} (sep : ascii) (first : bool) (inner : string → option (A * string))
    (s : string) : option (A * string) :=
  if first then inner s else
  match read_given_char sep s with Some r => inner r | None => None end.

Definition read_octet : string → option (N * string) := read_number 10 3 255 false.

(** [left] more octets. *)
Fixpoint read_octets (left : nat) (first : bool) (s : string) : option (list N * string) :=
  match left with
  | O => Some ([], s)
  | S left' =>
      match read_separator "." first read_octet s with
      | None => None
      | Some (o, r) =>
          match read_octets left' false r with
          | None => None
          | Some (os, r') => Some (o :: os, r')
          end
      end
  end.
Definition read_ipv4_addr (s : string) : option (list N * string) := read_octets 4 true s.

(** [read_groups] on a slice of [left] groups: the groups, whether the last two
    were an embedded IPv4 address, and the rest. *)
Fixpoint read_groups (left : nat) (first : bool) (s : string) : list N * bool * string :=
  match left with
  | O => ([], false, s)
  | S left' =>
      match (if (1 <=? left')%nat then read_separator ":" first read_ipv4_addr s else None) with
      | Some ([a; b; c; d], r) => ([a * 256 + b; c * 256 + d]%N, true, r)
      | _ =>
          match read_separator ":" first (read_number 16 4 65535 true) s with
          | Some (g, r) => let '(gs, v4, r') := read_groups left' false r in (g :: gs, v4, r')
          | None => ([], false, s)
          end
      end
  end.

Definition read_ipv6_addr (s : string) : option (list N * string) :=
  let '(head, head_v4, r) := read_groups 8 true s in
  if (length head =? 8)%nat then Some (head, r)
  else if head_v4 then None
  else
    match Text.strip_prefix "::" r with
    | None => None
    | Some r =>
        let '(tail, _, r) := read_groups (8 - (length head + 1)) true r in
        Some (head ++ replicate (8 - length head - length tail) 0%N ++ tail, r)
    end.

(** [IpAddr::from_str]: the whole input must be read. *)
Definition parse (s : string) : option t :=
  match read_ipv4_addr s with
  | Some (os, EmptyString) => Some (V4 os)
  | Some (_, String _ _) => None
  | None =>
      match read_ipv6_addr s with
      | Some (gs, EmptyString) => Some (V6 gs)
      | _ => None
      end
  end.

(** [Display]. *)
Definition v4_string (os : list N) : string := String.concat "." (Dec.to_string <$> os).

Definition hex_digit (n : N) : ascii := ascii_of_N (if (n <? 10)%N then n + 48 else n + 87)%N.
(** Leading zeros dropped, but for the last digit. *)
Fixpoint significant (ds : list N) : list N :=
  match ds with
  | 0%N :: ds' => match ds' with [] => ds | _ => significant ds' end
  | _ => ds
  end.
(** [{:x}] of a 16-bit group. *)
Definition hex_group (g : N) : string :=
  String.string_of_list_ascii
    (hex_digit <$> significant [g / 4096; g / 256 mod 16; g / 16 mod 16; g mod 16]%N).
Definition fmt_subslice (gs : list N) : string := String.concat ":" (hex_group <$> gs).

(** The first longest run of zero groups, as (start, length). *)
Fixpoint zero_span (i : nat) (current longest : nat * nat) (gs : list N) : nat * nat :=
  match gs with
  | [] => longest
  | g :: gs' =>
      if (g =? 0)%N then
        let current := (if (current.2 =? 0)%nat then i else current.1, S current.2) in
        let longest := if (longest.2 <? current.2)%nat then current else longest in
        zero_span (S i) current longest gs'
      else zero_span (S i) (0, 0)%nat longest gs'
  end.

Definition to_string (a : t) : string :=
  match a with
  | V4 os => v4_string os
  | V6 [0%N; 0%N; 0%N; 0%N; 0%N; 65535%N; ab; cd] =>
      "::ffff:" +:+ v4_string [ab / 256; ab mod 256; cd / 256; cd mod 256]%N
  | V6 gs =>
      let '(start, len) := zero_span 0 (0, 0)%nat (0, 0)%nat gs in
      if (1 <? len)%nat then fmt_subslice (take start gs) +:+ "::" +:+ fmt_subslice (drop (start + len) gs)
      else fmt_subslice gs
  end.

Example parse_v4_dotted : parse "192.168.0.1" = Some (V4 [192; 168; 0; 1]%N).
Proof. reflexivity. Qed.
Example parse_leading_zero : parse "192.168.00.1" = None.
Proof. reflexivity. Qed.
Example parse_v6_short : parse "2001:db8::1:0" = Some (V6 [8193; 3512; 0; 0; 0; 0; 1; 0]%N).
Proof. reflexivity. Qed.
Example parse_v6_mapped : parse "::ffff:10.0.0.1" = Some (V6 [0; 0; 0; 0; 0; 65535; 2560; 1]%N).
Proof. reflexivity. Qed.
Example print_v6 : to_string (V6 [8193; 3512; 0; 0; 0; 0; 1; 0]%N) = "2001:db8::1:0".
Proof. reflexivity. Qed.

(** *** The single families *)

(** [Ipv4Addr::from_str] and [Ipv6Addr::from_str]. *)
Definition parse_v4 (s : string) : option (list N) :=
  match read_ipv4_addr s with Some (os, EmptyString) => Some os | _ => None end.
Definition parse_v6 (s : string) : option (list N) :=
  match read_ipv6_addr s with Some (gs, EmptyString) => Some gs | _ => None end.

(** [Ipv4Addr::is_loopback] and [is_private]; [Ipv6Addr::is_loopback]. *)
Definition v4_is_loopback (os : list N) : bool :=
  match os with a :: _ => (a =? 127)%N | [] => false end.
Definition v4_is_private (os : list N) : bool :=
  match os with
  | a :: b :: _ =>
      ((a =? 10) || ((a =? 172) && (16 <=? b) && (b <=? 31)) || ((a =? 192) && (b =? 168)))%N
  | _ => false
  end.
Definition v6_is_loopback (gs : list N) : bool := bool_decide (gs = [0; 0; 0; 0; 0; 0; 0; 1]%N).

End IpAddr.
Abbreviation IpAddr := IpAddr.t.
