(* ===== verification/Ids.v ===== *)
(** * Event identifiers, public keys, timestamps and kinds

    - [bytes32]: the Rust array [[u8; 32]];
    - [Module EventId]: [event/id.rs];
    - [Module PublicKey]: [key/public_key.rs], over secp256k1's x-only point
      check, a parameter ([Class Secp256k1]);
    - [Module Timestamp]: [types/timestamp.rs], a [u64] as an [N] with its
      saturating arithmetic written out;
    - [Module Kind]: [event/kind.rs], a [u16] as an [N]. *)

From Stdlib Require Import Ascii NArith Lia ZifyBool ZifyN Eqdep_dec.
From S2P Require Import Prelude Encoding.

(** ** [[u8; 32]] *)

Record bytes32 := Bytes32 {
  b32_list : list byte;
  b32_len : (length b32_list =? 32)%nat = true;
}.

Lemma bytes32_eq (a b : bytes32) : b32_list a = b32_list b → a = b.
Proof.
  destruct a as [l Hl], b as [m Hm]; simpl. intros ->. f_equal. apply UIP_dec, Bool.bool_dec.
Qed.

Lemma length_b32 (a : bytes32) : length (b32_list a) = 32%nat.
Proof. apply Nat.eqb_eq, b32_len. Qed.

(** [<[u8; 32]>::try_from(&[u8])]. *)
Definition try_into32 (l : list byte) : option bytes32 :=
  (if (length l =? 32)%nat as b return ((length l =? 32)%nat = b → option bytes32)
   then λ H, Some (Bytes32 l H) else λ _, None) eq_refl.

Lemma try_into32_Some l a : try_into32 l = Some a ↔ b32_list a = l.
Proof.
  unfold try_into32. split.
  - generalize (eq_refl ((length l =? 32)%nat)).
    generalize ((length l =? 32)%nat) at 2 3. intros [] E; [|done]. by intros [= <-].
  - intros <-. generalize (eq_refl ((length (b32_list a) =? 32)%nat)).
    generalize ((length (b32_list a) =? 32)%nat) at 2 3. intros [] E.
    + f_equal. by apply bytes32_eq.
    + by rewrite b32_len in E.
Qed.

Lemma try_into32_list a : try_into32 (b32_list a) = Some a.
Proof. by apply try_into32_Some. Qed.

Lemma try_into32_None l : try_into32 l = None ↔ length l ≠ 32%nat.
Proof.
  split.
  - intros E Hl. assert ((length l =? 32)%nat = true) as H by by apply Nat.eqb_eq.
    by rewrite (proj2 (try_into32_Some l (Bytes32 l H)) eq_refl) in E.
  - intros Hl. destruct (try_into32 l) as [a|] eqn:E; [|done].
    apply try_into32_Some in E as <-. by rewrite length_b32 in Hl.
Qed.

#[global] Instance bytes32_eq_dec : EqDecision bytes32.
Proof.
  intros a b. destruct (decide (b32_list a = b32_list b)) as [E|E].
  - left. by apply bytes32_eq.
  - right. congruence.
Defined.

#[global] Instance bytes32_countable : Countable bytes32.
Proof. exact (inj_countable b32_list try_into32 try_into32_list). Defined.

(** The array whose big-endian value is [n], used to write concrete inputs. *)
Definition bytes32_of_N (n : N) : bytes32 :=
  default (Bytes32 (BigEndian.to_be_bytes 32 0) eq_refl) (try_into32 (BigEndian.to_be_bytes 32 n)).

(** ** Event ids *)

Module EventId.

Definition EVENT_ID_SIZE : nat := 32.

Record t := mk { inner : bytes32 }.

Inductive Error :=
| Hex (e : Hex.HexError)
| InvalidLength (len : nat).

#[global] Instance t_eq_dec : EqDecision t.
Proof. solve_decision. Defined.
#[global] Instance t_countable : Countable t.
Proof. exact (inj_countable' inner mk ltac:(by intros [])). Defined.

Definition from_byte_array (bytes : bytes32) : t := mk bytes.

Definition from_slice (bytes : list byte) : result t Error :=
  match try_into32 bytes with
  | Some array => Ok (mk array)
  | None => Err (InvalidLength (length bytes))
  end.

Definition to_byte_array (id : t) : list byte := b32_list (inner id).

(** Derived [Ord]: lexicographic on the bytes. *)
Definition le (a b : t) : Prop := bytes_le (to_byte_array a) (to_byte_array b).

Section parse.
Context `{FasterHex}.

Definition parse (input : string) : result t Error :=
  let? bytes := map_err Hex (Hex.decode (as_bytes input)) in
  from_slice bytes.

Definition to_hex (id : t) : string := Hex.encode (to_byte_array id).
End parse.

Lemma to_byte_array_inj a b : to_byte_array a = to_byte_array b → a = b.
Proof. destruct a, b. unfold to_byte_array; simpl. by intros ->%bytes32_eq. Qed.

Lemma length_to_byte_array id : length (to_byte_array id) = 32%nat.
Proof. apply length_b32. Qed.

Lemma from_slice_to_byte_array id : from_slice (to_byte_array id) = Ok id.
Proof. unfold from_slice, to_byte_array. rewrite try_into32_list. by destruct id. Qed.

#[global] Instance le_dec a b : Decision (le a b).
Proof. unfold le. apply _. Defined.
#[global] Instance le_trans : Transitive le.
Proof. intros a b c. unfold le. by intros ->. Qed.
#[global] Instance le_total : Total le.
Proof. intros a b. unfold le. apply (total bytes_le). Qed.
#[global] Instance le_antisym : AntiSymm (=) le.
Proof. intros a b Hab Hba. apply to_byte_array_inj. by apply (anti_symm bytes_le). Qed.
#[global] Instance le_refl : Reflexive le.
Proof. intros a. apply bytes_le_refl. Qed.

Section laws.
Context `{FasterHexLaws}.

Lemma parse_to_hex id : parse (to_hex id) = Ok id.
Proof.
  unfold parse, to_hex. rewrite hex_decode_encode. simpl. apply from_slice_to_byte_array.
Qed.

Lemma to_hex_lower id :
  length (as_bytes (to_hex id)) = 64%nat ∧
  forallb Hex.is_lower_hex_byte (as_bytes (to_hex id)) = true.
Proof.
  unfold to_hex. rewrite hex_encode_spec.
  split; [|apply Hex.fmt_lower_is_hex].
  by rewrite Hex.length_fmt_lower, length_to_byte_array.
Qed.
End laws.

End EventId.
Abbreviation EventId := EventId.t.

(** ** Public keys *)

(** [secp256k1::XOnlyPublicKey::from_byte_array]: whether 32 bytes are the
    x-coordinate of a curve point.  The key is identified with the 32 bytes its
    [serialize] returns. *)
Class Secp256k1 := { xonly_valid : bytes32 → bool }.

Module PublicKey.

Record t := mk { serialize : bytes32 }.

Inductive Error :=
| Hex (e : Hex.HexError)
| InvalidLength (len : nat)
| InvalidPoint.

#[global] Instance t_eq_dec : EqDecision t.
Proof. solve_decision. Defined.
#[global] Instance t_countable : Countable t.
Proof. exact (inj_countable' serialize mk ltac:(by intros [])). Defined.

Definition to_byte_array (pk : t) : list byte := b32_list (serialize pk).

Section parse.
Context `{FasterHex, Secp256k1}.

Definition from_byte_array (bytes : bytes32) : result t Error :=
  if xonly_valid bytes then Ok (mk bytes) else Err InvalidPoint.

Definition from_slice (bytes : list byte) : result t Error :=
  match try_into32 bytes with
  | Some array => from_byte_array array
  | None => Err (InvalidLength (length bytes))
  end.

Definition parse (input : string) : result t Error :=
  let? bytes := map_err Hex (Hex.decode (as_bytes input)) in
  from_slice bytes.

Definition to_hex (pk : t) : string := Hex.encode (to_byte_array pk).

(** A [PublicKey] only ever holds a valid point: its constructors check it. *)
Definition valid (pk : t) : Prop := xonly_valid (serialize pk) = true.
End parse.

Lemma pk_to_byte_array_inj a b : to_byte_array a = to_byte_array b → a = b.
Proof. destruct a, b. unfold to_byte_array; simpl. by intros ->%bytes32_eq. Qed.

Lemma pk_length_to_byte_array pk : length (to_byte_array pk) = 32%nat.
Proof. apply length_b32. Qed.

Section laws.
Context `{FasterHex, !FasterHexLaws, Secp256k1}.

Lemma pk_parse_to_hex pk : valid pk → parse (to_hex pk) = Ok pk.
Proof.
  intros Hv. unfold parse, to_hex. rewrite hex_decode_encode. simpl.
  unfold from_slice, to_byte_array. rewrite try_into32_list. unfold from_byte_array.
  rewrite Hv. by destruct pk.
Qed.

Lemma parse_valid s pk : parse s = Ok pk → valid pk.
Proof.
  unfold parse. destruct (map_err _ _) as [bs|]; simpl; [|done].
  unfold from_slice, from_byte_array. destruct (try_into32 bs) as [a|]; [|done].
  destruct (xonly_valid a) eqn:E; [|done]. by intros [= <-].
Qed.
End laws.

End PublicKey.
Abbreviation PublicKey := PublicKey.t.

(** ** Timestamps *)

Abbreviation Timestamp := N (only parsing).

Module Timestamp.
Local Open Scope N_scope.

Definition ZERO : Timestamp := 0.
Definition MAX : Timestamp := Dec.u64_max.

(** [u64::saturating_add]. *)
Definition saturating_add (t secs : N) : Timestamp :=
  if t + secs <=? MAX then t + secs else MAX.

(** [u64::saturating_sub]. *)
Definition saturating_sub (t secs : N) : Timestamp :=
  if secs <=? t then t - secs else 0.

(** [impl FromStr for Timestamp]. *)
Definition from_str (s : string) : option Timestamp := Dec.parse_u64 s.

(** [impl Display for Timestamp]. *)
Definition to_string (t : Timestamp) : string := Dec.to_string t.

Lemma saturating_add_spec t secs : saturating_add t secs = N.min (t + secs) MAX.
Proof. unfold saturating_add. destruct (N.leb_spec (t + secs) MAX); lia. Qed.

Lemma saturating_sub_spec t secs : saturating_sub t secs = t - secs.
Proof. unfold saturating_sub. destruct (N.leb_spec secs t); lia. Qed.

End Timestamp.

(** ** Kinds *)

Abbreviation Kind := N (only parsing).

Module Kind.
Local Open Scope N_scope.

Definition METADATA : Kind := 0.
Definition TEXT_NOTE : Kind := 1.
Definition CONTACTS : Kind := 3.
Definition EVENT_DELETION : Kind := 5.
Definition REQUEST_TO_VANISH : Kind := 62.
Definition RELAY_LIST : Kind := 10002.
Definition LONG_FORM_TEXT_NOTE : Kind := 30023.
Definition AUTHENTICATION : Kind := 22242.

Definition in_range (lo hi k : N) : bool := (lo <=? k) && (k <=? hi).

Definition is_replaceable (k : Kind) : bool :=
  (k =? 0) || (k =? 3) || in_range 10000 19999 k.
Definition is_addressable (k : Kind) : bool := in_range 30000 39999 k.
Definition is_ephemeral (k : Kind) : bool := in_range 20000 29999 k.
Definition is_regular (k : Kind) : bool :=
  (k =? 1) || (k =? 2) || in_range 4 44 k || in_range 1000 9999 k.
Definition is_reserved (k : Kind) : bool := in_range 40000 65535 k.
Definition is_unclassified (k : Kind) : bool :=
  negb (is_regular k || is_replaceable k || is_addressable k || is_ephemeral k).

(** [impl FromStr for Kind]. *)
Definition from_str (s : string) : option Kind := Dec.parse_u16 s.

Lemma in_range_spec lo hi k : in_range lo hi k = true ↔ lo <= k <= hi.
Proof. unfold in_range. rewrite andb_true_iff, !N.leb_le. done. Qed.

Lemma in_range_false lo hi k : in_range lo hi k = false ↔ k < lo ∨ hi < k.
Proof. unfold in_range. rewrite andb_false_iff, !N.leb_gt. done. Qed.

(** The number of classes a kind is in. *)
Definition class_count (k : Kind) : nat :=
  (if is_regular k then 1 else 0) + (if is_replaceable k then 1 else 0) +
  (if is_addressable k then 1 else 0) + (if is_ephemeral k then 1 else 0) +
  (if is_unclassified k then 1 else 0).

Ltac kind_lia := intros;
  unfold is_unclassified, is_regular, is_replaceable, is_addressable, is_ephemeral,
    is_reserved, in_range in *; lia.

Lemma replaceable_not_addressable k : is_replaceable k = true → is_addressable k = false.
Proof. kind_lia. Qed.

Lemma addressable_not_replaceable k : is_addressable k = true → is_replaceable k = false.
Proof. kind_lia. Qed.

Lemma addressable_not_ephemeral k : is_addressable k = true → is_ephemeral k = false.
Proof. kind_lia. Qed.

End Kind.
