(* ===== verification/Tags.v ===== *)
(** * Tags

    [crates/nula-core/src/event/tag/]: the single-letter heads
    ([single_letter.rs], [Module SingleLetterTag]), the typed head ([kind.rs],
    [Module TagKind]), one tag ([tag.rs], [Module Tag]) and the ordered list of
    tags with its lazily built index ([list.rs], [Module Tags]).

    A Rust [String] is the Stdlib [string] of its UTF-8 bytes; [chars] splits it
    into scalar values, each kept as its own UTF-8 bytes. *)

From Stdlib Require Import Ascii NArith Lia.
From S2P Require Import Prelude Encoding Text Ids.

(** ** Single-letter heads *)

Module Alphabet.

Inductive t :=
| A
| B
| C
| D
| E
| F
| G
| H
| I
| J
| K
| L
| M
| N
| O
| P
| Q
| R
| S
| T
| U
| V
| W
| X
| Y
| Z.

Inductive Error := NotAsciiLetter (c : string).

#[global] Instance t_eq_dec : EqDecision t.
Proof. solve_decision. Defined.

Definition from_char (c : string) : result t Error :=
  match c with
  | String a EmptyString =>
      match a with
      | "a"%char | "A"%char => Ok A
      | "b"%char | "B"%char => Ok B
      | "c"%char | "C"%char => Ok C
      | "d"%char | "D"%char => Ok D
      | "e"%char | "E"%char => Ok E
      | "f"%char | "F"%char => Ok F
      | "g"%char | "G"%char => Ok G
      | "h"%char | "H"%char => Ok H
      | "i"%char | "I"%char => Ok I
      | "j"%char | "J"%char => Ok J
      | "k"%char | "K"%char => Ok K
      | "l"%char | "L"%char => Ok L
      | "m"%char | "M"%char => Ok M
      | "n"%char | "N"%char => Ok N
      | "o"%char | "O"%char => Ok O
      | "p"%char | "P"%char => Ok P
      | "q"%char | "Q"%char => Ok Q
      | "r"%char | "R"%char => Ok R
      | "s"%char | "S"%char => Ok S
      | "t"%char | "T"%char => Ok T
      | "u"%char | "U"%char => Ok U
      | "v"%char | "V"%char => Ok V
      | "w"%char | "W"%char => Ok W
      | "x"%char | "X"%char => Ok X
      | "y"%char | "Y"%char => Ok Y
      | "z"%char | "Z"%char => Ok Z
      | _ => Err (NotAsciiLetter c)
      end
  | _ => Err (NotAsciiLetter c)
  end.

Definition as_lower_char (l : t) : ascii :=
  match l with
  | A => "a"%char
  | B => "b"%char
  | C => "c"%char
  | D => "d"%char
  | E => "e"%char
  | F => "f"%char
  | G => "g"%char
  | H => "h"%char
  | I => "i"%char
  | J => "j"%char
  | K => "k"%char
  | L => "l"%char
  | M => "m"%char
  | N => "n"%char
  | O => "o"%char
  | P => "p"%char
  | Q => "q"%char
  | R => "r"%char
  | S => "s"%char
  | T => "t"%char
  | U => "u"%char
  | V => "v"%char
  | W => "w"%char
  | X => "x"%char
  | Y => "y"%char
  | Z => "z"%char
  end.

Definition as_upper_char (l : t) : ascii :=
  match l with
  | A => "A"%char
  | B => "B"%char
  | C => "C"%char
  | D => "D"%char
  | E => "E"%char
  | F => "F"%char
  | G => "G"%char
  | H => "H"%char
  | I => "I"%char
  | J => "J"%char
  | K => "K"%char
  | L => "L"%char
  | M => "M"%char
  | N => "N"%char
  | O => "O"%char
  | P => "P"%char
  | Q => "Q"%char
  | R => "R"%char
  | S => "S"%char
  | T => "T"%char
  | U => "U"%char
  | V => "V"%char
  | W => "W"%char
  | X => "X"%char
  | Y => "Y"%char
  | Z => "Z"%char
  end.

End Alphabet.

Module SingleLetterTag.

Record t := mk { character : Alphabet.t; is_uppercase : bool }.

Inductive Error :=
| AlphabetError (e : Alphabet.Error)
| NotSingleChar (n : nat).

#[global] Instance t_eq_dec : EqDecision t.
Proof. solve_decision. Defined.

Definition lowercase (c : Alphabet.t) : t := mk c false.
Definition uppercase (c : Alphabet.t) : t := mk c true.

(** [char::is_ascii_uppercase]. *)
Definition is_ascii_uppercase (c : string) : bool :=
  match c with
  | String a EmptyString => let n := N_of_ascii a in ((65 <=? n) && (n <=? 90))%N
  | _ => false
  end.

Definition from_char (c : string) : result t Error :=
  match Alphabet.from_char c with
  | Ok a => Ok (mk a (is_ascii_uppercase c))
  | Err e => Err (AlphabetError e)
  end.

Definition as_char (tag : t) : ascii :=
  if is_uppercase tag then Alphabet.as_upper_char (character tag)
  else Alphabet.as_lower_char (character tag).

(** [impl FromStr for SingleLetterTag]. *)
Definition from_str (s : string) : result t Error :=
  match chars s with
  | [] => Err (NotSingleChar 0)
  | [first] => from_char first
  | _ => Err (NotSingleChar (length (chars s)))
  end.

(** [impl Display for SingleLetterTag]. *)
Definition to_string (tag : t) : string := char_str (as_char tag).

Lemma from_char_as_char tag : from_char (char_str (as_char tag)) = Ok tag.
Proof. by destruct tag as [[] []]. Qed.

Lemma from_str_to_string tag : from_str (to_string tag) = Ok tag.
Proof. apply (from_char_as_char tag). Qed.

#[global] Instance t_countable : Countable t.
Proof.
  refine (inj_countable to_string (λ s, result_ok (from_str s)) _).
  intros tag. by rewrite from_str_to_string.
Defined.

Lemma from_char_Ok c tag : from_char c = Ok tag → c = char_str (as_char tag).
Proof.
  unfold from_char. destruct (Alphabet.from_char c) as [a|] eqn:E; [|done]. intros [= <-].
  destruct c as [|b [|]]; try done. unfold Alphabet.from_char in E.
  destruct b as [[] [] [] [] [] [] [] []]; simplify_eq/=; done.
Qed.

End SingleLetterTag.
Abbreviation SingleLetterTag := SingleLetterTag.t.

Lemma chars_char_str c : chars (char_str c) = [char_str c].
Proof. done. Qed.

Lemma chars_singleton s c : chars s = [c] → s = c.
Proof.
  revert c. induction s as [|a s IH]; intros c; simpl; [done|].
  destruct (chars s) as [|[|d r] t] eqn:E.
  - intros [= <-]. destruct s as [|b s]; [done|]. exfalso. clear IH. simpl in E.
    destruct (chars s) as [|[|] ?]; try done. by destruct (is_continuation _).
  - intros [= <-]. exfalso. clear IH. destruct s as [|b s]; [done|]. simpl in E.
    destruct (chars s) as [|[|] ?]; try done. by destruct (is_continuation _).
  - destruct (is_continuation d); [|done]. intros [= <- ->]. by rewrite (IH _ eq_refl).
Qed.

(** ** Typed heads *)

Module TagKind.

Inductive t :=
| SingleLetter (tag : SingleLetterTag)
| Custom (name : string).

Inductive Error := Empty.

#[global] Instance t_eq_dec : EqDecision t.
Proof. solve_decision. Defined.

Definition single_letter (tag : SingleLetterTag) : t := SingleLetter tag.
Definition custom (name : string) : t := Custom name.

(** [single_letter_str] returns the same one-character string [as_char] prints. *)
Definition single_letter_str (tag : SingleLetterTag) : string :=
  if SingleLetterTag.is_uppercase tag
  then char_str (Alphabet.as_upper_char (SingleLetterTag.character tag))
  else char_str (Alphabet.as_lower_char (SingleLetterTag.character tag)).

Definition as_str (k : t) : string :=
  match k with
  | SingleLetter tag => single_letter_str tag
  | Custom name => name
  end.

Definition single_letter_from_str (value : string) : option SingleLetterTag :=
  match chars value with
  | [first] => result_ok (SingleLetterTag.from_char first)
  | _ => None
  end.

Definition parse (value : string) : result t Error :=
  if bool_decide (value = EmptyString) then Err Empty
  else match single_letter_from_str value with
       | Some letter => Ok (SingleLetter letter)
       | None => Ok (Custom value)
       end.

Definition from_wire (value : string) : t :=
  match parse value with Ok k => k | Err _ => Custom value end.

Lemma single_letter_from_str_eq value :
  single_letter_from_str value = result_ok (SingleLetterTag.from_str value).
Proof.
  unfold single_letter_from_str, SingleLetterTag.from_str.
  by destruct (chars value) as [|? [|]].
Qed.

Lemma single_letter_from_str_Some value tag :
  single_letter_from_str value = Some tag ↔ value = SingleLetterTag.to_string tag.
Proof.
  split.
  - unfold single_letter_from_str. destruct (chars value) as [|c [|]] eqn:E; try done.
    apply chars_singleton in E as ->.
    destruct (SingleLetterTag.from_char c) eqn:Ec; simpl; [|done]. intros [= <-].
    by apply SingleLetterTag.from_char_Ok.
  - intros ->. rewrite single_letter_from_str_eq.
    by rewrite SingleLetterTag.from_str_to_string.
Qed.

Lemma from_wire_cases value :
  from_wire value =
    match single_letter_from_str value with
    | Some letter => SingleLetter letter
    | None => Custom value
    end.
Proof.
  unfold from_wire, parse. case_bool_decide; [by subst|].
  by destruct (single_letter_from_str value).
Qed.

Lemma from_wire_single value tag :
  from_wire value = SingleLetter tag ↔ single_letter_from_str value = Some tag.
Proof. rewrite from_wire_cases. destruct (single_letter_from_str value); naive_solver. Qed.

(** The head as written is recovered from its typed form. *)
Lemma as_str_from_wire value : as_str (from_wire value) = value.
Proof.
  rewrite from_wire_cases. destruct (single_letter_from_str value) eqn:E; [|done].
  apply single_letter_from_str_Some in E as ->. by destruct t0 as [? []].
Qed.

End TagKind.
Abbreviation TagKind := TagKind.t.

(** ** One tag *)

Module Tag.

Record t := mk { values : list string }.

Inductive Error := Empty.

#[global] Instance t_eq_dec : EqDecision t.
Proof. solve_decision. Defined.

Definition new (vs : list string) : result t Error :=
  match vs with [] => Err Empty | _ => Ok (mk vs) end.

Definition with_ (head : TagKind) (args : list string) : t := mk (TagKind.as_str head :: args).

Definition name (tag : t) : string := default EmptyString (head (values tag)).
Definition kind (tag : t) : TagKind := TagKind.from_wire (name tag).
Definition get (tag : t) (index : nat) : option string := values tag !! index.
Definition content (tag : t) : option string := get tag 1.
Definition single_letter_tag (tag : t) : option SingleLetterTag :=
  result_ok (SingleLetterTag.from_str (name tag)).
Definition len (tag : t) : nat := length (values tag).

(** The invariant [Tag::new] establishes: a tag has a head. *)
Definition wf (tag : t) : Prop := values tag ≠ [].

Definition lower (c : Alphabet.t) : TagKind :=
  TagKind.single_letter (SingleLetterTag.lowercase c).

Section constructors.
Context `{FasterHex}.

Definition e (id : EventId) : t := with_ (lower Alphabet.E) [EventId.to_hex id].
Definition e_with_relay (id : EventId) (relay : string) : t :=
  with_ (lower Alphabet.E) [EventId.to_hex id; relay].
Definition e_marker (id : EventId) (relay marker : string) : t :=
  with_ (lower Alphabet.E) [EventId.to_hex id; relay; marker].
Definition p (pubkey : PublicKey) : t := with_ (lower Alphabet.P) [PublicKey.to_hex pubkey].
Definition p_with_relay (pubkey : PublicKey) (relay : string) : t :=
  with_ (lower Alphabet.P) [PublicKey.to_hex pubkey; relay].
Definition k (kd : Kind) : t := with_ (lower Alphabet.K) [Dec.to_string kd].
Definition d (identifier : string) : t := with_ (lower Alphabet.D) [identifier].
Definition q (id : EventId) (relay : string) (author : PublicKey) : t :=
  with_ (lower Alphabet.Q) [EventId.to_hex id; relay; PublicKey.to_hex author].
End constructors.
Definition title (s : string) : t := with_ (TagKind.Custom "title") [s].
Definition alt (s : string) : t := with_ (TagKind.Custom "alt") [s].
Definition subject (s : string) : t := with_ (TagKind.Custom "subject") [s].

Lemma new_wf vs tag : new vs = Ok tag → wf tag ∧ values tag = vs.
Proof. destruct vs; [done|]. by intros [= <-]. Qed.

Lemma with_wf head args : wf (with_ head args).
Proof. done. Qed.

Lemma single_letter_tag_kind tag l :
  single_letter_tag tag = Some l ↔ kind tag = TagKind.SingleLetter l.
Proof.
  unfold single_letter_tag, kind.
  by rewrite TagKind.from_wire_single, TagKind.single_letter_from_str_eq.
Qed.

(** A tag built with a single-letter head is read back with that head. *)
Lemma kind_with_lower c args : kind (with_ (lower c) args) = lower c.
Proof. unfold kind, name. simpl. by destruct c. Qed.

Lemma kind_with_from_wire w args :
  kind (with_ (TagKind.from_wire w) args) = TagKind.from_wire w.
Proof. unfold kind, name. simpl. by rewrite TagKind.as_str_from_wire. Qed.

End Tag.
Abbreviation Tag := Tag.t.

(** ** The ordered tag list *)

Module Tags.

Abbreviation TagsIndexes := (gmap SingleLetterTag (gset string)).

(** [Tags::build_indexes]. *)
Definition index_step (indexes : TagsIndexes) (tag : Tag) : TagsIndexes :=
  match Tag.single_letter_tag tag, Tag.content tag with
  | Some letter, Some content =>
      <[letter := {[content]} ∪ default ∅ (indexes !! letter)]> indexes
  | _, _ => indexes
  end.
Definition build_indexes (items : list Tag) : TagsIndexes := foldl index_step ∅ items.

(** Read-only lookups on the items. *)
Definition find_first (items : list Tag) (kind : TagKind) : option Tag :=
  list_find (λ tag, Tag.kind tag = kind) items ≫= λ p, Some p.2.
Definition find_all (items : list Tag) (kind : TagKind) : list Tag :=
  filter (λ tag, Tag.kind tag = kind) items.
Definition find_letter (items : list Tag) (letter : Alphabet.t) : list Tag :=
  find_all items (Tag.lower letter).
Definition identifier (items : list Tag) : option string :=
  head (find_letter items Alphabet.D) ≫= Tag.content.
Definition hashtags (items : list Tag) : list string :=
  omap Tag.content (find_letter items Alphabet.T).
Definition challenge (items : list Tag) : option string :=
  find_first items (TagKind.custom "challenge") ≫= Tag.content.
Definition expiration (items : list Tag) : option Timestamp :=
  (find_first items (TagKind.custom "expiration") ≫= Tag.content) ≫= Dec.parse_u64.

Section parsing.
Context `{FasterHex, Secp256k1}.
Definition public_keys (items : list Tag) : list PublicKey :=
  omap (λ tag, Tag.content tag ≫= λ c, result_ok (PublicKey.parse c))
    (find_letter items Alphabet.P).
Definition event_ids (items : list Tag) : list EventId :=
  omap (λ tag, Tag.content tag ≫= λ c, result_ok (EventId.parse c))
    (find_letter items Alphabet.E).
End parsing.

(** The collection: the items and the cache ([OnceLock<Box<TagsIndexes>>]). *)
Record t := mk { items : list Tag; cache : option TagsIndexes }.

Definition new : t := mk [] None.
Definition from_vec (its : list Tag) : t := mk its None.
Definition erase_indexes (ts : t) : t := mk (items ts) None.

(** [&self] may fill the cache: the result is returned with the new state. *)
Definition indexes (ts : t) : TagsIndexes * t :=
  match cache ts with
  | Some ix => (ix, ts)
  | None => let ix := build_indexes (items ts) in (ix, mk (items ts) (Some ix))
  end.

Definition push (ts : t) (tag : Tag) : t :=
  let ts := erase_indexes ts in mk (items ts ++ [tag]) (cache ts).
Definition extend (ts : t) (tags : list Tag) : t :=
  let ts := erase_indexes ts in mk (items ts ++ tags) (cache ts).

(** [items.iter_mut().find(|t| &t.kind() == kind)] overwritten in place. *)
Definition replace_items (its : list Tag) (kind : TagKind) (tag : Tag) : list Tag :=
  match list_find (λ t, Tag.kind t = kind) its with
  | Some (i, _) => <[i := tag]> its
  | None => its ++ [tag]
  end.
Definition replace_or_push (ts : t) (kind : TagKind) (tag : Tag) : t :=
  let ts := erase_indexes ts in mk (replace_items (items ts) kind tag) (cache ts).

Definition push_unique_kind (ts : t) (tag : Tag) : t :=
  if bool_decide (Exists (λ t, Tag.kind t = Tag.kind tag) (items ts)) then ts
  else let ts := erase_indexes ts in mk (items ts ++ [tag]) (cache ts).

(** [Clone] rebuilds the cache lazily. *)
Definition clone (ts : t) : t := from_vec (items ts).

(** [Tags::dedup]: per key, the index of the earliest occurrence and of the
    longest tag seen so far. *)
Record DedupVal := mkDedup { first_idx : nat; best_idx : nat }.

Definition dedup_key (tag : Tag) : string * option string := (Tag.name tag, Tag.content tag).

Definition dedup_step (its : list Tag) (m : gmap (string * option string) DedupVal)
    (p : nat * Tag) : gmap (string * option string) DedupVal :=
  let '(idx, tag) := p in
  let key := dedup_key tag in
  let entry := default (mkDedup idx idx) (m !! key) in
  let best_len := default 0%nat (Tag.len <$> its !! best_idx entry) in
  let entry := if (best_len <? Tag.len tag)%nat then mkDedup (first_idx entry) idx else entry in
  <[key := entry]> m.

Definition dedup_map (its : list Tag) : gmap (string * option string) DedupVal :=
  foldl (dedup_step its) ∅ (imap (λ i tag, (i, tag)) its).

Definition dedup_slot (its : list Tag) (new_list : list (option Tag)) (v : DedupVal) :
    list (option Tag) :=
  match new_list !! first_idx v, its !! best_idx v with
  | Some _, Some best => <[first_idx v := Some best]> new_list
  | _, _ => new_list
  end.

Definition dedup_items (its : list Tag) : list Tag :=
  let new_list := foldl (dedup_slot its) (replicate (length its) None)
                    (map_to_list (dedup_map its)).*2 in
  omap id new_list.

Definition dedup (ts : t) : t :=
  match items ts with
  | [] => ts
  | _ => let ts := erase_indexes ts in mk (dedup_items (items ts)) (cache ts)
  end.

(** *** Index *)

Lemma index_step_lookup indexes tag l v :
  v ∈ default ∅ (index_step indexes tag !! l) ↔
  v ∈ default ∅ (indexes !! l) ∨
  (Tag.single_letter_tag tag = Some l ∧ Tag.content tag = Some v).
Proof.
  unfold index_step.
  destruct (Tag.single_letter_tag tag) as [l'|]; [|naive_solver].
  destruct (Tag.content tag) as [c|]; [|naive_solver].
  rewrite lookup_insert. case_decide as El; [subst l'|].
  - simpl. set_solver.
  - set_solver.
Qed.

Lemma foldl_index_step its indexes l v :
  v ∈ default ∅ (foldl index_step indexes its !! l) ↔
  v ∈ default ∅ (indexes !! l) ∨
  ∃ tag, tag ∈ its ∧ Tag.single_letter_tag tag = Some l ∧ Tag.content tag = Some v.
Proof.
  revert indexes. induction its as [|tag its IH]; intros indexes; simpl.
  - set_solver.
  - rewrite IH, index_step_lookup. set_solver.
Qed.

Lemma elem_of_build_indexes its l v :
  v ∈ default ∅ (build_indexes its !! l) ↔
  ∃ tag, tag ∈ its ∧ Tag.single_letter_tag tag = Some l ∧ Tag.content tag = Some v.
Proof.
  unfold build_indexes. rewrite foldl_index_step, lookup_empty. simpl. set_solver.
Qed.

(** *** Cache coherence *)

(** Whatever is cached is the index of the current items. *)
Definition coherent (ts : t) : Prop := ∀ ix, cache ts = Some ix → ix = build_indexes (items ts).

Inductive op :=
| Push (tag : Tag) | Extend (tags : list Tag) | ReplaceOrPush (kind : TagKind) (tag : Tag)
| PushUniqueKind (tag : Tag) | Dedup | Indexes | Clone.

(** One call of a method of [Tags]. *)
Definition run_op (ts : t) (o : op) : t :=
  match o with
  | Push tag => push ts tag
  | Extend tags => extend ts tags
  | ReplaceOrPush kind tag => replace_or_push ts kind tag
  | PushUniqueKind tag => push_unique_kind ts tag
  | Dedup => dedup ts
  | Indexes => (indexes ts).2
  | Clone => clone ts
  end.

Lemma coherent_from_vec its : coherent (from_vec its).
Proof. by intros ix. Qed.

Lemma coherent_run_op ts o : coherent ts → coherent (run_op ts o).
Proof.
  intros Hc. destruct o; simpl; try (by intros ix).
  - unfold push_unique_kind. case_bool_decide; [done|by intros ix].
  - unfold dedup. destruct (items ts); [done|by intros ix].
  - unfold indexes. destruct (cache ts) eqn:E; [done|]. by intros ix [= <-].
Qed.

Lemma coherent_run ts ops : coherent ts → coherent (foldl run_op ts ops).
Proof. revert ts. induction ops; simpl; auto using coherent_run_op. Qed.

Lemma indexes_coherent ts : coherent ts → (indexes ts).1 = build_indexes (items ts).
Proof. unfold indexes. intros Hc. destruct (cache ts) eqn:E; [by apply Hc|done]. Qed.

(** *** Lookups *)

Lemma find_first_Some its k tag :
  find_first its k = Some tag → tag ∈ its ∧ Tag.kind tag = k.
Proof.
  unfold find_first. destruct (list_find _ its) as [[i t']|] eqn:E; simpl; [|done].
  intros [= <-]. apply list_find_Some in E as (Hi & Hk & _). split; [|done].
  by eapply list_elem_of_lookup_2.
Qed.

Lemma find_first_None its k : find_first its k = None ↔ Forall (λ t, Tag.kind t ≠ k) its.
Proof.
  unfold find_first. destruct (list_find _ its) as [[i t']|] eqn:E; simpl.
  - split; [done|]. intros HF. apply list_find_Some in E as (Hi & Hk & _).
    rewrite Forall_forall in HF. exfalso. eapply HF; [by eapply list_elem_of_lookup_2|done].
  - split; [|done]. intros _. by apply list_find_None in E.
Qed.

Lemma find_first_head its k : find_first its k = head (find_all its k).
Proof.
  unfold find_first, find_all. induction its as [|t its IH]; [done|].
  simpl. rewrite filter_cons. destruct (decide (Tag.kind t = k)); simpl; [done|].
  rewrite <-IH. by destruct (list_find _ its) as [[]|].
Qed.

Lemma identifier_indexed its v :
  identifier its = Some v →
  v ∈ default ∅ (build_indexes its !! SingleLetterTag.lowercase Alphabet.D).
Proof.
  unfold identifier, find_letter. rewrite <-find_first_head.
  destruct (find_first its _) as [tag|] eqn:E; simpl; [|done]. intros Hc.
  apply find_first_Some in E as [Hin Hk]. apply elem_of_build_indexes.
  exists tag. rewrite Tag.single_letter_tag_kind. done.
Qed.

(** *** Replacement *)

Lemma find_first_app its its' k :
  find_first (its ++ its') k =
    match find_first its k with Some t => Some t | None => find_first its' k end.
Proof.
  rewrite !find_first_head. unfold find_all. rewrite filter_app.
  by destruct (filter _ its).
Qed.

Lemma replace_items_found its k tag :
  Tag.kind tag = k → find_first (replace_items its k tag) k = Some tag.
Proof.
  intros Hk. unfold replace_items.
  destruct (list_find _ its) as [[i t']|] eqn:E.
  - apply list_find_Some in E as (Hi & _ & Hlt). unfold find_first.
    assert (list_find (λ t, Tag.kind t = k) (<[i:=tag]> its) = Some (i, tag)) as ->; [|done].
    apply list_find_Some. split; [|split; [done|]].
    + apply list_lookup_insert_eq. by eapply lookup_lt_Some.
    + intros j y Hj Hlt'. rewrite list_lookup_insert_ne in Hj by lia. eauto.
  - apply list_find_None in E. rewrite find_first_app.
    rewrite (proj2 (find_first_None its k)) by done.
    unfold find_first; simpl. by rewrite decide_True.
Qed.

Lemma find_all_cons t its k :
  find_all (t :: its) k = if decide (Tag.kind t = k) then t :: find_all its k else find_all its k.
Proof. unfold find_all. by rewrite filter_cons. Qed.

Lemma replace_items_cons t its k tag :
  replace_items (t :: its) k tag =
    if decide (Tag.kind t = k) then tag :: its else t :: replace_items its k tag.
Proof.
  unfold replace_items. simpl. destruct (decide (Tag.kind t = k)); [done|].
  by destruct (list_find _ its) as [[]|].
Qed.

Lemma replace_items_other its k tag k' :
  Tag.kind tag = k → k' ≠ k → find_all (replace_items its k tag) k' = find_all its k'.
Proof.
  intros Hk Hne. induction its as [|t its IH].
  - unfold replace_items, find_all; simpl. rewrite filter_cons, decide_False by congruence. done.
  - rewrite replace_items_cons. destruct (decide (Tag.kind t = k)) as [Et|Et].
    + rewrite !find_all_cons. by rewrite !decide_False by congruence.
    + rewrite !find_all_cons, IH. done.
Qed.

Lemma replace_items_length its k tag :
  Tag.kind tag = k →
  length (find_all (replace_items its k tag) k) = Nat.max 1 (length (find_all its k)).
Proof.
  intros Hk. induction its as [|t its IH].
  - unfold replace_items, find_all; simpl. by rewrite filter_cons, decide_True by done.
  - rewrite replace_items_cons, !(find_all_cons t). destruct (decide (Tag.kind t = k)) as [Et|Et].
    + rewrite find_all_cons, decide_True by done. simpl. lia.
    + by rewrite find_all_cons, decide_False by done.
Qed.

(** *** Deduplication *)

(** The first of the longest tags of a list. *)
Definition longer (best : option Tag) (tag : Tag) : option Tag :=
  match best with
  | None => Some tag
  | Some b => if (Tag.len b <? Tag.len tag)%nat then Some tag else Some b
  end.
Definition longest (l : list Tag) : option Tag := foldl longer None l.

Definition same_key (k : string * option string) (l : list Tag) : list Tag :=
  filter (λ t, dedup_key t = k) l.

(** The reference: at the first position of each key, the longest tag of the key. *)
Definition dedup_ref (its : list Tag) : list Tag :=
  omap id (imap (λ i t, if decide (dedup_key t ∈ (dedup_key <$> take i its)) then None
                        else longest (same_key (dedup_key t) its)) its).

Lemma longest_snoc l t : longest (l ++ [t]) = longer (longest l) t.
Proof. unfold longest. by rewrite foldl_snoc. Qed.

Lemma longest_Some l t : t ∈ l → is_Some (longest l).
Proof.
  induction l as [|x l _] using rev_ind; [set_solver|]. intros _.
  rewrite longest_snoc. destruct (longest l); simpl; [split_matches|]; eauto.
Qed.

(** What the map knows after the tags [pre]. *)
Definition dedup_inv (pre : list Tag) (m : gmap (string * option string) DedupVal) : Prop :=
  ∀ k, match m !! k with
       | None => k ∉ (dedup_key <$> pre)
       | Some v =>
           (∃ t0, pre !! first_idx v = Some t0 ∧ dedup_key t0 = k) ∧
           (k ∉ (dedup_key <$> take (first_idx v) pre)) ∧
           ∃ b, pre !! best_idx v = Some b ∧ longest (same_key k pre) = Some b
       end.

Lemma same_key_snoc k l t :
  same_key k (l ++ [t]) = if decide (dedup_key t = k) then same_key k l ++ [t] else same_key k l.
Proof.
  unfold same_key. rewrite filter_app, filter_cons. simpl. case_decide; [done|].
  by rewrite filter_nil, app_nil_r.
Qed.

Lemma same_key_nil k l : k ∉ (dedup_key <$> l) → same_key k l = [].
Proof.
  intros Hn. unfold same_key. induction l as [|t l IH]; [done|]. rewrite filter_cons, decide_False.
  - apply IH. intros Hin. apply Hn. by right.
  - intros <-. apply Hn. by left.
Qed.

Lemma dedup_step_inv pre t post m :
  dedup_inv pre m → dedup_inv (pre ++ [t]) (dedup_step (pre ++ t :: post) m (length pre, t)).
Proof.
  intros Hm k. unfold dedup_step. rewrite lookup_insert, same_key_snoc, fmap_app.
  specialize (Hm k). assert ((pre ++ [t]) !! length pre = Some t) as Ht by by apply list_lookup_middle.
  assert ((pre ++ t :: post) !! length pre = Some t) as Ht' by by apply list_lookup_middle.
  destruct (decide (dedup_key t = k)) as [<-|Hk].
  - rewrite longest_snoc. destruct (m !! dedup_key t) as [[fi bi]|] eqn:Em; simpl in *.
    + destruct Hm as ((t0 & Hf & Hk0) & Hnew & b & Hb & Hlong).
      rewrite (lookup_app_l_Some _ _ _ _ Hb), Hlong. simpl.
      assert (fi < length pre)%nat by by eapply lookup_lt_Some.
      destruct (Tag.len b <? Tag.len t)%nat; simpl; rewrite take_app_le by lia;
        (split_and!; [exists t0; split; [by apply lookup_app_l_Some|done]|done|]);
        eexists; (split; [|done]); [done|by apply lookup_app_l_Some].
    + rewrite Ht'. simpl. rewrite Nat.ltb_irrefl. simpl.
      rewrite take_app_length, same_key_nil by done. simpl. eauto 10.
  - destruct (m !! k) as [[fi bi]|] eqn:Em; simpl in *.
    + destruct Hm as ((t0 & Hf & Hk0) & Hnew & b & Hb & Hlong).
      assert (fi < length pre)%nat by by eapply lookup_lt_Some. rewrite take_app_le by lia.
      split_and!; [exists t0; split; [by apply lookup_app_l_Some|done]|done|].
      exists b. split; [by apply lookup_app_l_Some|done].
    + rewrite elem_of_app, list_elem_of_singleton. intros [?|?]; congruence.
Qed.

Lemma dedup_map_inv its : dedup_inv its (dedup_map its).
Proof.
  unfold dedup_map.
  assert (∀ l pre m, its = pre ++ l → dedup_inv pre m →
    dedup_inv its (foldl (dedup_step its) m (imap (λ i t, ((length pre + i)%nat, t)) l))) as Hgen.
  { induction l as [|t l IH]; intros pre m Hits Hm.
    - rewrite Hits, app_nil_r. done.
    - rewrite imap_cons, Nat.add_0_r. cbn [foldl].
      rewrite (imap_ext _ (λ i x, ((length (pre ++ [t]) + i)%nat, x))).
      2:{ intros j x _. simpl. rewrite length_app. simpl. f_equal. lia. }
      apply IH; [by rewrite <-app_assoc|]. rewrite Hits. by apply dedup_step_inv. }
  apply (Hgen its [] ∅); [done|]. intros k. rewrite lookup_empty. set_solver.
Qed.

(** Filling the slots does not depend on the order of the values. *)
Lemma dedup_slots its vs nl i :
  NoDup (first_idx <$> vs) → length nl = length its →
  (∀ v, v ∈ vs → (first_idx v < length its)%nat ∧ is_Some (its !! best_idx v)) →
  foldl (dedup_slot its) nl vs !! i =
    match list_find (λ v, first_idx v = i) vs with
    | Some (_, v) => Some (its !! best_idx v)
    | None => nl !! i
    end.
Proof.
  revert nl. induction vs as [|v vs IH]; intros nl Hnd Hlen Hvs; [done|].
  rewrite fmap_cons, NoDup_cons in Hnd. destruct Hnd as [Hn Hnd].
  destruct (Hvs v) as [Hf [best Hb]]; [by left|].
  assert (dedup_slot its nl v = <[first_idx v := Some best]> nl) as Hs.
  { unfold dedup_slot. rewrite Hb. destruct (lookup_lt_is_Some_2 nl (first_idx v)) as [? ->]; [lia|done]. }
  cbn [foldl]. rewrite IH; [|done|by rewrite Hs, length_insert|intros; apply Hvs; by right].
  simpl. destruct (decide (first_idx v = i)) as [<-|Hi].
  - assert (list_find (λ v0, first_idx v0 = first_idx v) vs = None) as ->.
    { apply list_find_None, Forall_forall. intros v' Hv' E. apply Hn. rewrite <-E.
      by apply list_elem_of_fmap_2. }
    rewrite Hs, list_lookup_insert_eq by lia. by rewrite Hb.
  - destruct (list_find _ vs) as [[j v']|]; [done|]. simpl.
    by rewrite Hs, list_lookup_insert_ne.
Qed.

Lemma dedup_items_ref its : dedup_items its = dedup_ref its.
Proof.
  unfold dedup_items, dedup_ref. f_equal. pose proof (dedup_map_inv its) as Hm.
  set (vs := (map_to_list (dedup_map its)).*2).
  assert (∀ v, v ∈ vs ↔ ∃ k, dedup_map its !! k = Some v) as Hvs.
  { intros v. unfold vs. rewrite list_elem_of_fmap. split.
    - intros ([k v'] & -> & Hin%elem_of_map_to_list). eauto.
    - intros [k Hk]. exists (k, v). split; [done|]. by apply elem_of_map_to_list. }
  assert (∀ k v, dedup_map its !! k = Some v →
    ∃ t0, its !! first_idx v = Some t0 ∧ dedup_key t0 = k) as Hfst.
  { intros k v E. specialize (Hm k). rewrite E in Hm. apply Hm. }
  assert (NoDup (first_idx <$> vs)) as Hnd.
  { unfold vs. rewrite <-list_fmap_compose.
    apply NoDup_fmap_2_strong; [|apply NoDup_map_to_list].
    intros [k1 v1] [k2 v2] H1%elem_of_map_to_list H2%elem_of_map_to_list. simpl. intros E.
    destruct (Hfst _ _ H1) as (t1 & Ht1 & Hk1), (Hfst _ _ H2) as (t2 & Ht2 & Hk2). congruence. }
  apply list_eq. intros i. rewrite dedup_slots, list_lookup_imap; [|done|by rewrite length_replicate|].
  2:{ intros v [k Hk]%Hvs. specialize (Hm k). rewrite Hk in Hm.
      destruct Hm as ((t0 & Hf%lookup_lt_Some & _) & _ & b & Hb & _). eauto. }
  destruct (its !! i) as [t|] eqn:Et; simpl.
  - pose proof (Hm (dedup_key t)) as Hk.
    destruct (dedup_map its !! dedup_key t) as [v|] eqn:Ev.
    2:{ destruct Hk. apply list_elem_of_fmap. exists t. split; [done|]. by eapply list_elem_of_lookup_2. }
    destruct Hk as ((t0 & Hf & Hk0) & Hnew & b & Hb & Hlong).
    destruct (list_find (λ v, first_idx v = i) vs) as [[j v']|] eqn:El.
    + apply list_find_Some in El as (Hj & <- & _).
      apply list_elem_of_lookup_2, Hvs in Hj as [k' Hk'].
      destruct (Hfst _ _ Hk') as (t' & Ht' & <-). assert (t' = t) as -> by congruence.
      assert (v' = v) as -> by congruence.
      rewrite decide_False by done. by rewrite Hlong, Hb.
    + rewrite lookup_replicate_2 by by eapply lookup_lt_Some. rewrite decide_True; [done|].
      apply list_find_None in El. rewrite Forall_forall in El.
      assert (first_idx v ≠ i) as Hne by (apply El; apply Hvs; eauto).
      assert (¬ (i < first_idx v)%nat) as Hge.
      { intros Hlt. apply Hnew, list_elem_of_fmap. exists t. split; [done|].
        apply elem_of_take. eauto. }
      apply list_elem_of_fmap. exists t0. split; [done|]. apply elem_of_take. exists (first_idx v).
      split; [done|lia].
  - destruct (list_find (λ v, first_idx v = i) vs) as [[j v']|] eqn:El.
    + apply list_find_Some in El as (Hj & <- & _).
      apply list_elem_of_lookup_2, Hvs in Hj as [k' Hk']. destruct (Hfst _ _ Hk') as (t' & ? & _). congruence.
    + apply lookup_ge_None_2. rewrite length_replicate. by apply lookup_ge_None.
Qed.

End Tags.
Abbreviation TagsIndexes := (gmap SingleLetterTag (gset string)).
