(* ===== verification/Event.v ===== *)
(** * Events

    - [Module Coordinate]: [event/coordinate.rs], the [kind:author:identifier]
      address and its wire form;
    - [Module Event]: [event/event.rs], [event/mod.rs] and [event/unsigned.rs]:
      the signed event, its canonical serialization, id and verification;
    - [Module EventBuilder]: [event/builder.rs];
    - [Module Nip40], [Module Nip70], [Module Nip09]: [nips/nip40.rs],
      [nips/nip70.rs] and [nips/nip09.rs].

    An event's tag list is kept as the items of its [Tags.t]: the index cache is
    a function of them ([Tags.indexes_coherent]). *)

From Stdlib Require Import Ascii NArith Lia.
From S2P Require Import Prelude Encoding Text Ids Tags.

(** ** Coordinates *)

Module Coordinate.

Record t := mk { kind : Kind; author : PublicKey; identifier : string }.

Inductive Error :=
| Malformed (s : string)
| InvalidKind (s : string)
| InvalidAuthor (e : PublicKey.Error).

#[global] Instance t_eq_dec : EqDecision t.
Proof. solve_decision. Defined.

Section coordinate.
Context `{FasterHex, Secp256k1}.

Definition to_wire (c : t) : string :=
  Dec.to_string (kind c) +:+ ":" +:+ PublicKey.to_hex (author c) +:+ ":" +:+ identifier c.

Definition from_str (s : string) : result t Error :=
  match splitn 3 ":" s with
  | [k; a; ident] =>
      match Dec.parse_u16 k with
      | None => Err (InvalidKind k)
      | Some kd =>
          let? author := map_err InvalidAuthor (PublicKey.parse a) in
          Ok (mk kd author ident)
      end
  | _ => Err (Malformed s)
  end.

Definition parse (input : string) : result t Error := from_str input.
End coordinate.

Lemma digits_no_colon s : Dec.string_forallb Dec.is_digit_char s = true → no_char ":" s = true.
Proof.
  induction s as [|c s IH]; simpl; [done|]. intros [Hc Hs]%andb_prop. rewrite IH by done.
  rewrite andb_true_r. destruct (Ascii.eqb_spec c ":"%char); [|done]. by subst.
Qed.

Lemma hex_no_colon s : forallb Hex.is_lower_hex_byte (as_bytes s) = true → no_char ":" s = true.
Proof.
  induction s as [|c s IH]; [done|]. rewrite as_bytes_cons. cbn [forallb no_char].
  intros [Hc Hs]%andb_prop. rewrite IH by done.
  rewrite andb_true_r. destruct (Ascii.eqb_spec c ":"%char); [|done]. by subst.
Qed.

Section laws.
Context `{FasterHex, !FasterHexLaws, Secp256k1}.

Lemma from_str_to_wire_ok c :
  (kind c <= Dec.u16_max)%N → PublicKey.valid (author c) → from_str (to_wire c) = Ok c.
Proof.
  intros Hk Hv. unfold from_str, to_wire. cbn [splitn].
  repeat match goal with |- context [":" +:+ ?x] => change (":" +:+ x) with (String ":" x) end.
  rewrite split_once_app by apply digits_no_colon, Dec.to_string_digits.
  rewrite split_once_app.
  2:{ apply hex_no_colon. unfold PublicKey.to_hex. rewrite hex_encode_spec.
      apply Hex.fmt_lower_is_hex. }
  unfold Dec.parse_u16. rewrite Dec.parse_to_string by done.
  rewrite PublicKey.pk_parse_to_hex by done. by destruct c.
Qed.

Lemma from_str_valid s c :
  from_str s = Ok c → (kind c <= Dec.u16_max)%N ∧ PublicKey.valid (author c).
Proof.
  unfold from_str. destruct (splitn 3 ":" s) as [|k [|a [|ident [|]]]]; try done.
  destruct (Dec.parse_u16 k) as [kd|] eqn:Ek; [|done].
  destruct (PublicKey.parse a) as [pk|] eqn:Ea; simpl; [|done]. intros [= <-]; simpl.
  split; [by eapply Dec.parse_uint_bound|by eapply PublicKey.parse_valid].
Qed.
End laws.

End Coordinate.
Abbreviation Coordinate := Coordinate.t.

Section tags_coordinates.
Context `{FasterHex, Secp256k1}.
(** [Tags::coordinates] and the [a] tag constructors. *)
Definition tags_coordinates (items : list Tag) : list Coordinate :=
  omap (λ tag, Tag.content tag ≫= λ c, result_ok (Coordinate.parse c))
    (Tags.find_letter items Alphabet.A).
Definition tag_a (c : Coordinate) : Tag :=
  Tag.with_ (Tag.lower Alphabet.A) [Coordinate.to_wire c].
Definition tag_a_with_relay (c : Coordinate) (relay : string) : Tag :=
  Tag.with_ (Tag.lower Alphabet.A) [Coordinate.to_wire c; relay].
End tags_coordinates.

(** ** Events *)

(** JSON values: the data model between the types and the JSON text.  A number
    that is not a non-negative integer is kept as its text. *)
Inductive Json :=
| JNull
| JBool (b : bool)
| JNum (n : N)
| JNumOther (text : string)
| JStr (s : string)
| JArr (vs : list Json)
| JObj (entries : list (string * Json)).

(** [serde_json::to_writer] on a byte vector, SHA-256 and BIP-340. *)
Class EventCrypto := {
  json_to_vec : Json → list byte;
  sha256 : list byte → bytes32;
  secret_key : Type;
  xonly_public_key : secret_key → PublicKey;
  sign_schnorr : secret_key → list byte → list byte;
  verify_schnorr : list byte → list byte → PublicKey → bool;
}.

(** A signature made with a key verifies under its public key. *)
Class EventCryptoLaws `{EventCrypto} : Prop := {
  verify_sign : ∀ sk msg, verify_schnorr (sign_schnorr sk msg) msg (xonly_public_key sk) = true;
}.
Arguments EventCryptoLaws : clear implicits.
Arguments EventCryptoLaws {_}.

Module Event.

Record t := mk {
  id : EventId;
  pubkey : PublicKey;
  created_at : Timestamp;
  kind : Kind;
  tags : list Tag;
  content : string;
  sig : list byte;
}.

Inductive Error := InvalidId | InvalidSignature.

#[global] Instance t_eq_dec : EqDecision t.
Proof. solve_decision. Defined.

(** The ranges of the machine integers an event carries, and tags with a head. *)
Definition wf (e : t) : Prop :=
  (created_at e <= Dec.u64_max)%N ∧ (kind e <= Dec.u16_max)%N ∧ Forall Tag.wf (tags e).

#[global] Instance wf_dec e : Decision (wf e).
Proof. unfold wf, Tag.wf. apply _. Defined.

Section crypto.
Context `{FasterHex, EventCrypto}.

(** The tuple [[0, pubkey, created_at, kind, tags, content]]. *)
Definition canonical_value (pubkey : PublicKey) (created_at : Timestamp) (kind : Kind)
    (tags : list Tag) (content : string) : Json :=
  JArr [JNum 0; JStr (PublicKey.to_hex pubkey); JNum created_at; JNum kind;
        JArr ((λ tag, JArr (JStr <$> Tag.values tag)) <$> tags); JStr content].

Definition canonical_bytes (pubkey : PublicKey) (created_at : Timestamp) (kind : Kind)
    (tags : list Tag) (content : string) : list byte :=
  json_to_vec (canonical_value pubkey created_at kind tags content).

Definition compute_event_id (pubkey : PublicKey) (created_at : Timestamp) (kind : Kind)
    (tags : list Tag) (content : string) : EventId :=
  EventId.from_byte_array (sha256 (canonical_bytes pubkey created_at kind tags content)).

Definition verify_id (e : t) : bool :=
  bool_decide (compute_event_id (pubkey e) (created_at e) (kind e) (tags e) (content e) = id e).

Definition verify_signature (e : t) : bool :=
  verify_schnorr (sig e) (EventId.to_byte_array (id e)) (pubkey e).

Definition verify (e : t) : result unit Error :=
  if negb (verify_id e) then Err InvalidId
  else if negb (verify_signature e) then Err InvalidSignature
  else Ok tt.
End crypto.

End Event.
Abbreviation Event := Event.t.

Module UnsignedEvent.

Record t := mk {
  id : EventId;
  pubkey : PublicKey;
  created_at : Timestamp;
  kind : Kind;
  tags : list Tag;
  content : string;
}.

Inductive Error := SignerMismatch.

Section unsigned.
Context `{FasterHex, EventCrypto}.

Definition new (pubkey : PublicKey) (created_at : Timestamp) (kind : Kind)
    (tags : list Tag) (content : string) : t :=
  mk (Event.compute_event_id pubkey created_at kind tags content)
    pubkey created_at kind tags content.

Definition compute_id (u : t) : EventId :=
  Event.compute_event_id (pubkey u) (created_at u) (kind u) (tags u) (content u).

Definition sign_with_keys (u : t) (keys : secret_key) : result Event Error :=
  if negb (bool_decide (xonly_public_key keys = pubkey u)) then Err SignerMismatch
  else
    let canonical_id := compute_id u in
    let signature := sign_schnorr keys (EventId.to_byte_array canonical_id) in
    Ok (Event.mk canonical_id (pubkey u) (created_at u) (kind u) (tags u) (content u) signature).
End unsigned.

(** A signed event has the fields of the unsigned one, the canonical id, and
    verifies. *)
Lemma sign_verifies `{FasterHex, EventCrypto, !EventCryptoLaws} u keys e :
  sign_with_keys u keys = Ok e →
  Event.verify e = Ok tt ∧
  e = Event.mk (compute_id u) (pubkey u) (created_at u) (kind u) (tags u) (content u)
        (sign_schnorr keys (EventId.to_byte_array (compute_id u))).
Proof.
  unfold sign_with_keys. case_bool_decide as Hk; simpl; [|done]. intros [= <-]. split; [|done].
  unfold Event.verify, Event.verify_id, Event.verify_signature. simpl.
  rewrite bool_decide_true by done. simpl. by rewrite <-Hk, verify_sign.
Qed.

End UnsignedEvent.
Abbreviation UnsignedEvent := UnsignedEvent.t.

(** ** The event builder *)

Module EventBuilder.

Record t := mk {
  kind : Kind;
  content : string;
  tags : Tags.t;
  created_at : option Timestamp;
}.

Inductive Error :=
| Clock
| Signer (e : UnsignedEvent.Error).

Definition new (kind : Kind) (content : string) : t := mk kind content Tags.new None.
Definition text_note (content : string) : t := new Kind.TEXT_NOTE content.
Definition set_kind (b : t) (k : Kind) : t := mk k (content b) (tags b) (created_at b).
Definition set_content (b : t) (c : string) : t := mk (kind b) c (tags b) (created_at b).
Definition set_tags (b : t) (ts : Tags.t) : t := mk (kind b) (content b) ts (created_at b).
Definition set_created_at (b : t) (ts : Timestamp) : t :=
  mk (kind b) (content b) (tags b) (Some ts).
Definition add_tag (b : t) (tag : Tag) : t := set_tags b (Tags.push (tags b) tag).
Definition add_tags (b : t) (ts : list Tag) : t := set_tags b (Tags.extend (tags b) ts).

Section build.
Context `{FasterHex, EventCrypto}.

(** [clock] is what [Timestamp::now] returns ([None]: clock before the epoch). *)
Definition build_unsigned (clock : option Timestamp) (b : t) (pubkey : PublicKey) :
    result UnsignedEvent Error :=
  let? created_at := match created_at b with
                     | Some ts => Ok ts
                     | None => ok_or clock Clock
                     end in
  Ok (UnsignedEvent.new pubkey created_at (kind b) (Tags.items (tags b)) (content b)).

Definition sign_with_keys (clock : option Timestamp) (b : t) (keys : secret_key) :
    result Event Error :=
  let? unsigned := build_unsigned clock b (xonly_public_key keys) in
  map_err Signer (UnsignedEvent.sign_with_keys unsigned keys).
End build.

(** What [sign_with_keys] makes of a builder. *)
Lemma sign_Ok `{FasterHex, EventCrypto} clock b keys e :
  sign_with_keys clock b keys = Ok e →
  ∃ ts, (created_at b = Some ts ∨ (created_at b = None ∧ clock = Some ts)) ∧
    let i := Event.compute_event_id (xonly_public_key keys) ts (kind b)
               (Tags.items (tags b)) (content b) in
    e = Event.mk i (xonly_public_key keys) ts (kind b) (Tags.items (tags b))
          (content b) (sign_schnorr keys (EventId.to_byte_array i)).
Proof.
  unfold sign_with_keys, build_unsigned.
  destruct (created_at b) as [ts|]; [|destruct clock as [ts|]]; simpl; [| |done].
  all: unfold UnsignedEvent.sign_with_keys; simpl; rewrite bool_decide_true by done; simpl.
  all: intros [= <-]; exists ts; split; [auto|done].
Qed.

Lemma signed_builder_verifies `{FasterHex, EventCrypto, !EventCryptoLaws} clock b keys e :
  sign_with_keys clock b keys = Ok e → Event.verify e = Ok tt.
Proof.
  unfold sign_with_keys. destruct (build_unsigned clock b _) as [u|]; simpl; [|done].
  destruct (UnsignedEvent.sign_with_keys u keys) as [e'|] eqn:E; simpl; [|done]. intros [= <-].
  by apply UnsignedEvent.sign_verifies in E as [? _].
Qed.

End EventBuilder.
Abbreviation EventBuilder := EventBuilder.t.

(** ** NIP-40: expiration *)

Module Nip40.

Definition EXPIRATION_TAG : string := "expiration".

Inductive ExpirationError :=
| MissingValue
| InvalidTimestamp (s : string).

Definition parse_expiration (event : Event) : result (option Timestamp) ExpirationError :=
  match Tags.find_first (Event.tags event) (TagKind.from_wire EXPIRATION_TAG) with
  | None => Ok None
  | Some tag =>
      match Tag.get tag 1 with
      | None => Err MissingValue
      | Some value =>
          match Dec.parse_u64 value with
          | None => Err (InvalidTimestamp value)
          | Some secs => Ok (Some secs)
          end
      end
  end.

Definition is_expired (event : Event) (now : Timestamp) : result bool ExpirationError :=
  let? deadline := parse_expiration event in
  Ok (match deadline with Some d => (d <=? now)%N | None => false end).

(** [EventBuilder::expiration]. *)
Definition expiration (b : EventBuilder) (ts : Timestamp) : EventBuilder :=
  let kind := TagKind.from_wire EXPIRATION_TAG in
  let tag := Tag.with_ kind [Dec.to_string ts] in
  EventBuilder.set_tags b (Tags.replace_or_push (EventBuilder.tags b) kind tag).

End Nip40.

(** ** NIP-70: protected events *)

Module Nip70.

Definition PROTECTED_TAG : string := "-".

Definition is_protected (event : Event) : bool :=
  bool_decide (is_Some (Tags.find_first (Event.tags event) (TagKind.from_wire PROTECTED_TAG))).

(** [EventBuilder::protected]. *)
Definition protected (b : EventBuilder) : EventBuilder :=
  let tag := Tag.with_ (TagKind.from_wire PROTECTED_TAG) [] in
  EventBuilder.set_tags b (Tags.push_unique_kind (EventBuilder.tags b) tag).

End Nip70.

(** ** NIP-09: deletion requests *)

Module Nip09.

Definition KIND_TAG : string := "k".

Record DeletionRequest := mkRequest {
  event_ids : list EventId;
  coordinates : list Coordinate;
  kinds : list Kind;
  reason : string;
}.

Inductive DeletionError :=
| UnexpectedKind (k : Kind)
| MissingTagValue (tag : string)
| InvalidEventId (e : EventId.Error)
| InvalidCoordinate (e : Coordinate.Error)
| InvalidKindHint (s : string).

Section nip09.
Context `{FasterHex, Secp256k1}.

Definition to_tags (r : DeletionRequest) : list Tag :=
  (Tag.e <$> event_ids r) ++ (tag_a <$> coordinates r) ++ (Tag.k <$> kinds r).

(** One iteration of the loop of [from_event]. *)
Definition from_event_step (request : DeletionRequest) (tag : Tag) :
    result DeletionRequest DeletionError :=
  let head := Tag.kind tag in
  if decide (head = Tag.lower Alphabet.E) then
    let? value := ok_or (Tag.get tag 1) (MissingTagValue "e") in
    let? i := map_err InvalidEventId (EventId.parse value) in
    Ok (mkRequest (event_ids request ++ [i]) (coordinates request) (kinds request)
          (reason request))
  else if decide (head = Tag.lower Alphabet.A) then
    let? value := ok_or (Tag.get tag 1) (MissingTagValue "a") in
    let? c := map_err InvalidCoordinate (Coordinate.from_str value) in
    Ok (mkRequest (event_ids request) (coordinates request ++ [c]) (kinds request)
          (reason request))
  else if decide (head = TagKind.from_wire KIND_TAG) then
    let? value := ok_or (Tag.get tag 1) (MissingTagValue "k") in
    let? raw := ok_or (Dec.parse_u16 value) (InvalidKindHint value) in
    Ok (mkRequest (event_ids request) (coordinates request) (kinds request ++ [raw])
          (reason request))
  else Ok request.

Fixpoint from_event_loop (request : DeletionRequest) (tags : list Tag) :
    result DeletionRequest DeletionError :=
  match tags with
  | [] => Ok request
  | tag :: tags' =>
      let? request' := from_event_step request tag in from_event_loop request' tags'
  end.

Definition from_event (event : Event) : result DeletionRequest DeletionError :=
  if negb (Event.kind event =? Kind.EVENT_DELETION)%N then Err (UnexpectedKind (Event.kind event))
  else from_event_loop (mkRequest [] [] [] (Event.content event)) (Event.tags event).

(** [EventBuilder::deletion]. *)
Definition deletion (request : DeletionRequest) : EventBuilder :=
  EventBuilder.add_tags (EventBuilder.new Kind.EVENT_DELETION (reason request))
    (to_tags request).

Definition validate_target_authority (deletion : Event) (target_author : PublicKey) : bool :=
  bool_decide (Event.pubkey deletion = target_author).
End nip09.

End Nip09.
