(* ===== verification/Filter.v ===== *)
(** * Subscription filters

    [crates/nula-core/src/filter.rs]: the NIP-01 filter, its builders, the
    matcher [match_event] over the [MatchableEvent] interface, and the map of
    entries it serializes to and is read from.

    [Class MatchableEvent] is the Rust trait of the same name; this file gives
    the instance of the owned [Event], [Redb.v] the one of the borrowed storage
    projection.  The serde data model ([Json]) stands between the filter and the
    JSON text, whose reader and printer are serde_json's. *)

From Stdlib Require Import Ascii NArith Lia.
From S2P Require Import Prelude Encoding Text Ids Tags Event.

(** ** [IndexMap]: an insertion-ordered map as an association list *)

Module IndexMap.
Section index_map.
Context {K V : Type} `{EqDecision K}.

Abbreviation t := (list (K * V)).

Fixpoint get (m : t) (k : K) : option V :=
  match m with
  | [] => None
  | (k', v) :: m' => if decide (k = k') then Some v else get m' k
  end.

(** Overwrite in place, or append. *)
Fixpoint insert (m : t) (k : K) (v : V) : t :=
  match m with
  | [] => [(k, v)]
  | (k', v') :: m' => if decide (k = k') then (k', v) :: m' else (k', v') :: insert m' k v
  end.

Fixpoint shift_remove (m : t) (k : K) : t :=
  match m with
  | [] => []
  | (k', v') :: m' => if decide (k = k') then m' else (k', v') :: shift_remove m' k
  end.

Definition wf (m : t) : Prop := NoDup m.*1.

Lemma get_elem m k v : wf m → get m k = Some v ↔ (k, v) ∈ m.
Proof.
  unfold wf. induction m as [|[k' v'] m IH]; simpl; [set_solver|].
  rewrite NoDup_cons. intros [Hk Hnd]. rewrite elem_of_cons.
  destruct (decide (k = k')) as [->|Hne].
  - split; [intros [= ->]; by left|]. intros [[= ->]|Hin]; [done|].
    exfalso. apply Hk. apply list_elem_of_fmap. by exists (k', v).
  - rewrite IH by done. split; [by right|]. intros [[= ??]|?]; [done|done].
Qed.

Lemma insert_keys m k v x : x ∈ (insert m k v).*1 ↔ x = k ∨ x ∈ m.*1.
Proof.
  induction m as [|[k' v'] m IH]; simpl; [set_solver|].
  destruct (decide (k = k')); simpl; set_solver.
Qed.

Lemma insert_wf m k v : wf m → wf (insert m k v).
Proof.
  unfold wf. induction m as [|[k' v'] m IH]; simpl; intros Hnd.
  - apply NoDup_singleton.
  - rewrite NoDup_cons in Hnd. destruct Hnd as [Hk' Hnd].
    destruct (decide (k = k')); simpl; rewrite NoDup_cons; [done|].
    split; [|auto]. rewrite insert_keys. set_solver.
Qed.

Lemma insert_fresh m k v : k ∉ m.*1 → insert m k v = m ++ [(k, v)].
Proof.
  induction m as [|[k' v'] m IH]; simpl; [done|]. intros Hk.
  rewrite decide_False by set_solver. rewrite IH; [done|set_solver].
Qed.

Lemma get_insert m k v k' :
  get (insert m k v) k' = if decide (k' = k) then Some v else get m k'.
Proof.
  induction m as [|[j w] m IH]; simpl; [done|].
  destruct (decide (k = j)) as [->|]; simpl.
  - destruct (decide (k' = j)); done.
  - destruct (decide (k' = j)) as [->|]; [by rewrite decide_False|]. done.
Qed.
End index_map.
End IndexMap.

(** ** Order-preserving deduplication *)

Section dedup.
Context {A : Type} `{EqDecision A}.

(** [if !bucket.contains(&v) { bucket.push(v) }], the body of every builder. *)
Definition push_new (bucket : list A) (v : A) : list A :=
  if decide (v ∈ bucket) then bucket else bucket ++ [v].

(** [dedup_preserving_order] and [push_unique]: a loop of that body. *)
Definition dedup_preserving_order (values : list A) : list A := foldl push_new [] values.

Lemma elem_of_push_new b v x : x ∈ push_new b v ↔ x ∈ b ∨ x = v.
Proof. unfold push_new. case_decide; set_solver. Qed.

Lemma NoDup_push_new b v : NoDup b → NoDup (push_new b v).
Proof.
  intros Hb. unfold push_new. case_decide; [done|].
  apply NoDup_app. split_and!; [done|set_solver|apply NoDup_singleton].
Qed.

Lemma NoDup_foldl_push_new b vs : NoDup b → NoDup (foldl push_new b vs).
Proof. revert b. induction vs; simpl; auto using NoDup_push_new. Qed.

Lemma elem_of_foldl_push_new b vs x : x ∈ foldl push_new b vs ↔ x ∈ b ∨ x ∈ vs.
Proof.
  revert b. induction vs as [|v vs IH]; intros b; simpl; [set_solver|].
  rewrite IH, elem_of_push_new. set_solver.
Qed.

Lemma foldl_push_new_fresh b vs :
  NoDup vs → (∀ x, x ∈ vs → x ∉ b) → foldl push_new b vs = b ++ vs.
Proof.
  revert b. induction vs as [|v vs IH]; intros b Hnd Hb; simpl; [by rewrite app_nil_r|].
  apply NoDup_cons in Hnd as [Hv Hnd]. unfold push_new at 2.
  rewrite decide_False by (apply Hb; set_solver). rewrite IH; [by rewrite <-app_assoc|done|].
  intros x Hx. rewrite elem_of_app. set_solver.
Qed.
End dedup.

(** ** The matcher's view of an event *)

Class MatchableEvent (E : Type) := {
  matchable_id : E → EventId;
  matchable_pubkey_bytes : E → list byte;
  matchable_kind : E → Kind;
  matchable_created_at : E → Timestamp;
  matchable_has_tag : E → SingleLetterTag → list string → bool;
  matchable_expiration : E → option Timestamp;
}.

(** [impl MatchableEvent for Event]: tags are looked up in the index. *)
#[global] Instance Event_matchable : MatchableEvent Event := {|
  matchable_id := Event.id;
  matchable_pubkey_bytes e := PublicKey.to_byte_array (Event.pubkey e);
  matchable_kind := Event.kind;
  matchable_created_at := Event.created_at;
  matchable_has_tag e letter values :=
    match Tags.build_indexes (Event.tags e) !! letter with
    | Some present => existsb (λ value, bool_decide (value ∈ present)) values
    | None => false
    end;
  matchable_expiration e := mjoin (result_ok (Nip40.parse_expiration e));
|}.

Record MatchEventOptions := mkOpts {
  allow_expired : bool;
  allow_future_dates : bool;
  opt_now : option Timestamp;
}.
Definition match_options_default : MatchEventOptions := mkOpts true true None.
Definition match_options_strict (now : Timestamp) : MatchEventOptions :=
  mkOpts false false (Some now).

(** ** Filters *)

Module Filter.

Record t := mk {
  ids : option (list EventId);
  authors : option (list PublicKey);
  kinds : option (list Kind);
  since : option Timestamp;
  until : option Timestamp;
  limit : option N;
  search : option string;
  generic_tags : list (SingleLetterTag * list string);
}.

#[global] Instance t_eq_dec : EqDecision t.
Proof. solve_decision. Defined.

Definition new : t := mk None None None None None None None [].

Definition set_ids (f : t) v := mk v (authors f) (kinds f) (since f) (until f) (limit f) (search f) (generic_tags f).
Definition set_authors (f : t) v := mk (ids f) v (kinds f) (since f) (until f) (limit f) (search f) (generic_tags f).
Definition set_kinds (f : t) v := mk (ids f) (authors f) v (since f) (until f) (limit f) (search f) (generic_tags f).
Definition set_since (f : t) v := mk (ids f) (authors f) (kinds f) v (until f) (limit f) (search f) (generic_tags f).
Definition set_until (f : t) v := mk (ids f) (authors f) (kinds f) (since f) v (limit f) (search f) (generic_tags f).
Definition set_limit (f : t) v := mk (ids f) (authors f) (kinds f) (since f) (until f) v (search f) (generic_tags f).
Definition set_search (f : t) v := mk (ids f) (authors f) (kinds f) (since f) (until f) (limit f) v (generic_tags f).
Definition set_generic_tags (f : t) v := mk (ids f) (authors f) (kinds f) (since f) (until f) (limit f) (search f) v.

(** *** Builders *)

(** [self.ids.get_or_insert_with(Vec::new)] then push the new values. *)
Definition bucket_add {A} `{EqDecision A} (o : option (list A)) (vs : list A) : option (list A) :=
  Some (foldl push_new (default [] o) vs).

Definition add_id (f : t) (i : EventId) : t := set_ids f (bucket_add (ids f) [i]).
Definition add_ids (f : t) (xs : list EventId) : t := set_ids f (bucket_add (ids f) xs).
Definition add_author (f : t) (pk : PublicKey) : t := set_authors f (bucket_add (authors f) [pk]).
Definition add_authors (f : t) (pks : list PublicKey) : t := set_authors f (bucket_add (authors f) pks).
Definition add_kind (f : t) (k : Kind) : t := set_kinds f (bucket_add (kinds f) [k]).
Definition add_kinds (f : t) (ks : list Kind) : t := set_kinds f (bucket_add (kinds f) ks).
Definition with_since (f : t) (ts : Timestamp) : t := set_since f (Some ts).
Definition with_until (f : t) (ts : Timestamp) : t := set_until f (Some ts).
Definition with_limit (f : t) (n : N) : t := set_limit f (Some n).
Definition with_search (f : t) (s : string) : t := set_search f (Some s).

(** [self.generic_tags.entry(letter).or_default()] then push the new values. *)
Definition custom_tags (f : t) (letter : SingleLetterTag) (vs : list string) : t :=
  let bucket := default [] (IndexMap.get (generic_tags f) letter) in
  set_generic_tags f (IndexMap.insert (generic_tags f) letter (foldl push_new bucket vs)).
Definition custom_tag (f : t) (letter : SingleLetterTag) (v : string) : t := custom_tags f letter [v].

Definition low (a : Alphabet.t) : SingleLetterTag := SingleLetterTag.lowercase a.

Section hex_builders.
Context `{FasterHex, Secp256k1}.
Definition event (f : t) (i : EventId) : t := custom_tag f (low Alphabet.E) (EventId.to_hex i).
Definition events (f : t) (xs : list EventId) : t := custom_tags f (low Alphabet.E) (EventId.to_hex <$> xs).
Definition pubkey (f : t) (pk : PublicKey) : t := custom_tag f (low Alphabet.P) (PublicKey.to_hex pk).
Definition pubkeys (f : t) (pks : list PublicKey) : t := custom_tags f (low Alphabet.P) (PublicKey.to_hex <$> pks).
Definition coordinate (f : t) (c : Coordinate) : t := custom_tag f (low Alphabet.A) (Coordinate.to_wire c).
Definition coordinates (f : t) (cs : list Coordinate) : t :=
  custom_tags f (low Alphabet.A) (Coordinate.to_wire <$> cs).
End hex_builders.
Definition hashtag (f : t) (s : string) : t := custom_tag f (low Alphabet.T) s.
Definition hashtags (f : t) (ss : list string) : t := custom_tags f (low Alphabet.T) ss.
Definition reference (f : t) (s : string) : t := custom_tag f (low Alphabet.R) s.
Definition references (f : t) (ss : list string) : t := custom_tags f (low Alphabet.R) ss.
Definition identifier (f : t) (s : string) : t := custom_tag f (low Alphabet.D) s.
Definition identifiers (f : t) (ss : list string) : t := custom_tags f (low Alphabet.D) ss.

(** [bucket.retain(..)], the whole field dropped when nothing is left. *)
Definition bucket_remove {A} `{EqDecision A} (o : option (list A)) (drop : list A) : option (list A) :=
  match o with
  | None => None
  | Some b => match filter (λ v, v ∉ drop) b with [] => None | b' => Some b' end
  end.

Definition remove_ids (f : t) (xs : list EventId) : t := set_ids f (bucket_remove (ids f) xs).
Definition remove_authors (f : t) (pks : list PublicKey) : t := set_authors f (bucket_remove (authors f) pks).
Definition remove_kinds (f : t) (ks : list Kind) : t := set_kinds f (bucket_remove (kinds f) ks).
Definition remove_custom_tags (f : t) (letter : SingleLetterTag) (drop : list string) : t :=
  match IndexMap.get (generic_tags f) letter with
  | None => f
  | Some b =>
      match filter (λ v, v ∉ drop) b with
      | [] => set_generic_tags f (IndexMap.shift_remove (generic_tags f) letter)
      | b' => set_generic_tags f (IndexMap.insert (generic_tags f) letter b')
      end
  end.
Definition remove_since (f : t) : t := set_since f None.
Definition remove_until (f : t) : t := set_until f None.
Definition remove_limit (f : t) : t := set_limit f None.
Definition remove_search (f : t) : t := set_search f None.

Section extract.
Context `{FasterHex, Secp256k1}.
Definition extract_public_keys (f : t) : list PublicKey :=
  dedup_preserving_order
    (default [] (authors f) ++
     omap (λ s, result_ok (PublicKey.parse s))
       (default [] (IndexMap.get (generic_tags f) (low Alphabet.P)))).
Definition extract_event_ids (f : t) : list EventId :=
  dedup_preserving_order
    (default [] (ids f) ++
     omap (λ s, result_ok (EventId.parse s))
       (default [] (IndexMap.get (generic_tags f) (low Alphabet.E)))).
End extract.

Definition is_none {A} (o : option A) : bool := match o with None => true | Some _ => false end.

Definition is_empty (f : t) : bool :=
  is_none (ids f) && is_none (authors f) && is_none (kinds f) && is_none (since f) &&
  is_none (until f) && is_none (limit f) && is_none (search f) &&
  match generic_tags f with [] => true | _ => false end.

(** *** Matching *)

Section matching.
Context {E : Type} `{MatchableEvent E}.

Definition generic_tags_match (tags : list (SingleLetterTag * list string)) (e : E) : bool :=
  forallb (λ p, matchable_has_tag e p.1 p.2) tags.

(** [Filter::match_event], early return by early return. *)
Definition match_event (f : t) (e : E) (opts : MatchEventOptions) : bool :=
  if match ids f with
     | Some xs => negb (bool_decide (matchable_id e ∈ xs)) | None => false end
  then false
  else if match authors f with
     | Some pks => negb (existsb (λ a, bool_decide (PublicKey.to_byte_array a = matchable_pubkey_bytes e)) pks)
     | None => false end
  then false
  else if match kinds f with
     | Some ks => negb (bool_decide (matchable_kind e ∈ ks)) | None => false end
  then false
  else
    let created_at := matchable_created_at e in
    if match since f with Some s => (created_at <? s)%N | None => false end then false
    else if match until f with Some u => (u <? created_at)%N | None => false end then false
    else if negb (generic_tags_match (generic_tags f) e) then false
    else match opt_now opts with
         | None => true
         | Some now =>
             if negb (allow_future_dates opts) && (now <? created_at)%N then false
             else if negb (allow_expired opts) &&
                     match matchable_expiration e with
                     | Some deadline => (deadline <=? now)%N
                     | None => false
                     end
             then false
             else true
         end.
End matching.

(** *** What matching means *)

(** The event carries a [letter] tag with one of [values]. *)
Definition carries_tag (tags : list Tag) (letter : SingleLetterTag) (values : list string) : Prop :=
  ∃ tag v, tag ∈ tags ∧ Tag.single_letter_tag tag = Some letter ∧
           Tag.content tag = Some v ∧ v ∈ values.

Lemma Event_has_tag (e : Event) letter values :
  matchable_has_tag e letter values = true ↔ carries_tag (Event.tags e) letter values.
Proof.
  simpl. split.
  - destruct (_ !! letter) as [present|] eqn:E; [|done]. intros (v & Hv & Hb)%existsb_exists.
    apply list_elem_of_In in Hv. reflect_bools.
    assert (v ∈ default ∅ (Tags.build_indexes (Event.tags e) !! letter)) as Hin by by rewrite E.
    apply Tags.elem_of_build_indexes in Hin as (tag & ? & ? & ?). by exists tag, v.
  - intros (tag & v & Hin & Hl & Hc & Hv).
    assert (v ∈ default ∅ (Tags.build_indexes (Event.tags e) !! letter)) as Hp
      by (apply Tags.elem_of_build_indexes; eauto).
    destruct (_ !! letter) as [present|]; simpl in Hp; [|set_solver].
    apply existsb_exists. exists v. rewrite <-list_elem_of_In. split; [done|].
    by apply bool_decide_eq_true.
Qed.

(** The runtime guards of [MatchEventOptions]. *)
Definition guards {E} `{MatchableEvent E} (e : E) (opts : MatchEventOptions) : Prop :=
  match opt_now opts with
  | None => True
  | Some now =>
      (allow_future_dates opts = false → (matchable_created_at e <= now)%N) ∧
      (allow_expired opts = false → ∀ d, matchable_expiration e = Some d → (now < d)%N)
  end.

(** Every constraint that is set is satisfied. *)
Definition satisfies {E} `{MatchableEvent E} (f : t) (e : E) : Prop :=
  (∀ xs, ids f = Some xs → matchable_id e ∈ xs) ∧
  (∀ pks, authors f = Some pks →
     ∃ a, a ∈ pks ∧ PublicKey.to_byte_array a = matchable_pubkey_bytes e) ∧
  (∀ ks, kinds f = Some ks → matchable_kind e ∈ ks) ∧
  (∀ s, since f = Some s → (s <= matchable_created_at e)%N) ∧
  (∀ u, until f = Some u → (matchable_created_at e <= u)%N) ∧
  (∀ letter vs, (letter, vs) ∈ generic_tags f → matchable_has_tag e letter vs = true).

Section match_spec.
Context {E : Type} `{MatchableEvent E}.

Lemma existsb_authors (pks : list PublicKey) (e : E) :
  existsb (λ a, bool_decide (PublicKey.to_byte_array a = matchable_pubkey_bytes e)) pks = true ↔
  ∃ a, a ∈ pks ∧ PublicKey.to_byte_array a = matchable_pubkey_bytes e.
Proof.
  rewrite existsb_exists. setoid_rewrite bool_decide_eq_true.
  by setoid_rewrite list_elem_of_In.
Qed.

Lemma generic_tags_match_spec tags (e : E) :
  generic_tags_match tags e = true ↔
  ∀ letter vs, (letter, vs) ∈ tags → matchable_has_tag e letter vs = true.
Proof.
  unfold generic_tags_match. rewrite forallb_forall. split.
  - intros Hf letter vs Hin. apply list_elem_of_In in Hin. apply (Hf _ Hin).
  - intros Hf [letter vs] Hin. apply list_elem_of_In in Hin. by apply Hf.
Qed.

Definition opt_clause {A} (o : option A) (p : A → bool) : bool :=
  match o with Some a => p a | None => true end.

Lemma opt_clause_true {A} (o : option A) p :
  opt_clause o p = true ↔ ∀ a, o = Some a → p a = true.
Proof. destruct o; simpl; naive_solver. Qed.

Lemma early_return {A} (o : option A) (p : A → bool) (k : bool) :
  (if match o with Some a => negb (p a) | None => false end then false else k) =
  opt_clause o p && k.
Proof. destruct o as [a|]; simpl; [by destruct (p a)|done]. Qed.

Definition guards_b (e : E) (opts : MatchEventOptions) : bool :=
  opt_clause (opt_now opts) (λ now,
    (allow_future_dates opts || (matchable_created_at e <=? now)%N) &&
    (allow_expired opts || opt_clause (matchable_expiration e) (λ d, (now <? d)%N))).

Lemma guards_b_true e opts : guards_b e opts = true ↔ guards e opts.
Proof.
  unfold guards_b, guards. destruct (opt_now opts) as [now|]; simpl; [|done].
  rewrite andb_true_iff, !orb_true_iff, N.leb_le, opt_clause_true.
  setoid_rewrite N.ltb_lt.
  destruct (allow_future_dates opts), (allow_expired opts); naive_solver.
Qed.

Lemma match_event_conj f (e : E) opts :
  match_event f e opts =
    opt_clause (ids f) (λ xs, bool_decide (matchable_id e ∈ xs)) &&
    (opt_clause (authors f) (λ pks,
       existsb (λ a, bool_decide (PublicKey.to_byte_array a = matchable_pubkey_bytes e)) pks) &&
    (opt_clause (kinds f) (λ ks, bool_decide (matchable_kind e ∈ ks)) &&
    (opt_clause (since f) (λ s, (s <=? matchable_created_at e)%N) &&
    (opt_clause (until f) (λ u, (matchable_created_at e <=? u)%N) &&
    (generic_tags_match (generic_tags f) e && guards_b e opts))))).
Proof.
  unfold match_event. rewrite !early_return. do 3 f_equal. rewrite <-!early_return. cbv zeta.
  destruct (since f) as [s|]; [rewrite N.ltb_antisym; destruct (negb _); [done|]|];
  (destruct (until f) as [u|]; [rewrite (N.ltb_antisym _ u); destruct (negb _); [done|]|]);
  (destruct (generic_tags_match _ e); simpl; [|done]);
  unfold guards_b; (destruct (opt_now opts) as [now|]; simpl; [|done]);
  rewrite N.ltb_antisym;
  destruct (allow_future_dates opts), (allow_expired opts), (_ <=? now)%N; simpl; try done;
  (destruct (matchable_expiration e) as [d|]; simpl; [|done]);
  rewrite N.ltb_antisym; by destruct (d <=? now)%N.
Qed.

Lemma match_event_iff f (e : E) opts :
  match_event f e opts = true ↔ satisfies f e ∧ guards e opts.
Proof.
  rewrite match_event_conj, !andb_true_iff, !opt_clause_true, generic_tags_match_spec, guards_b_true.
  unfold satisfies. setoid_rewrite existsb_authors. setoid_rewrite bool_decide_eq_true.
  setoid_rewrite N.leb_le. tauto.
Qed.

Lemma match_event_default f (e : E) :
  match_event f e match_options_default = true ↔ satisfies f e.
Proof. rewrite match_event_iff. unfold guards; simpl. tauto. Qed.
End match_spec.

(** The matcher only sees the event through the interface. *)
Lemma match_event_ext {E1 E2} `{MatchableEvent E1, MatchableEvent E2} f (e1 : E1) (e2 : E2) opts :
  matchable_id e1 = matchable_id e2 →
  matchable_pubkey_bytes e1 = matchable_pubkey_bytes e2 →
  matchable_kind e1 = matchable_kind e2 →
  matchable_created_at e1 = matchable_created_at e2 →
  (∀ letter vs, matchable_has_tag e1 letter vs = matchable_has_tag e2 letter vs) →
  matchable_expiration e1 = matchable_expiration e2 →
  match_event f e1 opts = match_event f e2 opts.
Proof.
  intros Hid Hpk Hk Hc Ht Hx. rewrite !match_event_conj. unfold guards_b.
  rewrite Hid, Hpk, Hk, Hc, Hx. do 5 f_equal. f_equal.
  unfold generic_tags_match. induction (generic_tags f) as [|p tags IH]; simpl; [done|].
  by rewrite Ht, IH.
Qed.

End Filter.
Abbreviation Filter := Filter.t.
