(* ===== verification/FilterWire.v ===== *)
(** * The wire form of filters

    [crates/nula-core/src/filter.rs]: [impl Serialize for Filter],
    [deserialize_filter_entry] and [FilterVisitor::visit_map], and the
    order-independent [fingerprint].  A JSON object is the list of its entries;
    serde_json turns it into text and back. *)

From Stdlib Require Import Ascii NArith Lia.
From S2P Require Import Prelude Encoding Text Ids Tags Event Filter.

(** ** serde's typed readers *)

(** [serde_json] reading a value as a [u16], a [u64], a [usize], a string, a
    sequence, a map and a boolean, and printing a list of strings or of integers as JSON text. *)
Class SerdeJson := {
  de_u16 : Json → option N;
  de_u64 : Json → option N;
  de_str : Json → option string;
  de_seq : Json → option (list Json);
  de_map : Json → option (list (string * Json));
  de_bool : Json → option bool;
  json_to_string : Json → string;
}.

(** A value of the right shape and range is read as itself; what is read is in
    range. *)
Class SerdeJsonLaws `{SerdeJson} : Prop := {
  de_u16_num : ∀ n, (n <= Dec.u16_max)%N → de_u16 (JNum n) = Some n;
  de_u16_bound : ∀ v n, de_u16 v = Some n → (n <= Dec.u16_max)%N;
  de_u64_num : ∀ n, (n <= Dec.u64_max)%N → de_u64 (JNum n) = Some n;
  de_u64_bound : ∀ v n, de_u64 v = Some n → (n <= Dec.u64_max)%N;
  de_str_str : ∀ s, de_str (JStr s) = Some s;
  de_seq_arr : ∀ l, de_seq (JArr l) = Some l;
  de_map_obj : ∀ l, de_map (JObj l) = Some l;
  de_bool_bool : ∀ b, de_bool (JBool b) = Some b;
}.
Arguments SerdeJsonLaws : clear implicits.
Arguments SerdeJsonLaws {_}.

Module FilterWire.

Inductive Error :=
| BadValue (key : string)
| BadLetter (e : SingleLetterTag.Error)
| NotHex (letter : SingleLetterTag) (value : string).

(** ** Writing *)

Definition tag_filter_key (letter : SingleLetterTag) : string :=
  String "#" (char_str (SingleLetterTag.as_char letter)).

Definition opt_entry {A} (key : string) (enc : A → Json) (o : option A) : list (string * Json) :=
  match o with Some v => [(key, enc v)] | None => [] end.

Section wire.
Context `{FasterHex, Secp256k1, SerdeJson}.

Definition ids_json (l : list EventId) : Json := JArr ((λ i, JStr (EventId.to_hex i)) <$> l).
Definition authors_json (l : list PublicKey) : Json := JArr ((λ p, JStr (PublicKey.to_hex p)) <$> l).
Definition kinds_json (l : list Kind) : Json := JArr (JNum <$> l).
Definition strings_json (l : list string) : Json := JArr (JStr <$> l).

(** The entries, in the order they are written. *)
Definition serialize (f : Filter) : list (string * Json) :=
  opt_entry "ids" ids_json (Filter.ids f) ++
  opt_entry "authors" authors_json (Filter.authors f) ++
  opt_entry "kinds" kinds_json (Filter.kinds f) ++
  opt_entry "since" JNum (Filter.since f) ++
  opt_entry "until" JNum (Filter.until f) ++
  opt_entry "limit" JNum (Filter.limit f) ++
  opt_entry "search" JStr (Filter.search f) ++
  ((λ p, (tag_filter_key p.1, strings_json p.2)) <$> Filter.generic_tags f).

(** ** Reading *)

(** [map.next_value::<Vec<T>>()]. *)
Definition de_vec {A} (de : Json → option A) (v : Json) : option (list A) :=
  de_seq v ≫= mapM de.

Definition de_event_id (v : Json) : option EventId :=
  de_str v ≫= λ s, result_ok (EventId.parse s).
Definition de_public_key (v : Json) : option PublicKey :=
  de_str v ≫= λ s, result_ok (PublicKey.parse s).

Definition is_lowercase_hex_64 (value : string) : bool :=
  (String.length value =? 64)%nat && forallb Hex.is_lower_hex_byte (as_bytes value).

Definition needs_hex (letter : SingleLetterTag) : bool :=
  bool_decide (letter = Filter.low Alphabet.E ∨ letter = Filter.low Alphabet.P).

Fixpoint validate_values (letter : SingleLetterTag) (values : list string) : result unit Error :=
  match values with
  | [] => Ok tt
  | value :: values' =>
      if negb (is_lowercase_hex_64 value) then Err (NotHex letter value)
      else validate_values letter values'
  end.

Definition validate_hex_filter_values (letter : SingleLetterTag) (values : list string) :
    result unit Error :=
  if negb (needs_hex letter) then Ok tt else validate_values letter values.

(** [key.strip_prefix('#')]. *)
Definition strip_hash (key : string) : option string :=
  match key with
  | String c rest => if Ascii.eqb c "#" then Some rest else None
  | EmptyString => None
  end.

Definition deserialize_filter_entry (f : Filter) (key : string) (v : Json) :
    result Filter Error :=
  match strip_hash key with
  | Some letter_str =>
      let? letter := map_err BadLetter (SingleLetterTag.from_str letter_str) in
      let? values := ok_or (de_vec de_str v) (BadValue key) in
      let? _ := validate_hex_filter_values letter values in
      Ok (Filter.set_generic_tags f
            (IndexMap.insert (Filter.generic_tags f) letter (dedup_preserving_order values)))
  | None =>
      if decide (key = "ids") then
        let? x := ok_or (de_vec de_event_id v) (BadValue key) in Ok (Filter.set_ids f (Some x))
      else if decide (key = "authors") then
        let? x := ok_or (de_vec de_public_key v) (BadValue key) in Ok (Filter.set_authors f (Some x))
      else if decide (key = "kinds") then
        let? x := ok_or (de_vec de_u16 v) (BadValue key) in Ok (Filter.set_kinds f (Some x))
      else if decide (key = "since") then
        let? x := ok_or (de_u64 v) (BadValue key) in Ok (Filter.set_since f (Some x))
      else if decide (key = "until") then
        let? x := ok_or (de_u64 v) (BadValue key) in Ok (Filter.set_until f (Some x))
      else if decide (key = "limit") then
        let? x := ok_or (de_u64 v) (BadValue key) in Ok (Filter.set_limit f (Some x))
      else if decide (key = "search") then
        let? x := ok_or (de_str v) (BadValue key) in Ok (Filter.set_search f (Some x))
      else Ok f
  end.

Fixpoint visit_entries (f : Filter) (entries : list (string * Json)) : result Filter Error :=
  match entries with
  | [] => Ok f
  | (key, v) :: entries' =>
      let? f' := deserialize_filter_entry f key v in visit_entries f' entries'
  end.

Definition visit_map (entries : list (string * Json)) : result Filter Error :=
  visit_entries Filter.new entries.

(** ** Fingerprints *)

(** [Vec<String>::sort]: lexicographic on the bytes. *)
Definition string_le (a b : string) : Prop := bytes_le (as_bytes a) (as_bytes b).
#[global] Instance string_le_dec a b : Decision (string_le a b).
Proof. unfold string_le. apply _. Defined.
Definition sort_strings (l : list string) : list string := merge_sort string_le l.

Definition array (v : Json) : string := json_to_string v.
Definition opt_part {A} (label : string) (enc : A → string) (o : option A) : list string :=
  match o with Some v => [label +:+ enc v] | None => [] end.

Definition tag_part (p : SingleLetterTag * list string) : string :=
  "#" +:+ SingleLetterTag.to_string p.1 +:+ ":" +:+ array (strings_json (sort_strings p.2)).

Definition parts (f : Filter) : list string :=
  opt_part "ids:" (λ l, array (strings_json (sort_strings (EventId.to_hex <$> l)))) (Filter.ids f) ++
  opt_part "authors:" (λ l, array (strings_json (sort_strings (PublicKey.to_hex <$> l))))
    (Filter.authors f) ++
  opt_part "kinds:" (λ l, array (kinds_json (merge_sort N.le l))) (Filter.kinds f) ++
  opt_part "since:" Dec.to_string (Filter.since f) ++
  opt_part "until:" Dec.to_string (Filter.until f) ++
  opt_part "limit:" Dec.to_string (Filter.limit f) ++
  opt_part "search:" (λ s, array (strings_json [s])) (Filter.search f) ++
  sort_strings (tag_part <$> Filter.generic_tags f).

(** [parts.join("\n")]. *)
Definition newline : string := String (Ascii.ascii_of_N 10) EmptyString.
Definition fingerprint (f : Filter) : string := String.concat newline (parts f).
End wire.

(** ** Round trip *)

(** What a filter must satisfy to survive the wire: machine integers in range,
    keys on the curve, one entry per letter, no repeated tag value, and hex
    values under [#e] and [#p]. *)
Record wire_ok `{Secp256k1} (f : Filter) : Prop := {
  ok_authors : ∀ l, Filter.authors f = Some l → Forall PublicKey.valid l;
  ok_kinds : ∀ l, Filter.kinds f = Some l → Forall (λ k, (k <= Dec.u16_max)%N) l;
  ok_since : ∀ n, Filter.since f = Some n → (n <= Dec.u64_max)%N;
  ok_until : ∀ n, Filter.until f = Some n → (n <= Dec.u64_max)%N;
  ok_limit : ∀ n, Filter.limit f = Some n → (n <= Dec.u64_max)%N;
  ok_letters : IndexMap.wf (Filter.generic_tags f);
  ok_values : ∀ letter vs, (letter, vs) ∈ Filter.generic_tags f →
    NoDup vs ∧ (needs_hex letter = true → Forall (λ v, is_lowercase_hex_64 v = true) vs);
}.

Section laws.
Context `{FasterHex, !FasterHexLaws, Secp256k1, SerdeJson, !SerdeJsonLaws}.

Lemma visit_app f a b :
  visit_entries f (a ++ b) = let? f' := visit_entries f a in visit_entries f' b.
Proof.
  revert f. induction a as [|[k v] a IH]; intros f; simpl; [done|].
  destruct (deserialize_filter_entry f k v); simpl; auto.
Qed.

Lemma de_vec_map {A} (de : Json → option A) (enc : A → Json) l :
  Forall (λ x, de (enc x) = Some x) l → de_vec de (JArr (enc <$> l)) = Some l.
Proof.
  intros Hl. unfold de_vec. rewrite de_seq_arr. simpl.
  induction Hl as [|x l Hx _ IH]; [done|]. rewrite fmap_cons. simpl. rewrite Hx. simpl. by rewrite IH.
Qed.

Lemma de_strings l : de_vec de_str (strings_json l) = Some l.
Proof. apply de_vec_map, Forall_forall. intros s _. apply de_str_str. Qed.

(** An optional field that reads back to itself. *)
Lemma visit_opt {A} (set : Filter → option A → Filter) key (enc : A → Json) o f :
  (∀ v, o = Some v → deserialize_filter_entry f key (enc v) = Ok (set f (Some v))) →
  set f None = f →
  visit_entries f (opt_entry key enc o) = Ok (set f o).
Proof.
  intros Hs Hn. destruct o as [v|]; simpl; [by rewrite Hs|by rewrite Hn].
Qed.

Lemma validate_values_ok letter vs :
  validate_values letter vs = Ok tt ↔ Forall (λ v, is_lowercase_hex_64 v = true) vs.
Proof.
  induction vs as [|v vs IH]; simpl; [done|]. rewrite Forall_cons, <-IH.
  destruct (is_lowercase_hex_64 v); simpl; naive_solver.
Qed.

Lemma validate_ok letter vs :
  validate_hex_filter_values letter vs = Ok tt ↔
  (needs_hex letter = true → Forall (λ v, is_lowercase_hex_64 v = true) vs).
Proof.
  unfold validate_hex_filter_values. destruct (needs_hex letter); simpl; [|naive_solver].
  rewrite validate_values_ok. naive_solver.
Qed.

Lemma dedup_id (vs : list string) : NoDup vs → dedup_preserving_order vs = vs.
Proof. intros Hnd. unfold dedup_preserving_order. rewrite foldl_push_new_fresh; [done|done|set_solver]. Qed.

Lemma strip_tag_filter_key letter :
  strip_hash (tag_filter_key letter) = Some (SingleLetterTag.to_string letter).
Proof. done. Qed.

Lemma visit_tag f letter vs :
  letter ∉ (Filter.generic_tags f).*1 → NoDup vs →
  (needs_hex letter = true → Forall (λ v, is_lowercase_hex_64 v = true) vs) →
  deserialize_filter_entry f (tag_filter_key letter) (strings_json vs) =
    Ok (Filter.set_generic_tags f (Filter.generic_tags f ++ [(letter, vs)])).
Proof.
  intros Hl Hnd Hhex. unfold deserialize_filter_entry. rewrite strip_tag_filter_key.
  rewrite SingleLetterTag.from_str_to_string. cbn [map_err]. rewrite de_strings. simpl.
  rewrite (proj2 (validate_ok letter vs) Hhex). simpl.
  by rewrite dedup_id, IndexMap.insert_fresh.
Qed.

Lemma visit_tags l f :
  NoDup (Filter.generic_tags f ++ l).*1 →
  (∀ letter vs, (letter, vs) ∈ l →
    NoDup vs ∧ (needs_hex letter = true → Forall (λ v, is_lowercase_hex_64 v = true) vs)) →
  visit_entries f ((λ p, (tag_filter_key p.1, strings_json p.2)) <$> l) =
    Ok (Filter.set_generic_tags f (Filter.generic_tags f ++ l)).
Proof.
  revert f. induction l as [|[letter vs] l IH]; intros f Hnd Hl.
  - cbn [fmap list_fmap visit_entries]. rewrite app_nil_r. by destruct f.
  - cbn [fmap list_fmap visit_entries fst snd]. destruct (Hl letter vs) as [Hv Hh]; [by left|].
    rewrite fmap_app, fmap_cons in Hnd. pose proof Hnd as (_ & Hdis & Hnd2)%NoDup_app.
    rewrite visit_tag; [|intros Hin; apply (Hdis _ Hin); by left|done|done]. cbn [result_bind].
    rewrite IH; simpl.
    + by rewrite <-app_assoc.
    + rewrite !fmap_app. simpl. by rewrite <-app_assoc.
    + intros; apply Hl. by right.
Qed.

Lemma de_event_id_ok i : de_event_id (JStr (EventId.to_hex i)) = Some i.
Proof. unfold de_event_id. rewrite de_str_str. simpl. by rewrite EventId.parse_to_hex. Qed.

Lemma de_public_key_ok p : PublicKey.valid p → de_public_key (JStr (PublicKey.to_hex p)) = Some p.
Proof. intros Hp. unfold de_public_key. rewrite de_str_str. simpl. by rewrite PublicKey.pk_parse_to_hex. Qed.

Lemma visit_serialize f : wire_ok f → visit_map (serialize f) = Ok f.
Proof.
  intros [Ha Hk Hs Hu Hl Hlet Hv]. unfold visit_map, serialize.
  rewrite visit_app.
  rewrite (visit_opt Filter.set_ids); [|intros l _|done].
  2:{ unfold deserialize_filter_entry. simpl. unfold ids_json.
      rewrite de_vec_map; [done|]. apply Forall_forall. intros; apply de_event_id_ok. }
  cbn [result_bind]. rewrite visit_app, (visit_opt Filter.set_authors); [|intros l E|done].
  2:{ unfold deserialize_filter_entry. simpl. unfold authors_json.
      rewrite de_vec_map; [done|]. eapply Forall_impl; [by apply Ha|]. apply de_public_key_ok. }
  cbn [result_bind]. rewrite visit_app, (visit_opt Filter.set_kinds); [|intros l E|done].
  2:{ unfold deserialize_filter_entry. simpl. unfold kinds_json.
      rewrite de_vec_map; [done|]. eapply Forall_impl; [by apply Hk|]. apply de_u16_num. }
  cbn [result_bind]. rewrite visit_app, (visit_opt Filter.set_since); [|intros n E|done].
  2:{ unfold deserialize_filter_entry. simpl. by rewrite de_u64_num by auto. }
  cbn [result_bind]. rewrite visit_app, (visit_opt Filter.set_until); [|intros n E|done].
  2:{ unfold deserialize_filter_entry. simpl. by rewrite de_u64_num by auto. }
  cbn [result_bind]. rewrite visit_app, (visit_opt Filter.set_limit); [|intros n E|done].
  2:{ unfold deserialize_filter_entry. simpl. by rewrite de_u64_num by auto. }
  cbn [result_bind]. rewrite visit_app, (visit_opt Filter.set_search); [|intros n E|done].
  2:{ unfold deserialize_filter_entry. simpl. by rewrite de_str_str by auto. }
  cbn [result_bind]. rewrite visit_tags; [by destruct f|done|done].
Qed.

(** ** Whatever is read is fit for the wire *)

Lemma de_vec_Forall {A} (de : Json → option A) (P : A → Prop) v l :
  (∀ j x, de j = Some x → P x) → de_vec de v = Some l → Forall P l.
Proof.
  intros Hde. unfold de_vec. destruct (de_seq v) as [js|]; simpl; [|done].
  revert l. induction js as [|j js IH]; intros l; simpl.
  - by intros [= <-].
  - destruct (de j) as [x|] eqn:E; simpl; [|done].
    destruct (mapM de js) as [l'|]; simpl; [|done]. intros [= <-].
    constructor; [by eapply Hde|by apply IH].
Qed.

Lemma wire_ok_new : wire_ok Filter.new.
Proof. split; simpl; try done; [apply NoDup_nil_2|set_solver]. Qed.

Lemma insert_elem (m : list (SingleLetterTag * list string)) k v k' v' :
  IndexMap.wf m →
  (k', v') ∈ IndexMap.insert m k v → (k' = k ∧ v' = v) ∨ (k', v') ∈ m.
Proof.
  intros Hwf Hin. apply IndexMap.get_elem in Hin; [|by apply IndexMap.insert_wf].
  rewrite IndexMap.get_insert in Hin. case_decide as E; [|right; by apply IndexMap.get_elem].
  left. split; [done|]. by injection Hin.
Qed.

Lemma wire_ok_entry f key v f' :
  wire_ok f → deserialize_filter_entry f key v = Ok f' → wire_ok f'.
Proof.
  intros [Ha Hk Hs Hu Hl Hlet Hv]. unfold deserialize_filter_entry.
  destruct (strip_hash key) as [ls|].
  - destruct (SingleLetterTag.from_str ls) as [letter|]; simpl; [|done].
    destruct (de_vec de_str v) as [values|]; simpl; [|done].
    destruct (validate_hex_filter_values letter values) as [[]|] eqn:Ev; simpl; [|done].
    intros [= <-]. split; simpl; try done; [by apply IndexMap.insert_wf|].
    intros l vs [[-> ->]|Hin]%insert_elem; [|by apply Hv|done].
    split; [apply NoDup_foldl_push_new, NoDup_nil_2|].
    intros Hh. apply (proj1 (validate_ok letter values) Ev) in Hh.
    rewrite Forall_forall in *. intros x Hx. apply Hh.
    apply elem_of_foldl_push_new in Hx as [?|?]; [set_solver|done].
  - repeat case_decide; simpl; intros E;
      match type of E with context [ok_or ?o _] => destruct o eqn:Eo; simpl in E; [|done] | _ => idtac end;
      injection E as <-; split; simpl; try done.
    + intros ? [= <-]. eapply de_vec_Forall; [|done]. intros j x. unfold de_public_key.
      destruct (de_str j); simpl; [|done]. destruct (PublicKey.parse _) eqn:Ep; simpl; [|done].
      intros [= <-]. by eapply PublicKey.parse_valid.
    + intros ? [= <-]. eapply de_vec_Forall; [|done]. apply de_u16_bound.
    + intros ? [= <-]. by eapply de_u64_bound.
    + intros ? [= <-]. by eapply de_u64_bound.
    + intros ? [= <-]. by eapply de_u64_bound.
Qed.

Lemma wire_ok_visit entries f : visit_map entries = Ok f → wire_ok f.
Proof.
  unfold visit_map. generalize wire_ok_new. generalize Filter.new.
  induction entries as [|[key v] entries IH]; intros f0 H0'; simpl.
  - by intros [= <-].
  - destruct (deserialize_filter_entry f0 key v) as [f1|] eqn:E; simpl; [|done].
    apply IH. by eapply wire_ok_entry.
Qed.
End laws.

(** ** Fingerprints ignore the order *)

#[global] Instance string_le_total : Total string_le.
Proof. intros a b. unfold string_le. apply (total bytes_le). Qed.
#[global] Instance string_le_trans : Transitive string_le.
Proof. intros a b c. unfold string_le. apply (transitivity (R := bytes_le)). Qed.
#[global] Instance string_le_antisym : AntiSymm (=) string_le.
Proof. intros a b ? ?. apply as_bytes_inj. by apply (anti_symm bytes_le). Qed.

Lemma sort_strings_perm l l' : l ≡ₚ l' → sort_strings l = sort_strings l'.
Proof.
  intros Hp. unfold sort_strings. apply (Sorted_unique string_le).
  - apply Sorted_merge_sort; apply _.
  - apply Sorted_merge_sort; apply _.
  - by rewrite !merge_sort_Permutation.
Qed.

(** The same constraints, listed in any order. *)
Record same_constraints (f g : Filter) : Prop := {
  sc_ids : option_Forall2 Permutation (Filter.ids f) (Filter.ids g);
  sc_authors : option_Forall2 Permutation (Filter.authors f) (Filter.authors g);
  sc_kinds : option_Forall2 Permutation (Filter.kinds f) (Filter.kinds g);
  sc_since : Filter.since f = Filter.since g;
  sc_until : Filter.until f = Filter.until g;
  sc_limit : Filter.limit f = Filter.limit g;
  sc_search : Filter.search f = Filter.search g;
  sc_tags : ∃ ts, Filter.generic_tags f ≡ₚ ts ∧
    Forall2 (λ p q, p.1 = q.1 ∧ p.2 ≡ₚ q.2) ts (Filter.generic_tags g);
}.

Section fingerprint.
Context `{FasterHex, SerdeJson}.

Lemma opt_part_perm {A} label (enc : list A → string) o o' :
  (∀ l l', l ≡ₚ l' → enc l = enc l') → option_Forall2 Permutation o o' →
  opt_part label enc o = opt_part label enc o'.
Proof. intros He [l l' Hp|]; simpl; [|done]. by rewrite (He l l'). Qed.

Lemma fingerprint_same f g : same_constraints f g → fingerprint f = fingerprint g.
Proof.
  intros [Hi Ha Hk Hs Hu Hl Hse (ts & Hp & Hts)]. unfold fingerprint, parts.
  rewrite Hs, Hu, Hl, Hse.
  rewrite (opt_part_perm "ids:" _ (Filter.ids f) (Filter.ids g)); [|intros l l' E|done].
  2:{ do 2 f_equal. by apply sort_strings_perm, fmap_Permutation. }
  rewrite (opt_part_perm "authors:" _ (Filter.authors f) (Filter.authors g)); [|intros l l' E|done].
  2:{ do 2 f_equal. by apply sort_strings_perm, fmap_Permutation. }
  rewrite (opt_part_perm "kinds:" _ (Filter.kinds f) (Filter.kinds g)); [|intros l l' E|done].
  2:{ do 2 f_equal. apply (Sorted_unique N.le); [apply Sorted_merge_sort; apply _..|].
      by rewrite !merge_sort_Permutation. }
  do 8 f_equal. etrans; [apply sort_strings_perm, fmap_Permutation, Hp|].
  f_equal. clear Hp. induction Hts as [|[l1 v1] [l2 v2] l l' [E Hv] _ IH]; simpl in *; [done|].
  f_equal; [|done]. unfold tag_part. simpl. subst. by rewrite (sort_strings_perm v1 v2).
Qed.
End fingerprint.
End FilterWire.
