(* ===== verification/Storage.v ===== *)
(** * Storage: shared vocabulary and the abstract store

    What both backends of [crates/nula-storage] share: the outcome types
    ([status.rs]), the NIP-01 result order ([events.rs]), the replaceable /
    addressable conflict rule, and the abstract store ([Module Spec]) both
    backends are proved to refine: a map of live events with the tombstones,
    and no indexes. *)

From Stdlib Require Import Ascii NArith Lia.
From S2P Require Import Prelude Encoding Text Ids Tags Event Filter.

(** ** Outcomes *)

Inductive RejectedReason :=
| Duplicate | Ephemeral | Deleted | Expired | Replaced | Vanished | InvalidDelete.

Inductive SaveEventStatus :=
| Success
| Rejected (r : RejectedReason).

Module DbStatus.
Inductive t := Saved | Deleted | NotExistent.
End DbStatus.
Abbreviation DatabaseEventStatus := DbStatus.t.

#[global] Instance RejectedReason_eq_dec : EqDecision RejectedReason.
Proof. solve_decision. Defined.
#[global] Instance SaveEventStatus_eq_dec : EqDecision SaveEventStatus.
Proof. solve_decision. Defined.
#[global] Instance DbStatus_eq_dec : EqDecision DbStatus.t.
Proof. solve_decision. Defined.

Definition is_success (st : SaveEventStatus) : bool :=
  match st with Success => true | Rejected _ => false end.

(** ** The result order *)

Module EventKey.

Record t := mk { created_at : Timestamp; id : EventId }.

#[global] Instance t_eq_dec : EqDecision t.
Proof. solve_decision. Defined.
#[global] Instance t_countable : Countable t.
Proof.
  exact (inj_countable' (λ k, (created_at k, id k)) (λ p, mk p.1 p.2) ltac:(by intros [])).
Defined.

Definition from_event (e : Event) : t := mk (Event.created_at e) (Event.id e).

(** [Ord] of [{ created_at: Reverse<Timestamp>, id: EventId }]: newest first,
    ties by ascending id. *)
Definition le (a b : t) : Prop :=
  (created_at b < created_at a)%N ∨ (created_at a = created_at b ∧ EventId.le (id a) (id b)).

#[global] Instance le_dec a b : Decision (le a b).
Proof. unfold le. apply _. Defined.
#[global] Instance le_refl : Reflexive le.
Proof. intros a. right. done. Qed.
#[global] Instance le_trans : Transitive le.
Proof.
  intros a b c [?|[E1 ?]] [?|[E2 ?]]; unfold le; [left; lia..|].
  right. split; [congruence|]. by etrans.
Qed.
#[global] Instance le_total : Total le.
Proof.
  intros a b. unfold le. destruct (N.lt_trichotomy (created_at a) (created_at b)) as [?|[?|?]];
    [by right; left| |by left; left].
  destruct (total EventId.le (id a) (id b)); [left|right]; right; auto.
Qed.
#[global] Instance le_antisym : AntiSymm (=) le.
Proof.
  intros [ta ia] [tb ib] [?|[? ?]] [?|[? ?]]; simpl in *; try lia.
  f_equal; [done|]. by apply (anti_symm EventId.le).
Qed.

End EventKey.
Abbreviation EventKey := EventKey.t.

Definition event_le (a b : Event) : Prop := EventKey.le (EventKey.from_event a) (EventKey.from_event b).

#[global] Instance event_le_dec a b : Decision (event_le a b).
Proof. unfold event_le. apply _. Defined.
#[global] Instance event_le_refl : Reflexive event_le.
Proof. intros a. apply EventKey.le_refl. Qed.
#[global] Instance event_le_trans : Transitive event_le.
Proof. intros a b c. unfold event_le. apply EventKey.le_trans. Qed.
#[global] Instance event_le_total : Total event_le.
Proof. intros a b. apply EventKey.le_total. Qed.

Lemma event_le_antisym_id a b : event_le a b → event_le b a → Event.id a = Event.id b.
Proof. intros Hab Hba. pose proof (anti_symm EventKey.le _ _ Hab Hba) as E. by injection E. Qed.

Module Events.

(** [Events::from_unsorted]: keep the first event of each id, then sort. *)
Definition seen_step (st : gset EventId * list Event) (e : Event) : gset EventId * list Event :=
  if decide (Event.id e ∈ st.1) then st
  else ({[Event.id e]} ∪ st.1, st.2 ++ [e]).
Definition from_unsorted (l : list Event) : list Event :=
  merge_sort event_le (foldl seen_step (∅, []) l).2.

(** [Events::from_sorted]. *)
Definition from_sorted (l : list Event) : list Event := l.

Definition first (evs : list Event) : option Event := head evs.

End Events.

(** ** Replaceable and addressable slots *)

(** The map key of an addressable event: [(kind, pubkey, d)]. *)
Abbreviation CoordKey := (N * PublicKey * string)%type.

(** [addressable_coord] of the memory store; a missing [d] tag is the empty
    identifier. *)
Definition addressable_coord (e : Event) : option CoordKey :=
  if negb (Kind.is_addressable (Event.kind e)) then None
  else
    let identifier := default EmptyString (Tags.identifier (Event.tags e)) in
    Some (Event.kind e, Event.pubkey e, identifier).

(** [pick_loser]: the id of the event to drop. *)
Definition pick_loser (incumbent challenger : Event) : EventId :=
  match N.compare (Event.created_at incumbent) (Event.created_at challenger) with
  | Gt => Event.id challenger
  | Lt => Event.id incumbent
  | Eq => if decide (EventId.le (Event.id incumbent) (Event.id challenger))
          then Event.id challenger else Event.id incumbent
  end.

Lemma pick_loser_challenger inc ch :
  pick_loser inc ch = Event.id ch ↔ event_le inc ch ∨ Event.id inc = Event.id ch.
Proof.
  unfold pick_loser, event_le, EventKey.le; simpl.
  destruct (N.compare_spec (Event.created_at inc) (Event.created_at ch)) as [E|E|E].
  - case_decide; naive_solver lia.
  - split; [auto|]. intros [[?|[? ?]]|?]; [lia|lia|done].
  - naive_solver.
Qed.

Lemma pick_loser_incumbent inc ch :
  pick_loser inc ch ≠ Event.id ch → pick_loser inc ch = Event.id inc.
Proof. unfold pick_loser. split_matches; naive_solver. Qed.

(** ** The abstract store *)

#[global] Instance ExpirationError_eq_dec : EqDecision Nip40.ExpirationError.
Proof. solve_decision. Defined.

(** All live events in result order. *)
Definition sorted_events (m : gmap EventId Event) : list Event :=
  merge_sort event_le (map_to_list m).*2.

Definition matches (f : Filter) (e : Event) : Prop :=
  Filter.match_event f e match_options_default = true.

#[global] Instance matches_dec f e : Decision (matches f e).
Proof. unfold matches. apply _. Defined.

(** The answer to a filter: the matching events, newest first, cut at the limit. *)
Definition query_ref (m : gmap EventId Event) (f : Filter) : list Event :=
  take_limit (Filter.limit f)
    (filter (matches f) (sorted_events m)).

Definition rejected_if (b : bool) (r : RejectedReason) (k : SaveEventStatus) : SaveEventStatus :=
  if b then Rejected r else k.

Module Spec.

Record options := mkOptions {
  max_events : option N;
  process_nip09 : bool;
  process_nip62 : bool;
}.

Record t := mk {
  live : gmap EventId Event;
  dead_ids : gset EventId;
  dead_coords : gmap CoordKey Timestamp;
  vanished : gset PublicKey;
}.

Definition empty : t := mk ∅ ∅ ∅ ∅.

(** The slot an event competes for, if its kind is replaceable or addressable. *)
Definition slot (e : Event) : option (N * PublicKey * option string) :=
  if Kind.is_replaceable (Event.kind e) then Some (Event.kind e, Event.pubkey e, None)
  else (λ c, (c.1.1, c.1.2, Some c.2)) <$> addressable_coord e.

(** [e'] holds the slot [e] wants. *)
Definition rival (e e' : Event) : Prop := is_Some (slot e) ∧ slot e' = slot e.

#[global] Instance rival_dec e e' : Decision (rival e e').
Proof. unfold rival. apply _. Defined.

Section spec.
Context `{FasterHex, Secp256k1}.

(** The coordinates of a deletion request its author owns. *)
Definition own_coords (del : Event) (r : Nip09.DeletionRequest) : list CoordKey :=
  (λ c, (Coordinate.kind c, Coordinate.author c, Coordinate.identifier c)) <$>
    filter (λ c, Coordinate.author c = Event.pubkey del) (Nip09.coordinates r).

(** The deletion request removes [e]. *)
Definition targeted (del : Event) (r : Nip09.DeletionRequest) (e : Event) : Prop :=
  Event.pubkey e = Event.pubkey del ∧
  (Event.id e ∈ Nip09.event_ids r ∨
   ((Event.created_at e <= Event.created_at del)%N ∧
    match addressable_coord e with Some c => c ∈ own_coords del r | None => False end)).

#[global] Instance targeted_dec del r e : Decision (targeted del r e).
Proof. unfold targeted. destruct (addressable_coord e); apply _. Defined.

(** [i] is not a live event of somebody else. *)
Definition unprotected (del : Event) (m : gmap EventId Event) (i : EventId) : bool :=
  match m !! i with
  | Some e => bool_decide (Event.pubkey e = Event.pubkey del)
  | None => true
  end.

(** The ids a request tombstones: all it names, but the live ones of others. *)
Definition tombstoned (del : Event) (r : Nip09.DeletionRequest) (m : gmap EventId Event) :
    gset EventId :=
  list_to_set (filter (λ i, unprotected del m i = true) (Nip09.event_ids r)).

Definition stamp (ts : Timestamp) (m : gmap CoordKey Timestamp) (c : CoordKey) :
    gmap CoordKey Timestamp :=
  <[c := N.max ts (default ts (m !! c))]> m.

Definition delete_request (st : t) (del : Event) : t :=
  match Nip09.from_event del with
  | Err _ => st
  | Ok r =>
      mk (filter (λ p, ¬ targeted del r p.2) (live st))
         (tombstoned del r (live st) ∪ dead_ids st)
         (foldl (stamp (Event.created_at del)) (dead_coords st) (own_coords del r))
         (vanished st)
  end.

Definition vanish_request (st : t) (author : PublicKey) : t :=
  mk (filter (λ p, Event.pubkey p.2 ≠ author) (live st)) (dead_ids st) (dead_coords st)
     ({[author]} ∪ vanished st).

Definition evict (max : option N) (m : gmap EventId Event) : gmap EventId Event :=
  match max with
  | None => m
  | Some n => filter (λ p, p.2 ∈ take (N.to_nat n) (sorted_events m)) m
  end.

(** Why an event is refused, in the order of the checks; [Success] if it is not. *)
Definition admission (o : options) (st : t) (e : Event) (now : Timestamp) : SaveEventStatus :=
  rejected_if (process_nip62 o && bool_decide (Event.pubkey e ∈ vanished st)) Vanished (
  rejected_if (Kind.is_ephemeral (Event.kind e)) Ephemeral (
  rejected_if (bool_decide (Nip40.is_expired e now = Ok true)) Expired (
  rejected_if (bool_decide (Event.id e ∈ dead_ids st)) Deleted (
  rejected_if (match addressable_coord e ≫= λ c, dead_coords st !! c with
               | Some t => (Event.created_at e <=? t)%N | None => false end) Deleted (
  rejected_if (bool_decide (is_Some (live st !! Event.id e))) Duplicate (
  rejected_if (bool_decide (map_Exists (λ _ e', rival e e' ∧ event_le e' e) (live st)))
    Replaced Success)))))).

(** What an admitted event does to the store. *)
Definition accept (o : options) (st : t) (e : Event) : t :=
  let st := mk (filter (λ p, ¬ rival e p.2) (live st)) (dead_ids st) (dead_coords st) (vanished st) in
  let st := if process_nip09 o && (Event.kind e =? Kind.EVENT_DELETION)%N
            then delete_request st e else st in
  let st := if process_nip62 o && (Event.kind e =? Kind.REQUEST_TO_VANISH)%N
            then vanish_request st (Event.pubkey e) else st in
  mk (evict (max_events o) (<[Event.id e := e]> (live st)))
     (dead_ids st) (dead_coords st) (vanished st).

Definition save (o : options) (st : t) (e : Event) (now : Timestamp) : SaveEventStatus * t :=
  match admission o st e now with
  | Success => (Success, accept o st e)
  | r => (r, st)
  end.

Definition delete_events (st : t) (evs : list Event) : t :=
  mk (filter (λ p, p.2 ∉ evs) (live st)) (dead_ids st) (dead_coords st) (vanished st).

Definition check_id (st : t) (i : EventId) : DatabaseEventStatus :=
  match live st !! i with
  | Some _ => DbStatus.Saved
  | None => if decide (i ∈ dead_ids st) then DbStatus.Deleted else DbStatus.NotExistent
  end.
End spec.

End Spec.

(** ** Lemmas on [sorted_events] *)

(** Every event is stored under its own id. *)
Definition keyed (m : gmap EventId Event) : Prop := ∀ i e, m !! i = Some e → Event.id e = i.

Lemma elem_of_values (m : gmap EventId Event) e :
  keyed m → e ∈ (map_to_list m).*2 ↔ m !! Event.id e = Some e.
Proof.
  intros Hk. rewrite list_elem_of_fmap. split.
  - intros ([i e'] & -> & Hin%elem_of_map_to_list). simpl. by rewrite (Hk _ _ Hin).
  - intros Hl. exists (Event.id e, e). split; [done|]. by apply elem_of_map_to_list.
Qed.

Lemma NoDup_values (m : gmap EventId Event) : keyed m → NoDup (map_to_list m).*2.
Proof.
  intros Hk. apply NoDup_fmap_2_strong; [|apply NoDup_map_to_list].
  intros [i e] [j e'] Hi%elem_of_map_to_list Hj%elem_of_map_to_list E. simpl in E. subst.
  by rewrite <-(Hk _ _ Hi), <-(Hk _ _ Hj).
Qed.

Lemma elem_of_sorted_events m e :
  keyed m → e ∈ sorted_events m ↔ m !! Event.id e = Some e.
Proof.
  intros Hk. unfold sorted_events. rewrite merge_sort_Permutation. by apply elem_of_values.
Qed.

Lemma NoDup_sorted_events m : keyed m → NoDup (sorted_events m).
Proof. intros Hk. unfold sorted_events. rewrite merge_sort_Permutation. by apply NoDup_values. Qed.

Lemma length_sorted_events m : length (sorted_events m) = size m.
Proof.
  unfold sorted_events. rewrite merge_sort_Permutation, length_fmap.
  by rewrite length_map_to_list.
Qed.

Lemma StronglySorted_sorted_events m : StronglySorted event_le (sorted_events m).
Proof. apply Sorted_StronglySorted; [apply _|]. apply Sorted_merge_sort; apply _. Qed.

(** The sorted list of a set of events is determined by its members. *)
Lemma sorted_list_unique (l1 l2 : list Event) :
  StronglySorted event_le l1 → StronglySorted event_le l2 → NoDup l1 → NoDup l2 →
  (∀ e, e ∈ l1 ↔ e ∈ l2) →
  (∀ e1 e2, e1 ∈ l1 → e2 ∈ l1 → Event.id e1 = Event.id e2 → e1 = e2) → l1 = l2.
Proof.
  intros Hs1 Hs2 Hn1 Hn2 Hel Hinj.
  apply (StronglySorted_unique_strong event_le); [|done|done|by apply NoDup_Permutation].
  intros e1 e2 He1 He2 H12 H21. apply Hinj; [done|by apply Hel|].
  by apply event_le_antisym_id.
Qed.

Lemma query_ref_sorted m f : StronglySorted event_le (query_ref m f).
Proof.
  unfold query_ref. eapply StronglySorted_sublist; [apply take_limit_sublist|].
  eapply StronglySorted_sublist; [apply filter_sublist_of|]. apply StronglySorted_sorted_events.
Qed.
