(* ===== verification/SpecProofs.v ===== *)
(** * The abstract store: invariants and laws

    Theorems about [Storage.Spec], the specification both backends are measured
    against: which states its operations can reach ([Consistent]), that
    tombstones last, and that the events of one replaceable slot converge to
    the same survivor in whatever order they arrive. *)

From Stdlib Require Import Ascii NArith Lia.
From S2P Require Import Prelude Encoding Text Ids Tags Event Filter Storage.

(** ** Live events and slots *)

Definition kind_author (e : Event) : N * PublicKey := (Event.kind e, Event.pubkey e).

Definition live_in (m : gmap EventId Event) (e : Event) : Prop := m !! Event.id e = Some e.

Lemma live_in_insert m e e' :
  live_in (<[Event.id e := e]> m) e' ↔ e' = e ∨ (Event.id e' ≠ Event.id e ∧ live_in m e').
Proof.
  unfold live_in. rewrite lookup_insert. case_decide as E.
  - split; [intros [= ->]; by left|]. intros [->|[? _]]; congruence.
  - split; [intros; right; split; congruence|]. intros [->|[_ ?]]; congruence.
Qed.

Lemma live_in_delete m i e' : live_in (delete i m) e' ↔ Event.id e' ≠ i ∧ live_in m e'.
Proof.
  unfold live_in. rewrite lookup_delete. case_decide; naive_solver.
Qed.

Definition UniqueSlots (m : gmap EventId Event) : Prop :=
  ∀ e1 e2, live_in m e1 → live_in m e2 → is_Some (Spec.slot e1) →
           Spec.slot e1 = Spec.slot e2 → e1 = e2.

Lemma UniqueSlots_sub m m' : UniqueSlots m → m' ⊆ m → UniqueSlots m'.
Proof.
  intros Hu Hsub e1 e2 H1 H2. apply Hu; by eapply lookup_weaken.
Qed.

Lemma slot_replaceable e :
  Kind.is_replaceable (Event.kind e) = true →
  Spec.slot e = Some (Event.kind e, Event.pubkey e, None).
Proof. unfold Spec.slot. by intros ->. Qed.

Lemma addressable_coord_kind e c :
  addressable_coord e = Some c → Kind.is_addressable (Event.kind e) = true ∧ c.1.1 = Event.kind e.
Proof.
  unfold addressable_coord. destruct (Kind.is_addressable _); simpl; [|done]. by intros [= <-].
Qed.

Lemma slot_addressable e c :
  addressable_coord e = Some c → Spec.slot e = Some (c.1.1, c.1.2, Some c.2).
Proof.
  intros Hc. destruct (addressable_coord_kind _ _ Hc) as [Ha _].
  unfold Spec.slot. by rewrite (Kind.addressable_not_replaceable _ Ha), Hc.
Qed.

Lemma slot_Some_coord e k a d :
  Spec.slot e = Some (k, a, Some d) ↔ addressable_coord e = Some (k, a, d).
Proof.
  split.
  - unfold Spec.slot. destruct (Kind.is_replaceable _); [done|].
    destruct (addressable_coord e) as [[[]]|]; simpl; [|done]. by intros [= -> -> ->].
  - intros Hc. by rewrite (slot_addressable _ _ Hc).
Qed.

Lemma slot_None_kind e k a :
  Spec.slot e = Some (k, a, None) ↔
  Kind.is_replaceable (Event.kind e) = true ∧ kind_author e = (k, a).
Proof.
  unfold Spec.slot, kind_author. split.
  - destruct (Kind.is_replaceable _) eqn:E; [by intros [= -> ->]|].
    by destruct (addressable_coord e).
  - by intros [-> [= -> ->]].
Qed.


(** ** Reachable states *)

Section consistent.
Context `{FasterHex, Secp256k1}.

(** One operation on the abstract store. *)
Inductive spec_step (o : Spec.options) : Spec.t → Spec.t → Prop :=
| step_save st e now : spec_step o st (Spec.save o st e now).2
| step_delete st evs : spec_step o st (Spec.delete_events st evs)
| step_wipe st : spec_step o st Spec.empty.

(** The invariant, but for the capacity. *)
Record Coherent (o : Spec.options) (st : Spec.t) : Prop := {
  c_keyed : keyed (Spec.live st);
  c_slots : UniqueSlots (Spec.live st);
  c_ephemeral : ∀ e, live_in (Spec.live st) e → Kind.is_ephemeral (Event.kind e) = false;
  (* a tombstoned id is gone, but for a deletion request that names itself *)
  c_ids : ∀ e, live_in (Spec.live st) e → Event.id e ∈ Spec.dead_ids st →
    Event.kind e = Kind.EVENT_DELETION;
  c_coords : ∀ e c t, live_in (Spec.live st) e → addressable_coord e = Some c →
    Spec.dead_coords st !! c = Some t → (t < Event.created_at e)%N;
  c_vanished : ∀ e, live_in (Spec.live st) e → Event.pubkey e ∈ Spec.vanished st →
    Event.kind e = Kind.REQUEST_TO_VANISH;
  c_no_nip62 : Spec.process_nip62 o = false → Spec.vanished st = ∅;
}.

Definition within_capacity (o : Spec.options) (st : Spec.t) : Prop :=
  ∀ n, Spec.max_events o = Some n → (N.of_nat (size (Spec.live st)) <= n)%N.

Lemma Coherent_empty o : Coherent o Spec.empty.
Proof.
  split; [done| |..|done]; intros e; unfold live_in; simpl; intros; simplify_map_eq.
Qed.

(** Fewer live events, same tombstones. *)
Lemma Coherent_sub o st m :
  Coherent o st → m ⊆ Spec.live st →
  Coherent o (Spec.mk m (Spec.dead_ids st) (Spec.dead_coords st) (Spec.vanished st)).
Proof.
  intros [Hk Hs He Hi Hc Hv Hz] Hsub.
  assert (∀ e, live_in m e → live_in (Spec.live st) e) as Hl
    by (intros e Hl; by eapply lookup_weaken).
  split; simpl; eauto.
  - intros i e E. apply Hk. by eapply lookup_weaken.
  - by eapply UniqueSlots_sub.
Qed.

Lemma stamp_lookup (ts : Timestamp) (m : gmap CoordKey Timestamp) (cs : list CoordKey) (c : CoordKey) :
  foldl (Spec.stamp ts) m cs !! c =
    if decide (c ∈ cs) then Some (N.max ts (default ts (m !! c))) else m !! c.
Proof.
  revert m. induction cs as [|c' cs IH]; intros m; cbn [foldl].
  - rewrite decide_False by set_solver. done.
  - rewrite IH. unfold Spec.stamp. rewrite lookup_insert.
    destruct (decide (c' = c)) as [->|Hc].
    + rewrite (decide_True (P := c ∈ c :: cs)) by set_solver.
      case_decide; simpl; [|done]. f_equal. lia.
    + destruct (decide (c ∈ cs)); [rewrite decide_True by set_solver|rewrite decide_False by set_solver]; done.
Qed.

Lemma live_in_filter (m : gmap EventId Event) (P : EventId * Event → Prop)
    `{!∀ p, Decision (P p)} e :
  live_in (filter P m) e ↔ live_in m e ∧ P (Event.id e, e).
Proof. unfold live_in. apply map_lookup_filter_Some. Qed.

Lemma own_coords_author del r c : c ∈ Spec.own_coords del r → c.1.2 = Event.pubkey del.
Proof.
  unfold Spec.own_coords. rewrite list_elem_of_fmap.
  by intros (c' & -> & [? _]%list_elem_of_filter).
Qed.

Lemma addressable_coord_pubkey e c : addressable_coord e = Some c → c.1.2 = Event.pubkey e.
Proof. unfold addressable_coord. destruct (negb _); [done|]. by intros [= <-]. Qed.

(** An event a request names by id is gone or somebody else's. *)
Lemma tombstoned_targeted del r m e :
  live_in m e → Event.id e ∈ Spec.tombstoned del r m → Spec.targeted del r e.
Proof.
  unfold Spec.tombstoned, Spec.targeted, Spec.unprotected. intros Hl.
  rewrite elem_of_list_to_set, list_elem_of_filter. rewrite Hl. intros [? ?].
  reflect_bools. auto.
Qed.

Lemma Coherent_delete_request o st del :
  Coherent o st → Coherent o (Spec.delete_request st del).
Proof.
  intros HC. unfold Spec.delete_request.
  destruct (Nip09.from_event del) as [r|]; [|done].
  pose proof (Coherent_sub o st _ HC (map_filter_subseteq (λ p, ¬ Spec.targeted del r p.2) _)) as HC'.
  destruct HC' as [Hk Hs He Hi Hc Hv Hz]. simpl in *.
  split; simpl; [done|done|done| | |done|done].
  - intros e Hl Hd. apply live_in_filter in Hl as Hl'. destruct Hl' as [Hm Hn].
    apply elem_of_union in Hd as [Hd|Hd]; [|auto].
    destruct Hn. by eapply tombstoned_targeted.
  - intros e c t Hl Hec. rewrite stamp_lookup.
    apply live_in_filter in Hl as Hl'. destruct Hl' as [Hm Hn]. simpl in Hn.
    case_decide as Hin; [|by apply Hc]. intros [= <-].
    assert (Event.created_at del < Event.created_at e)%N as Hlt.
    { apply N.lt_nge. intros Hle. apply Hn. split.
      - rewrite <-(addressable_coord_pubkey e c) by done. by eapply own_coords_author.
      - right. split; [done|]. by rewrite Hec. }
    destruct (Spec.dead_coords st !! c) as [t|] eqn:Et; simpl; [|lia].
    pose proof (Hc e c t Hl Hec Et). lia.
Qed.

Lemma Coherent_vanish_request o st a :
  Spec.process_nip62 o = true → Coherent o st → Coherent o (Spec.vanish_request st a).
Proof.
  intros Ho HC. pose proof (Coherent_sub o st _ HC
    (map_filter_subseteq (λ p, Event.pubkey p.2 ≠ a) _)) as [Hk Hs He Hi Hc Hv Hz].
  simpl in *. split; simpl; [done..| |].
  - intros e Hl [Ha%elem_of_singleton|Ha]%elem_of_union; [|by apply Hv].
    by apply live_in_filter in Hl as [_ ?].
  - by rewrite Ho.
Qed.

(** *** Eviction *)

Lemma evict_subseteq max m : Spec.evict max m ⊆ m.
Proof. destruct max; simpl; [apply map_filter_subseteq|done]. Qed.

Lemma sorted_evict n m :
  keyed m → sorted_events (Spec.evict (Some n) m) = take (N.to_nat n) (sorted_events m).
Proof.
  intros Hk. set (m' := Spec.evict (Some n) m).
  assert (keyed m') as Hk'.
  { intros i e E. apply Hk. eapply lookup_weaken; [exact E|apply evict_subseteq]. }
  apply sorted_list_unique.
  - apply StronglySorted_sorted_events.
  - eapply StronglySorted_sublist; [apply sublist_take|apply StronglySorted_sorted_events].
  - by apply NoDup_sorted_events.
  - apply (sublist_NoDup _ (sorted_events m)); [by apply NoDup_sorted_events|apply sublist_take].
  - intros e. rewrite elem_of_sorted_events by done. unfold m'. simpl.
    rewrite map_lookup_filter_Some. simpl. split; [by intros [_ ?]|]. intros He. split; [|done].
    apply elem_of_sorted_events; [done|]. eapply sublist_subseteq; [apply sublist_take|done].
  - intros e1 e2 H1 H2 E. apply elem_of_sorted_events in H1, H2; [|done..]. congruence.
Qed.

Lemma evict_size_eq n m :
  keyed m → size (Spec.evict (Some n) m) = Nat.min (N.to_nat n) (size m).
Proof.
  intros Hk. rewrite <-length_sorted_events, sorted_evict, length_take by done.
  by rewrite length_sorted_events.
Qed.

Lemma evict_size n m : keyed m → (N.of_nat (size (Spec.evict (Some n) m)) <= n)%N.
Proof. intros Hk. rewrite evict_size_eq by done. lia. Qed.

Lemma evict_keeps_newest n m x y :
  keyed m → live_in (Spec.evict (Some n) m) x → live_in m y →
  ¬ live_in (Spec.evict (Some n) m) y → event_le x y.
Proof.
  intros Hk Hx Hy Hny.
  assert (∀ e, live_in m e → live_in (Spec.evict (Some n) m) e ↔ e ∈ take (N.to_nat n) (sorted_events m)) as Hev.
  { intros e He. unfold Spec.evict. rewrite live_in_filter. simpl. naive_solver. }
  assert (live_in m x) as Hx0 by (eapply lookup_weaken; [exact Hx|apply evict_subseteq]).
  rewrite Hev in Hx, Hny by done.
  pose proof (StronglySorted_sorted_events m) as Hs. apply elem_of_sorted_events in Hy; [|done].
  rewrite <-(take_drop (N.to_nat n) (sorted_events m)) in Hy, Hs.
  apply elem_of_app in Hy as [?|Hy]; [done|]. by eapply StronglySorted_app_1_elem_of.
Qed.

(** *** Every operation preserves the invariant *)

Lemma Coherent_insert o st e :
  Coherent o st → Spec.live st !! Event.id e = None →
  Kind.is_ephemeral (Event.kind e) = false →
  (∀ e', live_in (Spec.live st) e' → ¬ Spec.rival e e') →
  (Event.id e ∈ Spec.dead_ids st → Event.kind e = Kind.EVENT_DELETION) →
  (∀ c t, addressable_coord e = Some c → Spec.dead_coords st !! c = Some t →
          (t < Event.created_at e)%N) →
  (Event.pubkey e ∈ Spec.vanished st → Event.kind e = Kind.REQUEST_TO_VANISH) →
  Coherent o (Spec.mk (<[Event.id e := e]> (Spec.live st)) (Spec.dead_ids st)
                (Spec.dead_coords st) (Spec.vanished st)).
Proof.
  intros [Hk Hs He Hi Hc Hv Hz] Hnew Hke Hfree Hei Hec Hev.
  split; simpl; try done.
  - intros i e' [[<- ->]|[_ E]]%lookup_insert_Some; [done|by apply Hk].
  - intros e1 e2. rewrite !live_in_insert.
    intros [->|[Hn1 H1]] [->|[Hn2 H2]] Hsl E; [done|..|by apply Hs].
    + exfalso. apply (Hfree e2); [done|]. split; [done|]. congruence.
    + exfalso. apply (Hfree e1); [done|]. split; [|done]. congruence.
  - intros e'. rewrite live_in_insert. intros [->|[_ ?]]; auto.
  - intros e'. rewrite live_in_insert. intros [->|[_ ?]]; auto.
  - intros e' c t. rewrite live_in_insert. intros [->|[_ ?]]; eauto.
  - intros e'. rewrite live_in_insert. intros [->|[_ ?]]; auto.
Qed.

Lemma delete_request_live st del : Spec.live (Spec.delete_request st del) ⊆ Spec.live st.
Proof.
  unfold Spec.delete_request. destruct (Nip09.from_event del); simpl; [|done].
  apply map_filter_subseteq.
Qed.

Lemma delete_request_vanished st del :
  Spec.vanished (Spec.delete_request st del) = Spec.vanished st.
Proof. unfold Spec.delete_request. by destruct (Nip09.from_event del). Qed.

(** The checks an event has passed when it is accepted. *)
Record admitted (o : Spec.options) (st : Spec.t) (e : Event) (now : Timestamp) : Prop := {
  ad_vanished : Spec.process_nip62 o = true → Event.pubkey e ∉ Spec.vanished st;
  ad_ephemeral : Kind.is_ephemeral (Event.kind e) = false;
  ad_expired : Nip40.is_expired e now ≠ Ok true;
  ad_ids : Event.id e ∉ Spec.dead_ids st;
  ad_coords : ∀ c t, addressable_coord e = Some c → Spec.dead_coords st !! c = Some t →
    (t < Event.created_at e)%N;
  ad_new : Spec.live st !! Event.id e = None;
  ad_newest : ∀ i e', Spec.live st !! i = Some e' → Spec.rival e e' → ¬ event_le e' e;
}.

Lemma admission_success o st e now :
  Spec.admission o st e now = Success ↔ admitted o st e now.
Proof.
  unfold Spec.admission, rejected_if. split.
  - intros Ha.
    repeat match type of Ha with (if ?b then _ else _) = _ => destruct b eqn:?; [done|] end.
    reflect_bools. split; [|done..| | |].
    + intros Ho. match goal with Hv : _ && _ = false |- _ => rewrite Ho in Hv; simpl in Hv end. by reflect_bools.
    + intros c t Hc Ht.
      match goal with Hm : match _ with _ => _ end = false |- _ => rewrite Hc in Hm; simpl in Hm; rewrite Ht in Hm end.
      reflect_bools. lia.
    + by apply eq_None_not_Some.
    + intros i e' Hl Hr Hle. match goal with Hm : ¬ map_Exists _ _ |- _ => apply Hm end.
      exists i, e'. auto.
  - intros [Hv He Hx Hi Hc Hn Hr].
    rewrite He, (bool_decide_false _ Hx), (bool_decide_false _ Hi), Hn.
    rewrite (bool_decide_false (is_Some None)) by by intros [].
    rewrite (bool_decide_false (map_Exists _ _)) by (intros (i & e' & ? & ? & ?); eapply Hr; eauto).
    destruct (Spec.process_nip62 o); simpl.
    1: rewrite (bool_decide_false _ (Hv eq_refl)).
    all: destruct (addressable_coord e) as [c|]; simpl; [|done];
      destruct (Spec.dead_coords st !! c) as [t|] eqn:Et; [|done];
      specialize (Hc c t eq_refl Et); by rewrite (proj2 (N.leb_gt _ _) Hc).
Qed.

(** The state an accepted event is inserted into. *)
Definition prepared (o : Spec.options) (st : Spec.t) (e : Event) : Spec.t :=
  let st := Spec.mk (filter (λ p, ¬ Spec.rival e p.2) (Spec.live st)) (Spec.dead_ids st)
              (Spec.dead_coords st) (Spec.vanished st) in
  let st := if Spec.process_nip09 o && (Event.kind e =? Kind.EVENT_DELETION)%N
            then Spec.delete_request st e else st in
  if Spec.process_nip62 o && (Event.kind e =? Kind.REQUEST_TO_VANISH)%N
  then Spec.vanish_request st (Event.pubkey e) else st.

Lemma accept_prepared o st e :
  Spec.accept o st e =
    let st := prepared o st e in
    Spec.mk (Spec.evict (Spec.max_events o) (<[Event.id e := e]> (Spec.live st)))
      (Spec.dead_ids st) (Spec.dead_coords st) (Spec.vanished st).
Proof. done. Qed.

Lemma prepared_live o st e :
  Spec.live (prepared o st e) ⊆ filter (λ p, ¬ Spec.rival e p.2) (Spec.live st).
Proof.
  unfold prepared. destruct (Spec.process_nip62 o && _); simpl.
  1: etrans; [apply map_filter_subseteq|].
  all: destruct (Spec.process_nip09 o && _); [|done]; by etrans; [apply delete_request_live|].
Qed.

Lemma Coherent_prepared o st e : Coherent o st → Coherent o (prepared o st e).
Proof.
  intros HC. unfold prepared.
  pose proof (Coherent_sub o st _ HC (map_filter_subseteq (λ p, ¬ Spec.rival e p.2) _)) as H1.
  destruct (Spec.process_nip62 o && _) eqn:E.
  1: apply andb_prop in E as [E _]; apply Coherent_vanish_request; [done|].
  all: destruct (Spec.process_nip09 o && _); [by apply Coherent_delete_request|done].
Qed.

(** What the request of an event of kind 5 or 62 leaves for the event itself. *)
Lemma prepared_tombstones o st e :
  (Event.id e ∈ Spec.dead_ids (prepared o st e) →
     Event.id e ∈ Spec.dead_ids st ∨ Event.kind e = Kind.EVENT_DELETION) ∧
  (Kind.is_addressable (Event.kind e) = true →
     Spec.dead_coords (prepared o st e) = Spec.dead_coords st) ∧
  (Event.pubkey e ∈ Spec.vanished (prepared o st e) →
     Event.pubkey e ∈ Spec.vanished st ∨ Event.kind e = Kind.REQUEST_TO_VANISH).
Proof.
  unfold prepared. set (st1 := Spec.mk _ _ _ _).
  destruct (N.eqb_spec (Event.kind e) Kind.EVENT_DELETION) as [E5|E5];
    destruct (N.eqb_spec (Event.kind e) Kind.REQUEST_TO_VANISH) as [E62|E62];
    rewrite ?andb_true_r, ?andb_false_r; split_and!; try (by auto); try (by rewrite E5); try (by rewrite E62).
  - intros Hin. left. by destruct (Spec.process_nip09 o); rewrite ?delete_request_vanished in Hin.
  - destruct (Spec.process_nip62 o); simpl; auto.
Qed.

Lemma Coherent_accept o st e now :
  Coherent o st → admitted o st e now →
  Coherent o (Spec.accept o st e) ∧ within_capacity o (Spec.accept o st e).
Proof.
  intros HC Had. rewrite accept_prepared. cbv zeta.
  pose proof (Coherent_prepared o st e HC) as HP.
  pose proof (prepared_live o st e) as Hsub.
  pose proof (prepared_tombstones o st e) as (Hdi & Hdc & Hdv).
  set (st' := prepared o st e) in *.
  assert (Coherent o (Spec.mk (<[Event.id e := e]> (Spec.live st')) (Spec.dead_ids st')
            (Spec.dead_coords st') (Spec.vanished st'))) as HI.
  { apply Coherent_insert; [done|..].
    - eapply lookup_weaken_None; [|exact Hsub]. by rewrite map_lookup_filter, (ad_new _ _ _ _ Had).
    - apply Had.
    - intros e' Hl Hr. eapply lookup_weaken in Hl; [|exact Hsub].
      apply map_lookup_filter_Some in Hl as [_ Hn]. by apply Hn.
    - intros [Hin|?]%Hdi; [|done]. by destruct (ad_ids _ _ _ _ Had).
    - intros c t Hc. rewrite Hdc by (by apply (addressable_coord_kind e c)).
      by apply (ad_coords _ _ _ _ Had).
    - intros [Hin|?]%Hdv; [|done]. destruct (Spec.process_nip62 o) eqn:E.
      + by destruct (ad_vanished _ _ _ _ Had).
      + rewrite (c_no_nip62 _ _ HC E) in Hin. set_solver. }
  split.
  - apply (Coherent_sub o _ _ HI). apply evict_subseteq.
  - intros n Hn. rewrite Hn. apply evict_size, HI.
Qed.

Lemma Coherent_save o st e now :
  Coherent o st → within_capacity o st →
  Coherent o (Spec.save o st e now).2 ∧ within_capacity o (Spec.save o st e now).2.
Proof.
  intros HC Hcap. unfold Spec.save.
  destruct (Spec.admission o st e now) eqn:E; [|done].
  apply admission_success in E. by eapply Coherent_accept.
Qed.

Lemma Coherent_step o st st' :
  spec_step o st st' → Coherent o st → within_capacity o st →
  Coherent o st' ∧ within_capacity o st'.
Proof.
  intros [ | |] HC Hcap.
  - by apply Coherent_save.
  - split; [apply Coherent_sub; [done|apply map_filter_subseteq]|].
    intros n Hn. specialize (Hcap n Hn). simpl in *.
    pose proof (map_subseteq_size _ _ (map_filter_subseteq (λ p, p.2 ∉ evs) (Spec.live st0))). lia.
  - split; [apply Coherent_empty|]. intros n _. simpl. rewrite map_size_empty. lia.
Qed.

Lemma Coherent_reachable o st :
  rtc (spec_step o) Spec.empty st → Coherent o st ∧ within_capacity o st.
Proof.
  apply (rtc_ind_r (R := spec_step o) (λ st, Coherent o st ∧ within_capacity o st) Spec.empty).
  - split; [apply Coherent_empty|]. intros n _. simpl. rewrite map_size_empty. lia.
  - intros x y _ Hstep [HC Hcap]. by eapply Coherent_step.
Qed.
End consistent.

(** ** Tombstones last *)

Section laws.
Context `{FasterHex, Secp256k1}.

(** A write that is not a wipe. *)
Inductive write_step (o : Spec.options) : Spec.t → Spec.t → Prop :=
| write_save st e now : write_step o st (Spec.save o st e now).2
| write_delete st evs : write_step o st (Spec.delete_events st evs).

Lemma prepared_dead_ids o st e : Spec.dead_ids st ⊆ Spec.dead_ids (prepared o st e).
Proof.
  unfold prepared, Spec.delete_request.
  destruct (Spec.process_nip62 o && _), (Spec.process_nip09 o && _); simpl; try done;
    destruct (Nip09.from_event e); simpl; set_solver.
Qed.

Lemma write_step_dead o st st' i :
  write_step o st st' → keyed (Spec.live st) →
  i ∈ Spec.dead_ids st → Spec.live st !! i = None →
  keyed (Spec.live st') ∧ i ∈ Spec.dead_ids st' ∧ Spec.live st' !! i = None.
Proof.
  intros [st0 e now|st0 evs] Hk Hd Hl.
  - unfold Spec.save. destruct (Spec.admission o st0 e now) eqn:E; [|done]. cbn [fst snd].
    apply admission_success in E as Had. rewrite accept_prepared. cbv zeta. simpl.
    assert (Event.id e ≠ i) as Hne by (intros <-; by apply (ad_ids _ _ _ _ Had)).
    assert (Spec.live (prepared o st0 e) ⊆ Spec.live st0) as Hsub
      by (etrans; [apply prepared_live|apply map_filter_subseteq]).
    split_and!.
    + intros j e' Hj. eapply lookup_weaken in Hj; [|apply evict_subseteq].
      apply lookup_insert_Some in Hj as [[<- ->]|[_ Hj]]; [done|].
      apply Hk. by eapply lookup_weaken.
    + by apply prepared_dead_ids.
    + eapply lookup_weaken_None; [|apply evict_subseteq]. rewrite lookup_insert_ne by done.
      by eapply lookup_weaken_None.
  - simpl. assert (filter (λ p, p.2 ∉ evs) (Spec.live st0) ⊆ Spec.live st0) as Hsub
      by apply map_filter_subseteq.
    split_and!; [|done|by eapply lookup_weaken_None].
    intros j e' Hj. apply Hk. by eapply lookup_weaken.
Qed.

Lemma dead_forever o st st' i :
  rtc (write_step o) st st' → keyed (Spec.live st) →
  i ∈ Spec.dead_ids st → Spec.live st !! i = None →
  Spec.check_id st' i = DbStatus.Deleted.
Proof.
  intros Hr. induction Hr as [st|st1 st2 st3 Hs _ IH]; intros Hk Hd Hl.
  - unfold Spec.check_id. by rewrite Hl, decide_True.
  - destruct (write_step_dead o st1 st2 i Hs Hk Hd Hl) as (? & ? & ?). by apply IH.
Qed.
End laws.

(** ** Versions of one slot converge *)

(** The survivor of two versions. *)
Definition better (w : option Event) (e : Event) : option Event :=
  match w with
  | None => Some e
  | Some w => if decide (event_le w e) then Some w else Some e
  end.

Definition winner (l : list Event) : option Event := foldl better None l.

Lemma foldl_better_spec l w m :
  foldl better w l = Some m →
  (w = Some m ∨ m ∈ l) ∧ (∀ x, x ∈ l ∨ w = Some x → event_le m x).
Proof.
  revert w. induction l as [|e l IH]; intros w; simpl.
  - intros ->. split; [by left|]. intros x [?|[= ->]]; [set_solver|done].
  - intros Hm. destruct (IH _ Hm) as [Hin Hle]. unfold better in Hin, Hle.
    destruct w as [w|]; [case_decide as Hd|].
    + split; [set_solver|]. assert (event_le m w) by (apply Hle; by right).
      intros x [[->|?]%elem_of_cons|[= ->]]; [by etrans|apply Hle; by left|done].
    + assert (event_le e w) by (destruct (total event_le w e); done).
      assert (event_le m e) by (apply Hle; by right).
      split; [set_solver|]. intros x [[->|?]%elem_of_cons|[= <-]]; [done|apply Hle; by left|by etrans].
    + split; [set_solver|]. intros x [[->|?]%elem_of_cons|?]; [apply Hle; by right|apply Hle; by left|done].
Qed.

Lemma winner_Some e l : is_Some (winner (e :: l)).
Proof.
  unfold winner. simpl. generalize e. induction l as [|e' l IH]; intros w; simpl; [done|].
  case_decide; apply IH.
Qed.

(** The winner is the first of the versions in result order, so it does not
    depend on the order of arrival. *)
Lemma winner_perm l l' : NoDup (Event.id <$> l) → l ≡ₚ l' → winner l = winner l'.
Proof.
  intros Hnd Hp. destruct l as [|e l].
  { apply Permutation_nil in Hp. by subst. }
  destruct l' as [|e' l']; [by apply Permutation_sym, Permutation_nil_cons in Hp|].
  destruct (winner_Some e l) as [m Hm], (winner_Some e' l') as [m' Hm'].
  rewrite Hm, Hm'. f_equal.
  apply foldl_better_spec in Hm as [[?|Hin] Hle]; [done|].
  apply foldl_better_spec in Hm' as [[?|Hin'] Hle']; [done|].
  rewrite <-Hp in Hin'. assert (m ∈ e' :: l') as Hin2 by by rewrite <-Hp.
  assert (Event.id m = Event.id m') as Hid by (apply event_le_antisym_id; auto).
  apply (NoDup_fmap_inj_elem Event.id (e :: l)); auto.
Qed.

Section converge.
Context `{FasterHex, Secp256k1} (o : Spec.options) (st : Spec.t) (now : Timestamp).

(** [e] is a version of the slot [sl] that the store [st] would take. *)
Record version (sl : N * PublicKey * option string) (e : Event) : Prop := {
  v_slot : Spec.slot e = Some sl;
  v_admitted : admitted o st e now;
}.

(** [st] with one more event. *)
Definition with_event (w : option Event) : Spec.t :=
  Spec.mk (match w with Some e => <[Event.id e := e]> (Spec.live st) | None => Spec.live st end)
    (Spec.dead_ids st) (Spec.dead_coords st) (Spec.vanished st).

Lemma slot_not_request e :
  is_Some (Spec.slot e) → Event.kind e ≠ Kind.EVENT_DELETION ∧ Event.kind e ≠ Kind.REQUEST_TO_VANISH.
Proof.
  unfold Spec.slot, addressable_coord. intros [x Hx]. split; intros E; rewrite E in Hx; discriminate Hx.
Qed.

Lemma accept_version st' e :
  is_Some (Spec.slot e) → Spec.max_events o = None →
  Spec.accept o st' e =
    Spec.mk (<[Event.id e := e]> (filter (λ p, ¬ Spec.rival e p.2) (Spec.live st')))
      (Spec.dead_ids st') (Spec.dead_coords st') (Spec.vanished st').
Proof.
  intros [H5 H62]%slot_not_request Hmax. unfold Spec.accept.
  rewrite (proj2 (N.eqb_neq _ _) H5), (proj2 (N.eqb_neq _ _) H62), !andb_false_r, Hmax. done.
Qed.

Lemma save_version sl w e :
  Spec.max_events o = None →
  (∀ i e', Spec.live st !! i = Some e' → Spec.slot e' ≠ Some sl) →
  (∀ w', w = Some w' → version sl w' ∧ Event.id w' ≠ Event.id e) → version sl e →
  (Spec.save o (with_event w) e now).2 = with_event (better w e).
Proof.
  intros Hmax Hfree Hw [Hs Had].
  assert (∀ i e', Spec.live st !! i = Some e' → ¬ Spec.rival e e') as Hnr.
  { intros i e' E [_ Hr]. apply (Hfree i e' E). congruence. }
  assert (filter (λ p, ¬ Spec.rival e p.2) (Spec.live st) = Spec.live st) as Hid
    by (apply map_filter_id; intros i e' E; by apply (Hnr i)).
  unfold Spec.save. destruct w as [w|]; simpl.
  - destruct (Hw w eq_refl) as [[Hsw Hadw] Hne].
    assert (Spec.rival e w) as Hrw by (split; [by exists sl|congruence]).
    case_decide as Hle.
    + destruct (Spec.admission o (with_event (Some w)) e now) as [|r] eqn:E; [|done].
      apply admission_success in E. destruct (ad_newest _ _ _ _ E (Event.id w) w); [|done..].
      simpl. by rewrite lookup_insert_eq.
    + assert (Spec.admission o (with_event (Some w)) e now = Success) as ->.
      { apply admission_success. destruct Had. split; simpl; try done.
        - by rewrite lookup_insert_ne.
        - intros i e' [[<- <-]|[_ E]]%lookup_insert_Some ?; [done|]. exfalso. by eapply Hnr. }
      cbn [snd]. rewrite accept_version by (by eauto). simpl. unfold with_event. f_equal. f_equal.
      rewrite map_filter_insert_False by (simpl; auto).
      rewrite delete_id; [done|]. apply Hadw.
  - assert (Spec.admission o (with_event None) e now = Success) as ->.
    { apply admission_success. assert (with_event None = st) as -> by (unfold with_event; by destruct st). done. }
    cbn [snd]. rewrite accept_version by (by eauto). simpl. by rewrite Hid.
Qed.

Definition save_all (st' : Spec.t) (l : list Event) : Spec.t :=
  foldl (λ s e, (Spec.save o s e now).2) st' l.

Lemma save_all_versions sl l w :
  Spec.max_events o = None →
  (∀ i e', Spec.live st !! i = Some e' → Spec.slot e' ≠ Some sl) →
  Forall (version sl) l → NoDup (Event.id <$> option_list w ++ l) →
  (∀ w', w = Some w' → version sl w') →
  save_all (with_event w) l = with_event (foldl better w l).
Proof.
  intros Hmax Hfree. revert w. induction l as [|e l IH]; intros w Hl Hnd Hw; [done|].
  inversion Hl as [|? ? He Hl']; subst. unfold save_all in *. simpl.
  rewrite (save_version sl); [|done|done| |done].
  2:{ intros w' ->. split; [by apply Hw|]. simpl in Hnd. intros E.
      apply NoDup_cons in Hnd as [Hn _]. apply Hn. rewrite E. simpl. left. }
  apply IH; [done| |].
  - destruct w as [w|]; simpl in *; [|done].
    apply NoDup_cons in Hnd as [Hn1 Hnd]. apply NoDup_cons in Hnd as [Hn2 Hnd].
    case_decide; simpl; apply NoDup_cons; split; try done. intros Hin. apply Hn1. by right.
  - destruct w as [w|]; simpl; [case_decide|]; intros w' [= <-]; auto.
Qed.
End converge.

(** ** What the backends share *)

(** *** Conflict resolution *)

(** [loser] is what the conflict rule gives for [e] among the events [m]. *)
Definition conflict (m : gmap EventId Event) (e : Event) (loser : option EventId) : Prop :=
  match loser with
  | Some l => ∃ inc, (live_in m inc ∧ Spec.rival e inc) ∧ l = pick_loser inc e
  | None => ∀ inc, ¬ (live_in m inc ∧ Spec.rival e inc)
  end.

Lemma rival_unique m e e1 e2 :
  UniqueSlots m → live_in m e1 → live_in m e2 → Spec.rival e e1 → Spec.rival e e2 → e1 = e2.
Proof. intros Hu H1 H2 [Hs E1] [_ E2]. apply Hu; try done; congruence. Qed.

(** The newcomer loses exactly when a rival precedes it. *)
Lemma conflict_replaced m e loser :
  keyed m → UniqueSlots m → m !! Event.id e = None → conflict m e loser →
  (loser = Some (Event.id e) ↔ map_Exists (λ _ e', Spec.rival e e' ∧ event_le e' e) m).
Proof.
  intros Hk Hu Hnew Hc. split.
  - intros ->. destruct Hc as (inc & [Hl Hr] & Hp).
    symmetry in Hp. apply pick_loser_challenger in Hp.
    exists (Event.id inc), inc. split_and!; [done|done|].
    destruct Hp as [?|Hid]; [done|]. unfold live_in in Hl. by rewrite Hid, Hnew in Hl.
  - intros (i & inc & Hi & Hr & Hle).
    assert (live_in m inc) as Hl by (unfold live_in; by rewrite (Hk _ _ Hi)).
    destruct loser as [l|]; simpl in Hc; [|by destruct (Hc inc)].
    destruct Hc as (inc' & [Hl' Hr'] & ->). f_equal.
    rewrite <-(rival_unique m e inc inc') by done. apply pick_loser_challenger. by left.
Qed.

(** Otherwise dropping the loser empties the slot. *)
Lemma conflict_evict m e loser :
  keyed m → UniqueSlots m → conflict m e loser → loser ≠ Some (Event.id e) →
  match loser with Some l => delete l m | None => m end = filter (λ p, ¬ Spec.rival e p.2) m.
Proof.
  intros Hk Hu Hc Hne. destruct loser as [l|].
  - destruct Hc as (inc & [Hl Hr] & ->).
    rewrite (pick_loser_incumbent inc e) by congruence.
    apply map_eq. intros i. rewrite lookup_delete, map_lookup_filter.
    destruct (m !! i) as [e'|] eqn:E; simpl; [|by case_decide].
    pose proof (Hk _ _ E) as Ei. case_decide as Hd.
    + assert (e' = inc) as -> by (unfold live_in in Hl; congruence).
      rewrite option_guard_False; [done|]. intros Hn. by apply Hn.
    + rewrite option_guard_True; [done|]. intros Hr'. apply Hd.
      rewrite (rival_unique m e inc e'); auto. unfold live_in. by rewrite Ei.
  - symmetry. apply map_filter_id. intros i e' E Hr. apply (Hc e'). split; [|done].
    unfold live_in. by rewrite (Hk _ _ E).
Qed.

(** *** Deletion requests, ids first and coordinates second *)

(** Removing one's own event does not change what is protected. *)
Lemma unprotected_filter del (m : gmap EventId Event) (P : EventId * Event → Prop)
    `{!∀ p, Decision (P p)} i :
  (∀ p, ¬ P p → Event.pubkey p.2 = Event.pubkey del) →
  Spec.unprotected del (filter P m) i = Spec.unprotected del m i.
Proof.
  intros HP. unfold Spec.unprotected. rewrite map_lookup_filter.
  destruct (m !! i) as [e|]; simpl; [|done].
  destruct (decide (P (i, e))) as [Hp|Hp]; [by rewrite option_guard_True|].
  rewrite option_guard_False by done. simpl. symmetry. apply bool_decide_eq_true. apply (HP _ Hp).
Qed.

Definition coord_key (c : Coordinate) : CoordKey :=
  (Coordinate.kind c, Coordinate.author c, Coordinate.identifier c).

(** Events at or before the request, at a coordinate of the list. *)
Definition at_coords (del : Event) (cs : list CoordKey) (e : Event) : Prop :=
  (Event.created_at e <= Event.created_at del)%N ∧
  match addressable_coord e with Some c => c ∈ cs | None => False end.

#[global] Instance at_coords_dec del cs e : Decision (at_coords del cs e).
Proof. unfold at_coords. destruct (addressable_coord e); apply _. Defined.

Lemma at_coords_app del cs1 cs2 e :
  at_coords del (cs1 ++ cs2) e ↔ at_coords del cs1 e ∨ at_coords del cs2 e.
Proof.
  unfold at_coords. destruct (addressable_coord e); [rewrite elem_of_app|]; tauto.
Qed.

Definition own_keys (del : Event) (cs : list Coordinate) : list CoordKey :=
  coord_key <$> filter (λ c, Coordinate.author c = Event.pubkey del) cs.


Section split.
Context `{FasterHex, Secp256k1}.

Lemma targeted_split del r (m : gmap EventId Event) :
  keyed m →
  filter (λ p, ¬ at_coords del (own_keys del (Nip09.coordinates r)) p.2)
    (filter (λ p, ¬ (p.1 ∈ Nip09.event_ids r ∧ Event.pubkey p.2 = Event.pubkey del)) m) =
  filter (λ p, ¬ Spec.targeted del r p.2) m.
Proof.
  intros Hk. rewrite map_filter_filter. apply map_filter_ext. intros i e E. simpl.
  pose proof (Hk _ _ E) as <-. unfold Spec.targeted.
  change (Spec.own_coords del r) with (own_keys del (Nip09.coordinates r)).
  unfold at_coords. destruct (addressable_coord e) as [c|] eqn:Ec; [|tauto].
  assert (c ∈ own_keys del (Nip09.coordinates r) → Event.pubkey e = Event.pubkey del) as Hown.
  { intros Hc. rewrite <-(addressable_coord_pubkey e c) by done. by apply (own_coords_author del r). }
  destruct (decide (Event.pubkey e = Event.pubkey del)); tauto.
Qed.
End split.
