(* ===== verification/Samples.v ===== *)
(** * Concrete inputs

    Keys, events and instances of the external interfaces, for the examples
    and the theorems that exhibit an execution. *)

From Stdlib Require Import Ascii NArith Lia.
From S2P Require Import Prelude Encoding Text Ids Tags Event Filter FilterWire Storage.

(** A curve on which every 32-byte string is a key. *)
Definition sample_secp : Secp256k1 := {| xonly_valid := λ _, true |}.

Definition key (n : N) : PublicKey := PublicKey.mk (bytes32_of_N n).
Definition eid (n : N) : EventId := EventId.mk (bytes32_of_N n).
Definition alice : PublicKey := key 1.
Definition bob : PublicKey := key 2.

Definition ev (n : N) (pk : PublicKey) (ts : Timestamp) (kind : Kind) (tags : list Tag) : Event :=
  Event.mk (eid n) pk ts kind tags EmptyString [].

Definition note1 : Event := ev 10 alice 100 Kind.TEXT_NOTE [].
Definition note2 : Event := ev 11 bob 200 Kind.TEXT_NOTE [].
Definition note3 : Event := ev 12 alice 300 Kind.TEXT_NOTE [].

(** Two versions of a profile and two of an article. *)
Definition profile1 : Event := ev 20 alice 100 Kind.METADATA [].
Definition profile2 : Event := ev 21 alice 150 Kind.METADATA [].
Definition article1 : Event := ev 30 alice 100 30023 [Tag.d "post"].
Definition article2 : Event := ev 31 alice 160 30023 [Tag.d "post"].

(** Alice deletes her first note and names one of Bob's. *)
Definition deletion1 : Event :=
  ev 40 alice 400 Kind.EVENT_DELETION
    [Tag.e (eid 10); Tag.e (eid 11)].
Definition vanish1 : Event := ev 50 alice 500 Kind.REQUEST_TO_VANISH [].

(** ** Instances of the external interfaces *)

(** A JSON printer without escapes, enough for the samples. *)
Fixpoint print_json (v : Json) : string :=
  match v with
  | JNull => "null"
  | JBool b => if b then "true" else "false"
  | JNum n => Dec.to_string n
  | JNumOther text => text
  | JStr s => "'" +:+ s +:+ "'"
  | JArr vs => "[" +:+ String.concat "," (map print_json vs) +:+ "]"
  | JObj es => "{" +:+ String.concat "," (map (λ p, p.1 +:+ ":" +:+ print_json p.2) es) +:+ "}"
  end.

(** A hash that keeps the length of its input, and signatures that append the
    message to the key. *)
#[global] Instance sample_crypto : EventCrypto := {|
  json_to_vec v := as_bytes (print_json v);
  sha256 b := bytes32_of_N (N.of_nat (length b));
  secret_key := N;
  xonly_public_key sk := key sk;
  sign_schnorr sk msg := PublicKey.to_byte_array (key sk) ++ msg;
  verify_schnorr sig msg pk := bool_decide (sig = PublicKey.to_byte_array pk ++ msg);
|}.

Definition sample_key (n : N) : secret_key (EventCrypto := sample_crypto) := n.

#[global] Instance sample_crypto_laws : EventCryptoLaws.
Proof.
  refine {| verify_sign := _ |}. intros sk msg. cbn [verify_schnorr sign_schnorr xonly_public_key sample_crypto].
  apply bool_decide_eq_true. reflexivity.
Qed.

Definition bounded (max : N) (v : Json) : option N :=
  match v with JNum n => if (n <=? max)%N then Some n else None | _ => None end.

#[global] Instance sample_serde : SerdeJson := {|
  de_u16 := bounded Dec.u16_max;
  de_u64 := bounded Dec.u64_max;
  de_str v := match v with JStr s => Some s | _ => None end;
  de_seq v := match v with JArr l => Some l | _ => None end;
  de_map v := match v with JObj l => Some l | _ => None end;
  de_bool v := match v with JBool b => Some b | _ => None end;
  json_to_string := print_json;
|}.

Lemma bounded_num max n : (n <= max)%N → bounded max (JNum n) = Some n.
Proof. intros Hn. simpl. by rewrite (proj2 (N.leb_le _ _) Hn). Qed.

Lemma bounded_bound max v n : bounded max v = Some n → (n <= max)%N.
Proof.
  destruct v; simpl; try done. destruct (N.leb_spec n0 max); [|done]. by intros [= <-].
Qed.

#[global] Instance sample_serde_laws : SerdeJsonLaws.
Proof. split; try reflexivity; intros *; (apply bounded_num || apply bounded_bound). Qed.
