(* ===== verification/CoreTheorems.v ===== *)
(** * Events, tags and filters: theorems

    The properties of the event model ([Ids], [Tags], [Event]) and of filters
    ([Filter], [FilterWire]): round trips of the wire forms, the tag cache, the
    builders and the matcher. *)

From Stdlib Require Import Ascii NArith Lia.
From S2P Require Import Prelude Encoding Text Ids Tags Event Filter FilterWire Storage Samples.

#[local] Existing Instance sample_secp.

(** ** Identifiers and kinds *)

(** Every kind is in exactly one of the classes regular, replaceable,
    addressable, ephemeral and unclassified. *)
Lemma kind_classes_partition k : Kind.class_count k = 1%nat.
Proof.
  unfold Kind.class_count.
  destruct (Kind.is_regular k) eqn:E1, (Kind.is_replaceable k) eqn:E2, (Kind.is_addressable k) eqn:E3,
    (Kind.is_ephemeral k) eqn:E4; unfold Kind.is_unclassified; rewrite ?E1, ?E2, ?E3, ?E4; simpl;
    try reflexivity; exfalso; revert E1 E2 E3 E4; Kind.kind_lia.
Qed.

Section hex_ids.
Context `{FasterHex, !FasterHexLaws}.

(** An event id survives its hex form, and only strings of 64 bytes are
    accepted as event ids. *)
Lemma event_id_round_trip :
  (∀ i, EventId.parse (EventId.to_hex i) = Ok i) ∧
  (∀ s i, EventId.parse s = Ok i → length (as_bytes s) = 64%nat).
Proof.
  split; [apply EventId.parse_to_hex|]. intros s i. unfold EventId.parse.
  destruct (Hex.decode (as_bytes s)) as [b|] eqn:E; simpl; [|done].
  apply hex_decode_length in E. unfold EventId.from_slice.
  destruct (try_into32 b) as [a|] eqn:Ea; [|done]. intros _.
  apply try_into32_Some in Ea. rewrite <-Ea, length_b32 in E. lia.
Qed.

(** The wire form [kind:author:identifier] of an address reads back as the
    address, whatever the identifier contains, colons included. *)
Theorem coordinate_round_trip `{Secp256k1} c :
  (Coordinate.kind c <= Dec.u16_max)%N → PublicKey.valid (Coordinate.author c) →
  Coordinate.from_str (Coordinate.to_wire c) = Ok c.
Proof. apply Coordinate.from_str_to_wire_ok. Qed.
End hex_ids.

Lemma coordinate_round_trip_witness :
  Coordinate.from_str
    (Coordinate.to_wire (Coordinate.mk 30023 alice "a:b:c")) = Ok (Coordinate.mk 30023 alice "a:b:c").
Proof. apply coordinate_round_trip; [apply (bool_decide_unpack _); vm_compute; exact I|reflexivity]. Defined.

(** ** Tag lists *)

(** After any sequence of method calls the index a tag list hands out is the
    one of its current items: [v] is listed under [letter] exactly when some tag
    with that head has [v] as its second element. *)
Theorem tag_index_coherent its ops letter v :
  let ts := foldl Tags.run_op (Tags.from_vec its) ops in
  v ∈ default ∅ ((Tags.indexes ts).1 !! letter) ↔
  ∃ tag, tag ∈ Tags.items ts ∧ Tag.single_letter_tag tag = Some letter ∧ Tag.content tag = Some v.
Proof.
  cbv zeta. rewrite Tags.indexes_coherent; [apply Tags.elem_of_build_indexes|].
  apply Tags.coherent_run, Tags.coherent_from_vec.
Qed.

(** [dedup] keeps, at the position of the first tag of each (head, value)
    key, the first of the longest tags with that key. *)
Theorem dedup_keeps_longest ts : Tags.items (Tags.dedup ts) = Tags.dedup_ref (Tags.items ts).
Proof.
  unfold Tags.dedup. destruct (Tags.items ts) as [|t its] eqn:E; [by rewrite E|].
  simpl. rewrite E. apply Tags.dedup_items_ref.
Qed.

(** [replace_or_push] makes [tag] the first tag of its kind, leaves the tags
    of every other kind as they are, and adds one only if there was none. *)
Lemma replace_or_push_spec ts tag k' :
  let its := Tags.items (Tags.replace_or_push ts (Tag.kind tag) tag) in
  Tags.find_first its (Tag.kind tag) = Some tag ∧
  length (Tags.find_all its (Tag.kind tag)) =
    Nat.max 1 (length (Tags.find_all (Tags.items ts) (Tag.kind tag))) ∧
  (k' ≠ Tag.kind tag → Tags.find_all its k' = Tags.find_all (Tags.items ts) k').
Proof.
  cbv zeta. simpl. split_and!; [by apply Tags.replace_items_found|by apply Tags.replace_items_length|].
  intros Hk. by apply Tags.replace_items_other.
Qed.

(** ** Signing *)

Section crypto.
Context `{FasterHex, EventCrypto}.

(** An event built and signed with a key pair verifies: its id is the hash
    of its canonical serialization and its signature checks under its author;
    the builder fails only without a timestamp and a clock. *)
Theorem signed_event_verifies `{!EventCryptoLaws} clock b keys :
  match EventBuilder.sign_with_keys clock b keys with
  | Ok e => Event.verify e = Ok tt ∧ Event.pubkey e = xonly_public_key keys
  | Err err => err = EventBuilder.Clock ∧ EventBuilder.created_at b = None ∧ clock = None
  end.
Proof.
  destruct (EventBuilder.sign_with_keys clock b keys) as [e|err] eqn:E.
  - split; [by eapply EventBuilder.signed_builder_verifies|]. by apply EventBuilder.sign_Ok in E as (ts & _ & ->).
  - revert E. unfold EventBuilder.sign_with_keys, EventBuilder.build_unsigned.
    destruct (EventBuilder.created_at b) as [ts|]; [|destruct clock as [ts|]]; simpl.
    3: by intros [= <-].
    all: unfold UnsignedEvent.sign_with_keys; simpl; by rewrite bool_decide_true by done.
Qed.

(** Signing an unsigned event succeeds exactly for its author's key pair;
    the event then carries the fields of the unsigned one and verifies, even
    when the cached [id] of the unsigned event was stale. *)
Theorem unsigned_sign_spec `{!EventCryptoLaws} u keys :
  match UnsignedEvent.sign_with_keys u keys with
  | Ok e => xonly_public_key keys = UnsignedEvent.pubkey u ∧ Event.verify e = Ok tt ∧
            (Event.pubkey e, Event.created_at e, Event.kind e, Event.tags e, Event.content e) =
            (UnsignedEvent.pubkey u, UnsignedEvent.created_at u, UnsignedEvent.kind u,
             UnsignedEvent.tags u, UnsignedEvent.content u)
  | Err UnsignedEvent.SignerMismatch => xonly_public_key keys ≠ UnsignedEvent.pubkey u
  end.
Proof.
  destruct (UnsignedEvent.sign_with_keys u keys) as [e|[]] eqn:E.
  - destruct (UnsignedEvent.sign_verifies u keys e E) as [Hv ->]. revert E.
    unfold UnsignedEvent.sign_with_keys. by case_bool_decide.
  - revert E. unfold UnsignedEvent.sign_with_keys. by case_bool_decide.
Qed.

(** An event built with [expiration ts] expires at [ts]: it is expired from
    the deadline on and not before. *)
Lemma expiration_deadline clock b ts keys e now :
  (ts <= Dec.u64_max)%N →
  EventBuilder.sign_with_keys clock (Nip40.expiration b ts) keys = Ok e →
  Nip40.is_expired e now = Ok (ts <=? now)%N.
Proof.
  intros Hts He. apply EventBuilder.sign_Ok in He as (t0 & _ & ->). cbv zeta.
  unfold Nip40.is_expired, Nip40.parse_expiration. simpl Event.tags.
  rewrite Tags.replace_items_found by apply Tag.kind_with_from_wire.
  unfold Tag.get. simpl. unfold Dec.parse_u64. by rewrite Dec.parse_to_string.
Qed.
End crypto.

(** ** Deletion requests *)

Section deletion.
Context `{FasterHex, !FasterHexLaws, Secp256k1, EventCrypto}.

Definition request_ok (r : Nip09.DeletionRequest) : Prop :=
  Forall (λ c, (Coordinate.kind c <= Dec.u16_max)%N ∧ PublicKey.valid (Coordinate.author c))
    (Nip09.coordinates r) ∧
  Forall (λ k, (k <= Dec.u16_max)%N) (Nip09.kinds r).

Lemma step_e r i :
  Nip09.from_event_step r (Tag.e i) =
    Ok (Nip09.mkRequest (Nip09.event_ids r ++ [i]) (Nip09.coordinates r) (Nip09.kinds r) (Nip09.reason r)).
Proof.
  unfold Nip09.from_event_step. rewrite decide_True by apply Tag.kind_with_lower. simpl.
  by rewrite EventId.parse_to_hex.
Qed.

Lemma step_a r c :
  (Coordinate.kind c <= Dec.u16_max)%N → PublicKey.valid (Coordinate.author c) →
  Nip09.from_event_step r (tag_a c) =
    Ok (Nip09.mkRequest (Nip09.event_ids r) (Nip09.coordinates r ++ [c]) (Nip09.kinds r) (Nip09.reason r)).
Proof.
  intros Hk Hv. unfold Nip09.from_event_step.
  assert (Tag.kind (tag_a c) = Tag.lower Alphabet.A) as -> by apply Tag.kind_with_lower.
  rewrite decide_False by done. rewrite decide_True by done. simpl.
  by rewrite Coordinate.from_str_to_wire_ok.
Qed.

Lemma step_k r k :
  (k <= Dec.u16_max)%N →
  Nip09.from_event_step r (Tag.k k) =
    Ok (Nip09.mkRequest (Nip09.event_ids r) (Nip09.coordinates r) (Nip09.kinds r ++ [k]) (Nip09.reason r)).
Proof.
  intros Hk. unfold Nip09.from_event_step.
  assert (Tag.kind (Tag.k k) = Tag.lower Alphabet.K) as -> by apply Tag.kind_with_lower.
  rewrite !decide_False by done. rewrite decide_True by done. simpl.
  unfold Dec.parse_u16. by rewrite Dec.parse_to_string.
Qed.

Lemma loop_ids r ids tags :
  Nip09.from_event_loop r ((Tag.e <$> ids) ++ tags) =
  Nip09.from_event_loop (Nip09.mkRequest (Nip09.event_ids r ++ ids) (Nip09.coordinates r)
                           (Nip09.kinds r) (Nip09.reason r)) tags.
Proof.
  revert r. induction ids as [|i ids IH]; intros r.
  - rewrite app_nil_r. by destruct r.
  - rewrite fmap_cons. cbn [app Nip09.from_event_loop]. rewrite step_e. cbn [result_bind].
    rewrite IH. simpl. by rewrite <-app_assoc.
Qed.

Lemma loop_coords r cs tags :
  Forall (λ c, (Coordinate.kind c <= Dec.u16_max)%N ∧ PublicKey.valid (Coordinate.author c)) cs →
  Nip09.from_event_loop r ((tag_a <$> cs) ++ tags) =
  Nip09.from_event_loop (Nip09.mkRequest (Nip09.event_ids r) (Nip09.coordinates r ++ cs)
                           (Nip09.kinds r) (Nip09.reason r)) tags.
Proof.
  intros Hcs. revert r. induction Hcs as [|c cs [Hk Hv] _ IH]; intros r.
  - rewrite app_nil_r. by destruct r.
  - rewrite fmap_cons. cbn [app Nip09.from_event_loop]. rewrite step_a by done. cbn [result_bind].
    rewrite IH. simpl. by rewrite <-app_assoc.
Qed.

Lemma loop_kinds r ks :
  Forall (λ k, (k <= Dec.u16_max)%N) ks →
  Nip09.from_event_loop r (Tag.k <$> ks) =
  Ok (Nip09.mkRequest (Nip09.event_ids r) (Nip09.coordinates r) (Nip09.kinds r ++ ks) (Nip09.reason r)).
Proof.
  intros Hks. revert r. induction Hks as [|k ks Hk _ IH]; intros r.
  - rewrite app_nil_r. by destruct r.
  - rewrite fmap_cons. cbn [Nip09.from_event_loop]. rewrite step_k by done. cbn [result_bind].
    rewrite IH. simpl. by rewrite <-app_assoc.
Qed.

(** A deletion request read back from the event built for it is the
    request: ids, coordinates, kind hints and reason, in order. *)
Theorem deletion_round_trip clock r keys e :
  request_ok r →
  EventBuilder.sign_with_keys clock (Nip09.deletion r) keys = Ok e → Nip09.from_event e = Ok r.
Proof.
  intros [Hc Hk] He. apply EventBuilder.sign_Ok in He as (t0 & _ & ->). cbv zeta.
  unfold Nip09.from_event. simpl. unfold Nip09.to_tags.
  rewrite loop_ids, loop_coords, loop_kinds by done. simpl. by destruct r.
Qed.
End deletion.

(** ** Filters *)

(** The matcher says yes exactly when the event satisfies every field the
    filter sets (a set field is a disjunction over its values, an unset one no
    constraint) and the optional future and expiration guards hold. *)
Theorem match_event_spec {E} `{MatchableEvent E} f (e : E) opts :
  Filter.match_event f e opts = true ↔ Filter.satisfies f e ∧ Filter.guards e opts.
Proof. apply Filter.match_event_iff. Qed.

Section wire.
Context `{FasterHex, !FasterHexLaws, Secp256k1, SerdeJson, !SerdeJsonLaws}.

(** The filters that survive their JSON form are exactly those with valid
    values in range and no repeated tag key or value, and whatever entries a
    filter was read from, duplicate keys, unknown fields and repeated values
    included, it is one of them. *)
Theorem filter_round_trip f :
  (FilterWire.visit_map (FilterWire.serialize f) = Ok f ↔ FilterWire.wire_ok f) ∧
  (∀ entries, FilterWire.visit_map entries = Ok f → FilterWire.wire_ok f).
Proof.
  split; [split; [apply FilterWire.wire_ok_visit|apply FilterWire.visit_serialize]|].
  intros entries. apply FilterWire.wire_ok_visit.
Qed.

(** Filters that list the same constraints in any order have the same
    fingerprint. *)
Theorem fingerprint_order_free f g :
  FilterWire.same_constraints f g → FilterWire.fingerprint f = FilterWire.fingerprint g.
Proof. apply FilterWire.fingerprint_same. Qed.
End wire.

(** ** Instances of the theorems *)

Definition hello : EventBuilder := EventBuilder.set_created_at (EventBuilder.text_note "hello") 100.

Lemma signed_event_verifies_witness :
  ∃ e, EventBuilder.sign_with_keys None hello (sample_key 7) = Ok e ∧ Event.verify e = Ok tt.
Proof.
  pose proof (signed_event_verifies None hello (sample_key 7)) as Hv.
  destruct (EventBuilder.sign_with_keys None hello (sample_key 7)) as [e|err] eqn:E.
  - exists e. split; [reflexivity|apply Hv].
  - destruct Hv as (_ & Hc & _). discriminate Hc.
Defined.

Lemma unsigned_sign_spec_witness :
  let u := UnsignedEvent.mk (eid 99) (xonly_public_key (sample_key 3)) 100 Kind.TEXT_NOTE [] EmptyString in
  (∃ e, UnsignedEvent.sign_with_keys u (sample_key 3) = Ok e ∧ Event.verify e = Ok tt ∧ Event.id e ≠ eid 99) ∧
  UnsignedEvent.sign_with_keys u (sample_key 2) = Err UnsignedEvent.SignerMismatch.
Proof.
  intros u. pose proof (unsigned_sign_spec u (sample_key 3)) as Hv.
  split; [|vm_compute; reflexivity].
  destruct (UnsignedEvent.sign_with_keys u (sample_key 3)) as [e|err] eqn:E.
  - exists e. split; [reflexivity|]. split; [apply Hv|]. apply (f_equal result_ok) in E. vm_compute in E.
    injection E as <-. apply (bool_decide_unpack _). vm_compute. exact I.
  - vm_compute in E. discriminate E.
Defined.

Definition sample_request : Nip09.DeletionRequest :=
  Nip09.mkRequest [eid 10] [Coordinate.mk 30023 alice "post"] [1%N] "spam".

Lemma deletion_round_trip_witness :
  match EventBuilder.sign_with_keys (Some 5%N) (Nip09.deletion sample_request) (sample_key 1) with
  | Ok e => Nip09.from_event e = Ok sample_request
  | Err _ => False
  end.
Proof.
  destruct (EventBuilder.sign_with_keys (Some 5%N) (Nip09.deletion sample_request) (sample_key 1))
    as [e|err] eqn:E.
  - apply (deletion_round_trip (Some 5%N) sample_request (sample_key 1) e); [|exact E].
    split; repeat constructor; apply (bool_decide_unpack _); vm_compute; exact I.
  - discriminate E.
Defined.

Definition sample_filter : Filter :=
  Filter.with_limit
    (Filter.hashtag (Filter.event (Filter.add_kinds (Filter.add_author Filter.new alice) [1; 6]%N) (eid 10))
       "nostr") 20.

Lemma filter_round_trip_witness :
  FilterWire.visit_map (FilterWire.serialize sample_filter) = Ok sample_filter.
Proof.
  apply (proj1 (filter_round_trip sample_filter)). split.
  - intros l [= <-]. repeat constructor.
  - intros l [= <-]. repeat constructor; apply (bool_decide_unpack _); vm_compute; exact I.
  - intros n E. discriminate E.
  - intros n E. discriminate E.
  - intros n [= <-]. apply (bool_decide_unpack _); vm_compute; exact I.
  - apply (bool_decide_unpack _). vm_compute. exact I.
  - intros letter vs Hin. apply elem_of_cons in Hin as [[= -> ->]|Hin].
    + split; [apply NoDup_singleton|]. intros _. repeat constructor.
    + apply list_elem_of_singleton in Hin as [= -> ->]. split; [apply NoDup_singleton|].
      intros E. discriminate E.
Defined.

Lemma fingerprint_order_free_witness :
  FilterWire.fingerprint (Filter.add_kinds Filter.new [6; 1]%N) =
  FilterWire.fingerprint (Filter.add_kinds Filter.new [1; 6]%N).
Proof.
  apply fingerprint_order_free. split; try reflexivity; try constructor.
  - apply perm_swap.
  - exists []. split; [reflexivity|constructor].
Defined.
