(* ===== verification/RedbKeys.v ===== *)
(** * The redb backend: index keys and the stored payload

    [crates/nula-storage/src/redb/keys.rs] and [redb/codec.rs].  Keys are byte
    strings compared lexicographically; the theorems of this file say that the
    order is the intended one and that a prefix scan visits exactly the keys of
    the prefix.  [postcard] is a parameter ([Class Postcard]). *)

From Stdlib Require Import Ascii NArith Lia.
From S2P Require Import Prelude Encoding Text Ids Tags Event Filter.

(** ** [keys.rs] *)

Module Keys.

Definition ID_LEN : nat := 32.
Definition PUBKEY_LEN : nat := 32.
Definition TS_LEN : nat := 8.
Definition KIND_LEN : nat := 2.

Definition ts_be (ts : Timestamp) : list byte := BigEndian.to_be_bytes TS_LEN ts.
Definition kind_be (kind : Kind) : list byte := BigEndian.to_be_bytes KIND_LEN kind.

Definition by_created_at (ts : Timestamp) (id : EventId) : list byte :=
  ts_be ts ++ EventId.to_byte_array id.

Definition by_author_ts (pubkey : PublicKey) (ts : Timestamp) (id : EventId) : list byte :=
  PublicKey.to_byte_array pubkey ++ ts_be ts ++ EventId.to_byte_array id.

Definition by_kind_author_ts (kind : Kind) (pubkey : PublicKey) (ts : Timestamp) (id : EventId) :
    list byte :=
  kind_be kind ++ PublicKey.to_byte_array pubkey ++ ts_be ts ++ EventId.to_byte_array id.

Definition by_coordinate (kind : Kind) (pubkey : PublicKey) (identifier : string) : list byte :=
  kind_be kind ++ PublicKey.to_byte_array pubkey ++ as_bytes identifier.

Definition kind_author_prefix (kind : Kind) (pubkey : PublicKey) : list byte :=
  kind_be kind ++ PublicKey.to_byte_array pubkey.

Definition author_prefix (pubkey : PublicKey) : list byte := PublicKey.to_byte_array pubkey.

(** The loop of [upper_bound] over [out.iter_mut().rev()]. *)
Fixpoint bump (rev_out : list byte) : option (list byte) :=
  match rev_out with
  | [] => None
  | b :: rest =>
      if decide (b = xff) then (x00 ::.) <$> bump rest
      else Some (byte_of_N (Byte.to_N b + 1) :: rest)
  end.

Definition upper_bound (prefix : list byte) : option (list byte) := reverse <$> bump (reverse prefix).

(** *** Big-endian values of whole strings *)

Abbreviation value := BigEndian.from_be_bytes.

Lemma bytes_cmp_value a b : length a = length b → bytes_cmp a b = N.compare (value a) (value b).
Proof.
  intros E. rewrite <-(BigEndian.to_from_be_bytes a), <-(BigEndian.to_from_be_bytes b) at 1. rewrite <-E.
  apply BigEndian.bytes_cmp_be; [apply BigEndian.value_bound|rewrite E; apply BigEndian.value_bound].
Qed.

Lemma value_inj a b : length a = length b → value a = value b → a = b.
Proof.
  intros El Ev. apply bytes_cmp_eq. rewrite bytes_cmp_value by done. rewrite Ev. apply N.compare_refl.
Qed.

(** *** Prefix scans *)

Lemma bump_spec l u :
  bump l = Some u → length u = length l ∧ value (reverse u) = (value (reverse l) + 1)%N.
Proof.
  revert u. induction l as [|b l IH]; intros u; simpl; [done|].
  case_decide as Eb.
  - destruct (bump l) as [u'|]; simpl; [|done]. intros [= <-]. destruct (IH u' eq_refl) as [Hl Hv].
    rewrite !reverse_cons, !BigEndian.value_snoc, Hv, Eb. split; [simpl; by rewrite Hl|]. change (Byte.to_N xff) with 255%N.
    change (Byte.to_N x00) with 0%N. lia.
  - intros [= <-]. rewrite !reverse_cons, !BigEndian.value_snoc, to_N_byte_of_N. split; [done|].
    assert (Byte.to_N b ≠ 255%N).
    { intros E. apply Eb. apply byte_to_N_inj. by rewrite E. }
    pose proof (byte_to_N_lt b). rewrite N.mod_small by lia. lia.
Qed.

Lemma bump_None l : bump l = None → (value (reverse l) + 1 = 256 ^ N.of_nat (length l))%N.
Proof.
  induction l as [|b l IH]; simpl; [done|]. case_decide as Eb; [|done].
  destruct (bump l); [done|]. intros _. rewrite reverse_cons, BigEndian.value_snoc, Eb. specialize (IH eq_refl).
  change (Byte.to_N xff) with 255%N. pose proof (BigEndian.pow256_S (length l)) as Hp.
  simpl N.of_nat in Hp. lia.
Qed.

Lemma upper_bound_Some p u :
  upper_bound p = Some u → length u = length p ∧ value u = (value p + 1)%N.
Proof.
  unfold upper_bound. destruct (bump (reverse p)) as [r|] eqn:E; simpl; [|done]. intros [= <-].
  apply bump_spec in E as [Hl Hv]. rewrite reverse_involutive in Hv.
  by rewrite length_reverse, Hl, length_reverse.
Qed.

Lemma upper_bound_None p : upper_bound p = None → (value p + 1 = 256 ^ N.of_nat (length p))%N.
Proof.
  unfold upper_bound. destruct (bump (reverse p)) eqn:E; [done|]. intros _.
  apply bump_None in E. by rewrite reverse_involutive, length_reverse in E.
Qed.

(** The keys a scan of [prefix] visits. *)
Definition in_scan (prefix key : list byte) : Prop :=
  bytes_le prefix key ∧
  match upper_bound prefix with Some hi => bytes_lt key hi | None => True end.

Lemma bytes_cmp_take a k k' :
  length a = length k → bytes_cmp a (k ++ k') = match bytes_cmp a k with Eq => bytes_cmp [] k' | c => c end.
Proof. intros E. rewrite <-(app_nil_r a) at 1. by apply bytes_cmp_app. Qed.

(** A scan visits exactly the extensions of the prefix, among the keys that are
    at least as long as it. *)
Lemma in_scan_prefix p k :
  (length p ≤ length k)%nat → in_scan p k ↔ ∃ k', k = p ++ k'.
Proof.
  intros Hlen. rewrite <-(take_drop (length p) k).
  assert (length (take (length p) k) = length p) as Hk1 by (rewrite length_take; lia).
  revert Hk1. generalize (take (length p) k) (drop (length p) k). intros k1 k2 Hk1.
  assert (bytes_le p (k1 ++ k2) ↔ (value p <= value k1)%N) as Hle.
  { unfold bytes_le. rewrite bytes_cmp_take, bytes_cmp_value by done.
    destruct (N.compare_spec (value p) (value k1)) as [E|E|E].
    - split; [lia|]. intros _. by destruct k2.
    - split; [lia|done].
    - split; [done|lia]. }
  assert (∀ u, length u = length p → bytes_lt (k1 ++ k2) u ↔ (value k1 < value u)%N) as Hlt.
  { intros u Hu. unfold bytes_lt. rewrite bytes_cmp_antisym.
    rewrite bytes_cmp_take, bytes_cmp_value by lia.
    destruct (N.compare_spec (value u) (value k1)) as [E|E|E]; simpl.
    - split; [by destruct k2|lia].
    - split; [done|lia].
    - split; [lia|done]. }
  assert ((∃ k', k1 ++ k2 = p ++ k') ↔ value k1 = value p) as ->.
  { split.
    - intros [k' E]. by apply app_inj_1 in E as [-> _].
    - intros E. exists k2. f_equal. by apply value_inj. }
  unfold in_scan. rewrite Hle. destruct (upper_bound p) as [u|] eqn:Eu.
  - apply upper_bound_Some in Eu as [Hu Hv]. rewrite (Hlt u Hu), Hv. lia.
  - apply upper_bound_None in Eu. pose proof (BigEndian.value_bound k1) as Hb. rewrite Hk1 in Hb. lia.
Qed.

(** *** Key order and injectivity *)

Lemma length_ts_be ts : length (ts_be ts) = 8%nat.
Proof. apply BigEndian.length_to_be_bytes. Qed.
Lemma length_kind_be k : length (kind_be k) = 2%nat.
Proof. apply BigEndian.length_to_be_bytes. Qed.

Lemma ts_be_value ts : (ts <= Dec.u64_max)%N → value (ts_be ts) = ts.
Proof. intros Hts. apply BigEndian.from_to_be_bytes. unfold Dec.u64_max, TS_LEN in *. simpl. lia. Qed.

Lemma ts_be_inj a b : (a <= Dec.u64_max)%N → (b <= Dec.u64_max)%N → ts_be a = ts_be b → a = b.
Proof. intros Ha Hb E. by rewrite <-(ts_be_value a), <-(ts_be_value b), E. Qed.

Lemma kind_be_inj a b : (a <= Dec.u16_max)%N → (b <= Dec.u16_max)%N → kind_be a = kind_be b → a = b.
Proof.
  intros Ha Hb. unfold kind_be, Dec.u16_max, KIND_LEN in *.
  apply BigEndian.to_be_bytes_inj; simpl; lia.
Qed.

Lemma bytes_cmp_ts_id ts i ts' i' :
  (ts <= Dec.u64_max)%N → (ts' <= Dec.u64_max)%N →
  bytes_cmp (ts_be ts ++ EventId.to_byte_array i) (ts_be ts' ++ EventId.to_byte_array i') =
    match N.compare ts ts' with
    | Eq => bytes_cmp (EventId.to_byte_array i) (EventId.to_byte_array i')
    | c => c
    end.
Proof.
  intros Ha Hb. rewrite bytes_cmp_app by by rewrite !length_ts_be.
  by rewrite bytes_cmp_value, !ts_be_value by (rewrite ?length_ts_be; done).
Qed.

Lemma by_coordinate_inj k p s k' p' s' :
  (k <= Dec.u16_max)%N → (k' <= Dec.u16_max)%N →
  by_coordinate k p s = by_coordinate k' p' s' → (k, p, s) = (k', p', s').
Proof.
  intros Hk Hk' E. unfold by_coordinate in E.
  apply app_inj_1 in E as [E1 E2]; [|by rewrite !length_kind_be].
  apply app_inj_1 in E2 as [E2 E3]; [|by rewrite !PublicKey.pk_length_to_byte_array].
  apply kind_be_inj in E1; [|done..]. apply PublicKey.pk_to_byte_array_inj in E2.
  apply as_bytes_inj in E3. by subst.
Qed.

Lemma by_created_at_inj ts i ts' i' :
  (ts <= Dec.u64_max)%N → (ts' <= Dec.u64_max)%N →
  by_created_at ts i = by_created_at ts' i' → ts = ts' ∧ i = i'.
Proof.
  intros Hk Hk' E. unfold by_created_at in E.
  apply app_inj_1 in E as [E1 E2]; [|by rewrite !length_ts_be].
  apply ts_be_inj in E1; [|done..]. by apply EventId.to_byte_array_inj in E2.
Qed.

End Keys.

(** ** The redb backend: the stored payload

    [crates/nula-storage/src/redb/codec.rs]: a version byte followed by the
    [postcard] encoding of the event, decoded in full ([decode]), for its
    timestamp only ([decode_created_at]) or for the fields a filter looks at
    ([decode_match_view]).  The main result is that matching a filter against
    the projection agrees with matching it against the event. *)

(** The four instances of [postcard::to_allocvec], [postcard::from_bytes] and
    [postcard::take_from_bytes] the codec uses. *)
Class Postcard := {
  pc_to_allocvec : Event → option (list byte);
  pc_from_bytes : list byte → option Event;
  pc_take_head : list byte → option (string * string * Timestamp);
  pc_take_view : list byte → option (string * string * Timestamp * Kind * list (list string));
}.

(** The events the process can hold: a key on the curve, integers in range. *)
Definition stored_ok `{Secp256k1} (e : Event) : Prop :=
  PublicKey.valid (Event.pubkey e) ∧ Event.wf e.

(** [postcard] reads back what it wrote, and reads the leading fields of a
    struct as a tuple; ids and keys are written as hex strings. *)
Class PostcardLaws `{FasterHex, Secp256k1, Postcard} : Prop := {
  pc_total : ∀ e, stored_ok e → is_Some (pc_to_allocvec e);
  pc_round : ∀ e b, stored_ok e → pc_to_allocvec e = Some b → pc_from_bytes b = Some e;
  pc_head : ∀ e b, stored_ok e → pc_to_allocvec e = Some b →
    pc_take_head b =
      Some (EventId.to_hex (Event.id e), PublicKey.to_hex (Event.pubkey e), Event.created_at e);
  pc_view : ∀ e b, stored_ok e → pc_to_allocvec e = Some b →
    pc_take_view b =
      Some (EventId.to_hex (Event.id e), PublicKey.to_hex (Event.pubkey e), Event.created_at e,
            Event.kind e, Tag.values <$> Event.tags e);
}.
Arguments PostcardLaws : clear implicits.
Arguments PostcardLaws {_ _ _}.

Module Codec.

Definition STORED_EVENT_VERSION : byte := x01.

Inductive Error :=
| Encode
| Decode
| UnsupportedCodecVersion (v : byte)
| EmptyPayload
| CorruptRecord (what : string).

(** The borrowed projection. *)
Record EventView := mkView {
  view_id : bytes32;
  view_pubkey : bytes32;
  view_created_at : Timestamp;
  view_kind : Kind;
  view_tags : list (list string);
}.

(** [impl MatchableEvent for EventView]. *)
#[global] Instance EventView_matchable : MatchableEvent EventView := {|
  matchable_id v := EventId.from_byte_array (view_id v);
  matchable_pubkey_bytes v := b32_list (view_pubkey v);
  matchable_kind := view_kind;
  matchable_created_at := view_created_at;
  matchable_has_tag v letter values :=
    existsb (λ tag,
      bool_decide ((head tag ≫= λ h, result_ok (SingleLetterTag.from_str h)) = Some letter) &&
      match tag !! 1%nat with
      | Some content => existsb (λ value, String.eqb value content) values
      | None => false
      end) (view_tags v);
  matchable_expiration v :=
    tag ← snd <$> list_find (λ tag, head tag = Some Nip40.EXPIRATION_TAG) (view_tags v);
    content ← tag !! 1%nat;
    Dec.parse_u64 content;
|}.

Section codec.
Context `{FasterHex, Secp256k1, Postcard}.

Definition encode (event : Event) : result (list byte) Error :=
  let? body := ok_or (pc_to_allocvec event) Encode in
  Ok (STORED_EVENT_VERSION :: body).

Definition decode (bytes : list byte) : result Event Error :=
  match bytes with
  | [] => Err EmptyPayload
  | version :: rest =>
      if decide (version = STORED_EVENT_VERSION) then ok_or (pc_from_bytes rest) Decode
      else Err (UnsupportedCodecVersion version)
  end.

Definition decode_created_at (bytes : list byte) : result Timestamp Error :=
  match bytes with
  | [] => Err EmptyPayload
  | version :: rest =>
      if decide (version = STORED_EVENT_VERSION) then
        let? p := ok_or (pc_take_head rest) Decode in Ok p.2
      else Err (UnsupportedCodecVersion version)
  end.

(** [hex::decode_to_slice] into a 32-byte array. *)
Definition decode_hex32 (s : string) (what : string) : result bytes32 Error :=
  let? out := map_err (λ _, CorruptRecord what) (Hex.decode_to_slice (as_bytes s) 32) in
  ok_or (try_into32 out) (CorruptRecord what).

Definition decode_match_view (bytes : list byte) : result EventView Error :=
  match bytes with
  | [] => Err EmptyPayload
  | version :: rest =>
      if decide (version = STORED_EVENT_VERSION) then
        let? p := ok_or (pc_take_view rest) Decode in
        let '(id_hex, pubkey_hex, created_at, kind, tags) := p in
        let? id := decode_hex32 id_hex "event id is not hex" in
        let? pubkey := decode_hex32 pubkey_hex "pubkey is not hex" in
        Ok (mkView id pubkey created_at kind tags)
      else Err (UnsupportedCodecVersion version)
  end.
End codec.

(** The projection of an event. *)
Definition view_of (e : Event) : EventView :=
  mkView (EventId.inner (Event.id e)) (PublicKey.serialize (Event.pubkey e)) (Event.created_at e)
    (Event.kind e) (Tag.values <$> Event.tags e).

Section laws.
Context `{FasterHex, !FasterHexLaws, Secp256k1, Postcard, !PostcardLaws}.

Lemma encode_ok e : stored_ok e → ∃ b, encode e = Ok (STORED_EVENT_VERSION :: b) ∧ pc_to_allocvec e = Some b.
Proof. intros He. unfold encode. destruct (pc_total e He) as [b Hb]. rewrite Hb. simpl. eauto. Qed.

Lemma decode_encode e b : stored_ok e → encode e = Ok b → decode b = Ok e.
Proof.
  intros He. destruct (encode_ok e He) as (b' & -> & Hb). intros [= <-].
  unfold decode. rewrite decide_True by done. by rewrite (pc_round e b').
Qed.

Lemma decode_created_at_encode e b :
  stored_ok e → encode e = Ok b → decode_created_at b = Ok (Event.created_at e).
Proof.
  intros He. destruct (encode_ok e He) as (b' & -> & Hb). intros [= <-].
  unfold decode_created_at. rewrite decide_True by done. by rewrite (pc_head e b').
Qed.

Lemma decode_hex32_ok (a : bytes32) what : decode_hex32 (Hex.encode (b32_list a)) what = Ok a.
Proof.
  unfold decode_hex32. pose proof (hex_decode_to_slice_encode (b32_list a)) as E.
  rewrite length_b32 in E. rewrite E. simpl. by rewrite try_into32_list.
Qed.

Lemma decode_match_view_encode e b :
  stored_ok e → encode e = Ok b → decode_match_view b = Ok (view_of e).
Proof.
  intros He. destruct (encode_ok e He) as (b' & -> & Hb). intros [= <-].
  unfold decode_match_view. rewrite decide_True by done. rewrite (pc_view e b') by done. simpl.
  unfold EventId.to_hex, PublicKey.to_hex, EventId.to_byte_array, PublicKey.to_byte_array.
  by rewrite !decode_hex32_ok.
Qed.
End laws.

(** *** The projection matches like the event *)

Lemma view_has_tag e letter values :
  Forall Tag.wf (Event.tags e) →
  matchable_has_tag (view_of e) letter values = matchable_has_tag e letter values.
Proof.
  intros Hwf. apply eq_true_iff_eq. rewrite Filter.Event_has_tag.
  cbn [matchable_has_tag EventView_matchable view_of view_tags]. rewrite existsb_exists.
  unfold Filter.carries_tag. rewrite Forall_forall in Hwf. split.
  - intros (vs & Hin & Hb). apply list_elem_of_In, list_elem_of_fmap in Hin as (tag & -> & Hin).
    apply andb_prop in Hb as [Hl Hc]. apply bool_decide_eq_true in Hl.
    destruct (Tag.values tag !! 1%nat) as [content|] eqn:E; [|done].
    apply existsb_exists in Hc as (v & Hv & ->%String.eqb_eq). apply list_elem_of_In in Hv.
    exists tag, content. split_and!; [done| |done|done].
    unfold Tag.single_letter_tag, Tag.name. destruct (head (Tag.values tag)); [done|done].
  - intros (tag & v & Hin & Hl & Hc & Hv). exists (Tag.values tag).
    rewrite <-list_elem_of_In. split; [by apply list_elem_of_fmap_2|].
    apply andb_true_intro. split.
    + apply bool_decide_eq_true. unfold Tag.single_letter_tag, Tag.name in Hl.
      specialize (Hwf _ Hin). unfold Tag.wf in Hwf. by destruct (Tag.values tag).
    + unfold Tag.content, Tag.get in Hc. rewrite Hc. apply existsb_exists. exists v.
      rewrite <-list_elem_of_In. split; [done|]. by apply String.eqb_eq.
Qed.

(** The head of a tag is the word [expiration] exactly when its kind is. *)
Lemma kind_expiration tag :
  Tag.wf tag →
  Tag.kind tag = TagKind.from_wire Nip40.EXPIRATION_TAG ↔ head (Tag.values tag) = Some Nip40.EXPIRATION_TAG.
Proof.
  intros Hwf. unfold Tag.kind, Tag.name, Tag.wf in *. destruct (Tag.values tag) as [|h vs]; [done|]. simpl.
  split; [|by intros [= ->]]. intros E. f_equal. by rewrite <-(TagKind.as_str_from_wire h), E.
Qed.

Lemma find_expiration tags :
  Forall Tag.wf tags →
  (snd <$> list_find (λ t, head t = Some Nip40.EXPIRATION_TAG) (Tag.values <$> tags)) =
  Tag.values <$> Tags.find_first tags (TagKind.from_wire Nip40.EXPIRATION_TAG).
Proof.
  intros Hwf. unfold Tags.find_first. induction Hwf as [|t tags Ht _ IH]; [done|].
  rewrite fmap_cons. simpl. pose proof (kind_expiration t Ht) as Hk.
  destruct (decide (Tag.kind t = TagKind.from_wire Nip40.EXPIRATION_TAG)) as [E|E];
    [by rewrite decide_True by by apply Hk|rewrite decide_False by (by rewrite <-Hk)].
  destruct (list_find _ (Tag.values <$> tags)) as [[? ?]|];
    destruct (list_find (λ tag, Tag.kind tag = _) tags) as [[? ?]|]; done.
Qed.

Lemma view_expiration e :
  Forall Tag.wf (Event.tags e) → matchable_expiration (view_of e) = matchable_expiration e.
Proof.
  intros Hwf. cbn [matchable_expiration EventView_matchable view_of view_tags Event_matchable].
  rewrite find_expiration by done. unfold Nip40.parse_expiration.
  destruct (Tags.find_first _ _) as [tag|]; [|done]. simpl. unfold Tag.get.
  destruct (Tag.values tag !! 1%nat); [|done]. simpl. by destruct (Dec.parse_u64 _).
Qed.

Lemma match_view e f opts :
  Event.wf e → Filter.match_event f (view_of e) opts = Filter.match_event f e opts.
Proof.
  intros (_ & _ & Hwf). apply Filter.match_event_ext; [by destruct e as [[]]|done..| |].
  - intros letter vs. by apply view_has_tag.
  - by apply view_expiration.
Qed.

End Codec.
