(* ===== verification/Redb.v ===== *)
(** * The redb backend: the store

    [crates/nula-storage/src/redb/store.rs] and [redb/database.rs]: seven byte
    tables, written inside a transaction and read by range scans.

    The engine is a parameter: [Class KvTable] is the part of the [redb] table
    API the code calls, [Class KvTableLaws] its documented behaviour (a sorted
    map from byte strings).  Engine I/O failures are not modelled: they end the
    operation with the transaction dropped.  A write transaction is a state
    transformer on [WriteTables]; dropping it keeps the old tables. *)

From Stdlib Require Import Ascii NArith Lia.
From S2P Require Import Prelude Encoding Text Ids Tags Event Filter Storage RedbKeys.

(** ** The table API *)

Class KvTable (T : Type → Type) := {
  kv_new : ∀ V, T V;
  kv_get : ∀ V, T V → list byte → option V;
  kv_insert : ∀ V, T V → list byte → V → T V;
  kv_remove : ∀ V, T V → list byte → T V;
  kv_range : ∀ V, T V → list byte → option (list byte) → list (list byte * V);
  kv_iter : ∀ V, T V → list (list byte * V);
  kv_retain : ∀ V, T V → (list byte → V → bool) → T V;
}.
Arguments kv_new {_ _ _}.
Arguments kv_get {_ _ _} _ _.
Arguments kv_insert {_ _ _} _ _ _.
Arguments kv_remove {_ _ _} _ _.
Arguments kv_range {_ _ _} _ _ _.
Arguments kv_iter {_ _ _} _.
Arguments kv_retain {_ _ _} _ _.

(** A table is a finite map; ranges and full scans list it in key order. *)
Class KvTableLaws (T : Type → Type) `{KvTable T} := {
  kv_map : ∀ V, T V → gmap (list byte) V;
  kv_map_new : ∀ V, kv_map V kv_new = ∅;
  kv_map_get : ∀ V (t : T V) k, kv_get t k = kv_map V t !! k;
  kv_map_insert : ∀ V (t : T V) k v, kv_map V (kv_insert t k v) = <[k := v]> (kv_map V t);
  kv_map_remove : ∀ V (t : T V) k, kv_map V (kv_remove t k) = delete k (kv_map V t);
  kv_map_retain : ∀ V (t : T V) p,
    kv_map V (kv_retain t p) = filter (λ kv, p kv.1 kv.2 = true) (kv_map V t);
  kv_range_elem : ∀ V (t : T V) lo hi k v,
    (k, v) ∈ kv_range t lo hi ↔
    kv_map V t !! k = Some v ∧ bytes_le lo k ∧ match hi with Some h => bytes_lt k h | None => True end;
  kv_range_sorted : ∀ V (t : T V) lo hi,
    StronglySorted (λ a b, bytes_lt a.1 b.1) (kv_range t lo hi);
  kv_iter_elem : ∀ V (t : T V) k v, (k, v) ∈ kv_iter t ↔ kv_map V t !! k = Some v;
  kv_iter_sorted : ∀ V (t : T V), StronglySorted (λ a b, bytes_lt a.1 b.1) (kv_iter t);
}.
Arguments kv_map {_ _ _ _} _.

Record RedbDatabaseOptions := mkRedbOptions { process_nip09 : bool; process_nip62 : bool }.
Definition redb_options_new : RedbDatabaseOptions := mkRedbOptions true true.

(** ** Tables *)

Module Redb.

Section store.
Context {T : Type → Type} `{KvTable T}.

Record WriteTables := mkTables {
  events : T (list byte);
  by_created_at : T unit;
  by_author_ts : T unit;
  by_kind_author_ts : T unit;
  by_coordinate : T (list byte);
  deleted_ids : T N;
  deleted_coordinates : T N;
}.

(** A fresh database ([Store::open] creates every table). *)
Definition open : WriteTables :=
  mkTables kv_new kv_new kv_new kv_new kv_new kv_new kv_new.

Definition set_deleted_ids (t : WriteTables) d : WriteTables :=
  mkTables (events t) (by_created_at t) (by_author_ts t) (by_kind_author_ts t) (by_coordinate t)
    d (deleted_coordinates t).
Definition set_deleted_coordinates (t : WriteTables) d : WriteTables :=
  mkTables (events t) (by_created_at t) (by_author_ts t) (by_kind_author_ts t) (by_coordinate t)
    (deleted_ids t) d.

Definition addressable_identifier (event : Event) : option string :=
  if negb (Kind.is_addressable (Event.kind event)) then None
  else Some (default EmptyString (Tags.identifier (Event.tags event))).

Definition pick_loser_id (incumbent_ts : Timestamp) (incumbent_id : EventId) (challenger : Event) :
    EventId :=
  match N.compare incumbent_ts (Event.created_at challenger) with
  | Gt => Event.id challenger
  | Lt => incumbent_id
  | Eq => if decide (EventId.le incumbent_id (Event.id challenger))
          then Event.id challenger else incumbent_id
  end.

(** [value.len() == ID_LEN] then [copy_from_slice] into an array. *)
Definition to_id (value : list byte) : option EventId := EventId.mk <$> try_into32 value.

(** The id at the end of an index key of the expected length. *)
Definition id_of_key (prefix_len : nat) (key : list byte) : option EventId :=
  if negb (length key =? prefix_len + Keys.ID_LEN)%nat then None
  else to_id (drop prefix_len key).

(** *** Reading *)

Definition check_id (t : WriteTables) (id : EventId) : DatabaseEventStatus :=
  let key := EventId.to_byte_array id in
  match kv_get (events t) key with
  | Some _ => DbStatus.Saved
  | None =>
      match kv_get (deleted_ids t) key with
      | Some _ => DbStatus.Deleted
      | None => DbStatus.NotExistent
      end
  end.

Definition scan_ids (prefix_len : nat) (entries : list (list byte * unit)) : list EventId :=
  reverse (omap (λ kv, id_of_key prefix_len kv.1) entries).

Definition scan_author (table : T unit) (pubkey : PublicKey) : list EventId :=
  let prefix := Keys.author_prefix pubkey in
  scan_ids (Keys.PUBKEY_LEN + Keys.TS_LEN) (kv_range table prefix (Keys.upper_bound prefix)).

Definition scan_kind_author (table : T unit) (kind : Kind) (pubkey : PublicKey) : list EventId :=
  let prefix := Keys.kind_author_prefix kind pubkey in
  scan_ids (Keys.KIND_LEN + Keys.PUBKEY_LEN + Keys.TS_LEN)
    (kv_range table prefix (Keys.upper_bound prefix)).

(** [v.len() == 1].then(|| v[0]). *)
Definition only {A} (o : option (list A)) : option A :=
  match o with Some [x] => Some x | _ => None end.

Definition candidate_ids (t : WriteTables) (f : Filter) : list EventId :=
  match Filter.ids f with
  | Some (i :: rest) => i :: rest
  | _ =>
      match only (Filter.authors f), only (Filter.kinds f) with
      | Some author, Some kind => scan_kind_author (by_kind_author_ts t) kind author
      | Some author, None => scan_author (by_author_ts t) author
      | None, _ => scan_ids Keys.TS_LEN (kv_iter (by_created_at t))
      end
  end.

Context `{FasterHex, Secp256k1, Postcard}.

Definition event_by_id (t : WriteTables) (id : EventId) : result (option Event) Codec.Error :=
  match kv_get (events t) (EventId.to_byte_array id) with
  | None => Ok None
  | Some bytes => let? e := Codec.decode bytes in Ok (Some e)
  end.

(** The loop of [query]: [out] and the limit are checked before each candidate. *)
Fixpoint query_loop (t : WriteTables) (f : Filter) (limit : option N) (out : list Event)
    (ids : list EventId) : result (list Event) Codec.Error :=
  match ids with
  | [] => Ok out
  | id :: ids' =>
      if match limit with Some n => (n <=? N.of_nat (length out))%N | None => false end
      then Ok out
      else
        match kv_get (events t) (EventId.to_byte_array id) with
        | None => query_loop t f limit out ids'
        | Some bytes =>
            let? view := Codec.decode_match_view bytes in
            if Filter.match_event f view match_options_default then
              let? e := Codec.decode bytes in
              query_loop t f limit (out ++ [e]) ids'
            else query_loop t f limit out ids'
        end
  end.
Definition query (t : WriteTables) (f : Filter) : result (list Event) Codec.Error :=
  query_loop t f (Filter.limit f) [] (candidate_ids t f).

Fixpoint count_loop (t : WriteTables) (f : Filter) (limit : option N) (count : N)
    (ids : list EventId) : result N Codec.Error :=
  match ids with
  | [] => Ok count
  | id :: ids' =>
      if match limit with Some n => (n <=? count)%N | None => false end then Ok count
      else
        match kv_get (events t) (EventId.to_byte_array id) with
        | None => count_loop t f limit count ids'
        | Some bytes =>
            let? view := Codec.decode_match_view bytes in
            count_loop t f limit
              (if Filter.match_event f view match_options_default then count + 1 else count)%N ids'
        end
  end.
Definition count (t : WriteTables) (f : Filter) : result N Codec.Error :=
  count_loop t f (Filter.limit f) 0 (candidate_ids t f).

Fixpoint negentropy_loop (t : WriteTables) (f : Filter) (limit : option N)
    (items : list (EventId * Timestamp)) (ids : list EventId) :
    result (list (EventId * Timestamp)) Codec.Error :=
  match ids with
  | [] => Ok items
  | id :: ids' =>
      if match limit with Some n => (n <=? N.of_nat (length items))%N | None => false end
      then Ok items
      else
        match kv_get (events t) (EventId.to_byte_array id) with
        | None => negentropy_loop t f limit items ids'
        | Some bytes =>
            let? view := Codec.decode_match_view bytes in
            if Filter.match_event f view match_options_default then
              negentropy_loop t f limit
                (items ++ [(matchable_id view, matchable_created_at view)]) ids'
            else negentropy_loop t f limit items ids'
        end
  end.
Definition negentropy_items (t : WriteTables) (f : Filter) :
    result (list (EventId * Timestamp)) Codec.Error :=
  negentropy_loop t f (Filter.limit f) [] (candidate_ids t f).

(** *** Writing *)

Definition insert_event_inner (t : WriteTables) (event : Event) : result WriteTables Codec.Error :=
  let id_bytes := EventId.to_byte_array (Event.id event) in
  let? encoded := Codec.encode event in
  let ts_id_key := Keys.by_created_at (Event.created_at event) (Event.id event) in
  let author_key := Keys.by_author_ts (Event.pubkey event) (Event.created_at event) (Event.id event) in
  let ka_key := Keys.by_kind_author_ts (Event.kind event) (Event.pubkey event)
                  (Event.created_at event) (Event.id event) in
  let bc := match addressable_identifier event with
            | Some identifier =>
                kv_insert (by_coordinate t)
                  (Keys.by_coordinate (Event.kind event) (Event.pubkey event) identifier) id_bytes
            | None => by_coordinate t
            end in
  Ok (mkTables (kv_insert (events t) id_bytes encoded) (kv_insert (by_created_at t) ts_id_key tt)
        (kv_insert (by_author_ts t) author_key tt) (kv_insert (by_kind_author_ts t) ka_key tt)
        bc (deleted_ids t) (deleted_coordinates t)).

Definition remove_event_inner (t : WriteTables) (id : EventId) : result WriteTables Codec.Error :=
  let id_bytes := EventId.to_byte_array id in
  match kv_get (events t) id_bytes with
  | None => Ok t
  | Some bytes =>
      let? event := Codec.decode bytes in
      let bc := match addressable_identifier event with
                | Some identifier =>
                    let coord_key :=
                      Keys.by_coordinate (Event.kind event) (Event.pubkey event) identifier in
                    let still_ours := bool_decide (kv_get (by_coordinate t) coord_key = Some id_bytes) in
                    if still_ours then kv_remove (by_coordinate t) coord_key else by_coordinate t
                | None => by_coordinate t
                end in
      Ok (mkTables (kv_remove (events t) id_bytes)
            (kv_remove (by_created_at t)
               (Keys.by_created_at (Event.created_at event) (Event.id event)))
            (kv_remove (by_author_ts t)
               (Keys.by_author_ts (Event.pubkey event) (Event.created_at event) (Event.id event)))
            (kv_remove (by_kind_author_ts t)
               (Keys.by_kind_author_ts (Event.kind event) (Event.pubkey event)
                  (Event.created_at event) (Event.id event)))
            bc (deleted_ids t) (deleted_coordinates t))
  end.

(** The timestamp and id of a [by_kind_author_ts] key. *)
Definition ts_id_of_key (prefix_len : nat) (key : list byte) : option (Timestamp * EventId) :=
  if negb (length key =? prefix_len + Keys.TS_LEN + Keys.ID_LEN)%nat then None
  else
    let ts := BigEndian.from_be_bytes (take Keys.TS_LEN (drop prefix_len key)) in
    id ← to_id (drop (prefix_len + Keys.TS_LEN) key);
    Some (ts, id).

(** The loop that keeps the newest entry, the first one on equal timestamps. *)
Definition newest_step (newest : option (Timestamp * EventId)) (entry : Timestamp * EventId) :
    option (Timestamp * EventId) :=
  match newest with
  | None => Some entry
  | Some (cur_ts, _) => if (cur_ts <? entry.1)%N then Some entry else newest
  end.

Definition resolve_replaceable (t : WriteTables) (event : Event) : option EventId :=
  let prefix := Keys.kind_author_prefix (Event.kind event) (Event.pubkey event) in
  let entries := kv_range (by_kind_author_ts t) prefix (Keys.upper_bound prefix) in
  let newest := foldl newest_step None
    (omap (λ kv, ts_id_of_key (Keys.KIND_LEN + Keys.PUBKEY_LEN) kv.1) entries) in
  match newest with
  | None => None
  | Some (cur_ts, cur_id) => Some (pick_loser_id cur_ts cur_id event)
  end.

Definition resolve_addressable (t : WriteTables) (event : Event) :
    result (option EventId) Codec.Error :=
  match addressable_identifier event with
  | None => Ok None
  | Some identifier =>
      match kv_get (by_coordinate t)
              (Keys.by_coordinate (Event.kind event) (Event.pubkey event) identifier) ≫= to_id with
      | None => Ok None
      | Some existing_id =>
          match kv_get (events t) (EventId.to_byte_array existing_id) with
          | None => Ok None
          | Some bytes =>
              let? existing_created_at := Codec.decode_created_at bytes in
              Ok (Some (pick_loser_id existing_created_at existing_id event))
          end
      end
  end.

(** [for .. in .. { .. ? }]. *)
Fixpoint for_each {A} (body : WriteTables → A → result WriteTables Codec.Error) (t : WriteTables)
    (l : list A) : result WriteTables Codec.Error :=
  match l with
  | [] => Ok t
  | x :: l' => let? t' := body t x in for_each body t' l'
  end.

(** The first loop of [apply_deletion]: what to remove and what to tombstone. *)
Fixpoint collect_ids (t : WriteTables) (event : Event) (to_remove to_tombstone : gset EventId)
    (ids : list EventId) : result (gset EventId * gset EventId) Codec.Error :=
  match ids with
  | [] => Ok (to_remove, to_tombstone)
  | id :: ids' =>
      match kv_get (events t) (EventId.to_byte_array id) with
      | None => collect_ids t event to_remove ({[id]} ∪ to_tombstone) ids'
      | Some bytes =>
          let? target := Codec.decode bytes in
          if decide (Event.pubkey target = Event.pubkey event)
          then collect_ids t event ({[id]} ∪ to_remove) ({[id]} ∪ to_tombstone) ids'
          else collect_ids t event to_remove to_tombstone ids'
      end
  end.

(** The body of the coordinate loop of [apply_deletion]. *)
Definition delete_coord (event : Event) (t : WriteTables) (coord : Coordinate) :
    result WriteTables Codec.Error :=
  if negb (bool_decide (Coordinate.author coord = Event.pubkey event)) then Ok t
  else
    let coord_key :=
      Keys.by_coordinate (Coordinate.kind coord) (Coordinate.author coord) (Coordinate.identifier coord) in
    let? t' :=
      match kv_get (by_coordinate t) coord_key ≫= to_id with
      | None => Ok t
      | Some id =>
          match kv_get (events t) (EventId.to_byte_array id) with
          | None => Ok t
          | Some bytes =>
              let? ts := Codec.decode_created_at bytes in
              if (ts <=? Event.created_at event)%N then remove_event_inner t id else Ok t
          end
      end in
    let bump := match kv_get (deleted_coordinates t') coord_key with
                | None => true
                | Some p => (p <? Event.created_at event)%N
                end in
    Ok (if bump then set_deleted_coordinates t'
                       (kv_insert (deleted_coordinates t') coord_key (Event.created_at event))
        else t').

Definition apply_deletion (t : WriteTables) (event : Event) : result WriteTables Codec.Error :=
  match Nip09.from_event event with
  | Err _ => Ok t
  | Ok request =>
      let? sets := collect_ids t event ∅ ∅ (Nip09.event_ids request) in
      let? t := for_each remove_event_inner t (elements sets.1) in
      let t := foldl (λ t id,
        set_deleted_ids t (kv_insert (deleted_ids t) (EventId.to_byte_array id) (Event.created_at event)))
        t (elements sets.2) in
      for_each (delete_coord event) t (Nip09.coordinates request)
  end.

Definition save_with (o : RedbDatabaseOptions) (t : WriteTables) (event : Event) (now : Timestamp) :
    result (SaveEventStatus * WriteTables) Codec.Error :=
  let id_bytes := EventId.to_byte_array (Event.id event) in
  if Kind.is_ephemeral (Event.kind event) then Ok (Rejected Ephemeral, t)
  else if bool_decide (Nip40.is_expired event now = Ok true) then Ok (Rejected Expired, t)
  else if bool_decide (is_Some (kv_get (deleted_ids t) id_bytes)) then Ok (Rejected Deleted, t)
  else if match addressable_identifier event ≫= λ identifier,
                  kv_get (deleted_coordinates t)
                    (Keys.by_coordinate (Event.kind event) (Event.pubkey event) identifier) with
          | Some stamp => (Event.created_at event <=? stamp)%N
          | None => false
          end then Ok (Rejected Deleted, t)
  else if bool_decide (is_Some (kv_get (events t) id_bytes)) then Ok (Rejected Duplicate, t)
  else
    let? loser :=
      if Kind.is_replaceable (Event.kind event) then Ok (resolve_replaceable t event)
      else if Kind.is_addressable (Event.kind event) then resolve_addressable t event
      else Ok None in
    if bool_decide (loser = Some (Event.id event)) then Ok (Rejected Replaced, t)
    else
      let? t := match loser with Some l => remove_event_inner t l | None => Ok t end in
      let? t := if process_nip09 o && (Event.kind event =? Kind.EVENT_DELETION)%N
                then apply_deletion t event else Ok t in
      let? t := insert_event_inner t event in
      Ok (Success, t).

(** [save_event]: the transaction is committed on success only. *)
Definition save_event (o : RedbDatabaseOptions) (t : WriteTables) (event : Event) (now : Timestamp) :
    result SaveEventStatus Codec.Error * WriteTables :=
  match save_with o t event now with
  | Err err => (Err err, t)
  | Ok (Success, t') => (Ok Success, t')
  | Ok (st, _) => (Ok st, t)
  end.

(** The snapshot loop of [delete_matching]; no limit applies. *)
Fixpoint matching_ids (t : WriteTables) (f : Filter) (ids : list EventId) :
    result (list EventId) Codec.Error :=
  match ids with
  | [] => Ok []
  | id :: ids' =>
      match kv_get (events t) (EventId.to_byte_array id) with
      | None => matching_ids t f ids'
      | Some bytes =>
          let? view := Codec.decode_match_view bytes in
          let? rest := matching_ids t f ids' in
          Ok (if Filter.match_event f view match_options_default then id :: rest else rest)
      end
  end.

Definition delete_matching (t : WriteTables) (f : Filter) : result unit Codec.Error * WriteTables :=
  match matching_ids t f (candidate_ids t f) with
  | Err err => (Err err, t)
  | Ok to_remove =>
      match for_each remove_event_inner t to_remove with
      | Err err => (Err err, t)
      | Ok t' => (Ok tt, t')
      end
  end.

Definition wipe (t : WriteTables) : WriteTables :=
  mkTables (kv_retain (events t) (λ _ _, false)) (kv_retain (by_created_at t) (λ _ _, false))
    (kv_retain (by_author_ts t) (λ _ _, false)) (kv_retain (by_kind_author_ts t) (λ _ _, false))
    (kv_retain (by_coordinate t) (λ _ _, false)) (kv_retain (deleted_ids t) (λ _ _, false))
    (kv_retain (deleted_coordinates t) (λ _ _, false)).

(** [RedbDatabase::query]: the store's answer, deduplicated and sorted. *)
Definition db_query (t : WriteTables) (f : Filter) : result (list Event) Codec.Error :=
  let? evs := query t f in Ok (Events.from_unsorted evs).
End store.
Arguments WriteTables : clear implicits.

End Redb.
