(* ===== verification/RedbProofs.v ===== *)
(** * The redb backend: refinement

    The seven tables represent a state of the abstract store of [Storage.Spec]
    ([Repr]); every operation preserves the representation and has the abstract
    effect.  The proofs use the engine only through [KvTableLaws] and the codec
    only through [PostcardLaws]. *)

From Stdlib Require Import Ascii NArith Lia.
From S2P Require Import Prelude Encoding Text Ids Tags Event Filter Storage SpecProofs RedbKeys Redb.

Import Redb.

(** ** Representation *)

Abbreviation bytes := EventId.to_byte_array.

Definition created_key (e : Event) : list byte := Keys.by_created_at (Event.created_at e) (Event.id e).
Definition author_key (e : Event) : list byte :=
  Keys.by_author_ts (Event.pubkey e) (Event.created_at e) (Event.id e).
Definition kind_author_key (e : Event) : list byte :=
  Keys.by_kind_author_ts (Event.kind e) (Event.pubkey e) (Event.created_at e) (Event.id e).
Definition coord_bytes (c : CoordKey) : list byte := Keys.by_coordinate c.1.1 c.1.2 c.2.

Lemma id_key_inj (key : Event → list byte) e e' :
  (∀ x, drop (length (key x) - 32) (key x) = bytes (Event.id x)) →
  key e = key e' → Event.id e = Event.id e'.
Proof. intros Hd E. apply EventId.to_byte_array_inj. by rewrite <-!Hd, E. Qed.

Lemma drop_id (l : list byte) i : drop (length (l ++ bytes i) - 32) (l ++ bytes i) = bytes i.
Proof.
  rewrite length_app, EventId.length_to_byte_array, Nat.add_sub. by rewrite drop_app_length.
Qed.

Lemma created_key_id e e' : created_key e = created_key e' → Event.id e = Event.id e'.
Proof. apply id_key_inj. intros x. apply drop_id. Qed.
Lemma author_key_id e e' : author_key e = author_key e' → Event.id e = Event.id e'.
Proof. apply id_key_inj. intros x. unfold author_key, Keys.by_author_ts. rewrite app_assoc. apply drop_id. Qed.
Lemma kind_author_key_id e e' : kind_author_key e = kind_author_key e' → Event.id e = Event.id e'.
Proof.
  apply id_key_inj. intros x. unfold kind_author_key, Keys.by_kind_author_ts.
  rewrite !app_assoc. apply drop_id.
Qed.

Section redb.
Context {T : Type → Type} `{KvTable T, !KvTableLaws T}.
Context `{FasterHex, !FasterHexLaws, Secp256k1, Postcard, !PostcardLaws}.

Implicit Types t : WriteTables T.

(** The payload stored for an event. *)
Definition payload (e : Event) : list byte := default [] (result_ok (Codec.encode e)).

Lemma encode_payload e : stored_ok e → Codec.encode e = Ok (payload e).
Proof.
  intros He. unfold payload. destruct (Codec.encode_ok e He) as (b & Hb & _). by rewrite Hb.
Qed.

(** [tbl] holds exactly the keys of the live events. *)
Definition index_repr (key : Event → list byte) (tbl : T unit) (m : gmap EventId Event) : Prop :=
  ∀ k, kv_map tbl !! k = Some tt ↔ ∃ e, live_in m e ∧ key e = k.

Record Repr t (st : Spec.t) : Prop := {
  r_keyed : keyed (Spec.live st);
  r_slots : UniqueSlots (Spec.live st);
  r_ok : ∀ e, live_in (Spec.live st) e → stored_ok e;
  r_events : ∀ i, kv_map (events t) !! bytes i = payload <$> Spec.live st !! i;
  r_created : index_repr created_key (by_created_at t) (Spec.live st);
  r_author : index_repr author_key (by_author_ts t) (Spec.live st);
  r_kind_author : index_repr kind_author_key (by_kind_author_ts t) (Spec.live st);
  r_coord : ∀ k v, kv_map (by_coordinate t) !! k = Some v ↔
    ∃ e c, live_in (Spec.live st) e ∧ addressable_coord e = Some c ∧
           coord_bytes c = k ∧ bytes (Event.id e) = v;
  r_dead_ids : ∀ i, is_Some (kv_map (deleted_ids t) !! bytes i) ↔ i ∈ Spec.dead_ids st;
  r_dead_coords : ∀ c, (c.1.1 <= Dec.u16_max)%N →
    kv_map (deleted_coordinates t) !! coord_bytes c = Spec.dead_coords st !! c;
}.

(** *** Small facts *)

Lemma addressable_identifier_coord e :
  addressable_identifier e = snd <$> addressable_coord e.
Proof. unfold addressable_identifier, addressable_coord. by destruct (negb _). Qed.

Lemma coord_bytes_event e c :
  addressable_coord e = Some c →
  Keys.by_coordinate (Event.kind e) (Event.pubkey e) c.2 = coord_bytes c.
Proof. unfold addressable_coord. destruct (negb _); [done|]. by intros [= <-]. Qed.

Lemma coord_kind_bound e c :
  stored_ok e → addressable_coord e = Some c → (c.1.1 <= Dec.u16_max)%N.
Proof.
  intros (_ & _ & Hk & _). unfold addressable_coord. destruct (negb _); [done|]. by intros [= <-].
Qed.

Lemma coord_bytes_inj c c' :
  (c.1.1 <= Dec.u16_max)%N → (c'.1.1 <= Dec.u16_max)%N → coord_bytes c = coord_bytes c' → c = c'.
Proof.
  destruct c as [[k p] s], c' as [[k' p'] s']. intros Hk Hk' E.
  by apply Keys.by_coordinate_inj in E.
Qed.

Lemma bytes_inj i j : bytes i = bytes j ↔ i = j.
Proof. split; [apply EventId.to_byte_array_inj|by intros ->]. Qed.

Lemma to_id_bytes i : to_id (bytes i) = Some i.
Proof.
  unfold to_id. change (bytes i) with (b32_list (EventId.inner i)).
  rewrite try_into32_list. by destruct i.
Qed.

(** *** Index tables *)

Lemma index_insert_repr key tbl m e :
  m !! Event.id e = None → index_repr key tbl m →
  index_repr key (kv_insert tbl (key e) tt) (<[Event.id e := e]> m).
Proof.
  intros Hnew Hix k. rewrite kv_map_insert, lookup_insert.
  setoid_rewrite live_in_insert. case_decide as E.
  - split; [|done]. intros _. exists e. auto.
  - rewrite (Hix k). split.
    + intros (e' & Hl & <-). exists e'. split; [|done]. right. split; [|done].
      intros Eid. unfold live_in in Hl. by rewrite Eid, Hnew in Hl.
    + intros (e' & [->|[_ Hl]] & <-); [done|]. eauto.
Qed.

Lemma index_remove_repr key tbl m e :
  (∀ a b, key a = key b → Event.id a = Event.id b) →
  live_in m e → index_repr key tbl m →
  index_repr key (kv_remove tbl (key e)) (delete (Event.id e) m).
Proof.
  intros Hinj Hl Hix k. rewrite kv_map_remove, lookup_delete.
  setoid_rewrite live_in_delete. case_decide as E.
  - split; [done|]. intros (e' & [Hn _] & Hk). subst k. by apply Hinj in Hk.
  - rewrite (Hix k). split.
    + intros (e' & Hl' & <-). exists e'. split; [|done]. split; [|done].
      intros Eid. apply E. unfold live_in in *. rewrite Eid in Hl'. congruence.
    + intros (e' & [_ Hl'] & <-). eauto.
Qed.

(** *** Lookups *)

Lemma get_event t st i :
  Repr t st → kv_get (events t) (bytes i) = payload <$> Spec.live st !! i.
Proof. intros R. rewrite kv_map_get. apply (r_events _ _ R). Qed.

Lemma live_of_lookup t st i e : Repr t st → Spec.live st !! i = Some e → live_in (Spec.live st) e.
Proof. intros R E. unfold live_in. by rewrite (r_keyed _ _ R _ _ E). Qed.

Lemma decode_payload t st i e :
  Repr t st → Spec.live st !! i = Some e →
  Codec.decode (payload e) = Ok e ∧ Codec.decode_created_at (payload e) = Ok (Event.created_at e) ∧
  Codec.decode_match_view (payload e) = Ok (Codec.view_of e).
Proof.
  intros R E. assert (stored_ok e) as He by (eapply r_ok, live_of_lookup; eauto).
  pose proof (encode_payload e He) as Hp.
  split_and!; [by apply Codec.decode_encode|by apply Codec.decode_created_at_encode
              |by apply Codec.decode_match_view_encode].
Qed.

Lemma get_coord t st c :
  Repr t st → (c.1.1 <= Dec.u16_max)%N →
  kv_get (by_coordinate t) (coord_bytes c) ≫= to_id =
    match list_find (λ e, addressable_coord e = Some c) (sorted_events (Spec.live st)) with
    | Some (_, e) => Some (Event.id e)
    | None => None
    end.
Proof.
  intros R Hc. rewrite kv_map_get.
  destruct (list_find _ _) as [[j e]|] eqn:El.
  - apply list_find_Some in El as (Hj & Hec & _). apply list_elem_of_lookup_2 in Hj.
    apply elem_of_sorted_events in Hj; [|apply R].
    rewrite (proj2 (r_coord _ _ R (coord_bytes c) (bytes (Event.id e)))) by eauto 10.
    simpl. apply to_id_bytes.
  - destruct (kv_map (by_coordinate t) !! coord_bytes c) as [v|] eqn:Ev; [|done].
    apply (r_coord _ _ R) in Ev as (e & c' & Hl & Hec & E & _).
    apply coord_bytes_inj in E; [|by eapply coord_kind_bound; [by eapply r_ok|]|done]. subst c'.
    apply list_find_None in El. rewrite Forall_forall in El. destruct (El e); [|done].
    by apply elem_of_sorted_events; [apply R|].
Qed.

(** *** Removal *)

Definition with_live (st : Spec.t) (m : gmap EventId Event) : Spec.t :=
  Spec.mk m (Spec.dead_ids st) (Spec.dead_coords st) (Spec.vanished st).

(** The coordinate table after [e] is gone. *)
Lemma coord_remove t st e k v :
  Repr t st → live_in (Spec.live st) e →
  kv_map (match addressable_identifier e with
          | Some identifier =>
              if bool_decide (kv_get (by_coordinate t)
                   (Keys.by_coordinate (Event.kind e) (Event.pubkey e) identifier) = Some (bytes (Event.id e)))
              then kv_remove (by_coordinate t)
                     (Keys.by_coordinate (Event.kind e) (Event.pubkey e) identifier)
              else by_coordinate t
          | None => by_coordinate t
          end) !! k = Some v ↔
  ∃ e' c, live_in (delete (Event.id e) (Spec.live st)) e' ∧ addressable_coord e' = Some c ∧
          coord_bytes c = k ∧ bytes (Event.id e') = v.
Proof.
  intros R Hl. setoid_rewrite live_in_delete. pose proof (r_coord _ _ R) as Hr.
  rewrite addressable_identifier_coord. destruct (addressable_coord e) as [c|] eqn:Ec; simpl.
  - rewrite (coord_bytes_event e c Ec).
    assert (kv_map (by_coordinate t) !! coord_bytes c = Some (bytes (Event.id e))) as Hcv
      by (apply Hr; eauto 10).
    rewrite kv_map_get, Hcv, bool_decide_true, kv_map_remove, lookup_delete by done.
    case_decide as E.
    + split; [done|]. intros (e' & c' & [Hn Hl'] & Hc' & E' & <-). destruct Hn.
      assert (kv_map (by_coordinate t) !! coord_bytes c = Some (bytes (Event.id e'))) as Hcv'.
      { apply Hr. exists e', c'. split_and!; auto. congruence. }
      rewrite Hcv in Hcv'. injection Hcv' as Hid. by apply EventId.to_byte_array_inj in Hid.
    + rewrite Hr. split.
      * intros (e' & c' & Hl' & Hc' & E' & Ev). exists e', c'. split_and!; auto.
        intros Eid. apply E. unfold live_in in *. rewrite Eid in Hl'. congruence.
      * intros (e' & c' & [_ Hl'] & ? & ? & ?). eauto 10.
  - rewrite Hr. split.
    + intros (e' & c' & Hl' & Hc' & ? & ?). exists e', c'. split_and!; auto.
      intros Eid. unfold live_in in *. rewrite Eid in Hl'. congruence.
    + intros (e' & c' & [_ Hl'] & ? & ? & ?). eauto 10.
Qed.

Lemma remove_ok t st i :
  Repr t st →
  ∃ t', remove_event_inner t i = Ok t' ∧ Repr t' (with_live st (delete i (Spec.live st))).
Proof.
  intros R. unfold remove_event_inner. rewrite (get_event t st i R).
  destruct (Spec.live st !! i) as [e|] eqn:E; simpl.
  2:{ exists t. split; [done|]. rewrite delete_id by done. by destruct st. }
  destruct (decode_payload t st i e R E) as (Hd & _ & _). rewrite Hd. simpl.
  eexists. split; [done|]. pose proof (live_of_lookup t st i e R E) as Hl.
  assert (Event.id e = i) as Ei by by apply (r_keyed _ _ R). subst i.
  split; simpl.
  - intros j e'. rewrite lookup_delete. case_decide; [done|]. apply (r_keyed _ _ R).
  - eapply UniqueSlots_sub; [apply R|apply delete_subseteq].
  - intros e' [_ ?]%live_in_delete. by eapply r_ok.
  - intros j. rewrite kv_map_remove, !lookup_delete, (r_events _ _ R).
    rewrite (decide_ext (bytes (Event.id e) = bytes j) (Event.id e = j)) by apply bytes_inj.
    by case_decide.
  - apply (index_remove_repr created_key); [apply created_key_id|done|apply R].
  - apply (index_remove_repr author_key); [apply author_key_id|done|apply R].
  - apply (index_remove_repr kind_author_key); [apply kind_author_key_id|done|apply R].
  - intros k v. by apply (coord_remove t st e).
  - apply R.
  - apply R.
Qed.

Lemma delete_filter (m : gmap EventId Event) i ids :
  filter (λ p, p.1 ∉ ids) (delete i m) = filter (λ p, p.1 ∉ i :: ids) m.
Proof.
  apply map_eq. intros j. rewrite !map_lookup_filter, lookup_delete.
  destruct (decide (i = j)) as [<-|Hij]; destruct (m !! _) as [e|] eqn:E; simpl; try done.
  - rewrite option_guard_False; [done|]. set_solver.
  - destruct (decide (j ∈ ids)).
    + rewrite !option_guard_False; set_solver.
    + rewrite !option_guard_True; set_solver.
Qed.

Lemma remove_all_repr ids t st :
  Repr t st →
  ∃ t', for_each remove_event_inner t ids = Ok t' ∧
        Repr t' (with_live st (filter (λ p, p.1 ∉ ids) (Spec.live st))).
Proof.
  revert t st. induction ids as [|i ids IH]; intros t st R; simpl.
  - exists t. split; [done|]. rewrite map_filter_id; [by destruct st|]. set_solver.
  - destruct (remove_ok t st i R) as (t1 & -> & R1). simpl.
    destruct (IH t1 _ R1) as (t2 & -> & R2). exists t2. split; [done|].
    simpl in R2. by rewrite delete_filter in R2.
Qed.

(** *** Insertion *)

Lemma insert_ok t st e :
  Repr t st → stored_ok e → Spec.live st !! Event.id e = None →
  (∀ e', live_in (Spec.live st) e' → ¬ Spec.rival e e') →
  ∃ t', insert_event_inner t e = Ok t' ∧
        Repr t' (with_live st (<[Event.id e := e]> (Spec.live st))).
Proof.
  intros R He Hnew Hfree. unfold insert_event_inner. rewrite (encode_payload e He). simpl.
  eexists. split; [done|]. split; simpl.
  - intros j e' [[<- <-]|[_ E]]%lookup_insert_Some; [done|by apply (r_keyed _ _ R)].
  - intros e1 e2. rewrite !live_in_insert.
    intros [->|[Hn1 H1']] [->|[Hn2 H2']] Hsl E; [done|..|by apply (r_slots _ _ R)].
    + exfalso. apply (Hfree e2); [done|]. split; [done|]. congruence.
    + exfalso. apply (Hfree e1); [done|]. split; [|done]. congruence.
  - intros e'. rewrite live_in_insert. intros [->|[_ ?]]; [done|by eapply r_ok].
  - intros j. rewrite kv_map_insert, !lookup_insert, (r_events _ _ R).
    rewrite (decide_ext (bytes (Event.id e) = bytes j) (Event.id e = j)) by apply bytes_inj.
    by case_decide.
  - by apply (index_insert_repr created_key); [|apply R].
  - by apply (index_insert_repr author_key); [|apply R].
  - by apply (index_insert_repr kind_author_key); [|apply R].
  - intros k v. setoid_rewrite live_in_insert. pose proof (r_coord _ _ R) as Hr.
    assert (∀ e', live_in (Spec.live st) e' → Event.id e' ≠ Event.id e) as Hne.
    { intros e' Hl Eid. unfold live_in in Hl. by rewrite Eid, Hnew in Hl. }
    rewrite addressable_identifier_coord. destruct (addressable_coord e) as [c|] eqn:Ec; simpl.
    + rewrite (coord_bytes_event e c Ec), kv_map_insert, lookup_insert. case_decide as E.
      * split.
        -- intros [= <-]. eauto 10.
        -- intros (e' & c' & [->|[_ Hl]] & Hc' & E' & Ev); [congruence|]. exfalso.
           apply (Hfree e' Hl). assert (c' = c) as ->.
           { apply coord_bytes_inj; [by eapply coord_kind_bound; [by eapply r_ok|]
                                    |by eapply coord_kind_bound|congruence]. }
           split; rewrite (slot_addressable e c Ec); [done|by apply slot_addressable].
      * rewrite Hr. split.
        -- intros (e' & c' & Hl & ? & ? & ?). exists e', c'. split_and!; auto.
        -- intros (e' & c' & [->|[_ Hl]] & Hc' & E' & Ev); [congruence|]. eauto 10.
    + rewrite Hr. split.
      * intros (e' & c' & Hl & ? & ? & ?). exists e', c'. split_and!; auto.
      * intros (e' & c' & [->|[_ Hl]] & Hc' & E' & Ev); [congruence|]. eauto 10.
  - apply R.
  - apply R.
Qed.

(** *** Conflicts *)

Lemma length_kind_author_key e : length (kind_author_key e) = 74%nat.
Proof.
  unfold kind_author_key, Keys.by_kind_author_ts.
  by rewrite !length_app, Keys.length_kind_be, Keys.length_ts_be, PublicKey.pk_length_to_byte_array,
    EventId.length_to_byte_array.
Qed.

(** Splitting a [(kind, author)] key at its fixed offsets. *)
Lemma ts_id_of_kind_author_key e :
  stored_ok e →
  ts_id_of_key (Keys.KIND_LEN + Keys.PUBKEY_LEN) (kind_author_key e) =
    Some (Event.created_at e, Event.id e).
Proof.
  intros (_ & Hts & _). unfold ts_id_of_key. rewrite length_kind_author_key. simpl negb. cbv iota zeta.
  unfold kind_author_key, Keys.by_kind_author_ts.
  set (pre := Keys.kind_be (Event.kind e) ++ PublicKey.to_byte_array (Event.pubkey e)).
  assert (length pre = 34%nat) as Hp.
  { unfold pre. by rewrite length_app, Keys.length_kind_be, PublicKey.pk_length_to_byte_array. }
  rewrite app_assoc. fold pre.
  change (Keys.KIND_LEN + Keys.PUBKEY_LEN)%nat with 34%nat.
  rewrite (drop_app_length' pre) by done.
  rewrite take_app_length' by by rewrite Keys.length_ts_be.
  rewrite app_assoc. rewrite drop_app_length' by (rewrite length_app, Hp, Keys.length_ts_be; done).
  rewrite Keys.ts_be_value by done. by rewrite to_id_bytes.
Qed.

(** The entries of a [(kind, author)] scan are the keys of that slot. *)
Lemma scan_kind_author_elem t st kind pk k :
  Repr t st → (kind <= Dec.u16_max)%N →
  let prefix := Keys.kind_author_prefix kind pk in
  (k, tt) ∈ kv_range (by_kind_author_ts t) prefix (Keys.upper_bound prefix) ↔
  ∃ e, live_in (Spec.live st) e ∧ kind_author e = (kind, pk) ∧ kind_author_key e = k.
Proof.
  intros R Hk. cbv zeta. rewrite kv_range_elem, (r_kind_author _ _ R k).
  set (prefix := Keys.kind_author_prefix kind pk).
  assert (length prefix = 34%nat) as Hp.
  { unfold prefix, Keys.kind_author_prefix.
    by rewrite length_app, Keys.length_kind_be, PublicKey.pk_length_to_byte_array. }
  assert (∀ e, live_in (Spec.live st) e →
    Keys.in_scan prefix (kind_author_key e) ↔ kind_author e = (kind, pk)) as Hscan.
  { intros e Hl. rewrite Keys.in_scan_prefix by (rewrite Hp, length_kind_author_key; lia).
    unfold kind_author_key, Keys.by_kind_author_ts, prefix, Keys.kind_author_prefix, kind_author.
    pose proof (r_ok _ _ R e Hl) as (_ & _ & Hke & _). split.
    - intros [k' E]. rewrite <-app_assoc in E.
      apply app_inj_1 in E as [E1 E]; [|by rewrite !Keys.length_kind_be].
      apply app_inj_1 in E as [E2 _]; [|by rewrite !PublicKey.pk_length_to_byte_array].
      apply Keys.kind_be_inj in E1; [|done..]. apply PublicKey.pk_to_byte_array_inj in E2. congruence.
    - intros [= <- <-]. eexists. by rewrite <-app_assoc. }
  change (bytes_le prefix k ∧ _) with (Keys.in_scan prefix k). split.
  - intros [(e & Hl & <-) Hs]. exists e. split_and!; auto. by apply Hscan.
  - intros (e & Hl & Hka & <-). split; [eauto|]. by apply Hscan.
Qed.

Lemma StronglySorted_lt_NoDup {V} (l : list (list byte * V)) :
  StronglySorted (λ a b, bytes_lt a.1 b.1) l → NoDup l.
Proof.
  induction 1 as [|x l _ IH Hx]; constructor; [|done]. intros Hin.
  rewrite Forall_forall in Hx. specialize (Hx x Hin). unfold bytes_lt in Hx.
  by rewrite (proj2 (bytes_cmp_eq x.1 x.1) eq_refl) in Hx.
Qed.

Lemma resolve_replaceable_ok t st e :
  Repr t st → stored_ok e → Kind.is_replaceable (Event.kind e) = true →
  conflict (Spec.live st) e (resolve_replaceable t e).
Proof.
  intros R (_ & _ & Hk & _) Hr. unfold resolve_replaceable.
  set (prefix := Keys.kind_author_prefix (Event.kind e) (Event.pubkey e)).
  pose proof (λ k, scan_kind_author_elem t st (Event.kind e) (Event.pubkey e) k R Hk) as Hel.
  pose proof (kv_range_sorted _ (by_kind_author_ts t) prefix (Keys.upper_bound prefix)) as Hso.
  cbv zeta in Hel. fold prefix in Hel.
  set (entries := kv_range (by_kind_author_ts t) prefix (Keys.upper_bound prefix)) in *.
  apply StronglySorted_lt_NoDup in Hso. pose proof (slot_replaceable e Hr) as Hs.
  assert (∀ inc, Spec.rival e inc ↔ kind_author inc = kind_author e) as Hriv.
  { intros inc. unfold Spec.rival. rewrite Hs, slot_None_kind.
    unfold kind_author. split; [by intros (_ & _ & ->)|]. intros E. split_and!; [done| |done].
    injection E as -> _. done. }
  assert (∀ inc, live_in (Spec.live st) inc → Spec.rival e inc →
    (kind_author_key inc, tt) ∈ entries) as Hin.
  { intros inc Hl Hrv. apply Hel. exists inc. split_and!; auto. by apply Hriv. }
  destruct entries as [|[k1 []] rest] eqn:Een; simpl.
  { intros inc [Hl Hrv]. specialize (Hin inc Hl Hrv). set_solver. }
  destruct (proj1 (Hel k1)) as (inc & Hl & Hka & <-); [left|].
  assert (rest = []) as ->.
  { destruct rest as [|[k2 []] rest]; [done|]. exfalso.
    destruct (proj1 (Hel k2)) as (inc2 & Hl2 & Hka2 & <-); [right; left|].
    apply NoDup_cons in Hso as [Hn _]. apply Hn.
    assert (inc2 = inc) as ->; [|left]. apply (rival_unique (Spec.live st) e); auto; [apply R|..]; by apply Hriv. }
  simpl. rewrite ts_id_of_kind_author_key by by eapply r_ok. simpl.
  exists inc. split; [|done]. split; [done|]. by apply Hriv.
Qed.

Lemma resolve_addressable_ok t st e :
  Repr t st → stored_ok e → Kind.is_addressable (Event.kind e) = true →
  ∃ loser, resolve_addressable t e = Ok loser ∧ conflict (Spec.live st) e loser.
Proof.
  intros R He Ha. unfold resolve_addressable. rewrite addressable_identifier_coord.
  destruct (addressable_coord e) as [c|] eqn:Ec; simpl.
  2:{ unfold addressable_coord in Ec. by rewrite Ha in Ec. }
  rewrite (coord_bytes_event e c Ec), (get_coord t st c R) by by eapply coord_kind_bound.
  pose proof (slot_addressable e c Ec) as Hs.
  assert (∀ inc, Spec.rival e inc ↔ addressable_coord inc = Some c) as Hriv.
  { intros inc. unfold Spec.rival. rewrite Hs. destruct c as [[k p] d]. simpl.
    rewrite slot_Some_coord. naive_solver. }
  destruct (list_find _ _) as [[j inc]|] eqn:El.
  - apply list_find_Some in El as (Hj & Hic & _). apply list_elem_of_lookup_2 in Hj.
    apply elem_of_sorted_events in Hj; [|apply R].
    rewrite (get_event t st _ R), Hj. simpl.
    destruct (decode_payload t st _ inc R Hj) as (_ & Hd & _). rewrite Hd. simpl.
    eexists. split; [done|]. exists inc. split; [|done]. split; [done|]. by apply Hriv.
  - exists None. split; [done|]. intros inc [Hl Hrv%Hriv]. apply list_find_None in El.
    rewrite Forall_forall in El. apply (El inc); [|done]. by apply elem_of_sorted_events; [apply R|].
Qed.

(** *** NIP-09 *)

Lemma collect_ids_ok t st del ids rm ts :
  Repr t st →
  ∃ rm' ts', collect_ids t del rm ts ids = Ok (rm', ts') ∧
    (∀ i, i ∈ rm' ↔ i ∈ rm ∨ (i ∈ ids ∧ ∃ e, Spec.live st !! i = Some e ∧ Event.pubkey e = Event.pubkey del)) ∧
    (∀ i, i ∈ ts' ↔ i ∈ ts ∨ (i ∈ ids ∧ Spec.unprotected del (Spec.live st) i = true)).
Proof.
  intros R. revert rm ts. induction ids as [|i ids IH]; intros rm ts; cbn [collect_ids].
  { exists rm, ts. split_and!; [done|set_solver|set_solver]. }
  rewrite (get_event t st i R). unfold Spec.unprotected in *.
  destruct (Spec.live st !! i) as [e|] eqn:E; cbn [fmap option_fmap option_map].
  - destruct (decode_payload t st i e R E) as (Hd & _). rewrite Hd. cbn [result_bind].
    case_decide as Ha.
    + destruct (IH ({[i]} ∪ rm) ({[i]} ∪ ts)) as (rm' & ts' & -> & Hrm & Hts).
      exists rm', ts'. split_and!; [done|..]; intros j; [rewrite Hrm|rewrite Hts];
        rewrite elem_of_union, elem_of_singleton, elem_of_cons; split.
      * intros [[->|?]|[? ?]]; eauto 10.
      * intros [?|[[->|?] ?]]; eauto.
      * intros [[->|?]|[? ?]]; auto. right. split; [by left|]. rewrite E. by apply bool_decide_eq_true.
      * intros [?|[[->|?] ?]]; auto.
    + destruct (IH rm ts) as (rm' & ts' & -> & Hrm & Hts).
      exists rm', ts'. split_and!; [done|..]; intros j; [rewrite Hrm|rewrite Hts];
        rewrite elem_of_cons; split.
      * intros [?|[? ?]]; auto.
      * intros [?|[[->|?] ?]]; auto. naive_solver.
      * intros [?|[? ?]]; auto.
      * intros [?|[[->|?] Hu]]; auto. rewrite E in Hu. apply bool_decide_eq_true in Hu. done.
  - destruct (IH rm ({[i]} ∪ ts)) as (rm' & ts' & -> & Hrm & Hts).
    exists rm', ts'. split_and!; [done|..]; intros j; [rewrite Hrm|rewrite Hts];
      rewrite elem_of_cons; split.
    * intros [?|[? ?]]; auto.
    * intros [?|[[->|?] ?]]; auto. naive_solver.
    * intros [[ ->%elem_of_singleton|?]%elem_of_union|[? ?]]; auto. right. split; [by left|]. by rewrite E.
    * intros [?|[[->|?] Hu]]; auto; left; set_solver.
Qed.

Lemma tombstone_ids_ok t st del (l : list EventId) :
  Repr t st →
  Repr (foldl (λ t id, set_deleted_ids t (kv_insert (deleted_ids t) (bytes id) (Event.created_at del))) t l)
       (Spec.mk (Spec.live st) (list_to_set l ∪ Spec.dead_ids st) (Spec.dead_coords st) (Spec.vanished st)).
Proof.
  revert t st. induction l as [|i l IH]; intros t st R; simpl.
  - destruct R. split; simpl; auto. intros j. by rewrite union_empty_l_L.
  - assert (Repr (set_deleted_ids t (kv_insert (deleted_ids t) (bytes i) (Event.created_at del)))
      (Spec.mk (Spec.live st) ({[i]} ∪ Spec.dead_ids st) (Spec.dead_coords st) (Spec.vanished st))) as R1.
    { destruct R. split; simpl; auto. intros j. rewrite kv_map_insert, lookup_insert.
      rewrite (decide_ext (bytes i = bytes j) (i = j)) by apply bytes_inj.
      case_decide as E; [subst; split; [set_solver|done]|]. rewrite r_dead_ids0. set_solver. }
    specialize (IH _ _ R1). simpl in IH.
    by replace ({[i]} ∪ list_to_set l ∪ Spec.dead_ids st)
      with (list_to_set l ∪ ({[i]} ∪ Spec.dead_ids st)) by set_solver.
Qed.

Definition own (del : Event) (c : Coordinate) : list CoordKey :=
  if decide (Coordinate.author c = Event.pubkey del) then [coord_key c] else [].

(** The removal half of one coordinate. *)
Lemma delete_coord_remove t st del c :
  Repr t st → (Coordinate.kind c <= Dec.u16_max)%N →
  ∃ t', match kv_get (by_coordinate t) (coord_bytes (coord_key c)) ≫= to_id with
        | None => Ok t
        | Some id =>
            match kv_get (events t) (bytes id) with
            | None => Ok t
            | Some b =>
                let? ts := Codec.decode_created_at b in
                if (ts <=? Event.created_at del)%N then remove_event_inner t id else Ok t
            end
        end = Ok t' ∧
    Repr t' (with_live st (filter (λ p, ¬ at_coords del [coord_key c] p.2) (Spec.live st))).
Proof.
  intros R Hk. rewrite (get_coord t st (coord_key c) R Hk).
  assert (∀ e, at_coords del [coord_key c] e ↔
    addressable_coord e = Some (coord_key c) ∧ (Event.created_at e <= Event.created_at del)%N) as Hat.
  { intros e. unfold at_coords. destruct (addressable_coord e) as [c'|]; [|naive_solver].
    rewrite list_elem_of_singleton. naive_solver. }
  destruct (list_find _ _) as [[j inc]|] eqn:El.
  - apply list_find_Some in El as (Hj & Hic & _). apply list_elem_of_lookup_2 in Hj.
    apply elem_of_sorted_events in Hj; [|apply R].
    rewrite (get_event t st _ R), Hj. simpl.
    destruct (decode_payload t st _ inc R Hj) as (_ & Hd & _). rewrite Hd. simpl.
    assert (∀ i e, Spec.live st !! i = Some e → addressable_coord e = Some (coord_key c) → e = inc) as Huniq.
    { intros i e E Hc. apply (r_slots _ _ R); [by eapply live_of_lookup|done|..];
        rewrite !(slot_addressable _ _ Hc); [done|]. by rewrite (slot_addressable _ _ Hic). }
    destruct (N.leb_spec (Event.created_at inc) (Event.created_at del)) as [Hle|Hlt].
    + destruct (remove_ok t st (Event.id inc) R) as (t' & -> & R'). exists t'. split; [done|].
      assert (filter (λ p, ¬ at_coords del [coord_key c] p.2) (Spec.live st) =
              delete (Event.id inc) (Spec.live st)) as ->; [|done].
      apply map_eq. intros i. rewrite lookup_delete, map_lookup_filter.
      destruct (Spec.live st !! i) as [e|] eqn:Ei; simpl; [|by case_decide].
      pose proof (r_keyed _ _ R _ _ Ei) as Eid. case_decide as Hi.
      * assert (e = inc) as -> by congruence. rewrite option_guard_False; [done|].
        intros Hn. apply Hn, Hat. auto.
      * rewrite option_guard_True; [done|]. intros [Hc _]%Hat. rewrite (Huniq i e) in Eid by done. congruence.
    + exists t. split; [done|]. rewrite map_filter_id; [by destruct st|].
      intros i e Ei [Hc Hle]%Hat. assert (e = inc) as -> by (by eapply Huniq). simpl in *. lia.
  - exists t. split; [done|]. rewrite map_filter_id; [by destruct st|].
    intros i e Ei [Hc Hle]%Hat. apply list_find_None in El. rewrite Forall_forall in El.
    apply (El e); [|done]. apply elem_of_sorted_events; [apply R|]. by eapply live_of_lookup.
Qed.

Lemma delete_coord_ok t st del c :
  Repr t st → (Coordinate.kind c <= Dec.u16_max)%N →
  ∃ t', delete_coord del t c = Ok t' ∧
    Repr t' (Spec.mk (filter (λ p, ¬ at_coords del (own del c) p.2) (Spec.live st)) (Spec.dead_ids st)
               (foldl (Spec.stamp (Event.created_at del)) (Spec.dead_coords st) (own del c))
               (Spec.vanished st)).
Proof.
  intros R Hk. unfold delete_coord, own. case_decide as Ha.
  2:{ rewrite bool_decide_false by done. exists t. split; [done|]. simpl.
      rewrite map_filter_id; [by destruct st|]. intros i e _ [_ Hc]. simpl in Hc.
      destruct (addressable_coord e); set_solver. }
  rewrite bool_decide_true by done. cbn [negb]. cbv zeta.
  change (Keys.by_coordinate (Coordinate.kind c) (Coordinate.author c) (Coordinate.identifier c))
    with (coord_bytes (coord_key c)).
  destruct (delete_coord_remove t st del c R Hk) as (t1 & -> & R1). cbn [result_bind].
  eexists. split; [done|]. rewrite kv_map_get.
  rewrite (r_dead_coords _ _ R1 (coord_key c) Hk). cbn [with_live Spec.dead_coords foldl].
  unfold Spec.stamp.
  destruct R1 as [Rk Rs Ro Re Rc Ra Rka Rco Rdi Rdc]. simpl in *.
  destruct (Spec.dead_coords st !! coord_key c) as [p|] eqn:Ep;
    [destruct (N.ltb_spec p (Event.created_at del)) as [Hlt|Hge]|]; split; simpl; auto;
    intros c' Hc'; rewrite ?kv_map_insert, ?lookup_insert;
    rewrite ?(decide_ext (coord_bytes (coord_key c) = coord_bytes c') (coord_key c = c'))
      by (split; [by apply coord_bytes_inj|by intros ->]).
  - case_decide; [subst|by apply Rdc]. simpl. f_equal. lia.
  - case_decide; [subst|by apply Rdc]. rewrite Rdc by done. rewrite Ep. f_equal. lia.
  - case_decide; [subst|by apply Rdc]. f_equal. lia.
Qed.

Lemma delete_coords_repr cs t st del :
  Repr t st → Forall (λ c, (Coordinate.kind c <= Dec.u16_max)%N) cs →
  ∃ t', for_each (delete_coord del) t cs = Ok t' ∧
    Repr t' (Spec.mk (filter (λ p, ¬ at_coords del (own_keys del cs) p.2) (Spec.live st)) (Spec.dead_ids st)
               (foldl (Spec.stamp (Event.created_at del)) (Spec.dead_coords st) (own_keys del cs))
               (Spec.vanished st)).
Proof.
  intros R Hcs. revert t st R. induction Hcs as [|c cs Hc _ IH]; intros t st R; simpl.
  - exists t. split; [done|]. rewrite map_filter_id; [by destruct st|].
    intros i e _ [_ Hx]. simpl in Hx. destruct (addressable_coord e); set_solver.
  - destruct (delete_coord_ok t st del c R Hc) as (t1 & -> & R1). simpl.
    destruct (IH t1 _ R1) as (t2 & -> & R2). exists t2. split; [done|]. simpl in R2.
    assert (own_keys del (c :: cs) = own del c ++ own_keys del cs) as ->.
    { unfold own_keys, own. rewrite filter_cons. by case_decide. }
    rewrite foldl_app.
    assert (filter (λ p, ¬ at_coords del (own del c ++ own_keys del cs) p.2) (Spec.live st) =
            filter (λ p, ¬ at_coords del (own_keys del cs) p.2)
              (filter (λ p, ¬ at_coords del (own del c) p.2) (Spec.live st))) as ->; [|done].
    rewrite map_filter_filter. apply map_filter_ext.
    intros i e _. simpl. rewrite at_coords_app. tauto.
Qed.

Lemma from_event_coords r0 tags r :
  Forall (λ c, (Coordinate.kind c <= Dec.u16_max)%N) (Nip09.coordinates r0) →
  Nip09.from_event_loop r0 tags = Ok r →
  Forall (λ c, (Coordinate.kind c <= Dec.u16_max)%N) (Nip09.coordinates r).
Proof.
  revert r0. induction tags as [|tag tags IH]; intros r0 H0'; simpl; [by intros [= <-]|].
  destruct (Nip09.from_event_step r0 tag) as [r1|] eqn:E; simpl; [|done]. apply IH.
  unfold Nip09.from_event_step in E. repeat case_decide; simpl in E.
  - destruct (ok_or _ _); simpl in E; [|done]. destruct (map_err _ _); simpl in E; [|done].
    by injection E as <-.
  - destruct (ok_or _ _) as [v|]; simpl in E; [|done].
    destruct (Coordinate.from_str v) as [c|] eqn:Ec; simpl in E; [|done]. injection E as <-. simpl.
    apply Forall_app. split; [done|]. constructor; [|done]. by eapply Coordinate.from_str_valid.
  - destruct (ok_or _ _); simpl in E; [|done]. destruct (ok_or _ _); simpl in E; [|done].
    by injection E as <-.
  - by injection E as <-.
Qed.

Lemma apply_deletion_repr t st del :
  Repr t st →
  ∃ t', apply_deletion t del = Ok t' ∧ Repr t' (Spec.delete_request st del).
Proof.
  intros R. unfold apply_deletion, Spec.delete_request.
  destruct (Nip09.from_event del) as [r|] eqn:Er; [|by exists t].
  destruct (collect_ids_ok t st del (Nip09.event_ids r) ∅ ∅ R) as (rm & ts & -> & Hrm & Hts).
  cbn [result_bind fst snd].
  destruct (remove_all_repr (elements rm) t st R) as (t1 & -> & R1). cbn [result_bind].
  pose proof (tombstone_ids_ok t1 _ del (elements ts) R1) as R2.
  assert (Forall (λ c, (Coordinate.kind c <= Dec.u16_max)%N) (Nip09.coordinates r)) as Hcs.
  { unfold Nip09.from_event in Er. destruct (negb _); [done|].
    eapply from_event_coords; [|done]. constructor. }
  destruct (delete_coords_repr (Nip09.coordinates r) _ _ del R2 Hcs) as (t3 & -> & R3).
  exists t3. split; [done|]. simpl in R3.
  assert (filter (λ p, p.1 ∉ elements rm) (Spec.live st) =
    filter (λ p, ¬ (p.1 ∈ Nip09.event_ids r ∧ Event.pubkey p.2 = Event.pubkey del)) (Spec.live st)) as Hlive.
  { apply map_filter_ext. intros i e E. simpl. rewrite elem_of_elements, Hrm.
    split; intros Hn Hx; apply Hn; [set_solver|]. destruct Hx as [?|[Hi (e' & E' & Hp)]]; [set_solver|].
    split; [done|]. congruence. }
  rewrite Hlive, targeted_split in R3 by apply R.
  assert (list_to_set (elements ts) = Spec.tombstoned del r (Spec.live st)) as Htomb.
  { apply set_eq. intros i. unfold Spec.tombstoned.
    rewrite !elem_of_list_to_set, elem_of_elements, list_elem_of_filter, Hts. set_solver. }
  by rewrite Htomb in R3.
Qed.

(** *** Saving *)

Definition redb_spec_options (o : RedbDatabaseOptions) : Spec.options :=
  Spec.mkOptions None (process_nip09 o) false.

Lemma resolve_ok t st e :
  Repr t st → stored_ok e →
  ∃ loser,
    (if Kind.is_replaceable (Event.kind e) then Ok (resolve_replaceable t e)
     else if Kind.is_addressable (Event.kind e) then resolve_addressable t e
     else Ok None) = Ok loser ∧ conflict (Spec.live st) e loser.
Proof.
  intros R He. destruct (Kind.is_replaceable _) eqn:Er.
  - eexists. split; [done|]. by apply resolve_replaceable_ok.
  - destruct (Kind.is_addressable _) eqn:Ea; [by apply resolve_addressable_ok|].
    exists None. split; [done|]. intros inc [_ [[x Hx] _]]. unfold Spec.slot, addressable_coord in Hx.
    by rewrite Er, Ea in Hx.
Qed.

Lemma conflict_state t st e loser :
  Repr t st → conflict (Spec.live st) e loser → loser ≠ Some (Event.id e) →
  ∃ t', match loser with Some l => remove_event_inner t l | None => Ok t end = Ok t' ∧
        Repr t' (with_live st (filter (λ p, ¬ Spec.rival e p.2) (Spec.live st))).
Proof.
  intros R Hc Hne. rewrite <-(conflict_evict _ _ _ (r_keyed _ _ R) (r_slots _ _ R) Hc Hne).
  destruct loser as [l|]; [by apply remove_ok|]. exists t. split; [done|]. by destruct st.
Qed.

Lemma accept_repr o t st e :
  Repr t (with_live st (filter (λ p, ¬ Spec.rival e p.2) (Spec.live st))) → stored_ok e →
  Spec.live st !! Event.id e = None →
  ∃ t', (let? t := if process_nip09 o && (Event.kind e =? Kind.EVENT_DELETION)%N
                   then apply_deletion t e else Ok t in
         let? t := insert_event_inner t e in Ok (Success, t)) = Ok (Success, t') ∧
        Repr t' (Spec.accept (redb_spec_options o) st e).
Proof.
  intros R He Hnew. unfold Spec.accept. cbn [redb_spec_options Spec.process_nip09 Spec.process_nip62].
  cbn [andb Spec.max_events Spec.evict]. fold (with_live st (filter (λ p, ¬ Spec.rival e p.2) (Spec.live st))).
  set (st1 := with_live st (filter (λ p, ¬ Spec.rival e p.2) (Spec.live st))) in *.
  set (st2 := if process_nip09 o && (Event.kind e =? Kind.EVENT_DELETION)%N
              then Spec.delete_request st1 e else st1).
  assert (∃ t1, (if process_nip09 o && (Event.kind e =? Kind.EVENT_DELETION)%N
                 then apply_deletion t e else Ok t) = Ok t1 ∧ Repr t1 st2) as (t1 & -> & R1).
  { subst st2. destruct (process_nip09 o && _); [by apply apply_deletion_repr|by exists t]. }
  assert (Spec.live st2 ⊆ Spec.live st1) as Hsub.
  { subst st2. destruct (process_nip09 o && _); [apply delete_request_live|done]. }
  clearbody st2. cbn [result_bind].
  destruct (insert_ok t1 st2 e R1 He) as (t2 & -> & R2).
  - eapply lookup_weaken_None; [|exact Hsub]. simpl. by rewrite map_lookup_filter, Hnew.
  - intros e' Hl Hr. eapply lookup_weaken in Hl; [|exact Hsub]. simpl in Hl.
    apply map_lookup_filter_Some in Hl as [_ Hn]. by apply Hn.
  - by exists t2.
Qed.

Lemma save_event_repr o t st e now :
  Repr t st → stored_ok e →
  ∃ status t', save_event o t e now = (Ok status, t') ∧
    (Spec.save (redb_spec_options o) st e now).1 = status ∧
    Repr t' (Spec.save (redb_spec_options o) st e now).2.
Proof.
  intros R He. unfold save_event, save_with, Spec.save, Spec.admission, rejected_if.
  cbn [redb_spec_options Spec.process_nip62 andb].
  destruct (Kind.is_ephemeral _); [eauto|]. destruct (bool_decide (Nip40.is_expired e now = _)); [eauto|].
  rewrite kv_map_get. rewrite (bool_decide_ext _ _ (r_dead_ids _ _ R (Event.id e))).
  destruct (bool_decide (Event.id e ∈ _)); [eauto|].
  rewrite addressable_identifier_coord.
  assert (((snd <$> addressable_coord e) ≫= λ identifier,
             kv_get (deleted_coordinates t) (Keys.by_coordinate (Event.kind e) (Event.pubkey e) identifier)) =
          (addressable_coord e ≫= λ c, Spec.dead_coords st !! c)) as ->.
  { destruct (addressable_coord e) as [c|] eqn:Ec; simpl; [|done].
    rewrite (coord_bytes_event e c Ec), kv_map_get. apply (r_dead_coords _ _ R).
    by eapply coord_kind_bound. }
  destruct (match _ with Some _ => _ | None => false end); [eauto|].
  rewrite (get_event t st _ R). rewrite (bool_decide_ext _ _ (fmap_is_Some payload _)).
  destruct (bool_decide (is_Some (Spec.live st !! Event.id e))) eqn:Hd; [eauto|].
  apply bool_decide_eq_false, eq_None_not_Some in Hd.
  destruct (resolve_ok t st e R He) as (loser & -> & Hc). cbn [result_bind].
  rewrite <-(bool_decide_ext _ _ (conflict_replaced _ _ _ (r_keyed _ _ R) (r_slots _ _ R) Hd Hc)).
  destruct (bool_decide (loser = Some (Event.id e))) eqn:Hl; [eauto|].
  apply bool_decide_eq_false in Hl.
  destruct (conflict_state t st e loser R Hc Hl) as (t1 & -> & R1). cbn [result_bind].
  destruct (accept_repr o t1 st e R1 He Hd) as (t2 & -> & R2). eauto.
Qed.

(** *** The other operations *)

Lemma no_live e : ¬ live_in (Spec.live Spec.empty) e.
Proof. unfold live_in. simpl. by rewrite lookup_empty. Qed.

Lemma empty_repr t :
  kv_map (events t) = ∅ → kv_map (by_created_at t) = ∅ → kv_map (by_author_ts t) = ∅ →
  kv_map (by_kind_author_ts t) = ∅ → kv_map (by_coordinate t) = ∅ →
  kv_map (deleted_ids t) = ∅ → kv_map (deleted_coordinates t) = ∅ → Repr t Spec.empty.
Proof.
  intros He Hc Ha Hk Hco Hd Hdc.
  assert (∀ key tbl, kv_map tbl = ∅ → index_repr key tbl (Spec.live Spec.empty)) as Hix.
  { intros key tbl E k. rewrite E, lookup_empty. split; [done|]. by intros (e & ?%no_live & _). }
  split; [done|..]; auto.
  - by intros e1 e2 ?%no_live.
  - by intros e ?%no_live.
  - intros i. by rewrite He.
  - intros k v. rewrite Hco, lookup_empty. split; [done|]. by intros (e & c & ?%no_live & _).
  - intros i. rewrite Hd, lookup_empty. split; [by intros []|set_solver].
  - intros c _. by rewrite Hdc.
Qed.

Lemma open_repr : Repr open Spec.empty.
Proof. apply empty_repr; apply kv_map_new. Qed.

Lemma retain_none {V} (tbl : T V) : kv_map (kv_retain tbl (λ _ _, false)) = ∅.
Proof. rewrite kv_map_retain. apply map_empty. intros k. rewrite map_lookup_filter. by destruct (_ !! k). Qed.

Lemma wipe_repr t : Repr (wipe t) Spec.empty.
Proof. apply empty_repr; apply retain_none. Qed.

Lemma check_id_repr t st i : Repr t st → check_id t i = Spec.check_id st i.
Proof.
  intros R. unfold check_id, Spec.check_id. rewrite (get_event t st i R), kv_map_get.
  destruct (Spec.live st !! i); simpl; [done|]. pose proof (r_dead_ids _ _ R i) as Hd.
  destruct (kv_map (deleted_ids t) !! bytes i) eqn:E.
  - rewrite decide_True; [done|]. by apply Hd.
  - rewrite decide_False; [done|]. intros Hin. apply Hd in Hin as [? ?]. congruence.
Qed.

(** *** Queries *)

(** The matching events of a list of candidates. *)
Definition found (st : Spec.t) (f : Filter) (ids : list EventId) : list Event :=
  omap (λ i, Spec.live st !! i ≫= λ e, if decide (matches f e) then Some e else None) ids.

Definition room (limit : option N) (n : nat) : option N :=
  (λ l, (l - N.of_nat n)%N) <$> limit.

Lemma take_room {A} limit (out : list A) x (rest : list A) :
  match limit with Some n => (n <=? N.of_nat (length out))%N | None => false end = false →
  out ++ take_limit (room limit (length out)) (x :: rest) =
  (out ++ [x]) ++ take_limit (room limit (length (out ++ [x]))) rest.
Proof.
  intros Hl. rewrite <-app_assoc. f_equal. rewrite length_app. simpl.
  destruct limit as [n|]; simpl; [|done]. apply N.leb_gt in Hl.
  replace (N.to_nat (n - N.of_nat (length out))) with
    (S (N.to_nat (n - N.of_nat (length out + 1)))) by lia. done.
Qed.

Lemma take_room_full {A} limit (out rest : list A) :
  match limit with Some n => (n <=? N.of_nat (length out))%N | None => false end = true →
  take_limit (room limit (length out)) rest = [].
Proof.
  destruct limit as [n|]; simpl; [|done]. intros Hn%N.leb_le.
  by replace (N.to_nat (n - N.of_nat (length out))) with 0%nat by lia.
Qed.

Lemma match_decoded t st i e f :
  Repr t st → Spec.live st !! i = Some e →
  Filter.match_event f (Codec.view_of e) match_options_default = bool_decide (matches f e).
Proof.
  intros R E. rewrite Codec.match_view.
  - apply eq_true_iff_eq. by rewrite bool_decide_eq_true.
  - by eapply r_ok, live_of_lookup.
Qed.

Lemma query_loop_ok t st f limit ids out :
  Repr t st →
  query_loop t f limit out ids =
    Ok (out ++ take_limit (room limit (length out)) (found st f ids)).
Proof.
  intros R. revert out. induction ids as [|i ids IH]; intros out; simpl.
  { unfold found. simpl. destruct limit; simpl; by rewrite ?take_nil, app_nil_r. }
  destruct (match limit with Some n => _ | None => false end) eqn:Hl.
  { by rewrite take_room_full, app_nil_r. }
  rewrite (get_event t st i R). unfold found. cbn [omap list_omap]. fold (found st f ids).
  destruct (Spec.live st !! i) as [e|] eqn:E; simpl; [|apply IH].
  destruct (decode_payload t st i e R E) as (Hd & _ & Hv). rewrite Hv. simpl.
  rewrite (match_decoded t st i e f R E). case_bool_decide as Hm; simpl.
  - rewrite Hd. simpl. rewrite IH. rewrite decide_True by done. by rewrite take_room.
  - rewrite decide_False by done. apply IH.
Qed.

Lemma query_found t st f :
  Repr t st → query t f = Ok (take_limit (Filter.limit f) (found st f (candidate_ids t f))).
Proof.
  intros R. unfold query. rewrite (query_loop_ok t st) by done. simpl.
  by destruct (Filter.limit f); simpl; rewrite ?N.sub_0_r.
Qed.

(** [count] and [negentropy_items] run the same loop. *)
Lemma count_loop_ok t f limit ids out :
  (∃ l, query_loop t f limit out ids = Ok l) →
  count_loop t f limit (N.of_nat (length out)) ids =
    match query_loop t f limit out ids with Ok l => Ok (N.of_nat (length l)) | Err e => Err e end.
Proof.
  revert out. induction ids as [|i ids IH]; intros out; simpl; [done|].
  destruct (match limit with Some n => _ | None => false end); [done|].
  destruct (kv_get (events t) (bytes i)) as [b|]; [|apply IH].
  destruct (Codec.decode_match_view b) as [v|]; simpl; [|done].
  destruct (Filter.match_event f v match_options_default); [|apply IH].
  destruct (Codec.decode b) as [e|]; simpl; [|by intros []].
  intros Hex. rewrite <-(IH (out ++ [e])) by done. f_equal. rewrite length_app. simpl. lia.
Qed.

Lemma negentropy_loop_ok t st f limit ids out :
  Repr t st →
  negentropy_loop t f limit ((λ e, (Event.id e, Event.created_at e)) <$> out) ids =
    Ok ((λ e, (Event.id e, Event.created_at e)) <$>
        (out ++ take_limit (room limit (length out)) (found st f ids))).
Proof.
  intros R. revert out. induction ids as [|i ids IH]; intros out; simpl.
  { unfold found. simpl. destruct limit; simpl; by rewrite ?take_nil, app_nil_r. }
  rewrite length_fmap.
  destruct (match limit with Some n => _ | None => false end) eqn:Hl.
  { by rewrite take_room_full, app_nil_r. }
  rewrite (get_event t st i R). unfold found. cbn [omap list_omap]. fold (found st f ids).
  destruct (Spec.live st !! i) as [e|] eqn:E; simpl; [|apply IH].
  destruct (decode_payload t st i e R E) as (Hd & _ & Hv). rewrite Hv. simpl.
  rewrite (match_decoded t st i e f R E). case_bool_decide as Hm; simpl.
  - rewrite decide_True by done. rewrite take_room by done. rewrite <-IH.
    rewrite fmap_app. simpl. by destruct e as [[] ? ? ? ? ? ?].
  - rewrite decide_False by done. apply IH.
Qed.

(** *** Candidates *)

Lemma id_of_key_ok (pre : list byte) n i :
  length pre = n → id_of_key n (pre ++ bytes i) = Some i.
Proof.
  intros Hn. unfold id_of_key. rewrite length_app, EventId.length_to_byte_array, Hn.
  change Keys.ID_LEN with 32%nat. rewrite Nat.eqb_refl. simpl.
  rewrite drop_app_length' by done. apply to_id_bytes.
Qed.

(** The ids of a scan whose entries are the keys of the live events with [P]. *)
Lemma elem_of_scan_ids n (key : Event → list byte) (P : Event → Prop) m entries i :
  (∀ e, id_of_key n (key e) = Some (Event.id e)) →
  (∀ k, (k, tt) ∈ entries ↔ ∃ e, live_in m e ∧ P e ∧ key e = k) →
  i ∈ scan_ids n entries ↔ ∃ e, live_in m e ∧ P e ∧ Event.id e = i.
Proof.
  intros Hid Hen. unfold scan_ids. rewrite elem_of_reverse, list_elem_of_omap. split.
  - intros ([k []] & Hin & E). apply Hen in Hin as (e & Hl & HP & <-). simpl in E.
    rewrite Hid in E. exists e. split_and!; auto. congruence.
  - intros (e & Hl & HP & <-). exists (key e, tt). split; [|apply Hid]. apply Hen. eauto.
Qed.

Lemma scan_author_elem t st pk k :
  Repr t st →
  let prefix := Keys.author_prefix pk in
  (k, tt) ∈ kv_range (by_author_ts t) prefix (Keys.upper_bound prefix) ↔
  ∃ e, live_in (Spec.live st) e ∧ Event.pubkey e = pk ∧ author_key e = k.
Proof.
  intros R. cbv zeta. rewrite kv_range_elem, (r_author _ _ R k).
  set (prefix := Keys.author_prefix pk).
  assert (length prefix = 32%nat) as Hp by apply PublicKey.pk_length_to_byte_array.
  assert (∀ e, Keys.in_scan prefix (author_key e) ↔ Event.pubkey e = pk) as Hscan.
  { intros e. rewrite Keys.in_scan_prefix.
    2:{ unfold author_key, Keys.by_author_ts. rewrite length_app, PublicKey.pk_length_to_byte_array. lia. }
    unfold author_key, Keys.by_author_ts, prefix, Keys.author_prefix. split.
    - intros [k' E]. apply app_inj_1 in E as [E _]; [|by rewrite !PublicKey.pk_length_to_byte_array].
      by apply PublicKey.pk_to_byte_array_inj in E.
    - intros <-. eauto. }
  change (bytes_le prefix k ∧ _) with (Keys.in_scan prefix k). split.
  - intros [(e & Hl & <-) Hs]. exists e. split_and!; auto. by apply Hscan.
  - intros (e & Hl & Hka & <-). split; [eauto|]. by apply Hscan.
Qed.

Lemma only_Some {A} (o : option (list A)) x : only o = Some x → o = Some [x].
Proof. destruct o as [[|? [|]]|]; try done. by intros [= ->]. Qed.

Definition kinds_in_range (f : Filter) : Prop :=
  ∀ ks, Filter.kinds f = Some ks → Forall (λ k, (k <= Dec.u16_max)%N) ks.

(** Every matching event is a candidate. *)
Lemma candidate_complete t st f e :
  Repr t st → kinds_in_range f → live_in (Spec.live st) e → matches f e →
  Event.id e ∈ candidate_ids t f.
Proof.
  intros R Hkr Hl Hm. apply Filter.match_event_default in Hm as Hsat.
  destruct Hsat as (Hids & Hau & Hki & _). unfold candidate_ids.
  assert (∀ a, only (Filter.authors f) = Some a → Event.pubkey e = a) as Hone_a.
  { intros a E%only_Some. specialize (Hau _ E) as (pk & Hin & Hb). simpl in Hb.
    apply list_elem_of_singleton in Hin as ->. by apply PublicKey.pk_to_byte_array_inj. }
  assert (∀ k, only (Filter.kinds f) = Some k → Event.kind e = k) as Hone_k.
  { intros k E%only_Some. specialize (Hki _ E). by apply list_elem_of_singleton in Hki. }
  assert (Filter.ids f = None ∨ Filter.ids f = Some [] ∨
          ∃ i l, Filter.ids f = Some (i :: l) ∧ Event.id e ∈ i :: l) as Hcases.
  { destruct (Filter.ids f) as [[|i l]|] eqn:E; auto. right. right. exists i, l. split; [done|].
    by apply (Hids (i :: l)). }
  assert (Event.id e ∈ match only (Filter.authors f), only (Filter.kinds f) with
    | Some author, Some kind => scan_kind_author (by_kind_author_ts t) kind author
    | Some author, None => scan_author (by_author_ts t) author
    | None, _ => scan_ids Keys.TS_LEN (kv_iter (by_created_at t)) end) as Hscan.
  { destruct (only (Filter.authors f)) as [a|] eqn:Ea;
      [destruct (only (Filter.kinds f)) as [k|] eqn:Ek|].
    - apply only_Some in Ek as Ek'. specialize (Hkr _ Ek'). inversion Hkr as [|? ? Hk _]; subst.
      eapply (elem_of_scan_ids _ kind_author_key (λ e, kind_author e = (k, a))).
      + intros x. unfold kind_author_key, Keys.by_kind_author_ts. rewrite !app_assoc.
        apply id_of_key_ok. rewrite !length_app, Keys.length_kind_be, Keys.length_ts_be.
        by rewrite PublicKey.pk_length_to_byte_array.
      + intros x. by apply (scan_kind_author_elem t st k a x).
      + exists e. split_and!; auto. unfold kind_author. by rewrite (Hone_a a), (Hone_k k).
    - eapply (elem_of_scan_ids _ author_key (λ e, Event.pubkey e = a)).
      + intros x. unfold author_key, Keys.by_author_ts. rewrite app_assoc.
        apply id_of_key_ok. by rewrite length_app, Keys.length_ts_be, PublicKey.pk_length_to_byte_array.
      + intros x. by apply (scan_author_elem t st a x).
      + exists e. split_and!; auto.
    - eapply (elem_of_scan_ids _ created_key (λ _, True)).
      + intros x. apply id_of_key_ok, Keys.length_ts_be.
      + intros x. rewrite kv_iter_elem, (r_created _ _ R x). naive_solver.
      + exists e. auto. }
  destruct Hcases as [->|[->|(i & l & -> & Hin)]]; done.
Qed.

Lemma elem_of_found t st f e :
  Repr t st → kinds_in_range f →
  e ∈ found st f (candidate_ids t f) ↔ live_in (Spec.live st) e ∧ matches f e.
Proof.
  intros R Hkr. unfold found. rewrite list_elem_of_omap. split.
  - intros (i & _ & E). destruct (Spec.live st !! i) as [x|] eqn:Ex; simpl in E; [|done].
    case_decide; [|done]. injection E as <-. split; [|done]. by eapply live_of_lookup.
  - intros [Hl Hm]. exists (Event.id e). split; [by eapply candidate_complete|].
    unfold live_in in Hl. rewrite Hl. simpl. by rewrite decide_True.
Qed.
End redb.

(** ** [Events::from_unsorted] *)

Lemma seen_fold l seen out :
  (∀ e, e ∈ out → Event.id e ∈ seen) → NoDup (Event.id <$> out) →
  (∀ i, i ∈ seen → ∃ e, e ∈ out ∧ Event.id e = i) →
  let r := foldl Events.seen_step (seen, out) l in
  NoDup (Event.id <$> r.2) ∧ (∀ e, e ∈ r.2 → e ∈ out ∨ e ∈ l) ∧
  (∀ e, e ∈ out ∨ e ∈ l → ∃ e', e' ∈ r.2 ∧ Event.id e' = Event.id e).
Proof.
  revert seen out. induction l as [|x l IH]; intros seen out Ho Hnd Hs; simpl.
  { split_and!; [done|auto|]. intros e [?|?]; [eauto|set_solver]. }
  unfold Events.seen_step at 2 4 6. simpl. case_decide as Hx.
  - destruct (IH seen out Ho Hnd Hs) as (H1 & H2 & H3). split_and!; [done| |].
    + intros e He. destruct (H2 e He); [by left|right; by right].
    + intros e [?|[-> |?]%elem_of_cons]; [apply H3; by left| |apply H3; by right].
      destruct (Hs _ Hx) as (e' & He' & Eid). destruct (H3 e') as (e'' & ? & ?); [by left|].
      exists e''. split; [done|]. congruence.
  - destruct (IH ({[Event.id x]} ∪ seen) (out ++ [x])) as (H1 & H2 & H3).
    + intros e [?| ->%list_elem_of_singleton]%elem_of_app; [|set_solver]. apply elem_of_union_r. by apply Ho.
    + rewrite fmap_app. apply NoDup_app. split_and!; [done| |apply NoDup_singleton].
      intros i Hi ->%list_elem_of_singleton. apply Hx.
      apply list_elem_of_fmap in Hi as (e & -> & He). by apply Ho.
    + intros i [ ->%elem_of_singleton|Hi]%elem_of_union; [exists x; set_solver|].
      destruct (Hs i Hi) as (e & He & <-). exists e. set_solver.
    + split_and!; [done| |].
      * intros e He. destruct (H2 e He) as [[?| ->%list_elem_of_singleton]%elem_of_app|?]; [by left|right; by left|right; by right].
      * intros e [?|[-> |?]%elem_of_cons]; apply H3; set_solver.
Qed.

(** The collection is the sorted list of the events given, when an id names one
    event. *)
Lemma from_unsorted_ok (l r : list Event) :
  StronglySorted event_le r → NoDup r → (∀ e, e ∈ l ↔ e ∈ r) →
  (∀ e1 e2, e1 ∈ r → e2 ∈ r → Event.id e1 = Event.id e2 → e1 = e2) →
  Events.from_unsorted l = r.
Proof.
  intros Hs Hnd Hel Hinj. unfold Events.from_unsorted.
  destruct (seen_fold l ∅ []) as (H1 & H2 & H3); [set_solver|apply NoDup_nil_2|set_solver|].
  set (out := (foldl Events.seen_step (∅, []) l).2) in *.
  assert (∀ e, e ∈ out ↔ e ∈ r) as Hout.
  { intros e. rewrite <-Hel. split; [intros He; destruct (H2 e He); [set_solver|done]|].
    intros He. destruct (H3 e) as (e' & He' & Eid); [by right|].
    assert (e' = e) as <-; [|done]. apply Hinj; [..|done]; apply Hel; [|done].
    destruct (H2 e' He'); [set_solver|done]. }
  apply sorted_list_unique.
  - apply Sorted_StronglySorted; [apply _|]. apply Sorted_merge_sort; apply _.
  - done.
  - rewrite merge_sort_Permutation. by eapply NoDup_fmap_1.
  - done.
  - intros e. rewrite merge_sort_Permutation. apply Hout.
  - intros e1 e2. rewrite !merge_sort_Permutation, !Hout. apply Hinj.
Qed.
