(* ===== verification/Memory.v ===== *)
(** * The in-memory backend

    [crates/nula-storage/src/memory/]: [store.rs] (the indexes and the write
    rules), [query.rs] (the choice of an index) and [options.rs].

    [HashMap]/[HashSet] are [gmap]/[gset]; [BTreeMap]/[BTreeSet] are the same
    with the iteration order of [EventKey.le] ([btree_iter], [btree_values]).
    [Arc<Event>] is the event: the store never mutates an event in place. *)

From Stdlib Require Import Ascii NArith Lia.
From S2P Require Import Prelude Encoding Text Ids Tags Event Filter Storage.

(** ** Options *)

Record MemoryDatabaseOptions := mkMemOptions {
  opt_max_events : option N;
  opt_process_nip09 : bool;
  opt_process_nip62 : bool;
}.
Definition mem_options_new : MemoryDatabaseOptions := mkMemOptions None true true.
Definition with_max_events (o : MemoryDatabaseOptions) (m : option N) : MemoryDatabaseOptions :=
  mkMemOptions m (opt_process_nip09 o) (opt_process_nip62 o).
Definition with_process_nip09 (o : MemoryDatabaseOptions) (b : bool) : MemoryDatabaseOptions :=
  mkMemOptions (opt_max_events o) b (opt_process_nip62 o).
Definition with_process_nip62 (o : MemoryDatabaseOptions) (b : bool) : MemoryDatabaseOptions :=
  mkMemOptions (opt_max_events o) (opt_process_nip09 o) b.

(** ** Query planning *)

Inductive QueryPattern :=
| PatAuthor (pk : PublicKey)
| PatKindAuthor (kind : Kind) (pk : PublicKey)
| PatCoordinate (kind : Kind) (author : PublicKey) (identifier : string)
| PatGeneric.

Definition single_letter_d : SingleLetterTag := SingleLetterTag.lowercase Alphabet.D.

(** [impl From<&Filter> for QueryPattern]. *)
Definition query_pattern (f : Filter) : QueryPattern :=
  if match Filter.ids f with Some (_ :: _) => true | _ => false end then PatGeneric
  else match Filter.search f with
  | Some _ => PatGeneric
  | None =>
    let authors_len := default 0%nat (length <$> Filter.authors f) in
    let kinds_len := default 0%nat (length <$> Filter.kinds f) in
    let first_author := Filter.authors f ≫= head in
    let first_kind := Filter.kinds f ≫= head in
    let identifier :=
      IndexMap.get (Filter.generic_tags f) single_letter_d ≫= λ values,
        if (length values =? 1)%nat then head values else None in
    let other_tags :=
      (length (Filter.generic_tags f) -
       (if IndexMap.get (Filter.generic_tags f) single_letter_d is Some _ then 1 else 0))%nat in
    match authors_len, kinds_len, first_author, first_kind, identifier with
    | 1%nat, 1%nat, Some author, Some kind, Some d =>
        if Kind.is_addressable kind && (other_tags =? 0)%nat
        then PatCoordinate kind author d else PatGeneric
    | 1%nat, 1%nat, Some author, Some kind, None =>
        if (other_tags =? 0)%nat then PatKindAuthor kind author else PatGeneric
    | 1%nat, 0%nat, Some author, None, None =>
        if (other_tags =? 0)%nat then PatAuthor author else PatGeneric
    | _, _, _, _, _ => PatGeneric
    end
  end.

(** ** The store *)

Record MemoryStore := mkStore {
  options : MemoryDatabaseOptions;
  by_id : gmap EventId Event;
  by_time : gmap EventKey Event;
  by_author : gmap PublicKey (gset EventKey);
  by_kind_author : gmap (N * PublicKey) (gset EventKey);
  by_coordinate : gmap CoordKey Event;
  deleted_ids : gset EventId;
  deleted_coordinates : gmap CoordKey Timestamp;
  vanished_authors : gset PublicKey;
}.

Definition new (o : MemoryDatabaseOptions) : MemoryStore := mkStore o ∅ ∅ ∅ ∅ ∅ ∅ ∅ ∅.

Definition wipe (s : MemoryStore) : MemoryStore := mkStore (options s) ∅ ∅ ∅ ∅ ∅ ∅ ∅ ∅.

(** Replace the indexes / the tombstones / the vanished set. *)
Definition set_indexes (s : MemoryStore) bi bt ba bka bc : MemoryStore :=
  mkStore (options s) bi bt ba bka bc (deleted_ids s) (deleted_coordinates s) (vanished_authors s).
Definition set_deleted_ids (s : MemoryStore) d : MemoryStore :=
  mkStore (options s) (by_id s) (by_time s) (by_author s) (by_kind_author s) (by_coordinate s)
    d (deleted_coordinates s) (vanished_authors s).
Definition set_deleted_coordinates (s : MemoryStore) d : MemoryStore :=
  mkStore (options s) (by_id s) (by_time s) (by_author s) (by_kind_author s) (by_coordinate s)
    (deleted_ids s) d (vanished_authors s).
Definition set_vanished (s : MemoryStore) v : MemoryStore :=
  mkStore (options s) (by_id s) (by_time s) (by_author s) (by_kind_author s) (by_coordinate s)
    (deleted_ids s) (deleted_coordinates s) v.

Definition check_id (s : MemoryStore) (id : EventId) : DatabaseEventStatus :=
  if decide (is_Some (by_id s !! id)) then DbStatus.Saved
  else if decide (id ∈ deleted_ids s) then DbStatus.Deleted
  else DbStatus.NotExistent.

Definition event_by_id (s : MemoryStore) (id : EventId) : option Event := by_id s !! id.

Definition len (s : MemoryStore) : nat := size (by_id s).

(** [map.entry(k).or_default().insert(x)]. *)
Definition index_insert {K} `{Countable K} (m : gmap K (gset EventKey)) (k : K) (x : EventKey) :
    gmap K (gset EventKey) :=
  <[k := {[x]} ∪ default ∅ (m !! k)]> m.

(** [if let Some(set) = map.get_mut(&k) { set.remove(&x); if set.is_empty() { map.remove(&k) } }]. *)
Definition index_remove {K} `{Countable K} (m : gmap K (gset EventKey)) (k : K) (x : EventKey) :
    gmap K (gset EventKey) :=
  match m !! k with
  | None => m
  | Some set =>
      let set := set ∖ {[x]} in
      if decide (set = ∅) then delete k m else <[k := set]> m
  end.

Definition insert_event (s : MemoryStore) (event : Event) : MemoryStore :=
  let key := EventKey.from_event event in
  let kind := Event.kind event in
  let author := Event.pubkey event in
  let bc := match addressable_coord event with
            | Some coord => <[coord := event]> (by_coordinate s)
            | None => by_coordinate s
            end in
  set_indexes s
    (<[Event.id event := event]> (by_id s))
    (<[key := event]> (by_time s))
    (index_insert (by_author s) author key)
    (index_insert (by_kind_author s) (kind, author) key)
    bc.

Definition remove_event_by_id (s : MemoryStore) (id : EventId) : MemoryStore :=
  match by_id s !! id with
  | None => s
  | Some event =>
      let key := EventKey.from_event event in
      let kind := Event.kind event in
      let author := Event.pubkey event in
      let bc := match addressable_coord event with
                | Some coord =>
                    match by_coordinate s !! coord with
                    | Some winner =>
                        if decide (Event.id winner = id) then delete coord (by_coordinate s)
                        else by_coordinate s
                    | None => by_coordinate s
                    end
                | None => by_coordinate s
                end in
      set_indexes s (delete id (by_id s)) (delete key (by_time s))
        (index_remove (by_author s) author key)
        (index_remove (by_kind_author s) (kind, author) key)
        bc
  end.

Definition resolve_replaceable (s : MemoryStore) (event : Event) : option EventId :=
  set ← by_kind_author s !! (Event.kind event, Event.pubkey event);
  k ← head (btree_iter EventKey.le set);
  incumbent ← by_id s !! EventKey.id k;
  Some (pick_loser incumbent event).

Definition resolve_addressable (s : MemoryStore) (event : Event) : option EventId :=
  coord ← addressable_coord event;
  incumbent ← by_coordinate s !! coord;
  Some (pick_loser incumbent event).

Section store.
Context `{FasterHex, Secp256k1}.

(** The body of [for id in request.event_ids]. *)
Definition delete_id_step (event : Event) (s : MemoryStore) (id : EventId) : MemoryStore :=
  match by_id s !! id with
  | Some target =>
      if decide (Event.pubkey target = Event.pubkey event) then
        let s := remove_event_by_id s id in
        set_deleted_ids s ({[id]} ∪ deleted_ids s)
      else s
  | None => set_deleted_ids s ({[id]} ∪ deleted_ids s)
  end.

(** The body of [for coord in request.coordinates]. *)
Definition delete_coord_step (event : Event) (s : MemoryStore) (coord : Coordinate) : MemoryStore :=
  if negb (bool_decide (Coordinate.author coord = Event.pubkey event)) then s
  else
    let key := (Coordinate.kind coord, Coordinate.author coord, Coordinate.identifier coord) in
    let s := match by_coordinate s !! key with
             | Some incumbent =>
                 if (Event.created_at incumbent <=? Event.created_at event)%N
                 then remove_event_by_id s (Event.id incumbent) else s
             | None => s
             end in
    let stamp := default (Event.created_at event) (deleted_coordinates s !! key) in
    let stamp := if (stamp <? Event.created_at event)%N then Event.created_at event else stamp in
    set_deleted_coordinates s (<[key := stamp]> (deleted_coordinates s)).

Definition apply_deletion (s : MemoryStore) (event : Event) : MemoryStore :=
  match Nip09.from_event event with
  | Err _ => s
  | Ok request =>
      let s := foldl (delete_id_step event) s (Nip09.event_ids request) in
      foldl (delete_coord_step event) s (Nip09.coordinates request)
  end.

Definition apply_vanish (s : MemoryStore) (author : PublicKey) : MemoryStore :=
  let s := set_vanished s ({[author]} ∪ vanished_authors s) in
  let ids := match by_author s !! author with
             | Some set => EventKey.id <$> btree_iter EventKey.le set
             | None => []
             end in
  foldl remove_event_by_id s ids.

(** The [while] loop of [enforce_capacity]; [fuel] bounds its iterations. *)
Fixpoint evict_loop (fuel : nat) (max : N) (s : MemoryStore) : MemoryStore :=
  match fuel with
  | O => s
  | S fuel' =>
      if (max <? N.of_nat (size (by_id s)))%N then
        match last (btree_iter EventKey.le (dom (by_time s))) with
        | None => s
        | Some key => evict_loop fuel' max (remove_event_by_id s (EventKey.id key))
        end
      else s
  end.

Definition enforce_capacity (s : MemoryStore) : MemoryStore :=
  match opt_max_events (options s) with
  | None => s
  | Some max => evict_loop (S (size (by_id s))) max s
  end.

Definition save_event (s : MemoryStore) (event : Event) (now : Timestamp) :
    SaveEventStatus * MemoryStore :=
  (* 1. vanished author *)
  if opt_process_nip62 (options s) && bool_decide (Event.pubkey event ∈ vanished_authors s)
  then (Rejected Vanished, s)
  (* 2. ephemeral kind *)
  else if Kind.is_ephemeral (Event.kind event) then (Rejected Ephemeral, s)
  (* 3. NIP-40 *)
  else if bool_decide (Nip40.is_expired event now = Ok true) then (Rejected Expired, s)
  (* 4. deleted id *)
  else if bool_decide (Event.id event ∈ deleted_ids s) then (Rejected Deleted, s)
  (* 5. deleted coordinate *)
  else if match addressable_coord event ≫= λ c, deleted_coordinates s !! c with
          | Some deleted_at => (Event.created_at event <=? deleted_at)%N
          | None => false
          end then (Rejected Deleted, s)
  (* 6. duplicate *)
  else if bool_decide (is_Some (by_id s !! Event.id event)) then (Rejected Duplicate, s)
  else
    (* 7. replaceable / addressable conflict *)
    let loser :=
      match (if Kind.is_replaceable (Event.kind event) then resolve_replaceable s event else None) with
      | Some l => Some l
      | None => if Kind.is_addressable (Event.kind event) then resolve_addressable s event else None
      end in
    if bool_decide (loser = Some (Event.id event)) then (Rejected Replaced, s)
    else
      let s := match loser with Some l => remove_event_by_id s l | None => s end in
      (* 8. NIP-09 *)
      let s := if opt_process_nip09 (options s) && (Event.kind event =? Kind.EVENT_DELETION)%N
               then apply_deletion s event else s in
      (* 9. NIP-62 *)
      let s := if opt_process_nip62 (options s) && (Event.kind event =? Kind.REQUEST_TO_VANISH)%N
               then apply_vanish s (Event.pubkey event) else s in
      (* 10. insert; 11. capacity *)
      (Success, enforce_capacity (insert_event s event)).
End store.

(** *** Queries *)

(** The closure [materialise]. *)
Definition materialise (f : Filter) (evs : list Event) : list EventKey :=
  EventKey.from_event <$> take_limit (Filter.limit f) (filter (matches f) evs).

Definition query_keys (s : MemoryStore) (f : Filter) : list EventKey :=
  match query_pattern f with
  | PatGeneric => materialise f (btree_values EventKey.le (by_time s))
  | PatAuthor pk =>
      match by_author s !! pk with
      | Some keys =>
          materialise f (omap (λ k, by_id s !! EventKey.id k) (btree_iter EventKey.le keys))
      | None => []
      end
  | PatKindAuthor kind pk =>
      match by_kind_author s !! (kind, pk) with
      | Some keys =>
          materialise f (omap (λ k, by_id s !! EventKey.id k) (btree_iter EventKey.le keys))
      | None => []
      end
  | PatCoordinate kind author identifier =>
      match by_coordinate s !! (kind, author, identifier) with
      | Some e => if decide (matches f e) then [EventKey.from_event e] else []
      | None => []
      end
  end.

Definition query_owned (s : MemoryStore) (f : Filter) : list Event :=
  omap (λ k, by_id s !! EventKey.id k) (query_keys s f).

Definition count (s : MemoryStore) (f : Filter) : nat := length (query_keys s f).

Definition delete_matching (s : MemoryStore) (f : Filter) : MemoryStore :=
  foldl remove_event_by_id s (EventKey.id <$> query_keys s f).

(** *** The database handle ([database.rs]) and its extension methods ([ext.rs]) *)

Definition db_query (s : MemoryStore) (f : Filter) : list Event := Events.from_sorted (query_owned s f).

Definition negentropy_items (s : MemoryStore) (f : Filter) : list (EventId * Timestamp) :=
  (λ e, (Event.id e, Event.created_at e)) <$> db_query s f.

Definition latest_of_kind (s : MemoryStore) (pk : PublicKey) (kind : Kind) : option Event :=
  Events.first (db_query s
    (Filter.with_limit (Filter.add_kind (Filter.add_author Filter.new pk) kind) 1)).
Definition relay_list_event (s : MemoryStore) (pk : PublicKey) : option Event :=
  latest_of_kind s pk Kind.RELAY_LIST.
Definition contact_list_event (s : MemoryStore) (pk : PublicKey) : option Event :=
  latest_of_kind s pk Kind.CONTACTS.
