(* ===== verification/MemoryProofs.v ===== *)
(** * The in-memory backend: invariant and refinement

    The index invariant of [MemoryStore], its preservation by every operation,
    and the proof that the store refines the abstract store of [Storage.Spec]:
    [save_event] gives the abstract outcome and the abstract next state, and a
    query through any index gives the abstract answer. *)

From Stdlib Require Import Ascii NArith Lia.
From S2P Require Import Prelude Encoding Text Ids Tags Event Filter Storage SpecProofs Memory.

(** ** Secondary indexes *)

(** [ix] groups the keys of the live events by [f], without empty groups. *)
Definition index_of {K} `{Countable K} (f : Event → K) (ix : gmap K (gset EventKey))
    (m : gmap EventId Event) : Prop :=
  (∀ a k, k ∈ default ∅ (ix !! a) ↔ ∃ e, live_in m e ∧ f e = a ∧ EventKey.from_event e = k) ∧
  (∀ a, ix !! a ≠ Some ∅).

Lemma key_id_eq e e' : EventKey.from_event e = EventKey.from_event e' → Event.id e = Event.id e'.
Proof. by intros [=]. Qed.

Section index.
Context {K : Type} `{Countable K} (f : Event → K).

Lemma index_insert_ok ix m e :
  index_of f ix m → m !! Event.id e = None →
  index_of f (index_insert ix (f e) (EventKey.from_event e)) (<[Event.id e := e]> m).
Proof.
  intros [Hix Hne] Hnew. split.
  - intros a k. unfold index_insert. rewrite lookup_insert.
    setoid_rewrite live_in_insert. case_decide as E.
    + subst a. simpl. rewrite elem_of_union, elem_of_singleton, Hix. split.
      * intros [->|(e' & Hl & Hf & Hk)]; [by exists e; auto|].
        exists e'. split_and!; auto. right. split; [|done].
        intros E. unfold live_in in Hl. congruence.
      * intros (e' & [->|[_ Hl]] & Hf & Hk); [by left|right; eauto].
    + rewrite Hix. split.
      * intros (e' & Hl & Hf & Hk). exists e'. split_and!; auto. right. split; [|done].
        intros E'. unfold live_in in Hl. congruence.
      * intros (e' & [->|[_ Hl]] & Hf & Hk); [done|eauto].
  - intros a. unfold index_insert. rewrite lookup_insert. case_decide; [|done].
    intros [= E]. set_solver.
Qed.

Lemma index_remove_ok ix m e :
  index_of f ix m → live_in m e →
  index_of f (index_remove ix (f e) (EventKey.from_event e)) (delete (Event.id e) m).
Proof.
  intros [Hix Hne] Hl.
  assert (∀ e', live_in m e' → EventKey.from_event e' = EventKey.from_event e ↔
                Event.id e' = Event.id e) as Hkey.
  { intros e' Hl'. split; [apply key_id_eq|]. intros E. unfold live_in in *. congruence. }
  assert (EventKey.from_event e ∈ default ∅ (ix !! f e)) as Hin by (apply Hix; eauto).
  unfold index_remove. destruct (ix !! f e) as [set|] eqn:Eix; [|set_solver]. simpl in Hin.
  assert (∀ k, k ∈ set ∖ {[EventKey.from_event e]} ↔
    ∃ e', live_in (delete (Event.id e) m) e' ∧ f e' = f e ∧ EventKey.from_event e' = k) as Hset.
  { intros k. rewrite elem_of_difference, not_elem_of_singleton.
    specialize (Hix (f e) k). rewrite Eix in Hix. simpl in Hix. rewrite Hix.
    setoid_rewrite live_in_delete. split.
    - intros [(e' & Hl' & Hf & Hk) Hn]. exists e'. split_and!; auto.
      intros E. apply Hn. rewrite <-Hk. by apply Hkey.
    - intros (e' & [Hn Hl'] & Hf & Hk). split; [eauto|]. intros ->. by apply Hn, Hkey. }
  assert (∀ a k, a ≠ f e → k ∈ default ∅ (ix !! a) ↔
    ∃ e', live_in (delete (Event.id e) m) e' ∧ f e' = a ∧ EventKey.from_event e' = k) as Hother.
  { intros a k Ha. rewrite Hix. setoid_rewrite live_in_delete. split.
    - intros (e' & Hl' & Hf & Hk). exists e'. split_and!; auto.
      intros E. unfold live_in in *. congruence.
    - intros (e' & [_ Hl'] & Hf & Hk). eauto. }
  case_decide as Hempty; split.
  - intros a k. rewrite lookup_delete. case_decide as E; [subst a; simpl|by apply Hother].
    rewrite <-Hset, Hempty. set_solver.
  - intros a. rewrite lookup_delete. by case_decide.
  - intros a k. rewrite lookup_insert. case_decide as E; [subst a; simpl|by apply Hother].
    apply Hset.
  - intros a. rewrite lookup_insert. case_decide; [congruence|done].
Qed.
End index.

(** ** The invariant *)

Abbreviation live s := (live_in (by_id s)).

Record Indexed (s : MemoryStore) : Prop := {
  ix_id : keyed (by_id s);
  ix_time : ∀ k e, by_time s !! k = Some e ↔ live s e ∧ EventKey.from_event e = k;
  ix_author : index_of Event.pubkey (by_author s) (by_id s);
  ix_kind_author : index_of kind_author (by_kind_author s) (by_id s);
  ix_coordinate : ∀ c e, by_coordinate s !! c = Some e ↔ live s e ∧ addressable_coord e = Some c;
}.

Record Inv (s : MemoryStore) : Prop := {
  inv_indexed : Indexed s;
  inv_slots : UniqueSlots (by_id s);
  inv_ephemeral : ∀ e, live s e → Kind.is_ephemeral (Event.kind e) = false;
}.

Lemma Indexed_empty o d dc v : Indexed (mkStore o ∅ ∅ ∅ ∅ ∅ d dc v).
Proof.
  split; simpl.
  - by intros i e.
  - intros k e. unfold live_in. rewrite !lookup_empty. naive_solver.
  - split; [|done]. intros a k. unfold live_in. rewrite lookup_empty; simpl. set_solver.
  - split; [|done]. intros a k. unfold live_in. rewrite lookup_empty; simpl. set_solver.
  - intros c e. unfold live_in. rewrite !lookup_empty. naive_solver.
Qed.

Lemma Inv_empty o d dc v : Inv (mkStore o ∅ ∅ ∅ ∅ ∅ d dc v).
Proof.
  split; [apply Indexed_empty|..].
  - intros e1 e2. unfold live_in; simpl. by rewrite lookup_empty.
  - intros e. unfold live_in; simpl. by rewrite lookup_empty.
Qed.

(** Changes that do not touch the indexes. *)
Lemma Indexed_tombstones s o d dc v :
  Indexed s →
  Indexed (mkStore o (by_id s) (by_time s) (by_author s) (by_kind_author s) (by_coordinate s) d dc v).
Proof. intros [? ? ? ? ?]. by split. Qed.

Lemma Indexed_insert s e :
  Indexed s → by_id s !! Event.id e = None →
  (∀ c, addressable_coord e = Some c → by_coordinate s !! c = None) →
  Indexed (insert_event s e).
Proof.
  intros [Hid Ht Ha Hka Hc] Hnew Hfree. split; simpl.
  - intros i e'. rewrite lookup_insert. case_decide; [naive_solver|apply Hid].
  - intros k e'. rewrite lookup_insert, live_in_insert. case_decide as E.
    + split; [intros [= ->]; auto|]. intros [[->|[Hn _]] Hk]; [done|].
      exfalso. apply Hn, key_id_eq. congruence.
    + rewrite Ht. split.
      * intros [Hl Hk]. split; [right; split; [|done]|done].
        intros E'. unfold live_in in Hl. congruence.
      * intros [[->|[_ Hl]] Hk]; [done|auto].
  - by apply index_insert_ok.
  - by apply (index_insert_ok kind_author).
  - intros c e'. rewrite live_in_insert. destruct (addressable_coord e) as [c0|] eqn:Ec.
    + rewrite lookup_insert. case_decide as E.
      * subst c0. split; [intros [= ->]; auto|]. intros [[->|[_ Hl]] Hk]; [done|].
        assert (by_coordinate s !! c = Some e') by by apply Hc.
        by rewrite Hfree in H.
      * rewrite Hc. split.
        -- intros [Hl Hk]. split; [right; split; [|done]|done].
           intros E'. unfold live_in in Hl. congruence.
        -- intros [[->|[_ Hl]] Hk]; [congruence|auto].
    + rewrite Hc. split.
      * intros [Hl Hk]. split; [right; split; [|done]|done].
        intros E'. unfold live_in in Hl. congruence.
      * intros [[->|[_ Hl]] Hk]; [congruence|auto].
Qed.

Lemma by_id_remove s i : by_id (remove_event_by_id s i) = delete i (by_id s).
Proof.
  unfold remove_event_by_id. destruct (by_id s !! i) as [e|] eqn:E; [done|].
  symmetry. by apply delete_id.
Qed.

(** [remove_event_by_id] leaves everything but the indexes alone. *)
Lemma remove_frame s i :
  options (remove_event_by_id s i) = options s ∧
  deleted_ids (remove_event_by_id s i) = deleted_ids s ∧
  deleted_coordinates (remove_event_by_id s i) = deleted_coordinates s ∧
  vanished_authors (remove_event_by_id s i) = vanished_authors s.
Proof. unfold remove_event_by_id. by destruct (by_id s !! i). Qed.

Lemma Indexed_remove s i : Indexed s → Indexed (remove_event_by_id s i).
Proof.
  intros HI. pose proof HI as [Hid Ht Ha Hka Hc].
  unfold remove_event_by_id. destruct (by_id s !! i) as [e|] eqn:El; [|done].
  pose proof (Hid _ _ El) as <-.
  split; simpl.
  - intros j e'. rewrite lookup_delete. case_decide; [done|apply Hid].
  - intros k e'. rewrite lookup_delete, live_in_delete. case_decide as E.
    + split; [done|]. intros [[Hn _] Hk]. exfalso. apply Hn, key_id_eq. congruence.
    + rewrite Ht. split; [|naive_solver]. intros [Hl Hk]. split_and!; auto.
      intros E'. unfold live_in in Hl. congruence.
  - by apply index_remove_ok.
  - by apply (index_remove_ok kind_author).
  - intros c e'. rewrite live_in_delete.
    assert (∀ c', c' = c → addressable_coord e ≠ Some c' →
      by_coordinate s !! c = Some e' ↔
      (Event.id e' ≠ Event.id e ∧ live s e') ∧ addressable_coord e' = Some c) as Hsame.
    { intros c' -> Hne. rewrite Hc. split; [|naive_solver]. intros [Hl Hk]. split_and!; auto.
      intros E'. unfold live_in in Hl. congruence. }
    destruct (addressable_coord e) as [c0|] eqn:Ec; [|by apply (Hsame c)].
    rewrite (proj2 (Hc c0 e)) by done. rewrite decide_True by done.
    rewrite lookup_delete. case_decide as E; [subst c0|by apply (Hsame c); congruence].
    split; [done|]. intros [[Hn Hl] Hk].
    assert (by_coordinate s !! c = Some e') as E1 by by apply Hc.
    assert (by_coordinate s !! c = Some e) as E2 by by apply Hc. congruence.
Qed.

Lemma Inv_remove s i : Inv s → Inv (remove_event_by_id s i).
Proof.
  intros [Hix Hu He]. split; [by apply Indexed_remove|..]; rewrite by_id_remove.
  - eapply UniqueSlots_sub; [done|]. apply delete_subseteq.
  - intros e [_ Hl]%live_in_delete. auto.
Qed.

(** ** Iterating an index *)

Lemma sorted_keys (l : list Event) :
  StronglySorted event_le l → StronglySorted EventKey.le (EventKey.from_event <$> l).
Proof. intros Hs. eapply StronglySorted_fmap; [|done]. by intros x y Hxy. Qed.

Lemma NoDup_keys m (l : list Event) :
  keyed m → (∀ e, e ∈ l → live_in m e) → NoDup l → NoDup (EventKey.from_event <$> l).
Proof.
  intros Hk Hl Hnd. apply NoDup_fmap_2_strong; [|done].
  intros x y Hx%Hl Hy%Hl E%key_id_eq. unfold live_in in *. congruence.
Qed.

Lemma omap_keys_by_id m (l : list Event) :
  (∀ e, e ∈ l → live_in m e) → omap (λ k, m !! EventKey.id k) (EventKey.from_event <$> l) = l.
Proof.
  induction l as [|e l IH]; intros Hl; [done|]. csimpl.
  assert (m !! Event.id e = Some e) as -> by (apply (Hl e); set_solver).
  f_equal. apply IH. set_solver.
Qed.

(** Iterating a group of an index visits the live events of that group in
    result order. *)
Lemma index_iter {K} `{Countable K} (f : Event → K) ix m a :
  keyed m → index_of f ix m →
  btree_iter EventKey.le (default ∅ (ix !! a)) =
    EventKey.from_event <$> filter (λ e, f e = a) (sorted_events m).
Proof.
  intros Hk [Hix _]. symmetry. apply btree_iter_unique; [apply _..| | |].
  - apply sorted_keys. eapply StronglySorted_sublist; [apply filter_sublist_of|].
    apply StronglySorted_sorted_events.
  - eapply NoDup_keys; [done| |by apply NoDup_filter, NoDup_sorted_events].
    intros e [_ He]%list_elem_of_filter. by apply elem_of_sorted_events in He.
  - intros k. rewrite Hix, list_elem_of_fmap. split.
    + intros (e & -> & [Hf He]%list_elem_of_filter).
      apply elem_of_sorted_events in He; [|done]. eauto.
    + intros (e & Hl & Hf & <-). exists e. split; [done|].
      apply list_elem_of_filter. split; [done|]. by apply elem_of_sorted_events.
Qed.

Lemma time_iter s :
  Indexed s →
  btree_iter EventKey.le (dom (by_time s)) = EventKey.from_event <$> sorted_events (by_id s).
Proof.
  intros HI. pose proof (ix_id s HI) as Hk. symmetry. apply btree_iter_unique; [apply _..| | |].
  - apply sorted_keys, StronglySorted_sorted_events.
  - eapply NoDup_keys; [done| |by apply NoDup_sorted_events].
    intros e He. by apply elem_of_sorted_events in He.
  - intros k. rewrite elem_of_dom, list_elem_of_fmap. split.
    + intros (e & -> & He). apply elem_of_sorted_events in He; [|done].
      exists e. by apply (ix_time s HI).
    + intros [e [Hl <-]%(ix_time s HI)]. exists e. split; [done|].
      by apply elem_of_sorted_events.
Qed.

Lemma time_values s :
  Indexed s → btree_values EventKey.le (by_time s) = sorted_events (by_id s).
Proof.
  intros HI. unfold btree_values. rewrite time_iter by done.
  assert (∀ l : list Event, (∀ e, e ∈ l → live s e) →
    omap (λ k, by_time s !! k) (EventKey.from_event <$> l) = l) as Haux.
  { induction l as [|e l IH]; intros Hl; [done|]. csimpl.
    rewrite (proj2 (ix_time s HI (EventKey.from_event e) e)) by (split; [apply Hl; set_solver|done]).
    f_equal. apply IH. set_solver. }
  apply Haux. intros e He. apply elem_of_sorted_events in He; [done|by apply ix_id].
Qed.

(** ** Queries *)

(** Filters that name one author (and one kind) only match events of the group. *)
Lemma matches_author f e a : Filter.authors f = Some [a] → matches f e → Event.pubkey e = a.
Proof.
  intros Ha Hm. apply Filter.match_event_default in Hm as (_ & Hau & _).
  destruct (Hau _ Ha) as (a' & ->%list_elem_of_singleton & E).
  symmetry. by apply PublicKey.pk_to_byte_array_inj.
Qed.

Lemma matches_kind f e k : Filter.kinds f = Some [k] → matches f e → Event.kind e = k.
Proof.
  intros Hk Hm. apply Filter.match_event_default in Hm as (_ & _ & Hks & _).
  by apply list_elem_of_singleton, Hks.
Qed.

Lemma filter_filter_sub {A} (P Q : A → Prop) `{!∀ x, Decision (P x), !∀ x, Decision (Q x)} (l : list A) :
  (∀ x, x ∈ l → P x → Q x) → filter P (filter Q l) = filter P l.
Proof.
  induction l as [|x l IH]; intros HPQ; [done|].
  rewrite (filter_cons Q), (filter_cons P).
  assert (filter P (filter Q l) = filter P l) as IH' by (apply IH; set_solver).
  destruct (decide (Q x)) as [HQ|HQ].
  - rewrite filter_cons, IH'. done.
  - rewrite decide_False, IH'; [done|]. intros HP. apply HQ, HPQ; [set_solver|done].
Qed.

(** What the pattern says about the filter. *)
Lemma query_pattern_author f a :
  query_pattern f = PatAuthor a → Filter.authors f = Some [a].
Proof.
  unfold query_pattern. intros Hp.
  destruct (Filter.authors f) as [[|a' [|]]|]; simpl in *; split_matches; done.
Qed.

Lemma query_pattern_kind_author f k a :
  query_pattern f = PatKindAuthor k a → Filter.authors f = Some [a] ∧ Filter.kinds f = Some [k].
Proof.
  unfold query_pattern. intros Hp.
  destruct (Filter.authors f) as [[|a' [|]]|]; simpl in *;
  destruct (Filter.kinds f) as [[|k' [|]]|]; simpl in *; split_matches; done.
Qed.

Lemma query_pattern_coordinate f k a d :
  query_pattern f = PatCoordinate k a d →
  Filter.authors f = Some [a] ∧ Filter.kinds f = Some [k] ∧ Kind.is_addressable k = true ∧
  IndexMap.get (Filter.generic_tags f) single_letter_d = Some [d].
Proof.
  unfold query_pattern. intros Hp.
  destruct (Filter.authors f) as [[|a' [|]]|]; simpl in *;
  destruct (Filter.kinds f) as [[|k' [|]]|]; simpl in *;
  destruct (IndexMap.get _ _) as [[|d' [|]]|] eqn:Ed; simpl in *; split_matches; reflect_bools; done.
Qed.

Lemma query_indexed {K} `{Countable K} (g : Event → K) ix s f a :
  Indexed s → index_of g ix (by_id s) → (∀ e, matches f e → g e = a) →
  match ix !! a with
  | Some keys => materialise f (omap (λ k, by_id s !! EventKey.id k) (btree_iter EventKey.le keys))
  | None => []
  end = EventKey.from_event <$> query_ref (by_id s) f.
Proof.
  intros HI Hix Hg. pose proof (ix_id s HI) as Hk.
  assert (materialise f (omap (λ k, by_id s !! EventKey.id k)
            (btree_iter EventKey.le (default ∅ (ix !! a)))) =
          EventKey.from_event <$> query_ref (by_id s) f) as Hq.
  { rewrite (index_iter g ix (by_id s) a) by done. rewrite omap_keys_by_id.
    - unfold materialise, query_ref. rewrite filter_filter_sub; [done|]. intros e _. apply Hg.
    - intros e [_ He]%list_elem_of_filter. by apply elem_of_sorted_events in He. }
  destruct (ix !! a) as [keys|]; [done|]. rewrite <-Hq. simpl.
  unfold btree_iter. rewrite elements_empty. unfold materialise, take_limit. simpl.
  destruct (Filter.limit f) as [n|]; [|done]. by destruct (N.to_nat n).
Qed.

(** Every event at a coordinate exposes exactly its identifier as [d] values. *)
Definition single_d (m : gmap EventId Event) : Prop :=
  ∀ e v, live_in m e → Kind.is_addressable (Event.kind e) = true →
    Filter.carries_tag (Event.tags e) single_letter_d [v] →
    Tags.identifier (Event.tags e) = Some v.

Lemma query_coordinate s f k a d :
  Indexed s → single_d (by_id s) → Filter.limit f ≠ Some 0%N →
  IndexMap.wf (Filter.generic_tags f) →
  query_pattern f = PatCoordinate k a d →
  match by_coordinate s !! (k, a, d) with
  | Some e => if decide (matches f e) then [EventKey.from_event e] else []
  | None => []
  end = EventKey.from_event <$> query_ref (by_id s) f.
Proof.
  intros HI Hd Hlim Hwf (Ha & Hks & Hadd & Hdt)%query_pattern_coordinate.
  pose proof (ix_id s HI) as Hk.
  apply IndexMap.get_elem in Hdt; [|done].
  assert (∀ e, live s e → matches f e → by_coordinate s !! (k, a, d) = Some e) as Hcoord.
  { intros e Hl Hm. apply (ix_coordinate s HI). split; [done|].
    pose proof (matches_author _ _ _ Ha Hm). pose proof (matches_kind _ _ _ Hks Hm). subst.
    unfold addressable_coord. rewrite Hadd. simpl.
    apply Filter.match_event_default in Hm as (_ & _ & _ & _ & _ & Htags).
    specialize (Htags _ _ Hdt). apply Filter.Event_has_tag in Htags.
    by rewrite (Hd _ _ Hl Hadd Htags). }
  assert (∀ e, e ∈ filter (matches f) (sorted_events (by_id s)) ↔ live s e ∧ matches f e) as Hel.
  { intros e. rewrite list_elem_of_filter, elem_of_sorted_events by done. naive_solver. }
  assert (take_limit (Filter.limit f) (filter (matches f) (sorted_events (by_id s))) =
          match by_coordinate s !! (k, a, d) with
          | Some e => if decide (matches f e) then [e] else [] | None => [] end) as Hq.
  { assert (∀ l : list Event, length l ≤ 1 → take_limit (Filter.limit f) l = l)%nat as Htake.
    { intros l Hl. destruct (Filter.limit f) as [n|]; simpl; [|done]. apply take_ge.
      destruct (decide (n = 0%N)); [by subst|lia]. }
    destruct (filter (matches f) (sorted_events (by_id s))) as [|e1 [|e2 l]] eqn:Ef.
    - rewrite Htake by (simpl; lia).
      destruct (by_coordinate s !! (k, a, d)) as [e|] eqn:Ec; [|done].
      apply (ix_coordinate s HI) in Ec as [Hl _]. rewrite decide_False; [done|].
      intros Hm. assert (e ∈ @nil Event) by (apply Hel; done). set_solver.
    - destruct (proj1 (Hel e1)) as [Hl Hm]; [set_solver|].
      rewrite (Hcoord e1) by done. rewrite decide_True by done. by rewrite Htake by (simpl; lia).
    - exfalso. destruct (proj1 (Hel e1)) as [Hl1 Hm1]; [set_solver|].
      destruct (proj1 (Hel e2)) as [Hl2 Hm2]; [set_solver|].
      pose proof (Hcoord _ Hl1 Hm1). pose proof (Hcoord _ Hl2 Hm2).
      assert (NoDup (e1 :: e2 :: l)) as Hnd
        by (rewrite <-Ef; by apply NoDup_filter, NoDup_sorted_events).
      rewrite NoDup_cons in Hnd. destruct Hnd as [Hnd _]. apply Hnd.
      assert (e1 = e2) as -> by congruence. set_solver. }
  unfold query_ref. rewrite Hq. destruct (by_coordinate s !! (k, a, d)) as [e|]; [|done].
  by case_decide.
Qed.

(** A filter the coordinate index answers as a scan would. *)
Definition coordinate_ok (s : MemoryStore) (f : Filter) : Prop :=
  match query_pattern f with
  | PatCoordinate _ _ _ => single_d (by_id s) ∧ Filter.limit f ≠ Some 0%N ∧
                           IndexMap.wf (Filter.generic_tags f)
  | _ => True
  end.

Lemma query_keys_ref s f :
  Indexed s → coordinate_ok s f →
  query_keys s f = EventKey.from_event <$> query_ref (by_id s) f.
Proof.
  intros HI Hok. unfold query_keys, coordinate_ok in *.
  destruct (query_pattern f) as [pk|k pk|k a d|] eqn:Ep.
  - apply (query_indexed Event.pubkey); [done|apply HI|].
    intros e. apply matches_author. by apply query_pattern_author.
  - apply query_pattern_kind_author in Ep as [Ha Hk].
    apply (query_indexed kind_author); [done|apply HI|]. intros e Hm. unfold kind_author.
    by rewrite (matches_author f e pk), (matches_kind f e k).
  - destruct Hok as (? & ? & ?). by apply query_coordinate.
  - unfold materialise. by rewrite time_values.
Qed.

Lemma query_owned_ref s f :
  Indexed s → coordinate_ok s f → query_owned s f = query_ref (by_id s) f.
Proof.
  intros HI Hok. unfold query_owned. rewrite query_keys_ref by done.
  apply omap_keys_by_id. intros e He. unfold query_ref in He.
  apply elem_of_take_limit, list_elem_of_filter in He as [_ He].
  apply elem_of_sorted_events in He; [done|by apply ix_id].
Qed.

(** ** Refinement of [save_event] *)

Definition abs (s : MemoryStore) : Spec.t :=
  Spec.mk (by_id s) (deleted_ids s) (deleted_coordinates s) (vanished_authors s).

Definition spec_options (o : MemoryDatabaseOptions) : Spec.options :=
  Spec.mkOptions (opt_max_events o) (opt_process_nip09 o) (opt_process_nip62 o).

(** *** Slots and the incumbent *)

(** The id [save_event] computes in step 7. *)
Definition loser (s : MemoryStore) (event : Event) : option EventId :=
  match (if Kind.is_replaceable (Event.kind event) then resolve_replaceable s event else None) with
  | Some l => Some l
  | None => if Kind.is_addressable (Event.kind event) then resolve_addressable s event else None
  end.

(** The event that holds the slot [e] wants. *)
Definition incumbent (s : MemoryStore) (e inc : Event) : Prop := live s inc ∧ Spec.rival e inc.

Lemma head_index_iter s k a :
  Indexed s →
  (set ← by_kind_author s !! (k, a); h ← head (btree_iter EventKey.le set); by_id s !! EventKey.id h) =
  head (filter (λ e, kind_author e = (k, a)) (sorted_events (by_id s))).
Proof.
  intros HI. pose proof (index_iter kind_author _ _ (k, a) (ix_id s HI) (ix_kind_author s HI)) as Hit.
  assert (∀ e, e ∈ filter (λ e, kind_author e = (k, a)) (sorted_events (by_id s)) → live s e) as Hl.
  { intros e [_ He]%list_elem_of_filter. apply elem_of_sorted_events in He; [done|by apply ix_id]. }
  destruct (by_kind_author s !! (k, a)) as [set|] eqn:E; simpl in *.
  - rewrite Hit. destruct (filter _ _) as [|e l]; [done|]. simpl. apply (Hl e). set_solver.
  - unfold btree_iter in Hit. rewrite elements_empty in Hit. simpl in Hit.
    by destruct (filter _ _).
Qed.

Lemma loser_spec s e : Inv s → conflict (by_id s) e (loser s e).
Proof.
  intros [HI Hu _]. unfold conflict, loser, Spec.rival.
  destruct (Kind.is_replaceable (Event.kind e)) eqn:Hr.
  - rewrite (Kind.replaceable_not_addressable _ Hr). pose proof (slot_replaceable _ Hr) as Hs.
    unfold resolve_replaceable.
    pose proof (head_index_iter s (Event.kind e) (Event.pubkey e) HI) as Hh.
    assert (∀ inc, live s inc ∧ is_Some (Spec.slot e) ∧ Spec.slot inc = Spec.slot e ↔
      inc ∈ filter (λ e', kind_author e' = (Event.kind e, Event.pubkey e)) (sorted_events (by_id s)))
      as Hinc.
    { intros inc. rewrite list_elem_of_filter, elem_of_sorted_events by apply HI.
      rewrite Hs, slot_None_kind. unfold kind_author.
      split; [by intros (? & _ & _ & ?)|]. intros [E Hl]. split_and!; eauto. injection E as Ek _. by rewrite Ek. }
    destruct (by_kind_author s !! _) as [set|]; simpl in *.
    + destruct (head (btree_iter EventKey.le set)) as [h|]; simpl in *.
      * destruct (by_id s !! EventKey.id h) as [inc|]; simpl in *.
        -- exists inc. split; [|done]. apply Hinc. symmetry in Hh. apply head_Some in Hh as [l ->].
           set_solver.
        -- intros inc Hi%Hinc. symmetry in Hh. apply head_None in Hh. rewrite Hh in Hi. set_solver.
      * intros inc Hi%Hinc. symmetry in Hh. apply head_None in Hh. rewrite Hh in Hi. set_solver.
    + intros inc Hi%Hinc. symmetry in Hh. apply head_None in Hh. rewrite Hh in Hi. set_solver.
  - destruct (Kind.is_addressable (Event.kind e)) eqn:Ha.
    + unfold resolve_addressable.
      destruct (addressable_coord e) as [c|] eqn:Ec.
      2:{ exfalso. unfold addressable_coord in Ec. by rewrite Ha in Ec. }
      pose proof (slot_addressable _ _ Ec) as Hs. destruct c as [[k a] d]. simpl in *.
      destruct (by_coordinate s !! (k, a, d)) as [inc|] eqn:El; simpl.
      * apply (ix_coordinate s HI) in El as [Hl Hc]. exists inc. split_and!; eauto.
        rewrite Hs. by apply slot_Some_coord.
      * intros inc (Hl & _ & E). rewrite Hs in E. apply slot_Some_coord in E.
        by rewrite (proj2 (ix_coordinate s HI _ inc)) in El.
    + intros inc (_ & [x Hx] & _). unfold Spec.slot in Hx. rewrite Hr in Hx.
      unfold addressable_coord in Hx. by rewrite Ha in Hx.
Qed.

(** *** NIP-09 *)

Lemma Inv_tombstones s o d dc v :
  Inv s →
  Inv (mkStore o (by_id s) (by_time s) (by_author s) (by_kind_author s) (by_coordinate s) d dc v).
Proof. intros [? ? ?]. split; [by apply Indexed_tombstones|done..]. Qed.

(** The fields a deletion or a vanish leaves alone. *)
Definition same_config (s s' : MemoryStore) : Prop :=
  options s' = options s ∧ vanished_authors s' = vanished_authors s.

Lemma same_config_trans s1 s2 s3 : same_config s1 s2 → same_config s2 s3 → same_config s1 s3.
Proof. unfold same_config. intros [-> ->] [-> ->]. done. Qed.

Lemma same_config_remove s i : same_config s (remove_event_by_id s i).
Proof. destruct (remove_frame s i) as (? & _ & _ & ?). done. Qed.

Lemma delete_id_step_ok del s i :
  Inv s →
  let s' := delete_id_step del s i in
  Inv s' ∧ same_config s s' ∧ deleted_coordinates s' = deleted_coordinates s ∧
  by_id s' = filter (λ p, ¬ (p.1 = i ∧ Event.pubkey p.2 = Event.pubkey del)) (by_id s) ∧
  deleted_ids s' = (if Spec.unprotected del (by_id s) i then {[i]} else ∅) ∪ deleted_ids s.
Proof.
  intros HI. unfold delete_id_step, Spec.unprotected. destruct (by_id s !! i) as [e|] eqn:E.
  - case_decide as Ha; simpl.
    + destruct (remove_frame s i) as (Ho & Hd & Hc & Hv).
      split_and!; simpl.
      * by apply Inv_tombstones, Inv_remove.
      * done.
      * done.
      * rewrite by_id_remove. apply map_eq. intros j. rewrite lookup_delete, map_lookup_filter.
        case_decide as Hj; [subst j; rewrite E; simpl; by rewrite option_guard_False by naive_solver|].
        destruct (by_id s !! j); simpl; [|done]. by rewrite option_guard_True by naive_solver.
      * rewrite Hd, bool_decide_true by done. done.
    + split_and!; auto.
      * done.
      * symmetry. apply map_filter_id. intros j e' Hj [Hji Hp]. simpl in *. congruence.
      * rewrite bool_decide_false by done. set_solver.
  - simpl. split_and!; auto; [by apply Inv_tombstones|done|].
    symmetry. apply map_filter_id. intros j e' Hj [Hji Hp]. simpl in *. congruence.
Qed.

Lemma delete_ids_ok del ids s :
  Inv s →
  let s' := foldl (delete_id_step del) s ids in
  Inv s' ∧ same_config s s' ∧ deleted_coordinates s' = deleted_coordinates s ∧
  by_id s' = filter (λ p, ¬ (p.1 ∈ ids ∧ Event.pubkey p.2 = Event.pubkey del)) (by_id s) ∧
  deleted_ids s' =
    list_to_set (filter (λ i, Spec.unprotected del (by_id s) i = true) ids) ∪ deleted_ids s.
Proof.
  revert s. induction ids as [|i ids IH]; intros s HI; simpl.
  - split_and!; [done|done|done| |set_solver].
    symmetry. apply map_filter_id. set_solver.
  - destruct (delete_id_step_ok del s i HI) as (HI1 & Hc1 & Hd1 & Hb1 & Ht1).
    destruct (IH _ HI1) as (HI2 & Hc2 & Hd2 & Hb2 & Ht2).
    split_and!; [done|by eapply same_config_trans|congruence|..].
    + rewrite Hb2, Hb1, map_filter_filter. apply map_filter_ext. intros j e _. simpl.
      rewrite elem_of_cons. naive_solver.
    + rewrite Ht2, Ht1, Hb1, filter_cons.
      rewrite (list_filter_iff _ (λ j, Spec.unprotected del (by_id s) j = true)).
      2:{ intros j. rewrite unprotected_filter; [done|]. intros p Hp. apply dec_stable in Hp. apply Hp. }
      destruct (Spec.unprotected del (by_id s) i); simpl; set_solver.
Qed.

Lemma stamp_eq del s c :
  (let stamp := default (Event.created_at del) (deleted_coordinates s !! c) in
   if (stamp <? Event.created_at del)%N then Event.created_at del else stamp) =
  N.max (Event.created_at del) (default (Event.created_at del) (deleted_coordinates s !! c)).
Proof. cbv zeta. destruct (N.ltb_spec (default (Event.created_at del) (deleted_coordinates s !! c)) (Event.created_at del)); lia. Qed.

Lemma delete_coord_step_ok del s c :
  Inv s →
  let s' := delete_coord_step del s c in
  let own := if decide (Coordinate.author c = Event.pubkey del) then [coord_key c] else [] in
  Inv s' ∧ same_config s s' ∧ deleted_ids s' = deleted_ids s ∧
  by_id s' = filter (λ p, ¬ at_coords del own p.2) (by_id s) ∧
  deleted_coordinates s' =
    foldl (Spec.stamp (Event.created_at del)) (deleted_coordinates s) own.
Proof.
  intros HI. cbv zeta. unfold delete_coord_step.
  destruct (decide (Coordinate.author c = Event.pubkey del)) as [Ha|Ha].
  2:{ rewrite bool_decide_false by done. simpl. split_and!; [done|done|done| |done].
      symmetry. apply map_filter_id. intros j e _ [_ Hc]. simpl in Hc.
      destruct (addressable_coord e); set_solver. }
  rewrite bool_decide_true by done. simpl negb. cbv iota. fold (coord_key c).
  set (s1 := match by_coordinate s !! coord_key c with
             | Some inc => if (Event.created_at inc <=? Event.created_at del)%N
                           then remove_event_by_id s (Event.id inc) else s
             | None => s end).
  assert (Inv s1 ∧ same_config s s1 ∧ deleted_ids s1 = deleted_ids s ∧
          deleted_coordinates s1 = deleted_coordinates s ∧
          by_id s1 = filter (λ p, ¬ at_coords del [coord_key c] p.2) (by_id s))
    as (HI1 & Hc1 & Hd1 & Hdc1 & Hb1).
  { assert (∀ i e, by_id s !! i = Some e → addressable_coord e = Some (coord_key c) ↔
        by_coordinate s !! coord_key c = Some e) as Hco.
    { intros i e E. rewrite (ix_coordinate s (inv_indexed s HI)). unfold live_in.
      rewrite (ix_id s (inv_indexed s HI) _ _ E). naive_solver. }
    assert (∀ i e, by_id s !! i = Some e → at_coords del [coord_key c] e ↔
        by_coordinate s !! coord_key c = Some e ∧ (Event.created_at e <= Event.created_at del)%N) as Hat.
    { intros i e E. unfold at_coords. rewrite <-(Hco i e E).
      destruct (addressable_coord e) as [c'|]; [|naive_solver].
      rewrite list_elem_of_singleton. naive_solver. }
    subst s1. destruct (by_coordinate s !! coord_key c) as [inc|] eqn:E.
    - destruct (N.leb_spec (Event.created_at inc) (Event.created_at del)) as [Hle|Hlt].
      + destruct (remove_frame s (Event.id inc)) as (? & ? & ? & ?).
        split_and!; [by apply Inv_remove|done|done|done|].
        rewrite by_id_remove. apply map_eq. intros i. rewrite lookup_delete, map_lookup_filter.
        apply (ix_coordinate s (inv_indexed s HI)) in E as [Hl Hci].
        destruct (by_id s !! i) as [e|] eqn:Ei; simpl; [|by case_decide].
        specialize (Hat i e Ei). pose proof (ix_id s (inv_indexed s HI) _ _ Ei) as Eid.
        case_decide as Hi.
        * assert (e = inc) as -> by (unfold live_in in Hl; congruence).
          rewrite option_guard_False; [done|]. intros Hn. by apply Hn, Hat.
        * rewrite option_guard_True; [done|]. intros [[= ->] _]%Hat. done.
      + split_and!; [done..|]. symmetry. apply map_filter_id. intros i e Ei. simpl.
        rewrite (Hat _ _ Ei). intros [[= ->] ?]. lia.
    - split_and!; [done..|]. symmetry. apply map_filter_id. intros i e Ei. simpl.
      rewrite (Hat _ _ Ei). by intros [? _]. }
  split_and!; simpl; [by apply Inv_tombstones|done|done|done|].
  rewrite stamp_eq. unfold Spec.stamp. by rewrite Hdc1.
Qed.

Lemma delete_coords_ok del cs s :
  Inv s →
  let s' := foldl (delete_coord_step del) s cs in
  Inv s' ∧ same_config s s' ∧ deleted_ids s' = deleted_ids s ∧
  by_id s' = filter (λ p, ¬ at_coords del (own_keys del cs) p.2) (by_id s) ∧
  deleted_coordinates s' =
    foldl (Spec.stamp (Event.created_at del)) (deleted_coordinates s) (own_keys del cs).
Proof.
  revert s. induction cs as [|c cs IH]; intros s HI; simpl.
  - split_and!; [done|done|done| |done]. symmetry. apply map_filter_id.
    intros i e _ [_ Hc]. simpl in Hc. destruct (addressable_coord e); set_solver.
  - destruct (delete_coord_step_ok del s c HI) as (HI1 & Hc1 & Hd1 & Hb1 & Ht1).
    destruct (IH _ HI1) as (HI2 & Hc2 & Hd2 & Hb2 & Ht2).
    assert (own_keys del (c :: cs) =
      (if decide (Coordinate.author c = Event.pubkey del) then [coord_key c] else []) ++ own_keys del cs)
      as ->.
    { unfold own_keys. rewrite filter_cons. by case_decide. }
    split_and!; [done|by eapply same_config_trans|congruence|..].
    + rewrite Hb2, Hb1, map_filter_filter. apply map_filter_ext. intros j e _. simpl.
      rewrite at_coords_app. tauto.
    + by rewrite Ht2, Ht1, foldl_app.
Qed.

Section refinement.
Context `{FasterHex, Secp256k1}.

Lemma apply_deletion_ok s del :
  Inv s →
  Inv (apply_deletion s del) ∧ same_config s (apply_deletion s del) ∧
  abs (apply_deletion s del) = Spec.delete_request (abs s) del.
Proof.
  intros HI. unfold apply_deletion, Spec.delete_request.
  destruct (Nip09.from_event del) as [r|]; [|done].
  destruct (delete_ids_ok del (Nip09.event_ids r) s HI) as (HI1 & Hc1 & Hd1 & Hb1 & Ht1).
  destruct (delete_coords_ok del (Nip09.coordinates r) _ HI1) as (HI2 & Hc2 & Hd2 & Hb2 & Ht2).
  split_and!; [done|by eapply same_config_trans|].
  unfold abs; simpl. f_equal.
  - rewrite Hb2, Hb1. apply targeted_split, HI.
  - rewrite Hd2, Ht1. done.
  - rewrite Ht2, Hd1. done.
  - destruct (same_config_trans _ _ _ Hc1 Hc2) as [_ Hv]. done.
Qed.

(** *** NIP-62 *)

Lemma remove_all_ok ids s :
  Inv s →
  let s' := foldl remove_event_by_id s ids in
  Inv s' ∧ same_config s s' ∧ deleted_ids s' = deleted_ids s ∧
  deleted_coordinates s' = deleted_coordinates s ∧
  by_id s' = filter (λ p, p.1 ∉ ids) (by_id s).
Proof.
  revert s. induction ids as [|i ids IH]; intros s HI; simpl.
  - split_and!; [done..|]. symmetry. apply map_filter_id. set_solver.
  - destruct (remove_frame s i) as (Ho & Hd & Hdc & Hv).
    destruct (IH _ (Inv_remove s i HI)) as (HI2 & Hc2 & Hd2 & Hdc2 & Hb2).
    split_and!; [done|by eapply same_config_trans, Hc2; split|congruence|congruence|].
    rewrite Hb2, by_id_remove. apply map_eq. intros j.
    rewrite !map_lookup_filter, lookup_delete.
    destruct (decide (i = j)) as [<-|Hij].
    + destruct (by_id s !! i); simpl; [|done]. rewrite option_guard_False; set_solver.
    + destruct (by_id s !! j); simpl; [|done].
      destruct (decide (j ∈ ids)).
      * rewrite !option_guard_False; set_solver.
      * rewrite !option_guard_True; set_solver.
Qed.

Lemma apply_vanish_ok s a :
  Inv s →
  Inv (apply_vanish s a) ∧ options (apply_vanish s a) = options s ∧
  abs (apply_vanish s a) = Spec.vanish_request (abs s) a.
Proof.
  intros HI. unfold apply_vanish.
  set (s1 := set_vanished s ({[a]} ∪ vanished_authors s)).
  set (ids := match by_author s1 !! a with
              | Some set => EventKey.id <$> btree_iter EventKey.le set | None => [] end).
  assert (Inv s1) as HI1 by by apply Inv_tombstones.
  destruct (remove_all_ok ids s1 HI1) as (HI2 & [Ho Hv] & Hd & Hdc & Hb).
  split_and!; [done|done|]. unfold abs, Spec.vanish_request. f_equal; [|done..].
  rewrite Hb. change (by_id s1) with (by_id s). simpl. apply map_filter_ext.
  intros i e E. simpl. pose proof (inv_indexed s HI) as Hix.
  pose proof (ix_id s Hix _ _ E) as Eid.
  assert (i ∈ ids ↔ Event.pubkey e = a) as ->; [|done].
  assert (∀ k, k ∈ default ∅ (by_author s !! a) ↔
    ∃ e, live s e ∧ Event.pubkey e = a ∧ EventKey.from_event e = k) as Hia by apply Hix.
  assert (i ∈ ids ↔ ∃ k, k ∈ default ∅ (by_author s !! a) ∧ i = EventKey.id k) as ->.
  { subst ids. change (by_author s1) with (by_author s).
    destruct (by_author s !! a) as [set|]; simpl; [|set_solver].
    rewrite list_elem_of_fmap. setoid_rewrite elem_of_btree_iter. naive_solver. }
  split.
  - intros (k & (e' & Hl & <- & <-)%Hia & ->). simpl in *. unfold live_in in Hl. congruence.
  - intros <-. exists (EventKey.from_event e). split; [|done]. apply Hia. exists e.
    split_and!; auto. unfold live_in. by rewrite Eid.
Qed.
End refinement.

(** *** Capacity *)

Lemma sorted_events_delete_last m l x :
  keyed m → sorted_events m = l ++ [x] → sorted_events (delete (Event.id x) m) = l.
Proof.
  intros Hk Hs.
  assert (keyed (delete (Event.id x) m)) as Hk'.
  { intros i e. rewrite lookup_delete. case_decide; [done|apply Hk]. }
  assert (NoDup (l ++ [x])) as Hnd by (rewrite <-Hs; by apply NoDup_sorted_events).
  apply NoDup_app in Hnd as (Hnl & Hx & _).
  assert (∀ e, e ∈ l ++ [x] ↔ live_in m e) as Hel.
  { intros e. rewrite <-Hs. by apply elem_of_sorted_events. }
  apply sorted_list_unique.
  - apply StronglySorted_sorted_events.
  - eapply StronglySorted_app_1_l. rewrite <-Hs. apply StronglySorted_sorted_events.
  - by apply NoDup_sorted_events.
  - done.
  - intros e. rewrite elem_of_sorted_events by done. fold (live_in (delete (Event.id x) m) e).
    rewrite live_in_delete, <-Hel, elem_of_app, list_elem_of_singleton. split.
    + intros [Hne [?|E]]; [done|]. by subst e.
    + intros He. split; [|by left]. intros E.
      assert (e = x) as ->; [|by apply (Hx x He), list_elem_of_singleton].
      assert (live_in m e) as Hle by (apply Hel; set_solver).
      assert (live_in m x) as Hlx by (apply Hel; set_solver).
      unfold live_in in *. congruence.
  - intros e1 e2 H1 H2 E.
    apply elem_of_sorted_events in H1, H2; [|done..]. congruence.
Qed.

Lemma evict_loop_ok fuel max s :
  Inv s → (size (by_id s) < fuel)%nat →
  let s' := evict_loop fuel max s in
  Inv s' ∧ same_config s s' ∧ deleted_ids s' = deleted_ids s ∧
  deleted_coordinates s' = deleted_coordinates s ∧
  by_id s' = filter (λ p, p.2 ∈ take (N.to_nat max) (sorted_events (by_id s))) (by_id s).
Proof.
  revert s. induction fuel as [|fuel IH]; intros s HI Hf; [lia|]. simpl.
  pose proof (inv_indexed s HI) as Hix. pose proof (ix_id s Hix) as Hk.
  destruct (N.ltb_spec max (N.of_nat (size (by_id s)))) as [Hmax|Hmax].
  - rewrite time_iter by done.
    rewrite <-length_sorted_events in Hmax.
    destruct (sorted_events (by_id s)) as [|x0 l0 _] eqn:Es using rev_ind; [simpl in Hmax; lia|].
    rewrite fmap_app. change (EventKey.from_event <$> [x0]) with [EventKey.from_event x0].
    rewrite last_snoc. simpl EventKey.id.
    destruct (remove_frame s (Event.id x0)) as (Ho & Hd & Hdc & Hv).
    assert (live s x0) as Hx0.
    { apply elem_of_sorted_events; [done|]. rewrite Es. set_solver. }
    assert (size (by_id (remove_event_by_id s (Event.id x0))) < fuel)%nat as Hf'.
    { rewrite by_id_remove, map_size_delete_Some by by eexists.
      assert (1 <= size (by_id s))%nat by (rewrite <-length_sorted_events, Es, length_app; simpl; lia).
      lia. }
    destruct (IH _ (Inv_remove s (Event.id x0) HI) Hf') as (HI2 & Hc2 & Hd2 & Hdc2 & Hb2).
    split_and!; [done|by eapply same_config_trans, Hc2; split|congruence|congruence|].
    rewrite Hb2, by_id_remove, (sorted_events_delete_last _ _ _ Hk Es).
    rewrite length_app in Hmax. simpl in Hmax. rewrite take_app_le by lia.
    apply map_eq. intros i. rewrite !map_lookup_filter, lookup_delete.
    case_decide as Hi; [|done]. subst i. rewrite Hx0. simpl. rewrite option_guard_False; [done|].
    intros Hin. apply elem_of_take in Hin as (j & Hj%list_elem_of_lookup_2 & _).
    assert (NoDup (l0 ++ [x0])) as Hnd by (rewrite <-Es; by apply NoDup_sorted_events).
    apply NoDup_app in Hnd as (_ & Hn & _). by apply (Hn x0 Hj), list_elem_of_singleton.
  - split_and!; [done..|]. symmetry. apply map_filter_id. intros i e E. simpl.
    rewrite take_ge by (rewrite length_sorted_events; lia).
    apply elem_of_sorted_events; [done|]. by rewrite (Hk _ _ E).
Qed.

Lemma enforce_capacity_ok s :
  Inv s →
  let s' := enforce_capacity s in
  Inv s' ∧ same_config s s' ∧ deleted_ids s' = deleted_ids s ∧
  deleted_coordinates s' = deleted_coordinates s ∧
  by_id s' = Spec.evict (opt_max_events (options s)) (by_id s).
Proof.
  intros HI. unfold enforce_capacity. destruct (opt_max_events (options s)) as [max|].
  - apply evict_loop_ok; [done|lia].
  - done.
Qed.

(** *** The whole of [save_event] *)

Lemma Inv_insert s e :
  Inv s → by_id s !! Event.id e = None → Kind.is_ephemeral (Event.kind e) = false →
  (∀ inc, ¬ incumbent s e inc) → Inv (insert_event s e).
Proof.
  intros [Hix Hu He] Hnew Hk Hfree. split.
  - apply Indexed_insert; [done|done|]. intros c Hc.
    destruct (by_coordinate s !! c) as [inc|] eqn:E; [|done].
    apply (ix_coordinate s Hix) in E as [Hl Hci]. exfalso. apply (Hfree inc). split; [done|].
    split; [by rewrite (slot_addressable _ _ Hc)|].
    by rewrite (slot_addressable _ _ Hc), (slot_addressable _ _ Hci).
  - intros e1 e2. simpl. rewrite !live_in_insert.
    intros [->|[Hn1 H1]] [->|[Hn2 H2]] Hs E; [done|..].
    + exfalso. apply (Hfree e2). split; [done|]. split; [done|]. congruence.
    + exfalso. apply (Hfree e1). split; [done|]. split; [|done]. congruence.
    + by apply Hu.
  - intros e'. simpl. rewrite live_in_insert. intros [->|[_ Hl]]; auto.
Qed.

Section save.
Context `{FasterHex, Secp256k1}.

(** Steps 8 to 11 of [save_event]. *)
Definition accept (s : MemoryStore) (event : Event) : MemoryStore :=
  let s := if opt_process_nip09 (options s) && (Event.kind event =? Kind.EVENT_DELETION)%N
           then apply_deletion s event else s in
  let s := if opt_process_nip62 (options s) && (Event.kind event =? Kind.REQUEST_TO_VANISH)%N
           then apply_vanish s (Event.pubkey event) else s in
  enforce_capacity (insert_event s event).

Lemma accept_ok s0 s e :
  Inv s → options s = options s0 →
  deleted_ids s = deleted_ids s0 → deleted_coordinates s = deleted_coordinates s0 →
  vanished_authors s = vanished_authors s0 →
  by_id s = filter (λ p, ¬ Spec.rival e p.2) (by_id s0) →
  by_id s0 !! Event.id e = None → Kind.is_ephemeral (Event.kind e) = false →
  Inv (accept s e) ∧ options (accept s e) = options s0 ∧
  abs (accept s e) = Spec.accept (spec_options (options s0)) (abs s0) e.
Proof.
  intros HI Ho Hd Hdc Hv Hb Hnew Hk. unfold accept, Spec.accept.
  set (s1 := if opt_process_nip09 (options s) && (Event.kind e =? Kind.EVENT_DELETION)%N
             then apply_deletion s e else s).
  set (t0 := Spec.mk (filter (λ p, ¬ Spec.rival e p.2) (Spec.live (abs s0))) _ _ _).
  assert (abs s = t0) as Ht0.
  { unfold abs, t0. simpl. by rewrite Hb, Hd, Hdc, Hv. }
  assert (Inv s1 ∧ options s1 = options s ∧ by_id s1 ⊆ by_id s ∧
          abs s1 = if opt_process_nip09 (options s) && (Event.kind e =? Kind.EVENT_DELETION)%N
                   then Spec.delete_request t0 e else t0) as (HI1 & Ho1 & Hsub1 & Ha1).
  { subst s1. destruct (_ && _); [|done].
    destruct (apply_deletion_ok s e HI) as (? & [? ?] & Ea). rewrite Ht0 in Ea. split_and!; auto.
    change (by_id (apply_deletion s e)) with (Spec.live (abs (apply_deletion s e))).
    rewrite Ea, <-Ht0. apply delete_request_live. }
  clearbody s1.
  set (s2 := if opt_process_nip62 (options s1) && (Event.kind e =? Kind.REQUEST_TO_VANISH)%N
             then apply_vanish s1 (Event.pubkey e) else s1).
  assert (Inv s2 ∧ options s2 = options s ∧ by_id s2 ⊆ by_id s ∧
          abs s2 = if opt_process_nip62 (options s) && (Event.kind e =? Kind.REQUEST_TO_VANISH)%N
                   then Spec.vanish_request (abs s1) (Event.pubkey e) else abs s1)
    as (HI2 & Ho2 & Hsub2 & Ha2).
  { subst s2. rewrite Ho1. clear Ha1. destruct (opt_process_nip62 _ && _); [|by split_and!].
    destruct (apply_vanish_ok s1 (Event.pubkey e) HI1) as (? & ? & Ea).
    split_and!; auto; [congruence|].
    change (by_id (apply_vanish s1 (Event.pubkey e))) with (Spec.live (abs (apply_vanish s1 (Event.pubkey e)))).
    rewrite Ea. simpl. etrans; [apply map_filter_subseteq|done]. }
  assert (Inv (insert_event s2 e)) as HI3.
  { apply Inv_insert; [done| |done|].
    - eapply lookup_weaken_None; [|exact Hsub2]. rewrite Hb, map_lookup_filter, Hnew. done.
    - intros inc [Hl Hr]. eapply lookup_weaken in Hl; [|exact Hsub2].
      rewrite Hb in Hl. apply map_lookup_filter_Some in Hl as [_ Hn]. by apply Hn. }
  destruct (enforce_capacity_ok _ HI3) as (HI4 & [Ho4 Hv4] & Hd4 & Hdc4 & Hb4).
  split_and!; [done|rewrite Ho4; simpl; congruence|].
  unfold abs. rewrite Hb4, Hd4, Hdc4, Hv4. simpl. rewrite Ho2.
  rewrite Ho in *. rewrite <-Ha1, <-Ha2. done.
Qed.

(** One call of the store is one step of the specification. *)
Lemma save_event_ok s e now :
  Inv s →
  let r := save_event s e now in
  Spec.save (spec_options (options s)) (abs s) e now = (r.1, abs r.2) ∧
  Inv r.2 ∧ options r.2 = options s.
Proof.
  intros HI. unfold save_event, Spec.save, Spec.admission, rejected_if.
  cbn [Spec.process_nip62 spec_options Spec.vanished Spec.dead_ids Spec.dead_coords Spec.live abs].
  do 5 (match goal with |- context [if ?b then _ else _] => destruct b eqn:? end; [done|]).
  destruct (bool_decide (is_Some (by_id s !! Event.id e))) eqn:Hd; [done|].
  apply bool_decide_eq_false, eq_None_not_Some in Hd.
  fold (loser s e). pose proof (loser_spec s e HI) as Hcf.
  rewrite <-(bool_decide_ext _ _ (conflict_replaced _ _ _ (ix_id _ (inv_indexed _ HI)) (inv_slots _ HI) Hd Hcf)).
  destruct (bool_decide (loser s e = Some (Event.id e))) eqn:Hl; [done|].
  apply bool_decide_eq_false in Hl. cbv zeta.
  set (s1 := match loser s e with Some l => remove_event_by_id s l | None => s end).
  fold (accept s1 e). cbn [fst snd].
  assert (by_id s1 = filter (λ p, ¬ Spec.rival e p.2) (by_id s)) as Hb1.
  { rewrite <-(conflict_evict _ _ _ (ix_id _ (inv_indexed _ HI)) (inv_slots _ HI) Hcf Hl).
    subst s1. destruct (loser s e); [apply by_id_remove|done]. }
  destruct (accept_ok s s1 e) as (HI' & Ho & Ha); subst s1;
    destruct (loser s e) as [l|] eqn:El; auto using Inv_remove;
    try apply (remove_frame s l); by rewrite <-Ha.
Qed.
End save.
