(* ===== verification/MemoryTheorems.v ===== *)
(** * The in-memory backend: theorems

    Whole executions of the store: any sequence of writes from an empty store.
    The theorems lift the one-step refinement of [MemoryProofs] and the laws of
    the abstract store of [SpecProofs] to them. *)

From Stdlib Require Import Ascii NArith Lia.
From S2P Require Import Prelude Encoding Text Ids Tags Event Filter Storage SpecProofs Samples Memory MemoryProofs.

(** ** Executions *)

(** The operations that change the store. *)
Inductive MemOp :=
| OpSave (e : Event) (now : Timestamp)
| OpDelete (f : Filter)
| OpWipe.

Section executions.
Context `{FasterHex, Secp256k1}.

Definition run_op (s : MemoryStore) (op : MemOp) : MemoryStore :=
  match op with
  | OpSave e now => (save_event s e now).2
  | OpDelete f => delete_matching s f
  | OpWipe => wipe s
  end.

Definition run (s : MemoryStore) (ops : list MemOp) : MemoryStore := foldl run_op s ops.

(** The keys a query returns are those of live events. *)
Lemma query_keys_live s f k :
  Indexed s → k ∈ query_keys s f → ∃ e, live s e ∧ EventKey.from_event e = k ∧ matches f e.
Proof.
  intros HI. unfold query_keys, materialise.
  destruct (query_pattern f) as [pk|kd pk|kd a d|].
  - destruct (by_author s !! pk) as [keys|]; [|set_solver].
    rewrite list_elem_of_fmap. intros (e & -> & He%elem_of_take_limit).
    apply list_elem_of_filter in He as [Hm He].
    apply list_elem_of_omap in He as (k & _ & E). exists e. split_and!; auto.
    unfold live_in. by rewrite (ix_id s HI _ _ E).
  - destruct (by_kind_author s !! (kd, pk)) as [keys|]; [|set_solver].
    rewrite list_elem_of_fmap. intros (e & -> & He%elem_of_take_limit).
    apply list_elem_of_filter in He as [Hm He].
    apply list_elem_of_omap in He as (k & _ & E). exists e. split_and!; auto.
    unfold live_in. by rewrite (ix_id s HI _ _ E).
  - destruct (by_coordinate s !! (kd, a, d)) as [e|] eqn:E; [|set_solver].
    case_decide; [|set_solver]. intros ->%list_elem_of_singleton. exists e.
    apply (ix_coordinate s HI) in E as [? _]. auto.
  - rewrite time_values by done. rewrite list_elem_of_fmap.
    intros (e & -> & He%elem_of_take_limit). apply list_elem_of_filter in He as [Hm He].
    apply elem_of_sorted_events in He; [|apply HI]. exists e. auto.
Qed.

Lemma delete_matching_ok s f :
  Inv s →
  Inv (delete_matching s f) ∧ options (delete_matching s f) = options s ∧
  abs (delete_matching s f) = Spec.delete_events (abs s) (query_owned s f).
Proof.
  intros HI. unfold delete_matching.
  destruct (remove_all_ok (EventKey.id <$> query_keys s f) s HI) as (HI' & [Ho Hv] & Hd & Hdc & Hb).
  split_and!; [done|done|]. unfold abs, Spec.delete_events. rewrite Hd, Hdc, Hv, Hb. simpl. f_equal.
  apply map_filter_ext. intros i e E. simpl. pose proof (ix_id s (inv_indexed s HI) _ _ E) as Ei.
  assert (i ∈ EventKey.id <$> query_keys s f ↔ e ∈ query_owned s f) as ->; [|done].
  unfold query_owned. rewrite list_elem_of_fmap, list_elem_of_omap. split.
  - intros (k & -> & Hk). exists k. split; [done|]. done.
  - intros (k & Hk & Ek). exists k. split; [|done].
    by rewrite <-Ei, (ix_id s (inv_indexed s HI) _ _ Ek).
Qed.

Lemma wipe_ok s : Inv (wipe s) ∧ options (wipe s) = options s ∧ abs (wipe s) = Spec.empty.
Proof. split_and!; [apply Inv_empty|done|done]. Qed.

(** Each operation is a step of the abstract store. *)
Lemma run_op_ok s op :
  Inv s →
  Inv (run_op s op) ∧ options (run_op s op) = options s ∧
  spec_step (spec_options (options s)) (abs s) (abs (run_op s op)).
Proof.
  intros HI. destruct op as [e now|f|]; simpl.
  - destruct (save_event_ok s e now HI) as (E & ? & ?). split_and!; [done|done|].
    pose proof (step_save (spec_options (options s)) (abs s) e now) as Hs. by rewrite E in Hs.
  - destruct (delete_matching_ok s f HI) as (? & ? & ->). split_and!; [done|done|]. constructor.
  - destruct (wipe_ok s) as (? & ? & ->). split_and!; [done|done|]. constructor.
Qed.

Lemma run_ok o ops :
  let s := run (new o) ops in
  Inv s ∧ options s = o ∧ rtc (spec_step (spec_options o)) Spec.empty (abs s).
Proof.
  cbv zeta. unfold run. induction ops as [|op ops IH] using rev_ind; simpl.
  - split_and!; [apply Inv_empty|done|]. by apply rtc_refl.
  - rewrite foldl_snoc. destruct IH as (HI & Ho & Hr).
    destruct (run_op_ok _ op HI) as (HI' & Ho' & Hs). rewrite Ho in *.
    split_and!; [done|done|]. by eapply rtc_r.
Qed.
End executions.

(** ** Theorems *)

Section theorems.
Context `{FasterHex, Secp256k1}.



(** C13: a query answered through the author, kind-and-author or time index returns
    what a full scan returns: the matching live events, newest first with ties by
    ascending id, cut at the limit.  So does one through the coordinate index when
    its limit is not 0, its tag map has one entry per letter and no live event has a
    [d] value other than its first; on every filter of that plan the answer is the
    live event that holds the slot by its first [d] value, when it matches, and
    nothing else, whatever the limit. *)
Theorem memory_query_refines o ops f :
  let s := run (new o) ops in
  (coordinate_ok s f → db_query s f = query_ref (by_id s) f)
  ∧ (∀ k a d, query_pattern f = PatCoordinate k a d →
       length (db_query s f) <= 1 ∧
       ∀ e, e ∈ db_query s f ↔ live s e ∧ matches f e ∧ addressable_coord e = Some (k, a, d)).
Proof.
  cbv zeta. destruct (run_ok o ops) as (HI & _). set (s := run (new o) ops) in *. apply inv_indexed in HI. split.
  { intros Hok. by apply query_owned_ref. }
  intros k a d Hp. unfold db_query, Events.from_sorted, query_owned, query_keys. rewrite Hp.
  destruct (by_coordinate s !! (k, a, d)) as [e0|] eqn:Ec.
  - apply (ix_coordinate s HI) in Ec as [Hl Hc]. case_decide as Hm.
    + cbn [omap list_omap EventKey.from_event EventKey.id]. unfold live_in in Hl. rewrite Hl. split; [simpl; lia|].
      intros e. rewrite list_elem_of_singleton. split; [by intros ->|]. intros (Hl' & _ & Hc').
      assert (by_coordinate s !! (k, a, d) = Some e) as E1 by (by apply (ix_coordinate s HI)).
      assert (by_coordinate s !! (k, a, d) = Some e0) as E2 by (by apply (ix_coordinate s HI)). congruence.
    + split; [simpl; lia|]. intros e. split; [set_solver|]. intros (Hl' & Hm' & Hc'). destruct Hm.
      assert (by_coordinate s !! (k, a, d) = Some e) as E1 by (by apply (ix_coordinate s HI)).
      assert (by_coordinate s !! (k, a, d) = Some e0) as E2 by (by apply (ix_coordinate s HI)). congruence.
  - split; [simpl; lia|]. intros e. split; [set_solver|]. intros (Hl' & _ & Hc').
    by rewrite (proj2 (ix_coordinate s HI _ e)) in Ec.
Qed.

(** [count] is the length of the query's answer, on every filter. *)
Lemma memory_count_query o ops f :
  let s := run (new o) ops in count s f = length (db_query s f).
Proof.
  cbv zeta. destruct (run_ok o ops) as (HI & _). set (s := run (new o) ops) in *.
  unfold count, db_query, Events.from_sorted, query_owned.
  assert (∀ k, k ∈ query_keys s f → is_Some (by_id s !! EventKey.id k)) as Hk.
  { intros k (e & Hl & <- & _)%query_keys_live; [|apply HI]. by exists e. }
  revert Hk. generalize (query_keys s f). intros l. induction l as [|k l IH]; intros Hk; simpl; [done|].
  destruct (Hk k) as [e ->]; [by left|]. simpl. f_equal. apply IH. intros; apply Hk. by right.
Qed.

(** [delete_matching] removes exactly the events the query returns, and
    leaves the tombstones alone. *)
Theorem memory_delete_refines o ops f :
  let s := run (new o) ops in
  abs (delete_matching s f) = Spec.delete_events (abs s) (db_query s f).
Proof.
  cbv zeta. destruct (run_ok o ops) as (HI & _). apply (delete_matching_ok _ f HI).
Qed.

(** *** Deletion *)

Lemma save_success s e now s' :
  Inv s → save_event s e now = (Success, s') →
  admitted (spec_options (options s)) (abs s) e now ∧
  abs s' = Spec.accept (spec_options (options s)) (abs s) e.
Proof.
  intros HI E. destruct (save_event_ok s e now HI) as (Hsp & _ & _). rewrite E in Hsp.
  unfold Spec.save in Hsp.
  destruct (Spec.admission _ _ _ _) eqn:Ea; [|done]. apply admission_success in Ea.
  split; [done|]. by apply (f_equal snd) in Hsp.
Qed.

Lemma deletion_not_slot e : Event.kind e = Kind.EVENT_DELETION → Spec.slot e = None.
Proof. intros E. unfold Spec.slot, addressable_coord. by rewrite E. Qed.

Lemma no_slot_filter e (m : gmap EventId Event) :
  Spec.slot e = None → filter (λ p, ¬ Spec.rival e p.2) m = m.
Proof. intros E. apply map_filter_id. intros i e' _ [[? Hs] _]. congruence. Qed.

(** Saving a deletion request removes exactly the live events it has
    authority over (named by id, or at a named coordinate and not newer, and
    in both cases of the request's author), keeps every other one, and the ids
    it names that are not somebody else's report [Deleted] and cannot be saved
    again. *)
Theorem memory_deletion_effect o ops del r now s' :
  let s := run (new o) ops in
  opt_process_nip09 o = true → opt_max_events o = None →
  Nip09.from_event del = Ok r → save_event s del now = (Success, s') →
  (∀ e, live s e → live s' e ↔ ¬ Spec.targeted del r e) ∧
  (∀ i, i ∈ Nip09.event_ids r → i ≠ Event.id del →
     Spec.unprotected del (by_id s) i = true →
     check_id s' i = DbStatus.Deleted ∧
     ∀ e' now', Event.id e' = i → (save_event s' e' now').1 ≠ Success).
Proof.
  cbv zeta. intros H09 Hmax Hr Hsave. destruct (run_ok o ops) as (HI & Ho & _).
  set (s := run (new o) ops) in *.
  destruct (save_success _ _ _ _ HI Hsave) as [Had Habs].
  assert (Event.kind del = Kind.EVENT_DELETION) as H5.
  { unfold Nip09.from_event in Hr. destruct (N.eqb_spec (Event.kind del) Kind.EVENT_DELETION); done. }
  assert (abs s' = Spec.mk
    (<[Event.id del := del]> (filter (λ p, ¬ Spec.targeted del r p.2) (by_id s)))
    (Spec.tombstoned del r (by_id s) ∪ deleted_ids s)
    (foldl (Spec.stamp (Event.created_at del)) (deleted_coordinates s) (Spec.own_coords del r))
    (vanished_authors s)) as Ha.
  { rewrite Habs, Ho. unfold Spec.accept. cbn [spec_options Spec.process_nip09 Spec.process_nip62 Spec.max_events].
    rewrite H09, H5, Hmax. rewrite N.eqb_refl.
    rewrite (proj2 (N.eqb_neq Kind.EVENT_DELETION Kind.REQUEST_TO_VANISH)) by done.
    rewrite andb_false_r. cbn [andb Spec.live abs]. unfold Spec.delete_request. rewrite Hr. simpl.
    rewrite no_slot_filter by by apply deletion_not_slot. done. }
  injection Ha as Hb Hd Hdc Hv. split.
  - intros e Hl. rewrite Hb, live_in_insert, live_in_filter. simpl.
    assert (e ≠ del ∧ Event.id e ≠ Event.id del) as [? ?].
    { pose proof (ad_new _ _ _ _ Had) as Hn. simpl in Hn. unfold live_in in Hl.
      split; [by intros ->; rewrite Hn in Hl|by intros E; rewrite E, Hn in Hl]. }
    naive_solver.
  - intros i Hi Hne Hu.
    assert (i ∈ deleted_ids s') as Hdi.
    { rewrite Hd. apply elem_of_union_l. apply elem_of_list_to_set, list_elem_of_filter. auto. }
    assert (by_id s' !! i = None) as Hli.
    { rewrite Hb, lookup_insert_ne, map_lookup_filter by done.
      unfold Spec.unprotected in Hu. destruct (by_id s !! i) as [e|] eqn:E; [|done]. simpl.
      rewrite option_guard_False; [done|]. intros Hn. apply Hn. reflect_bools. split; [done|].
      left. by rewrite (ix_id s (inv_indexed s HI) _ _ E). }
    split.
    + unfold check_id. rewrite Hli. rewrite decide_False by by intros []. by rewrite decide_True.
    + intros e' now' <- Hs. destruct (save_event s' e' now') as [st s''] eqn:E. simpl in Hs. subst st.
      destruct (save_event_ok s del now HI) as (_ & HI' & _). rewrite Hsave in HI'.
      destruct (save_success _ _ _ _ HI' E) as [[_ _ _ Hn _ _ _] _]. by apply Hn.
Qed.

Definition not_wipe (op : MemOp) : bool := match op with OpWipe => false | _ => true end.

Lemma run_write_steps s ops :
  Inv s → forallb not_wipe ops = true →
  Inv (run s ops) ∧ options (run s ops) = options s ∧
  rtc (write_step (spec_options (options s))) (abs s) (abs (run s ops)).
Proof.
  unfold run. revert s. induction ops as [|op ops IH]; intros s HI Hw; simpl in *.
  - split_and!; [done|done|]. apply rtc_refl.
  - reflect_bools. destruct (run_op_ok s op HI) as (HI1 & Ho1 & _).
    destruct (IH (run_op s op)) as (HI2 & Ho2 & Hr); [done|done|]. rewrite Ho1 in *.
    split_and!; [done|done|]. eapply rtc_l; [|done]. destruct op as [e now|f|]; [..|done]; simpl.
    + destruct (save_event_ok s e now HI) as (E & _).
      pose proof (write_save (spec_options (options s)) (abs s) e now) as Hs. by rewrite E in Hs.
    + destruct (delete_matching_ok s f HI) as (_ & _ & ->). constructor.
Qed.

(** Once an id reports [Deleted], it does so after every further sequence
    of saves and deletions: nothing but a wipe brings a deleted event back. *)
Theorem memory_deleted_forever o ops ops' i :
  let s := run (new o) ops in
  check_id s i = DbStatus.Deleted → forallb not_wipe ops' = true →
  check_id (run s ops') i = DbStatus.Deleted.
Proof.
  cbv zeta. intros Hc Hw. destruct (run_ok o ops) as (HI & _). set (s := run (new o) ops) in *.
  destruct (run_write_steps s ops' HI Hw) as (HI' & _ & Hr).
  assert (∀ s, check_id s i = Spec.check_id (abs s) i) as Hck.
  { intros s0. unfold check_id, Spec.check_id. simpl. by destruct (by_id s0 !! i). }
  rewrite Hck in *. unfold Spec.check_id in Hc.
  destruct (Spec.live (abs s) !! i) eqn:El; [done|]. case_decide; [|done].
  eapply dead_forever; eauto. apply (ix_id s), HI.
Qed.

(** Saving a request to vanish leaves no other event of its author, and
    every later save of an event of that author is refused. *)
Theorem memory_vanish_effect o ops req now s' :
  let s := run (new o) ops in
  opt_process_nip62 o = true → Event.kind req = Kind.REQUEST_TO_VANISH →
  save_event s req now = (Success, s') →
  (∀ e, live s' e → Event.pubkey e = Event.pubkey req → e = req) ∧
  (∀ e now', Event.pubkey e = Event.pubkey req → save_event s' e now' = (Rejected Vanished, s')).
Proof.
  cbv zeta. intros H62 Hk Hsave. destruct (run_ok o ops) as (HI & Ho & _).
  set (s := run (new o) ops) in *.
  destruct (save_success _ _ _ _ HI Hsave) as [Had Habs].
  destruct (save_event_ok s req now HI) as (_ & _ & Ho'). rewrite Hsave in Ho'. simpl in Ho'.
  rewrite Ho, accept_prepared in Habs. cbv zeta in Habs.
  assert (∃ st0, prepared (spec_options o) (abs s) req = Spec.vanish_request st0 (Event.pubkey req))
    as [st0 Hp].
  { unfold prepared. cbn [spec_options Spec.process_nip62 Spec.process_nip09].
    rewrite H62, Hk, N.eqb_refl. simpl. eauto. }
  rewrite Hp in Habs. split.
  - intros e Hl Ha. change (live_in (Spec.live (abs s')) e) in Hl. rewrite Habs in Hl.
    eapply lookup_weaken in Hl; [|apply evict_subseteq].
    apply live_in_insert in Hl as [?|[_ Hl]]; [done|].
    by apply live_in_filter in Hl as [_ ?].
  - intros e now' Ha. unfold save_event. rewrite Ho', Ho, H62, Ha.
    rewrite bool_decide_true; [done|]. change (vanished_authors s') with (Spec.vanished (abs s')).
    rewrite Habs. simpl. set_solver.
Qed.

(** With a capacity of [n], saving an event that is neither replaceable,
    addressable nor a request keeps the [n] newest of the old and the new one: the size is [min n (size + 1)] and every
    survivor precedes, in result order, every event that was dropped. *)
Theorem memory_capacity_newest o ops e now n s' :
  let s := run (new o) ops in
  opt_max_events o = Some n →
  Kind.is_replaceable (Event.kind e) = false → Kind.is_addressable (Event.kind e) = false →
  Event.kind e ≠ Kind.EVENT_DELETION → Event.kind e ≠ Kind.REQUEST_TO_VANISH →
  save_event s e now = (Success, s') →
  len s' = Nat.min (N.to_nat n) (S (len s)) ∧
  ∀ x y, live s' x → (y = e ∨ live s y) → ¬ live s' y → event_le x y.
Proof.
  cbv zeta. intros Hmax Hrep Hadd H5 H62 Hsave. destruct (run_ok o ops) as (HI & Ho & _).
  set (s := run (new o) ops) in *.
  destruct (save_success _ _ _ _ HI Hsave) as [Had Habs].
  assert (Spec.slot e = None) as Hslot
    by (unfold Spec.slot, addressable_coord; by rewrite Hrep, Hadd).
  set (m := <[Event.id e := e]> (by_id s)).
  assert (by_id s' = Spec.evict (Some n) m) as Hb.
  { change (by_id s') with (Spec.live (abs s')). rewrite Habs, Ho. unfold Spec.accept.
    rewrite (proj2 (N.eqb_neq _ _) H5), (proj2 (N.eqb_neq _ _) H62), !andb_false_r. simpl.
    by rewrite Hmax, no_slot_filter. }
  assert (by_id s !! Event.id e = None) as Hnew by apply (ad_new _ _ _ _ Had).
  assert (keyed m) as Hkm.
  { intros i x [[<- <-]|[_ E]]%lookup_insert_Some; [done|]. by apply (ix_id s (inv_indexed s HI)). }
  unfold len. rewrite Hb. split.
  - rewrite (evict_size_eq n m Hkm). unfold m. by rewrite map_size_insert_None.
  - intros x y Hx Hy Hny. eapply evict_keeps_newest; [done|exact Hx| |exact Hny].
    unfold m. apply live_in_insert. destruct Hy as [->|Hy]; [by left|]. right. split; [|done].
    intros E. unfold live_in in Hy. by rewrite E, Hnew in Hy.
Qed.
End theorems.

(** ** Convergence *)

Section convergence.
Context `{FasterHex, Secp256k1}.

Lemma run_saves s now l :
  Inv s →
  abs (run s ((λ e, OpSave e now) <$> l)) =
    save_all (spec_options (options s)) now (abs s) l.
Proof.
  unfold run, save_all. revert s. induction l as [|e l IH]; intros s HI; simpl; [done|].
  destruct (save_event_ok s e now HI) as (E & HI' & Ho).
  rewrite IH, Ho by done. by rewrite E.
Qed.

(** The versions of one replaceable or addressable slot converge: whatever
    the order in which the same versions are saved, the store ends up in the
    same state, and the survivor is the newest version (the lowest id among
    the newest ones). *)
Theorem memory_versions_converge o ops now sl l l' :
  let s := run (new o) ops in
  let save_them l := run s ((λ e, OpSave e now) <$> l) in
  opt_max_events o = None →
  (∀ e, live s e → Spec.slot e ≠ Some sl) →
  Forall (version (spec_options o) (abs s) now sl) l → NoDup (Event.id <$> l) → l ≡ₚ l' →
  abs (save_them l) = abs (save_them l') ∧
  ∀ w, w ∈ l → (∀ e, e ∈ l → event_le w e) ↔ live (save_them l) w.
Proof.
  cbv zeta. intros Hmax Hfree Hl Hnd Hp. destruct (run_ok o ops) as (HI & Ho & _).
  set (s := run (new o) ops) in *.
  assert (∀ i e', Spec.live (abs s) !! i = Some e' → Spec.slot e' ≠ Some sl) as Hfree'.
  { intros i e E. apply Hfree. unfold live_in. by rewrite (ix_id s (inv_indexed s HI) _ _ E). }
  assert (with_event (abs s) None = abs s) as H0s by done.
  assert (∀ l, Forall (version (spec_options o) (abs s) now sl) l → NoDup (Event.id <$> l) →
    abs (run s ((λ e, OpSave e now) <$> l)) = with_event (abs s) (winner l)) as Hrun.
  { intros k Hk Hkn. rewrite run_saves, Ho by done. rewrite <-H0s at 1.
    by apply (save_all_versions _ _ _ sl). }
  rewrite (Hrun l) by done.
  rewrite (Hrun l'); [|by rewrite <-Hp|by rewrite <-Hp].
  split; [by rewrite (winner_perm l l')|].
  intros w Hw. change (by_id (run s ((λ e, OpSave e now) <$> l)))
    with (Spec.live (abs (run s ((λ e, OpSave e now) <$> l)))). rewrite Hrun by done.
  destruct l as [|e0 l0]; [set_solver|]. destruct (winner_Some e0 l0) as [m Hm]. rewrite Hm. simpl.
  apply foldl_better_spec in Hm as [[?|Hin] Hle]; [done|].
  rewrite live_in_insert. split.
  - intros Hmin. left.
    assert (Event.id w = Event.id m) by (apply event_le_antisym_id; [by apply Hmin|apply Hle; by left]).
    by apply (NoDup_fmap_inj_elem Event.id (e0 :: l0)).
  - intros [->|[_ Hl']]; [intros e He; apply Hle; by left|].
    rewrite Forall_forall in Hl. exfalso. apply (Hfree w Hl'). by apply Hl.
Qed.
End convergence.

(** ** Instances of the theorems *)

#[local] Existing Instance sample_secp.

Definition sample_ops : list MemOp :=
  [OpSave note1 0; OpSave note2 0; OpSave note3 0; OpSave profile1 0; OpSave article1 0].

Abbreviation sample_run := (run (new mem_options_new) sample_ops).

Lemma memory_query_refines_witness :
  db_query sample_run (Filter.add_author Filter.new alice) =
    query_ref (by_id sample_run) (Filter.add_author Filter.new alice).
Proof.
  refine (proj1 (memory_query_refines mem_options_new sample_ops (Filter.add_author Filter.new alice)) _).
  vm_compute. exact I.
Defined.

Definition deletion1_request : Nip09.DeletionRequest :=
  Nip09.mkRequest [eid 10; eid 11] [] [] EmptyString.

Lemma memory_deletion_effect_witness :
  let s' := (save_event sample_run deletion1 0).2 in
  (∀ e, live sample_run e → live s' e ↔ ¬ Spec.targeted deletion1 deletion1_request e) ∧
  check_id s' (eid 10) = DbStatus.Deleted ∧ check_id s' (eid 11) = DbStatus.Saved.
Proof.
  intros s'.
  destruct (memory_deletion_effect mem_options_new sample_ops deletion1 deletion1_request 0 s')
    as [Hlive Hdead];
    [reflexivity|reflexivity|vm_compute; reflexivity
    |subst s'; apply pair_by_fst; vm_compute; reflexivity|].
  split; [exact Hlive|]. split; [|vm_compute; reflexivity].
  apply (Hdead (eid 10)); [left|apply (bool_decide_unpack _); vm_compute; exact I|vm_compute; reflexivity].
Defined.

Lemma memory_deleted_forever_witness :
  check_id (run (run (new mem_options_new) (sample_ops ++ [OpSave deletion1 0]))
              [OpSave note1 0; OpSave note3 1]) (eid 10) = DbStatus.Deleted.
Proof. apply memory_deleted_forever; vm_compute; reflexivity. Defined.

Lemma memory_vanish_effect_witness :
  let s' := (save_event sample_run vanish1 0).2 in
  (∀ e, live s' e → Event.pubkey e = alice → e = vanish1) ∧
  save_event s' note1 0 = (Rejected Vanished, s').
Proof.
  intros s'.
  destruct (memory_vanish_effect mem_options_new sample_ops vanish1 0 s') as [Hlive Hrej];
    [reflexivity|reflexivity|subst s'; apply pair_by_fst; vm_compute; reflexivity|].
  split; [exact Hlive|]. apply Hrej. reflexivity.
Defined.

Definition small_options : MemoryDatabaseOptions := with_max_events mem_options_new (Some 2%N).

Lemma memory_capacity_newest_witness :
  len (save_event (run (new small_options) [OpSave note1 0; OpSave note3 0]) note2 0).2 = 2%nat.
Proof.
  destruct (memory_capacity_newest small_options [OpSave note1 0; OpSave note3 0] note2 0 2
    (save_event (run (new small_options) [OpSave note1 0; OpSave note3 0]) note2 0).2) as [Hlen _];
    [reflexivity..|discriminate|discriminate
    |apply pair_by_fst; vm_compute; reflexivity|].
  etransitivity; [exact Hlen|]. vm_compute. reflexivity.
Defined.

Lemma sample_version (e : Event) :
  Spec.admission (spec_options mem_options_new) (abs (new mem_options_new)) e 0 = Success →
  Spec.slot e = Some (Kind.METADATA, alice, None) →
  version (spec_options mem_options_new) (abs (new mem_options_new)) 0 (Kind.METADATA, alice, None) e.
Proof. intros Ha Hs. split; [done|]. by apply admission_success. Qed.

Lemma memory_versions_converge_witness :
  let save_them l := run (new mem_options_new) ((λ e, OpSave e 0%N) <$> l) in
  abs (save_them [profile1; profile2]) = abs (save_them [profile2; profile1]) ∧
  live (save_them [profile1; profile2]) profile2.
Proof.
  destruct (memory_versions_converge mem_options_new [] 0 (Kind.METADATA, alice, None)
    [profile1; profile2] [profile2; profile1]) as [Hab Hw].
  - reflexivity.
  - intros e Hl. discriminate Hl.
  - repeat constructor; try (vm_compute; reflexivity);
      apply sample_version; vm_compute; reflexivity.
  - apply (bool_decide_unpack _). vm_compute. exact I.
  - apply perm_swap.
  - split; [exact Hab|]. apply Hw; [right; left|].
    intros e He. apply elem_of_cons in He as [->|He]; [left; vm_compute; reflexivity|].
    apply list_elem_of_singleton in He as ->. reflexivity.
Defined.
