(* ===== verification/RedbTheorems.v ===== *)
(** * The redb backend: theorems, and the agreement of the two backends

    Whole executions of the redb store refine the abstract store, and on the
    same sequence of writes the redb and the in-memory backend give the same
    outcomes and the same answers. *)

From Stdlib Require Import Ascii NArith Lia.
From S2P Require Import Prelude Encoding Text Ids Tags Event Filter Storage SpecProofs Samples RedbKeys Redb.
From S2P Require Import RedbProofs Memory MemoryProofs MemoryTheorems.

(** ** The redb backend: instances of its interfaces

    A table engine and an event encoding that satisfy [KvTableLaws] and
    [PostcardLaws], to run the store on concrete inputs. *)

(** ** Tables as finite maps *)

Section map_table.
Context {V : Type}.

Definition key_le (a b : list byte * V) : Prop := bytes_le a.1 b.1.
#[global] Instance key_le_dec a b : Decision (key_le a b).
Proof. unfold key_le. apply _. Defined.
#[global] Instance key_le_total : Total key_le.
Proof. intros a b. apply (total bytes_le). Qed.
#[global] Instance key_le_trans : Transitive key_le.
Proof. intros a b c. unfold key_le. apply (transitivity (R := bytes_le)). Qed.

Definition map_iter (m : gmap (list byte) V) : list (list byte * V) :=
  merge_sort key_le (map_to_list m).

Definition in_range (lo : list byte) (hi : option (list byte)) (p : list byte * V) : Prop :=
  bytes_le lo p.1 ∧ match hi with Some h => bytes_lt p.1 h | None => True end.
#[global] Instance in_range_dec lo hi p : Decision (in_range lo hi p).
Proof. unfold in_range. destruct hi; apply _. Defined.

Definition map_range (m : gmap (list byte) V) lo hi : list (list byte * V) :=
  filter (in_range lo hi) (map_iter m).

Lemma StronglySorted_strict (l : list (list byte * V)) :
  NoDup l.*1 → StronglySorted key_le l → StronglySorted (λ a b, bytes_lt a.1 b.1) l.
Proof.
  intros Hnd Hs. induction Hs as [|x l _ IH Hx]; [constructor|].
  rewrite fmap_cons, NoDup_cons in Hnd. destruct Hnd as [Hn Hnd]. constructor; [by apply IH|].
  rewrite Forall_forall in *. intros y Hy. specialize (Hx y Hy). unfold key_le, bytes_le in Hx.
  unfold bytes_lt. destruct (bytes_cmp x.1 y.1) eqn:E; [|done|done].
  apply bytes_cmp_eq in E. destruct Hn. rewrite E. by apply list_elem_of_fmap_2.
Qed.

Lemma map_iter_sorted m : StronglySorted (λ a b, bytes_lt a.1 b.1) (map_iter m).
Proof.
  apply StronglySorted_strict.
  - unfold map_iter. rewrite merge_sort_Permutation. apply NoDup_fst_map_to_list.
  - apply Sorted_StronglySorted; [apply _|]. apply Sorted_merge_sort; apply _.
Qed.
End map_table.

#[global] Instance map_table : KvTable (gmap (list byte)) := {|
  kv_new V := ∅;
  kv_get V t k := t !! k;
  kv_insert V t k v := <[k := v]> t;
  kv_remove V t k := delete k t;
  kv_range V t lo hi := map_range t lo hi;
  kv_iter V t := map_iter t;
  kv_retain V t p := filter (λ kv, p kv.1 kv.2 = true) t;
|}.

#[global] Instance map_table_laws : KvTableLaws (gmap (list byte)).
Proof.
  refine {| kv_map V t := t |}; try done.
  - intros V t lo hi k v. simpl. unfold map_range. rewrite list_elem_of_filter.
    unfold map_iter. rewrite merge_sort_Permutation, elem_of_map_to_list. unfold in_range. simpl. tauto.
  - intros V t lo hi. simpl. eapply StronglySorted_sublist; [apply filter_sublist_of|].
    apply map_iter_sorted.
  - intros V t k v. simpl. unfold map_iter. by rewrite merge_sort_Permutation, elem_of_map_to_list.
  - intros V t. apply map_iter_sorted.
Defined.

(** ** An event encoding *)

#[global] Instance Tag_countable : Countable Tag.
Proof. exact (inj_countable' Tag.values Tag.mk ltac:(by intros [])). Defined.

#[global] Instance Event_countable : Countable Event.
Proof.
  exact (inj_countable'
    (λ e, (Event.id e, (Event.pubkey e, (Event.created_at e, (Event.kind e,
            (Event.tags e, (Event.content e, Event.sig e)))))))
    (λ p, let '(i, (pk, (ts, (k, (tags, (c, s)))))) := p in Event.mk i pk ts k tags c s)
    ltac:(by intros [])).
Defined.

Fixpoint bits (p : positive) : list byte :=
  match p with xH => [] | xO q => x00 :: bits q | xI q => x01 :: bits q end.
Fixpoint unbits (l : list byte) : positive :=
  match l with
  | [] => xH
  | b :: r => if decide (b = x00) then xO (unbits r) else xI (unbits r)
  end.

Lemma unbits_bits p : unbits (bits p) = p.
Proof. induction p; simpl; by rewrite ?IHp. Qed.

Section postcard.
Context `{FasterHex}.
#[global] Instance countable_postcard : Postcard := {|
  pc_to_allocvec e := Some (bits (encode e));
  pc_from_bytes b := decode (unbits b);
  pc_take_head b :=
    e ← decode (A := Event) (unbits b);
    Some (EventId.to_hex (Event.id e), PublicKey.to_hex (Event.pubkey e), Event.created_at e);
  pc_take_view b :=
    e ← decode (A := Event) (unbits b);
    Some (EventId.to_hex (Event.id e), PublicKey.to_hex (Event.pubkey e), Event.created_at e,
          Event.kind e, Tag.values <$> Event.tags e);
|}.
End postcard.

#[global] Instance countable_postcard_laws `{FasterHex, Secp256k1} : PostcardLaws.
Proof.
  split.
  - intros e _. by eexists.
  - intros e b _ [= <-]. simpl. rewrite unbits_bits. apply decode_encode.
  - intros e b _ [= <-]. simpl. by rewrite unbits_bits, decode_encode.
  - intros e b _ [= <-]. simpl. by rewrite unbits_bits, decode_encode.
Qed.

(** ** A run of the store *)

#[local] Existing Instance sample_secp.

Definition sample_redb : Redb.WriteTables (gmap (list byte)) :=
  foldl (λ t e, (Redb.save_event redb_options_new t e 0).2) Redb.open
    [note1; note2; profile1; profile2; article1; article2].

Example sample_redb_queries :
  Redb.db_query sample_redb (Filter.add_author Filter.new alice) = Ok [article2; profile2; note1] ∧
  Redb.count sample_redb (Filter.add_kind Filter.new Kind.TEXT_NOTE) = Ok 2%N.
Proof. vm_compute. split; reflexivity. Qed.

(** ** Executions *)

Section executions.
Context {T : Type → Type} `{KvTable T, !KvTableLaws T}.
Context `{FasterHex, !FasterHexLaws, Secp256k1, Postcard, !PostcardLaws}.

Definition redb_op (o : RedbDatabaseOptions) (t : Redb.WriteTables T) (op : MemOp) :
    Redb.WriteTables T :=
  match op with
  | OpSave e now => (Redb.save_event o t e now).2
  | OpDelete f => (Redb.delete_matching t f).2
  | OpWipe => Redb.wipe t
  end.
Definition redb_run (o : RedbDatabaseOptions) (ops : list MemOp) : Redb.WriteTables T :=
  foldl (redb_op o) Redb.open ops.

(** The abstract store under the same operations; a deletion ignores the limit. *)
Definition spec_op (o : Spec.options) (st : Spec.t) (op : MemOp) : Spec.t :=
  match op with
  | OpSave e now => (Spec.save o st e now).2
  | OpDelete f => Spec.delete_events st (query_ref (Spec.live st) (Filter.remove_limit f))
  | OpWipe => Spec.empty
  end.
Definition spec_run (o : Spec.options) (ops : list MemOp) : Spec.t :=
  foldl (spec_op o) Spec.empty ops.

(** The arguments the types of the program allow. *)
Definition op_ok (op : MemOp) : Prop :=
  match op with
  | OpSave e _ => stored_ok e
  | OpDelete f => kinds_in_range f
  | OpWipe => True
  end.

Lemma matching_ids_ok t st f ids :
  Repr t st → Redb.matching_ids t f ids = Ok (Event.id <$> found st f ids).
Proof.
  intros R. induction ids as [|i ids IH]; [done|]. cbn [Redb.matching_ids].
  rewrite (get_event t st i R). unfold found. cbn [omap list_omap]. fold (found st f ids).
  destruct (Spec.live st !! i) as [e|] eqn:E; simpl; [|apply IH].
  destruct (decode_payload t st i e R E) as (_ & _ & Hv). rewrite Hv. simpl.
  rewrite (match_decoded t st i e f R E), IH. simpl. case_bool_decide as Hm.
  - rewrite decide_True by done. simpl. by rewrite (r_keyed _ _ R _ _ E).
  - by rewrite decide_False.
Qed.

Lemma matches_remove_limit f e : matches (Filter.remove_limit f) e ↔ matches f e.
Proof. unfold matches. rewrite !Filter.match_event_default. done. Qed.

Lemma elem_of_query_ref m f e :
  keyed m → e ∈ query_ref m (Filter.remove_limit f) ↔ live_in m e ∧ matches f e.
Proof.
  intros Hk. unfold query_ref. simpl. rewrite list_elem_of_filter, elem_of_sorted_events by done.
  rewrite matches_remove_limit. unfold live_in. tauto.
Qed.

Lemma delete_matching_repr t st f :
  Repr t st → kinds_in_range f →
  ∃ t', Redb.delete_matching t f = (Ok tt, t') ∧
    Repr t' (Spec.delete_events st (query_ref (Spec.live st) (Filter.remove_limit f))).
Proof.
  intros R Hk. unfold Redb.delete_matching. rewrite (matching_ids_ok t st f _ R).
  destruct (remove_all_repr (Event.id <$> found st f (Redb.candidate_ids t f)) t st R) as (t' & -> & R').
  exists t'. split; [done|].
  assert (filter (λ p, p.1 ∉ (Event.id <$> found st f (Redb.candidate_ids t f))) (Spec.live st) =
    filter (λ p, p.2 ∉ query_ref (Spec.live st) (Filter.remove_limit f)) (Spec.live st)) as E; [|by rewrite E in R'].
  apply map_filter_ext. intros i e Ei. simpl. pose proof (r_keyed _ _ R _ _ Ei) as Eid.
  rewrite elem_of_query_ref by apply R. rewrite list_elem_of_fmap.
  setoid_rewrite elem_of_found; [|done..].
  assert (live_in (Spec.live st) e) as Hl by (unfold live_in; by rewrite Eid).
  split; intros Hn Hx; apply Hn.
  - exists e. naive_solver.
  - destruct Hx as (e' & E' & Hl' & Hm). assert (e' = e) as -> by (unfold live_in in *; congruence). auto.
Qed.

Lemma redb_op_repr o t st op :
  Repr t st → op_ok op → Repr (redb_op o t op) (spec_op (redb_spec_options o) st op).
Proof.
  intros R Hok. destruct op as [e now|f|]; simpl in *.
  - destruct (save_event_repr o t st e now R Hok) as (status & t' & -> & _ & R'). done.
  - destruct (delete_matching_repr t st f R Hok) as (t' & -> & R'). done.
  - apply wipe_repr.
Qed.

Lemma redb_run_repr o ops :
  Forall op_ok ops → Repr (redb_run o ops) (spec_run (redb_spec_options o) ops).
Proof.
  unfold redb_run, spec_run. induction ops as [|op ops IH] using rev_ind; simpl.
  - intros _. apply open_repr.
  - rewrite Forall_app, Forall_singleton, !foldl_snoc. intros [? ?]. apply redb_op_repr; auto.
Qed.

Lemma spec_run_reachable o ops : rtc (spec_step o) Spec.empty (spec_run o ops).
Proof.
  unfold spec_run. induction ops as [|op ops IH] using rev_ind; simpl; [apply rtc_refl|].
  rewrite foldl_snoc. eapply rtc_r; [done|]. destruct op; constructor.
Qed.

Lemma db_query_repr t st f :
  Repr t st → kinds_in_range f → Filter.limit f = None →
  Redb.db_query t f = Ok (query_ref (Spec.live st) f).
Proof.
  intros R Hk Hlim. unfold Redb.db_query. rewrite (query_found t st f R). rewrite Hlim. simpl.
  f_equal. apply from_unsorted_ok.
  - apply query_ref_sorted.
  - unfold query_ref. rewrite Hlim. simpl. apply NoDup_filter, NoDup_sorted_events, R.
  - intros e. rewrite (elem_of_found t st f e R Hk). unfold query_ref. rewrite Hlim. simpl.
    rewrite list_elem_of_filter, elem_of_sorted_events by apply R. unfold live_in. tauto.
  - intros e1 e2. unfold query_ref. rewrite Hlim. simpl. rewrite !list_elem_of_filter.
    rewrite !elem_of_sorted_events by apply R. intros [_ H1'] [_ H2'] E. congruence.
Qed.

(** ** Theorems *)

(** C2: after any sequence of operations a save never fails with a codec
    error, its outcome is the abstract one, and the tables it leaves represent
    the abstract next state. *)
Theorem redb_save_refines o ops e now :
  Forall op_ok ops → stored_ok e →
  let st := spec_run (redb_spec_options o) ops in
  ∃ status t', Redb.save_event o (redb_run o ops) e now = (Ok status, t') ∧
    (Spec.save (redb_spec_options o) st e now).1 = status ∧
    Repr t' (Spec.save (redb_spec_options o) st e now).2.
Proof.
  intros Hops He. cbv zeta. apply save_event_repr; [|done]. by apply redb_run_repr.
Qed.

(** After any sequence of operations the seven tables represent a
    consistent abstract state: one event per slot, nothing ephemeral, nothing
    tombstoned. *)
Theorem redb_invariant o ops :
  Forall op_ok ops →
  let st := spec_run (redb_spec_options o) ops in
  Repr (redb_run o ops) st ∧ Coherent (redb_spec_options o) st.
Proof.
  intros Hops. cbv zeta. split; [by apply redb_run_repr|].
  apply (Coherent_reachable _ _ (spec_run_reachable _ ops)).
Qed.

(** A query without a limit, answered from the ids list, the
    author/kind/time index scans and the zero-parse projection, is the full
    scan's answer in result order. *)
Theorem redb_query_refines o ops f :
  Forall op_ok ops → kinds_in_range f → Filter.limit f = None →
  Redb.db_query (redb_run o ops) f =
    Ok (query_ref (Spec.live (spec_run (redb_spec_options o) ops)) f).
Proof. intros Hops Hk Hl. apply db_query_repr; auto. by apply redb_run_repr. Qed.

(** On every filter and limit, [count] is the number of events [query]
    returns and [negentropy_items] are their ids and timestamps. *)
Theorem redb_count_negentropy o ops f :
  Forall op_ok ops →
  ∃ l, Redb.query (redb_run o ops) f = Ok l ∧
       Redb.count (redb_run o ops) f = Ok (N.of_nat (length l)) ∧
       Redb.negentropy_items (redb_run o ops) f =
         Ok ((λ e, (Event.id e, Event.created_at e)) <$> l).
Proof.
  intros Hops. pose proof (redb_run_repr o ops Hops) as R. set (t := redb_run o ops) in *.
  set (st := spec_run (redb_spec_options o) ops) in *.
  eexists. split; [apply (query_found t st f R)|].
  pose proof (query_loop_ok t st f (Filter.limit f) (Redb.candidate_ids t f) [] R) as Hq.
  split.
  - unfold Redb.count. pose proof (count_loop_ok t f (Filter.limit f) (Redb.candidate_ids t f) []) as Hc.
    rewrite Hq in Hc. etrans; [apply Hc; eauto|]. simpl. do 3 f_equal.
    by destruct (Filter.limit f); simpl; rewrite ?N.sub_0_r.
  - unfold Redb.negentropy_items.
    etrans; [apply (negentropy_loop_ok t st f (Filter.limit f) _ [] R)|]. simpl. do 2 f_equal.
    by destruct (Filter.limit f); simpl; rewrite ?N.sub_0_r.
Qed.

(** *** The two backends agree *)

Definition mem_save_all (s : MemoryStore) (l : list (Event * Timestamp)) :
    list SaveEventStatus * MemoryStore :=
  foldl (λ acc p, let '(st, s') := save_event acc.2 p.1 p.2 in (acc.1 ++ [st], s')) ([], s) l.
Definition redb_save_all (o : RedbDatabaseOptions) (t : Redb.WriteTables T)
    (l : list (Event * Timestamp)) :
    list (result SaveEventStatus Codec.Error) * Redb.WriteTables T :=
  foldl (λ acc p, let '(st, t') := Redb.save_event o acc.2 p.1 p.2 in (acc.1 ++ [st], t')) ([], t) l.

Definition mem_of_redb (o : RedbDatabaseOptions) : MemoryDatabaseOptions :=
  mkMemOptions None (process_nip09 o) false.

Lemma saves_agree o l :
  Forall (λ p, stored_ok p.1) l →
  let m := mem_save_all (new (mem_of_redb o)) l in
  let r := redb_save_all o Redb.open l in
  r.1 = (Ok <$> m.1) ∧ Inv m.2 ∧ options m.2 = mem_of_redb o ∧ Repr r.2 (abs m.2).
Proof.
  cbv zeta. unfold mem_save_all, redb_save_all.
  induction l as [|[e now] l IH] using rev_ind; intros Hl.
  - split_and!; [done|apply Inv_empty|done|apply open_repr].
  - apply Forall_app in Hl as [Hl He]. rewrite Forall_singleton in He. simpl in He. rewrite !foldl_snoc.
    destruct (IH Hl) as (E1 & HI & Ho & R).
    destruct (foldl _ ([], new _) l) as [ms s]. destruct (foldl _ ([], Redb.open) l) as [rs t].
    simpl in *. subst rs.
    destruct (save_event_ok s e now HI) as (Es & HI' & Ho').
    destruct (save_event_repr o t (abs s) e now R He) as (status & t' & -> & Est & R').
    rewrite Ho in Es. change (spec_options (mem_of_redb o)) with (redb_spec_options o) in Es.
    rewrite Es in Est, R'. destruct (save_event s e now) as [st s']. simpl in *.
    rewrite fmap_app. simpl. split_and!; [by subst|done|congruence|done].
Qed.

(** C3: the redb backend and the in-memory one with the options of redb (the same
    NIP-09 setting, no capacity and NIP-62 off, which redb does not process),
    accept and refuse the same well-formed events for the same reasons, agree on
    the status of every id, and answer alike every query without a limit whose
    kinds are 16-bit numbers and which, when memory answers it through the
    coordinate index, has one entry per letter in its tag map while no live event
    carries a [d] value other than its first. *)
Theorem backends_agree o l :
  Forall (λ p, stored_ok p.1) l →
  let m := mem_save_all (new (mem_of_redb o)) l in
  let r := redb_save_all o Redb.open l in
  r.1 = (Ok <$> m.1) ∧
  (∀ i, Redb.check_id r.2 i = check_id m.2 i) ∧
  (∀ f, coordinate_ok m.2 f → kinds_in_range f → Filter.limit f = None →
     Redb.db_query r.2 f = Ok (db_query m.2 f)).
Proof.
  intros Hl. destruct (saves_agree o l Hl) as (E & HI & Ho & R). cbv zeta.
  split_and!; [done|..].
  - intros i. rewrite (check_id_repr _ _ i R). unfold Spec.check_id, check_id. simpl.
    by destruct (by_id _ !! i).
  - intros f Hf Hk Hlim. rewrite (db_query_repr _ _ f R Hk Hlim). simpl.
    unfold db_query, Events.from_sorted. by rewrite query_owned_ref by (done || apply HI).
Qed.
End executions.

(** A range scan bounded by [upper_bound] visits exactly the keys that
    extend the prefix, among keys at least as long as the prefix. *)
Theorem upper_bound_exact prefix key :
  (length prefix ≤ length key)%nat →
  (bytes_le prefix key ∧
   match Keys.upper_bound prefix with Some hi => bytes_lt key hi | None => True end) ↔
  ∃ suffix, key = prefix ++ suffix.
Proof. apply Keys.in_scan_prefix. Qed.

(** Byte order on [by_created_at] keys is the order of the timestamps, then
    of the ids. *)
Lemma by_created_at_order ts i ts' i' :
  (ts <= Dec.u64_max)%N → (ts' <= Dec.u64_max)%N →
  bytes_lt (Keys.by_created_at ts i) (Keys.by_created_at ts' i') ↔
  (ts < ts')%N ∨ (ts = ts' ∧ bytes_lt (EventId.to_byte_array i) (EventId.to_byte_array i')).
Proof.
  intros Ha Hb. unfold bytes_lt, Keys.by_created_at. rewrite Keys.bytes_cmp_ts_id by done.
  destruct (N.compare_spec ts ts'); naive_solver lia.
Qed.

(** A filter accepts the zero-parse projection of a stored payload exactly
    when it accepts the event itself, under every option set. *)
Theorem stored_view_matches `{FasterHex, !FasterHexLaws, Secp256k1, Postcard, !PostcardLaws}
    (e : Event) (b : list byte) (f : Filter) (opts : MatchEventOptions) :
  stored_ok e → Codec.encode e = Ok b →
  ∃ v, Codec.decode_match_view b = Ok v ∧
       Filter.match_event f v opts = Filter.match_event f e opts.
Proof.
  intros He Hb. exists (Codec.view_of e). split; [by apply Codec.decode_match_view_encode|].
  apply Codec.match_view, He.
Qed.

(** ** Instances of the theorems *)

#[local] Existing Instance sample_secp.

Abbreviation map_run := (redb_run (T := gmap (list byte)) redb_options_new).

Definition sample_writes : list MemOp :=
  [OpSave note1 0; OpSave note2 0; OpSave profile1 0; OpSave article1 0; OpSave deletion1 0;
   OpDelete (Filter.add_author Filter.new bob)].

Lemma sample_writes_ok : Forall op_ok sample_writes.
Proof.
  repeat constructor; try (apply (bool_decide_unpack _); vm_compute; exact I).
  intros ks E. discriminate E.
Qed.

Lemma profile2_ok : stored_ok profile2.
Proof. split; [reflexivity|]. apply (bool_decide_unpack _). vm_compute. exact I. Qed.

Lemma redb_save_refines_witness :
  (Redb.save_event redb_options_new (map_run sample_writes) profile2 0).1 = Ok Success.
Proof.
  destruct (redb_save_refines (T := gmap (list byte)) redb_options_new sample_writes profile2 0
    sample_writes_ok profile2_ok) as (status & t' & E & Est & _).
  rewrite E. simpl. f_equal. rewrite <-Est. vm_compute. reflexivity.
Defined.

Lemma redb_invariant_witness :
  Repr (map_run sample_writes) (spec_run (redb_spec_options redb_options_new) sample_writes).
Proof.
  destruct (redb_invariant (T := gmap (list byte)) redb_options_new sample_writes sample_writes_ok)
    as [R _]. exact R.
Defined.

Lemma redb_query_refines_witness :
  Redb.db_query (map_run sample_writes) (Filter.add_author Filter.new alice) =
    Ok [deletion1; profile1; article1].
Proof.
  etransitivity.
  - refine (redb_query_refines (T := gmap (list byte)) redb_options_new sample_writes
      (Filter.add_author Filter.new alice) sample_writes_ok _ eq_refl).
    intros ks E. discriminate E.
  - vm_compute. reflexivity.
Defined.

Lemma redb_count_negentropy_witness :
  ∃ l, Redb.query (map_run sample_writes) Filter.new = Ok l ∧
       Redb.count (map_run sample_writes) Filter.new = Ok (N.of_nat (length l)).
Proof.
  destruct (redb_count_negentropy (T := gmap (list byte)) redb_options_new sample_writes Filter.new
    sample_writes_ok) as (l & Hq & Hc & _).
  exists l. split; assumption.
Defined.

Lemma backends_agree_witness :
  let l := [(note1, 0); (profile1, 0); (profile2, 0); (deletion1, 0); (note1, 0)]%N in
  (redb_save_all (T := gmap (list byte)) redb_options_new Redb.open l).1 =
    [Ok Success; Ok Success; Ok Success; Ok Success; Ok (Rejected Deleted)].
Proof.
  intros l.
  destruct (backends_agree (T := gmap (list byte)) redb_options_new l) as [E _].
  - repeat constructor; apply (bool_decide_unpack _); vm_compute; exact I.
  - etransitivity; [exact E|]. vm_compute. reflexivity.
Defined.

Lemma upper_bound_exact_witness :
  (bytes_le [x01; xff] [x01; xff; x07] ∧ bytes_lt [x01; xff; x07] [x02; x00]) ∧
  Keys.upper_bound [x01; xff] = Some [x02; x00].
Proof.
  split; [|reflexivity].
  assert (∃ suffix, [x01; xff; x07] = [x01; xff] ++ suffix) as Hp by (exists [x07]; reflexivity).
  apply (upper_bound_exact [x01; xff] [x01; xff; x07]) in Hp; [exact Hp|simpl; lia].
Defined.

Lemma stored_view_matches_witness :
  ∃ b v, Codec.encode profile2 = Ok b ∧ Codec.decode_match_view b = Ok v ∧
    Filter.match_event (Filter.add_author Filter.new alice) v match_options_default = true.
Proof.
  destruct (Codec.encode_ok profile2 profile2_ok) as (b & Hb & _).
  destruct (stored_view_matches profile2 _ (Filter.add_author Filter.new alice) match_options_default
    profile2_ok Hb) as (v & Hv & Hm).
  eexists _, v. split; [exact Hb|]. split; [exact Hv|]. rewrite Hm. vm_compute. reflexivity.
Defined.
