(* ===== verification/Nips.v ===== *)
(** * Proof of work, relay addresses and client authentication

    [crates/nula-core/src/nips/nip13.rs], [src/types/relay_url.rs] and
    [src/nips/nip42.rs]: what the relay checks before it accepts an event and
    before it believes a client. *)

From Stdlib Require Import Ascii NArith Lia.
From S2P Require Import Prelude Encoding Text Ids Tags Event.

(** ** NIP-13 *)

Module Nip13.
Local Open Scope N_scope.

Definition NONCE_TAG : string := "nonce".

Inductive PowError :=
| InsufficientWork (actual expected : N)
| InsufficientCommitment (actual expected : N)
| InvalidCommitment
| MissingCommitment.

Inductive MineError :=
| Clock
| Builder (e : EventBuilder.Error)
| NonceExhausted.

#[global] Instance PowError_eq_dec : EqDecision PowError.
Proof. solve_decision. Defined.

Definition u8_max : N := 255.

(** [u8::saturating_add]. *)
Definition saturating_add8 (a b : N) : N := N.min u8_max (a + b).

(** [u8::leading_zeros]. *)
Definition leading_zeros (b : byte) : N := 8 - N.size (Byte.to_N b).

(** The loop of [count_leading_zero_bits], with [total] so far. *)
Fixpoint count_from (total : N) (bytes : list byte) : N :=
  match bytes with
  | [] => total
  | b :: rest =>
      if Byte.to_N b =? 0 then count_from (saturating_add8 total 8) rest
      else saturating_add8 total (leading_zeros b)
  end.

Definition count_leading_zero_bits (bytes : list byte) : N := count_from 0 bytes.

Definition event_id_difficulty (id : EventId) : N :=
  count_leading_zero_bits (EventId.to_byte_array id).

Definition committed_difficulty (event : Event) : result (option N) PowError :=
  match Tags.find_first (Event.tags event) (TagKind.from_wire NONCE_TAG) with
  | None => Ok None
  | Some tag =>
      match Tag.get tag 2 with
      | None => Ok None
      | Some commitment =>
          match Dec.parse_uint u8_max commitment with
          | Some d => Ok (Some d)
          | None => Err InvalidCommitment
          end
      end
  end.

Definition verify_pow (event : Event) (min_difficulty : N) : result unit PowError :=
  let actual := event_id_difficulty (Event.id event) in
  if actual <? min_difficulty then Err (InsufficientWork actual min_difficulty)
  else
    let? committed := committed_difficulty event in
    match committed with
    | Some commitment =>
        if commitment <? min_difficulty then Err (InsufficientCommitment commitment min_difficulty)
        else Ok tt
    | None => Ok tt
    end.

Definition verify_pow_strict (event : Event) (min_difficulty : N) : result unit PowError :=
  let? _ := verify_pow event min_difficulty in
  if 0 <? min_difficulty then
    let? committed := committed_difficulty event in
    match committed with None => Err MissingCommitment | Some _ => Ok tt end
  else Ok tt.

(** [Display for PowError]. *)
Definition pow_error_string (e : PowError) : string :=
  match e with
  | InsufficientWork actual expected =>
      "event id has " +:+ Dec.to_string actual +:+ " leading zero bits, need " +:+ Dec.to_string expected
  | InsufficientCommitment actual expected =>
      "committed difficulty " +:+ Dec.to_string actual +:+ " < " +:+ Dec.to_string expected
  | InvalidCommitment => "nonce tag commitment is not a valid u8 integer"
  | MissingCommitment => "strict PoW verification requires a committed difficulty"
  end.

Definition make_nonce_tag (nonce difficulty : N) : Tag :=
  Tag.with_ (TagKind.from_wire NONCE_TAG) [Dec.to_string nonce; Dec.to_string difficulty].

Record PowAttempt := mkAttempt {
  unsigned : UnsignedEvent;
  iterations : N;
  difficulty : N;
}.

Section mining.
Context `{FasterHex, EventCrypto}.

(** The event tried with nonce [n]. *)
Definition candidate (pubkey : PublicKey) (created_at : Timestamp) (b : EventBuilder) (d n : N) :
    UnsignedEvent :=
  let prefix := filter (λ t, Tag.kind t ≠ TagKind.from_wire NONCE_TAG)
                  (Tags.items (EventBuilder.tags b)) in
  UnsignedEvent.new pubkey created_at (EventBuilder.kind b)
    (prefix ++ [make_nonce_tag n d]) (EventBuilder.content b).

(** The [loop]; [None]: more than [fuel] iterations. *)
Fixpoint mine_loop (fuel : nat) (pubkey : PublicKey) (created_at : Timestamp) (b : EventBuilder)
    (d its : N) : option (result PowAttempt MineError) :=
  match fuel with
  | O => None
  | S fuel' =>
      if its =? Dec.u64_max then Some (Err NonceExhausted)
      else
        let its := its + 1 in
        let u := candidate pubkey created_at b d its in
        if d <=? event_id_difficulty (UnsignedEvent.id u) then Some (Ok (mkAttempt u its d))
        else mine_loop fuel' pubkey created_at b d its
  end.

Definition mine (fuel : nat) (clock : option Timestamp) (b : EventBuilder) (pubkey : PublicKey)
    (d : N) : option (result PowAttempt MineError) :=
  match (match EventBuilder.created_at b with Some ts => Some ts | None => clock end) with
  | None => Some (Err Clock)
  | Some created_at => mine_loop fuel pubkey created_at b d 0
  end.

Definition into_signed_with_keys (a : PowAttempt) (keys : secret_key) :
    result Event EventBuilder.Error :=
  map_err EventBuilder.Signer (UnsignedEvent.sign_with_keys (unsigned a) keys).

Definition mine_and_sign (fuel : nat) (clock : option Timestamp) (b : EventBuilder)
    (keys : secret_key) (d : N) : option (result Event MineError) :=
  match mine fuel clock b (xonly_public_key keys) d with
  | None => None
  | Some (Err e) => Some (Err e)
  | Some (Ok a) => Some (map_err Builder (into_signed_with_keys a keys))
  end.
End mining.

(** *** What the difficulty means *)

Lemma size_le_pow v k : N.size v <= k ↔ v < 2 ^ k.
Proof.
  split; intros Hk.
  - pose proof (N.size_gt v). pose proof (N.pow_le_mono_r 2 (N.size v) k). lia.
  - destruct (decide (v = 0)) as [->|Hv]; [simpl; lia|].
    pose proof (N.size_log2 v Hv) as ->. apply N.le_succ_l. apply N.log2_lt_pow2; lia.
Qed.

Lemma size_byte_value b l :
  Byte.to_N b ≠ 0 →
  N.size (BigEndian.from_be_bytes (b :: l)) = N.size (Byte.to_N b) + 8 * N.of_nat (length l).
Proof.
  intros Hb. rewrite BigEndian.value_cons. pose proof (BigEndian.value_bound l) as Hv.
  assert (256 ^ N.of_nat (length l) = 2 ^ (8 * N.of_nat (length l))) as Hp
    by (rewrite N.pow_mul_r; done).
  rewrite Hp in *. set (m := 8 * N.of_nat (length l)) in *. set (x := Byte.to_N b) in *.
  set (v := BigEndian.from_be_bytes l) in *. clearbody m x v. clear Hp l b.
  assert (0 < 2 ^ m) by (apply N.neq_0_lt_0, N.pow_nonzero; done).
  pose proof (N.size_gt x) as Hgt.
  rewrite (N.size_log2 x Hb), (N.size_log2 (x * 2 ^ m + v)) by nia.
  rewrite (N.size_log2 x Hb) in Hgt. pose proof (N.log2_spec x ltac:(lia)) as [Hlo Hhi].
  rewrite (N.log2_unique (x * 2 ^ m + v) (N.log2 x + m)); [lia|lia|].
  rewrite <-N.add_succ_l, !N.pow_add_r. nia.
Qed.

Lemma count_from_spec total bytes :
  total <= u8_max →
  count_from total bytes =
    N.min u8_max (total + (8 * N.of_nat (length bytes) - N.size (BigEndian.from_be_bytes bytes))).
Proof.
  revert total. induction bytes as [|b bytes IH]; intros total Ht; cbn [count_from].
  - change (N.size (BigEndian.from_be_bytes [])) with 0. simpl length. lia.
  - destruct (N.eqb_spec (Byte.to_N b) 0) as [E|E].
    + rewrite IH by (unfold saturating_add8, u8_max; lia).
      rewrite BigEndian.value_cons, E, N.mul_0_l, N.add_0_l.
      assert (N.size (BigEndian.from_be_bytes bytes) <= 8 * N.of_nat (length bytes)).
      { apply size_le_pow. rewrite N.pow_mul_r. apply BigEndian.value_bound. }
      unfold saturating_add8. cbn [length]. lia.
    + rewrite size_byte_value by done. unfold saturating_add8, leading_zeros. cbn [length]. lia.
Qed.

(** An id has difficulty [d] when, as a 256-bit number, it is below [2^(256-d)]. *)
Lemma difficulty_spec id d :
  d <= u8_max →
  d <= event_id_difficulty id ↔
  BigEndian.from_be_bytes (EventId.to_byte_array id) < 2 ^ (256 - d).
Proof.
  intros Hd. unfold event_id_difficulty, count_leading_zero_bits.
  rewrite count_from_spec by done. rewrite EventId.length_to_byte_array, <-size_le_pow.
  change (8 * N.of_nat 32) with 256. unfold u8_max in *.
  assert (N.size (BigEndian.from_be_bytes (EventId.to_byte_array id)) <= 256); [|lia].
  apply size_le_pow. pose proof (BigEndian.value_bound (EventId.to_byte_array id)) as Hv.
  rewrite EventId.length_to_byte_array in Hv. exact Hv.
Qed.

(** *** Mining *)

Section mining_laws.
Context `{FasterHex, EventCrypto}.
Variables (pubkey : PublicKey) (created_at : Timestamp) (b : EventBuilder) (d : N).

Definition solves (n : N) : Prop :=
  d <= event_id_difficulty (UnsignedEvent.id (candidate pubkey created_at b d n)).

(** The first solution above [its]. *)
Definition first_above (its n : N) : Prop :=
  its < n ∧ n <= Dec.u64_max ∧ solves n ∧ ∀ m, its < m → m < n → ¬ solves m.

(** With fuel for all of [u64] the loop finds the first solution, or reports
    that there is none. *)
Lemma mine_loop_complete fuel its :
  its <= Dec.u64_max → (N.to_nat (Dec.u64_max - its) < fuel)%nat →
  (∃ n, first_above its n ∧
     mine_loop fuel pubkey created_at b d its =
       Some (Ok (mkAttempt (candidate pubkey created_at b d n) n d))) ∨
  ((∀ m, its < m → m <= Dec.u64_max → ¬ solves m) ∧
   mine_loop fuel pubkey created_at b d its = Some (Err NonceExhausted)).
Proof.
  revert its. induction fuel as [|fuel IH]; intros its Hle Hf; [lia|].
  cbn [mine_loop]. destruct (N.eqb_spec its Dec.u64_max) as [->|Hne].
  { right. split; [lia|done]. }
  destruct (N.leb_spec d (event_id_difficulty
    (UnsignedEvent.id (candidate pubkey created_at b d (its + 1))))) as [Hs|Hs].
  { left. exists (its + 1). split; [|done]. split_and!; [lia|lia|done|lia]. }
  assert (∀ m, its < m → m ≤ its + 1 → ¬ solves m) as Hno.
  { intros m ??. replace m with (its + 1) by lia. unfold solves. lia. }
  destruct (IH (its + 1)) as [(n & (Hlt & Hmax & Hsol & Hleast) & E)|[Hnone E]]; [lia|lia|..].
  - left. exists n. split; [|done]. split_and!; [lia|done|done|]. intros m ??.
    destruct (decide (m <= its + 1)); [by apply Hno|apply Hleast; lia].
  - right. split; [|done]. intros m ??. destruct (decide (m <= its + 1)); [by apply Hno|apply Hnone; lia].
Qed.
End mining_laws.

(** The miner's own [nonce] tag is the one the verifier reads. *)
Lemma candidate_commitment `{FasterHex, EventCrypto} pubkey ts b d n e :
  d <= u8_max → Event.tags e = UnsignedEvent.tags (candidate pubkey ts b d n) →
  committed_difficulty e = Ok (Some d).
Proof.
  intros Hd Ht. unfold committed_difficulty. rewrite Ht. simpl.
  rewrite Tags.find_first_app.
  rewrite (proj2 (Tags.find_first_None _ _))
    by (apply Forall_forall; intros t [? _]%list_elem_of_filter; done).
  unfold Tags.find_first, list_find. rewrite decide_True by apply Tag.kind_with_from_wire. simpl.
  unfold Tag.get. simpl.
  by rewrite Dec.parse_to_string.
Qed.

End Nip13.

(** ** Relay addresses *)

(** The [url] crate: parsing (with the text of its error), the accessors, and
    the two setters.  URLs can be hashed and compared; their order is that of
    their text. *)
Class UrlCrate := {
  url : Type;
  url_eq_dec :: EqDecision url;
  url_countable :: Countable url;
  url_parse : string → result url string;
  url_as_str : url → string;
  url_scheme : url → string;
  url_host_str : url → option string;
  url_port : url → option N;
  url_fragment : url → option string;
  url_without_fragment : url → url;
  url_without_port : url → option url;
}.

(** A printed URL reads back as itself; a setter changes its own part only, and
    removing what is not there changes nothing. *)
Class UrlCrateLaws `{UrlCrate} : Prop := {
  url_parse_as_str : ∀ u, url_parse (url_as_str u) = Ok u;
  without_fragment_fragment : ∀ u, url_fragment (url_without_fragment u) = None;
  without_fragment_id : ∀ u, url_fragment u = None → url_without_fragment u = u;
  without_fragment_scheme : ∀ u, url_scheme (url_without_fragment u) = url_scheme u;
  without_fragment_host : ∀ u, url_host_str (url_without_fragment u) = url_host_str u;
  without_port_port : ∀ u u', url_without_port u = Some u' → url_port u' = None;
  without_port_scheme : ∀ u u', url_without_port u = Some u' → url_scheme u' = url_scheme u;
  without_port_host : ∀ u u', url_without_port u = Some u' → url_host_str u' = url_host_str u;
  without_port_fragment : ∀ u u', url_without_port u = Some u' → url_fragment u' = url_fragment u;
}.
Arguments UrlCrateLaws : clear implicits.
Arguments UrlCrateLaws {_}.

(** [str::ends_with]. *)
Fixpoint ends_with (suffix s : string) : bool :=
  bool_decide (s = suffix) || match s with EmptyString => false | String _ s' => ends_with suffix s' end.

Module RelayUrl.

Inductive Error :=
| Parse (e : string)
| InvalidScheme (scheme : string)
| MissingHost (input : string)
| PortNotModifiable.

Section relay_url.
Context `{UrlCrate}.

Record t := mk { inner : url }.

#[global] Instance t_eq_dec : EqDecision t.
Proof. solve_decision. Defined.
#[global] Instance t_countable : Countable t.
Proof. exact (inj_countable' inner mk ltac:(by intros [])). Defined.

(** The default port of a relay scheme. *)
Definition default_port (scheme : string) : option N :=
  if decide (scheme = "ws") then Some 80%N
  else if decide (scheme = "wss") then Some 443%N
  else None.

Definition parse (input : string) : result t Error :=
  let? u := map_err Parse (url_parse input) in
  let? port := ok_or (default_port (url_scheme u)) (InvalidScheme (url_scheme u)) in
  match url_host_str u with
  | None => Err (MissingHost input)
  | Some _ =>
      let u := url_without_fragment u in
      if bool_decide (url_port u = Some port) then
        let? u := ok_or (url_without_port u) PortNotModifiable in Ok (mk u)
      else Ok (mk u)
  end.

Definition as_str (r : t) : string := url_as_str (inner r).
Definition scheme (r : t) : string := url_scheme (inner r).
Definition host (r : t) : string := default EmptyString (url_host_str (inner r)).
Definition is_secure (r : t) : bool := bool_decide (url_scheme (inner r) = "wss").

(** [Ord]: that of the text of the [url]. *)
Definition le (a b : t) : Prop := bytes_le (as_bytes (as_str a)) (as_bytes (as_str b)).

Definition is_onion (r : t) : bool := ends_with ".onion" (host r).

(** [Display for RelayUrlError]. *)
Definition error_string (e : Error) : string :=
  match e with
  | Parse e => "invalid relay URL: " +:+ e
  | InvalidScheme s => "invalid relay scheme `" +:+ s +:+ "`: expected `ws` or `wss`"
  | MissingHost s => "relay URL has no host: " +:+ s
  | PortNotModifiable => "relay URL cannot have its port modified"
  end.

(** What [parse] establishes. *)
Record normal (r : t) : Prop := {
  normal_scheme : scheme r = "ws" ∨ scheme r = "wss";
  normal_host : is_Some (url_host_str (inner r));
  normal_fragment : url_fragment (inner r) = None;
  normal_port : ∀ p, default_port (scheme r) = Some p → url_port (inner r) ≠ Some p;
}.

Context `{!UrlCrateLaws}.

#[global] Instance le_dec a b : Decision (le a b).
Proof. unfold le. apply _. Defined.
#[global] Instance le_trans : Transitive le.
Proof. intros a b c. unfold le. by intros ->. Qed.
#[global] Instance le_total : Total le.
Proof. intros a b. unfold le. apply (total bytes_le). Qed.

Lemma as_str_inj a b : as_str a = as_str b → a = b.
Proof.
  intros E. unfold as_str in E. apply (f_equal url_parse) in E. rewrite !url_parse_as_str in E.
  destruct a, b. simpl in *. congruence.
Qed.

#[global] Instance le_antisym : AntiSymm (=) le.
Proof.
  intros a b Hab Hba. apply as_str_inj, as_bytes_inj. by apply (anti_symm bytes_le).
Qed.

Lemma default_port_scheme s p : default_port s = Some p → s = "ws" ∨ s = "wss".
Proof. unfold default_port. repeat case_decide; naive_solver. Qed.

Lemma parse_normal input r : parse input = Ok r → normal r.
Proof.
  unfold parse. destruct (url_parse input) as [u|]; simpl; [|done].
  destruct (default_port (url_scheme u)) as [p|] eqn:Ep; simpl; [|done].
  destruct (url_host_str u) as [h|] eqn:Eh; [|done]. case_bool_decide as Hp.
  - destruct (url_without_port (url_without_fragment u)) as [u'|] eqn:Eu; simpl; [|done].
    intros [= <-]. split; unfold scheme; simpl.
    + rewrite (without_port_scheme _ _ Eu), without_fragment_scheme. by eapply default_port_scheme.
    + rewrite (without_port_host _ _ Eu), without_fragment_host, Eh. eauto.
    + by rewrite (without_port_fragment _ _ Eu), without_fragment_fragment.
    + by rewrite (without_port_port _ _ Eu).
  - intros [= <-]. split; unfold scheme; simpl.
    + rewrite without_fragment_scheme. by eapply default_port_scheme.
    + rewrite without_fragment_host, Eh. eauto.
    + apply without_fragment_fragment.
    + rewrite without_fragment_scheme. intros p'. rewrite Ep. by intros [= <-].
Qed.

Lemma parse_as_str r : normal r → parse (as_str r) = Ok r.
Proof.
  intros [Hs [h Hh] Hf Hp]. unfold parse, as_str, scheme in *. rewrite url_parse_as_str. simpl.
  assert (∃ p, default_port (url_scheme (inner r)) = Some p) as [p Ep].
  { destruct Hs as [-> | ->]; vm_compute; eauto. }
  rewrite Ep. simpl. rewrite Hh, without_fragment_id by done.
  rewrite bool_decide_false by by apply Hp. by destruct r.
Qed.
End relay_url.
Arguments t : clear implicits.
Arguments t {_}.

End RelayUrl.
Abbreviation RelayUrl := RelayUrl.t.

(** ** NIP-42 *)

Module Nip42.
Local Open Scope N_scope.

Definition RELAY_TAG : string := "relay".
Definition CHALLENGE_TAG : string := "challenge".
Definition DEFAULT_MAX_AGE_SECS : N := 600.

Inductive AuthError :=
| UnexpectedKind (k : N)
| MissingRelayTag
| MissingChallengeTag
| InvalidRelay (e : RelayUrl.Error)
| RelayMismatch (expected got : string)
| ChallengeMismatch
| TooOld (created_at now max_age : N)
| TooFuture (created_at now max_age : N).

(** [Display for AuthError]. *)
Definition error_string (e : AuthError) : string :=
  match e with
  | UnexpectedKind k => "expected kind 22242, got " +:+ Dec.to_string k
  | MissingRelayTag => "`relay` tag is missing or empty"
  | MissingChallengeTag => "`challenge` tag is missing or empty"
  | InvalidRelay e => RelayUrl.error_string e
  | RelayMismatch expected got =>
      "relay mismatch: expected `" +:+ expected +:+ "`, got `" +:+ got +:+ "`"
  | ChallengeMismatch => "challenge mismatch"
  | TooOld c now m =>
      "auth event is too old: created_at " +:+ Dec.to_string c +:+ " vs now " +:+ Dec.to_string now +:+
      " (max age " +:+ Dec.to_string m +:+ "s)"
  | TooFuture c now m =>
      "auth event is too far in the future: created_at " +:+ Dec.to_string c +:+ " vs now " +:+
      Dec.to_string now +:+ " (max skew " +:+ Dec.to_string m +:+ "s)"
  end.

Section nip42.
Context `{UrlCrate}.

Definition auth_event (relay : RelayUrl) (challenge : string) : EventBuilder :=
  EventBuilder.add_tag
    (EventBuilder.add_tag (EventBuilder.new Kind.AUTHENTICATION EmptyString)
       (Tag.with_ (TagKind.from_wire RELAY_TAG) [RelayUrl.as_str relay]))
    (Tag.with_ (TagKind.from_wire CHALLENGE_TAG) [challenge]).

Definition non_empty (s : string) : option string :=
  match s with EmptyString => None | _ => Some s end.

(** The last two checks. *)
Definition check_fresh (created_at now max_age : N) : result unit AuthError :=
  if (created_at <? now) && (max_age <? now - created_at) then Err (TooOld created_at now max_age)
  else if (now <? created_at) && (max_age <? created_at - now)
  then Err (TooFuture created_at now max_age)
  else Ok tt.

Definition verify_auth_event_against (event : Event) (relay : RelayUrl) (accepted : list string)
    (now : Timestamp) (max_age : N) : result unit AuthError :=
  if negb (Event.kind event =? Kind.AUTHENTICATION) then Err (UnexpectedKind (Event.kind event))
  else
    let? claimed := ok_or (Tags.find_first (Event.tags event) (TagKind.from_wire RELAY_TAG) ≫=
                           λ t, Tag.get t 1) MissingRelayTag in
    let? claimed_relay := map_err InvalidRelay (RelayUrl.parse claimed) in
    if negb (bool_decide (claimed_relay = relay))
    then Err (RelayMismatch (RelayUrl.as_str relay) (RelayUrl.as_str claimed_relay))
    else
      let? claimed_challenge :=
        ok_or (Tags.find_first (Event.tags event) (TagKind.from_wire CHALLENGE_TAG) ≫=
               λ t, Tag.get t 1 ≫= non_empty) MissingChallengeTag in
      if negb (bool_decide (claimed_challenge ∈ accepted)) then Err ChallengeMismatch
      else check_fresh (Event.created_at event) now max_age.

Definition verify_auth_event (event : Event) (relay : RelayUrl) (challenge : string)
    (now : Timestamp) (max_age : N) : result unit AuthError :=
  verify_auth_event_against event relay [challenge] now max_age.

(** What a verified response says. *)
Record responds (event : Event) (relay : RelayUrl) (challenge : string) (now : Timestamp)
    (max_age : N) : Prop := {
  responds_kind : Event.kind event = Kind.AUTHENTICATION;
  responds_relay : ∃ t s, Tags.find_first (Event.tags event) (TagKind.from_wire RELAY_TAG) = Some t ∧
    Tag.get t 1 = Some s ∧ RelayUrl.parse s = Ok relay;
  responds_challenge : challenge ≠ EmptyString ∧
    ∃ t, Tags.find_first (Event.tags event) (TagKind.from_wire CHALLENGE_TAG) = Some t ∧
    Tag.get t 1 = Some challenge;
  responds_fresh : now <= Event.created_at event + max_age ∧ Event.created_at event <= now + max_age;
}.

Lemma check_fresh_ok c now m :
  check_fresh c now m = Ok tt ↔ now <= c + m ∧ c <= now + m.
Proof.
  unfold check_fresh.
  destruct (N.ltb_spec c now), (N.ltb_spec m (now - c)); simpl;
    [split; [done|lia]|..];
    destruct (N.ltb_spec now c), (N.ltb_spec m (c - now)); simpl; split; (done || lia).
Qed.

Lemma verify_auth_event_ok event relay challenge now max_age :
  verify_auth_event event relay challenge now max_age = Ok tt ↔
  responds event relay challenge now max_age.
Proof.
  unfold verify_auth_event, verify_auth_event_against. split.
  - destruct (N.eqb_spec (Event.kind event) Kind.AUTHENTICATION) as [Hk|]; simpl; [|done].
    destruct (Tags.find_first _ (TagKind.from_wire RELAY_TAG)) as [t|] eqn:Et; simpl; [|done].
    destruct (Tag.get t 1) as [s|] eqn:Es; simpl; [|done].
    destruct (RelayUrl.parse s) as [r|] eqn:Er; simpl; [|done]. case_bool_decide as Hr; simpl; [|done].
    destruct (Tags.find_first _ (TagKind.from_wire CHALLENGE_TAG)) as [t'|] eqn:Et'; simpl; [|done].
    destruct (Tag.get t' 1) as [[|c s']|] eqn:Es'; simpl; [done| |done].
    case_bool_decide as Hc; simpl; [|done]. intros Hf%check_fresh_ok.
    apply list_elem_of_singleton in Hc as <-. subst r.
    split; [done|by exists t, s|split; [done|by exists t']|done].
  - intros [Hk (t & s & Et & Es & Er) [Hne (t' & Et' & Es')] Hf].
    rewrite Hk. simpl. rewrite Et. simpl. rewrite Es. simpl. rewrite Er. simpl.
    rewrite bool_decide_true by done. simpl. rewrite Et'. simpl. rewrite Es'. simpl.
    destruct challenge as [|c s']; [done|]. simpl. rewrite bool_decide_true by by left. simpl.
    by apply check_fresh_ok.
Qed.
End nip42.

End Nip42.
