(* ===== verification/Message.v ===== *)
(** * Messages between clients and relays

    [crates/nula-core/src/message]: subscription ids, the NIP-20 reason
    prefixes, the two message enums and their JSON array forms.  The JSON form
    of an event is the one [derive(Serialize, Deserialize)] gives
    [event/event.rs].  A decoder takes its elements from the front of the array
    ([SeqAccess::next_element]); [serde_json] then refuses elements left over. *)

From Stdlib Require Import Ascii NArith Lia.
From S2P Require Import Prelude Encoding Text Ids Tags Event Filter FilterWire.

(** ** Subscription ids *)

Module SubscriptionId.

Definition MAX_LENGTH : nat := 64.

Inductive Error :=
| Empty
| TooLong (n : nat).

Record t := mk { value : string }.

#[global] Instance t_eq_dec : EqDecision t.
Proof. solve_decision. Defined.
#[global] Instance t_countable : Countable t.
Proof. by refine (inj_countable value (λ s, Some (mk s)) _); intros []. Defined.

Definition validate (value : string) : result unit Error :=
  match value with
  | EmptyString => Err Empty
  | _ =>
      let n := length (chars value) in
      if (MAX_LENGTH <? n)%nat then Err (TooLong n) else Ok tt
  end.

Definition new (value : string) : result t Error :=
  let? _ := validate value in Ok (mk value).

(** [as_str().len()]: the length in bytes. *)
Definition byte_len (id : t) : N := N.of_nat (String.length (value id)).

Definition valid (id : t) : Prop := validate (value id) = Ok tt.

Lemma new_valid id : valid id → new (value id) = Ok id.
Proof. intros Hv. unfold new. rewrite Hv. by destruct id. Qed.

Lemma new_Ok s id : new s = Ok id → value id = s ∧ valid id.
Proof.
  unfold new, valid. destruct (validate s) as [[]|] eqn:E; simpl; [|done]. intros [= <-]. done.
Qed.

End SubscriptionId.
Abbreviation SubscriptionId := SubscriptionId.t.

(** ** NIP-20 prefixes *)

Module MachineReadablePrefix.

Inductive t :=
| Duplicate | Pow | Blocked | RateLimited | Invalid | Error | Restricted | Mute
| AuthRequired | PaymentRequired.

#[global] Instance t_eq_dec : EqDecision t.
Proof. solve_decision. Defined.

Definition as_str (p : t) : string :=
  match p with
  | Duplicate => "duplicate"
  | Pow => "pow"
  | Blocked => "blocked"
  | RateLimited => "rate-limited"
  | Invalid => "invalid"
  | Error => "error"
  | Restricted => "restricted"
  | Mute => "mute"
  | AuthRequired => "auth-required"
  | PaymentRequired => "payment-required"
  end.

Definition from_str (s : string) : option t :=
  if decide (s = "duplicate") then Some Duplicate
  else if decide (s = "pow") then Some Pow
  else if decide (s = "blocked") then Some Blocked
  else if decide (s = "rate-limited") then Some RateLimited
  else if decide (s = "invalid") then Some Invalid
  else if decide (s = "error") then Some Error
  else if decide (s = "restricted") then Some Restricted
  else if decide (s = "mute") then Some Mute
  else if decide (s = "auth-required") then Some AuthRequired
  else if decide (s = "payment-required") then Some PaymentRequired
  else None.

Definition from_reason (reason : string) : option t :=
  split_once ":" reason ≫= λ p, from_str p.1.

(** [format!("{}: {detail}", prefix.as_str())]. *)
Definition reason (p : t) (detail : string) : string := as_str p +:+ ": " +:+ detail.

Lemma from_str_as_str p : from_str (as_str p) = Some p.
Proof. by destruct p. Qed.

Lemma from_reason_reason p detail : from_reason (reason p detail) = Some p.
Proof.
  unfold from_reason, reason.
  change (": " +:+ detail) with (String ":" (String " " detail)).
  rewrite split_once_app by by destruct p. simpl. apply from_str_as_str.
Qed.

End MachineReadablePrefix.
Abbreviation MachineReadablePrefix := MachineReadablePrefix.t.

(** ** Events as JSON *)

(** The [serde] support of [secp256k1::schnorr::Signature]. *)
Class SigSerde := {
  sig_json : list byte → Json;
  de_sig : Json → option (list byte);
}.
Class SigSerdeLaws `{SigSerde} : Prop := {
  de_sig_json : ∀ s, length s = 64%nat → de_sig (sig_json s) = Some s;
  de_sig_length : ∀ v s, de_sig v = Some s → length s = 64%nat;
}.
Arguments SigSerdeLaws : clear implicits.
Arguments SigSerdeLaws {_}.

(** What goes wrong while reading a struct or a message. *)
Inductive DeError :=
| NotAnArray
| NotAnObject
| EmptyMessage
| UnknownTag (tag : string)
| Missing (tag what : string)
| BadElement (tag what : string)
| DuplicateField (name : string)
| MissingField (name : string)
| BadField (name : string)
| TrailingElements.

Module EventJson.
Section event_json.
Context `{FasterHex, Secp256k1, SerdeJson, SigSerde}.

Definition tag_json (tag : Tag) : Json := JArr (JStr <$> Tag.values tag).

(** [derive(Serialize)]: the fields in declaration order. *)
Definition serialize (e : Event) : Json :=
  JObj [("id", JStr (EventId.to_hex (Event.id e)));
        ("pubkey", JStr (PublicKey.to_hex (Event.pubkey e)));
        ("created_at", JNum (Event.created_at e));
        ("kind", JNum (Event.kind e));
        ("tags", JArr (tag_json <$> Event.tags e));
        ("content", JStr (Event.content e));
        ("sig", sig_json (Event.sig e))].

Definition de_tag (v : Json) : option Tag :=
  FilterWire.de_vec de_str v ≫= λ vs, result_ok (Tag.new vs).
Definition de_tags (v : Json) : option (list Tag) := FilterWire.de_vec de_tag v.

(** The visitor of [derive(Deserialize)]: one slot per field. *)
Record Fields := mkFields {
  f_id : option EventId;
  f_pubkey : option PublicKey;
  f_created_at : option Timestamp;
  f_kind : option Kind;
  f_tags : option (list Tag);
  f_content : option string;
  f_sig : option (list byte);
}.

Definition no_fields : Fields := mkFields None None None None None None None.

(** A field that is set already is refused, a value of the wrong shape too. *)
Definition fill {A} (name : string) (slot : option A) (v : option A) : result (option A) DeError :=
  match slot with
  | Some _ => Err (DuplicateField name)
  | None => match v with Some a => Ok (Some a) | None => Err (BadField name) end
  end.

Definition visit_field (fs : Fields) (key : string) (v : Json) : result Fields DeError :=
  let '(mkFields i p c k ts ct s) := fs in
  if decide (key = "id") then
    let? i := fill key i (FilterWire.de_event_id v) in Ok (mkFields i p c k ts ct s)
  else if decide (key = "pubkey") then
    let? p := fill key p (FilterWire.de_public_key v) in Ok (mkFields i p c k ts ct s)
  else if decide (key = "created_at") then
    let? c := fill key c (de_u64 v) in Ok (mkFields i p c k ts ct s)
  else if decide (key = "kind") then
    let? k := fill key k (de_u16 v) in Ok (mkFields i p c k ts ct s)
  else if decide (key = "tags") then
    let? ts := fill key ts (de_tags v) in Ok (mkFields i p c k ts ct s)
  else if decide (key = "content") then
    let? ct := fill key ct (de_str v) in Ok (mkFields i p c k ts ct s)
  else if decide (key = "sig") then
    let? s := fill key s (de_sig v) in Ok (mkFields i p c k ts ct s)
  else Ok fs.

Fixpoint visit_fields (fs : Fields) (entries : list (string * Json)) : result Fields DeError :=
  match entries with
  | [] => Ok fs
  | (key, v) :: entries' => let? fs' := visit_field fs key v in visit_fields fs' entries'
  end.

Definition finish (fs : Fields) : result Event DeError :=
  let? i := ok_or (f_id fs) (MissingField "id") in
  let? p := ok_or (f_pubkey fs) (MissingField "pubkey") in
  let? c := ok_or (f_created_at fs) (MissingField "created_at") in
  let? k := ok_or (f_kind fs) (MissingField "kind") in
  let? ts := ok_or (f_tags fs) (MissingField "tags") in
  let? ct := ok_or (f_content fs) (MissingField "content") in
  let? s := ok_or (f_sig fs) (MissingField "sig") in
  Ok (Event.mk i p c k ts ct s).

(** A struct is also read from an array of its fields in order. *)
Definition visit_array (vs : list Json) : result Event DeError :=
  match vs with
  | [vi; vp; vc; vk; vt; vct; vs] =>
      let? fs := visit_fields no_fields
        [("id", vi); ("pubkey", vp); ("created_at", vc); ("kind", vk); ("tags", vt);
         ("content", vct); ("sig", vs)] in
      finish fs
  | _ => Err NotAnObject
  end.

Definition deserialize (v : Json) : result Event DeError :=
  match de_map v with
  | Some entries => let? fs := visit_fields no_fields entries in finish fs
  | None => match de_seq v with Some vs => visit_array vs | None => Err NotAnObject end
  end.

(** The events whose fields are in the ranges of their Rust types. *)
Definition json_ok (e : Event) : Prop :=
  PublicKey.valid (Event.pubkey e) ∧ Event.wf e ∧ length (Event.sig e) = 64%nat.
End event_json.
End EventJson.

(** ** Reading an array element by element *)

Section elements.
Context `{SerdeJson}.

(** [seq.next_element::<A>()?.ok_or_else(missing)?]. *)
Definition next_element {A} (tag what : string) (de : Json → option A) (seq : list Json) :
    result (A * list Json) DeError :=
  match seq with
  | [] => Err (Missing tag what)
  | v :: rest =>
      match de v with Some a => Ok (a, rest) | None => Err (BadElement tag what) end
  end.

Definition de_subscription_id (v : Json) : option SubscriptionId :=
  de_str v ≫= λ s, result_ok (SubscriptionId.new s).

(** What [serde_json] does around [visit_seq]. *)
Definition read_array {M} (visit : list Json → result (M * list Json) DeError) (v : Json) :
    result M DeError :=
  let? seq := ok_or (de_seq v) NotAnArray in
  let? '(m, rest) := visit seq in
  match rest with [] => Ok m | _ => Err TrailingElements end.
End elements.

(** ** Client messages *)

Module ClientMessage.

Inductive t :=
| Event (event : Event)
| Req (subscription_id : SubscriptionId) (filters : list Filter)
| Close (id : SubscriptionId)
| Auth (event : Event)
| Count (subscription_id : SubscriptionId) (filter : Filter)
| NegOpen (subscription_id : SubscriptionId) (filter : Filter) (initial_message : string)
| NegMsg (subscription_id : SubscriptionId) (message : string)
| NegClose (subscription_id : SubscriptionId).

Section client.
Context `{FasterHex, Secp256k1, SerdeJson, SigSerde}.

Definition id_json (id : SubscriptionId) : Json := JStr (SubscriptionId.value id).
Definition filter_json (f : Filter) : Json := JObj (FilterWire.serialize f).

Definition serialize (m : t) : Json :=
  match m with
  | Event event => JArr [JStr "EVENT"; EventJson.serialize event]
  | Req id filters => JArr (JStr "REQ" :: id_json id :: (filter_json <$> filters))
  | Close id => JArr [JStr "CLOSE"; id_json id]
  | Auth event => JArr [JStr "AUTH"; EventJson.serialize event]
  | Count id f => JArr [JStr "COUNT"; id_json id; filter_json f]
  | NegOpen id f msg => JArr [JStr "NEG-OPEN"; id_json id; filter_json f; JStr msg]
  | NegMsg id msg => JArr [JStr "NEG-MSG"; id_json id; JStr msg]
  | NegClose id => JArr [JStr "NEG-CLOSE"; id_json id]
  end.

Definition de_event (v : Json) : option Event.Event.t := result_ok (EventJson.deserialize v).
Definition de_filter (v : Json) : option Filter :=
  de_map v ≫= λ entries, result_ok (FilterWire.visit_map entries).

Definition decode_event (seq : list Json) : result (t * list Json) DeError :=
  let? '(event, seq) := next_element "EVENT" "event" de_event seq in Ok (Event event, seq).

(** The [while let] loop of [decode_req]. *)
Fixpoint decode_filters (seq : list Json) : result (list Filter) DeError :=
  match seq with
  | [] => Ok []
  | v :: rest =>
      match de_filter v with
      | None => Err (BadElement "REQ" "filter")
      | Some f => let? fs := decode_filters rest in Ok (f :: fs)
      end
  end.

Definition decode_req (seq : list Json) : result (t * list Json) DeError :=
  let? '(id, seq) := next_element "REQ" "subscription id" de_subscription_id seq in
  let? filters := decode_filters seq in
  match filters with
  | [] => Err (Missing "REQ" "filter")
  | _ => Ok (Req id filters, [])
  end.

Definition decode_close (seq : list Json) : result (t * list Json) DeError :=
  let? '(id, seq) := next_element "CLOSE" "subscription id" de_subscription_id seq in
  Ok (Close id, seq).

Definition decode_auth (seq : list Json) : result (t * list Json) DeError :=
  let? '(event, seq) := next_element "AUTH" "event" de_event seq in Ok (Auth event, seq).

Definition decode_count (seq : list Json) : result (t * list Json) DeError :=
  let? '(id, seq) := next_element "COUNT" "subscription id" de_subscription_id seq in
  let? '(f, seq) := next_element "COUNT" "filter" de_filter seq in
  Ok (Count id f, seq).

Definition decode_neg_open (seq : list Json) : result (t * list Json) DeError :=
  let? '(id, seq) := next_element "NEG-OPEN" "subscription id" de_subscription_id seq in
  let? '(f, seq) := next_element "NEG-OPEN" "filter" de_filter seq in
  let? '(msg, seq) := next_element "NEG-OPEN" "initial message" de_str seq in
  Ok (NegOpen id f msg, seq).

Definition decode_neg_msg (seq : list Json) : result (t * list Json) DeError :=
  let? '(id, seq) := next_element "NEG-MSG" "subscription id" de_subscription_id seq in
  let? '(msg, seq) := next_element "NEG-MSG" "message" de_str seq in
  Ok (NegMsg id msg, seq).

Definition decode_neg_close (seq : list Json) : result (t * list Json) DeError :=
  let? '(id, seq) := next_element "NEG-CLOSE" "subscription id" de_subscription_id seq in
  Ok (NegClose id, seq).

Definition visit_seq (seq : list Json) : result (t * list Json) DeError :=
  match seq with
  | [] => Err EmptyMessage
  | v :: seq =>
      let? tag := ok_or (de_str v) (BadElement EmptyString "tag") in
      if decide (tag = "EVENT") then decode_event seq
      else if decide (tag = "REQ") then decode_req seq
      else if decide (tag = "CLOSE") then decode_close seq
      else if decide (tag = "AUTH") then decode_auth seq
      else if decide (tag = "COUNT") then decode_count seq
      else if decide (tag = "NEG-OPEN") then decode_neg_open seq
      else if decide (tag = "NEG-MSG") then decode_neg_msg seq
      else if decide (tag = "NEG-CLOSE") then decode_neg_close seq
      else Err (UnknownTag tag)
  end.

Definition deserialize (v : Json) : result t DeError := read_array visit_seq v.

(** The messages the Rust types can hold and the wire can carry. *)
Definition wire_ok (m : t) : Prop :=
  match m with
  | Event event | Auth event => EventJson.json_ok event
  | Req id filters => SubscriptionId.valid id ∧ filters ≠ [] ∧ Forall FilterWire.wire_ok filters
  | Close id | NegMsg id _ | NegClose id => SubscriptionId.valid id
  | Count id f | NegOpen id f _ => SubscriptionId.valid id ∧ FilterWire.wire_ok f
  end.
End client.

End ClientMessage.
Abbreviation ClientMessage := ClientMessage.t.

(** ** Relay messages *)

Module RelayMessage.

Inductive t :=
| Event (subscription_id : SubscriptionId) (event : Event)
| Ok (event_id : EventId) (accepted : bool) (message : string)
| EndOfStoredEvents (id : SubscriptionId)
| Closed (subscription_id : SubscriptionId) (message : string)
| Notice (message : string)
| Auth (challenge : string)
| Count (subscription_id : SubscriptionId) (count : N)
| NegMsg (subscription_id : SubscriptionId) (message : string)
| NegErr (subscription_id : SubscriptionId) (message : string).

#[global] Instance t_eq_dec : EqDecision t.
Proof. solve_decision. Defined.

Section relay.
Context `{FasterHex, Secp256k1, SerdeJson, SigSerde}.

Abbreviation id_json := ClientMessage.id_json.

Definition serialize (m : t) : Json :=
  match m with
  | Event id event => JArr [JStr "EVENT"; id_json id; EventJson.serialize event]
  | Ok event_id accepted message =>
      JArr [JStr "OK"; JStr (EventId.to_hex event_id); JBool accepted; JStr message]
  | EndOfStoredEvents id => JArr [JStr "EOSE"; id_json id]
  | Closed id message => JArr [JStr "CLOSED"; id_json id; JStr message]
  | Notice message => JArr [JStr "NOTICE"; JStr message]
  | Auth challenge => JArr [JStr "AUTH"; JStr challenge]
  | Count id count => JArr [JStr "COUNT"; id_json id; JObj [("count", JNum count)]]
  | NegMsg id message => JArr [JStr "NEG-MSG"; id_json id; JStr message]
  | NegErr id message => JArr [JStr "NEG-ERR"; id_json id; JStr message]
  end.

Abbreviation Done := (@Prelude.Ok (t * list Json) DeError).

Definition decode_event (seq : list Json) : result (t * list Json) DeError :=
  let? '(id, seq) := next_element "EVENT" "subscription id" de_subscription_id seq in
  let? '(event, seq) := next_element "EVENT" "event" ClientMessage.de_event seq in
  Done (Event id event, seq).

Definition decode_ok (seq : list Json) : result (t * list Json) DeError :=
  let? '(event_id, seq) := next_element "OK" "event id" FilterWire.de_event_id seq in
  let? '(accepted, seq) := next_element "OK" "accepted flag" de_bool seq in
  let? '(message, seq) := next_element "OK" "message" de_str seq in
  Done (Ok event_id accepted message, seq).

Definition decode_eose (seq : list Json) : result (t * list Json) DeError :=
  let? '(id, seq) := next_element "EOSE" "subscription id" de_subscription_id seq in
  Done (EndOfStoredEvents id, seq).

(** The reason of a [CLOSED] may be absent. *)
Definition decode_closed (seq : list Json) : result (t * list Json) DeError :=
  let? '(id, seq) := next_element "CLOSED" "subscription id" de_subscription_id seq in
  match seq with
  | [] => Done (Closed id EmptyString, [])
  | _ =>
      let? '(message, seq) := next_element "CLOSED" "message" de_str seq in
      Done (Closed id message, seq)
  end.

Definition decode_notice (seq : list Json) : result (t * list Json) DeError :=
  let? '(message, seq) := next_element "NOTICE" "message" de_str seq in
  Done (Notice message, seq).

Definition decode_auth (seq : list Json) : result (t * list Json) DeError :=
  let? '(challenge, seq) := next_element "AUTH" "challenge" de_str seq in
  Done (Auth challenge, seq).

(** [derive(Deserialize)] for [CountPayload]: unknown fields are skipped, a
    second [count] is refused. *)
Fixpoint visit_count (slot : option N) (entries : list (string * Json)) : option N :=
  match entries with
  | [] => slot
  | (key, v) :: entries' =>
      if decide (key = "count") then
        match slot with
        | Some _ => None
        | None => de_u64 v ≫= λ n, visit_count (Some n) entries'
        end
      else visit_count slot entries'
  end.

Definition de_count_payload (v : Json) : option N :=
  match de_map v with
  | Some entries => visit_count None entries
  | None => de_seq v ≫= λ vs, match vs with [n] => de_u64 n | _ => None end
  end.

Definition decode_count (seq : list Json) : result (t * list Json) DeError :=
  let? '(id, seq) := next_element "COUNT" "subscription id" de_subscription_id seq in
  let? '(count, seq) := next_element "COUNT" "count payload" de_count_payload seq in
  Done (Count id count, seq).

Definition decode_neg_msg (seq : list Json) : result (t * list Json) DeError :=
  let? '(id, seq) := next_element "NEG-MSG" "subscription id" de_subscription_id seq in
  let? '(message, seq) := next_element "NEG-MSG" "message" de_str seq in
  Done (NegMsg id message, seq).

Definition decode_neg_err (seq : list Json) : result (t * list Json) DeError :=
  let? '(id, seq) := next_element "NEG-ERR" "subscription id" de_subscription_id seq in
  let? '(message, seq) := next_element "NEG-ERR" "message" de_str seq in
  Done (NegErr id message, seq).

Definition visit_seq (seq : list Json) : result (t * list Json) DeError :=
  match seq with
  | [] => Err EmptyMessage
  | v :: seq =>
      let? tag := ok_or (de_str v) (BadElement EmptyString "tag") in
      if decide (tag = "EVENT") then decode_event seq
      else if decide (tag = "OK") then decode_ok seq
      else if decide (tag = "EOSE") then decode_eose seq
      else if decide (tag = "CLOSED") then decode_closed seq
      else if decide (tag = "NOTICE") then decode_notice seq
      else if decide (tag = "AUTH") then decode_auth seq
      else if decide (tag = "COUNT") then decode_count seq
      else if decide (tag = "NEG-MSG") then decode_neg_msg seq
      else if decide (tag = "NEG-ERR") then decode_neg_err seq
      else Err (UnknownTag tag)
  end.

Definition deserialize (v : Json) : result t DeError := read_array visit_seq v.

Definition wire_ok (m : t) : Prop :=
  match m with
  | Event id event => SubscriptionId.valid id ∧ EventJson.json_ok event
  | Ok _ _ _ | Notice _ | Auth _ => True
  | EndOfStoredEvents id | Closed id _ | NegMsg id _ | NegErr id _ => SubscriptionId.valid id
  | Count id count => SubscriptionId.valid id ∧ (count <= Dec.u64_max)%N
  end.
End relay.

End RelayMessage.
Abbreviation RelayMessage := RelayMessage.t.

(** ** Round trips *)

Section laws.
Context `{FasterHex, !FasterHexLaws, Secp256k1, SerdeJson, !SerdeJsonLaws, SigSerde, !SigSerdeLaws}.

Lemma de_tags_ok (ts : list Tag) :
  Forall Tag.wf ts → EventJson.de_tags (JArr (EventJson.tag_json <$> ts)) = Some ts.
Proof.
  intros Hts. unfold EventJson.de_tags. apply FilterWire.de_vec_map.
  eapply Forall_impl; [done|]. intros tag Htag. unfold EventJson.de_tag, EventJson.tag_json.
  change (JArr (JStr <$> Tag.values tag)) with (FilterWire.strings_json (Tag.values tag)).
  rewrite FilterWire.de_strings. simpl. unfold Tag.new, Tag.wf in *. by destruct tag as [[|v vs]].
Qed.

Ltac pick_field :=
  repeat (rewrite decide_False by done); rewrite ?decide_True by done; cbn [EventJson.fill].

Lemma event_json_round e : EventJson.json_ok e → EventJson.deserialize (EventJson.serialize e) = Ok e.
Proof.
  intros (Hp & (Hc & Hk & Ht) & Hs). unfold EventJson.deserialize, EventJson.serialize.
  rewrite de_map_obj.
  pose proof (FilterWire.de_event_id_ok (Event.id e)) as Ei.
  pose proof (FilterWire.de_public_key_ok _ Hp) as Ep. pose proof (de_u64_num _ Hc) as Ec.
  pose proof (de_u16_num _ Hk) as Ek. pose proof (de_tags_ok _ Ht) as Et.
  pose proof (de_str_str (Event.content e)) as Ect. pose proof (de_sig_json _ Hs) as Es.
  cbn [EventJson.visit_fields]. unfold EventJson.visit_field, EventJson.no_fields.
  pick_field. rewrite Ei. cbn [result_bind]. pick_field. rewrite Ep. cbn [result_bind].
  pick_field. rewrite Ec. cbn [result_bind]. pick_field. rewrite Ek. cbn [result_bind].
  pick_field. rewrite Et. cbn [result_bind]. pick_field. rewrite Ect. cbn [result_bind].
  pick_field. rewrite Es. cbn [result_bind]. by destruct e.
Qed.

Lemma de_subscription_id_ok id :
  SubscriptionId.valid id → de_subscription_id (ClientMessage.id_json id) = Some id.
Proof.
  intros Hv. unfold de_subscription_id, ClientMessage.id_json. rewrite de_str_str. simpl.
  by rewrite SubscriptionId.new_valid.
Qed.

Lemma de_filter_ok f :
  FilterWire.wire_ok f → ClientMessage.de_filter (ClientMessage.filter_json f) = Some f.
Proof.
  intros Hf. unfold ClientMessage.de_filter, ClientMessage.filter_json. rewrite de_map_obj. simpl.
  by rewrite FilterWire.visit_serialize.
Qed.

Lemma de_event_ok e :
  EventJson.json_ok e → ClientMessage.de_event (EventJson.serialize e) = Some e.
Proof. intros He. unfold ClientMessage.de_event. by rewrite event_json_round. Qed.

Lemma decode_filters_ok fs :
  Forall FilterWire.wire_ok fs →
  ClientMessage.decode_filters (ClientMessage.filter_json <$> fs) = Ok fs.
Proof.
  induction 1 as [|f fs Hf _ IH]; [done|]. cbn [fmap list_fmap ClientMessage.decode_filters].
  rewrite de_filter_ok by done. by rewrite IH.
Qed.

(** Read the elements of a written message off one by one. *)
Ltac read_elements :=
  repeat (first [rewrite de_str_str|rewrite de_subscription_id_ok by done|rewrite de_filter_ok by done
                |rewrite de_event_ok by done|rewrite FilterWire.de_event_id_ok|rewrite de_bool_bool];
          cbn [result_bind ok_or next_element]).

Lemma client_round m :
  ClientMessage.wire_ok m → ClientMessage.deserialize (ClientMessage.serialize m) = Ok m.
Proof.
  unfold ClientMessage.deserialize, read_array.
  destruct m as [e|id fs|id|e|id f|id f msg|id msg|id]; cbn [ClientMessage.serialize ClientMessage.wire_ok];
    intros Hok; rewrite de_seq_arr; cbn [ok_or result_bind ClientMessage.visit_seq];
    rewrite de_str_str; cbn [ok_or result_bind];
    repeat (rewrite decide_False by done); rewrite decide_True by done.
  - unfold ClientMessage.decode_event. cbn [next_element]. by read_elements.
  - destruct Hok as (Hid & Hne & Hfs). unfold ClientMessage.decode_req. cbn [next_element].
    read_elements. rewrite decode_filters_ok by done. cbn [result_bind]. by destruct fs.
  - unfold ClientMessage.decode_close. cbn [next_element]. by read_elements.
  - unfold ClientMessage.decode_auth. cbn [next_element]. by read_elements.
  - destruct Hok. unfold ClientMessage.decode_count. cbn [next_element]. by read_elements.
  - destruct Hok. unfold ClientMessage.decode_neg_open. cbn [next_element]. by read_elements.
  - unfold ClientMessage.decode_neg_msg. cbn [next_element]. by read_elements.
  - unfold ClientMessage.decode_neg_close. cbn [next_element]. by read_elements.
Qed.

Lemma relay_round m :
  RelayMessage.wire_ok m → RelayMessage.deserialize (RelayMessage.serialize m) = Ok m.
Proof.
  unfold RelayMessage.deserialize, read_array.
  destruct m as [id e|i b msg|id|id msg|msg|c|id n|id msg|id msg];
    cbn [RelayMessage.serialize RelayMessage.wire_ok];
    intros Hok; rewrite de_seq_arr; cbn [ok_or result_bind RelayMessage.visit_seq];
    rewrite de_str_str; cbn [ok_or result_bind];
    repeat (rewrite decide_False by done); rewrite decide_True by done.
  - destruct Hok. unfold RelayMessage.decode_event. cbn [next_element]. by read_elements.
  - unfold RelayMessage.decode_ok. cbn [next_element]. by read_elements.
  - unfold RelayMessage.decode_eose. cbn [next_element]. by read_elements.
  - unfold RelayMessage.decode_closed. cbn [next_element]. by read_elements.
  - unfold RelayMessage.decode_notice. cbn [next_element]. by read_elements.
  - unfold RelayMessage.decode_auth. cbn [next_element]. by read_elements.
  - destruct Hok as [Hid Hn]. unfold RelayMessage.decode_count. cbn [next_element]. read_elements.
    unfold RelayMessage.de_count_payload. rewrite de_map_obj. cbn [RelayMessage.visit_count].
    rewrite decide_True by done. by rewrite de_u64_num.
  - unfold RelayMessage.decode_neg_msg. cbn [next_element]. by read_elements.
  - unfold RelayMessage.decode_neg_err. cbn [next_element]. by read_elements.
Qed.

(** *** What was read can be written *)

(** Every field read so far is in range. *)
Record fields_ok (fs : EventJson.Fields) : Prop := {
  fo_pubkey : ∀ p, EventJson.f_pubkey fs = Some p → PublicKey.valid p;
  fo_created_at : ∀ c, EventJson.f_created_at fs = Some c → (c <= Dec.u64_max)%N;
  fo_kind : ∀ k, EventJson.f_kind fs = Some k → (k <= Dec.u16_max)%N;
  fo_tags : ∀ ts, EventJson.f_tags fs = Some ts → Forall Tag.wf ts;
  fo_sig : ∀ s, EventJson.f_sig fs = Some s → length s = 64%nat;
}.

Lemma fill_Ok {A} name (slot v r : option A) :
  EventJson.fill name slot v = Ok r → slot = None ∧ r = v.
Proof. unfold EventJson.fill. destruct slot, v; naive_solver. Qed.

Lemma de_tags_wf v ts : EventJson.de_tags v = Some ts → Forall Tag.wf ts.
Proof.
  unfold EventJson.de_tags. apply FilterWire.de_vec_Forall. intros w tag.
  unfold EventJson.de_tag. destruct (FilterWire.de_vec de_str w) as [vs|]; simpl; [|done].
  destruct (Tag.new vs) as [tag'|] eqn:E; simpl; [|done]. intros [= <-]. by apply Tag.new_wf in E as [? _].
Qed.

Lemma de_public_key_valid v p : FilterWire.de_public_key v = Some p → PublicKey.valid p.
Proof.
  unfold FilterWire.de_public_key. destruct (de_str v) as [s|]; simpl; [|done].
  destruct (PublicKey.parse s) as [p'|] eqn:E; simpl; [|done]. intros [= <-].
  by eapply PublicKey.parse_valid.
Qed.

Lemma visit_field_ok fs key v fs' :
  fields_ok fs → EventJson.visit_field fs key v = Ok fs' → fields_ok fs'.
Proof.
  destruct fs as [i p c k ts ct s]. intros [Hp Hc Hk Ht Hs]. unfold EventJson.visit_field.
  repeat case_decide; intros E;
    try (destruct (EventJson.fill key _ _) as [r|] eqn:Ef; simpl in E; [|done];
         apply fill_Ok in Ef as [-> ->]);
    injection E as <-; split; simpl in *; try done; intros x Hx;
    eauto using de_public_key_valid, de_u64_bound, de_u16_bound, de_tags_wf, de_sig_length.
Qed.

Lemma visit_fields_ok fs entries fs' :
  fields_ok fs → EventJson.visit_fields fs entries = Ok fs' → fields_ok fs'.
Proof.
  revert fs. induction entries as [|[key v] entries IH]; intros fs Hfs; simpl; [by intros [= <-]|].
  destruct (EventJson.visit_field fs key v) as [fs1|] eqn:E; simpl; [|done].
  apply IH. by eapply visit_field_ok.
Qed.

Lemma finish_ok fs e : fields_ok fs → EventJson.finish fs = Ok e → EventJson.json_ok e.
Proof.
  intros [Hp Hc Hk Ht Hs]. unfold EventJson.finish. destruct fs as [[i|] [p|] [c|] [k|] [ts|] [ct|] [s|]];
    simpl in *; try done. intros [= <-]. unfold EventJson.json_ok, Event.wf. simpl. auto 10.
Qed.

Lemma deserialize_event_ok v e : EventJson.deserialize v = Ok e → EventJson.json_ok e.
Proof.
  assert (∀ entries, (let? fs := EventJson.visit_fields EventJson.no_fields entries in
                      EventJson.finish fs) = Ok e → EventJson.json_ok e) as Hall.
  { intros entries. destruct (EventJson.visit_fields _ _) as [fs|] eqn:E; simpl; [|done].
    apply finish_ok. eapply visit_fields_ok; [|done]. by split. }
  unfold EventJson.deserialize, EventJson.visit_array. destruct (de_map v) as [entries|]; [apply Hall|].
  destruct (de_seq v) as [[|v1 [|v2 [|v3 [|v4 [|v5 [|v6 [|v7 [|? ?]]]]]]]]|]; try done. apply Hall.
Qed.

Lemma next_element_Ok {A} tag what (de : Json → option A) seq a rest :
  next_element tag what de seq = Ok (a, rest) → ∃ v, de v = Some a.
Proof.
  destruct seq as [|v seq]; simpl; [done|]. destruct (de v) eqn:E; [|done]. intros [= <- <-]. eauto.
Qed.

Lemma de_subscription_id_valid v id : de_subscription_id v = Some id → SubscriptionId.valid id.
Proof.
  unfold de_subscription_id. destruct (de_str v) as [s|]; simpl; [|done].
  destruct (SubscriptionId.new s) as [id'|] eqn:E; simpl; [|done]. intros [= <-].
  by apply SubscriptionId.new_Ok in E as [_ ?].
Qed.

Lemma de_event_json_ok v e : ClientMessage.de_event v = Some e → EventJson.json_ok e.
Proof.
  unfold ClientMessage.de_event. destruct (EventJson.deserialize v) as [e'|] eqn:E; simpl; [|done].
  intros [= <-]. by eapply deserialize_event_ok.
Qed.

Lemma de_filter_wire_ok v f : ClientMessage.de_filter v = Some f → FilterWire.wire_ok f.
Proof.
  unfold ClientMessage.de_filter. destruct (de_map v) as [entries|]; simpl; [|done].
  destruct (FilterWire.visit_map entries) as [f'|] eqn:E; simpl; [|done]. intros [= <-].
  by eapply FilterWire.wire_ok_visit.
Qed.

Lemma decode_filters_wire_ok seq fs :
  ClientMessage.decode_filters seq = Ok fs → Forall FilterWire.wire_ok fs.
Proof.
  revert fs. induction seq as [|v seq IH]; intros fs; simpl; [intros [= <-]; constructor|].
  destruct (ClientMessage.de_filter v) as [f|] eqn:E; [|done].
  destruct (ClientMessage.decode_filters seq) as [fs'|]; simpl; [|done]. intros [= <-].
  constructor; [by eapply de_filter_wire_ok|]. by apply IH.
Qed.

(** Take a successful decoder apart. *)
Ltac read_back :=
  repeat match goal with
  | |- result_bind (next_element ?t ?w ?de ?s) _ = _ → _ =>
      let E := fresh "E" in
      destruct (next_element t w de s) as [[? ?]|] eqn:E; cbn [result_bind]; [|done];
      apply next_element_Ok in E as [? ?]
  end.

Lemma client_visit_ok seq m rest :
  ClientMessage.visit_seq seq = Ok (m, rest) → ClientMessage.wire_ok m.
Proof.
  destruct seq as [|v seq]; simpl; [done|]. destruct (de_str v) as [tag|]; simpl; [|done].
  repeat case_decide;
    unfold ClientMessage.decode_event, ClientMessage.decode_req, ClientMessage.decode_close,
      ClientMessage.decode_auth, ClientMessage.decode_count, ClientMessage.decode_neg_open,
      ClientMessage.decode_neg_msg, ClientMessage.decode_neg_close; read_back; try done.
  2:{ destruct (ClientMessage.decode_filters _) as [fs|] eqn:Ef; simpl; [|done].
      destruct fs as [|f fs]; [done|]. intros [= <- <-]. simpl.
      split_and!; [by eapply de_subscription_id_valid|done|by eapply decode_filters_wire_ok]. }
  all: intros [= <- <-]; simpl;
    eauto using de_event_json_ok, de_subscription_id_valid, de_filter_wire_ok.
Qed.

Lemma visit_count_bound slot entries n :
  (∀ m, slot = Some m → (m <= Dec.u64_max)%N) →
  RelayMessage.visit_count slot entries = Some n → (n <= Dec.u64_max)%N.
Proof.
  revert slot. induction entries as [|[key v] entries IH]; intros slot Hs; simpl; [apply Hs|].
  case_decide; [|by apply IH]. destruct slot as [m|]; [done|].
  destruct (de_u64 v) as [m|] eqn:E; simpl; [|done]. apply IH. intros ? [= <-].
  by eapply de_u64_bound.
Qed.

Lemma de_count_payload_bound v n : RelayMessage.de_count_payload v = Some n → (n <= Dec.u64_max)%N.
Proof.
  unfold RelayMessage.de_count_payload. destruct (de_map v); [by apply visit_count_bound|].
  destruct (de_seq v) as [[|w [|? ?]]|]; simpl; try done. apply de_u64_bound.
Qed.

Lemma relay_visit_ok seq m rest :
  RelayMessage.visit_seq seq = Ok (m, rest) → RelayMessage.wire_ok m.
Proof.
  destruct seq as [|v seq]; simpl; [done|]. destruct (de_str v) as [tag|]; simpl; [|done].
  repeat case_decide;
    unfold RelayMessage.decode_event, RelayMessage.decode_ok, RelayMessage.decode_eose,
      RelayMessage.decode_closed, RelayMessage.decode_notice, RelayMessage.decode_auth,
      RelayMessage.decode_count, RelayMessage.decode_neg_msg, RelayMessage.decode_neg_err;
    read_back; try done.
  4:{ destruct l; [intros [= <- <-]; by eapply de_subscription_id_valid|]. read_back.
      intros [= <- <-]. by eapply de_subscription_id_valid. }
  all: intros [= <- <-]; simpl;
    eauto using de_event_json_ok, de_subscription_id_valid, de_count_payload_bound.
Qed.

Lemma read_array_Ok {M} (visit : list Json → result (M * list Json) DeError) v m :
  read_array visit v = Ok m → ∃ seq, visit seq = Ok (m, []).
Proof.
  unfold read_array. destruct (de_seq v) as [seq|]; simpl; [|done].
  destruct (visit seq) as [[m' [|? ?]]|] eqn:E; simpl; try done. intros [= <-]. eauto.
Qed.
End laws.
