(* ===== verification/Sync.v ===== *)
(** * Set reconciliation sessions

    [crates/nula-sync]: the two roles of a NIP-77 session around the
    [negentropy] crate, and the sealed item vector they start from. *)

From Stdlib Require Import Ascii NArith Lia.
From S2P Require Import Prelude Encoding Text Ids.

(** The [negentropy] crate: the item vector and the reconciliation machine.
    Errors are the text they display as. *)
Class NegentropyCrate := {
  neg_storage : Type;
  neg_empty : neg_storage;
  neg_insert : neg_storage → N → bytes32 → result neg_storage string;
  neg_seal : neg_storage → result neg_storage string;
  neg_machine : Type;
  neg_owned : neg_storage → N → result neg_machine string;
  neg_initiate : neg_machine → result (list byte) string * neg_machine;
  neg_reconcile : neg_machine → list byte → result (list byte) string * neg_machine;
  neg_reconcile_with_ids : neg_machine → list byte →
    result (option (list byte) * list bytes32 * list bytes32) string * neg_machine;
}.

Module Sync.

Inductive Error :=
| Hex (e : Hex.HexError)
| Algorithm (e : string)
| Storage (e : string).

(** [Display for HexError] and for the crate's error. *)
Definition hex_error_string (e : Hex.HexError) : string :=
  match e with
  | Hex.InvalidChar => "invalid hex character"
  | Hex.InvalidLength n => "invalid hex length: " +:+ Dec.to_string (N.of_nat n)
  | Hex.LengthMismatch expected actual =>
      "hex length mismatch: expected " +:+ Dec.to_string (N.of_nat expected) +:+ " bytes, got " +:+
      Dec.to_string (N.of_nat actual)
  | Hex.Overflow => "hex decoder reported an internal overflow"
  end.
Definition error_string (e : Error) : string :=
  match e with
  | Hex e => "invalid hex payload: " +:+ hex_error_string e
  | Algorithm e => "negentropy algorithm error: " +:+ e
  | Storage e => e
  end.

Definition DEFAULT_FRAME_SIZE_LIMIT : N := 60000.

Section sync.
Context `{FasterHex, NegentropyCrate}.

Definition event_id_to_neg_id (id : EventId) : bytes32 := EventId.inner id.
Definition neg_id_to_event_id (id : bytes32) : EventId := EventId.from_byte_array id.

(** The [for] loop of [prepare_storage]. *)
Fixpoint insert_items (storage : neg_storage) (items : list (EventId * Timestamp)) :
    result neg_storage Error :=
  match items with
  | [] => Ok storage
  | (id, ts) :: items' =>
      let? storage := map_err Algorithm (neg_insert storage ts (event_id_to_neg_id id)) in
      insert_items storage items'
  end.

Definition prepare_storage (items : list (EventId * Timestamp)) : result neg_storage Error :=
  let? storage := insert_items neg_empty items in
  map_err Algorithm (neg_seal storage).

(** [from_database], given what the database's [negentropy_items] returned. *)
Definition from_database (items : result (list (EventId * Timestamp)) string) :
    result neg_storage Error :=
  let? items := map_err Storage items in prepare_storage items.

(** ** The responder *)

Record Responder := mkResponder { responder_inner : neg_machine }.

Definition responder_new (storage : neg_storage) (frame_size_limit : N) : result Responder Error :=
  let? inner := map_err Algorithm (neg_owned storage frame_size_limit) in Ok (mkResponder inner).
Definition responder_with_defaults (storage : neg_storage) : result Responder Error :=
  responder_new storage DEFAULT_FRAME_SIZE_LIMIT.

Definition responder_reconcile (r : Responder) (query : list byte) :
    result (list byte) Error * Responder :=
  let '(reply, inner) := neg_reconcile (responder_inner r) query in
  (map_err Algorithm reply, mkResponder inner).

Definition responder_reconcile_hex (r : Responder) (query_hex : string) :
    result string Error * Responder :=
  match Hex.decode (as_bytes query_hex) with
  | Err e => (Err (Hex e), r)
  | Ok bytes =>
      let '(reply, r) := responder_reconcile r bytes in
      (let? reply := reply in Ok (Hex.encode reply), r)
  end.

(** ** The initiator *)

Record ReconcileOutcome := mkOutcome {
  have : list EventId;
  need : list EventId;
  next_message : option (list byte);
}.
Definition is_complete (o : ReconcileOutcome) : bool :=
  match next_message o with None => true | Some _ => false end.
Definition next_message_hex (o : ReconcileOutcome) : option string := Hex.encode <$> next_message o.

Record Reconciliation := mkReconciliation { inner : neg_machine; opening : list byte }.

Definition initiate (storage : neg_storage) (frame_size_limit : N) : result Reconciliation Error :=
  let? inner := map_err Algorithm (neg_owned storage frame_size_limit) in
  let '(opening, inner) := neg_initiate inner in
  let? opening := map_err Algorithm opening in
  Ok (mkReconciliation inner opening).
Definition with_defaults (storage : neg_storage) : result Reconciliation Error :=
  initiate storage DEFAULT_FRAME_SIZE_LIMIT.
Definition opening_message_hex (r : Reconciliation) : string := Hex.encode (opening r).

Definition reconcile (r : Reconciliation) (query : list byte) :
    result ReconcileOutcome Error * Reconciliation :=
  let '(res, inner) := neg_reconcile_with_ids (inner r) query in
  (let? '(next, have_ids, need_ids) := map_err Algorithm res in
   Ok (mkOutcome (neg_id_to_event_id <$> have_ids) (neg_id_to_event_id <$> need_ids) next),
   mkReconciliation inner (opening r)).

Definition reconcile_hex (r : Reconciliation) (query_hex : string) :
    result ReconcileOutcome Error * Reconciliation :=
  match Hex.decode (as_bytes query_hex) with
  | Err e => (Err (Hex e), r)
  | Ok bytes => reconcile r bytes
  end.
End sync.

End Sync.
