(* ===== verification/Database.v ===== *)
(** * The database interface

    The trait [NostrDatabase] of [crates/nula-storage/src/database.rs] as far as
    the relay calls it, and what an implementation promises: it behaves like the
    abstract store [Spec].  The relay is written and verified against this
    interface; both backends are instances of it. *)

From Stdlib Require Import NArith.
From S2P Require Import Prelude Encoding Text Ids Tags Event Filter Storage SpecProofs.

(** The operations.  [clock] is what [Timestamp::now] gives inside the call, an
    error is the text it displays as. *)
Class NostrDatabase (DB : Type) := {
  store_save : result Timestamp string → DB → Event → result SaveEventStatus string * DB;
  store_query : DB → Filter → result (list Event) string;
  store_count : DB → Filter → result N string;
  store_items : DB → Filter → result (list (EventId * Timestamp)) string;
}.

(** The contract.  [store_repr o d st]: the database [d] with options [o] holds
    the abstract state [st].  [store_exact d f]: the filters whose answers are
    those of a full scan. *)
Class DatabaseContract (DB : Type) `{FasterHex, Secp256k1, NostrDatabase DB} := {
  store_repr : Spec.options → DB → Spec.t → Prop;
  storable : Event → Prop;
  store_exact : DB → Filter → Prop;
  store_keyed : ∀ o d st, store_repr o d st → keyed (Spec.live st);
  store_save_ok : ∀ o d st e now,
    store_repr o d st → storable e →
    ∃ d', store_save (Ok now) d e = (Ok (Spec.save o st e now).1, d') ∧
          store_repr o d' (Spec.save o st e now).2;
  store_save_no_clock : ∀ d e err,
    ∃ text, store_save (Err err) d e = (Err text, d);
  store_query_sound : ∀ o d st f,
    store_repr o d st →
    ∃ l, store_query d f = Ok l ∧ ∀ e, e ∈ l → live_in (Spec.live st) e ∧ matches f e;
  store_query_exact : ∀ o d st f,
    store_repr o d st → store_exact d f → store_query d f = Ok (query_ref (Spec.live st) f);
}.
