(* ===== verification/Server.v ===== *)
(** * The relay server's connection

    [crates/nula-relay/src/server]: the options and policies, the per-connection
    rate limiter, authentication state and subscriptions, and the handler of
    each client message ([connection.rs]).  The mutable state of a connection is
    a record; a handler is a state-passing function that can fail with
    [DispatchError] when the socket does.  A text frame is kept as the
    [RelayMessage] it encodes. *)

From Stdlib Require Import Ascii NArith Lia.
From S2P Require Import Prelude Encoding Text Ids Tags Event Filter FilterWire Storage SpecProofs Database.
From S2P Require Import Nips Message Sync.

Import MachineReadablePrefix (reason).

(** ** Options ([options.rs]) *)

Module Nip42Mode.

Inductive t := Disabled | Read | Write | Both.

Definition is_enabled (m : t) : bool := match m with Disabled => false | _ => true end.
Definition requires_for_read (m : t) : bool := match m with Read | Both => true | _ => false end.
Definition requires_for_write (m : t) : bool := match m with Write | Both => true | _ => false end.

End Nip42Mode.

Record RateLimit := mkRateLimit {
  notes_per_minute : option N;
  reqs_per_minute : option N;
}.
Definition rate_limit_disabled : RateLimit := mkRateLimit None None.
Definition rate_limit_is_enabled (l : RateLimit) : bool :=
  bool_decide (is_Some (notes_per_minute l)) || bool_decide (is_Some (reqs_per_minute l)).

(** The options of a relay; the address it binds to is left to the operating
    system. *)
Module MockRelayOptions.

Record t := mk {
  nip42_mode : Nip42Mode.t;
  min_pow : option N;
  max_connections : option N;
  max_subid_length : option N;
  max_filter_limit : option N;
  default_filter_limit : option N;
  max_active_subscriptions : option N;
  rate_limit : RateLimit;
  unresponsive : bool;
  send_random_events : option N;
}.

Definition new : t := mk Nip42Mode.Disabled None None None None None None rate_limit_disabled false None.

(** A cap of zero clears the cap. *)
Definition positive (n : N) : option N := if (0 <? n)%N then Some n else None.

Definition set_nip42_mode (o : t) (mode : Nip42Mode.t) : t :=
  let '(mk _ p c s f d a r u e) := o in mk mode p c s f d a r u e.
Definition set_min_pow (o : t) (difficulty : N) : t :=
  let '(mk m _ c s f d a r u e) := o in mk m (positive difficulty) c s f d a r u e.
Definition set_max_connections (o : t) (max : N) : t :=
  let '(mk m p _ s f d a r u e) := o in mk m p (positive max) s f d a r u e.
Definition set_max_subid_length (o : t) (max : N) : t :=
  let '(mk m p c _ f d a r u e) := o in mk m p c (positive max) f d a r u e.
Definition set_max_filter_limit (o : t) (max : N) : t :=
  let '(mk m p c s _ d a r u e) := o in mk m p c s (positive max) d a r u e.
Definition set_default_filter_limit (o : t) (dflt : N) : t :=
  let '(mk m p c s f _ a r u e) := o in mk m p c s f (positive dflt) a r u e.
Definition set_max_active_subscriptions (o : t) (max : N) : t :=
  let '(mk m p c s f d _ r u e) := o in mk m p c s f d (positive max) r u e.
Definition set_rate_limit (o : t) (limit : RateLimit) : t :=
  let '(mk m p c s f d a _ u e) := o in mk m p c s f d a limit u e.
Definition set_unresponsive (o : t) (value : bool) : t :=
  let '(mk m p c s f d a r _ e) := o in mk m p c s f d a r value e.
Definition set_send_random_events (o : t) (count : N) : t :=
  let '(mk m p c s f d a r u _) := o in mk m p c s f d a r u (positive count).

End MockRelayOptions.
Abbreviation MockRelayOptions := MockRelayOptions.t.

(** ** Policies ([policy.rs]) *)

Inductive AdmitVerdict :=
| Accept
| Reject (prefix : MachineReadablePrefix) (message : string).

Definition is_accept (v : AdmitVerdict) : bool := match v with Accept => true | Reject _ _ => false end.

Definition verdict_reject (prefix : MachineReadablePrefix) (message : string) : AdmitVerdict :=
  Reject prefix message.

Definition accept_all_writes (event : Event) : AdmitVerdict := Accept.
Definition accept_all_queries (filter : Filter) : AdmitVerdict * Filter := (Accept, filter).

(** [AuthorAllowlist]. *)
Record AuthorAllowlist := mkAllowlist { allowed : gset PublicKey }.
Definition allowlist_new (authors : list PublicKey) : AuthorAllowlist :=
  mkAllowlist (list_to_set authors).
Definition allows (l : AuthorAllowlist) (author : PublicKey) : bool :=
  bool_decide (author ∈ allowed l).
Definition allowlist_admit (l : AuthorAllowlist) (event : Event) : AdmitVerdict :=
  if bool_decide (Event.pubkey event ∈ allowed l) then Accept
  else Reject MachineReadablePrefix.Blocked "author is not on this relay's allowlist".

(** ** The rate limiter *)

(** Instants are milliseconds of the monotonic clock. *)
Record RateLimiter := mkLimiter {
  limit : RateLimit;
  window_start : N;
  notes : N;
  reqs : N;
}.

Definition limiter_new (l : RateLimit) (instant : N) : RateLimiter := mkLimiter l instant 0 0.

Definition ONE_MINUTE : N := 60000.

Definition roll (r : RateLimiter) (instant : N) : RateLimiter :=
  if (ONE_MINUTE <=? instant - window_start r)%N then mkLimiter (limit r) instant 0 0 else r.

Definition check (r : RateLimiter) (instant : N) (msg : ClientMessage) :
    option RelayMessage * RateLimiter :=
  let r := roll r instant in
  match msg with
  | ClientMessage.Event event =>
      match notes_per_minute (limit r) with
      | None => (None, r)
      | Some max =>
          if (max <=? notes r)%N then
            (Some (RelayMessage.Ok (Event.id event) false
               (reason MachineReadablePrefix.RateLimited
                  ("more than " +:+ Dec.to_string max +:+ " events per minute"))), r)
          else (None, mkLimiter (limit r) (window_start r) (notes r + 1) (reqs r))
      end
  | ClientMessage.Req id _ =>
      match reqs_per_minute (limit r) with
      | None => (None, r)
      | Some max =>
          if (max <=? reqs r)%N then
            (Some (RelayMessage.Closed id
               (reason MachineReadablePrefix.RateLimited
                  ("more than " +:+ Dec.to_string max +:+ " REQs per minute"))), r)
          else (None, mkLimiter (limit r) (window_start r) (notes r) (reqs r + 1))
      end
  | _ => (None, r)
  end.

Definition message_needs_auth (msg : ClientMessage) (mode : Nip42Mode.t) : bool :=
  match msg with
  | ClientMessage.Event _ => Nip42Mode.requires_for_write mode
  | ClientMessage.Req _ _ | ClientMessage.Count _ _ | ClientMessage.NegOpen _ _ _ =>
      Nip42Mode.requires_for_read mode
  | _ => false
  end.

(** [apply_filter_limits]: fill an absent limit, then clamp. *)
Definition apply_filter_limits (filter : Filter) (dflt max : option N) : Filter :=
  let filter := match Filter.limit filter, dflt with
                | None, Some d => Filter.set_limit filter (Some d)
                | _, _ => filter
                end in
  match max with
  | Some max =>
      Filter.set_limit filter
        (Some (match Filter.limit filter with None => max | Some l => N.min l max end))
  | None => filter
  end.

(** ** The connection ([connection.rs]) *)

Record AuthState := mkAuth {
  authenticated : bool;
  auth_pubkey : option PublicKey;
  challenge : string;
}.

Inductive DispatchError := mkDispatchError.

(** What goes out on the socket. *)
Inductive OutFrame :=
| OutText (m : RelayMessage)
| OutPong (payload : list byte)
| OutClose.

(** What comes in: a frame (a text frame is the JSON value of its text, or the
    error the parser reports), a live event of another connection, the
    relay-wide shutdown. *)
Inductive WsFrame :=
| WsText (v : result Json string)
| WsBinary
| WsPing (payload : list byte)
| WsPong
| WsClose
| WsError.

Section connection.
Context {DB : Type} `{NostrDatabase DB}.
Context `{FasterHex, Secp256k1, SerdeJson, SigSerde, EventCrypto, UrlCrate, NegentropyCrate}.

(** The connection's configuration. *)
Record ConnectionContext := mkContext {
  relay_url : RelayUrl;
  nip42_mode : Nip42Mode.t;
  min_pow : option N;
  max_subid_length : option N;
  max_filter_limit : option N;
  max_active_subscriptions : option N;
  default_filter_limit : option N;
  rate_limit : RateLimit;
  unresponsive : bool;
  send_random_events : option N;
}.

(** The context [MockRelay::start] gives every connection. *)
Definition context_of (o : MockRelayOptions) (url : RelayUrl) : ConnectionContext :=
  mkContext url (MockRelayOptions.nip42_mode o) (MockRelayOptions.min_pow o)
    (MockRelayOptions.max_subid_length o) (MockRelayOptions.max_filter_limit o)
    (MockRelayOptions.max_active_subscriptions o) (MockRelayOptions.default_filter_limit o)
    (MockRelayOptions.rate_limit o) (MockRelayOptions.unresponsive o)
    (MockRelayOptions.send_random_events o).

(** What the surroundings answer while one input is handled: the wall clock as the
    handler and later the storage read it, the monotonic clock, the policies for this client, the token of [random_hex_token], the key of
    [Keys::generate] and how serde words an error. *)
Record Env := mkEnv {
  clock : result Timestamp string;
  save_clock : result Timestamp string;
  instant : N;
  admit_event : Event → AdmitVerdict;
  admit_query : Filter → AdmitVerdict * Filter;
  hex_token : string;
  fresh_keys : option secret_key;
  de_error_string : DeError → string;
}.

(** The state a connection works on.  [storage] and [broadcast] are shared with
    the other connections; [broadcast] lists the events this one has published.
    [room] is how many more frames the socket takes ([None]: no limit). *)
Record Conn := mkConn {
  storage : DB;
  broadcast : list Event;
  sent : list OutFrame;
  room : option nat;
  subscriptions : gmap SubscriptionId (list Filter);
  neg_sessions : gmap SubscriptionId Sync.Responder;
  auth : AuthState;
  rate : RateLimiter;
}.

Definition set_storage (c : Conn) d : Conn :=
  mkConn d (broadcast c) (sent c) (room c) (subscriptions c) (neg_sessions c) (auth c) (rate c).
Definition set_broadcast (c : Conn) b : Conn :=
  mkConn (storage c) b (sent c) (room c) (subscriptions c) (neg_sessions c) (auth c) (rate c).
Definition set_sent (c : Conn) s r : Conn :=
  mkConn (storage c) (broadcast c) s r (subscriptions c) (neg_sessions c) (auth c) (rate c).
Definition set_subscriptions (c : Conn) s : Conn :=
  mkConn (storage c) (broadcast c) (sent c) (room c) s (neg_sessions c) (auth c) (rate c).
Definition set_neg_sessions (c : Conn) n : Conn :=
  mkConn (storage c) (broadcast c) (sent c) (room c) (subscriptions c) n (auth c) (rate c).
Definition set_auth (c : Conn) a : Conn :=
  mkConn (storage c) (broadcast c) (sent c) (room c) (subscriptions c) (neg_sessions c) a (rate c).
Definition set_rate (c : Conn) r : Conn :=
  mkConn (storage c) (broadcast c) (sent c) (room c) (subscriptions c) (neg_sessions c) (auth c) r.

(** *** Handlers *)

Definition M (A : Type) : Type := Conn → result A DispatchError * Conn.

Definition mret {A} (a : A) : M A := λ c, (Ok a, c).
Definition mbind {A B} (m : M A) (k : A → M B) : M B :=
  λ c, match m c with (Ok a, c') => k a c' | (Err e, c') => (Err e, c') end.
Definition modify (f : Conn → Conn) : M unit := λ c, (Ok tt, f c).

(** [sink.send(frame).await]. *)
Definition send_frame (f : OutFrame) : M unit := λ c,
  match room c with
  | Some O => (Err mkDispatchError, c)
  | Some (S n) => (Ok tt, set_sent c (sent c ++ [f]) (Some n))
  | None => (Ok tt, set_sent c (sent c ++ [f]) None)
  end.
Definition send (m : RelayMessage) : M unit := send_frame (OutText m).

(** [sink.send(..).await.ok()]. *)
Definition send_ignoring (f : OutFrame) (c : Conn) : Conn := (send_frame f c).2.
End connection.

Arguments Conn DB {_}.
Arguments Env {_}.
Arguments ConnectionContext {_}.
Notation "m ';;?' k" := (mbind m (λ _, k)) (at level 100, k at level 200, right associativity).

Section handlers.
Context {DB : Type} `{NostrDatabase DB}.
Context `{FasterHex, Secp256k1, SerdeJson, SigSerde, EventCrypto, UrlCrate, NegentropyCrate}.

Abbreviation Conn := (Conn DB).
Abbreviation refuse id prefix detail := (RelayMessage.Ok id false (reason prefix detail)).

(** *** EVENT *)

Definition check_expired (env : Env) (event : Event) : option RelayMessage :=
  match clock env with
  | Err _ => None
  | Ok now =>
      if bool_decide (Nip40.is_expired event now = Ok true)
      then Some (refuse (Event.id event) MachineReadablePrefix.Blocked "event is expired")
      else None
  end.

Definition check_pow (event : Event) (min : N) : option RelayMessage :=
  match Nip13.verify_pow event min with
  | Err err => Some (refuse (Event.id event) MachineReadablePrefix.Pow (Nip13.pow_error_string err))
  | Ok _ => None
  end.

Definition new_challenge (env : Env) : string := "nula-mock-" +:+ hex_token env.

(** The frames to refuse a protected event with, and the authentication state
    with the challenge that goes with them. *)
Definition check_protected (env : Env) (event : Event) (a : AuthState) :
    option (option RelayMessage * RelayMessage) * AuthState :=
  let detail := "this event may only be published by its author" in
  if negb (Nip70.is_protected event) || bool_decide (auth_pubkey a = Some (Event.pubkey event))
  then (None, a)
  else
    match auth_pubkey a with
    | None =>
        let a := if bool_decide (challenge a = EmptyString)
                 then mkAuth (authenticated a) (auth_pubkey a) (new_challenge env) else a in
        (Some (Some (RelayMessage.Auth (challenge a)),
               refuse (Event.id event) MachineReadablePrefix.AuthRequired detail), a)
    | Some _ =>
        (Some (None, refuse (Event.id event) MachineReadablePrefix.Blocked detail), a)
    end.

(** [{reason:?}]. *)
Definition reason_debug (r : RejectedReason) : string :=
  match r with
  | Duplicate => "Duplicate"
  | Ephemeral => "Ephemeral"
  | Deleted => "Deleted"
  | Expired => "Expired"
  | Replaced => "Replaced"
  | Vanished => "Vanished"
  | InvalidDelete => "InvalidDelete"
  end.

(** Whether the outcome of a save is accepted, and the reply to it. *)
Definition save_reply (id : EventId) (r : result SaveEventStatus string) : bool * RelayMessage :=
  match r with
  | Ok Success | Ok (Rejected Ephemeral) => (true, RelayMessage.Ok id true EmptyString)
  | Ok (Rejected why) => (false, refuse id MachineReadablePrefix.Invalid (reason_debug why))
  | Err e => (false, refuse id MachineReadablePrefix.Error e)
  end.

Definition store_and_reply (env : Env) (event : Event) : M unit := λ c : Conn,
  let '(result, d) := store_save (save_clock env) (storage c) event in
  let c := set_storage c d in
  let '(accepted, reply) := save_reply (Event.id event) result in
  (send reply ;;?
   if accepted then modify (λ c, set_broadcast c (broadcast c ++ [event])) else mret tt) c.

Definition handle_event (ctx : ConnectionContext) (env : Env) (event : Event) : M unit := λ c : Conn,
  match check_expired env event with
  | Some msg => send msg c
  | None =>
      match min_pow ctx ≫= check_pow event with
      | Some msg => send msg c
      | None =>
          let '(refusal, a) := check_protected env event (auth c) in
          let c := set_auth c a in
          match refusal with
          | Some (Some auth_msg, msg) => (send auth_msg ;;? send msg) c
          | Some (None, msg) => send msg c
          | None =>
              match admit_event env event with
              | Reject prefix message => send (refuse (Event.id event) prefix message) c
              | Accept => store_and_reply env event c
              end
          end
      end
  end.

(** *** REQ *)

(** [for x in xs { f(x)?; }]. *)
Fixpoint for_each {A} (xs : list A) (f : A → M (DB := DB) unit) : M unit :=
  match xs with
  | [] => mret tt
  | x :: xs' => f x ;;? for_each xs' f
  end.

Definition send_events (id : SubscriptionId) (events : list Event) : M (DB := DB) unit :=
  for_each events (λ e, send (RelayMessage.Event id e)).

(** The admission loop: the rewritten filters, or the first refusal. *)
Fixpoint admit_filters (ctx : ConnectionContext) (env : Env) (filters : list Filter) :
    result (list Filter) (MachineReadablePrefix * string) :=
  match filters with
  | [] => Ok []
  | f :: filters' =>
      match admit_query env f with
      | (Reject prefix message, _) => Err (prefix, message)
      | (Accept, f) =>
          let f := apply_filter_limits f (default_filter_limit ctx) (max_filter_limit ctx) in
          let? fs := admit_filters ctx env filters' in Ok (f :: fs)
      end
  end.

(** The streaming loop; [true]: every filter was answered. *)
Fixpoint stream_filters (id : SubscriptionId) (filters : list Filter) : M (DB := DB) bool :=
  match filters with
  | [] => mret true
  | f :: filters' => λ c,
      match store_query (storage c) f with
      | Err e =>
          (send (RelayMessage.Closed id
             (reason MachineReadablePrefix.Error ("storage backend error: " +:+ e))) ;;? mret false) c
      | Ok events => (send_events id events ;;? stream_filters id filters') c
      end
  end.

(** The texts [random-0], [random-1], ... *)
Definition stream_random_events (env : Env) (id : SubscriptionId) (count : N) : M (DB := DB) unit :=
  match fresh_keys env with
  | None => λ c, (Err mkDispatchError, c)
  | Some keys =>
      for_each (N.of_nat <$> seq 0 (N.to_nat count)) (λ i,
        match EventBuilder.sign_with_keys (result_ok (clock env))
                (EventBuilder.text_note ("random-" +:+ Dec.to_string i)) keys with
        | Ok event => send (RelayMessage.Event id event)
        | Err _ => mret tt
        end) ;;?
      send (RelayMessage.EndOfStoredEvents id)
  end.

Definition too_long (ctx : ConnectionContext) (id : SubscriptionId) : option N :=
  match max_subid_length ctx with
  | Some max => if (max <? SubscriptionId.byte_len id)%N then Some max else None
  | None => None
  end.

Definition too_long_text (max : N) : string :=
  "subscription id exceeds " +:+ Dec.to_string max +:+ " characters".

(** The cap that a new subscription [id] would exceed. *)
Definition at_cap (ctx : ConnectionContext) (subs : gmap SubscriptionId (list Filter))
    (id : SubscriptionId) : option N :=
  match max_active_subscriptions ctx with
  | Some max =>
      if (max <=? N.of_nat (size subs))%N && bool_decide (subs !! id = None) then Some max else None
  | None => None
  end.

Definition handle_req (ctx : ConnectionContext) (env : Env) (id : SubscriptionId)
    (filters : list Filter) : M unit := λ c : Conn,
  match too_long ctx id with
  | Some max =>
      send (RelayMessage.Closed id (reason MachineReadablePrefix.Invalid (too_long_text max))) c
  | None =>
  match at_cap ctx (subscriptions c) id with
  | Some max =>
      send (RelayMessage.Closed id (reason MachineReadablePrefix.RateLimited
        ("too many concurrent subscriptions (max " +:+ Dec.to_string max +:+ ")"))) c
  | None =>
  match send_random_events ctx with
  | Some count => stream_random_events env id count c
  | None =>
  match filters with
  | [] =>
      send (RelayMessage.Closed id
        (reason MachineReadablePrefix.Invalid "REQ requires at least one filter")) c
  | _ =>
  match admit_filters ctx env filters with
  | Err (prefix, message) => send (RelayMessage.Closed id (reason prefix message)) c
  | Ok filters =>
      mbind (stream_filters id filters) (λ answered,
        if negb answered then mret tt
        else
          send (RelayMessage.EndOfStoredEvents id) ;;?
          modify (λ c, set_subscriptions c (<[id := filters]> (subscriptions c)))) c
  end end end end end.

(** *** NIP-77 *)

Definition send_neg_err (id : SubscriptionId) (prefix : MachineReadablePrefix) (detail : string) :
    M (DB := DB) unit :=
  send (RelayMessage.NegErr id (reason prefix detail)).

Definition handle_neg_open (ctx : ConnectionContext) (env : Env) (id : SubscriptionId)
    (filter : Filter) (initial_message_hex : string) : M unit := λ c : Conn,
  match too_long ctx id with
  | Some max => send_neg_err id MachineReadablePrefix.Invalid (too_long_text max) c
  | None =>
  if bool_decide (is_Some (neg_sessions c !! id))
  then send_neg_err id MachineReadablePrefix.Duplicate "subscription already open" c
  else
  match admit_query env filter with
  | (Reject prefix message, _) => send_neg_err id prefix message c
  | (Accept, filter) =>
  match Sync.from_database (store_items (storage c) filter) with
  | Err e =>
      send_neg_err id MachineReadablePrefix.Error
        ("storage backend error: " +:+ Sync.error_string e) c
  | Ok items =>
  match Sync.responder_with_defaults items with
  | Err e =>
      send_neg_err id MachineReadablePrefix.Error ("negentropy init error: " +:+ Sync.error_string e) c
  | Ok responder =>
  match Sync.responder_reconcile_hex responder initial_message_hex with
  | (Err e, _) =>
      send_neg_err id MachineReadablePrefix.Invalid
        ("negentropy reconcile error: " +:+ Sync.error_string e) c
  | (Ok reply_hex, responder) =>
      send (RelayMessage.NegMsg id reply_hex)
        (set_neg_sessions c (<[id := responder]> (neg_sessions c)))
  end end end end end.

Definition handle_neg_msg (id : SubscriptionId) (message_hex : string) : M unit := λ c : Conn,
  match neg_sessions c !! id with
  | None =>
      send_neg_err id MachineReadablePrefix.Invalid
        "no open NIP-77 session for this subscription id" c
  | Some responder =>
      match Sync.responder_reconcile_hex responder message_hex with
      | (Err e, _) =>
          send_neg_err id MachineReadablePrefix.Invalid
            ("negentropy reconcile error: " +:+ Sync.error_string e)
            (set_neg_sessions c (delete id (neg_sessions c)))
      | (Ok reply_hex, responder) =>
          send (RelayMessage.NegMsg id reply_hex)
            (set_neg_sessions c (<[id := responder]> (neg_sessions c)))
      end
  end.

(** *** AUTH *)

Definition event_error_string (e : Event.Error) : string :=
  match e with
  | Event.InvalidId => "event id does not match the canonical serialization"
  | Event.InvalidSignature => "event signature verification failed"
  end.

Definition verify_client_auth (env : Env) (event : Event) (relay : RelayUrl) (challenge : string) :
    result unit string :=
  let? _ := map_err (λ e, "invalid auth event: " +:+ event_error_string e) (Event.verify event) in
  let? now := map_err (λ e, "relay clock unavailable: " +:+ e) (clock env) in
  map_err Nip42.error_string
    (Nip42.verify_auth_event event relay challenge now Nip42.DEFAULT_MAX_AGE_SECS).

Definition handle_auth (ctx : ConnectionContext) (env : Env) (event : Event) : M unit := λ c : Conn,
  match verify_client_auth env event (relay_url ctx) (challenge (auth c)) with
  | Ok _ =>
      send (RelayMessage.Ok (Event.id event) true EmptyString)
        (set_auth c (mkAuth true (Some (Event.pubkey event)) (challenge (auth c))))
  | Err why => send (refuse (Event.id event) MachineReadablePrefix.Restricted why) c
  end.

Definition dispatch (ctx : ConnectionContext) (env : Env) (msg : ClientMessage) : M unit := λ c : Conn,
  match msg with
  | ClientMessage.Event event => handle_event ctx env event c
  | ClientMessage.Req id filters => handle_req ctx env id filters c
  | ClientMessage.Close id => (Ok tt, set_subscriptions c (delete id (subscriptions c)))
  | ClientMessage.Auth event => handle_auth ctx env event c
  | ClientMessage.Count id filter =>
      let count := match store_count (storage c) filter with Ok n => n | Err _ => 0%N end in
      send (RelayMessage.Count id count) c
  | ClientMessage.NegOpen id filter msg => handle_neg_open ctx env id filter msg c
  | ClientMessage.NegMsg id msg => handle_neg_msg id msg c
  | ClientMessage.NegClose id => (Ok tt, set_neg_sessions c (delete id (neg_sessions c)))
  end.

(** *** Frames *)

Inductive ControlFlow := Continue | Break.

Definition auth_refusal (msg : ClientMessage) : RelayMessage :=
  match msg with
  | ClientMessage.Event event =>
      refuse (Event.id event) MachineReadablePrefix.AuthRequired "authentication required to publish"
  | ClientMessage.Req id _ =>
      RelayMessage.Closed id
        (reason MachineReadablePrefix.AuthRequired "authentication required to read")
  | _ => RelayMessage.Notice "auth-required: this relay requires NIP-42 authentication"
  end.

(** The part of [handle_inbound_frame] after the message is read. *)
Definition handle_message (ctx : ConnectionContext) (env : Env) (msg : ClientMessage) (c : Conn) :
    ControlFlow * Conn :=
  if negb (authenticated (auth c)) && message_needs_auth msg (nip42_mode ctx)
  then (Continue, send_ignoring (OutText (auth_refusal msg)) c)
  else
    let '(verdict, r) := check (rate c) (instant env) msg in
    let c := set_rate c r in
    match verdict with
    | Some reply => (Continue, send_ignoring (OutText reply) c)
    | None =>
        match dispatch ctx env msg c with
        | (Err _, c) => (Break, c)
        | (Ok _, c) => (Continue, c)
        end
    end.

(** [None]: the stream has ended. *)
Definition handle_inbound_frame (ctx : ConnectionContext) (env : Env) (frame : option WsFrame)
    (c : Conn) : ControlFlow * Conn :=
  match frame with
  | None | Some WsClose | Some WsError => (Break, c)
  | Some WsBinary =>
      (Continue, send_ignoring (OutText (RelayMessage.Notice "binary frames are not part of NIP-01")) c)
  | Some (WsPing payload) => (Continue, send_ignoring (OutPong payload) c)
  | Some WsPong => (Continue, c)
  | Some (WsText text) =>
      if unresponsive ctx then (Continue, c)
      else
        match (let? v := text in map_err (de_error_string env) (ClientMessage.deserialize v)) with
        | Err e =>
            (Continue,
             send_ignoring (OutText (RelayMessage.Notice ("invalid client message: " +:+ e))) c)
        | Ok msg => handle_message ctx env msg c
        end
  end.

(** *** The event loop *)

(** Forward a live event to every subscription with a matching filter. *)
Definition forward_to_subscriptions (event : Event) : M unit := λ c : Conn,
  for_each (map_to_list (subscriptions c)) (λ p,
    if existsb (λ f, Filter.match_event f event match_options_default) p.2
    then send (RelayMessage.Event p.1 event) else mret tt) c.

(** The arms of the [select!]; [LiveLagged] is a receive error. *)
Inductive Input :=
| InShutdown
| InLive (event : Event)
| InLagged
| InFrame (frame : option WsFrame).

Definition select (ctx : ConnectionContext) (env : Env) (input : Input) (c : Conn) :
    ControlFlow * Conn :=
  match input with
  | InShutdown => (Break, send_ignoring OutClose c)
  | InLagged => (Continue, c)
  | InLive event =>
      match forward_to_subscriptions event c with
      | (Err _, c) => (Break, c)
      | (Ok _, c) => (Continue, c)
      end
  | InFrame frame => handle_inbound_frame ctx env frame c
  end.

(** The state before the loop, and the challenge it sends; [None]: the
    challenge could not be sent. *)
Definition connect (ctx : ConnectionContext) (env : Env) (d : DB) (room : option nat) : option Conn :=
  let a := mkAuth (negb (Nip42Mode.is_enabled (nip42_mode ctx))) None EmptyString in
  let c := mkConn d [] [] room ∅ ∅ a (limiter_new (rate_limit ctx) (instant env)) in
  if Nip42Mode.is_enabled (nip42_mode ctx) then
    let c := set_auth c (mkAuth false None (new_challenge env)) in
    match send (RelayMessage.Auth (challenge (auth c))) c with
    | (Ok _, c) => Some c
    | (Err _, _) => None
    end
  else Some c.
End handlers.
