(* ===== verification/ServerProofs.v ===== *)
(** * The relay server's connection: lemmas

    What sending changes, what each handler leaves alone, and the invariant of
    a connection's authentication, subscriptions and publications. *)

From Stdlib Require Import Ascii NArith Lia.
From S2P Require Import Prelude Encoding Text Ids Tags Event Filter FilterWire Storage SpecProofs Database.
From S2P Require Import Nips Message Sync Server.

Section proofs.
Context {DB : Type} `{NostrDatabase DB}.
Context `{FasterHex, Secp256k1, SerdeJson, SigSerde, EventCrypto, UrlCrate, NegentropyCrate}.

Abbreviation Conn := (Conn DB).

(** ** Sending *)

(** [c'] is [c] after some frames went out. *)
Definition sends (c c' : Conn) : Prop := ∃ fs r, c' = set_sent c (sent c ++ fs) r.

Lemma sends_refl (c : Conn) : sends c c.
Proof. exists [], (room c). rewrite app_nil_r. by destruct c. Qed.

Lemma sends_trans (c1 c2 c3 : Conn) : sends c1 c2 → sends c2 c3 → sends c1 c3.
Proof. intros (fs & r & ->) (fs' & r' & ->). exists (fs ++ fs'), r'. simpl. by rewrite app_assoc. Qed.

Lemma send_frame_sends f (c : Conn) : sends c (send_frame f c).2.
Proof.
  unfold send_frame. destruct (room c) as [[|n]|]; simpl; [apply sends_refl|..]; by eexists [f], _.
Qed.

Lemma send_sends m (c : Conn) : sends c (send m c).2.
Proof. apply send_frame_sends. Qed.

Lemma bind_sends {A B} (m : M (DB := DB) A) (k : A → M B) (c : Conn) :
  sends c (m c).2 → (∀ a c', sends c c' → sends c' (k a c').2) → sends c (mbind m k c).2.
Proof.
  intros Hm Hk. unfold mbind. destruct (m c) as [[a|e] c'] eqn:E; simpl in *; [|done].
  eapply sends_trans; [done|]. by apply Hk.
Qed.

Lemma for_each_sends {A} (xs : list A) (f : A → M (DB := DB) unit) (c : Conn) :
  (∀ x c', sends c' (f x c').2) → sends c (for_each xs f c).2.
Proof.
  intros Hf. revert c. induction xs as [|x xs IH]; intros c; simpl; [apply sends_refl|].
  apply bind_sends; [apply Hf|]. intros _ c' _. apply IH.
Qed.

Lemma stream_filters_sends id fs (c : Conn) : sends c (stream_filters id fs c).2.
Proof.
  revert c. induction fs as [|f fs IH]; intros c; cbn [stream_filters]; [apply sends_refl|].
  destruct (store_query (storage c) f) as [l|e].
  - apply bind_sends; [apply for_each_sends; intros; apply send_sends|]. intros _ c' _. apply IH.
  - apply bind_sends; [apply send_sends|]. intros _ c' _. apply sends_refl.
Qed.

Lemma forward_sends e (c : Conn) : sends c (forward_to_subscriptions e c).2.
Proof.
  apply for_each_sends. intros [id fs] c'. simpl.
  destruct (existsb _ fs); [apply send_sends|apply sends_refl].
Qed.

Lemma random_sends env id n (c : Conn) : sends c (stream_random_events env id n c).2.
Proof.
  unfold stream_random_events. destruct (fresh_keys env) as [keys|]; [|apply sends_refl].
  apply bind_sends; [|intros; apply send_sends].
  apply for_each_sends. intros i c'. destruct (EventBuilder.sign_with_keys _ _ _);
    [apply send_sends|apply sends_refl].
Qed.

(** What sending leaves alone. *)
Lemma sends_keeps (c c' : Conn) :
  sends c c' →
  storage c' = storage c ∧ broadcast c' = broadcast c ∧ subscriptions c' = subscriptions c ∧
  neg_sessions c' = neg_sessions c ∧ auth c' = auth c ∧ rate c' = rate c.
Proof. by intros (fs & r & ->). Qed.

Lemma sends_prefix (c c' : Conn) : sends c c' → sent c `prefix_of` sent c'.
Proof. intros (fs & r & ->). simpl. by apply prefix_app_r. Qed.

(** On a socket that takes everything a send succeeds. *)
Lemma send_open m (c : Conn) :
  room c = None → send m c = (Ok tt, set_sent c (sent c ++ [OutText m]) None).
Proof. intros Hr. unfold send, send_frame. by rewrite Hr. Qed.

Lemma for_each_send_open {A} (xs : list A) (f : A → M (DB := DB) unit) (g : A → list OutFrame) (c : Conn) :
  (∀ x c', room c' = None → f x c' = (Ok tt, set_sent c' (sent c' ++ g x) None)) →
  room c = None →
  for_each xs f c = (Ok tt, set_sent c (sent c ++ concat (g <$> xs)) None).
Proof.
  intros Hf. revert c. induction xs as [|x xs IH]; intros c Hr; simpl.
  - unfold mret. rewrite app_nil_r. destruct c; simpl in *. by subst.
  - unfold mbind. rewrite Hf by done. rewrite IH by done. simpl. by rewrite app_assoc.
Qed.

Lemma send_events_open id es (c : Conn) :
  room c = None →
  send_events id es c =
    (Ok tt, set_sent c (sent c ++ ((λ e, OutText (RelayMessage.Event id e)) <$> es)) None).
Proof.
  intros Hr. unfold send_events.
  assert (∀ l : list Event, concat ((λ e, [OutText (RelayMessage.Event id e)]) <$> l) =
    (λ e, OutText (RelayMessage.Event id e)) <$> l) as Hl.
  { induction l as [|e l IH]; [done|]. cbn [fmap list_fmap concat app]. by rewrite IH. }
  rewrite <-Hl. apply for_each_send_open; [|done]. intros e c' Hr'. by apply send_open.
Qed.

(** ** Executions *)

(** One step of the surroundings or of the connection: the shared storage was
    changed by another connection, or an input was handled. *)
Inductive Act :=
| Other (d : DB)
| Do (env : Env) (input : Input).

Definition act (ctx : ConnectionContext) (c : Conn) (a : Act) : ControlFlow * Conn :=
  match a with
  | Other d => (Continue, set_storage c d)
  | Do env input => select ctx env input c
  end.

(** The loop stops at the first [Break]. *)
Fixpoint run (ctx : ConnectionContext) (c : Conn) (acts : list Act) : Conn :=
  match acts with
  | [] => c
  | a :: acts' =>
      match act ctx c a with
      | (Continue, c') => run ctx c' acts'
      | (Break, c') => c'
      end
  end.

(** The loop is still running after [acts]. *)
Fixpoint alive (ctx : ConnectionContext) (c : Conn) (acts : list Act) : bool :=
  match acts with
  | [] => true
  | a :: acts' => match act ctx c a with (Continue, c') => alive ctx c' acts' | (Break, _) => false end
  end.
Lemma actions_snoc ctx c acts a :
  run ctx c (acts ++ [a]) = if alive ctx c acts then (act ctx (run ctx c acts) a).2 else run ctx c acts.
Proof.
  revert c. induction acts as [|b acts IH]; intros c; simpl; [by destruct (act ctx c a) as [[|] ?]|].
  destruct (act ctx c b) as [[|] c']; [apply IH|done].
Qed.
Lemma alive_snoc ctx c acts a :
  alive ctx c (acts ++ [a]) =
  alive ctx c acts && (match (act ctx (run ctx c acts) a).1 with Continue => true | Break => false end).
Proof.
  revert c. induction acts as [|b acts IH]; intros c; simpl; [by destruct (act ctx c a) as [[|] ?]|].
  destruct (act ctx c b) as [[|] c']; [apply IH|done].
Qed.

(** An invariant over the acts handled so far. *)
Lemma run_invariant ctx (I : list Act → Conn → Prop) c acts :
  (∀ pre a, alive ctx c pre = true → I pre (run ctx c pre) → I (pre ++ [a]) (act ctx (run ctx c pre) a).2) →
  I [] c → ∃ pre, pre `prefix_of` acts ∧ (alive ctx c acts = true → pre = acts) ∧ I pre (run ctx c acts).
Proof.
  intros Hstep Hc. induction acts as [|a acts (pre & Hp & Ha & HI)] using rev_ind; [by exists []|].
  rewrite actions_snoc, alive_snoc. destruct (alive ctx c acts) eqn:El.
  - rewrite Ha in HI by done. exists (acts ++ [a]). split_and!; [done|done|by apply Hstep].
  - exists pre. split_and!; [by apply prefix_app_r|done|done].
Qed.
Lemma alive_invariant ctx (J : Conn → Prop) c acts :
  (∀ c a, J c → (act ctx c a).1 = Continue → J (act ctx c a).2) → J c → alive ctx c acts = true → J (run ctx c acts).
Proof.
  intros Hstep Hc. induction acts as [|a acts IH] using rev_ind; [done|]. rewrite actions_snoc, alive_snoc.
  destruct (alive ctx c acts); [|done]. simpl. destruct ((act ctx (run ctx c acts) a).1) eqn:Ea; [|done]. auto.
Qed.

(** The message an input carries, if it is read at all. *)
Definition message_of (ctx : ConnectionContext) (input : Input) : option ClientMessage :=
  match input with
  | InFrame (Some (WsText (Ok v))) =>
      if unresponsive ctx then None else result_ok (ClientMessage.deserialize v)
  | _ => None
  end.

(** An input either carries no message, and then only sends, or is its
    message's handling. *)
Lemma select_cases ctx env input (c : Conn) :
  match message_of ctx input with
  | Some msg => select ctx env input c = handle_message ctx env msg c
  | None => sends c (select ctx env input c).2
  end.
Proof.
  destruct input as [|e| |[[v| |p| | |]|]]; simpl; try apply sends_refl; try apply send_frame_sends.
  - pose proof (forward_sends e c) as Hf. by destruct (forward_to_subscriptions e c) as [[|] ?].
  - destruct v as [v|e]; simpl.
    + destruct (unresponsive ctx); [apply sends_refl|].
      destruct (ClientMessage.deserialize v) as [msg|err]; simpl; [done|apply send_frame_sends].
    + destruct (unresponsive ctx); [apply sends_refl|apply send_frame_sends].
Qed.

(** ** What a message can change *)

(** The gates an event passes before it reaches the storage. *)
Record cleared (ctx : ConnectionContext) (env : Env) (c : Conn) (e : Event) : Prop := {
  cl_fresh : ∀ now, clock env = Ok now → Nip40.is_expired e now ≠ Ok true;
  cl_pow : ∀ d, min_pow ctx = Some d → Nip13.verify_pow e d = Ok tt;
  cl_protected : Nip70.is_protected e = true → auth_pubkey (auth c) = Some (Event.pubkey e);
  cl_policy : admit_event env e = Accept;
}.

(** Only an anonymous connection without a challenge is given one. *)
Definition challenged (env : Env) (a a' : AuthState) : Prop :=
  a' = a ∨
  (auth_pubkey a = None ∧ challenge a = EmptyString ∧
   a' = mkAuth (authenticated a) None (new_challenge env)).

Lemma check_protected_None env e a a' :
  check_protected env e a = (None, a') →
  a' = a ∧ (Nip70.is_protected e = true → auth_pubkey a = Some (Event.pubkey e)).
Proof.
  unfold check_protected. destruct (Nip70.is_protected e); simpl; [|intros [= <-]; split; done].
  case_bool_decide as Ha; [intros [= <-]; done|]. by destruct (auth_pubkey a).
Qed.

Lemma check_protected_challenged env e a r a' :
  check_protected env e a = (r, a') → challenged env a a'.
Proof.
  unfold check_protected, challenged. destruct (_ || _); [intros [= _ <-]; by left|].
  destruct (auth_pubkey a) as [pk|] eqn:Ea; [intros [= _ <-]; by left|].
  case_bool_decide as Hc; intros [= _ <-]; [|by left]. right. done.
Qed.

Lemma handle_event_cases ctx env e (c : Conn) :
  (∃ a, challenged env (auth c) a ∧ sends (set_auth c a) (handle_event ctx env e c).2) ∨
  (cleared ctx env c e ∧ handle_event ctx env e c = store_and_reply env e c).
Proof.
  assert (set_auth c (auth c) = c) as Hid by by destruct c.
  assert (∀ m, ∃ a, challenged env (auth c) a ∧ sends (set_auth c a) (send m c).2) as Hsend.
  { intros m. exists (auth c). rewrite Hid. split; [by left|apply send_sends]. }
  unfold handle_event. destruct (check_expired env e) as [m|] eqn:Eexp; [left; apply Hsend|].
  destruct (min_pow ctx ≫= check_pow e) as [m|] eqn:Epow; [left; apply Hsend|].
  destruct (check_protected env e (auth c)) as [refusal a] eqn:Ep.
  pose proof (check_protected_challenged _ _ _ _ _ Ep) as Ha.
  destruct refusal as [[[am|] m]|].
  - left. exists a. split; [done|]. apply bind_sends; [apply send_sends|]. intros; apply send_sends.
  - left. exists a. split; [done|]. apply send_sends.
  - apply check_protected_None in Ep as [-> Hprot]. rewrite Hid.
    destruct (admit_event env e) as [|p m] eqn:Eadm; [|left; apply Hsend].
    right. split; [|done]. split; [| |done|done].
    + intros now Hnow. unfold check_expired in Eexp. rewrite Hnow in Eexp.
      by case_bool_decide.
    + intros d Hd. rewrite Hd in Epow. simpl in Epow. unfold check_pow in Epow.
      by destruct (Nip13.verify_pow e d) as [[]|].
Qed.

(** Storing an event: the storage takes a save, and the event is published
    exactly when the save counts as accepted and the reply went out. *)
Lemma store_and_reply_effect env e (c : Conn) :
  let save := store_save (save_clock env) (storage c) e in
  let r := store_and_reply env e c in
  storage r.2 = save.2 ∧ auth r.2 = auth c ∧ subscriptions r.2 = subscriptions c ∧
  neg_sessions r.2 = neg_sessions c ∧ rate r.2 = rate c ∧
  (broadcast r.2 = broadcast c ∨
   (broadcast r.2 = broadcast c ++ [e] ∧ (save_reply (Event.id e) save.1).1 = true)).
Proof.
  cbv zeta. unfold store_and_reply.
  destruct (store_save (save_clock env) (storage c) e) as [res d]. cbn [fst snd].
  destruct (save_reply (Event.id e) res) as [accepted reply]. unfold mbind.
  pose proof (send_sends reply (set_storage c d)) as Hs.
  destruct (send reply (set_storage c d)) as [[[]|err] c'] eqn:E; simpl in Hs;
    destruct (sends_keeps _ _ Hs) as (E1 & E2 & E3 & E4 & E5 & E6).
  - destruct accepted; simpl; rewrite ?E1, ?E2, ?E3, ?E4, ?E5, ?E6; simpl; split_and!; auto.
  - simpl. rewrite E1, E2, E3, E4, E5, E6. simpl. split_and!; auto.
Qed.

Lemma admit_filters_limits ctx env fs fs' f m :
  admit_filters ctx env fs = Ok fs' → max_filter_limit ctx = Some m → f ∈ fs' →
  ∃ l, Filter.limit f = Some l ∧ (l <= m)%N.
Proof.
  intros Ha Hm. revert fs' Ha. induction fs as [|g fs IH]; intros fs' Ha; simpl in Ha.
  - injection Ha as <-. set_solver.
  - destruct (admit_query env g) as [[|] g']; [|done].
    destruct (admit_filters ctx env fs) as [fs1|] eqn:E; simpl in Ha; [|done]. injection Ha as <-.
    intros [->|Hin]%elem_of_cons; [|by eapply IH].
    unfold apply_filter_limits. rewrite Hm. simpl. eexists. split; [done|].
    match goal with |- (match ?x with _ => _ end <= _)%N => destruct x end; lia.
Qed.

(** A subscription map after a REQ: unchanged, or with one admitted entry. *)
Lemma handle_req_effect ctx env id fs (c : Conn) :
  let c' := (handle_req ctx env id fs c).2 in
  sends c c' ∨
  (∃ fs' c1, sends c c1 ∧ c' = set_subscriptions c1 (<[id := fs']> (subscriptions c)) ∧
     at_cap ctx (subscriptions c) id = None ∧ admit_filters ctx env fs = Ok fs').
Proof.
  cbv zeta. unfold handle_req. destruct (too_long ctx id); [left; apply send_sends|].
  destruct (at_cap ctx (subscriptions c) id) eqn:Ecap; [left; apply send_sends|].
  destruct (send_random_events ctx); [left; apply random_sends|].
  destruct fs as [|f fs]; [left; apply send_sends|].
  destruct (admit_filters ctx env (f :: fs)) as [fs'|[p m]] eqn:Ea; [|left; apply send_sends].
  unfold mbind. pose proof (stream_filters_sends id fs' c) as Hs.
  destruct (stream_filters id fs' c) as [[[|]|err] c1]; simpl in Hs; [|by left|by left].
  cbn [negb]. pose proof (send_sends (RelayMessage.EndOfStoredEvents id) c1) as Hs2.
  destruct (send _ c1) as [[[]|err] c2]; simpl in *; [|left; by eapply sends_trans].
  right. exists fs', c2. assert (sends c c2) as Hcc by by eapply sends_trans.
  split; [done|]. destruct (sends_keeps _ _ Hcc) as (_ & _ & Esub & _). split; [|done].
  unfold modify. cbn [snd]. by rewrite Esub.
Qed.

(** The NIP-77 handlers touch their sessions only. *)
Definition neg_only (c c' : Conn) : Prop :=
  storage c' = storage c ∧ broadcast c' = broadcast c ∧ subscriptions c' = subscriptions c ∧
  auth c' = auth c ∧ rate c' = rate c ∧ sent c `prefix_of` sent c'.

Lemma neg_only_sends c c0 c' : neg_only c c0 → sends c0 c' → neg_only c c'.
Proof.
  intros (? & ? & ? & ? & ? & Hp) Hs. pose proof (sends_prefix _ _ Hs) as Hp'.
  destruct (sends_keeps _ _ Hs) as (? & ? & ? & ? & ? & ?). unfold neg_only. split_and!; try congruence. by etrans.
Qed.

Lemma neg_open_only ctx env id f m (c : Conn) : neg_only c (handle_neg_open ctx env id f m c).2.
Proof.
  assert (∀ msg, neg_only c (send msg c).2) as Hs
    by (intros msg; eapply neg_only_sends; [|apply send_sends]; done).
  unfold handle_neg_open, send_neg_err. destruct (too_long ctx id); [apply Hs|].
  case_bool_decide; [apply Hs|]. destruct (admit_query env f) as [[|] f']; [|apply Hs].
  destruct (Sync.from_database _) as [items|]; [|apply Hs].
  destruct (Sync.responder_with_defaults items) as [r|]; [|apply Hs].
  destruct (Sync.responder_reconcile_hex r m) as [[reply|] r']; [|apply Hs].
  eapply neg_only_sends; [|apply send_sends]. done.
Qed.

Lemma neg_msg_only id m (c : Conn) : neg_only c (handle_neg_msg id m c).2.
Proof.
  unfold handle_neg_msg, send_neg_err. destruct (neg_sessions c !! id) as [r|].
  - destruct (Sync.responder_reconcile_hex r m) as [[reply|] r'];
      (eapply neg_only_sends; [|apply send_sends]); done.
  - eapply neg_only_sends; [|apply send_sends]. done.
Qed.

(** ** The invariant *)

(** The challenge the connection has now was sent on it. *)
Definition issued (c : Conn) : Prop := OutText (RelayMessage.Auth (challenge (auth c))) ∈ sent c.

(** Somewhere in [acts] the client answered, with an event signed by [pk] for this
    relay, the challenge this very connection, started as [c], had then and had
    sent. *)
Definition proven (ctx : ConnectionContext) (c : Conn) (acts : list Act) (pk : PublicKey) : Prop :=
  ∃ pre env input a now, pre ++ [Do env input] `prefix_of` acts ∧
    message_of ctx input = Some (ClientMessage.Auth a) ∧
    clock env = Ok now ∧ Event.verify a = Ok tt ∧ Event.pubkey a = pk ∧
    issued (run ctx c pre) ∧
    Nip42.responds a (relay_url ctx) (challenge (auth (run ctx c pre))) now Nip42.DEFAULT_MAX_AGE_SECS.

(** [e] was sent by the client and passed every gate when it was. *)
Definition published (ctx : ConnectionContext) (c : Conn) (acts : list Act) (e : Event) : Prop :=
  ∃ pre env input, pre ++ [Do env input] `prefix_of` acts ∧
    message_of ctx input = Some (ClientMessage.Event e) ∧
    (∀ now, clock env = Ok now → Nip40.is_expired e now ≠ Ok true) ∧
    (∀ d, min_pow ctx = Some d → Nip13.verify_pow e d = Ok tt) ∧
    admit_event env e = Accept ∧
    (Nip70.is_protected e = true → proven ctx c pre (Event.pubkey e)) ∧
    (Nip42Mode.requires_for_write (nip42_mode ctx) = true → ∃ pk, proven ctx c pre pk).

Lemma proven_app ctx c acts acts' pk : proven ctx c acts pk → proven ctx c (acts ++ acts') pk.
Proof. intros (pre & env & i & a & now & Hp & ?). exists pre, env, i, a, now. split; [by apply prefix_app_r|done]. Qed.

Lemma published_app ctx c acts acts' e : published ctx c acts e → published ctx c (acts ++ acts') e.
Proof.
  intros (pre & env & i & Hp & ?). exists pre, env, i. split; [by apply prefix_app_r|done].
Qed.

Definition auth_inv (ctx : ConnectionContext) (c0 : Conn) (acts : list Act) (a : AuthState) : Prop :=
  (∀ pk, auth_pubkey a = Some pk → proven ctx c0 acts pk) ∧
  (authenticated a = true → Nip42Mode.is_enabled (nip42_mode ctx) = true → is_Some (auth_pubkey a)).

Definition subs_inv (ctx : ConnectionContext) (subs : gmap SubscriptionId (list Filter)) : Prop :=
  (∀ m, max_active_subscriptions ctx = Some m → (N.of_nat (size subs) <= m)%N) ∧
  (∀ id fs f m, subs !! id = Some fs → f ∈ fs → max_filter_limit ctx = Some m →
     ∃ l, Filter.limit f = Some l ∧ (l <= m)%N).

Record conn_inv (ctx : ConnectionContext) (c0 : Conn) (acts : list Act) (c : Conn) : Prop := {
  ci_auth : auth_inv ctx c0 acts (auth c);
  ci_published : ∀ e, e ∈ broadcast c → published ctx c0 acts e;
  ci_subs : subs_inv ctx (subscriptions c);
}.

Lemma conn_inv_keep ctx c0 acts a (c c' : Conn) :
  conn_inv ctx c0 acts c → auth c' = auth c → broadcast c' = broadcast c →
  subscriptions c' = subscriptions c → conn_inv ctx c0 (acts ++ [a]) c'.
Proof.
  intros [[Hp Ha] Hb Hs] E1 E2 E3. split; rewrite ?E1, ?E2, ?E3; [|by eauto using published_app|done].
  split; [|done]. eauto using proven_app.
Qed.

Lemma conn_inv_sends ctx c0 acts a (c c' : Conn) :
  conn_inv ctx c0 acts c → sends c c' → conn_inv ctx c0 (acts ++ [a]) c'.
Proof. intros HI (? & ? & ? & ? & ? & ?)%sends_keeps. by eapply conn_inv_keep. Qed.

Lemma subs_inv_insert ctx env subs id fs fs' :
  subs_inv ctx subs → at_cap ctx subs id = None → admit_filters ctx env fs = Ok fs' →
  subs_inv ctx (<[id := fs']> subs).
Proof.
  intros [Hc Hl] Hcap Ha. split.
  - intros m Hm. specialize (Hc m Hm). unfold at_cap in Hcap. rewrite Hm in Hcap.
    destruct (subs !! id) as [old|] eqn:E.
    + rewrite map_size_insert_Some by eauto. done.
    + rewrite map_size_insert_None by done.
      rewrite (bool_decide_true (None = None)), andb_true_r in Hcap by done.
      destruct (N.leb_spec m (N.of_nat (size subs))); [done|]. lia.
  - intros id' fs0 f m [[<- <-]|[_ E]]%lookup_insert_Some Hf Hm; [|by eapply Hl].
    by eapply admit_filters_limits.
Qed.

Lemma subs_inv_delete ctx subs id : subs_inv ctx subs → subs_inv ctx (delete id subs).
Proof.
  intros [Hc Hl]. split.
  - intros m Hm. specialize (Hc m Hm). rewrite map_size_delete. destruct (subs !! id); simpl; lia.
  - intros id' fs f m [_ E]%lookup_delete_Some. by eapply Hl.
Qed.

Lemma verify_client_auth_Ok env e relay ch u :
  verify_client_auth env e relay ch = Ok u →
  ∃ now, clock env = Ok now ∧ Event.verify e = Ok tt ∧
    Nip42.responds e relay ch now Nip42.DEFAULT_MAX_AGE_SECS.
Proof.
  unfold verify_client_auth. destruct (Event.verify e) as [[]|]; simpl; [|done].
  destruct (clock env) as [now|]; simpl; [|done].
  destruct (Nip42.verify_auth_event _ _ _ _ _) as [[]|] eqn:E; simpl; [|done].
  intros _. exists now. split_and!; [done|done|]. by apply Nip42.verify_auth_event_ok.
Qed.

(** An event that is let through is published in the sense above. *)
Lemma cleared_published ctx c0 acts env input e (c : Conn) :
  conn_inv ctx c0 acts c → message_of ctx input = Some (ClientMessage.Event e) → cleared ctx env c e →
  negb (authenticated (auth c)) && message_needs_auth (ClientMessage.Event e) (nip42_mode ctx) = false →
  published ctx c0 (acts ++ [Do env input]) e.
Proof.
  intros [[Hp Ha] _ _] Hm [Hf Hw Hpr Hpol] Hgate. exists acts, env, input.
  split_and!; [done|done|done|done|done|..].
  - intros Hprot. by apply Hp, Hpr.
  - intros Hw'. simpl in Hgate. rewrite Hw', andb_true_r in Hgate. apply negb_false_iff in Hgate.
    destruct Ha as [pk Hpk]; [done|by destruct (nip42_mode ctx)|]. exists pk. auto.
Qed.

Lemma handle_event_inv ctx c0 acts env input e (c : Conn) :
  conn_inv ctx c0 acts c → message_of ctx input = Some (ClientMessage.Event e) →
  negb (authenticated (auth c)) && message_needs_auth (ClientMessage.Event e) (nip42_mode ctx) = false →
  conn_inv ctx c0 (acts ++ [Do env input]) (handle_event ctx env e c).2.
Proof.
  intros HI Hm Hgate. destruct (handle_event_cases ctx env e c) as [(a & Hch & Hs)|[Hcl ->]].
  - destruct (sends_keeps _ _ Hs) as (_ & E2 & E3 & _ & E5 & _). simpl in *.
    destruct Hch as [->|(Hpk & Hc & ->)]; [by eapply conn_inv_keep|].
    destruct HI as [[Hp Ha] Hb Hsub]. split; rewrite ?E2, ?E3, ?E5; [|by eauto using published_app|done].
    split; simpl; [done|]. intros Hau Hen. destruct (Ha Hau Hen). congruence.
  - destruct (store_and_reply_effect env e c) as (_ & E5 & E3 & _ & _ & E2).
    destruct E2 as [E2|[E2 _]]; [by eapply conn_inv_keep|].
    pose proof (cleared_published _ _ _ _ _ _ _ HI Hm Hcl Hgate) as Hpub.
    destruct HI as [[Hp Ha] Hb Hsub]. split; rewrite ?E2, ?E3, ?E5; [split; [|done]|..].
    + eauto using proven_app.
    + intros x [Hx|Hx]%elem_of_app; [by eauto using published_app|].
      by apply list_elem_of_singleton in Hx as ->.
    + done.
Qed.

(** [c] is where the connection that started as [c0] is after [acts], its rate
    limiter apart. *)
Definition challenge_inv (c : Conn) : Prop := challenge (auth c) ≠ EmptyString → issued c.
Definition now_at (ctx : ConnectionContext) (c0 : Conn) (acts : list Act) (c : Conn) : Prop :=
  auth c = auth (run ctx c0 acts) ∧ sent c = sent (run ctx c0 acts) ∧ challenge_inv c.

Lemma handle_auth_inv ctx c0 acts env input e (c : Conn) :
  now_at ctx c0 acts c → conn_inv ctx c0 acts c → message_of ctx input = Some (ClientMessage.Auth e) →
  conn_inv ctx c0 (acts ++ [Do env input]) (handle_auth ctx env e c).2.
Proof.
  intros (Ea & Es & Hi) HI Hm. unfold handle_auth.
  destruct (verify_client_auth _ _ _ _) as [u|why] eqn:E; [|by eapply conn_inv_sends; [|apply send_sends]].
  apply verify_client_auth_Ok in E as (now & Hnow & Hv & Hr).
  match goal with |- conn_inv _ _ _ (send ?m ?c0).2 => pose proof (send_sends m c0) as Hs end.
  destruct (sends_keeps _ _ Hs) as (_ & E2 & E3 & _ & E5 & _). simpl in E2, E3, E5.
  destruct HI as [_ Hb Hsub]. split; rewrite ?E2, ?E3, ?E5; [|by eauto using published_app|done].
  split; simpl; [|by eauto]. intros pk [= <-]. exists acts, env, input, e, now.
  rewrite <-Ea. split_and!; [done..| |done]. unfold issued. rewrite <-Ea, <-Es. apply Hi, Hr.
Qed.

Lemma dispatch_inv ctx c0 acts env input msg (c : Conn) :
  now_at ctx c0 acts c → conn_inv ctx c0 acts c → message_of ctx input = Some msg →
  negb (authenticated (auth c)) && message_needs_auth msg (nip42_mode ctx) = false →
  conn_inv ctx c0 (acts ++ [Do env input]) (dispatch ctx env msg c).2.
Proof.
  intros Hnow HI Hm Hgate. destruct msg as [e|id fs|id|e|id f|id f m|id m|id]; simpl.
  - by apply handle_event_inv.
  - destruct (handle_req_effect ctx env id fs c) as [Hs|(fs' & c1 & Hs & -> & Hcap & Ha)];
      [by eapply conn_inv_sends|].
    destruct (sends_keeps _ _ Hs) as (_ & E2 & E3 & _ & E5 & _).
    destruct HI as [[Hp Hau] Hb Hsub]. split; simpl; rewrite ?E2, ?E5; [|by eauto using published_app|].
    + split; [|done]. eauto using proven_app.
    + by eapply subs_inv_insert.
  - destruct HI as [[Hp Hau] Hb Hsub]. split; simpl; [|by eauto using published_app|by apply subs_inv_delete].
    split; [|done]. eauto using proven_app.
  - by apply handle_auth_inv.
  - eapply conn_inv_sends; [done|apply send_sends].
  - destruct (neg_open_only ctx env id f m c) as (_ & ? & ? & ? & _). by eapply conn_inv_keep.
  - destruct (neg_msg_only id m c) as (_ & ? & ? & ? & _). by eapply conn_inv_keep.
  - by eapply conn_inv_keep.
Qed.

Lemma act_inv ctx c0 acts (c : Conn) a :
  now_at ctx c0 acts c → conn_inv ctx c0 acts c → conn_inv ctx c0 (acts ++ [a]) (act ctx c a).2.
Proof.
  intros Hnow HI. destruct a as [d|env input]; simpl; [by eapply conn_inv_keep|].
  pose proof (select_cases ctx env input c) as Hsel.
  destruct (message_of ctx input) as [msg|] eqn:Em; [|by eapply conn_inv_sends].
  rewrite Hsel. unfold handle_message.
  destruct (negb _ && _) eqn:Hgate; [eapply conn_inv_sends; [done|apply send_frame_sends]|].
  destruct (check (rate c) (instant env) msg) as [[reply|] r].
  - eapply conn_inv_keep; [exact HI|..];
      destruct (sends_keeps _ _ (send_frame_sends (OutText reply) (set_rate c r))) as (? & ? & ? & ? & ? & ?);
      done.
  - assert (conn_inv ctx c0 acts (set_rate c r)) as HI' by by destruct HI.
    pose proof (dispatch_inv ctx c0 acts env input msg (set_rate c r) Hnow HI' Em Hgate) as Hd.
    by destruct (dispatch ctx env msg (set_rate c r)) as [[|] c'].
Qed.

Lemma connect_inv ctx env d r c : connect (DB := DB) ctx env d r = Some c → conn_inv ctx c [] c.
Proof.
  assert (∀ a c, auth_pubkey a = None → auth c = a → authenticated a = negb (Nip42Mode.is_enabled (nip42_mode ctx)) →
    broadcast c = [] → subscriptions c = (∅ : gmap _ _) → conn_inv ctx c [] (c : Conn)) as Hinit.
  { intros a c0 Hpk Ha Hau Hb Hs. split; rewrite ?Ha, ?Hb, ?Hs; [|set_solver|].
    - split; [by rewrite Hpk|]. rewrite Hau. by destruct (Nip42Mode.is_enabled _).
    - split; [intros m _; rewrite map_size_empty; lia|]. by intros ???? ?%lookup_empty_Some. }
  unfold connect. destruct (Nip42Mode.is_enabled (nip42_mode ctx)) eqn:Een.
  - match goal with |- context [send ?m ?c0] => pose proof (send_sends m c0) as Hs end.
    destruct (send _ _) as [[[]|] c'] eqn:E; [|done]. intros [= <-]. simpl in Hs.
    destruct (sends_keeps _ _ Hs) as (_ & E2 & E3 & _ & E5 & _). simpl in *.
    apply (Hinit (auth c') c'); rewrite ?E5, ?Een; done.
  - intros [= <-]. apply (Hinit (mkAuth true None EmptyString)); rewrite ?Een; done.
Qed.

(** *** The challenge *)

Lemma challenge_inv_keep (c c' : Conn) :
  challenge_inv c → challenge (auth c') = challenge (auth c) → sent c `prefix_of` sent c' → challenge_inv c'.
Proof. unfold challenge_inv, issued. intros Hc -> [l ->] Hn. apply elem_of_app. left. auto. Qed.
Lemma challenge_inv_sends (c c' : Conn) : challenge_inv c → sends c c' → challenge_inv c'.
Proof.
  intros Hc Hs. eapply challenge_inv_keep; [done| |by apply sends_prefix]. by destruct (sends_keeps _ _ Hs) as (_ & _ & _ & _ & -> & _).
Qed.
Lemma send_Ok m (c c' : Conn) u : send m c = (Ok u, c') → OutText m ∈ sent c'.
Proof.
  unfold send, send_frame. destruct (room c) as [[|n]|]; [done|..]; intros [= <- <-]; simpl; set_solver.
Qed.
Lemma store_and_reply_prefix env e (c : Conn) : sent c `prefix_of` sent (store_and_reply env e c).2.
Proof.
  unfold store_and_reply. destruct (store_save _ _ _) as [res d]. destruct (save_reply _ _) as [accepted reply].
  unfold mbind. pose proof (sends_prefix _ _ (send_sends reply (set_storage c d))) as Hp.
  destruct (send reply (set_storage c d)) as [[u|] c']; [|done]. by destruct accepted.
Qed.

Lemma handle_event_challenge ctx env e (c : Conn) :
  challenge_inv c → (handle_event ctx env e c).1 = Ok tt → challenge_inv (handle_event ctx env e c).2.
Proof.
  intros Hc. assert (set_auth c (auth c) = c) as Hid by by destruct c.
  unfold handle_event. destruct (check_expired env e); [intros _; eapply challenge_inv_sends; [done|apply send_sends]|].
  destruct (min_pow ctx ≫= check_pow e); [intros _; eapply challenge_inv_sends; [done|apply send_sends]|].
  destruct (check_protected env e (auth c)) as [refusal a] eqn:Ep. destruct refusal as [[[am|] m]|].
  - assert (am = RelayMessage.Auth (challenge a)) as ->.
    { revert Ep. unfold check_protected. destruct (_ || _); [done|]. destruct (auth_pubkey (auth c)); [done|]. by intros [= <- _ <-]. }
    unfold mbind. pose proof (send_sends (RelayMessage.Auth (challenge a)) (set_auth c a)) as Hs.
    destruct (send (RelayMessage.Auth (challenge a)) (set_auth c a)) as [[u|err] c1] eqn:E1; [|done]. intros _.
    apply send_Ok in E1. eapply challenge_inv_sends; [|apply send_sends]. intros _. unfold issued. simpl in Hs.
    destruct (sends_keeps _ _ Hs) as (_ & _ & _ & _ & -> & _). done.
  - intros _. assert (a = auth c) as ->.
    { revert Ep. unfold check_protected. destruct (_ || _); [done|]. destruct (auth_pubkey (auth c)); [|done]. by intros [= _ <-]. }
    rewrite Hid. eapply challenge_inv_sends; [done|apply send_sends].
  - intros _. apply check_protected_None in Ep as [-> _]. rewrite Hid.
    destruct (admit_event env e); [|eapply challenge_inv_sends; [done|apply send_sends]].
    eapply challenge_inv_keep; [done| |apply store_and_reply_prefix]. by destruct (store_and_reply_effect env e c) as (_ & -> & _).
Qed.

Lemma dispatch_challenge ctx env msg (c : Conn) :
  challenge_inv c → (dispatch ctx env msg c).1 = Ok tt → challenge_inv (dispatch ctx env msg c).2.
Proof.
  intros Hc. destruct msg as [e|id fs|id|e|id f|id f m|id m|id]; simpl.
  - by apply handle_event_challenge.
  - intros _. destruct (handle_req_effect ctx env id fs c) as [Hs|(fs' & c1 & Hs & -> & _)]; [by eapply challenge_inv_sends|].
    by apply (challenge_inv_sends _ _ Hc) in Hs.
  - intros _. by eapply challenge_inv_keep.
  - intros _. unfold handle_auth. destruct (verify_client_auth _ _ _ _); (eapply challenge_inv_sends; [|apply send_sends]); [|done].
    by eapply challenge_inv_keep.
  - intros _. eapply challenge_inv_sends; [done|apply send_sends].
  - intros _. destruct (neg_open_only ctx env id f m c) as (_ & _ & _ & Ha & _ & Hp). eapply challenge_inv_keep; [done| |done]. by rewrite Ha.
  - intros _. destruct (neg_msg_only id m c) as (_ & _ & _ & Ha & _ & Hp). eapply challenge_inv_keep; [done| |done]. by rewrite Ha.
  - intros _. by eapply challenge_inv_keep.
Qed.

Lemma act_challenge ctx (c : Conn) a : challenge_inv c → (act ctx c a).1 = Continue → challenge_inv (act ctx c a).2.
Proof.
  intros Hc. destruct a as [d|env input]; simpl; [by intros _; eapply challenge_inv_keep|].
  pose proof (select_cases ctx env input c) as Hsel. destruct (message_of ctx input) as [msg|]; [|by intros _; eapply challenge_inv_sends].
  rewrite Hsel. unfold handle_message. destruct (negb _ && _); [intros _; eapply challenge_inv_sends; [done|apply send_frame_sends]|].
  assert (∀ r, challenge_inv (set_rate c r)) as Hr by (intros r; by eapply challenge_inv_keep).
  destruct (check (rate c) (instant env) msg) as [[reply|] r]; [intros _; eapply challenge_inv_sends; [apply Hr|apply send_frame_sends]|].
  pose proof (dispatch_challenge ctx env msg (set_rate c r) (Hr r)) as Hd.
  destruct (dispatch ctx env msg (set_rate c r)) as [[[]|] c']; [|done]. intros _. by apply Hd.
Qed.

Lemma connect_challenge ctx env d r c : connect (DB := DB) ctx env d r = Some c → challenge_inv c.
Proof.
  unfold connect. destruct (Nip42Mode.is_enabled (nip42_mode ctx)); [|by intros [= <-] Hn; destruct Hn].
  match goal with |- context [send ?m ?c0] => pose proof (send_sends m c0) as Hs; destruct (send m c0) as [[u|] c'] eqn:E end; [|done].
  intros [= <-] _. apply send_Ok in E. unfold issued. simpl in Hs. destruct (sends_keeps _ _ Hs) as (_ & _ & _ & _ & -> & _). done.
Qed.

Lemma alive_now ctx env d r c acts :
  connect (DB := DB) ctx env d r = Some c → alive ctx c acts = true → now_at ctx c acts (run ctx c acts).
Proof.
  intros Hc Ha. split_and!; [done|done|]. eapply alive_invariant; [apply act_challenge|by eapply connect_challenge|done].
Qed.

Lemma run_inv ctx env d r c acts :
  connect (DB := DB) ctx env d r = Some c →
  ∃ pre, pre `prefix_of` acts ∧ conn_inv ctx c pre (run ctx c acts).
Proof.
  intros Hc. destruct (run_invariant ctx (conn_inv ctx c) c acts) as (pre & Hp & _ & HI); [|by eapply connect_inv|by exists pre].
  intros pre a Ha. apply act_inv. by eapply alive_now.
Qed.

(** ** What reaches the storage *)

Definition save_into (d : DB) (p : result Timestamp string * Event) : DB := (store_save p.1 d p.2).2.

Lemma handle_event_storage ctx env e (c : Conn) :
  storage (handle_event ctx env e c).2 = storage c ∨
  (cleared ctx env c e ∧ storage (handle_event ctx env e c).2 = save_into (storage c) (save_clock env, e)).
Proof.
  destruct (handle_event_cases ctx env e c) as [(a & _ & Hs)|[Hcl ->]].
  - left. by destruct (sends_keeps _ _ Hs) as (-> & _).
  - right. split; [done|]. by destruct (store_and_reply_effect env e c) as (-> & _).
Qed.

Lemma dispatch_storage ctx env msg (c : Conn) :
  storage (dispatch ctx env msg c).2 = storage c ∨
  ∃ e, msg = ClientMessage.Event e ∧ cleared ctx env c e ∧
    storage (dispatch ctx env msg c).2 = save_into (storage c) (save_clock env, e).
Proof.
  assert (∀ m (c0 : Conn), storage (send m c0).2 = storage c0) as Hs
    by (intros m c0; by destruct (sends_keeps _ _ (send_sends m c0)) as (-> & _)).
  destruct msg as [e|id fs|id|e|id f|id f m|id m|id]; cbn [dispatch]; try (left; done).
  - destruct (handle_event_storage ctx env e c) as [?|?]; [by left|right; eauto].
  - left. destruct (handle_req_effect ctx env id fs c) as [Hq|(fs' & c1 & Hq & -> & _)].
    + by destruct (sends_keeps _ _ Hq) as (-> & _).
    + simpl. by destruct (sends_keeps _ _ Hq) as (-> & _).
  - left. unfold handle_auth. destruct (verify_client_auth _ _ _ _); by rewrite Hs.
  - left. apply (neg_open_only ctx env id f m c).
  - left. apply (neg_msg_only id m c).
Qed.

(** The storage is the one somebody left, with published events saved on top. *)
Definition stored_inv (ctx : ConnectionContext) (c0 : Conn) (d : DB) (acts : list Act) (c : Conn) : Prop :=
  ∃ d0 saves, (d0 = d ∨ Other d0 ∈ acts) ∧ storage c = foldl save_into d0 saves ∧
    ∀ p, p ∈ saves → published ctx c0 acts p.2.

Lemma stored_inv_keep ctx c0 d acts a (c c' : Conn) :
  stored_inv ctx c0 d acts c → storage c' = storage c → stored_inv ctx c0 d (acts ++ [a]) c'.
Proof.
  intros (d0 & saves & Hd & Hst & Hp) E. exists d0, saves. split_and!; [|congruence|].
  - destruct Hd as [?|?]; [by left|right; set_solver].
  - eauto using published_app.
Qed.

Lemma act_stored ctx c0 d acts (c : Conn) a :
  conn_inv ctx c0 acts c → stored_inv ctx c0 d acts c → stored_inv ctx c0 d (acts ++ [a]) (act ctx c a).2.
Proof.
  intros HI HS. destruct a as [d'|env input]; simpl.
  { exists d', []. split_and!; [right; set_solver|done|set_solver]. }
  pose proof (select_cases ctx env input c) as Hsel.
  destruct (message_of ctx input) as [msg|] eqn:Em.
  2:{ eapply stored_inv_keep; [done|]. by destruct (sends_keeps _ _ Hsel) as (-> & _). }
  rewrite Hsel. unfold handle_message. destruct (negb _ && _) eqn:Hgate.
  { eapply stored_inv_keep; [done|]. apply (sends_keeps _ _ (send_frame_sends _ c)). }
  destruct (check (rate c) (instant env) msg) as [[reply|] r].
  { eapply stored_inv_keep; [done|].
    apply (sends_keeps _ _ (send_frame_sends _ (set_rate c r))). }
  assert (conn_inv ctx c0 acts (set_rate c r)) as HI' by by destruct HI.
  pose proof (dispatch_storage ctx env msg (set_rate c r)) as Hd.
  assert (∀ x : result unit DispatchError * Conn,
    (match x with (Err _, c0) => (Break, c0) | (Ok _, c0) => (Continue, c0) end).2 = x.2) as Hx
    by by intros [[|] ?].
  rewrite Hx. destruct Hd as [Hd|(e & -> & Hcl & Hd)]; [by eapply stored_inv_keep|].
  destruct HS as (d0 & saves & Hd0 & Hst & Hp). exists d0, (saves ++ [(save_clock env, e)]). split_and!.
  - destruct Hd0 as [?|?]; [by left|right; set_solver].
  - rewrite Hd. simpl. by rewrite Hst, foldl_app.
  - intros p [Hin|Hin]%elem_of_app; [eauto using published_app|].
    apply list_elem_of_singleton in Hin as ->. by eapply cleared_published.
Qed.

Lemma connect_storage ctx env d r c : connect (DB := DB) ctx env d r = Some c → storage c = d.
Proof.
  unfold connect. destruct (Nip42Mode.is_enabled (nip42_mode ctx)); [|by intros [= <-]].
  match goal with |- context [send ?m ?c0] => pose proof (send_sends m c0) as Hs end.
  destruct (send _ _) as [[[]|] c'] eqn:E; [|done]. intros [= <-]. apply (sends_keeps _ _ Hs).
Qed.

Lemma run_stored ctx env d r c acts :
  connect (DB := DB) ctx env d r = Some c →
  ∃ pre, pre `prefix_of` acts ∧ conn_inv ctx c pre (run ctx c acts) ∧ stored_inv ctx c d pre (run ctx c acts).
Proof.
  intros Hc. destruct (run_invariant ctx (λ pre c', conn_inv ctx c pre c' ∧ stored_inv ctx c d pre c') c acts)
    as (pre & Hp & _ & HI & HS); [|split|by exists pre].
  - intros pre a Ha [HI HS]. split; [apply act_inv; [by eapply alive_now|done]|by apply act_stored].
  - by eapply connect_inv.
  - exists d, []. split_and!; [by left|by eapply connect_storage|set_solver].
Qed.
(** ** On a socket that takes everything *)

Abbreviation refuse id prefix detail := (RelayMessage.Ok id false (MachineReadablePrefix.reason prefix detail)).

(** The result of refusing [e]: an [OK false] with a reason, after a challenge if
    one is due, and nothing else. *)
Definition refused (env : Env) (e : Event) (c : Conn) (r : result unit DispatchError * Conn) : Prop :=
  ∃ a fs prefix detail, challenged env (auth c) a ∧
    (fs = [] ∨ (fs = [OutText (RelayMessage.Auth (challenge a))] ∧ Nip70.is_protected e = true)) ∧
    r = (Ok tt, set_sent (set_auth c a)
                  (sent c ++ fs ++ [OutText (refuse (Event.id e) prefix detail)]) None).

Lemma refused_send env e (c : Conn) prefix detail :
  room c = None → refused env e c (send (refuse (Event.id e) prefix detail) c).
Proof.
  intros Hr. exists (auth c), [], prefix, detail. split_and!; [by left|by left|].
  rewrite send_open by done. by destruct c.
Qed.

Lemma handle_event_open ctx env e (c : Conn) :
  room c = None →
  (cleared ctx env c e ∧ handle_event ctx env e c = store_and_reply env e c) ∨
  (¬ cleared ctx env c e ∧ refused env e c (handle_event ctx env e c)).
Proof.
  intros Hr. assert (set_auth c (auth c) = c) as Hid by by destruct c.
  unfold handle_event. destruct (check_expired env e) as [m|] eqn:Eexp.
  { right. unfold check_expired in Eexp. destruct (clock env) as [now|] eqn:Ec; [|done].
    case_bool_decide as Hx; [|done]. injection Eexp as <-.
    split; [|by apply refused_send]. intros [Hf _ _ _]. by eapply Hf. }
  destruct (min_pow ctx ≫= check_pow e) as [m|] eqn:Epow.
  { right. destruct (min_pow ctx) as [d|] eqn:Ed; simpl in Epow; [|done]. unfold check_pow in Epow.
    destruct (Nip13.verify_pow e d) as [[]|err] eqn:Ev; [done|]. injection Epow as <-.
    split; [|by apply refused_send]. intros [_ Hw _ _]. specialize (Hw d Ed). congruence. }
  destruct (check_protected env e (auth c)) as [refusal a] eqn:Ep.
  pose proof (check_protected_challenged _ _ _ _ _ Ep) as Ha. destruct refusal as [[am m]|].
  - right. revert Ep. unfold check_protected.
    destruct (Nip70.is_protected e) eqn:Eprot; simpl; [|done]. case_bool_decide as Hpk; [done|].
    assert (¬ cleared ctx env c e) as Hn by (intros [_ _ Hp _]; auto).
    destruct (auth_pubkey (auth c)) as [pk|] eqn:Epk; intros [= <- <- <-].
    + split; [done|]. rewrite Hid. by apply refused_send.
    + split; [done|]. eexists _, [_], _, _. split_and!; [done|by right|].
      unfold mbind. rewrite send_open by done. rewrite send_open by done. simpl. by rewrite <-app_assoc.
  - apply check_protected_None in Ep as [-> Hprot]. rewrite Hid in *.
    destruct (admit_event env e) as [|p m] eqn:Eadm.
    + left. split; [|done]. split; [|intros d Hd|done|done].
      * intros now Hnow. unfold check_expired in Eexp. rewrite Hnow in Eexp. by case_bool_decide.
      * rewrite Hd in Epow. simpl in Epow. unfold check_pow in Epow.
        by destruct (Nip13.verify_pow e d) as [[]|].
    + right. split; [|by apply refused_send]. intros [_ _ _ Hpol]. congruence.
Qed.

Lemma store_and_reply_open env e (c : Conn) res d accepted reply :
  room c = None → store_save (save_clock env) (storage c) e = (res, d) →
  save_reply (Event.id e) res = (accepted, reply) →
  store_and_reply env e c =
    (Ok tt, set_broadcast (set_sent (set_storage c d) (sent c ++ [OutText reply]) None)
              (broadcast c ++ if accepted then [e] else [])).
Proof.
  intros Hr Es Ep. unfold store_and_reply. rewrite Es, Ep. unfold mbind. rewrite send_open by done.
  destruct accepted; [done|]. unfold mret. rewrite app_nil_r. done.
Qed.

(** What the database answers, one filter after the other. *)
Definition stored_events (d : DB) (fs : list Filter) : list Event :=
  fs ≫= λ f, match store_query d f with Ok l => l | Err _ => [] end.

Lemma stream_filters_open id fs (c : Conn) :
  room c = None → (∀ f, f ∈ fs → ∃ l, store_query (storage c) f = Ok l) →
  stream_filters id fs c =
    (Ok true, set_sent c (sent c ++ ((λ e, OutText (RelayMessage.Event id e)) <$>
                                     stored_events (storage c) fs)) None).
Proof.
  revert c. induction fs as [|f fs IH]; intros c Hr Hq; cbn [stream_filters].
  - unfold mret. simpl. rewrite app_nil_r. destruct c; simpl in *. by subst.
  - destruct (Hq f) as [l Hl]; [by left|]. rewrite Hl. unfold mbind. rewrite send_events_open by done.
    rewrite IH; [|done|intros g Hg; apply Hq; by right]. unfold stored_events at 2. simpl.
    rewrite Hl, fmap_app, app_assoc. done.
Qed.

Lemma handle_req_open ctx env id fs fs' (c : Conn) :
  room c = None → too_long ctx id = None → at_cap ctx (subscriptions c) id = None →
  send_random_events ctx = None → fs ≠ [] → admit_filters ctx env fs = Ok fs' →
  (∀ f, f ∈ fs' → ∃ l, store_query (storage c) f = Ok l) →
  handle_req ctx env id fs c =
    (Ok tt, set_subscriptions
       (set_sent c (sent c ++ ((λ e, OutText (RelayMessage.Event id e)) <$> stored_events (storage c) fs') ++
                    [OutText (RelayMessage.EndOfStoredEvents id)]) None)
       (<[id := fs']> (subscriptions c))).
Proof.
  intros Hr Hl Hc Hn Hne Ha Hq. unfold handle_req. rewrite Hl, Hc, Hn, Ha. destruct fs as [|f fs]; [done|].
  unfold mbind. rewrite stream_filters_open by done. simpl. unfold send, send_frame, modify. simpl.
  by rewrite app_assoc.
Qed.
End proofs.

(** ** The rate limiter *)

Section rate.
Local Open Scope N_scope.

(** The two meters: [true] counts EVENT, [false] REQ. *)
Definition metered (k : bool) (msg : ClientMessage) : bool :=
  match msg with ClientMessage.Event _ => k | ClientMessage.Req _ _ => negb k | _ => false end.
Definition used (k : bool) (r : RateLimiter) : N := if k then notes r else reqs r.
Definition cap (k : bool) (l : RateLimit) : option N :=
  if k then notes_per_minute l else reqs_per_minute l.

(** The instants at which a metered message is let through. *)
Fixpoint passed (k : bool) (r : RateLimiter) (l : list (N * ClientMessage)) : list N :=
  match l with
  | [] => []
  | (i, msg) :: l' =>
      let '(verdict, r') := check r i msg in
      match verdict with
      | None => if metered k msg then i :: passed k r' l' else passed k r' l'
      | Some _ => passed k r' l'
      end
  end.

Lemma roll_cases r i :
  (window_start r + ONE_MINUTE <= i ∧ roll r i = mkLimiter (limit r) i 0 0) ∨
  (i < window_start r + ONE_MINUTE ∧ roll r i = r).
Proof. unfold roll, ONE_MINUTE. destruct (N.leb_spec 60000 (i - window_start r)); [left|right]; split; (done || lia). Qed.

(** After the roll, a metered message uses one unit of the budget or is refused;
    nothing else moves the meter. *)
Lemma check_cases k r i msg max :
  cap k (limit r) = Some max →
  let r0 := roll r i in
  let '(verdict, r') := check r i msg in
  limit r' = limit r ∧ window_start r' = window_start r0 ∧
  (if metered k msg then
     (verdict = None ∧ used k r0 < max ∧ used k r' = used k r0 + 1) ∨
     (is_Some verdict ∧ max <= used k r0 ∧ used k r' = used k r0)
   else used k r' = used k r0).
Proof.
  intros Hc. cbv zeta. unfold check.
  assert (limit (roll r i) = limit r) as Hl by (by destruct (roll_cases r i) as [[_ ->]|[_ ->]]).
  destruct msg as [e|id fs| | | | | |]; simpl; rewrite ?Hl; try done.
  - destruct k; simpl in *; [rewrite Hc|destruct (notes_per_minute (limit r)) as [m|]];
      try (destruct (N.leb_spec max (notes (roll r i))));
      try (destruct (N.leb_spec m (notes (roll r i)))); split_and!; try done; eauto.
  - destruct k; simpl in *; [destruct (reqs_per_minute (limit r)) as [m|]|rewrite Hc];
      try (destruct (N.leb_spec max (reqs (roll r i))));
      try (destruct (N.leb_spec m (reqs (roll r i)))); split_and!; try done; eauto.
Qed.

(** How many of [l] fall in the minute that starts at [t]. *)
Definition in_minute (t : N) (l : list N) : nat := length (filter (λ i, t <= i ∧ i < t + ONE_MINUTE) l).

(** The messages come in the order of the clock. *)
Definition ordered (l : list (N * ClientMessage)) : Prop := StronglySorted N.le l.*1.

Lemma ordered_cons i msg l :
  ordered ((i, msg) :: l) ↔ ordered l ∧ ∀ p, p ∈ l → i <= p.1.
Proof.
  unfold ordered. rewrite fmap_cons. simpl. split.
  - intros [? HF]%StronglySorted_inv. split; [done|]. intros p Hp. rewrite Forall_forall in HF.
    apply HF. by apply list_elem_of_fmap_2.
  - intros [? HF]. constructor; [done|]. apply Forall_forall. intros x (p & -> & Hp)%list_elem_of_fmap.
    by apply HF.
Qed.

Lemma in_minute_cons t i l :
  N.of_nat (in_minute t (i :: l)) =
    (if decide (t <= i ∧ i < t + ONE_MINUTE) then 1 else 0) + N.of_nat (in_minute t l).
Proof. unfold in_minute. rewrite filter_cons. case_decide; simpl; lia. Qed.

Lemma passed_sub k r l i : i ∈ passed k r l → ∃ p, p ∈ l ∧ p.1 = i.
Proof.
  revert r. induction l as [|[j msg] l IH]; intros r; simpl; [set_solver|].
  assert (∀ r', i ∈ passed k r' l → ∃ p, p ∈ (j, msg) :: l ∧ p.1 = i) as Hl.
  { intros r' (p & ? & ?)%IH. exists p. split; [by right|done]. }
  destruct (check r j msg) as [[v|] r']; [apply Hl|]. destruct (metered k msg); [|apply Hl].
  intros [->|?]%elem_of_cons; [|by eapply Hl]. exists (j, msg). split; [by left|done].
Qed.

Lemma in_minute_late t k r l :
  (∀ p, p ∈ l → t + ONE_MINUTE <= p.1) → in_minute t (passed k r l) = 0%nat.
Proof.
  intros Hl. unfold in_minute. apply length_zero_iff_nil, elem_of_nil_inv.
  intros i [? (p & Hp & <-)%passed_sub]%list_elem_of_filter. specialize (Hl p Hp). lia.
Qed.

(** One message: what it adds to the minute, it takes from the budget of the
    window that it falls in. *)
Lemma passed_step t k r i msg l max :
  cap k (limit r) = Some max → used k (roll r i) <= max →
  ∃ r', limit r' = limit r ∧ window_start r' = window_start (roll r i) ∧ used k r' <= max ∧
    N.of_nat (in_minute t (passed k r ((i, msg) :: l))) + used k (roll r i) <=
    N.of_nat (in_minute t (passed k r' l)) + used k r'.
Proof.
  intros Hc Hu. pose proof (check_cases k r i msg max Hc) as Hcases. cbv zeta in Hcases.
  cbn [passed]. destruct (check r i msg) as [verdict r']. destruct Hcases as (Hl & Hw & Hm).
  exists r'. destruct (metered k msg).
  - destruct Hm as [(-> & ? & ?)|([v ->] & ? & ?)].
    + rewrite in_minute_cons. split_and!; [done|done|lia|]. case_decide; lia.
    + split_and!; [done|done|lia|lia].
  - destruct verdict; (split_and!; [done|done|lia|lia]).
Qed.

(** A minute that starts before the current window does lets through at most
    what the window has left. *)
Lemma window_budget t k r l max :
  cap k (limit r) = Some max → used k r <= max → t <= window_start r → ordered l →
  N.of_nat (in_minute t (passed k r l)) + used k r <= max.
Proof.
  revert r. induction l as [|[i msg] l IH]; intros r Hc Hu Ht Ho; [change (N.of_nat (in_minute t (passed k r []))) with 0; lia|].
  destruct (decide (t + ONE_MINUTE <= i)) as [Hlate|Hearly].
  { rewrite in_minute_late; [lia|]. intros p [->|Hp]%elem_of_cons; [done|].
    apply ordered_cons in Ho as [_ Ho]. specialize (Ho p Hp). lia. }
  apply ordered_cons in Ho as [Ho _].
  destruct (roll_cases r i) as [[? _]|[_ Er]]; [lia|].
  destruct (passed_step t k r i msg l max) as (r' & El & Ew & Hu' & Hle); [done|by rewrite Er|].
  rewrite Er in *. specialize (IH r'). rewrite El, Ew in IH. specialize (IH Hc Hu' Ht Ho). lia.
Qed.

(** A minute touches at most two windows. *)
Lemma two_windows t k r l max :
  cap k (limit r) = Some max → used k r <= max → ordered l → (∀ p, p ∈ l → t <= p.1) →
  N.of_nat (in_minute t (passed k r l)) + used k r <= 2 * max.
Proof.
  revert r. induction l as [|[i msg] l IH]; intros r Hc Hu Ho Ht; [change (N.of_nat (in_minute t (passed k r []))) with 0; lia|].
  apply ordered_cons in Ho as [Ho _]. assert (t <= i) as Hi by by apply (Ht (i, msg)); left.
  destruct (passed_step t k r i msg l max) as (r' & El & Ew & Hu' & Hle); [done|..].
  { destruct (roll_cases r i) as [[_ ->]|[_ ->]]; [by destruct k; simpl; lia|done]. }
  destruct (roll_cases r i) as [[_ Er]|[_ Er]]; rewrite Er in *.
  - pose proof (window_budget t k r' l max) as Hb. rewrite El, Ew in Hb. specialize (Hb Hc Hu' Hi Ho).
    lia.
  - specialize (IH r'). rewrite El in IH. specialize (IH Hc Hu' Ho).
    assert (∀ p, p ∈ l → t <= p.1) as Ht' by (intros p Hp; by apply Ht; right). specialize (IH Ht'). lia.
Qed.

Lemma rate_limited t k r l max :
  cap k (limit r) = Some max → used k r <= max → ordered l →
  N.of_nat (in_minute t (passed k r l)) <= 2 * max.
Proof.
  revert r. induction l as [|[i msg] l IH]; intros r Hc Hu Ho; [change (N.of_nat (in_minute t (passed k r []))) with 0; lia|].
  destruct (decide (t <= i)) as [Hi|Hi].
  { pose proof (two_windows t k r ((i, msg) :: l) max Hc Hu Ho) as Hb.
    apply ordered_cons in Ho as [_ Ho]. enough (∀ p, p ∈ (i, msg) :: l → t <= p.1) by (specialize (Hb H); lia).
    intros p [->|Hp]%elem_of_cons; [done|]. specialize (Ho p Hp). lia. }
  apply ordered_cons in Ho as [Ho _].
  pose proof (check_cases k r i msg max Hc) as Hcases. cbv zeta in Hcases.
  assert (used k (roll r i) <= max) as Hr.
  { destruct (roll_cases r i) as [[_ ->]|[_ ->]]; [by destruct k; simpl; lia|done]. }
  cbn [passed]. destruct (check r i msg) as [verdict r']. destruct Hcases as (El & _ & Hm).
  specialize (IH r'). rewrite El in IH. specialize (IH Hc).
  assert (used k r' <= max) as Hu' by (destruct (metered k msg); [destruct Hm as [(? & ? & ->)|(? & ? & ->)]|]; lia).
  specialize (IH Hu' Ho). destruct verdict; [done|]. destruct (metered k msg); [|done].
  rewrite in_minute_cons, decide_False by lia. lia.
Qed.
End rate.

(** ** Answers over a database that keeps its contract *)

Section answers.
Context {DB : Type} `{DatabaseContract DB}.
Context `{SerdeJson, SigSerde, EventCrypto, UrlCrate, NegentropyCrate}.

(** The outcomes the relay reports as accepted. *)
Definition accepted_outcome (s : SaveEventStatus) : Prop := s = Success ∨ s = Rejected Ephemeral.

Lemma save_reply_spec id s :
  ∃ ok msg, save_reply id (Ok s) = (ok, RelayMessage.Ok id ok msg) ∧
    (ok = true ↔ accepted_outcome s) ∧
    (ok = false → is_Some (MachineReadablePrefix.from_reason msg)).
Proof.
  unfold accepted_outcome. destruct s as [|[]]; simpl; eexists _, _;
    (split_and!; [reflexivity|naive_solver|]); try done;
    intros _; rewrite MachineReadablePrefix.from_reason_reason; eauto.
Qed.

(** What an EVENT comes to, whatever the gates and the storage decide. *)
Lemma handle_event_answer ctx env (c : Conn DB) e o st now :
  room c = None → save_clock env = Ok now → store_repr o (storage c) st → storable e →
  ∃ fs ok msg c',
    handle_event ctx env e c = (Ok tt, c') ∧
    sent c' = sent c ++ fs ++ [OutText (RelayMessage.Ok (Event.id e) ok msg)] ∧
    (fs = [] ∨ ∃ ch, fs = [OutText (RelayMessage.Auth ch)]) ∧
    (ok = true ↔ cleared ctx env c e ∧ accepted_outcome (Spec.save o st e now).1) ∧
    (ok = false → is_Some (MachineReadablePrefix.from_reason msg)) ∧
    broadcast c' = broadcast c ++ (if ok then [e] else []) ∧
    (cleared ctx env c e → store_repr o (storage c') (Spec.save o st e now).2) ∧
    (¬ cleared ctx env c e → storage c' = storage c).
Proof.
  intros Hr Hnow Hst He. destruct (handle_event_open ctx env e c Hr) as [[Hcl Eh]|[Hncl Hf]].
  - destruct (store_save_ok o (storage c) st e now Hst He) as (d' & Es & Hst'). rewrite <-Hnow in Es.
    destruct (save_reply_spec (Event.id e) (Spec.save o st e now).1) as (ok & msg & Er & Hok & Hmsg).
    eexists [], ok, msg, _. split; [rewrite Eh; by eapply store_and_reply_open|].
    split_and!; [done|by left|naive_solver|done|done|done|done].
  - destruct Hf as (a & fs & prefix & detail & _ & Hfs & ->). eexists fs, false, _, _. split; [done|].
    split_and!; [done|destruct Hfs as [?|[? _]]; eauto|naive_solver| |by rewrite app_nil_r|done|done].
    intros _. rewrite MachineReadablePrefix.from_reason_reason. eauto.
Qed.
End answers.
