(* ===== verification/HttpAuth.v ===== *)
(** * HTTP authorization (NIP-98)

    [crates/nula-core/src/nips/nip98.rs] and the generic URL of
    [src/types/url.rs]: the signed event an HTTP request carries in its
    [Authorization] header, and the checks a server makes on it. *)

From Stdlib Require Import Ascii NArith Lia.
From S2P Require Import Prelude Encoding Text Ids Tags Event FilterWire Nips Message.

(** ** URLs *)

(** The [url] crate's [cannot_be_a_base]. *)
Class UrlBase `{UrlCrate} := { cannot_be_a_base : url → bool }.

Module Url.

Inductive Error :=
| Parse (e : string)
| Relative (input : string).

Section url.
Context `{UrlBase}.

Record t := mk { inner : url }.

#[global] Instance t_eq_dec : EqDecision t.
Proof. solve_decision. Defined.

Definition parse (input : string) : result t Error :=
  let? inner := map_err Parse (url_parse input) in
  if cannot_be_a_base inner then Err (Relative input) else Ok (mk inner).
Definition as_str (u : t) : string := url_as_str (inner u).
Definition scheme (u : t) : string := url_scheme (inner u).

(** [Display for UrlError]. *)
Definition error_string (e : Error) : string :=
  match e with
  | Parse e => "invalid URL: " +:+ e
  | Relative s => "URL must be absolute: " +:+ s
  end.
End url.
Arguments t : clear implicits.
Arguments t {_}.

End Url.
Abbreviation Url := Url.t.

(** ** NIP-98 *)

(** The [base64] crate's standard engine; [serde_json]'s parser, and how it words
    its errors. *)
Class Base64 := {
  base64_encode : list byte → string;
  base64_decode : string → result (list byte) string;
}.
Class JsonText := {
  json_from_slice : list byte → result Json string;
  de_error_text : DeError → string;
}.

Module Nip98.
Local Open Scope N_scope.

Definition KIND_HTTP_AUTH : Kind := 27235.
Definition URL_TAG : string := "u".
Definition METHOD_TAG : string := "method".
Definition PAYLOAD_TAG : string := "payload".
Definition DEFAULT_TIMESTAMP_SKEW_SECS : N := 60.
Definition AUTH_SCHEME_PREFIX : string := "Nostr ".

Inductive HttpMethod :=
| Get | Post | Put | Patch | Delete | Head | Options | Connect | Trace
| Other (verb : string).

#[global] Instance HttpMethod_eq_dec : EqDecision HttpMethod.
Proof. solve_decision. Defined.

Definition method_as_str (m : HttpMethod) : string :=
  match m with
  | Get => "GET" | Post => "POST" | Put => "PUT" | Patch => "PATCH" | Delete => "DELETE"
  | Head => "HEAD" | Options => "OPTIONS" | Connect => "CONNECT" | Trace => "TRACE"
  | Other s => s
  end.

Definition method_parse (s : string) : HttpMethod :=
  let upper := Text.to_ascii_uppercase (Text.trim s) in
  if decide (upper = "GET") then Get
  else if decide (upper = "POST") then Post
  else if decide (upper = "PUT") then Put
  else if decide (upper = "PATCH") then Patch
  else if decide (upper = "DELETE") then Delete
  else if decide (upper = "HEAD") then Head
  else if decide (upper = "OPTIONS") then Options
  else if decide (upper = "CONNECT") then Connect
  else if decide (upper = "TRACE") then Trace
  else Other upper.

Inductive HttpAuthError :=
| WrongKind (k : Kind)
| MissingUrl
| MissingMethod
| InvalidUrl (e : Url.Error)
| InvalidPayloadHashLength (n : nat)
| InvalidPayloadHash (e : Hex.HexError)
| HeaderWrongScheme
| HeaderInvalidBase64 (e : string)
| HeaderInvalidUtf8 (e : string)
| HeaderInvalidEvent (e : Event.Error)
| HeaderInvalidJson (e : string)
| ValidationTimestampSkew (delta allowed : N)
| ValidationUrlMismatch (expected got : string)
| ValidationMethodMismatch (expected got : string)
| ValidationPayloadMismatch.

(** [Display for HttpAuthError]; [hex] and [event] are those of the wrapped
    errors. *)
Definition error_string (hex : Hex.HexError → string) (event : Event.Error → string) (e : HttpAuthError) : string :=
  match e with
  | WrongKind k => "expected kind 27235 (HTTP auth), got kind " +:+ Dec.to_string k
  | MissingUrl => "NIP-98 event must carry a `u` tag"
  | MissingMethod => "NIP-98 event must carry a `method` tag"
  | InvalidUrl e => "invalid URL: " +:+ Url.error_string e
  | InvalidPayloadHashLength n =>
      "`payload` hash must be 64 hex chars, got " +:+ Dec.to_string (N.of_nat n)
  | InvalidPayloadHash e => "invalid `payload` hash: " +:+ hex e
  | HeaderWrongScheme => "`Authorization` header must use the `Nostr` scheme"
  | HeaderInvalidBase64 e => "`Authorization` body is not valid base64: " +:+ e
  | HeaderInvalidUtf8 e => "`Authorization` body is not UTF-8: " +:+ e
  | HeaderInvalidEvent e => "`Authorization` body is not a valid Nostr event: " +:+ event e
  | HeaderInvalidJson e => "`Authorization` body is not valid JSON: " +:+ e
  | ValidationTimestampSkew delta allowed =>
      "`created_at` is " +:+ Dec.to_string delta +:+ "s away from `now`; max allowed is " +:+
      Dec.to_string allowed +:+ "s"
  | ValidationUrlMismatch expected got =>
      "`u` mismatch: expected `" +:+ expected +:+ "`, got `" +:+ got +:+ "`"
  | ValidationMethodMismatch expected got =>
      "`method` mismatch: expected `" +:+ expected +:+ "`, got `" +:+ got +:+ "`"
  | ValidationPayloadMismatch => "`payload` SHA-256 does not match the request body"
  end.

Section nip98.
Context `{FasterHex, EventCrypto, UrlBase}.

Record HttpAuthRequest := mkRequest {
  req_url : Url;
  req_method : HttpMethod;
  payload_hash : option bytes32;
}.

Definition request_new (u : Url) (m : HttpMethod) : HttpAuthRequest := mkRequest u m None.
Definition with_payload_hash (r : HttpAuthRequest) (h : bytes32) : HttpAuthRequest :=
  mkRequest (req_url r) (req_method r) (Some h).
Definition payload (r : HttpAuthRequest) (body : list byte) : HttpAuthRequest :=
  with_payload_hash r (sha256 body).

Definition custom_tag (name : string) (args : list string) : Tag :=
  Tag.with_ (TagKind.from_wire name) args.
Definition custom_value (tags : list Tag) (name : string) : option string :=
  list_find (λ t, Tag.name t = name) tags ≫= λ p, Tag.get p.2 1.

Definition to_tags (r : HttpAuthRequest) : list Tag :=
  [custom_tag URL_TAG [Url.as_str (req_url r)];
   custom_tag METHOD_TAG [method_as_str (req_method r)]] ++
  match payload_hash r with
  | Some h => [custom_tag PAYLOAD_TAG [Hex.encode (b32_list h)]]
  | None => []
  end.

Definition parse_sha256_hex (input : string) : result bytes32 HttpAuthError :=
  if negb (length (as_bytes input) =? 64)%nat
  then Err (InvalidPayloadHashLength (length (as_bytes input)))
  else
    let? bytes := map_err InvalidPayloadHash (Hex.decode_to_slice (as_bytes input) 32) in
    match try_into32 bytes with
    | Some h => Ok h
    | None => Err (InvalidPayloadHash Hex.Overflow)
    end.

Definition from_tags (tags : list Tag) : result HttpAuthRequest HttpAuthError :=
  let? url_str := ok_or (custom_value tags URL_TAG) MissingUrl in
  let? u := map_err InvalidUrl (Url.parse url_str) in
  let? method_str := ok_or (custom_value tags METHOD_TAG) MissingMethod in
  let? h := match custom_value tags PAYLOAD_TAG with
            | Some hex_str => let? h := parse_sha256_hex hex_str in Ok (Some h)
            | None => Ok None
            end in
  Ok (mkRequest u (method_parse method_str) h).

Definition from_event (e : Event) : result HttpAuthRequest HttpAuthError :=
  if negb (Event.kind e =? KIND_HTTP_AUTH) then Err (WrongKind (Event.kind e))
  else from_tags (Event.tags e).

(** [u64::abs_diff]. *)
Definition abs_diff (a b : N) : N := (a - b) + (b - a).

Definition validate (r : HttpAuthRequest) (signed_at now skew : N) (request_url : Url)
    (request_method : HttpMethod) (body : option (list byte)) : result unit HttpAuthError :=
  let delta := abs_diff signed_at now in
  if skew <? delta then Err (ValidationTimestampSkew delta skew)
  else if negb (bool_decide (req_url r = request_url))
  then Err (ValidationUrlMismatch (Url.as_str request_url) (Url.as_str (req_url r)))
  else if negb (bool_decide (req_method r = request_method))
  then Err (ValidationMethodMismatch (method_as_str request_method) (method_as_str (req_method r)))
  else
    match body, payload_hash r with
    | Some bytes, Some h => if bool_decide (sha256 bytes = h) then Ok tt else Err ValidationPayloadMismatch
    | _, _ => Ok tt
    end.

Definition http_auth (r : HttpAuthRequest) : EventBuilder :=
  foldl EventBuilder.add_tag (EventBuilder.new KIND_HTTP_AUTH EmptyString) (to_tags r).
End nip98.

Section header.
Context `{FasterHex, Secp256k1, EventCrypto, SerdeJson, SigSerde, Base64, JsonText}.

(** [JsonUtil::try_to_json] does not fail on a value. *)
Definition authorization_header (e : Event) : string :=
  AUTH_SCHEME_PREFIX +:+ base64_encode (json_to_vec (EventJson.serialize e)).

Definition parse_authorization_header (header : string) : result Event HttpAuthError :=
  let? body := ok_or (Text.strip_prefix AUTH_SCHEME_PREFIX header) HeaderWrongScheme in
  let? bytes := map_err HeaderInvalidBase64 (base64_decode (Text.trim body)) in
  let? json := map_err (λ e, HeaderInvalidUtf8 (Utf8.error_string e)) (Utf8.from_utf8 bytes) in
  let? v := map_err HeaderInvalidJson (json_from_slice (as_bytes json)) in
  map_err (λ e, HeaderInvalidJson (de_error_text e)) (EventJson.deserialize v).
End header.

Section laws.
Context `{FasterHex, EventCrypto, UrlBase}.

(** What the server knows once a bundle is validated. *)
Record attests (r : HttpAuthRequest) (signed_at now skew : N) (u : Url) (m : HttpMethod)
    (body : list byte) : Prop := {
  attests_fresh : now <= signed_at + skew ∧ signed_at <= now + skew;
  attests_url : req_url r = u;
  attests_method : req_method r = m;
  attests_payload : ∀ h, payload_hash r = Some h → sha256 body = h;
}.

Lemma validate_attests r signed_at now skew u m body :
  validate r signed_at now skew u m (Some body) = Ok tt ↔ attests r signed_at now skew u m body.
Proof.
  unfold validate, abs_diff. split.
  - destruct (N.ltb_spec skew (signed_at - now + (now - signed_at))); [done|].
    case_bool_decide; simpl; [|done]. case_bool_decide; simpl; [|done].
    intros Hp. split; [lia|done|done|]. intros h Hh. rewrite Hh in Hp. by case_bool_decide.
  - intros [Hf -> -> Hp]. rewrite (proj2 (N.ltb_ge _ _)) by lia.
    rewrite !bool_decide_true by done. simpl. destruct (payload_hash r) as [h|]; [|done].
    by rewrite bool_decide_true by auto.
Qed.
End laws.

End Nip98.
