(* ===== verification/Management.v ===== *)
(** * Relay management (NIP-86)

    [crates/nula-core/src/nips/nip86.rs], [crates/nula-relay/src/server/management.rs]
    and the authorization of [src/server/relay.rs]: the moderation state, the
    requests that change it, the write policy it makes, and the HTTP endpoint
    that guards it. *)

From Stdlib Require Import Ascii NArith Lia.
From S2P Require Import Prelude Encoding Text Ids Tags Event Filter FilterWire Storage Database.
From S2P Require Import IpAddr Nips Message Sync Server HttpAuth.

(** ** NIP-86 *)

Module Nip86.

Definition CONTENT_TYPE : string := "application/nostr+json+rpc".

Record Request := mkRequest { method : string; params : list Json }.
Record Response := mkResponse { res : option Json; error : option string }.

Definition is_error (r : Response) : bool := bool_decide (is_Some (error r)).
Definition resp_ok (v : Json) : Response := mkResponse (Some v) None.
Definition resp_err (message : string) : Response := mkResponse None (Some message).

Inductive Method :=
| SupportedMethods | BanPubkey | UnbanPubkey | ListBannedPubkeys | AllowPubkey | UnallowPubkey
| ListAllowedPubkeys | ListEventsNeedingModeration | AllowEvent | BanEvent | ListBannedEvents
| ChangeRelayName | ChangeRelayDescription | ChangeRelayIcon | AllowKind | DisallowKind
| ListAllowedKinds | BlockIp | UnblockIp | ListBlockedIps
| Custom (token : string).

#[global] Instance Method_eq_dec : EqDecision Method.
Proof. solve_decision. Defined.

Definition method_as_str (m : Method) : string :=
  match m with
  | SupportedMethods => "supportedmethods"
  | BanPubkey => "banpubkey"
  | UnbanPubkey => "unbanpubkey"
  | ListBannedPubkeys => "listbannedpubkeys"
  | AllowPubkey => "allowpubkey"
  | UnallowPubkey => "unallowpubkey"
  | ListAllowedPubkeys => "listallowedpubkeys"
  | ListEventsNeedingModeration => "listeventsneedingmoderation"
  | AllowEvent => "allowevent"
  | BanEvent => "banevent"
  | ListBannedEvents => "listbannedevents"
  | ChangeRelayName => "changerelayname"
  | ChangeRelayDescription => "changerelaydescription"
  | ChangeRelayIcon => "changerelayicon"
  | AllowKind => "allowkind"
  | DisallowKind => "disallowkind"
  | ListAllowedKinds => "listallowedkinds"
  | BlockIp => "blockip"
  | UnblockIp => "unblockip"
  | ListBlockedIps => "listblockedips"
  | Custom s => s
  end.

(** The tokens of the specification. *)
Definition spec_methods : list Method :=
  [SupportedMethods; BanPubkey; UnbanPubkey; ListBannedPubkeys; AllowPubkey; UnallowPubkey;
   ListAllowedPubkeys; ListEventsNeedingModeration; AllowEvent; BanEvent; ListBannedEvents;
   ChangeRelayName; ChangeRelayDescription; ChangeRelayIcon; AllowKind; DisallowKind;
   ListAllowedKinds; BlockIp; UnblockIp; ListBlockedIps].

(** The [match] on the token: the first method that is written like it. *)
Definition method_parse (token : string) : Method :=
  match list_find (λ m, method_as_str m = token) spec_methods with
  | Some (_, m) => m
  | None => Custom token
  end.

(** *** Requests *)

Definition with_reason (v : Json) (reason : option string) : list Json :=
  v :: match reason with Some r => [JStr r] | None => [] end.

Definition pubkey_request `{FasterHex} (m : Method) (pk : PublicKey) (reason : option string) : Request :=
  mkRequest (method_as_str m) (with_reason (JStr (PublicKey.to_hex pk)) reason).
Definition event_request (m : Method) (id_hex : string) (reason : option string) : Request :=
  mkRequest (method_as_str m) (with_reason (JStr id_hex) reason).
Definition kind_request (m : Method) (k : Kind) : Request := mkRequest (method_as_str m) [JNum k].
Definition ip_request (m : Method) (ip : string) (reason : option string) : Request :=
  mkRequest (method_as_str m) (with_reason (JStr ip) reason).
Definition string_request (m : Method) (value : string) : Request :=
  mkRequest (method_as_str m) [JStr value].
Definition url_request `{UrlBase} (m : Method) (u : Url) : Request := string_request m (Url.as_str u).
Definition empty_request (m : Method) : Request := mkRequest (method_as_str m) [].

(** [derive(Deserialize)]; [params] has a default. *)
Section de.
Context `{SerdeJson}.

Fixpoint visit_fields (m : option string) (ps : option (list Json)) (entries : list (string * Json)) :
    result (option string * option (list Json)) DeError :=
  match entries with
  | [] => Ok (m, ps)
  | (key, v) :: entries' =>
      if decide (key = "method") then
        let? m := EventJson.fill key m (de_str v) in visit_fields m ps entries'
      else if decide (key = "params") then
        let? ps := EventJson.fill key ps (de_seq v) in visit_fields m ps entries'
      else visit_fields m ps entries'
  end.

Definition de_request (v : Json) : result Request DeError :=
  match de_map v with
  | Some entries =>
      let? '(m, ps) := visit_fields None None entries in
      let? m := ok_or m (MissingField "method") in Ok (mkRequest m (default [] ps))
  | None =>
      match de_seq v with
      | Some [vm] => let? m := ok_or (de_str vm) (BadField "method") in Ok (mkRequest m [])
      | Some [vm; vp] =>
          let? m := ok_or (de_str vm) (BadField "method") in
          let? ps := ok_or (de_seq vp) (BadField "params") in Ok (mkRequest m ps)
      | _ => Err NotAnObject
      end
  end.
End de.

(** [derive(Serialize)] with [skip_serializing_if]. *)
Definition response_json (r : Response) : Json :=
  JObj (match res r with Some v => [("result", v)] | None => [] end ++
        match error r with Some e => [("error", JStr e)] | None => [] end).

Lemma method_parse_as_str m : m ∈ spec_methods → method_parse (method_as_str m) = m.
Proof. intros Hm. repeat (apply elem_of_cons in Hm as [->|Hm]; [reflexivity|]). set_solver. Qed.

End Nip86.

(** ** The moderation state ([management.rs]) *)

(** [Value::as_str] and [Value::as_u64]. *)
Definition value_as_str (v : Json) : option string := match v with JStr s => Some s | _ => None end.
Definition value_as_u64 (v : Json) : option N :=
  match v with JNum n => if (n <=? Dec.u64_max)%N then Some n else None | _ => None end.

Module Management.
Section management.
Context `{FasterHex, Secp256k1, UrlBase}.

Record Inner := mkInner {
  banned_pubkeys : gmap PublicKey (option string);
  allowed_pubkeys : gmap PublicKey (option string);
  allowed_kinds : option (gset N);
  blocked_ips : gmap IpAddr (option string);
  name : option string;
  description : option string;
  icon : option Url;
}.

Record State := mkState { admins : gset PublicKey; inner : Inner }.

Definition new (admins : list PublicKey) : State :=
  mkState (list_to_set admins) (mkInner ∅ ∅ None ∅ None None None).

Definition set_pubkeys (s : State) b a : State :=
  let i := inner s in
  mkState (admins s) (mkInner b a (allowed_kinds i) (blocked_ips i) (name i) (description i) (icon i)).
Definition set_kinds (s : State) k : State :=
  let i := inner s in
  mkState (admins s)
    (mkInner (banned_pubkeys i) (allowed_pubkeys i) k (blocked_ips i) (name i) (description i) (icon i)).
Definition set_ips (s : State) m : State :=
  let i := inner s in
  mkState (admins s)
    (mkInner (banned_pubkeys i) (allowed_pubkeys i) (allowed_kinds i) m (name i) (description i) (icon i)).
Definition set_metadata (s : State) n d u : State :=
  let i := inner s in
  mkState (admins s)
    (mkInner (banned_pubkeys i) (allowed_pubkeys i) (allowed_kinds i) (blocked_ips i) n d u).

Definition is_admin (s : State) (pk : PublicKey) : bool := bool_decide (pk ∈ admins s).
Definition is_pubkey_banned (s : State) (pk : PublicKey) : bool :=
  bool_decide (is_Some (banned_pubkeys (inner s) !! pk)).
Definition is_ip_blocked (s : State) (ip : IpAddr) : bool :=
  bool_decide (is_Some (blocked_ips (inner s) !! ip)).
Definition allowed_list (s : State) : list PublicKey := (map_to_list (allowed_pubkeys (inner s))).*1.
Definition relay_name (s : State) : option string := name (inner s).

(** The decision on an inbound event of a client at [ip]. *)
Definition evaluate (s : State) (event : Event) (ip : IpAddr) : AdmitVerdict :=
  let i := inner s in
  if bool_decide (is_Some (blocked_ips i !! ip))
  then Reject MachineReadablePrefix.Blocked "client ip is blocked"
  else if bool_decide (is_Some (banned_pubkeys i !! Event.pubkey event))
  then Reject MachineReadablePrefix.Blocked "author is banned"
  else if negb (bool_decide (allowed_pubkeys i = ∅)) &&
          negb (bool_decide (is_Some (allowed_pubkeys i !! Event.pubkey event)))
  then Reject MachineReadablePrefix.Blocked "author is not on this relay's allowlist"
  else if match allowed_kinds i with
          | Some kinds => negb (bool_decide (Event.kind event ∈ kinds))
          | None => false
          end
  then Reject MachineReadablePrefix.Blocked "event kind is not allowed on this relay"
  else Accept.

(** *** Parameters *)

Definition param_str (params : list Json) (index : nat) : option string :=
  params !! index ≫= value_as_str.
Definition param_pubkey (params : list Json) : option PublicKey :=
  param_str params 0 ≫= λ s, result_ok (PublicKey.parse s).
Definition param_kind (params : list Json) : option Kind :=
  (params !! 0%nat ≫= value_as_u64) ≫= λ n, if (n <=? Dec.u16_max)%N then Some n else None.
Definition param_ip (params : list Json) : option IpAddr := param_str params 0 ≫= IpAddr.parse.

(** *** Requests *)

Inductive Listing := Banned | Allowed.

Definition done_true : Nip86.Response := Nip86.resp_ok (JBool true).

Definition set_pubkey (s : State) (params : list Json) (listing : Listing) : Nip86.Response * State :=
  match param_pubkey params with
  | None => (Nip86.resp_err "expected a hex pubkey as the first parameter", s)
  | Some pk =>
      let reason := param_str params 1 in
      let i := inner s in
      (done_true,
       match listing with
       | Banned => set_pubkeys s (<[pk := reason]> (banned_pubkeys i)) (delete pk (allowed_pubkeys i))
       | Allowed => set_pubkeys s (delete pk (banned_pubkeys i)) (<[pk := reason]> (allowed_pubkeys i))
       end)
  end.

Definition remove_pubkey (s : State) (params : list Json) (listing : Listing) : Nip86.Response * State :=
  match param_pubkey params with
  | None => (Nip86.resp_err "expected a hex pubkey as the first parameter", s)
  | Some pk =>
      let i := inner s in
      (done_true,
       match listing with
       | Banned => set_pubkeys s (delete pk (banned_pubkeys i)) (allowed_pubkeys i)
       | Allowed => set_pubkeys s (banned_pubkeys i) (delete pk (allowed_pubkeys i))
       end)
  end.

(** A row of a listing. *)
Definition entry_json (key value : string) (reason : option string) : Json :=
  JObj ((key, JStr value) :: match reason with Some r => [("reason", JStr r)] | None => [] end).

Definition list_pubkeys (s : State) (listing : Listing) : Nip86.Response :=
  let m := match listing with Banned => banned_pubkeys (inner s) | Allowed => allowed_pubkeys (inner s) end in
  Nip86.resp_ok (JArr ((λ p, entry_json "pubkey" (PublicKey.to_hex p.1) p.2) <$> map_to_list m)).

Definition set_kind (s : State) (params : list Json) (allow : bool) : Nip86.Response * State :=
  match param_kind params with
  | None => (Nip86.resp_err "expected a kind integer as the first parameter", s)
  | Some k =>
      (done_true,
       if allow then set_kinds s (Some ({[k]} ∪ default ∅ (allowed_kinds (inner s))))
       else match allowed_kinds (inner s) with
            | Some kinds => set_kinds s (Some (kinds ∖ {[k]}))
            | None => s
            end)
  end.

Definition list_kinds (s : State) : Nip86.Response :=
  Nip86.resp_ok (JArr (JNum <$> elements (default ∅ (allowed_kinds (inner s))))).

Definition block_ip (s : State) (params : list Json) : Nip86.Response * State :=
  match param_ip params with
  | None => (Nip86.resp_err "expected an ip address as the first parameter", s)
  | Some ip => (done_true, set_ips s (<[ip := param_str params 1]> (blocked_ips (inner s))))
  end.

Definition unblock_ip (s : State) (params : list Json) : Nip86.Response * State :=
  match param_ip params with
  | None => (Nip86.resp_err "expected an ip address as the first parameter", s)
  | Some ip => (done_true, set_ips s (delete ip (blocked_ips (inner s))))
  end.

Definition list_blocked_ips (s : State) : Nip86.Response :=
  Nip86.resp_ok (JArr ((λ p, entry_json "ip" (IpAddr.to_string p.1) p.2) <$>
                       map_to_list (blocked_ips (inner s)))).

Definition change_name (s : State) (params : list Json) : Nip86.Response * State :=
  match param_str params 0 with
  | None => (Nip86.resp_err "expected a name string as the first parameter", s)
  | Some n => (done_true, set_metadata s (Some n) (description (inner s)) (icon (inner s)))
  end.

Definition change_description (s : State) (params : list Json) : Nip86.Response * State :=
  match param_str params 0 with
  | None => (Nip86.resp_err "expected a description string as the first parameter", s)
  | Some d => (done_true, set_metadata s (name (inner s)) (Some d) (icon (inner s)))
  end.

Definition change_icon (s : State) (params : list Json) : Nip86.Response * State :=
  match param_str params 0 with
  | None => (Nip86.resp_err "expected an icon url as the first parameter", s)
  | Some raw =>
      match Url.parse raw with
      | Err _ => (Nip86.resp_err "icon must be a valid url", s)
      | Ok u => (done_true, set_metadata s (name (inner s)) (description (inner s)) (Some u))
      end
  end.

Definition SUPPORTED_METHODS : list string :=
  ["supportedmethods"; "banpubkey"; "unbanpubkey"; "listbannedpubkeys"; "allowpubkey"; "unallowpubkey";
   "listallowedpubkeys"; "allowkind"; "disallowkind"; "listallowedkinds"; "blockip"; "unblockip";
   "listblockedips"; "changerelayname"; "changerelaydescription"; "changerelayicon"].

Definition handle_request (s : State) (request : Nip86.Request) : Nip86.Response * State :=
  let params := Nip86.params request in
  match Nip86.method_parse (Nip86.method request) with
  | Nip86.SupportedMethods => (Nip86.resp_ok (JArr (JStr <$> SUPPORTED_METHODS)), s)
  | Nip86.BanPubkey => set_pubkey s params Banned
  | Nip86.UnbanPubkey => remove_pubkey s params Banned
  | Nip86.ListBannedPubkeys => (list_pubkeys s Banned, s)
  | Nip86.AllowPubkey => set_pubkey s params Allowed
  | Nip86.UnallowPubkey => remove_pubkey s params Allowed
  | Nip86.ListAllowedPubkeys => (list_pubkeys s Allowed, s)
  | Nip86.AllowKind => set_kind s params true
  | Nip86.DisallowKind => set_kind s params false
  | Nip86.ListAllowedKinds => (list_kinds s, s)
  | Nip86.BlockIp => block_ip s params
  | Nip86.UnblockIp => unblock_ip s params
  | Nip86.ListBlockedIps => (list_blocked_ips s, s)
  | Nip86.ChangeRelayName => change_name s params
  | Nip86.ChangeRelayDescription => change_description s params
  | Nip86.ChangeRelayIcon => change_icon s params
  | other => (Nip86.resp_err ("unsupported method: " +:+ Nip86.method_as_str other), s)
  end.
End management.
Arguments State {_}.
Arguments Inner {_}.

(** ** The endpoint ([relay.rs]) *)

Record HttpRequest := mkHttp {
  path : string;
  headers : list (string * string);
  body : list byte;
}.

Definition header (r : HttpRequest) (key : string) : option string :=
  list_find (λ p, p.1 = key) (headers r) ≫= λ p, Some p.2.2.

(** Why a management request is refused. *)
Inductive AuthFailure :=
| MissingAuthorization
| BadAuth (e : Nip98.HttpAuthError)
| InvalidAuthEvent (e : Event.Error)
| MissingHostHeader
| BadUrl (e : Url.Error)
| NoClock (e : string)
| NotAdmin.

Definition failure_string (f : AuthFailure) : string :=
  match f with
  | MissingAuthorization => "missing Authorization header"
  | BadAuth e => Nip98.error_string Sync.hex_error_string event_error_string e
  | InvalidAuthEvent e => "invalid auth event: " +:+ event_error_string e
  | MissingHostHeader => "missing Host header"
  | BadUrl e => Url.error_string e
  | NoClock e => e
  | NotAdmin => "pubkey is not authorized to manage this relay"
  end.

Section endpoint.
Context `{FasterHex, Secp256k1, EventCrypto, SerdeJson, SigSerde, UrlBase, Base64, JsonText}.

Definition authorize_management (clock : result Timestamp string) (request : HttpRequest) (s : State) :
    result unit AuthFailure :=
  let? h := ok_or (header request "authorization") MissingAuthorization in
  let? event := map_err BadAuth (Nip98.parse_authorization_header h) in
  let? _ := map_err InvalidAuthEvent (Event.verify event) in
  let? bundle := map_err BadAuth (Nip98.from_event event) in
  let? host := ok_or (header request "host") MissingHostHeader in
  let? u := map_err BadUrl (Url.parse ("http://" +:+ host +:+ path request)) in
  let? now := map_err NoClock clock in
  let? _ := map_err BadAuth
    (Nip98.validate bundle (Event.created_at event) now Nip98.DEFAULT_TIMESTAMP_SKEW_SECS u Nip98.Post
       (Some (body request))) in
  if negb (is_admin s (Event.pubkey event)) then Err NotAdmin else Ok tt.

(** The status and the response; [None]: the request could not be read, or the
    management API is not enabled. *)
Definition handle_management_post (clock : result Timestamp string) (request : option HttpRequest)
    (management : option State) : N * Nip86.Response * option State :=
  match request with
  | None => (400%N, Nip86.resp_err "malformed request", management)
  | Some request =>
      match management with
      | None => (404%N, Nip86.resp_err "management api is not enabled", management)
      | Some s =>
          if negb (Text.starts_with (default EmptyString (header request "content-type")) Nip86.CONTENT_TYPE)
          then (415%N, Nip86.resp_err "expected application/nostr+json+rpc", management)
          else
            match authorize_management clock request s with
            | Err why => (401%N, Nip86.resp_err (failure_string why), management)
            | Ok _ =>
                match (let? v := json_from_slice (body request) in
                       map_err de_error_text (Nip86.de_request v)) with
                | Ok rpc => let '(r, s') := handle_request s rpc in (200%N, r, Some s')
                | Err e => (200%N, Nip86.resp_err ("invalid request body: " +:+ e), management)
                end
            end
      end
  end.
End endpoint.

End Management.
