(* ===== verification/RelaySamples.v ===== *)
(** * Concrete inputs for the relay

    Instances of the external interfaces the messages, the authentication and
    the relay server use, for the theorems that exhibit an execution. *)

From Stdlib Require Import Ascii NArith Lia.
From S2P Require Import Prelude Encoding Text Ids Tags Event Filter FilterWire Storage Samples.
From S2P Require Import Nips Message Sync Database Server HttpAuth.

(** ** URLs

    The addresses [ws://rest], [wss://rest] and [http://rest], with no port and no
    fragment; their text is ASCII. *)

Inductive sample_scheme := Ws | Wss | Http.
Record sample_url := mkUrl {
  scheme_of : sample_scheme;
  rest : string;
  rest_ascii : Utf8.ascii_only rest = true;
}.

#[global] Instance sample_scheme_eq_dec : EqDecision sample_scheme.
Proof. solve_decision. Defined.
#[global] Instance sample_url_eq_dec : EqDecision sample_url.
Proof.
  intros [s1 r1 H1] [s2 r2 H2].
  destruct (decide (s1 = s2)) as [->|]; [|right; congruence].
  destruct (decide (r1 = r2)) as [->|]; [|right; congruence].
  left. f_equal. apply (Eqdep_dec.UIP_dec Bool.bool_dec).
Defined.

Definition mk_url (s : sample_scheme) (r : string) : result sample_url string :=
  match Bool.bool_dec (Utf8.ascii_only r) true with
  | left H => Ok (mkUrl s r H)
  | right _ => Err "invalid international domain name"
  end.

Definition scheme_string (s : sample_scheme) : string :=
  match s with Ws => "ws" | Wss => "wss" | Http => "http" end.

#[global] Instance sample_scheme_countable : Countable sample_scheme.
Proof.
  refine (inj_countable' (λ s, match s with Ws => 0 | Wss => 1 | Http => 2 end)%N
    (λ n, if decide (n = 0) then Ws else if decide (n = 1) then Wss else Http)%N _).
  by intros [].
Defined.

#[global] Instance sample_url_countable : Countable sample_url.
Proof.
  refine (inj_countable (λ u, (scheme_of u, rest u)) (λ p, result_ok (mk_url p.1 p.2)) _).
  intros [sc r Hr]. unfold mk_url. simpl.
  destruct (Bool.bool_dec _ _) as [H|]; [|done]. simpl.
  do 2 f_equal. apply (Eqdep_dec.UIP_dec Bool.bool_dec).
Defined.

#[global] Instance sample_urls : UrlCrate := {|
  url := sample_url;
  url_parse s :=
    match Text.strip_prefix "wss://" s, Text.strip_prefix "ws://" s, Text.strip_prefix "http://" s with
    | Some r, _, _ => mk_url Wss r
    | _, Some r, _ => mk_url Ws r
    | _, _, Some r => mk_url Http r
    | _, _, _ => Err "relative URL without a base"
    end;
  url_as_str u := scheme_string (scheme_of u) +:+ "://" +:+ rest u;
  url_scheme u := scheme_string (scheme_of u);
  url_host_str u := Some (rest u);
  url_port _ := None;
  url_fragment _ := None;
  url_without_fragment u := u;
  url_without_port u := Some u;
|}.

#[global] Instance sample_url_base : UrlBase := {| cannot_be_a_base _ := false |}.

#[global] Instance sample_url_laws : UrlCrateLaws.
Proof.
  split; [|intros; simpl in *; simplify_eq; done ..].
  intros [sc r Hr]. assert (∀ s, mk_url s r = Ok (mkUrl s r Hr)) as Hmk.
  { intros s. unfold mk_url. destruct (Bool.bool_dec _ _) as [H|]; [|done].
    do 2 f_equal. apply (Eqdep_dec.UIP_dec Bool.bool_dec). }
  destruct sc; exact (Hmk _).
Qed.

Definition sample_relay : RelayUrl := RelayUrl.mk (mkUrl Wss "relay.example" eq_refl).

(** ** Signatures

    The bytes of a signature as the characters of a string. *)

#[global] Instance sample_sigs : SigSerde := {|
  sig_json s := JStr (String.string_of_list_byte s);
  de_sig v :=
    match v with
    | JStr s => if (length (as_bytes s) =? 64)%nat then Some (as_bytes s) else None
    | _ => None
    end;
|}.

#[global] Instance sample_sig_laws : SigSerdeLaws.
Proof.
  split.
  - intros s Hs. simpl. unfold as_bytes. rewrite String.list_byte_of_string_of_list_byte, Hs. done.
  - intros v s. destruct v; simpl; try done. destruct (Nat.eqb_spec (length (as_bytes s0)) 64); [|done].
    by intros [= <-].
Qed.

(** ** Reconciliation

    A machine that answers every message with the ids it holds. *)

#[global] Instance sample_negentropy : NegentropyCrate := {|
  neg_storage := list (N * bytes32);
  neg_empty := [];
  neg_insert st ts i := Ok (st ++ [(ts, i)]);
  neg_seal st := Ok st;
  neg_machine := list (N * bytes32);
  neg_owned st _ := Ok st;
  neg_initiate m := (Ok [], m);
  neg_reconcile m _ := (Ok (concat (b32_list <$> m.*2)), m);
  neg_reconcile_with_ids m _ := (Ok (None, m.*2, []), m);
|}.

(** ** A relay and its surroundings *)

(** A relay that requires authentication to write, caps subscriptions at two and
    limits at one hundred. *)
Definition sample_ctx : ConnectionContext :=
  context_of
    (MockRelayOptions.mk Nip42Mode.Write None None (Some 64%N) (Some 100%N) None (Some 2%N)
       (mkRateLimit (Some 2%N) (Some 2%N)) false None) sample_relay.

(** An open relay. *)
Definition open_ctx : ConnectionContext := context_of MockRelayOptions.new sample_relay.

(** A clock at [now], policies that accept everything. *)
Definition sample_env (now : Timestamp) : Env :=
  mkEnv (Ok now) (Ok now) (1000 * now) accept_all_writes accept_all_queries "00" None (λ _, "malformed").

Definition sub1 : SubscriptionId := SubscriptionId.mk "sub1".
Definition sub2 : SubscriptionId := SubscriptionId.mk "sub2".

(** The frame that carries a message. *)
Definition frame `{Secp256k1} (m : ClientMessage) : Input :=
  InFrame (Some (WsText (Ok (ClientMessage.serialize m)))).

(** What the key [n] makes of a builder; the default is never reached. *)
Definition signed_by (n : N) (b : EventBuilder) : Event :=
  default note1 (result_ok (EventBuilder.sign_with_keys (Some 1000%N) b (sample_key n))).

Definition auth7 : Event := signed_by 7 (Nip42.auth_event sample_relay "nula-mock-00").
Definition note7 : Event := signed_by 7 (EventBuilder.text_note "hello").
