(* ===== verification/Backends.v ===== *)
(** * The two backends as databases

    [MemoryDatabase] and [RedbDatabase] implement the trait [NostrDatabase]
    ([memory/database.rs], [redb/database.rs]) and keep the contract the relay
    relies on. *)

From Stdlib Require Import Ascii NArith Lia.
From S2P Require Import Prelude Encoding Text Ids Tags Event Filter Storage SpecProofs Database.
From S2P Require Import Memory MemoryProofs MemoryTheorems.
From S2P Require Import RedbKeys Redb RedbProofs RedbTheorems.

(** ** In memory *)

Section memory.
Context `{FasterHex, Secp256k1}.

(** The clock is read before the lock is taken. *)
Definition memory_db_save (clock : result Timestamp string) (s : MemoryStore) (e : Event) :
    result SaveEventStatus string * MemoryStore :=
  match clock with
  | Err err => (Err err, s)
  | Ok now => let '(status, s) := save_event s e now in (Ok status, s)
  end.

#[global] Instance memory_database : NostrDatabase MemoryStore := {|
  store_save := memory_db_save;
  store_query s f := Ok (db_query s f);
  store_count s f := Ok (N.of_nat (count s f));
  store_items s f := Ok (negentropy_items s f);
|}.

Definition memory_repr (o : Spec.options) (s : MemoryStore) (st : Spec.t) : Prop :=
  Inv s ∧ spec_options (options s) = o ∧ abs s = st.

#[global] Program Instance memory_contract : DatabaseContract MemoryStore := {|
  store_repr := memory_repr;
  storable _ := True;
  store_exact := coordinate_ok;
|}.
Next Obligation. intros o s st (HI & _ & <-). apply (ix_id s), HI. Qed.
Next Obligation.
  intros o s st e now (HI & <- & <-) _. simpl.
  destruct (save_event_ok s e now HI) as (E & HI' & Ho). rewrite E.
  destruct (save_event s e now) as [status s'] eqn:Es. simpl in *.
  exists s'. split; [done|]. split_and!; [done|congruence|done].
Qed.
Next Obligation. intros s e err. by eexists. Qed.
Next Obligation.
  intros o s st f (HI & _ & <-). exists (db_query s f). split; [done|].
  intros e. unfold db_query, Events.from_sorted, query_owned.
  rewrite list_elem_of_omap. intros (k & Hk & Ek).
  apply query_keys_live in Hk as (e' & Hl & <- & Hm); [|apply HI]. simpl in Ek. unfold live_in in Hl.
  assert (e' = e) as -> by congruence. done.
Qed.
Next Obligation.
  intros o s st f (HI & _ & <-) Hex. simpl. f_equal. by apply query_owned_ref; [apply HI|].
Qed.
End memory.

(** ** On disk *)

Section redb.
Context {T : Type → Type} `{KvTable T, !KvTableLaws T}.
Context `{FasterHex, !FasterHexLaws, Secp256k1, Postcard, !PostcardLaws}.
(** [Display] of the backend's errors. *)
Context (error_text : Codec.Error → string).

Definition redb_db : Type := RedbDatabaseOptions * Redb.WriteTables T.

Definition redb_db_save (clock : result Timestamp string) (d : redb_db) (e : Event) :
    result SaveEventStatus string * redb_db :=
  match clock with
  | Err err => (Err ("I/O error: " +:+ err), d)
  | Ok now =>
      let '(res, t) := Redb.save_event d.1 d.2 e now in (map_err error_text res, (d.1, t))
  end.

Definition redb_database : NostrDatabase redb_db := {|
  store_save := redb_db_save;
  store_query d f := map_err error_text (Redb.db_query d.2 f);
  store_count d f := map_err error_text (Redb.count d.2 f);
  store_items d f := map_err error_text (Redb.negentropy_items d.2 f);
|}.

Definition redb_repr (o : Spec.options) (d : redb_db) (st : Spec.t) : Prop :=
  redb_spec_options d.1 = o ∧ Repr d.2 st.

Lemma from_unsorted_sub (l : list Event) e : e ∈ Events.from_unsorted l → e ∈ l.
Proof.
  unfold Events.from_unsorted. rewrite merge_sort_Permutation.
  destruct (seen_fold l ∅ []) as (_ & Hsub & _); [set_solver|apply NoDup_nil_2|set_solver|].
  intros He. destruct (Hsub e He); [set_solver|done].
Qed.

Program Definition redb_contract : @DatabaseContract redb_db _ _ redb_database := {|
  store_repr := redb_repr;
  storable := stored_ok;
  store_exact _ f := kinds_in_range f ∧ Filter.limit f = None;
|}.
Next Obligation. intros o d st (_ & R). apply (r_keyed _ _ R). Qed.
Next Obligation.
  intros o [opts t] st e now (<- & R) He. simpl.
  destruct (save_event_repr opts t st e now R He) as (status & t' & -> & <- & R').
  exists (opts, t'). done.
Qed.
Next Obligation. intros d e err. by eexists. Qed.
Next Obligation.
  intros o [opts t] st f (<- & R). simpl. unfold Redb.db_query. rewrite (query_found t st f R). simpl.
  eexists. split; [done|]. intros e He%from_unsorted_sub%elem_of_take_limit.
  unfold found in He. apply list_elem_of_omap in He as (i & _ & E).
  destruct (Spec.live st !! i) as [x|] eqn:Ex; simpl in E; [|done]. case_decide; [|done].
  injection E as <-. split; [|done]. by eapply live_of_lookup.
Qed.
Next Obligation.
  intros o [opts t] st f (<- & R) [Hk Hl]. simpl. by rewrite (db_query_repr t st f R Hk Hl).
Qed.
End redb.
