(* ===== verification/ServerTheorems.v ===== *)
(** * The relay server: theorems

    What one connection may write, what it remembers, and what it answers.  The
    storage is any database that keeps the contract of [Database]. *)

From Stdlib Require Import Ascii NArith Lia.
From S2P Require Import Prelude Encoding Text Ids Tags Event Filter FilterWire Storage SpecProofs Samples.
From S2P Require Import Database Nips Message Sync Server ServerProofs RelaySamples.
From S2P Require Import Memory MemoryProofs Backends.

Import MachineReadablePrefix (reason).

#[local] Existing Instance sample_secp.

Section safety.
Context {DB : Type} `{NostrDatabase DB}.
Context `{FasterHex, Secp256k1, SerdeJson, SigSerde, EventCrypto, UrlCrate, NegentropyCrate}.

(** C5: whatever a client sends, in whatever order, and whatever other
    connections do to the storage in between, an event this connection
    broadcasts or saves was sent by the client, was not expired, met the required
    proof of work, was admitted by the write policy; if it is protected, its
    author had answered, with a signed event for this relay, the challenge this
    very connection had at that moment and had sent, and if the relay requires
    authentication to write, somebody had. *)
Theorem connection_writes ctx env d room (c : Conn DB) acts :
  connect ctx env d room = Some c →
  let c' := run ctx c acts in
  (∀ e, e ∈ broadcast c' → published ctx c acts e) ∧
  ∃ d0 saves, (d0 = d ∨ Other d0 ∈ acts) ∧ storage c' = foldl save_into d0 saves ∧
    ∀ p, p ∈ saves → published ctx c acts p.2.
Proof.
  intros Hc. destruct (run_stored ctx env d room c acts Hc) as (pre & [suf ->] & HI & HS).
  cbv zeta. split.
  - intros e He. apply published_app. by apply HI.
  - destruct HS as (d0 & saves & Hd & Hst & Hp). exists d0, saves. split_and!; [|done|].
    + destruct Hd; [by left|right; set_solver].
    + intros p Hin. by apply published_app, Hp.
Qed.

(** A connection never holds more subscriptions than its cap, and every
    filter of every subscription carries a limit of at most the relay's maximum. *)
Theorem subscriptions_bounded ctx env d room (c : Conn DB) acts :
  connect ctx env d room = Some c →
  let c' := run ctx c acts in
  (∀ m, max_active_subscriptions ctx = Some m → (N.of_nat (size (subscriptions c')) <= m)%N) ∧
  (∀ id fs f m, subscriptions c' !! id = Some fs → f ∈ fs → max_filter_limit ctx = Some m →
     ∃ l, Filter.limit f = Some l ∧ (l <= m)%N).
Proof. intros (pre & _ & HI)%(run_inv ctx env d room c acts). apply HI. Qed.

(** A live event goes out exactly once to every subscription with a matching
    filter and to no other. *)
Theorem live_event_forwarded (c : Conn DB) e :
  Server.room c = None →
  ∃ ids, forward_to_subscriptions e c =
      (Ok tt, set_sent c (sent c ++ ((λ id, OutText (RelayMessage.Event id e)) <$> ids)) None) ∧
    NoDup ids ∧
    ∀ id, id ∈ ids ↔ ∃ fs f, subscriptions c !! id = Some fs ∧ f ∈ fs ∧
      Filter.match_event f e match_options_default = true.
Proof.
  intros Hr. set (hit := λ p : SubscriptionId * list Filter,
    existsb (λ f, Filter.match_event f e match_options_default) p.2).
  exists (fst <$> filter (λ p, hit p = true) (map_to_list (subscriptions c))). split_and!.
  - unfold forward_to_subscriptions.
    rewrite (for_each_send_open _ _ (λ p, if hit p then [OutText (RelayMessage.Event p.1 e)] else []));
      [|intros p c' Hr'; unfold hit; destruct (existsb _ p.2);
        [by apply send_open|rewrite app_nil_r; by destruct c'; simpl in *; subst]|done].
    f_equal. f_equal. f_equal. generalize (map_to_list (subscriptions c)). intros l.
    induction l as [|p l IH]; [done|]. rewrite filter_cons. cbn [fmap list_fmap concat]. rewrite IH.
    by destruct (hit p).
  - apply (sublist_NoDup _ (map_to_list (subscriptions c)).*1);
      [apply NoDup_fst_map_to_list|]. apply fmap_sublist, sublist_filter.
  - intros id. rewrite list_elem_of_fmap. setoid_rewrite list_elem_of_filter.
    split.
    + intros ([id' fs] & -> & Hh & Hl%elem_of_map_to_list). unfold hit in Hh. simpl in *.
      apply existsb_exists in Hh as (f & Hf & Hm). exists fs, f. split_and!; [done| |done].
      by apply list_elem_of_In.
    + intros (fs & f & Hl & Hf & Hm). exists (id, fs). split_and!; [done| |by apply elem_of_map_to_list].
      unfold hit. simpl. apply existsb_exists. exists f. split; [by apply list_elem_of_In|done].
Qed.
End safety.

(** With a cap of [max] events (or REQs) per minute a connection lets at most
    [2 * max] of them through in any minute: the window is a fixed one, and a
    minute touches at most two of them. *)
Theorem rate_limit_bound k l max start msgs t :
  cap k l = Some max → ordered msgs →
  (N.of_nat (in_minute t (passed k (limiter_new l start) msgs)) <= 2 * max)%N.
Proof. intros Hc Ho. apply rate_limited; [done|destruct k; simpl; lia|done]. Qed.

(** ** Answers *)

Section answers.
Context {DB : Type} `{DatabaseContract DB}.
Context `{SerdeJson, SigSerde, EventCrypto, UrlCrate, NegentropyCrate}.

(** C15: an EVENT is answered by exactly one [OK] for its id, after an [AUTH]
    challenge at most.  The answer is positive exactly when the event passes the
    relay's gates and the abstract store accepts it (or it is ephemeral), then
    and only then it is broadcast; a refusal carries a machine-readable prefix.
    The storage moves to the abstract store's next state when the event passes
    the gates, and is untouched otherwise. *)
Theorem event_answered ctx env (c : Conn DB) e o st now :
  Server.room c = None → save_clock env = Ok now → store_repr o (storage c) st → storable e →
  ∃ fs ok msg c',
    handle_event ctx env e c = (Ok tt, c') ∧
    sent c' = sent c ++ fs ++ [OutText (RelayMessage.Ok (Event.id e) ok msg)] ∧
    (fs = [] ∨ ∃ ch, fs = [OutText (RelayMessage.Auth ch)]) ∧
    (ok = true ↔ cleared ctx env c e ∧ accepted_outcome (Spec.save o st e now).1) ∧
    (ok = false → is_Some (MachineReadablePrefix.from_reason msg)) ∧
    broadcast c' = broadcast c ++ (if ok then [e] else []) ∧
    (cleared ctx env c e → store_repr o (storage c') (Spec.save o st e now).2) ∧
    (¬ cleared ctx env c e → storage c' = storage c).
Proof. apply handle_event_answer. Qed.

(** A REQ that passes the relay's checks is answered with stored events
    and then [EOSE], and the admitted filters become the subscription.  The
    events are live and each matches a filter; where the database answers the
    filters exactly they are, filter by filter, the reference answers in result
    order. *)
Theorem request_answered ctx env (c : Conn DB) id fs fs' o st :
  Server.room c = None → too_long ctx id = None → at_cap ctx (subscriptions c) id = None →
  send_random_events ctx = None → fs ≠ [] → admit_filters ctx env fs = Ok fs' →
  store_repr o (storage c) st →
  ∃ es,
    handle_req ctx env id fs c =
      (Ok tt, set_subscriptions
         (set_sent c (sent c ++ ((λ e, OutText (RelayMessage.Event id e)) <$> es) ++
                      [OutText (RelayMessage.EndOfStoredEvents id)]) None)
         (<[id := fs']> (subscriptions c))) ∧
    (∀ e, e ∈ es → live_in (Spec.live st) e ∧ ∃ f, f ∈ fs' ∧ matches f e) ∧
    ((∀ f, f ∈ fs' → store_exact (storage c) f) → es = fs' ≫= query_ref (Spec.live st)).
Proof.
  intros Hr Hl Hc Hn Hne Ha Hst. exists (stored_events (storage c) fs'). split_and!.
  - apply handle_req_open; try done. intros f _.
    destruct (store_query_sound o _ st f Hst) as (l & -> & _). eauto.
  - intros e (f & He & Hf)%list_elem_of_bind.
    destruct (store_query_sound o _ st f Hst) as (l & El & Hs). rewrite El in He.
    destruct (Hs e He). eauto.
  - intros Hex. unfold stored_events. clear Ha. induction fs' as [|f fs' IH]; [done|]. simpl.
    rewrite (store_query_exact o _ st f Hst) by (apply Hex; by left). f_equal.
    apply IH. intros g Hg. apply Hex. by right.
Qed.

Lemma save_Success_live o st e now :
  Spec.max_events o = None → (Spec.save o st e now).1 = Success →
  live_in (Spec.live (Spec.save o st e now).2) e.
Proof.
  unfold Spec.save. destruct (Spec.admission o st e now); [|done]. intros Hm _. simpl.
  rewrite Hm. simpl. unfold live_in. by rewrite lookup_insert_eq.
Qed.

Lemma save_Ephemeral o st e now :
  (Spec.save o st e now).1 = Rejected Ephemeral → Kind.is_ephemeral (Event.kind e) = true.
Proof.
  unfold Spec.save, Spec.admission, rejected_if.
  repeat (match goal with |- context [if ?b then _ else _] => destruct b eqn:? end; simpl; try done).
Qed.

(** C9: what one client publishes another one gets.  On an uncapped database, if
    the relay answers a client's EVENT with [OK true] and the event is not
    ephemeral, then a REQ within the limits, on any connection with an open socket
    over the storage so reached, sends the event when one of its admitted filters
    matches it, has no limit and is one the database answers exactly. *)
Theorem published_event_served ctx env1 (c1 c1' : Conn DB) e o st now msg env2 (c2 : Conn DB) id fs fs' f :
  Server.room c1 = None → save_clock env1 = Ok now → store_repr o (storage c1) st → storable e →
  Spec.max_events o = None → Kind.is_ephemeral (Event.kind e) = false →
  handle_event ctx env1 e c1 = (Ok tt, c1') →
  last (sent c1') = Some (OutText (RelayMessage.Ok (Event.id e) true msg)) →
  storage c2 = storage c1' → Server.room c2 = None → too_long ctx id = None →
  at_cap ctx (subscriptions c2) id = None → send_random_events ctx = None → fs ≠ [] →
  admit_filters ctx env2 fs = Ok fs' → f ∈ fs' → Filter.limit f = None → matches f e →
  store_exact (storage c2) f →
  OutText (RelayMessage.Event id e) ∈ sent (handle_req ctx env2 id fs c2).2.
Proof.
  intros Hr Hnow Hst He Hmax Heph Hev Hlast Hst2 Hr2 Hl Hc Hn Hne Ha Hf Hlim Hm Hex.
  assert (store_repr o (storage c1') (Spec.save o st e now).2 ∧ (Spec.save o st e now).1 = Success)
    as [Hst' Hsucc].
  { destruct (handle_event_open ctx env1 e c1 Hr) as [[Hcl Eh]|[_ Hrf]].
    - destruct (store_save_ok o (storage c1) st e now Hst He) as (d' & Es & Hst'). rewrite <-Hnow in Es.
      destruct (save_reply_spec (Event.id e) (Spec.save o st e now).1) as (ok & msg' & Er & Hok & _).
      rewrite Eh, (store_and_reply_open env1 e c1 _ _ _ _ Hr Es Er) in Hev. injection Hev as <-.
      simpl in Hlast. rewrite last_snoc in Hlast. injection Hlast as -> ->. split; [done|].
      destruct (proj1 Hok eq_refl) as [?|Hep]; [done|]. apply save_Ephemeral in Hep. congruence.
    - destruct Hrf as (a & l & p & m & _ & _ & E). rewrite E in Hev. injection Hev as <-.
      simpl in Hlast. rewrite app_assoc, last_snoc in Hlast. done. }
  rewrite Hst2 in Hex. pose proof (store_query_exact o _ _ f Hst' Hex) as Eq.
  rewrite (handle_req_open ctx env2 id fs fs' c2 Hr2 Hl Hc Hn Hne Ha).
  2:{ intros g _. rewrite Hst2. destruct (store_query_sound o _ _ g Hst') as (l & -> & _). eauto. }
  simpl. rewrite elem_of_app, elem_of_app. right. left. apply list_elem_of_fmap. exists e. split; [done|].
  apply list_elem_of_bind. exists f. split; [|done]. rewrite Hst2, Eq. unfold query_ref.
  rewrite Hlim. simpl. apply list_elem_of_filter. split; [done|].
  apply elem_of_sorted_events; [by eapply store_keyed|]. by apply save_Success_live.
Qed.
End answers.

(** ** Instances of the theorems *)

(** A connection over the in-memory store that accepts every frame. *)
Definition fresh_conn (ctx : ConnectionContext) (s : MemoryStore) : Conn MemoryStore :=
  default (mkConn s [] [] None ∅ ∅ (mkAuth false None EmptyString) (limiter_new rate_limit_disabled 0))
    (connect ctx (sample_env 1000) s None).

(** The client authenticates, publishes, asks, and publishes once more after the
    relay's window has closed on it. *)
Definition session : list (Act (DB := MemoryStore)) :=
  [Do (sample_env 1001) (frame (ClientMessage.Event note7));
   Do (sample_env 1002) (frame (ClientMessage.Auth auth7));
   Do (sample_env 1003) (frame (ClientMessage.Event note7));
   Do (sample_env 1004) (frame (ClientMessage.Req sub1 [Filter.new]));
   Do (sample_env 1005) (InLive note1)].

Lemma connection_writes_witness :
  connect sample_ctx (sample_env 1000) (new mem_options_new) None =
    Some (fresh_conn sample_ctx (new mem_options_new)) ∧
  broadcast (run sample_ctx (fresh_conn sample_ctx (new mem_options_new)) session) = [note7] ∧
  published sample_ctx (fresh_conn sample_ctx (new mem_options_new)) session note7.
Proof.
  assert (connect sample_ctx (sample_env 1000) (new mem_options_new) None =
    Some (fresh_conn sample_ctx (new mem_options_new))) as Hc by reflexivity.
  assert (broadcast (run sample_ctx (fresh_conn sample_ctx (new mem_options_new)) session) = [note7]) as Hb
    by (vm_compute; reflexivity).
  split; [exact Hc|]. split; [exact Hb|].
  apply (connection_writes sample_ctx _ _ _ _ session Hc). rewrite Hb. left.
Defined.

Lemma subscriptions_bounded_witness :
  let c := run sample_ctx (fresh_conn sample_ctx (new mem_options_new)) session in
  (N.of_nat (size (subscriptions c)) = 1)%N ∧ (N.of_nat (size (subscriptions c)) <= 2)%N.
Proof.
  intros c. split; [vm_compute; reflexivity|].
  apply (subscriptions_bounded sample_ctx (sample_env 1000) (new mem_options_new) None
           (fresh_conn sample_ctx (new mem_options_new)) session); reflexivity.
Defined.

Definition listening : Conn MemoryStore :=
  set_subscriptions (fresh_conn open_ctx (new mem_options_new))
    {[sub1 := [Filter.add_author Filter.new alice]; sub2 := [Filter.add_author Filter.new bob]]}.

Lemma live_event_forwarded_witness :
  Server.room listening = None ∧
  sent (forward_to_subscriptions note1 listening).2 = [OutText (RelayMessage.Event sub1 note1)] ∧
  ∃ ids, (forward_to_subscriptions note1 listening).1 = Ok tt ∧ NoDup ids ∧ sub1 ∈ ids.
Proof.
  split; [reflexivity|]. split; [vm_compute; reflexivity|].
  destruct (live_event_forwarded listening note1 eq_refl) as (ids & E & Hn & Hin). exists ids.
  rewrite E. split; [reflexivity|]. split; [exact Hn|]. apply Hin.
  exists [Filter.add_author Filter.new alice], (Filter.add_author Filter.new alice).
  split; [reflexivity|]. split; [left|vm_compute; reflexivity].
Defined.

(** Two events at the end of one window and two at the start of the next. *)
Lemma rate_limit_bound_witness :
  let msgs := [(59000, ClientMessage.Event note1); (59001, ClientMessage.Event note2);
               (59002, ClientMessage.Event note3); (60000, ClientMessage.Event note1);
               (60001, ClientMessage.Event note2); (60002, ClientMessage.Event note3)]%N in
  let count := N.of_nat (in_minute 59000
                 (passed true (limiter_new (mkRateLimit (Some 2%N) None) 0) msgs)) in
  (count = 4)%N ∧ (count <= 2 * 2)%N.
Proof.
  intros msgs count. split; [vm_compute; reflexivity|]. apply rate_limit_bound; [reflexivity|].
  unfold ordered. repeat (constructor; [|repeat (constructor; [apply (bool_decide_unpack _); vm_compute; exact I|]); constructor]).
  constructor.
Defined.

Definition open_conn : Conn MemoryStore := fresh_conn open_ctx (new mem_options_new).

Lemma open_conn_repr : store_repr (spec_options mem_options_new) (storage open_conn) Spec.empty.
Proof. split; [apply Inv_empty|]. split; reflexivity. Qed.

(** The note carries no valid signature. *)
Lemma event_answered_witness :
  Event.verify note1 ≠ Ok tt ∧
  ∃ c', handle_event open_ctx (sample_env 1000) note1 open_conn = (Ok tt, c') ∧
    sent c' = [OutText (RelayMessage.Ok (Event.id note1) true EmptyString)] ∧ broadcast c' = [note1].
Proof.
  split; [intros E; vm_compute in E; discriminate E|].
  destruct (event_answered open_ctx (sample_env 1000) open_conn note1 (spec_options mem_options_new)
              Spec.empty 1000 eq_refl eq_refl open_conn_repr I)
    as (fs & ok & msg & c' & E & Hs & _ & _ & _ & Hb & _).
  exists c'. split; [exact E|].
  assert (c' = (handle_event open_ctx (sample_env 1000) note1 open_conn).2) as -> by (rewrite E; reflexivity).
  split; vm_compute; reflexivity.
Defined.

Lemma request_answered_witness :
  ∃ c', handle_req open_ctx (sample_env 1000) sub1 [Filter.new] open_conn = (Ok tt, c') ∧
    sent c' = [OutText (RelayMessage.EndOfStoredEvents sub1)] ∧
    subscriptions c' !! sub1 = Some [Filter.new].
Proof.
  destruct (request_answered open_ctx (sample_env 1000) open_conn sub1 [Filter.new] [Filter.new]
              (spec_options mem_options_new) Spec.empty)
    as (es & E & Hes & _); [reflexivity..|discriminate|reflexivity|exact open_conn_repr|].
  eexists. split; [exact E|]. destruct es as [|e es].
  - split; reflexivity.
  - destruct (Hes e) as [Hl _]; [left|]. vm_compute in Hl. discriminate Hl.
Defined.

Lemma published_event_served_witness :
  ∃ c', handle_event open_ctx (sample_env 1000) note7 open_conn = (Ok tt, c') ∧
    OutText (RelayMessage.Event sub1 note7) ∈
      sent (handle_req open_ctx (sample_env 1001) sub1 [Filter.new]
              (fresh_conn open_ctx (storage c'))).2.
Proof.
  destruct (handle_event open_ctx (sample_env 1000) note7 open_conn) as [r c'] eqn:E.
  assert (r = Ok tt) as -> by (apply (f_equal fst) in E; vm_compute in E; symmetry; exact E).
  exists c'. split; [reflexivity|].
  refine (published_event_served open_ctx (sample_env 1000) open_conn c' note7
    (spec_options mem_options_new) Spec.empty 1000 EmptyString (sample_env 1001)
    (fresh_conn open_ctx (storage c')) sub1 [Filter.new]
    [Filter.new] Filter.new eq_refl eq_refl open_conn_repr I eq_refl _ E _ eq_refl eq_refl eq_refl eq_refl
    eq_refl _ eq_refl _ eq_refl _ _).
  - vm_compute. reflexivity.
  - apply (f_equal (λ r, last (sent r.2))) in E. cbn [snd] in E. rewrite <-E. vm_compute. reflexivity.
  - discriminate.
  - left.
  - vm_compute. reflexivity.
  - exact I.
Defined.
