(* ===== verification/ManagementTheorems.v ===== *)
(** * Relay management: theorems

    Who can change the moderation state, and what a ban does to a connection. *)

From Stdlib Require Import Ascii NArith Lia.
From S2P Require Import Prelude Encoding Text Ids Tags Event Filter FilterWire Storage SpecProofs Samples.
From S2P Require Import Database Nips Message Sync Server ServerProofs HttpAuth IpAddr Management RelaySamples.
From S2P Require Import Memory Backends.

Import Management.

#[local] Existing Instance sample_secp.

(** ** The policy *)

Section policy.
Context `{FasterHex, !FasterHexLaws, Secp256k1, UrlBase}.

Definition request_step (s : State) (r : Nip86.Request) : State := (handle_request s r).2.

(** The request takes [pk] off the ban list. *)
Definition lifts (pk : PublicKey) (r : Nip86.Request) : Prop :=
  (Nip86.method_parse (Nip86.method r) = Nip86.UnbanPubkey ∨
   Nip86.method_parse (Nip86.method r) = Nip86.AllowPubkey) ∧
  param_pubkey (Nip86.params r) = Some pk.

Definition banned (s : State) (pk : PublicKey) : Prop :=
  is_Some (banned_pubkeys (inner s) !! pk) ∧ allowed_pubkeys (inner s) !! pk = None.

(** No request changes the administrators. *)
Lemma request_admins s r : admins (request_step s r) = admins s.
Proof.
  unfold request_step, handle_request, set_pubkey, remove_pubkey, set_kind, block_ip, unblock_ip,
    change_name, change_description, change_icon.
  destruct (Nip86.method_parse (Nip86.method r));
    repeat match goal with |- context [match ?x with _ => _ end] => destruct x; simpl end; done.
Qed.

(** A ban lasts until it is lifted. *)
Lemma request_banned s r pk : banned s pk → ¬ lifts pk r → banned (request_step s r) pk.
Proof.
  intros [Hb Ha] Hl. unfold banned, request_step, handle_request, set_pubkey, remove_pubkey.
  destruct (Nip86.method_parse (Nip86.method r)) eqn:Em; try done.
  - destruct (param_pubkey _) as [pk'|] eqn:E; [|done]. simpl. destruct (decide (pk' = pk)) as [->|].
    + rewrite lookup_insert_eq, lookup_delete_eq. eauto.
    + by rewrite lookup_insert_ne, lookup_delete_ne.
  - destruct (param_pubkey _) as [pk'|] eqn:E; [|done]. simpl.
    destruct (decide (pk' = pk)) as [->|]; [exfalso; apply Hl; by split; [left|]|].
    by rewrite lookup_delete_ne.
  - destruct (param_pubkey _) as [pk'|] eqn:E; [|done]. simpl.
    destruct (decide (pk' = pk)) as [->|]; [exfalso; apply Hl; by split; [right|]|].
    by rewrite lookup_delete_ne, lookup_insert_ne.
  - destruct (param_pubkey _) as [pk'|] eqn:E; [|done]. simpl. split; [done|].
    destruct (decide (pk' = pk)) as [->|]; [by rewrite lookup_delete_eq|by rewrite lookup_delete_ne].
  - unfold change_name. by destruct (param_str _ 0).
  - unfold change_description. by destruct (param_str _ 0).
  - unfold change_icon. destruct (param_str _ 0); [|done]. by destruct (Url.parse _).
  - unfold set_kind. by destruct (param_kind _).
  - unfold set_kind. destruct (param_kind _); [|done]. simpl. by destruct (allowed_kinds _).
  - unfold block_ip. by destruct (param_ip _).
  - unfold unblock_ip. by destruct (param_ip _).
Qed.

Lemma requests_banned s rs pk :
  banned s pk → (∀ r, r ∈ rs → ¬ lifts pk r) → banned (foldl request_step s rs) pk.
Proof.
  revert s. induction rs as [|r rs IH]; intros s Hb Hl; [done|]. simpl. apply IH.
  - apply request_banned; [done|]. apply Hl. by left.
  - intros r' Hr'. apply Hl. by right.
Qed.

Lemma ban_request s pk reason :
  PublicKey.valid pk →
  handle_request s (Nip86.pubkey_request Nip86.BanPubkey pk reason) =
    (done_true, set_pubkeys s (<[pk := reason]> (banned_pubkeys (inner s)))
                  (delete pk (allowed_pubkeys (inner s)))).
Proof.
  intros Hv. unfold handle_request. cbn [Nip86.method Nip86.pubkey_request].
  rewrite Nip86.method_parse_as_str by (unfold Nip86.spec_methods; set_solver).
  unfold set_pubkey, param_pubkey, param_str. simpl. rewrite PublicKey.pk_parse_to_hex by done. simpl.
  by destruct reason.
Qed.

(** The verdict, as a condition. *)
Lemma evaluate_Accept s e ip :
  evaluate s e ip = Accept ↔
  blocked_ips (inner s) !! ip = None ∧ banned_pubkeys (inner s) !! Event.pubkey e = None ∧
  (allowed_pubkeys (inner s) = ∅ ∨ is_Some (allowed_pubkeys (inner s) !! Event.pubkey e)) ∧
  (∀ ks, allowed_kinds (inner s) = Some ks → Event.kind e ∈ ks).
Proof.
  unfold evaluate. rewrite !eq_None_not_Some.
  case_bool_decide as Hip; [naive_solver|]. case_bool_decide as Hban; [naive_solver|].
  case_bool_decide as Hemp; case_bool_decide as Hall; simpl;
    try (split; [done|naive_solver]);
    destruct (allowed_kinds (inner s)) as [ks|]; try case_bool_decide as Hk; simpl; naive_solver.
Qed.
End policy.

(** C20: once an administrator has banned an author (and until a request
    unbans or allows that author again), no connection whose write policy is the
    moderation state saves or broadcasts an event of that author, whatever other
    moderation requests come in between and whatever the client sends. *)
Theorem banned_author_silenced {DB : Type} `{NostrDatabase DB}
    `{FasterHex, !FasterHexLaws, Secp256k1, SerdeJson, SigSerde, EventCrypto, UrlBase, NegentropyCrate}
    s pk reason ip ctx env d room (c : Conn DB) acts :
  PublicKey.valid pk → connect ctx env d room = Some c →
  (∀ env' input, Do env' input ∈ acts → ∃ rs, (∀ r, r ∈ rs → ¬ lifts pk r) ∧
     ∀ e, admit_event env' e =
       evaluate (foldl request_step s (Nip86.pubkey_request Nip86.BanPubkey pk reason :: rs)) e ip) →
  let c' := run ctx c acts in
  (∀ e, e ∈ broadcast c' → Event.pubkey e ≠ pk) ∧
  ∃ d0 saves, (d0 = d ∨ Other d0 ∈ acts) ∧ storage c' = foldl save_into d0 saves ∧
    ∀ p, p ∈ saves → Event.pubkey p.2 ≠ pk.
Proof.
  intros Hv Hc Hpol. destruct (run_stored ctx env d room c acts Hc) as (pre & [suf ->] & HI & HS).
  assert (∀ e, published ctx c pre e → Event.pubkey e ≠ pk) as Hpub.
  { intros e (pre' & env' & input & [l ->] & _ & _ & _ & Hadm & _) He.
    destruct (Hpol env' input) as (rs & Hrs & Hev); [set_solver|]. rewrite Hev in Hadm.
    apply evaluate_Accept in Hadm as (_ & Hnb & _). rewrite He in Hnb. simpl in Hnb.
    destruct (requests_banned (request_step s (Nip86.pubkey_request Nip86.BanPubkey pk reason)) rs pk)
      as [Hb _]; [|done|rewrite Hnb in Hb; by destruct Hb].
    unfold request_step. rewrite ban_request by done. split; simpl.
    - rewrite lookup_insert_eq. eauto.
    - apply lookup_delete_eq. }
  cbv zeta. split; [intros e He; by apply Hpub, HI|].
  destruct HS as (d0 & saves & Hd & Hst & Hp). exists d0, saves. split_and!; [|done|by auto].
  destruct Hd; [by left|right; set_solver].
Qed.

(** ** The endpoint *)

Section endpoint.
Context `{FasterHex, Secp256k1, EventCrypto, SerdeJson, SigSerde, UrlBase, Base64, JsonText}.

(** The request carries a valid event of an administrator that attests to it. *)
Definition authorised (clock : result Timestamp string) (request : HttpRequest) (s : State) : Prop :=
  ∃ h e bundle host u now,
    header request "authorization" = Some h ∧ Nip98.parse_authorization_header h = Ok e ∧
    Event.verify e = Ok tt ∧ Nip98.from_event e = Ok bundle ∧
    header request "host" = Some host ∧ Url.parse ("http://" +:+ host +:+ path request) = Ok u ∧
    clock = Ok now ∧ Nip98.attests bundle (Event.created_at e) now 60 u Nip98.Post (body request) ∧
    Event.pubkey e ∈ admins s.

Lemma authorize_spec clock request s :
  authorize_management clock request s = Ok tt ↔ authorised clock request s.
Proof.
  unfold authorize_management. split.
  - destruct (header request "authorization") as [h|] eqn:Eh; simpl; [|done].
    destruct (Nip98.parse_authorization_header h) as [e|] eqn:Ee; simpl; [|done].
    destruct (Event.verify e) as [[]|] eqn:Ev; simpl; [|done].
    destruct (Nip98.from_event e) as [bundle|] eqn:Eb; simpl; [|done].
    destruct (header request "host") as [host|] eqn:Eo; simpl; [|done].
    destruct (Url.parse _) as [u|] eqn:Eu; simpl; [|done]. destruct clock as [now|]; simpl; [|done].
    destruct (Nip98.validate _ _ _ _ _ _ _) as [[]|] eqn:Ex; simpl; [|done].
    unfold is_admin. case_bool_decide as Ha; [|done]. intros _.
    apply Nip98.validate_attests in Ex. by exists h, e, bundle, host, u, now.
  - intros (h & e & bundle & host & u & now & -> & Ee & Ev & Eb & -> & Eu & -> & Ex & Ha).
    simpl. rewrite Ee. simpl. rewrite Ev. simpl. rewrite Eb. simpl. rewrite Eu. simpl.
    apply Nip98.validate_attests in Ex. unfold Nip98.DEFAULT_TIMESTAMP_SKEW_SECS. rewrite Ex. simpl.
    unfold is_admin. by rewrite bool_decide_true.
Qed.

End endpoint.

(** ** Instances of the theorems *)

(** Bob is banned; Bob and Alice publish. *)
Definition ban_env (now : Timestamp) : Env :=
  mkEnv (Ok now) (Ok now) (1000 * now)
    (λ e, evaluate (request_step (new [key 7])
                      (Nip86.pubkey_request Nip86.BanPubkey bob (Some "spam"))) e (IpAddr.V4 [127; 0; 0; 1]%N))
    accept_all_queries "00" None (λ _, "malformed").

Definition signed_note (n : N) : Event := signed_by n (EventBuilder.text_note "hello").

Definition ban_session : list (Act (DB := MemoryStore)) :=
  [Do (ban_env 1001) (frame (ClientMessage.Event (signed_note 2)));
   Do (ban_env 1002) (frame (ClientMessage.Event (signed_note 1)))].

Definition ban_conn : Conn MemoryStore :=
  mkConn (Memory.new mem_options_new) [] [] None ∅ ∅ (mkAuth true None EmptyString)
    (limiter_new rate_limit_disabled 1000000).

Lemma banned_author_silenced_witness :
  broadcast (run open_ctx ban_conn ban_session) = [signed_note 1] ∧
  Event.pubkey (signed_note 2) = bob ∧
  (∀ e, e ∈ broadcast (run open_ctx ban_conn ban_session) → Event.pubkey e ≠ bob).
Proof.
  split; [vm_compute; reflexivity|]. split; [vm_compute; reflexivity|].
  apply (banned_author_silenced (new [key 7]) bob (Some "spam") (IpAddr.V4 [127; 0; 0; 1]%N)
           open_ctx (sample_env 1000) (Memory.new mem_options_new) None ban_conn ban_session).
  - reflexivity.
  - reflexivity.
  - intros env' input Hin. exists []. split; [intros r Hr; set_solver|]. intros e.
    apply elem_of_cons in Hin as [[= -> _]|Hin]; [reflexivity|].
    apply list_elem_of_singleton in Hin as [= -> _]. reflexivity.
Defined.

(** Texts are read from a table, base64 is the identity. *)
Definition admin_event : Event :=
  signed_by 7 (Nip98.http_auth (Nip98.request_new (Url.mk (mkUrl Http "relay.example/" eq_refl)) Nip98.Post)).

Definition rpc_json (r : Nip86.Request) : Json :=
  JObj [("method", JStr (Nip86.method r)); ("params", JArr (Nip86.params r))].

#[local] Instance sample_base64 : Base64 := {|
  base64_encode := String.string_of_list_byte;
  base64_decode s := Ok (as_bytes s);
|}.
#[local] Instance sample_text : JsonText := {|
  json_from_slice b :=
    if bool_decide (b = as_bytes "auth") then Ok (EventJson.serialize admin_event)
    else if bool_decide (b = as_bytes "ban") then
      Ok (rpc_json (Nip86.pubkey_request Nip86.BanPubkey bob None))
    else if bool_decide (b = as_bytes "allow") then
      Ok (rpc_json (Nip86.pubkey_request Nip86.AllowPubkey bob None))
    else Err "expected value";
  de_error_text _ := "malformed";
|}.

Definition admin_post (text : string) : HttpRequest :=
  mkHttp "/" [("host", "relay.example"); ("content-type", Nip86.CONTENT_TYPE); ("authorization", "Nostr auth")]
    (as_bytes text).

