(* ===== verification/Entities.v ===== *)
(** * Shareable identifiers

    Secret keys ([key/secret_key.rs]), the type-length-value records, entities
    and bech32 strings of NIP-19 ([nips/nip19]) and the [nostr:] addresses of
    NIP-21 ([nips/nip21.rs]). *)

From S2P Require Import Prelude Encoding Text Ids Tags Event Nips.
From Stdlib Require Import Ascii NArith Lia.

(** ** Secret keys *)

(** [secp256k1::SecretKey::from_byte_array]: whether 32 bytes are a scalar
    between 1 and the order of the curve. *)
Class SecretScalar := { scalar_valid : bytes32 → bool }.

Module SecretKey.

Record t := mk { secret_bytes : bytes32 }.

(** The failures of construction; [Rng] is that of the operating system's
    entropy source, whose text is opaque. *)
Inductive Error :=
| Hex (e : Hex.HexError)
| InvalidLength (len : nat)
| InvalidScalar
| Rng (e : string).

#[global] Instance t_eq_dec : EqDecision t.
Proof. solve_decision. Defined.

Definition to_byte_array (sk : t) : list byte := b32_list (secret_bytes sk).

Section parse.
Context `{FasterHex, SecretScalar}.

Definition from_byte_array (bytes : bytes32) : result t Error :=
  if scalar_valid bytes then Ok (mk bytes) else Err InvalidScalar.

Definition from_slice (bytes : list byte) : result t Error :=
  match try_into32 bytes with
  | Some array => from_byte_array array
  | None => Err (InvalidLength (length bytes))
  end.

Definition parse (input : string) : result t Error :=
  let? bytes := map_err Hex (Hex.decode (as_bytes input)) in
  from_slice bytes.

(** [generate], with the outcome of the entropy source as an argument. *)
Definition generate (random : result bytes32 string) : result t Error :=
  let? bytes := map_err Rng random in
  from_byte_array bytes.

Definition to_hex (sk : t) : string := Hex.encode (to_byte_array sk).

Definition valid (sk : t) : Prop := scalar_valid (secret_bytes sk) = true.

Lemma sk_from_slice sk : valid sk → from_slice (to_byte_array sk) = Ok sk.
Proof.
  intros Hv. unfold from_slice, to_byte_array. rewrite try_into32_list. unfold from_byte_array.
  rewrite Hv. by destruct sk.
Qed.

Lemma sk_from_slice_valid bs sk : from_slice bs = Ok sk → valid sk.
Proof.
  unfold from_slice, from_byte_array. destruct (try_into32 bs) as [a|]; [|done].
  destruct (scalar_valid a) eqn:E; [|done]. by intros [= <-].
Qed.
End parse.

End SecretKey.
Abbreviation SecretKey := SecretKey.t.

(** ** Type-length-value records ([nip19/tlv.rs]) *)

Module Tlv.

Definition SPECIAL : byte := x00.
Definition RELAY : byte := x01.
Definition AUTHOR : byte := x02.
Definition KIND : byte := x03.

Inductive TlvError :=
| ValueTooLong (len : nat)
| TruncatedHeader (offset : nat)
| TruncatedValue (offset expected available : nat).

(** A [Record]: its tag and its value. *)
Record record := mkRecord { tag : byte; value : list byte }.

Fixpoint encode (records : list (byte * list byte)) : result (list byte) TlvError :=
  match records with
  | [] => Ok []
  | (t, v) :: rest =>
      if (255 <? length v)%nat then Err (ValueTooLong (length v))
      else let? out := encode rest in
           Ok (t :: byte_of_N (N.of_nat (length v)) :: v ++ out)
  end.

Record RecordIter := mkIter { bytes : list byte; cursor : nat; finished : bool }.

Definition iter (bs : list byte) : RecordIter := mkIter bs 0 false.

Definition fuse (it : RecordIter) : RecordIter := mkIter (bytes it) (cursor it) true.

(** [Iterator::next]. *)
Definition next (it : RecordIter) : option (result record TlvError) * RecordIter :=
  if finished it then (None, it)
  else
    let offset := cursor it in
    if (length (bytes it) <? offset)%nat then (None, it)
    else match drop offset (bytes it) with
         | [] => (None, it)
         | [_] => (Some (Err (TruncatedHeader offset)), fuse it)
         | t :: len_byte :: value_buf =>
             let len := N.to_nat (Byte.to_N len_byte) in
             if (length value_buf <? len)%nat then
               (Some (Err (TruncatedValue (offset + 2) len (length value_buf))), fuse it)
             else (Some (Ok (mkRecord t (take len value_buf))),
                   mkIter (bytes it) (offset + 2 + len) false)
         end.

(** The items a [for] loop draws from the iterator, and the iterator after it. *)
Fixpoint drain (fuel : nat) (it : RecordIter) : list (result record TlvError) * RecordIter :=
  match fuel with
  | O => ([], it)
  | S fuel =>
      match next it with
      | (None, it) => ([], it)
      | (Some item, it) => let '(items, it) := drain fuel it in (item :: items, it)
      end
  end.

Definition records (bs : list byte) : list (result record TlvError) :=
  (drain (S (length bs)) (iter bs)).1.

(** A [for record in tlv::iter(data) { let record = record?; .. }] loop that
    folds [body] over the records and stops at the first error. *)
Fixpoint for_records {S E} (lift : TlvError → E) (body : S → record → result S E)
    (items : list (result record TlvError)) (s : S) : result S E :=
  match items with
  | [] => Ok s
  | item :: rest =>
      let? r := map_err lift item in
      let? s := body s r in
      for_records lift body rest s
  end.

(** *** The iterator terminates and reads what [encode] wrote *)

Lemma drain_end fuel it :
  (length (bytes it) - cursor it < fuel)%nat → (next (drain fuel it).2).1 = None.
Proof.
  revert it. induction fuel as [|fuel IH]; intros it Hf; [lia|]. cbn [drain].
  destruct (next it) as [[item|] it'] eqn:E.
  2:{ cbn [snd]. unfold next in E. repeat case_match; simplify_eq/=; unfold next; by repeat case_match. }
  destruct (drain fuel it') as [items it''] eqn:Ed. cbn [snd].
  assert ((next (drain fuel it').2).1 = None) as Hn; [|by rewrite Ed in Hn].
  unfold next in E. destruct (finished it) eqn:Hfin; [done|].
  destruct (Nat.ltb_spec (length (bytes it)) (cursor it)); [done|].
  destruct (drop (cursor it) (bytes it)) as [|a [|b rest]] eqn:Hd; [done|..].
  - simplify_eq. destruct fuel; by cbn [drain fuse next finished fst snd].
  - assert (length (bytes it) - cursor it = S (S (length rest)))%nat as Hlen
      by (rewrite <-length_drop, Hd; done).
    case_match; simplify_eq.
    + destruct fuel; by cbn [drain fuse next finished fst snd].
    + apply IH. simpl. lia.
Qed.

(** Every record takes two bytes at least, so the loop never runs out of fuel. *)
Lemma iter_exhausted bs : (next (drain (S (length bs)) (iter bs)).2).1 = None.
Proof. apply drain_end. simpl. lia. Qed.

Lemma drain_encode recs : ∀ out pre fuel,
  encode recs = Ok out → (length out < fuel)%nat →
  (drain fuel (mkIter (pre ++ out) (length pre) false)).1
    = (λ '(t, v), Ok (mkRecord t v)) <$> recs.
Proof.
  induction recs as [|[t v] recs IH]; intros out pre fuel Henc Hfuel; destruct fuel as [|fuel]; try lia.
  - simplify_eq/=. unfold next. simpl. rewrite app_nil_r, drop_all.
    by repeat case_match.
  - cbn [encode] in Henc. destruct (Nat.ltb_spec 255 (length v)) as [|Hv]; [done|].
    destruct (encode recs) as [out'|] eqn:E; [|done]. simplify_eq/=.
    unfold next at 1. cbn [finished cursor bytes]. rewrite drop_app_length.
    destruct (Nat.ltb_spec (length (pre ++ t :: byte_of_N (N.of_nat (length v)) :: v ++ out'))
      (length pre)) as [Hl|_].
    { rewrite length_app in Hl. lia. }
    assert (N.to_nat (Byte.to_N (byte_of_N (N.of_nat (length v)))) = length v) as Hn.
    { rewrite to_N_byte_of_N, N.mod_small by lia. lia. }
    rewrite Hn. destruct (Nat.ltb_spec (length (v ++ out')) (length v)) as [Hl|_].
    { rewrite length_app in Hl. lia. }
    rewrite take_app_length.
    replace (mkIter _ _ _) with (mkIter ((pre ++ [t; byte_of_N (N.of_nat (length v))] ++ v) ++ out')
      (length (pre ++ [t; byte_of_N (N.of_nat (length v))] ++ v)) false).
    + specialize (IH out' (pre ++ [t; byte_of_N (N.of_nat (length v))] ++ v) fuel eq_refl).
      rewrite length_app in Hfuel. simpl in Hfuel.
      destruct (drain fuel _) as [items it]. simpl in *. rewrite IH by lia. done.
    + f_equal; [by rewrite <-app_assoc|]. rewrite !length_app. simpl. lia.
Qed.

Lemma records_encode recs out :
  encode recs = Ok out → records out = (λ '(t, v), Ok (mkRecord t v)) <$> recs.
Proof.
  intros H. unfold records, iter. by apply (drain_encode recs out [] (S (length out)) H (Nat.lt_succ_diag_r _)).
Qed.

(** [encode] succeeds exactly when every value fits its length byte. *)
Lemma encode_Ok recs :
  (∃ out, encode recs = Ok out) ↔ Forall (λ r, length r.2 ≤ 255)%nat recs.
Proof.
  induction recs as [|[t v] recs IH]; [split; [constructor|by exists []]|].
  cbn [encode]. destruct (Nat.ltb_spec 255 (length v)) as [Hv|Hv].
  - split; [by intros []|]. intros [? ?]%Forall_cons. simpl in *. lia.
  - rewrite Forall_cons, <-IH. split.
    + intros [out H]. destruct (encode recs); [|done]. split; [done|by eexists].
    + intros [_ [out ->]]. by eexists.
Qed.

(** It fails with the length of the first value that does not fit. *)
Definition too_long (v : list byte) : Prop := (255 < length v)%nat.
#[global] Instance too_long_dec v : Decision (too_long v).
Proof. unfold too_long. apply _. Defined.

Lemma encode_Err recs e :
  encode recs = Err e ↔
  ∃ v, head (filter too_long recs.*2) = Some v ∧ e = ValueTooLong (length v).
Proof.
  induction recs as [|[t v] recs IH]; [split; [done|by intros (?&?&_)]|].
  cbn [encode fmap list_fmap]. rewrite filter_cons. unfold too_long at 1.
  destruct (Nat.ltb_spec 255 (length v)) as [Hv|Hv].
  - rewrite decide_True by done. simpl. split; [intros [= <-]; eauto|].
    by intros (? & [= <-] & ->).
  - rewrite decide_False by (unfold too_long; simpl; lia). rewrite <-IH. by destruct (encode recs).
Qed.

Lemma for_records_encoded {S E} (lift : TlvError → E) body recs (s : S) :
  for_records lift body ((λ '(t, v), Ok (mkRecord t v)) <$> recs) s
    = foldl (λ acc '(t, v), let? s := acc in body s (mkRecord t v)) (Ok s) recs.
Proof.
  revert s. induction recs as [|[t v] recs IH]; intros s; [done|]. simpl.
  destruct (body s (mkRecord t v)) as [s'|e]; simpl; [done|].
  clear. induction recs as [|[t v] recs IH]; [done|]. simpl. done.
Qed.

End Tlv.

(** ** NIP-19 entities *)

(** The [bech32] crate: its encoder for lower-case prefixes, and the checked
    decoder with the lower-cased prefix and the bytes it yields; the texts of
    their errors are opaque. *)
Class Bech32Crate := {
  bech32_encode : string → list byte → result string string;
  bech32_decode : string → result (string * list byte) string;
}.

(** A URL of the [url] crate prints as a Rust [str]. *)
Class UrlText `{UrlCrate} : Prop := url_utf8 : ∀ u, Utf8.is_str (url_as_str u).
Arguments UrlText : clear implicits.
Arguments UrlText {_}.

Module Nip19.

Definition NPUB : string := "npub".
Definition NSEC : string := "nsec".
Definition NOTE : string := "note".
Definition NPROFILE : string := "nprofile".
Definition NEVENT : string := "nevent".
Definition NADDR : string := "naddr".

Definition hrps : list string := [NPUB; NSEC; NOTE; NPROFILE; NEVENT; NADDR].

Definition MAX_NIP19_LENGTH : nat := 5000.

Inductive ToBech32Error :=
| Encode (e : string)
| ToTlv (e : Tlv.TlvError).

Inductive FromBech32Error :=
| TooLong (len max : nat)
| Decode (e : string)
| UnknownHrp (hrp : string)
| UnexpectedHrp (expected got : string)
| InvalidPayloadLength (expected got : nat)
| MissingTlv (tag : byte)
| InvalidKindLength (got : nat)
| KindOutOfRange (raw : N)
| InvalidRelayUtf8 (e : Utf8Error)
| Tlv (e : Tlv.TlvError)
| PublicKeyErr (e : PublicKey.Error)
| SecretKeyErr (e : SecretKey.Error)
| EventIdErr (e : EventId.Error)
| RelayUrlErr (e : RelayUrl.Error).

(** [ToBech32] and [FromBech32]. *)
Class ToBech32 (A : Type) := { to_bech32 : A → result string ToBech32Error }.
Class FromBech32 (A : Type) := { from_bech32 : string → result A FromBech32Error }.

Section nip19.
Context `{FasterHex, Secp256k1, SecretScalar, UrlCrate, Bech32Crate}.

Record Nip19Profile := mkProfile { public_key : PublicKey; p_relays : list RelayUrl }.

Record Nip19Event := mkEvent {
  event_id : EventId;
  author : option PublicKey;
  kind : option Kind;
  e_relays : list RelayUrl;
}.

Record Nip19Coordinate := mkCoordinate { coordinate : Coordinate; c_relays : list RelayUrl }.

(** The builders of [nip19/event.rs] and [nip19/coordinate.rs]. *)
Definition event_new (id : EventId) : Nip19Event := mkEvent id None None [].
Definition with_author (e : Nip19Event) (a : PublicKey) : Nip19Event :=
  mkEvent (event_id e) (Some a) (kind e) (e_relays e).
Definition with_kind (e : Nip19Event) (k : Kind) : Nip19Event :=
  mkEvent (event_id e) (author e) (Some k) (e_relays e).
Definition with_relays (e : Nip19Event) (rs : list RelayUrl) : Nip19Event :=
  mkEvent (event_id e) (author e) (kind e) (e_relays e ++ rs).
Definition coordinate_new (identifier : string) (a : PublicKey) (k : Kind) (rs : list RelayUrl) :
    Nip19Coordinate := mkCoordinate (Coordinate.mk k a identifier) rs.

Inductive Nip19Entity :=
| EPublicKey (pk : PublicKey)
| ESecretKey (sk : SecretKey)
| EEventId (id : EventId)
| EProfile (p : Nip19Profile)
| EEvent (e : Nip19Event)
| ECoordinate (c : Nip19Coordinate).

(** *** Encoding *)

Definition encode_raw (hrp : string) (data : list byte) : result string ToBech32Error :=
  map_err Encode (bech32_encode hrp data).

Definition relay_record (r : RelayUrl) : byte * list byte :=
  (Tlv.RELAY, as_bytes (RelayUrl.as_str r)).
Definition author_record (a : PublicKey) : byte * list byte :=
  (Tlv.AUTHOR, PublicKey.to_byte_array a).
Definition kind_record (k : Kind) : byte * list byte :=
  (Tlv.KIND, BigEndian.to_be_bytes 4 k).

Definition profile_records (p : Nip19Profile) : list (byte * list byte) :=
  (Tlv.SPECIAL, PublicKey.to_byte_array (public_key p)) :: (relay_record <$> p_relays p).

Definition event_records (e : Nip19Event) : list (byte * list byte) :=
  ((Tlv.SPECIAL, EventId.to_byte_array (event_id e)) :: (relay_record <$> e_relays e))
  ++ (author_record <$> option_list (author e)) ++ (kind_record <$> option_list (kind e)).

Definition coordinate_records (c : Nip19Coordinate) : list (byte * list byte) :=
  ((Tlv.SPECIAL, as_bytes (Coordinate.identifier (coordinate c))) :: (relay_record <$> c_relays c))
  ++ [author_record (Coordinate.author (coordinate c)); kind_record (Coordinate.kind (coordinate c))].

Definition encode_tlv (hrp : string) (recs : list (byte * list byte)) : result string ToBech32Error :=
  let? payload := map_err ToTlv (Tlv.encode recs) in
  encode_raw hrp payload.

#[global] Instance PublicKey_to : ToBech32 PublicKey :=
  {| to_bech32 pk := encode_raw NPUB (PublicKey.to_byte_array pk) |}.
#[global] Instance SecretKey_to : ToBech32 SecretKey :=
  {| to_bech32 sk := encode_raw NSEC (SecretKey.to_byte_array sk) |}.
#[global] Instance EventId_to : ToBech32 EventId :=
  {| to_bech32 id := encode_raw NOTE (EventId.to_byte_array id) |}.
#[global] Instance Nip19Profile_to : ToBech32 Nip19Profile :=
  {| to_bech32 p := encode_tlv NPROFILE (profile_records p) |}.
#[global] Instance Nip19Event_to : ToBech32 Nip19Event :=
  {| to_bech32 e := encode_tlv NEVENT (event_records e) |}.
#[global] Instance Nip19Coordinate_to : ToBech32 Nip19Coordinate :=
  {| to_bech32 c := encode_tlv NADDR (coordinate_records c) |}.
#[global] Instance Nip19Entity_to : ToBech32 Nip19Entity :=
  {| to_bech32 entity :=
       match entity with
       | EPublicKey pk => to_bech32 pk
       | ESecretKey sk => to_bech32 sk
       | EEventId id => to_bech32 id
       | EProfile p => to_bech32 p
       | EEvent e => to_bech32 e
       | ECoordinate c => to_bech32 c
       end |}.

(** *** Decoding *)

Definition decode_bech32 (s : string) : result (string * list byte) FromBech32Error :=
  if (MAX_NIP19_LENGTH <? String.length s)%nat then Err (TooLong (String.length s) MAX_NIP19_LENGTH)
  else map_err Decode (bech32_decode s).

Definition decode_with_hrp (s expected : string) : result (list byte) FromBech32Error :=
  let? ' (hrp, data) := decode_bech32 s in
  if decide (hrp ≠ expected) then Err (UnexpectedHrp expected hrp) else Ok data.

Definition expect_len (data : list byte) (expected : nat) : result unit FromBech32Error :=
  if decide (length data ≠ expected) then Err (InvalidPayloadLength expected (length data)) else Ok tt.

Definition decode_pubkey (data : list byte) : result PublicKey FromBech32Error :=
  let? _ := expect_len data 32 in map_err PublicKeyErr (PublicKey.from_slice data).
Definition decode_seckey (data : list byte) : result SecretKey FromBech32Error :=
  let? _ := expect_len data 32 in map_err SecretKeyErr (SecretKey.from_slice data).
Definition decode_event_id (data : list byte) : result EventId FromBech32Error :=
  let? _ := expect_len data 32 in map_err EventIdErr (EventId.from_slice data).

Definition decode_kind (value : list byte) : result Kind FromBech32Error :=
  if decide (length value = 4)%nat then
    let raw := BigEndian.from_be_bytes value in
    if (Dec.u16_max <? raw)%N then Err (KindOutOfRange raw) else Ok raw
  else Err (InvalidKindLength (length value)).

Definition parse_relay (value : list byte) : result RelayUrl FromBech32Error :=
  let? s := map_err InvalidRelayUtf8 (Utf8.from_utf8 value) in
  map_err RelayUrlErr (RelayUrl.parse s).

(** The local variables of the three decoding loops. *)
Record Fields (A : Type) := mkFields {
  special : option A;
  f_author : option PublicKey;
  f_kind : option Kind;
  f_relays : list RelayUrl;
}.
Arguments mkFields {_}. Arguments special {_}. Arguments f_author {_}.
Arguments f_kind {_}. Arguments f_relays {_}.

Definition no_fields {A} : Fields A := mkFields None None None [].

Definition profile_step (st : Fields PublicKey) (r : Tlv.record) :
    result (Fields PublicKey) FromBech32Error :=
  let v := Tlv.value r in
  if decide (Tlv.tag r = Tlv.SPECIAL) then
    let? pk := decode_pubkey v in Ok (mkFields (Some pk) (f_author st) (f_kind st) (f_relays st))
  else if decide (Tlv.tag r = Tlv.RELAY) then
    let? u := parse_relay v in
    Ok (mkFields (special st) (f_author st) (f_kind st) (f_relays st ++ [u]))
  else Ok st.

(** The step that [decode_nevent] and [decode_naddr] share but for [special]. *)
Definition hint_step {A} (decode : list byte → result A FromBech32Error) (st : Fields A)
    (r : Tlv.record) : result (Fields A) FromBech32Error :=
  let v := Tlv.value r in
  if decide (Tlv.tag r = Tlv.SPECIAL) then
    let? x := decode v in Ok (mkFields (Some x) (f_author st) (f_kind st) (f_relays st))
  else if decide (Tlv.tag r = Tlv.RELAY) then
    let? u := parse_relay v in
    Ok (mkFields (special st) (f_author st) (f_kind st) (f_relays st ++ [u]))
  else if decide (Tlv.tag r = Tlv.AUTHOR) then
    let? a := decode_pubkey v in Ok (mkFields (special st) (Some a) (f_kind st) (f_relays st))
  else if decide (Tlv.tag r = Tlv.KIND) then
    let? k := decode_kind v in Ok (mkFields (special st) (f_author st) (Some k) (f_relays st))
  else Ok st.

Definition decode_profile (data : list byte) : result Nip19Profile FromBech32Error :=
  let? st := Tlv.for_records Tlv profile_step (Tlv.records data) no_fields in
  let? pk := ok_or (special st) (MissingTlv Tlv.SPECIAL) in
  Ok (mkProfile pk (f_relays st)).

Definition decode_nevent (data : list byte) : result Nip19Event FromBech32Error :=
  let? st := Tlv.for_records Tlv (hint_step decode_event_id) (Tlv.records data) no_fields in
  let? id := ok_or (special st) (MissingTlv Tlv.SPECIAL) in
  Ok (mkEvent id (f_author st) (f_kind st) (f_relays st)).

Definition decode_identifier (value : list byte) : result string FromBech32Error :=
  map_err InvalidRelayUtf8 (Utf8.from_utf8 value).

Definition decode_naddr (data : list byte) : result Nip19Coordinate FromBech32Error :=
  let? st := Tlv.for_records Tlv (hint_step decode_identifier) (Tlv.records data) no_fields in
  let? identifier := ok_or (special st) (MissingTlv Tlv.SPECIAL) in
  let? a := ok_or (f_author st) (MissingTlv Tlv.AUTHOR) in
  let? k := ok_or (f_kind st) (MissingTlv Tlv.KIND) in
  Ok (mkCoordinate (Coordinate.mk k a identifier) (f_relays st)).

#[global] Instance PublicKey_from : FromBech32 PublicKey :=
  {| from_bech32 s := let? data := decode_with_hrp s NPUB in decode_pubkey data |}.
#[global] Instance SecretKey_from : FromBech32 SecretKey :=
  {| from_bech32 s := let? data := decode_with_hrp s NSEC in decode_seckey data |}.
#[global] Instance EventId_from : FromBech32 EventId :=
  {| from_bech32 s := let? data := decode_with_hrp s NOTE in decode_event_id data |}.
#[global] Instance Nip19Profile_from : FromBech32 Nip19Profile :=
  {| from_bech32 s := let? data := decode_with_hrp s NPROFILE in decode_profile data |}.
#[global] Instance Nip19Event_from : FromBech32 Nip19Event :=
  {| from_bech32 s := let? data := decode_with_hrp s NEVENT in decode_nevent data |}.
#[global] Instance Nip19Coordinate_from : FromBech32 Nip19Coordinate :=
  {| from_bech32 s := let? data := decode_with_hrp s NADDR in decode_naddr data |}.

(** The dispatch on the prefix in [Nip19Entity::from_bech32]. *)
Definition decode_entity (hrp : string) (data : list byte) : result Nip19Entity FromBech32Error :=
  if decide (hrp = NPUB) then let? x := decode_pubkey data in Ok (EPublicKey x)
  else if decide (hrp = NSEC) then let? x := decode_seckey data in Ok (ESecretKey x)
  else if decide (hrp = NOTE) then let? x := decode_event_id data in Ok (EEventId x)
  else if decide (hrp = NPROFILE) then let? x := decode_profile data in Ok (EProfile x)
  else if decide (hrp = NEVENT) then let? x := decode_nevent data in Ok (EEvent x)
  else if decide (hrp = NADDR) then let? x := decode_naddr data in Ok (ECoordinate x)
  else Err (UnknownHrp hrp).

#[global] Instance Nip19Entity_from : FromBech32 Nip19Entity :=
  {| from_bech32 s := let? ' (hrp, data) := decode_bech32 s in decode_entity hrp data |}.

(** *** Well-formed entities: what the constructors of the parts guarantee *)

Definition entity_ok (entity : Nip19Entity) : Prop :=
  match entity with
  | EPublicKey pk => PublicKey.valid pk
  | ESecretKey sk => SecretKey.valid sk
  | EEventId _ => True
  | EProfile p => PublicKey.valid (public_key p) ∧ Forall RelayUrl.normal (p_relays p)
  | EEvent e =>
      (∀ a, author e = Some a → PublicKey.valid a)
      ∧ (∀ k, kind e = Some k → (k <= Dec.u16_max)%N) ∧ Forall RelayUrl.normal (e_relays e)
  | ECoordinate c =>
      Utf8.is_str (Coordinate.identifier (coordinate c))
      ∧ PublicKey.valid (Coordinate.author (coordinate c))
      ∧ (Coordinate.kind (coordinate c) <= Dec.u16_max)%N ∧ Forall RelayUrl.normal (c_relays c)
  end.

Definition hrp_of (entity : Nip19Entity) : string :=
  match entity with
  | EPublicKey _ => NPUB | ESecretKey _ => NSEC | EEventId _ => NOTE
  | EProfile _ => NPROFILE | EEvent _ => NEVENT | ECoordinate _ => NADDR
  end.

(** The payload that is encoded under the prefix. *)
Definition payload_of (entity : Nip19Entity) : result (list byte) Tlv.TlvError :=
  match entity with
  | EPublicKey pk => Ok (PublicKey.to_byte_array pk)
  | ESecretKey sk => Ok (SecretKey.to_byte_array sk)
  | EEventId id => Ok (EventId.to_byte_array id)
  | EProfile p => Tlv.encode (profile_records p)
  | EEvent e => Tlv.encode (event_records e)
  | ECoordinate c => Tlv.encode (coordinate_records c)
  end.

(** The values whose length the caller chooses, in the order they are written. *)
Definition text_values (entity : Nip19Entity) : list (list byte) :=
  let urls rs := (λ r, as_bytes (RelayUrl.as_str r)) <$> rs in
  match entity with
  | EPublicKey _ | ESecretKey _ | EEventId _ => []
  | EProfile p => urls (p_relays p)
  | EEvent e => urls (e_relays e)
  | ECoordinate c => as_bytes (Coordinate.identifier (coordinate c)) :: urls (c_relays c)
  end.

Lemma relay_record_values rs :
  (relay_record <$> rs).*2 = (λ r, as_bytes (RelayUrl.as_str r)) <$> rs.
Proof. by rewrite <-list_fmap_compose. Qed.

Lemma fixed_value (t : byte) (v : list byte) (rest : list (byte * list byte)) :
  (length v ≤ 255)%nat → filter Tlv.too_long (((t, v) :: rest).*2) = filter Tlv.too_long rest.*2.
Proof. intros Hv. cbn [fmap list_fmap]. rewrite filter_cons, decide_False; [done|unfold Tlv.too_long; simpl; lia]. Qed.

Lemma payload_Err entity e :
  payload_of entity = Err e ↔
  ∃ v, head (filter Tlv.too_long (text_values entity)) = Some v ∧ e = Tlv.ValueTooLong (length v).
Proof.
  assert (∀ pk, length (PublicKey.to_byte_array pk) ≤ 255)%nat as Hpk
    by (intros pk; rewrite PublicKey.pk_length_to_byte_array; lia).
  assert (∀ k, length (BigEndian.to_be_bytes 4 k) ≤ 255)%nat as Hbe
    by (intros k; rewrite BigEndian.length_to_be_bytes; lia).
  destruct entity; cbn [payload_of text_values].
  1-3: split; [done|by intros (?&?&_)].
  - rewrite Tlv.encode_Err. unfold profile_records.
    by rewrite fixed_value, relay_record_values by apply Hpk.
  - rewrite Tlv.encode_Err. unfold event_records. rewrite <-app_comm_cons.
    rewrite fixed_value by (rewrite EventId.length_to_byte_array; lia).
    rewrite !fmap_app, !filter_app, relay_record_values.
    assert (filter Tlv.too_long (author_record <$> option_list (author e0)).*2 = []) as ->.
    { destruct (author e0); [|done]. apply (fixed_value _ _ [] (Hpk _)). }
    assert (filter Tlv.too_long (kind_record <$> option_list (kind e0)).*2 = []) as ->.
    { destruct (kind e0); [|done]. apply (fixed_value _ _ [] (Hbe _)). }
    by rewrite !app_nil_r.
  - rewrite Tlv.encode_Err. unfold coordinate_records. rewrite fmap_app, filter_app.
    unfold author_record, kind_record. rewrite (fixed_value _ _ _ (Hpk _)), (fixed_value _ _ _ (Hbe _)).
    cbn [fmap list_fmap]. rewrite relay_record_values, app_nil_r. done.
Qed.

Lemma to_bech32_payload entity :
  to_bech32 entity = let? payload := map_err ToTlv (payload_of entity) in
                     encode_raw (hrp_of entity) payload.
Proof. by destruct entity. Qed.

(** *** What the decoders accept is well formed *)

Lemma decode_pubkey_valid data pk : decode_pubkey data = Ok pk → PublicKey.valid pk.
Proof.
  unfold decode_pubkey. destruct (expect_len data 32); simpl; [|done].
  unfold PublicKey.from_slice, PublicKey.from_byte_array.
  destruct (try_into32 data) as [b|]; simpl; [|done].
  destruct (xonly_valid b) eqn:E; simpl; [|done]. by intros [= <-].
Qed.

Lemma decode_seckey_valid data sk : decode_seckey data = Ok sk → SecretKey.valid sk.
Proof.
  unfold decode_seckey. destruct (expect_len data 32); simpl; [|done].
  destruct (SecretKey.from_slice data) eqn:E; simpl; [|done]. intros [= <-].
  by eapply SecretKey.sk_from_slice_valid.
Qed.

Lemma decode_kind_range value k : decode_kind value = Ok k → (k <= Dec.u16_max)%N.
Proof.
  unfold decode_kind. case_decide; [|done].
  destruct (N.ltb_spec Dec.u16_max (BigEndian.from_be_bytes value)); [done|]. by intros [= <-].
Qed.

Context `{!UrlCrateLaws, !UrlText}.

Lemma parse_relay_normal value u : parse_relay value = Ok u → RelayUrl.normal u.
Proof.
  unfold parse_relay. destruct (Utf8.from_utf8 value); simpl; [|done].
  destruct (RelayUrl.parse _) eqn:E; simpl; [|done]. intros [= <-].
  by eapply RelayUrl.parse_normal.
Qed.

(** The loop state: what it holds passed the checks. *)
Definition fields_ok {A} (P : A → Prop) (st : Fields A) : Prop :=
  (∀ x, special st = Some x → P x) ∧ (∀ a, f_author st = Some a → PublicKey.valid a)
  ∧ (∀ k, f_kind st = Some k → (k <= Dec.u16_max)%N) ∧ Forall RelayUrl.normal (f_relays st).

Lemma hint_step_ok {A} (decode : list byte → result A FromBech32Error) (P : A → Prop) st r st' :
  (∀ v x, decode v = Ok x → P x) →
  fields_ok P st → hint_step decode st r = Ok st' → fields_ok P st'.
Proof.
  intros HP (Hs & Ha & Hk & Hr). unfold hint_step. repeat case_decide.
  - destruct (decode _) eqn:E; simpl; [|done]. intros [= <-].
    split_and!; simpl; try done. intros ? [= <-]. by eapply HP.
  - destruct (parse_relay _) eqn:E; simpl; [|done]. intros [= <-].
    split_and!; simpl; try done. apply Forall_app. split; [done|].
    apply Forall_singleton. by eapply parse_relay_normal.
  - destruct (decode_pubkey _) eqn:E; simpl; [|done]. intros [= <-].
    split_and!; simpl; try done. intros ? [= <-]. by eapply decode_pubkey_valid.
  - destruct (decode_kind _) eqn:E; simpl; [|done]. intros [= <-].
    split_and!; simpl; try done. intros ? [= <-]. by eapply decode_kind_range.
  - by intros [= <-].
Qed.

(** A profile is read like the other two with its author and kind ignored. *)
Lemma profile_step_ok st r st' :
  fields_ok PublicKey.valid st → profile_step st r = Ok st' → fields_ok PublicKey.valid st'.
Proof.
  intros Hst. unfold profile_step. repeat case_decide; [..|by intros [= <-]];
    intros Hs; apply (hint_step_ok decode_pubkey PublicKey.valid st r);
    eauto using decode_pubkey_valid; unfold hint_step; by repeat case_decide.
Qed.

Lemma for_records_ok {A} (P : A → Prop) body items st st' :
  (∀ st r st', fields_ok P st → body st r = Ok st' → fields_ok P st') →
  fields_ok P st → Tlv.for_records Tlv body items st = Ok st' → fields_ok P st'.
Proof.
  intros Hb. revert st. induction items as [|item items IH]; intros st Hst; simpl.
  - by intros [= <-].
  - destruct item as [r|]; simpl; [|done]. destruct (body st r) eqn:E; simpl; [|done]. eauto.
Qed.

Lemma no_fields_ok {A} (P : A → Prop) : fields_ok P no_fields.
Proof. split_and!; try done; constructor. Qed.

Lemma decode_entity_ok hrp data entity : decode_entity hrp data = Ok entity → entity_ok entity.
Proof.
  unfold decode_entity. repeat case_decide; [..|done].
  - destruct (decode_pubkey data) eqn:E; simpl; [|done]. intros [= <-]. by eapply decode_pubkey_valid.
  - destruct (decode_seckey data) eqn:E; simpl; [|done]. intros [= <-]. by eapply decode_seckey_valid.
  - destruct (decode_event_id data) eqn:E; simpl; [|done]. by intros [= <-].
  - unfold decode_profile. destruct (Tlv.for_records _ _ _ _) as [st|] eqn:E; simpl; [|done].
    apply (for_records_ok PublicKey.valid) in E as (Hs & _ & _ & Hr);
      [|apply profile_step_ok|apply no_fields_ok].
    destruct (special st) as [pk|]; simpl; [|done]. intros [= <-]. split; [by apply Hs|done].
  - unfold decode_nevent. destruct (Tlv.for_records _ _ _ _) as [st|] eqn:E; simpl; [|done].
    apply (for_records_ok (λ _, True)) in E as (_ & Ha & Hk & Hr);
      [|by intros ???; apply hint_step_ok|apply no_fields_ok].
    destruct (special st); simpl; [|done]. intros [= <-]. by split_and!.
  - unfold decode_naddr. destruct (Tlv.for_records _ _ _ _) as [st|] eqn:E; simpl; [|done].
    apply (for_records_ok Utf8.is_str) in E as (Hs & Ha & Hk & Hr); [|..|apply no_fields_ok].
    2:{ intros ???. apply hint_step_ok. intros v x. unfold decode_identifier.
        destruct (Utf8.from_utf8 v) eqn:Ev; simpl; [|done]. intros [= <-].
        by apply Utf8.from_utf8_Ok in Ev as [? _]. }
    destruct (special st), (f_author st), (f_kind st); simpl; try done. intros [= <-].
    split_and!; simpl; auto.
Qed.

(** *** Reading back what was written *)

Lemma expect_len_ok data n : length data = n → expect_len data n = Ok tt.
Proof. intros <-. unfold expect_len. by case_decide. Qed.

Lemma decode_pubkey_bytes pk : PublicKey.valid pk → decode_pubkey (PublicKey.to_byte_array pk) = Ok pk.
Proof.
  intros Hv. unfold decode_pubkey. rewrite expect_len_ok by apply PublicKey.pk_length_to_byte_array.
  simpl. unfold PublicKey.from_slice, PublicKey.to_byte_array. rewrite try_into32_list.
  unfold PublicKey.from_byte_array. rewrite Hv. by destruct pk.
Qed.

Lemma decode_seckey_bytes sk : SecretKey.valid sk → decode_seckey (SecretKey.to_byte_array sk) = Ok sk.
Proof.
  intros Hv. unfold decode_seckey. rewrite expect_len_ok by apply length_b32.
  simpl. by rewrite SecretKey.sk_from_slice.
Qed.

Lemma decode_event_id_bytes id : decode_event_id (EventId.to_byte_array id) = Ok id.
Proof.
  unfold decode_event_id. rewrite expect_len_ok by apply EventId.length_to_byte_array.
  simpl. by rewrite EventId.from_slice_to_byte_array.
Qed.

Lemma decode_kind_bytes k : (k <= Dec.u16_max)%N → decode_kind (BigEndian.to_be_bytes 4 k) = Ok k.
Proof.
  intros Hk. unfold decode_kind. rewrite BigEndian.length_to_be_bytes, decide_True by done.
  unfold Dec.u16_max in *. rewrite BigEndian.from_to_be_bytes by (simpl; lia).
  by destruct (N.ltb_spec 65535 k); [lia|].
Qed.

Lemma parse_relay_bytes r : RelayUrl.normal r → parse_relay (as_bytes (RelayUrl.as_str r)) = Ok r.
Proof.
  intros Hn. unfold parse_relay. rewrite Utf8.from_utf8_as_bytes by apply url_utf8. simpl.
  by rewrite RelayUrl.parse_as_str.
Qed.

Lemma hint_step_relays {A} (decode : list byte → result A FromBech32Error) rs : ∀ st,
  Forall RelayUrl.normal rs →
  foldl (λ acc '(t, v), let? s := acc in hint_step decode s (Tlv.mkRecord t v)) (Ok st)
    (relay_record <$> rs)
  = Ok (mkFields (special st) (f_author st) (f_kind st) (f_relays st ++ rs)).
Proof.
  induction rs as [|r rs IH]; intros [sp a k l] Hf.
  - by rewrite app_nil_r.
  - apply Forall_cons in Hf as [Hr Hf]. cbn [fmap list_fmap foldl relay_record result_bind].
    unfold hint_step at 2. cbn [Tlv.tag Tlv.value].
    rewrite decide_False, decide_True, parse_relay_bytes by done. cbn [result_bind].
    rewrite IH by done. simpl. by rewrite <-app_assoc.
Qed.

Lemma hint_step_special {A} (decode : list byte → result A FromBech32Error) st v x :
  decode v = Ok x →
  hint_step decode st (Tlv.mkRecord Tlv.SPECIAL v)
  = Ok (mkFields (Some x) (f_author st) (f_kind st) (f_relays st)).
Proof. intros Hv. unfold hint_step. cbn [Tlv.tag Tlv.value]. rewrite decide_True by done. by rewrite Hv. Qed.

Lemma hint_step_author {A} (decode : list byte → result A FromBech32Error) st a :
  PublicKey.valid a →
  hint_step decode st (Tlv.mkRecord Tlv.AUTHOR (PublicKey.to_byte_array a))
  = Ok (mkFields (special st) (Some a) (f_kind st) (f_relays st)).
Proof.
  intros Hv. unfold hint_step. cbn [Tlv.tag Tlv.value].
  rewrite 2!decide_False, decide_True by done. by rewrite decode_pubkey_bytes.
Qed.

Lemma hint_step_kind {A} (decode : list byte → result A FromBech32Error) st k :
  (k <= Dec.u16_max)%N →
  hint_step decode st (Tlv.mkRecord Tlv.KIND (BigEndian.to_be_bytes 4 k))
  = Ok (mkFields (special st) (f_author st) (Some k) (f_relays st)).
Proof.
  intros Hv. unfold hint_step. cbn [Tlv.tag Tlv.value].
  rewrite 3!decide_False, decide_True by done. by rewrite decode_kind_bytes.
Qed.

Lemma profile_step_relays rs : ∀ st,
  Forall RelayUrl.normal rs →
  foldl (λ acc '(t, v), let? s := acc in profile_step s (Tlv.mkRecord t v)) (Ok st)
    (relay_record <$> rs)
  = Ok (mkFields (special st) (f_author st) (f_kind st) (f_relays st ++ rs)).
Proof.
  induction rs as [|r rs IH]; intros [sp a k l] Hf.
  - by rewrite app_nil_r.
  - apply Forall_cons in Hf as [Hr Hf]. cbn [fmap list_fmap foldl relay_record result_bind].
    unfold profile_step at 2. cbn [Tlv.tag Tlv.value].
    rewrite decide_False, decide_True, parse_relay_bytes by done. cbn [result_bind].
    rewrite IH by done. simpl. by rewrite <-app_assoc.
Qed.

Lemma decode_profile_encoded p out :
  entity_ok (EProfile p) → Tlv.encode (profile_records p) = Ok out → decode_profile out = Ok p.
Proof.
  intros [Hv Hr] He. unfold decode_profile.
  rewrite (Tlv.records_encode _ _ He), Tlv.for_records_encoded. cbn [profile_records foldl result_bind].
  unfold profile_step at 2. cbn [Tlv.tag Tlv.value].
  rewrite decide_True, decode_pubkey_bytes by done. cbn [result_bind].
  rewrite profile_step_relays by done. by destruct p.
Qed.

Lemma decode_nevent_encoded e out :
  entity_ok (EEvent e) → Tlv.encode (event_records e) = Ok out → decode_nevent out = Ok e.
Proof.
  intros (Ha & Hk & Hr) He. unfold decode_nevent.
  rewrite (Tlv.records_encode _ _ He), Tlv.for_records_encoded. unfold event_records.
  rewrite foldl_app. cbn [foldl result_bind].
  rewrite (hint_step_special _ _ _ (event_id e)) by apply decode_event_id_bytes.
  rewrite hint_step_relays by done. rewrite foldl_app.
  unfold option_list. destruct e as [id [a|] [k|] rs];
    cbn [author kind option_rect fmap list_fmap foldl author_record kind_record result_bind];
    rewrite ?hint_step_author by auto; cbn [result_bind];
    rewrite ?hint_step_kind by auto; done.
Qed.

Lemma decode_naddr_encoded c out :
  entity_ok (ECoordinate c) → Tlv.encode (coordinate_records c) = Ok out → decode_naddr out = Ok c.
Proof.
  intros (Hi & Ha & Hk & Hr) He. unfold decode_naddr.
  rewrite (Tlv.records_encode _ _ He), Tlv.for_records_encoded. unfold coordinate_records.
  rewrite foldl_app. cbn [foldl result_bind].
  rewrite (hint_step_special _ _ _ (Coordinate.identifier (coordinate c)))
    by (unfold decode_identifier; by rewrite Utf8.from_utf8_as_bytes).
  rewrite hint_step_relays by done. destruct c as [[k a i] rs].
  cbn [foldl author_record kind_record result_bind coordinate Coordinate.author Coordinate.kind] in *.
  rewrite hint_step_author by done. cbn [result_bind]. by rewrite hint_step_kind.
Qed.

Lemma decode_entity_payload entity payload :
  entity_ok entity → payload_of entity = Ok payload →
  decode_entity (hrp_of entity) payload = Ok entity.
Proof.
  destruct entity; intros Hok Hp; cbn [payload_of] in Hp; unfold decode_entity; cbn [hrp_of];
    rewrite ?decide_False, ?decide_True by done; simplify_eq.
  - by rewrite decode_pubkey_bytes.
  - by rewrite decode_seckey_bytes.
  - by rewrite decode_event_id_bytes.
  - by rewrite (decode_profile_encoded _ _ Hok Hp).
  - by rewrite (decode_nevent_encoded _ _ Hok Hp).
  - by rewrite (decode_naddr_encoded _ _ Hok Hp).
Qed.
End nip19.

End Nip19.

(** The encoder writes the prefix, the separator and then the data, refuses what
    exceeds the 1023 characters of the code, and the decoder reads it back. *)
Class Bech32Laws `{Bech32Crate} : Prop := {
  bech32_prefix : ∀ hrp data s, bech32_encode hrp data = Ok s → ∃ r, s = hrp +:+ String "1"%char r;
  bech32_length : ∀ hrp data s, bech32_encode hrp data = Ok s → String.length s ≤ 1023;
  bech32_decode_encode : ∀ hrp data s,
    hrp ∈ Nip19.hrps → bech32_encode hrp data = Ok s → bech32_decode s = Ok (hrp, data);
}.
Arguments Bech32Laws : clear implicits.
Arguments Bech32Laws {_}.

(** ** NIP-21 addresses *)

Module Nip21.
Import Nip19.

Definition SCHEME : string := "nostr".
Definition SCHEME_PREFIX : string := "nostr:".

Inductive Nip21Error :=
| InvalidUri
| SecretKeyRefused
| Decode (e : FromBech32Error)
| Encode (e : ToBech32Error).

(** [ToNostrUri] and [FromNostrUri]. *)
Class ToNostrUri (A : Type) := { to_nostr_uri : A → result string Nip21Error }.
Class FromNostrUri (A : Type) := { from_nostr_uri : string → result A Nip21Error }.

Definition strip_scheme (uri : string) : option string :=
  match Text.strip_prefix SCHEME_PREFIX uri with
  | Some EmptyString | None => None
  | Some body => Some body
  end.

(** The two macros: an address through [ToBech32] or [FromBech32]. *)
Definition uri_via_bech32 {A} `{ToBech32 A} (x : A) : result string Nip21Error :=
  let? body := map_err Encode (to_bech32 x) in Ok (SCHEME_PREFIX +:+ body).
Definition via_bech32 {A} `{FromBech32 A} (uri : string) : result A Nip21Error :=
  let? body := ok_or (strip_scheme uri) InvalidUri in map_err Decode (from_bech32 body).

Section nip21.
Context `{FasterHex, Secp256k1, SecretScalar, UrlCrate, Bech32Crate}.

Inductive Nip21 :=
| Pubkey (pk : PublicKey)
| EventIdUri (id : EventId)
| Profile (p : Nip19Profile)
| EventUri (e : Nip19Event)
| CoordinateUri (c : Nip19Coordinate).

(** [From<Nip21> for Nip19Entity] and [TryFrom<Nip19Entity> for Nip21]. *)
Definition to_entity (v : Nip21) : Nip19Entity :=
  match v with
  | Pubkey pk => EPublicKey pk
  | EventIdUri id => EEventId id
  | Profile p => EProfile p
  | EventUri e => EEvent e
  | CoordinateUri c => ECoordinate c
  end.

Definition try_from (entity : Nip19Entity) : result Nip21 Nip21Error :=
  match entity with
  | ESecretKey _ => Err SecretKeyRefused
  | EPublicKey pk => Ok (Pubkey pk)
  | EEventId id => Ok (EventIdUri id)
  | EProfile p => Ok (Profile p)
  | EEvent e => Ok (EventUri e)
  | ECoordinate c => Ok (CoordinateUri c)
  end.

Definition parse (uri : string) : result Nip21 Nip21Error :=
  let? body := ok_or (strip_scheme uri) InvalidUri in
  let? entity := map_err Decode (from_bech32 body) in
  try_from entity.

Definition to_bech32_body (v : Nip21) : result string Nip21Error :=
  map_err Encode
    match v with
    | Pubkey pk => to_bech32 pk
    | EventIdUri id => to_bech32 id
    | Profile p => to_bech32 p
    | EventUri e => to_bech32 e
    | CoordinateUri c => to_bech32 c
    end.

Definition nip21_uri (v : Nip21) : result string Nip21Error :=
  let? body := to_bech32_body v in Ok (SCHEME_PREFIX +:+ body).

Definition uri_event_id (v : Nip21) : option EventId :=
  match v with EventIdUri id => Some id | EventUri e => Some (event_id e) | _ => None end.
Definition uri_pubkey (v : Nip21) : option PublicKey :=
  match v with
  | Pubkey pk => Some pk
  | Profile p => Some (public_key p)
  | CoordinateUri c => Some (Coordinate.author (coordinate c))
  | EventIdUri _ | EventUri _ => None
  end.

#[global] Instance PublicKey_to_uri : ToNostrUri PublicKey := {| to_nostr_uri := uri_via_bech32 |}.
#[global] Instance EventId_to_uri : ToNostrUri EventId := {| to_nostr_uri := uri_via_bech32 |}.
#[global] Instance Profile_to_uri : ToNostrUri Nip19Profile := {| to_nostr_uri := uri_via_bech32 |}.
#[global] Instance Event_to_uri : ToNostrUri Nip19Event := {| to_nostr_uri := uri_via_bech32 |}.
#[global] Instance Coordinate_to_uri : ToNostrUri Nip19Coordinate := {| to_nostr_uri := uri_via_bech32 |}.
#[global] Instance Nip21_to_uri : ToNostrUri Nip21 := {| to_nostr_uri := nip21_uri |}.
#[global] Instance PublicKey_from_uri : FromNostrUri PublicKey := {| from_nostr_uri := via_bech32 |}.
#[global] Instance EventId_from_uri : FromNostrUri EventId := {| from_nostr_uri := via_bech32 |}.
#[global] Instance Profile_from_uri : FromNostrUri Nip19Profile := {| from_nostr_uri := via_bech32 |}.
#[global] Instance Event_from_uri : FromNostrUri Nip19Event := {| from_nostr_uri := via_bech32 |}.
#[global] Instance Coordinate_from_uri : FromNostrUri Nip19Coordinate := {| from_nostr_uri := via_bech32 |}.
#[global] Instance Nip21_from_uri : FromNostrUri Nip21 := {| from_nostr_uri := parse |}.

Lemma to_bech32_body_entity v : to_bech32_body v = map_err Encode (to_bech32 (to_entity v)).
Proof. by destruct v. Qed.

Lemma try_from_to_entity v : try_from (to_entity v) = Ok v.
Proof. by destruct v. Qed.

Lemma strip_scheme_app c s : strip_scheme (SCHEME_PREFIX +:+ String c s) = Some (String c s).
Proof. unfold strip_scheme. by rewrite Text.strip_prefix_app. Qed.
End nip21.

End Nip21.

(** ** Decoding what was encoded *)

Section round_trip.
Context `{FasterHex, Secp256k1, SecretScalar, UrlCrate, !UrlCrateLaws, !UrlText,
  Bech32Crate, !Bech32Laws}.
Import Nip19.

Lemma encode_raw_decode hrp data s :
  hrp ∈ hrps → encode_raw hrp data = Ok s → decode_bech32 s = Ok (hrp, data).
Proof.
  unfold encode_raw, decode_bech32. destruct (bech32_encode hrp data) as [s'|] eqn:E; simpl; [|done].
  intros Hin [= ->]. pose proof (bech32_length _ _ _ E).
  destruct (Nat.ltb_spec MAX_NIP19_LENGTH (String.length s)); [unfold MAX_NIP19_LENGTH in *; lia|].
  by rewrite (bech32_decode_encode _ _ _ Hin E).
Qed.

Lemma hrp_of_known entity : hrp_of entity ∈ hrps.
Proof. destruct entity; apply (bool_decide_unpack _); vm_compute; exact I. Qed.

Lemma entity_round_trip_body entity s :
  entity_ok entity → to_bech32 entity = Ok s → from_bech32 s = Ok entity.
Proof.
  intros Hok. rewrite to_bech32_payload.
  destruct (payload_of entity) as [payload|] eqn:Ep; simpl; [|done].
  intros Hs. rewrite (encode_raw_decode _ _ _ (hrp_of_known _) Hs). simpl.
  by apply decode_entity_payload.
Qed.

Lemma to_bech32_ne entity s : to_bech32 entity = Ok s → ∃ c r, s = String c r.
Proof.
  rewrite to_bech32_payload. destruct (payload_of entity) as [payload|] eqn:Ep; simpl; [|done].
  unfold encode_raw. destruct (bech32_encode _ _) as [s'|] eqn:E; simpl; [|done]. intros [= ->].
  destruct (bech32_prefix _ _ _ E) as [r ->]. destruct entity; simpl; eauto.
Qed.
End round_trip.
