(* ===== verification/EntityTheorems.v ===== *)
(** * Shareable identifiers: theorems

    Entities survive bech32 strings and [nostr:] addresses, what a decoder
    accepts is well formed, and encoding fails only on values too long for their
    length byte. *)

From Stdlib Require Import Ascii NArith Lia.
From S2P Require Import Prelude Encoding Text Ids Tags Event Filter FilterWire Storage Samples.
From S2P Require Import Nips Message Sync Database Server HttpAuth RelaySamples Entities.
Import Nip19.

(** ** An instance of the external interfaces *)

(** The prefix, the separator and the data in hex. *)
#[global] Instance sample_bech32 : Bech32Crate := {|
  bech32_encode hrp data :=
    let s := hrp +:+ String "1" (Hex.fmt_lower data) in
    if (1023 <? String.length s)%nat then Err "too long" else Ok s;
  bech32_decode s :=
    match split_once "1" s with
    | Some (hrp, d) =>
        match HexModel.unhex (as_bytes d) with
        | Some data => Ok (hrp, data)
        | None => Err "invalid character"
        end
    | None => Err "missing separator"
    end;
|}.

#[global] Instance sample_scalar : SecretScalar := {| scalar_valid _ := true |}.

#[global] Instance sample_bech32_laws : Bech32Laws.
Proof.
  split; intros hrp data s; cbn [bech32_encode bech32_decode sample_bech32].
  - case_match; [done|]. intros [= <-]. by eexists.
  - destruct (Nat.ltb_spec 1023 (String.length (hrp +:+ String "1" (Hex.fmt_lower data)))); [done|].
    by intros [= <-].
  - intros Hin. case_match; [done|]. intros [= <-]. rewrite split_once_app.
    + by rewrite HexModel.unhex_fmt_lower.
    + set_unfold in Hin. by repeat destruct Hin as [->|Hin].
Qed.

#[global] Instance sample_url_text : UrlText.
Proof.
  intros [sc r Hr]. apply Utf8.ascii_is_str. unfold Utf8.ascii_only. simpl.
  rewrite !as_bytes_app, !forallb_app. unfold Utf8.ascii_only in Hr. rewrite Hr.
  by destruct sc.
Qed.

Section entities.
Context `{FasterHex, Secp256k1, SecretScalar, UrlCrate, !UrlCrateLaws, !UrlText,
  Bech32Crate, !Bech32Laws}.

(** C34: A well-formed entity that encodes reads back as itself from its bech32
    string, a reader of another kind of entity refuses the string naming both
    prefixes, and its [nostr:] address reads back as itself too, except that the
    address of a secret key is always refused. *)
Theorem entity_round_trip entity s :
  entity_ok entity → to_bech32 entity = Ok s →
  from_bech32 s = Ok entity
  ∧ (∀ hrp, hrp ≠ hrp_of entity → decode_with_hrp s hrp = Err (UnexpectedHrp hrp (hrp_of entity)))
  ∧ Nip21.parse (Nip21.SCHEME_PREFIX +:+ s) = Nip21.try_from entity
  ∧ (∀ sk, entity = ESecretKey sk →
       Nip21.parse (Nip21.SCHEME_PREFIX +:+ s) = Err Nip21.SecretKeyRefused)
  ∧ (∀ v, entity = Nip21.to_entity v →
       Nip21.to_nostr_uri v = Ok (Nip21.SCHEME_PREFIX +:+ s)
       ∧ Nip21.parse (Nip21.SCHEME_PREFIX +:+ s) = Ok v).
Proof.
  intros Hok Hs. assert (from_bech32 s = Ok entity) as Hb by by apply entity_round_trip_body.
  assert (Nip21.parse (Nip21.SCHEME_PREFIX +:+ s) = Nip21.try_from entity) as Hp.
  { destruct (to_bech32_ne _ _ Hs) as (c & r & ->). unfold Nip21.parse.
    rewrite Nip21.strip_scheme_app. simpl ok_or. cbn [result_bind]. by rewrite Hb. }
  split_and!; [done|..|done|by intros sk ->|].
  - intros hrp Hne. rewrite to_bech32_payload in Hs.
    destruct (payload_of entity) as [payload|]; simpl in Hs; [|done].
    unfold decode_with_hrp. rewrite (encode_raw_decode _ _ _ (hrp_of_known _) Hs). simpl.
    by rewrite decide_True by done.
  - intros v ->. split; [|by rewrite Hp, Nip21.try_from_to_entity].
    cbn [Nip21.to_nostr_uri Nip21.Nip21_to_uri]. unfold Nip21.nip21_uri.
    by rewrite Nip21.to_bech32_body_entity, Hs.
Qed.

(** C35: Whatever string decodes to an entity, the entity is well formed: its keys
    are on the curve, its kind fits sixteen bits, its identifier is UTF-8 and its
    relay addresses are normalised; so it encodes to a string that decodes to
    the same entity whenever it fits, and no string of more than 5000 bytes is
    looked at. *)
Theorem entity_decode_sound s entity :
  from_bech32 s = Ok entity →
  entity_ok entity ∧ String.length s ≤ MAX_NIP19_LENGTH
  ∧ (∀ s', to_bech32 entity = Ok s' → from_bech32 s' = Ok entity).
Proof.
  cbn [from_bech32 Nip19Entity_from]. unfold decode_bech32.
  destruct (Nat.ltb_spec MAX_NIP19_LENGTH (String.length s)); simpl; [done|].
  destruct (bech32_decode s) as [[hrp data]|]; simpl; [|done]. intros Hd.
  assert (entity_ok entity) as Hok by by eapply decode_entity_ok.
  split_and!; [done|done|]. intros s'. by apply entity_round_trip_body.
Qed.

(** Encoding refuses a relay address or an identifier longer than 255 bytes, and
    nothing else for its length: the error carries the length of the first one in
    the order they are written.  Any other failure is the bech32 encoder's own. *)
Theorem entity_encode_errors entity e :
  (to_bech32 entity = Err (ToTlv e) ↔
   ∃ v, head (filter Tlv.too_long (text_values entity)) = Some v ∧ e = Tlv.ValueTooLong (length v))
  ∧ (filter Tlv.too_long (text_values entity) = [] →
     ∃ payload, payload_of entity = Ok payload
       ∧ to_bech32 entity = map_err Encode (bech32_encode (hrp_of entity) payload)).
Proof.
  rewrite <-payload_Err, to_bech32_payload. split.
  - destruct (payload_of entity) as [payload|]; simpl; [|split; congruence].
    unfold encode_raw. split; [|done]. by destruct (bech32_encode _ _).
  - intros Hf. destruct (payload_of entity) as [payload|e'] eqn:E; [by exists payload|].
    apply payload_Err in E as (v & Hv & _). by rewrite Hf in Hv.
Qed.
End entities.

(** *** Witnesses *)

#[local] Existing Instance sample_secp.

Definition sample_naddr : Nip19Entity :=
  ECoordinate (coordinate_new "post" alice 30023%N [sample_relay]).

Lemma entity_round_trip_witness :
  ∃ s, to_bech32 sample_naddr = Ok s
       ∧ from_bech32 s = Ok sample_naddr.
Proof.
  eexists. split; [vm_compute; reflexivity|].
  apply (entity_round_trip sample_naddr).
  - split_and!; [vm_compute; reflexivity|reflexivity|vm_compute; discriminate|].
    apply Forall_singleton. by apply (RelayUrl.parse_normal "wss://relay.example").
  - vm_compute. reflexivity.
Defined.

(** An address with a record the reader does not know, and its event id last. *)
Definition sample_nevent : string :=
  "nevent1" +:+ Hex.fmt_lower ([x09; x01; xff; x03; x04; x00; x00; x00; x01; x00; x20]
    ++ EventId.to_byte_array (eid 10)).

Lemma entity_decode_sound_witness :
  entity_ok (EEvent (mkEvent (eid 10) None (Some 1%N) [])).
Proof.
  apply (entity_decode_sound sample_nevent). vm_compute. reflexivity.
Defined.

Definition long_profile : Nip19Entity :=
  EProfile (mkProfile alice
    [sample_relay; RelayUrl.mk (mkUrl Wss (Hex.fmt_lower (replicate 125 x00)) eq_refl)]).

Lemma entity_encode_errors_witness :
  to_bech32 long_profile = Err (ToTlv (Tlv.ValueTooLong 256)) ∧
  ∃ payload, to_bech32 sample_naddr = map_err Encode (bech32_encode NADDR payload).
Proof.
  split.
  - apply (entity_encode_errors long_profile). eexists. split; vm_compute; reflexivity.
  - destruct (entity_encode_errors sample_naddr (Tlv.TruncatedHeader 0)) as [_ Hok].
    destruct Hok as (payload & _ & E); [vm_compute; reflexivity|]. exists payload. exact E.
Defined.
