(* ===== verification/RelayLists.v ===== *)
(** * Relay lists

    The relay list of a user (NIP-65, [nips/nip65.rs]) and the relays for direct
    messages (NIP-17, [nips/nip17.rs]): their data, the events that carry them
    and the readers of those events. *)

From Stdlib Require Import Ascii NArith Lia.
From S2P Require Import Prelude Encoding Text Ids Tags Event Nips.

(** ** NIP-65 *)

Module Nip65.

Inductive RelayMarker := ReadWrite | Read | Write.

#[global] Instance RelayMarker_eq_dec : EqDecision RelayMarker.
Proof. solve_decision. Defined.

Definition as_wire (m : RelayMarker) : option string :=
  match m with ReadWrite => None | Read => Some "read" | Write => Some "write" end.

Definition is_read (m : RelayMarker) : bool :=
  match m with Read | ReadWrite => true | Write => false end.
Definition is_write (m : RelayMarker) : bool :=
  match m with Write | ReadWrite => true | Read => false end.

(** [Display]. *)
Definition marker_string (m : RelayMarker) : string := default "read+write" (as_wire m).

Inductive RelayMarkerError := Unknown (marker : string).

(** [FromStr]. *)
Definition marker_from_str (s : string) : result RelayMarker RelayMarkerError :=
  if decide (s = "read") then Ok Read
  else if decide (s = "write") then Ok Write
  else Err (Unknown s).

Inductive RelayListError :=
| UnexpectedKind (expected got : N)
| MissingRelayUrl
| InvalidRelayUrl (e : RelayUrl.Error)
| InvalidMarker (e : RelayMarkerError).

Section nip65.
Context `{UrlCrate}.

Record RelayList := mkList { relays : gmap RelayUrl RelayMarker }.

Definition new : RelayList := mkList ∅.
Definition insert (l : RelayList) (url : RelayUrl) (m : RelayMarker) : option RelayMarker * RelayList :=
  (relays l !! url, mkList (<[url := m]> (relays l))).
Definition remove (l : RelayList) (url : RelayUrl) : option RelayMarker * RelayList :=
  (relays l !! url, mkList (delete url (relays l))).
Definition get (l : RelayList) (url : RelayUrl) : option RelayMarker := relays l !! url.
Definition contains (l : RelayList) (url : RelayUrl) : bool := bool_decide (is_Some (relays l !! url)).
Definition len (l : RelayList) : nat := size (relays l).
Definition is_empty (l : RelayList) : bool := (size (relays l) =? 0)%nat.

(** The pairs in key order. *)
Definition iter (l : RelayList) : list (RelayUrl * RelayMarker) :=
  omap (λ url, (λ m, (url, m)) <$> relays l !! url) (btree_iter RelayUrl.le (dom (relays l))).

Definition read_relays (l : RelayList) : list RelayUrl :=
  (filter (λ p, is_read p.2 = true) (iter l)).*1.
Definition write_relays (l : RelayList) : list RelayUrl :=
  (filter (λ p, is_write p.2 = true) (iter l)).*1.

Definition build_r_tag (url : RelayUrl) (m : RelayMarker) : Tag :=
  Tag.with_ (TagKind.from_wire "r") (RelayUrl.as_str url :: option_list (as_wire m)).

Definition is_relay_tag (kind : TagKind) : bool := bool_decide (TagKind.as_str kind = "r").

Definition to_tags (l : RelayList) : list Tag := (λ p, build_r_tag p.1 p.2) <$> iter l.

Definition to_event_builder (l : RelayList) : EventBuilder :=
  EventBuilder.set_tags (EventBuilder.new Kind.RELAY_LIST EmptyString) (Tags.from_vec (to_tags l)).

(** The URL and the marker of an [r] tag. *)
Definition read_r_tag (tag : Tag) : result (RelayUrl * RelayMarker) RelayListError :=
  let args := drop 1 (Tag.values tag) in
  let? url_str := ok_or (args !! 0%nat) MissingRelayUrl in
  let? url := map_err InvalidRelayUrl (RelayUrl.parse url_str) in
  let? m := match args !! 1%nat with
            | Some s => if decide (s ≠ EmptyString) then map_err InvalidMarker (marker_from_str s)
                        else Ok ReadWrite
            | None => Ok ReadWrite
            end in
  Ok (url, m).

Fixpoint from_tags (l : RelayList) (tags : list Tag) : result RelayList RelayListError :=
  match tags with
  | [] => Ok l
  | tag :: tags =>
      if negb (is_relay_tag (Tag.kind tag)) then from_tags l tags
      else let? p := read_r_tag tag in from_tags (insert l p.1 p.2).2 tags
  end.

Definition from_event (event : Event) : result RelayList RelayListError :=
  if decide (Event.kind event ≠ Kind.RELAY_LIST) then
    Err (UnexpectedKind Kind.RELAY_LIST (Event.kind event))
  else from_tags new (Event.tags event).

(** *** Lemmas *)

Lemma iter_elem l url m : (url, m) ∈ iter l ↔ relays l !! url = Some m.
Proof.
  unfold iter. rewrite list_elem_of_omap. split.
  - intros (u & _ & E). destruct (relays l !! u) eqn:El; simplify_eq/=. done.
  - intros E. exists url. split; [|by rewrite E].
    apply elem_of_btree_iter, elem_of_dom. eauto.
Qed.

Lemma iter_keys l : (iter l).*1 = btree_iter RelayUrl.le (dom (relays l)).
Proof.
  unfold iter. assert (∀ ks, (∀ k, k ∈ ks → is_Some (relays l !! k)) →
    (omap (λ url, (λ m, (url, m)) <$> relays l !! url) ks).*1 = ks) as Hk.
  { induction ks as [|k ks IH]; intros Hs; [done|]. simpl.
    destruct (Hs k ltac:(left)) as [m Em]. rewrite Em. simpl. f_equal. apply IH.
    intros ??. apply Hs. by right. }
  apply Hk. intros k Hin%elem_of_btree_iter. by apply elem_of_dom.
Qed.

Lemma NoDup_iter_keys l : NoDup (iter l).*1.
Proof. rewrite iter_keys. apply NoDup_btree_iter. Qed.

Lemma list_to_map_iter l : list_to_map (iter l) = relays l.
Proof.
  apply map_eq. intros u. apply option_eq. intros m.
  rewrite <-elem_of_list_to_map by apply NoDup_iter_keys. apply iter_elem.
Qed.

Lemma is_relay_tag_spec tag : is_relay_tag (Tag.kind tag) = true ↔ Tag.name tag = "r".
Proof.
  unfold is_relay_tag, Tag.kind. by rewrite TagKind.as_str_from_wire, bool_decide_eq_true.
Qed.

Context `{!UrlCrateLaws}.

Lemma read_r_tag_normal tag url m : read_r_tag tag = Ok (url, m) → RelayUrl.normal url.
Proof.
  unfold read_r_tag. destruct (drop 1 _ !! 0%nat) as [s|]; simpl; [|done].
  destruct (RelayUrl.parse s) as [u|] eqn:E; simpl; [|done].
  intros Ho. destruct (match _ with Some _ => _ | None => _ end); simplify_eq/=.
  by eapply RelayUrl.parse_normal.
Qed.

Lemma read_build_r_tag url m : RelayUrl.normal url → read_r_tag (build_r_tag url m) = Ok (url, m).
Proof.
  intros Hn. unfold read_r_tag, build_r_tag. simpl. rewrite RelayUrl.parse_as_str by done. simpl.
  by destruct m.
Qed.

(** The loop inserts the entries of the [r] tags one after the other. *)
Lemma from_tags_spec l tags l' :
  from_tags l tags = Ok l' ↔
  ∃ ps, Forall2 (λ tag p, read_r_tag tag = Ok p)
          (filter (λ t, is_relay_tag (Tag.kind t) = true) tags) ps
        ∧ relays l' = foldl (λ m p, <[p.1 := p.2]> m) (relays l) ps.
Proof.
  revert l. induction tags as [|tag tags IH]; intros l; cbn [from_tags].
  - split.
    + intros [= <-]. by exists [].
    + intros (ps & Hps & E). rewrite filter_nil in Hps. apply Forall2_nil_inv_l in Hps as ->.
      simpl in E. destruct l, l'. simpl in *. by subst.
  - rewrite filter_cons. destruct (is_relay_tag (Tag.kind tag)) eqn:Er; simpl.
    2:{ apply IH. }
    destruct (read_r_tag tag) as [p|e] eqn:Ep; simpl.
    + rewrite IH. split.
      * intros (ps & Hps & E). exists (p :: ps). split; [by constructor|done].
      * intros (ps & Hps & E). apply Forall2_cons_inv_l in Hps as (p' & ps' & Hp & Hps & ->).
        exists ps'. assert (p' = p) as -> by congruence. done.
    + split; [done|]. intros (ps & Hps & E).
      apply Forall2_cons_inv_l in Hps as (p' & ps' & Hp & _). congruence.
Qed.

Lemma foldl_insert_list (m : gmap RelayUrl RelayMarker) ps :
  foldl (λ m p, <[p.1 := p.2]> m) m ps = list_to_map (reverse ps) ∪ m.
Proof.
  revert m. induction ps as [|[u x] ps IH]; intros m; simpl; [by rewrite (left_id_L ∅ (∪))|].
  rewrite IH, reverse_cons, list_to_map_app. simpl.
  rewrite insert_empty, <-(assoc_L (∪)). f_equal. by rewrite <-insert_union_singleton_l.
Qed.

Definition list_ok (l : RelayList) : Prop := ∀ url m, relays l !! url = Some m → RelayUrl.normal url.

Lemma from_to_tags l : list_ok l → from_tags new (to_tags l) = Ok l.
Proof.
  intros Hok. apply from_tags_spec. exists (iter l). split.
  - unfold to_tags. assert (Forall (λ p, RelayUrl.normal p.1) (iter l)) as Hf.
    { apply Forall_forall. intros [u m] Hin%iter_elem. by eapply Hok. }
    induction Hf as [|[u m] ps Hn _ IH]; [constructor|]. simpl. rewrite filter_cons.
    rewrite decide_True; [constructor; [by apply read_build_r_tag|done]|].
    apply is_relay_tag_spec. done.
  - rewrite foldl_insert_list. simpl. rewrite (right_id_L ∅ (∪)).
    rewrite <-list_to_map_iter. apply list_to_map_proper.
    + apply NoDup_iter_keys.
    + by rewrite reverse_Permutation.
Qed.
End nip65.

End Nip65.

(** ** NIP-17 *)

Module Nip17.

Definition DM_RELAYS : Kind := 10050.
Definition RELAY_TAG : string := "relay".

(** The errors of the relay list; the others are those of gift wrapping. *)
Inductive DmRelaysError :=
| UnexpectedKind (got : N)
| MissingRelayUrl
| InvalidRelayUrl (e : RelayUrl.Error).

Section nip17.
Context `{UrlCrate}.

Definition build_dm_relays_event (relays : list RelayUrl) : EventBuilder :=
  EventBuilder.set_tags (EventBuilder.new DM_RELAYS EmptyString)
    (Tags.from_vec ((λ url, Tag.with_ (TagKind.from_wire RELAY_TAG) [RelayUrl.as_str url]) <$> relays)).

Fixpoint parse_relay_tags (out : list RelayUrl) (tags : list Tag) : result (list RelayUrl) DmRelaysError :=
  match tags with
  | [] => Ok out
  | tag :: tags =>
      if decide (Tag.kind tag ≠ TagKind.from_wire RELAY_TAG) then parse_relay_tags out tags
      else
        let? value := ok_or (Tag.values tag !! 1%nat) MissingRelayUrl in
        let? url := map_err InvalidRelayUrl (RelayUrl.parse value) in
        parse_relay_tags (out ++ [url]) tags
  end.

Definition parse_dm_relays_event (event : Event) : result (list RelayUrl) DmRelaysError :=
  if decide (Event.kind event ≠ DM_RELAYS) then Err (UnexpectedKind (Event.kind event))
  else parse_relay_tags [] (Event.tags event).

Context `{!UrlCrateLaws}.

Lemma parse_relay_tags_built out rs :
  Forall RelayUrl.normal rs →
  parse_relay_tags out ((λ url, Tag.with_ (TagKind.from_wire RELAY_TAG) [RelayUrl.as_str url]) <$> rs)
  = Ok (out ++ rs).
Proof.
  intros Hf. revert out. induction Hf as [|r rs Hr _ IH]; intros out; [by rewrite app_nil_r|].
  cbn [fmap list_fmap parse_relay_tags]. rewrite decide_False.
  2:{ intros Hne. apply Hne. apply Tag.kind_with_from_wire. }
  simpl. rewrite RelayUrl.parse_as_str by done. simpl. rewrite IH. by rewrite <-app_assoc.
Qed.

Lemma parse_relay_tags_normal out tags rs :
  Forall RelayUrl.normal out → parse_relay_tags out tags = Ok rs → Forall RelayUrl.normal rs.
Proof.
  revert out. induction tags as [|tag tags IH]; intros out Hf; cbn [parse_relay_tags].
  - by intros [= <-].
  - case_decide; [by apply IH|]. destruct (Tag.values tag !! 1%nat); simpl; [|done].
    destruct (RelayUrl.parse _) eqn:E; simpl; [|done]. apply IH, Forall_app. split; [done|].
    apply Forall_singleton. by eapply RelayUrl.parse_normal.
Qed.
End nip17.

End Nip17.
