(* ===== verification/Gossip.v ===== *)
(** * Relay routing

    [crates/nula-gossip]: the routing graph that learns from events which relays
    a user writes to, reads from and takes direct messages on
    ([options.rs], [ttl.rs], [routes.rs]), selects relays for a user
    ([selection.rs]), narrows a filter to each relay ([filter.rs]), finds the
    relays of an outgoing event ([event.rs]) and keeps the lists fresh
    ([gossip.rs], [refresher.rs]).

    The routes are behind one lock; every critical section is one function here.
    A [HashSet] is a [gset] and a [HashMap] a [gmap]; where the code iterates over
    one and its order matters, the order is an argument. *)

From Stdlib Require Import Ascii NArith Lia.
From S2P Require Import Prelude Encoding Text IpAddr Ids Tags Event Filter Storage SpecProofs Database.
From S2P Require Import Nips RelayLists.

(** ** Options ([options.rs]) *)

(** A [Duration] in nanoseconds. *)
Definition as_secs (d : N) : N := (d / 1000000000)%N.
Definition from_secs (s : N) : N := (s * 1000000000)%N.

Definition GIFT_WRAP : Kind := 1059.

Record GossipLimits := mkLimits {
  read_relays_per_user : N;
  write_relays_per_user : N;
  hint_relays_per_user : N;
  most_received_per_user : N;
  dm_relays_per_user : N;
}.

Definition default_limits : GossipLimits := mkLimits 3 3 2 2 3.

(** Each is a [NonZeroU8]. *)
Definition limits_ok (l : GossipLimits) : Prop :=
  (0 < read_relays_per_user l ∧ 0 < write_relays_per_user l ∧ 0 < hint_relays_per_user l
   ∧ 0 < most_received_per_user l ∧ 0 < dm_relays_per_user l)%N.

Record AllowedRelays := mkAllowed { onion : bool; local : bool; insecure : bool }.

Definition default_allowed : AllowedRelays := mkAllowed true false true.
Definition locked_down : AllowedRelays := mkAllowed false false false.
Definition permissive : AllowedRelays := mkAllowed true true true.

Record GossipOptions := mkOptions {
  list_ttl : N;
  min_fetch_interval : N;
  refresher_interval : option N;
  refresher_batch : nat;
  limits : GossipLimits;
  allowed : AllowedRelays;
}.

Definition default_options : GossipOptions :=
  mkOptions (from_secs 43200) (from_secs 30) (Some (from_secs 60)) 32 default_limits default_allowed.

Inductive ListKind := ListNip65 | ListNip17.

Definition event_kind (k : ListKind) : Kind :=
  match k with ListNip65 => Kind.RELAY_LIST | ListNip17 => Nip17.DM_RELAYS end.

(** ** Freshness ([ttl.rs]) *)

Inductive PublicKeyStatus := Missing | Updated | Outdated (observed_at : Timestamp).

Record OutdatedKey := mkOutdated { public_key : PublicKey; observed_at : option Timestamp }.

#[global] Instance OutdatedKey_eq_dec : EqDecision OutdatedKey.
Proof. solve_decision. Defined.
#[global] Instance OutdatedKey_countable : Countable OutdatedKey.
Proof.
  exact (inj_countable' (λ k, (public_key k, observed_at k)) (λ p, mkOutdated p.1 p.2)
    ltac:(by intros [])).
Defined.

(** [Ord] of keys: that of their bytes. *)
Definition pk_le (a b : PublicKey) : Prop :=
  bytes_le (PublicKey.to_byte_array a) (PublicKey.to_byte_array b).
#[global] Instance pk_le_dec a b : Decision (pk_le a b).
Proof. unfold pk_le. apply _. Defined.

(** [Ord]: the missing ones first, then the oldest. *)
Definition outdated_le (a b : OutdatedKey) : Prop :=
  match observed_at a, observed_at b with
  | None, None => pk_le (public_key a) (public_key b)
  | None, Some _ => True
  | Some _, None => False
  | Some s, Some t => (s < t)%N ∨ (s = t ∧ pk_le (public_key a) (public_key b))
  end.
#[global] Instance outdated_le_dec a b : Decision (outdated_le a b).
Proof. unfold outdated_le. destruct (observed_at a), (observed_at b); apply _. Defined.

Section gossip.
Context `{FasterHex, Secp256k1, UrlCrate}.

Definition is_local_addr (url : RelayUrl) : bool :=
  let host := RelayUrl.host url in
  if decide (host = "localhost") then true
  else match IpAddr.parse_v4 host with
       | Some os => IpAddr.v4_is_loopback os || IpAddr.v4_is_private os
       | None =>
           match IpAddr.parse_v6 host with
           | Some gs => IpAddr.v6_is_loopback gs || (N.land (default 0 (gs !! 0%nat)) 65024 =? 64512)%N
           | None => false
           end
       end.

Definition is_allowed (p : AllowedRelays) (url : RelayUrl) : bool :=
  if negb (onion p) && RelayUrl.is_onion url then false
  else if negb (local p) && is_local_addr url then false
  else if negb (insecure p) && negb (RelayUrl.is_secure url) then false
  else true.

(** ** Routes of a user ([routes.rs]) *)

Record UserRoutes := mkRoutes {
  nip65 : option Nip65.RelayList;
  nip65_event_at : option Timestamp;
  nip65_fetched_at : option Timestamp;
  nip17 : list RelayUrl;
  nip17_event_at : option Timestamp;
  nip17_fetched_at : option Timestamp;
  hints : gmap RelayUrl N;
  most_received : gmap RelayUrl N;
}.

Definition no_routes : UserRoutes := mkRoutes None None None [] None None ∅ ∅.

Definition list_event_at (r : UserRoutes) (k : ListKind) : option Timestamp :=
  match k with ListNip65 => nip65_event_at r | ListNip17 => nip17_event_at r end.
Definition list_fetched_at (r : UserRoutes) (k : ListKind) : option Timestamp :=
  match k with ListNip65 => nip65_fetched_at r | ListNip17 => nip17_fetched_at r end.

Definition u32_max : N := 4294967295.

Definition bump (m : gmap RelayUrl N) (relay : RelayUrl) : gmap RelayUrl N :=
  <[relay := match m !! relay with Some n => N.min u32_max (n + 1) | None => 1%N end]> m.

Definition bump_hint (r : UserRoutes) (relay : RelayUrl) : UserRoutes :=
  mkRoutes (nip65 r) (nip65_event_at r) (nip65_fetched_at r) (nip17 r) (nip17_event_at r)
    (nip17_fetched_at r) (bump (hints r) relay) (most_received r).
Definition bump_most_received (r : UserRoutes) (relay : RelayUrl) : UserRoutes :=
  mkRoutes (nip65 r) (nip65_event_at r) (nip65_fetched_at r) (nip17 r) (nip17_event_at r)
    (nip17_fetched_at r) (hints r) (bump (most_received r) relay).

(** ** Selection ([selection.rs]) *)

Record Limits := mkSel { sel_read : N; sel_write : N; sel_hint : N; sel_most_received : N }.

Definition from_gossip (g : GossipLimits) : Limits :=
  mkSel (read_relays_per_user g) (write_relays_per_user g) (hint_relays_per_user g)
    (most_received_per_user g).

(** The loop over the NIP-65 list that [outbox] and [inbox] share. *)
Fixpoint take_marked (keep : Nip65.RelayMarker → bool) (limit : nat)
    (entries : list (RelayUrl * Nip65.RelayMarker)) (out : gset RelayUrl) : gset RelayUrl :=
  match entries with
  | [] => out
  | (url, m) :: entries =>
      let out := if keep m then {[url]} ∪ out else out in
      if (limit <=? size out)%nat then out else take_marked keep limit entries out
  end.

(** The order of [extend_from_histogram]: most frequent first, then by address. *)
Definition rank_le (a b : RelayUrl * N) : Prop :=
  (b.2 < a.2)%N ∨ (a.2 = b.2 ∧ RelayUrl.le a.1 b.1).
#[global] Instance rank_le_dec a b : Decision (rank_le a b).
Proof. unfold rank_le. apply _. Defined.

Definition ranked (histogram : gmap RelayUrl N) : list (RelayUrl * N) :=
  merge_sort rank_le
    (omap (λ url, (λ n, (url, n)) <$> histogram !! url) (btree_iter RelayUrl.le (dom histogram))).

Definition extend_from_histogram (out : gset RelayUrl) (histogram : gmap RelayUrl N) (limit : N) :
    gset RelayUrl :=
  if decide (histogram = ∅) then out
  else foldl (λ out p, {[p.1]} ∪ out) out (take (N.to_nat limit) (ranked histogram)).

Definition apply_policy (s : gset RelayUrl) (p : AllowedRelays) : gset RelayUrl :=
  filter (λ url, is_allowed p url = true) s.

Definition nip65_relays (keep : Nip65.RelayMarker → bool) (limit : N) (r : UserRoutes) : gset RelayUrl :=
  match nip65 r with
  | Some list => take_marked keep (N.to_nat limit) (Nip65.iter list) ∅
  | None => ∅
  end.

Definition outbox (r : UserRoutes) (l : Limits) (p : AllowedRelays) : gset RelayUrl :=
  let out := nip65_relays Nip65.is_write (sel_write l) r in
  let out := extend_from_histogram out (hints r) (sel_hint l) in
  let out := extend_from_histogram out (most_received r) (sel_most_received l) in
  apply_policy out p.

Definition inbox (r : UserRoutes) (l : Limits) (p : AllowedRelays) : gset RelayUrl :=
  let out := nip65_relays (λ m, Nip65.is_read m || bool_decide (m = Nip65.ReadWrite)) (sel_read l) r in
  let out := extend_from_histogram out (hints r) (sel_hint l) in
  let out := extend_from_histogram out (most_received r) (sel_most_received l) in
  apply_policy out p.

Definition dm_relays (r : UserRoutes) (limit : N) (p : AllowedRelays) : gset RelayUrl :=
  apply_policy (list_to_set (take (N.to_nat limit) (nip17 r))) p.

(** ** The graph ([inner.rs]) *)

Section graph.
Context {DB : Type}.

Record Inner := mkInner { options : GossipOptions; db : DB; routes : gmap PublicKey UserRoutes }.

Definition inner_new (d : DB) (o : GossipOptions) : Inner := mkInner o d ∅.

Definition sel_limits (i : Inner) : Limits := from_gossip (limits (options i)).
Definition policy (i : Inner) : AllowedRelays := allowed (options i).
Definition dm_limit (i : Inner) : N := dm_relays_per_user (limits (options i)).

Definition outbox_relays (i : Inner) (user : PublicKey) : gset RelayUrl :=
  match routes i !! user with Some r => outbox r (sel_limits i) (policy i) | None => ∅ end.
Definition inbox_relays (i : Inner) (user : PublicKey) : gset RelayUrl :=
  match routes i !! user with Some r => inbox r (sel_limits i) (policy i) | None => ∅ end.
Definition dm_relays_of (i : Inner) (user : PublicKey) : gset RelayUrl :=
  match routes i !! user with Some r => dm_relays r (dm_limit i) (policy i) | None => ∅ end.

(** ** Breaking down a filter ([filter.rs]) *)

Inductive BrokenDownFilters :=
| PerRelay (m : gmap RelayUrl Filter)
| Orphan (f : Filter)
| Generic (f : Filter).

Definition p_tag : SingleLetterTag := SingleLetterTag.lowercase Alphabet.P.

Definition pattern_needs_dm (f : Filter) : bool :=
  let p_present := match IndexMap.get (Filter.generic_tags f) p_tag with
                   | Some (_ :: _) => true | _ => false end in
  match Filter.kinds f with
  | Some kinds => bool_decide (GIFT_WRAP ∈ kinds) || (bool_decide (kinds = []) && p_present)
  | None => p_present
  end.

Inductive Direction := Outbox | Inbox.

(** The relays of one key in [collect_directional]. *)
Definition directional_relays (i : Inner) (needs_dm : bool) (d : Direction) (r : UserRoutes) :
    gset RelayUrl :=
  let relays := match d with
                | Outbox => outbox r (sel_limits i) (policy i)
                | Inbox => inbox r (sel_limits i) (policy i)
                end in
  if needs_dm then relays ∪ dm_relays r (dm_limit i) (policy i) else relays.

(** [out.entry(url).or_default().insert(pk)] for every relay of a key. *)
Definition add_key (out : gmap RelayUrl (gset PublicKey)) (pk : PublicKey) (url : RelayUrl) :
    gmap RelayUrl (gset PublicKey) :=
  <[url := {[pk]} ∪ default ∅ (out !! url)]> out.

Definition collect_directional (i : Inner) (keys : gset PublicKey) (needs_dm : bool) (d : Direction) :
    gmap RelayUrl (gset PublicKey) :=
  let snapshot := omap (λ pk, (λ r, (pk, directional_relays i needs_dm d r)) <$> routes i !! pk)
                    (btree_iter pk_le keys) in
  foldl (λ out p, foldl (λ out url, add_key out p.1 url) out (elements p.2)) ∅ snapshot.

Definition collect_union_relays (i : Inner) (targets : gset PublicKey) (needs_dm : bool) : gset RelayUrl :=
  foldl (λ acc pk,
      match routes i !! pk with
      | None => acc
      | Some r =>
          acc ∪ outbox r (sel_limits i) (policy i) ∪ inbox r (sel_limits i) (policy i)
          ∪ (if needs_dm then dm_relays r (dm_limit i) (policy i) else ∅)
      end) ∅ (btree_iter pk_le targets).

Definition narrow_authors (f : Filter) (per_relay : gmap RelayUrl (gset PublicKey)) : gmap RelayUrl Filter :=
  (λ pks, Filter.set_authors f (Some (btree_iter pk_le pks))) <$> per_relay.

Definition narrow_p_tags (f : Filter) (per_relay : gmap RelayUrl (gset PublicKey)) : gmap RelayUrl Filter :=
  (λ pks, Filter.set_generic_tags f
            (IndexMap.insert (Filter.generic_tags f) p_tag (PublicKey.to_hex <$> btree_iter pk_le pks)))
  <$> per_relay.

Definition break_down (i : Inner) (f : Filter) : BrokenDownFilters :=
  let authors : option (gset PublicKey) := list_to_set <$> Filter.authors f in
  let p_pubkeys : option (gset PublicKey) :=
    (λ values, list_to_set (omap (λ s, result_ok (PublicKey.parse s)) values))
    <$> IndexMap.get (Filter.generic_tags f) p_tag in
  let needs_dm := pattern_needs_dm f in
  match authors, p_pubkeys with
  | Some authors, None =>
      let per_relay := collect_directional i authors needs_dm Outbox in
      if decide (per_relay = ∅) then Orphan f else PerRelay (narrow_authors f per_relay)
  | None, Some p_set =>
      let per_relay := collect_directional i p_set needs_dm Inbox in
      if decide (per_relay = ∅) then Orphan f else PerRelay (narrow_p_tags f per_relay)
  | Some authors, Some p_set =>
      let relays := collect_union_relays i (authors ∪ p_set) needs_dm in
      if decide (relays = ∅) then Orphan f else PerRelay (gset_to_gmap f relays)
  | None, None => Generic f
  end.

(** ** Routing an outgoing event ([event.rs]) *)

Inductive EventRoute :=
| Relays (relays : gset RelayUrl)
| OrphanEvent (private_message : bool).

Definition break_down_event (i : Inner) (event : Event) : EventRoute :=
  let recipients : gset PublicKey := list_to_set (Tags.public_keys (Event.tags event)) in
  let extend select :=
    foldl (λ acc pk, match routes i !! pk with Some r => acc ∪ select r | None => acc end) in
  if decide (Event.kind event = GIFT_WRAP) then
    let relays := extend (λ r, dm_relays r (dm_limit i) (policy i)) ∅ (btree_iter pk_le recipients) in
    if decide (relays = ∅) then OrphanEvent true else Relays relays
  else
    let relays := outbox_relays i (Event.pubkey event) in
    let relays :=
      if decide (Event.kind event ≠ Kind.CONTACTS) then
        extend (λ r, inbox r (sel_limits i) (policy i)) relays (btree_iter pk_le recipients)
      else relays in
    if decide (relays = ∅) then OrphanEvent false else Relays relays.

(** ** Learning from events ([gossip.rs]) *)

Definition set_nip65 (r : UserRoutes) (l : Nip65.RelayList) (at_ : Timestamp) : UserRoutes :=
  mkRoutes (Some l) (Some at_) (nip65_fetched_at r) (nip17 r) (nip17_event_at r)
    (nip17_fetched_at r) (hints r) (most_received r).
Definition set_nip17 (r : UserRoutes) (l : list RelayUrl) (at_ : Timestamp) : UserRoutes :=
  mkRoutes (nip65 r) (nip65_event_at r) (nip65_fetched_at r) l (Some at_)
    (nip17_fetched_at r) (hints r) (most_received r).
Definition set_fetched_at (r : UserRoutes) (k : ListKind) (now : Timestamp) : UserRoutes :=
  match k with
  | ListNip65 => mkRoutes (nip65 r) (nip65_event_at r) (Some now) (nip17 r) (nip17_event_at r)
      (nip17_fetched_at r) (hints r) (most_received r)
  | ListNip17 => mkRoutes (nip65 r) (nip65_event_at r) (nip65_fetched_at r) (nip17 r)
      (nip17_event_at r) (Some now) (hints r) (most_received r)
  end.

(** [prev.is_none_or(|prev| prev < at)]. *)
Definition newer (prev : option Timestamp) (at_ : Timestamp) : bool :=
  match prev with None => true | Some prev => (prev <? at_)%N end.

Definition harvest_relay_hints (event : Event) (entry : UserRoutes) (p : AllowedRelays) : UserRoutes :=
  foldl (λ entry tag,
      if decide (Tag.kind tag ≠ TagKind.single_letter (SingleLetterTag.lowercase Alphabet.R)) then entry
      else match Tag.content tag with
           | None => entry
           | Some value =>
               match RelayUrl.parse value with
               | Err _ => entry
               | Ok url => if is_allowed p url then bump_hint entry url else entry
               end
           end) entry (Event.tags event).

Definition apply_event_to_entry (event : Event) (entry : UserRoutes) (p : AllowedRelays) : UserRoutes :=
  if decide (Event.kind event = Kind.RELAY_LIST) then
    match Nip65.from_event event with
    | Ok l => if newer (nip65_event_at entry) (Event.created_at event)
              then set_nip65 entry l (Event.created_at event) else entry
    | Err _ => entry
    end
  else if decide (Event.kind event = Nip17.DM_RELAYS) then
    match Nip17.parse_dm_relays_event event with
    | Ok relays => if newer (nip17_event_at entry) (Event.created_at event)
                   then set_nip17 entry (filter (λ u, is_allowed p u = true) relays) (Event.created_at event)
                   else entry
    | Err _ => entry
    end
  else harvest_relay_hints event entry p.

(** The critical section of [process]. *)
Definition learn (i : Inner) (event : Event) (source_relay : option RelayUrl) : Inner :=
  let entry := default no_routes (routes i !! Event.pubkey event) in
  let entry := apply_event_to_entry event entry (policy i) in
  let entry := match source_relay with
               | Some relay => if is_allowed (policy i) relay then bump_most_received entry relay else entry
               | None => entry
               end in
  mkInner (options i) (db i) (<[Event.pubkey event := entry]> (routes i)).

Context `{!NostrDatabase DB}.

Definition needs_persist (event : Event) : bool :=
  bool_decide (Event.kind event = Kind.RELAY_LIST) || bool_decide (Event.kind event = Nip17.DM_RELAYS).

(** [process]; [clock] is the time the storage reads, and its failures are
    silenced. *)
Definition process (clock : result Timestamp string) (i : Inner) (event : Event)
    (source_relay : option RelayUrl) : Inner :=
  let i := learn i event source_relay in
  if needs_persist event then mkInner (options i) (store_save clock (db i) event).2 (routes i) else i.

(** ** Freshness of the lists *)

Definition status (clock : option Timestamp) (i : Inner) (user : PublicKey) (k : ListKind) : PublicKeyStatus :=
  match routes i !! user ≫= λ r, list_event_at r k with
  | None => Missing
  | Some at_ =>
      match clock with
      | None => Outdated at_
      | Some now => if (as_secs (list_ttl (options i)) <? Timestamp.saturating_sub now at_)%N
                    then Outdated at_ else Updated
      end
  end.

(** The loop of [outdated]. *)
Fixpoint outdated_loop (now ttl : N) (k : ListKind) (limit : nat) (entries : list (PublicKey * UserRoutes))
    (out : gset OutdatedKey) : gset OutdatedKey :=
  match entries with
  | [] => out
  | (pk, r) :: entries =>
      let out := match list_event_at r k with
                 | Some at_ => if (ttl <? Timestamp.saturating_sub now at_)%N
                               then {[mkOutdated pk (Some at_)]} ∪ out else out
                 | None => out
                 end in
      if (limit <=? size out)%nat then out else outdated_loop now ttl k limit entries out
  end.

(** [entries]: the routes in the iteration order of the [HashMap]. *)
Definition outdated (clock : option Timestamp) (i : Inner) (entries : list (PublicKey * UserRoutes))
    (k : ListKind) (limit : nat) : gset OutdatedKey :=
  match clock with
  | None => ∅
  | Some now => outdated_loop now (as_secs (list_ttl (options i))) k limit entries ∅
  end.

Inductive Error :=
| NoDiscoveryRelays
| NotFound (user : PublicKey) (k : ListKind)
| Pool (e : string)
| StorageErr (e : string)
| MissingDatabase.

(** [GossipBuilder::build]. *)
Definition build (o : GossipOptions) (d : option DB) : result Inner Error :=
  let? d := ok_or d MissingDatabase in Ok (inner_new d o).

(** The first critical section of [refresh]: whether the fetch may go on. *)
Definition allowed_to_fetch (now : option Timestamp) (i : Inner) (user : PublicKey) (k : ListKind) : bool :=
  match routes i !! user ≫= λ r, list_fetched_at r k, now with
  | Some prev, Some now =>
      (as_secs (min_fetch_interval (options i)) <=? Timestamp.saturating_sub now prev)%N
  | _, _ => true
  end.

(** The second one: the fetch is recorded. *)
Definition mark_fetched (now : option Timestamp) (i : Inner) (user : PublicKey) (k : ListKind) : Inner :=
  match now with
  | None => i
  | Some now =>
      mkInner (options i) (db i)
        (<[user := set_fetched_at (default no_routes (routes i !! user)) k now]> (routes i))
  end.

(** The loop of [pull_newest] over what the relays deliver. *)
Definition newest_step (user : PublicKey) (k : ListKind) (newest : option Event)
    (item : RelayUrl * result Event string) : option Event :=
  match item.2 with
  | Err _ => newest
  | Ok event =>
      if negb (bool_decide (Event.kind event = event_kind k)) || negb (bool_decide (Event.pubkey event = user))
      then newest
      else if newer (Event.created_at <$> newest) (Event.created_at event) then Some event else newest
  end.

Definition pull_newest (user : PublicKey) (k : ListKind)
    (stream : result (list (RelayUrl * result Event string)) string) : result (option Event) Error :=
  let? items := map_err Pool stream in
  Ok (foldl (newest_step user k) None items).

(** [refresh] with no other caller in between: [stream] is what the pool
    delivers for the filter of this user and kind. *)
Definition refresh (now : option Timestamp) (clock : result Timestamp string) (i : Inner)
    (user : PublicKey) (k : ListKind) (discovery : list RelayUrl)
    (stream : result (list (RelayUrl * result Event string)) string) : result unit Error * Inner :=
  match discovery with
  | [] => (Err NoDiscoveryRelays, i)
  | _ =>
      if negb (allowed_to_fetch now i user k) then (Ok tt, i)
      else
        let i := mark_fetched now i user k in
        match pull_newest user k stream with
        | Err e => (Err e, i)
        | Ok None => (Err (NotFound user k), i)
        | Ok (Some event) => (Ok tt, process clock i event None)
        end
  end.

(** ** Starting from the store *)

Definition list_filter (pk : PublicKey) (k : ListKind) : Filter :=
  Filter.with_limit (Filter.add_kind (Filter.add_author Filter.new pk) (event_kind k)) 1.

Definition warm_up_one (i : Inner) (pk : PublicKey) (k : ListKind) : result (option Event) Error :=
  let? events := map_err StorageErr (store_query (db i) (list_filter pk k)) in
  Ok (head events).

Fixpoint warm_up_kinds (clock : result Timestamp string) (i : Inner) (pk : PublicKey) (ks : list ListKind) :
    result unit Error * Inner :=
  match ks with
  | [] => (Ok tt, i)
  | k :: ks =>
      match warm_up_one i pk k with
      | Err e => (Err e, i)
      | Ok None => warm_up_kinds clock i pk ks
      | Ok (Some event) => warm_up_kinds clock (process clock i event None) pk ks
      end
  end.

Definition warm_up_user (clock : result Timestamp string) (i : Inner) (pk : PublicKey) :
    result unit Error * Inner := warm_up_kinds clock i pk [ListNip65; ListNip17].

Fixpoint warm_up (clock : result Timestamp string) (i : Inner) (users : list PublicKey) :
    result unit Error * Inner :=
  match users with
  | [] => (Ok tt, i)
  | pk :: users =>
      match warm_up_user clock i pk with
      | (Err e, i) => (Err e, i)
      | (Ok _, i) => warm_up clock i users
      end
  end.
End graph.
End gossip.
