(* ===== verification/GossipProofs.v ===== *)
(** * Relay routing: lemmas

    What the selection, collection and learning functions of [Gossip] compute. *)

From Stdlib Require Import Ascii NArith Lia.
From S2P Require Import Prelude Encoding Text IpAddr Ids Tags Event Filter Storage SpecProofs Database.
From S2P Require Import Nips RelayLists Gossip.

Lemma foldl_eq {A B} (f g : A → B → A) a l : (∀ a x, f a x = g a x) → foldl f a l = foldl g a l.
Proof. intros E. revert a. induction l as [|x l IH]; intros a; simpl; [done|]. by rewrite E. Qed.

Lemma foldl_Permutation {A B} (f : A → B → A) a l l' :
  l ≡ₚ l' → (∀ x y a, x ∈ l → y ∈ l → f (f a x) y = f (f a y) x) → foldl f a l = foldl f a l'.
Proof.
  intros Hp. revert a. induction Hp as [|x l l' Hp IH|x y l|l1 l2 l3 Hp1 IH1 Hp2 IH2]; intros a Hc; simpl.
  - done.
  - apply IH. intros ?????. apply Hc; by right.
  - rewrite Hc; [done|left|right; left].
  - rewrite IH1 by done. apply IH2. intros ?????. apply Hc; by rewrite Hp1.
Qed.

Lemma size_union_le `{Countable A} (X Y : gset A) : (size (X ∪ Y) ≤ size X + size Y)%nat.
Proof.
  rewrite size_union_alt. assert (size (Y ∖ X) ≤ size Y)%nat by (apply subseteq_size; set_solver). lia.
Qed.

Lemma size_filter_le `{Countable A} (P : A → Prop) `{!∀ x, Decision (P x)} (X : gset A) :
  (size (filter P X) ≤ size X)%nat.
Proof. apply subseteq_size. set_solver. Qed.

(** ** Selection *)

Section selection.
Context `{UrlCrate, !UrlCrateLaws}.

#[global] Instance rank_le_trans : Transitive rank_le.
Proof.
  intros a b c [?|[E1 ?]] [?|[E2 ?]]; unfold rank_le; [left; lia..|].
  right. split; [congruence|by etrans].
Qed.
#[global] Instance rank_le_total : Total rank_le.
Proof.
  intros a b. unfold rank_le. destruct (N.lt_trichotomy a.2 b.2) as [?|[?|?]];
    [by right; left| |by left; left].
  destruct (total RelayUrl.le a.1 b.1); [left|right]; right; auto.
Qed.

(** The relays of the entries the loop keeps, at most [limit] of them. *)
Lemma take_marked_spec keep limit entries out :
  NoDup entries.*1 → (∀ u, u ∈ entries.*1 → u ∉ out) → (size out < limit)%nat →
  take_marked keep limit entries out
  = list_to_set (take (limit - size out) (filter (λ p, keep p.2 = true) entries).*1) ∪ out.
Proof.
  revert out. induction entries as [|[u m] entries IH]; intros out Hnd Hfr Hsz; simpl.
  { rewrite take_nil. set_solver. }
  apply NoDup_cons in Hnd as [Hu Hnd]. rewrite filter_cons. simpl.
  assert (u ∉ out) as Hout by (apply Hfr; left).
  destruct (keep m) eqn:Ek; simpl.
  - assert (size ({[u]} ∪ out) = S (size out)) as Hs.
    { rewrite size_union by set_solver. by rewrite size_singleton. }
    rewrite Hs. destruct (Nat.leb_spec limit (S (size out))) as [Hl|Hl].
    + replace (limit - size out)%nat with 1%nat by lia. simpl. set_solver.
    + rewrite IH; [|done| |lia].
      * rewrite Hs. replace (limit - size out)%nat with (S (limit - S (size out))) by lia.
        simpl. set_solver.
      * intros v Hv. specialize (Hfr v ltac:(by right)). set_solver.
  - destruct (Nat.leb_spec limit (size out)) as [Hl|Hl]; [lia|].
    apply IH; [done| |done]. intros v Hv. apply Hfr. by right.
Qed.

Lemma nip65_relays_spec keep limit r :
  (0 < limit)%N →
  nip65_relays keep limit r =
    match nip65 r with
    | Some l => list_to_set (take (N.to_nat limit) (filter (λ p, keep p.2 = true) (Nip65.iter l)).*1)
    | None => ∅
    end.
Proof.
  intros Hl. unfold nip65_relays. destruct (nip65 r) as [l|]; [|done].
  rewrite take_marked_spec.
  - rewrite size_empty, Nat.sub_0_r. set_solver.
  - apply Nip65.NoDup_iter_keys.
  - set_solver.
  - rewrite size_empty. lia.
Qed.

Lemma extend_from_histogram_spec out hist limit :
  extend_from_histogram out hist limit = list_to_set (take (N.to_nat limit) (ranked hist)).*1 ∪ out.
Proof.
  unfold extend_from_histogram. case_decide as E.
  - subst. unfold ranked. rewrite dom_empty_L. unfold btree_iter. rewrite elements_empty.
    destruct (N.to_nat limit); simpl; set_solver.
  - generalize (take (N.to_nat limit) (ranked hist)). intros l. revert out.
    induction l as [|p l IH]; intros out; simpl; [set_solver|]. rewrite IH. set_solver.
Qed.

Lemma elem_of_ranked hist u n : (u, n) ∈ ranked hist ↔ hist !! u = Some n.
Proof.
  unfold ranked. rewrite merge_sort_Permutation, list_elem_of_omap. split.
  - intros (v & _ & E). destruct (hist !! v) eqn:Ev; simplify_eq/=. done.
  - intros E. exists u. rewrite elem_of_btree_iter, elem_of_dom, E. eauto.
Qed.

Lemma size_take_set (l : list RelayUrl) n : (size (list_to_set (take n l) : gset RelayUrl) ≤ n)%nat.
Proof.
  trans (length (take n l)); [|rewrite length_take; lia].
  generalize (take n l). intros k. induction k as [|x k IH]; simpl; [done|].
  etrans; [apply size_union_le|]. rewrite size_singleton. lia.
Qed.
End selection.

(** ** Breaking down a filter *)

Section collect.
Context `{FasterHex, Secp256k1, UrlCrate} {DB : Type}.
Implicit Types (i : Inner (DB := DB)) (url : RelayUrl) (pk : PublicKey).

(** [out] asks [url] about [pk]. *)
Definition asks (out : gmap RelayUrl (gset PublicKey)) url pk : Prop := pk ∈ default ∅ (out !! url).

Lemma asks_iff out url pk : asks out url pk ↔ ∃ pks, out !! url = Some pks ∧ pk ∈ pks.
Proof.
  unfold asks. destruct (out !! url) as [s|]; simpl; [|set_solver].
  split; [by exists s|]. by intros (? & [= <-] & ?).
Qed.

Lemma asks_add_key out pk url url' pk' :
  asks (add_key out pk url) url' pk' ↔ asks out url' pk' ∨ (url' = url ∧ pk' = pk).
Proof.
  unfold asks, add_key. destruct (decide (url' = url)) as [->|Hne].
  - rewrite lookup_insert_eq. simpl. set_solver.
  - rewrite lookup_insert_ne by done. naive_solver.
Qed.

Lemma asks_add_keys out pk urls url' pk' :
  asks (foldl (λ out url, add_key out pk url) out urls) url' pk' ↔
  asks out url' pk' ∨ (url' ∈ urls ∧ pk' = pk).
Proof.
  revert out. induction urls as [|u urls IH]; intros out; simpl; [set_solver|].
  rewrite IH, asks_add_key. set_solver.
Qed.

Lemma asks_snapshot out (snap : list (PublicKey * gset RelayUrl)) url pk :
  asks (foldl (λ out p, foldl (λ out url, add_key out p.1 url) out (elements p.2)) out snap) url pk ↔
  asks out url pk ∨ ∃ s, (pk, s) ∈ snap ∧ url ∈ s.
Proof.
  revert out. induction snap as [|[pk0 s0] snap IH]; intros out; simpl; [set_solver|].
  rewrite IH, asks_add_keys, elem_of_elements. set_solver.
Qed.

Definition no_empty (out : gmap RelayUrl (gset PublicKey)) : Prop :=
  ∀ url pks, out !! url = Some pks → ∃ pk, pk ∈ pks.

Lemma no_empty_snapshot out (snap : list (PublicKey * gset RelayUrl)) :
  no_empty out →
  no_empty (foldl (λ out p, foldl (λ out url, add_key out p.1 url) out (elements p.2)) out snap).
Proof.
  revert out. induction snap as [|[pk0 s0] snap IH]; intros out Hne; simpl; [done|].
  apply IH. generalize (elements s0). intros urls. revert out Hne.
  induction urls as [|u urls IHu]; intros out Hne; simpl; [done|]. apply IHu.
  intros url pks. unfold add_key. destruct (decide (url = u)) as [->|Hn].
  - rewrite lookup_insert_eq. intros [= <-]. exists pk0. set_solver.
  - rewrite lookup_insert_ne by done. apply Hne.
Qed.

(** [url] is one of the relays selected for [pk]. *)
Definition serves i (needs_dm : bool) (d : Direction) url pk : Prop :=
  ∃ r, routes i !! pk = Some r ∧ url ∈ directional_relays i needs_dm d r.

Lemma collect_spec i keys needs_dm d url pk :
  asks (collect_directional i keys needs_dm d) url pk ↔ pk ∈ keys ∧ serves i needs_dm d url pk.
Proof.
  unfold collect_directional. rewrite asks_snapshot. unfold asks. rewrite lookup_empty. split.
  - intros [?|(s & Hin & Hu)]; [set_solver|].
    apply list_elem_of_omap in Hin as (pk' & Hk & E).
    destruct (routes i !! pk') as [r|] eqn:Er; simplify_eq/=.
    apply elem_of_btree_iter in Hk. split; [done|]. by exists r.
  - intros (Hk & r & Er & Hu). right. eexists. split; [|exact Hu].
    apply list_elem_of_omap. exists pk. rewrite Er. split; [by apply elem_of_btree_iter|done].
Qed.

Lemma collect_no_empty i keys needs_dm d : no_empty (collect_directional i keys needs_dm d).
Proof. apply no_empty_snapshot. intros ??. by rewrite lookup_empty. Qed.

Lemma collect_empty i keys needs_dm d :
  collect_directional i keys needs_dm d = ∅ ↔ ∀ pk url, pk ∈ keys → ¬ serves i needs_dm d url pk.
Proof.
  split.
  - intros E pk url Hk Hs. assert (asks (collect_directional i keys needs_dm d) url pk) as Ha
      by by apply collect_spec.
    rewrite E in Ha. apply asks_iff in Ha as (? & Hl & _). by rewrite lookup_empty in Hl.
  - intros Hno. apply map_empty. intros url. apply eq_None_not_Some. intros [pks Hl].
    destruct (collect_no_empty _ _ _ _ _ _ Hl) as [pk Hpk].
    assert (asks (collect_directional i keys needs_dm d) url pk) as Ha
      by (apply asks_iff; eauto).
    apply collect_spec in Ha as [Hk Hs]. by apply (Hno pk url).
Qed.

Definition both_relays i (needs_dm : bool) (r : UserRoutes) : gset RelayUrl :=
  outbox r (sel_limits i) (policy i) ∪ inbox r (sel_limits i) (policy i)
  ∪ (if needs_dm then dm_relays r (dm_limit i) (policy i) else ∅).

Lemma both_relays_spec i (needs_dm : bool) (r : UserRoutes) url :
  url ∈ both_relays i needs_dm r ↔
  url ∈ directional_relays i needs_dm Outbox r ∨ url ∈ directional_relays i needs_dm Inbox r.
Proof. unfold both_relays, directional_relays. destruct needs_dm; set_solver. Qed.

(** A fold that collects the relays of the keys with routes. *)
Lemma fold_routes_spec i (select : UserRoutes → gset RelayUrl) (keys : list PublicKey) (acc : gset RelayUrl) url :
  url ∈ foldl (λ acc pk, match routes i !! pk with Some r => acc ∪ select r | None => acc end) acc keys ↔
  url ∈ acc ∨ ∃ pk r, pk ∈ keys ∧ routes i !! pk = Some r ∧ url ∈ select r.
Proof.
  revert acc. induction keys as [|k keys IH]; intros acc; simpl; [set_solver|].
  rewrite IH. setoid_rewrite elem_of_cons. destruct (routes i !! k) as [r|] eqn:Er.
  - rewrite elem_of_union. split.
    + intros [[?|?]|(pk & r' & ? & ? & ?)]; [by left|right; exists k, r; auto|].
      right. exists pk, r'. auto.
    + intros [?|(pk & r' & [->|?] & E & ?)]; [by left; left| |right; exists pk, r'; auto].
      left; right. congruence.
  - split.
    + intros [?|(pk & r' & ? & ? & ?)]; [by left|right; exists pk, r'; auto].
    + intros [?|(pk & r' & [->|?] & E & ?)]; [by left|congruence|right; exists pk, r'; auto].
Qed.

Lemma collect_union_spec i targets needs_dm url :
  url ∈ collect_union_relays i targets needs_dm ↔
  ∃ pk, pk ∈ targets ∧ (serves i needs_dm Outbox url pk ∨ serves i needs_dm Inbox url pk).
Proof.
  unfold collect_union_relays.
  trans (url ∈ foldl (λ acc pk, match routes i !! pk with
    | Some r => acc ∪ both_relays i needs_dm r | None => acc end) ∅ (btree_iter pk_le targets)).
  { unfold both_relays. match goal with |- url ∈ ?a ↔ url ∈ ?b => assert (a = b) as ->; [|done] end.
    apply foldl_eq. intros acc pk.
    destruct (routes i !! pk); [|done]. by rewrite !(assoc_L (∪)). }
  rewrite fold_routes_spec. setoid_rewrite elem_of_btree_iter. setoid_rewrite both_relays_spec.
  unfold serves. split.
  - intros [?|(pk & r & ? & ? & [?|?])]; [set_solver|..]; exists pk; (split; [done|]); [left|right]; eauto.
  - intros (pk & ? & [(r & ? & ?)|(r & ? & ?)]); right; exists pk, r; auto.
Qed.
End collect.

(** What a filter asks of an event beyond its authors, and beyond one tag. *)
Section narrowing.
Implicit Types (f : Filter) (e : Event).

Lemma satisfies_authors f pks e :
  Filter.satisfies (Filter.set_authors f (Some pks)) e ↔
  Filter.satisfies (Filter.set_authors f None) e ∧ Event.pubkey e ∈ pks.
Proof.
  unfold Filter.satisfies. simpl. split.
  - intros (H1 & H2 & H3 & H4 & H5 & H6). split; [split_and!; done|].
    destruct (H2 pks eq_refl) as (a & Ha & E).
    by apply PublicKey.pk_to_byte_array_inj in E as <-.
  - intros ((H1 & _ & H3 & H4 & H5 & H6) & Hin). split_and!; try done. intros ? [= <-]. eauto.
Qed.

Lemma satisfies_authors_none f e :
  Filter.satisfies f e ↔
  Filter.satisfies (Filter.set_authors f None) e ∧ ∀ pks, Filter.authors f = Some pks → Event.pubkey e ∈ pks.
Proof.
  destruct (Filter.authors f) as [pks|] eqn:E.
  - assert (f = Filter.set_authors f (Some pks)) as Hf by (destruct f; simpl in *; by subst).
    rewrite Hf at 1. rewrite satisfies_authors. naive_solver.
  - assert (f = Filter.set_authors f None) as Hf by (destruct f; simpl in *; by subst).
    rewrite Hf at 1. naive_solver.
Qed.

(** The filter without its values for [letter]. *)
Definition without_tag f letter : Filter :=
  Filter.set_generic_tags f (filter (λ p, p.1 ≠ letter) (Filter.generic_tags f)).

Lemma satisfies_tag f letter vs e :
  IndexMap.wf (Filter.generic_tags f) → IndexMap.get (Filter.generic_tags f) letter = Some vs →
  Filter.satisfies f e ↔
  Filter.satisfies (without_tag f letter) e ∧ Filter.carries_tag (Event.tags e) letter vs.
Proof.
  intros Hwf Hget. apply IndexMap.get_elem in Hget as Hin; [|done].
  unfold Filter.satisfies, without_tag. simpl. split.
  - intros (H1 & H2 & H3 & H4 & H5 & H6). split.
    + split_and!; try done. intros l v [_ Hlv]%list_elem_of_filter. by apply H6.
    + apply Filter.Event_has_tag. by apply H6.
  - intros ((H1 & H2 & H3 & H4 & H5 & H6) & Ht). split_and!; try done. intros l v Hlv.
    destruct (decide (l = letter)) as [->|Hne].
    + apply (IndexMap.get_elem _ _ _ Hwf) in Hlv. assert (v = vs) as -> by congruence.
      by apply Filter.Event_has_tag.
    + apply H6. by apply list_elem_of_filter.
Qed.

Lemma without_tag_insert f letter vs e :
  IndexMap.wf (Filter.generic_tags f) →
  Filter.satisfies (without_tag (Filter.set_generic_tags f
    (IndexMap.insert (Filter.generic_tags f) letter vs)) letter) e ↔
  Filter.satisfies (without_tag f letter) e.
Proof.
  intros Hwf. unfold Filter.satisfies, without_tag. simpl.
  setoid_rewrite list_elem_of_filter. simpl.
  setoid_rewrite <-(λ k v, IndexMap.get_elem _ k v (IndexMap.insert_wf _ letter vs Hwf)).
  setoid_rewrite <-(λ k v, IndexMap.get_elem _ k v Hwf).
  setoid_rewrite IndexMap.get_insert.
  split; intros (H1 & H2 & H3 & H4 & H5 & H6); (split_and!; [done..|]); intros l v [Hne Hg];
    apply H6; split; try done; rewrite decide_False in *; done.
Qed.

Lemma satisfies_insert_tag f letter vs e :
  IndexMap.wf (Filter.generic_tags f) →
  Filter.satisfies (Filter.set_generic_tags f (IndexMap.insert (Filter.generic_tags f) letter vs)) e ↔
  Filter.satisfies (without_tag f letter) e ∧ Filter.carries_tag (Event.tags e) letter vs.
Proof.
  intros Hwf. rewrite (satisfies_tag _ letter vs); simpl.
  - by rewrite without_tag_insert.
  - by apply IndexMap.insert_wf.
  - by rewrite IndexMap.get_insert, decide_True.
Qed.
End narrowing.

(** ** Learning *)

Section learning.
Context `{UrlCrate} {DB : Type}.
Implicit Types (r : UserRoutes) (e : Event) (p : AllowedRelays).

(** *** The counters *)

Lemma bump_comm (m : gmap RelayUrl N) a b : bump (bump m a) b = bump (bump m b) a.
Proof.
  destruct (decide (a = b)) as [->|Hne]; [done|]. unfold bump.
  rewrite !lookup_insert_ne by done. by apply insert_insert_ne.
Qed.

Lemma foldl_bump_Permutation (m : gmap RelayUrl N) l l' :
  l ≡ₚ l' → foldl bump m l = foldl bump m l'.
Proof.
  intros Hp. revert m. induction Hp; intros m; simpl; [done|auto|by rewrite bump_comm|].
  etrans; [apply IHHp1|apply IHHp2].
Qed.

(** How often [url] occurs in [l]. *)
Definition occurs (url : RelayUrl) (l : list RelayUrl) : N := N.of_nat (length (filter (λ u, u = url) l)).

Lemma foldl_bump_count (l : list RelayUrl) (m : gmap RelayUrl N) url :
  (∀ u n, m !! u = Some n → 0 < n ∧ n <= u32_max)%N →
  foldl bump m l !! url =
    if decide (occurs url l = 0%N) then m !! url
    else Some (N.min u32_max (default 0%N (m !! url) + occurs url l)).
Proof.
  revert m. induction l as [|u l IH]; intros m Hm; [done|]. cbn [foldl].
  rewrite IH.
  2:{ intros v n. unfold bump, u32_max in *. destruct (decide (v = u)) as [->|].
      - rewrite lookup_insert_eq. intros [= <-]. destruct (m !! u); lia.
      - rewrite lookup_insert_ne by done. apply Hm. }
  unfold occurs. rewrite filter_cons. unfold bump, u32_max in *.
  destruct (decide (u = url)) as [->|Hne].
  - cbn [length]. rewrite (decide_False (P := N.of_nat (S _) = 0%N)) by lia. rewrite lookup_insert_eq.
    destruct (m !! url) as [n|] eqn:E; simpl default; unfold id; clear IH.
    + apply Hm in E. case_decide; f_equal; lia.
    + clear Hm E. case_decide; f_equal; lia.
  - by rewrite lookup_insert_ne by done.
Qed.

(** *** What an event does to each part of the entry *)

(** The relays an event hints at. *)
Definition hinted p e : list RelayUrl :=
  if decide (Event.kind e = Kind.RELAY_LIST) then []
  else if decide (Event.kind e = Nip17.DM_RELAYS) then []
  else filter (λ u, is_allowed p u = true)
    (omap (λ tag, if decide (Tag.kind tag ≠ TagKind.single_letter (SingleLetterTag.lowercase Alphabet.R))
                  then None else Tag.content tag ≫= λ v, result_ok (RelayUrl.parse v)) (Event.tags e)).

Definition received p (src : option RelayUrl) : list RelayUrl :=
  filter (λ u, is_allowed p u = true) (option_list src).

(** The list an event announces for NIP-65, and for NIP-17. *)
Definition announced65 e : option Nip65.RelayList :=
  if decide (Event.kind e = Kind.RELAY_LIST) then result_ok (Nip65.from_event e) else None.
Definition announced17 p e : option (list RelayUrl) :=
  if decide (Event.kind e = Nip17.DM_RELAYS)
  then filter (λ u, is_allowed p u = true) <$> result_ok (Nip17.parse_dm_relays_event e) else None.

(** A list with its date, replaced by a newer one. *)
Definition supersede {A} (new : option A) (at_ : Timestamp) (old : A * option Timestamp) :
    A * option Timestamp :=
  match new with
  | Some l => if newer old.2 at_ then (l, Some at_) else old
  | None => old
  end.

Definition entry_after p e (src : option RelayUrl) r : UserRoutes :=
  let r65 := supersede (Some <$> announced65 e) (Event.created_at e) (nip65 r, nip65_event_at r) in
  let r17 := supersede (announced17 p e) (Event.created_at e) (nip17 r, nip17_event_at r) in
  mkRoutes r65.1 r65.2 (nip65_fetched_at r) r17.1 r17.2 (nip17_fetched_at r)
    (foldl bump (hints r) (hinted p e)) (foldl bump (most_received r) (received p src)).

Lemma harvest_spec e r p :
  harvest_relay_hints e r p =
  mkRoutes (nip65 r) (nip65_event_at r) (nip65_fetched_at r) (nip17 r) (nip17_event_at r)
    (nip17_fetched_at r)
    (foldl bump (hints r) (filter (λ u, is_allowed p u = true)
      (omap (λ tag, if decide (Tag.kind tag ≠ TagKind.single_letter (SingleLetterTag.lowercase Alphabet.R))
                    then None else Tag.content tag ≫= λ v, result_ok (RelayUrl.parse v)) (Event.tags e))))
    (most_received r).
Proof.
  unfold harvest_relay_hints. revert r. induction (Event.tags e) as [|tag tags IH]; intros r.
  { by destruct r. }
  cbn [foldl omap list_omap]. rewrite IH. clear IH.
  case_decide; [done|]. destruct (Tag.content tag) as [v|]; [|done]. simpl.
  destruct (RelayUrl.parse v) as [u|]; simpl; [|done].
  rewrite filter_cons. destruct (is_allowed p u); simpl; [|done]. done.
Qed.

Lemma entry_after_spec p e src r :
  (let r := apply_event_to_entry e r p in
   match src with
   | Some relay => if is_allowed p relay then bump_most_received r relay else r
   | None => r
   end) = entry_after p e src r.
Proof.
  unfold entry_after, received.
  assert (apply_event_to_entry e r p = entry_after p e None r) as ->.
  { unfold apply_event_to_entry, entry_after, announced65, announced17, hinted, received. simpl.
    destruct (decide (Event.kind e = Kind.RELAY_LIST)) as [E1|E1].
    - rewrite E1. rewrite (decide_False (P := Kind.RELAY_LIST = Nip17.DM_RELAYS)) by done.
      destruct (Nip65.from_event e); simpl; [|by destruct r].
      destruct (newer _ _); by destruct r.
    - destruct (decide (Event.kind e = Nip17.DM_RELAYS)) as [E2|E2].
      + destruct (Nip17.parse_dm_relays_event e); simpl; [|by destruct r].
        destruct (newer _ _); by destruct r.
      + by rewrite harvest_spec. }
  destruct src as [relay|]; simpl; [|by unfold entry_after]. rewrite filter_cons.
  destruct (is_allowed p relay); by rewrite ?decide_True, ?decide_False by done.
Qed.

Lemma learn_spec (i : Inner (DB := DB)) e src :
  learn i e src = mkInner (options i) (db i)
    (<[Event.pubkey e := entry_after (policy i) e src (default no_routes (routes i !! Event.pubkey e))]>
       (routes i)).
Proof. unfold learn. f_equal. f_equal. apply entry_after_spec. Qed.

(** *** Two events that do not compete can be swapped *)

(** Two different lists of one kind, by one author, of one date. *)
Definition tied e1 e2 : Prop :=
  e1 ≠ e2 ∧ Event.pubkey e1 = Event.pubkey e2 ∧ Event.kind e1 = Event.kind e2
  ∧ Event.created_at e1 = Event.created_at e2 ∧ needs_persist e1 = true.

Lemma supersede_comm {A} (n1 n2 : option A) t1 t2 old :
  (t1 = t2 → n1 = n2 ∨ n1 = None ∨ n2 = None) →
  supersede n2 t2 (supersede n1 t1 old) = supersede n1 t1 (supersede n2 t2 old).
Proof.
  intros Ht. destruct old as [l [t|]], n1 as [l1|], n2 as [l2|]; try done;
    unfold supersede, newer; simpl;
    repeat match goal with |- context [(?a <? ?b)%N] => destruct (N.ltb_spec a b); simpl end;
    try done; try lia;
    destruct (Ht ltac:(lia)) as [?|[?|?]]; simplify_eq; f_equal; try done; f_equal; lia.
Qed.

Lemma entry_after_comm p e1 s1 e2 s2 r :
  ¬ tied e1 e2 → Event.pubkey e1 = Event.pubkey e2 →
  entry_after p e2 s2 (entry_after p e1 s1 r) = entry_after p e1 s1 (entry_after p e2 s2 r).
Proof.
  intros Hnt Hpk. unfold entry_after; cbn [nip65 nip65_event_at nip65_fetched_at nip17 nip17_event_at
    nip17_fetched_at hints most_received].
  rewrite <-!surjective_pairing.
  assert (Event.created_at e1 = Event.created_at e2 → e1 = e2 ∨ Event.kind e1 ≠ Event.kind e2 ∨
    needs_persist e1 = false) as Hc.
  { intros Ht. destruct (decide (e1 = e2)); [by left|]. right.
    destruct (decide (Event.kind e1 = Event.kind e2)); [|by left]. right.
    destruct (needs_persist e1) eqn:En; [|done]. by destruct Hnt. }
  assert (needs_persist e1 = false → announced65 e1 = None ∧ announced17 p e1 = None) as Hnp.
  { unfold needs_persist, announced65, announced17. intros [? ?]%orb_false_elim. reflect_bools.
    by rewrite !decide_False by done. }
  rewrite (supersede_comm (Some <$> announced65 e1)).
  2:{ intros [->|[Hk|Hn]]%Hc; [by left| |apply Hnp in Hn as [-> _]; by right; left].
      right. unfold announced65. repeat case_decide; try (by left); try (by right). congruence. }
  rewrite (supersede_comm (announced17 p e1)).
  2:{ intros [->|[Hk|Hn]]%Hc; [by left| |apply Hnp in Hn as [_ ->]; by right; left].
      right. unfold announced17. repeat case_decide; try (by left); try (by right). congruence. }
  rewrite <-!foldl_app. f_equal; apply foldl_bump_Permutation; apply Permutation_app_comm.
Qed.

Lemma learn_comm (i : Inner (DB := DB)) e1 s1 e2 s2 :
  ¬ tied e1 e2 → learn (learn i e1 s1) e2 s2 = learn (learn i e2 s2) e1 s1.
Proof.
  intros Hnt. rewrite !learn_spec. cbn [options db routes policy]. f_equal.
  destruct (decide (Event.pubkey e1 = Event.pubkey e2)) as [E|Hne].
  - rewrite E, !lookup_insert_eq, !insert_insert_eq. simpl. f_equal. by apply entry_after_comm.
  - rewrite !lookup_insert_ne by done. by apply insert_insert_ne.
Qed.
End learning.
