(* ===== verification/GossipTheorems.v ===== *)
(** * Relay routing: theorems

    The relays selected for a user, a filter and an event are exactly those the
    routes name, within the limits and the policy; what the graph learns does not
    depend on the order of arrival; refreshing and restarting keep the newest
    list. *)

From Stdlib Require Import Ascii NArith Lia.
From S2P Require Import Prelude Encoding Text IpAddr Ids Tags Event Filter FilterWire Storage SpecProofs Samples.
From S2P Require Import Database Memory MemoryProofs Backends.
From S2P Require Import Nips Message Sync Server HttpAuth RelaySamples RelayLists Gossip GossipProofs.

(** ** Selection *)

Section selection.
Context `{UrlCrate, !UrlCrateLaws}.

(** The three sources of a user's relays. *)
Definition first_listed (keep : Nip65.RelayList → list RelayUrl) (n : N) (r : UserRoutes) : list RelayUrl :=
  match nip65 r with Some l => take (N.to_nat n) (keep l) | None => [] end.
Definition best (n : N) (hist : gmap RelayUrl N) : list RelayUrl := (take (N.to_nat n) (ranked hist)).*1.

Lemma selected_spec (s : gset RelayUrl) r l p (base : list RelayUrl) :
  s = list_to_set base →
  let out := apply_policy (extend_from_histogram (extend_from_histogram s (hints r) (sel_hint l))
               (most_received r) (sel_most_received l)) p in
  (∀ u, u ∈ out ↔ is_allowed p u = true ∧
     (u ∈ base ∨ u ∈ best (sel_hint l) (hints r) ∨ u ∈ best (sel_most_received l) (most_received r)))
  ∧ (size out ≤ size s + N.to_nat (sel_hint l) + N.to_nat (sel_most_received l))%nat.
Proof.
  intros Hs out. subst out. rewrite !extend_from_histogram_spec. unfold apply_policy, best. split.
  - intros u. rewrite elem_of_filter, !elem_of_union, !elem_of_list_to_set, Hs, elem_of_list_to_set. tauto.
  - etrans; [apply size_filter_le|]. rewrite !fmap_take.
    etrans; [apply size_union_le|]. pose proof (size_take_set (ranked (most_received r)).*1 (N.to_nat (sel_most_received l))).
    pose proof (size_union_le (list_to_set (take (N.to_nat (sel_hint l)) (ranked (hints r)).*1)) s).
    pose proof (size_take_set (ranked (hints r)).*1 (N.to_nat (sel_hint l))). lia.
Qed.

(** The relays a user writes to are the first write relays of the user's list
    in address order, the most frequent hints and the relays that delivered most,
    each up to its own limit and as far as the policy allows them, so never more
    than the three limits together; likewise for the relays the user reads from,
    and the relays for direct messages are the first allowed ones of their list.
    A hint that is left out is no more frequent than one that is kept. *)
Theorem selection_exact (r : UserRoutes) (l : Limits) (dm : N) (p : AllowedRelays) :
  (0 < sel_write l)%N → (0 < sel_read l)%N →
  (∀ u, u ∈ outbox r l p ↔ is_allowed p u = true ∧
     (u ∈ first_listed Nip65.write_relays (sel_write l) r
      ∨ u ∈ best (sel_hint l) (hints r) ∨ u ∈ best (sel_most_received l) (most_received r)))
  ∧ (N.of_nat (size (outbox r l p)) <= sel_write l + sel_hint l + sel_most_received l)%N
  ∧ (∀ u, u ∈ inbox r l p ↔ is_allowed p u = true ∧
     (u ∈ first_listed Nip65.read_relays (sel_read l) r
      ∨ u ∈ best (sel_hint l) (hints r) ∨ u ∈ best (sel_most_received l) (most_received r)))
  ∧ (N.of_nat (size (inbox r l p)) <= sel_read l + sel_hint l + sel_most_received l)%N
  ∧ (∀ u, u ∈ dm_relays r dm p ↔ is_allowed p u = true ∧ u ∈ take (N.to_nat dm) (nip17 r))
  ∧ (∀ hist n a b, a ∈ take n (ranked hist) → b ∈ drop n (ranked hist) → (b.2 <= a.2)%N).
Proof.
  intros Hw Hr.
  assert (nip65_relays Nip65.is_write (sel_write l) r
    = list_to_set (first_listed Nip65.write_relays (sel_write l) r)) as Ew.
  { rewrite nip65_relays_spec by done. unfold first_listed. by destruct (nip65 r). }
  assert (nip65_relays (λ m, Nip65.is_read m || bool_decide (m = Nip65.ReadWrite)) (sel_read l) r
    = list_to_set (first_listed Nip65.read_relays (sel_read l) r)) as Er.
  { rewrite nip65_relays_spec by done. unfold first_listed, Nip65.read_relays.
    destruct (nip65 r) as [li|]; [|done]. do 3 f_equal. apply list_filter_iff.
    intros [u []]; simpl; by rewrite ?bool_decide_eq_true. }
  assert (∀ keep n, size (list_to_set (first_listed keep n r) : gset RelayUrl) ≤ N.to_nat n)%nat as Hsz.
  { intros keep n. unfold first_listed. destruct (nip65 r); [apply size_take_set|].
    apply Nat.le_0_l. }
  pose proof (selected_spec _ r l p _ Ew) as [Ho So].
  pose proof (selected_spec _ r l p _ Er) as [Hi Si].
  split_and!.
  - exact Ho.
  - unfold outbox. pose proof (Hsz Nip65.write_relays (sel_write l)). rewrite <-Ew in *. lia.
  - exact Hi.
  - unfold inbox. pose proof (Hsz Nip65.read_relays (sel_read l)). rewrite <-Er in *. lia.
  - intros u. unfold dm_relays, apply_policy. by rewrite elem_of_filter, elem_of_list_to_set.
  - intros hist n a b Ha Hb.
    assert (StronglySorted rank_le (ranked hist)) as Hs.
    { apply Sorted_StronglySorted; [apply _|]. apply Sorted_merge_sort; apply _. }
    rewrite <-(take_drop n (ranked hist)) in Hs.
    apply (StronglySorted_app_1_elem_of rank_le _ _ a b) in Hs; [|done|done].
    destruct Hs as [?|[? _]]; lia.
Qed.
End selection.

(** ** Filters and events *)

Section breaking_down.
Context `{FasterHex, !FasterHexLaws, Secp256k1, UrlCrate, !UrlCrateLaws} {DB : Type}.
Implicit Types (i : Inner (DB := DB)) (f : Filter) (e : Event).

(** The keys a filter names in its [#p] values. *)
Definition p_keys f : option (list PublicKey) :=
  match IndexMap.get (Filter.generic_tags f) p_tag with
  | Some vs => Some (omap (λ s, result_ok (PublicKey.parse s)) vs)
  | None => None
  end.

(** The [#p] values are keys in the hex form the protocol requires. *)
Definition canonical_p f : Prop :=
  ∀ vs v, IndexMap.get (Filter.generic_tags f) p_tag = Some vs → v ∈ vs →
    ∃ pk, PublicKey.valid pk ∧ v = PublicKey.to_hex pk.

Definition named f (pk : PublicKey) : Prop :=
  (∃ pks, Filter.authors f = Some pks ∧ pk ∈ pks) ∨ (∃ ps, p_keys f = Some ps ∧ pk ∈ ps).

(** The graph knows [url] as a relay for what [f] wants of [pk]. *)
Definition routed i f (url : RelayUrl) (pk : PublicKey) : Prop :=
  let dm := pattern_needs_dm f in
  match Filter.authors f, p_keys f with
  | Some _, None => serves i dm Outbox url pk
  | None, Some _ => serves i dm Inbox url pk
  | _, _ => serves i dm Outbox url pk ∨ serves i dm Inbox url pk
  end.

Lemma p_keys_values f vs ps pk :
  canonical_p f → IndexMap.get (Filter.generic_tags f) p_tag = Some vs → p_keys f = Some ps →
  pk ∈ ps → PublicKey.to_hex pk ∈ vs.
Proof.
  intros Hc Hg Hp Hin. unfold p_keys in Hp. rewrite Hg in Hp. simplify_eq/=.
  apply list_elem_of_omap in Hin as (v & Hv & E). destruct (Hc vs v Hg Hv) as (pk' & Hval & ->).
  rewrite PublicKey.pk_parse_to_hex in E by done. by simplify_eq/=.
Qed.

Lemma break_down_authors i f pks m url e :
  Filter.authors f = Some pks → p_keys f = None →
  m = narrow_authors f (collect_directional i (list_to_set pks) (pattern_needs_dm f) Outbox) →
  (∃ f', m !! url = Some f' ∧ matches f' e) ↔
  matches f e ∧ serves i (pattern_needs_dm f) Outbox url (Event.pubkey e).
Proof.
  intros Ha Hp ->. unfold narrow_authors, matches. setoid_rewrite lookup_fmap.
  setoid_rewrite Filter.match_event_default.
  pose proof (collect_spec i (list_to_set pks) (pattern_needs_dm f) Outbox url (Event.pubkey e)) as Hs.
  rewrite asks_iff, elem_of_list_to_set in Hs. split.
  - intros (f' & E & Hm). destruct (collect_directional _ _ _ _ !! url) as [ks|] eqn:El; simplify_eq/=.
    apply satisfies_authors in Hm as [Hm Hin]. apply elem_of_btree_iter in Hin.
    destruct (proj1 Hs) as [Hk Hv]; [by exists ks|]. split; [|done].
    apply satisfies_authors_none. split; [done|]. intros ? E. by simplify_eq/=.
  - intros [Hm Hv]. apply satisfies_authors_none in Hm as [Hm Hin].
    destruct (proj2 Hs) as (ks & El & Hk); [auto|]. rewrite El. eexists. split; [done|].
    apply satisfies_authors. split; [done|]. by apply elem_of_btree_iter.
Qed.

Lemma break_down_p i f vs ps m url e :
  IndexMap.wf (Filter.generic_tags f) → canonical_p f →
  IndexMap.get (Filter.generic_tags f) p_tag = Some vs → p_keys f = Some ps →
  m = narrow_p_tags f (collect_directional i (list_to_set ps) (pattern_needs_dm f) Inbox) →
  (∃ f', m !! url = Some f' ∧ matches f' e) ↔
  matches f e ∧ ∃ pk, (pk ∈ ps ∧ Filter.carries_tag (Event.tags e) p_tag [PublicKey.to_hex pk])
                      ∧ serves i (pattern_needs_dm f) Inbox url pk.
Proof.
  intros Hwf Hc Hg Hp ->. unfold narrow_p_tags, matches. setoid_rewrite lookup_fmap.
  setoid_rewrite Filter.match_event_default. rewrite (satisfies_tag f p_tag vs) by done.
  pose proof (λ pk, collect_spec i (list_to_set ps) (pattern_needs_dm f) Inbox url pk) as Hs.
  setoid_rewrite asks_iff in Hs. setoid_rewrite elem_of_list_to_set in Hs. split.
  - intros (f' & E & Hm). destruct (collect_directional _ _ _ _ !! url) as [ks|] eqn:El; simplify_eq/=.
    apply satisfies_insert_tag in Hm as [Hm (tag & v & Ht & Hl & Hcont & Hv)]; [|done].
    apply list_elem_of_fmap in Hv as (pk & -> & Hk%elem_of_btree_iter).
    destruct (proj1 (Hs pk)) as [Hin Hv]; [by exists ks|].
    split.
    + split; [done|]. exists tag, (PublicKey.to_hex pk). split_and!; try done. by eapply p_keys_values.
    + exists pk. split; [|done]. split; [done|]. exists tag, (PublicKey.to_hex pk). set_solver.
  - intros [[Hm _] (pk & [Hin (tag & v & Ht & Hl & Hcont & Hv)] & Hserv)].
    apply list_elem_of_singleton in Hv as ->.
    destruct (proj2 (Hs pk)) as (ks & El & Hk); [auto|]. rewrite El. eexists. split; [done|].
    apply satisfies_insert_tag; [done|]. split; [done|]. exists tag, (PublicKey.to_hex pk).
    split_and!; try done. apply list_elem_of_fmap. exists pk. split; [done|]. by apply elem_of_btree_iter.
Qed.


End breaking_down.

Section routing.
Context `{FasterHex, Secp256k1, UrlCrate} {DB : Type}.
Implicit Types (i : Inner (DB := DB)) (e : Event).

(** An event is routed to its author's write relays and to the read relays of
    everyone it tags; a contact list only to the former; and a gift wrap only to
    the direct-message relays of its recipients, never to a public relay of
    anyone.  It is an orphan exactly when there is no such relay, flagged as
    private exactly for a gift wrap, and every relay chosen passes the policy. *)
Theorem event_routed i e :
  let wanted url :=
    if decide (Event.kind e = GIFT_WRAP) then
      ∃ pk, pk ∈ Tags.public_keys (Event.tags e) ∧ url ∈ dm_relays_of i pk
    else url ∈ outbox_relays i (Event.pubkey e) ∨
         (Event.kind e ≠ Kind.CONTACTS ∧
          ∃ pk, pk ∈ Tags.public_keys (Event.tags e) ∧ url ∈ inbox_relays i pk) in
  (∀ url, wanted url → is_allowed (policy i) url = true) ∧
  match break_down_event i e with
  | Relays rs => rs ≠ ∅ ∧ ∀ url, url ∈ rs ↔ wanted url
  | OrphanEvent private => (private = true ↔ Event.kind e = GIFT_WRAP) ∧ ∀ url, ¬ wanted url
  end.
Proof.
  intros wanted.
  assert (∀ r l p url, url ∈ outbox r l p → is_allowed p url = true) as Ho
    by (intros *; unfold outbox, apply_policy; rewrite elem_of_filter; tauto).
  assert (∀ r l p url, url ∈ inbox r l p → is_allowed p url = true) as Hi
    by (intros *; unfold inbox, apply_policy; rewrite elem_of_filter; tauto).
  assert (∀ r l p url, url ∈ dm_relays r l p → is_allowed p url = true) as Hd
    by (intros *; unfold dm_relays, apply_policy; rewrite elem_of_filter; tauto).
  assert (∀ (rs : gset RelayUrl) priv, (∀ url, url ∈ rs ↔ wanted url) →
    (priv = true ↔ Event.kind e = GIFT_WRAP) →
    match (if decide (rs = ∅) then OrphanEvent priv else Relays rs) with
    | Relays rs => rs ≠ ∅ ∧ ∀ url, url ∈ rs ↔ wanted url
    | OrphanEvent private => (private = true ↔ Event.kind e = GIFT_WRAP) ∧ ∀ url, ¬ wanted url
    end) as Hk.
  { intros rs priv Hrs Hp. case_decide as E; [|done]. split; [done|]. intros url Hu%Hrs.
    rewrite E in Hu. set_solver. }
  unfold break_down_event. subst wanted. cbv beta.
  destruct (decide (Event.kind e = GIFT_WRAP)) as [Eg|Eg].
  - split.
    + intros url (pk & _ & Hu). unfold dm_relays_of in Hu. destruct (routes i !! pk); [eauto|set_solver].
    + apply Hk; [|done]. intros url. rewrite fold_routes_spec.
      unfold dm_relays_of. split.
      * intros [?|(pk & r & Hin%elem_of_btree_iter%elem_of_list_to_set & Er & Hu)]; [set_solver|].
        exists pk. by rewrite Er.
      * intros (pk & Hin & Hu). destruct (routes i !! pk) as [r|] eqn:Er; [|set_solver]. right.
        exists pk, r. by rewrite elem_of_btree_iter, elem_of_list_to_set.
  - split.
    + unfold outbox_relays, inbox_relays. intros url [Hu|(_ & pk & _ & Hu)];
        destruct (routes i !! _); eauto; set_solver.
    + apply Hk; [|done]. intros url. destruct (decide (Event.kind e ≠ Kind.CONTACTS)) as [Hc|Hc].
      * rewrite fold_routes_spec. unfold inbox_relays. split.
        -- intros [?|(pk & r & Hin%elem_of_btree_iter%elem_of_list_to_set & Er & Hu)]; [by left|].
           right. split; [done|]. exists pk. by rewrite Er.
        -- intros [?|(_ & pk & Hin & Hu)]; [by left|].
           destruct (routes i !! pk) as [r|] eqn:Er; [|set_solver]. right.
           exists pk, r. by rewrite elem_of_btree_iter, elem_of_list_to_set.
      * split; [by left|]. intros [?|[? _]]; [done|]. by destruct Hc.
Qed.
End routing.

(** ** What the graph learns *)

Section learned.
Context `{FasterHex, Secp256k1, UrlCrate} {DB : Type} `{!NostrDatabase DB}.

(** One delivery: the time at the store, the event, and the relay it came from. *)
Definition delivery : Type := result Timestamp string * Event * option RelayUrl.

Definition process_all (i : Inner (DB := DB)) (ds : list delivery) : Inner :=
  foldl (λ i d, process d.1.1 i d.1.2 d.2) i ds.

Definition learn_all (i : Inner (DB := DB)) (ds : list delivery) : Inner :=
  foldl (λ i d, learn i d.1.2 d.2) i ds.

Lemma process_all_routes (i : Inner (DB := DB)) ds :
  routes (process_all i ds) = routes (learn_all i ds) ∧ options (process_all i ds) = options i.
Proof.
  assert (∀ ds (i j : Inner (DB := DB)), routes i = routes j → options i = options j →
    routes (process_all i ds) = routes (learn_all j ds) ∧ options (process_all i ds) = options j) as H'.
  { clear ds i. induction ds as [|d ds IH]; intros i j Er Eo; [done|]. cbn [process_all learn_all foldl].
    assert (options j = options (learn j d.1.2 d.2)) as -> by done. apply IH; unfold process.
    - destruct (needs_persist d.1.2); cbn [routes]; rewrite !learn_spec; cbn [routes];
        unfold policy; by rewrite Er, Eo.
    - by destruct (needs_persist d.1.2). }
  by apply H'.
Qed.

(** The routes the graph holds do not depend on the order in which events
    arrive from the relays, repeated deliveries included, as long as no two
    different lists of one author and kind carry the same date. *)
Theorem learning_order_free (i : Inner (DB := DB)) (ds ds' : list delivery) :
  ds ≡ₚ ds' → (∀ d1 d2, d1 ∈ ds → d2 ∈ ds → ¬ tied d1.1.2 d2.1.2) →
  routes (process_all i ds) = routes (process_all i ds').
Proof.
  intros Hp Hnt. rewrite !(proj1 (process_all_routes _ _)). f_equal.
  apply foldl_Permutation; [done|]. intros d1 d2 j Hd1 Hd2. apply learn_comm. by apply Hnt.
Qed.

(** *** The entry of one user *)

Definition entry_of (i : Inner (DB := DB)) (pk : PublicKey) : UserRoutes :=
  default no_routes (routes i !! pk).

Definition authored (pk : PublicKey) (ds : list delivery) : list delivery :=
  filter (λ d, Event.pubkey d.1.2 = pk) ds.

Lemma entry_of_learn (i : Inner (DB := DB)) e src pk :
  entry_of (learn i e src) pk =
  if decide (Event.pubkey e = pk) then entry_after (policy i) e src (entry_of i pk) else entry_of i pk.
Proof.
  unfold entry_of. rewrite learn_spec. cbn [routes]. case_decide as E.
  - subst pk. by rewrite lookup_insert_eq.
  - by rewrite lookup_insert_ne.
Qed.

Lemma entry_of_all (i : Inner (DB := DB)) ds pk :
  entry_of (learn_all i ds) pk =
  foldl (λ r d, entry_after (policy i) d.1.2 d.2 r) (entry_of i pk) (authored pk ds).
Proof.
  revert i. induction ds as [|d ds IH]; intros i; [done|]. cbn [learn_all foldl]. rewrite IH.
  unfold authored. rewrite filter_cons, entry_of_learn.
  assert (policy (learn i d.1.2 d.2) = policy i) as -> by done. by case_decide.
Qed.

(** The date and the content of the newest list of a sequence. *)
Lemma supersede_newest {A} (f : delivery → option A) ds old :
  let r := foldl (λ o d, supersede (f d) (Event.created_at d.1.2) o) old ds in
  (∀ d l, d ∈ ds → f d = Some l → ∃ t, r.2 = Some t ∧ (Event.created_at d.1.2 <= t)%N)
  ∧ (∀ t, old.2 = Some t → ∃ t', r.2 = Some t' ∧ (t <= t')%N)
  ∧ (r = old ∨ ∃ d l, d ∈ ds ∧ f d = Some l ∧ r = (l, Some (Event.created_at d.1.2))).
Proof.
  revert old. induction ds as [|d ds IH]; intros old; cbn [foldl].
  { split_and!; [set_solver| |by left]. intros t ->. eexists. split; [done|lia]. }
  specialize (IH (supersede (f d) (Event.created_at d.1.2) old)) as (H1' & H2' & H3').
  assert (∀ t, old.2 = Some t →
    ∃ t', (supersede (f d) (Event.created_at d.1.2) old).2 = Some t' ∧ (t <= t')%N) as Hold.
  { intros t Et. unfold supersede, newer. rewrite Et. destruct (f d); [|eexists; split; [done|lia]].
    destruct (N.ltb_spec t (Event.created_at d.1.2)); simpl; eexists; (split; [done|lia]). }
  assert (∀ l, f d = Some l →
    ∃ t', (supersede (f d) (Event.created_at d.1.2) old).2 = Some t' ∧ (Event.created_at d.1.2 <= t')%N) as Hnew.
  { intros l El. unfold supersede, newer. rewrite El. destruct old as [l0 [t|]]; simpl.
    - destruct (N.ltb_spec t (Event.created_at d.1.2)); simpl; eexists; (split; [done|lia]).
    - eexists. split; [done|lia]. }
  split_and!.
  - intros d' l [->|Hin]%elem_of_cons El; [|by eapply H1'].
    destruct (Hnew l El) as (t & Et & ?). destruct (H2' t Et) as (t' & ? & ?). exists t'. split; [done|lia].
  - intros t Et. destruct (Hold t Et) as (t1 & E1 & ?). destruct (H2' t1 E1) as (t' & ? & ?).
    exists t'. split; [done|lia].
  - destruct H3' as [->|(d' & l & Hin & El & E)].
    + unfold supersede. destruct (f d) as [l|] eqn:El; [|by left].
      destruct (newer _ _); [|by left]. right. exists d, l. split; [left|done].
    + right. exists d', l. split; [by right|done].
Qed.

(** After any deliveries to an empty graph, the relay list kept for a user is
    one the user announced, and no valid list the user announced is newer; its
    date is kept with it.  The same holds of the direct-message relays, cut to the
    allowed ones, and the counters are the numbers of allowed hints and of
    deliveries, capped at the largest 32-bit number. *)
Theorem newest_list_kept (d : DB) o ds pk :
  let i := process_all (inner_new d o) ds in
  let r := entry_of i pk in
  let mine := authored pk ds in
  (∀ x l, x ∈ mine → announced65 x.1.2 = Some l →
     ∃ t, nip65_event_at r = Some t ∧ (Event.created_at x.1.2 <= t)%N)
  ∧ (∀ l, nip65 r = Some l → ∃ x, x ∈ mine ∧ announced65 x.1.2 = Some l
       ∧ nip65_event_at r = Some (Event.created_at x.1.2))
  ∧ (∀ x l, x ∈ mine → announced17 (allowed o) x.1.2 = Some l →
     ∃ t, nip17_event_at r = Some t ∧ (Event.created_at x.1.2 <= t)%N)
  ∧ (nip17 r = [] ∨ ∃ x, x ∈ mine ∧ announced17 (allowed o) x.1.2 = Some (nip17 r)
       ∧ nip17_event_at r = Some (Event.created_at x.1.2))
  ∧ (∀ u, default 0%N (hints r !! u) =
       N.min u32_max (occurs u (concat ((λ x, hinted (allowed o) x.1.2) <$> mine))))
  ∧ (∀ u, default 0%N (most_received r !! u) =
       N.min u32_max (occurs u (concat ((λ x, received (allowed o) x.2) <$> mine)))).
Proof.
  intros i r mine.
  assert (r = foldl (λ r d, entry_after (allowed o) d.1.2 d.2 r) no_routes mine) as Er.
  { subst r i. unfold entry_of at 1. rewrite (proj1 (process_all_routes _ _)).
    exact (entry_of_all (inner_new d o) ds pk). }
  assert ((nip65 r, nip65_event_at r) = foldl (λ o (d : delivery), supersede (Some <$> announced65 d.1.2)
    (Event.created_at d.1.2) o) (nip65 no_routes, nip65_event_at no_routes) mine) as E65.
  { rewrite Er. clear. generalize no_routes. induction mine as [|x l IH]; intros r0; [done|]. cbn [foldl].
    rewrite IH. f_equal. unfold entry_after. simpl. by destruct (supersede _ _ _) as [? ?]. }
  assert ((nip17 r, nip17_event_at r) = foldl (λ o' (d : delivery), supersede (announced17 (allowed o) d.1.2)
    (Event.created_at d.1.2) o') (nip17 no_routes, nip17_event_at no_routes) mine) as E17.
  { rewrite Er. clear. generalize no_routes. induction mine as [|x l IH]; intros r0; [done|]. cbn [foldl].
    rewrite IH. f_equal. unfold entry_after. simpl. by destruct (supersede _ _ _) as [? ?]. }
  assert (∀ u (ls : list (list RelayUrl)), default 0%N (foldl (λ m l, foldl bump m l) ∅ ls !! u)
    = N.min u32_max (occurs u (concat ls))) as Hcount.
  { intros u ls. assert (∀ m, foldl (λ m l, foldl bump m l) m ls = foldl bump m (concat ls)) as ->.
    { induction ls as [|l ls IH]; intros m; [done|]. cbn [foldl concat]. by rewrite foldl_app, IH. }
    rewrite foldl_bump_count by (intros ??; by rewrite lookup_empty). rewrite lookup_empty.
    case_decide as Eo; simpl; [rewrite Eo|]; unfold u32_max; lia. }
  pose proof (supersede_newest (λ d, Some <$> announced65 d.1.2) mine
    (nip65 no_routes, nip65_event_at no_routes)) as (A1 & _ & A3). rewrite <-E65 in A1, A3.
  pose proof (supersede_newest (λ d, announced17 (allowed o) d.1.2) mine
    (nip17 no_routes, nip17_event_at no_routes)) as (B1 & _ & B3). rewrite <-E17 in B1, B3.
  split_and!.
  - intros x l Hx El. apply (A1 x (Some l) Hx). by rewrite El.
  - intros l El. destruct A3 as [[= E _]|(x & l' & Hx & El' & [= E Et])]; [simpl in E; congruence|].
    exists x. destruct (announced65 x.1.2) eqn:Ex; simplify_eq/=. split_and!; try done. congruence.
  - exact B1.
  - destruct B3 as [[= -> _]|(x & l' & Hx & El' & [= -> Et])]; [by left|]. right. by exists x.
  - intros u. rewrite <-Hcount. rewrite Er. do 3 f_equal. clear.
    change (∅ : gmap RelayUrl N) with (hints no_routes). generalize no_routes.
    induction mine as [|x l IH]; intros r0; [done|]. cbn [foldl fmap list_fmap]. by rewrite IH.
  - intros u. rewrite <-Hcount. rewrite Er. do 3 f_equal. clear.
    change (∅ : gmap RelayUrl N) with (most_received no_routes). generalize no_routes.
    induction mine as [|x l IH]; intros r0; [done|]. cbn [foldl fmap list_fmap]. by rewrite IH.
Qed.
End learned.

(** ** Refreshing *)

Section refreshing.
Context `{FasterHex, Secp256k1, UrlCrate} {DB : Type} `{!NostrDatabase DB}.
Implicit Types (i : Inner (DB := DB)).

(** The events of the stream that answer the question. *)
Definition answers (user : PublicKey) (k : ListKind) (items : list (RelayUrl * result Event string)) :
    list Event :=
  filter (λ e, Event.kind e = event_kind k ∧ Event.pubkey e = user)
    (omap (λ it, result_ok it.2) items).

Lemma newest_step_Ok user k acc u e0 :
  newest_step user k acc (u, Ok e0) =
  if decide (Event.kind e0 = event_kind k ∧ Event.pubkey e0 = user)
  then if newer (Event.created_at <$> acc) (Event.created_at e0) then Some e0 else acc else acc.
Proof.
  unfold newest_step. simpl. case_decide as E.
  - destruct E as [Ek Eu]. by rewrite (bool_decide_true _ Ek), (bool_decide_true _ Eu).
  - destruct (decide (Event.kind e0 = event_kind k)) as [E1|E1].
    + rewrite (bool_decide_true _ E1). simpl. rewrite bool_decide_false; [done|]. tauto.
    + by rewrite (bool_decide_false _ E1).
Qed.

Lemma pull_newest_spec user k items acc :
  let r := foldl (newest_step user k) acc items in
  (∀ e, e ∈ answers user k items ∨ acc = Some e →
     ∃ e', r = Some e' ∧ (Event.created_at e <= Event.created_at e')%N)
  ∧ (∀ e, r = Some e → e ∈ answers user k items ∨ acc = Some e).
Proof.
  revert acc. induction items as [|[u it] items IH]; intros acc; simpl.
  { split.
    - intros e [Hn| ->]; [by apply elem_of_nil in Hn|]. exists e. split; [done|lia].
    - intros e ->. by right. }
  destruct (IH (newest_step user k acc (u, it))) as [H1' H2']. unfold answers in *.
  destruct it as [e0|err]; cbn [omap list_omap result_ok snd] in *; [|done].
  rewrite newest_step_Ok in *. rewrite filter_cons.
  destruct (decide (Event.kind e0 = event_kind k ∧ Event.pubkey e0 = user)) as [_|_]; [|done].
    assert (∀ e, e = e0 ∨ acc = Some e → ∃ e', (if newer (Event.created_at <$> acc) (Event.created_at e0)
      then Some e0 else acc) = Some e' ∧ (Event.created_at e <= Event.created_at e')%N) as Hs.
    { intros e He. unfold newer. destruct acc as [a|]; simpl.
      - destruct (N.ltb_spec (Event.created_at a) (Event.created_at e0)); eexists; (split; [done|]);
          destruct He as [->|[= ->]]; lia.
      - eexists. split; [done|]. destruct He as [->|[=]]; lia. }
  split.
  - intros e He. rewrite elem_of_cons in He.
    assert (e ∈ filter (λ e, Event.kind e = event_kind k ∧ Event.pubkey e = user)
      (omap (λ it, result_ok it.2) items) ∨ (e = e0 ∨ acc = Some e)) as [He'|He'] by tauto.
    + apply H1'. by left.
    + destruct (Hs e He') as (e' & E' & ?). destruct (H1' e' (or_intror E')) as (e'' & -> & ?).
      exists e''. split; [done|lia].
  - intros e He. destruct (H2' e He) as [?|Hacc]; [left; by right|].
    destruct (newer _ _); [left; simplify_eq; left|by right].
Qed.

(** Refreshing a user's list without a relay to ask is an error and changes
    nothing; within the minimum interval after the last attempt it succeeds
    without asking anyone and changes nothing.  Otherwise the attempt is recorded
    first, even when it then fails: the pool's error is passed on, no answer
    about this user is [NotFound], and else the newest answer is processed, which
    is at least as new as every answer received. *)
Theorem refresh_outcome now clock i user k discovery stream :
  match refresh now clock i user k discovery stream with
  | (Err NoDiscoveryRelays, i') => discovery = [] ∧ i' = i
  | (Err (Pool e), i') => stream = Err e ∧ i' = mark_fetched now i user k
  | (Err (NotFound u k'), i') =>
      u = user ∧ k' = k ∧ i' = mark_fetched now i user k
      ∧ ∃ items, stream = Ok items ∧ answers user k items = []
  | (Ok _, i') =>
      (i' = i ∧ ∃ prev t, now = Some t ∧ (routes i !! user ≫= λ r, list_fetched_at r k) = Some prev
         ∧ (t < prev + as_secs (min_fetch_interval (options i)))%N)
      ∨ ∃ items e, stream = Ok items ∧ e ∈ answers user k items
         ∧ (∀ e', e' ∈ answers user k items → (Event.created_at e' <= Event.created_at e)%N)
         ∧ i' = process clock (mark_fetched now i user k) e None
  | (Err _, _) => False
  end.
Proof.
  unfold refresh. destruct discovery as [|d0 ds]; [done|].
  destruct (allowed_to_fetch now i user k) eqn:Ea; cbn [negb].
  - unfold pull_newest. destruct stream as [items|err]; simpl; [|done].
    destruct (pull_newest_spec user k items None) as [H1' H2'].
    destruct (foldl (newest_step user k) None items) as [e|].
    + right. destruct (H2' e eq_refl) as [Hin|[=]]. exists items, e. split_and!; try done.
      intros e' He'. destruct (H1' e' (or_introl He')) as (? & [= <-] & ?). done.
    + split_and!; try done. exists items. split; [done|].
      destruct (answers user k items) as [|e l] eqn:El; [done|].
      destruct (H1' e) as (? & [=] & _). left. left.
  - left. split; [done|]. unfold allowed_to_fetch in Ea.
    destruct (routes i !! user ≫= λ r, list_fetched_at r k) as [prev|]; [|done].
    destruct now as [t|]; [|done]. exists prev, t. split_and!; try done.
    rewrite Timestamp.saturating_sub_spec in Ea. apply N.leb_gt in Ea. lia.
Qed.

(** Two callers that both look before either records its attempt both fetch. *)
Lemma concurrent_refreshes_both_fetch i user k t :
  routes i !! user = None →
  allowed_to_fetch (Some t) i user k = true ∧ allowed_to_fetch (Some t) i user k = true
  ∧ ((0 < as_secs (min_fetch_interval (options i)))%N →
     allowed_to_fetch (Some t) (mark_fetched (Some t) i user k) user k = false).
Proof.
  intros Hr. unfold allowed_to_fetch. rewrite Hr. split_and!; try done. intros Hp. cbn [mark_fetched routes options].
  rewrite lookup_insert_eq. rewrite Hr. destruct k; simpl; rewrite Timestamp.saturating_sub_spec; apply N.leb_gt; lia.
Qed.
End refreshing.

(** ** Starting from the store *)

Section restart.
Context `{FasterHex, Secp256k1, UrlCrate} {DB : Type} `{!NostrDatabase DB, !DatabaseContract DB}.

Lemma list_filter_matches pk k e :
  matches (list_filter pk k) e ↔ Event.pubkey e = pk ∧ Event.kind e = event_kind k.
Proof.
  unfold matches. rewrite Filter.match_event_default. unfold Filter.satisfies, list_filter. simpl. split.
  - intros (_ & Ha & Hk & _). destruct (Ha _ eq_refl) as (a & Hin & E).
    apply PublicKey.pk_to_byte_array_inj in E as ->. specialize (Hk _ eq_refl). set_solver.
  - intros [Ep Ek]. split_and!; try done.
    + intros ? [= <-]. exists pk. split; [set_solver|by rewrite Ep].
    + intros ? [= <-]. set_solver.
    + set_solver.
Qed.

(** The newest list of a user in the store. *)
Definition stored_list (st : Spec.t) (pk : PublicKey) (k : ListKind) : option Event :=
  head (query_ref (Spec.live st) (list_filter pk k)).

Lemma stored_list_Some st pk k e :
  keyed (Spec.live st) → stored_list st pk k = Some e →
  live_in (Spec.live st) e ∧ Event.pubkey e = pk ∧ Event.kind e = event_kind k.
Proof.
  intros Hk He. unfold stored_list in He.
  assert (e ∈ query_ref (Spec.live st) (list_filter pk k)) as Hin
    by (destruct (query_ref _ _); simplify_eq/=; left).
  unfold query_ref in Hin. apply elem_of_take_limit, list_elem_of_filter in Hin as [Hm Hin].
  apply elem_of_sorted_events in Hin; [|done]. by apply list_filter_matches in Hm.
Qed.

(** A list alone in its slot is the stored one. *)
Lemma stored_list_unique st pk k e :
  keyed (Spec.live st) → live_in (Spec.live st) e → Event.pubkey e = pk → Event.kind e = event_kind k →
  (∀ e', live_in (Spec.live st) e' → Event.pubkey e' = pk → Event.kind e' = event_kind k → e' = e) →
  stored_list st pk k = Some e.
Proof.
  intros Hk Hl Hp Hkd Hu. unfold stored_list, query_ref.
  assert (filter (matches (list_filter pk k)) (sorted_events (Spec.live st)) = [e]) as ->; [|done].
  assert (NoDup (filter (matches (list_filter pk k)) (sorted_events (Spec.live st)))) as Hnd
    by by apply NoDup_filter, NoDup_sorted_events.
  assert (∀ x, x ∈ filter (matches (list_filter pk k)) (sorted_events (Spec.live st)) ↔ x = e) as Hx.
  { intros x. rewrite list_elem_of_filter, elem_of_sorted_events, list_filter_matches by done.
    split; [intros ([? ?] & ?); by apply Hu|]. intros ->. done. }
  destruct (filter _ _) as [|a [|b l]].
  - exfalso. by apply (not_elem_of_nil e), Hx.
  - f_equal. apply Hx. left.
  - exfalso. apply NoDup_cons in Hnd as [Hn _]. apply Hn.
    rewrite (proj1 (Hx a)) by left. rewrite (proj1 (Hx b)) by (right; left). left.
Qed.

(** Processing a stored event again leaves the store as it is. *)
Lemma reprocess_repr so clock (i : Inner (DB := DB)) st e :
  store_repr so (db i) st → storable e → live_in (Spec.live st) e →
  store_repr so (db (process clock i e None)) st.
Proof.
  intros Hr Hs Hl. unfold process. destruct (needs_persist e); [|done]. cbn [db].
  destruct clock as [now|err].
  - destruct (store_save_ok so (db i) st e now Hr Hs) as (d' & E & Hr').
    change (db (learn i e None)) with (db i). rewrite E. simpl.
    assert ((Spec.save so st e now).2 = st) as Es; [|by rewrite Es in Hr'].
    unfold Spec.save. destruct (Spec.admission so st e now) eqn:Ea; [|done].
    apply admission_success in Ea as Ha. pose proof (ad_new _ _ _ _ Ha) as Hn.
    unfold live_in in Hl. congruence.
  - destruct (store_save_no_clock (db i) e err) as [text E].
    change (db (learn i e None)) with (db i). by rewrite E.
Qed.

Lemma process_entry clock (i : Inner (DB := DB)) e pk :
  entry_of (process clock i e None) pk =
  if decide (Event.pubkey e = pk) then entry_after (policy i) e None (entry_of i pk) else entry_of i pk.
Proof. rewrite <-entry_of_learn. unfold process. by destruct (needs_persist e). Qed.

Lemma process_policy clock (i : Inner (DB := DB)) e : policy (process clock i e None) = policy i.
Proof. unfold process. by destruct (needs_persist e). Qed.

(** The effect of one list on an entry. *)
Definition restored (p : AllowedRelays) (o : option Event) (r : UserRoutes) : UserRoutes :=
  match o with Some e => entry_after p e None r | None => r end.

Lemma warm_up_step so clock (i : Inner (DB := DB)) st pk k ks :
  store_repr so (db i) st → (∀ e, live_in (Spec.live st) e → storable e) →
  store_exact (db i) (list_filter pk k) →
  ∃ i', warm_up_kinds clock i pk (k :: ks) = warm_up_kinds clock i' pk ks
        ∧ store_repr so (db i') st ∧ policy i' = policy i
        ∧ entry_of i' pk = restored (policy i) (stored_list st pk k) (entry_of i pk).
Proof.
  intros Hr Hs Hx. cbn [warm_up_kinds]. unfold warm_up_one.
  rewrite (store_query_exact so (db i) st _ Hr Hx). simpl.
  fold (stored_list st pk k). destruct (stored_list st pk k) as [e|] eqn:Ee; [|by exists i].
  apply stored_list_Some in Ee as (Hl & Hp & _); [|by eapply store_keyed].
  exists (process clock i e None). split_and!; [done|..|apply process_policy|].
  - apply reprocess_repr; auto.
  - by rewrite process_entry, decide_True.
Qed.

Lemma warm_up_user_spec so clock (i : Inner (DB := DB)) st pk :
  store_repr so (db i) st → (∀ e, live_in (Spec.live st) e → storable e) →
  (∀ d k, store_repr so d st → store_exact d (list_filter pk k)) →
  ∃ i', warm_up_user clock i pk = (Ok tt, i') ∧ store_repr so (db i') st
        ∧ entry_of i' pk = restored (policy i) (stored_list st pk ListNip17)
            (restored (policy i) (stored_list st pk ListNip65) (entry_of i pk)).
Proof.
  intros Hr Hs Hx. unfold warm_up_user.
  destruct (warm_up_step so clock i st pk ListNip65 [ListNip17] Hr Hs (Hx _ _ Hr)) as (i1 & -> & Hr1 & Hp1 & E1).
  destruct (warm_up_step so clock i1 st pk ListNip17 [] Hr1 Hs (Hx _ _ Hr1)) as (i2 & -> & Hr2 & Hp2 & E2).
  exists i2. split_and!; [done|done|]. by rewrite E2, Hp1, E1.
Qed.

(** A list of the other kind leaves the relay list alone. *)
Lemma restored_nip17_nip65 p st pk r :
  keyed (Spec.live st) →
  nip65 (restored p (stored_list st pk ListNip17) r) = nip65 r
  ∧ nip65_event_at (restored p (stored_list st pk ListNip17) r) = nip65_event_at r.
Proof.
  intros Hk. destruct (stored_list st pk ListNip17) as [e|] eqn:Ee; [|done].
  apply stored_list_Some in Ee as (_ & _ & Hkd); [|done]. simpl in *.
  unfold announced65. rewrite Hkd. by rewrite decide_False.
Qed.

Lemma saved_list_stored so st e now :
  keyed (Spec.live (Spec.save so st e now).2) →
  Spec.max_events so = None → Event.kind e = Kind.RELAY_LIST →
  Spec.admission so st e now = Success →
  stored_list (Spec.save so st e now).2 (Event.pubkey e) ListNip65 = Some e.
Proof.
  intros Hk Hmax Hkd Hadm. unfold Spec.save in *. rewrite Hadm in *. cbn [snd] in *.
  assert (Spec.live (Spec.accept so st e) = <[Event.id e := e]> (filter (λ p, ¬ Spec.rival e p.2) (Spec.live st)))
    as El.
  { unfold Spec.accept. rewrite Hmax, Hkd.
    rewrite (proj2 (N.eqb_neq Kind.RELAY_LIST Kind.EVENT_DELETION)) by done.
    rewrite (proj2 (N.eqb_neq Kind.RELAY_LIST Kind.REQUEST_TO_VANISH)) by done.
    by rewrite !andb_false_r. }
  apply stored_list_unique; [done|..|done|done|].
  - unfold live_in. by rewrite El, lookup_insert_eq.
  - intros e' Hl Hp Hk'. unfold live_in in Hl. rewrite El in Hl.
    destruct (decide (Event.id e' = Event.id e)) as [E|Hne].
    + rewrite E, lookup_insert_eq in Hl. by simplify_eq.
    + rewrite lookup_insert_ne in Hl by done. apply map_lookup_filter_Some in Hl as [_ Hnr]. simpl in Hnr.
      exfalso. apply Hnr. unfold Spec.rival, Spec.slot. simpl in Hk'. rewrite Hkd, Hk', Hp. simpl. eauto.
Qed.

(** A relay list the graph processes and the store accepts survives a restart:
    a graph newly built over the same store and warmed up for the author holds
    that list with its date, for every store that keeps the database contract. *)
Theorem routes_survive_restart so st (i : Inner (DB := DB)) o e l now clock src :
  store_repr so (db i) st → storable e → (∀ x, live_in (Spec.live st) x → storable x) →
  Spec.max_events so = None →
  (∀ d st k, store_repr so d st → store_exact d (list_filter (Event.pubkey e) k)) →
  Event.kind e = Kind.RELAY_LIST → Nip65.from_event e = Ok l →
  Spec.admission so st e now = Success →
  ∃ i', warm_up clock (inner_new (db (process (Ok now) i e src)) o) [Event.pubkey e] = (Ok tt, i')
        ∧ nip65 (entry_of i' (Event.pubkey e)) = Some l
        ∧ nip65_event_at (entry_of i' (Event.pubkey e)) = Some (Event.created_at e).
Proof.
  intros Hr Hs Hsl Hmax Hx Hkd Hl Hadm.
  destruct (store_save_ok so (db i) st e now Hr Hs) as (d' & Es & Hr').
  assert (db (process (Ok now) i e src) = d') as ->.
  { unfold process, needs_persist. rewrite (bool_decide_true _ Hkd). simpl. by rewrite Es. }
  set (st' := (Spec.save so st e now).2) in *.
  assert (keyed (Spec.live st')) as Hk by by eapply store_keyed.
  assert (stored_list st' (Event.pubkey e) ListNip65 = Some e) as Est by by apply saved_list_stored.
  assert (∀ x, live_in (Spec.live st') x → storable x) as Hs'.
  { subst st'. intros x Hx'. unfold Spec.save in Hx'. rewrite Hadm in Hx'. cbn [snd] in Hx'.
    unfold live_in, Spec.accept in Hx'. rewrite Hmax, Hkd in Hx'.
    rewrite (proj2 (N.eqb_neq Kind.RELAY_LIST Kind.EVENT_DELETION)) in Hx' by done.
    rewrite (proj2 (N.eqb_neq Kind.RELAY_LIST Kind.REQUEST_TO_VANISH)) in Hx' by done.
    rewrite !andb_false_r in Hx'. cbn [Spec.live Spec.evict] in Hx'.
    apply lookup_insert_Some in Hx' as [[_ <-]|[_ Hx']]; [done|].
    apply map_lookup_filter_Some in Hx' as [Hx' _]. by apply Hsl. }
  destruct (warm_up_user_spec so clock (inner_new d' o) st' (Event.pubkey e) Hr' Hs' (λ d k, Hx d st' k))
    as (i' & Ew & _ & Ee).
  exists i'. cbn [warm_up]. rewrite Ew. split; [done|]. rewrite Ee.
  destruct (restored_nip17_nip65 (policy (inner_new d' o)) st' (Event.pubkey e)
    (restored (policy (inner_new d' o)) (stored_list st' (Event.pubkey e) ListNip65)
      (entry_of (inner_new d' o) (Event.pubkey e))) Hk) as [-> ->].
  rewrite Est. cbn [restored]. unfold entry_after, announced65. rewrite (decide_True _ _ Hkd), Hl. simpl. done.
Qed.
End restart.

(** ** Witnesses *)

#[local] Existing Instance sample_secp.

Definition relay_a : RelayUrl := RelayUrl.mk (mkUrl Wss "a.example" eq_refl).
Definition relay_b : RelayUrl := RelayUrl.mk (mkUrl Wss "b.example" eq_refl).
Definition relay_local : RelayUrl := RelayUrl.mk (mkUrl Ws "192.168.1.10" eq_refl).

(** Alice writes to [relay_a] and [relay_local] and reads from [relay_b]; Bob takes
    direct messages on [relay_b]. *)
Definition alice_list : Nip65.RelayList :=
  (Nip65.insert (Nip65.insert (Nip65.insert Nip65.new relay_a Nip65.Write).2
     relay_b Nip65.Read).2 relay_local Nip65.Write).2.
Definition alice_routes : UserRoutes :=
  bump_hint (mkRoutes (Some alice_list) (Some 100%N) None [] None None ∅ ∅) relay_b.
Definition sample_graph : Inner (DB := MemoryStore) :=
  mkInner default_options (Memory.new mem_options_new)
    {[alice := alice_routes; bob := set_nip17 no_routes [relay_b] 90%N]}.

Lemma selection_exact_witness :
  relay_a ∈ outbox alice_routes (from_gossip default_limits) default_allowed
  ∧ relay_local ∉ outbox alice_routes (from_gossip default_limits) default_allowed.
Proof.
  destruct (selection_exact alice_routes (from_gossip default_limits) 3 default_allowed) as [Ho _];
    [reflexivity|reflexivity|]. split; rewrite Ho.
  - split; [vm_compute; reflexivity|]. left. apply (bool_decide_unpack _). vm_compute. exact I.
  - intros [Hf _]. vm_compute in Hf. discriminate Hf.
Defined.

Definition alice_filter : Filter := Filter.add_author Filter.new alice.


(** Alice's list as an event, and an older one. *)
Definition list_event (n : N) (at_ : Timestamp) (l : Nip65.RelayList) : Event :=
  ev n alice at_ Kind.RELAY_LIST (Nip65.to_tags l).
Definition list_new : Event := list_event 60 200 alice_list.
Definition list_old : Event := list_event 61 150 Nip65.new.

Lemma learning_order_free_witness :
  routes (process_all sample_graph [(Ok 300%N, list_new, Some relay_a); (Ok 300%N, list_old, None);
                                    (Ok 301%N, list_new, Some relay_b)])
  = routes (process_all sample_graph [(Ok 301%N, list_new, Some relay_b); (Ok 300%N, list_old, None);
                                      (Ok 300%N, list_new, Some relay_a)]).
Proof.
  apply learning_order_free.
  - apply (bool_decide_unpack _). vm_compute. exact I.
  - intros d1 d2 H1 H2 (Hne & _ & _ & Ht & _).
    set_unfold in H1. set_unfold in H2.
    destruct H1 as [->|[->|[->|[]]]], H2 as [->|[->|[->|[]]]]; simpl in *; try done; vm_compute in Ht; discriminate Ht.
Defined.

Lemma routes_survive_restart_witness :
  ∃ i', warm_up (Ok 400%N) (inner_new (db (process (Ok 300%N) sample_graph list_new None)) default_options) [alice]
          = (Ok tt, i')
        ∧ nip65 (entry_of i' alice) = Some alice_list.
Proof.
  destruct (routes_survive_restart (Spec.mkOptions None true true) Spec.empty sample_graph default_options
    list_new alice_list 300 (Ok 400%N) None) as (i' & Ew & El & _).
  - split_and!; [apply Inv_empty|reflexivity|reflexivity].
  - exact I.
  - intros; exact I.
  - reflexivity.
  - intros d st k _. destruct k; exact I.
  - reflexivity.
  - apply (Nip65.from_to_tags alice_list). intros u m Hm.
    assert (u = relay_a ∨ u = relay_b ∨ u = relay_local) as [-> |[-> | ->]].
    { apply elem_of_dom_2 in Hm. unfold alice_list, Nip65.insert, Nip65.new in Hm. simpl in Hm. set_solver. }
    + by apply (RelayUrl.parse_normal "wss://a.example").
    + by apply (RelayUrl.parse_normal "wss://b.example").
    + by apply (RelayUrl.parse_normal "ws://192.168.1.10").
  - vm_compute. reflexivity.
  - exists i'. split; [exact Ew|exact El].
Defined.
