(* ===== verification/Delegation.v ===== *)
(** * Delegated signing

    [nips/nip26.rs]: the conditions a delegator puts on a delegatee, the token
    over them, the [delegation] tag and the verification of an event that
    carries it. *)

From Stdlib Require Import Ascii NArith Lia.
From S2P Require Import Prelude Encoding Text Ids Tags Event.

(** [secp256k1::schnorr::Signature] as text: its [FromStr], with the text of its
    error, and its [Display]. *)
Class SigText := {
  sig_parse : string → result (list byte) string;
  sig_string : list byte → string;
}.

(** A signature of 64 bytes reads back from its text. *)
Class SigTextLaws `{SigText} : Prop := {
  sig_parse_string : ∀ s, length s = 64%nat → sig_parse (sig_string s) = Ok s;
}.
Arguments SigTextLaws : clear implicits.
Arguments SigTextLaws {_}.

Module Nip26.

Definition DELEGATION_TAG_KEY : string := "delegation".

Inductive Condition :=
| KindIs (k : Kind)
| CreatedAfter (ts : Timestamp)
| CreatedBefore (ts : Timestamp).

#[global] Instance Condition_eq_dec : EqDecision Condition.
Proof. solve_decision. Defined.

(** [Display]. *)
Definition condition_string (c : Condition) : string :=
  match c with
  | KindIs k => "kind=" +:+ Dec.to_string k
  | CreatedAfter ts => "created_at>" +:+ Dec.to_string ts
  | CreatedBefore ts => "created_at<" +:+ Dec.to_string ts
  end.

(** [Conditions]: the items in order. *)
Abbreviation Conditions := (list Condition).

Definition new : Conditions := [].
Definition allow_kind (cs : Conditions) (k : Kind) : Conditions := cs ++ [KindIs k].
Definition after (cs : Conditions) (ts : Timestamp) : Conditions := cs ++ [CreatedAfter ts].
Definition before (cs : Conditions) (ts : Timestamp) : Conditions := cs ++ [CreatedBefore ts].

(** One turn of the loop of [render]. *)
Definition render_step (st : nat * string) (c : Condition) : nat * string :=
  (S st.1, (if (0 <? st.1)%nat then st.2 +:+ "&" else st.2) +:+ condition_string c).
Definition render (cs : Conditions) : string := (foldl render_step (0%nat, EmptyString) cs).2.

Inductive ConditionsError :=
| UnsupportedClause (clause : string)
| InvalidValue (clause : string).

Definition parse_one (raw : string) : result Condition ConditionsError :=
  match Text.strip_prefix "kind=" raw with
  | Some rest => let? n := ok_or (Dec.parse_u16 rest) (InvalidValue raw) in Ok (KindIs n)
  | None =>
      match Text.strip_prefix "created_at>" raw with
      | Some rest => let? n := ok_or (Dec.parse_u64 rest) (InvalidValue raw) in Ok (CreatedAfter n)
      | None =>
          match Text.strip_prefix "created_at<" raw with
          | Some rest => let? n := ok_or (Dec.parse_u64 rest) (InvalidValue raw) in Ok (CreatedBefore n)
          | None => Err (UnsupportedClause raw)
          end
      end
  end.

Fixpoint parse_all (raws : list string) : result Conditions ConditionsError :=
  match raws with
  | [] => Ok []
  | raw :: raws => let? c := parse_one raw in let? cs := parse_all raws in Ok (c :: cs)
  end.

Definition parse (s : string) : result Conditions ConditionsError :=
  if decide (s = EmptyString) then Ok [] else parse_all (split "&" s).

Definition holds (c : Condition) (kind : Kind) (created_at : Timestamp) : bool :=
  match c with
  | KindIs k => (k =? kind)%N
  | CreatedAfter ts => (ts <? created_at)%N
  | CreatedBefore ts => (created_at <? ts)%N
  end.

(** [Conditions::matches]. *)
Definition cond_matches (cs : Conditions) (kind : Kind) (created_at : Timestamp) : bool :=
  forallb (λ c, holds c kind created_at) cs.

Record Delegation := mkDelegation {
  delegator : PublicKey;
  conditions : Conditions;
  token : list byte;
}.

Inductive DelegationError :=
| Missing
| Pubkey (e : PublicKey.Error)
| ConditionsErr (e : ConditionsError)
| Token (e : string)
| InvalidSignature
| ConditionsViolated.

Definition is_delegation_tag (k : TagKind) : bool :=
  match k with TagKind.Custom s => bool_decide (s = DELEGATION_TAG_KEY) | _ => false end.

Section nip26.
Context `{FasterHex, Secp256k1, EventCrypto, SigText}.

Definition delegation_message (delegatee : PublicKey) (cs : Conditions) : string :=
  "nostr:delegation:" +:+ PublicKey.to_hex delegatee +:+ ":" +:+ render cs.

Definition delegation_hash (delegatee : PublicKey) (cs : Conditions) : bytes32 :=
  sha256 (as_bytes (delegation_message delegatee cs)).

Definition sign_delegation (keys : secret_key) (delegatee : PublicKey) (cs : Conditions) : list byte :=
  sign_schnorr keys (b32_list (delegation_hash delegatee cs)).

Definition verify_delegation (delegator delegatee : PublicKey) (cs : Conditions) (token : list byte) : bool :=
  verify_schnorr token (b32_list (delegation_hash delegatee cs)) delegator.

(** [Tag::delegation]. *)
Definition delegation_tag (delegator : PublicKey) (cs : Conditions) (token : list byte) : Tag :=
  Tag.with_ (TagKind.Custom DELEGATION_TAG_KEY) [PublicKey.to_hex delegator; render cs; sig_string token].

Fixpoint parse_delegation (tags : list Tag) : result Delegation DelegationError :=
  match tags with
  | [] => Err Missing
  | tag :: tags =>
      if negb (is_delegation_tag (Tag.kind tag)) then parse_delegation tags
      else
        match Tag.values tag !! 1%nat, Tag.values tag !! 2%nat, Tag.values tag !! 3%nat with
        | Some d, Some c, Some t =>
            let? delegator := map_err Pubkey (PublicKey.parse d) in
            let? cs := map_err ConditionsErr (parse c) in
            let? tok := map_err Token (sig_parse t) in
            Ok (mkDelegation delegator cs tok)
        | _, _, _ => Err Missing
        end
  end.

Definition verify_event_delegation (event : Event) : result Delegation DelegationError :=
  let? d := parse_delegation (Event.tags event) in
  if negb (verify_delegation (delegator d) (Event.pubkey event) (conditions d) (token d))
  then Err InvalidSignature
  else if negb (cond_matches (conditions d) (Event.kind event) (Event.created_at event))
  then Err ConditionsViolated
  else Ok d.
End nip26.

(** ** Lemmas *)

Definition condition_ok (c : Condition) : Prop :=
  match c with
  | KindIs k => (k <= Dec.u16_max)%N
  | CreatedAfter ts | CreatedBefore ts => (ts <= Dec.u64_max)%N
  end.

Lemma render_steps cs n out :
  (foldl render_step (S n, out) cs).2
  = foldl (λ out c, out +:+ "&" +:+ condition_string c) out cs.
Proof.
  revert n out. induction cs as [|c cs IH]; intros n out; [done|].
  change (foldl render_step (S n, out) (c :: cs))
    with (foldl render_step (S (S n), (out +:+ "&") +:+ condition_string c) cs).
  rewrite IH. cbn [foldl]. by rewrite string_app_assoc.
Qed.

Lemma render_join cs : render cs = join "&" (condition_string <$> cs).
Proof.
  unfold render. destruct cs as [|c cs]; [done|]. 
  change (foldl render_step (0%nat, EmptyString) (c :: cs)) with (foldl render_step (1%nat, condition_string c) cs).
  rewrite render_steps. revert c. assert (∀ out c, foldl (λ out c, out +:+ "&" +:+ condition_string c)
    (out +:+ condition_string c) cs = out +:+ join "&" (condition_string <$> c :: cs)) as Hj.
  { induction cs as [|d cs IH]; intros out c; [done|].
    change (join "&" (condition_string <$> c :: d :: cs))
      with (condition_string c +:+ String "&" (join "&" (condition_string <$> d :: cs))).
    cbn [foldl]. rewrite <-string_app_assoc, IH. by rewrite !string_app_assoc. }
  intros c. exact (Hj EmptyString c).
Qed.

Lemma digits_no_amp s : Dec.string_forallb Dec.is_digit_char s = true → no_char "&" s = true.
Proof.
  induction s as [|c s IH]; [done|]. cbn [Dec.string_forallb no_char]. intros [Hc Hs]%andb_prop.
  rewrite IH by done. rewrite andb_true_r. apply negb_true_iff.
  destruct (Ascii.eqb_spec c "&"%char) as [->|]; [vm_compute in Hc; discriminate Hc|done].
Qed.

Lemma condition_no_amp c : no_char "&" (condition_string c) = true.
Proof.
  destruct c as [n|n|n]; cbn [condition_string]; rewrite no_char_app, (digits_no_amp (Dec.to_string n));
    try apply Dec.to_string_digits; done.
Qed.

Lemma parse_condition_string c : condition_ok c → parse_one (condition_string c) = Ok c.
Proof.
  intros Hok. unfold parse_one. destruct c; cbn [condition_ok condition_string] in *.
  - rewrite Text.strip_prefix_app. unfold Dec.parse_u16. by rewrite Dec.parse_to_string.
  - assert (∀ s, Text.strip_prefix "kind=" ("created_at>" +:+ s) = None) as -> by done.
    rewrite Text.strip_prefix_app. unfold Dec.parse_u64. by rewrite Dec.parse_to_string.
  - assert (∀ s, Text.strip_prefix "kind=" ("created_at<" +:+ s) = None) as -> by done.
    assert (∀ s, Text.strip_prefix "created_at>" ("created_at<" +:+ s) = None) as -> by done.
    rewrite Text.strip_prefix_app. unfold Dec.parse_u64. by rewrite Dec.parse_to_string.
Qed.

Lemma parse_render cs : Forall condition_ok cs → parse (render cs) = Ok cs.
Proof.
  intros Hok. rewrite render_join. destruct cs as [|c cs]; [done|]. unfold parse.
  rewrite decide_False.
  2:{ intros E. assert (∃ a s, condition_string c = String a s) as (a & s & Ec) by (destruct c; simpl; eauto).
      destruct cs as [|d cs]; simpl in E; rewrite Ec in E; discriminate E. }
  rewrite split_join.
  - induction Hok as [|x l Hx _ IH]; [done|]. cbn [fmap list_fmap parse_all].
    rewrite parse_condition_string by done. simpl. change (condition_string <$> l) with (list_fmap _ _ condition_string l) in *.
    by rewrite IH.
  - done.
  - apply Forall_fmap, Forall_forall. intros x _. apply condition_no_amp.
Qed.

Lemma parse_one_ok raw c : parse_one raw = Ok c → condition_ok c.
Proof.
  unfold parse_one, Dec.parse_u16, Dec.parse_u64. repeat case_match; try done;
    match goal with |- context [Dec.parse_uint ?m ?s] => destruct (Dec.parse_uint m s) as [n|] eqn:E end;
    simpl; try done; intros [= <-]; by apply Dec.parse_uint_bound in E.
Qed.

Lemma parse_all_ok raws cs : parse_all raws = Ok cs → Forall condition_ok cs.
Proof.
  revert cs. induction raws as [|raw raws IH]; intros cs; simpl; [by intros [= <-]|].
  destruct (parse_one raw) as [c|] eqn:E; simpl; [|done].
  destruct (parse_all raws) as [cs'|] eqn:E'; simpl; [|done]. intros [= <-].
  constructor; [by eapply parse_one_ok|by apply IH].
Qed.

End Nip26.
