(* ===== verification/NegPayload.v ===== *)
(** * Reconciliation messages

    [nips/nip77.rs]: the binary form of a negentropy message (variable-length
    integers, bounds, ranges), its reader, and the fingerprint of a set of ids.

    The reader's cursor into its buffer is the rest of the buffer.  [usize] has 64
    bits. *)

From Stdlib Require Import Ascii NArith Lia.
From S2P Require Import Prelude Encoding Text Ids Tags Event Sync.

Module Nip77.
Local Open Scope N_scope.

Definition FINGERPRINT_BYTES : nat := 16.
Definition ID_BYTES : nat := 32.
Definition INFINITY_TIMESTAMP : N := Dec.u64_max.
Definition RESERVED_TIMESTAMP_INFINITY_OFFSET : N := 0.

(** [NegProtocolVersion]. *)
Definition V1 : byte := x61.
Definition version_from_byte (b : byte) : option byte :=
  if (96 <=? Byte.to_N b) && (Byte.to_N b <? 112) then Some b else None.
(** [wrapping_sub(0x60)]. *)
Definition version (b : byte) : N := (Byte.to_N b + 160) mod 256.

Record NegItem := mkItem { item_timestamp : N; item_id : bytes32 }.
Definition infinity_item : NegItem := mkItem INFINITY_TIMESTAMP (bytes32_of_N 0).

Record NegBound := mkBound { timestamp : N; id_prefix : list byte }.
Definition infinity_bound : NegBound := mkBound INFINITY_TIMESTAMP [].

(** A fingerprint is sixteen bytes. *)
Inductive NegRangeMode :=
| Skip
| Fingerprint (fp : list byte)
| IdList (ids : list bytes32).

Record NegRange := mkRange { upper_bound : NegBound; mode : NegRangeMode }.
Record NegPayload := mkPayload { p_version : byte; ranges : list NegRange }.

Inductive NegentropyError :=
| UnexpectedEof
| VarintOverflow
| PayloadTruncated (expected : N)
| UnknownRangeMode (mode : N)
| UnsupportedVersion (b : byte)
| Hex (e : string).

(** How a reader fails: with an error, or by a panic of the vector it asks for. *)
Inductive Failure :=
| Error (e : NegentropyError)
| CapacityOverflow.

(** ** Variable-length integers *)

Definition u64_modulus : N := 2 ^ 64.

(** The loop of [write_varint]: the 7-bit digits, least significant first. *)
Fixpoint digits7 (fuel : nat) (value : N) : list N :=
  match fuel with
  | O => []
  | S fuel =>
      let byte := N.land value 127 in
      let value := N.shiftr value 7 in
      if value =? 0 then [byte] else byte :: digits7 fuel value
  end.

(** Ten digits hold 64 bits. *)
Definition varint_fuel : nat := 10.

Definition write_varint (value : N) : list byte :=
  let tmp := digits7 varint_fuel value in
  imap (λ i b, byte_of_N (if (i + 1 <? length tmp)%nat then N.lor b 128 else b)) (rev tmp).

(** [checked_shl(7)] fails for no value: it checks the shift only. *)
Definition shl7 (value : N) : N := N.shiftl value 7 mod u64_modulus.

Fixpoint read_varint_loop (iterations : nat) (value : N) (buf : list byte) :
    result (N * list byte) Failure :=
  match iterations with
  | O => Err (Error VarintOverflow)
  | S iterations =>
      match buf with
      | [] => Err (Error UnexpectedEof)
      | b :: buf =>
          let value := N.lor (shl7 value) (N.land (Byte.to_N b) 127) in
          if N.land (Byte.to_N b) 128 =? 0 then Ok (value, buf)
          else read_varint_loop iterations value buf
      end
  end.

Definition read_varint (buf : list byte) : result (N * list byte) Failure := read_varint_loop 10 0 buf.

(** ** Bounds *)

(** The bytes of a bound and the new running timestamp. *)
Definition encode_bound (b : NegBound) (prev : N) : list byte * N :=
  let encoded_ts :=
    if timestamp b =? INFINITY_TIMESTAMP then RESERVED_TIMESTAMP_INFINITY_OFFSET
    else Timestamp.saturating_add (Timestamp.saturating_sub (timestamp b) prev) 1 in
  let prev := if timestamp b =? INFINITY_TIMESTAMP then prev else timestamp b in
  let len := Nat.min (length (id_prefix b)) ID_BYTES in
  (write_varint encoded_ts ++ write_varint (N.of_nat len) ++ take len (id_prefix b), prev).

Definition read_chunk (buf : list byte) (len : nat) : result (list byte * list byte) Failure :=
  if (length buf <? len)%nat then Err (Error (PayloadTruncated (N.of_nat (len - length buf))))
  else Ok (take len buf, drop len buf).

Definition decode_bound (buf : list byte) (prev : N) : result (NegBound * list byte * N) Failure :=
  let? ' (ts_field, buf) := read_varint buf in
  let '(ts, prev) :=
    if ts_field =? RESERVED_TIMESTAMP_INFINITY_OFFSET then (INFINITY_TIMESTAMP, prev)
    else let value := Timestamp.saturating_add prev (Timestamp.saturating_sub ts_field 1) in (value, value) in
  let? ' (len, buf) := read_varint buf in
  if N.of_nat ID_BYTES <? len then Err (Error (PayloadTruncated len))
  else
    let? ' (chunk, buf) := read_chunk buf (N.to_nat len) in
    Ok (mkBound ts chunk, buf, prev).

(** ** Ranges *)

Definition encode_mode (m : NegRangeMode) : list byte :=
  match m with
  | Skip => write_varint 0
  | Fingerprint fp => write_varint 1 ++ fp
  | IdList ids => write_varint 2 ++ write_varint (N.of_nat (length ids)) ++ concat (b32_list <$> ids)
  end.

Definition encode_range (r : NegRange) (prev : N) : list byte * N :=
  let '(bytes, prev) := encode_bound (upper_bound r) prev in (bytes ++ encode_mode (mode r), prev).

Fixpoint read_ids (count : nat) (buf : list byte) : result (list bytes32 * list byte) Failure :=
  match count with
  | O => Ok ([], buf)
  | S count =>
      let? ' (chunk, buf) := read_chunk buf ID_BYTES in
      match try_into32 chunk with
      | Some id => let? ' (ids, buf) := read_ids count buf in Ok (id :: ids, buf)
      | None => Err (Error (PayloadTruncated 0))
      end
  end.

(** [Vec::with_capacity(count)] of 32-byte elements panics beyond [isize::MAX]
    bytes. *)
Definition isize_max : N := 2 ^ 63 - 1.
Definition with_capacity (count : N) : result unit Failure :=
  if isize_max <? count * N.of_nat ID_BYTES then Err CapacityOverflow else Ok tt.

Definition decode_mode (buf : list byte) : result (NegRangeMode * list byte) Failure :=
  let? ' (m, buf) := read_varint buf in
  if m =? 0 then Ok (Skip, buf)
  else if m =? 1 then
    let? ' (chunk, buf) := read_chunk buf FINGERPRINT_BYTES in Ok (Fingerprint chunk, buf)
  else if m =? 2 then
    let? ' (count, buf) := read_varint buf in
    let? _ := with_capacity count in
    let? ' (ids, buf) := read_ids (N.to_nat count) buf in Ok (IdList ids, buf)
  else Err (Error (UnknownRangeMode m)).

Definition decode_range (buf : list byte) (prev : N) : result (NegRange * list byte * N) Failure :=
  let? ' (b, buf, prev) := decode_bound buf prev in
  let? ' (m, buf) := decode_mode buf in
  Ok (mkRange b m, buf, prev).

(** ** Payloads *)

Fixpoint encode_ranges (rs : list NegRange) (prev : N) : list byte :=
  match rs with
  | [] => []
  | r :: rs => let '(bytes, prev) := encode_range r prev in bytes ++ encode_ranges rs prev
  end.

Definition encode_payload (p : NegPayload) : list byte := p_version p :: encode_ranges (ranges p) 0.

(** The [while] loop of [decode_payload]; [None] if the fuel does not suffice. *)
Fixpoint decode_ranges (fuel : nat) (buf : list byte) (prev : N) : option (result (list NegRange) Failure) :=
  match buf with
  | [] => Some (Ok [])
  | _ =>
      match fuel with
      | O => None
      | S fuel =>
          match decode_range buf prev with
          | Err e => Some (Err e)
          | Ok (r, buf, prev) =>
              match decode_ranges fuel buf prev with
              | Some (Ok rs) => Some (Ok (r :: rs))
              | other => other
              end
          end
      end
  end.

Definition decode_payload (buf : list byte) : option (result NegPayload Failure) :=
  match buf with
  | [] => Some (Err (Error UnexpectedEof))
  | vb :: rest =>
      match version_from_byte vb with
      | None => Some (Err (Error (UnsupportedVersion vb)))
      | Some v =>
          match decode_ranges (length rest) rest 0 with
          | None => None
          | Some (Err e) => Some (Err e)
          | Some (Ok rs) => Some (Ok (mkPayload v rs))
          end
      end
  end.

Section hex.
Context `{FasterHex}.

Definition encode_payload_hex (p : NegPayload) : string := Hex.encode (encode_payload p).

Definition decode_payload_hex (hex : string) : option (result NegPayload Failure) :=
  match Hex.decode (as_bytes hex) with
  | Err e => Some (Err (Error (Hex (Sync.hex_error_string e))))
  | Ok bytes => decode_payload bytes
  end.
End hex.

(** ** Fingerprints *)

(** The inner loop: addition of little-endian bytes with a carry. *)
Fixpoint add_bytes (carry : N) (sum id : list byte) : list byte :=
  match sum, id with
  | s :: sum, b :: id =>
      let total := Byte.to_N s + Byte.to_N b + carry in
      byte_of_N (N.land total 255) :: add_bytes (N.shiftr total 8) sum id
  | _, _ => sum
  end.

Section fingerprint.
Context `{EventCrypto}.

Definition id_sum (ids : list bytes32) : list byte :=
  foldl (λ sum id, add_bytes 0 sum (b32_list id)) (replicate ID_BYTES x00) ids.

Definition fingerprint (ids : list bytes32) : list byte :=
  take FINGERPRINT_BYTES
    (b32_list (sha256 (id_sum ids ++ write_varint (N.of_nat (length ids))))).
End fingerprint.

(** ** Lemmas *)

Lemma lor_disjoint a b : b < 128 → N.lor (N.shiftl a 7) b = a * 128 + b.
Proof.
  intros Hb. assert (N.land (N.shiftl a 7) b = 0) as Hd.
  { apply N.bits_inj_0. intros n. rewrite N.land_spec. destruct (N.lt_ge_cases n 7) as [Hn|Hn].
    - by rewrite N.shiftl_spec_low.
    - assert (N.testbit b n = false) as ->; [|by rewrite andb_false_r].
      destruct (N.eq_dec b 0) as [->|Hb0]; [apply N.bits_0|].
      apply N.bits_above_log2. assert (N.log2 b < 7) by (apply N.log2_lt_pow2; lia). lia. }
  rewrite <-N.lxor_lor, <-N.add_nocarry_lxor by done.
  rewrite N.shiftl_mul_pow2. change (2 ^ 7) with 128. lia.
Qed.

Lemma land127 n : N.land n 127 = n mod 128.
Proof. change 127 with (N.ones 7). rewrite N.land_ones. done. Qed.

Lemma shiftr7 n : N.shiftr n 7 = n / 128.
Proof. by rewrite N.shiftr_div_pow2. Qed.

Lemma lor128 b : b < 128 → N.lor b 128 = b + 128.
Proof. intros Hb. rewrite N.lor_comm. change 128 with (N.shiftl 1 7) at 1. rewrite lor_disjoint by done. lia. Qed.

Lemma cont_bit_set b : b < 128 → (N.land (Byte.to_N (byte_of_N (b + 128))) 128 =? 0) = false.
Proof.
  intros Hb. apply N.eqb_neq. intros E. rewrite to_N_byte_of_N, N.mod_small in E by lia.
  apply (f_equal (λ n, N.testbit n 7)) in E. rewrite N.land_spec, N.bits_0 in E.
  rewrite <-lor128, N.lor_spec in E by done. by rewrite orb_true_r in E.
Qed.

Lemma cont_bit_clear b : b < 128 → (N.land (Byte.to_N (byte_of_N b)) 128 =? 0) = true.
Proof.
  intros Hb. apply N.eqb_eq. rewrite to_N_byte_of_N, N.mod_small by lia.
  apply N.bits_inj_0. intros n. rewrite N.land_spec. change 128 with (2 ^ 7).
  destruct (N.eq_dec n 7) as [->|Hn]; [|by rewrite N.pow2_bits_false, andb_false_r by done].
  assert (N.testbit b 7 = false) as ->; [|done].
  destruct (N.eq_dec b 0) as [->|Hb0]; [done|]. apply N.bits_above_log2. apply N.log2_lt_pow2; [lia|]. done.
Qed.

(** The value of digits, most significant first. *)
Definition value7 (acc : N) (ds : list N) : N := foldl (λ acc d, acc * 128 + d) acc ds.

Lemma digits7_ne fuel v : fuel ≠ 0%nat → digits7 fuel v ≠ [].
Proof. destruct fuel; [done|]. intros _. simpl. by case_match. Qed.

Lemma digits7_lt fuel v : Forall (λ d, d < 128) (digits7 fuel v).
Proof.
  revert v. induction fuel as [|fuel IH]; intros v; simpl; [constructor|].
  assert (N.land v 127 < 128) by (rewrite land127; by apply N.mod_lt).
  case_match; constructor; auto.
Qed.

Lemma digits7_length fuel v : (length (digits7 fuel v) ≤ fuel)%nat.
Proof. revert v. induction fuel as [|fuel IH]; intros v; simpl; [lia|]. case_match; simpl; [lia|]. specialize (IH (N.shiftr v 7)). lia. Qed.

Lemma digits7_value fuel v : v < 128 ^ N.of_nat fuel → fuel ≠ 0%nat → value7 0 (rev (digits7 fuel v)) = v.
Proof.
  revert v. induction fuel as [|fuel IH]; intros v Hv Hf; [done|]. cbn [digits7].
  rewrite land127, shiftr7. destruct (N.eqb_spec (v / 128) 0) as [E|E].
  - simpl. unfold value7. simpl. rewrite N.mod_small; [done|]. by apply N.div_small_iff in E.
  - assert (v / 128 < 128 ^ N.of_nat fuel) as Hd.
    { apply N.Div0.div_lt_upper_bound. rewrite <-N.pow_succ_r', <-Nat2N.inj_succ. done. }
    assert (fuel ≠ 0%nat) as Hf'. { intros ->. simpl in Hd. lia. }
    simpl. unfold value7. rewrite foldl_app. fold (value7 0 (rev (digits7 fuel (v / 128)))).
    rewrite IH by done. simpl. pose proof (N.div_mod v 128). lia.
Qed.

Lemma value7_mono ds acc : acc <= value7 acc ds.
Proof.
  revert acc. induction ds as [|d ds IH]; intros acc; simpl; [lia|].
  etrans; [|apply IH]. lia.
Qed.

(** Reading digits whose value fits 64 bits. *)
Lemma read_digits ds : ∀ iterations acc rest,
  Forall (λ d, d < 128) ds → ds ≠ [] → (length ds ≤ iterations)%nat → value7 acc ds < u64_modulus →
  read_varint_loop iterations acc
    (imap (λ i b, byte_of_N (if (i + 1 <? length ds)%nat then N.lor b 128 else b)) ds ++ rest)
  = Ok (value7 acc ds, rest).
Proof.
  induction ds as [|d ds IH]; intros iterations acc rest Hf Hne Hlen Hv; [done|].
  apply Forall_cons in Hf as [Hd Hf]. destruct iterations as [|iterations]; [simpl in Hlen; lia|].
  cbn [imap app read_varint_loop length].
  assert (acc * 128 + d < u64_modulus) as Hacc.
  { eapply N.le_lt_trans; [|exact Hv]. apply (value7_mono ds). }
  assert (shl7 acc = N.shiftl acc 7) as Hs.
  { unfold shl7. apply N.mod_small. rewrite N.shiftl_mul_pow2. change (2 ^ 7) with 128. lia. }
  destruct ds as [|d' ds].
  - simpl length. rewrite Nat.ltb_irrefl. simpl app.
    rewrite cont_bit_clear by done. rewrite to_N_byte_of_N, N.mod_small by lia.
    rewrite land127, N.mod_small, Hs, lor_disjoint by done. done.
  - replace ((0 + 1 <? S (length (d' :: ds)))%nat) with true by (symmetry; apply Nat.ltb_lt; simpl; lia).
    rewrite lor128 by done. rewrite cont_bit_set by done.
    rewrite to_N_byte_of_N, N.mod_small by lia. rewrite land127.
    replace ((d + 128) mod 128) with d.
    2:{ replace (d + 128) with (d + 1 * 128) by lia. rewrite N.Div0.mod_add, N.mod_small; done. }
    rewrite Hs, lor_disjoint by done.
    change (value7 acc (d :: d' :: ds)) with (value7 (acc * 128 + d) (d' :: ds)).
    rewrite <-(IH iterations (acc * 128 + d) rest Hf ltac:(done) ltac:(simpl in *; lia) Hv).
    reflexivity.
Qed.

Lemma read_write_varint v rest : v <= Dec.u64_max → read_varint (write_varint v ++ rest) = Ok (v, rest).
Proof.
  intros Hv. unfold read_varint, write_varint, varint_fuel, Dec.u64_max in *.
  assert (v < 128 ^ N.of_nat 10) as Hb by (change (128 ^ N.of_nat 10) with 1180591620717411303424; lia).
  assert (value7 0 (rev (digits7 10 v)) = v) as Ev by (apply digits7_value; [done|lia]).
  rewrite <-(length_rev (digits7 10 v)), read_digits; rewrite ?Ev; [done|..].
  - apply Forall_rev, digits7_lt.
  - intros E. apply (f_equal (@rev N)) in E. rewrite rev_involutive in E. by apply (digits7_ne 10 v) in E.
  - rewrite length_rev. apply digits7_length.
  - unfold u64_modulus. change (2 ^ 64) with 18446744073709551616. lia.
Qed.

(** *** Every reader consumes input *)

Lemma read_varint_loop_shrinks n v buf x rest :
  read_varint_loop n v buf = Ok (x, rest) → (length rest < length buf)%nat.
Proof.
  revert v buf. induction n as [|n IH]; intros v buf; [done|]. destruct buf as [|b buf]; [done|].
  cbn [read_varint_loop]. case_match; [by intros [= _ <-]; simpl; lia|].
  intros ?%IH. simpl. lia.
Qed.

Lemma read_varint_bound n v buf x rest :
  v < u64_modulus → read_varint_loop n v buf = Ok (x, rest) → x < u64_modulus.
Proof.
  revert v buf. induction n as [|n IH]; intros v buf Hv; [done|]. destruct buf as [|b buf]; [done|].
  cbn [read_varint_loop].
  assert (N.lor (shl7 v) (N.land (Byte.to_N b) 127) < u64_modulus) as Hx.
  { unfold u64_modulus. destruct (N.eq_dec (N.lor (shl7 v) (N.land (Byte.to_N b) 127)) 0) as [->|Hne]; [done|].
    apply N.log2_lt_pow2; [lia|]. rewrite N.log2_lor. apply N.max_lub_lt.
    - destruct (N.eq_dec (shl7 v) 0) as [->|]; [done|]. apply N.log2_lt_pow2; [lia|].
      unfold shl7, u64_modulus. by apply N.mod_lt.
    - destruct (N.eq_dec (N.land (Byte.to_N b) 127) 0) as [->|]; [done|]. apply N.log2_lt_pow2; [lia|].
      rewrite land127. eapply N.lt_trans; [by apply N.mod_lt|done]. }
  case_match; [by intros [= <- _]|]. by apply IH.
Qed.

Lemma read_chunk_shrinks buf len c rest :
  read_chunk buf len = Ok (c, rest) → (length rest ≤ length buf)%nat.
Proof. unfold read_chunk. case_match; [done|]. intros [= _ <-]. rewrite length_drop. lia. Qed.

Lemma read_ids_shrinks n buf ids rest :
  read_ids n buf = Ok (ids, rest) → (length rest ≤ length buf)%nat.
Proof.
  revert buf ids. induction n as [|n IH]; intros buf ids; cbn [read_ids]; [by intros [= _ <-]|].
  destruct (read_chunk buf ID_BYTES) as [[c b1]|] eqn:Ec; simpl; [|done].
  destruct (try_into32 c); [|done]. destruct (read_ids n b1) as [[l b2]|] eqn:El; simpl; [|done].
  intros [= _ <-]. apply IH in El. apply read_chunk_shrinks in Ec. lia.
Qed.

Lemma read_varint_shrinks buf x rest : read_varint buf = Ok (x, rest) → (length rest < length buf)%nat.
Proof. apply read_varint_loop_shrinks. Qed.

Lemma decode_bound_shrinks buf prev b rest prev' :
  decode_bound buf prev = Ok (b, rest, prev') → (length rest < length buf)%nat.
Proof.
  unfold decode_bound. destruct (read_varint buf) as [[ts b1]|] eqn:E1; cbn [result_bind]; [|done].
  apply read_varint_shrinks in E1. destruct (if ts =? _ then _ else _) as [t p1].
  destruct (read_varint b1) as [[len b2]|] eqn:E2; cbn [result_bind]; [|done].
  apply read_varint_shrinks in E2. case_match; [done|].
  destruct (read_chunk b2 _) as [[c b3]|] eqn:E3; cbn [result_bind]; [|done]. apply read_chunk_shrinks in E3.
  intros [= _ <- _]. lia.
Qed.

Lemma decode_mode_shrinks buf m rest : decode_mode buf = Ok (m, rest) → (length rest < length buf)%nat.
Proof.
  unfold decode_mode. destruct (read_varint buf) as [[k b4]|] eqn:E4; cbn [result_bind]; [|done].
  apply read_varint_shrinks in E4. repeat case_match; try done.
  - intros [= _ <-]. lia.
  - destruct (read_chunk b4 _) as [[c' b5]|] eqn:E5; cbn [result_bind]; [|done]. apply read_chunk_shrinks in E5.
    intros [= _ <-]. lia.
  - destruct (read_varint b4) as [[n b5]|] eqn:E5; cbn [result_bind]; [|done].
    apply read_varint_shrinks in E5. destruct (with_capacity n); cbn [result_bind]; [|done].
    destruct (read_ids _ b5) as [[ids b6]|] eqn:E6; cbn [result_bind]; [|done]. apply read_ids_shrinks in E6.
    intros [= _ <-]. lia.
Qed.

Lemma decode_range_shrinks buf prev r rest prev' :
  decode_range buf prev = Ok (r, rest, prev') → (length rest < length buf)%nat.
Proof.
  unfold decode_range. destruct (decode_bound buf prev) as [[[b b1] p1]|] eqn:E1; cbn [result_bind]; [|done].
  apply decode_bound_shrinks in E1.
  destruct (decode_mode b1) as [[m b2]|] eqn:E2; cbn [result_bind]; [|done].
  apply decode_mode_shrinks in E2. intros [= _ <- _]. lia.
Qed.

Lemma decode_ranges_total fuel buf prev :
  (length buf ≤ fuel)%nat → ∃ r, decode_ranges fuel buf prev = Some r.
Proof.
  revert buf prev. induction fuel as [|fuel IH]; intros buf prev Hf.
  { destruct buf; [by eexists|simpl in Hf; lia]. }
  destruct buf as [|b buf]; [by eexists|]. cbn [decode_ranges].
  destruct (decode_range (b :: buf) prev) as [[[r rest] prev']|e] eqn:E; [|by eexists].
  apply decode_range_shrinks in E. destruct (IH rest prev') as [[rs|e] ->]; [simpl in *; lia|by eexists..].
Qed.

Lemma decode_ranges_fuel fuel fuel' buf prev r :
  decode_ranges fuel buf prev = Some r → (fuel ≤ fuel')%nat → decode_ranges fuel' buf prev = Some r.
Proof.
  revert fuel' buf prev r. induction fuel as [|fuel IH]; intros fuel' buf prev r Hd Hle.
  { destruct buf as [|b buf]; [|done]. by destruct fuel'. }
  destruct buf as [|b buf]; [by destruct fuel'|]. destruct fuel' as [|fuel']; [lia|].
  cbn [decode_ranges] in *. destruct (decode_range (b :: buf) prev) as [[[r0 rest] prev']|e]; [|done].
  destruct (decode_ranges fuel rest prev') as [rs|] eqn:E; [|done].
  by rewrite (IH fuel' rest prev' rs E) by lia.
Qed.

(** *** Well-formed payloads *)

Definition bound_ok (prev : N) (b : NegBound) : Prop :=
  (length (id_prefix b) ≤ ID_BYTES)%nat ∧ timestamp b <= Dec.u64_max
  ∧ (timestamp b ≠ INFINITY_TIMESTAMP → prev <= timestamp b).

Definition mode_ok (m : NegRangeMode) : Prop :=
  match m with
  | Skip => True
  | Fingerprint fp => length fp = FINGERPRINT_BYTES
  | IdList ids => N.of_nat (length ids) * 32 <= isize_max
  end.

(** The finite timestamps ascend; the running one starts at [prev]. *)
Fixpoint ranges_ok (prev : N) (rs : list NegRange) : Prop :=
  match rs with
  | [] => True
  | r :: rs =>
      bound_ok prev (upper_bound r) ∧ mode_ok (mode r)
      ∧ ranges_ok (if timestamp (upper_bound r) =? INFINITY_TIMESTAMP then prev
                   else timestamp (upper_bound r)) rs
  end.

Definition payload_ok (p : NegPayload) : Prop :=
  version_from_byte (p_version p) = Some (p_version p) ∧ ranges_ok 0 (ranges p).

Lemma read_chunk_app c rest : read_chunk (c ++ rest) (length c) = Ok (c, rest).
Proof.
  unfold read_chunk. rewrite length_app. destruct (Nat.ltb_spec (length c + length rest) (length c)); [lia|].
  by rewrite take_app_length, drop_app_length.
Qed.

Lemma decode_encode_bound b prev rest :
  bound_ok prev b → prev <= Dec.u64_max →
  decode_bound ((encode_bound b prev).1 ++ rest) prev = Ok (b, rest, (encode_bound b prev).2).
Proof.
  intros (Hp & Ht & Hle) Hprev. unfold encode_bound, decode_bound. cbn [fst snd].
  rewrite (Nat.min_l _ _ Hp), take_ge by lia. rewrite <-!app_assoc.
  rewrite Timestamp.saturating_add_spec, Timestamp.saturating_sub_spec.
  unfold RESERVED_TIMESTAMP_INFINITY_OFFSET, INFINITY_TIMESTAMP, Timestamp.MAX, Dec.u64_max, ID_BYTES in *.
  assert (∀ (ts p' : N), timestamp b = ts →
    (let? ' (len, buf) := read_varint (write_varint (N.of_nat (length (id_prefix b))) ++ id_prefix b ++ rest) in
     if N.of_nat 32 <? len then Err (Error (PayloadTruncated len))
     else let? ' (chunk, buf) := read_chunk buf (N.to_nat len) in Ok (mkBound ts chunk, buf, p'))
    = Ok (b, rest, p')) as Htail.
  { intros ts p' <-. rewrite read_write_varint by (unfold Dec.u64_max; lia). cbn [result_bind].
    destruct (N.ltb_spec (N.of_nat 32) (N.of_nat (length (id_prefix b)))); [lia|].
    rewrite Nat2N.id, read_chunk_app. cbn [result_bind]. by destruct b. }
  destruct (N.eqb_spec (timestamp b) 18446744073709551615) as [E|E].
  - rewrite read_write_varint by (unfold Dec.u64_max; lia). cbn [result_bind].
    change (0 =? 0) with true. cbv iota beta. by apply Htail.
  - specialize (Hle E). rewrite read_write_varint by (unfold Dec.u64_max; lia). cbn [result_bind].
    destruct (N.eqb_spec (N.min (timestamp b - prev + 1) 18446744073709551615) 0) as [E0|_]; [lia|].
    rewrite Timestamp.saturating_add_spec, Timestamp.saturating_sub_spec.
    unfold Timestamp.MAX, Dec.u64_max.
    replace (N.min (prev + (N.min (timestamp b - prev + 1) 18446744073709551615 - 1)) 18446744073709551615)
      with (timestamp b) by lia. by apply Htail.
Qed.

Lemma read_ids_concat ids rest :
  read_ids (length ids) (concat (b32_list <$> ids) ++ rest) = Ok (ids, rest).
Proof.
  induction ids as [|id ids IH]; [done|]. cbn [length read_ids fmap list_fmap concat].
  rewrite <-app_assoc. replace ID_BYTES with (length (b32_list id)) by apply length_b32.
  rewrite read_chunk_app. simpl. rewrite try_into32_list, IH. done.
Qed.

Lemma decode_encode_mode m rest : mode_ok m → decode_mode (encode_mode m ++ rest) = Ok (m, rest).
Proof.
  unfold decode_mode. destruct m as [|fp|ids]; cbn [mode_ok encode_mode]; intros Hok.
  - rewrite read_write_varint by (unfold Dec.u64_max; lia). done.
  - rewrite <-app_assoc, read_write_varint by (unfold Dec.u64_max; lia). cbn [result_bind].
    change (1 =? 0) with false. change (1 =? 1) with true. cbv iota.
    rewrite <-Hok, read_chunk_app. done.
  - rewrite <-!app_assoc, read_write_varint by (unfold Dec.u64_max; lia). cbn [result_bind].
    change (2 =? 0) with false. change (2 =? 1) with false. change (2 =? 2) with true. cbv iota.
    unfold isize_max in *. change (2 ^ 63 - 1) with 9223372036854775807 in *.
    rewrite read_write_varint by (unfold Dec.u64_max; lia). cbn [result_bind].
    unfold with_capacity, isize_max. change (2 ^ 63 - 1) with 9223372036854775807.
    change (N.of_nat ID_BYTES) with 32.
    destruct (N.ltb_spec 9223372036854775807 (N.of_nat (length ids) * 32)); [lia|]. cbn [result_bind].
    rewrite Nat2N.id, read_ids_concat. done.
Qed.

Lemma decode_encode_ranges rs prev :
  ranges_ok prev rs → prev <= Dec.u64_max →
  decode_ranges (length (encode_ranges rs prev)) (encode_ranges rs prev) prev = Some (Ok rs).
Proof.
  revert prev. induction rs as [|r rs IH]; intros prev Hok Hprev; [done|].
  cbn [ranges_ok] in Hok. destruct Hok as (Hb & Hm & Hrs). cbn [encode_ranges]. unfold encode_range.
  pose proof (decode_encode_bound (upper_bound r) prev) as Hdb.
  destruct (encode_bound (upper_bound r) prev) as [bytes prev'] eqn:Eb. cbn [fst snd] in Hdb.
  assert (prev' = if timestamp (upper_bound r) =? INFINITY_TIMESTAMP then prev
                  else timestamp (upper_bound r)) as Ep.
  { unfold encode_bound in Eb. by injection Eb as _ <-. }
  rewrite <-Ep in Hrs.
  assert (prev' <= Dec.u64_max) as Hp'. { rewrite Ep. case_match; [done|]. apply Hb. }
  assert (decode_range ((bytes ++ encode_mode (mode r)) ++ encode_ranges rs prev') prev
    = Ok (r, encode_ranges rs prev', prev')) as Hd.
  { unfold decode_range. rewrite <-app_assoc, Hdb by done. simpl.
    rewrite decode_encode_mode by done. simpl. by destruct r. }
  pose proof (decode_range_shrinks _ _ _ _ _ Hd) as Hlt.
  destruct ((bytes ++ encode_mode (mode r)) ++ encode_ranges rs prev') as [|b0 buf] eqn:Ebuf; [simpl in Hlt; lia|].
  cbn [length decode_ranges]. rewrite Hd.
  by rewrite (decode_ranges_fuel _ _ _ _ _ (IH prev' Hrs Hp')) by (simpl in Hlt; lia).
Qed.

(** *** The sum of the ids *)

(** The value of little-endian bytes. *)
Fixpoint le_value (bs : list byte) : N :=
  match bs with [] => 0 | b :: bs => Byte.to_N b + 256 * le_value bs end.

Lemma length_add_bytes carry sum id :
  length sum = length id → length (add_bytes carry sum id) = length sum.
Proof.
  revert carry id. induction sum as [|s sum IH]; intros carry [|b id]; simpl; try done.
  intros [= E]. f_equal. by apply IH.
Qed.

Lemma add_bytes_value sum : ∀ carry id,
  length sum = length id →
  le_value (add_bytes carry sum id) = (le_value sum + le_value id + carry) mod 256 ^ N.of_nat (length sum).
Proof.
  induction sum as [|s sum IH]; intros carry [|b id] Hl; try done.
  - simpl. by rewrite N.mod_1_r.
  - injection Hl as Hl. cbn [add_bytes le_value length]. rewrite IH by done.
    rewrite to_N_byte_of_N. change 255 with (N.ones 8). rewrite N.land_ones, N.shiftr_div_pow2.
    change (2 ^ 8) with 256. rewrite N.Div0.mod_mod.
    rewrite Nat2N.inj_succ, N.pow_succ_r'.
    set (P := 256 ^ N.of_nat (length sum)). set (t := Byte.to_N s + Byte.to_N b + carry).
    replace (Byte.to_N s + 256 * le_value sum + (Byte.to_N b + 256 * le_value id) + carry)
      with (t mod 256 + 256 * (le_value sum + le_value id + t / 256)).
    2:{ pose proof (N.div_mod t 256). subst t. lia. }
    set (q := le_value sum + le_value id + t / 256).
    assert (P ≠ 0) as HP by (apply N.pow_nonzero; done).
    rewrite N.Div0.mod_mul_r.
    rewrite (N.mul_comm 256 q), N.div_add, N.Div0.mod_add by done.
    rewrite N.Div0.mod_mod, N.div_small by (by apply N.mod_lt). simpl. done.
Qed.

Lemma id_sum_value ids acc :
  length acc = ID_BYTES →
  length (foldl (λ sum id, add_bytes 0 sum (b32_list id)) acc ids) = ID_BYTES
  ∧ le_value (foldl (λ sum id, add_bytes 0 sum (b32_list id)) acc ids) mod 256 ^ 32
    = (le_value acc + foldr (λ id n, le_value (b32_list id) + n) 0 ids) mod 256 ^ 32.
Proof.
  revert acc. induction ids as [|id ids IH]; intros acc Hl; [simpl; by rewrite N.add_0_r|]. cbn [foldl foldr].
  assert (length acc = length (b32_list id)) as E by (by rewrite length_b32).
  destruct (IH (add_bytes 0 acc (b32_list id))) as [H1 H2]; [by rewrite length_add_bytes|].
  split; [done|]. rewrite H2, add_bytes_value by done. rewrite Hl. change (N.of_nat ID_BYTES) with 32.
  rewrite N.Div0.add_mod_idemp_l. f_equal. lia.
Qed.

Lemma le_value_inj a b : length a = length b → le_value a = le_value b → a = b.
Proof.
  revert b. induction a as [|x a IH]; intros [|y b] Hl E; try done. injection Hl as Hl. simpl in E.
  pose proof (byte_to_N_lt x). pose proof (byte_to_N_lt y).
  assert (Byte.to_N x = Byte.to_N y) as Exy by lia.
  apply byte_to_N_inj in Exy as ->. f_equal. apply IH; [done|lia].
Qed.

Lemma le_value_bound bs : le_value bs < 256 ^ N.of_nat (length bs).
Proof.
  induction bs as [|b bs IH]; [done|]. cbn [le_value length]. rewrite Nat2N.inj_succ, N.pow_succ_r'.
  pose proof (byte_to_N_lt b). lia.
Qed.

End Nip77.
