(* ===== verification/WireTheorems.v ===== *)
(** * Relay lists, delegations and reconciliation messages: theorems *)

From Stdlib Require Import Ascii NArith Lia.
From S2P Require Import Prelude Encoding Text Ids Tags Event Filter FilterWire Storage Samples Nips Message Sync.
From S2P Require Import Database Server HttpAuth RelaySamples RelayLists Delegation NegPayload CoreTheorems.

(** ** Messages, proof of work and authentication: theorems *)

#[local] Existing Instance sample_secp.

(** ** Messages *)

Section messages.
Context `{FasterHex, !FasterHexLaws, Secp256k1, SerdeJson, !SerdeJsonLaws, SigSerde, !SigSerdeLaws}.

(** The client messages that survive their JSON array form are exactly those
    with a valid subscription id, at least one filter and fields in range, and
    whatever array a message was read from, it is one of them. *)
Theorem client_message_round_trip m :
  (ClientMessage.deserialize (ClientMessage.serialize m) = Ok m ↔ ClientMessage.wire_ok m) ∧
  (∀ v, ClientMessage.deserialize v = Ok m → ClientMessage.wire_ok m).
Proof.
  assert (∀ v, ClientMessage.deserialize v = Ok m → ClientMessage.wire_ok m) as Hread.
  { intros v (seq & E)%read_array_Ok. by eapply client_visit_ok. }
  split; [split; [apply Hread|apply client_round]|exact Hread].
Qed.

(** The same for relay messages: a [CLOSED] without a reason is read as one
    with the empty reason, and every message read is written and read back
    unchanged. *)
Theorem relay_message_round_trip m :
  (RelayMessage.deserialize (RelayMessage.serialize m) = Ok m ↔ RelayMessage.wire_ok m) ∧
  (∀ v, RelayMessage.deserialize v = Ok m → RelayMessage.wire_ok m).
Proof.
  assert (∀ v, RelayMessage.deserialize v = Ok m → RelayMessage.wire_ok m) as Hread.
  { intros v (seq & E)%read_array_Ok. by eapply relay_visit_ok. }
  split; [split; [apply Hread|apply relay_round]|exact Hread].
Qed.
End messages.

(** ** Proof of work *)

Section pow.
Local Open Scope N_scope.
Import Nip13.

(** An event passes the proof-of-work check for difficulty [d] exactly when
    its id, read as a 256-bit number, is below [2^(256-d)] and its [nonce] tag,
    if it commits to a difficulty at all, commits to a readable one of at least
    [d]. *)
Theorem verify_pow_spec e d :
  d <= u8_max →
  verify_pow e d = Ok tt ↔
  BigEndian.from_be_bytes (EventId.to_byte_array (Event.id e)) < 2 ^ (256 - d) ∧
  ∃ c, committed_difficulty e = Ok c ∧ ∀ n, c = Some n → d <= n.
Proof.
  intros Hd. rewrite <-difficulty_spec by done. unfold verify_pow.
  destruct (N.ltb_spec (event_id_difficulty (Event.id e)) d) as [Hlt|Hge].
  { split; [done|]. intros [? _]. lia. }
  destruct (committed_difficulty e) as [[c|]|err]; simpl.
  - destruct (N.ltb_spec c d); split; [done| |..].
    + intros (_ & ? & [= <-] & Hc). specialize (Hc c eq_refl). lia.
    + intros _. split; [done|]. exists (Some c). split; [done|]. by intros ? [= <-].
    + done.
  - split; [|done]. intros _. split; [done|]. by exists None.
  - split; [done|]. by intros (_ & ? & ? & _).
Qed.

Lemma strict_committed e d :
  d <= event_id_difficulty (Event.id e) → committed_difficulty e = Ok (Some d) →
  verify_pow_strict e d = Ok tt.
Proof.
  intros Hd Hc. unfold verify_pow_strict, verify_pow. rewrite (proj2 (N.ltb_ge _ _) Hd), Hc. simpl.
  rewrite N.ltb_irrefl. simpl. by destruct (0 <? d).
Qed.

Context `{FasterHex, EventCrypto, !EventCryptoLaws}.

End pow.

(** ** Relay addresses and authentication *)

(** Parsing a relay address normalises it: the scheme is [ws] or [wss], there
    is a host, no fragment and no default port, and the printed form parses to
    the same address. *)
Theorem relay_url_normalises `{UrlCrate, !UrlCrateLaws} input r :
  RelayUrl.parse input = Ok r → RelayUrl.normal r ∧ RelayUrl.parse (RelayUrl.as_str r) = Ok r.
Proof. intros Hn%RelayUrl.parse_normal. split; [done|by apply RelayUrl.parse_as_str]. Qed.

Section auth.
Context `{FasterHex, EventCrypto, !EventCryptoLaws, UrlCrate, !UrlCrateLaws}.

(** The authentication a client builds for the relay's address and challenge
    and signs is accepted by the relay exactly when the challenge is not empty
    and the event is at most ten minutes away from the relay's clock. *)
Theorem auth_round_trip clk relay ch keys e (env : Env) now :
  RelayUrl.normal relay → clock env = Ok now →
  EventBuilder.sign_with_keys clk (Nip42.auth_event relay ch) keys = Ok e →
  verify_client_auth env e relay ch = Ok tt ↔
  ch ≠ EmptyString ∧ (now <= Event.created_at e + 600)%N ∧ (Event.created_at e <= now + 600)%N.
Proof.
  intros Hn Hnow He. pose proof (EventBuilder.signed_builder_verifies _ _ _ _ He) as Hv.
  apply EventBuilder.sign_Ok in He as (ts & _ & E). unfold verify_client_auth.
  rewrite Hv, Hnow. simpl. 
  assert (∀ {A E F} (g : E → F) (r : result A E) a, map_err g r = Ok a ↔ r = Ok a) as Hme.
  { intros A E0 F g [x|x] a; simpl; naive_solver. }
  rewrite Hme, Nip42.verify_auth_event_ok. split.
  - intros [_ _ [? _] ?]. done.
  - intros (Hc & Hf1 & Hf2). rewrite E. split; simpl; [done| |split; [done|]|by rewrite E in Hf1, Hf2].
    + eexists _, _. split_and!; [done|done|]. by apply RelayUrl.parse_as_str.
    + by eexists.
Qed.
End auth.

(** ** Instances of the theorems *)

Definition sample_req : ClientMessage :=
  ClientMessage.Req sub1 [Filter.add_kinds (Filter.add_author Filter.new alice) [1%N]].

Lemma client_message_round_trip_witness :
  ClientMessage.deserialize (ClientMessage.serialize sample_req) = Ok sample_req ∧
  ClientMessage.wire_ok sample_req.
Proof.
  assert (ClientMessage.deserialize (ClientMessage.serialize sample_req) = Ok sample_req) as E
    by (vm_compute; reflexivity).
  split; [exact E|]. exact (proj2 (client_message_round_trip sample_req) _ E).
Defined.

Lemma relay_message_round_trip_witness :
  RelayMessage.deserialize (JArr [JStr "CLOSED"; JStr "sub1"]) = Ok (RelayMessage.Closed sub1 EmptyString) ∧
  RelayMessage.deserialize (RelayMessage.serialize (RelayMessage.Closed sub1 EmptyString)) =
    Ok (RelayMessage.Closed sub1 EmptyString).
Proof.
  split; [vm_compute; reflexivity|].
  apply (relay_message_round_trip (RelayMessage.Closed sub1 EmptyString)).
  apply (proj2 (relay_message_round_trip _) (JArr [JStr "CLOSED"; JStr "sub1"])).
  vm_compute. reflexivity.
Defined.

Lemma verify_pow_spec_witness : Nip13.verify_pow note1 8 = Ok tt ∧ Nip13.verify_pow note1 253 ≠ Ok tt.
Proof.
  split.
  - apply verify_pow_spec; [apply (bool_decide_unpack _); vm_compute; exact I|].
    split; [apply (bool_decide_unpack _); vm_compute; exact I|]. exists None. split; [vm_compute; reflexivity|].
    intros n E. discriminate E.
  - intros E. apply verify_pow_spec in E as [E _]; [|apply (bool_decide_unpack _); vm_compute; exact I].
    vm_compute in E. discriminate E.
Defined.


Lemma relay_url_normalises_witness :
  RelayUrl.parse "wss://relay.example" = Ok sample_relay ∧ RelayUrl.normal sample_relay.
Proof.
  assert (RelayUrl.parse "wss://relay.example" = Ok sample_relay) as E by (vm_compute; reflexivity).
  split; [exact E|]. exact (proj1 (relay_url_normalises _ _ E)).
Defined.

Lemma auth_round_trip_witness :
  ∃ e, EventBuilder.sign_with_keys (Some 1000%N) (Nip42.auth_event sample_relay "xyz") (sample_key 7) = Ok e ∧
       verify_client_auth (sample_env 1500) e sample_relay "xyz" = Ok tt ∧
       verify_client_auth (sample_env 1601) e sample_relay "xyz" ≠ Ok tt.
Proof.
  assert (RelayUrl.normal sample_relay) as Hn
    by (apply (RelayUrl.parse_normal "wss://relay.example"); vm_compute; reflexivity).
  destruct (EventBuilder.sign_with_keys (Some 1000%N) (Nip42.auth_event sample_relay "xyz") (sample_key 7))
    as [e|err] eqn:E; [|discriminate E].
  assert (Event.created_at e = 1000%N) as Ht.
  { apply EventBuilder.sign_Ok in E as (ts & Hts & ->). destruct Hts as [Hts|[_ Hts]]; [discriminate Hts|].
    injection Hts as <-. reflexivity. }
  exists e. split; [reflexivity|].
  rewrite (auth_round_trip _ _ _ _ _ (sample_env 1500) 1500 Hn eq_refl E).
  rewrite (auth_round_trip _ _ _ _ _ (sample_env 1601) 1601 Hn eq_refl E), Ht. split.
  - split; [discriminate|]. split; apply (bool_decide_unpack _); vm_compute; exact I.
  - intros (_ & Hf & _). vm_compute in Hf. apply Hf. reflexivity.
Defined.

(** ** Relay lists *)

Section relay_lists.
Context `{FasterHex, EventCrypto, UrlCrate, !UrlCrateLaws}.

(** The event a user signs to publish a relay list reads back as that list, and
    so does the event with the relays for direct messages, in order; and whatever
    event reads as a relay list, its addresses are normalised and a relay named
    twice keeps its last marker. *)
Theorem relay_lists_round_trip clock keys e :
  (∀ l, Nip65.list_ok l → EventBuilder.sign_with_keys clock (Nip65.to_event_builder l) keys = Ok e →
     Nip65.from_event e = Ok l)
  ∧ (∀ rs, Forall RelayUrl.normal rs →
     EventBuilder.sign_with_keys clock (Nip17.build_dm_relays_event rs) keys = Ok e →
     Nip17.parse_dm_relays_event e = Ok rs)
  ∧ (∀ l, Nip65.from_event e = Ok l →
     Nip65.list_ok l ∧
     ∃ ps, Forall2 (λ tag p, Nip65.read_r_tag tag = Ok p)
             (filter (λ t, Nip65.is_relay_tag (Tag.kind t) = true) (Event.tags e)) ps
           ∧ Nip65.relays l = list_to_map (reverse ps)).
Proof.
  split_and!.
  - intros l Hl (ts & _ & ->)%EventBuilder.sign_Ok. by apply Nip65.from_to_tags.
  - intros rs Hrs (ts & _ & ->)%EventBuilder.sign_Ok. by apply (Nip17.parse_relay_tags_built []).
  - intros l. unfold Nip65.from_event. case_decide; [done|].
    intros (ps & Hps & E)%Nip65.from_tags_spec. simpl in E.
    rewrite Nip65.foldl_insert_list, (right_id_L ∅ (∪)) in E. split; [|by exists ps].
    intros u m Hu. rewrite E in Hu. apply elem_of_list_to_map_2 in Hu. rewrite elem_of_reverse in Hu.
    clear E. induction Hps as [|tag [u' m'] tags ps Hr _ IH]; [by apply elem_of_nil in Hu|].
    apply elem_of_cons in Hu as [[= -> ->]|Hu]; [by eapply Nip65.read_r_tag_normal|by apply IH].
Qed.
End relay_lists.

(** *** Witness *)

Definition two_relays : Nip65.RelayList :=
  (Nip65.insert (Nip65.insert Nip65.new sample_relay Nip65.Read).2
     (RelayUrl.mk (mkUrl Wss "b.example" eq_refl)) Nip65.ReadWrite).2.

Lemma relay_lists_round_trip_witness :
  Nip65.from_event (signed_by 7 (Nip65.to_event_builder two_relays)) = Ok two_relays
  ∧ Nip17.parse_dm_relays_event (signed_by 7 (Nip17.build_dm_relays_event [sample_relay])) = Ok [sample_relay].
Proof.
  assert (RelayUrl.normal sample_relay) as Hn by by apply (RelayUrl.parse_normal "wss://relay.example").
  split.
  - destruct (relay_lists_round_trip (Some 1000%N) (sample_key 7)
      (signed_by 7 (Nip65.to_event_builder two_relays))) as [Hr _].
    apply Hr; [|reflexivity]. intros u m Hu.
    assert (u = sample_relay ∨ u = RelayUrl.mk (mkUrl Wss "b.example" eq_refl)) as [-> | ->].
    { apply elem_of_dom_2 in Hu. unfold two_relays, Nip65.insert, Nip65.new in Hu. simpl in Hu. set_solver. }
    + exact Hn.
    + by apply (RelayUrl.parse_normal "wss://b.example").
  - destruct (relay_lists_round_trip (Some 1000%N) (sample_key 7)
      (signed_by 7 (Nip17.build_dm_relays_event [sample_relay]))) as (_ & Hr & _).
    apply Hr; [|reflexivity]. apply Forall_singleton. exact Hn.
Defined.

(** ** Delegations *)

Section delegation.
Context `{FasterHex, !FasterHexLaws, Secp256k1, EventCrypto, !EventCryptoLaws, SigText, !SigTextLaws}.
Import Nip26.

(** Conditions read back from their text as they were, so the text signed by the
    delegator is the text checked by the verifier; the reader accepts only
    conditions in range; but a text is not always rendered back as it was read: a
    sign or a leading zero is lost, so a token over such a text never verifies
    against the conditions read from it. *)
Theorem conditions_round_trip :
  (∀ cs, Forall condition_ok cs → parse (render cs) = Ok cs)
  ∧ (∀ s cs, parse s = Ok cs → Forall condition_ok cs)
  ∧ (∀ s, s = "kind=01" ∨ s = "kind=+1" →
       ∃ cs, parse s = Ok cs ∧ render cs = "kind=1" ∧ render cs ≠ s).
Proof.
  split_and!; [apply parse_render|..].
  - intros s cs. unfold parse. case_decide; [by intros [= <-]|]. apply parse_all_ok.
  - intros s [-> | ->]; exists [KindIs 1%N]; (split_and!; [reflexivity|reflexivity|done]).
Qed.

(** An event that carries a delegator's tag over conditions in range, issued to
    the event's own key, is accepted with exactly those conditions when its kind
    and date meet every one of them, and is refused as violating them otherwise. *)
Theorem delegation_verified (keys : secret_key) cs (e : Event) before_tags after_tags :
  Forall condition_ok cs → PublicKey.valid (xonly_public_key keys) →
  length (sign_delegation keys (Event.pubkey e) cs) = 64%nat →
  Forall (λ t, is_delegation_tag (Tag.kind t) = false) before_tags →
  Event.tags e = before_tags
    ++ delegation_tag (xonly_public_key keys) cs (sign_delegation keys (Event.pubkey e) cs) :: after_tags →
  verify_event_delegation e =
    if forallb (λ c, holds c (Event.kind e) (Event.created_at e)) cs
    then Ok (mkDelegation (xonly_public_key keys) cs (sign_delegation keys (Event.pubkey e) cs))
    else Err ConditionsViolated.
Proof.
  intros Hcs Hv Hlen Hb Ht. unfold verify_event_delegation. rewrite Ht.
  set (tok := sign_delegation keys (Event.pubkey e) cs) in *.
  assert (parse_delegation (before_tags ++ delegation_tag (xonly_public_key keys) cs tok :: after_tags)
    = Ok (mkDelegation (xonly_public_key keys) cs tok)) as ->.
  { clear Ht. induction Hb as [|t ts Hk _ IH].
    - cbn [app parse_delegation]. simpl negb. cbv iota. simpl.
      rewrite PublicKey.pk_parse_to_hex by done. simpl. rewrite parse_render by done. simpl.
      by rewrite sig_parse_string.
    - cbn [app parse_delegation]. rewrite Hk. done. }
  cbn [result_bind delegator conditions token]. unfold verify_delegation. subst tok. unfold sign_delegation at 1.
  rewrite verify_sign. cbn [negb]. unfold cond_matches. by destruct (forallb _ cs).
Qed.
End delegation.

(** Signatures as their bytes in hex, padded to sixty-four. *)
#[local] Instance sample_sig_text : SigText := {|
  sig_parse s := match HexModel.unhex (as_bytes s) with Some b => Ok b | None => Err "malformed" end;
  sig_string := Hex.fmt_lower;
|}.
#[local] Instance sample_sig_text_laws : SigTextLaws.
Proof. split. intros s _. simpl. by rewrite HexModel.unhex_fmt_lower. Qed.
#[local] Existing Instance sample_secp.

Definition delegated (at_ : Timestamp) : Event :=
  let cs := Nip26.after (Nip26.allow_kind Nip26.new 1) 50 in
  ev 70 bob at_ Kind.TEXT_NOTE
    [Nip26.delegation_tag (key 7) cs (Nip26.sign_delegation (sample_key 7) bob cs)].

Lemma delegation_verified_witness :
  (∃ d, Nip26.verify_event_delegation (delegated 100) = Ok d)
  ∧ Nip26.verify_event_delegation (delegated 50) = Err Nip26.ConditionsViolated.
Proof.
  assert (∀ at_, Nip26.verify_event_delegation (delegated at_) =
    if forallb (λ c, Nip26.holds c 1%N at_) (Nip26.after (Nip26.allow_kind Nip26.new 1) 50)
    then Ok (Nip26.mkDelegation (key 7) (Nip26.after (Nip26.allow_kind Nip26.new 1) 50)
      (Nip26.sign_delegation (sample_key 7) bob (Nip26.after (Nip26.allow_kind Nip26.new 1) 50)))
    else Err Nip26.ConditionsViolated) as Hd.
  { intros at_. apply (delegation_verified (sample_key 7) (Nip26.after (Nip26.allow_kind Nip26.new 1) 50)
      (delegated at_) [] []).
    - repeat constructor; vm_compute; discriminate.
    - reflexivity.
    - vm_compute. reflexivity.
    - constructor.
    - reflexivity. }
  split; rewrite Hd.
  - eexists. vm_compute. reflexivity.
  - reflexivity.
Defined.

(** ** Reconciliation messages *)

Section neg_payload.
Import Nip77.
Local Open Scope N_scope.

(** The reader of reconciliation messages answers every byte string after
    finitely many ranges, and reads every well-formed payload back from its bytes:
    the finite bounds ascending, prefixes of at most 32 bytes, fingerprints of 16. *)
Theorem neg_payload_round_trip :
  (∀ buf, ∃ r, decode_payload buf = Some r)
  ∧ (∀ p, payload_ok p → decode_payload (encode_payload p) = Some (Ok p)).
Proof.
  split.
  - intros [|vb rest]; [by eexists|]. unfold decode_payload. destruct (version_from_byte vb); [|by eexists].
    destruct (decode_ranges_total (length rest) rest 0) as [[rs|e] ->]; [lia|by eexists..].
  - intros [v rs] [Hv Hrs]. unfold decode_payload, encode_payload. cbn [p_version ranges] in *. rewrite Hv.
    by rewrite decode_encode_ranges.
Qed.

(** The reader rejects what it does not know, each with its own error: the empty
    string, an unknown version, an unknown range mode, a truncated value.  But it
    takes the number of ids on trust: a message of fourteen bytes that announces
    2^59 ids makes it panic while it reserves room for them; and an integer of ten
    digits is not checked for overflow, so one that exceeds 64 bits is read as its
    remainder. *)
Theorem neg_payload_failures :
  decode_payload [] = Some (Err (Error UnexpectedEof))
  ∧ (∀ b rest, version_from_byte b = None → decode_payload (b :: rest) = Some (Err (Error (UnsupportedVersion b))))
  ∧ decode_payload [V1; x00; x00; x03] = Some (Err (Error (UnknownRangeMode 3)))
  ∧ decode_payload [V1; x00; x02; xff] = Some (Err (Error (PayloadTruncated 1)))
  ∧ (∃ buf, length buf = 13%nat ∧ decode_payload (V1 :: buf) = Some (Err CapacityOverflow))
  ∧ (∀ rest, read_varint ([x82; x80; x80; x80; x80; x80; x80; x80; x80; x05] ++ rest) = Ok (5, rest)).
Proof.
  split_and!; [reflexivity| |reflexivity|reflexivity| |reflexivity].
  - intros b rest Hb. unfold decode_payload. by rewrite Hb.
  - exists ([x00; x00; x02] ++ [x80] ++ write_varint (2 ^ 59)). split; vm_compute; reflexivity.
Qed.

(** The fingerprint of a list of ids hashes their sum as little-endian numbers
    modulo 2^256 and their count, so it is the same for every order of the ids. *)
Theorem neg_fingerprint_sum `{EventCrypto} ids :
  length (id_sum ids) = 32%nat
  ∧ le_value (id_sum ids) = foldr (λ id n, le_value (b32_list id) + n) 0 ids mod 256 ^ 32
  ∧ (∀ ids', ids ≡ₚ ids' → fingerprint ids = fingerprint ids').
Proof.
  assert (∀ l, length (id_sum l) = 32%nat ∧
    le_value (id_sum l) = foldr (λ id n, le_value (b32_list id) + n) 0 l mod 256 ^ 32) as Hs.
  { intros l. destruct (id_sum_value l (replicate ID_BYTES x00)) as [Hl Hv]; [done|].
    split; [done|]. unfold id_sum. rewrite <-(N.mod_small _ (256 ^ 32)); [exact Hv|].
    pose proof (le_value_bound (foldl (λ sum id, add_bytes 0 sum (b32_list id)) (replicate ID_BYTES x00) l)) as Hb.
    rewrite Hl in Hb. exact Hb. }
  destruct (Hs ids) as [Hl Hv]. split_and!; [done|done|]. intros ids' Hp. unfold fingerprint.
  destruct (Hs ids') as [Hl' Hv']. do 3 f_equal. f_equal; [|by rewrite Hp].
  apply le_value_inj; [congruence|]. rewrite Hv, Hv'. f_equal.
  clear Hl Hv Hl' Hv'. induction Hp; simpl; lia.
Qed.
End neg_payload.

(** *** Witness *)

Lemma neg_payload_round_trip_witness :
  Nip77.decode_payload (Nip77.encode_payload
    (Nip77.mkPayload Nip77.V1
       [Nip77.mkRange (Nip77.mkBound 100%N [xab; xcd]) (Nip77.IdList [bytes32_of_N 1; bytes32_of_N 2]);
        Nip77.mkRange Nip77.infinity_bound (Nip77.Fingerprint (replicate 16 x01))]))
  = Some (Ok (Nip77.mkPayload Nip77.V1
       [Nip77.mkRange (Nip77.mkBound 100%N [xab; xcd]) (Nip77.IdList [bytes32_of_N 1; bytes32_of_N 2]);
        Nip77.mkRange Nip77.infinity_bound (Nip77.Fingerprint (replicate 16 x01))])).
Proof.
  apply neg_payload_round_trip. split; [reflexivity|]. cbn [Nip77.ranges_ok Nip77.ranges].
  unfold Nip77.bound_ok. cbn. repeat split; try lia; vm_compute; first [discriminate | lia].
Defined.
