(* ===== verification/Client.v ===== *)
(** * The single-relay client

    [crates/nula-relay/src] without the server and the pool: the status of a
    connection, the reconnect policy, the options, and the actor task that owns
    the socket ([inner/run.rs], [inner/dispatch.rs], [inner/outbound.rs],
    [inner/state.rs]) with the caller's side of its channels ([relay.rs],
    [subscription.rs]).

    One turn of the actor's loop is a function of the wakeup that [select!]
    picked and of what the surroundings answer during the turn ([Env]): the
    outcome of a connection attempt, the clock, the random bits.  A socket
    carries what was written to it and which writes fail.  The senders of
    one-shot replies and of subscription streams are names; the values sent on
    them, and their being dropped, are entries of a log. *)

From Stdlib Require Import Ascii NArith Lia.
From S2P Require Import Prelude Encoding Text Ids Tags Event Filter FilterWire.
From S2P Require Import Nips Message HttpAuth.

(** [serde_json] reads the text of a message it wrote. *)
Class JsonReads `{FasterHex, Secp256k1, SerdeJson, SigSerde, JsonText} : Prop := {
  reads_client : ∀ m, ClientMessage.wire_ok m →
    json_from_slice (as_bytes (json_to_string (ClientMessage.serialize m))) = Ok (ClientMessage.serialize m);
  reads_relay : ∀ m, RelayMessage.wire_ok m →
    json_from_slice (as_bytes (json_to_string (RelayMessage.serialize m))) = Ok (RelayMessage.serialize m);
}.

(** ** Status ([status.rs]) *)

Module RelayStatus.

Inductive t := Initialized | Connecting | Connected | Disconnected | Terminated.

#[global] Instance t_eq_dec : EqDecision t.
Proof. solve_decision. Defined.

Definition is_connected (s : t) : bool := match s with Connected => true | _ => false end.
Definition is_terminated (s : t) : bool := match s with Terminated => true | _ => false end.

Definition to_string (s : t) : string :=
  match s with
  | Initialized => "initialized"
  | Connecting => "connecting"
  | Connected => "connected"
  | Disconnected => "disconnected"
  | Terminated => "terminated"
  end.

(** The discriminant [AtomicRelayStatus] stores, and its [load]; [None] is the
    unreachable arm. *)
Definition set (s : t) : N :=
  match s with Initialized => 0 | Connecting => 1 | Connected => 2 | Disconnected => 3 | Terminated => 4 end%N.
Definition load (cell : N) : option t :=
  match cell with
  | 0 => Some Initialized | 1 => Some Connecting | 2 => Some Connected
  | 3 => Some Disconnected | 4 => Some Terminated | _ => None
  end%N.

Lemma load_set s : load (set s) = Some s.
Proof. by destruct s. Qed.

End RelayStatus.
Abbreviation RelayStatus := RelayStatus.t.

(** ** Reconnect policy ([policy.rs])

    Durations and instants are in nanoseconds. *)

Definition u128_max : N := 2 ^ 128 - 1.

(** [Instant + Duration] panics past the last instant: 2^63 - 1 seconds and a
    fraction. *)
Definition instant_max : N := 2 ^ 63 * 1000000000 - 1.
Definition instant_add (i d : N) : option N := if (i + d <=? instant_max)%N then Some (i + d)%N else None.

Module ReconnectPolicy.
Local Open Scope N_scope.

Inductive t :=
| Never
| Constant (d : N)
| Exponential (base cap : N).

Definition default : t := Exponential 500000000 60000000000.

Definition saturating_mul (a b : N) : N := N.min (a * b) u128_max.

(** [rand] is what [rand_u64] draws. *)
Definition full_jitter (base cap attempts rand : N) : N :=
  let shift := N.min attempts 32 in
  let exp := saturating_mul base (N.shiftl 1 shift) in
  let upper := N.min exp cap in
  if upper =? 0 then 0
  else
    let rand_nanos := rand mod upper in
    if rand_nanos <=? Dec.u64_max then rand_nanos else Dec.u64_max.

Definition next_delay (p : t) (attempts rand : N) : option N :=
  match p with
  | Never => None
  | Constant d => Some d
  | Exponential base cap => Some (full_jitter base cap attempts rand)
  end.

Lemma full_jitter_bound base cap attempts rand :
  full_jitter base cap attempts rand <= cap
  ∧ (0 < base → 0 < cap → full_jitter base cap attempts rand < base * 2 ^ N.min attempts 32).
Proof.
  unfold full_jitter, saturating_mul. rewrite N.shiftl_1_l.
  set (e := base * 2 ^ N.min attempts 32). assert (0 < base → 0 < e) as He.
  { intros Hb. unfold e. pose proof (N.pow_nonzero 2 (N.min attempts 32)). lia. }
  assert (0 < u128_max) as Hu by done. assert (2 ^ 64 - 1 = Dec.u64_max) as Hm by reflexivity.
  generalize dependent u128_max. intros top Htop.
  destruct (N.eqb_spec (N.min (N.min e top) cap) 0); [lia|].
  pose proof (N.mod_lt rand (N.min (N.min e top) cap)).
  destruct (N.leb_spec (rand mod N.min (N.min e top) cap) Dec.u64_max); lia.
Qed.

End ReconnectPolicy.

(** ** Options ([options.rs], [limits.rs], [transport/mode.rs]) *)

(** [Socks5] carries the address of the proxy. *)
Inductive ConnectionMode := Direct | Socks5 (proxy : string).

Module RelayLimits.
Local Open Scope N_scope.

Record t := mk { max_message_bytes : N; max_subscriptions : N; max_pending_publishes : N }.
Definition new : t := mk (5 * 1024 * 1024) 512 1024.
Definition set_max_message_bytes (l : t) bytes : t := mk bytes (max_subscriptions l) (max_pending_publishes l).
Definition set_max_subscriptions (l : t) n : t := mk (max_message_bytes l) n (max_pending_publishes l).
Definition set_max_pending_publishes (l : t) n : t := mk (max_message_bytes l) (max_subscriptions l) n.

End RelayLimits.

Module RelayOptions.
Local Open Scope N_scope.

Record t := mk {
  connection_mode : ConnectionMode;
  reconnect_policy : ReconnectPolicy.t;
  connect_timeout : N;
  publish_timeout : N;
  limits : RelayLimits.t;
}.
Definition CONNECT_TIMEOUT : N := 30 * 1000000000.
Definition PUBLISH_TIMEOUT : N := 60 * 1000000000.
Definition new : t := mk Direct ReconnectPolicy.default CONNECT_TIMEOUT PUBLISH_TIMEOUT RelayLimits.new.
Definition set_connection_mode (o : t) m : t := let '(mk _ p c u l) := o in mk m p c u l.
Definition set_reconnect_policy (o : t) p : t := let '(mk m _ c u l) := o in mk m p c u l.
Definition set_connect_timeout (o : t) c : t := let '(mk m p _ u l) := o in mk m p c u l.
Definition set_publish_timeout (o : t) u : t := let '(mk m p c _ l) := o in mk m p c u l.
Definition set_limits (o : t) l : t := let '(mk m p c u _) := o in mk m p c u l.

End RelayOptions.

Record SubscribeOptions := mkSubscribeOptions { close_on_eose : bool }.
Definition subscribe_options_new : SubscribeOptions := mkSubscribeOptions false.

Record PublishOptions := mkPublishOptions { timeout : option N }.
Definition publish_options_new : PublishOptions := mkPublishOptions None.

(** ** Frames and errors ([transport/message.rs], [error.rs]) *)

Record CloseFrame := mkCloseFrame { code : N; close_reason : string }.

(** A WebSocket frame. *)
Inductive WireMessage :=
| Text (content : string)
| Binary (payload : list byte)
| Ping (payload : list byte)
| Pong (payload : list byte)
| Close (frame : option CloseFrame).

(** Errors of the transport; the boxed sources are the text they display as. *)
Inductive NetError :=
| Io (e : string)
| Tls (e : string)
| Handshake (status : N) (message : option string)
| ConnectionClosed
| ProtocolViolation (reason : string)
| UnsupportedMode (mode : ConnectionMode)
| Backend (e : string).

Inductive ClientError :=
| Transport (e : NetError)
| MalformedRelayMessage (e : string)
| SerializeClientMessage (e : string)
| JsonError (e : string)
| PublishRejected (event_id : EventId) (message : string)
| PublishTimeout (event_id : EventId) (timeout : N)
| SubscriptionClosed (subscription_id : SubscriptionId) (message : string)
| Shutdown
| ConnectTimeout (timeout : N)
| NotConnected
| TooManySubscriptions (limit : N)
| TooManyPendingPublishes (limit : N)
| DuplicateSubscription (id : SubscriptionId)
| MissingTransport.

(** [subscription.rs] and [notification.rs]. *)
Inductive SubscriptionItem :=
| ItemEvent (event : Event)
| ItemEndOfStoredEvents
| ItemClosed (message : string)
| ItemNegMsg (message : string)
| ItemNegErr (message : string).

Inductive RelayNotification :=
| Status (s : RelayStatus)
| Notice (message : string)
| AuthChallenge (challenge : string)
| ShutdownNotice.

(** ** The actor's state ([inner/state.rs], [stats.rs]) *)

(** The sending end of a one-shot reply, and of a subscription's stream. *)
Definition Reply := N.
Definition SubscriptionSink := N.

(** The two halves of an open connection: what was written, how many writes were
    tried, and which of them fail. *)
Record Socket := mkSocket {
  written : list WireMessage;
  tries : nat;
  fails : nat → option NetError;
}.
(** A connection as the transport hands it over. *)
Definition fresh_socket (fails : nat → option NetError) : Socket := mkSocket [] 0 fails.

Record SubscriptionEntry := mkEntry {
  filters : list Filter;
  options : SubscribeOptions;
  sink : SubscriptionSink;
  skip_reissue : bool;
}.

Record PendingPublish := mkPending { reply : Reply; deadline : N; pending_timeout : N }.

(** The sending half of the connection is the [Socket]; of the receiving half
    only its presence is kept, the frames are inputs of the turns. *)
Record ActorState := mkState {
  wire : option Socket;
  stream : bool;
  subscriptions : gmap SubscriptionId SubscriptionEntry;
  pending_publishes : gmap EventId PendingPublish;
  reconnect_attempts : N;
}.

Definition actor_state_new : ActorState := mkState None false ∅ ∅ 0.

Definition set_wire (s : ActorState) w : ActorState :=
  mkState w (stream s) (subscriptions s) (pending_publishes s) (reconnect_attempts s).
Definition set_subs (s : ActorState) m : ActorState :=
  mkState (wire s) (stream s) m (pending_publishes s) (reconnect_attempts s).
Definition set_pending (s : ActorState) m : ActorState :=
  mkState (wire s) (stream s) (subscriptions s) m (reconnect_attempts s).

Definition drop_socket (s : ActorState) : ActorState :=
  mkState None false (subscriptions s) (pending_publishes s) (reconnect_attempts s).

(** [inner/run.rs], [ActorState::is_connected]. *)
Definition is_connected (s : ActorState) : bool := bool_decide (is_Some (wire s)) && stream s.

Definition min_opt (a : option N) (b : N) : option N :=
  match a with None => Some b | Some x => Some (N.min x b) end.
Definition earliest_publish_deadline (s : ActorState) : option N :=
  foldl (λ acc p, min_opt acc (deadline p.2)) None (map_to_list (pending_publishes s)).

Record RelayStats := mkStats {
  connect_attempts : N;
  connect_successes : N;
  bytes_sent : N;
  bytes_received : N;
  events_published : N;
  events_received : N;
  last_handshake_nanos : N;
}.
Definition stats_default : RelayStats := mkStats 0 0 0 0 0 0 0.

(** [AtomicU64::fetch_add]. *)
Definition fetch_add (n d : N) : N := ((n + d) mod 2 ^ 64)%N.
Definition count_attempt (s : RelayStats) : RelayStats :=
  let '(mkStats a c t r p v h) := s in mkStats (fetch_add a 1) c t r p v h.
Definition count_success (s : RelayStats) (nanos : N) : RelayStats :=
  let '(mkStats a c t r p v h) := s in mkStats a (fetch_add c 1) t r p v nanos.
Definition count_received (s : RelayStats) (bytes : N) : RelayStats :=
  let '(mkStats a c t r p v h) := s in mkStats a c t (fetch_add r bytes) p v h.
Definition count_published (s : RelayStats) : RelayStats :=
  let '(mkStats a c t r p v h) := s in mkStats a c t r (fetch_add p 1) v h.
Definition count_event (s : RelayStats) : RelayStats :=
  let '(mkStats a c t r p v h) := s in mkStats a c t r p (fetch_add v 1) h.

(** [last_handshake]. *)
Definition last_handshake (s : RelayStats) : option N :=
  if (last_handshake_nanos s =? 0)%N then None else Some (last_handshake_nanos s).

(** What leaves the actor on its channels.  A dropped reply is what the caller
    sees as [Shutdown], a dropped sink ends the subscription's stream. *)
Inductive Effect :=
| Replied (r : Reply) (res : result unit ClientError)
| ReplyDropped (r : Reply)
| Item (ch : SubscriptionSink) (item : SubscriptionItem)
| SinkDropped (ch : SubscriptionSink)
| Notified (n : RelayNotification).

(** The actor with its shared cells, its timer and its log. *)
Record Actor := mkActor {
  status : RelayStatus;
  stats : RelayStats;
  state : ActorState;
  reconnect_deadline : option N;
  log : list Effect;
}.

Definition set_state (a : Actor) s : Actor := mkActor (status a) (stats a) s (reconnect_deadline a) (log a).
Definition set_stats (a : Actor) s : Actor := mkActor (status a) s (state a) (reconnect_deadline a) (log a).
Definition set_deadline (a : Actor) d : Actor := mkActor (status a) (stats a) (state a) d (log a).
Definition emit (a : Actor) (e : Effect) : Actor :=
  mkActor (status a) (stats a) (state a) (reconnect_deadline a) (log a ++ [e]).
Definition send_reply (a : Actor) (r : Reply) (res : result unit ClientError) : Actor :=
  emit a (Replied r res).

(** What the actor task closes over. *)
Record StaticCtx := mkCtx { ctx_options : RelayOptions.t }.
Definition ctx_limits (ctx : StaticCtx) : RelayLimits.t := RelayOptions.limits (ctx_options ctx).

(** What the surroundings answer during one turn: the outcome of a connection
    attempt ([None]: the timeout elapsed first), how long the handshake took,
    the random bits, and the two readings of the clock, the second one when the
    expired publishes are swept. *)
Record Env := mkEnv {
  connect_outcome : option (result Socket NetError);
  handshake_nanos : N;
  rand : N;
  now : N;
  now_sweep : N;
}.

(** [inner/command.rs]. *)
Inductive Command :=
| Connect (r : Reply)
| Disconnect (r : Reply)
| Subscribe (id : SubscriptionId) (fs : list Filter) (o : SubscribeOptions) (ch : SubscriptionSink) (r : Reply)
| SubscribeNeg (id : SubscriptionId) (f : Filter) (initial_message_hex : string) (ch : SubscriptionSink) (r : Reply)
| Publish (event : Event) (o : PublishOptions) (r : Reply)
| Authenticate (event : Event) (r : Reply)
| SendMsg (message : ClientMessage) (r : Reply)
| ShutdownCommand.

Definition set_status (a : Actor) (new : RelayStatus) : Actor :=
  if decide (status a = new) then a
  else emit (mkActor new (stats a) (state a) (reconnect_deadline a) (log a)) (Notified (Status new)).

(** ** Outbound frames ([inner/outbound.rs]) *)

(** [sink.send(frame).await]. *)
Definition sink_send (s : Socket) (f : WireMessage) : result unit NetError * Socket :=
  match fails s (tries s) with
  | Some e => (Err e, mkSocket (written s) (S (tries s)) (fails s))
  | None => (Ok tt, mkSocket (written s ++ [f]) (S (tries s)) (fails s))
  end.

Definition frame_byte_len (f : WireMessage) : N :=
  match f with
  | Text s => N.of_nat (String.length s)
  | Binary b => N.of_nat (length b)
  | _ => 0
  end.

Section actor.
Context `{FasterHex, Secp256k1, SerdeJson, SigSerde, JsonText}.

Definition encode (m : ClientMessage) : result WireMessage ClientError :=
  Ok (Text (json_to_string (ClientMessage.serialize m))).

Definition send_msg (s : Socket) (m : ClientMessage) : result N ClientError * Socket :=
  match encode m with
  | Err e => (Err e, s)
  | Ok frame =>
      let bytes := frame_byte_len frame in
      match sink_send s frame with
      | (Err e, s) => (Err (Transport e), s)
      | (Ok _, s) => (Ok bytes, s)
      end
  end.
Definition send_req (s : Socket) (id : SubscriptionId) (fs : list Filter) : result N ClientError * Socket :=
  send_msg s (ClientMessage.Req id fs).
Definition send_close (s : Socket) (id : SubscriptionId) : result N ClientError * Socket :=
  send_msg s (ClientMessage.Close id).
Definition send_event (s : Socket) (e : Event) : result N ClientError * Socket :=
  send_msg s (ClientMessage.Event e).
Definition send_auth (s : Socket) (e : Event) : result N ClientError * Socket :=
  send_msg s (ClientMessage.Auth e).

(** ** Commands ([inner/run.rs]) *)

Definition perform_connect (ctx : StaticCtx) (env : Env) (a : Actor) : result unit ClientError * Actor :=
  let a := set_status a RelayStatus.Connecting in
  let a := set_stats a (count_attempt (stats a)) in
  match connect_outcome env with
  | Some (Ok socket) =>
      let elapsed_u64 := if (handshake_nanos env <=? Dec.u64_max)%N then handshake_nanos env else Dec.u64_max in
      let a := set_stats a (count_success (stats a) elapsed_u64) in
      let s := state a in
      let a := set_state a (mkState (Some socket) true (subscriptions s) (pending_publishes s) 0) in
      (Ok tt, set_status a RelayStatus.Connected)
  | Some (Err e) => (Err (Transport e), set_status a RelayStatus.Disconnected)
  | None =>
      (Err (ConnectTimeout (RelayOptions.connect_timeout (ctx_options ctx))),
       set_status a RelayStatus.Disconnected)
  end.

(** Failures are dropped. *)
Definition reissue (s : Socket) (subs : list (SubscriptionId * SubscriptionEntry)) : Socket :=
  foldl (λ s p, if skip_reissue p.2 then s else (send_req s p.1 (filters p.2)).2) s subs.
Definition reissue_subscriptions (s : ActorState) : ActorState :=
  match wire s with
  | None => s
  | Some socket => set_wire s (Some (reissue socket (map_to_list (subscriptions s))))
  end.

Definition handle_connect (ctx : StaticCtx) (env : Env) (a : Actor) (r : Reply) : Actor :=
  if decide (status a = RelayStatus.Connected) then send_reply a r (Ok tt)
  else
    let '(res, a) := perform_connect ctx env a in
    let a := match res with Ok _ => set_state a (reissue_subscriptions (state a)) | Err _ => a end in
    send_reply a r res.

Definition handle_disconnect (a : Actor) : Actor :=
  set_status (set_state a (drop_socket (state a))) RelayStatus.Disconnected.

(** A panic unwinds the actor with the state it had. *)
Definition schedule_reconnect (ctx : StaticCtx) (env : Env) (a : Actor) : result (option N) Actor :=
  match ReconnectPolicy.next_delay (RelayOptions.reconnect_policy (ctx_options ctx))
          (reconnect_attempts (state a)) (rand env) with
  | None => Ok None
  | Some delay =>
      match instant_add (now env) delay with
      | Some d => Ok (Some d)
      | None => Err a
      end
  end.

Definition saturating_add_u32 (n d : N) : N := N.min (n + d) (2 ^ 32 - 1).

Definition run_reconnect (ctx : StaticCtx) (env : Env) (a : Actor) : Actor :=
  let s := state a in
  let a := set_state a (mkState (wire s) (stream s) (subscriptions s) (pending_publishes s)
    (saturating_add_u32 (reconnect_attempts s) 1)) in
  match perform_connect ctx env a with
  | (Err _, a) => a
  | (Ok _, a) => set_state a (reissue_subscriptions (state a))
  end.

(** The guards [handle_subscribe] and [handle_subscribe_neg] share. *)
Definition subscribe_refusal (ctx : StaticCtx) (a : Actor) (id : SubscriptionId) : option ClientError :=
  if decide (is_Some (subscriptions (state a) !! id)) then Some (DuplicateSubscription id)
  else
    let limit := RelayLimits.max_subscriptions (ctx_limits ctx) in
    if (limit <=? N.of_nat (size (subscriptions (state a))))%N then Some (TooManySubscriptions limit)
    else None.

(** On a refusal the command, with its sink, is dropped. *)
Definition handle_subscribe (ctx : StaticCtx) (a : Actor) (id : SubscriptionId) (fs : list Filter)
    (o : SubscribeOptions) (ch : SubscriptionSink) (r : Reply) : Actor :=
  match subscribe_refusal ctx a id with
  | Some e => emit (send_reply a r (Err e)) (SinkDropped ch)
  | None =>
      let a := set_state a (set_subs (state a)
        (<[id := mkEntry fs o ch false]> (subscriptions (state a)))) in
      match wire (state a) with
      | Some socket =>
          let '(res, socket) := send_req socket id fs in
          let a := set_state a (set_wire (state a) (Some socket)) in
          match res with
          | Err e => send_reply a r (Err e)
          | Ok _ => send_reply a r (Ok tt)
          end
      | None => send_reply a r (Ok tt)
      end
  end.

Definition handle_subscribe_neg (ctx : StaticCtx) (a : Actor) (id : SubscriptionId) (f : Filter)
    (initial_message_hex : string) (ch : SubscriptionSink) (r : Reply) : Actor :=
  match subscribe_refusal ctx a id with
  | Some e => emit (send_reply a r (Err e)) (SinkDropped ch)
  | None =>
      let a := set_state a (set_subs (state a)
        (<[id := mkEntry [f] subscribe_options_new ch true]> (subscriptions (state a)))) in
      let remove a := emit (set_state a (set_subs (state a) (delete id (subscriptions (state a)))))
                        (SinkDropped ch) in
      match wire (state a) with
      | None => send_reply (remove a) r (Err NotConnected)
      | Some socket =>
          let '(res, socket) := send_msg socket (ClientMessage.NegOpen id f initial_message_hex) in
          let a := set_state a (set_wire (state a) (Some socket)) in
          match res with
          | Err e => send_reply (remove a) r (Err e)
          | Ok _ => send_reply a r (Ok tt)
          end
      end
  end.

Definition handle_drop_subscription (a : Actor) (id : SubscriptionId) : Actor :=
  match subscriptions (state a) !! id with
  | None => a
  | Some entry =>
      let a := emit (set_state a (set_subs (state a) (delete id (subscriptions (state a)))))
                 (SinkDropped (sink entry)) in
      match wire (state a) with
      | Some socket => set_state a (set_wire (state a) (Some (send_close socket id).2))
      | None => a
      end
  end.

(** [HashMap::insert] drops the publish it replaces, with its reply. *)
Definition handle_publish (ctx : StaticCtx) (env : Env) (a : Actor) (event : Event) (o : PublishOptions)
    (r : Reply) : result Actor Actor :=
  if negb (is_connected (state a)) then Ok (send_reply a r (Err NotConnected))
  else
    let limit := RelayLimits.max_pending_publishes (ctx_limits ctx) in
    if (limit <=? N.of_nat (size (pending_publishes (state a))))%N
    then Ok (send_reply a r (Err (TooManyPendingPublishes limit)))
    else
      let timeout := default (RelayOptions.publish_timeout (ctx_options ctx)) (timeout o) in
      let '(res, a) :=
        match wire (state a) with
        | Some socket =>
            let '(res, socket) := send_event socket event in
            (res, set_state a (set_wire (state a) (Some socket)))
        | None => (Ok 0%N, a)
        end in
      match res with
      | Err e => Ok (send_reply a r (Err e))
      | Ok _ =>
          let a := set_stats a (count_published (stats a)) in
          match instant_add (now env) timeout with
          | None => Err (emit a (ReplyDropped r))
          | Some deadline =>
              let old := pending_publishes (state a) !! Event.id event in
              let a := set_state a (set_pending (state a)
                (<[Event.id event := mkPending r deadline timeout]> (pending_publishes (state a)))) in
              Ok (match old with Some p => emit a (ReplyDropped (reply p)) | None => a end)
          end
      end.

(** [handle_authenticate] and [handle_send_msg]. *)
Definition send_on_wire (a : Actor) (send : Socket → result N ClientError * Socket) (r : Reply) : Actor :=
  match wire (state a) with
  | None => send_reply a r (Err NotConnected)
  | Some socket =>
      let '(res, socket) := send socket in
      let a := set_state a (set_wire (state a) (Some socket)) in
      send_reply a r (match res with Ok _ => Ok tt | Err e => Err e end)
  end.
Definition handle_authenticate (a : Actor) (event : Event) (r : Reply) : Actor :=
  send_on_wire a (λ s, send_auth s event) r.
Definition handle_send_msg (a : Actor) (message : ClientMessage) (r : Reply) : Actor :=
  send_on_wire a (λ s, send_msg s message) r.

Definition handle_command (ctx : StaticCtx) (env : Env) (a : Actor) (cmd : Command) : result Actor Actor :=
  match cmd with
  | Connect r => Ok (set_deadline (handle_connect ctx env a r) None)
  | Disconnect r => Ok (send_reply (set_deadline (handle_disconnect a) None) r (Ok tt))
  | Subscribe id fs o ch r => Ok (handle_subscribe ctx a id fs o ch r)
  | SubscribeNeg id f msg ch r => Ok (handle_subscribe_neg ctx a id f msg ch r)
  | Publish event o r => handle_publish ctx env a event o r
  | Authenticate event r => Ok (handle_authenticate a event r)
  | SendMsg message r => Ok (handle_send_msg a message r)
  | ShutdownCommand => Ok a
  end.

(** ** Inbound frames ([inner/dispatch.rs]) *)

Inductive FrameOutcome := Continue | FrameDisconnected.

(** Remove a subscription and end its stream, after [item] if it is still there. *)
Definition end_subscription (a : Actor) (id : SubscriptionId) (item : SubscriptionItem) : Actor :=
  match subscriptions (state a) !! id with
  | None => a
  | Some entry =>
      emit (emit (set_state a (set_subs (state a) (delete id (subscriptions (state a)))))
        (Item (sink entry) item)) (SinkDropped (sink entry))
  end.
Definition deliver (a : Actor) (id : SubscriptionId) (item : SubscriptionItem) : Actor :=
  match subscriptions (state a) !! id with
  | None => a
  | Some entry => emit a (Item (sink entry) item)
  end.

Definition dispatch_relay_message (a : Actor) (message : RelayMessage) : Actor :=
  match message with
  | RelayMessage.Event id event => deliver (set_stats a (count_event (stats a))) id (ItemEvent event)
  | RelayMessage.EndOfStoredEvents id =>
      match subscriptions (state a) !! id with
      | None => a
      | Some entry =>
          if close_on_eose (options entry) then end_subscription a id ItemEndOfStoredEvents
          else emit a (Item (sink entry) ItemEndOfStoredEvents)
      end
  | RelayMessage.Closed id message => end_subscription a id (ItemClosed message)
  | RelayMessage.Ok event_id accepted message =>
      match pending_publishes (state a) !! event_id with
      | None => a
      | Some pending =>
          let a := set_state a (set_pending (state a) (delete event_id (pending_publishes (state a)))) in
          send_reply a (reply pending)
            (if accepted then Ok tt else Err (PublishRejected event_id message))
      end
  | RelayMessage.Notice message => emit a (Notified (Notice message))
  | RelayMessage.Auth challenge => emit a (Notified (AuthChallenge challenge))
  | RelayMessage.Count _ _ => a
  | RelayMessage.NegMsg id message => deliver a id (ItemNegMsg message)
  | RelayMessage.NegErr id message => end_subscription a id (ItemNegErr message)
  end.

Definition handle_text_frame (ctx : StaticCtx) (a : Actor) (text : string) : FrameOutcome * Actor :=
  let bytes := N.of_nat (String.length text) in
  if (RelayLimits.max_message_bytes (ctx_limits ctx) <? bytes)%N then (Continue, a)
  else
    let a := set_stats a (count_received (stats a) bytes) in
    match (let? v := json_from_slice (as_bytes text) in map_err de_error_text (RelayMessage.deserialize v)) with
    | Err _ => (Continue, a)
    | Ok message => (Continue, dispatch_relay_message a message)
    end.

Definition handle_frame (ctx : StaticCtx) (a : Actor) (frame : result WireMessage ClientError) :
    FrameOutcome * Actor :=
  match frame with
  | Err _ => (FrameDisconnected, a)
  | Ok (Text text) => handle_text_frame ctx a text
  | Ok (Binary _) => (Continue, a)
  | Ok (Pong _) | Ok (Ping _) => (Continue, a)
  | Ok (Close _) => (FrameDisconnected, a)
  end.

(** ** The loop ([inner/run.rs]) *)

(** The arms of the [select!].  [RecvCommand None]: every handle is gone;
    [RecvFrame None]: the stream has ended. *)
Inductive Wakeup :=
| RecvCommand (cmd : option Command)
| RecvClose (id : SubscriptionId)
| RecvFrame (frame : option (result WireMessage ClientError))
| ReconnectTimer
| PublishTimer.

(** Whether an arm can be the one that completes at [at_]: the channels' arms
    can at any time, the stream's when there is one, a timer's once it is due. *)
Definition due (at_ : N) (deadline : option N) : bool :=
  match deadline with Some d => (d <=? at_)%N | None => false end.
Definition enabled (at_ : N) (a : Actor) (w : Wakeup) : bool :=
  match w with
  | RecvCommand _ | RecvClose _ => true
  | RecvFrame _ => stream (state a)
  | ReconnectTimer => due at_ (reconnect_deadline a)
  | PublishTimer => due at_ (earliest_publish_deadline (state a))
  end.

Definition expire_one (a : Actor) (p : EventId * PendingPublish) : Actor :=
  send_reply (set_state a (set_pending (state a) (delete p.1 (pending_publishes (state a)))))
    (reply p.2) (Err (PublishTimeout p.1 (pending_timeout p.2))).
Definition timed_out (at_ : N) (s : ActorState) : list (EventId * PendingPublish) :=
  filter (λ p, (deadline p.2 <= at_)%N) (map_to_list (pending_publishes s)).
Definition expire_pending_publishes (env : Env) (a : Actor) : Actor :=
  foldl expire_one a (timed_out (now_sweep env) (state a)).

(** Dropping the actor's state drops every sender it holds. *)
Definition held_senders (s : ActorState) : list Effect :=
  ((λ p, ReplyDropped (reply p.2)) <$> map_to_list (pending_publishes s)) ++
  ((λ p, SinkDropped (sink p.2)) <$> map_to_list (subscriptions s)).
Definition drop_state (a : Actor) : Actor :=
  mkActor (status a) (stats a) actor_state_new None (log a ++ held_senders (state a)).

(** The end of [actor_run]. *)
Definition actor_exit (a : Actor) : Actor :=
  let a := set_status a RelayStatus.Terminated in
  let a := set_state a (drop_socket (state a)) in
  drop_state (emit a (Notified ShutdownNotice)).

Inductive Outcome :=
| Running (a : Actor)
| Exited (a : Actor)
| Panicked (a : Actor).

Definition outcome_actor (o : Outcome) : Actor :=
  match o with Running a | Exited a | Panicked a => a end.

Definition after_wakeup (env : Env) (r : result Actor Actor) : Outcome :=
  match r with
  | Ok a => Running (expire_pending_publishes env a)
  | Err a => Panicked (drop_state a)
  end.

(** One turn of the loop. *)
Definition turn (ctx : StaticCtx) (env : Env) (w : Wakeup) (a : Actor) : Outcome :=
  match w with
  | RecvCommand None | RecvCommand (Some ShutdownCommand) => Exited (actor_exit a)
  | RecvCommand (Some cmd) => after_wakeup env (handle_command ctx env a cmd)
  | RecvClose id => after_wakeup env (Ok (handle_drop_subscription a id))
  | RecvFrame maybe_frame =>
      let '(outcome, a) :=
        match maybe_frame with
        | None => (FrameDisconnected, a)
        | Some frame => handle_frame ctx a frame
        end in
      match outcome with
      | Continue => after_wakeup env (Ok a)
      | FrameDisconnected =>
          let a := handle_disconnect a in
          after_wakeup env (let? d := schedule_reconnect ctx env a in Ok (set_deadline a d))
      end
  | ReconnectTimer =>
      let a := run_reconnect ctx env (set_deadline a None) in
      if negb (is_connected (state a)) && negb (bool_decide (status a = RelayStatus.Terminated))
      then after_wakeup env (let? d := schedule_reconnect ctx env a in Ok (set_deadline a d))
      else after_wakeup env (Ok a)
  | PublishTimer => after_wakeup env (Ok a)
  end.

(** The actor as [spawn_actor] starts it. *)
Definition actor_start : Actor := mkActor RelayStatus.Initialized stats_default actor_state_new None [].

(** A run of the loop; a wakeup that is not enabled does not happen. *)
Fixpoint run (ctx : StaticCtx) (ws : list (Env * Wakeup)) (a : Actor) : Outcome :=
  match ws with
  | [] => Running a
  | (env, w) :: ws =>
      if enabled (now env) a w then
        match turn ctx env w a with
        | Running a => run ctx ws a
        | o => o
        end
      else run ctx ws a
  end.

(** ** The caller's side ([relay.rs]) *)

(** What a caller waiting on a reply sees. *)
Fixpoint await_reply (r : Reply) (l : list Effect) : option (result unit ClientError) :=
  match l with
  | [] => None
  | Replied r' res :: l => if decide (r = r') then Some res else await_reply r l
  | ReplyDropped r' :: l => if decide (r = r') then Some (Err Shutdown) else await_reply r l
  | _ :: l => await_reply r l
  end.

(** What the stream of a subscription yields, and whether it has ended. *)
Definition stream_items (ch : SubscriptionSink) (l : list Effect) : list SubscriptionItem :=
  omap (λ e, match e with Item ch' i => if decide (ch = ch') then Some i else None | _ => None end) l.
Definition stream_ended (ch : SubscriptionSink) (l : list Effect) : bool :=
  existsb (λ e, match e with SinkDropped ch' => bool_decide (ch = ch') | _ => false end) l.
End actor.
