(* ===== verification/ClientProofs.v ===== *)
(** * The client's actor: proofs

    What one turn of the loop does to the senders the actor holds, to its state
    and to its log; the invariants of a run. *)

From Stdlib Require Import NArith Lia.
From S2P Require Import Prelude Encoding Text Ids Tags Event Filter FilterWire.
From S2P Require Import Nips Message HttpAuth Client.

(** ** Accounts

    Replies that were answered or dropped, and that the actor still holds; the
    same for the sinks of subscriptions. *)

Definition answered_by (e : Effect) : option Reply :=
  match e with Replied r _ | ReplyDropped r => Some r | _ => None end.
Definition ended_by (e : Effect) : option SubscriptionSink :=
  match e with SinkDropped ch => Some ch | _ => None end.
Definition answered (l : list Effect) : list Reply := omap answered_by l.
Definition ended (l : list Effect) : list SubscriptionSink := omap ended_by l.
Definition waiting (s : ActorState) : list Reply := (λ p, reply p.2) <$> map_to_list (pending_publishes s).
Definition registered (s : ActorState) : list SubscriptionSink :=
  (λ p, sink p.2) <$> map_to_list (subscriptions s).
Definition replies_held (a : Actor) : list Reply := answered (log a) ++ waiting (state a).
Definition sinks_held (a : Actor) : list SubscriptionSink := ended (log a) ++ registered (state a).

(** From [a] to [a'] the log grows, the replies [rs] and the sinks [chs] are
    taken in and nothing is lost. *)
Record accounts (a : Actor) (rs : list Reply) (chs : list SubscriptionSink) (a' : Actor) : Prop := {
  log_grows : log a `prefix_of` log a';
  replies_kept : replies_held a' ≡ₚ rs ++ replies_held a;
  sinks_kept : sinks_held a' ≡ₚ chs ++ sinks_held a;
}.

Lemma accounts_refl a : accounts a [] [] a.
Proof. by split. Qed.

Lemma accounts_trans a rs chs a' rs' chs' a'' :
  accounts a rs chs a' → accounts a' rs' chs' a'' → accounts a (rs' ++ rs) (chs' ++ chs) a''.
Proof.
  intros [Hl Hr Hs] [Hl' Hr' Hs']. split; [by etrans|..].
  - by rewrite Hr', Hr, app_assoc.
  - by rewrite Hs', Hs, app_assoc.
Qed.

(** Effects that hold no sender, and changes that keep both tables. *)
Lemma accounts_same a a' :
  log a = log a' → pending_publishes (state a) = pending_publishes (state a') →
  subscriptions (state a) = subscriptions (state a') → accounts a [] [] a'.
Proof.
  intros Hl Hp Hs. split; [by rewrite Hl|..]; unfold replies_held, sinks_held, waiting, registered;
    by rewrite Hl, ?Hp, ?Hs.
Qed.

Lemma accounts_emit a e :
  accounts a (option_list (answered_by e)) (option_list (ended_by e)) (emit a e).
Proof.
  split; [by eexists|..]; unfold replies_held, sinks_held, answered, ended; simpl; rewrite omap_app;
    simpl; destruct e; simpl; rewrite ?app_nil_r, <-?app_assoc; solve_Permutation.
Qed.

Lemma accounts_reply a r res : accounts a [r] [] (send_reply a r res).
Proof. exact (accounts_emit a (Replied r res)). Qed.

Lemma accounts_status a s : accounts a [] [] (set_status a s).
Proof.
  unfold set_status. case_decide; [apply accounts_refl|].
  exact (accounts_trans _ _ _ _ _ _ _ (accounts_same a (mkActor s _ _ _ _) eq_refl eq_refl eq_refl)
    (accounts_emit _ (Notified (Status s)))).
Qed.

(** Taking a publish in, in place of none. *)
Lemma accounts_pending_insert a id p :
  accounts a (reply p :: [])
    [] (let a' := set_state a (set_pending (state a) (<[id := p]> (pending_publishes (state a)))) in
        match pending_publishes (state a) !! id with Some old => emit a' (ReplyDropped (reply old)) | None => a' end).
Proof.
  destruct (pending_publishes (state a) !! id) as [old|] eqn:E.
  - split; [by eexists| |].
    + unfold replies_held, answered, waiting. simpl. rewrite omap_app. simpl.
      rewrite <-(insert_delete_id (pending_publishes (state a)) id old) at 2 by done.
      rewrite <-(insert_delete_id (<[id:=p]> (pending_publishes (state a))) id p) by apply lookup_insert_eq.
      rewrite delete_insert_eq. rewrite !map_to_list_insert by apply lookup_delete_eq.
      simpl. rewrite <-app_assoc. solve_Permutation.
    + unfold sinks_held, ended. simpl. rewrite omap_app. simpl. by rewrite app_nil_r.
  - split; [done| |done].
    unfold replies_held, waiting. simpl. rewrite map_to_list_insert by done. simpl. solve_Permutation.
Qed.

Lemma accounts_pending_delete a id p res :
  pending_publishes (state a) !! id = Some p →
  accounts a [] []
    (send_reply (set_state a (set_pending (state a) (delete id (pending_publishes (state a))))) (reply p) res).
Proof.
  intros E. split; [by eexists| |].
  - unfold replies_held, answered, waiting. simpl. rewrite omap_app. simpl.
    rewrite <-(insert_delete_id (pending_publishes (state a)) id p) at 2 by done.
    rewrite map_to_list_insert by apply lookup_delete_eq. simpl. rewrite <-app_assoc. solve_Permutation.
  - unfold sinks_held, ended. simpl. rewrite omap_app. simpl. by rewrite app_nil_r.
Qed.

Lemma accounts_subs_insert a id e :
  subscriptions (state a) !! id = None →
  accounts a [] [sink e] (set_state a (set_subs (state a) (<[id := e]> (subscriptions (state a))))).
Proof.
  intros E. split; [done|done|].
  unfold sinks_held, registered. simpl. rewrite map_to_list_insert by done. simpl. solve_Permutation.
Qed.

Lemma accounts_subs_delete a id e :
  subscriptions (state a) !! id = Some e →
  accounts a [] []
    (emit (set_state a (set_subs (state a) (delete id (subscriptions (state a))))) (SinkDropped (sink e))).
Proof.
  intros E. split; [by eexists| |].
  - unfold replies_held, answered. simpl. rewrite omap_app. simpl. by rewrite app_nil_r.
  - unfold sinks_held, ended, registered. simpl. rewrite omap_app. simpl.
    rewrite <-(insert_delete_id (subscriptions (state a)) id e) at 2 by done.
    rewrite map_to_list_insert by apply lookup_delete_eq. simpl. rewrite <-app_assoc. solve_Permutation.
Qed.

(** Dropping the whole state. *)
Lemma omap_fmap_Some {A B C} (f : B → option C) (g : A → B) (h : A → C) (l : list A) :
  (∀ x, f (g x) = Some (h x)) → omap f (g <$> l) = h <$> l.
Proof. intros E. induction l as [|x l IH]; simpl; [done|]. rewrite E. by f_equal. Qed.
Lemma omap_fmap_None {A B C} (f : B → option C) (g : A → B) (l : list A) :
  (∀ x, f (g x) = None) → omap f (g <$> l) = [].
Proof. intros E. induction l as [|x l IH]; simpl; [done|]. by rewrite E. Qed.

Lemma answered_held s : answered (held_senders s) = waiting s ∧ ended (held_senders s) = registered s.
Proof.
  unfold held_senders, answered, ended, waiting, registered. rewrite !omap_app. split.
  - rewrite (omap_fmap_None _ (λ p, SinkDropped _)) by done. rewrite app_nil_r. by apply omap_fmap_Some.
  - rewrite (omap_fmap_None _ (λ p, ReplyDropped _)) by done. by apply omap_fmap_Some.
Qed.

Lemma held_none : waiting actor_state_new = [] ∧ registered actor_state_new = [].
Proof. unfold waiting, registered. simpl. by rewrite !map_to_list_empty. Qed.

Lemma accounts_drop a : accounts a [] [] (drop_state a).
Proof.
  destruct (answered_held (state a)) as [Ha He], held_none as [Hw Hg].
  split; [by eexists|..]; unfold replies_held, sinks_held, drop_state; simpl;
    unfold answered, ended in *; rewrite omap_app, ?Ha, ?He, ?Hw, ?Hg; simpl; by rewrite app_nil_r.
Qed.

(** Chaining with a step that takes nothing in. *)
Lemma accounts_l a b rs chs c : accounts a [] [] b → accounts b rs chs c → accounts a rs chs c.
Proof. intros H1 H2. pose proof (accounts_trans _ _ _ _ _ _ _ H1 H2) as H. by rewrite !app_nil_r in H. Qed.
Lemma accounts_r a b rs chs c : accounts a rs chs b → accounts b [] [] c → accounts a rs chs c.
Proof. apply accounts_trans. Qed.

Create HintDb accounts.
#[global] Hint Resolve accounts_refl accounts_reply accounts_status accounts_drop : accounts.
Ltac same := apply accounts_same; reflexivity.

Section handlers.
Context `{FasterHex, Secp256k1, SerdeJson, SigSerde, JsonText}.
Implicit Types (ctx : StaticCtx) (env : Env) (a : Actor).

Lemma perform_connect_accounts ctx env a : accounts a [] [] (perform_connect ctx env a).2.
Proof.
  unfold perform_connect. eapply accounts_l; [apply (accounts_status a RelayStatus.Connecting)|].
  set (b := set_status a RelayStatus.Connecting). clearbody b.
  destruct (connect_outcome env) as [[socket|e]|]; simpl;
    (eapply accounts_r; [|apply accounts_status]); same.
Qed.

Lemma reissue_accounts a : accounts a [] [] (set_state a (reissue_subscriptions (state a))).
Proof. unfold reissue_subscriptions. destruct (wire (state a)) eqn:E; [same|by destruct a as [? ? [] ? ?]; same]. Qed.

Lemma handle_connect_accounts ctx env a r : accounts a [r] [] (handle_connect ctx env a r).
Proof.
  unfold handle_connect. case_decide; [auto with accounts|].
  pose proof (perform_connect_accounts ctx env a) as Hp.
  destruct (perform_connect ctx env a) as [[u|e] b]; simpl in *.
  - eapply accounts_l; [exact Hp|]. eapply accounts_l; [apply reissue_accounts|auto with accounts].
  - eapply accounts_l; [exact Hp|auto with accounts].
Qed.

Lemma handle_disconnect_accounts a : accounts a [] [] (handle_disconnect a).
Proof. unfold handle_disconnect. eapply accounts_l; [|apply accounts_status]. same. Qed.

Lemma run_reconnect_accounts ctx env a : accounts a [] [] (run_reconnect ctx env a).
Proof.
  unfold run_reconnect. set (b := set_state a _). assert (accounts a [] [] b) as Hb by same. clearbody b.
  eapply accounts_l; [exact Hb|]. pose proof (perform_connect_accounts ctx env b) as Hp.
  destruct (perform_connect ctx env b) as [[u|e] c]; simpl in *; [|done].
  eapply accounts_l; [exact Hp|apply reissue_accounts].
Qed.

Lemma subscribe_refusal_None ctx a id :
  subscribe_refusal ctx a id = None →
  subscriptions (state a) !! id = None
  ∧ (N.of_nat (size (subscriptions (state a))) < RelayLimits.max_subscriptions (ctx_limits ctx))%N.
Proof.
  unfold subscribe_refusal. case_decide as Hd; [done|].
  destruct (N.leb_spec (RelayLimits.max_subscriptions (ctx_limits ctx))
    (N.of_nat (size (subscriptions (state a))))); [done|].
  intros _. split; [by apply eq_None_not_Some|done].
Qed.

Lemma handle_subscribe_accounts ctx a id fs o ch r :
  accounts a [r] [ch] (handle_subscribe ctx a id fs o ch r).
Proof.
  unfold handle_subscribe. destruct (subscribe_refusal ctx a id) as [e|] eqn:E.
  { exact (accounts_trans _ _ _ _ _ _ _ (accounts_reply a r (Err e)) (accounts_emit _ (SinkDropped ch))). }
  apply subscribe_refusal_None in E as [E _].
  set (b := set_state a _). assert (accounts a [] [ch] b) as Hb by exact (accounts_subs_insert a id (mkEntry fs o ch false) E).
  clearbody b. change [r] with ([r] ++ []). change [ch] with ([] ++ [ch]).
  eapply accounts_trans; [exact Hb|].
  destruct (wire (state b)) as [socket|]; [|auto with accounts].
  destruct (send_req socket id fs) as [[n|e] s]; (eapply accounts_l; [|apply accounts_reply]); same.
Qed.

Lemma subs_delete_accounts a ch id e :
  subscriptions (state a) !! id = Some e → sink e = ch →
  accounts a [] [] (emit (set_state a (set_subs (state a) (delete id (subscriptions (state a))))) (SinkDropped ch)).
Proof. intros E <-. by apply accounts_subs_delete. Qed.

Lemma handle_subscribe_neg_accounts ctx a id f m ch r :
  accounts a [r] [ch] (handle_subscribe_neg ctx a id f m ch r).
Proof.
  unfold handle_subscribe_neg. destruct (subscribe_refusal ctx a id) as [e|] eqn:E.
  { exact (accounts_trans _ _ _ _ _ _ _ (accounts_reply a r (Err e)) (accounts_emit _ (SinkDropped ch))). }
  apply subscribe_refusal_None in E as [E _].
  set (b := set_state a _). assert (accounts a [] [ch] b) as Hb
    by exact (accounts_subs_insert a id (mkEntry [f] subscribe_options_new ch true) E).
  assert (subscriptions (state b) !! id = Some (mkEntry [f] subscribe_options_new ch true)) as Hl
    by apply lookup_insert_eq.
  clearbody b. change [r] with ([r] ++ []). change [ch] with ([] ++ [ch]).
  eapply accounts_trans; [exact Hb|].
  destruct (wire (state b)) as [socket|]; cbv zeta.
  - destruct (send_msg socket _) as [[n|e] s]; simpl.
    + eapply accounts_l; [|apply accounts_reply]. same.
    + eapply accounts_l; [|apply accounts_reply].
      set (c := set_state b (set_wire (state b) (Some s))).
      apply (accounts_l _ c); [same|]. by apply (subs_delete_accounts c ch id (mkEntry [f] subscribe_options_new ch true)).
  - eapply accounts_l; [|apply accounts_reply]. by eapply subs_delete_accounts.
Qed.

Lemma handle_drop_accounts a id : accounts a [] [] (handle_drop_subscription a id).
Proof.
  unfold handle_drop_subscription. destruct (subscriptions (state a) !! id) as [e|] eqn:E; [|auto with accounts].
  eapply accounts_l; [by apply (accounts_subs_delete a id e)|].
  set (b := emit _ _). destruct (wire (state b)); [same|auto with accounts].
Qed.

(** The actor a handler leaves, on both ways out. *)
Definition either {A} (r : result A A) : A := match r with Ok a | Err a => a end.

Lemma handle_publish_accounts ctx env a e o r :
  accounts a [r] [] (either (handle_publish ctx env a e o r)).
Proof.
  unfold handle_publish. destruct (negb _); [apply accounts_reply|].
  destruct (N.leb _ _); [apply accounts_reply|].
  destruct (match wire (state a) with Some socket => _ | None => _ end) as [res b] eqn:Eb.
  assert (accounts a [] [] b) as Hb.
  { destruct (wire (state a)) as [socket|]; [|injection Eb as _ <-; auto with accounts].
    destruct (send_event socket e) as [x s]. injection Eb as _ <-. same. }
  eapply accounts_l; [exact Hb|]. clear Hb Eb. destruct res as [n|err]; [|apply accounts_reply].
  set (c := set_stats b _). apply (accounts_l _ c); [same|].
  destruct (instant_add (now env) _) as [d|]; [|exact (accounts_emit c (ReplyDropped r))].
  exact (accounts_pending_insert c (Event.id e) (mkPending r d _)).
Qed.

Lemma send_on_wire_accounts a f r : accounts a [r] [] (send_on_wire a f r).
Proof.
  unfold send_on_wire. destruct (wire (state a)); [|apply accounts_reply].
  destruct (f s) as [res s']. eapply accounts_l; [|apply accounts_reply]. same.
Qed.

(** The reply and the sink a command carries. *)
Definition command_reply (c : Command) : list Reply :=
  match c with
  | Connect r | Disconnect r | Subscribe _ _ _ _ r | SubscribeNeg _ _ _ _ r | Publish _ _ r
  | Authenticate _ r | SendMsg _ r => [r]
  | ShutdownCommand => []
  end.
Definition command_sink (c : Command) : list SubscriptionSink :=
  match c with Subscribe _ _ _ ch _ | SubscribeNeg _ _ _ ch _ => [ch] | _ => [] end.

Lemma handle_command_accounts ctx env a cmd :
  accounts a (command_reply cmd) (command_sink cmd) (either (handle_command ctx env a cmd)).
Proof.
  destruct cmd; simpl.
  - eapply accounts_r; [apply handle_connect_accounts|same].
  - eapply accounts_l; [apply handle_disconnect_accounts|].
    set (b := handle_disconnect a). clearbody b. apply (accounts_l _ (set_deadline b None)); [same|apply accounts_reply].
  - apply handle_subscribe_accounts.
  - apply handle_subscribe_neg_accounts.
  - apply handle_publish_accounts.
  - apply send_on_wire_accounts.
  - apply send_on_wire_accounts.
  - apply accounts_refl.
Qed.
End handlers.

(** ** Turns and runs *)

Section turns.
Context `{FasterHex, Secp256k1, SerdeJson, SigSerde, JsonText}.
Implicit Types (ctx : StaticCtx) (env : Env) (a : Actor).

Lemma end_subscription_accounts a id item : accounts a [] [] (end_subscription a id item).
Proof.
  unfold end_subscription. destruct (subscriptions (state a) !! id) as [e|] eqn:E; [|auto with accounts].
  apply (accounts_l _ (emit a (Item (sink e) item))); [exact (accounts_emit a (Item (sink e) item))|].
  exact (accounts_subs_delete (emit a (Item (sink e) item)) id e E).
Qed.

Lemma deliver_accounts a id item : accounts a [] [] (deliver a id item).
Proof.
  unfold deliver. destruct (subscriptions (state a) !! id) as [e|]; [|auto with accounts].
  exact (accounts_emit a (Item (sink e) item)).
Qed.

Lemma dispatch_accounts a m : accounts a [] [] (dispatch_relay_message a m).
Proof.
  destruct m as [id e|eid acc msg|id|id msg|msg|msg|id n|id msg|id msg]; simpl;
    auto using end_subscription_accounts, deliver_accounts, accounts_refl.
  - eapply accounts_l; [|apply deliver_accounts]. same.
  - destruct (pending_publishes (state a) !! eid) as [p|] eqn:E; [|auto with accounts].
    by apply accounts_pending_delete.
  - destruct (subscriptions (state a) !! id) as [e|] eqn:E; [|auto with accounts].
    destruct (close_on_eose (options e)); [apply end_subscription_accounts|].
    exact (accounts_emit a (Item (sink e) ItemEndOfStoredEvents)).
  - exact (accounts_emit a (Notified (Notice msg))).
  - exact (accounts_emit a (Notified (AuthChallenge msg))).
Qed.

Lemma handle_frame_accounts ctx a f : accounts a [] [] (handle_frame ctx a f).2.
Proof.
  destruct f as [[text| | | |]|]; simpl; auto with accounts.
  unfold handle_text_frame. destruct (N.ltb _ _); [apply accounts_refl|].
  set (b := set_stats a _). apply (accounts_l _ b); [same|].
  destruct (result_bind _ _); simpl; [apply dispatch_accounts|apply accounts_refl].
Qed.

Lemma expire_one_accounts a p :
  pending_publishes (state a) !! p.1 = Some p.2 → accounts a [] [] (expire_one a p).
Proof. intros E. by apply accounts_pending_delete. Qed.

Lemma expire_list_accounts a l :
  NoDup l.*1 → (∀ p, p ∈ l → pending_publishes (state a) !! p.1 = Some p.2) →
  accounts a [] [] (foldl expire_one a l).
Proof.
  revert a. induction l as [|p l IH]; intros a Hnd Hl; simpl; [apply accounts_refl|].
  rewrite fmap_cons, NoDup_cons in Hnd. destruct Hnd as [Hp Hnd].
  eapply accounts_l; [apply (expire_one_accounts a p), (Hl p); left|].
  apply IH; [done|]. intros q Hq. simpl. rewrite lookup_delete_ne; [apply Hl; set_solver|].
  intros E. apply Hp. rewrite E. by apply list_elem_of_fmap_2.
Qed.

Lemma timed_out_spec at_ s p :
  p ∈ timed_out at_ s ↔ (deadline p.2 <= at_)%N ∧ pending_publishes s !! p.1 = Some p.2.
Proof.
  unfold timed_out. rewrite list_elem_of_filter. destruct p as [id p]. by rewrite elem_of_map_to_list.
Qed.

Lemma timed_out_NoDup at_ s : NoDup (timed_out at_ s).*1.
Proof.
  apply NoDup_fmap_fst; [|apply NoDup_filter, NoDup_map_to_list].
  intros id p1 p2 [_ E1]%timed_out_spec [_ E2]%timed_out_spec. simpl in *. congruence.
Qed.

Lemma expire_accounts env a : accounts a [] [] (expire_pending_publishes env a).
Proof.
  unfold expire_pending_publishes. apply expire_list_accounts; [apply timed_out_NoDup|].
  intros p Hp%timed_out_spec. tauto.
Qed.

(** What the sweep leaves: the publishes whose deadline is still to come. *)
Lemma expire_list_pending a l id :
  pending_publishes (state (foldl expire_one a l)) !! id =
    if decide (id ∈ l.*1) then None else pending_publishes (state a) !! id.
Proof.
  revert a. induction l as [|p l IH]; intros a; cbn [foldl]; [done|]. rewrite IH, fmap_cons.
  change (pending_publishes (state (expire_one a p))) with (delete p.1 (pending_publishes (state a))).
  destruct (decide (id = p.1)) as [->|Hne].
  - rewrite lookup_delete_eq, (decide_True (P := p.1 ∈ p.1 :: l.*1)) by left. by case_decide.
  - rewrite lookup_delete_ne by done. apply decide_ext. rewrite elem_of_cons. tauto.
Qed.

Lemma expire_pending env a id :
  pending_publishes (state (expire_pending_publishes env a)) !! id =
    pending_publishes (state a) !! id ≫= λ p, if (deadline p <=? now_sweep env)%N then None else Some p.
Proof.
  unfold expire_pending_publishes. rewrite expire_list_pending. case_decide as Hin.
  - apply list_elem_of_fmap in Hin as ([id' p] & -> & Hp%timed_out_spec). simpl in *.
    destruct Hp as [Hd ->]. simpl. by rewrite (proj2 (N.leb_le _ _) Hd).
  - destruct (pending_publishes (state a) !! id) as [p|] eqn:E; [|done]. simpl.
    destruct (N.leb_spec (deadline p) (now_sweep env)); [|done]. destruct Hin.
    apply list_elem_of_fmap. exists (id, p). split; [done|]. by apply timed_out_spec.
Qed.

(** Everything else the sweep leaves as it was. *)
Lemma expire_keeps env a :
  status (expire_pending_publishes env a) = status a ∧ stats (expire_pending_publishes env a) = stats a
  ∧ reconnect_deadline (expire_pending_publishes env a) = reconnect_deadline a
  ∧ wire (state (expire_pending_publishes env a)) = wire (state a)
  ∧ stream (state (expire_pending_publishes env a)) = stream (state a)
  ∧ subscriptions (state (expire_pending_publishes env a)) = subscriptions (state a)
  ∧ reconnect_attempts (state (expire_pending_publishes env a)) = reconnect_attempts (state a).
Proof.
  unfold expire_pending_publishes. generalize (timed_out (now_sweep env) (state a)). intros l.
  revert a. induction l as [|p l IH]; intros a; simpl; [done|]. apply (IH (expire_one a p)).
Qed.

(** The reply and the sink a wakeup brings. *)
Definition wakeup_replies (w : Wakeup) : list Reply :=
  match w with RecvCommand (Some c) => command_reply c | _ => [] end.
Definition wakeup_sinks (w : Wakeup) : list SubscriptionSink :=
  match w with RecvCommand (Some c) => command_sink c | _ => [] end.

Lemma after_wakeup_accounts env r : accounts (either r) [] [] (outcome_actor (after_wakeup env r)).
Proof. destruct r; simpl; [apply expire_accounts|apply accounts_drop]. Qed.

Lemma actor_exit_accounts a : accounts a [] [] (actor_exit a).
Proof.
  unfold actor_exit. eapply accounts_r; [|apply accounts_drop].
  apply (accounts_l _ (set_status a RelayStatus.Terminated)); [apply accounts_status|].
  set (b := set_status _ _). apply (accounts_l _ (set_state b (drop_socket (state b)))); [same|].
  exact (accounts_emit _ (Notified ShutdownNotice)).
Qed.

Lemma schedule_accounts ctx env a :
  accounts a [] [] (either (let? d := schedule_reconnect ctx env a in Ok (set_deadline a d))).
Proof.
  unfold schedule_reconnect. destruct (ReconnectPolicy.next_delay _ _ _); [|simpl; same].
  destruct (instant_add _ _); simpl; [same|apply accounts_refl].
Qed.

Lemma turn_command ctx env cmd a :
  cmd = ShutdownCommand
  ∨ turn ctx env (RecvCommand (Some cmd)) a = after_wakeup env (handle_command ctx env a cmd).
Proof. destruct cmd; auto. Qed.

Lemma turn_accounts ctx env w a :
  accounts a (wakeup_replies w) (wakeup_sinks w) (outcome_actor (turn ctx env w a)).
Proof.
  destruct w as [[cmd|]|id|[frame|]| |].
  - destruct (turn_command ctx env cmd a) as [-> | ->]; [apply actor_exit_accounts|].
    eapply accounts_r; [apply handle_command_accounts|apply after_wakeup_accounts].
  - apply actor_exit_accounts.
  - eapply accounts_l; [apply handle_drop_accounts|]. exact (after_wakeup_accounts env (Ok _)).
  - cbn [turn]. pose proof (handle_frame_accounts ctx a frame) as Hf.
    destruct (handle_frame ctx a frame) as [[] b]; simpl in Hf.
    + eapply accounts_l; [exact Hf|]. exact (after_wakeup_accounts env (Ok _)).
    + eapply accounts_l; [exact Hf|]. eapply accounts_l; [apply handle_disconnect_accounts|].
      eapply accounts_l; [apply schedule_accounts|apply after_wakeup_accounts].
  - cbn [turn]. eapply accounts_l; [apply handle_disconnect_accounts|].
    eapply accounts_l; [apply schedule_accounts|apply after_wakeup_accounts].
  - cbn [turn]. apply (accounts_l _ (set_deadline a None)); [same|].
    eapply accounts_l; [apply run_reconnect_accounts|].
    destruct (negb _ && negb _).
    + eapply accounts_l; [apply schedule_accounts|apply after_wakeup_accounts].
    + exact (after_wakeup_accounts env (Ok _)).
  - exact (after_wakeup_accounts env (Ok _)).
Qed.

(** The wakeups a run handles, its last one included. *)
Fixpoint handled ctx (ws : list (Env * Wakeup)) a : list (Env * Wakeup) :=
  match ws with
  | [] => []
  | (env, w) :: ws =>
      if enabled (now env) a w then
        match turn ctx env w a with
        | Running a => (env, w) :: handled ctx ws a
        | _ => [(env, w)]
        end
      else handled ctx ws a
  end.

(** An invariant of the turns is one of the runs. *)
Lemma actor_run_invariant ctx (I : list (Env * Wakeup) → Actor → Prop) (F : list (Env * Wakeup) → Outcome → Prop) done_ ws a :
  (∀ d a, I d a → F d (Running a)) →
  (∀ d env w a, I d a → enabled (now env) a w = true →
     match turn ctx env w a with
     | Running a' => I (d ++ [(env, w)]) a'
     | o => F (d ++ [(env, w)]) o
     end) →
  I done_ a → F (done_ ++ handled ctx ws a) (run ctx ws a).
Proof.
  intros Hend Hturn. revert done_ a. induction ws as [|[env w] ws IH]; intros d a Ha; simpl.
  - rewrite app_nil_r. by apply Hend.
  - destruct (enabled (now env) a w) eqn:E; [|by apply IH].
    specialize (Hturn d env w a Ha E). destruct (turn ctx env w a) as [a'|a'|a']; [|done..].
    specialize (IH (d ++ [(env, w)]) a' Hturn). by rewrite <-app_assoc in IH.
Qed.

Lemma run_accounts ctx ws a :
  accounts a (mjoin (wakeup_replies ∘ snd <$> reverse (handled ctx ws a)))
    (mjoin (wakeup_sinks ∘ snd <$> reverse (handled ctx ws a))) (outcome_actor (run ctx ws a)).
Proof.
  apply (actor_run_invariant ctx
    (λ d b, accounts a (mjoin (wakeup_replies ∘ snd <$> reverse d)) (mjoin (wakeup_sinks ∘ snd <$> reverse d)) b)
    (λ d o, accounts a (mjoin (wakeup_replies ∘ snd <$> reverse d)) (mjoin (wakeup_sinks ∘ snd <$> reverse d))
       (outcome_actor o)) []); [done| |apply accounts_refl].
  intros d env w b Hb _. rewrite reverse_snoc. simpl.
  pose proof (accounts_trans _ _ _ _ _ _ _ Hb (turn_accounts ctx env w b)) as Ht.
  by destruct (turn ctx env w b).
Qed.
End turns.

(** ** The invariant of the actor's state *)

Record actor_ok (ctx : StaticCtx) (a : Actor) : Prop := {
  ok_wire : is_Some (wire (state a)) ↔ status a = RelayStatus.Connected;
  ok_stream : stream (state a) = true ↔ status a = RelayStatus.Connected;
  ok_settled : status a ≠ RelayStatus.Connecting ∧ status a ≠ RelayStatus.Terminated;
  ok_timer : is_Some (reconnect_deadline a) → status a = RelayStatus.Disconnected;
  ok_attempts : status a = RelayStatus.Connected → reconnect_attempts (state a) = 0%N;
  ok_subs : (N.of_nat (size (subscriptions (state a))) <= RelayLimits.max_subscriptions (ctx_limits ctx))%N;
  ok_pending : (N.of_nat (size (pending_publishes (state a)))
    <= RelayLimits.max_pending_publishes (ctx_limits ctx))%N;
  ok_bytes : bytes_sent (stats a) = 0%N;
}.

(** A change that only makes the tables smaller or rewrites the socket. *)
Lemma actor_ok_less ctx a a' :
  actor_ok ctx a → status a' = status a → reconnect_deadline a' = reconnect_deadline a →
  bytes_sent (stats a') = bytes_sent (stats a) →
  (is_Some (wire (state a')) ↔ is_Some (wire (state a))) → stream (state a') = stream (state a) →
  reconnect_attempts (state a') = reconnect_attempts (state a) →
  (size (subscriptions (state a')) ≤ size (subscriptions (state a)))%nat →
  (size (pending_publishes (state a')) ≤ size (pending_publishes (state a)))%nat → actor_ok ctx a'.
Proof.
  intros [] Hs Hd Hb Hw Hst Hat Hsu Hp. split; rewrite ?Hs, ?Hd, ?Hb, ?Hw, ?Hst, ?Hat; try done; lia.
Qed.

Lemma set_status_spec a s :
  status (set_status a s) = s ∧ stats (set_status a s) = stats a ∧ state (set_status a s) = state a
  ∧ reconnect_deadline (set_status a s) = reconnect_deadline a.
Proof. unfold set_status. case_decide; simpl; auto. Qed.

Section invariant.
Context `{FasterHex, Secp256k1, SerdeJson, SigSerde, JsonText}.
Implicit Types (ctx : StaticCtx) (env : Env) (a : Actor).

Lemma actor_start_ok ctx : actor_ok ctx actor_start.
Proof. split; simpl; try done; try (split; by try intros [? ?]); rewrite ?map_size_empty; lia. Qed.

(** The two ends of a connection attempt. *)
Lemma perform_connect_spec ctx env a res a' :
  perform_connect ctx env a = (res, a') →
  reconnect_deadline a' = reconnect_deadline a ∧ bytes_sent (stats a') = bytes_sent (stats a)
  ∧ match connect_outcome env with
    | Some (Ok socket) =>
        res = Ok tt ∧ status a' = RelayStatus.Connected
        ∧ state a' = mkState (Some socket) true (subscriptions (state a)) (pending_publishes (state a)) 0
    | Some (Err e) => res = Err (Transport e) ∧ status a' = RelayStatus.Disconnected ∧ state a' = state a
    | None =>
        res = Err (ConnectTimeout (RelayOptions.connect_timeout (ctx_options ctx)))
        ∧ status a' = RelayStatus.Disconnected ∧ state a' = state a
    end.
Proof.
  unfold perform_connect. destruct (set_status_spec a RelayStatus.Connecting) as (_ & Ht & Hst & Hd).
  set (b := set_status a RelayStatus.Connecting) in *. clearbody b.
  destruct (connect_outcome env) as [[socket|e]|]; intros [= <- <-];
    match goal with |- context [set_status ?x ?s] => destruct (set_status_spec x s) as (Hs' & Ht' & Hst' & Hd') end;
    rewrite Hs', Ht', Hst', Hd'; simpl; rewrite Ht, Hd, Hst; by destruct (stats a).
Qed.

Lemma reissue_subscriptions_spec s :
  (is_Some (wire (reissue_subscriptions s)) ↔ is_Some (wire s))
  ∧ stream (reissue_subscriptions s) = stream s ∧ subscriptions (reissue_subscriptions s) = subscriptions s
  ∧ pending_publishes (reissue_subscriptions s) = pending_publishes s
  ∧ reconnect_attempts (reissue_subscriptions s) = reconnect_attempts s.
Proof. unfold reissue_subscriptions. by destruct (wire s) eqn:E; simpl; rewrite ?E. Qed.

(** An actor with no socket after an attempt, with or without its subscriptions
    sent again. *)
Lemma connect_ok ctx env a a' res :
  actor_ok ctx a → status a ≠ RelayStatus.Connected → reconnect_deadline a = None →
  perform_connect ctx env a = (res, a') →
  actor_ok ctx (match res with Ok _ => set_state a' (reissue_subscriptions (state a')) | Err _ => a' end).
Proof.
  intros Ha Hc Hd Hp. apply perform_connect_spec in Hp as (Hd' & Hb & Hp). destruct Ha.
  destruct (connect_outcome env) as [[socket|e]|]; destruct Hp as (-> & Hs & Hst);
    [destruct (reissue_subscriptions_spec (state a')) as (Hw & Hstr & Hsu & Hpe & Hat)| |];
    (split; simpl;
      rewrite ?Hw, ?Hstr, ?Hsu, ?Hpe, ?Hat, ?Hs, ?Hd', ?Hd, ?Hb, ?Hst; simpl; try done; try by intros []).
  all: split; [intros Hx; exfalso|done]; intuition congruence.
Qed.

Lemma handle_connect_ok ctx env a r :
  actor_ok ctx a → actor_ok ctx (set_deadline (handle_connect ctx env a r) None).
Proof.
  intros Ha. assert (actor_ok ctx (set_deadline a None)) as Hn by (destruct Ha; split; simpl; try done; by intros []).
  unfold handle_connect. case_decide as Hc; [by eapply (actor_ok_less _ (set_deadline a None))|].
  destruct (perform_connect ctx env a) as [res a'] eqn:Hp.
  assert (perform_connect ctx env (set_deadline a None) = (res, set_deadline a' None)) as Hp'.
  { revert Hp. unfold perform_connect, set_status. simpl.
    repeat (case_decide; simpl); destruct (connect_outcome env) as [[]|]; simpl; repeat (case_decide; simpl);
      intros [= <- <-]; done. }
  pose proof (connect_ok ctx env _ _ _ Hn Hc eq_refl Hp') as Hok.
  eapply actor_ok_less; [exact Hok|..]; by destruct res.
Qed.

Lemma handle_disconnect_ok ctx a :
  actor_ok ctx a → actor_ok ctx (handle_disconnect a) ∧ status (handle_disconnect a) = RelayStatus.Disconnected.
Proof.
  intros []. unfold handle_disconnect.
  destruct (set_status_spec (set_state a (drop_socket (state a))) RelayStatus.Disconnected) as (Hs & Ht & Hst & Hd).
  split; [|done]. split; rewrite ?Hs, ?Ht, ?Hst, ?Hd; simpl; try done; try (split; [by intros []|done]).
Qed.

Lemma actor_ok_timer ctx a d :
  actor_ok ctx a → status a = RelayStatus.Disconnected → actor_ok ctx (set_deadline a d).
Proof. intros [] Hs. by split. Qed.

Lemma handle_subscribe_ok ctx a id fs o ch r :
  actor_ok ctx a → actor_ok ctx (handle_subscribe ctx a id fs o ch r).
Proof.
  intros Ha. unfold handle_subscribe. destruct (subscribe_refusal ctx a id) as [e|] eqn:E.
  { by eapply actor_ok_less. }
  apply subscribe_refusal_None in E as [E Hlt].
  set (b := set_state a _). assert (actor_ok ctx b) as Hb.
  { destruct Ha. split; simpl; try done. rewrite map_size_insert_None by done. lia. }
  clearbody b. destruct (wire (state b)) as [socket|] eqn:Ew; [|by eapply actor_ok_less].
  destruct (send_req socket id fs) as [[n|e] s]; (eapply actor_ok_less; [exact Hb|..]; try done); simpl; by rewrite Ew.
Qed.

Lemma handle_subscribe_neg_ok ctx a id f m ch r :
  actor_ok ctx a → actor_ok ctx (handle_subscribe_neg ctx a id f m ch r).
Proof.
  intros Ha. unfold handle_subscribe_neg. destruct (subscribe_refusal ctx a id) as [e|] eqn:E.
  { by eapply actor_ok_less. }
  apply subscribe_refusal_None in E as [E Hlt].
  set (b := set_state a _). assert (actor_ok ctx b) as Hb.
  { destruct Ha. split; simpl; try done. rewrite map_size_insert_None by done. lia. }
  clearbody b. cbv zeta. destruct (wire (state b)) as [socket|] eqn:Ew.
  - destruct (send_msg socket _) as [[n|e] s];
      (eapply actor_ok_less; [exact Hb|..]; try done); simpl; rewrite ?Ew; try done.
    apply map_subseteq_size, delete_subseteq.
  - eapply actor_ok_less; [exact Hb|..]; try done. apply map_subseteq_size, delete_subseteq.
Qed.

Lemma handle_drop_ok ctx a id : actor_ok ctx a → actor_ok ctx (handle_drop_subscription a id).
Proof.
  intros Ha. unfold handle_drop_subscription. destruct (subscriptions (state a) !! id) as [e|]; [|done].
  cbv zeta. simpl. destruct (wire (state a)) eqn:Ew; (eapply actor_ok_less; [exact Ha|..]; try done);
    simpl; rewrite ?Ew; try done; apply map_subseteq_size, delete_subseteq.
Qed.

Lemma send_on_wire_ok ctx a f r : actor_ok ctx a → actor_ok ctx (send_on_wire a f r).
Proof.
  intros Ha. unfold send_on_wire. destruct (wire (state a)) eqn:Ew; [|by eapply actor_ok_less].
  destruct (f s) as [res s']. eapply actor_ok_less; [exact Ha|..]; simpl; by rewrite ?Ew.
Qed.

Lemma handle_publish_ok ctx env a e o r a' :
  actor_ok ctx a → handle_publish ctx env a e o r = Ok a' → actor_ok ctx a'.
Proof.
  intros Ha. unfold handle_publish. destruct (negb _); [intros [= <-]; by eapply actor_ok_less|].
  destruct (N.leb_spec (RelayLimits.max_pending_publishes (ctx_limits ctx))
    (N.of_nat (size (pending_publishes (state a))))) as [Hl|Hl]; [intros [= <-]; by eapply actor_ok_less|].
  destruct (match wire (state a) with Some socket => _ | None => _ end) as [res b] eqn:Eb.
  assert (actor_ok ctx b ∧ pending_publishes (state b) = pending_publishes (state a)) as [Hb Hp].
  { destruct (wire (state a)) as [socket|] eqn:Ew; [|by injection Eb as _ <-].
    destruct (send_event socket e) as [x s]. injection Eb as _ <-. split; [|done].
    eapply actor_ok_less; [exact Ha|..]; simpl; by rewrite ?Ew. }
  clear Eb. destruct res as [n|err]; [|intros [= <-]; by eapply actor_ok_less].
  destruct (instant_add (now env) _) as [d|]; [|done]. intros [= <-]. simpl.
  assert (∀ l, actor_ok ctx (mkActor (status b) (count_published (stats b))
    (set_pending (state b) (<[Event.id e:=mkPending r d (default (RelayOptions.publish_timeout (ctx_options ctx)) (timeout o))]>
       (pending_publishes (state b)))) (reconnect_deadline b) l)) as Hok.
  { intros l. destruct Hb. split; simpl; try done.
    - rewrite map_size_insert. destruct (pending_publishes (state b) !! Event.id e); rewrite Hp in *; simpl; lia.
    - by destruct (stats b). }
  destruct (pending_publishes (state b) !! Event.id e); apply Hok.
Qed.

Lemma handle_command_ok ctx env a cmd a' :
  actor_ok ctx a → handle_command ctx env a cmd = Ok a' → actor_ok ctx a'.
Proof.
  intros Ha. destruct cmd; simpl; try (intros [= <-]).
  - by apply handle_connect_ok.
  - destruct (handle_disconnect_ok ctx a Ha) as [Hd Hs].
    by apply (actor_ok_less _ _ _ (actor_ok_timer ctx _ None Hd Hs)).
  - by apply handle_subscribe_ok.
  - by apply handle_subscribe_neg_ok.
  - by apply handle_publish_ok.
  - by apply send_on_wire_ok.
  - by apply send_on_wire_ok.
  - done.
Qed.
End invariant.

Section turn_invariant.
Context `{FasterHex, Secp256k1, SerdeJson, SigSerde, JsonText}.
Implicit Types (ctx : StaticCtx) (env : Env) (a : Actor).

Lemma end_subscription_ok ctx a id item : actor_ok ctx a → actor_ok ctx (end_subscription a id item).
Proof.
  intros Ha. unfold end_subscription. destruct (subscriptions (state a) !! id) as [e|]; [|done].
  eapply actor_ok_less; [exact Ha|..]; try done. apply map_subseteq_size, delete_subseteq.
Qed.

Lemma deliver_ok ctx a id item : actor_ok ctx a → actor_ok ctx (deliver a id item).
Proof.
  intros Ha. unfold deliver. destruct (subscriptions (state a) !! id) as [e|]; [|done]. by eapply actor_ok_less.
Qed.

Lemma dispatch_ok ctx a m : actor_ok ctx a → actor_ok ctx (dispatch_relay_message a m).
Proof.
  intros Ha. destruct m as [id e|eid acc msg|id|id msg|msg|msg|id n|id msg|id msg]; simpl;
    auto using end_subscription_ok, deliver_ok; try by eapply actor_ok_less.
  - apply deliver_ok. eapply actor_ok_less; [exact Ha|..]; try done. simpl. by destruct (stats a).
  - destruct (pending_publishes (state a) !! eid) as [p|]; [|done].
    eapply actor_ok_less; [exact Ha|..]; try done. apply map_subseteq_size, delete_subseteq.
  - destruct (subscriptions (state a) !! id) as [e|]; [|done].
    destruct (close_on_eose (options e)); [by apply end_subscription_ok|by eapply actor_ok_less].
Qed.

Lemma handle_frame_ok ctx a f : actor_ok ctx a → actor_ok ctx (handle_frame ctx a f).2.
Proof.
  intros Ha. destruct f as [[text| | | |]|]; simpl; try done.
  unfold handle_text_frame. destruct (N.ltb _ _); [done|].
  set (b := set_stats a _). assert (actor_ok ctx b) as Hb.
  { eapply actor_ok_less; [exact Ha|..]; try done. simpl. by destruct (stats a). }
  destruct (result_bind _ _); simpl; [by apply dispatch_ok|done].
Qed.

Lemma expire_ok ctx env a : actor_ok ctx a → actor_ok ctx (expire_pending_publishes env a).
Proof.
  intros Ha. destruct (expire_keeps env a) as (Hs & Ht & Hd & Hw & Hst & Hsu & Hat).
  eapply actor_ok_less; [exact Ha|..]; rewrite ?Hs, ?Ht, ?Hd, ?Hw, ?Hst, ?Hsu, ?Hat; try done.
  apply map_subseteq_size, map_subseteq_spec. intros id p. rewrite expire_pending.
  destruct (pending_publishes (state a) !! id); simpl; [|done]. destruct (N.leb _ _); [done|]. by intros [= ->].
Qed.

Lemma schedule_ok ctx env a a' :
  actor_ok ctx a → status a = RelayStatus.Disconnected →
  (let? d := schedule_reconnect ctx env a in Ok (set_deadline a d)) = Ok a' → actor_ok ctx a'.
Proof.
  intros Ha Hs. destruct (schedule_reconnect ctx env a) as [d|b]; simpl; [|done].
  intros [= <-]. by apply actor_ok_timer.
Qed.

Lemma after_wakeup_ok ctx env r a' :
  (∀ a, r = Ok a → actor_ok ctx a) → after_wakeup env r = Running a' → actor_ok ctx a'.
Proof. intros Hr. destruct r; simpl; [|done]. intros [= <-]. apply expire_ok. by apply Hr. Qed.

(** The reconnect timer's own turn, up to the new timer. *)
Lemma run_reconnect_ok ctx env a :
  actor_ok ctx a → is_Some (reconnect_deadline a) →
  let b := run_reconnect ctx env (set_deadline a None) in
  actor_ok ctx b
  ∧ match connect_outcome env with
    | Some (Ok socket) =>
        status b = RelayStatus.Connected
        ∧ state b = mkState (Some (reissue socket (map_to_list (subscriptions (state a))))) true
            (subscriptions (state a)) (pending_publishes (state a)) 0
    | _ =>
        status b = RelayStatus.Disconnected ∧ wire (state b) = None
        ∧ subscriptions (state b) = subscriptions (state a)
        ∧ pending_publishes (state b) = pending_publishes (state a)
        ∧ reconnect_attempts (state b) = saturating_add_u32 (reconnect_attempts (state a)) 1
    end
  ∧ reconnect_deadline b = None.
Proof.
  intros Ha Hd b. pose proof (ok_timer _ _ Ha Hd) as Hs.
  assert (wire (state a) = None) as Hw.
  { destruct (wire (state a)) eqn:E; [|done]. exfalso. pose proof (proj1 (ok_wire _ _ Ha) ltac:(by rewrite E)). congruence. }
  unfold run_reconnect in b. simpl in b.
  set (c := set_state (set_deadline a None) _) in b.
  assert (actor_ok ctx c) as Hc by (destruct Ha; split; simpl; try done; first [by intros [] | congruence]).
  assert (status c ≠ RelayStatus.Connected) as Hnc by (simpl; congruence).
  pose proof (connect_ok ctx env c) as Hok. destruct (perform_connect ctx env c) as [res d] eqn:Hp.
  specialize (Hok d res Hc Hnc eq_refl eq_refl).
  apply perform_connect_spec in Hp as (Hd' & Hb & Hp).
  destruct (connect_outcome env) as [[socket|e]|]; destruct Hp as (-> & Hst & Hstate); subst b; simpl;
    (split; [exact Hok|]); unfold reissue_subscriptions; rewrite ?Hstate; simpl; by rewrite ?Hst, ?Hd', ?Hw.
Qed.

Lemma turn_ok ctx env w a a' :
  actor_ok ctx a → enabled (now env) a w = true → turn ctx env w a = Running a' → actor_ok ctx a'.
Proof.
  intros Ha Hen. destruct w as [[cmd|]|id|frame| |].
  - destruct (turn_command ctx env cmd a) as [-> | ->]; [done|].
    apply after_wakeup_ok. intros b. by apply handle_command_ok.
  - done.
  - apply after_wakeup_ok. intros b [= <-]. by apply handle_drop_ok.
  - cbn [turn]. destruct (match frame with Some f => _ | None => _ end) as [out b] eqn:E.
    assert (actor_ok ctx b) as Hb.
    { destruct frame as [f|]; [|by injection E as _ <-].
      pose proof (handle_frame_ok ctx a f Ha) as Hf. by rewrite E in Hf. }
    destruct out; apply after_wakeup_ok; [by intros c [= <-]|].
    destruct (handle_disconnect_ok ctx b Hb). intros c. by apply schedule_ok.
  - cbn [turn enabled] in *.
    assert (is_Some (reconnect_deadline a)) as Hd by (destruct (reconnect_deadline a); [by eexists|done]).
    destruct (run_reconnect_ok ctx env a Ha Hd) as (Hb & Hs & _).
    set (b := run_reconnect ctx env (set_deadline a None)) in *. clearbody b.
    destruct (negb (is_connected (state b)) && negb _) eqn:E; apply after_wakeup_ok; [|by intros c [= <-]].
    intros c. apply schedule_ok; [done|]. apply andb_prop in E as [E _].
    destruct (connect_outcome env) as [[socket|e]|]; [|tauto..].
    destruct Hs as [_ Hs]. by rewrite Hs in E.
  - apply after_wakeup_ok. by intros b [= <-].
Qed.

(** What is left when the loop is over. *)
Definition outcome_ok ctx (o : Outcome) : Prop :=
  match o with
  | Running a => actor_ok ctx a
  | Exited a => status a = RelayStatus.Terminated ∧ state a = actor_state_new
  | Panicked a => state a = actor_state_new
  end.

Lemma turn_over ctx env w a :
  match turn ctx env w a with Running _ => True | o => outcome_ok ctx o end.
Proof.
  assert (∀ r, match after_wakeup env r with Running _ => True | o => outcome_ok ctx o end) as Haw by by intros [].
  assert (outcome_ok ctx (Exited (actor_exit a))) as Hex.
  { split; [|done]. unfold actor_exit. simpl. by destruct (set_status_spec a RelayStatus.Terminated). }
  destruct w as [[cmd|]|id|frame| |]; [|done|apply Haw| | |apply Haw].
  - destruct (turn_command ctx env cmd a) as [-> | ->]; [done|apply Haw].
  - cbn [turn]. destruct (match frame with Some f => _ | None => _ end) as [[] b]; apply Haw.
  - cbn [turn]. destruct (negb _ && negb _); apply Haw.
Qed.

Lemma actor_run_ok ctx ws a : actor_ok ctx a → outcome_ok ctx (run ctx ws a).
Proof.
  intros Ha. apply (actor_run_invariant ctx (λ _ b, actor_ok ctx b) (λ _ o, outcome_ok ctx o) [] ws a); [done| |done].
  intros d env w b Hb Hen. pose proof (turn_over ctx env w b) as Ho.
  destruct (turn ctx env w b) eqn:E; [|done..]. by eapply turn_ok.
Qed.
End turn_invariant.

(** ** What a turn does to one publish, one subscription, one stream *)

Definition items (l : list Effect) : list (SubscriptionSink * SubscriptionItem) :=
  omap (λ e, match e with Item ch i => Some (ch, i) | _ => None end) l.

(** A step that delivers nothing and takes no publish. *)
Record quiet (a b : Actor) : Prop := {
  quiet_pending : pending_publishes (state b) = pending_publishes (state a);
  quiet_items : items (log b) = items (log a);
}.

Lemma quiet_refl a : quiet a a.
Proof. done. Qed.
Lemma quiet_trans a b c : quiet a b → quiet b c → quiet a c.
Proof. intros [] []. split; congruence. Qed.
Lemma items_app l l' : items (l ++ l') = items l ++ items l'.
Proof. unfold items. by rewrite omap_app. Qed.
Lemma quiet_status a s : quiet a (set_status a s).
Proof.
  unfold set_status. case_decide; [done|]. split; [done|]. simpl. by rewrite items_app, app_nil_r.
Qed.
Lemma quiet_set a b :
  pending_publishes (state b) = pending_publishes (state a) → log b = log a → quiet a b.
Proof. intros Hp Hl. split; [done|by rewrite Hl]. Qed.

Section fates.
Context `{FasterHex, Secp256k1, SerdeJson, SigSerde, JsonText}.
Implicit Types (ctx : StaticCtx) (env : Env) (a : Actor).

Lemma quiet_emit a b e :
  quiet a b → (∀ ch i, e ≠ Item ch i) → quiet a (emit b e).
Proof.
  intros [Hp Hi] He. split; [done|]. simpl. rewrite items_app, Hi.
  destruct e; simpl; rewrite ?app_nil_r; try done. by destruct (He ch item).
Qed.

Lemma quiet_connect ctx env a : quiet a (perform_connect ctx env a).2.
Proof.
  unfold perform_connect. eapply quiet_trans; [apply (quiet_status a RelayStatus.Connecting)|].
  destruct (connect_outcome env) as [[socket|e]|]; simpl; (eapply quiet_trans; [|apply quiet_status]);
    by apply quiet_set.
Qed.

Lemma quiet_reissue a : quiet a (set_state a (reissue_subscriptions (state a))).
Proof. apply quiet_set; [|done]. apply (reissue_subscriptions_spec (state a)). Qed.

Lemma quiet_disconnect a : quiet a (handle_disconnect a).
Proof. unfold handle_disconnect. eapply quiet_trans; [|apply quiet_status]. by apply quiet_set. Qed.

Lemma quiet_reconnect ctx env a : quiet a (run_reconnect ctx env a).
Proof.
  unfold run_reconnect. set (b := set_state a _). apply (quiet_trans _ b); [by apply quiet_set|].
  pose proof (quiet_connect ctx env b) as Hc. destruct (perform_connect ctx env b) as [[] c]; [|done].
  eapply quiet_trans; [exact Hc|apply quiet_reissue].
Qed.

Lemma quiet_drop a id : quiet a (handle_drop_subscription a id).
Proof.
  unfold handle_drop_subscription. destruct (subscriptions (state a) !! id) as [e|]; [|done]. cbv zeta.
  set (b := emit _ _). assert (quiet a b) as Hb by (apply quiet_emit; [by apply quiet_set|done]).
  clearbody b. destruct (wire (state b)); [|done]. eapply quiet_trans; [exact Hb|]. by apply quiet_set.
Qed.

Ltac quiet_tac := repeat (apply quiet_emit; [|done]); by apply quiet_set.

Lemma quiet_command ctx env a cmd :
  (∀ e o r, cmd ≠ Publish e o r) → ∃ b, handle_command ctx env a cmd = Ok b ∧ quiet a b.
Proof.
  intros Hc. destruct cmd; simpl; try (eexists; split; [reflexivity|]).
  - apply (quiet_trans _ (handle_connect ctx env a r)); [|by apply quiet_set]. unfold handle_connect.
    case_decide; [quiet_tac|]. pose proof (quiet_connect ctx env a) as Hq.
    destruct (perform_connect ctx env a) as [[] b]; simpl in Hq; apply quiet_emit; try done.
    eapply quiet_trans; [exact Hq|apply quiet_reissue].
  - apply quiet_emit; [|done]. eapply quiet_trans; [apply quiet_disconnect|]. by apply quiet_set.
  - unfold handle_subscribe. destruct (subscribe_refusal ctx a id); [quiet_tac|]. simpl.
    destruct (wire (state a)); [|quiet_tac]. destruct (send_req s id fs) as [[] ?]; quiet_tac.
  - unfold handle_subscribe_neg. destruct (subscribe_refusal ctx a id); [quiet_tac|]. simpl.
    destruct (wire (state a)); [|quiet_tac]. destruct (send_msg s _) as [[] ?]; quiet_tac.
  - by destruct (Hc event o r).
  - unfold handle_authenticate, send_on_wire. destruct (wire (state a)); [|quiet_tac].
    destruct (send_auth s event) as [[] ?]; quiet_tac.
  - unfold handle_send_msg, send_on_wire. destruct (wire (state a)); [|quiet_tac].
    destruct (send_msg s message) as [[] ?]; quiet_tac.
  - apply quiet_refl.
Qed.

Lemma publish_items ctx env a e o r : items (log (either (handle_publish ctx env a e o r))) = items (log a).
Proof.
  unfold handle_publish. destruct (negb _); [simpl; by rewrite items_app, app_nil_r|].
  destruct (N.leb _ _); [simpl; by rewrite items_app, app_nil_r|].
  destruct (match wire (state a) with Some socket => _ | None => _ end) as [res b] eqn:Eb.
  assert (log b = log a) as Hb.
  { destruct (wire (state a)) as [socket|]; [|by injection Eb as _ <-].
    destruct (send_event socket e) as [x s]. by injection Eb as _ <-. }
  destruct res; simpl; [|by rewrite items_app, app_nil_r, Hb].
  destruct (instant_add (now env) _); simpl; [|by rewrite items_app, app_nil_r, Hb].
  destruct (pending_publishes (state b) !! Event.id e); simpl; by rewrite ?items_app, ?app_nil_r, Hb.
Qed.

Lemma expire_items env a : items (log (expire_pending_publishes env a)) = items (log a).
Proof.
  unfold expire_pending_publishes. generalize (timed_out (now_sweep env) (state a)). intros l.
  revert a. induction l as [|p l IH]; intros a; simpl; [done|]. rewrite IH. simpl. by rewrite items_app, app_nil_r.
Qed.

Lemma drop_items a : items (log (drop_state a)) = items (log a).
Proof.
  unfold drop_state, held_senders, items. simpl. rewrite !omap_app.
  by rewrite !omap_fmap_None, !app_nil_r by done.
Qed.

Lemma after_wakeup_items env r : items (log (outcome_actor (after_wakeup env r))) = items (log (either r)).
Proof. destruct r; [apply expire_items|apply drop_items]. Qed.

Lemma schedule_quiet ctx env a :
  quiet a (either (let? d := schedule_reconnect ctx env a in Ok (set_deadline a d))).
Proof.
  unfold schedule_reconnect. destruct (ReconnectPolicy.next_delay _ _ _); [|by apply quiet_set].
  destruct (instant_add _ _); by apply quiet_set.
Qed.

(** The text of a relay message, and whom the message is for. *)
Definition read_text (text : string) : result RelayMessage string :=
  let? v := json_from_slice (as_bytes text) in map_err de_error_text (RelayMessage.deserialize v).
Definition item_of (m : RelayMessage) : option (SubscriptionId * SubscriptionItem) :=
  match m with
  | RelayMessage.Event id e => Some (id, ItemEvent e)
  | RelayMessage.EndOfStoredEvents id => Some (id, ItemEndOfStoredEvents)
  | RelayMessage.Closed id m => Some (id, ItemClosed m)
  | RelayMessage.NegMsg id m => Some (id, ItemNegMsg m)
  | RelayMessage.NegErr id m => Some (id, ItemNegErr m)
  | _ => None
  end.

(** What a message puts on the streams: its item, on the stream of the
    subscription it names. *)
Definition routed a (m : RelayMessage) : list (SubscriptionSink * SubscriptionItem) :=
  match item_of m with
  | Some (id, it) => match subscriptions (state a) !! id with Some e => [(sink e, it)] | None => [] end
  | None => []
  end.

Lemma dispatch_items a m : items (log (dispatch_relay_message a m)) = items (log a) ++ routed a m.
Proof.
  destruct m as [id e|eid acc msg|id|id msg|msg|msg|id n|id msg|id msg]; unfold routed; simpl;
    unfold deliver, end_subscription; simpl;
    try (destruct (subscriptions (state a) !! id) as [x|]; simpl; rewrite ?items_app, ?app_nil_r; done).
  - destruct (pending_publishes (state a) !! eid); simpl; rewrite ?items_app, ?app_nil_r; done.
  - destruct (subscriptions (state a) !! id) as [x|] eqn:E; [|by rewrite app_nil_r].
    destruct (close_on_eose (options x)); simpl; rewrite ?E; simpl; by rewrite ?items_app, ?app_nil_r.
  - by rewrite items_app.
  - by rewrite items_app.
Qed.

(** The message a wakeup brings, when its frame is not too large. *)
Definition message_of ctx (w : Wakeup) : option RelayMessage :=
  match w with
  | RecvFrame (Some (Ok (Text text))) =>
      if (RelayLimits.max_message_bytes (ctx_limits ctx) <? N.of_nat (String.length text))%N then None
      else result_ok (read_text text)
  | _ => None
  end.

Lemma turn_items ctx env w a :
  items (log (outcome_actor (turn ctx env w a))) =
    items (log a) ++ match message_of ctx w with Some m => routed a m | None => [] end.
Proof.
  assert (∀ b, items (log (actor_exit b)) = items (log b)) as Hex.
  { intros b. unfold actor_exit. rewrite drop_items. simpl. rewrite items_app, app_nil_r. apply quiet_status. }
  destruct w as [[cmd|]|id|[frame|]| |]; cbn [message_of]; rewrite ?app_nil_r.
  - destruct (turn_command ctx env cmd a) as [-> | ->]; [apply Hex|]. rewrite after_wakeup_items.
    destruct cmd as [| | | |e o r| | |] eqn:Ec; [..|apply publish_items| | |];
      (destruct (quiet_command ctx env a cmd) as (b & Hb & Hq); [by subst|]; subst; rewrite Hb; apply Hq).
  - apply Hex.
  - cbn [turn]. rewrite after_wakeup_items. apply quiet_drop.
  - cbn [turn]. destruct frame as [[text| | | |]|]; simpl handle_frame;
      rewrite ?app_nil_r; cbv iota;
      rewrite ?after_wakeup_items;
      try (etrans; [apply schedule_quiet|apply quiet_disconnect]); try done.
    unfold handle_text_frame, read_text. destruct (N.ltb _ _);
      [by rewrite app_nil_r, after_wakeup_items|].
    destruct (result_bind _ _) as [m|]; simpl; rewrite expire_items; [by rewrite dispatch_items|by rewrite app_nil_r].
  - cbn [turn]. rewrite after_wakeup_items. etrans; [apply schedule_quiet|apply quiet_disconnect].
  - cbn [turn]. destruct (negb _ && negb _); rewrite after_wakeup_items; simpl either.
    + etrans; [apply schedule_quiet|]. etrans; [apply quiet_reconnect|]. done.
    + etrans; [apply quiet_reconnect|]. done.
  - cbn [turn]. apply after_wakeup_items.
Qed.
End fates.

(** *** Publishes *)

(** Every publish waiting before still waits, or was answered. *)
Definition keeps (a b : Actor) : Prop :=
  log a `prefix_of` log b ∧
  ∀ id p, pending_publishes (state a) !! id = Some p →
    pending_publishes (state b) !! id = Some p ∨ reply p ∈ answered (log b).

Lemma answered_mono l l' r : l `prefix_of` l' → r ∈ answered l → r ∈ answered l'.
Proof. intros [k ->]. unfold answered. rewrite omap_app. set_solver. Qed.

Lemma answered_snoc l e r : r ∈ answered (l ++ [e]) ↔ r ∈ answered l ∨ answered_by e = Some r.
Proof.
  unfold answered. rewrite omap_app, elem_of_app. simpl. destruct (answered_by e); set_solver.
Qed.

Lemma keeps_refl a : keeps a a.
Proof. split; auto. Qed.

Lemma keeps_trans a b c : keeps a b → keeps b c → keeps a c.
Proof.
  intros [Hl1 Hk1] [Hl2 Hk2]. split; [by etrans|]. intros id p Hp.
  destruct (Hk1 id p Hp) as [Hb|Hb]; [by apply Hk2|]. right. by eapply answered_mono.
Qed.

Lemma keeps_quiet a b : quiet a b → log a `prefix_of` log b → keeps a b.
Proof. intros [Hp _] Hl. split; [done|]. rewrite Hp. auto. Qed.

Section publishes.
Context `{FasterHex, Secp256k1, SerdeJson, SigSerde, JsonText}.
Implicit Types (ctx : StaticCtx) (env : Env) (a : Actor).

Lemma publish_keeps ctx env a e o r : keeps a (either (handle_publish ctx env a e o r)).
Proof.
  assert (∀ a x, keeps a (emit a x)) as Hemit.
  { intros a0 x. split; [by eexists|auto]. }
  unfold handle_publish. destruct (negb _); [apply Hemit|]. destruct (N.leb _ _); [apply Hemit|].
  destruct (match wire (state a) with Some socket => _ | None => _ end) as [res b] eqn:Eb.
  assert (log b = log a ∧ pending_publishes (state b) = pending_publishes (state a)) as [Hl Hp].
  { destruct (wire (state a)) as [socket|]; [|by injection Eb as _ <-].
    destruct (send_event socket e) as [x s]. by injection Eb as _ <-. }
  apply (keeps_trans _ b); [split; [by rewrite Hl|rewrite Hp; auto]|]. clear Eb Hl Hp.
  destruct res; [|apply Hemit]. simpl.
  destruct (instant_add (now env) _); simpl; [|split; [by eexists|auto]].
  destruct (pending_publishes (state b) !! Event.id e) as [old|] eqn:E; simpl.
  - split; [by eexists|]. simpl. intros id p Hp. rewrite answered_snoc. simpl.
    destruct (decide (id = Event.id e)) as [->|Hne]; [simplify_eq; auto|].
    left. by rewrite lookup_insert_ne.
  - split; [done|]. simpl. intros id p Hp. left. rewrite lookup_insert_ne; [done|]. congruence.
Qed.

Lemma command_keeps ctx env a cmd : keeps a (either (handle_command ctx env a cmd)).
Proof.
  pose proof (log_grows _ _ _ _ (handle_command_accounts ctx env a cmd)) as Hl.
  destruct cmd as [| | | |e o r| | |] eqn:Ec; [..|apply publish_keeps| | |];
    (destruct (quiet_command ctx env a cmd) as (b & Hb & Hq); [by subst|]; subst; rewrite Hb in *;
     by apply keeps_quiet).
Qed.

Lemma dispatch_keeps a m : keeps a (dispatch_relay_message a m).
Proof.
  split; [apply dispatch_accounts|]. intros id p Hp.
  destruct m as [i e|eid acc msg|i|i msg|msg|msg|i n|i msg|i msg]; simpl;
    unfold deliver, end_subscription; simpl; try (by left);
    try (destruct (subscriptions (state a) !! i) as [x|] eqn:Ex; simpl; by left).
  - destruct (pending_publishes (state a) !! eid) as [q|] eqn:E; [|by left]. simpl.
    rewrite answered_snoc. simpl. destruct (decide (eid = id)) as [->|Hne]; [simplify_eq; auto|].
    left. by rewrite lookup_delete_ne.
  - destruct (subscriptions (state a) !! i) as [x|] eqn:Ex; [|by left]. simpl.
    destruct (close_on_eose (options x)); simpl; by left.
Qed.

Lemma frame_keeps ctx a f : keeps a (handle_frame ctx a f).2.
Proof.
  destruct f as [[text| | | |]|]; simpl; try apply keeps_refl.
  unfold handle_text_frame. destruct (N.ltb _ _); [apply keeps_refl|].
  set (b := set_stats a _). apply (keeps_trans _ b); [by split; [|auto]|].
  destruct (result_bind _ _); [apply dispatch_keeps|apply keeps_refl].
Qed.

(** The sweep: what it takes, it answers. *)
Lemma expire_list_answers a l p : p ∈ l → reply p.2 ∈ answered (log (foldl expire_one a l)).
Proof.
  revert a. induction l as [|q l IH]; intros a; [set_solver|]. rewrite elem_of_cons. intros [->|Hp]; [|by apply IH].
  cbn [foldl]. apply (answered_mono (log (expire_one a q))); [|simpl; apply answered_snoc; by right].
  clear. generalize (expire_one a q). intros b. revert b. induction l as [|x l IH]; intros b; simpl; [done|].
  etrans; [|apply IH]. by eexists.
Qed.

Lemma expire_fate env a id p :
  pending_publishes (state a) !! id = Some p →
  (pending_publishes (state (expire_pending_publishes env a)) !! id = Some p ∧ (now_sweep env < deadline p)%N)
  ∨ reply p ∈ answered (log (expire_pending_publishes env a)).
Proof.
  intros Hp. rewrite expire_pending, Hp. simpl. destruct (N.leb_spec (deadline p) (now_sweep env)); [|by left].
  right. apply (expire_list_answers a _ (id, p)). by apply timed_out_spec.
Qed.

(** What a turn does to a publish that waits: it still waits and its time has
    not come, or it has been answered. *)
Definition fate env (id : EventId) (p : PendingPublish) (o : Outcome) : Prop :=
  match o with
  | Running b => pending_publishes (state b) !! id = Some p ∧ (now_sweep env < deadline p)%N
  | _ => False
  end ∨ reply p ∈ answered (log (outcome_actor o)).

Lemma after_wakeup_fate env r a id p :
  keeps a (either r) → pending_publishes (state a) !! id = Some p → fate env id p (after_wakeup env r).
Proof.
  intros [_ Hk] Hp. destruct (Hk id p Hp) as [Hb|Hb].
  - destruct r as [b|b]; simpl in *; [by apply expire_fate|]. right. simpl.
    unfold answered. rewrite omap_app. apply elem_of_app. right.
    change (reply p ∈ answered (held_senders (state b))). rewrite (proj1 (answered_held _)).
    apply list_elem_of_fmap. exists (id, p). split; [done|]. by apply elem_of_map_to_list.
  - right. eapply answered_mono; [|exact Hb]. apply after_wakeup_accounts.
Qed.

Lemma exit_fate env a id p :
  pending_publishes (state a) !! id = Some p → fate env id p (Exited (actor_exit a)).
Proof.
  intros Hp. right. cbn [outcome_actor]. unfold actor_exit, drop_state. cbn [log]. unfold answered. rewrite omap_app.
  apply elem_of_app. right. match goal with |- _ ∈ omap _ (held_senders ?s) =>
    change (reply p ∈ answered (held_senders s)) end. rewrite (proj1 (answered_held _)).
  apply list_elem_of_fmap. exists (id, p). split; [done|]. apply elem_of_map_to_list. simpl.
  by destruct (set_status_spec a RelayStatus.Terminated) as (_ & _ & -> & _).
Qed.

Lemma turn_fate ctx env w a id p :
  pending_publishes (state a) !! id = Some p → fate env id p (turn ctx env w a).
Proof.
  intros Hp.
  assert (∀ b, keeps a b → keeps a (either (let? d := schedule_reconnect ctx env b in Ok (set_deadline b d)))) as Hsch.
  { intros b Hb. eapply keeps_trans; [exact Hb|]. apply keeps_quiet; [apply schedule_quiet|apply schedule_accounts]. }
  assert (∀ b, keeps a b → keeps a (handle_disconnect b)) as Hdis.
  { intros b Hb. eapply keeps_trans; [exact Hb|]. apply keeps_quiet; [apply quiet_disconnect|apply handle_disconnect_accounts]. }
  destruct w as [[cmd|]|i|[frame|]| |].
  - destruct (turn_command ctx env cmd a) as [-> | ->]; [by apply exit_fate|].
    eapply after_wakeup_fate; [apply command_keeps|done].
  - by apply exit_fate.
  - cbn [turn]. eapply after_wakeup_fate; [|done]. apply keeps_quiet; [apply quiet_drop|apply handle_drop_accounts].
  - cbn [turn]. pose proof (frame_keeps ctx a frame) as Hf. destruct (handle_frame ctx a frame) as [[] b];
      (eapply after_wakeup_fate; [|done]); [done|by apply Hsch, Hdis].
  - cbn [turn]. eapply after_wakeup_fate; [|done]. apply Hsch, Hdis, keeps_refl.
  - cbn [turn]. set (b := run_reconnect ctx env (set_deadline a None)).
    assert (keeps a b) as Hb.
    { apply (keeps_trans _ (set_deadline a None)); [by split; [|auto]|].
      apply keeps_quiet; [apply quiet_reconnect|apply run_reconnect_accounts]. }
    destruct (negb _ && negb _); (eapply after_wakeup_fate; [|done]); [by apply Hsch|done].
  - cbn [turn]. eapply after_wakeup_fate; [apply keeps_refl|done].
Qed.

(** Once a handled turn has swept at its deadline or later, a publish is
    answered. *)
Lemma run_fate ctx ws a id p env w :
  pending_publishes (state a) !! id = Some p → (env, w) ∈ handled ctx ws a → (deadline p <= now_sweep env)%N →
  reply p ∈ answered (log (outcome_actor (run ctx ws a))).
Proof.
  intros Hp Hin Hd. revert a Hp Hin. induction ws as [|[env' w'] ws IH]; intros a Hp; simpl; [set_solver|].
  destruct (enabled (now env') a w'); [|by apply IH].
  pose proof (turn_fate ctx env' w' a id p Hp) as Hf.
  destruct (turn ctx env' w' a) as [b|b|b]; simpl in Hf; [|by destruct Hf..].
  intros Hin. destruct Hf as [[Hb Hlt]|Hb].
  - apply IH; [done|]. apply elem_of_cons in Hin as [[= <- <-]|Hin]; [lia|done].
  - eapply answered_mono; [|exact Hb]. apply run_accounts.
Qed.

(** The loop's timer is armed for the earliest deadline, which exists while a
    publish waits. *)
Lemma earliest_spec_list (l : list (EventId * PendingPublish)) acc :
  match foldl (λ acc p, min_opt acc (deadline p.2)) acc l with
  | Some d => (∀ p, p ∈ l → (d <= deadline p.2)%N) ∧ (∀ x, acc = Some x → (d <= x)%N)
  | None => l = [] ∧ acc = None
  end.
Proof.
  revert acc. induction l as [|p l IH]; intros acc; simpl.
  - destruct acc; [|done]. split; [set_solver|]. intros x [= ->]. lia.
  - specialize (IH (min_opt acc (deadline p.2))).
    destruct (foldl _ _ l) as [d|]; [|by destruct acc, IH]. destruct IH as [Hl Ha].
    assert (d <= deadline p.2)%N by (destruct acc as [x|]; simpl in Ha; specialize (Ha _ eq_refl); lia).
    split; [|intros x ->; specialize (Ha _ eq_refl); lia].
    intros q. rewrite elem_of_cons. intros [->|Hq]; auto.
Qed.

Lemma earliest_deadline a id p :
  pending_publishes (state a) !! id = Some p →
  ∃ d, earliest_publish_deadline (state a) = Some d ∧ (d <= deadline p)%N.
Proof.
  intros Hp%elem_of_map_to_list. unfold earliest_publish_deadline.
  pose proof (earliest_spec_list (map_to_list (pending_publishes (state a))) None) as Hs.
  destruct (foldl _ _ _) as [d|].
  - exists d. split; [done|]. apply (proj1 Hs _ Hp).
  - destruct Hs as [Hs _]. rewrite Hs in Hp. set_solver.
Qed.
End publishes.

(** *** Subscriptions *)

(** The subscription a command opens. *)
Definition opened_by (w : Wakeup) : list (SubscriptionId * SubscriptionSink) :=
  match w with
  | RecvCommand (Some (Subscribe id _ _ ch _)) | RecvCommand (Some (SubscribeNeg id _ _ ch _)) => [(id, ch)]
  | _ => []
  end.

(** Subscriptions of [b] not in [a] come from [l]. *)
Definition from_open (l : list (SubscriptionId * SubscriptionSink)) (a b : Actor) : Prop :=
  ∀ id e, subscriptions (state b) !! id = Some e → subscriptions (state a) !! id = Some e ∨ (id, sink e) ∈ l.

Lemma from_open_sub l a b : subscriptions (state b) ⊆ subscriptions (state a) → from_open l a b.
Proof. intros Hs id e He. left. by eapply lookup_weaken. Qed.
Lemma from_open_trans l a b c : from_open [] a b → from_open l b c → from_open l a c.
Proof. intros H1 H2 id e [He|He]%H2; [|by right]. apply H1 in He as [He|He]; [by left|set_solver]. Qed.

Section opened.
Context `{FasterHex, Secp256k1, SerdeJson, SigSerde, JsonText}.
Implicit Types (ctx : StaticCtx) (env : Env) (a : Actor).

Lemma connect_subs ctx env a : subscriptions (state (perform_connect ctx env a).2) = subscriptions (state a).
Proof.
  destruct (perform_connect ctx env a) as [res b] eqn:E. apply perform_connect_spec in E as (_ & _ & E). simpl.
  destruct (connect_outcome env) as [[]|]; destruct E as (_ & _ & ->); done.
Qed.

Lemma handle_connect_subs ctx env a r : subscriptions (state (handle_connect ctx env a r)) = subscriptions (state a).
Proof.
  unfold handle_connect. case_decide; [done|]. pose proof (connect_subs ctx env a) as Hs.
  destruct (perform_connect ctx env a) as [[] b]; simpl in *; [|done].
  by destruct (reissue_subscriptions_spec (state b)) as (_ & _ & -> & _).
Qed.

Lemma disconnect_subs a : subscriptions (state (handle_disconnect a)) = subscriptions (state a).
Proof.
  unfold handle_disconnect.
  by destruct (set_status_spec (set_state a (drop_socket (state a))) RelayStatus.Disconnected) as (_ & _ & -> & _).
Qed.

Lemma reconnect_subs ctx env a : subscriptions (state (run_reconnect ctx env a)) = subscriptions (state a).
Proof.
  unfold run_reconnect. cbv zeta. match goal with |- context [perform_connect _ _ ?b] =>
    pose proof (connect_subs ctx env b) as Hs; destruct (perform_connect ctx env b) as [[] c] end; simpl in *; [|done].
  by destruct (reissue_subscriptions_spec (state c)) as (_ & _ & -> & _).
Qed.

Lemma publish_subs ctx env a e o r :
  subscriptions (state (either (handle_publish ctx env a e o r))) = subscriptions (state a).
Proof.
  unfold handle_publish. destruct (negb _); [done|]. destruct (N.leb _ _); [done|].
  destruct (match wire (state a) with Some socket => _ | None => _ end) as [res b] eqn:Eb.
  assert (subscriptions (state b) = subscriptions (state a)) as <-.
  { destruct (wire (state a)) as [socket|]; [|by injection Eb as _ <-].
    destruct (send_event socket e) as [x s]. by injection Eb as _ <-. }
  destruct res; [|done]. simpl. destruct (instant_add (now env) _); simpl; [|done].
  by destruct (pending_publishes (state b) !! Event.id e).
Qed.

Lemma insert_open a b id e ch :
  subscriptions (state b) ⊆ <[id := e]> (subscriptions (state a)) → sink e = ch → from_open [(id, ch)] a b.
Proof.
  intros Hs <- i x Hx. apply (lookup_weaken _ _ _ _ Hx) in Hs.
  apply lookup_insert_Some in Hs as [[<- <-]|[_ Hs]]; [right; left|by left].
Qed.

Lemma command_opens ctx env a cmd : from_open (opened_by (RecvCommand (Some cmd))) a (either (handle_command ctx env a cmd)).
Proof.
  destruct cmd; simpl; try (apply from_open_sub; simpl;
    rewrite ?handle_connect_subs, ?disconnect_subs, ?publish_subs; done).
  - unfold handle_subscribe. destruct (subscribe_refusal ctx a id); [by apply from_open_sub|]. simpl.
    destruct (wire (state a)); [destruct (send_req s id fs) as [[] ?]|];
      by apply (insert_open _ _ id (mkEntry fs o ch false)).
  - unfold handle_subscribe_neg. destruct (subscribe_refusal ctx a id); [by apply from_open_sub|]. simpl.
    destruct (wire (state a)); [destruct (send_msg s _) as [[] ?]|];
      (apply (insert_open _ _ id (mkEntry [f] subscribe_options_new ch true)); [|done]); simpl; try done;
      apply delete_subseteq.
  - apply from_open_sub. unfold handle_authenticate, send_on_wire. destruct (wire (state a)); [|done].
    by destruct (send_auth s event).
  - apply from_open_sub. unfold handle_send_msg, send_on_wire. destruct (wire (state a)); [|done].
    by destruct (send_msg s message).
Qed.

Lemma end_subscription_subs a id item :
  subscriptions (state (end_subscription a id item)) = delete id (subscriptions (state a)).
Proof.
  unfold end_subscription. destruct (subscriptions (state a) !! id) as [x|] eqn:E; [done|].
  by rewrite delete_id.
Qed.

Lemma deliver_subs a id item : subscriptions (state (deliver a id item)) = subscriptions (state a).
Proof. unfold deliver. by destruct (subscriptions (state a) !! id). Qed.

Lemma dispatch_subs a m : subscriptions (state (dispatch_relay_message a m)) ⊆ subscriptions (state a).
Proof.
  destruct m as [id e|eid acc msg|id|id msg|msg|msg|id n|id msg|id msg]; simpl;
    rewrite ?end_subscription_subs, ?deliver_subs; try done; try apply delete_subseteq.
  - by destruct (pending_publishes (state a) !! eid).
  - destruct (subscriptions (state a) !! id) as [x|] eqn:E; [|done].
    destruct (close_on_eose (options x)); [|done]. rewrite end_subscription_subs. apply delete_subseteq.
Qed.

Lemma frame_subs ctx a f : subscriptions (state (handle_frame ctx a f).2) ⊆ subscriptions (state a).
Proof.
  destruct f as [[text| | | |]|]; simpl; try done. unfold handle_text_frame. destruct (N.ltb _ _); [done|].
  destruct (result_bind _ _); [|done]. etrans; [apply dispatch_subs|done].
Qed.

Lemma after_wakeup_opens l env r a :
  from_open l a (either r) → from_open l a (outcome_actor (after_wakeup env r)).
Proof.
  intros Hr id e. destruct r as [b|b]; simpl; [|by rewrite lookup_empty].
  destruct (expire_keeps env b) as (_ & _ & _ & _ & _ & -> & _). apply Hr.
Qed.

Lemma schedule_subs ctx env a :
  subscriptions (state (either (let? d := schedule_reconnect ctx env a in Ok (set_deadline a d))))
  = subscriptions (state a).
Proof.
  unfold schedule_reconnect. destruct (ReconnectPolicy.next_delay _ _ _); [|done]. by destruct (instant_add _ _).
Qed.

Lemma turn_opens ctx env w a : from_open (opened_by w) a (outcome_actor (turn ctx env w a)).
Proof.
  assert (from_open [] a (actor_exit a)) as Hex by (intros id e; simpl; by rewrite lookup_empty).
  destruct w as [[cmd|]|id|[frame|]| |].
  - destruct (turn_command ctx env cmd a) as [-> | ->]; [done|]. apply after_wakeup_opens, command_opens.
  - done.
  - cbn [turn]. apply after_wakeup_opens, from_open_sub. simpl. unfold handle_drop_subscription.
    destruct (subscriptions (state a) !! id); [|done]. simpl. destruct (wire (state a)); apply delete_subseteq.
  - cbn [turn]. pose proof (frame_subs ctx a frame) as Hf.
    destruct (handle_frame ctx a frame) as [[] b]; apply after_wakeup_opens, from_open_sub; [done|].
    by rewrite schedule_subs, disconnect_subs.
  - cbn [turn]. apply after_wakeup_opens, from_open_sub. by rewrite schedule_subs, disconnect_subs.
  - cbn [turn]. destruct (negb _ && negb _); apply after_wakeup_opens, from_open_sub;
      rewrite ?schedule_subs; simpl either; by rewrite reconnect_subs.
  - cbn [turn]. by apply after_wakeup_opens, from_open_sub.
Qed.

(** Every item on a stream came in a message that names the subscription the
    stream was opened for. *)
Lemma run_items ctx ws a :
  items (log a) = [] → subscriptions (state a) = ∅ →
  ∀ ch it, (ch, it) ∈ items (log (outcome_actor (run ctx ws a))) →
  ∃ id env w env' w' m, (env, w) ∈ handled ctx ws a ∧ (id, ch) ∈ opened_by w
    ∧ (env', w') ∈ handled ctx ws a ∧ message_of ctx w' = Some m ∧ item_of m = Some (id, it).
Proof.
  intros Ha Hs.
  set (ok := λ (d : list (Env * Wakeup)) (b : Actor),
    (∀ id e, subscriptions (state b) !! id = Some e → ∃ p, p ∈ d ∧ (id, sink e) ∈ opened_by p.2)
    ∧ (∀ ch it, (ch, it) ∈ items (log b) → ∃ id p q m, p ∈ d ∧ (id, ch) ∈ opened_by p.2
        ∧ q ∈ d ∧ message_of ctx q.2 = Some m ∧ item_of m = Some (id, it))).
  assert (ok ([] ++ handled ctx ws a) (outcome_actor (run ctx ws a))) as [_ Hok].
  { apply (actor_run_invariant ctx ok (λ d o, ok d (outcome_actor o)) [] ws a); [done| |].
    - intros d env w b [Hsub Hit] _.
      assert (ok (d ++ [(env, w)]) (outcome_actor (turn ctx env w b))) as Hb; [|by destruct (turn ctx env w b)].
      split.
      + intros id e He. apply turn_opens in He as [He|He].
        * destruct (Hsub id e He) as (p & Hp & Hpe). exists p. set_solver.
        * exists (env, w). set_solver.
      + intros ch it. rewrite turn_items, elem_of_app. intros [Hin|Hin].
        * destruct (Hit ch it Hin) as (id & p & q & m & ?). exists id, p, q, m. set_solver.
        * destruct (message_of ctx w) as [m|] eqn:Em; [|set_solver]. unfold routed in Hin.
          destruct (item_of m) as [[id it']|] eqn:Ei; [|set_solver].
          destruct (subscriptions (state b) !! id) as [e|] eqn:Ee; [|set_solver].
          apply list_elem_of_singleton in Hin as [= -> ->].
          destruct (Hsub id e Ee) as (p & Hp & Hpe). exists id, p, (env, w), m. set_solver.
    - split; [intros id e; rewrite Hs; by rewrite lookup_empty|]. rewrite Ha. set_solver. }
  intros ch it Hin. destruct (Hok ch it Hin) as (id & [e w] & [e' w'] & m & ?). exists id, e, w, e', w', m. done.
Qed.
End opened.

(** *** Reconnecting, and panics *)

(** The longest delay a policy asks for. *)
Definition max_delay (p : ReconnectPolicy.t) : option N :=
  match p with
  | ReconnectPolicy.Never => None
  | ReconnectPolicy.Constant d => Some d
  | ReconnectPolicy.Exponential _ cap => Some cap
  end.

Lemma next_delay_bound p attempts rand :
  match ReconnectPolicy.next_delay p attempts rand, max_delay p with
  | Some d, Some m => (d <= m)%N
  | None, None => True
  | _, _ => False
  end.
Proof. destruct p; simpl; [done|lia|apply ReconnectPolicy.full_jitter_bound]. Qed.

(** The sums of instants and durations a turn makes are in range. *)
Definition in_range (ctx : StaticCtx) (env : Env) (w : Wakeup) : Prop :=
  (∀ m, max_delay (RelayOptions.reconnect_policy (ctx_options ctx)) = Some m → (now env + m <= instant_max)%N)
  ∧ match w with
    | RecvCommand (Some (Publish _ o _)) =>
        (now env + default (RelayOptions.publish_timeout (ctx_options ctx)) (timeout o) <= instant_max)%N
    | _ => True
    end.

Section reconnect.
Context `{FasterHex, Secp256k1, SerdeJson, SigSerde, JsonText}.
Implicit Types (ctx : StaticCtx) (env : Env) (a : Actor).

Lemma schedule_spec ctx env a :
  (∀ m, max_delay (RelayOptions.reconnect_policy (ctx_options ctx)) = Some m → (now env + m <= instant_max)%N) →
  ∃ d, schedule_reconnect ctx env a = Ok d
    ∧ match d, max_delay (RelayOptions.reconnect_policy (ctx_options ctx)) with
      | Some x, Some m => (now env <= x <= now env + m)%N
      | None, None => True
      | _, _ => False
      end.
Proof.
  intros Hr. unfold schedule_reconnect.
  pose proof (next_delay_bound (RelayOptions.reconnect_policy (ctx_options ctx)) (reconnect_attempts (state a)) (rand env)) as Hb.
  destruct (ReconnectPolicy.next_delay _ _ _) as [d|];
    destruct (max_delay (RelayOptions.reconnect_policy (ctx_options ctx))) as [m|]; try done; [|by exists None].
  specialize (Hr m eq_refl). unfold instant_add. rewrite (proj2 (N.leb_le (now env + d) instant_max)) by lia.
  exists (Some (now env + d)%N). split; [done|lia].
Qed.

Lemma publish_no_panic ctx env a e o r :
  (now env + default (RelayOptions.publish_timeout (ctx_options ctx)) (timeout o) <= instant_max)%N →
  ∃ b, handle_publish ctx env a e o r = Ok b.
Proof.
  intros Hr. unfold handle_publish. destruct (negb _); [by eexists|]. destruct (N.leb _ _); [by eexists|].
  destruct (match wire (state a) with Some socket => _ | None => _ end) as [[] b]; [|by eexists].
  unfold instant_add. rewrite (proj2 (N.leb_le _ _) Hr). by eexists.
Qed.

Lemma turn_no_panic ctx env w a b : in_range ctx env w → turn ctx env w a ≠ Panicked b.
Proof.
  intros [Hr Hp] Ht.
  assert (∀ c, ∃ d, (let? d := schedule_reconnect ctx env c in Ok (set_deadline c d)) = Ok d) as Hs.
  { intros c. destruct (schedule_spec ctx env c Hr) as (d & -> & _). by eexists. }
  destruct w as [[cmd|]|id|frame| |]; [|done|done| | |done].
  - destruct (turn_command ctx env cmd a) as [E|E]; [by subst|]. rewrite E in Ht.
    assert (∃ c, handle_command ctx env a cmd = Ok c) as [c Hc]; [|by rewrite Hc in Ht].
    destruct cmd as [| | | |e o r| | |] eqn:Ec; [..|by apply publish_no_panic| | |];
      (destruct (quiet_command ctx env a cmd) as (c & Hb & _); [by subst|]; subst; by eexists).
  - cbn [turn] in Ht. destruct (match frame with Some f => _ | None => _ end) as [[] c]; [done|].
    by destruct (Hs (handle_disconnect c)) as [d Hd]; rewrite Hd in Ht.
  - cbn [turn] in Ht. destruct (negb _ && negb _); [|done].
    by destruct (Hs (run_reconnect ctx env (set_deadline a None))) as [d Hd]; rewrite Hd in Ht.
Qed.

(** Commands that decide about the connection. *)
Definition steers (w : Wakeup) : bool :=
  match w with RecvCommand (Some (Connect _)) | RecvCommand (Some (Disconnect _)) => true | _ => false end.

(** Connected, or with an attempt scheduled. *)
Definition persists a : Prop := status a = RelayStatus.Connected ∨ is_Some (reconnect_deadline a).

(** A step that leaves the connection alone. *)
Definition same_link a b : Prop := status b = status a ∧ reconnect_deadline b = reconnect_deadline a.

Lemma command_link ctx env a cmd b :
  steers (RecvCommand (Some cmd)) = false → handle_command ctx env a cmd = Ok b → same_link a b.
Proof.
  intros Hs. destruct cmd; simpl in *; try done.
  - intros [= <-]. unfold handle_subscribe. destruct (subscribe_refusal ctx a id); [done|]. simpl.
    destruct (wire (state a)); [by destruct (send_req s id fs) as [[] ?]|done].
  - intros [= <-]. unfold handle_subscribe_neg. destruct (subscribe_refusal ctx a id); [done|]. simpl.
    destruct (wire (state a)); [by destruct (send_msg s _) as [[] ?]|done].
  - unfold handle_publish. destruct (negb _); [by intros [= <-]|]. destruct (N.leb _ _); [by intros [= <-]|].
    destruct (match wire (state a) with Some socket => _ | None => _ end) as [res c] eqn:Ec.
    assert (same_link a c) as Hc.
    { destruct (wire (state a)) as [socket|]; [|by injection Ec as _ <-].
      destruct (send_event socket event) as [x s]. by injection Ec as _ <-. }
    destruct res; [|by intros [= <-]]. destruct (instant_add (now env) _); [|done]. intros [= <-].
    simpl. by destruct (pending_publishes (state c) !! Event.id event).
  - intros [= <-]. unfold handle_authenticate, send_on_wire. destruct (wire (state a)); [|done].
    by destruct (send_auth s event).
  - intros [= <-]. unfold handle_send_msg, send_on_wire. destruct (wire (state a)); [|done].
    by destruct (send_msg s message).
  - by intros [= <-].
Qed.

Lemma dispatch_link a m : same_link a (dispatch_relay_message a m).
Proof.
  destruct m as [id e|eid acc msg|id|id msg|msg|msg|id n|id msg|id msg]; simpl; unfold deliver, end_subscription; simpl;
    try done; try (by destruct (subscriptions (state a) !! id) as [x|] eqn:E; simpl).
  - by destruct (pending_publishes (state a) !! eid).
  - destruct (subscriptions (state a) !! id) as [x|] eqn:E; [|done]. destruct (close_on_eose (options x)); by rewrite ?E.
Qed.

Lemma frame_link ctx a f b : handle_frame ctx a f = (Continue, b) → same_link a b.
Proof.
  destruct f as [[text| | | |]|]; simpl; try (by intros [= <-]). unfold handle_text_frame.
  destruct (N.ltb _ _); [by intros [= <-]|]. destruct (result_bind _ _); intros [= <-]; [|done].
  apply (dispatch_link (set_stats a _)).
Qed.

Lemma persists_expire env a : persists (expire_pending_publishes env a) ↔ persists a.
Proof. unfold persists. destruct (expire_keeps env a) as (-> & _ & -> & _). done. Qed.

Lemma persists_link a b : same_link a b → persists a → persists b.
Proof. unfold persists. intros [-> ->]. done. Qed.

Lemma persists_schedule ctx env a b :
  is_Some (max_delay (RelayOptions.reconnect_policy (ctx_options ctx))) →
  (let? d := schedule_reconnect ctx env a in Ok (set_deadline a d)) = Ok b → persists b.
Proof.
  intros [m Hm]. unfold schedule_reconnect.
  pose proof (next_delay_bound (RelayOptions.reconnect_policy (ctx_options ctx)) (reconnect_attempts (state a)) (rand env)) as Hb.
  rewrite Hm in Hb. destruct (ReconnectPolicy.next_delay _ _ _); [|done].
  destruct (instant_add _ _); [|done]. intros [= <-]. right. by eexists.
Qed.

Lemma turn_persists ctx env w a b :
  is_Some (max_delay (RelayOptions.reconnect_policy (ctx_options ctx))) →
  actor_ok ctx a → enabled (now env) a w = true → steers w = false → persists a →
  turn ctx env w a = Running b → persists b.
Proof.
  intros Hm Ha Hen Hs Hp.
  assert (∀ r, (∀ c, r = Ok c → persists c) → after_wakeup env r = Running b → persists b) as Haw.
  { intros [c|c] Hr; simpl; [|done]. intros [= <-]. apply persists_expire. by apply Hr. }
  destruct w as [[cmd|]|id|frame| |].
  - destruct (turn_command ctx env cmd a) as [-> | ->]; [done|]. apply Haw. intros c Hc.
    eapply persists_link; [by eapply command_link|done].
  - done.
  - apply Haw. intros c [= <-]. eapply persists_link; [|exact Hp]. unfold handle_drop_subscription.
    destruct (subscriptions (state a) !! id); [|done]. simpl. by destruct (wire (state a)).
  - cbn [turn]. destruct (match frame with Some f => _ | None => _ end) as [out c] eqn:E.
    destruct out; apply Haw.
    + intros d [= <-]. destruct frame as [f|]; [|done]. eapply persists_link; [by eapply frame_link|done].
    + intros d. by apply persists_schedule.
  - cbn [turn enabled] in *.
    assert (is_Some (reconnect_deadline a)) as Hd by (destruct (reconnect_deadline a); [by eexists|done]).
    destruct (run_reconnect_ok ctx env a Ha Hd) as (Hb & Hst & _).
    set (c := run_reconnect ctx env (set_deadline a None)) in *. clearbody c.
    destruct (negb (is_connected (state c)) && negb _) eqn:E; apply Haw; [intros d; by apply persists_schedule|].
    intros d [= <-]. left. destruct (connect_outcome env) as [[socket|e]|]; [tauto|exfalso..];
      destruct Hst as (Hs' & Hw & _); rewrite Hs' in E; unfold is_connected in E; by rewrite Hw in E.
  - apply Haw. by intros c [= <-].
Qed.

Lemma run_persists ctx ws a b :
  is_Some (max_delay (RelayOptions.reconnect_policy (ctx_options ctx))) →
  actor_ok ctx a → Forall (λ p, steers p.2 = false) ws → persists a → run ctx ws a = Running b → persists b.
Proof.
  intros Hm. revert a. induction ws as [|[env w] ws IH]; intros a Ha Hws Hp; simpl; [by intros [= <-]|].
  apply Forall_cons in Hws as [Hw Hws]. destruct (enabled (now env) a w) eqn:E; [|by apply IH].
  destruct (turn ctx env w a) as [c|c|c] eqn:Et; [|done..].
  apply IH; [by eapply turn_ok|done|by eapply turn_persists].
Qed.

(** A socket that takes every frame gets the request of every subscription that
    is to be sent again. *)
Definition requests (subs : list (SubscriptionId * SubscriptionEntry)) : list WireMessage :=
  omap (λ p, if skip_reissue p.2 then None
             else Some (Text (json_to_string (ClientMessage.serialize (ClientMessage.Req p.1 (filters p.2)))))) subs.

Lemma reissue_written s subs :
  (∀ n, fails s n = None) → written (reissue s subs) = written s ++ requests subs.
Proof.
  revert s. induction subs as [|[id e] subs IH]; intros s Hs; cbn [reissue foldl requests omap]; [by rewrite app_nil_r|].
  simpl. destruct (skip_reissue e); [by apply IH|].
  change (written (reissue (send_req s id (filters e)).2 subs) =
    written s ++ Text (json_to_string (ClientMessage.serialize (ClientMessage.Req id (filters e)))) :: requests subs).
  unfold send_req, send_msg, encode, sink_send. rewrite Hs. cbn [snd]. rewrite IH by done. simpl.
  by rewrite <-app_assoc.
Qed.
End reconnect.

(** *** Answers *)

Section answers.
Context `{FasterHex, Secp256k1, SerdeJson, SigSerde, JsonText}.
Implicit Types (ctx : StaticCtx) (env : Env) (a : Actor).

Lemma quick_answer ctx env a cmd r :
  (∀ e o r', cmd ≠ Publish e o r') → command_reply cmd = [r] →
  r ∈ answered (log (either (handle_command ctx env a cmd))).
Proof.
  intros Hc Hr. destruct (quiet_command ctx env a cmd Hc) as (b & Hb & Hq).
  destruct (handle_command_accounts ctx env a cmd) as [_ Hk _]. rewrite Hb in *. simpl in *. rewrite Hr in Hk.
  unfold replies_held, waiting in Hk. rewrite (quiet_pending _ _ Hq), app_assoc in Hk.
  apply Permutation_app_inv_r in Hk. rewrite Hk. left.
Qed.

Lemma publish_answer ctx env a e o r :
  r ∈ answered (log (either (handle_publish ctx env a e o r)))
  ∨ ∃ b, handle_publish ctx env a e o r = Ok b
    ∧ pending_publishes (state b) !! Event.id e =
        Some (mkPending r (now env + default (RelayOptions.publish_timeout (ctx_options ctx)) (timeout o))
                (default (RelayOptions.publish_timeout (ctx_options ctx)) (timeout o))).
Proof.
  unfold handle_publish. destruct (negb _); [left; apply answered_snoc; by right|].
  destruct (N.leb _ _); [left; apply answered_snoc; by right|].
  destruct (match wire (state a) with Some socket => _ | None => _ end) as [[] b];
    [|left; apply answered_snoc; by right].
  unfold instant_add. destruct (N.leb _ _); [|left; apply answered_snoc; by right].
  right. eexists. split; [done|]. simpl.
  destruct (pending_publishes (state b) !! Event.id e); simpl; by rewrite lookup_insert_eq.
Qed.

Lemma timer_armed a id p at_ :
  pending_publishes (state a) !! id = Some p → (deadline p <= at_)%N → enabled at_ a PublishTimer = true.
Proof.
  intros Hp Hd. destruct (earliest_deadline a id p Hp) as (d & Hd' & Hle). simpl. rewrite Hd'. simpl.
  apply N.leb_le. lia.
Qed.
End answers.
