(* ===== verification/ClientSamples.v ===== *)
(** * Concrete inputs for the client

    A text form of JSON values that reads back (the binary digits of the value's
    number), and a client over it. *)

From Stdlib Require Import Ascii NArith Lia.
From S2P Require Import Prelude Encoding Text Ids Tags Event Filter FilterWire Storage Samples.
From S2P Require Import Nips Message HttpAuth RelaySamples Client.

(** ** Numbering JSON values *)

Definition leaf : Type := (bool + N) + (string + string).

Fixpoint json_tree (v : Json) : gen_tree leaf :=
  match v with
  | JNull => GenNode 0 []
  | JBool b => GenLeaf (inl (inl b))
  | JNum n => GenLeaf (inl (inr n))
  | JNumOther t => GenLeaf (inr (inl t))
  | JStr s => GenLeaf (inr (inr s))
  | JArr vs => GenNode 1 (json_tree <$> vs)
  | JObj es => GenNode 2 ((λ p, GenNode 3 [GenLeaf (inr (inr p.1)); json_tree p.2]) <$> es)
  end.

Fixpoint tree_json (t : gen_tree leaf) : Json :=
  match t with
  | GenLeaf (inl (inl b)) => JBool b
  | GenLeaf (inl (inr n)) => JNum n
  | GenLeaf (inr (inl t)) => JNumOther t
  | GenLeaf (inr (inr s)) => JStr s
  | GenNode 1 ts => JArr (tree_json <$> ts)
  | GenNode 2 ts =>
      JObj ((λ t, match t with
                  | GenNode 3 [GenLeaf (inr (inr k)); v] => (k, tree_json v)
                  | _ => (EmptyString, JNull)
                  end) <$> ts)
  | GenNode _ _ => JNull
  end.

Lemma tree_json_tree : ∀ v, tree_json (json_tree v) = v.
Proof.
  fix IH 1. intros [|b|n|t|s|vs|es]; simpl; try done.
  - f_equal. induction vs as [|v vs IHv]; simpl; [done|]. f_equal; [apply IH|exact IHv].
  - f_equal. induction es as [|[k v] es IHe]; simpl; [done|]. f_equal; [by rewrite IH|exact IHe].
Qed.

#[global] Instance json_countable_eq : EqDecision Json.
Proof.
  intros v w. destruct (decide (json_tree v = json_tree w)) as [E|E]; [left|right; congruence].
  by rewrite <-(tree_json_tree v), E, tree_json_tree.
Defined.
#[global] Instance json_countable : Countable Json := inj_countable' json_tree tree_json tree_json_tree.

(** ** Binary digits *)

Fixpoint digits (p : positive) : string :=
  match p with
  | xH => EmptyString
  | xO p => String "0" (digits p)
  | xI p => String "1" (digits p)
  end.
Fixpoint read_digits (s : string) : option positive :=
  match s with
  | EmptyString => Some xH
  | String c s =>
      if Ascii.eqb c "0" then xO <$> read_digits s
      else if Ascii.eqb c "1" then xI <$> read_digits s else None
  end.
Lemma read_digits_digits p : read_digits (digits p) = Some p.
Proof. induction p as [p IH|p IH|]; simpl; [by rewrite IH..|done]. Qed.

(** ** The crates *)

#[global] Instance client_serde : SerdeJson | 0 := {|
  de_u16 := bounded Dec.u16_max;
  de_u64 := bounded Dec.u64_max;
  de_str v := match v with JStr s => Some s | _ => None end;
  de_seq v := match v with JArr l => Some l | _ => None end;
  de_map v := match v with JObj l => Some l | _ => None end;
  de_bool v := match v with JBool b => Some b | _ => None end;
  json_to_string v := digits (countable.encode v);
|}.
#[global] Instance client_serde_laws : SerdeJsonLaws (H := client_serde) | 0.
Proof. split; try reflexivity; intros *; (apply bounded_num || apply bounded_bound). Qed.

#[global] Instance client_text : JsonText := {|
  json_from_slice b :=
    match read_digits (String.string_of_list_byte b) ≫= countable.decode with Some v => Ok v | None => Err "expected value" end;
  de_error_text _ := "malformed";
|}.

Lemma client_text_reads v : json_from_slice (as_bytes (json_to_string v)) = Ok v.
Proof.
  simpl. unfold as_bytes. rewrite String.string_of_list_byte_of_string, read_digits_digits. simpl.
  by rewrite decode_encode.
Qed.

#[global] Instance client_reads `{FasterHex, Secp256k1} : JsonReads.
Proof. split; intros m _; apply client_text_reads. Qed.
