(* ===== verification/ClientTheorems.v ===== *)
(** * The client's actor: theorems

    Properties of the single-relay client ([Client]): its invariant, the fate of
    every sender it is handed, the time limit of a publish, the routing of
    messages, reconnection, and where it loses track of a subscription. *)

From Stdlib Require Import NArith Lia.
From S2P Require Import Prelude Encoding Text Ids Tags Event Filter FilterWire Storage Samples.
From S2P Require Import Nips Message HttpAuth RelaySamples Client ClientProofs ClientSamples.

Section theorems.
Context `{FasterHex, Secp256k1, SerdeJson, SigSerde, JsonText}.
Implicit Types (ctx : StaticCtx) (env : Env) (a b : Actor).

(** C6: Between two turns of its loop the client is in order: it holds both
    halves of a socket exactly when its status says connected; it is neither
    connecting nor terminated; a reconnect is scheduled only while it is
    disconnected; the attempts are counted from the last connection; there are at most as many
    subscriptions and waiting publishes as the limits allow.  It ends in the
    terminated state, holding nothing, and it can panic only where a deadline
    lies beyond the last instant.  (It also never counts a byte sent, and it is
    never terminated by its policy.) *)
Theorem client_invariant ctx ws :
  outcome_ok ctx (run ctx ws actor_start)
  ∧ (Forall (λ p, in_range ctx p.1 p.2) ws → ∀ b, run ctx ws actor_start ≠ Panicked b).
Proof.
  split; [apply actor_run_ok, actor_start_ok|]. generalize actor_start. intros a. revert a.
  induction ws as [|[env w] ws IH]; intros a Hws b; simpl; [done|].
  apply Forall_cons in Hws as [Hw Hws]. destruct (enabled (now env) a w); [|by apply IH].
  destruct (turn ctx env w a) as [c|c|c] eqn:E; [by apply IH|done|]. by destruct (turn_no_panic ctx env w a c).
Qed.

(** C7: No sender is lost and none is used twice.  After any run, the replies that
    were answered or dropped and those of the waiting publishes are together the
    replies of the commands taken, and the ended streams and those of the open
    subscriptions are together the streams handed in; when the loop is over none
    is held any more. *)
Theorem senders_conserved ctx ws :
  let o := run ctx ws actor_start in let b := outcome_actor o in
  let taken := snd <$> handled ctx ws actor_start in
  answered (log b) ++ waiting (state b) ≡ₚ taken ≫= wakeup_replies
  ∧ ended (log b) ++ registered (state b) ≡ₚ taken ≫= wakeup_sinks
  ∧ ((∀ c, o ≠ Running c) → waiting (state b) = [] ∧ registered (state b) = []).
Proof.
  intros o b taken. destruct (run_accounts ctx ws actor_start) as [_ Hr Hs].
  assert (∀ A (f : Wakeup → list A), mjoin (f ∘ snd <$> reverse (handled ctx ws actor_start)) ≡ₚ taken ≫= f) as Hj.
  { intros A f. subst taken. clear. induction (handled ctx ws actor_start) as [|[e w] l IH]; [done|].
    rewrite reverse_cons, fmap_app, join_app, IH. simpl. rewrite app_nil_r. apply Permutation_app_comm. }
  destruct held_none as [Hw Hg].
  assert (replies_held actor_start = [] ∧ sinks_held actor_start = []) as [Hr0 Hs0]
    by (split; [exact Hw|exact Hg]).
  rewrite Hj, Hr0, app_nil_r in Hr. rewrite Hj, Hs0, app_nil_r in Hs. split_and!; [exact Hr|exact Hs|].
  intros Hov. pose proof (actor_run_ok ctx ws actor_start (actor_start_ok ctx)) as Hok. fold o in Hok. subst b.
  destruct o as [c|c|c]; simpl in *; [by destruct (Hov c)| |]; [destruct Hok as [_ ->]|rewrite Hok]; done.
Qed.

(** C8: Every command is answered.  All but a publish are answered within their own
    turn.  A publish is answered in its turn, or waits until its deadline and no
    longer: from then on the loop's timer is due, and once a turn has ended at
    the deadline or later the caller has its answer, whatever else happened. *)
Theorem commands_answered ctx env a cmd r :
  command_reply cmd = [r] →
  let o := turn ctx env (RecvCommand (Some cmd)) a in let b := outcome_actor o in
  r ∈ answered (log b)
  ∨ ∃ e opts p, cmd = Publish e opts r ∧ o = Running b ∧ pending_publishes (state b) !! Event.id e = Some p
      ∧ reply p = r
      ∧ deadline p = (now env + default (RelayOptions.publish_timeout (ctx_options ctx)) (timeout opts))%N
      ∧ (∀ at_, (deadline p <= at_)%N → enabled at_ b PublishTimer = true)
      ∧ (∀ ws env' w', (env', w') ∈ handled ctx ws b → (deadline p <= now_sweep env')%N →
           r ∈ answered (log (outcome_actor (run ctx ws b)))).
Proof.
  intros Hr o b.
  destruct (turn_command ctx env cmd a) as [-> | Ho]; [done|]. fold o in Ho.
  pose proof (log_grows _ _ _ _ (after_wakeup_accounts env (handle_command ctx env a cmd))) as Hl.
  rewrite <-Ho in Hl.
  assert ((∀ e opts r', cmd ≠ Publish e opts r') → r ∈ answered (log b)) as Hq
    by (intros Hc; eapply answered_mono; [exact Hl|by apply quick_answer]).
  destruct cmd as [| | | |e opts r'| | |]; try (left; by apply Hq). injection Hr as ->. simpl in *.
  destruct (publish_answer ctx env a e opts r) as [Hn|(c & Hc & Hp)];
    [left; by eapply answered_mono|]. rewrite Hc in Ho. simpl in Ho. subst b. rewrite Ho in *. simpl in *.
  destruct (expire_fate env c _ _ Hp) as [[Hb _]|Hb]; [right|by left].
  eexists e, opts, _. split_and!; [done|done|exact Hb|done|done|..].
  - intros at_. by eapply timer_armed.
  - intros ws env' w'. by apply (run_fate ctx ws _ _ _ _ _ Hb).
Qed.
(** C16: An item reaches the stream it is for and no other.  In one turn, a frame
    within the size limit that reads as a message for an open subscription puts
    that message's item on the subscription's stream, and nothing else puts
    anything on any stream; so in a run, every item of a stream came in a message
    that names the subscription the stream was opened for. *)
Theorem items_routed ctx :
  (∀ env w a, items (log (outcome_actor (turn ctx env w a))) =
     items (log a) ++ match message_of ctx w with Some m => routed a m | None => [] end)
  ∧ ∀ ws ch it, (ch, it) ∈ items (log (outcome_actor (run ctx ws actor_start))) →
      ∃ id w w' m, w ∈ snd <$> handled ctx ws actor_start ∧ (id, ch) ∈ opened_by w
        ∧ w' ∈ snd <$> handled ctx ws actor_start ∧ message_of ctx w' = Some m ∧ item_of m = Some (id, it).
Proof.
  split; [intros; apply turn_items|]. intros ws ch it Hin.
  destruct (run_items ctx ws actor_start eq_refl eq_refl ch it Hin) as (id & e & w & e' & w' & m & Hw & Ho & Hw' & Hm & Hi).
  exists id, w, w', m. split_and!; try done; apply list_elem_of_fmap; [by exists (e, w)|by exists (e', w')].
Qed.

(** When the reconnect timer is due, one attempt is made.  If it succeeds on a
    socket that takes every frame, the client is connected, its attempts are
    counted from zero, and the new socket has been sent the request of every
    subscription but the reconciliation sessions.  If it fails, the attempt is
    counted, nothing else is lost, and the next one is scheduled within the
    policy's longest delay. *)
Theorem reconnect_attempted ctx env a :
  actor_ok ctx a → enabled (now env) a ReconnectTimer = true → in_range ctx env ReconnectTimer →
  ∃ b, turn ctx env ReconnectTimer a = Running b
    ∧ subscriptions (state b) = subscriptions (state a)
    ∧ match connect_outcome env with
      | Some (Ok socket) =>
          status b = RelayStatus.Connected ∧ reconnect_attempts (state b) = 0%N ∧ reconnect_deadline b = None
          ∧ ((∀ n, fails socket n = None) → ∃ s, wire (state b) = Some s
               ∧ written s = written socket ++ requests (map_to_list (subscriptions (state a))))
      | _ =>
          status b = RelayStatus.Disconnected
          ∧ reconnect_attempts (state b) = saturating_add_u32 (reconnect_attempts (state a)) 1
          ∧ match reconnect_deadline b, max_delay (RelayOptions.reconnect_policy (ctx_options ctx)) with
            | Some d, Some m => (now env <= d <= now env + m)%N
            | None, None => True
            | _, _ => False
            end
      end.
Proof.
  intros Ha Hen [Hr _]. cbn [turn enabled] in *.
  assert (is_Some (reconnect_deadline a)) as Hd by (destruct (reconnect_deadline a); [by eexists|done]).
  destruct (run_reconnect_ok ctx env a Ha Hd) as (_ & Hst & Hd0).
  set (c := run_reconnect ctx env (set_deadline a None)) in *. clearbody c. unfold is_connected.
  destruct (connect_outcome env) as [[socket|e]|].
  - destruct Hst as [Hs Hst]. rewrite Hst. cbn [wire stream negb andb bool_decide]. eexists. split; [done|].
    destruct (expire_keeps env c) as (-> & _ & -> & -> & _ & -> & ->). rewrite Hst, Hs, Hd0. split_and!; try done.
    intros Hf. eexists. split; [done|]. by apply reissue_written.
  - destruct Hst as (Hs & Hw & Hsub & _ & Hat). rewrite Hs, Hw. cbn [negb andb].
    destruct (schedule_spec ctx env c Hr) as (d & -> & Hb). eexists. split; [done|].
    destruct (expire_keeps env (set_deadline c d)) as (-> & _ & -> & _ & _ & -> & ->). simpl. by rewrite Hs, Hat, Hsub.
  - destruct Hst as (Hs & Hw & Hsub & _ & Hat). rewrite Hs, Hw. cbn [negb andb].
    destruct (schedule_spec ctx env c Hr) as (d & -> & Hb). eexists. split; [done|].
    destruct (expire_keeps env (set_deadline c d)) as (-> & _ & -> & _ & _ & -> & ->). simpl. by rewrite Hs, Hat, Hsub.
Qed.

(** C17: A lost connection is not given up.  Unless the policy is never to
    reconnect, from the turn that sees the stream end on, as long as the caller
    does not itself connect or disconnect, the client is connected or has its
    next attempt scheduled, and that attempt is due when its time has come. *)
Theorem keeps_reconnecting ctx ws a env b ws' c :
  RelayOptions.reconnect_policy (ctx_options ctx) ≠ ReconnectPolicy.Never →
  run ctx ws actor_start = Running a → status a = RelayStatus.Connected →
  turn ctx env (RecvFrame None) a = Running b →
  Forall (λ p, steers p.2 = false) ws' → run ctx ws' b = Running c →
  status c = RelayStatus.Connected
  ∨ ∃ d, reconnect_deadline c = Some d ∧ ∀ at_, (d <= at_)%N → enabled at_ c ReconnectTimer = true.
Proof.
  intros Hp Hrun Hs Ht Hws Hrun'.
  assert (is_Some (max_delay (RelayOptions.reconnect_policy (ctx_options ctx)))) as Hm
    by (destruct (RelayOptions.reconnect_policy (ctx_options ctx)); [done|by eexists..]).
  pose proof (actor_run_ok ctx ws actor_start (actor_start_ok ctx)) as Ha. rewrite Hrun in Ha. simpl in Ha.
  assert (enabled (now env) a (RecvFrame None) = true) as Hen by by apply (ok_stream _ _ Ha).
  assert (persists c) as [Hc|[d Hd]]; [|by left|].
  - eapply run_persists; [exact Hm|by eapply turn_ok|exact Hws| |exact Hrun'].
    eapply (turn_persists ctx env (RecvFrame None) a); try done. by left.
  - right. exists d. split; [done|]. intros at_ Hle. simpl. rewrite Hd. simpl. by apply N.leb_le.
Qed.

End theorems.

(** ** Instances of the theorems *)

#[local] Existing Instance sample_secp.

(** The default options; a clock at [now], and a transport that answers [outcome]. *)
Definition client_ctx : StaticCtx := mkCtx RelayOptions.new.
Definition client_env (outcome : option (result Socket NetError)) (now : N) : Env := mkEnv outcome 5 7 now now.
Definition open_socket : Socket := fresh_socket (λ _, None).
(** A socket that takes no frame. *)
Definition dead_socket : Socket := fresh_socket (λ _, Some ConnectionClosed).

(** A client that has connected and subscribed; the connection is then lost. *)
Definition to_connected : list (Env * Wakeup) :=
  [(client_env (Some (Ok open_socket)) 100, RecvCommand (Some (Connect 1%N)));
   (client_env None 110, RecvCommand (Some (Subscribe sub1 [Filter.new] subscribe_options_new 1%N 2%N)))].
Definition connected_client : Actor := outcome_actor (run client_ctx to_connected actor_start).
Definition lost_client : Actor :=
  outcome_actor (turn client_ctx (client_env None 200) (RecvFrame None) connected_client).

Lemma connected_run : run client_ctx to_connected actor_start = Running connected_client.
Proof. reflexivity. Qed.
Lemma connected_ok : actor_ok client_ctx connected_client.
Proof. exact (actor_run_ok client_ctx to_connected actor_start (actor_start_ok client_ctx)). Qed.
Lemma lost_ok : actor_ok client_ctx lost_client.
Proof. apply (turn_ok client_ctx (client_env None 200) (RecvFrame None) connected_client); [apply connected_ok|reflexivity..]. Qed.

Lemma commands_answered_witness :
  (5%N ∈ answered (log (outcome_actor (run client_ctx
     [(client_env None 300, RecvCommand (Some (Publish note1 (mkPublishOptions (Some 50%N)) 5%N)));
      (client_env None 350, PublishTimer)] connected_client)))).
Proof.
  destruct (commands_answered client_ctx (client_env None 300) connected_client
    (Publish note1 (mkPublishOptions (Some 50%N)) 5%N) 5%N eq_refl)
    as [Hin|(e & opts & p & Hc & Ho & Hp & Hr & Hd & Hen & Hs)].
  - exfalso. revert Hin. apply (bool_decide_eq_false_1 (5%N ∈ answered _)). vm_compute. reflexivity.
  - injection Hc as <- <-. cbn [run].
    specialize (Hs [(client_env None 350, PublishTimer)] (client_env None 350) PublishTimer).
    set (b := outcome_actor (turn client_ctx (client_env None 300)
      (RecvCommand (Some (Publish note1 (mkPublishOptions (Some 50%N)) 5%N))) connected_client)) in *.
    rewrite Ho. cbn [enabled]. apply Hs; [|rewrite Hd; vm_compute; discriminate].
    cbn [handled]. rewrite (Hen (now (client_env None 350))) by (rewrite Hd; vm_compute; discriminate).
    destruct (turn client_ctx (client_env None 350) PublishTimer b); left.
Defined.

Lemma reconnect_attempted_witness :
  (∃ b s, turn client_ctx (client_env (Some (Ok open_socket)) 1000000000) ReconnectTimer lost_client = Running b
     ∧ status b = RelayStatus.Connected ∧ wire (state b) = Some s
     ∧ written s = [Text (json_to_string (ClientMessage.serialize (ClientMessage.Req sub1 [Filter.new])))])
  ∧ (∃ b d, turn client_ctx (client_env None 1000000000) ReconnectTimer lost_client = Running b
     ∧ reconnect_deadline b = Some d ∧ (1000000000 <= d <= 61000000000)%N).
Proof.
  assert (∀ o, in_range client_ctx (client_env o 1000000000) ReconnectTimer) as Hr.
  { intros o. split; [|exact I]. intros m [= <-]. vm_compute. discriminate. }
  split.
  - destruct (reconnect_attempted client_ctx (client_env (Some (Ok open_socket)) 1000000000) lost_client
      lost_ok eq_refl (Hr _)) as (b & Hb & _ & Hs & _ & _ & Hw).
    destruct (Hw (λ n, eq_refl)) as (s & Hs' & Hwr). exists b, s. split_and!; [exact Hb|exact Hs|exact Hs'|].
    rewrite Hwr. reflexivity.
  - destruct (reconnect_attempted client_ctx (client_env None 1000000000) lost_client
      lost_ok eq_refl (Hr _)) as (b & Hb & _ & _ & _ & Hd). cbn [max_delay client_ctx ctx_options] in Hd.
    destruct (reconnect_deadline b) as [d|] eqn:E; [|destruct Hd]. exists b, d. split_and!; [exact Hb|exact E|..];
      destruct Hd as [H1 H2]; [exact H1|exact H2].
Defined.

Lemma keeps_reconnecting_witness :
  ∃ c, run client_ctx [(client_env None 1000000000, ReconnectTimer); (client_env None 1000000001, RecvClose sub1)]
         lost_client = Running c
    ∧ (status c = RelayStatus.Connected ∨ is_Some (reconnect_deadline c)).
Proof.
  eexists. split; [vm_compute; reflexivity|].
  destruct (keeps_reconnecting client_ctx to_connected connected_client (client_env None 200) lost_client
    [(client_env None 1000000000, ReconnectTimer); (client_env None 1000000001, RecvClose sub1)]
    _ ltac:(discriminate) connected_run eq_refl eq_refl ltac:(repeat constructor) ltac:(vm_compute; reflexivity))
    as [Hc|(d & Hd & _)]; [left; exact Hc|right; eexists; exact Hd].
Defined.

(** A client whose socket takes no frame. *)
Definition dead_client : Actor :=
  outcome_actor (run client_ctx [(client_env (Some (Ok dead_socket)) 100, RecvCommand (Some (Connect 1%N)))] actor_start).

