(* ===== verification/EndToEnd.v ===== *)
(** * A client and a relay

    The client's actor ([Client]) and a connection of the relay ([Server]) put
    together: what the one writes on the socket the other reads, until the
    caller of [publish] has the verdict of the relay's storage. *)

From Stdlib Require Import Ascii NArith Lia.
From S2P Require Import Prelude Encoding Text Ids Tags Event Filter FilterWire Storage SpecProofs Samples.
From S2P Require Import Database Nips Message Sync Server ServerProofs RelaySamples.
From S2P Require Import Memory MemoryProofs Backends ServerTheorems HttpAuth Client ClientProofs ClientSamples ClientTheorems.

(** The frame that carries a relay's message. *)
Definition relay_text `{FasterHex, Secp256k1, SerdeJson, SigSerde} (m : RelayMessage) : string :=
  json_to_string (RelayMessage.serialize m).
Definition relay_frame `{FasterHex, Secp256k1, SerdeJson, SigSerde} (m : RelayMessage) : Wakeup :=
  RecvFrame (Some (Ok (Client.Text (relay_text m)))).

(** ** The first answer *)

Lemma await_once (r : Reply) res l rest :
  Replied r res ∈ l → answered l ≡ₚ r :: rest → r ∉ rest → await_reply r l = Some res.
Proof.
  intros Hin Hp Hn. revert rest Hp Hn. induction l as [|e l IH]; intros rest Hp Hn; [set_solver|].
  apply elem_of_cons in Hin as [<-|Hin]; [simpl; by rewrite decide_True|].
  assert (r ∈ answered l) as Hr.
  { apply list_elem_of_omap. exists (Replied r res). done. }
  assert (answered_by e ≠ Some r) as Hne.
  { intros He. unfold answered in Hp. simpl in Hp. rewrite He in Hp. apply Permutation_cons_inv in Hp.
    apply Hn. by rewrite <-Hp. }
  assert (∃ rest', answered l ≡ₚ r :: rest' ∧ r ∉ rest') as (rest' & Hp' & Hn').
  { unfold answered in Hp |- *. simpl in Hp. destruct (answered_by e) as [x|] eqn:Ex; [|by exists rest].
    assert (x ≠ r) as Hx by congruence.
    assert (x ∈ rest) as Hin'.
    { assert (x ∈ r :: rest) as Hxr by (rewrite <-Hp; left). set_solver. }
    apply elem_of_Permutation in Hin' as [rest' Hrest]. exists rest'. split; [|rewrite Hrest in Hn; set_solver].
    rewrite Hrest in Hp. rewrite (Permutation_swap x r) in Hp. by apply Permutation_cons_inv in Hp. }
  specialize (IH Hin rest' Hp' Hn').
  destruct e as [x y|x|x y|x|x]; simpl; try done; rewrite decide_False; try done; simpl in Hne; congruence.
Qed.

Section end_to_end.
Context {DB : Type} `{DatabaseContract DB}.
Context `{!FasterHexLaws, SerdeJson, !SerdeJsonLaws, SigSerde, !SigSerdeLaws, EventCrypto, UrlCrate,
  NegentropyCrate, JsonText, !JsonReads}.

(** One message of the relay within the size limit, read by the client. *)
Lemma client_reads_frame cctx env a m :
  RelayMessage.wire_ok m →
  (N.of_nat (String.length (relay_text m)) <= RelayLimits.max_message_bytes (ctx_limits cctx))%N →
  turn cctx env (relay_frame m) a =
    Running (expire_pending_publishes env (dispatch_relay_message
      (Client.set_stats a (count_received (stats a) (N.of_nat (String.length (relay_text m))))) m)).
Proof.
  intros Hm Hl. unfold relay_frame. cbn [turn]. unfold handle_frame, handle_text_frame.
  rewrite (proj2 (N.ltb_ge _ _) Hl). unfold relay_text. rewrite reads_relay by done. cbn [result_bind].
  rewrite relay_round by done. done.
Qed.

(** Frames bring no reply and no sink. *)
Lemma frames_take_nothing {A} (f : Wakeup → list A) cctx ws a :
  (∀ p, p ∈ ws → f p.2 = []) → mjoin (f ∘ snd <$> reverse (handled cctx ws a)) = [].
Proof.
  intros Hf. assert (∀ p, p ∈ reverse (handled cctx ws a) → f p.2 = []) as Hh.
  { intros p. rewrite elem_of_reverse. revert a. induction ws as [|[env w] ws IH]; intros a; simpl; [set_solver|].
    assert (∀ p, p ∈ ws → f p.2 = []) as Hws by set_solver.
    destruct (enabled (now env) a w); [|by apply IH].
    destruct (turn cctx env w a); rewrite elem_of_cons; (intros [->|Hp]; [apply Hf; left|]); [by eapply IH|set_solver..]. }
  induction (reverse (handled cctx ws a)) as [|p l IH]; simpl; [done|]. rewrite Hh by left. simpl.
  apply IH. intros q Hq. apply Hh. by right.
Qed.
Lemma zip_frames {A} (envs : list A) ms p : p ∈ zip envs (relay_frame <$> ms) → ∃ m, p.2 = relay_frame m.
Proof. intros Hp. destruct p as [e w]. apply elem_of_zip_r in Hp. apply list_elem_of_fmap in Hp as (m & -> & _). by exists m. Qed.

(** The client's half of a publish that goes out. *)
Lemma publish_written cctx env a e opts r socket :
  let limit := default (RelayOptions.publish_timeout (ctx_options cctx)) (timeout opts) in
  wire (state a) = Some socket → stream (state a) = true → fails socket (tries socket) = None →
  (N.of_nat (size (pending_publishes (state a))) < RelayLimits.max_pending_publishes (ctx_limits cctx))%N →
  (now env + limit <= instant_max)%N → (now_sweep env < now env + limit)%N →
  ∃ a1 s1, turn cctx env (RecvCommand (Some (Publish e opts r))) a = Running a1
    ∧ wire (state a1) = Some s1 ∧ stream (state a1) = true
    ∧ written s1 = written socket ++ [Client.Text (json_to_string (ClientMessage.serialize (ClientMessage.Event e)))]
    ∧ pending_publishes (state a1) !! Event.id e = Some (mkPending r (now env + limit) limit).
Proof.
  intros limit Hw Hst Hf Hsz Hr Hsw. cbn [turn handle_command]. unfold handle_publish, is_connected.
  rewrite Hw, Hst. cbn [negb andb bool_decide]. rewrite bool_decide_eq_true_2 by by eexists.
  cbn [negb andb]. rewrite (proj2 (N.leb_gt _ _) Hsz).
  unfold send_event, send_msg, Client.encode, sink_send. rewrite Hf. cbv zeta iota.
  unfold instant_add. fold limit. rewrite (proj2 (N.leb_le _ _) Hr). cbn [after_wakeup].
  eexists _, _. split; [reflexivity|].
  match goal with |- context [expire_pending_publishes env ?b] => set (c := b) end.
  destruct (expire_keeps env c) as (_ & _ & _ & -> & -> & _ & _).
  rewrite expire_pending. subst c. simpl.
  destruct (pending_publishes (state a) !! Event.id e); simpl; rewrite ?lookup_insert_eq; simpl;
    rewrite (proj2 (N.leb_gt _ _) Hsw), Hst; done.
Qed.

(** While the sweep comes before its deadline, only an [OK] for its event ends a
    waiting publish. *)
Lemma waiting_survives cctx env a m p id :
  RelayMessage.wire_ok m →
  (N.of_nat (String.length (relay_text m)) <= RelayLimits.max_message_bytes (ctx_limits cctx))%N →
  pending_publishes (state a) !! id = Some p → (now_sweep env < deadline p)%N → stream (state a) = true →
  match m with
  | RelayMessage.Auth _ => ∃ b, turn cctx env (relay_frame m) a = Running b
      ∧ pending_publishes (state b) !! id = Some p ∧ stream (state b) = true
  | RelayMessage.Ok id' ok msg => id' = id → ∃ b, turn cctx env (relay_frame m) a = Running b
      ∧ Replied (reply p) (if ok then Ok tt else Err (PublishRejected id msg)) ∈ log b
  | _ => True
  end.
Proof.
  intros Hm Hl Hp Hsw Hst. rewrite (client_reads_frame cctx env a m Hm Hl). destruct m; try done.
  - intros ->. eexists. split; [done|]. simpl. rewrite Hp.
    match goal with |- _ ∈ log (expire_pending_publishes env ?b) =>
      assert (log b `prefix_of` log (expire_pending_publishes env b)) as [l ->] by apply expire_accounts end.
    simpl. set_solver.
  - eexists. split; [done|]. match goal with |- context [expire_pending_publishes env ?b] => set (c := b) end.
    destruct (expire_keeps env c) as (_ & _ & _ & _ & -> & _ & _). split; [|done].
    rewrite expire_pending. subst c. simpl. rewrite Hp. simpl. by rewrite (proj2 (N.leb_gt _ _) Hsw).
Qed.

(** What the relay answers to an EVENT: challenges, then one verdict. *)
Definition answers (id : EventId) (chs : list string) (ok : bool) (msg : string) : list RelayMessage :=
  (RelayMessage.Auth <$> chs) ++ [RelayMessage.Ok id ok msg].

(** The client reads them before the publish expires. *)
Lemma verdict_read cctx a id p chs ok msg envs :
  pending_publishes (state a) !! id = Some p → stream (state a) = true →
  length envs = length (answers id chs ok msg) → Forall (λ env, (now_sweep env < deadline p)%N) envs →
  Forall (λ m, (N.of_nat (String.length (relay_text m))
                <= RelayLimits.max_message_bytes (ctx_limits cctx))%N) (answers id chs ok msg) →
  ∃ b, run cctx (zip envs (relay_frame <$> answers id chs ok msg)) a = Running b
    ∧ Replied (reply p) (if ok then Ok tt else Err (PublishRejected id msg)) ∈ log b.
Proof.
  unfold answers. revert a envs. induction chs as [|ch chs IH]; intros a [|env envs] Hp Hst Hlen Henvs Hms; try done;
    apply Forall_cons in Henvs as [He Henvs]; apply Forall_cons in Hms as [Hm Hms].
  - destruct envs; [|done].
    destruct (waiting_survives cctx env a (RelayMessage.Ok id ok msg) p id I Hm Hp He Hst eq_refl) as (b & Hb & Hl).
    exists b. split; [|done]. cbn [app fmap list_fmap zip_with run].
    change (enabled (now env) a (relay_frame (RelayMessage.Ok id ok msg))) with (stream (state a)). by rewrite Hst, Hb.
  - destruct (waiting_survives cctx env a (RelayMessage.Auth ch) p id I Hm Hp He Hst) as (b & Hb & Hpb & Hsb).
    destruct (IH b envs Hpb Hsb ltac:(by injection Hlen) Henvs Hms) as (c & Hrun & Hin).
    exists c. split; [|done]. cbn [app fmap list_fmap zip_with run].
    change (enabled (now env) a (relay_frame (RelayMessage.Auth ch))) with (stream (state a)). rewrite Hst, Hb. exact Hrun.
Qed.

(** An answered reply that is not held any more is answered for good. *)
Lemma answered_once a r b res :
  r ∉ replies_held a → accounts a [r] [] b → Replied r res ∈ log b → await_reply r (log b) = Some res.
Proof.
  intros Hfresh [_ Hheld _] Hin.
  assert (r ∈ answered (log b)) as Hr by (apply list_elem_of_omap; by eexists).
  apply elem_of_Permutation in Hr as [rest Hrest]. apply (await_once r res _ rest Hin Hrest).
  unfold replies_held at 1 in Hheld. rewrite Hrest in Hheld. simpl in Hheld.
  apply Permutation_cons_inv in Hheld. rewrite <-Hheld in Hfresh. set_solver.
Qed.

(** The relay's half. *)
Lemma relay_handles sctx senv (c : Conn DB) e o st nw :
  let c0 := set_rate c (check (rate c) (instant senv) (ClientMessage.Event e)).2 in
  EventJson.json_ok e → room c = None → save_clock senv = Ok nw → store_repr o (storage c) st → storable e →
  unresponsive sctx = false →
  authenticated (auth c) = true ∨ message_needs_auth (ClientMessage.Event e) (nip42_mode sctx) = false →
  (check (rate c) (instant senv) (ClientMessage.Event e)).1 = None →
  ∃ c1 chs ok msg,
    handle_inbound_frame sctx senv
      (Some (WsText (json_from_slice (as_bytes (json_to_string (ClientMessage.serialize (ClientMessage.Event e))))))) c
      = (Server.Continue, c1)
    ∧ sent c1 = sent c ++ (OutText <$> answers (Event.id e) chs ok msg)
    ∧ (ok = true ↔ cleared sctx senv c0 e ∧ accepted_outcome (Spec.save o st e nw).1)
    ∧ (cleared sctx senv c0 e → store_repr o (storage c1) (Spec.save o st e nw).2).
Proof.
  intros c0 Hj Hroom Hnow Hrepr Hstor Hun Hauth Hrate.
  destruct (handle_event_answer sctx senv c0 e o st nw Hroom Hnow Hrepr Hstor)
    as (fs & ok & msg & c1 & Hh & Hsent & Hfs & Hok & _ & _ & Hrepr' & _).
  assert (∃ chs, fs = OutText <$> (RelayMessage.Auth <$> chs)) as [chs ->].
  { destruct Hfs as [->|[ch ->]]; [by exists []|by exists [ch]]. }
  exists c1, chs, ok, msg. split_and!; [| |done|done].
  - unfold handle_inbound_frame. rewrite Hun, reads_client by exact Hj. cbn [result_bind].
    rewrite client_round by exact Hj. cbn [map_err]. unfold handle_message.
    assert (negb (authenticated (auth c)) && message_needs_auth (ClientMessage.Event e) (nip42_mode sctx) = false) as ->
      by (destruct Hauth as [-> | ->]; [done|by rewrite andb_false_r]).
    destruct (check (rate c) (instant senv) (ClientMessage.Event e)) as [v rl]. simpl in Hrate. subst v.
    cbn [dispatch]. subst c0. simpl in Hh. by rewrite Hh.
  - unfold answers. by rewrite Hsent, fmap_app.
Qed.

(** C4: A publish goes all the way.  Over an open connection to a relay that
    answers it, the event the caller hands to its client is the event the relay
    handles, and the relay's frames read back by the client before the deadline
    give the caller the verdict of the relay's storage: success exactly when the
    event passes the relay's gates and the abstract store accepts it (or it is
    ephemeral), and otherwise the reason in the relay's own [OK], which is the last
    frame it sent and the only one that is not a challenge. *)
Theorem publish_end_to_end cctx env a e opts r socket sctx senv (c : Conn DB) o st nw :
  let limit := default (RelayOptions.publish_timeout (ctx_options cctx)) (timeout opts) in
  let c0 := set_rate c (check (rate c) (instant senv) (ClientMessage.Event e)).2 in
  wire (state a) = Some socket → stream (state a) = true → fails socket (tries socket) = None →
  (N.of_nat (size (pending_publishes (state a))) < RelayLimits.max_pending_publishes (ctx_limits cctx))%N →
  (now env + limit <= instant_max)%N → (now_sweep env < now env + limit)%N → r ∉ replies_held a →
  EventJson.json_ok e → room c = None → save_clock senv = Ok nw → store_repr o (storage c) st → storable e →
  unresponsive sctx = false →
  authenticated (auth c) = true ∨ message_needs_auth (ClientMessage.Event e) (nip42_mode sctx) = false →
  (check (rate c) (instant senv) (ClientMessage.Event e)).1 = None →
  ∃ a1 s1 text c1 ms ok msg,
    turn cctx env (RecvCommand (Some (Publish e opts r))) a = Running a1
    ∧ wire (state a1) = Some s1 ∧ written s1 = written socket ++ [Client.Text text]
    ∧ handle_inbound_frame sctx senv (Some (WsText (json_from_slice (as_bytes text)))) c = (Server.Continue, c1)
    ∧ (∃ chs, ms = (RelayMessage.Auth <$> chs) ++ [RelayMessage.Ok (Event.id e) ok msg])
    ∧ sent c1 = sent c ++ (OutText <$> ms)
    ∧ (ok = true ↔ cleared sctx senv c0 e ∧ accepted_outcome (Spec.save o st e nw).1)
    ∧ (cleared sctx senv c0 e → store_repr o (storage c1) (Spec.save o st e nw).2)
    ∧ ∀ envs, length envs = length ms → Forall (λ env', (now_sweep env' < now env + limit)%N) envs →
        Forall (λ m, (N.of_nat (String.length (relay_text m))
                      <= RelayLimits.max_message_bytes (ctx_limits cctx))%N) ms →
        ∃ a2, run cctx (zip envs (relay_frame <$> ms)) a1 = Running a2
          ∧ await_reply r (log a2) =
              Some (if ok then Ok tt else Err (PublishRejected (Event.id e) msg)).
Proof.
  intros limit c0 Hw Hst Hf Hsz Hr Hsw Hfresh Hj Hroom Hnow Hrepr Hstor Hun Hauth Hrate.
  destruct (publish_written cctx env a e opts r socket Hw Hst Hf Hsz Hr Hsw) as (a1 & s1 & Ht & Hw1 & Hst1 & Hwr & Hp).
  destruct (relay_handles sctx senv c e o st nw Hj Hroom Hnow Hrepr Hstor Hun Hauth Hrate)
    as (c1 & chs & ok & msg & Hh & Hsent & Hok & Hrepr').
  exists a1, s1, (json_to_string (ClientMessage.serialize (ClientMessage.Event e))), c1,
    (answers (Event.id e) chs ok msg), ok, msg.
  split_and!; try done; [by exists chs|]. intros envs Hlen Henvs Hms.
  destruct (verdict_read cctx a1 (Event.id e) _ chs ok msg envs Hp Hst1 Hlen Henvs Hms) as (a2 & Hrun & Hin).
  exists a2. split; [done|]. apply (answered_once a r a2); [done| |done].
  pose proof (turn_accounts cctx env (RecvCommand (Some (Publish e opts r))) a) as Hacc. rewrite Ht in Hacc.
  eapply accounts_r; [exact Hacc|].
  pose proof (run_accounts cctx (zip envs (relay_frame <$> answers (Event.id e) chs ok msg)) a1) as Hac.
  rewrite Hrun in Hac. rewrite !frames_take_nothing in Hac; [exact Hac|..];
    intros p Hp'; apply zip_frames in Hp' as (m & ->); done.
Qed.
End end_to_end.

(** ** Instance of the theorem *)

#[local] Existing Instance sample_secp.

(** A signed note, published by the connected client to an open relay over an
    empty store. *)
Lemma publish_end_to_end_witness :
  ∃ a1 ms, turn client_ctx (client_env None 300) (RecvCommand (Some (Publish note7 publish_options_new 9%N)))
             connected_client = Running a1
    ∧ ∀ envs, length envs = length ms → Forall (λ env', (now_sweep env' < 60000000300)%N) envs →
        Forall (λ m, (N.of_nat (String.length (relay_text m)) <= 5242880)%N) ms →
        ∃ a2, run client_ctx (zip envs (relay_frame <$> ms)) a1 = Running a2
          ∧ await_reply 9%N (log a2) = Some (Ok tt).
Proof.
  destruct (publish_end_to_end client_ctx (client_env None 300) connected_client note7 publish_options_new 9%N
    (default open_socket (wire (state connected_client))) open_ctx (sample_env 1000) open_conn
    (spec_options mem_options_new) Spec.empty 1000%N)
    as (a1 & s1 & text & c1 & ms & ok & msg & Ht & _ & _ & _ & _ & _ & Hok & _ & Hread).
  - vm_compute. reflexivity.
  - vm_compute. reflexivity.
  - vm_compute. reflexivity.
  - vm_compute. reflexivity.
  - vm_compute. discriminate.
  - vm_compute. reflexivity.
  - apply (bool_decide_eq_false_1 (9%N ∈ replies_held connected_client)). vm_compute. reflexivity.
  - split; [vm_compute; reflexivity|]. split; [apply (bool_decide_unpack _); vm_compute; exact I|vm_compute; reflexivity].
  - reflexivity.
  - reflexivity.
  - apply open_conn_repr.
  - exact I.
  - reflexivity.
  - right. reflexivity.
  - reflexivity.
  - exists a1, ms. split; [exact Ht|]. intros envs Hl He Hm.
    assert (ok = true) as Hok'.
    { apply Hok. split; [|left; vm_compute; reflexivity].
      split; [intros nw [= <-]; vm_compute; discriminate|done|vm_compute; discriminate|reflexivity]. }
    rewrite Hok' in Hread. exact (Hread envs Hl He Hm).
Defined.
