(* ===== verification/Pool.v ===== *)
(** * The relay pool

    [crates/nula-relay/src/pool]: the capabilities of a relay, the outcome of an
    operation over several relays, the pool's table of relays with its
    notifications, the fan-out operations, and the stream that merges the
    subscriptions of several relays without duplicates.

    A relay's handle is a name; what the pool asks of it is logged and the
    relay's answers are an argument ([Client] says what they are).  The critical
    sections of an operation are separate definitions where another task can run
    between them.  The [lru] crate is a parameter. *)

From Stdlib Require Import NArith Lia.
From S2P Require Import Prelude Encoding Text Ids Tags Event Filter FilterWire Storage Database.
From S2P Require Import Nips Message HttpAuth Client.

(** ** Capabilities ([capabilities.rs]) *)

Module RelayCapabilities.
Local Open Scope N_scope.

(** The bits of the flags. *)
Definition t := N.
Definition READ : t := 1.
Definition WRITE : t := 2.
Definition DISCOVERY : t := 4.
Definition GOSSIP : t := 8.
Definition all : t := 15.
Definition default : t := N.lor READ WRITE.

Definition from_bits_truncate (bits : N) : t := N.land bits all.
(** [intersects]. *)
Definition has_any (caps other : t) : bool := negb (N.land caps other =? 0).

(** The atomic cell: its bits, [load], [store], [add] and [remove]. *)
Definition load (bits : N) : t := from_bits_truncate bits.
Definition store (bits : N) (new : t) : t * N := (from_bits_truncate bits, new).
Definition add (bits : N) (more : t) : N := N.lor bits more.
Definition remove (bits : N) (gone : t) : N := N.land bits (N.lxor gone 255).

Lemma add_has_any bits more other :
  has_any (load (add bits more)) other = has_any (load bits) other || has_any (load more) other.
Proof.
  unfold has_any, load, from_bits_truncate, add. rewrite !N.land_lor_distr_l.
  destruct (N.eqb_spec (N.land (N.land bits all) other) 0) as [E1|E1];
    destruct (N.eqb_spec (N.land (N.land more all) other) 0) as [E2|E2];
    destruct (N.eqb_spec (N.lor (N.land (N.land bits all) other) (N.land (N.land more all) other)) 0) as [E|E];
    simpl; try done; try (apply N.lor_eq_0_iff in E; tauto).
  rewrite E1, E2 in E. done.
Qed.

End RelayCapabilities.

(** ** Outcomes ([output.rs]) *)

Section output.
Context `{UrlCrate}.

Record Output (A : Type) := mkOutput {
  value : A;
  success : gset RelayUrl;
  failed : gmap RelayUrl string;
}.
#[global] Arguments mkOutput {A} _ _ _.
#[global] Arguments value {A} _.
#[global] Arguments success {A} _.
#[global] Arguments failed {A} _.

Definition output_new {A} (v : A) : Output A := mkOutput v ∅ ∅.
Definition is_full_success {A} (o : Output A) : bool :=
  negb (bool_decide (success o = ∅)) && bool_decide (failed o = ∅).
Definition is_partial_success {A} (o : Output A) : bool :=
  negb (bool_decide (success o = ∅)) && negb (bool_decide (failed o = ∅)).
Definition is_total_failure {A} (o : Output A) : bool := bool_decide (success o = ∅).
Definition output_map {A B} (f : A → B) (o : Output A) : Output B := mkOutput (f (value o)) (success o) (failed o).

(** One relay's verdict. *)
Definition record {A} (o : Output A) (url : RelayUrl) (res : result unit string) : Output A :=
  match res with
  | Ok _ => mkOutput (value o) ({[url]} ∪ success o) (failed o)
  | Err e => mkOutput (value o) (success o) (<[url := e]> (failed o))
  end.
End output.

(** ** The pool ([inner.rs], [options.rs], [notification.rs], [error.rs]) *)

(** The handle of a relay's actor. *)
Definition Relay := N.

Section pool.
Context `{UrlCrate}.

Record RelayPoolOptions := mkPoolOptions {
  max_relays : option N;
  notification_channel_size : N;
  dedup_cache_size : N;
  auto_save_events : bool;
  relay_options : RelayOptions.t;
}.
Definition pool_options_new : RelayPoolOptions := mkPoolOptions None 4096 100000 true RelayOptions.new.

Inductive PoolNotification :=
| RelayAdded (url : RelayUrl)
| RelayRemoved (url : RelayUrl)
| PoolStatus (url : RelayUrl) (status : RelayStatus)
| PoolNotice (url : RelayUrl) (message : string)
| PoolShutdown.

Inductive PoolError :=
| PoolIsShutdown
| RelayNotFound (url : RelayUrl)
| TooManyRelays (limit : N)
| NoRelaysSpecified
| RelayError (e : ClientError)
| MissingDatabase.

(** What the pool asks of a relay's handle; [AskClose] is the drop of a
    subscription's handle. *)
Inductive Ask :=
| AskConnect
| AskDisconnect
| AskPublish (event : Event) (o : PublishOptions)
| AskSubscribe (id : SubscriptionId) (fs : list Filter) (o : SubscribeOptions)
| AskSend (message : ClientMessage)
| AskNeg (id : SubscriptionId) (f : Filter) (opening : string)
| AskClose (id : SubscriptionId).

(** [spawn] is the options the relay's actor was started with. *)
Record RelayEntry := mkRelayEntry { relay : Relay; capabilities : N; spawn : RelayOptions.t }.

(** The shared state: the table, the flag, what was broadcast, what was asked of
    the relays, and the next handle's name. *)
Record Pool := mkPool {
  relays : gmap RelayUrl RelayEntry;
  shutdown : bool;
  broadcasts : list PoolNotification;
  asked : list (Relay * Ask);
  next_relay : Relay;
  pool_options : RelayPoolOptions;
}.

Definition pool_new (o : RelayPoolOptions) : Pool := mkPool ∅ false [] [] 0%N o.
Definition set_relays (p : Pool) m : Pool :=
  mkPool m (shutdown p) (broadcasts p) (asked p) (next_relay p) (pool_options p).
Definition broadcast (p : Pool) (n : PoolNotification) : Pool :=
  mkPool (relays p) (shutdown p) (broadcasts p ++ [n]) (asked p) (next_relay p) (pool_options p).
Definition ask (p : Pool) (r : Relay) (a : Ask) : Pool :=
  mkPool (relays p) (shutdown p) (broadcasts p) (asked p ++ [(r, a)]) (next_relay p) (pool_options p).

Definition mark_shutdown (p : Pool) : Pool :=
  if shutdown p then p
  else broadcast (mkPool (relays p) true (broadcasts p) (asked p) (next_relay p) (pool_options p)) PoolShutdown.

(** The drain under the lock, and the teardown after it. *)
Definition drain_one (p : Pool) (x : RelayUrl * RelayEntry) : Pool :=
  broadcast (ask p (relay x.2) AskDisconnect) (RelayRemoved x.1).
Definition drain_relays (p : Pool) : Pool :=
  foldl drain_one (set_relays p ∅) (map_to_list (relays p)).

(** [RelayPool::shutdown], and the drop of the last handle. *)
Definition pool_shutdown (p : Pool) : Pool := drain_relays (mark_shutdown p).

(** The forwarder: it stops after the relay's own shutdown. *)
Definition translate (url : RelayUrl) (item : RelayNotification) : option PoolNotification :=
  match item with
  | Status s => Some (PoolStatus url s)
  | Notice m => Some (PoolNotice url m)
  | ShutdownNotice => Some (RelayRemoved url)
  | AuthChallenge _ => None
  end.
Fixpoint forwarder (url : RelayUrl) (items : list RelayNotification) : list PoolNotification :=
  match items with
  | [] => []
  | item :: items =>
      match translate url item with
      | None => forwarder url items
      | Some (RelayRemoved u) => [RelayRemoved u]
      | Some msg => msg :: forwarder url items
      end
  end.

(** ** Relays ([handle.rs]) *)

(** [add_relay_with_options] after the shutdown flag was read: the part under the
    lock, and the notification. *)
Definition add_relay_locked (p : Pool) (url : RelayUrl) (caps : RelayCapabilities.t) (o : RelayOptions.t) :
    result bool PoolError * Pool :=
  match relays p !! url with
  | Some entry =>
      (Ok false, set_relays p (<[url := mkRelayEntry (relay entry)
        (RelayCapabilities.add (capabilities entry) caps) (spawn entry)]> (relays p)))
  | None =>
      let full := match max_relays (pool_options p) with
                  | Some max => if (max <=? N.of_nat (size (relays p)))%N then Some max else None
                  | None => None
                  end in
      match full with
      | Some max => (Err (TooManyRelays max), p)
      | None =>
          let r := next_relay p in
          let p := mkPool (<[url := mkRelayEntry r caps o]> (relays p)) (shutdown p) (broadcasts p)
                     (asked p) (r + 1)%N (pool_options p) in
          (Ok true, broadcast p (RelayAdded url))
      end
  end.
Definition add_relay_with_options (p : Pool) (url : RelayUrl) (caps : RelayCapabilities.t) (o : RelayOptions.t) :
    result bool PoolError * Pool :=
  if shutdown p then (Err PoolIsShutdown, p) else add_relay_locked p url caps o.
Definition add_relay (p : Pool) (url : RelayUrl) (caps : RelayCapabilities.t) : result bool PoolError * Pool :=
  add_relay_with_options p url caps (relay_options (pool_options p)).

Definition remove_relay (p : Pool) (url : RelayUrl) : result unit PoolError * Pool :=
  match relays p !! url with
  | None => (Err (RelayNotFound url), p)
  | Some entry =>
      let p := set_relays p (delete url (relays p)) in
      (Ok tt, broadcast (ask p (relay entry) AskDisconnect) (RelayRemoved url))
  end.

Definition get_relay (p : Pool) (url : RelayUrl) : option Relay := relay <$> relays p !! url.
Definition snapshot (p : Pool) : gmap RelayUrl Relay := relay <$> relays p.
Definition relays_with_any_capability (p : Pool) (caps : RelayCapabilities.t) : gset RelayUrl :=
  dom (filter (λ x, RelayCapabilities.has_any (RelayCapabilities.load (capabilities x.2)) caps = true) (relays p)).

(** ** Fan-out

    [answer r]: what the relay's handle returns to this call, its error as text. *)

Section fan_out.
Variable answer : Relay → result unit string.

(** Ask every relay of the list and record its verdict; the futures complete in
    some order, the outcome does not depend on it. *)
Fixpoint fan_out {A} (what : Ask) (targets : list (RelayUrl * Relay)) (o : Output A) (p : Pool) : Output A * Pool :=
  match targets with
  | [] => (o, p)
  | (url, r) :: targets => fan_out what targets (record o url (answer r)) (ask p r what)
  end.

(** The relays of a set of urls; the first unknown one stops it. *)
Fixpoint resolve (snap : gmap RelayUrl Relay) (urls : list RelayUrl) : result (list (RelayUrl * Relay)) PoolError :=
  match urls with
  | [] => Ok []
  | url :: urls =>
      match snap !! url with
      | None => Err (RelayNotFound url)
      | Some r => let? rest := resolve snap urls in Ok ((url, r) :: rest)
      end
  end.

Definition try_connect_inner (p : Pool) : Output unit * Pool :=
  fan_out AskConnect (map_to_list (snapshot p)) (output_new tt) p.
Definition pool_disconnect (p : Pool) : Output unit * Pool :=
  fan_out AskDisconnect (map_to_list (snapshot p)) (output_new tt) p.
Definition pool_send_msg (p : Pool) (message : ClientMessage) : Output unit * Pool :=
  fan_out (AskSend message) (map_to_list (snapshot p)) (output_new tt) p.
Definition unsubscribe (p : Pool) (id : SubscriptionId) : Output unit :=
  mkOutput tt (dom (snapshot p)) ∅.

(** The futures are only polled once every url is known. *)
Definition send_event_to (p : Pool) (urls : gset RelayUrl) (event : Event) : result (Output EventId) PoolError * Pool :=
  if decide (urls = ∅) then (Err NoRelaysSpecified, p)
  else
    match resolve (snapshot p) (elements urls) with
    | Err e => (Err e, p)
    | Ok targets =>
        let '(o, p) := fan_out (AskPublish event publish_options_new) targets (output_new (Event.id event)) p in
        (Ok o, p)
    end.
Definition pool_send_event (p : Pool) (event : Event) : result (Output EventId) PoolError * Pool :=
  send_event_to p (relays_with_any_capability p RelayCapabilities.WRITE) event.

(** Every handle that was opened is dropped at the end. *)
Definition subscribe_to (p : Pool) (urls : gset RelayUrl) (id : SubscriptionId) (fs : list Filter)
    (o : SubscribeOptions) : result (Output SubscriptionId) PoolError * Pool :=
  if decide (urls = ∅) then (Err NoRelaysSpecified, p)
  else
    match resolve (snapshot p) (elements urls) with
    | Err e => (Err e, p)
    | Ok targets =>
        let '(out, p) := fan_out (AskSubscribe id fs o) targets (output_new id) p in
        let opened := filter (λ x, result_ok (answer x.2) = Some tt) targets in
        (Ok out, foldl (λ p x, ask p x.2 (AskClose id)) p opened)
    end.
Definition pool_subscribe (p : Pool) (id : SubscriptionId) (fs : list Filter) (o : SubscribeOptions) :
    result (Output SubscriptionId) PoolError * Pool :=
  subscribe_to p (relays_with_any_capability p RelayCapabilities.READ) id fs o.
End fan_out.

(** ** Merged streams ([stream.rs], [RelayPool::stream_events_to]) *)

(** Open one subscription per url, in order; [fresh n] is the identifier
    generated for the [n]-th, [answer] the relay's reply.  On an error the
    handles already opened are dropped, which closes them. *)
Fixpoint open_streams (answer : Relay → result unit ClientError) (fresh : nat → option SubscriptionId)
    (snap : gmap RelayUrl Relay) (fs : list Filter) (o : SubscribeOptions) (urls : list RelayUrl) (n : nat)
    (opened : list (RelayUrl * SubscriptionId * Relay)) (p : Pool) :
    result (list (RelayUrl * SubscriptionId * Relay)) PoolError * Pool :=
  let close_all p := foldl (λ p x, ask p x.2 (AskClose x.1.2)) p opened in
  match urls with
  | [] => (Ok opened, p)
  | url :: urls =>
      match snap !! url with
      | None => (Err (RelayNotFound url), close_all p)
      | Some r =>
          match fresh n with
          | None => (Err PoolIsShutdown, close_all p)
          | Some id =>
              let p := ask p r (AskSubscribe id fs o) in
              match answer r with
              | Err e => (Err (RelayError e), close_all p)
              | Ok _ => open_streams answer fresh snap fs o urls (S n) (opened ++ [(url, id, r)]) p
              end
          end
      end
  end.
Definition stream_events_to (answer : Relay → result unit ClientError) (fresh : nat → option SubscriptionId)
    (p : Pool) (urls : gset RelayUrl) (fs : list Filter) (o : SubscribeOptions) :
    result (list (RelayUrl * SubscriptionId * Relay)) PoolError * Pool :=
  if decide (urls = ∅) then (Err NoRelaysSpecified, p)
  else open_streams answer fresh (snapshot p) fs o (elements urls) 0 [] p.
End pool.

(** The [lru] crate: a cache of event ids; [lru_put] says whether the id was
    there. *)
Class LruCrate := {
  lru : Type;
  lru_new : N → lru;
  lru_put : lru → EventId → bool * lru;
}.
(** Its documented behaviour: the ids, the most recently used first, at most as
    many as the capacity; a put makes its id the most recent one and, when it is
    new to a full cache, evicts the last. *)
Class LruLaws `{LruCrate} := {
  lru_keys : lru → list EventId;
  lru_cap : lru → nat;
  lru_new_keys : ∀ n, lru_keys (lru_new n) = [] ∧ lru_cap (lru_new n) = N.to_nat n;
  lru_put_spec : ∀ c k,
    (lru_put c k).1 = bool_decide (k ∈ lru_keys c)
    ∧ lru_cap (lru_put c k).2 = lru_cap c
    ∧ lru_keys (lru_put c k).2 = take (lru_cap c) (k :: filter (λ x, x ≠ k) (lru_keys c));
}.

Section driver.
Context {DB : Type} `{NostrDatabase DB}.
Context `{UrlCrate, LruCrate}.

(** What the consumer receives. *)
Definition StreamOut : Type := RelayUrl * result Event ClientError.

(** The driver: the ids seen, the database events are saved to, and what was
    sent to the consumer. *)
Record Driver := mkDriver {
  seen : lru;
  database : option DB;
  delivered : list StreamOut;
}.

(** [tx.send(..).await]: [open] says whether the consumer still listens. *)
Definition tx_send (open : bool) (d : Driver) (x : StreamOut) : bool * Driver :=
  if open then (true, mkDriver (seen d) (database d) (delivered d ++ [x])) else (false, d).

(** [clock]: what the database's call to [Timestamp::now] gives.  Its answer is
    dropped. *)
Definition forward (clock : result Timestamp string) (open : bool) (d : Driver) (url : RelayUrl)
    (subscription_id : SubscriptionId) (item : SubscriptionItem) : bool * Driver :=
  match item with
  | ItemEvent event =>
      let '(known, seen) := lru_put (seen d) (Event.id event) in
      if known then (true, mkDriver seen (database d) (delivered d))
      else
        let db := (λ db, (store_save clock db event).2) <$> database d in
        tx_send open (mkDriver seen db (delivered d)) (url, Ok event)
  | ItemClosed message => tx_send open d (url, Err (SubscriptionClosed subscription_id message))
  | _ => (true, d)
  end.

(** The arms of the [select!]: the consumer is gone, the time is up, the streams
    yield an item or have all ended. *)
Inductive DriverWakeup :=
| ConsumerGone
| TimeUp
| NextItem (clock : result Timestamp string) (open : bool)
    (item : option (RelayUrl * SubscriptionId * SubscriptionItem)).

(** Whether the loop goes on, and the driver. *)
Definition driver_turn (d : Driver) (w : DriverWakeup) : bool * Driver :=
  match w with
  | ConsumerGone | TimeUp => (false, d)
  | NextItem _ _ None => (false, d)
  | NextItem clock open (Some (url, id, item)) => forward clock open d url id item
  end.
Fixpoint driver_run (d : Driver) (ws : list DriverWakeup) : Driver :=
  match ws with
  | [] => d
  | w :: ws =>
      match driver_turn d w with
      | (true, d) => driver_run d ws
      | (false, d) => d
      end
  end.
Definition driver_start (capacity : N) (db : option DB) : Driver := mkDriver (lru_new capacity) db [].
End driver.
