(* ===== verification/PoolTheorems.v ===== *)
(** * The relay pool: theorems

    The outcome of publishing to several relays, the merged stream without
    duplicates, and the pool's table up to and past its shutdown. *)

From Stdlib Require Import NArith Lia.
From S2P Require Import Prelude Encoding Text Ids Tags Event Filter FilterWire Storage Samples Database.
From S2P Require Import Nips Message HttpAuth RelaySamples Memory Backends Client Pool.

(** ** Fan-out *)

Section fan_out.
Context `{UrlCrate}.
Variable answer : Relay → result unit string.

(** The verdicts of [targets] added to an outcome. *)
Definition verdicts {A} (o o' : Output A) (targets : list (RelayUrl * Relay)) : Prop :=
  value o' = value o
  ∧ (∀ u, u ∈ success o' ↔ u ∈ success o ∨ ∃ r, (u, r) ∈ targets ∧ answer r = Ok tt)
  ∧ (∀ u e, failed o' !! u = Some e ↔
       (∃ r, (u, r) ∈ targets ∧ answer r = Err e) ∨ (failed o !! u = Some e ∧ u ∉ targets.*1)).

Lemma exists_cons {A B} (P : B → Prop) (v u : A) (r : B) ts :
  (∃ r', (v, r') ∈ (u, r) :: ts ∧ P r') ↔ (v = u ∧ P r) ∨ ∃ r', (v, r') ∈ ts ∧ P r'.
Proof.
  split.
  - intros (r' & [[= -> ->]|Hin]%elem_of_cons & HP); [by left|right; eauto].
  - intros [[-> HP]|(r' & Hin & HP)]; [exists r; split; [left|done]|exists r'; split; [by right|done]].
Qed.

Lemma fan_out_spec {A} what targets (o : Output A) p :
  NoDup targets.*1 → (∀ u, u ∈ targets.*1 → failed o !! u = None) →
  let '(o', p') := fan_out answer what targets o p in
  verdicts o o' targets ∧ asked p' = asked p ++ ((λ x, (x.2, what)) <$> targets)
  ∧ relays p' = relays p ∧ shutdown p' = shutdown p ∧ broadcasts p' = broadcasts p.
Proof.
  revert o p. induction targets as [|[u r] targets IH]; intros o p Hnd Hf; simpl.
  - split_and!; try done; [|by rewrite app_nil_r].
    split_and!; [done|intros u|intros u e]; setoid_rewrite elem_of_nil; naive_solver.
  - apply NoDup_cons in Hnd as [Hu Hnd].
    assert (failed o !! u = None) as Hfu by (apply Hf; left).
    assert (∀ v, v ∈ targets.*1 → failed (record o u (answer r)) !! v = None) as Hf'.
    { intros v Hv. assert (v ≠ u) by (intros ->; done).
      destruct (answer r); simpl; [|rewrite lookup_insert_ne by done]; apply Hf; by right. }
    specialize (IH (record o u (answer r)) (ask p r what) Hnd Hf').
    destruct (fan_out answer what targets (record o u (answer r)) (ask p r what)) as [o' p'].
    destruct IH as ((Hv & Hs & Hfl) & Ha & Hr & Hsh & Hb). split_and!; try done.
    + split_and!.
      * rewrite Hv. by destruct (answer r).
      * intros v. rewrite Hs, exists_cons. destruct (answer r) as [[]|e]; simpl;
          rewrite ?elem_of_union, ?elem_of_singleton; intuition congruence.
      * intros v e. rewrite Hfl, exists_cons, fmap_cons, not_elem_of_cons. simpl. destruct (decide (v = u)) as [->|Hvu].
        -- assert (¬ ∃ r', (u, r') ∈ targets ∧ answer r' = Err e) as Hno
             by (intros (r' & Hr' & _); apply Hu; apply list_elem_of_fmap; by exists (u, r')).
           destruct (answer r) as [[]|e']; simpl; rewrite ?lookup_insert_eq, ?Hfu; intuition congruence.
        -- destruct (answer r) as [[]|e']; simpl; rewrite ?lookup_insert_ne by done; intuition congruence.
    + rewrite Ha. simpl. by rewrite <-app_assoc.
Qed.

Lemma resolve_spec snap urls :
  match resolve snap urls with
  | Ok targets => targets.*1 = urls ∧ (∀ u r, (u, r) ∈ targets ↔ u ∈ urls ∧ snap !! u = Some r)
  | Err e => ∃ u, u ∈ urls ∧ snap !! u = None ∧ e = RelayNotFound u
  end.
Proof.
  induction urls as [|u urls IH]; simpl; [split; [done|set_solver]|].
  destruct (snap !! u) as [r|] eqn:E; [|exists u; set_solver].
  destruct (resolve snap urls) as [ts|e]; simpl.
  - destruct IH as [H1 H2]. split; [by f_equal|]. intros v r'. rewrite !elem_of_cons, H2. naive_solver.
  - destruct IH as (v & Hv & Hn & ->). exists v. set_solver.
Qed.

(** Publishing to a set of relays asks every one of them exactly once and sorts
    them by their answers: those that accepted, and those that refused with their
    error; no relay is missing or in both.  An empty set is an error, and one
    unknown relay is an error before anybody is asked. *)
Theorem publish_fans_out p urls event :
  match send_event_to answer p urls event with
  | (Ok o, p') =>
      urls ≠ ∅ ∧ value o = Event.id event
      ∧ success o ∪ dom (failed o) = urls ∧ success o ## dom (failed o)
      ∧ (∀ u r, u ∈ urls → get_relay p u = Some r → (u ∈ success o ↔ answer r = Ok tt))
      ∧ (∀ u r e, u ∈ urls → get_relay p u = Some r → (failed o !! u = Some e ↔ answer r = Err e))
      ∧ (∀ u, u ∈ urls → ∃ r, get_relay p u = Some r)
      ∧ asked p' = asked p ++ ((λ u, (default 0%N (get_relay p u), AskPublish event publish_options_new)) <$> elements urls)
      ∧ relays p' = relays p
  | (Err e, p') => p' = p ∧ (urls = ∅ ∧ e = NoRelaysSpecified ∨ ∃ u, u ∈ urls ∧ get_relay p u = None ∧ e = RelayNotFound u)
  end.
Proof.
  unfold send_event_to. case_decide as Hne; [by split; [|left]|].
  pose proof (resolve_spec (snapshot p) (elements urls)) as Hr.
  assert (∀ u, snapshot p !! u = get_relay p u) as Hsn by (intros u; unfold snapshot, get_relay; by rewrite lookup_fmap).
  destruct (resolve (snapshot p) (elements urls)) as [targets|e].
  - destruct Hr as [Hfst Hin]. pose proof (fan_out_spec (AskPublish event publish_options_new) targets
      (output_new (Event.id event)) p) as Hfo. rewrite Hfst in Hfo. specialize (Hfo (NoDup_elements urls)).
    destruct (fan_out answer _ targets _ p) as [o p'].
    destruct Hfo as ((Hv & Hs & Hf) & Ha & Hrel & _); [intros u _; apply lookup_empty|].
    assert (∀ u r, (u, r) ∈ targets ↔ u ∈ urls ∧ get_relay p u = Some r) as Hin'
      by (intros u r; by rewrite Hin, elem_of_elements, Hsn).
    assert (∀ u, u ∈ urls → ∃ r, get_relay p u = Some r) as Hall.
    { intros u Hu. assert (u ∈ targets.*1) as Ht by (rewrite Hfst; by apply elem_of_elements).
      apply list_elem_of_fmap in Ht as ([v r] & -> & Ht). exists r. by apply Hin'. }
    assert (∀ u, u ∈ success o ↔ ∃ r, u ∈ urls ∧ get_relay p u = Some r ∧ answer r = Ok tt) as Hs'
      by (intros u; rewrite Hs; setoid_rewrite Hin'; set_solver).
    assert (∀ u e, failed o !! u = Some e ↔ ∃ r, u ∈ urls ∧ get_relay p u = Some r ∧ answer r = Err e) as Hf'.
    { intros u e. rewrite Hf. setoid_rewrite Hin'. simpl. rewrite lookup_empty. naive_solver. }
    split_and!; [done|exact Hv|..].
    + apply set_eq. intros u. rewrite elem_of_union, elem_of_dom, Hs'. unfold is_Some. setoid_rewrite Hf'.
      split; [naive_solver|]. intros Hu. destruct (Hall u Hu) as [r Hr'].
      destruct (answer r) as [[]|e] eqn:Ea; [left|right]; naive_solver.
    + intros u Hu [e He]%elem_of_dom. apply Hs' in Hu. apply Hf' in He. naive_solver congruence.
    + intros u r Hu Hr'. rewrite Hs'. naive_solver.
    + intros u r e Hu Hr'. rewrite Hf'. naive_solver.
    + exact Hall.
    + rewrite Ha. f_equal. rewrite <-Hfst. rewrite <-list_fmap_compose. apply list_fmap_ext.
      intros i [u r] Hi. simpl. apply list_elem_of_lookup_2, Hin' in Hi as [_ ->]. done.
    + exact Hrel.
  - split; [done|]. right. destruct Hr as (u & Hu%elem_of_elements & Hn & ->). exists u. by rewrite <-Hsn.
Qed.
End fan_out.

(** ** The merged stream *)

(** The ids so far, the most recent first, each once. *)
Definition recent (ids : list EventId) : list EventId := foldl (λ acc k, k :: filter (λ x, x ≠ k) acc) [] ids.

Lemma recent_snoc ids k : recent (ids ++ [k]) = k :: filter (λ x, x ≠ k) (recent ids).
Proof. unfold recent. by rewrite foldl_app. Qed.

Lemma recent_NoDup ids : NoDup (recent ids).
Proof.
  induction ids as [|k ids IH] using rev_ind; [constructor|]. rewrite recent_snoc. constructor.
  - rewrite list_elem_of_filter. tauto.
  - by apply NoDup_filter.
Qed.

Lemma elem_of_recent ids x : x ∈ recent ids ↔ x ∈ ids.
Proof.
  induction ids as [|k ids IH] using rev_ind; [done|].
  rewrite recent_snoc, elem_of_cons, list_elem_of_filter, IH, elem_of_app, list_elem_of_singleton.
  destruct (decide (x = k)); tauto.
Qed.

Lemma length_recent ids : length (recent ids) = size (list_to_set ids : gset EventId).
Proof.
  rewrite <-(size_list_to_set (C := gset EventId)) by apply recent_NoDup. f_equal.
  apply set_eq. intros x. by rewrite !elem_of_list_to_set, elem_of_recent.
Qed.

(** A cache that keeps only so many ids answers as one that keeps them all. *)
Lemma take_filter_take (k : EventId) c acc :
  NoDup acc → take c (filter (λ x, x ≠ k) (take (S c) acc)) = take c (filter (λ x, x ≠ k) acc).
Proof.
  revert c. induction acc as [|x acc IH]; intros c Hnd; [done|]. apply NoDup_cons in Hnd as [Hx Hnd].
  cbn [take]. rewrite !filter_cons. case_decide as Hxk.
  - destruct c as [|c]; [done|]. cbn [take]. f_equal. by apply IH.
  - subst x.
    assert (∀ l : list EventId, k ∉ l → filter (λ x, x ≠ k) l = l) as Hid.
    { intros l Hl. induction l as [|y l IHl]; [done|]. apply not_elem_of_cons in Hl as [Hy Hl].
      rewrite filter_cons, decide_True by done. f_equal. by apply IHl. }
    rewrite !Hid; [by rewrite take_take, Nat.min_id|done|]. intros Hin. apply Hx.
    apply elem_of_take in Hin as (i & Hi & _). by eapply list_elem_of_lookup_2.
Qed.

Section merge.
Context {DB : Type} `{NostrDatabase DB}.
Context `{UrlCrate, LruCrate, !LruLaws}.

Definition arrival : Type := result Timestamp string * (RelayUrl * SubscriptionId * SubscriptionItem).
Definition arrival_id (x : arrival) : list EventId :=
  match x.2.2 with ItemEvent e => [Event.id e] | _ => [] end.

(** What is to be delivered, with the clock of its arrival: an event whose id is
    not one of the [cap] most recent ones, and the end of a subscription. *)
Fixpoint merged (cap : nat) (earlier : list EventId) (xs : list arrival) : list (result Timestamp string * StreamOut) :=
  match xs with
  | [] => []
  | (clock, (url, id, item)) :: xs =>
      match item with
      | ItemEvent e =>
          (if decide (Event.id e ∈ take cap (recent earlier)) then [] else [(clock, (url, Ok e))])
          ++ merged cap (earlier ++ [Event.id e]) xs
      | ItemClosed m => (clock, (url, Err (SubscriptionClosed id m))) :: merged cap earlier xs
      | _ => merged cap earlier xs
      end
  end.

Definition save_out (db : DB) (x : result Timestamp string * StreamOut) : DB :=
  match x.2.2 with Ok e => (store_save x.1 db e).2 | Err _ => db end.

Definition to_wakeup (x : arrival) : DriverWakeup := NextItem x.1 true (Some x.2).

Lemma driver_run_merged cap earlier xs (d : Driver (DB := DB)) :
  (0 < cap)%nat → lru_cap (seen d) = cap → lru_keys (seen d) = take cap (recent earlier) →
  let d' := driver_run d (to_wakeup <$> xs) in
  delivered d' = delivered d ++ (merged cap earlier xs).*2
  ∧ database d' = (λ db, foldl save_out db (merged cap earlier xs)) <$> database d.
Proof.
  intros Hpos. revert earlier d.
  induction xs as [|[clock [[url id] item]] xs IH]; intros earlier d Hc Hk; simpl.
  - rewrite app_nil_r. by destruct (database d).
  - destruct item as [e| |m|m|m]; try by apply (IH earlier d).
    + destruct (lru_put_spec (seen d) (Event.id e)) as (Hp & Hc' & Hk').
      destruct (lru_put (seen d) (Event.id e)) as [known c'] eqn:Eput. simpl in *. rewrite Hk in Hp, Hk'.
      rewrite Eput.
      assert (lru_keys c' = take cap (recent (earlier ++ [Event.id e]))) as Hkeys.
      { rewrite Hk', Hc, recent_snoc. destruct cap as [|cap']; [lia|]. cbn [take]. f_equal.
        apply take_filter_take, recent_NoDup. }
      rewrite Hc in Hc'. case_decide as Hin; [rewrite bool_decide_eq_true_2 in Hp by done|
        rewrite bool_decide_eq_false_2 in Hp by done]; subst known; simpl.
      * apply (IH (earlier ++ [Event.id e]) (mkDriver c' (database d) (delivered d)) Hc' Hkeys).
      * destruct (IH (earlier ++ [Event.id e])
          (mkDriver c' ((λ db, (store_save clock db e).2) <$> database d) (delivered d ++ [(url, Ok e)])) Hc' Hkeys)
          as [Hd Hdb].
        split; [etrans; [exact Hd|simpl; by rewrite <-app_assoc]|].
        etrans; [exact Hdb|]. simpl. by destruct (database d).
    + destruct (IH earlier (mkDriver (seen d) (database d)
        (delivered d ++ [(url, Err (SubscriptionClosed id m))])) Hc Hk) as [Hd Hdb].
      split; [etrans; [exact Hd|simpl; by rewrite <-app_assoc]|]. etrans; [exact Hdb|]. done.
Qed.

(** The ids of delivered events. *)
Definition out_ids (l : list (result Timestamp string * StreamOut)) : list EventId :=
  l ≫= λ x, match x.2.2 with Ok e => [Event.id e] | Err _ => [] end.

Lemma merged_once cap earlier xs :
  (size (list_to_set (earlier ++ (xs ≫= arrival_id)) : gset EventId) ≤ cap)%nat →
  NoDup (out_ids (merged cap earlier xs))
  ∧ (∀ x, x ∈ out_ids (merged cap earlier xs) ↔ (x ∉ earlier) ∧ x ∈ (xs ≫= arrival_id)).
Proof.
  revert earlier. induction xs as [|[clock [[url id] item]] xs IH]; intros earlier Hsz; simpl.
  - split; [constructor|]. intros x. set_solver.
  - destruct item as [e| |m|m|m]; try (by apply (IH earlier)).
    simpl in Hsz.
    assert (take cap (recent earlier) = recent earlier) as Htk.
    { apply take_ge. rewrite length_recent. etrans; [|exact Hsz]. apply subseteq_size. set_solver. }
    rewrite Htk. destruct (IH (earlier ++ [Event.id e])) as [Hnd Hin].
    { rewrite <-app_assoc. exact Hsz. }
    case_decide as Hrec; rewrite elem_of_recent in Hrec; simpl.
    + split; [done|]. intros x. rewrite Hin. set_solver.
    + split.
      * constructor; [|exact Hnd]. rewrite Hin. set_solver.
      * intros x. rewrite elem_of_cons. fold (out_ids (merged cap (earlier ++ [Event.id e]) xs)). rewrite Hin.
        destruct (decide (x = Event.id e)) as [->|]; set_solver.
Qed.

(** C22: The merged stream of several relays delivers, in the order of arrival,
    the events whose id is not among the [cap] ids used most recently, and the
    ends of subscriptions, and saves exactly the delivered events; so when no
    more than [cap] different events arrive, each is delivered and saved exactly
    once, however many relays send it. *)
Theorem stream_merges cap db (xs : list arrival) :
  (0 < cap)%N →
  let d := driver_run (driver_start cap (Some db)) (to_wakeup <$> xs) in
  let out := merged (N.to_nat cap) [] xs in
  delivered d = out.*2 ∧ database d = Some (foldl save_out db out)
  ∧ ((size (list_to_set (xs ≫= arrival_id) : gset EventId) ≤ N.to_nat cap)%nat →
     NoDup (out_ids out) ∧ ∀ x, x ∈ out_ids out ↔ x ∈ (xs ≫= arrival_id)).
Proof.
  intros Hc d out. destruct (lru_new_keys cap) as [Hk Hcap].
  destruct (driver_run_merged (N.to_nat cap) [] xs (driver_start cap (Some db))) as [Hd Hdb]; [lia|done|simpl; rewrite Hk; by destruct (N.to_nat cap)|].
  split_and!; [exact Hd|exact Hdb|]. intros Hsz. destruct (merged_once (N.to_nat cap) [] xs Hsz) as [Hnd Hin].
  split; [done|]. intros x. subst out. rewrite Hin. set_solver.
Qed.
End merge.

(** ** The table of relays *)

Section table.
Context `{UrlCrate}.

(** What tasks do to the pool, one critical section after the other.  [AddLocked]
    is the locked part of an addition whose task read the shutdown flag before. *)
Inductive PoolOp :=
| Add (url : RelayUrl) (caps : RelayCapabilities.t) (o : RelayOptions.t)
| AddLocked (url : RelayUrl) (caps : RelayCapabilities.t) (o : RelayOptions.t)
| Remove (url : RelayUrl)
| ShutDown.
Definition pool_step (p : Pool) (op : PoolOp) : Pool :=
  match op with
  | Add url caps o => (add_relay_with_options p url caps o).2
  | AddLocked url caps o => (add_relay_locked p url caps o).2
  | Remove url => (remove_relay p url).2
  | ShutDown => pool_shutdown p
  end.

Lemma drain_spec p :
  let p' := drain_relays p in
  relays p' = ∅ ∧ shutdown p' = shutdown p ∧ next_relay p' = next_relay p ∧ pool_options p' = pool_options p
  ∧ broadcasts p' = broadcasts p ++ (RelayRemoved <$> (map_to_list (relays p)).*1)
  ∧ asked p' = asked p ++ ((λ x, (relay x.2, AskDisconnect)) <$> map_to_list (relays p)).
Proof.
  unfold drain_relays. generalize (map_to_list (relays p)). intros l.
  assert (∀ q, let q' := foldl drain_one q l in relays q' = relays q ∧ shutdown q' = shutdown q
    ∧ next_relay q' = next_relay q ∧ pool_options q' = pool_options q
    ∧ broadcasts q' = broadcasts q ++ (RelayRemoved <$> l.*1)
    ∧ asked q' = asked q ++ ((λ x, (relay x.2, AskDisconnect)) <$> l)) as Hl.
  { induction l as [|x l IH]; intros q; simpl; [by rewrite !app_nil_r|].
    destruct (IH (drain_one q x)) as (H1 & H2 & H3 & H4 & H5 & H6). split_and!; try done.
    - etrans; [exact H5|]. simpl. by rewrite <-app_assoc.
    - etrans; [exact H6|]. simpl. by rewrite <-app_assoc. }
  destruct (Hl (set_relays p ∅)) as (H1 & H2 & H3 & H4 & H5 & H6). done.
Qed.

Lemma shutdown_spec p :
  let p' := pool_shutdown p in
  relays p' = ∅ ∧ shutdown p' = true ∧ next_relay p' = next_relay p ∧ pool_options p' = pool_options p
  ∧ broadcasts p' = broadcasts p ++ (if shutdown p then [] else [PoolShutdown])
      ++ (RelayRemoved <$> (map_to_list (relays p)).*1).
Proof.
  unfold pool_shutdown, mark_shutdown. destruct (shutdown p) eqn:E.
  - destruct (drain_spec p) as (-> & -> & -> & -> & -> & _). done.
  - destruct (drain_spec (broadcast (mkPool (relays p) true (broadcasts p) (asked p) (next_relay p) (pool_options p))
      PoolShutdown)) as (-> & -> & -> & -> & -> & _). simpl. by rewrite <-app_assoc.
Qed.

(** The table keeps to its limit and gives every relay a handle of its own. *)
Record table_ok (p : Pool) : Prop := {
  table_size : ∀ max, max_relays (pool_options p) = Some max → (N.of_nat (size (relays p)) <= max)%N;
  table_fresh : ∀ u e, relays p !! u = Some e → (relay e < next_relay p)%N;
  table_inj : ∀ u u' e e', relays p !! u = Some e → relays p !! u' = Some e' → relay e = relay e' → u = u';
}.

Lemma add_ok p url caps o : table_ok p → table_ok (add_relay_locked p url caps o).2.
Proof.
  intros [Hs Hf Hi]. unfold add_relay_locked. destruct (relays p !! url) as [entry|] eqn:E; simpl.
  - split; simpl.
    + intros max Hm. rewrite map_size_insert_Some by by eexists. by apply Hs.
    + intros u e [[<- <-]|[_ He]]%lookup_insert_Some; [exact (Hf url entry E)|by eapply Hf].
    + intros u u' e e' [[<- <-]|[_ He]]%lookup_insert_Some [[<- <-]|[_ He']]%lookup_insert_Some; simpl; eauto.
  - destruct (match max_relays (pool_options p) with Some max => _ | None => _ end) as [m|] eqn:Em; [done|].
    split; simpl.
    + intros max Hm. rewrite map_size_insert_None by done. rewrite Hm in Em.
      destruct (N.leb_spec max (N.of_nat (size (relays p)))); [done|lia].
    + intros u e [[<- <-]|[_ He]]%lookup_insert_Some; simpl; [lia|]. specialize (Hf u e He). lia.
    + intros u u' e e' [[<- <-]|[_ He]]%lookup_insert_Some [[<- <-]|[_ He']]%lookup_insert_Some; simpl; try done.
      * intros Heq. specialize (Hf u' e' He'). lia.
      * intros Heq. specialize (Hf u e He). lia.
      * eauto.
Qed.

Lemma step_ok p op : table_ok p → table_ok (pool_step p op).
Proof.
  intros Hp. destruct op as [url caps o|url caps o|url|]; simpl.
  - unfold add_relay_with_options. destruct (shutdown p); [done|by apply add_ok].
  - by apply add_ok.
  - unfold remove_relay. destruct (relays p !! url); [|done]. destruct Hp as [Hs Hf Hi]. split; simpl.
    + intros max Hm. specialize (Hs max Hm).
      assert (size (delete url (relays p)) ≤ size (relays p))%nat by apply map_subseteq_size, delete_subseteq. lia.
    + intros u e [_ He]%lookup_delete_Some. by eapply Hf.
    + intros u u' e e' [_ He]%lookup_delete_Some [_ He']%lookup_delete_Some. by eapply Hi.
  - destruct (shutdown_spec p) as (Hr & _ & Hn & Ho & _). split; rewrite ?Hr, ?Hn, ?Ho.
    + intros. rewrite map_size_empty. lia.
    + intros u e. by rewrite lookup_empty.
    + intros u u' e e'. by rewrite lookup_empty.
Qed.

Lemma step_options q op : pool_options (pool_step q op) = pool_options q.
Proof.
  assert (∀ url caps o, pool_options (add_relay_locked q url caps o).2 = pool_options q) as Ha.
  { intros url caps o. unfold add_relay_locked. destruct (relays q !! url); [done|]. cbv zeta.
    destruct (max_relays (pool_options q)); [|done]. by destruct (N.leb _ _). }
  destruct op as [url caps o|url caps o|url|]; simpl; [|apply Ha| |apply (shutdown_spec q)].
  - unfold add_relay_with_options. destruct (shutdown q); [done|apply Ha].
  - unfold remove_relay. by destruct (relays q !! url).
Qed.

Definition is_locked (op : PoolOp) : bool := match op with AddLocked _ _ _ => true | _ => false end.

Lemma step_down p op :
  is_locked op = false → (shutdown p = true → relays p = ∅) →
  shutdown (pool_step p op) = true → relays (pool_step p op) = ∅.
Proof.
  intros Hop Hp. destruct op as [url caps o| |url|]; simpl; try done.
  - unfold add_relay_with_options. destruct (shutdown p) eqn:E; simpl; [by intros _; apply Hp|].
    unfold add_relay_locked. destruct (relays p !! url); simpl; [by rewrite E|].
    destruct (match max_relays (pool_options p) with Some max => _ | None => _ end); simpl; by rewrite E.
  - unfold remove_relay. destruct (relays p !! url) as [entry|] eqn:E; [|done]. simpl.
    intros Hs. rewrite (Hp Hs), lookup_empty in E. done.
  - intros _. apply (shutdown_spec p).
Qed.

(** The pool never holds more relays than its limit, each with an actor of its
    own, and a pool that is shut down holds none, as long as no addition was
    under way; an addition that had read the flag before the shutdown still puts
    a live relay into the pool, which nothing will disconnect.  Also, the shutdown is
    announced before the removal of the relays it drains. *)
Theorem pool_table o ops :
  let p := foldl pool_step (pool_new o) ops in
  table_ok p
  ∧ (Forall (λ op, is_locked op = false) ops → shutdown p = true → relays p = ∅)
  ∧ (∀ url caps opts, max_relays o = None → shutdown p = true → relays p = ∅ →
       relays (pool_step p (AddLocked url caps opts)) !! url = Some (mkRelayEntry (next_relay p) caps opts)
       ∧ shutdown (pool_step p (AddLocked url caps opts)) = true)
  ∧ (shutdown p = false → broadcasts (pool_shutdown p) =
       broadcasts p ++ PoolShutdown :: (RelayRemoved <$> (map_to_list (relays p)).*1)).
Proof.
  intros p. assert (table_ok p ∧ pool_options p = o) as [Hok Hopt].
  { subst p. induction ops as [|op ops IH] using rev_ind; simpl.
    - split; [|done]. split; simpl; [intros; rewrite map_size_empty; lia|intros u e; by rewrite lookup_empty|].
      intros u u' e e'. by rewrite lookup_empty.
    - rewrite foldl_app. simpl. destruct IH as [H1 H2]. split; [by apply step_ok|]. by rewrite step_options. }
  split_and!; [done|..].
  - clear Hok Hopt. subst p. intros Hl. induction ops as [|op ops IH] using rev_ind; [done|].
    apply Forall_app in Hl as [Hl [Hop _]%Forall_cons]. rewrite foldl_app. simpl. apply step_down; [exact Hop|exact (IH Hl)].
  - intros url caps opts Hm Hs Hr. simpl. unfold add_relay_locked. rewrite Hr, lookup_empty, Hopt, Hm. simpl.
    by rewrite lookup_insert_eq.
  - intros Hs. destruct (shutdown_spec p) as (_ & _ & _ & _ & ->). by rewrite Hs.
Qed.
End table.

(** ** Instances of the theorems *)

#[local] Existing Instance sample_secp.

(** The cache as its list of ids. *)
#[local] Instance sample_lru : LruCrate := {|
  lru := nat * list EventId;
  lru_new n := (N.to_nat n, []);
  lru_put c k := (bool_decide (k ∈ c.2), (c.1, take c.1 (k :: filter (λ x, x ≠ k) c.2)));
|}.
#[local] Instance sample_lru_laws : LruLaws.
Proof. by refine {| lru_keys := snd; lru_cap := fst |}; [intros|intros [n l] k]. Defined.

Definition other_relay : RelayUrl := RelayUrl.mk (mkUrl Wss "other.example" eq_refl).

(** Two relays send the same two notes; a cache of one entry would let the first
    one through again. *)
Definition two_relays : list arrival :=
  [(Ok 1000%N, (sample_relay, sub1, ItemEvent note1)); (Ok 1000%N, (sample_relay, sub1, ItemEvent note7));
   (Ok 1001%N, (other_relay, sub2, ItemEvent note1)); (Ok 1001%N, (other_relay, sub2, ItemClosed "done"))].

Lemma stream_merges_witness :
  delivered (driver_run (driver_start 2 (Some (new mem_options_new))) (to_wakeup <$> two_relays)) =
    [(sample_relay, Ok note1); (sample_relay, Ok note7);
     (other_relay, Err (SubscriptionClosed sub2 "done"))]
  ∧ delivered (driver_run (driver_start 1 (Some (new mem_options_new))) (to_wakeup <$> two_relays)) =
    [(sample_relay, Ok note1); (sample_relay, Ok note7); (other_relay, Ok note1);
     (other_relay, Err (SubscriptionClosed sub2 "done"))].
Proof.
  destruct (stream_merges 2 (new mem_options_new) two_relays eq_refl) as (H2 & _).
  destruct (stream_merges 1 (new mem_options_new) two_relays eq_refl) as (H1 & _).
  rewrite H1, H2. split; vm_compute; reflexivity.
Defined.
