(* ===== verification/GiftWrap.v ===== *)
(** * Encrypted payloads, gift wraps and private messages

    Versioned encryption (NIP-44, [nips/nip44.rs]), the envelope built on it
    (NIP-59, [nips/nip59.rs]), and the private messages carried in it (NIP-17,
    [nips/nip17.rs]).  Curve, hash and cipher are a class; the operating system's
    entropy and the clock are arguments. *)

From Stdlib Require Import Ascii NArith Lia.
From S2P Require Import Prelude Encoding Text Ids Tags Event Filter FilterWire Nips Message HttpAuth Entities.

(** ** The crates *)

(** [secp256k1]: the point a secret key shares with the even point over an x-only
    key, as its two coordinates, and the key pair of a secret key; [hkdf], [hmac] and [chacha20]. *)
Class Nip44Crates `{EventCrypto} := {
  keypair : SecretKey → secret_key;
  shared_secret_point : secret_key → PublicKey → bytes32 * bytes32;
  hkdf_extract : list byte → list byte → bytes32;
  hkdf_expand : bytes32 → list byte → nat → list byte;
  apply_keystream : list byte → list byte → list byte → list byte;
  hmac_sha256 : list byte → list byte → bytes32;
  hmac_verify : list byte → list byte → list byte → bool;
}.

(** Both parties share the same first coordinate; expansion fills its buffer; the
    cipher is its own inverse and keeps the length; a tag verifies exactly when it
    is the tag. *)
Class Nip44Laws `{Nip44Crates} : Prop := {
  shared_x : ∀ a b, (shared_secret_point a (xonly_public_key b)).1 = (shared_secret_point b (xonly_public_key a)).1;
  length_expand : ∀ prk info n, length (hkdf_expand prk info n) = n;
  keystream_twice : ∀ k n b, apply_keystream k n (apply_keystream k n b) = b;
  length_keystream : ∀ k n b, length (apply_keystream k n b) = length b;
  verify_mac : ∀ k m tag, hmac_verify k m tag = true ↔ tag = b32_list (hmac_sha256 k m);
}.

(** [base64]: what the standard engine writes it reads back, four characters of
    its alphabet for every three bytes begun. *)
Class Base64Laws `{Base64} : Prop := {
  base64_reads : ∀ b, base64_decode (base64_encode b) = Ok b;
  base64_length : ∀ b, String.length (base64_encode b) = (4 * ((length b + 2) / 3))%nat;
  base64_alphabet : ∀ b, Dec.string_forallb
    (λ c, existsb (Ascii.eqb c) (String.list_ascii_of_string
       "ABCDEFGHIJKLMNOPQRSTUVWXYZabcdefghijklmnopqrstuvwxyz0123456789+/=")) (base64_encode b) = true;
}.

(** ** NIP-44 *)

Module Nip44.
Local Open Scope N_scope.

Definition VERSION : byte := x02.
Definition HKDF_SALT : list byte := as_bytes "nip44-v2".
Definition MIN_PLAINTEXT_BYTES : N := 1.
Definition MAX_PLAINTEXT_BYTES : N := 65535.
Definition NONCE_BYTES : nat := 32.
Definition HMAC_BYTES : nat := 32.
Definition MIN_PAYLOAD_BYTES : N := 99.
Definition MAX_PAYLOAD_BYTES : N := 65603.
Definition MIN_PAYLOAD_CHARS : N := 132.
Definition MAX_PAYLOAD_CHARS : N := 87472.
Definition MESSAGE_KEYS_BYTES : nat := 76.
Definition CHACHA_KEY_BYTES : nat := 32.
Definition CHACHA_NONCE_BYTES : nat := 12.
Definition MESSAGE_KEY_HMAC_OFFSET : nat := CHACHA_KEY_BYTES + CHACHA_NONCE_BYTES.

Inductive Nip44Error :=
| EmptyPlaintext
| PlaintextTooLong (len : N)
| PayloadTooShort (chars : N)
| PayloadTooLong (chars : N)
| DecodedTooShort (bytes : N)
| DecodedTooLong (bytes : N)
| UnsupportedVersion (version : byte)
| InvalidBase64 (e : string)
| InvalidMac
| InvalidPadding
| InvalidUtf8
| Rng (e : string).

(** *** Padding *)

Definition log2_floor (x : N) : N := if x =? 0 then 0 else N.log2 x.

Definition padded_length (len : N) : N :=
  if len <=? 32 then 32
  else
    let next_power := N.shiftl 1 (log2_floor (len - 1) + 1) in
    let chunk := if next_power <=? 256 then 32 else next_power / 8 in
    chunk * ((len - 1) / chunk + 1).

Definition pad (plaintext : list byte) : result (list byte) Nip44Error :=
  let len := N.of_nat (length plaintext) in
  if len <? MIN_PLAINTEXT_BYTES then Err EmptyPlaintext
  else if MAX_PLAINTEXT_BYTES <? len then Err (PlaintextTooLong len)
  else
    let padded_len := N.to_nat (padded_length len) in
    let prefix := BigEndian.to_be_bytes 2 len in
    Ok (resize (2 + padded_len) x00 (prefix ++ plaintext)).

Definition unpad (padded : list byte) : result (list byte) Nip44Error :=
  match padded with
  | b0 :: b1 :: rest =>
      let prefix := BigEndian.from_be_bytes [b0; b1] in
      if prefix <? MIN_PLAINTEXT_BYTES then Err InvalidPadding
      else if MAX_PLAINTEXT_BYTES <? prefix then Err InvalidPadding
      else if negb (N.of_nat (length padded) =? 2 + padded_length prefix) then Err InvalidPadding
      else if (length rest <? N.to_nat prefix)%nat then Err InvalidPadding
      else Ok (take (N.to_nat prefix) rest)
  | _ => Err InvalidPadding
  end.

Section nip44.
Context `{Nip44Crates, Base64}.

(** *** Keys *)

Record ConversationKey := mkConversationKey { as_byte_array : bytes32 }.

Definition derive (secret : secret_key) (peer_public : PublicKey) : ConversationKey :=
  mkConversationKey (hkdf_extract HKDF_SALT (b32_list (shared_secret_point secret peer_public).1)).

Record MessageKeys := mkMessageKeys { okm : list byte }.
Definition message_keys (ck : ConversationKey) (nonce : bytes32) : MessageKeys :=
  mkMessageKeys (hkdf_expand (as_byte_array ck) (b32_list nonce) MESSAGE_KEYS_BYTES).
Definition chacha_key (k : MessageKeys) : list byte := take CHACHA_KEY_BYTES (okm k).
Definition chacha_nonce (k : MessageKeys) : list byte := take CHACHA_NONCE_BYTES (drop CHACHA_KEY_BYTES (okm k)).
Definition hmac_key (k : MessageKeys) : list byte := drop MESSAGE_KEY_HMAC_OFFSET (okm k).

Definition compute_hmac (key : list byte) (nonce : bytes32) (ciphertext : list byte) : bytes32 :=
  hmac_sha256 key (b32_list nonce ++ ciphertext).
Definition verify_hmac (key : list byte) (nonce : bytes32) (ciphertext tag : list byte) : bool :=
  hmac_verify key (b32_list nonce ++ ciphertext) tag.

(** *** Encryption *)

Definition encrypt_inner (ck : ConversationKey) (plaintext : string) (nonce : bytes32) : result string Nip44Error :=
  let mks := message_keys ck nonce in
  let? buffer := pad (as_bytes plaintext) in
  let buffer := apply_keystream (chacha_key mks) (chacha_nonce mks) buffer in
  let hmac := compute_hmac (hmac_key mks) nonce buffer in
  Ok (base64_encode ([VERSION] ++ b32_list nonce ++ buffer ++ b32_list hmac)).

(** [nonce]: the outcome of [rng::fill_bytes]. *)
Definition encrypt (nonce : result bytes32 string) (secret : secret_key) (peer : PublicKey) (plaintext : string) :
    result string Nip44Error :=
  let? nonce := map_err Rng nonce in
  encrypt_inner (derive secret peer) plaintext nonce.

(** *** Decryption *)

Definition starts_with_hash (s : string) : bool :=
  match s with String c _ => Ascii.eqb c "#" | EmptyString => false end.

(** The parts of a payload; the length checks before it make every slice exist
    ([split_payload_parts]). *)
Definition split_payload (bytes : list byte) : byte * bytes32 * list byte * list byte :=
  let version := default x00 (head bytes) in
  let rest := drop 1 bytes in
  let nonce := default (bytes32_of_N 0) (try_into32 (take NONCE_BYTES rest)) in
  let body_with_mac := drop NONCE_BYTES rest in
  let mac_start := (length body_with_mac - HMAC_BYTES)%nat in
  (version, nonce, take mac_start body_with_mac, drop mac_start body_with_mac).

Definition decrypt_with_conversation_key (ck : ConversationKey) (payload : string) : result string Nip44Error :=
  let plen := N.of_nat (String.length payload) in
  if plen <? MIN_PAYLOAD_CHARS then Err (PayloadTooShort plen)
  else if MAX_PAYLOAD_CHARS <? plen then Err (PayloadTooLong plen)
  else if starts_with_hash payload then Err (UnsupportedVersion (byte_of_ascii "#"))
  else
    let? bytes := map_err InvalidBase64 (base64_decode payload) in
    let blen := N.of_nat (length bytes) in
    if blen <? MIN_PAYLOAD_BYTES then Err (DecodedTooShort blen)
    else if MAX_PAYLOAD_BYTES <? blen then Err (DecodedTooLong blen)
    else
      let '(version, nonce, ciphertext, mac) := split_payload bytes in
      if negb (Byte.eqb version VERSION) then Err (UnsupportedVersion version)
      else
        let mks := message_keys ck nonce in
        if negb (verify_hmac (hmac_key mks) nonce ciphertext mac) then Err InvalidMac
        else
          let buffer := apply_keystream (chacha_key mks) (chacha_nonce mks) ciphertext in
          let? unpadded := unpad buffer in
          map_err (λ _, InvalidUtf8) (Utf8.from_utf8 unpadded).

Definition decrypt (secret : secret_key) (peer : PublicKey) (payload : string) : result string Nip44Error :=
  decrypt_with_conversation_key (derive secret peer) payload.
End nip44.
End Nip44.

(** ** Unsigned events as JSON *)

(** [derive(Serialize, Deserialize)] on [UnsignedEvent]; a [sig] entry is one of
    the unknown fields that are skipped. *)
Module UnsignedJson.
Section unsigned_json.
Context `{FasterHex, Secp256k1, SerdeJson}.

Definition serialize (u : UnsignedEvent) : Json :=
  JObj [("id", JStr (EventId.to_hex (UnsignedEvent.id u)));
        ("pubkey", JStr (PublicKey.to_hex (UnsignedEvent.pubkey u)));
        ("created_at", JNum (UnsignedEvent.created_at u));
        ("kind", JNum (UnsignedEvent.kind u));
        ("tags", JArr (EventJson.tag_json <$> UnsignedEvent.tags u));
        ("content", JStr (UnsignedEvent.content u))].

Record Fields := mkFields {
  f_id : option EventId;
  f_pubkey : option PublicKey;
  f_created_at : option Timestamp;
  f_kind : option Kind;
  f_tags : option (list Tag);
  f_content : option string;
}.
Definition no_fields : Fields := mkFields None None None None None None.

Definition visit_field (fs : Fields) (key : string) (v : Json) : result Fields DeError :=
  let '(mkFields i p c k ts ct) := fs in
  if decide (key = "id") then
    let? i := EventJson.fill key i (FilterWire.de_event_id v) in Ok (mkFields i p c k ts ct)
  else if decide (key = "pubkey") then
    let? p := EventJson.fill key p (FilterWire.de_public_key v) in Ok (mkFields i p c k ts ct)
  else if decide (key = "created_at") then
    let? c := EventJson.fill key c (de_u64 v) in Ok (mkFields i p c k ts ct)
  else if decide (key = "kind") then
    let? k := EventJson.fill key k (de_u16 v) in Ok (mkFields i p c k ts ct)
  else if decide (key = "tags") then
    let? ts := EventJson.fill key ts (EventJson.de_tags v) in Ok (mkFields i p c k ts ct)
  else if decide (key = "content") then
    let? ct := EventJson.fill key ct (de_str v) in Ok (mkFields i p c k ts ct)
  else Ok fs.

Fixpoint visit_fields (fs : Fields) (entries : list (string * Json)) : result Fields DeError :=
  match entries with
  | [] => Ok fs
  | (key, v) :: entries' => let? fs' := visit_field fs key v in visit_fields fs' entries'
  end.

Definition finish (fs : Fields) : result UnsignedEvent DeError :=
  let? i := ok_or (f_id fs) (MissingField "id") in
  let? p := ok_or (f_pubkey fs) (MissingField "pubkey") in
  let? c := ok_or (f_created_at fs) (MissingField "created_at") in
  let? k := ok_or (f_kind fs) (MissingField "kind") in
  let? ts := ok_or (f_tags fs) (MissingField "tags") in
  let? ct := ok_or (f_content fs) (MissingField "content") in
  Ok (UnsignedEvent.mk i p c k ts ct).

Definition visit_array (vs : list Json) : result UnsignedEvent DeError :=
  match vs with
  | [vi; vp; vc; vk; vt; vct] =>
      let? fs := visit_fields no_fields
        [("id", vi); ("pubkey", vp); ("created_at", vc); ("kind", vk); ("tags", vt); ("content", vct)] in
      finish fs
  | _ => Err NotAnObject
  end.

Definition deserialize (v : Json) : result UnsignedEvent DeError :=
  match de_map v with
  | Some entries => let? fs := visit_fields no_fields entries in finish fs
  | None => match de_seq v with Some vs => visit_array vs | None => Err NotAnObject end
  end.

(** The values in the ranges of their Rust types. *)
Definition json_ok (u : UnsignedEvent) : Prop :=
  PublicKey.valid (UnsignedEvent.pubkey u)
  ∧ (UnsignedEvent.created_at u <= Dec.u64_max)%N ∧ (UnsignedEvent.kind u <= Dec.u16_max)%N
  ∧ Forall Tag.wf (UnsignedEvent.tags u).
End unsigned_json.
End UnsignedJson.

(** [JsonUtil::from_json]. *)
Definition from_json `{JsonText} {A} (de : Json → result A DeError) (text : string) : result A string :=
  let? v := json_from_slice (as_bytes text) in map_err de_error_text (de v).

(** [serde_json] reads back the events it wrote, and writes Rust strings. *)
Class JsonEvents `{FasterHex, Secp256k1, SerdeJson, SigSerde, JsonText} : Prop := {
  reads_event : ∀ e, EventJson.json_ok e →
    json_from_slice (as_bytes (json_to_string (EventJson.serialize e))) = Ok (EventJson.serialize e);
  reads_unsigned : ∀ u, UnsignedJson.json_ok u →
    json_from_slice (as_bytes (json_to_string (UnsignedJson.serialize u))) = Ok (UnsignedJson.serialize u);
  json_utf8 : ∀ v, Utf8.is_str (json_to_string v);
}.

(** ** NIP-59 *)

Module Nip59.
Local Open Scope N_scope.

Definition SEAL : Kind := 13.
Definition GIFT_WRAP : Kind := 1059.
Definition TWO_DAYS_SECS : N := 2 * 24 * 60 * 60.

Inductive Nip59Error :=
| Clock
| Rng (e : string)
| Nip44 (e : Nip44.Nip44Error)
| JsonErr (e : string)
| Internal (e : string)
| EventErr (e : Event.Error)
| UnexpectedKind (expected got : N)
| PubkeyMismatch.

(** [Display] of the errors that reach the text of [Internal]. *)
Definition signer_error_text (e : UnsignedEvent.Error) : string :=
  match e with UnsignedEvent.SignerMismatch => "signer public key does not match event pubkey" end.
Definition hex_error_text (e : Hex.HexError) : string :=
  match e with
  | Hex.InvalidChar => "invalid hex character"
  | Hex.InvalidLength n => "invalid hex length: " +:+ Dec.to_string (N.of_nat n)
  | Hex.LengthMismatch expected actual =>
      "hex length mismatch: expected " +:+ Dec.to_string (N.of_nat expected) +:+ " bytes, got "
      +:+ Dec.to_string (N.of_nat actual)
  | Hex.Overflow => "hex decoder reported an internal overflow"
  end.
Definition secret_key_error_text (e : SecretKey.Error) : string :=
  match e with
  | SecretKey.Hex e => "invalid hex encoding: " +:+ hex_error_text e
  | SecretKey.InvalidLength n => "invalid length: expected 32 bytes, got " +:+ Dec.to_string (N.of_nat n)
  | SecretKey.InvalidScalar => "not a valid secp256k1 scalar"
  | SecretKey.Rng e => "entropy unavailable: " +:+ e
  end.

Section nip59.
Context `{FasterHex, Secp256k1, SecretScalar, SerdeJson, SigSerde, JsonText, EventCrypto, !Nip44Crates, Base64, UrlCrate}.

(** [EventBuilderError] as the two stages map it. *)
Definition builder_error (stage : string) (e : EventBuilder.Error) : Nip59Error :=
  match e with
  | EventBuilder.Clock => Clock
  | EventBuilder.Signer s => Internal (stage +:+ " signing failed unexpectedly: " +:+ signer_error_text s)
  end.

Definition build_rumor (sender : secret_key) (kind : Kind) (tags : list Tag) (content : string)
    (created_at : Timestamp) : UnsignedEvent :=
  UnsignedEvent.new (xonly_public_key sender) created_at kind tags content.

(** The builders set [created_at], so the clock is never read. *)
Definition create_seal (nonce : result bytes32 string) (sender : secret_key) (recipient : PublicKey)
    (rumor : UnsignedEvent) (seal_created_at : Timestamp) : result Event Nip59Error :=
  let rumor_json := json_to_string (UnsignedJson.serialize rumor) in
  let? ciphertext := map_err Nip44 (Nip44.encrypt nonce sender recipient rumor_json) in
  map_err (builder_error "seal")
    (EventBuilder.sign_with_keys None
       (EventBuilder.set_created_at (EventBuilder.new SEAL ciphertext) seal_created_at) sender).

(** [Keys::generate] on 32 random bytes. *)
Definition generate_keys (random : result bytes32 string) : result secret_key SecretKey.Error :=
  let? sk := SecretKey.generate random in Ok (keypair sk).

Definition recipient_tag (recipient : PublicKey) (relay_hint : option RelayUrl) : Tag :=
  Tag.with_ (TagKind.SingleLetter (SingleLetterTag.lowercase Alphabet.P))
    (match relay_hint with
     | None => [PublicKey.to_hex recipient]
     | Some url => [PublicKey.to_hex recipient; RelayUrl.as_str url]
     end).

Definition create_gift_wrap (random nonce : result bytes32 string) (seal : Event) (recipient : PublicKey)
    (relay_hint : option RelayUrl) (wrap_created_at : Timestamp) : result Event Nip59Error :=
  let? ephemeral :=
    map_err (λ e, match e with
                  | SecretKey.Rng r => Rng r
                  | other => Internal ("ephemeral key generation failed: " +:+ secret_key_error_text other)
                  end) (generate_keys random) in
  let seal_json := json_to_string (EventJson.serialize seal) in
  let? ciphertext := map_err Nip44 (Nip44.encrypt nonce ephemeral recipient seal_json) in
  map_err (builder_error "wrap")
    (EventBuilder.sign_with_keys None
       (EventBuilder.add_tag
          (EventBuilder.set_created_at (EventBuilder.new GIFT_WRAP ciphertext) wrap_created_at)
          (recipient_tag recipient relay_hint)) ephemeral).

Definition random_past_timestamp (clock : option Timestamp) (random : result (list byte) string) :
    result Timestamp Nip59Error :=
  let? now := ok_or clock Clock in
  let? bytes := map_err Rng random in
  let offset := BigEndian.from_be_bytes (rev bytes) mod TWO_DAYS_SECS in
  Ok (Timestamp.saturating_sub now offset).

Record Timestamps := mkTimestamps { rumor_at : Timestamp; seal_at : Timestamp; wrap_at : Timestamp }.
Definition all_at (ts : Timestamp) : Timestamps := mkTimestamps ts ts ts.
(** [clocks]: what the three readings of the clock give, in order. *)
Definition random_past (clocks : option Timestamp * option Timestamp * option Timestamp)
    (seal_random wrap_random : result (list byte) string) : result Timestamps Nip59Error :=
  let '(c1, c2, c3) := clocks in
  let? rumor := ok_or c1 Clock in
  let? seal := random_past_timestamp c2 seal_random in
  let? wrap := random_past_timestamp c3 wrap_random in
  Ok (mkTimestamps rumor seal wrap).

(** What one envelope draws from the entropy source. *)
Record Draws := mkDraws {
  seal_nonce : result bytes32 string;
  ephemeral_bytes : result bytes32 string;
  wrap_nonce : result bytes32 string;
}.

(** A seal and the wrap around it. *)
Definition seal_and_wrap (d : Draws) (sender : secret_key) (recipient : PublicKey) (rumor : UnsignedEvent)
    (relay_hint : option RelayUrl) (seal_created_at wrap_created_at : Timestamp) : result Event Nip59Error :=
  let? seal := create_seal (seal_nonce d) sender recipient rumor seal_created_at in
  create_gift_wrap (ephemeral_bytes d) (wrap_nonce d) seal recipient relay_hint wrap_created_at.

Definition wrap_with_timestamps (d : Draws) (sender : secret_key) (recipient : PublicKey) (rumor_kind : Kind)
    (rumor_tags : list Tag) (rumor_content : string) (ts : Timestamps) (relay_hint : option RelayUrl) :
    result Event Nip59Error :=
  let rumor := build_rumor sender rumor_kind rumor_tags rumor_content (rumor_at ts) in
  seal_and_wrap d sender recipient rumor relay_hint (seal_at ts) (wrap_at ts).

(** The two timestamps are drawn one before each stage. *)
Definition wrap (clocks : option Timestamp * option Timestamp) (seal_random wrap_random : result (list byte) string)
    (d : Draws) (sender : secret_key) (recipient : PublicKey) (rumor_kind : Kind) (rumor_tags : list Tag)
    (rumor_content : string) (rumor_created_at : Timestamp) (relay_hint : option RelayUrl) :
    result Event Nip59Error :=
  let rumor := build_rumor sender rumor_kind rumor_tags rumor_content rumor_created_at in
  let? seal_created_at := random_past_timestamp clocks.1 seal_random in
  let? seal := create_seal (seal_nonce d) sender recipient rumor seal_created_at in
  let? wrap_created_at := random_past_timestamp clocks.2 wrap_random in
  create_gift_wrap (ephemeral_bytes d) (wrap_nonce d) seal recipient relay_hint wrap_created_at.

Definition unwrap (recipient : secret_key) (gift_wrap : Event) : result UnsignedEvent Nip59Error :=
  if decide (Event.kind gift_wrap ≠ GIFT_WRAP)
  then Err (UnexpectedKind GIFT_WRAP (Event.kind gift_wrap))
  else
    let? seal_json := map_err Nip44 (Nip44.decrypt recipient (Event.pubkey gift_wrap) (Event.content gift_wrap)) in
    let? seal := map_err JsonErr (from_json EventJson.deserialize seal_json) in
    if decide (Event.kind seal ≠ SEAL) then Err (UnexpectedKind SEAL (Event.kind seal))
    else
      let? _ := map_err EventErr (Event.verify seal) in
      let? rumor_json := map_err Nip44 (Nip44.decrypt recipient (Event.pubkey seal) (Event.content seal)) in
      let? rumor := map_err JsonErr (from_json UnsignedJson.deserialize rumor_json) in
      if decide (UnsignedEvent.pubkey rumor ≠ Event.pubkey seal) then Err PubkeyMismatch
      else Ok rumor.
End nip59.
End Nip59.

(** ** NIP-17 *)

Module Chat.
Local Open Scope N_scope.

Definition PRIVATE_DIRECT_MESSAGE : Kind := 14.
Definition SUBJECT_TAG : string := "subject".
Definition REPLY_MARKER : string := "reply".

Inductive Nip17Error :=
| NoRecipients
| UnexpectedKind (got : N)
| MissingRelayUrl
| InvalidRelayUrl (e : RelayUrl.Error)
| Wrap (e : Nip59.Nip59Error).

Section chat.
Context `{FasterHex, Secp256k1, SecretScalar, SerdeJson, SigSerde, JsonText, EventCrypto, !Nip44Crates, Base64, UrlCrate}.

Record Recipient := mkRecipient { public_key : PublicKey; relay_hint : option RelayUrl }.
Definition recipient_new (pk : PublicKey) : Recipient := mkRecipient pk None.
Definition with_relay_hint (r : Recipient) (relay : RelayUrl) : Recipient := mkRecipient (public_key r) (Some relay).

Record ReplyTo := mkReplyTo { event_id : EventId; reply_hint : option RelayUrl }.

Definition build_chat_message_rumor (sender : secret_key) (recipients : list Recipient) (message : string)
    (created_at : Timestamp) (subject : option string) (reply_to : option ReplyTo) : UnsignedEvent :=
  let p_tags := (λ r, Nip59.recipient_tag (public_key r) (relay_hint r)) <$> recipients in
  let e_tags := (λ reply,
      Tag.with_ (TagKind.SingleLetter (SingleLetterTag.lowercase Alphabet.E))
        [EventId.to_hex (event_id reply);
         match reply_hint reply with None => EmptyString | Some url => RelayUrl.as_str url end;
         REPLY_MARKER]) <$> option_list reply_to in
  let subject_tags := (λ title, Tag.with_ (TagKind.from_wire SUBJECT_TAG) [title]) <$> option_list subject in
  UnsignedEvent.new (xonly_public_key sender) created_at PRIVATE_DIRECT_MESSAGE
    (p_tags ++ e_tags ++ subject_tags) message.

Definition wrap_for (d : Nip59.Draws) (sender : secret_key) (recipient : Recipient) (rumor : UnsignedEvent)
    (ts : Nip59.Timestamps) : result Event Nip17Error :=
  map_err Wrap (Nip59.seal_and_wrap d sender (public_key recipient) rumor (relay_hint recipient)
    (Nip59.seal_at ts) (Nip59.wrap_at ts)).

(** The loop over the recipients; [draws i] is what the [i]-th envelope draws. *)
Fixpoint wrap_each (draws : nat → Nip59.Draws) (i : nat) (sender : secret_key) (recipients : list Recipient)
    (rumor : UnsignedEvent) (ts : Nip59.Timestamps) : result (list Event) Nip17Error :=
  match recipients with
  | [] => Ok []
  | r :: recipients =>
      let? w := wrap_for (draws i) sender r rumor ts in
      let? ws := wrap_each draws (S i) sender recipients rumor ts in
      Ok (w :: ws)
  end.

(** The first envelope is the sender's own copy. *)
Definition wrap_for_many (draws : nat → Nip59.Draws) (sender : secret_key) (recipients : list Recipient)
    (rumor : UnsignedEvent) (ts : Nip59.Timestamps) : result (list Event) Nip17Error :=
  match recipients with
  | [] => Err NoRecipients
  | _ => wrap_each draws 0 sender (recipient_new (xonly_public_key sender) :: recipients) rumor ts
  end.

Definition unwrap_dm_payload (recipient : secret_key) (gift_wrap : Event) : result UnsignedEvent Nip17Error :=
  map_err Wrap (Nip59.unwrap recipient gift_wrap).

Definition unwrap_chat_message (recipient : secret_key) (gift_wrap : Event) : result UnsignedEvent Nip17Error :=
  let? rumor := unwrap_dm_payload recipient gift_wrap in
  if decide (UnsignedEvent.kind rumor ≠ PRIVATE_DIRECT_MESSAGE)
  then Err (UnexpectedKind (UnsignedEvent.kind rumor)) else Ok rumor.
End chat.
End Chat.

(** ** Legacy encryption (NIP-04, [nips/nip04.rs])

    Kept by the code for remote signers that still ask for it.  The block cipher is
    a class; the initialisation vector drawn from the operating system is an
    argument. *)

(** [aes] and [cbc] with PKCS#7 padding: key, initialisation vector, bytes. *)
Class AesCbc := {
  aes_encrypt : bytes32 → list byte → list byte → list byte;
  aes_decrypt : bytes32 → list byte → list byte → option (list byte);
}.
Class AesCbcLaws `{AesCbc} : Prop :=
  aes_decrypts : ∀ key iv text, length iv = 16%nat → aes_decrypt key iv (aes_encrypt key iv text) = Some text.
Arguments AesCbcLaws : clear implicits.
Arguments AesCbcLaws {_}.

(** [str::split_once] at a string. *)
Fixpoint split_once_str (sep s : string) : option (string * string) :=
  match Text.strip_prefix sep s with
  | Some rest => Some (EmptyString, rest)
  | None =>
      match s with
      | EmptyString => None
      | String c s => '(a, b) ← split_once_str sep s; Some (String c a, b)
      end
  end.

(** The first occurrence of a separator is found behind a text without its first character. *)
Lemma split_once_str_app c sep a b :
  no_char c a = true → split_once_str (String c sep) (a +:+ String c sep +:+ b) = Some (a, b).
Proof.
  induction a as [|d a IH]; cbn [no_char].
  - intros _. change (EmptyString +:+ String c sep +:+ b) with (String c (sep +:+ b)).
    cbn [split_once_str Text.strip_prefix]. by rewrite Ascii.eqb_refl, Text.strip_prefix_app.
  - intros [Hd Ha]%andb_prop. change (String d a +:+ String c sep +:+ b) with (String d (a +:+ String c sep +:+ b)).
    cbn [split_once_str Text.strip_prefix]. rewrite Ascii.eqb_sym.
    destruct (Ascii.eqb d c); [done|]. by rewrite (IH Ha).
Qed.

Module Nip04.

Definition IV_BYTES : nat := 16.
Definition SEPARATOR : string := "?iv=".

Inductive Nip04Error :=
| MissingIvSeparator
| Base64Err (e : string)
| InvalidIvLength (expected actual : nat)
| Unpad
| InvalidUtf8
| Rng (e : string).

Section nip04.
Context `{EventCrypto, !Nip44Crates, AesCbc, Base64}.

Definition shared_secret_x (secret : secret_key) (peer : PublicKey) : bytes32 := (shared_secret_point secret peer).1.

Definition encrypt (random : result (list byte) string) (secret : secret_key) (peer : PublicKey) (plaintext : string) :
    result string Nip04Error :=
  let key := shared_secret_x secret peer in
  let? iv := map_err Rng random in
  let ciphertext := aes_encrypt key iv (as_bytes plaintext) in
  Ok (base64_encode ciphertext +:+ SEPARATOR +:+ base64_encode iv).

Definition decrypt (secret : secret_key) (peer : PublicKey) (payload : string) : result string Nip04Error :=
  let? p := ok_or (split_once_str SEPARATOR payload) MissingIvSeparator in
  let '(ciphertext_b64, iv_b64) := p in
  let? ciphertext := map_err Base64Err (base64_decode ciphertext_b64) in
  let? iv := map_err Base64Err (base64_decode iv_b64) in
  if negb (Nat.eqb (length iv) IV_BYTES) then Err (InvalidIvLength IV_BYTES (length iv))
  else
    let? plaintext := ok_or (aes_decrypt (shared_secret_x secret peer) iv ciphertext) Unpad in
    map_err (λ _, InvalidUtf8) (Utf8.from_utf8 plaintext).

(** What one party encrypts for the other, the other decrypts. *)
Lemma legacy_round_trip `{!Nip44Laws, !AesCbcLaws, !Base64Laws} iv a b text payload :
  length iv = IV_BYTES → Utf8.is_str text →
  encrypt (Ok iv) a (xonly_public_key b) text = Ok payload →
  decrypt b (xonly_public_key a) payload = Ok text.
Proof.
  intros Hiv Hs. unfold encrypt, decrypt. cbn [map_err result_bind]. intros [= <-].
  unfold SEPARATOR. rewrite split_once_str_app.
  2:{ pose proof (base64_alphabet (aes_encrypt (shared_secret_x a (xonly_public_key b)) iv (as_bytes text))) as Hb.
      revert Hb. generalize (base64_encode (aes_encrypt (shared_secret_x a (xonly_public_key b)) iv (as_bytes text))).
      intros s. induction s as [|c s IH]; [done|]. cbn [Dec.string_forallb no_char]. intros [Hc ?]%andb_prop.
      rewrite IH by done. rewrite andb_true_r. revert Hc. by destruct c as [[] [] [] [] [] [] [] []]. }
  cbn [ok_or result_bind]. rewrite !base64_reads. cbn [map_err result_bind].
  rewrite Hiv. cbn [Nat.eqb negb IV_BYTES].
  unfold shared_secret_x. rewrite (shared_x b a), (aes_decrypts _ _ _ Hiv). cbn [ok_or result_bind].
  by rewrite Utf8.from_utf8_as_bytes.
Qed.
End nip04.
End Nip04.
