(* ===== verification/GiftWrapProofs.v ===== *)
(** * Proofs about encrypted payloads and gift wraps

    Padding, the frame of a payload, and what one envelope makes of a rumor. *)

From Stdlib Require Import Ascii NArith Lia.
From S2P Require Import Prelude Encoding Text Ids Tags Event Filter FilterWire Nips Message HttpAuth Entities.
From S2P Require Import GiftWrap.

(** ** Padding *)

Module Padding.
Import Nip44.
Local Open Scope N_scope.

(** Rounding up to a multiple of [c], below [c * m]. *)
Lemma round_up c m n : 0 < c → n < c * m →
  n < c * (n / c + 1) ∧ c * (n / c + 1) ≤ c * m ∧ c * (n / c + 1) ≤ n + c.
Proof.
  intros Hc Hn. pose proof (N.div_mod n c ltac:(lia)) as E. pose proof (N.mod_lt n c ltac:(lia)) as Hm.
  assert (n / c < m) as Hd by (apply N.Div0.div_lt_upper_bound; lia).
  rewrite N.mul_add_distr_l, N.mul_1_r. split; [lia|]. split; [|lia].
  transitivity (c * N.succ (n / c)); [lia|]. apply N.mul_le_mono_l. lia.
Qed.

(** The chunk a length is rounded to, and how many make the next power of two. *)
Definition chunk (len : N) : N := N.max 32 (2 ^ (N.log2 (len - 1) + 1) / 8).

Lemma padded_chunk len : 32 < len → padded_length len = chunk len * ((len - 1) / chunk len + 1).
Proof.
  intros Hlo. unfold padded_length, log2_floor, chunk. destruct (N.leb_spec len 32); [lia|].
  destruct (N.eqb_spec (len - 1) 0); [lia|]. rewrite N.shiftl_1_l. generalize (2 ^ (N.log2 (len - 1) + 1)). intros q.
  destruct (N.leb_spec q 256) as [Hq|Hq].
  - rewrite N.max_l; [done|]. change 32 with (256 / 8). by apply N.Div0.div_le_mono.
  - rewrite N.max_r; [done|]. change 32 with (256 / 8). apply N.Div0.div_le_mono. lia.
Qed.

Lemma chunk_power len : 32 < len →
  ∃ m, chunk len * m = 2 ^ (N.log2 (len - 1) + 1) ∧ chunk len mod 32 = 0
       ∧ chunk len ≤ N.max 32 ((len - 1) / 4).
Proof.
  intros Hlo. assert (0 < len - 1) as Hp by lia. pose proof (N.log2_spec _ Hp) as [Hl _]. revert Hl.
  assert (5 ≤ N.log2 (len - 1)) as H5 by (apply N.log2_le_pow2; [lia|change (2 ^ 5) with 32; lia]).
  unfold chunk. revert H5. generalize (N.log2 (len - 1)). intros k H5 Hl.
  destruct (N.le_gt_cases k 7) as [Hk|Hk].
  - assert (k = 5 ∨ k = 6 ∨ k = 7) as [-> | [-> | ->]] by lia; [exists 2|exists 4|exists 8];
      (split; [reflexivity|]); (split; [reflexivity|]); vm_compute N.pow; simpl (_ / 8); lia.
  - exists 8. replace (k + 1) with (k - 7 + 5 + 3) by lia. rewrite !(N.pow_add_r _ (_ + _)).
    change (2 ^ 3) with 8. rewrite N.div_mul by lia. rewrite N.pow_add_r. change (2 ^ 5) with 32.
    pose proof (N.pow_nonzero 2 (k - 7) ltac:(lia)). rewrite N.max_r by lia.
    split; [done|]. split; [by rewrite N.Div0.mod_mul|].
    etransitivity; [|apply N.le_max_r]. apply N.div_le_lower_bound; [lia|].
    replace k with (k - 7 + 7) in Hl by lia. rewrite N.pow_add_r in Hl. change (2 ^ 7) with 128 in Hl. lia.
Qed.

(** The bounds of the padded length, in terms of the power of two above it. *)
Lemma padded_spec len : 32 < len →
  len ≤ padded_length len ∧ padded_length len ≤ 2 ^ (N.log2 (len - 1) + 1)
  ∧ padded_length len mod 32 = 0 ∧ padded_length len < len + N.max 32 ((len - 1) / 4).
Proof.
  intros Hlo. rewrite padded_chunk by done. destruct (chunk_power len Hlo) as (m & Em & Hmod & Hmax).
  assert (0 < chunk len) as Hc by (unfold chunk; lia).
  assert (len - 1 < chunk len * m) as Hlt.
  { rewrite Em, N.add_1_r. apply N.log2_spec. lia. }
  destruct (round_up _ _ _ Hc Hlt) as (H1 & H2 & H3). rewrite <-Em. split; [lia|]. split; [done|].
  split; [|lia]. by rewrite N.Div0.mul_mod, Hmod, N.mul_0_l.
Qed.

Lemma padded_ge len : len ≤ padded_length len.
Proof.
  destruct (N.le_gt_cases len 32) as [Hl|Hl]; [|by apply padded_spec].
  unfold padded_length. by rewrite (proj2 (N.leb_le _ _) Hl).
Qed.

Lemma padded_small len : len ≤ 32 → padded_length len = 32.
Proof. intros Hl. unfold padded_length. by rewrite (proj2 (N.leb_le _ _) Hl). Qed.

Lemma padded_range len : len ≤ MAX_PLAINTEXT_BYTES → 32 ≤ padded_length len ∧ padded_length len ≤ 65536.
Proof.
  unfold MAX_PLAINTEXT_BYTES. intros Hl. destruct (N.le_gt_cases len 32) as [Hs|Hs]; [rewrite padded_small; lia|].
  destruct (padded_spec len Hs) as (Hge & Hle & _). split; [lia|].
  etransitivity; [exact Hle|]. change 65536 with (2 ^ 16). apply N.pow_le_mono_r; [lia|].
  assert (N.log2 (len - 1) < 16) by (apply N.log2_lt_pow2; [lia|change (2 ^ 16) with 65536; lia]). lia.
Qed.

(** A longer text is never padded to less. *)
Lemma padded_mono a b : a ≤ b → padded_length a ≤ padded_length b.
Proof.
  intros Hab. destruct (N.le_gt_cases a 32) as [Ha|Ha].
  { rewrite (padded_small a Ha). destruct (N.le_gt_cases b 32) as [Hb|Hb]; [by rewrite padded_small|].
    pose proof (padded_ge b). lia. }
  assert (32 < b) as Hb by lia. assert (N.log2 (a - 1) ≤ N.log2 (b - 1)) as Hlog by (apply N.log2_le_mono; lia).
  destruct (N.eq_dec (N.log2 (a - 1)) (N.log2 (b - 1))) as [E|E].
  - rewrite !padded_chunk by done. assert (chunk a = chunk b) as -> by (unfold chunk; by rewrite E).
    apply N.mul_le_mono_l, N.add_le_mono_r, N.Div0.div_le_mono. lia.
  - destruct (padded_spec a Ha) as (_ & Hle & _). etransitivity; [exact Hle|].
    transitivity b; [|apply padded_ge].
    transitivity (2 ^ N.log2 (b - 1)); [apply N.pow_le_mono_r; lia|].
    pose proof (N.log2_spec (b - 1) ltac:(lia)). lia.
Qed.

Lemma pad_spec (p : list byte) :
  pad p = let len := N.of_nat (length p) in
    if decide (len < 1) then Err EmptyPlaintext
    else if decide (65535 < len) then Err (PlaintextTooLong len)
    else Ok (BigEndian.to_be_bytes 2 len ++ p ++ replicate (N.to_nat (padded_length len) - length p) x00).
Proof.
  unfold pad, MIN_PLAINTEXT_BYTES, MAX_PLAINTEXT_BYTES. cbv zeta.
  destruct (N.ltb_spec (N.of_nat (length p)) 1); [by rewrite decide_True|]. rewrite decide_False by lia.
  destruct (N.ltb_spec 65535 (N.of_nat (length p))); [by rewrite decide_True|]. rewrite decide_False by lia.
  f_equal. pose proof (padded_ge (N.of_nat (length p))). rewrite resize_ge.
  - rewrite <-(assoc_L (++)), length_app, BigEndian.length_to_be_bytes.
    do 3 f_equal; lia.
  - rewrite length_app, BigEndian.length_to_be_bytes. lia.
Qed.

Lemma be2_value (p : list byte) : 1 ≤ N.of_nat (length p) → N.of_nat (length p) ≤ 65535 →
  ∃ b0 b1, BigEndian.to_be_bytes 2 (N.of_nat (length p)) = [b0; b1]
    ∧ BigEndian.from_be_bytes [b0; b1] = N.of_nat (length p).
Proof.
  intros H1 H2. pose proof (BigEndian.length_to_be_bytes 2 (N.of_nat (length p))) as Hl.
  pose proof (BigEndian.from_to_be_bytes 2 (N.of_nat (length p))) as Hv.
  destruct (BigEndian.to_be_bytes 2 (N.of_nat (length p))) as [|b0 [|b1 [|? ?]]]; simpl in Hl; try lia.
  exists b0, b1. split; [done|]. apply Hv. change (256 ^ N.of_nat 2) with 65536. lia.
Qed.

(** Padding is removed, whatever its bytes. *)
Lemma unpad_padded (p z : list byte) :
  1 ≤ N.of_nat (length p) → N.of_nat (length p) ≤ 65535 →
  N.of_nat (length p + length z) = padded_length (N.of_nat (length p)) →
  unpad (BigEndian.to_be_bytes 2 (N.of_nat (length p)) ++ p ++ z) = Ok p.
Proof.
  intros H1 H2 Hz. destruct (be2_value p H1 H2) as (b0 & b1 & -> & Hv).
  cbn [app]. unfold unpad. rewrite Hv. unfold MIN_PLAINTEXT_BYTES, MAX_PLAINTEXT_BYTES.
  destruct (N.ltb_spec (N.of_nat (length p)) 1); [lia|].
  destruct (N.ltb_spec 65535 (N.of_nat (length p))); [lia|].
  destruct (N.eqb_spec (N.of_nat (length (b0 :: b1 :: p ++ z))) (2 + padded_length (N.of_nat (length p)))) as [_|E];
    [|exfalso; apply E; cbn [length]; rewrite length_app; lia]. cbn [negb].
  destruct (Nat.ltb_spec (length (p ++ z)) (N.to_nat (N.of_nat (length p)))); [rewrite length_app in *; lia|].
  by rewrite Nat2N.id, take_app_length.
Qed.

(** Conversely, what is unpadded was framed that way. *)
Lemma unpad_Ok padded p :
  unpad padded = Ok p →
  1 ≤ N.of_nat (length p) ∧ N.of_nat (length p) ≤ 65535
  ∧ ∃ z, padded = BigEndian.to_be_bytes 2 (N.of_nat (length p)) ++ p ++ z
         ∧ N.of_nat (length p + length z) = padded_length (N.of_nat (length p)).
Proof.
  destruct padded as [|b0 [|b1 rest]]; try done. unfold unpad, MIN_PLAINTEXT_BYTES, MAX_PLAINTEXT_BYTES.
  set (prefix := BigEndian.from_be_bytes [b0; b1]).
  destruct (N.ltb_spec prefix 1); [done|]. destruct (N.ltb_spec 65535 prefix); [done|].
  destruct (N.eqb_spec (N.of_nat (length (b0 :: b1 :: rest))) (2 + padded_length prefix)) as [E|]; [|done]. cbn [negb].
  destruct (Nat.ltb_spec (length rest) (N.to_nat prefix)) as [|Hlen]; [done|]. intros [= <-].
  assert (N.of_nat (length (take (N.to_nat prefix) rest)) = prefix) as Hp.
  { rewrite length_take, Nat.min_l by lia. apply N2Nat.id. }
  rewrite Hp. split; [done|]. split; [done|]. exists (drop (N.to_nat prefix) rest). split.
  - rewrite take_drop. exact (f_equal (λ h, h ++ rest) (eq_sym (BigEndian.to_from_be_bytes [b0; b1]))).
  - rewrite length_drop, length_take. cbn [length] in E. lia.
Qed.
End Padding.

(** ** Payloads *)

Lemma result_ok_Ok {A E} (r : result A E) : is_Some (result_ok r) → ∃ a, r = Ok a.
Proof. destruct r as [a|e]; [by exists a|by intros [? ?]]. Qed.
Lemma Ok_inj {A E} (a b : A) : @Ok A E a = Ok b → a = b.
Proof. by intros [= ->]. Qed.

Section payload.
Context `{Nip44Crates, !Nip44Laws, Base64, !Base64Laws}.
Import Nip44 Padding.
Local Open Scope N_scope.

(** The bytes of a payload with an authentic tag. *)
Definition frame (ck : ConversationKey) (nonce : bytes32) (ciphertext : list byte) : list byte :=
  [VERSION] ++ b32_list nonce ++ ciphertext
  ++ b32_list (compute_hmac (hmac_key (message_keys ck nonce)) nonce ciphertext).

Lemma length_frame ck nonce ct : length (frame ck nonce ct) = (65 + length ct)%nat.
Proof. unfold frame. rewrite !length_app, !length_b32. simpl. lia. Qed.

(** A payload long enough has its four parts. *)
Lemma split_payload_parts bytes :
  (65 ≤ length bytes)%nat →
  let '(version, nonce, ciphertext, mac) := split_payload bytes in
  bytes = [version] ++ b32_list nonce ++ ciphertext ++ mac ∧ length mac = 32%nat.
Proof.
  intros Hl. unfold split_payload. destruct bytes as [|v rest]; [simpl in Hl; lia|]. change (drop 1 (v :: rest)) with rest.
  change (default x00 (head (v :: rest))) with v.
  cbn [length] in Hl. unfold NONCE_BYTES, HMAC_BYTES.
  destruct (try_into32 (take 32 rest)) as [nonce|] eqn:En.
  2:{ apply try_into32_None in En. rewrite length_take in En. lia. }
  apply try_into32_Some in En. change (default (bytes32_of_N 0) (Some nonce)) with nonce. rewrite En. split; [|rewrite !length_drop; lia].
  cbn [app]. f_equal. by rewrite take_drop, take_drop.
Qed.

Lemma split_frame ck nonce ct :
  split_payload (frame ck nonce ct) =
    (VERSION, nonce, ct, b32_list (compute_hmac (hmac_key (message_keys ck nonce)) nonce ct)).
Proof.
  unfold split_payload, frame, NONCE_BYTES, HMAC_BYTES. cbn [app]. set (rest := b32_list nonce ++ _).
  change (drop 1 (VERSION :: rest)) with rest. change (default x00 (head (VERSION :: rest))) with VERSION. subst rest.
  rewrite take_app_length' by by rewrite length_b32. rewrite drop_app_length' by by rewrite length_b32.
  rewrite try_into32_list. change (default (bytes32_of_N 0) (Some nonce)) with nonce.
  rewrite length_app, length_b32, Nat.add_sub, take_app_length, drop_app_length. done.
Qed.

Lemma encrypt_inner_spec ck text nonce :
  encrypt_inner ck text nonce =
    let len := N.of_nat (String.length text) in
    let mks := message_keys ck nonce in
    if decide (len < 1) then Err EmptyPlaintext
    else if decide (65535 < len) then Err (PlaintextTooLong len)
    else Ok (base64_encode (frame ck nonce (apply_keystream (chacha_key mks) (chacha_nonce mks)
      (BigEndian.to_be_bytes 2 len ++ as_bytes text ++ replicate (N.to_nat (padded_length len) - String.length text) x00)))).
Proof.
  unfold encrypt_inner. rewrite pad_spec. cbv zeta. rewrite length_as_bytes. by repeat case_decide.
Qed.

(** The characters of a payload: a number that only depends on the padded length. *)
Definition payload_chars (len : N) : N := 4 * ((67 + padded_length len + 2) / 3).

Lemma encrypt_inner_length ck text nonce payload :
  encrypt_inner ck text nonce = Ok payload →
  N.of_nat (String.length payload) = payload_chars (N.of_nat (String.length text)).
Proof.
  rewrite encrypt_inner_spec. cbv zeta. do 2 (case_decide; [done|]). intros [= <-].
  rewrite base64_length, length_frame, length_keystream. cbn [length].
  rewrite length_app, length_replicate, length_as_bytes.
  pose proof (padded_ge (N.of_nat (String.length text))). unfold payload_chars.
  rewrite Nat2N.inj_mul, Nat2N.inj_div. do 2 f_equal. lia.
Qed.

Lemma payload_chars_range len : len ≤ 65535 → 132 ≤ payload_chars len ∧ payload_chars len ≤ 87472.
Proof.
  intros Hl. pose proof (padded_range len Hl) as [Hlo Hhi]. unfold payload_chars.
  change 132 with (4 * ((67 + 32 + 2) / 3)). change 87472 with (4 * ((67 + 65536 + 2) / 3)).
  split; apply N.mul_le_mono_l, N.Div0.div_le_mono; lia.
Qed.

(** When decryption succeeds: the payload is an authentic frame around the
    padded text. *)
Lemma decrypt_Ok ck payload text :
  decrypt_with_conversation_key ck payload = Ok text ↔
  (132 ≤ N.of_nat (String.length payload) ∧ N.of_nat (String.length payload) ≤ 87472)
  ∧ starts_with_hash payload = false
  ∧ ∃ nonce ct bytes, base64_decode payload = Ok (frame ck nonce ct)
      ∧ (34 ≤ length ct)%nat ∧ N.of_nat (length ct) ≤ 65538
      ∧ unpad (apply_keystream (chacha_key (message_keys ck nonce)) (chacha_nonce (message_keys ck nonce)) ct) = Ok bytes
      ∧ Utf8.from_utf8 bytes = Ok text.
Proof.
  unfold decrypt_with_conversation_key, MIN_PAYLOAD_CHARS, MAX_PAYLOAD_CHARS, MIN_PAYLOAD_BYTES, MAX_PAYLOAD_BYTES.
  destruct (N.ltb_spec (N.of_nat (String.length payload)) 132); [split; [done|]; intros [[? _] _]; lia|].
  destruct (N.ltb_spec 87472 (N.of_nat (String.length payload))); [split; [done|]; intros [[_ ?] _]; lia|].
  destruct (starts_with_hash payload); [split; [done|]; naive_solver|].
  destruct (base64_decode payload) as [bytes|e]; cbn [map_err result_bind]; [|split; [done|]; naive_solver].
  assert (∀ nonce ct, @Ok _ string bytes = Ok (frame ck nonce ct) → length bytes = (65 + length ct)%nat) as Hlen.
  { intros nonce ct [= ->]. apply length_frame. }
  destruct (N.ltb_spec (N.of_nat (length bytes)) 99).
  { split; [done|]. intros (_ & _ & nonce & ct & bs & Hb%Hlen & ? & _). lia. }
  destruct (N.ltb_spec 65603 (N.of_nat (length bytes))).
  { split; [done|]. intros (_ & _ & nonce & ct & bs & Hb%Hlen & _ & ? & _). lia. }
  pose proof (split_payload_parts bytes ltac:(lia)) as Hparts.
  destruct (split_payload bytes) as [[[version nonce] ct] mac] eqn:Es. destruct Hparts as [Eb Hm].
  destruct (Byte.eqb version VERSION) eqn:Ev; cbn [negb].
  2:{ split; [done|]. intros (_ & _ & n' & ct' & bs & [= ->] & _). rewrite split_frame in Es.
      injection Es as <- _ _ _. done. }
  apply Byte.byte_dec_bl in Ev as ->.
  destruct (verify_hmac _ nonce ct mac) eqn:Emac; cbn [negb].
  2:{ split; [done|]. intros (_ & _ & n' & ct' & bs & [= ->] & _). rewrite split_frame in Es.
      injection Es as <- <- <-. unfold verify_hmac in Emac. by rewrite (proj2 (verify_mac _ _ _)) in Emac. }
  apply verify_mac in Emac.
  split.
  - destruct (unpad _) as [bs|] eqn:Eu; cbn [result_bind]; [|done].
    destruct (Utf8.from_utf8 bs) as [t|] eqn:Et; cbn; [|done]. intros [= <-]. split; [lia|]. split; [done|].
    exists nonce, ct, bs. split; [rewrite Eb, Emac; done|].
    assert (length bytes = 65 + length ct)%nat as Hl by (rewrite Eb, !length_app, length_b32, Hm; simpl; lia).
    split; [lia|]. split; [lia|]. done.
  - intros (_ & _ & n' & ct' & bs & [= ->] & _ & _ & Hu & Hutf). rewrite split_frame in Es.
    injection Es as <- <- _. rewrite Hu. cbn. by rewrite Hutf.
Qed.
End payload.

(** ** Unsigned events as JSON *)

Section unsigned.
Context `{FasterHex, !FasterHexLaws, Secp256k1, SerdeJson, !SerdeJsonLaws}.

Ltac next_field H := repeat (rewrite decide_False by done); rewrite decide_True by done; rewrite H;
  cbn [EventJson.fill result_bind].

Lemma unsigned_json_round u : UnsignedJson.json_ok u → UnsignedJson.deserialize (UnsignedJson.serialize u) = Ok u.
Proof.
  intros (Hp & Hc & Hk & Ht). unfold UnsignedJson.deserialize, UnsignedJson.serialize. rewrite de_map_obj.
  cbn [UnsignedJson.visit_fields]. unfold UnsignedJson.visit_field, UnsignedJson.no_fields.
  next_field (FilterWire.de_event_id_ok (UnsignedEvent.id u)). next_field (FilterWire.de_public_key_ok _ Hp).
  next_field (de_u64_num _ Hc). next_field (de_u16_num _ Hk). next_field (de_tags_ok _ Ht).
  next_field (de_str_str (UnsignedEvent.content u)). by destruct u.
Qed.

(** Whatever is read is in range. *)
Record unsigned_fields_ok (fs : UnsignedJson.Fields) : Prop := {
  uf_pubkey : ∀ p, UnsignedJson.f_pubkey fs = Some p → PublicKey.valid p;
  uf_created_at : ∀ c, UnsignedJson.f_created_at fs = Some c → (c <= Dec.u64_max)%N;
  uf_kind : ∀ k, UnsignedJson.f_kind fs = Some k → (k <= Dec.u16_max)%N;
  uf_tags : ∀ ts, UnsignedJson.f_tags fs = Some ts → Forall Tag.wf ts;
}.

Lemma unsigned_fields_visited fs entries fs' :
  unsigned_fields_ok fs → UnsignedJson.visit_fields fs entries = Ok fs' → unsigned_fields_ok fs'.
Proof.
  revert fs. induction entries as [|[key v] entries IH]; intros fs Hfs; simpl; [by intros [= <-]|].
  destruct (UnsignedJson.visit_field fs key v) as [fs1|] eqn:E; simpl; [|done]. apply IH. clear IH. revert E.
  destruct fs as [i p c k ts ct]. destruct Hfs as [Hp Hc Hk Ht]. unfold UnsignedJson.visit_field.
  repeat case_decide; intros E;
    try (destruct (EventJson.fill key _ _) as [r|] eqn:Ef; simpl in E; [|done]; apply fill_Ok in Ef as [-> ->]);
    injection E as <-; split; simpl in *; try done; intros x Hx;
    eauto using de_public_key_valid, de_u64_bound, de_u16_bound, de_tags_wf.
Qed.

Lemma unsigned_deserialize_ok v u : UnsignedJson.deserialize v = Ok u → UnsignedJson.json_ok u.
Proof.
  assert (∀ entries, (let? fs := UnsignedJson.visit_fields UnsignedJson.no_fields entries in
                      UnsignedJson.finish fs) = Ok u → UnsignedJson.json_ok u) as Hall.
  { intros entries. destruct (UnsignedJson.visit_fields _ _) as [fs|] eqn:E; simpl; [|done].
    apply unsigned_fields_visited in E; [|by split]. destruct E as [Hp Hc Hk Ht]. unfold UnsignedJson.finish.
    destruct fs as [[i|] [p|] [c|] [k|] [ts|] [ct|]]; simpl in *; try done. intros [= <-].
    unfold UnsignedJson.json_ok. simpl. auto 10. }
  unfold UnsignedJson.deserialize, UnsignedJson.visit_array. destruct (de_map v) as [entries|]; [apply Hall|].
  destruct (de_seq v) as [[|v1 [|v2 [|v3 [|v4 [|v5 [|v6 [|? ?]]]]]]]|]; try done. apply Hall.
Qed.
End unsigned.

(** ** Envelopes *)

Section envelope.
Context `{FasterHex, !FasterHexLaws, Secp256k1, SecretScalar, SerdeJson, !SerdeJsonLaws, SigSerde, !SigSerdeLaws,
  JsonText, !JsonEvents, EventCrypto, !EventCryptoLaws, !Nip44Crates, !Nip44Laws, Base64, !Base64Laws, UrlCrate}.
Import Nip59.

(** A key pair of the curve: a valid public key, and signatures of 64 bytes (of
    ids, which is what is signed). *)
Definition keys_ok (keys : secret_key) : Prop :=
  PublicKey.valid (xonly_public_key keys)
  ∧ ∀ i, length (sign_schnorr keys (EventId.to_byte_array i)) = 64%nat.

(** Both parties derive the same conversation key. *)
Lemma derive_symmetric a b : Nip44.derive a (xonly_public_key b) = Nip44.derive b (xonly_public_key a).
Proof. unfold Nip44.derive. by rewrite shared_x. Qed.

Lemma base64_no_hash b : Nip44.starts_with_hash (base64_encode b) = false.
Proof.
  pose proof (base64_alphabet b) as Ha. destruct (base64_encode b) as [|c s]; [done|]. simpl in Ha |- *.
  destruct (Ascii.eqb_spec c "#") as [->|]; [|done]. vm_compute in Ha. by destruct s.
Qed.

(** What is encrypted under a key is decrypted under it. *)
Lemma decrypt_encrypted ck text nonce payload :
  Utf8.is_str text → Nip44.encrypt_inner ck text nonce = Ok payload →
  Nip44.decrypt_with_conversation_key ck payload = Ok text.
Proof.
  intros Hutf He. pose proof (encrypt_inner_length _ _ _ _ He) as Hchars. revert He.
  rewrite encrypt_inner_spec. cbv zeta. case_decide as Hne; [done|]. case_decide as Hlong; [done|]. intros E%Ok_inj. subst payload.
  apply decrypt_Ok. rewrite Hchars.
  pose proof (Padding.padded_ge (N.of_nat (String.length text))) as Hge.
  pose proof (Padding.padded_range (N.of_nat (String.length text)) ltac:(unfold Nip44.MAX_PLAINTEXT_BYTES; lia)) as Hr.
  split; [apply payload_chars_range; lia|]. split; [apply base64_no_hash|].
  eexists nonce, _, (as_bytes text). rewrite base64_reads. split; [reflexivity|].
  rewrite length_keystream, keystream_twice, <-length_as_bytes in *.
  rewrite !length_app, BigEndian.length_to_be_bytes, length_replicate.
  split; [lia|]. split; [lia|]. split; [|by apply Utf8.from_utf8_as_bytes].
  apply Padding.unpad_padded; [lia..|]. rewrite length_replicate. lia.
Qed.

(** The stages, as equivalences with their parts. *)
Lemma sign_builder b keys ts :
  EventBuilder.created_at b = Some ts →
  ∃ e, EventBuilder.sign_with_keys None b keys = Ok e
    ∧ Event.verify e = Ok tt ∧ Event.pubkey e = xonly_public_key keys ∧ Event.created_at e = ts
    ∧ Event.kind e = EventBuilder.kind b ∧ Event.tags e = Tags.items (EventBuilder.tags b)
    ∧ Event.content e = EventBuilder.content b ∧ ∃ i, Event.sig e = sign_schnorr keys (EventId.to_byte_array i).
Proof.
  intros Ets. destruct (EventBuilder.sign_with_keys None b keys) as [e|err] eqn:E.
  - exists e. split; [done|]. pose proof (EventBuilder.signed_builder_verifies _ _ _ _ E) as Hv.
    apply EventBuilder.sign_Ok in E as (ts' & [Hts|[Hts _]] & ->); [|congruence].
    assert (ts' = ts) as -> by congruence. cbn. eauto 10.
  - exfalso. revert E. unfold EventBuilder.sign_with_keys, EventBuilder.build_unsigned. rewrite Ets. cbn.
    unfold UnsignedEvent.sign_with_keys. cbn. by rewrite bool_decide_true.
Qed.

Lemma create_seal_spec nonce sender recipient rumor at_ :
  let json := json_to_string (UnsignedJson.serialize rumor) in
  match create_seal nonce sender recipient rumor at_ with
  | Ok seal =>
      (∃ n, nonce = Ok n ∧ Nip44.encrypt_inner (Nip44.derive sender recipient) json n = Ok (Event.content seal))
      ∧ Event.verify seal = Ok tt ∧ Event.pubkey seal = xonly_public_key sender ∧ Event.created_at seal = at_
      ∧ Event.kind seal = SEAL ∧ Event.tags seal = [] ∧ ∃ i, Event.sig seal = sign_schnorr sender (EventId.to_byte_array i)
  | Err e => (∃ r, nonce = Err r ∧ e = Nip44 (Nip44.Rng r))
             ∨ (∃ n err, nonce = Ok n ∧ e = Nip44 err
                  ∧ Nip44.encrypt_inner (Nip44.derive sender recipient) json n = Err err)
  end.
Proof.
  cbv zeta. unfold create_seal, Nip44.encrypt. destruct nonce as [n|r]; cbn [map_err result_bind]; [|by left; exists r].
  destruct (Nip44.encrypt_inner _ _ n) as [ct|err] eqn:Ee; cbn [map_err result_bind]; [|right; by exists n, err].
  destruct (sign_builder (EventBuilder.set_created_at (EventBuilder.new SEAL ct) at_) sender at_ eq_refl)
    as (e & -> & Hv & Hp & Ht & Hk & Htags & Hc & Hs). cbn [map_err]. cbn in Hk, Htags, Hc. subst ct. eauto 10.
Qed.

Lemma create_gift_wrap_spec random nonce seal recipient hint at_ :
  let json := json_to_string (EventJson.serialize seal) in
  match create_gift_wrap random nonce seal recipient hint at_ with
  | Ok w =>
      (∃ k n, generate_keys random = Ok k ∧ nonce = Ok n
         ∧ Nip44.encrypt_inner (Nip44.derive k recipient) json n = Ok (Event.content w)
         ∧ Event.pubkey w = xonly_public_key k)
      ∧ Event.verify w = Ok tt ∧ Event.created_at w = at_
      ∧ Event.kind w = GIFT_WRAP ∧ Event.tags w = [recipient_tag recipient hint]
  | Err e =>
      (∃ r, (random = Err r ∧ e = Rng r) ∨ (nonce = Err r ∧ e = Nip44 (Nip44.Rng r)))
      ∨ e = Internal "ephemeral key generation failed: not a valid secp256k1 scalar"
      ∨ (∃ k n err, generate_keys random = Ok k ∧ nonce = Ok n ∧ e = Nip44 err
           ∧ Nip44.encrypt_inner (Nip44.derive k recipient) json n = Err err)
  end.
Proof.
  cbv zeta. unfold create_gift_wrap. destruct (generate_keys random) as [k|err] eqn:Eg; cbn [map_err result_bind].
  2:{ unfold generate_keys, SecretKey.generate in Eg. destruct random as [bytes|r]; cbn in Eg.
      - unfold SecretKey.from_byte_array in Eg. destruct (scalar_valid bytes); cbn in Eg; [done|].
        injection Eg as <-. by right; left.
      - injection Eg as <-. left. exists r. by left. }
  unfold Nip44.encrypt. destruct nonce as [n|r]; cbn [map_err result_bind]; [|left; exists r; by right].
  destruct (Nip44.encrypt_inner _ _ n) as [ct|err] eqn:Ee; cbn [map_err result_bind]; [|right; right; eauto 10].
  set (b := EventBuilder.add_tag _ _).
  destruct (sign_builder b k at_ eq_refl) as (e & -> & Hv & Hp & Ht & Hk & Htags & Hc & _).
  cbn [map_err]. cbn in Hk, Htags, Hc. subst ct. eauto 10.
Qed.

(** What a sealed and wrapped rumor unwraps to. *)
Lemma envelope_spec d sender recipient rumor hint seal_at wrap_at :
  keys_ok sender → UnsignedJson.json_ok rumor → (seal_at <= Dec.u64_max)%N →
  match seal_and_wrap d sender (xonly_public_key recipient) rumor hint seal_at wrap_at with
  | Ok w =>
      unwrap recipient w =
        (if decide (UnsignedEvent.pubkey rumor = xonly_public_key sender) then Ok rumor else Err PubkeyMismatch)
      ∧ Event.verify w = Ok tt ∧ Event.kind w = GIFT_WRAP ∧ Event.created_at w = wrap_at
      ∧ Event.tags w = [recipient_tag (xonly_public_key recipient) hint]
      ∧ ∃ k, generate_keys (ephemeral_bytes d) = Ok k ∧ Event.pubkey w = xonly_public_key k
  | Err e =>
      (∃ r, e = Rng r ∨ e = Nip44 (Nip44.Rng r)) ∨ (∃ n, (65535 < n)%N ∧ e = Nip44 (Nip44.PlaintextTooLong n))
      ∨ e = Nip44 Nip44.EmptyPlaintext
      ∨ e = Internal "ephemeral key generation failed: not a valid secp256k1 scalar"
  end.
Proof.
  intros [Hvalid Hsig] Hrumor Hat. unfold seal_and_wrap.
  assert (∀ ck text n err, Nip44.encrypt_inner ck text n = Err err →
    (∃ n, (65535 < n)%N ∧ err = Nip44.PlaintextTooLong n) ∨ err = Nip44.EmptyPlaintext) as Herr.
  { intros ck text n err. rewrite encrypt_inner_spec. cbv zeta.
    case_decide; [|case_decide; [|done]]; intros [= <-]; eauto. }
  pose proof (create_seal_spec (seal_nonce d) sender (xonly_public_key recipient) rumor seal_at) as Hseal.
  destruct (create_seal _ _ _ _ _) as [seal|e]; cbn [result_bind].
  2:{ destruct Hseal as [(r & _ & ->)|(n & err & _ & -> & [(m & ? & ->)| ->]%Herr)]; eauto 10. }
  destruct Hseal as ((n1 & _ & Ee1) & Hv1 & Hp1 & Ht1 & Hk1 & Htags1 & m1 & Hs1).
  pose proof (create_gift_wrap_spec (ephemeral_bytes d) (wrap_nonce d) seal (xonly_public_key recipient) hint wrap_at)
    as Hwrap.
  destruct (create_gift_wrap _ _ _ _ _ _) as [w|e].
  2:{ destruct Hwrap as [(r & [[_ ->] | [_ ->]])|[-> |(k & n & err & _ & _ & -> & [(m & ? & ->)| ->]%Herr)]]; eauto 10. }
  destruct Hwrap as ((k & n2 & Hg & _ & Ee2 & Hp2) & Hv2 & Ht2 & Hk2 & Htags2).
  split; [|eauto 10]. unfold unwrap. rewrite decide_False by (rewrite Hk2; auto).
  assert (EventJson.json_ok seal) as Hok.
  { unfold EventJson.json_ok, Event.wf. rewrite Hp1, Ht1, Hk1, Htags1, Hs1. repeat split; [done|done|done|constructor|apply Hsig]. }
  unfold Nip44.decrypt. rewrite Hp2, derive_symmetric.
  rewrite (decrypt_encrypted _ _ _ _ (json_utf8 _) Ee2). cbn [map_err result_bind]. unfold from_json.
  rewrite reads_event by done. cbn [result_bind]. rewrite event_json_round by done. cbn [map_err result_bind].
  rewrite decide_False by (rewrite Hk1; auto). rewrite Hv1. cbn [map_err result_bind].
  rewrite Hp1, derive_symmetric, (decrypt_encrypted _ _ _ _ (json_utf8 _) Ee1). cbn [map_err result_bind].
  rewrite reads_unsigned by done. cbn [result_bind]. rewrite unsigned_json_round by done. cbn [map_err result_bind].
  by repeat case_decide.
Qed.

(** The same by outcome. *)
Lemma envelope_outcome d sender recipient rumor hint seal_at wrap_at :
  keys_ok sender → UnsignedJson.json_ok rumor → (seal_at <= Dec.u64_max)%N →
  let r := seal_and_wrap d sender (xonly_public_key recipient) rumor hint seal_at wrap_at in
  (∀ w, r = Ok w →
      unwrap recipient w =
        (if decide (UnsignedEvent.pubkey rumor = xonly_public_key sender) then Ok rumor else Err PubkeyMismatch)
      ∧ Event.verify w = Ok tt ∧ Event.kind w = GIFT_WRAP ∧ Event.created_at w = wrap_at
      ∧ Event.tags w = [recipient_tag (xonly_public_key recipient) hint]
      ∧ ∃ k, generate_keys (ephemeral_bytes d) = Ok k ∧ Event.pubkey w = xonly_public_key k)
  ∧ (∀ e, r = Err e →
      (∃ r, e = Rng r ∨ e = Nip44 (Nip44.Rng r)) ∨ (∃ n, (65535 < n)%N ∧ e = Nip44 (Nip44.PlaintextTooLong n))
      ∨ e = Nip44 Nip44.EmptyPlaintext
      ∨ e = Internal "ephemeral key generation failed: not a valid secp256k1 scalar").
Proof.
  intros Hs Hr Hat r. pose proof (envelope_spec d sender recipient rumor hint seal_at wrap_at Hs Hr Hat) as H'. subst r.
  by split; intros x E; rewrite E in H'.
Qed.

Import Chat.

(** The envelopes of a list of recipients, one each. *)
Lemma wrap_each_spec draws i sender rs rumor ts ws :
  wrap_each draws i sender rs rumor ts = Ok ws →
  length ws = length rs
  ∧ ∀ j w, ws !! j = Some w → ∃ r, rs !! j = Some r
      ∧ seal_and_wrap (draws (i + j)%nat) sender (public_key r) rumor (relay_hint r) (seal_at ts) (wrap_at ts) = Ok w.
Proof.
  revert i ws. induction rs as [|r rs IH]; intros i ws; cbn [wrap_each]; [intros [= <-]; by split|].
  unfold wrap_for. destruct (seal_and_wrap _ _ _ _ _ _ _) as [w|] eqn:E; cbn [map_err result_bind]; [|done].
  destruct (wrap_each draws (S i) sender rs rumor ts) as [ws'|] eqn:Ew; cbn [result_bind]; [|done].
  intros [= <-]. apply IH in Ew as [Hl Hw]. split; [simpl; by rewrite Hl|].
  intros [|j] w'; cbn; [intros [= <-]|].
  - exists r. by rewrite Nat.add_0_r.
  - intros Hj. destruct (Hw j w' Hj) as (r' & ? & ?). exists r'. by rewrite <-Nat.add_succ_comm.
Qed.

Lemma chat_rumor_ok sender recipients message at_ subject reply :
  keys_ok sender → (at_ <= Dec.u64_max)%N →
  UnsignedJson.json_ok (build_chat_message_rumor sender recipients message at_ subject reply).
Proof.
  intros [Hv _] Hat. unfold UnsignedJson.json_ok, build_chat_message_rumor, UnsignedEvent.new. cbn.
  split; [done|]. split; [done|]. split; [done|].
  rewrite !Forall_app, !Forall_fmap. repeat split; apply Forall_forall; intros; apply Tag.with_wf.
Qed.
End envelope.
