(* ===== verification/GiftWrapSamples.v ===== *)
(** * Concrete inputs for encryption

    Base64, a compact text of JSON values that reads back, and a toy cipher suite:
    instances on which the theorems about envelopes are evaluated. *)

From Stdlib Require Import Ascii NArith Lia.
From S2P Require Import Prelude Encoding Text Ids Tags Event Filter FilterWire Storage Samples.
From S2P Require Import Nips Message HttpAuth RelaySamples Client ClientSamples Entities GiftWrap GiftWrapProofs.

(** ** Base64 *)

Module B64.
Local Open Scope N_scope.

Definition alphabet : list ascii := String.list_ascii_of_string
  "ABCDEFGHIJKLMNOPQRSTUVWXYZabcdefghijklmnopqrstuvwxyz0123456789+/".
Definition char (d : N) : ascii := default "A"%char (alphabet !! N.to_nat d).
Definition digit (c : ascii) : option N := N.of_nat ∘ fst <$> list_find (c =.) alphabet.

Lemma digit_char d : d < 64 → digit (char d) = Some d.
Proof. revert d. apply (N_bounded_forall 64). repeat constructor. Qed.
Lemma char_not_pad d : d < 64 → char d ≠ "="%char.
Proof. revert d. apply (N_bounded_forall 64). repeat constructor; done. Qed.

(** The group of three bytes [a], [b], [c] as four digits. *)
Definition d1 (a : N) : N := a / 4.
Definition d2 (a b : N) : N := a mod 4 * 16 + b / 16.
Definition d3 (b c : N) : N := b mod 16 * 4 + c / 64.
Definition d4 (c : N) : N := c mod 64.

Fixpoint encode (bs : list byte) : list ascii :=
  match bs with
  | [] => []
  | [a] => let a := Byte.to_N a in [char (d1 a); char (d2 a 0); "="%char; "="%char]
  | [a; b] =>
      let a := Byte.to_N a in let b := Byte.to_N b in
      [char (d1 a); char (d2 a b); char (d3 b 0); "="%char]
  | a :: b :: c :: bs =>
      let a := Byte.to_N a in let b := Byte.to_N b in let c := Byte.to_N c in
      char (d1 a) :: char (d2 a b) :: char (d3 b c) :: char (d4 c) :: encode bs
  end.

Fixpoint decode (cs : list ascii) : option (list byte) :=
  match cs with
  | [] => Some []
  | c1 :: c2 :: c3 :: c4 :: cs =>
      v1 ← digit c1; v2 ← digit c2;
      let a := byte_of_N (v1 * 4 + v2 / 16) in
      if decide (c3 = "="%char) then (if decide (c4 = "="%char ∧ cs = []) then Some [a] else None)
      else
        v3 ← digit c3;
        let b := byte_of_N (v2 mod 16 * 16 + v3 / 4) in
        if decide (c4 = "="%char) then (if decide (cs = []) then Some [a; b] else None)
        else v4 ← digit c4; rest ← decode cs; Some (a :: b :: byte_of_N (v3 mod 4 * 64 + v4) :: rest)
  | _ => None
  end.

Lemma pack k x y : y < k → (x * k + y) / k = x ∧ (x * k + y) mod k = y.
Proof.
  intros Hy. split; [rewrite N.div_add_l, N.div_small; lia|].
  rewrite N.add_comm, N.Div0.mod_add. by apply N.mod_small.
Qed.

Lemma digits_small a b c : a < 256 → b < 256 → c < 256 → d1 a < 64 ∧ d2 a b < 64 ∧ d3 b c < 64 ∧ d4 c < 64.
Proof.
  intros Ha Hb Hc. unfold d1, d2, d3, d4.
  assert (∀ n k m, n < k * m → n / k < m) as Hd by (intros; by apply N.Div0.div_lt_upper_bound).
  pose proof (N.mod_lt a 4 ltac:(lia)). pose proof (N.mod_lt b 16 ltac:(lia)). pose proof (N.mod_lt c 64 ltac:(lia)).
  pose proof (Hd a 4 64 ltac:(lia)). pose proof (Hd b 16 16 ltac:(lia)). pose proof (Hd c 64 4 ltac:(lia)). lia.
Qed.

Lemma bytes_back a b c : a < 256 → b < 256 → c < 256 →
  d1 a * 4 + d2 a b / 16 = a ∧ d2 a b mod 16 * 16 + d3 b c / 4 = b ∧ d3 b c mod 4 * 64 + d4 c = c.
Proof.
  intros Ha Hb Hc. unfold d1, d2, d3, d4.
  assert (b / 16 < 16) as Hb' by (apply N.Div0.div_lt_upper_bound; lia).
  assert (c / 64 < 4) as Hc' by (apply N.Div0.div_lt_upper_bound; lia).
  destruct (pack 16 (a mod 4) (b / 16) Hb') as [-> ->]. destruct (pack 4 (b mod 16) (c / 64) Hc') as [-> ->].
  pose proof (N.div_mod a 4 ltac:(lia)). pose proof (N.div_mod b 16 ltac:(lia)). pose proof (N.div_mod c 64 ltac:(lia)).
  lia.
Qed.

(** Induction three bytes at a time. *)
Lemma triple_ind (P : list byte → Prop) :
  P [] → (∀ a, P [a]) → (∀ a b, P [a; b]) → (∀ a b c bs, P bs → P (a :: b :: c :: bs)) → ∀ bs, P bs.
Proof.
  intros H0 H1 H2 H3. fix IH 1. intros [|a [|b [|c bs]]]; [done|apply H1|apply H2|apply H3, IH].
Qed.

Lemma b64_decode_encode bs : decode (encode bs) = Some bs.
Proof.
  induction bs as [|a|a b|a b c bs IH] using triple_ind; [done|..]; cbn [encode decode].
  all: pose proof (byte_to_N_lt a); try pose proof (byte_to_N_lt b); try pose proof (byte_to_N_lt c).
  - destruct (digits_small (Byte.to_N a) 0 0) as (? & ? & _); [lia..|].
    destruct (bytes_back (Byte.to_N a) 0 0) as (Ea & _); [lia..|].
    rewrite !digit_char by done. cbn [mbind option_bind]. rewrite Ea, byte_of_N_to_N. done.
  - destruct (digits_small (Byte.to_N a) (Byte.to_N b) 0) as (? & ? & ? & _); [lia..|].
    destruct (bytes_back (Byte.to_N a) (Byte.to_N b) 0) as (Ea & Eb & _); [lia..|].
    rewrite !digit_char by done. cbn [mbind option_bind]. rewrite decide_False by by apply char_not_pad.
    by rewrite Ea, Eb, !byte_of_N_to_N.
  - destruct (digits_small (Byte.to_N a) (Byte.to_N b) (Byte.to_N c)) as (? & ? & ? & ?); [done..|].
    destruct (bytes_back (Byte.to_N a) (Byte.to_N b) (Byte.to_N c)) as (Ea & Eb & Ec); [done..|].
    rewrite !digit_char by done. cbn [mbind option_bind]. rewrite !decide_False by by apply char_not_pad.
    rewrite IH. cbn. by rewrite Ea, Eb, Ec, !byte_of_N_to_N.
Qed.

Lemma length_encode bs : length (encode bs) = (4 * ((length bs + 2) / 3))%nat.
Proof.
  induction bs as [|a|a b|a b c bs IH] using triple_ind; [done..|]. cbn [encode length]. rewrite IH.
  replace (S (S (S (length bs))) + 2)%nat with (1 * 3 + (length bs + 2))%nat by lia.
  rewrite Nat.div_add_l by lia. lia.
Qed.

Definition in_alphabet (c : ascii) : bool := existsb (Ascii.eqb c) (String.list_ascii_of_string
  "ABCDEFGHIJKLMNOPQRSTUVWXYZabcdefghijklmnopqrstuvwxyz0123456789+/=").
Lemma char_in_alphabet d : in_alphabet (char d) = true.
Proof.
  destruct (N.lt_ge_cases d 64) as [Hd|Hd].
  - revert d Hd. apply (N_bounded_forall 64). repeat constructor.
  - unfold char. rewrite lookup_ge_None_2; [done|]. change (length alphabet) with 64%nat. lia.
Qed.
Lemma pad_in_alphabet : in_alphabet "=" = true.
Proof. reflexivity. Qed.
Lemma encode_alphabet bs : Forall (λ c, in_alphabet c = true) (encode bs).
Proof.
  induction bs as [|a|a b|a b c bs IH] using triple_ind; cbn [encode]; cbv zeta; [constructor|..].
  all: repeat (apply Forall_cons_2;
    [lazymatch goal with |- in_alphabet (char _) = true => apply char_in_alphabet | _ => exact pad_in_alphabet end|]).
  1, 2: constructor.
  exact IH.
Qed.
End B64.

#[global] Instance b64 : Base64 | 0 := {|
  base64_encode b := String.string_of_list_ascii (B64.encode b);
  base64_decode s := match B64.decode (String.list_ascii_of_string s) with
                     | Some b => Ok b | None => Err "Invalid padding" end;
|}.

Lemma length_string_of_list cs : String.length (String.string_of_list_ascii cs) = length cs.
Proof. induction cs; simpl; auto. Qed.

#[global] Instance b64_laws : Base64Laws (H := b64).
Proof.
  split; intros b; cbn [base64_encode base64_decode b64].
  - by rewrite String.list_ascii_of_string_of_list_ascii, B64.b64_decode_encode.
  - rewrite length_string_of_list. apply B64.length_encode.
  - induction (B64.encode_alphabet b) as [|c cs Hc _ IH]; [done|].
    change (B64.in_alphabet c && Dec.string_forallb B64.in_alphabet (String.string_of_list_ascii cs) = true).
    rewrite Hc. exact IH.
Qed.

(** ** A compact JSON text *)

(** The tokens of a value's tree, separated by semicolons; strings in hex. *)
Definition number (n : N) : string := digits (N.succ_pos n).
Definition read_number (s : string) : option N := Pos.pred_N <$> read_digits s.
Definition hex_text (s : string) : string := Hex.fmt_lower (as_bytes s).
Definition read_hex (s : string) : option string := String.string_of_list_byte <$> HexModel.unhex (as_bytes s).

Definition token (t : nat * nat + leaf) : string :=
  match t with
  | inl (len, n) => String "g" (number (N.of_nat len) +:+ String "," (number (N.of_nat n)))
  | inr (inl (inl b)) => String (if b then "t" else "f") EmptyString
  | inr (inl (inr n)) => String "n" (number n)
  | inr (inr (inl s)) => String "o" (hex_text s)
  | inr (inr (inr s)) => String "s" (hex_text s)
  end.
Definition read_token (s : string) : option (nat * nat + leaf) :=
  match s with
  | String c s =>
      if Ascii.eqb c "g" then
        '(a, b) ← split_once "," s; len ← read_number a; n ← read_number b; Some (inl (N.to_nat len, N.to_nat n))
      else if Ascii.eqb c "t" then Some (inr (inl (inl true)))
      else if Ascii.eqb c "f" then Some (inr (inl (inl false)))
      else if Ascii.eqb c "n" then n ← read_number s; Some (inr (inl (inr n)))
      else if Ascii.eqb c "o" then t ← read_hex s; Some (inr (inr (inl t)))
      else t ← read_hex s; Some (inr (inr (inr t)))
  | EmptyString => None
  end.

Definition json_text (v : Json) : string := join ";" (token <$> gen_tree_to_list (json_tree v)).
Definition read_json (s : string) : option Json :=
  ts ← mapM read_token (split ";" s); tree_json <$> gen_tree_of_list [] ts.

(** The characters the text is made of. *)
Definition plain (c : ascii) : bool := existsb (Ascii.eqb c) (String.list_ascii_of_string "gtfnos,01234567890abcdef").

Lemma read_number_number n : read_number (number n) = Some n.
Proof. unfold read_number, number. rewrite read_digits_digits. simpl. by rewrite N.pos_pred_succ. Qed.
Lemma read_hex_text s : read_hex (hex_text s) = Some s.
Proof.
  unfold read_hex, hex_text. rewrite HexModel.unhex_fmt_lower. simpl.
  by rewrite String.string_of_list_byte_of_string.
Qed.

Lemma plain_app a b :
  Dec.string_forallb plain (a +:+ b) = Dec.string_forallb plain a && Dec.string_forallb plain b.
Proof.
  induction a as [|c a IH]; [done|].
  change (plain c && Dec.string_forallb plain (a +:+ b) = plain c && Dec.string_forallb plain a && Dec.string_forallb plain b).
  by rewrite IH, andb_assoc.
Qed.
Lemma plain_digits p : Dec.string_forallb plain (digits p) = true.
Proof. by induction p as [p IH|p IH|]. Qed.
Lemma plain_nibble d : (d < 16)%N → plain (Hex.nibble_char d) = true.
Proof. revert d. apply (N_bounded_forall 16). repeat constructor. Qed.
Lemma plain_hex bs : Dec.string_forallb plain (Hex.fmt_lower bs) = true.
Proof.
  induction bs as [|b bs IH]; [done|]. cbn [Hex.fmt_lower Dec.string_forallb]. pose proof (byte_to_N_lt b).
  rewrite !plain_nibble, IH; [done|by apply N.mod_lt|apply N.Div0.div_lt_upper_bound; lia].
Qed.

Lemma token_plain t : Dec.string_forallb plain (token t) = true.
Proof.
  destruct t as [[len n]|[[[]|n]|[s|s]]]; cbn [token Dec.string_forallb]; try reflexivity;
    try (apply plain_digits || apply plain_hex).
  change (Dec.string_forallb plain (number (N.of_nat len) +:+ String "," (number (N.of_nat n))) = true).
  rewrite plain_app. unfold number. rewrite plain_digits. apply (plain_digits (N.succ_pos (N.of_nat n))).
Qed.

Lemma plain_no_char c s : plain c = false → Dec.string_forallb plain s = true → no_char c s = true.
Proof.
  intros Hc. induction s as [|d s IH]; [done|]. cbn [Dec.string_forallb no_char]. intros [Hd ?]%andb_prop.
  rewrite IH by done. destruct (Ascii.eqb_spec d c) as [->|]; [congruence|done].
Qed.

Lemma digits_no_comma p : no_char "," (digits p) = true.
Proof. by induction p as [p IH|p IH|]. Qed.

Lemma read_token_token t : read_token (token t) = Some t.
Proof.
  destruct t as [[len n]|[[[]|n]|[s|s]]]; cbn [token read_token]; try reflexivity;
    rewrite ?read_number_number, ?read_hex_text; try reflexivity.
  change (Ascii.eqb "g" "g") with true. cbv iota.
  rewrite split_once_app by apply digits_no_comma. cbn [mbind option_bind].
  rewrite !read_number_number. cbn. by rewrite !Nat2N.id.
Qed.

Lemma read_json_text v : read_json (json_text v) = Some v.
Proof.
  unfold read_json, json_text. rewrite split_join.
  - assert (∀ ts, mapM read_token (token <$> ts) = Some ts) as ->.
    { induction ts as [|t ts IH]; [done|]. cbn. rewrite read_token_token. cbn. by rewrite IH. }
    cbn. rewrite <-(app_nil_r (gen_tree_to_list _)), gen_tree_of_to_list. cbn. by rewrite tree_json_tree.
  - destruct (json_tree v); cbn; [done|]. rewrite fmap_app. intros [_ ?]%app_nil. done.
  - apply Forall_fmap, Forall_forall. intros t _. apply plain_no_char; [done|apply token_plain].
Qed.

Lemma json_text_ascii v : Utf8.ascii_only (json_text v) = true.
Proof.
  assert (∀ s, Dec.string_forallb plain s = true → Utf8.ascii_only s = true) as Hp.
  { intros s. unfold Utf8.ascii_only. induction s as [|c s IH]; [done|]. cbn [Dec.string_forallb]. intros [Hc Hs]%andb_prop.
    rewrite as_bytes_cons. cbn [forallb]. rewrite IH by done. rewrite andb_true_r.
    revert Hc. destruct c as [[] [] [] [] [] [] [] []]; vm_compute; done. }
  assert (∀ a b, Utf8.ascii_only (a +:+ b) = Utf8.ascii_only a && Utf8.ascii_only b) as Happ.
  { intros a b. unfold Utf8.ascii_only. by rewrite as_bytes_app, forallb_app. }
  unfold json_text. generalize (gen_tree_to_list (json_tree v)). intros ts.
  induction ts as [|t [|t' ts] IH]; [done|apply Hp, token_plain|].
  change (Utf8.ascii_only (token t +:+ String ";" (join ";" (token <$> t' :: ts))) = true).
  rewrite Happ, (Hp _ (token_plain t)). exact IH.
Qed.

#[global] Instance text_serde : SerdeJson | 0 := {|
  de_u16 := bounded Dec.u16_max;
  de_u64 := bounded Dec.u64_max;
  de_str v := match v with JStr s => Some s | _ => None end;
  de_seq v := match v with JArr l => Some l | _ => None end;
  de_map v := match v with JObj l => Some l | _ => None end;
  de_bool v := match v with JBool b => Some b | _ => None end;
  json_to_string := json_text;
|}.
#[global] Instance text_serde_laws : SerdeJsonLaws (H := text_serde) | 0.
Proof. split; try reflexivity; intros *; (apply bounded_num || apply bounded_bound). Qed.

#[global] Instance text_json : JsonText | 0 := {|
  json_from_slice b := match read_json (String.string_of_list_byte b) with Some v => Ok v | None => Err "expected value" end;
  de_error_text _ := "malformed";
|}.
#[global] Instance text_events `{FasterHex, Secp256k1, SigSerde} : JsonEvents.
Proof.
  assert (∀ v, json_from_slice (as_bytes (json_to_string v)) = Ok v) as Hr.
  { intros v. cbn [json_from_slice text_json json_to_string text_serde]. unfold as_bytes.
    by rewrite String.string_of_list_byte_of_string, read_json_text. }
  split; intros; [apply Hr..|]. apply Utf8.ascii_is_str, json_text_ascii.
Qed.

(** ** A toy cipher suite *)

#[local] Existing Instance sample_secp.

Definition b32_value (b : bytes32) : N := BigEndian.from_be_bytes (b32_list b).
Definition mask (b : byte) : byte := byte_of_N (N.lxor (Byte.to_N b) 85).

Lemma mask_mask b : mask (mask b) = b.
Proof. by destruct b. Qed.

#[global] Instance toy_ciphers : Nip44Crates := {|
  keypair sk := b32_value (SecretKey.secret_bytes sk) : secret_key (EventCrypto := sample_crypto);
  shared_secret_point a pk :=
    (bytes32_of_N (N.lxor (b32_value (PublicKey.serialize (xonly_public_key a))) (b32_value (PublicKey.serialize pk))),
     bytes32_of_N 0);
  hkdf_extract salt ikm := bytes32_of_N (BigEndian.from_be_bytes ikm + N.of_nat (length salt));
  hkdf_expand prk info n := resize n x07 (b32_list prk ++ info);
  apply_keystream _ _ b := mask <$> b;
  hmac_sha256 k m := bytes32_of_N (BigEndian.from_be_bytes k + N.of_nat (length m));
  hmac_verify k m tag := bool_decide (tag = b32_list (bytes32_of_N (BigEndian.from_be_bytes k + N.of_nat (length m))));
|}.

#[global] Instance toy_laws : Nip44Laws.
Proof.
  split; intros.
  - cbn [shared_secret_point toy_ciphers fst]. by rewrite N.lxor_comm.
  - cbn. apply length_resize.
  - cbn. rewrite <-list_fmap_compose. rewrite (list_fmap_ext _ id); [apply list_fmap_id|].
    intros _ x _. apply mask_mask.
  - apply length_fmap.
  - apply bool_decide_eq_true.
Qed.

(** Alice writes to Bob. *)
Definition alice_keys : secret_key := sample_key 1.
Definition bob_keys : secret_key := sample_key 2.

Lemma sample_keys_ok n : keys_ok (sample_key n).
Proof.
  split; [done|]. intros i. cbn [sign_schnorr sample_crypto].
  by rewrite length_app, PublicKey.pk_length_to_byte_array, EventId.length_to_byte_array.
Qed.

Definition draws (n : N) : Nip59.Draws :=
  Nip59.mkDraws (Ok (bytes32_of_N n)) (Ok (bytes32_of_N (n + 1))) (Ok (bytes32_of_N (n + 2))).
Definition hello : UnsignedEvent :=
  Chat.build_chat_message_rumor alice_keys [Chat.recipient_new bob] "hello" 1000 (Some "greetings") None.
