(* ===== verification/GiftWrapTheorems.v ===== *)
(** * Theorems about encrypted payloads, gift wraps and private messages *)

From Stdlib Require Import Ascii NArith Lia.
From S2P Require Import Prelude Encoding Text Ids Tags Event Filter FilterWire Nips Message HttpAuth Entities.
From S2P Require Import Storage Samples RelaySamples Client ClientSamples EntityTheorems GiftWrap GiftWrapProofs GiftWrapSamples.

Section encryption.
Context `{Nip44Crates, !Nip44Laws, Base64, !Base64Laws}.
Local Open Scope N_scope.

(** Encryption takes every text of 1 to 65535 bytes and nothing else.  The length
    of the payload only depends on the padded length, which is a multiple of 32
    between the length and 65536, grows with it and exceeds it by less than a
    quarter (or 32); so every payload passes the size checks of the reader.  It is
    not the next power of two: 65 bytes are padded to 96. *)
Theorem encryption_sizes :
  (∀ ck text nonce, let len := N.of_nat (String.length text) in
     match Nip44.encrypt_inner ck text nonce with
     | Ok payload => 1 ≤ len ∧ len ≤ 65535 ∧ N.of_nat (String.length payload) = payload_chars len
     | Err e => (len = 0 ∧ e = Nip44.EmptyPlaintext) ∨ (65535 < len ∧ e = Nip44.PlaintextTooLong len)
     end)
  ∧ (∀ len, 1 ≤ len → len ≤ 65535 →
       len ≤ Nip44.padded_length len ∧ Nip44.padded_length len ≤ 65536 ∧ Nip44.padded_length len mod 32 = 0
       ∧ Nip44.padded_length len < len + N.max 32 ((len - 1) / 4)
       ∧ Nip44.MIN_PAYLOAD_CHARS ≤ payload_chars len ∧ payload_chars len ≤ Nip44.MAX_PAYLOAD_CHARS)
  ∧ (∀ a b, a ≤ b → Nip44.padded_length a ≤ Nip44.padded_length b)
  ∧ Nip44.padded_length 65 = 96.
Proof.
  split.
  { intros ck text nonce. cbv zeta. destruct (Nip44.encrypt_inner ck text nonce) as [payload|e] eqn:E.
    - pose proof (encrypt_inner_length _ _ _ _ E). revert E. rewrite encrypt_inner_spec. cbv zeta.
      do 2 (case_decide; [done|]). intros _. repeat split; [lia..|done].
    - revert E. rewrite encrypt_inner_spec. cbv zeta. case_decide; [|case_decide; [|done]]; intros [= <-]; [left|right].
      + split; [lia|done].
      + done. }
  split; [|split; [apply Padding.padded_mono|reflexivity]].
  intros len Hlo Hhi. destruct (payload_chars_range len Hhi) as [Hc1 Hc2].
  assert (Nip44.padded_length len mod 32 = 0 ∧ Nip44.padded_length len < len + N.max 32 ((len - 1) / 4)) as [Hm Hlt].
  { destruct (N.le_gt_cases len 32) as [Hs|Hs]; [|by destruct (Padding.padded_spec len Hs) as (_ & _ & ? & ?)].
    rewrite Padding.padded_small by done. split; [done|]. lia. }
  split; [apply Padding.padded_ge|]. split; [by apply Padding.padded_range|]. done.
Qed.

(** What one party encrypts for the other, the other decrypts to the same text.
    Conversely, whatever decrypts under a conversation key was framed under it:
    version, nonce, the encryption of the text with its length and padding (whose
    bytes are not looked at), and the tag of all that; any other payload is
    refused. *)
Theorem encryption_round_trip :
  (∀ a b nonce text payload, Utf8.is_str text →
     Nip44.encrypt nonce a (xonly_public_key b) text = Ok payload →
     Nip44.decrypt b (xonly_public_key a) payload = Ok text)
  ∧ (∀ a b payload text, Nip44.decrypt b (xonly_public_key a) payload = Ok text →
       let ck := Nip44.derive a (xonly_public_key b) in
       Utf8.is_str text ∧
       ∃ nonce padding, let mks := Nip44.message_keys ck nonce in
         length padding = (N.to_nat (Nip44.padded_length (N.of_nat (String.length text))) - String.length text)%nat
         ∧ base64_decode payload = Ok (frame ck nonce (apply_keystream (Nip44.chacha_key mks) (Nip44.chacha_nonce mks)
             (BigEndian.to_be_bytes 2 (N.of_nat (String.length text)) ++ as_bytes text ++ padding)))).
Proof.
  split.
  - intros a b nonce text payload Hutf. unfold Nip44.encrypt, Nip44.decrypt. destruct nonce as [n|]; cbn; [|done].
    rewrite (derive_symmetric b a). by apply decrypt_encrypted.
  - intros a b payload text. unfold Nip44.decrypt. rewrite (derive_symmetric b a). cbv zeta.
    set (ck := Nip44.derive a _). intros (_ & _ & nonce & ct & bs & Hb & _ & _ & Hu & Hutf)%decrypt_Ok.
    apply Utf8.from_utf8_Ok in Hutf as [Hs <-]. split; [done|].
    apply Padding.unpad_Ok in Hu as (_ & _ & z & Hz & Hlen). rewrite length_as_bytes in *.
    exists nonce, z. split; [lia|]. rewrite <-Hz, keystream_twice. done.
Qed.
End encryption.

Section gift_wrap.
Context `{FasterHex, !FasterHexLaws, Secp256k1, SecretScalar, SerdeJson, !SerdeJsonLaws, SigSerde, !SigSerdeLaws,
  JsonText, !JsonEvents, EventCrypto, !EventCryptoLaws, !Nip44Crates, !Nip44Laws, Base64, !Base64Laws, UrlCrate}.
Import Nip59.

(** C25: A rumor sealed by its author and wrapped for a recipient is what the
    recipient unwraps, whatever id the rumor claims; a rumor that names another
    author is refused as an impersonation.  The envelope is a valid event of kind
    1059 with the given date, one tag, which names the recipient, and a key that
    has nothing to do with the sender.  It can only fail for want of entropy, for a
    text that is too long, or for random bytes that are no secret key. *)
Theorem gift_wrap_round_trip d sender recipient rumor hint seal_at wrap_at :
  keys_ok sender → UnsignedJson.json_ok rumor → (seal_at <= Dec.u64_max)%N →
  let r := seal_and_wrap d sender (xonly_public_key recipient) rumor hint seal_at wrap_at in
  (∀ w, r = Ok w →
      unwrap recipient w =
        (if decide (UnsignedEvent.pubkey rumor = xonly_public_key sender) then Ok rumor else Err PubkeyMismatch)
      ∧ Event.verify w = Ok tt ∧ Event.kind w = GIFT_WRAP ∧ Event.created_at w = wrap_at
      ∧ Event.tags w = [recipient_tag (xonly_public_key recipient) hint]
      ∧ ∃ k, generate_keys (ephemeral_bytes d) = Ok k ∧ Event.pubkey w = xonly_public_key k)
  ∧ (∀ e, r = Err e →
      (∃ r, e = Rng r ∨ e = Nip44 (Nip44.Rng r)) ∨ (∃ n, (65535 < n)%N ∧ e = Nip44 (Nip44.PlaintextTooLong n))
      ∨ e = Nip44 Nip44.EmptyPlaintext
      ∨ e = Internal "ephemeral key generation failed: not a valid secp256k1 scalar").
Proof. apply envelope_outcome. Qed.

(** C24: Whoever a rumor is attributed to has sealed it: if an event unwraps to a
    rumor, it is a gift wrap, it was encrypted for the recipient, and in it is a
    seal with a valid id and signature of the rumor's own author, encrypted
    between that author and the recipient.  The rumor's fields are in range; its
    id is the one written in it, not checked against them. *)
Theorem unwrap_authentic recipient w rumor :
  unwrap recipient w = Ok rumor →
  Event.kind w = GIFT_WRAP ∧ UnsignedJson.json_ok rumor
  ∧ ∃ seal seal_json rumor_json,
      Nip44.decrypt recipient (Event.pubkey w) (Event.content w) = Ok seal_json
      ∧ from_json EventJson.deserialize seal_json = Ok seal
      ∧ Event.kind seal = SEAL ∧ Event.pubkey seal = UnsignedEvent.pubkey rumor
      ∧ Event.id seal = Event.compute_event_id (Event.pubkey seal) (Event.created_at seal) (Event.kind seal)
                          (Event.tags seal) (Event.content seal)
      ∧ verify_schnorr (Event.sig seal) (EventId.to_byte_array (Event.id seal)) (UnsignedEvent.pubkey rumor) = true
      ∧ Nip44.decrypt recipient (UnsignedEvent.pubkey rumor) (Event.content seal) = Ok rumor_json
      ∧ from_json UnsignedJson.deserialize rumor_json = Ok rumor.
Proof.
  unfold unwrap. case_decide as Hk; [done|].
  destruct (Nip44.decrypt recipient (Event.pubkey w) _) as [seal_json|] eqn:E1; cbn [map_err result_bind]; [|done].
  destruct (from_json EventJson.deserialize seal_json) as [seal|] eqn:E2; cbn [map_err result_bind]; [|done].
  case_decide as Hk1; [done|].
  destruct (Event.verify seal) as [[]|] eqn:Ev; cbn [map_err result_bind]; [|done].
  destruct (Nip44.decrypt recipient (Event.pubkey seal) _) as [rumor_json|] eqn:E3; cbn [map_err result_bind]; [|done].
  destruct (from_json UnsignedJson.deserialize rumor_json) as [u|] eqn:E4; cbn [map_err result_bind]; [|done].
  case_decide as Hp; [done|]. intros [= <-]. split; [done|]. split.
  { revert E4. unfold from_json. destruct (json_from_slice _) as [v|]; cbn; [|done].
    destruct (UnsignedJson.deserialize v) as [u'|] eqn:Ed; cbn; [|done]. intros [= <-]. by eapply unsigned_deserialize_ok. }
  exists seal, seal_json, rumor_json. rewrite Hp.
  unfold Event.verify, Event.verify_id, Event.verify_signature in Ev.
  case_bool_decide as Hid; cbn in Ev; [|done].
  destruct (verify_schnorr _ _ _) eqn:Evs; cbn in Ev; [|done].
  repeat split; try done. 
Qed.

Import Chat.

(** The envelope at the [j]-th place is for the [j]-th of those it is for. *)
Lemma chat_envelope draws sender recipients message at_ subject reply ts ws j w r :
  let rumor := build_chat_message_rumor sender recipients message at_ subject reply in
  keys_ok sender → (at_ <= Dec.u64_max)%N → (seal_at ts <= Dec.u64_max)%N →
  wrap_for_many draws sender recipients rumor ts = Ok ws →
  ws !! j = Some w → (recipient_new (xonly_public_key sender) :: recipients) !! j = Some r →
  Event.created_at w = wrap_at ts
  ∧ ∀ key, public_key r = xonly_public_key key →
      Event.tags w = [recipient_tag (public_key r) (relay_hint r)] ∧ unwrap_chat_message key w = Ok rumor.
Proof.
  cbv zeta. set (rumor := build_chat_message_rumor _ _ _ _ _ _). intros Hs Hat Hseal Hws Hj Hrj.
  pose proof (chat_rumor_ok sender recipients message at_ subject reply Hs Hat) as Hr. fold rumor in Hr.
  unfold wrap_for_many in Hws. destruct recipients as [|r0 rs]; [done|].
  apply wrap_each_spec in Hws as [_ Hw]. destruct (Hw j w Hj) as (r' & Hr' & Esw). assert (r' = r) as -> by congruence. split.
  - unfold seal_and_wrap in Esw. destruct (create_seal _ _ _ _ _) as [seal|]; cbn [result_bind] in Esw; [|done].
    pose proof (create_gift_wrap_spec (ephemeral_bytes (draws (0 + j)%nat)) (wrap_nonce (draws (0 + j)%nat)) seal
      (public_key r) (relay_hint r) (wrap_at ts)) as Hg. rewrite Esw in Hg. by destruct Hg as (_ & _ & ? & _).
  - intros key Hkey. rewrite Hkey in *.
    pose proof (envelope_spec (draws (0 + j)%nat) sender key rumor (relay_hint r) (seal_at ts) (wrap_at ts) Hs Hr Hseal)
      as He. rewrite Esw in He. destruct He as (Hu & _ & _ & _ & Ht & _). split; [done|].
    unfold unwrap_chat_message, unwrap_dm_payload. rewrite Hu, decide_True by done. cbn [map_err result_bind].
    by rewrite decide_False by (intros Hn; by apply Hn).
Qed.

Lemma wrap_for_many_length draws sender recipients rumor ts ws :
  wrap_for_many draws sender recipients rumor ts = Ok ws → recipients ≠ [] ∧ length ws = S (length recipients).
Proof. unfold wrap_for_many. destruct recipients; [done|]. by intros [Hl _]%wrap_each_spec. Qed.

(** A private message reaches everyone it is for, and its sender: there is one
    envelope per recipient, and one for the sender's own copy, each tagged with the
    one it is for, and each of them unwraps theirs to the same message.  (All the
    envelopes of a message carry the same date.) *)
Theorem chat_delivered draws sender recipients message at_ subject reply ts ws :
  let rumor := build_chat_message_rumor sender recipients message at_ subject reply in
  keys_ok sender → (at_ <= Dec.u64_max)%N → (seal_at ts <= Dec.u64_max)%N →
  wrap_for_many draws sender recipients rumor ts = Ok ws →
  recipients ≠ [] ∧ length ws = S (length recipients)
  ∧ (∀ w, w ∈ ws → Event.created_at w = wrap_at ts)
  ∧ (∃ w, ws !! 0%nat = Some w ∧ unwrap_chat_message sender w = Ok rumor)
  ∧ (∀ i r key, recipients !! i = Some r → public_key r = xonly_public_key key →
       ∃ w, ws !! S i = Some w ∧ Event.tags w = [recipient_tag (public_key r) (relay_hint r)]
            ∧ unwrap_chat_message key w = Ok rumor).
Proof.
  cbv zeta. intros Hs Hat Hseal Hws.
  pose proof (λ j w r Hj Hr, chat_envelope draws sender recipients message at_ subject reply ts ws j w r Hs Hat Hseal Hws Hj Hr) as Hone.
  destruct (wrap_for_many_length _ _ _ _ _ _ Hws) as [Hne Hl]. split; [done|]. split; [done|].
  assert (∀ j, j < length ws → is_Some (ws !! j))%nat as Hsome by (intros j Hj; by apply lookup_lt_is_Some).
  split; [|split].
  - intros w (j & Hj)%list_elem_of_lookup.
    destruct (lookup_lt_is_Some_2 (recipient_new (xonly_public_key sender) :: recipients) j) as [r Hr];
      [apply lookup_lt_Some in Hj; simpl; lia|by eapply Hone].
  - destruct (Hsome 0%nat ltac:(lia)) as [w Hj]. exists w. split; [done|]. by eapply (Hone 0%nat w).
  - intros i r key Hi Hkey. destruct (Hsome (S i)) as [w Hj]; [apply lookup_lt_Some in Hi; lia|].
    exists w. split; [done|]. eapply (Hone (S i) w r); done.
Qed.
End gift_wrap.

(** ** Instances *)

#[local] Existing Instance sample_secp.

Definition hello_key : Nip44.ConversationKey := Nip44.derive alice_keys (xonly_public_key bob_keys).
Definition hello_nonce : bytes32 := bytes32_of_N 9.

Lemma encryption_sizes_witness :
  (∃ payload, Nip44.encrypt_inner hello_key "hello" hello_nonce = Ok payload ∧ String.length payload = 132%nat)
  ∧ Nip44.padded_length 65 = 96%N.
Proof.
  split; [|apply encryption_sizes].
  pose proof (proj1 encryption_sizes hello_key "hello" hello_nonce) as Hs. cbv zeta in Hs.
  destruct (Nip44.encrypt_inner hello_key "hello" hello_nonce) as [payload|e]; [|exfalso; destruct Hs as [[? _]|[? _]]; done].
  exists payload. destruct Hs as (_ & _ & Hl). split; [done|]. vm_compute (payload_chars _) in Hl. lia.
Defined.

Lemma encryption_round_trip_witness :
  ∃ payload, Nip44.encrypt (Ok hello_nonce) alice_keys (xonly_public_key bob_keys) "hello" = Ok payload
    ∧ Nip44.decrypt bob_keys (xonly_public_key alice_keys) payload = Ok "hello".
Proof.
  eexists. split; [vm_compute; reflexivity|].
  apply (proj1 encryption_round_trip alice_keys bob_keys (Ok hello_nonce) "hello"); vm_compute; reflexivity.
Defined.

Abbreviation sample_envelope :=
  (Nip59.seal_and_wrap (draws 7) alice_keys (xonly_public_key bob_keys) hello None 500 600).
Lemma sample_envelope_Ok : ∃ w, sample_envelope = Ok w.
Proof. apply result_ok_Ok. vm_compute. eexists. reflexivity. Qed.
Lemma hello_ok : UnsignedJson.json_ok hello.
Proof. apply chat_rumor_ok; [apply sample_keys_ok|done]. Qed.

Lemma gift_wrap_round_trip_witness :
  ∃ w, sample_envelope = Ok w ∧ Nip59.unwrap bob_keys w = Ok hello ∧ Event.pubkey w ≠ Event.pubkey note1.
Proof.
  destruct sample_envelope_Ok as [w E].
  destruct (proj1 (gift_wrap_round_trip (draws 7) alice_keys bob_keys hello None 500 600
    (sample_keys_ok 1) hello_ok ltac:(done)) w E) as (Hu & _ & _ & _ & _ & k & Hk & Hp).
  exists w. split; [exact E|]. split; [exact Hu|].
  rewrite Hp. injection Hk as <-. vm_compute. discriminate.
Defined.

Lemma sample_unwraps w : sample_envelope = Ok w → Nip59.unwrap bob_keys w = Ok hello.
Proof.
  intros E. refine (proj1 (proj1 (envelope_outcome (draws 7) alice_keys bob_keys hello None 500 600
    (sample_keys_ok 1) hello_ok _) w E)). done.
Qed.

Lemma unwrap_authentic_witness :
  ∃ w seal, sample_envelope = Ok w ∧ Event.pubkey seal = xonly_public_key alice_keys ∧ Event.kind seal = Nip59.SEAL.
Proof.
  destruct sample_envelope_Ok as [w E].
  destruct (unwrap_authentic bob_keys w hello (sample_unwraps w E)) as (_ & _ & seal & _ & _ & _ & _ & Hk & Hp & _).
  exists w, seal. split; [exact E|]. split; [exact Hp|exact Hk].
Defined.

Definition sample_times : Nip59.Timestamps := Nip59.mkTimestamps 1000 500 600.
Abbreviation sample_wraps :=
  (Chat.wrap_for_many (λ i, draws (N.of_nat i * 3 + 7)) alice_keys [Chat.recipient_new bob] hello sample_times).
Lemma sample_wraps_Ok : ∃ ws, sample_wraps = Ok ws.
Proof. apply result_ok_Ok. vm_compute. eexists. reflexivity. Qed.

Lemma chat_delivered_witness :
  ∃ mine yours, sample_wraps = Ok [mine; yours]
    ∧ Chat.unwrap_chat_message alice_keys mine = Ok hello ∧ Chat.unwrap_chat_message bob_keys yours = Ok hello.
Proof.
  destruct sample_wraps_Ok as [ws E]. pose proof E as Ew. unfold hello in E.
  destruct (chat_delivered _ alice_keys [Chat.recipient_new bob] "hello" 1000 (Some "greetings") None sample_times ws
    (sample_keys_ok 1) ltac:(done) ltac:(done) E) as (_ & Hl & _ & (w0 & H0 & Hu0) & Hall). clear E.
  destruct (Hall 0%nat (Chat.recipient_new bob) bob_keys eq_refl eq_refl) as (w1 & H1 & _ & Hu1). clear Hall.
  destruct ws as [|a [|b [|? ?]]]; try discriminate Hl. injection H0 as ->. injection H1 as ->.
  exists w0, w1. split; [exact Ew|]. split; [exact Hu0|exact Hu1].
Defined.
