(* ===== verification/Nip46.v ===== *)
(** * The remote-signing protocol (NIP-46, [nips/nip46.rs])

    Methods, permissions, requests and responses, their JSON envelopes, and the
    connection addresses.  What [serde_json] lends from the text it reads and how the
    [url] crate splits a query are classes. *)

From Stdlib Require Import Ascii NArith Lia.
From S2P Require Import Prelude Encoding Text Ids Tags Event Filter FilterWire Nips Message HttpAuth Entities GiftWrap.

(** Whether [serde_json] can lend the [method] of a text, that is, whether it is
    written without escapes: a [&str] is only read then. *)
Class JsonBorrow := { lends_method : string → bool }.

(** [Url::query_pairs]. *)
Class UrlQuery `{UrlCrate} := { query_pairs : url → list (string * string) }.

(** ** Methods *)

Module Method.

Inductive t :=
| Connect
| GetPublicKey
| SignEvent
| Nip04Encrypt
| Nip04Decrypt
| Nip44Encrypt
| Nip44Decrypt
| Ping
| SwitchRelays.

#[global] Instance t_eq_dec : EqDecision t.
Proof. solve_decision. Defined.

Definition as_str (m : t) : string :=
  match m with
  | Connect => "connect"
  | GetPublicKey => "get_public_key"
  | SignEvent => "sign_event"
  | Nip04Encrypt => "nip04_encrypt"
  | Nip04Decrypt => "nip04_decrypt"
  | Nip44Encrypt => "nip44_encrypt"
  | Nip44Decrypt => "nip44_decrypt"
  | Ping => "ping"
  | SwitchRelays => "switch_relays"
  end.

(** The error is the method that is not supported. *)
Definition from_str (s : string) : result t string :=
  if decide (s = "connect") then Ok Connect
  else if decide (s = "get_public_key") then Ok GetPublicKey
  else if decide (s = "sign_event") then Ok SignEvent
  else if decide (s = "nip04_encrypt") then Ok Nip04Encrypt
  else if decide (s = "nip04_decrypt") then Ok Nip04Decrypt
  else if decide (s = "nip44_encrypt") then Ok Nip44Encrypt
  else if decide (s = "nip44_decrypt") then Ok Nip44Decrypt
  else if decide (s = "ping") then Ok Ping
  else if decide (s = "switch_relays") then Ok SwitchRelays
  else Err s.

Lemma from_as_str m : from_str (as_str m) = Ok m.
Proof. by destruct m. Qed.
End Method.
Abbreviation Method := Method.t.

Module Nip46Error.
Inductive t :=
| PublicKeyErr (e : PublicKey.Error)
| RelayUrlErr (e : RelayUrl.Error)
| JsonErr (e : string)
| UnsignedEventErr (e : UnsignedEvent.Error)
| EventErr (e : Event.Error)
| InvalidParamLength (method : Method) (expected actual : nat)
| UnsupportedMethod (method : string)
| InvalidSwitchRelaysPayload
| WrongMessageKind (what : string)
| UnknownUriScheme (scheme : string)
| MalformedUri (what : string)
| UrlErr (e : string)
| UnexpectedResponse (method : Method) (expected received : string).
End Nip46Error.
Abbreviation Nip46Error := Nip46Error.t.

(** ** Permissions *)

Module Permission.

Inductive t :=
| Method (m : Method)
| SignEventKind (kind : Kind)
| Other (raw : string).

Definition to_wire (p : t) : string :=
  match p with
  | Method m => Method.as_str m
  | SignEventKind kind => Method.as_str Method.SignEvent +:+ ":" +:+ Dec.to_string kind
  | Other raw => raw
  end.

Definition join (perms : list t) : string := join "," (to_wire <$> perms).

(** It never fails. *)
Definition from_str (s : string) : t :=
  match split_once ":" s with
  | Some (head, tail) =>
      match (if decide (head = Method.as_str Method.SignEvent) then Dec.parse_u16 tail else None) with
      | Some raw => SignEventKind raw
      | None => Other s
      end
  | None => match Method.from_str s with Ok m => Method m | Err _ => Other s end
  end.

Definition split (wire : string) : list t :=
  match wire with
  | EmptyString => []
  | _ => from_str <$> filter (λ tok, tok ≠ EmptyString) (Text.trim <$> split "," wire)
  end.

(** A permission that its wire form names. *)
Definition canonical (p : t) : Prop :=
  match p with
  | Method _ => True
  | SignEventKind kind => (kind <= Dec.u16_max)%N
  | Other raw => raw ≠ EmptyString ∧ no_char "," raw = true ∧ Text.trim raw = raw ∧ from_str raw = Other raw
  end.
End Permission.
Abbreviation Permission := Permission.t.

(** ** Requests *)

Module Request.

Inductive t :=
| Connect (remote_signer_public_key : PublicKey) (secret : option string) (perms : option (list Permission))
| GetPublicKey
| SignEvent (unsigned : UnsignedEvent)
| Nip04Encrypt (peer : PublicKey) (text : string)
| Nip04Decrypt (peer : PublicKey) (ciphertext : string)
| Nip44Encrypt (peer : PublicKey) (text : string)
| Nip44Decrypt (peer : PublicKey) (ciphertext : string)
| Ping
| SwitchRelays.

Definition method (r : t) : Method :=
  match r with
  | Connect _ _ _ => Method.Connect
  | GetPublicKey => Method.GetPublicKey
  | SignEvent _ => Method.SignEvent
  | Nip04Encrypt _ _ => Method.Nip04Encrypt
  | Nip04Decrypt _ _ => Method.Nip04Decrypt
  | Nip44Encrypt _ _ => Method.Nip44Encrypt
  | Nip44Decrypt _ _ => Method.Nip44Decrypt
  | Ping => Method.Ping
  | SwitchRelays => Method.SwitchRelays
  end.

Section request.
Context `{FasterHex, Secp256k1, SerdeJson, JsonText}.

(** An absent secret before permissions is written as the empty string. *)
Definition params (r : t) : list string :=
  match r with
  | Connect pk secret perms =>
      [PublicKey.to_hex pk]
      ++ (if bool_decide (is_Some perms) then [default EmptyString secret]
          else match secret with Some s => [s] | None => [] end)
      ++ match perms with Some perms => [Permission.join perms] | None => [] end
  | GetPublicKey | Ping | SwitchRelays => []
  | SignEvent unsigned => [json_to_string (UnsignedJson.serialize unsigned)]
  | Nip04Encrypt peer text | Nip44Encrypt peer text => [PublicKey.to_hex peer; text]
  | Nip04Decrypt peer ciphertext | Nip44Decrypt peer ciphertext => [PublicKey.to_hex peer; ciphertext]
  end.

Definition parse_key (hex : string) : result PublicKey Nip46Error := map_err Nip46Error.PublicKeyErr (PublicKey.parse hex).

Definition invalid_param_length (m : Method) (expected actual : nat) : result t Nip46Error :=
  Err (Nip46Error.InvalidParamLength m expected actual).

Definition from_wire (m : Method) (params : list string) : result t Nip46Error :=
  match m, params with
  | Method.Connect, [pk_hex] => let? pk := parse_key pk_hex in Ok (Connect pk None None)
  | Method.Connect, [pk_hex; secret] => let? pk := parse_key pk_hex in Ok (Connect pk (Some secret) None)
  | Method.Connect, [pk_hex; secret; perms] =>
      let? pk := parse_key pk_hex in
      Ok (Connect pk (if decide (secret = EmptyString) then None else Some secret) (Some (Permission.split perms)))
  | Method.GetPublicKey, [] => Ok GetPublicKey
  | Method.SignEvent, [json] =>
      let? unsigned := map_err Nip46Error.JsonErr (from_json UnsignedJson.deserialize json) in Ok (SignEvent unsigned)
  | Method.Nip04Encrypt, [pk_hex; text] => let? peer := parse_key pk_hex in Ok (Nip04Encrypt peer text)
  | Method.Nip44Encrypt, [pk_hex; text] => let? peer := parse_key pk_hex in Ok (Nip44Encrypt peer text)
  | Method.Nip04Decrypt, [pk_hex; ciphertext] => let? peer := parse_key pk_hex in Ok (Nip04Decrypt peer ciphertext)
  | Method.Nip44Decrypt, [pk_hex; ciphertext] => let? peer := parse_key pk_hex in Ok (Nip44Decrypt peer ciphertext)
  | Method.Ping, [] => Ok Ping
  | Method.SwitchRelays, [] => Ok SwitchRelays
  | Method.GetPublicKey, _ | Method.Ping, _ | Method.SwitchRelays, _ => invalid_param_length m 0 (length params)
  | Method.SignEvent, _ | Method.Connect, _ => invalid_param_length m 1 (length params)
  | Method.Nip04Encrypt, _ | Method.Nip04Decrypt, _ | Method.Nip44Encrypt, _ | Method.Nip44Decrypt, _ =>
      invalid_param_length m 2 (length params)
  end.

(** The values of the Rust types. *)
Definition valid (r : t) : Prop :=
  match r with
  | Connect pk _ _ => PublicKey.valid pk
  | SignEvent unsigned => UnsignedJson.json_ok unsigned
  | Nip04Encrypt peer _ | Nip04Decrypt peer _ | Nip44Encrypt peer _ | Nip44Decrypt peer _ => PublicKey.valid peer
  | GetPublicKey | Ping | SwitchRelays => True
  end.
(** What a request becomes on the way: an empty secret before permissions is lost,
    and permissions are read again. *)
Definition read_back (r : t) : t :=
  match r with
  | Connect pk secret (Some perms) =>
      Connect pk (match secret with Some EmptyString => None | _ => secret end)
        (Some (Permission.split (Permission.join perms)))
  | _ => r
  end.
Definition canonical (r : t) : Prop :=
  match r with
  | Connect _ secret (Some perms) => secret ≠ Some EmptyString ∧ Forall Permission.canonical perms
  | _ => True
  end.
End request.
End Request.
Abbreviation Request := Request.t.

(** ** Responses *)

Module ResponseResult.
Section response_result.
Context `{FasterHex, Secp256k1, SerdeJson, SigSerde, JsonText, UrlCrate}.

Inductive t :=
| Ack
| ConnectSecret (secret : string)
| GetPublicKey (pk : PublicKey)
| SignEvent (event : Event)
| Nip04Encrypt (ciphertext : string)
| Nip04Decrypt (plaintext : string)
| Nip44Encrypt (ciphertext : string)
| Nip44Decrypt (plaintext : string)
| Pong
| SwitchRelays (relays : option (list RelayUrl))
| AuthUrl
| Error.

(** [Vec<String>]. *)
Definition de_strings (v : Json) : option (list string) := l ← de_seq v; mapM de_str l.

Fixpoint parse_relays (urls : list string) : result (list RelayUrl) Nip46Error :=
  match urls with
  | [] => Ok []
  | url :: urls =>
      let? r := map_err Nip46Error.RelayUrlErr (RelayUrl.parse url) in
      let? rs := parse_relays urls in Ok (r :: rs)
  end.

Definition from_wire (m : Method) (wire : string) : result t Nip46Error :=
  if decide (wire = "auth_url") then Ok AuthUrl
  else if decide (wire = "error") then Ok Error
  else
    match m with
    | Method.Connect => if decide (wire = "ack") then Ok Ack else Ok (ConnectSecret wire)
    | Method.GetPublicKey => let? pk := Request.parse_key wire in Ok (GetPublicKey pk)
    | Method.SignEvent =>
        let? event := map_err Nip46Error.JsonErr (from_json EventJson.deserialize wire) in Ok (SignEvent event)
    | Method.Nip04Encrypt => Ok (Nip04Encrypt wire)
    | Method.Nip04Decrypt => Ok (Nip04Decrypt wire)
    | Method.Nip44Encrypt => Ok (Nip44Encrypt wire)
    | Method.Nip44Decrypt => Ok (Nip44Decrypt wire)
    | Method.Ping =>
        if decide (wire = "pong") then Ok Pong else Err (Nip46Error.UnexpectedResponse m "pong" wire)
    | Method.SwitchRelays =>
        let trimmed := Text.trim wire in
        if decide (trimmed = "null") then Ok (SwitchRelays None)
        else
          match result_ok (json_from_slice (as_bytes trimmed)) ≫= de_strings with
          | None => Err Nip46Error.InvalidSwitchRelaysPayload
          | Some urls => let? relays := parse_relays urls in Ok (SwitchRelays (Some relays))
          end
    end.

Definition to_wire (r : t) : string :=
  match r with
  | Ack => "ack"
  | ConnectSecret s | Nip04Encrypt s | Nip04Decrypt s | Nip44Encrypt s | Nip44Decrypt s => s
  | GetPublicKey pk => PublicKey.to_hex pk
  | SignEvent event => json_to_string (EventJson.serialize event)
  | Pong => "pong"
  | SwitchRelays None => "null"
  | SwitchRelays (Some relays) => json_to_string (JArr (JStr ∘ RelayUrl.as_str <$> relays))
  | AuthUrl => "auth_url"
  | Error => "error"
  end.

Definition is_auth_url (r : t) : bool := match r with AuthUrl => true | _ => false end.
Definition is_error (r : t) : bool := match r with Error => true | _ => false end.

(** The result is one of the method's own. *)
Definition fits (m : Method) (r : t) : bool :=
  match m, r with
  | Method.Connect, (Ack | ConnectSecret _) | Method.GetPublicKey, GetPublicKey _ | Method.SignEvent, SignEvent _
  | Method.Nip04Encrypt, Nip04Encrypt _ | Method.Nip04Decrypt, Nip04Decrypt _ | Method.Nip44Encrypt, Nip44Encrypt _
  | Method.Nip44Decrypt, Nip44Decrypt _ | Method.Ping, Pong | Method.SwitchRelays, SwitchRelays _
  | _, (AuthUrl | Error) => true
  | _, _ => false
  end.
(** The values of the Rust types. *)
Definition valid (r : t) : Prop :=
  match r with
  | GetPublicKey pk => PublicKey.valid pk
  | SignEvent event => EventJson.json_ok event
  | SwitchRelays (Some relays) => Forall RelayUrl.normal relays
  | _ => True
  end.
(** The texts that are results of every method. *)
Definition reserved (text : string) : Prop := text = "auth_url" ∨ text = "error".
(** A free text is not taken for another result. *)
Definition plain (r : t) : Prop :=
  match r with
  | ConnectSecret s => s ≠ "ack" ∧ ¬ reserved s
  | Nip04Encrypt s | Nip04Decrypt s | Nip44Encrypt s | Nip44Decrypt s => ¬ reserved s
  | _ => True
  end.
End response_result.
End ResponseResult.
Abbreviation ResponseResult := ResponseResult.t.

Module Response.
Section response.
Context `{FasterHex, Secp256k1, SerdeJson, SigSerde, JsonText, UrlCrate}.

Record t := mk { result : option ResponseResult; error : option string }.

Definition with_result (r : ResponseResult) : t := mk (Some r) None.
Definition with_error (e : string) : t := mk None (Some e).

Definition from_wire (m : Method) (result : option string) (error : option string) : Prelude.result t Nip46Error :=
  match result with
  | Some s => let? r := ResponseResult.from_wire m s in Ok (mk (Some r) error)
  | None => Ok (mk None error)
  end.
End response.
End Response.
Abbreviation Response := Response.t.

(** ** Envelopes *)

Module Message.

Inductive t :=
| Request (id : string) (method : Method) (params : list string)
| Response (id : string) (result : option string) (error : option string).

Definition id (m : t) : string := match m with Request i _ _ | Response i _ _ => i end.

Section message.
Context `{FasterHex, Secp256k1, SerdeJson, SigSerde, JsonText, UrlCrate}.

Definition request (id : string) (r : Nip46.Request) : t := Request id (Request.method r) (Request.params r).
Definition response (id : string) (r : Nip46.Response) : t :=
  Response id (ResponseResult.to_wire <$> Response.result r) (Response.error r).

Definition into_request (m : t) : result Nip46.Request Nip46Error :=
  match m with
  | Request _ method params => Request.from_wire method params
  | Response _ _ _ => Err (Nip46Error.WrongMessageKind "expected Request, got Response")
  end.
Definition into_response (m : t) (method : Method) : result Nip46.Response Nip46Error :=
  match m with
  | Response _ result error => Response.from_wire method result error
  | Request _ _ _ => Err (Nip46Error.WrongMessageKind "expected Response, got Request")
  end.

(** *** The JSON form: an untagged enum *)

Definition opt_json (o : option string) : Json := match o with Some s => JStr s | None => JNull end.
Definition serialize (m : t) : Json :=
  match m with
  | Request id method params =>
      JObj [("id", JStr id); ("method", JStr (Method.as_str method)); ("params", JArr (JStr <$> params))]
  | Response id result error => JObj [("id", JStr id); ("result", opt_json result); ("error", opt_json error)]
  end.

(** The method is read as a borrowed string. *)
Definition de_method (lends : bool) (v : Json) : option Method :=
  if lends then s ← de_str v; result_ok (Method.from_str s) else None.
Definition de_opt_str (v : Json) : option (option string) :=
  match v with JNull => Some None | _ => Some <$> de_str v end.

Record RequestFields := mkRequestFields {
  rq_id : option string;
  rq_method : option Method;
  rq_params : option (list string);
}.
Definition visit_request (lends : bool) (fs : RequestFields) (entry : string * Json) : option RequestFields :=
  let '(mkRequestFields i m ps) := fs in
  let '(key, v) := entry in
  if decide (key = "id") then
    i ← result_ok (EventJson.fill key i (de_str v)); Some (mkRequestFields i m ps)
  else if decide (key = "method") then
    m ← result_ok (EventJson.fill key m (de_method lends v)); Some (mkRequestFields i m ps)
  else if decide (key = "params") then
    ps ← result_ok (EventJson.fill key ps (ResponseResult.de_strings v)); Some (mkRequestFields i m ps)
  else Some fs.
Definition de_request (lends : bool) (entries : list (string * Json)) : option t :=
  fs ← foldl (λ acc e, acc ≫= λ fs, visit_request lends fs e) (Some (mkRequestFields None None None)) entries;
  i ← rq_id fs; m ← rq_method fs; ps ← rq_params fs; Some (Request i m ps).

(** A missing [Option] field is [None]. *)
Record ResponseFields := mkResponseFields {
  rs_id : option string;
  rs_result : option (option string);
  rs_error : option (option string);
}.
Definition visit_response (fs : ResponseFields) (entry : string * Json) : option ResponseFields :=
  let '(mkResponseFields i r e) := fs in
  let '(key, v) := entry in
  if decide (key = "id") then
    i ← result_ok (EventJson.fill key i (de_str v)); Some (mkResponseFields i r e)
  else if decide (key = "result") then
    r ← result_ok (EventJson.fill key r (de_opt_str v)); Some (mkResponseFields i r e)
  else if decide (key = "error") then
    e ← result_ok (EventJson.fill key e (de_opt_str v)); Some (mkResponseFields i r e)
  else Some fs.
Definition de_response (entries : list (string * Json)) : option t :=
  fs ← foldl (λ acc e, acc ≫= λ fs, visit_response fs e) (Some (mkResponseFields None None None)) entries;
  i ← rs_id fs; Some (Response i (mjoin (rs_result fs)) (mjoin (rs_error fs))).

(** The variants are tried in order. *)
Definition deserialize (lends : bool) (v : Json) : option t :=
  entries ← de_map v;
  match de_request lends entries with Some m => Some m | None => de_response entries end.

Context `{JsonBorrow}.

(** [serde_json::from_str::<Message>]. *)
Definition from_str (text : string) : option t :=
  v ← result_ok (json_from_slice (as_bytes text)); deserialize (lends_method text) v.
Definition to_string (m : t) : string := json_to_string (serialize m).
End message.
End Message.

(** ** Connection addresses *)

Module Metadata.
Section metadata.
Context `{SerdeJson}.

Record t := mk {
  name : string;
  url : option string;
  description : option string;
  icons : option (list string);
}.
Definition new (name : string) : t := mk name None None None.

(** Absent fields are not written. *)
Definition serialize (m : t) : Json :=
  JObj ([("name", JStr (name m))]
        ++ match url m with Some s => [("url", JStr s)] | None => [] end
        ++ match description m with Some s => [("description", JStr s)] | None => [] end
        ++ match icons m with Some l => [("icons", JArr (JStr <$> l))] | None => [] end).

Record Fields := mkFields {
  f_name : option string;
  f_url : option (option string);
  f_description : option (option string);
  f_icons : option (option (list string));
}.
Definition no_fields : Fields := mkFields None None None None.
Definition de_opt_strings (v : Json) : option (option (list string)) :=
  match v with JNull => Some None | _ => Some <$> ResponseResult.de_strings v end.

Definition visit_field (fs : Fields) (entry : string * Json) : result Fields DeError :=
  let '(mkFields n u d i) := fs in
  let '(key, v) := entry in
  if decide (key = "name") then
    let? n := EventJson.fill key n (de_str v) in Ok (mkFields n u d i)
  else if decide (key = "url") then
    let? u := EventJson.fill key u (Nip46.Message.de_opt_str v) in Ok (mkFields n u d i)
  else if decide (key = "description") then
    let? d := EventJson.fill key d (Nip46.Message.de_opt_str v) in Ok (mkFields n u d i)
  else if decide (key = "icons") then
    let? i := EventJson.fill key i (de_opt_strings v) in Ok (mkFields n u d i)
  else Ok fs.
Fixpoint visit_fields (fs : Fields) (entries : list (string * Json)) : result Fields DeError :=
  match entries with
  | [] => Ok fs
  | entry :: entries => let? fs := visit_field fs entry in visit_fields fs entries
  end.
Definition finish (fs : Fields) : result t DeError :=
  let? n := ok_or (f_name fs) (MissingField "name") in
  Ok (mk n (mjoin (f_url fs)) (mjoin (f_description fs)) (mjoin (f_icons fs))).

(** An array gives the fields in order; the later ones may be left out. *)
Definition visit_array (vs : list Json) : result t DeError :=
  if (4 <? length vs)%nat then Err TrailingElements
  else let? fs := visit_fields no_fields (zip ["name"; "url"; "description"; "icons"] vs) in finish fs.

Definition deserialize (v : Json) : result t DeError :=
  match de_map v with
  | Some entries => let? fs := visit_fields no_fields entries in finish fs
  | None => match de_seq v with Some vs => visit_array vs | None => Err NotAnObject end
  end.
End metadata.
End Metadata.
Abbreviation Metadata := Metadata.t.

(** The keys and values of a query, percent-decoded. *)
Definition hex_value (c : ascii) : option N :=
  let n := N_of_ascii c in
  if (48 <=? n)%N && (n <=? 57)%N then Some (n - 48)%N
  else if (65 <=? n)%N && (n <=? 70)%N then Some (n - 55)%N
  else if (97 <=? n)%N && (n <=? 102)%N then Some (n - 87)%N
  else None.
Definition escaped (c : ascii) (rest : string) : option N :=
  if Ascii.eqb c "%" then
    match rest with
    | String a (String b _) => x ← hex_value a; y ← hex_value b; Some (16 * x + y)%N
    | _ => None
    end
  else None.
Fixpoint percent_decode (s : string) : string :=
  match s with
  | EmptyString => EmptyString
  | String c rest =>
      match escaped c rest, rest with
      | Some n, String _ (String _ rest) => String (ascii_of_N n) (percent_decode rest)
      | _, _ => String c (percent_decode rest)
      end
  end.

Module Uri.

Definition URI_SCHEME_CLIENT : string := "nostrconnect".
Definition URI_SCHEME_BUNKER : string := "bunker".

Section uri.
Context `{FasterHex, Secp256k1, SerdeJson, JsonText, UrlCrate, !UrlQuery}.

Inductive t :=
| Bunker (remote_signer_public_key : PublicKey) (relays : list RelayUrl) (secret : option string)
| Client (public_key : PublicKey) (relays : list RelayUrl) (metadata : Metadata) (secret : string)
    (perms : list Permission).

(** What the loop over the query has collected. *)
Record Query := mkQuery {
  q_relays : list RelayUrl;
  q_secret : option string;
  q_metadata : option Metadata;
  q_perms : list Permission;
}.
Definition visit_pair (q : Query) (key value : string) : result Query Nip46Error :=
  let '(mkQuery relays secret metadata perms) := q in
  if decide (key = "relay") then
    let? r := map_err Nip46Error.RelayUrlErr (RelayUrl.parse value) in Ok (mkQuery (relays ++ [r]) secret metadata perms)
  else if decide (key = "secret") then Ok (mkQuery relays (Some value) metadata perms)
  else if decide (key = "metadata") then
    let? m := map_err Nip46Error.JsonErr (from_json Metadata.deserialize value) in
    Ok (mkQuery relays secret (Some m) perms)
  else if decide (key = "perms") then Ok (mkQuery relays secret metadata (Permission.split value))
  else Ok q.
Fixpoint visit_pairs (q : Query) (pairs : list (string * string)) : result Query Nip46Error :=
  match pairs with
  | [] => Ok q
  | (key, value) :: pairs => let? q := visit_pair q key value in visit_pairs q pairs
  end.

Definition parse (uri : string) : result t Nip46Error :=
  let? parsed := map_err Nip46Error.UrlErr (url_parse uri) in
  let? host := ok_or (url_host_str parsed) (Nip46Error.MalformedUri "missing pubkey host") in
  let? public_key := Request.parse_key host in
  let? q := visit_pairs (mkQuery [] None None []) (query_pairs parsed) in
  let scheme := url_scheme parsed in
  if decide (scheme = URI_SCHEME_BUNKER) then Ok (Bunker public_key (q_relays q) (q_secret q))
  else if decide (scheme = URI_SCHEME_CLIENT) then
    let? secret := ok_or (q_secret q)
      (Nip46Error.MalformedUri "`nostrconnect://` URIs require the `secret` query parameter") in
    let? metadata := ok_or (q_metadata q)
      (Nip46Error.MalformedUri "`nostrconnect://` URIs require the `metadata` query parameter") in
    Ok (Client public_key (q_relays q) metadata secret (q_perms q))
  else Err (Nip46Error.UnknownUriScheme scheme).

Definition is_bunker (u : t) : bool := match u with Bunker _ _ _ => true | Client _ _ _ _ _ => false end.
Definition relays (u : t) : list RelayUrl := match u with Bunker _ rs _ | Client _ rs _ _ _ => rs end.
Definition secret (u : t) : option string := match u with Bunker _ _ s => s | Client _ _ _ s _ => Some s end.

(** *** Writing *)

Definition hex_nibble (n : N) : ascii :=
  if (n <=? 9)%N then ascii_of_N (48 + n) else if (n <=? 15)%N then ascii_of_N (65 + (n - 10)) else "0"%char.
Definition preserve (c : ascii) : bool :=
  let n := N_of_ascii c in
  ((48 <=? n) && (n <=? 57))%N || ((65 <=? n) && (n <=? 90))%N || ((97 <=? n) && (n <=? 122))%N
  || existsb (Ascii.eqb c) ["-"; "_"; "."; "~"; "/"; ":"]%char.
Fixpoint url_encode (input : string) : string :=
  match input with
  | EmptyString => EmptyString
  | String c rest =>
      if preserve c then String c (url_encode rest)
      else
        let n := N_of_ascii c in
        String "%" (String (hex_nibble (N.shiftr n 4)) (String (hex_nibble (N.land n 15)) (url_encode rest)))
  end.

(** The pairs in the order they are emitted; the first is introduced by [?], the others by [&]. *)
Definition query_of (relays : list RelayUrl) (secret metadata_json : option string) (perms : list Permission) :
    list (string * string) :=
  ((λ r, ("relay", RelayUrl.as_str r)) <$> relays)
  ++ match metadata_json with Some m => [("metadata", m)] | None => [] end
  ++ match secret with Some s => [("secret", s)] | None => [] end
  ++ match perms with [] => [] | _ => [("perms", Permission.join perms)] end.
Fixpoint emit (first : bool) (pairs : list (string * string)) : string :=
  match pairs with
  | [] => EmptyString
  | (key, value) :: pairs => (if first then "?" else "&") +:+ key +:+ "=" +:+ url_encode value +:+ emit false pairs
  end.
Definition write_query (relays : list RelayUrl) (secret metadata_json : option string) (perms : list Permission) : string :=
  emit true (query_of relays secret metadata_json perms).

Definition to_string (u : t) : string :=
  match u with
  | Bunker pk relays secret =>
      URI_SCHEME_BUNKER +:+ "://" +:+ PublicKey.to_hex pk +:+ write_query relays secret None []
  | Client pk relays metadata secret perms =>
      URI_SCHEME_CLIENT +:+ "://" +:+ PublicKey.to_hex pk
      +:+ write_query relays (Some secret) (Some (json_to_string (Metadata.serialize metadata))) perms
  end.

(** The values of the Rust types, and permissions that their wire form names. *)
Definition valid (u : t) : Prop :=
  match u with
  | Bunker pk relays secret =>
      PublicKey.valid pk ∧ Forall RelayUrl.normal relays ∧ (∀ s, secret = Some s → Utf8.is_str s)
  | Client pk relays _ secret perms =>
      PublicKey.valid pk ∧ Forall RelayUrl.normal relays ∧ Utf8.is_str secret
      ∧ Forall Permission.canonical perms ∧ Utf8.is_str (Permission.join perms)
  end.
End uri.
End Uri.
Abbreviation Uri := Uri.t.

(** ** What the crates promise *)

(** [serde_json] reads back what it wrote and lends the method of an envelope it
    wrote; an array is not surrounded by blanks and is not [null]. *)
Class JsonRpc `{FasterHex, Secp256k1, SerdeJson, SigSerde, JsonText, UrlCrate, JsonBorrow} : Prop := {
  reads_envelope : ∀ m, json_from_slice (as_bytes (json_to_string (Nip46.Message.serialize m))) = Ok (Nip46.Message.serialize m);
  lends_envelope : ∀ m, lends_method (json_to_string (Nip46.Message.serialize m)) = true;
  reads_strings : ∀ l, json_from_slice (as_bytes (json_to_string (JArr (JStr <$> l)))) = Ok (JArr (JStr <$> l));
  strings_trimmed : ∀ l, Text.trim (json_to_string (JArr (JStr <$> l))) = json_to_string (JArr (JStr <$> l));
  array_reserved : ∀ l, json_to_string (JArr (JStr <$> l)) ∉ ["null"; "auth_url"; "error"];
  event_reserved : ∀ e, json_to_string (EventJson.serialize e) ∉ ["auth_url"; "error"];
  reads_metadata : ∀ m, json_from_slice (as_bytes (json_to_string (Metadata.serialize m))) = Ok (Metadata.serialize m);
}.

(** [url] takes an address of this shape apart: scheme, host, and the pairs of the
    query percent-decoded. *)
Class UrlQueryLaws `{UrlCrate, !UrlQuery} : Prop :=
  splits_query : ∀ scheme host pairs,
    scheme ∈ [Uri.URI_SCHEME_BUNKER; Uri.URI_SCHEME_CLIENT] →
    String.length host = 64%nat → forallb Hex.is_lower_hex_byte (as_bytes host) = true →
    Forall (λ p, p.1 ∈ ["relay"; "metadata"; "secret"; "perms"] ∧ Utf8.is_str p.2) pairs →
    ∃ u, url_parse (scheme +:+ "://" +:+ host +:+ Uri.emit true pairs) = Ok u
         ∧ url_scheme u = scheme ∧ url_host_str u = Some host
         ∧ query_pairs u = (λ p, (p.1, percent_decode (Uri.url_encode p.2))) <$> pairs.
