(* ===== verification/RemoteSigner.v ===== *)
(** * The remote signer ([nula-signer])

    Both ends of NIP-46 over relays: the bunker that holds the keys ([bunker.rs]),
    and the client with its table of waiting calls and the task that answers them
    ([client.rs], [pending.rs], [dispatcher.rs]).  Entropy, clocks and what the pool
    of relays answers are arguments. *)

From Stdlib Require Import Ascii NArith Lia.
From S2P Require Import Prelude Encoding Text Ids Tags Event Filter FilterWire Nips Message HttpAuth Entities.
From S2P Require Import Storage Database Client Pool GiftWrap Nip46.

Definition NIP46_KIND : Kind := 24133.

(** ** Texts of errors that travel *)

Definition nip44_error_text (e : Nip44.Nip44Error) : string :=
  match e with
  | Nip44.EmptyPlaintext => "plaintext is empty"
  | Nip44.PlaintextTooLong n =>
      "plaintext too long: " +:+ Dec.to_string n +:+ " bytes (max " +:+ Dec.to_string Nip44.MAX_PLAINTEXT_BYTES +:+ ")"
  | Nip44.PayloadTooShort n =>
      "payload too short: " +:+ Dec.to_string n +:+ " characters (min " +:+ Dec.to_string Nip44.MIN_PAYLOAD_CHARS +:+ ")"
  | Nip44.PayloadTooLong n =>
      "payload too long: " +:+ Dec.to_string n +:+ " characters (max " +:+ Dec.to_string Nip44.MAX_PAYLOAD_CHARS +:+ ")"
  | Nip44.DecodedTooShort n => "decoded payload too short: " +:+ Dec.to_string n +:+ " bytes"
  | Nip44.DecodedTooLong n => "decoded payload too long: " +:+ Dec.to_string n +:+ " bytes"
  | Nip44.UnsupportedVersion b => "unsupported NIP-44 version byte: 0x" +:+ Hex.fmt_lower [b]
  | Nip44.InvalidBase64 e => "invalid base64: " +:+ e
  | Nip44.InvalidMac => "invalid MAC"
  | Nip44.InvalidPadding => "invalid padding"
  | Nip44.InvalidUtf8 => "plaintext is not valid UTF-8"
  | Nip44.Rng e => "entropy source failed: " +:+ e
  end.

Definition nip04_error_text (e : Nip04.Nip04Error) : string :=
  match e with
  | Nip04.MissingIvSeparator => "payload is missing the `?iv=` separator"
  | Nip04.Base64Err e => "base64 decode failed: " +:+ e
  | Nip04.InvalidIvLength expected actual =>
      "IV must be " +:+ Dec.to_string (N.of_nat expected) +:+ " bytes, got " +:+ Dec.to_string (N.of_nat actual)
  | Nip04.Unpad => "AES-256-CBC unpadding failed (wrong key or tampered payload)"
  | Nip04.InvalidUtf8 => "decrypted plaintext is not valid UTF-8"
  | Nip04.Rng e => e
  end.

(** ** The bunker *)

Module Bunker.
Section bunker.
Context `{FasterHex, Secp256k1, SerdeJson, SigSerde, JsonText, JsonBorrow, UrlCrate, EventCrypto, !Nip44Crates, Base64, AesCbc}.

Record NostrConnectKeys := mkKeys { signer : secret_key; user : secret_key }.
Definition keys_new (user : secret_key) : NostrConnectKeys := mkKeys user user.
Definition with_separate_signer (signer user : secret_key) : NostrConnectKeys := mkKeys signer user.

Definition BunkerPolicy : Type := PublicKey → Request → bool.
Definition ApproveAll : BunkerPolicy := λ _ _, true.

(** What handling one request draws: for the text it encrypts, and for the reply. *)
Record Draws := mkDraws {
  text_nonce : result bytes32 string;
  text_iv : result (list byte) string;
  reply_nonce : result bytes32 string;
  reply_clock : option Timestamp;
}.

Definition connect_response (expected presented : option string) : Response :=
  match expected with
  | Some secret =>
      if decide (presented = Some secret) then Response.with_result (ResponseResult.ConnectSecret secret)
      else Response.with_error "invalid or missing connect secret"
  | None => Response.with_result ResponseResult.Ack
  end.

Definition handle_authorized (d : Draws) (keys : NostrConnectKeys) (request : Request) : Response :=
  match request with
  | Request.GetPublicKey => Response.with_result (ResponseResult.GetPublicKey (xonly_public_key (user keys)))
  | Request.SignEvent unsigned =>
      match UnsignedEvent.sign_with_keys unsigned (user keys) with
      | Ok event => Response.with_result (ResponseResult.SignEvent event)
      | Err err => Response.with_error ("sign failed: " +:+ Nip59.signer_error_text err)
      end
  | Request.Ping => Response.with_result ResponseResult.Pong
  | Request.SwitchRelays => Response.with_result (ResponseResult.SwitchRelays None)
  | Request.Nip44Encrypt peer text =>
      match Nip44.encrypt (text_nonce d) (user keys) peer text with
      | Ok ciphertext => Response.with_result (ResponseResult.Nip44Encrypt ciphertext)
      | Err err => Response.with_error ("nip44_encrypt failed: " +:+ nip44_error_text err)
      end
  | Request.Nip44Decrypt peer ciphertext =>
      match Nip44.decrypt (user keys) peer ciphertext with
      | Ok plaintext => Response.with_result (ResponseResult.Nip44Decrypt plaintext)
      | Err err => Response.with_error ("nip44_decrypt failed: " +:+ nip44_error_text err)
      end
  | Request.Nip04Encrypt peer text =>
      match Nip04.encrypt (text_iv d) (user keys) peer text with
      | Ok ciphertext => Response.with_result (ResponseResult.Nip04Encrypt ciphertext)
      | Err err => Response.with_error ("nip04_encrypt failed: " +:+ nip04_error_text err)
      end
  | Request.Nip04Decrypt peer ciphertext =>
      match Nip04.decrypt (user keys) peer ciphertext with
      | Ok plaintext => Response.with_result (ResponseResult.Nip04Decrypt plaintext)
      | Err err => Response.with_error ("nip04_decrypt failed: " +:+ nip04_error_text err)
      end
  | Request.Connect _ _ _ => Response.with_error "unsupported method"
  end.

Definition build_response (d : Draws) (keys : NostrConnectKeys) (secret : option string) (policy : BunkerPolicy)
    (client : PublicKey) (request : Request) : Response :=
  match request with
  | Request.Connect _ presented _ => connect_response secret presented
  | other =>
      if policy client other then handle_authorized d keys other
      else Response.with_error "request rejected by bunker policy"
  end.

(** The event that carries a message of the protocol. *)
Definition carrier (nonce : result bytes32 string) (clock : option Timestamp) (from : secret_key) (to : PublicKey)
    (message : Nip46.Message.t) : result Event (Nip44.Nip44Error + EventBuilder.Error) :=
  let? ciphertext := map_err inl (Nip44.encrypt nonce from to (Nip46.Message.to_string message)) in
  map_err inr (EventBuilder.sign_with_keys clock
    (EventBuilder.add_tag (EventBuilder.new NIP46_KIND ciphertext) (Tag.p to)) from).

(** What is handed to the pool; failures are silent. *)
Definition publish_response (d : Draws) (keys : NostrConnectKeys) (client : PublicKey) (request_id : string)
    (response : Response) : option Event :=
  result_ok (carrier (reply_nonce d) (reply_clock d) (signer keys) client (Nip46.Message.response request_id response)).

Definition handle_request_event (d : Draws) (keys : NostrConnectKeys) (secret : option string) (policy : BunkerPolicy)
    (event : Event) : option Event :=
  plain ← result_ok (Nip44.decrypt (signer keys) (Event.pubkey event) (Event.content event));
  envelope ← Nip46.Message.from_str plain;
  let request_id := Nip46.Message.id envelope in
  request ← result_ok (Nip46.Message.into_request envelope);
  publish_response d keys (Event.pubkey event) request_id
    (build_response d keys secret policy (Event.pubkey event) request).

(** The loop over the stream of events: what is published for each item. *)
Definition listen (d : Draws) (keys : NostrConnectKeys) (secret : option string) (policy : BunkerPolicy)
    (item : result Event unit) : option Event :=
  match item with
  | Err _ => None
  | Ok event =>
      if decide (Event.kind event ≠ NIP46_KIND) then None else handle_request_event d keys secret policy event
  end.
Definition run_listener (keys : NostrConnectKeys) (secret : option string) (policy : BunkerPolicy)
    (items : list (Draws * result Event unit)) : list Event :=
  omap (λ '(d, item), listen d keys secret policy item) items.

(** *** The running bunker *)

Record BunkerInner := mkInner {
  b_keys : NostrConnectKeys;
  b_relays : list RelayUrl;
  b_secret : option string;
  b_policy : BunkerPolicy;
}.
Definition signer_public_key (b : BunkerInner) : PublicKey := xonly_public_key (signer (b_keys b)).
Definition user_public_key (b : BunkerInner) : PublicKey := xonly_public_key (user (b_keys b)).
Definition bunker_uri (b : BunkerInner) : Uri := Uri.Bunker (signer_public_key b) (b_relays b) (b_secret b).
End bunker.
End Bunker.

(** ** The client *)

Module Connect.

Section error.
Context `{UrlCrate}.
Inductive Error :=
| PoolErr (e : PoolError)
| RelayErr (e : ClientError)
| Nip46Err (e : Nip46Error)
| Nip44Err (e : Nip44.Nip44Error)
| EventErr (e : EventBuilder.Error)
| Timeout (method : Method)
| Rejected (method : Method) (message : string)
| DispatcherDown (why : string)
| Spoofed
| BootstrapAddRelay (url : RelayUrl) (e : string)
| WrongPoolMode
| MissingUri
| MissingPool
| MissingKeys
| MissingRelays
| MalformedEnvelope (e : string)
| Cancelled (why : string)
| AuthUrl (e : string).
End error.

Section client.
Context `{FasterHex, Secp256k1, SerdeJson, SigSerde, JsonText, JsonBorrow, UrlCrate, EventCrypto, !Nip44Crates, Base64}.

(** *** The table of waiting calls ([pending.rs]) *)

(** A reply channel is the number of the call that waits on it. *)
Record Pending := mkPending { p_method : Method; p_sender : nat }.

Inductive Stage := Sending | Awaiting.
Record Call := mkCall { c_request : Request; c_id : string; c_stage : Stage }.
(** A call's return: its number, what was asked, under which id if it was sent, and the answer. *)
Record Return := mkReturn {
  r_number : nat;
  r_request : Request;
  r_id : option string;
  r_result : result ResponseResult Error;
}.

(** The task that answers: waiting for the next event, waiting for the handler of an
    address with the entry it took, or over. *)
Inductive Dispatcher :=
| Listening
| Asking (id : string) (entry : Pending)
| Over.

(** What the clones of a client share: the table, the keys learnt, the task; the
    values sent on reply channels; the calls under way; and, in order, what was
    published and what calls returned. *)
Record Inner := mkInner {
  pending : gmap string Pending;
  remote_signer_pk : option PublicKey;
  user_pk : option PublicKey;
  dispatcher : Dispatcher;
  sent : list (nat * result ResponseResult Error);
  calls : gmap nat Call;
  next_call : nat;
  outbox : list Event;
  returned : list Return;
}.

Definition set_pending (s : Inner) p :=
  mkInner p (remote_signer_pk s) (user_pk s) (dispatcher s) (sent s) (calls s) (next_call s) (outbox s) (returned s).
Definition set_remote (s : Inner) k :=
  mkInner (pending s) k (user_pk s) (dispatcher s) (sent s) (calls s) (next_call s) (outbox s) (returned s).
Definition set_user (s : Inner) k :=
  mkInner (pending s) (remote_signer_pk s) k (dispatcher s) (sent s) (calls s) (next_call s) (outbox s) (returned s).
Definition set_dispatcher (s : Inner) d :=
  mkInner (pending s) (remote_signer_pk s) (user_pk s) d (sent s) (calls s) (next_call s) (outbox s) (returned s).
Definition set_calls (s : Inner) c :=
  mkInner (pending s) (remote_signer_pk s) (user_pk s) (dispatcher s) (sent s) c (next_call s) (outbox s) (returned s).
Definition set_next (s : Inner) n :=
  mkInner (pending s) (remote_signer_pk s) (user_pk s) (dispatcher s) (sent s) (calls s) n (outbox s) (returned s).
Definition publish (s : Inner) e :=
  mkInner (pending s) (remote_signer_pk s) (user_pk s) (dispatcher s) (sent s) (calls s) (next_call s)
    (outbox s ++ [e]) (returned s).

(** [oneshot::Sender::send]. *)
Definition send (s : Inner) (n : nat) (r : result ResponseResult Error) : Inner :=
  mkInner (pending s) (remote_signer_pk s) (user_pk s) (dispatcher s) (sent s ++ [(n, r)]) (calls s) (next_call s)
    (outbox s) (returned s).

Definition insert (s : Inner) (id : string) (method : Method) (n : nat) : Inner :=
  let prev := pending s !! id in
  let s := set_pending s (<[id := mkPending method n]> (pending s)) in
  match prev with
  | Some prev => send s (p_sender prev) (Err (Cancelled "id collision in PendingMap"))
  | None => s
  end.
Definition take (s : Inner) (id : string) : option Pending * Inner :=
  (pending s !! id, set_pending s (delete id (pending s))).
(** A previous entry is dropped, and its channel with it. *)
Definition reinsert (s : Inner) (id : string) (entry : Pending) : Inner :=
  set_pending s (<[id := entry]> (pending s)).
Definition cancel_all (s : Inner) (error : Error) : Inner :=
  foldl (λ s p, send s (p_sender p) (Err error)) (set_pending s ∅) (map_to_list (pending s)).*2.

(** *** The task ([dispatcher.rs]) *)

Record Config := mkConfig {
  client_keys : secret_key;
  relays : list RelayUrl;
  bunker_secret : option string;
  nostrconnect_secret : option string;
  auth_url_handler : bool;
}.

Inductive Decoded :=
| Result (r : result ResponseResult Error)
| AuthUrlTarget (target : url).

Definition decode_response (method : Method) (wire error : option string) : Decoded :=
  match Response.from_wire method wire error with
  | Err err => Result (Err (Nip46Err err))
  | Ok parsed =>
      match Response.result parsed, Response.error parsed with
      | Some ResponseResult.AuthUrl, error =>
          match error ≫= λ s, result_ok (url_parse s) with
          | Some target => AuthUrlTarget target
          | None => Result (Err (Rejected method (default "auth_url without target URL" error)))
          end
      | _, Some message => Result (Err (Rejected method message))
      | None, None => Result (Err (Rejected method "signer returned neither result nor error"))
      | Some value, None => Result (Ok value)
      end
  end.

Definition validate_secret_echo (s : Inner) (expected_secret : option string) (event_pubkey : PublicKey)
    (wire : option string) : Inner :=
  match remote_signer_pk s, expected_secret, wire with
  | None, Some secret, Some value => if decide (value = secret) then set_remote s (Some event_pubkey) else s
  | _, _, _ => s
  end.

(** With a handler, it is asked and the task waits for it. *)
Definition handle_auth_url (cfg : Config) (s : Inner) (id : string) (entry : Pending) (target : url) : Inner :=
  if auth_url_handler cfg then set_dispatcher s (Asking id entry)
  else
    send s (p_sender entry)
      (Err (Rejected (p_method entry)
         ("auth_url received but no handler installed (target = " +:+ url_as_str target +:+ ")"))).
Definition handler_done (s : Inner) (id : string) (entry : Pending) (outcome : result unit string) : Inner :=
  let s := set_dispatcher s Listening in
  match outcome with
  | Ok _ => reinsert s id entry
  | Err err => send s (p_sender entry) (Err (AuthUrl err))
  end.

Definition deliver_outcome (cfg : Config) (s : Inner) (id : string) (entry : Pending) (outcome : Decoded) : Inner :=
  match outcome with
  | Result res => send s (p_sender entry) res
  | AuthUrlTarget target => handle_auth_url cfg s id entry target
  end.

Definition on_response (cfg : Config) (s : Inner) (from : PublicKey) (id : string) (wire error : option string) : Inner :=
  let s := validate_secret_echo s (nostrconnect_secret cfg) from wire in
  match take s id with
  | (None, _) => s
  | (Some entry, s) => deliver_outcome cfg s id entry (decode_response (p_method entry) wire error)
  end.

(** What the task makes of an event: the response it carries. *)
Definition read_response (cfg : Config) (event : Event) : option (string * option string * option string) :=
  if decide (Event.kind event ≠ NIP46_KIND) then None
  else
    plain ← result_ok (Nip44.decrypt (client_keys cfg) (Event.pubkey event) (Event.content event));
    envelope ← Nip46.Message.from_str plain;
    match envelope with
    | Nip46.Message.Response id wire error => Some (id, wire, error)
    | Nip46.Message.Request _ _ _ => None
    end.

Definition on_item (cfg : Config) (s : Inner) (item : result Event unit) : Inner :=
  match item with
  | Err _ => s
  | Ok event =>
      match read_response cfg event with
      | Some (id, wire, error) => on_response cfg s (Event.pubkey event) id wire error
      | None => s
      end
  end.

(** The loop is over: every waiting call is cancelled. *)
Definition stream_over (s : Inner) (ended : bool) : Inner :=
  cancel_all (set_dispatcher s Over) (DispatcherDown (if ended then "stream ended" else "stream errored")).

(** *** Calls ([client.rs]) *)

(** What a call draws from the operating system. *)
Record Draws := mkDraws {
  id_random : result (list byte) string;
  id_nanos : list byte;
  nonce : result bytes32 string;
  clock : option Timestamp;
}.

(** Sixteen random bytes in hex, or the sixteen bytes of the time. *)
Definition generate_id (d : Draws) : string :=
  Hex.fmt_lower (match id_random d with Ok bytes => bytes | Err _ => id_nanos d end).

Definition finish (s : Inner) (r : Return) : Inner :=
  mkInner (pending s) (remote_signer_pk s) (user_pk s) (dispatcher s) (sent s) (delete (r_number r) (calls s)) (next_call s)
    (outbox s) (returned s ++ [r]).

(** [dispatch] up to the publish. *)
Definition dispatch (cfg : Config) (d : Draws) (s : Inner) (request : Request) : Inner :=
  let n := next_call s in
  let s := set_next s (S n) in
  match remote_signer_pk s with
  | None => finish s (mkReturn n request None (Err (DispatcherDown "signer pubkey unknown")))
  | Some signer_pk =>
      let id := generate_id d in
      match Bunker.carrier (nonce d) (clock d) (client_keys cfg) signer_pk (Nip46.Message.request id request) with
      | Err (inl e) => finish s (mkReturn n request None (Err (Nip44Err e)))
      | Err (inr e) => finish s (mkReturn n request None (Err (EventErr e)))
      | Ok event =>
          let s := insert s id (Request.method request) n in
          publish (set_calls s (<[n := mkCall request id Sending]> (calls s))) event
      end
  end.

(** Once it has been learnt, the user's key is not asked for again. *)
Definition call (cfg : Config) (d : Draws) (s : Inner) (request : Request) : Inner :=
  match request, user_pk s with
  | Request.GetPublicKey, Some pk =>
      finish (set_next s (S (next_call s))) (mkReturn (next_call s) request None (Ok (ResponseResult.GetPublicKey pk)))
  | _, _ => dispatch cfg d s request
  end.

(** The failures of every relay as the debug text of the map. *)
Variable debug_failed : gmap RelayUrl string → string.

(** The pool's answer to the publish. *)
Definition published (s : Inner) (n : nat) (outcome : result (Output EventId) PoolError) : Inner :=
  match calls s !! n with
  | Some (mkCall request id Sending) =>
      match outcome with
      | Err e => finish s (mkReturn n request (Some id) (Err (PoolErr e)))
      | Ok out =>
          if is_total_failure out then
            let error := Rejected (Request.method request)
                           ("publish failed on every relay: " +:+ debug_failed (failed out)) in
            finish (cancel_all s error) (mkReturn n request (Some id) (Err error))
          else set_calls s (<[n := mkCall request id Awaiting]> (calls s))
      end
  | _ => s
  end.

(** The channel's sender is gone without a value. *)
Definition closed (s : Inner) (n : nat) : bool :=
  bool_decide (map_Forall (λ _ p, p_sender p ≠ n) (pending s))
  && match dispatcher s with Asking _ entry => negb (Nat.eqb (p_sender entry) n) | _ => true end.

Definition sent_to (s : Inner) (n : nat) : option (result ResponseResult Error) :=
  snd <$> List.find (λ p, Nat.eqb p.1 n) (sent s).

(** A first answer to [get_public_key] is kept. *)
Definition remember (s : Inner) (r : result ResponseResult Error) : Inner :=
  match r, user_pk s with
  | Ok (ResponseResult.GetPublicKey pk), None => set_user s (Some pk)
  | _, _ => s
  end.

(** The call sees its channel, or its time is up. *)
Definition received (s : Inner) (n : nat) : Inner :=
  match calls s !! n with
  | Some (mkCall request id Awaiting) =>
      match sent_to s n with
      | Some r => finish (remember s r) (mkReturn n request (Some id) r)
      | None =>
          if closed s n
          then finish s (mkReturn n request (Some id) (Err (DispatcherDown "pending channel cancelled"))) else s
      end
  | _ => s
  end.
Definition timed_out (s : Inner) (n : nat) : Inner :=
  match calls s !! n with
  | Some (mkCall request id Awaiting) => finish s (mkReturn n request (Some id) (Err (Timeout (Request.method request))))
  | _ => s
  end.

(** *** Runs *)

Inductive Step :=
| Start (d : Draws) (request : Request)
| Published (n : nat) (outcome : result (Output EventId) PoolError)
| Received (n : nat)
| TimedOut (n : nat)
| Item (item : result Event unit)
| HandlerDone (outcome : result unit string)
| StreamOver (ended : bool)
| Aborted.

(** A step that is not possible is skipped.  An abort drops the task where it is,
    the entry it holds included, and cancels nothing. *)
Definition step (cfg : Config) (s : Inner) (st : Step) : Inner :=
  match st with
  | Start d request => call cfg d s request
  | Published n outcome => published s n outcome
  | Received n => received s n
  | TimedOut n => timed_out s n
  | Item item => match dispatcher s with Listening => on_item cfg s item | _ => s end
  | HandlerDone outcome =>
      match dispatcher s with Asking id entry => handler_done s id entry outcome | _ => s end
  | StreamOver ended => match dispatcher s with Listening => stream_over s ended | _ => s end
  | Aborted => set_dispatcher s Over
  end.
Definition run (cfg : Config) (s : Inner) (steps : list Step) : Inner := foldl (step cfg) s steps.

(** *** Answers as the callers see them *)

Definition unexpected {A} (method : Method) (what : string) (other : ResponseResult) : result A Error :=
  Err (Rejected method (what +:+ ResponseResult.to_wire other)).

Definition get_public_key (r : result ResponseResult Error) : result PublicKey Error :=
  let? v := r in
  match v with
  | ResponseResult.GetPublicKey pk => Ok pk
  | other => unexpected Method.GetPublicKey "unexpected response: " other
  end.
Definition sign_event (r : result ResponseResult Error) : result Event Error :=
  let? v := r in
  match v with
  | ResponseResult.SignEvent event => Ok event
  | other => unexpected Method.SignEvent "unexpected response: " other
  end.
Definition nip04_encrypt (r : result ResponseResult Error) : result string Error :=
  let? v := r in
  match v with
  | ResponseResult.Nip04Encrypt s => Ok s
  | other => unexpected Method.Nip04Encrypt "unexpected response: " other
  end.
Definition nip04_decrypt (r : result ResponseResult Error) : result string Error :=
  let? v := r in
  match v with
  | ResponseResult.Nip04Decrypt s => Ok s
  | other => unexpected Method.Nip04Decrypt "unexpected response: " other
  end.
Definition nip44_encrypt (r : result ResponseResult Error) : result string Error :=
  let? v := r in
  match v with
  | ResponseResult.Nip44Encrypt s => Ok s
  | other => unexpected Method.Nip44Encrypt "unexpected response: " other
  end.
Definition nip44_decrypt (r : result ResponseResult Error) : result string Error :=
  let? v := r in
  match v with
  | ResponseResult.Nip44Decrypt s => Ok s
  | other => unexpected Method.Nip44Decrypt "unexpected response: " other
  end.
Definition ping (r : result ResponseResult Error) : result unit Error :=
  let? v := r in
  match v with
  | ResponseResult.Pong => Ok tt
  | other => unexpected Method.Ping "unexpected response: " other
  end.
Definition switch_relays (r : result ResponseResult Error) : result (option (list RelayUrl)) Error :=
  let? v := r in
  match v with
  | ResponseResult.SwitchRelays payload => Ok payload
  | other => unexpected Method.SwitchRelays "unexpected response: " other
  end.
Definition bunker_handshake (r : result ResponseResult Error) : result unit Error :=
  let? v := r in
  match v with
  | ResponseResult.Ack | ResponseResult.ConnectSecret _ => Ok tt
  | other => unexpected Method.Connect "unexpected connect response: " other
  end.

(** *** Starting *)

(** The handshake of an address of the client's: the key is looked at every 25 ms
    until the deadline. *)
Fixpoint client_uri_handshake (polls : list Inner) : result unit Error :=
  match polls with
  | [] => Err Spoofed
  | s :: polls => if bool_decide (is_Some (remote_signer_pk s)) then Ok tt else client_uri_handshake polls
  end.

Definition bunker_request (cfg : Config) (s : Inner) (perms : option (list Permission)) : result Request Error :=
  match remote_signer_pk s with
  | None => Err (DispatcherDown "bunker:// handshake started before remote_signer_pk was seeded")
  | Some pk => Ok (Request.Connect pk (bunker_secret cfg) perms)
  end.

Record NostrConnectBuilder := mkBuilder {
  uri : option Uri;
  builder_keys : option secret_key;
  pool : option bool;
  handler : bool;
}.

Definition initial (uri : Uri) : Inner :=
  mkInner ∅ (match uri with Uri.Bunker pk _ _ => Some pk | Uri.Client _ _ _ _ _ => None end) None
    (match Uri.relays uri with [] => Over | _ => Listening end) [] ∅ 0 [] [].

(** [build] up to the handshake: [generated] are fresh keys, [added] is the pool's
    answer. *)
Definition build (b : NostrConnectBuilder) (generated : result secret_key string) (added : result unit PoolError) :
    result (Config * Inner) Error :=
  let? u := ok_or (uri b) MissingUri in
  let? _ := ok_or (pool b) MissingPool in
  let? keys := match builder_keys b with Some k => Ok k | None => map_err AuthUrl generated end in
  let? _ :=
    match u with
    | Uri.Client pk _ _ _ _ =>
        if decide (pk ≠ xonly_public_key keys)
        then Err (Rejected Method.Connect "nostrconnect:// URI public_key does not match client_keys") else Ok tt
    | Uri.Bunker _ _ _ => Ok tt
    end in
  let? _ := map_err PoolErr added in
  Ok (mkConfig keys (Uri.relays u)
        (match u with Uri.Bunker _ _ secret => secret | Uri.Client _ _ _ _ _ => None end)
        (match u with Uri.Client _ _ _ secret _ => Some secret | Uri.Bunker _ _ _ => None end) (handler b),
      initial u).

Definition bunker_uri (cfg : Config) (s : Inner) : result Uri Error :=
  let? pk := ok_or (remote_signer_pk s) (DispatcherDown "remote signer pubkey not yet observed") in
  Ok (Uri.Bunker pk (relays cfg) None).

Definition adopt_relays (embedded : bool) (added : result unit PoolError) : result unit Error :=
  if embedded then map_err PoolErr added else Err WrongPoolMode.
End client.
End Connect.
