(* ===== verification/RemoteSignerProofs.v ===== *)
(** * Lemmas about the remote-signing protocol and its two ends *)

From Stdlib Require Import Ascii NArith Lia.
From S2P Require Import Prelude Encoding Text Ids Tags Event Filter FilterWire Nips Message HttpAuth Entities.
From S2P Require Import Storage Database Client Pool EntityTheorems GiftWrap GiftWrapProofs Text Nip46 RemoteSigner.

(** ** Permissions *)

Module Permissions.
Import Permission.

Lemma digits_graphic n : Dec.string_forallb graphic (Dec.to_string n) = true.
Proof.
  apply (string_forallb_impl Dec.is_digit_char); [|apply Dec.to_string_digits].
  intros c. by destruct c as [[] [] [] [] [] [] [] []].
Qed.

(** A canonical permission is one token, and read as itself. *)
Lemma canonical_token p : canonical p →
  to_wire p ≠ EmptyString ∧ no_char "," (to_wire p) = true ∧ Text.trim (to_wire p) = to_wire p ∧ from_str (to_wire p) = p.
Proof.
  destruct p as [m|k|raw]; cbn [canonical to_wire]; [|intros Hk|tauto].
  - intros _. destruct m; vm_compute; done.
  - split; [done|]. split.
    { change (no_char "," ("sign_event:" +:+ Dec.to_string k) = true). rewrite no_char_app.
      apply (string_forallb_no_char _ Dec.is_digit_char (Dec.to_string k)); [done|apply Dec.to_string_digits]. }
    split.
    { apply trim_graphic. change (Dec.string_forallb graphic ("sign_event:" +:+ Dec.to_string k) = true).
      by rewrite string_forallb_app, digits_graphic. }
    unfold from_str. change (Method.as_str Method.SignEvent +:+ ":" +:+ Dec.to_string k)
      with ("sign_event" +:+ String ":" (Dec.to_string k)).
    rewrite split_once_app by done. rewrite decide_True by done.
    unfold Dec.parse_u16. by rewrite Dec.parse_to_string.
Qed.

Lemma split_join_perms perms : Forall canonical perms → split (join perms) = perms.
Proof.
  intros Hall. destruct perms as [|p ps]; [done|].
  assert (Forall (λ p, to_wire p ≠ EmptyString ∧ no_char "," (to_wire p) = true ∧ Text.trim (to_wire p) = to_wire p
                       ∧ from_str (to_wire p) = p) (p :: ps)) as Ht
    by (eapply Forall_impl; [exact Hall|apply canonical_token]).
  assert (filter (λ tok, tok ≠ EmptyString) (Text.trim <$> Text.split "," (join (p :: ps))) = to_wire <$> p :: ps
          ∧ from_str <$> (to_wire <$> p :: ps) = p :: ps) as [E1 E2].
  { unfold join. rewrite split_join; [|done|by apply Forall_fmap; eapply Forall_impl; [exact Ht|]; cbn; tauto].
    clear -Ht. induction Ht as [|q qs (Hne & _ & Htr & Hf) _ IH]; [done|]. destruct IH as [IH1 IH2]. split.
    - cbn [fmap list_fmap]. rewrite Htr, filter_cons_True by done. by f_equal.
    - cbn [fmap list_fmap]. by rewrite Hf, IH2. }
  unfold split. destruct (join (p :: ps)) as [|c w] eqn:Ew; [|by rewrite E1].
  exfalso. discriminate E1.
Qed.
End Permissions.

(** ** Requests, responses, envelopes *)

Section wire.
Context `{FasterHex, !FasterHexLaws, Secp256k1, SerdeJson, !SerdeJsonLaws, SigSerde, !SigSerdeLaws, JsonText, !JsonEvents,
  UrlCrate, !UrlCrateLaws, JsonBorrow, !JsonRpc}.

Lemma parse_key_hex pk : PublicKey.valid pk → Request.parse_key (PublicKey.to_hex pk) = Ok pk.
Proof. intros Hv. unfold Request.parse_key. by rewrite PublicKey.pk_parse_to_hex. Qed.
Lemma unsigned_reads u : UnsignedJson.json_ok u →
  from_json UnsignedJson.deserialize (json_to_string (UnsignedJson.serialize u)) = Ok u.
Proof. intros Hu. unfold from_json. rewrite reads_unsigned by done. cbn. by rewrite unsigned_json_round. Qed.

(** A request is read as what its wire form keeps of it. *)
Lemma request_reads r : Request.valid r → Request.from_wire (Request.method r) (Request.params r) = Ok (Request.read_back r).
Proof.
  destruct r as [pk secret [perms|]| |u|pk t|pk t|pk t|pk t| |]; cbn [Request.valid]; intros Hv; try reflexivity.
  - unfold Request.params. rewrite bool_decide_true by done. cbn. rewrite parse_key_hex by done. cbn.
    by destruct secret as [[|c s]|].
  - unfold Request.params. rewrite bool_decide_false by (by intros [? ?]). destruct secret; cbn; by rewrite parse_key_hex.
  - cbn. by rewrite unsigned_reads.
  - cbn. by rewrite parse_key_hex.
  - cbn. by rewrite parse_key_hex.
  - cbn. by rewrite parse_key_hex.
  - cbn. by rewrite parse_key_hex.
Qed.

Lemma canonical_read_back r : Request.canonical r → Request.read_back r = r.
Proof.
  destruct r as [pk secret [perms|]| |u|pk t|pk t|pk t|pk t| |]; try done. cbn. intros [Hs Hp].
  rewrite Permissions.split_join_perms by done. by destruct secret as [[|c s]|].
Qed.

Lemma mapM_str l : mapM de_str (JStr <$> l) = Some l.
Proof. induction l as [|s l IH]; [done|]. cbn. rewrite de_str_str. cbn. by rewrite IH. Qed.
Lemma de_strings_arr l : ResponseResult.de_strings (JArr (JStr <$> l)) = Some l.
Proof. unfold ResponseResult.de_strings. rewrite de_seq_arr. cbn. apply mapM_str. Qed.

Lemma parse_relays_normal rs : Forall RelayUrl.normal rs → ResponseResult.parse_relays (RelayUrl.as_str <$> rs) = Ok rs.
Proof.
  induction 1 as [|r rs Hr _ IH]; [done|]. cbn. rewrite RelayUrl.parse_as_str by done. cbn. by rewrite IH.
Qed.
Lemma to_hex_reserved pk : PublicKey.to_hex pk ∉ ["auth_url"; "error"].
Proof.
  intros Hin. assert (String.length (PublicKey.to_hex pk) = 64%nat) as Hl.
  { unfold PublicKey.to_hex. rewrite hex_encode_spec, <-length_as_bytes. rewrite Hex.length_fmt_lower.
    by rewrite PublicKey.pk_length_to_byte_array. }
  revert Hl. set_unfold in Hin. destruct Hin as [-> | [-> |[]]]; done.
Qed.
Lemma reserved_skipped {A} text (a b k : A) : text ∉ ["auth_url"; "error"] →
  (if decide (text = "auth_url") then a else if decide (text = "error") then b else k) = k.
Proof. set_unfold. intros Hn. rewrite !decide_False by tauto. done. Qed.

(** A result that is its method's own and not reserved is read as itself. *)
Lemma result_reads m r : ResponseResult.fits m r = true → ResponseResult.valid r → ResponseResult.plain r →
  ResponseResult.from_wire m (ResponseResult.to_wire r) = Ok r.
Proof.
  intros Hf Hv Hp. unfold ResponseResult.plain, ResponseResult.reserved in Hp. unfold ResponseResult.from_wire.
  destruct m, r; try discriminate Hf; try reflexivity; cbn [ResponseResult.to_wire ResponseResult.valid] in *;
    try (by rewrite reserved_skipped by (set_unfold; tauto)).
  - rewrite reserved_skipped by (set_unfold; tauto). by rewrite decide_False by tauto.
  - rewrite reserved_skipped by apply to_hex_reserved. by rewrite parse_key_hex.
  - rewrite reserved_skipped by apply event_reserved. unfold from_json. rewrite reads_event by done. cbn.
    by rewrite event_json_round.
  - destruct relays as [rs|]; [|reflexivity].
    change (JStr ∘ RelayUrl.as_str <$> rs) with ((λ r, JStr (RelayUrl.as_str r)) <$> rs).
    rewrite (list_fmap_compose RelayUrl.as_str JStr rs : (λ r, JStr (RelayUrl.as_str r)) <$> rs = JStr <$> (RelayUrl.as_str <$> rs)).
    pose proof (array_reserved (RelayUrl.as_str <$> rs)) as Hr. rewrite strings_trimmed.
    rewrite reserved_skipped by (set_unfold; tauto). rewrite decide_False by (set_unfold; tauto).
    rewrite reads_strings. cbn [result_ok mbind option_bind]. rewrite de_strings_arr, parse_relays_normal by done. done.
Qed.

(** The fields of an envelope, one by one. *)
Lemma de_opt_str_json o : Nip46.Message.de_opt_str (Nip46.Message.opt_json o) = Some o.
Proof. destruct o as [s|]; [|done]. cbn. by rewrite de_str_str. Qed.
Lemma rq_visit_id l i m ps :
  Nip46.Message.visit_request l (Nip46.Message.mkRequestFields None m ps) ("id", JStr i) =
  Some (Nip46.Message.mkRequestFields (Some i) m ps).
Proof. unfold Nip46.Message.visit_request. rewrite decide_True by done. by rewrite de_str_str. Qed.
Lemma rq_visit_method i m ps :
  Nip46.Message.visit_request true (Nip46.Message.mkRequestFields i None ps) ("method", JStr (Method.as_str m)) =
  Some (Nip46.Message.mkRequestFields i (Some m) ps).
Proof.
  unfold Nip46.Message.visit_request. rewrite decide_False, decide_True by done.
  unfold Nip46.Message.de_method. rewrite de_str_str. cbn [mbind option_bind]. by rewrite Method.from_as_str.
Qed.
Lemma rq_visit_params l i m ps :
  Nip46.Message.visit_request l (Nip46.Message.mkRequestFields i m None) ("params", JArr (JStr <$> ps)) =
  Some (Nip46.Message.mkRequestFields i m (Some ps)).
Proof. unfold Nip46.Message.visit_request. rewrite !decide_False, decide_True by done. by rewrite de_strings_arr. Qed.
Lemma rs_visit_id i r e :
  Nip46.Message.visit_response (Nip46.Message.mkResponseFields None r e) ("id", JStr i) =
  Some (Nip46.Message.mkResponseFields (Some i) r e).
Proof. unfold Nip46.Message.visit_response. rewrite decide_True by done. by rewrite de_str_str. Qed.
Lemma rs_visit_result i r e :
  Nip46.Message.visit_response (Nip46.Message.mkResponseFields i None e) ("result", Nip46.Message.opt_json r) =
  Some (Nip46.Message.mkResponseFields i (Some r) e).
Proof. unfold Nip46.Message.visit_response. rewrite decide_False, decide_True by done. by rewrite de_opt_str_json. Qed.
Lemma rs_visit_error i r e :
  Nip46.Message.visit_response (Nip46.Message.mkResponseFields i r None) ("error", Nip46.Message.opt_json e) =
  Some (Nip46.Message.mkResponseFields i r (Some e)).
Proof. unfold Nip46.Message.visit_response. rewrite !decide_False, decide_True by done. by rewrite de_opt_str_json. Qed.
Lemma response_no_request l i r e :
  Nip46.Message.de_request l [("id", JStr i); ("result", r); ("error", e)] = None.
Proof. unfold Nip46.Message.de_request. cbn [foldl mbind option_bind]. rewrite rq_visit_id. done. Qed.

(** Every envelope is read as itself. *)
Lemma envelope_reads m : Nip46.Message.from_str (Nip46.Message.to_string m) = Some m.
Proof.
  unfold Nip46.Message.from_str, Nip46.Message.to_string. rewrite reads_envelope, lends_envelope. cbn [result_ok mbind option_bind].
  unfold Nip46.Message.deserialize. destruct m as [i m ps|i r e]; cbn [Nip46.Message.serialize]; rewrite de_map_obj.
  - cbn [mbind option_bind]. unfold Nip46.Message.de_request. cbn [foldl mbind option_bind]. rewrite rq_visit_id.
    cbn [mbind option_bind]. rewrite rq_visit_method. cbn [mbind option_bind]. rewrite rq_visit_params. done.
  - cbn [mbind option_bind]. rewrite response_no_request. unfold Nip46.Message.de_response. cbn [foldl mbind option_bind]. rewrite rs_visit_id.
    cbn [mbind option_bind]. rewrite rs_visit_result. cbn [mbind option_bind]. rewrite rs_visit_error. done.
Qed.
End wire.

(** ** Addresses *)

Lemma percent_decode_encode s : percent_decode (Uri.url_encode s) = s.
Proof.
  induction s as [|c s IH]; [done|]. cbn [Uri.url_encode]. destruct (Uri.preserve c) eqn:Hc.
  - assert (escaped c (Uri.url_encode s) = None) as E.
    { unfold escaped. destruct (Ascii.eqb_spec c "%") as [->|]; [discriminate Hc|done]. }
    cbn [percent_decode]. by rewrite E, IH.
  - assert (∀ rest, escaped "%" (String (Uri.hex_nibble (N.shiftr (N_of_ascii c) 4))
                     (String (Uri.hex_nibble (N.land (N_of_ascii c) 15)) rest)) = Some (N_of_ascii c)) as E.
    { intros rest. destruct c as [[] [] [] [] [] [] [] []]; reflexivity. }
    cbn [percent_decode]. by rewrite E, ascii_N_embedding, IH.
Qed.

Section addresses.
Context `{FasterHex, !FasterHexLaws, Secp256k1, SerdeJson, !SerdeJsonLaws, SigSerde, JsonText, !JsonEvents, UrlCrate, !UrlCrateLaws,
  !UrlText, JsonBorrow, !JsonRpc, !UrlQuery, !UrlQueryLaws}.

Lemma visit_meta_name u d i v :
  Metadata.visit_field (Metadata.mkFields None u d i) ("name", JStr v) = Ok (Metadata.mkFields (Some v) u d i).
Proof. unfold Metadata.visit_field. rewrite decide_True by done. by rewrite de_str_str. Qed.
Lemma visit_meta_url n d i v :
  Metadata.visit_field (Metadata.mkFields n None d i) ("url", JStr v) = Ok (Metadata.mkFields n (Some (Some v)) d i).
Proof.
  unfold Metadata.visit_field. rewrite decide_False, decide_True by done.
  by rewrite (de_opt_str_json (Some v) : Nip46.Message.de_opt_str (JStr v) = _).
Qed.
Lemma visit_meta_description n u i v :
  Metadata.visit_field (Metadata.mkFields n u None i) ("description", JStr v) = Ok (Metadata.mkFields n u (Some (Some v)) i).
Proof.
  unfold Metadata.visit_field. rewrite !decide_False, decide_True by done.
  by rewrite (de_opt_str_json (Some v) : Nip46.Message.de_opt_str (JStr v) = _).
Qed.
Lemma visit_meta_icons n u d l :
  Metadata.visit_field (Metadata.mkFields n u d None) ("icons", JArr (JStr <$> l)) = Ok (Metadata.mkFields n u d (Some (Some l))).
Proof.
  unfold Metadata.visit_field. rewrite !decide_False, decide_True by done.
  unfold Metadata.de_opt_strings. by rewrite de_strings_arr.
Qed.
Lemma metadata_round m : Metadata.deserialize (Metadata.serialize m) = Ok m.
Proof.
  unfold Metadata.deserialize, Metadata.serialize, Metadata.no_fields. rewrite de_map_obj.
  destruct m as [n [u|] [d|] [i|]];
    cbn [Metadata.name Metadata.url Metadata.description Metadata.icons app Metadata.visit_fields];
    rewrite visit_meta_name; cbn [result_bind];
    rewrite ?visit_meta_url; cbn [result_bind]; rewrite ?visit_meta_description; cbn [result_bind];
    rewrite ?visit_meta_icons; done.
Qed.

Lemma visit_relays q rs :
  Forall RelayUrl.normal rs →
  Uri.visit_pairs q ((λ r, ("relay", RelayUrl.as_str r)) <$> rs) =
  Ok (Uri.mkQuery (Uri.q_relays q ++ rs) (Uri.q_secret q) (Uri.q_metadata q) (Uri.q_perms q)).
Proof.
  intros Hrs. revert q. induction Hrs as [|r rs Hr _ IH]; intros [rl se me pe]; [by rewrite app_nil_r|].
  cbn [fmap list_fmap Uri.visit_pairs]. unfold Uri.visit_pair at 1. rewrite decide_True by done.
  rewrite RelayUrl.parse_as_str by done. cbn [map_err result_bind]. rewrite IH. cbn. by rewrite <-app_assoc.
Qed.
Lemma visit_pairs_app q a b :
  Uri.visit_pairs q (a ++ b) = let? q := Uri.visit_pairs q a in Uri.visit_pairs q b.
Proof.
  revert q. induction a as [|[k v] a IH]; intros q; [done|]. cbn [app Uri.visit_pairs].
  destruct (Uri.visit_pair q k v); cbn [result_bind]; [apply IH|done].
Qed.

Lemma visit_metadata q m :
  Uri.visit_pair q "metadata" (json_to_string (Metadata.serialize m)) =
  Ok (Uri.mkQuery (Uri.q_relays q) (Uri.q_secret q) (Some m) (Uri.q_perms q)).
Proof.
  destruct q. unfold Uri.visit_pair. rewrite !decide_False, decide_True by done.
  unfold from_json. rewrite reads_metadata. cbn. by rewrite metadata_round.
Qed.

Lemma query_read (pairs : list (string * string)) :
  (λ p : string * string, (p.1, percent_decode (Uri.url_encode p.2))) <$> pairs = pairs.
Proof. induction pairs as [|[k v] pairs IH]; [done|]. cbn. by rewrite percent_decode_encode, IH. Qed.

(** Every valid address is read as itself. *)
Lemma uri_reads u : Uri.valid u → Uri.parse (Uri.to_string u) = Ok u.
Proof.
  intros Hv.
  assert (∀ scheme pk pairs, scheme ∈ [Uri.URI_SCHEME_BUNKER; Uri.URI_SCHEME_CLIENT] → PublicKey.valid pk →
    Forall (λ p, p.1 ∈ ["relay"; "metadata"; "secret"; "perms"] ∧ Utf8.is_str p.2) pairs →
    ∃ u, url_parse (scheme +:+ "://" +:+ PublicKey.to_hex pk +:+ Uri.emit true pairs) = Ok u
      ∧ url_scheme u = scheme ∧ url_host_str u = Some (PublicKey.to_hex pk) ∧ query_pairs u = pairs) as Hsplit.
  { intros scheme pk pairs Hs Hpk Hp.
    destruct (splits_query scheme (PublicKey.to_hex pk) pairs Hs) as (w & ? & ? & ? & Hq); [| |done|].
    - unfold PublicKey.to_hex. rewrite hex_encode_spec, <-length_as_bytes, Hex.length_fmt_lower.
      by rewrite PublicKey.pk_length_to_byte_array.
    - unfold PublicKey.to_hex. rewrite hex_encode_spec. apply Hex.fmt_lower_is_hex.
    - rewrite query_read in Hq. by exists w. }
  assert (∀ rs, Forall (λ p : string * string, p.1 ∈ ["relay"; "metadata"; "secret"; "perms"] ∧ Utf8.is_str p.2)
                  ((λ r, ("relay", RelayUrl.as_str r)) <$> rs)) as Hrel.
  { intros rs. apply Forall_fmap, Forall_forall. intros r _. split; [set_solver|apply url_utf8]. }
  unfold Uri.parse. destruct u as [pk rs secret|pk rs m secret perms]; cbn [Uri.valid] in Hv.
  - destruct Hv as (Hpk & Hrs & Hsec). cbn [Uri.to_string]. unfold Uri.write_query.
    destruct (Hsplit Uri.URI_SCHEME_BUNKER pk (Uri.query_of rs secret None [])) as (w & -> & Es & Eh & Eq);
      [set_solver|done| |].
    { unfold Uri.query_of. apply Forall_app; split; [apply Hrel|]. destruct secret as [s|]; [|constructor].
      constructor; [|constructor]. split; [set_solver|by apply Hsec]. }
    cbn [map_err result_bind]. rewrite Eh, Eq, Es. cbn [ok_or result_bind]. rewrite parse_key_hex by done. cbn [result_bind].
    unfold Uri.query_of. rewrite visit_pairs_app, visit_relays by done. cbn [result_bind]. by destruct secret.
  - destruct Hv as (Hpk & Hrs & Hsec & Hperms & Hpu). cbn [Uri.to_string]. unfold Uri.write_query.
    destruct (Hsplit Uri.URI_SCHEME_CLIENT pk
      (Uri.query_of rs (Some secret) (Some (json_to_string (Metadata.serialize m))) perms)) as (w & -> & Es & Eh & Eq);
      [set_solver|done| |].
    { unfold Uri.query_of. apply Forall_app; split; [apply Hrel|]. apply Forall_app; split.
      { constructor; [|constructor]. split; [set_solver|apply json_utf8]. }
      constructor; [split; [set_solver|done]|]. destruct perms; constructor; [split; [set_solver|done]|constructor]. }
    cbn [map_err result_bind]. rewrite Eh, Eq, Es. cbn [ok_or result_bind]. rewrite parse_key_hex by done. cbn [result_bind].
    unfold Uri.query_of. rewrite visit_pairs_app, visit_relays by done.
    cbn [result_bind app Uri.visit_pairs]. rewrite visit_metadata.
    cbn [result_bind Uri.visit_pair Uri.q_relays Uri.q_secret Uri.q_metadata Uri.q_perms]. 
    rewrite decide_False, decide_True by done. cbn [result_bind].
    destruct perms as [|p ps]; [done|]. cbn [Uri.visit_pairs Uri.visit_pair]. rewrite !decide_False, decide_True by done.
    cbn [result_bind]. by rewrite Permissions.split_join_perms.
Qed.
End addresses.

(** ** The client's calls *)

Module Calls.
Import Connect.
Section calls.
Context `{FasterHex, Secp256k1, SerdeJson, SigSerde, JsonText, JsonBorrow, UrlCrate, EventCrypto, !Nip44Crates, Base64}.

(** The channels a table holds, and those the client holds. *)
Definition senders (m : gmap string Pending) : list nat := p_sender <$> (map_to_list m).*2.
Definition asked_sender (d : Dispatcher) : list nat := match d with Asking _ entry => [p_sender entry] | _ => [] end.
Definition holders (s : Inner) : list nat := asked_sender (dispatcher s) ++ senders (pending s).

Lemma senders_fresh m id p : m !! id = None → senders (<[id := p]> m) ≡ₚ p_sender p :: senders m.
Proof. intros Hm. unfold senders. by rewrite map_to_list_insert. Qed.
Lemma senders_delete m id p : m !! id = Some p → senders m ≡ₚ p_sender p :: senders (delete id m).
Proof.
  intros Hm. rewrite <-(insert_delete_id m id p Hm) at 1. apply senders_fresh. apply lookup_delete_eq.
Qed.
Lemma senders_insert m id p : senders (<[id := p]> m) ≡ₚ p_sender p :: senders (delete id m).
Proof. rewrite <-insert_delete_eq. apply senders_fresh, lookup_delete_eq. Qed.
Lemma senders_delete_sub m id : senders (delete id m) ⊆+ senders m.
Proof.
  destruct (m !! id) as [p|] eqn:E; [rewrite (senders_delete m id p E); by apply submseteq_cons|].
  by rewrite delete_id.
Qed.
Lemma elem_of_senders m n : n ∈ senders m ↔ ∃ id p, m !! id = Some p ∧ p_sender p = n.
Proof.
  unfold senders. rewrite list_elem_of_fmap. split.
  - intros (p & -> & ([id p'] & -> & Hin%elem_of_map_to_list)%list_elem_of_fmap). by exists id, p'.
  - intros (id & p & Hm & <-). exists p. split; [done|]. apply list_elem_of_fmap. exists (id, p). split; [done|].
    by apply elem_of_map_to_list.
Qed.

Lemma cancel_all_eq s error :
  cancel_all s error =
  mkInner ∅ (remote_signer_pk s) (user_pk s) (dispatcher s)
    (sent s ++ ((λ n, (n, Err error)) <$> senders (pending s))) (calls s) (next_call s) (outbox s) (returned s).
Proof.
  unfold cancel_all, senders. generalize (map_to_list (pending s)).*2. intros ps.
  assert (∀ s', foldl (λ s p, send s (p_sender p) (Err error)) s' ps =
    mkInner (pending s') (remote_signer_pk s') (user_pk s') (dispatcher s')
      (sent s' ++ ((λ n, (n, Err error)) <$> (p_sender <$> ps))) (calls s') (next_call s') (outbox s') (returned s')) as Hf.
  { induction ps as [|p ps IH]; intros s'; cbn [foldl fmap list_fmap]; [rewrite app_nil_r; by destruct s'|].
    rewrite IH. unfold send. cbn. by rewrite <-app_assoc. }
  by rewrite Hf.
Qed.

(** *** Channels: each is held once or has got its one value *)

Definition channels (s : Inner) : list nat := holders s ++ (sent s).*1.
Definition channels_ok (s : Inner) : Prop := NoDup (channels s) ∧ Forall (λ n, n < next_call s) (channels s).

Lemma channels_sub s s' :
  channels s' ⊆+ channels s → next_call s ≤ next_call s' → channels_ok s → channels_ok s'.
Proof.
  intros Hsub Hn [Hd Hb]. split.
  { destruct (submseteq_Permutation _ _ Hsub) as [k Hk]. rewrite Hk in Hd. by apply NoDup_app in Hd as [? _]. }
  apply Forall_forall. intros n Hin. rewrite Forall_forall in Hb.
  apply Nat.lt_le_trans with (next_call s); [|done]. apply Hb. by eapply elem_of_submseteq.
Qed.

Lemma channels_insert s id method :
  channels_ok s → channels_ok (insert (set_next s (S (next_call s))) id method (next_call s)).
Proof.
  intros [Hd Hb].
  assert (channels (insert (set_next s (S (next_call s))) id method (next_call s)) ≡ₚ next_call s :: channels s) as E.
  { unfold insert, channels, holders. cbn [pending set_next].
    destruct (pending s !! id) as [p|] eqn:Ep; cbn [pending set_pending set_next send sent dispatcher].
    - rewrite senders_insert, (senders_delete _ _ _ Ep), fmap_app. cbn. solve_Permutation.
    - rewrite senders_fresh by done. solve_Permutation. }
  split.
  - rewrite E. constructor; [|done]. intros Hin. rewrite Forall_forall in Hb. specialize (Hb _ Hin). lia.
  - rewrite E.
    assert (next_call (insert (set_next s (S (next_call s))) id method (next_call s)) = S (next_call s)) as ->.
    { unfold insert. cbn. by destruct (pending s !! id). }
    constructor; [lia|]. eapply Forall_impl; [exact Hb|]. cbn. lia.
Qed.

Lemma channels_cancel s error : channels_ok s → channels_ok (cancel_all s error).
Proof.
  apply channels_sub; rewrite cancel_all_eq; [|done]. unfold channels, holders. cbn.
  rewrite fmap_app, <-list_fmap_compose. rewrite (list_fmap_ext _ id), list_fmap_id by done.
  apply Permutation_submseteq. unfold senders at 1. rewrite map_to_list_empty. cbn. rewrite app_nil_r. solve_Permutation.
Qed.

Lemma channels_response cfg s from i wire error :
  dispatcher s = Listening → channels_ok s → channels_ok (on_response cfg s from i wire error).
Proof.
  intros Hd. unfold on_response.
  assert (∀ s', dispatcher s' = Listening → channels_ok s' →
    channels_ok (match take s' i with
                 | (None, _) => s'
                 | (Some entry, s'') => deliver_outcome cfg s'' i entry (decode_response (p_method entry) wire error)
                 end)) as Hone.
  { intros s' Hd' Hok. unfold take. destruct (pending s' !! i) as [p|] eqn:Ep; [|done].
    assert (∀ r, channels_ok (send (set_pending s' (delete i (pending s'))) (p_sender p) r)) as Hsend.
    { intros r. revert Hok. apply channels_sub; [|done]. unfold channels, holders. cbn.
      rewrite (senders_delete _ _ _ Ep), fmap_app. cbn. apply Permutation_submseteq. solve_Permutation. }
    destruct (decode_response (p_method p) wire error) as [r|target]; cbn [deliver_outcome]; [apply Hsend|].
    unfold handle_auth_url. destruct (auth_url_handler cfg); [|apply Hsend].
    revert Hok. apply channels_sub; [|done]. unfold channels, holders. cbn. rewrite Hd'. cbn.
    by rewrite (senders_delete _ _ _ Ep). }
  intros Hok. apply Hone; unfold validate_secret_echo; destruct (remote_signer_pk s), (nostrconnect_secret cfg), wire; try done;
    by case_decide.
Qed.

Lemma channels_dispatch cfg d s r : channels_ok s → channels_ok (dispatch cfg d s r).
Proof.
  intros Hok. unfold dispatch. cbn [remote_signer_pk set_next].
  assert (∀ x, channels_ok (finish (set_next s (S (next_call s))) x)) as Hf
    by (intros x; revert Hok; apply channels_sub; [done|cbn; lia]).
  destruct (remote_signer_pk s); [|apply Hf]. destruct (Bunker.carrier _ _ _ _ _) as [e|[e|e]]; [|apply Hf..].
  apply (channels_sub (insert (set_next s (S (next_call s))) (generate_id d) (Request.method r) (next_call s)));
    [done|done|by apply channels_insert].
Qed.

Lemma channels_step debug cfg s st : channels_ok s → channels_ok (step debug cfg s st).
Proof.
  intros Hok. destruct st as [d r|n o|n|n|item|o|e|]; cbn [step].
  - unfold call. destruct r, (user_pk s); try by apply channels_dispatch.
    revert Hok. apply channels_sub; [done|cbn; lia].
  - unfold published. destruct (calls s !! n) as [[r i []]|]; try done. destruct o as [out|e].
    + destruct (is_total_failure out); [|by revert Hok; apply channels_sub].
      apply (channels_sub (cancel_all s (Rejected (Request.method r) ("publish failed on every relay: " +:+ debug (failed out)))));
        [done|done|by apply channels_cancel].
    + by revert Hok; apply channels_sub.
  - unfold received. destruct (calls s !! n) as [[r i []]|]; try done.
    destruct (sent_to s n) as [res|]; [|destruct (closed s n); [|done]]; revert Hok; apply channels_sub; try done;
      unfold remember; destruct res as [[]|]; try done; by destruct (user_pk s).
  - unfold timed_out. by destruct (calls s !! n) as [[r i []]|].
  - destruct (dispatcher s) eqn:Hd; try done. unfold on_item. destruct item as [e|]; [|done].
    destruct (read_response cfg e) as [[[i w] er]|]; [|done]. by apply channels_response.
  - destruct (dispatcher s) as [|i p|] eqn:Hd; try done. unfold handler_done. revert Hok.
    destruct o as [[]|e]; apply channels_sub; try done; unfold channels, holders; rewrite Hd; cbn.
    + rewrite senders_insert. cbn. apply submseteq_skip, submseteq_app; [apply senders_delete_sub|done].
    + rewrite fmap_app. cbn. apply Permutation_submseteq. solve_Permutation.
  - destruct (dispatcher s) eqn:Hd; try done. unfold stream_over. apply channels_cancel. revert Hok.
    apply channels_sub; [|done]. unfold channels, holders. by rewrite Hd.
  - revert Hok. apply channels_sub; [|done]. unfold channels, holders. cbn.
    rewrite <-app_assoc. by apply submseteq_inserts_l.
Qed.

(** *** Calls: each is under way or has returned once *)

Definition numbers (s : Inner) : list nat := (r_number <$> returned s) ++ (map_to_list (calls s)).*1.
Definition calls_ok (s : Inner) : Prop := numbers s ≡ₚ seq 0 (next_call s).

Lemma calls_fresh s : calls_ok s → calls s !! next_call s = None.
Proof.
  intros Hok. destruct (calls s !! next_call s) as [c|] eqn:E; [|done]. exfalso.
  assert (next_call s ∈ numbers s) as Hin.
  { unfold numbers. apply elem_of_app. right. apply list_elem_of_fmap. exists (next_call s, c).
    split; [done|]. by apply elem_of_map_to_list. }
  unfold calls_ok in Hok. rewrite Hok in Hin. apply elem_of_seq in Hin. lia.
Qed.

(** A call that is under way returns. *)
Lemma calls_finish s x c : calls s !! r_number x = Some c → calls_ok s → calls_ok (finish s x).
Proof.
  intros Hc Hok. unfold calls_ok in *. rewrite <-Hok. unfold numbers. cbn [finish returned calls].
  assert ((map_to_list (calls s)).*1 ≡ₚ r_number x :: (map_to_list (delete (r_number x) (calls s))).*1) as ->.
  { rewrite <-(insert_delete_id _ _ _ Hc) at 1. rewrite map_to_list_insert by apply lookup_delete_eq. done. }
  rewrite fmap_app. cbn. solve_Permutation.
Qed.
(** A call that starts returns at once, or is under way. *)
Lemma calls_start s x : r_number x = next_call s → calls_ok s → calls_ok (finish (set_next s (S (next_call s))) x).
Proof.
  intros Hx Hok. pose proof (calls_fresh s Hok) as Hf. unfold calls_ok in *. unfold numbers. cbn [finish set_next returned calls next_call].
  rewrite Hx, delete_id by done. rewrite fmap_app, seq_S. cbn. rewrite Hx, <-Hok. unfold numbers. solve_Permutation.
Qed.
Lemma calls_change s n r i st st' :
  calls s !! n = Some (mkCall r i st) → calls_ok s → calls_ok (set_calls s (<[n := mkCall r i st']> (calls s))).
Proof.
  intros Hc Hok. unfold calls_ok in *. rewrite <-Hok. unfold numbers. cbn. apply Permutation_app_head.
  assert (∀ c, (map_to_list (<[n := c]> (calls s))).*1 ≡ₚ n :: (map_to_list (delete n (calls s))).*1) as Hi.
  { intros c. rewrite <-insert_delete_eq, map_to_list_insert by apply lookup_delete_eq. done. }
  rewrite Hi. by rewrite <-(insert_id _ _ _ Hc) at 2; rewrite Hi.
Qed.

Lemma insert_fields s i m n :
  calls (insert s i m n) = calls s ∧ returned (insert s i m n) = returned s ∧ next_call (insert s i m n) = next_call s
  ∧ pending (insert s i m n) = <[i := mkPending m n]> (pending s) ∧ dispatcher (insert s i m n) = dispatcher s
  ∧ user_pk (insert s i m n) = user_pk s ∧ remote_signer_pk (insert s i m n) = remote_signer_pk s
  ∧ outbox (insert s i m n) = outbox s
  ∧ ∃ c, sent (insert s i m n) = sent s ++ c ∧ Forall (λ p, ∃ e, p.2 = Err e) c.
Proof.
  unfold insert. destruct (pending s !! i) as [p|]; cbn; repeat split.
  - eexists. split; [done|]. constructor; [by eexists|constructor].
  - exists []. by rewrite app_nil_r.
Qed.

Lemma calls_dispatch cfg d s r : calls_ok s → calls_ok (dispatch cfg d s r).
Proof.
  intros Hok. unfold dispatch. cbn [remote_signer_pk set_next].
  destruct (remote_signer_pk s); [|by apply calls_start]. destruct (Bunker.carrier _ _ _ _ _) as [e|[e|e]]; [|by apply calls_start..].
  pose proof (calls_fresh s Hok) as Hf. unfold calls_ok in *. unfold numbers.
  destruct (insert_fields (set_next s (S (next_call s))) (generate_id d) (Request.method r) (next_call s))
    as (Ec & Er & En & _). cbn [publish set_calls returned calls next_call]. rewrite Ec, Er, En. cbn [set_next returned calls next_call].
  rewrite map_to_list_insert by done. rewrite seq_S, <-Hok. unfold numbers. cbn. solve_Permutation.
Qed.

(** The task leaves the calls alone. *)
Definition same_calls (s s' : Inner) : Prop :=
  calls s' = calls s ∧ returned s' = returned s ∧ next_call s' = next_call s ∧ user_pk s' = user_pk s ∧ outbox s' = outbox s.
Lemma same_calls_ok s s' : same_calls s s' → calls_ok s → calls_ok s'.
Proof. unfold calls_ok, numbers. by intros (-> & -> & -> & _). Qed.
Lemma cancel_same s e : same_calls s (cancel_all s e).
Proof. by rewrite cancel_all_eq. Qed.
Lemma echo_same s x k w : same_calls s (validate_secret_echo s x k w).
Proof. unfold validate_secret_echo. destruct (remote_signer_pk s), x, w; try done. by case_decide. Qed.
Lemma response_same cfg s k i w e : same_calls s (on_response cfg s k i w e).
Proof.
  unfold on_response, take. destruct (echo_same s (nostrconnect_secret cfg) k w) as (Ec & Er & En & Eu & Eo).
  destruct (pending _ !! i) as [p|]; [|done]. destruct (decode_response _ w e); cbn [deliver_outcome]; [done|].
  unfold handle_auth_url. by destruct (auth_url_handler cfg).
Qed.
Lemma item_same cfg s item : same_calls s (on_item cfg s item).
Proof.
  unfold on_item. destruct item as [e|]; [|done]. destruct (read_response cfg e) as [[[i w] er]|]; [|done]. apply response_same.
Qed.

Lemma calls_step debug cfg s st : calls_ok s → calls_ok (step debug cfg s st).
Proof.
  intros Hok. destruct st as [d r|n o|n|n|item|o|e|]; cbn [step].
  - unfold call. destruct r, (user_pk s); try by apply calls_dispatch. by apply calls_start.
  - unfold published. destruct (calls s !! n) as [[r i []]|] eqn:Ec; try done. destruct o as [out|e].
    + destruct (is_total_failure out); [|by eapply calls_change].
      eapply calls_finish; [|by eapply same_calls_ok; [apply cancel_same|]]. cbn. destruct (cancel_same s
        (Rejected (Request.method r) ("publish failed on every relay: " +:+ debug (failed out)))) as [-> _]. done.
    + by eapply calls_finish.
  - unfold received. destruct (calls s !! n) as [[r i []]|] eqn:Ec; try done.
    assert (∀ res, same_calls s (remember s res) ∨ calls (remember s res) = calls s ∧ numbers (remember s res) = numbers s
                   ∧ next_call (remember s res) = next_call s) as Hr.
    { intros res. unfold remember. destruct res as [[]|]; try by left. destruct (user_pk s); [by left|by right]. }
    destruct (sent_to s n) as [res|].
    + eapply calls_finish; [|destruct (Hr res) as [Hs|(Hc & Hn & Hx)];
        [by eapply same_calls_ok|unfold calls_ok; by rewrite Hn, Hx]].
      cbn. by destruct (Hr res) as [[-> _]|[-> _]].
    + destruct (closed s n); [|done]. by eapply calls_finish.
  - unfold timed_out. destruct (calls s !! n) as [[r i []]|] eqn:Ec; try done. by eapply calls_finish.
  - destruct (dispatcher s); try done. by eapply same_calls_ok; [apply item_same|].
  - destruct (dispatcher s) as [|i p|]; try done. by destruct o.
  - destruct (dispatcher s); try done. unfold stream_over. eapply same_calls_ok; [apply cancel_same|]. done.
  - done.
Qed.

(** *** Answers: each was carried by an event *)

Lemma from_wire_fits m w r : ResponseResult.from_wire m w = Ok r → ResponseResult.fits m r = true.
Proof.
  unfold ResponseResult.from_wire. do 2 (case_decide; [intros [= <-]; by destruct m|]).
  destruct m; try (by intros [= <-]).
  - by case_decide; intros [= <-].
  - destruct (Request.parse_key w); cbn; [by intros [= <-]|done].
  - destruct (from_json EventJson.deserialize w); cbn; [by intros [= <-]|done].
  - by case_decide; [intros [= <-]|].
  - case_decide; [by intros [= <-]|]. destruct (_ ≫= _) as [urls|]; [|done].
    destruct (ResponseResult.parse_relays urls); cbn; [by intros [= <-]|done].
Qed.

Lemma decode_Ok m w e r : decode_response m w e = Result (Ok r) →
  ∃ wire, w = Some wire ∧ e = None ∧ ResponseResult.from_wire m wire = Ok r ∧ r ≠ ResponseResult.AuthUrl.
Proof.
  unfold decode_response, Response.from_wire. destruct w as [wire|]; cbn; [|by destruct e].
  destruct (ResponseResult.from_wire m wire) as [v|] eqn:E; cbn; [|done]. intros Hd. exists wire.
  destruct v; try (destruct e; [discriminate Hd|injection Hd as <-; done]).
  exfalso. revert Hd. by destruct (_ ≫= _).
Qed.

Variable cfg : Config.

Definition carried (seen : list Event) (id : string) (m : Method) (r : ResponseResult) : Prop :=
  ∃ e wire, e ∈ seen ∧ read_response cfg e = Some (id, Some wire, None) ∧ ResponseResult.from_wire m wire = Ok r
    ∧ r ≠ ResponseResult.AuthUrl.

Lemma carried_mono seen seen' id m r : seen ⊆ seen' → carried seen id m r → carried seen' id m r.
Proof. intros Hs (e & w & He & ?). exists e, w. split; [by apply Hs|done]. Qed.

Definition entry_of (s : Inner) (id : string) (p : Pending) : Prop :=
  pending s !! id = Some p ∨ dispatcher s = Asking id p.

Record contents (seen : list Event) (s : Inner) : Prop := {
  k_entry : ∀ id p c, entry_of s id p → calls s !! p_sender p = Some c →
              c_id c = id ∧ Request.method (c_request c) = p_method p;
  k_sent : ∀ n r c, (n, Ok r) ∈ sent s → calls s !! n = Some c →
             carried seen (c_id c) (Request.method (c_request c)) r;
  k_user : ∀ pk, user_pk s = Some pk → ∃ id, carried seen id Method.GetPublicKey (ResponseResult.GetPublicKey pk);
  k_returned : ∀ x r, x ∈ returned s → r_result x = Ok r →
    match r_id x with
    | Some id => carried seen id (Request.method (r_request x)) r
    | None => r_request x = Request.GetPublicKey ∧ ∃ id, carried seen id Method.GetPublicKey r
    end;
}.

Lemma contents_mono seen seen' s : seen ⊆ seen' → contents seen s → contents seen' s.
Proof.
  intros Hs [He Hse Hu Hr]. split; [done|..].
  - intros n r c Hn Hc. eapply carried_mono; eauto.
  - intros pk Hpk. destruct (Hu pk Hpk) as [id Hid]. exists id. by eapply carried_mono.
  - intros x r Hx Hxr. specialize (Hr x r Hx Hxr). destruct (r_id x); [by eapply carried_mono|].
    destruct Hr as [? [id Hid]]. split; [done|]. exists id. by eapply carried_mono.
Qed.

(** A step that forgets entries, sends errors, and ends calls. *)
Lemma contents_shrink seen s s' :
  (∀ id p, entry_of s' id p → entry_of s id p) →
  (∀ n r, (n, Ok r) ∈ sent s' → (n, Ok r) ∈ sent s) →
  (∀ n c', calls s' !! n = Some c' → ∃ c, calls s !! n = Some c ∧ c_id c' = c_id c ∧ c_request c' = c_request c) →
  (∀ pk, user_pk s' = Some pk → ∃ id, carried seen id Method.GetPublicKey (ResponseResult.GetPublicKey pk)) →
  (∀ x r, x ∈ returned s' → r_result x = Ok r → x ∈ returned s ∨
     match r_id x with
     | Some id => carried seen id (Request.method (r_request x)) r
     | None => r_request x = Request.GetPublicKey ∧ ∃ id, carried seen id Method.GetPublicKey r
     end) →
  contents seen s → contents seen s'.
Proof.
  intros Hent Hsent Hcalls Huser Hret [He Hse Hu Hr]. split; [..|done|].
  - intros id p c Hp Hc. destruct (Hcalls _ _ Hc) as (c0 & Hc0 & -> & ->). by eapply He; [apply Hent|].
  - intros n r c Hn Hc. destruct (Hcalls _ _ Hc) as (c0 & Hc0 & -> & ->). by eapply Hse; [apply Hsent|].
  - intros x r Hx Hxr. destruct (Hret x r Hx Hxr) as [Hin|]; [by apply Hr|done].
Qed.

Lemma contents_finish seen s x :
  (∀ r, r_result x = Ok r → match r_id x with
     | Some id => carried seen id (Request.method (r_request x)) r
     | None => r_request x = Request.GetPublicKey ∧ ∃ id, carried seen id Method.GetPublicKey r
     end) →
  contents seen s → contents seen (finish s x).
Proof.
  intros Hx Hk. apply (contents_shrink seen s); try done; cbn [finish calls returned user_pk].
  - intros n c [_ Hc]%lookup_delete_Some. by exists c.
  - intros pk Hpk. by apply (k_user seen s Hk).
  - intros y r [Hy|Hy]%elem_of_app Hyr; [by left|]. apply list_elem_of_singleton in Hy as ->. right. by apply Hx.
Qed.

Lemma contents_cancel seen s e : contents seen s → contents seen (cancel_all s e).
Proof.
  intros Hk. apply (contents_shrink seen s); rewrite ?cancel_all_eq; try done; cbn.
  - intros id p [Hp|Hp]; [cbn in Hp; by apply lookup_empty_Some in Hp|by right].
  - intros n r [Hn|(m & [= _ _ Hm] & _)%list_elem_of_fmap]%elem_of_app; done.
  - intros n c Hc. by exists c.
  - apply (k_user seen s Hk).
  - intros x r Hx _. by left.
Qed.

Lemma contents_start seen s d r :
  channels_ok s → calls_ok s → contents seen s → contents seen (dispatch cfg d s r).
Proof.
  intros Hch Hcs Hk. unfold dispatch. cbn [remote_signer_pk set_next].
  assert (∀ e, contents seen (finish (set_next s (S (next_call s))) (mkReturn (next_call s) r None (Err e)))) as Hf
    by (intros e; apply contents_finish; [done|by destruct Hk; split]).
  destruct (remote_signer_pk s) as [pk|]; [|apply Hf]. destruct (Bunker.carrier _ _ _ _ _) as [ev|[e|e]]; [|apply Hf..].
  set (n := next_call s) in *. set (id := generate_id d).
  destruct (insert_fields (set_next s (S n)) id (Request.method r) n)
    as (Ec & Er & _ & Ep & Ed & Eu & _ & _ & extra & Es & Hextra). cbn in Ec, Er, Ep, Ed, Eu, Es.
  assert (∀ m, m ∈ channels s → m ≠ n) as Hold.
  { intros m Hm ->. destruct Hch as [_ Hb]. rewrite Forall_forall in Hb. specialize (Hb _ Hm). unfold n in Hb. lia. }
  split; unfold entry_of; cbn [publish set_calls pending dispatcher calls sent user_pk returned]; rewrite ?Ec, ?Er, ?Ep, ?Ed, ?Eu, ?Es.
  - intros i p c Hent Hc. destruct (decide (p_sender p = n)) as [Hn|Hn].
    + rewrite Hn, lookup_insert_eq in Hc. injection Hc as <-. cbn.
      destruct Hent as [[[<- <-]|[Hne Hp]]%lookup_insert_Some|Hp]; [done|..]; exfalso; apply (Hold (p_sender p)); try done;
        unfold channels, holders; rewrite !elem_of_app; left.
      * right. apply elem_of_senders. by exists i, p.
      * left. rewrite Hp. cbn. set_solver.
    + rewrite lookup_insert_ne in Hc by done.
      apply (k_entry seen s Hk i p c); [|done]. destruct Hent as [[[_ <-]|[_ Hp]]%lookup_insert_Some|Hp]; [done|by left|by right].
  - intros m v c [Hm|Hm]%elem_of_app Hc.
    + assert (m ≠ n) as Hne.
      { apply Hold. unfold channels. apply elem_of_app. right. apply list_elem_of_fmap. by exists (m, Ok v). }
      rewrite lookup_insert_ne in Hc by done. by apply (k_sent seen s Hk m v c).
    + rewrite Forall_forall in Hextra. by destruct (Hextra _ Hm) as [e He].
  - apply (k_user seen s Hk).
  - apply (k_returned seen s Hk).
Qed.

Lemma contents_response seen s e i w er :
  dispatcher s = Listening → read_response cfg e = Some (i, w, er) → e ∈ seen → contents seen s →
  contents seen (on_response cfg s (Event.pubkey e) i w er).
Proof.
  intros Hd Hrd Hin Hk. unfold on_response, take.
  set (s1 := validate_secret_echo s _ _ w).
  assert (contents seen s1 ∧ dispatcher s1 = Listening) as [Hk1 Hd1].
  { unfold s1, validate_secret_echo. destruct (remote_signer_pk s), (nostrconnect_secret cfg), w; try done.
    case_decide; [|done]. split; [|done]. by destruct Hk as [? ? ? ?]; split. }
  clearbody s1. destruct (pending s1 !! i) as [p|] eqn:Ep; [|done].
  assert (∀ id q, entry_of (set_pending s1 (delete i (pending s1))) id q → entry_of s1 id q) as Hdel.
  { intros id q [Hq|Hq]; [|by right]. cbn in Hq. apply lookup_delete_Some in Hq as [_ Hq]. by left. }
  assert (∀ res, (∀ r, res = Ok r → decode_response (p_method p) w er = Result (Ok r)) →
    contents seen (send (set_pending s1 (delete i (pending s1))) (p_sender p) res)) as Hsend.
  { intros res Hres. destruct Hk1 as [He Hse Hu Hr]. split; [..|done|done]; cbn [send set_pending calls sent].
    - intros id q c Hq. apply He. by apply Hdel.
    - intros n r c [Hn|Hn]%elem_of_app Hc; [by apply (Hse n r c)|].
      apply list_elem_of_singleton in Hn. injection Hn as -> Hn. symmetry in Hn. specialize (Hres r Hn).
      destruct (decode_Ok _ _ _ _ Hres) as (wire & -> & -> & Hf & Hne).
      destruct (He i p c) as [-> ->]; [by left|done|]. exists e, wire. done. }
  destruct (decode_response (p_method p) w er) as [res|target] eqn:Edec; cbn [deliver_outcome].
  - apply Hsend. by intros r ->.
  - unfold handle_auth_url. destruct (auth_url_handler cfg); [|by apply Hsend].
    destruct Hk1 as [He Hse Hu Hr]. split; [|done..]. intros id q c [Hq|Hq]; apply He; [apply Hdel; by left|].
    cbn in Hq. injection Hq as <- <-. by left.
Qed.

(** What a step brings in. *)
Definition brings (st : Step) : list Event := match st with Item (Ok e) => [e] | _ => [] end.

Lemma elem_of_brings steps e : e ∈ steps ≫= brings ↔ Item (Ok e) ∈ steps.
Proof.
  rewrite list_elem_of_bind. split.
  - intros (st & He & Hst). destruct st as [| | | |[x|]| | |]; cbn in He; try by apply not_elem_of_nil in He.
    apply list_elem_of_singleton in He as ->. done.
  - intros Hst. exists (Item (Ok e)). split; [cbn; set_solver|done].
Qed.

Lemma contents_step debug seen s st :
  channels_ok s → calls_ok s → contents seen s → contents (seen ++ brings st) (step debug cfg s st).
Proof.
  intros Hch Hcs Hk. destruct st as [d r|n o|n|n|item|o|e|]; cbn [step brings]; rewrite ?app_nil_r.
  - unfold call. destruct r; destruct (user_pk s) as [pk|] eqn:Eu; try by apply contents_start.
    apply contents_finish; [|by destruct Hk; split]. cbn. intros r [= <-]. split; [done|]. by apply (k_user seen s Hk).
  - unfold published. destruct (calls s !! n) as [[r i []]|] eqn:Ec; try done. destruct o as [out|e].
    + destruct (is_total_failure out); [by apply contents_finish, contents_cancel|].
      apply (contents_shrink seen s); try done; cbn [set_calls calls returned user_pk].
      * intros m c [[<- <-]|[_ Hc]]%lookup_insert_Some; [by exists (mkCall r i Sending)|by exists c].
      * apply (k_user seen s Hk).
      * intros x v Hx _. by left.
    + by apply contents_finish.
  - unfold received. destruct (calls s !! n) as [[r i []]|] eqn:Ec; try done.
    destruct (sent_to s n) as [res|] eqn:Es; [|by destruct (closed s n); [apply contents_finish|]].
    assert (∀ v, res = Ok v → carried seen i (Request.method r) v) as Hres.
    { intros v ->. unfold sent_to in Es. destruct (List.find _ (sent s)) as [[m q]|] eqn:Ef; [|done]. cbn in Es. injection Es as ->.
      apply List.find_some in Ef as [Hin Hm]. apply Nat.eqb_eq in Hm. cbn in Hm. subst m. apply list_elem_of_In in Hin.
      exact (k_sent seen s Hk n v _ Hin Ec). }
    apply contents_finish; [exact Hres|]. unfold remember. destruct res as [[]|]; try done. destruct (user_pk s); [done|].
    destruct Hk as [? ? ? ?]; split; try done. cbn. intros k [= <-]. exists i.
    destruct (Hres _ eq_refl) as (e & w & ? & ? & Hf & ?). pose proof (from_wire_fits _ _ _ Hf) as Hfit.
    exists e, w. destruct r; try discriminate Hfit. done.
  - unfold timed_out. destruct (calls s !! n) as [[r i []]|] eqn:Ec; try done. by apply contents_finish.
  - assert (contents (seen ++ match item with Ok e => [e] | Err _ => [] end) s) as Hk'
      by (eapply contents_mono; [|exact Hk]; set_solver).
    destruct (dispatcher s) eqn:Hd; try done. unfold on_item. destruct item as [e|]; [|done].
    destruct (read_response cfg e) as [[[i w] er]|] eqn:Er; [|done]. apply contents_response; [done|done|set_solver|done].
  - destruct (dispatcher s) as [|i p|] eqn:Hd; try done. unfold handler_done. destruct Hk as [He Hse Hu Hr].
    destruct o as [[]|e]; split; try done; cbn [reinsert set_pending set_dispatcher send calls sent].
    + intros id q c [Hq|Hq]; [|done]. cbn in Hq. apply lookup_insert_Some in Hq as [[<- <-]|[_ Hq]]; apply He; [by right|by left].
    + intros id q c [Hq|Hq]; [|done]. apply He. by left.
    + intros m v c [Hm|Hm]%elem_of_app; [by apply Hse|]. by apply list_elem_of_singleton in Hm.
  - destruct (dispatcher s) eqn:Hd; try done. unfold stream_over. apply contents_cancel.
    destruct Hk as [He ? ? ?]. split; try done. intros id q c [Hq|Hq]; [|done]. apply He. by left.
  - destruct Hk as [He ? ? ?]. split; try done. intros id q c [Hq|Hq]; [|done]. apply He. by left.
Qed.
End calls.
End Calls.

(** ** Runs of a client *)

Section runs.
Context `{FasterHex, Secp256k1, SerdeJson, SigSerde, JsonText, JsonBorrow, UrlCrate, EventCrypto, !Nip44Crates, Base64}.
Import Connect Calls.

Lemma initial_ok cfg u : channels_ok (initial u) ∧ calls_ok (initial u) ∧ contents cfg [] (initial u).
Proof.
  split; [|split].
  - unfold channels_ok, channels, holders, senders. cbn. rewrite map_to_list_empty. cbn.
    destruct (Uri.relays u); cbn; split; constructor.
  - unfold calls_ok, numbers. cbn. by rewrite map_to_list_empty.
  - split; cbn; try done. intros x r Hx. by apply not_elem_of_nil in Hx.
Qed.

Lemma calls_run_ok debug cfg u steps :
  let s := run debug cfg (initial u) steps in
  channels_ok s ∧ calls_ok s ∧ contents cfg (steps ≫= brings) s.
Proof.
  cbv zeta. induction steps as [|st steps IH] using rev_ind; [apply initial_ok|].
  unfold run. rewrite foldl_app. cbn [foldl]. destruct IH as (Hch & Hcs & Hk).
  split; [by apply channels_step|]. split; [by apply calls_step|].
  rewrite bind_app. cbn [mbind list_bind]. rewrite app_nil_r. by apply contents_step.
Qed.

(** The signer's key is learnt once. *)
Lemma response_latch cfg s k i w e :
  remote_signer_pk (on_response cfg s k i w e) = remote_signer_pk (validate_secret_echo s (nostrconnect_secret cfg) k w).
Proof.
  unfold on_response, take. destruct (pending _ !! i) as [p|]; [|done].
  destruct (decode_response (p_method p) w e); cbn [deliver_outcome]; [done|].
  unfold handle_auth_url. by destruct (auth_url_handler cfg).
Qed.
Lemma dispatch_latch cfg d s r : remote_signer_pk (dispatch cfg d s r) = remote_signer_pk s.
Proof.
  unfold dispatch. cbn [remote_signer_pk set_next]. destruct (remote_signer_pk s) as [pk|] eqn:Es; [|done].
  destruct (Bunker.carrier _ _ _ _ _) as [ev|[e|e]]; [|done..]. unfold insert. cbn. by destruct (pending s !! _).
Qed.
Lemma step_latch debug cfg s st :
  remote_signer_pk (step debug cfg s st) = remote_signer_pk s ∨
  (remote_signer_pk s = None ∧ ∃ e id secret er, st = Item (Ok e) ∧ read_response cfg e = Some (id, Some secret, er)
     ∧ nostrconnect_secret cfg = Some secret ∧ remote_signer_pk (step debug cfg s st) = Some (Event.pubkey e)).
Proof.
  destruct st as [d r|n o|n|n|item|o|e|]; cbn [step].
  - left. unfold call. destruct r, (user_pk s); try apply dispatch_latch. done.
  - left. unfold published. destruct (calls s !! n) as [[r i []]|]; try done. destruct o as [out|e]; [|done].
    destruct (is_total_failure out); [|done]. by rewrite cancel_all_eq.
  - left. unfold received. destruct (calls s !! n) as [[r i []]|]; try done. destruct (sent_to s n) as [res|].
    + unfold remember. destruct res as [[]|]; try done. by destruct (user_pk s).
    + by destruct (closed s n).
  - left. unfold timed_out. by destruct (calls s !! n) as [[r i []]|].
  - destruct (dispatcher s); try by left. unfold on_item. destruct item as [e|]; [|by left].
    destruct (read_response cfg e) as [[[i w] er]|] eqn:Er; [|by left]. rewrite response_latch. unfold validate_secret_echo.
    destruct (remote_signer_pk s) eqn:Ers, (nostrconnect_secret cfg) as [secret|] eqn:Esec, w as [value|]; try by left.
    destruct (decide (value = secret)) as [->|]; [|by left]. right. split; [done|]. by exists e, i, secret, er.
  - left. destruct (dispatcher s); try done. by destruct o.
  - left. destruct (dispatcher s); try done. unfold stream_over. by rewrite cancel_all_eq.
  - by left.
Qed.

Lemma run_keeps_signer debug cfg s steps pk :
  remote_signer_pk s = Some pk → remote_signer_pk (run debug cfg s steps) = Some pk.
Proof.
  revert s. induction steps as [|st steps IH]; intros s Hs; [done|]. cbn [run foldl]. apply IH.
  destruct (step_latch debug cfg s st) as [->|[E _]]; [done|congruence].
Qed.

(** The events the task reads: those that come while it is listening. *)
Fixpoint heard debug cfg (s : Inner) (steps : list Step) : list Event :=
  match steps with
  | [] => []
  | st :: steps =>
      (match st, dispatcher s with Item (Ok e), Listening => [e] | _, _ => [] end) ++ heard debug cfg (step debug cfg s st) steps
  end.
(** The event answers the client with the secret. *)
Definition echoes cfg (secret : string) (e : Event) : bool :=
  match read_response cfg e with Some (_, Some value, _) => bool_decide (value = secret) | _ => false end.

Lemma step_first debug cfg s st secret : nostrconnect_secret cfg = Some secret → remote_signer_pk s = None →
  remote_signer_pk (step debug cfg s st) =
    Event.pubkey <$> List.find (echoes cfg secret) (match st, dispatcher s with Item (Ok e), Listening => [e] | _, _ => [] end).
Proof.
  intros Hsec Hs. destruct st as [d r|n o|n|n|[e|]|o|e|]; try by
    (match goal with |- _ (step _ _ _ ?st) = _ => destruct (step_latch debug cfg s st) as [->|(_ & ? & ? & ? & ? & [=] & _)] end).
  cbn [step]. destruct (dispatcher s); try done. unfold on_item. cbn [List.find]. unfold echoes.
  destruct (read_response cfg e) as [[[i w] er]|]; [|done]. rewrite response_latch. unfold validate_secret_echo. rewrite Hs, Hsec.
  destruct w as [value|]; [|done]. case_decide as Hv; [by rewrite bool_decide_true|by rewrite bool_decide_false].
Qed.
Lemma run_first debug cfg s steps secret : nostrconnect_secret cfg = Some secret → remote_signer_pk s = None →
  remote_signer_pk (run debug cfg s steps) = Event.pubkey <$> List.find (echoes cfg secret) (heard debug cfg s steps).
Proof.
  intros Hsec. revert s. induction steps as [|st steps IH]; intros s Hs; [done|]. cbn [run foldl heard]. fold (run debug cfg).
  pose proof (step_first debug cfg s st secret Hsec Hs) as Hst.
  set (now := match st, dispatcher s with Item (Ok e), Listening => [e] | _, _ => [] end) in *.
  assert (List.find (echoes cfg secret) (now ++ heard debug cfg (step debug cfg s st) steps) =
    match List.find (echoes cfg secret) now with Some e => Some e
    | None => List.find (echoes cfg secret) (heard debug cfg (step debug cfg s st) steps) end) as ->.
  { generalize now. intros l. induction l as [|x l IHl]; [done|]. cbn [app List.find]. by destruct (echoes cfg secret x). }
  destruct (List.find (echoes cfg secret) now) as [e|]; cbn [fmap option_fmap option_map] in *; [|by apply IH].
  by apply (run_keeps_signer debug cfg _ steps).
Qed.
End runs.

(** ** A call and its answer *)

Section exchange.
Context `{FasterHex, !FasterHexLaws, Secp256k1, SerdeJson, !SerdeJsonLaws, SigSerde, !SigSerdeLaws, JsonText, !JsonEvents,
  UrlCrate, !UrlCrateLaws, JsonBorrow, !JsonRpc, EventCrypto, !EventCryptoLaws, !Nip44Crates, !Nip44Laws, Base64, !Base64Laws,
  AesCbc}.
Import Connect.

Lemma carrier_reads nonce clock a b m e :
  Bunker.carrier nonce clock a (xonly_public_key b) m = Ok e →
  Event.kind e = NIP46_KIND ∧ Event.pubkey e = xonly_public_key a ∧ Event.tags e = [Tag.p (xonly_public_key b)]
  ∧ Event.verify e = Ok tt
  ∧ Nip44.decrypt b (Event.pubkey e) (Event.content e) = Ok (Nip46.Message.to_string m).
Proof.
  unfold Bunker.carrier. destruct (Nip44.encrypt _ _ _ _) as [ct|] eqn:Ee; cbn [map_err result_bind]; [|done].
  destruct (EventBuilder.sign_with_keys _ _ _) as [ev|] eqn:Es; cbn [map_err]; [|done]. intros [= <-].
  pose proof (EventBuilder.signed_builder_verifies _ _ _ _ Es) as Hv.
  apply EventBuilder.sign_Ok in Es as (ts & _ & Ev). rewrite Ev in *. cbn.
  split; [done|]. split; [done|]. split; [done|]. split; [done|].
  unfold Nip44.encrypt in Ee. destruct nonce as [n|]; cbn in Ee; [|done]. unfold Nip44.decrypt.
  rewrite (derive_symmetric b a). eapply decrypt_encrypted; [apply json_utf8|exact Ee].
Qed.

(** A response from any key is read by the client it is encrypted for. *)
Lemma reply_read cfg nonce clock a i w er e :
  Bunker.carrier nonce clock a (xonly_public_key (client_keys cfg)) (Nip46.Message.Response i w er) = Ok e →
  read_response cfg e = Some (i, w, er) ∧ Event.pubkey e = xonly_public_key a.
Proof.
  intros (Hk & Hp & _ & _ & Hd)%carrier_reads. split; [|done].
  unfold read_response. rewrite decide_False by (by rewrite Hk; intros []). rewrite Hd. cbn [result_ok mbind option_bind].
  by rewrite envelope_reads.
Qed.

(** The bunker answers the request it is sent. *)
Lemma request_handled bd keys secret policy nonce clock client i r e :
  Request.valid r →
  Bunker.carrier nonce clock client (xonly_public_key (Bunker.signer keys)) (Nip46.Message.request i r) = Ok e →
  Bunker.listen bd keys secret policy (Ok e) =
  Bunker.publish_response bd keys (xonly_public_key client) i
    (Bunker.build_response bd keys secret policy (xonly_public_key client) (Request.read_back r)).
Proof.
  intros Hv (Hk & Hp & _ & _ & Hd)%carrier_reads. unfold Bunker.listen, Bunker.handle_request_event.
  rewrite decide_False by (by rewrite Hk; intros []). rewrite Hd. cbn [result_ok mbind option_bind].
  rewrite envelope_reads. cbn [mbind option_bind Nip46.Message.request Nip46.Message.into_request].
  rewrite request_reads by done. cbn [result_ok]. by rewrite Hp.
Qed.

(** A result as the caller sees it: the texts that are results of every method are
    taken for those, and a secret that reads [ack] for an acknowledgement. *)
Definition seen_as (m : Method) (v : ResponseResult) : result ResponseResult Error :=
  if decide (ResponseResult.to_wire v = "auth_url") then Err (Rejected m "auth_url without target URL")
  else if decide (ResponseResult.to_wire v = "error") then Ok ResponseResult.Error
  else match v with
       | ResponseResult.ConnectSecret s => if decide (s = "ack") then Ok ResponseResult.Ack else Ok v
       | _ => Ok v
       end.
Definition answer (m : Method) (resp : Response) : result ResponseResult Error :=
  match Response.result resp, Response.error resp with
  | Some v, None => seen_as m v
  | _, Some message => Err (Rejected m message)
  | None, None => Err (Rejected m "signer returned neither result nor error")
  end.

Lemma decode_seen m v :
  ResponseResult.fits m v = true → ResponseResult.valid v →
  decode_response m (Some (ResponseResult.to_wire v)) None = Result (seen_as m v).
Proof.
  intros Hf Hv. unfold decode_response, Response.from_wire, seen_as.
  destruct (decide (ResponseResult.to_wire v = "auth_url")) as [E|Ha]; [by rewrite E|].
  destruct (decide (ResponseResult.to_wire v = "error")) as [E|He]; [by rewrite E|].
  assert (v ≠ ResponseResult.ConnectSecret "ack" → ResponseResult.from_wire m (ResponseResult.to_wire v) = Ok v) as Hread.
  { intros Hack. apply result_reads; [done|done|].
    destruct v; cbn in *; unfold ResponseResult.reserved; try done; try tauto. split; [congruence|tauto]. }
  assert (v ≠ ResponseResult.AuthUrl) as Hau by (intros ->; by apply Ha).
  destruct v as [|s| | | | | | | | | |]; try done; try (rewrite Hread by done; done).
  destruct (decide (s = "ack")) as [->|Hs].
  - destruct m; try discriminate Hf. reflexivity.
  - rewrite Hread by congruence. done.
Qed.

(** What the bunker answers is one of the request's own results, or an error. *)
Lemma response_shape bd keys secret policy client r :
  keys_ok (Bunker.user keys) → Request.valid r →
  let resp := Bunker.build_response bd keys secret policy client r in
  (∃ v, resp = Response.with_result v ∧ ResponseResult.fits (Request.method r) v = true ∧ ResponseResult.valid v)
  ∨ ∃ e, resp = Response.with_error e.
Proof.
  intros [Hpk Hsig] Hv. cbv zeta. unfold Bunker.build_response.
  destruct r as [pk s perms| |u|pk t|pk t|pk t|pk t| |];
    try (destruct (policy client _); [|by right; eexists]); cbn [Bunker.handle_authorized].
  - unfold Bunker.connect_response. destruct secret as [se|]; [|left; by eexists]. case_decide; [left|right]; by eexists.
  - left. by eexists.
  - destruct (UnsignedEvent.sign_with_keys u _) as [e|] eqn:Es; [left|by right; eexists]. eexists. split; [done|]. split; [done|].
    unfold UnsignedEvent.sign_with_keys in Es. case_bool_decide as Hk; cbn in Es; [|done]. injection Es as <-.
    destruct Hv as (Hp & Hc & Hkd & Ht). cbn. split; [done|]. split; [|apply Hsig]. done.
  - destruct (Nip04.encrypt _ _ _ _); [left|right]; by eexists.
  - destruct (Nip04.decrypt _ _ _); [left|right]; by eexists.
  - destruct (Nip44.encrypt _ _ _ _); [left|right]; by eexists.
  - destruct (Nip44.decrypt _ _ _); [left|right]; by eexists.
  - left. by eexists.
  - left. by eexists.
Qed.

Lemma read_back_valid r : Request.valid r → Request.valid (Request.read_back r) ∧ Request.method (Request.read_back r) = Request.method r.
Proof. by destruct r as [pk s [perms|]| | | | | | | |]. Qed.

(** A reply as the client decodes it. *)
Lemma reply_decoded bd keys secret policy client i r :
  keys_ok (Bunker.user keys) → Request.valid r →
  let resp := Bunker.build_response bd keys secret policy client (Request.read_back r) in
  ∃ w er, Nip46.Message.response i resp = Nip46.Message.Response i w er
    ∧ decode_response (Request.method r) w er = Result (answer (Request.method r) resp).
Proof.
  intros Hk Hv. destruct (read_back_valid r Hv) as [Hv' Hm].
  destruct (response_shape bd keys secret policy client _ Hk Hv') as [(v & -> & Hf & Hval)|[e ->]]; cbv zeta.
  - eexists _, _. split; [reflexivity|]. cbn. rewrite Hm in Hf. by apply decode_seen.
  - eexists _, _. split; [reflexivity|]. done.
Qed.

(** From the publish on: the four turns of a call. *)
Lemma call_turns debug cfg s d r signer_pk e out reply w er res :
  Calls.channels_ok s → remote_signer_pk s = Some signer_pk → dispatcher s = Listening →
  pending s !! generate_id d = None → (r = Request.GetPublicKey → user_pk s = None) →
  Bunker.carrier (nonce d) (clock d) (client_keys cfg) signer_pk (Nip46.Message.request (generate_id d) r) = Ok e →
  is_total_failure out = false →
  read_response cfg reply = Some (generate_id d, w, er) →
  decode_response (Request.method r) w er = Result res →
  let s' := run debug cfg s [Start d r; Published (next_call s) (Ok out); Item (Ok reply); Received (next_call s)] in
  outbox s' = outbox s ++ [e]
  ∧ returned s' = returned s ++ [mkReturn (next_call s) r (Some (generate_id d)) res]
  ∧ pending s' = pending s ∧ calls s' = delete (next_call s) (calls s).
Proof.
  intros Hch Hrs Hd Hfresh Huser Hcar Hout Hrd Hdec.
  set (n := next_call s). set (id := generate_id d) in *.
  assert (step debug cfg s (Start d r) =
    mkInner (<[id := mkPending (Request.method r) n]> (pending s)) (Some signer_pk) (user_pk s) Listening (sent s)
      (<[n := mkCall r id Sending]> (calls s)) (S n) (outbox s ++ [e]) (returned s)) as E1.
  { cbn [step]. assert (call cfg d s r = dispatch cfg d s r) as ->.
    { unfold call. destruct r; try done; destruct (user_pk s); try done. by specialize (Huser eq_refl). }
    unfold dispatch. cbn [remote_signer_pk set_next]. rewrite Hrs. fold id. rewrite Hcar. unfold insert. cbn. rewrite Hfresh.
    unfold publish, set_calls, set_pending, set_next. cbn. by rewrite Hrs, Hd. }
  cbv zeta. unfold run. cbn [foldl]. rewrite E1. clear E1. cbn [step]. unfold published. cbn [calls].
  rewrite lookup_insert_eq, Hout. cbn [set_calls dispatcher calls pending].
  unfold on_item. rewrite Hrd. unfold on_response, validate_secret_echo. cbn [remote_signer_pk set_calls].
  unfold take. cbn [pending set_calls]. rewrite lookup_insert_eq. cbn [p_method]. rewrite Hdec.
  cbn [deliver_outcome send set_pending set_calls p_sender calls pending dispatcher].
  unfold received. cbn [calls send set_pending set_calls]. rewrite lookup_insert_eq.
  assert (∀ x, sent x = sent s ++ [(n, res)] → sent_to x n = Some res) as Hsent.
  { intros x Hx. unfold sent_to. rewrite Hx.
    assert (List.find (λ p : nat * result ResponseResult Error, Nat.eqb p.1 n) (sent s ++ [(n, res)]) = Some (n, res)) as ->; [|done].
    assert (Forall (λ p, p.1 ≠ n) (sent s)) as Hn.
    { apply Forall_forall. intros p Hp Hpn. destruct Hch as [_ Hb]. rewrite Forall_forall in Hb.
      assert (p.1 ∈ Calls.channels s) as Hin by (unfold Calls.channels; apply elem_of_app; right; by apply list_elem_of_fmap_2).
      specialize (Hb _ Hin). unfold n in Hpn. cbn in Hb. lia. }
    clear -Hn. induction Hn as [|p l Hp _ IH]; cbn [app List.find]; [by rewrite Nat.eqb_refl|].
    apply Nat.eqb_neq in Hp. by rewrite Hp. }
  rewrite Hsent by done.
  unfold remember. destruct res as [[]|]; try destruct (user_pk s); cbn; rewrite delete_insert_id by done;
    (split; [done|]); (split; [done|]); (split; [done|]); by rewrite delete_insert_eq, delete_insert_eq.
Qed.

(** A call publishes the event that carries its request for the signer, if it can be made. *)
Lemma call_publishes debug cfg s d r signer_pk :
  remote_signer_pk s = Some signer_pk → (r = Request.GetPublicKey → user_pk s = None) →
  outbox (step debug cfg s (Start d r)) = outbox s ++
    match Bunker.carrier (nonce d) (clock d) (client_keys cfg) signer_pk (Nip46.Message.request (generate_id d) r) with
    | Ok e => [e]
    | Err _ => []
    end.
Proof.
  intros Hrs Huser. cbn [step]. assert (call cfg d s r = dispatch cfg d s r) as ->.
  { unfold call. destruct r; try done; destruct (user_pk s); try done. by specialize (Huser eq_refl). }
  unfold dispatch. cbn [remote_signer_pk set_next]. rewrite Hrs.
  destruct (Bunker.carrier _ _ _ _ _) as [e'|[er|er]]; cbn [finish set_next outbox publish set_calls]; rewrite ?app_nil_r; [|done..].
  by destruct (Calls.insert_fields (set_next s (S (next_call s))) (generate_id d) (Request.method r) (next_call s))
    as (_ & _ & _ & _ & _ & _ & _ & -> & _).
Qed.
Lemma call_sent debug cfg s d r signer_pk e :
  remote_signer_pk s = Some signer_pk → (r = Request.GetPublicKey → user_pk s = None) →
  outbox (step debug cfg s (Start d r)) = outbox s ++ [e] →
  Bunker.carrier (nonce d) (clock d) (client_keys cfg) signer_pk (Nip46.Message.request (generate_id d) r) = Ok e.
Proof.
  intros Hrs Huser. rewrite (call_publishes debug cfg s d r signer_pk Hrs Huser).
  destruct (Bunker.carrier _ _ _ _ _); by intros [=]%app_inv_head; subst.
Qed.

(** A signed event in an answer is the one that was asked for, signed by the user. *)
Lemma answer_signed bd keys secret policy client r event :
  answer Method.SignEvent (Bunker.build_response bd keys secret policy client (Request.read_back r))
    = Ok (ResponseResult.SignEvent event) →
  ∃ unsigned, r = Request.SignEvent unsigned ∧ UnsignedEvent.sign_with_keys unsigned (Bunker.user keys) = Ok event.
Proof.
  assert (∀ v, answer Method.SignEvent (Response.with_result v) = Ok (ResponseResult.SignEvent event) →
    v = ResponseResult.SignEvent event) as Hv.
  { intros v. unfold answer, seen_as. cbn. do 2 (case_decide; [done|]). destruct v; try case_decide; intros Hx; congruence. }
  destruct r as [pk s [perms|]| |u|pk t|pk t|pk t|pk t| |]; cbn [Request.read_back]; unfold Bunker.build_response;
    try (destruct (policy client _); [|done]); cbn [Bunker.handle_authorized].
  - unfold Bunker.connect_response. destruct secret; [case_decide; [|done]|]; intros Ha%Hv; done.
  - unfold Bunker.connect_response. destruct secret; [case_decide; [|done]|]; intros Ha%Hv; done.
  - intros Ha%Hv; done.
  - destruct (UnsignedEvent.sign_with_keys u _) as [ev|] eqn:Es; [|done]. intros Ha%Hv. injection Ha as ->. by exists u.
  - destruct (Nip04.encrypt _ _ _ _); [|done]. intros Ha%Hv; done.
  - destruct (Nip04.decrypt _ _ _); [|done]. intros Ha%Hv; done.
  - destruct (Nip44.encrypt _ _ _ _); [|done]. intros Ha%Hv; done.
  - destruct (Nip44.decrypt _ _ _); [|done]. intros Ha%Hv; done.
  - intros Ha%Hv; done.
  - intros Ha%Hv; done.
Qed.

(** A published reply is for the client alone. *)
Lemma published_reply bd keys client i resp reply :
  Bunker.publish_response bd keys client i resp = Some reply →
  Event.verify reply = Ok tt ∧ Event.pubkey reply = xonly_public_key (Bunker.signer keys) ∧ Event.tags reply = [Tag.p client]
  ∧ ∀ key, client = xonly_public_key key →
      Nip44.decrypt key (Event.pubkey reply) (Event.content reply) = Ok (Nip46.Message.to_string (Nip46.Message.response i resp)).
Proof.
  unfold Bunker.publish_response. destruct (Bunker.carrier _ _ _ _ _) as [e|] eqn:E; cbn; [|done]. intros [= <-].
  assert (∀ key, client = xonly_public_key key →
    Nip44.decrypt key (Event.pubkey e) (Event.content e) = Ok (Nip46.Message.to_string (Nip46.Message.response i resp))) as Hd.
  { intros key ->. by apply carrier_reads in E as (_ & _ & _ & _ & ?). }
  revert E. unfold Bunker.carrier. destruct (Nip44.encrypt _ _ _ _) as [ct|]; cbn [map_err result_bind]; [|done].
  destruct (EventBuilder.sign_with_keys _ _ _) as [ev|] eqn:Es; cbn [map_err]; [|done]. intros [= <-].
  pose proof (EventBuilder.signed_builder_verifies _ _ _ _ Es) as Hv.
  apply EventBuilder.sign_Ok in Es as (ts & _ & Ev). split; [done|]. rewrite Ev. by rewrite Ev in Hd.
Qed.

(** A result is given on good grounds only. *)
Lemma result_authorized bd keys secret policy client r :
  Response.result (Bunker.build_response bd keys secret policy client r) ≠ None →
  match r with
  | Request.Connect _ presented _ => ∀ s, secret = Some s → presented = Some s
  | _ => policy client r = true
  end.
Proof.
  unfold Bunker.build_response. destruct r; try (destruct (policy client _); [done|by intros []]).
  unfold Bunker.connect_response. intros Hr s ->. by case_decide; [|destruct Hr].
Qed.
Lemma signed_authorized bd keys secret policy client r signed :
  Response.result (Bunker.build_response bd keys secret policy client r) = Some (ResponseResult.SignEvent signed) →
  ∃ unsigned, r = Request.SignEvent unsigned ∧ policy client r = true
    ∧ Event.verify signed = Ok tt ∧ Event.pubkey signed = xonly_public_key (Bunker.user keys)
    ∧ Event.content signed = UnsignedEvent.content unsigned ∧ Event.kind signed = UnsignedEvent.kind unsigned
    ∧ Event.tags signed = UnsignedEvent.tags unsigned ∧ Event.created_at signed = UnsignedEvent.created_at unsigned.
Proof.
  unfold Bunker.build_response.
  destruct r as [pk s perms| |u|pk t|pk t|pk t|pk t| |]; try (destruct (policy client _) eqn:Ep; [|done]); cbn [Bunker.handle_authorized].
  - unfold Bunker.connect_response. destruct secret; [case_decide|]; done.
  - done.
  - destruct (UnsignedEvent.sign_with_keys u _) as [ev|] eqn:Es; [|done]. intros [= <-]. exists u. split; [done|]. split; [done|].
    pose proof Es as Hk. apply UnsignedEvent.sign_verifies in Es as [Hv Ev]. split; [done|]. rewrite Ev. cbn.
    unfold UnsignedEvent.sign_with_keys in Hk. case_bool_decide as Hp; [done|discriminate Hk].
  - by destruct (Nip04.encrypt _ _ _ _).
  - by destruct (Nip04.decrypt _ _ _).
  - by destruct (Nip44.encrypt _ _ _ _).
  - by destruct (Nip44.decrypt _ _ _).
  - done.
  - done.
Qed.

(** A response to a waiting id is handed to its caller. *)
Lemma response_sent cfg s k i w er entry v :
  pending s !! i = Some entry → decode_response (p_method entry) w er = Result v →
  sent (on_response cfg s k i w er) = sent s ++ [(p_sender entry, v)].
Proof.
  intros Hp Hd. unfold on_response, take.
  assert (pending (validate_secret_echo s (nostrconnect_secret cfg) k w) = pending s
          ∧ sent (validate_secret_echo s (nostrconnect_secret cfg) k w) = sent s) as [-> Es].
  { unfold validate_secret_echo. destruct (remote_signer_pk s), (nostrconnect_secret cfg), w; try done. by case_decide. }
  rewrite Hp, Hd. cbn. by rewrite Es.
Qed.

Lemma found_in_senders {A} (l : list (nat * A)) (ns : list nat) (m : nat) (v : A) :
  m ∉ l.*1 → m ∈ ns → snd <$> List.find (λ p, Nat.eqb p.1 m) (l ++ ((λ n, (n, v)) <$> ns)) = Some v.
Proof.
  intros Hl Hm. induction l as [|[k a] l IH].
  - clear Hl. induction ns as [|n ns IH]; [by apply not_elem_of_nil in Hm|]. cbn.
    destruct (Nat.eqb_spec n m) as [|Hn]; [done|]. apply elem_of_cons in Hm as [->|Hm]; [done|]. by apply IH.
  - cbn in *. apply not_elem_of_cons in Hl as [Hk Hl]. apply Nat.neq_sym, Nat.eqb_neq in Hk. by rewrite Hk, IH.
Qed.
End exchange.
