(* ===== verification/RemoteSignerTheorems.v ===== *)
(** * Theorems about remote signing *)

From Stdlib Require Import Ascii NArith Lia Eqdep_dec.
From S2P Require Import Prelude Encoding Text Ids Tags Event Filter FilterWire Nips Message HttpAuth Entities Storage.
From S2P Require Import Samples RelaySamples Database Client ClientSamples Pool EntityTheorems GiftWrap GiftWrapProofs.
From S2P Require Import GiftWrapSamples GiftWrap Nip46 RemoteSigner RemoteSignerProofs.

Section exchange.
Context `{FasterHex, !FasterHexLaws, Secp256k1, SerdeJson, !SerdeJsonLaws, SigSerde, !SigSerdeLaws, JsonText, !JsonEvents,
  UrlCrate, !UrlCrateLaws, JsonBorrow, !JsonRpc, EventCrypto, !EventCryptoLaws, !Nip44Crates, !Nip44Laws, Base64, !Base64Laws,
  AesCbc}.
Import Connect.

(** C28: A remote call is a local one: the request a client sends is answered by its
    bunker, and the caller is handed what the bunker computed for the request as the
    wire keeps it, result or refusal, and the table of waiting calls is as before.
    The exceptions are the texts reserved on the wire: a result that reads [error] or
    [auth_url], such as a decrypted message of those words, is taken for the failure
    it names. *)
Theorem remote_call_answered debug cfg u steps keys secret policy d bd r e reply out :
  let s := run debug cfg (initial u) steps in
  let client := xonly_public_key (client_keys cfg) in
  let resp := Bunker.build_response bd keys secret policy client (Request.read_back r) in
  keys_ok (Bunker.user keys) → Request.valid r →
  remote_signer_pk s = Some (xonly_public_key (Bunker.signer keys)) → dispatcher s = Listening →
  pending s !! generate_id d = None → (r = Request.GetPublicKey → user_pk s = None) →
  outbox (step debug cfg s (Start d r)) = outbox s ++ [e] →
  Bunker.listen bd keys secret policy (Ok e) = Some reply →
  is_total_failure out = false →
  let s' := run debug cfg s [Start d r; Published (next_call s) (Ok out); Item (Ok reply); Received (next_call s)] in
  returned s' = returned s ++ [mkReturn (next_call s) r (Some (generate_id d)) (answer (Request.method r) resp)]
  ∧ pending s' = pending s
  ∧ (∀ event, answer Method.SignEvent resp = Ok (ResponseResult.SignEvent event) →
       ∃ unsigned, r = Request.SignEvent unsigned ∧ UnsignedEvent.sign_with_keys unsigned (Bunker.user keys) = Ok event)
  ∧ answer Method.Nip44Decrypt (Response.with_result (ResponseResult.Nip44Decrypt "error")) = Ok ResponseResult.Error.
Proof.
  cbv zeta. set (s := run debug cfg (initial u) steps). set (client := xonly_public_key (client_keys cfg)).
  set (resp := Bunker.build_response _ _ _ _ _ _). intros Hk Hv Hrs Hd Hfresh Huser Hsent Hrep Hout.
  destruct (calls_run_ok debug cfg u steps) as (Hch & _ & _). fold s in Hch.
  pose proof (call_sent debug cfg s d r _ e Hrs Huser Hsent) as Hcar.
  destruct (reply_decoded bd keys secret policy client (generate_id d) r Hk Hv) as (w & er & Hresp & Hdec). fold resp in Hresp, Hdec.
  rewrite (request_handled _ _ _ _ _ _ _ _ _ _ Hv Hcar) in Hrep. fold client resp in Hrep.
  unfold Bunker.publish_response in Hrep. rewrite Hresp in Hrep.
  destruct (Bunker.carrier _ _ _ _ _) as [reply'|] eqn:Erep; cbn in Hrep; [|done]. injection Hrep as ->.
  apply reply_read in Erep as [Hrd _].
  destruct (call_turns debug cfg s d r _ e out reply w er _ Hch Hrs Hd Hfresh Huser Hcar Hout Hrd Hdec) as (_ & Hret & Hpend & _).
  split; [done|]. split; [done|]. split; [|done].
  intros event Ha. by apply (answer_signed bd keys secret policy client r event).
Qed.

(** C29: The bunker does nothing unasked: every event it publishes answers one
    request, encrypted for the bunker, to the key that sent it and no other.  A
    result, rather than an error, is given to a [connect] only with the bunker's
    secret when it has one, and to anything else only when the policy approves the
    client and the request; what is signed is the event asked for, by the user's key.
    (Nothing asks that the client connected first.) *)
Theorem bunker_guarded bd keys secret policy item reply :
  Bunker.listen bd keys secret policy item = Some reply →
  ∃ event plain envelope request,
    let client := Event.pubkey event in
    let resp := Bunker.build_response bd keys secret policy client request in
    item = Ok event ∧ Event.kind event = NIP46_KIND
    ∧ Nip44.decrypt (Bunker.signer keys) client (Event.content event) = Ok plain
    ∧ Nip46.Message.from_str plain = Some envelope ∧ Nip46.Message.into_request envelope = Ok request
    ∧ Event.verify reply = Ok tt ∧ Event.pubkey reply = xonly_public_key (Bunker.signer keys)
    ∧ Event.tags reply = [Tag.p client]
    ∧ (∀ key, client = xonly_public_key key →
         Nip44.decrypt key (Event.pubkey reply) (Event.content reply)
           = Ok (Nip46.Message.to_string (Nip46.Message.response (Nip46.Message.id envelope) resp)))
    ∧ (Response.result resp ≠ None →
         match request with
         | Request.Connect _ presented _ => ∀ s, secret = Some s → presented = Some s
         | _ => policy client request = true
         end)
    ∧ (∀ signed, Response.result resp = Some (ResponseResult.SignEvent signed) →
         ∃ unsigned, request = Request.SignEvent unsigned ∧ policy client request = true
           ∧ Event.verify signed = Ok tt ∧ Event.pubkey signed = xonly_public_key (Bunker.user keys)
           ∧ Event.content signed = UnsignedEvent.content unsigned ∧ Event.kind signed = UnsignedEvent.kind unsigned
           ∧ Event.tags signed = UnsignedEvent.tags unsigned ∧ Event.created_at signed = UnsignedEvent.created_at unsigned).
Proof.
  unfold Bunker.listen. destruct item as [event|]; [|done]. case_decide as Hkind; [done|].
  unfold Bunker.handle_request_event.
  destruct (Nip44.decrypt (Bunker.signer keys) _ _) as [plain|] eqn:Ed; cbn [result_ok mbind option_bind]; [|done].
  destruct (Nip46.Message.from_str plain) as [envelope|] eqn:Ef; cbn [mbind option_bind]; [|done].
  destruct (Nip46.Message.into_request envelope) as [request|] eqn:Er; cbn [result_ok mbind option_bind]; [|done].
  intros Hp. exists event, plain, envelope, request. cbv zeta.
  pose proof (published_reply _ _ _ _ _ _ Hp) as (Hv & Hpk & Ht & Hdec).
  repeat (split; [done|]). split.
  - intros Hres. by eapply result_authorized.
  - intros signed. apply signed_authorized.
Qed.

(** C30: Calls are accounted for: in every run each call that was started is under way
    or has returned, once; each reply channel is held once or got its one value; a
    call that waits can always time out.  A successful answer was carried by an event
    that arrived, under the call's own id, and is of the call's own kind (a cached key
    apart).  Who sent that event is not asked: any key's response to an id is handed to
    its caller. *)
Theorem calls_accounted debug cfg u steps :
  let s := run debug cfg (initial u) steps in
  (r_number <$> returned s) ++ (map_to_list (calls s)).*1 ≡ₚ seq 0 (next_call s)
  ∧ NoDup ((p_sender <$> (map_to_list (pending s)).*2) ++ (sent s).*1)
  ∧ (∀ n c, calls s !! n = Some c → c_stage c = Awaiting →
       ∃ e, returned (step debug cfg s (TimedOut n)) = returned s ++ [mkReturn n (c_request c) (Some (c_id c)) (Err e)])
  ∧ (∀ x v, x ∈ returned s → r_result x = Ok v →
       ResponseResult.fits (Request.method (r_request x)) v = true ∧ v ≠ ResponseResult.AuthUrl
       ∧ ∃ event id wire, Item (Ok event) ∈ steps ∧ read_response cfg event = Some (id, Some wire, None)
           ∧ ResponseResult.from_wire (Request.method (r_request x)) wire = Ok v
           ∧ (r_id x = Some id ∨ (r_id x = None ∧ r_request x = Request.GetPublicKey)))
  ∧ (∀ stranger d id entry wire er event v,
       dispatcher s = Listening → pending s !! id = Some entry →
       Bunker.carrier (nonce d) (clock d) stranger (xonly_public_key (client_keys cfg)) (Nip46.Message.Response id wire er) = Ok event →
       decode_response (p_method entry) wire er = Result v →
       sent (step debug cfg s (Item (Ok event))) = sent s ++ [(p_sender entry, v)]).
Proof.
  cbv zeta. destruct (calls_run_ok debug cfg u steps) as ([Hnd _] & Hcs & Hk). set (s := run debug cfg (initial u) steps) in *.
  split; [exact Hcs|]. split.
  { unfold Calls.channels, Calls.holders in Hnd. rewrite <-app_assoc in Hnd. by apply NoDup_app in Hnd as (_ & _ & ?). }
  split.
  { intros n [r i st] Hc Hst. cbn in Hst. subst st. exists (Timeout (Request.method r)). cbn [step]. unfold timed_out. by rewrite Hc. }
  split.
  { intros x v Hx Hv. pose proof (Calls.k_returned _ _ _ Hk x v Hx Hv) as Hr.
    assert (∀ id m, Calls.carried cfg (steps ≫= Calls.brings) id m v → m = Request.method (r_request x) →
      (r_id x = Some id ∨ (r_id x = None ∧ r_request x = Request.GetPublicKey)) →
      ResponseResult.fits (Request.method (r_request x)) v = true ∧ v ≠ ResponseResult.AuthUrl
      ∧ ∃ event id wire, Item (Ok event) ∈ steps ∧ read_response cfg event = Some (id, Some wire, None)
          ∧ ResponseResult.from_wire (Request.method (r_request x)) wire = Ok v
          ∧ (r_id x = Some id ∨ (r_id x = None ∧ r_request x = Request.GetPublicKey))) as Hgo.
    { intros id m (e & w & He & Hrd & Hf & Hne) -> Hid. split; [by eapply Calls.from_wire_fits|]. split; [done|].
      exists e, id, w. split; [|done]. by apply Calls.elem_of_brings. }
    destruct (r_id x) as [id|]; [apply (Hgo id _ Hr); [done|by left]|]. destruct Hr as (Hreq & id & Hc).
    apply (Hgo id _ Hc); [by rewrite Hreq|by right]. }
  intros stranger d id entry wire er event v Hd Hp Hcar Hdec. apply reply_read in Hcar as [Hrd _].
  cbn [step]. rewrite Hd. unfold on_item. rewrite Hrd. by apply response_sent.
Qed.

(** C31: The signer's key is trusted on good grounds only: with a [bunker://] address
    it is the address's for ever; with a [nostrconnect://] address it is the author of
    the first of the events the task read that answer the client with the address's
    secret, whether or not a call was waiting for that answer, and unknown while there
    is none; once known it does not change. *)
Theorem signer_latched debug cfg u steps :
  let s := run debug cfg (initial u) steps in
  (∀ pk relays secret, u = Uri.Bunker pk relays secret → remote_signer_pk s = Some pk)
  ∧ (∀ pk relays metadata secret perms, u = Uri.Client pk relays metadata secret perms → nostrconnect_secret cfg = Some secret →
       remote_signer_pk s = Event.pubkey <$> List.find (echoes cfg secret) (heard debug cfg (initial u) steps))
  ∧ (∀ k more, remote_signer_pk s = Some k → remote_signer_pk (run debug cfg s more) = Some k).
Proof.
  cbv zeta. split; [|split].
  - intros pk relays secret ->. by apply run_keeps_signer.
  - intros pk relays metadata secret perms -> Hcfg. by apply run_first.
  - intros k more. apply run_keeps_signer.
Qed.

(** C39: The error paths of a call: when every relay refuses one call's event, every
    other waiting call is failed with that call's error too and the table is emptied;
    a call that times out, or whose publish the pool refuses, leaves its entry in the
    table; and when the task is aborted, nothing is cancelled. *)
Theorem call_error_paths debug cfg s n r id :
  calls s !! n = Some (mkCall r id Sending) →
  (∀ out m rm im, is_total_failure out = true → m ≠ n →
     calls s !! m = Some (mkCall rm im Awaiting) → pending s !! im = Some (mkPending (Request.method rm) m) →
     m ∉ (sent s).*1 →
     let error := Rejected (Request.method r) ("publish failed on every relay: " +:+ debug (failed out)) in
     let s' := run debug cfg s [Published n (Ok out); Received m] in
     pending s' = ∅ ∧ returned s' = returned s ++ [mkReturn n r (Some id) (Err error); mkReturn m rm (Some im) (Err error)])
  ∧ (∀ e, pending (step debug cfg s (Published n (Err e))) = pending s)
  ∧ (∀ m, pending (step debug cfg s (TimedOut m)) = pending s)
  ∧ (pending (step debug cfg s Aborted) = pending s ∧ sent (step debug cfg s Aborted) = sent s).
Proof.
  intros Hc. split.
  { intros out m rm im Hout Hne Hm Hp Hsent. cbv zeta. unfold run. cbn [foldl step]. unfold published. rewrite Hc, Hout.
    set (error := Rejected _ _). rewrite Calls.cancel_all_eq. unfold received. cbn [finish calls r_number].
    rewrite lookup_delete_ne, Hm by done.
    match goal with |- context [sent_to ?x m] => assert (sent_to x m = Some (Err error)) as -> end.
    { unfold sent_to. cbn [finish sent]. apply found_in_senders; [done|]. apply Calls.elem_of_senders.
      by exists im, (mkPending (Request.method rm) m). }
    cbn. rewrite <-app_assoc. done. }
  split.
  { intros e. cbn [step]. unfold published. by rewrite Hc. }
  split; [|done]. intros m. cbn [step]. unfold timed_out. by destruct (calls s !! m) as [[? ? []]|].
Qed.
End exchange.

(** ** Instances *)

#[local] Existing Instance sample_secp.

(** Every method is lent; a cipher that keeps the text. *)
#[global] Instance text_borrow : JsonBorrow := {| lends_method _ := true |}.
#[global] Instance toy_aes : AesCbc := {| aes_encrypt _ _ text := text; aes_decrypt _ _ text := Some text |}.
#[global] Instance toy_aes_laws : AesCbcLaws.
Proof. done. Qed.

Definition text_char (c : ascii) : bool := plain c || Ascii.eqb c ";".
Lemma text_char_graphic c : text_char c = true → graphic c = true.
Proof. by destruct c as [[] [] [] [] [] [] [] []]. Qed.
Lemma json_text_chars v : Dec.string_forallb text_char (json_text v) = true.
Proof.
  unfold json_text. generalize (gen_tree_to_list (json_tree v)). intros ts.
  assert (∀ t, Dec.string_forallb text_char (token t) = true) as Ht.
  { intros t. apply (string_forallb_impl plain); [|apply token_plain]. intros c Hc. unfold text_char. by rewrite Hc. }
  induction ts as [|t [|t' ts] IH]; [done|apply Ht|].
  change (Dec.string_forallb text_char (token t +:+ String ";" (join ";" (token <$> t' :: ts))) = true).
  rewrite string_forallb_app, Ht. exact IH.
Qed.

#[global] Instance text_rpc `{FasterHex, Secp256k1, SigSerde, UrlCrate} : JsonRpc.
Proof.
  assert (∀ v, json_from_slice (as_bytes (json_to_string v)) = Ok v) as Hr.
  { intros v. cbn [json_from_slice text_json json_to_string text_serde]. unfold as_bytes.
    by rewrite String.string_of_list_byte_of_string, read_json_text. }
  assert (∀ v s, json_to_string v = s → Dec.string_forallb text_char s = true) as Hc
    by (intros v s <-; apply json_text_chars).
  split; intros; try apply Hr; try done.
  - apply trim_graphic, (string_forallb_impl text_char); [apply text_char_graphic|apply json_text_chars].
  - intros Hin. set_unfold in Hin. destruct Hin as [Hin|[Hin|[Hin|[]]]]; apply Hc in Hin; discriminate Hin.
  - intros Hin. set_unfold in Hin. destruct Hin as [Hin|[Hin|[]]]; apply Hc in Hin; discriminate Hin.
Qed.

(** Alice's phone asks the bunker, Bob's, to sign for the user. *)
Definition user_keys : secret_key := sample_key 3.
Definition bunker_keys : Bunker.NostrConnectKeys := Bunker.with_separate_signer bob_keys user_keys.
Definition bunker_address : Uri := Uri.Bunker (xonly_public_key bob_keys) [sample_relay] (Some "s3cret").
Definition phone : Connect.Config := Connect.mkConfig alice_keys [sample_relay] (Some "s3cret") None false.
Definition no_debug : gmap RelayUrl string → string := λ _, "{}".
Definition phone_draws : Connect.Draws :=
  Connect.mkDraws (Ok (replicate 16 x2a)) [] (Ok (bytes32_of_N 9)) (Some 1000%N).
Definition bunker_draws : Bunker.Draws :=
  Bunker.mkDraws (Ok (bytes32_of_N 10)) (Ok (replicate 16 x01)) (Ok (bytes32_of_N 11)) (Some 1001%N).
Definition draft : UnsignedEvent := UnsignedEvent.new (xonly_public_key user_keys) 1000 1 [] "hi".
Definition accepted_everywhere : Output EventId := mkOutput (UnsignedEvent.id draft) {[sample_relay]} ∅.

Abbreviation phone_id := (Connect.generate_id phone_draws).
Abbreviation phone_request :=
  (Bunker.carrier (Connect.nonce phone_draws) (Connect.clock phone_draws) alice_keys (xonly_public_key bob_keys)
     (Nip46.Message.request phone_id (Request.SignEvent draft))).
Lemma phone_request_Ok : ∃ e, phone_request = Ok e.
Proof. apply result_ok_Ok. vm_compute. eexists. reflexivity. Qed.
Lemma phone_outbox e : phone_request = Ok e →
  Connect.outbox (Connect.step no_debug phone (Connect.initial bunker_address) (Connect.Start phone_draws (Request.SignEvent draft))) = [e].
Proof.
  intros E. rewrite (call_publishes no_debug phone (Connect.initial bunker_address) phone_draws (Request.SignEvent draft)
    (xonly_public_key bob_keys) eq_refl ltac:(discriminate)).
  change (Connect.client_keys phone) with alice_keys. by rewrite E.
Qed.
Lemma draft_ok : UnsignedJson.json_ok draft.
Proof. split; [done|]. split; [done|]. split; [done|]. constructor. Qed.

Abbreviation bunker_reply :=
  (Bunker.carrier (Bunker.reply_nonce bunker_draws) (Bunker.reply_clock bunker_draws) bob_keys (xonly_public_key alice_keys)
     (Nip46.Message.response phone_id
        (Bunker.build_response bunker_draws bunker_keys (Some "s3cret") Bunker.ApproveAll (xonly_public_key alice_keys)
           (Request.SignEvent draft)))).
Lemma bunker_reply_Ok : ∃ e, bunker_reply = Ok e.
Proof. apply result_ok_Ok. vm_compute. eexists. reflexivity. Qed.
Lemma bunker_listens e reply : phone_request = Ok e → bunker_reply = Ok reply →
  Bunker.listen bunker_draws bunker_keys (Some "s3cret") Bunker.ApproveAll (Ok e) = Some reply.
Proof.
  intros E R. rewrite (request_handled bunker_draws bunker_keys (Some "s3cret") Bunker.ApproveAll _ _ alice_keys phone_id
    (Request.SignEvent draft) e draft_ok E). unfold Bunker.publish_response.
  change (Bunker.signer bunker_keys) with bob_keys. change (Request.read_back (Request.SignEvent draft)) with (Request.SignEvent draft).
  by rewrite R.
Qed.

Lemma remote_call_answered_witness :
  ∃ reply signed, Connect.returned (Connect.run no_debug phone (Connect.initial bunker_address)
      [Connect.Start phone_draws (Request.SignEvent draft); Connect.Published 0 (Ok accepted_everywhere);
       Connect.Item (Ok reply); Connect.Received 0])
    = [Connect.mkReturn 0 (Request.SignEvent draft) (Some phone_id) (Ok (ResponseResult.SignEvent signed))]
    ∧ UnsignedEvent.sign_with_keys draft user_keys = Ok signed.
Proof.
  destruct phone_request_Ok as [e E]. destruct bunker_reply_Ok as [reply R].
  pose proof (remote_call_answered no_debug phone bunker_address [] bunker_keys (Some "s3cret") Bunker.ApproveAll
    phone_draws bunker_draws (Request.SignEvent draft) e reply accepted_everywhere (sample_keys_ok 3) draft_ok
    eq_refl eq_refl eq_refl ltac:(discriminate) (phone_outbox e E) (bunker_listens e reply E R) ltac:(reflexivity)) as (Hret & _).
  eexists reply, _. split; [exact Hret|]. reflexivity.
Defined.

Lemma bunker_guarded_witness :
  ∃ e reply, Bunker.listen bunker_draws bunker_keys (Some "s3cret") Bunker.ApproveAll (Ok e) = Some reply
    ∧ Event.verify reply = Ok tt ∧ Event.pubkey reply = xonly_public_key bob_keys.
Proof.
  destruct phone_request_Ok as [e E]. destruct bunker_reply_Ok as [reply R]. pose proof (bunker_listens e reply E R) as Hl.
  exists e, reply. split; [exact Hl|].
  destruct (bunker_guarded bunker_draws bunker_keys (Some "s3cret") Bunker.ApproveAll (Ok e) reply Hl)
    as (ev & pl & en & rq & _ & _ & _ & _ & _ & Hv & Hp & _). split; [exact Hv|exact Hp].
Defined.

(** A stranger answers the phone's call before the bunker does. *)
Abbreviation stranger_reply :=
  (Bunker.carrier (Connect.nonce phone_draws) (Connect.clock phone_draws) (sample_key 66) (xonly_public_key alice_keys)
     (Nip46.Message.Response phone_id None (Some "no"))).
Lemma stranger_reply_Ok : ∃ e, stranger_reply = Ok e.
Proof. apply result_ok_Ok. vm_compute. eexists. reflexivity. Qed.
Definition asked : list Connect.Step := [Connect.Start phone_draws (Request.SignEvent draft)].
Lemma asked_waits :
  Connect.dispatcher (Connect.run no_debug phone (Connect.initial bunker_address) asked) = Connect.Listening
  ∧ Connect.pending (Connect.run no_debug phone (Connect.initial bunker_address) asked) !! phone_id
      = Some (Connect.mkPending Method.SignEvent 0)
  ∧ Connect.sent (Connect.run no_debug phone (Connect.initial bunker_address) asked) = [].
Proof. split_and!; vm_compute; reflexivity. Qed.

Lemma calls_accounted_witness :
  ∃ e, Connect.sent (Connect.step no_debug phone (Connect.run no_debug phone (Connect.initial bunker_address) asked)
                       (Connect.Item (Ok e)))
         = [] ++ [(0%nat, Err (Connect.Rejected Method.SignEvent "no"))]
    ∧ Event.pubkey e ≠ xonly_public_key bob_keys.
Proof.
  destruct stranger_reply_Ok as [e E]. destruct asked_waits as (Hd & Hp & Hs). exists e.
  destruct (calls_accounted no_debug phone bunker_address asked) as (_ & _ & _ & _ & Hany).
  specialize (Hany (sample_key 66) phone_draws phone_id _ None (Some "no") e _ Hd Hp E eq_refl). rewrite Hs in Hany.
  split; [exact Hany|]. destruct (reply_read phone _ _ _ _ _ _ _ E) as [_ ->]. vm_compute. discriminate.
Defined.

(** Two calls wait; the second's event is refused by every relay. *)
Definition other_draws : Connect.Draws :=
  Connect.mkDraws (Ok (replicate 16 x2b)) [] (Ok (bytes32_of_N 12)) (Some 1000%N).
Definition refused_everywhere : Output EventId := mkOutput (UnsignedEvent.id draft) ∅ {[sample_relay := "no"]}.
Definition two_calls : Connect.Inner :=
  Connect.run no_debug phone (Connect.initial bunker_address)
    [Connect.Start phone_draws (Request.SignEvent draft); Connect.Published 0 (Ok accepted_everywhere);
     Connect.Start other_draws Request.Ping].
Lemma two_calls_wait :
  Connect.calls two_calls !! 1%nat = Some (Connect.mkCall Request.Ping (Connect.generate_id other_draws) Connect.Sending)
  ∧ Connect.calls two_calls !! 0%nat = Some (Connect.mkCall (Request.SignEvent draft) phone_id Connect.Awaiting)
  ∧ Connect.pending two_calls !! phone_id = Some (Connect.mkPending Method.SignEvent 0)
  ∧ Connect.sent two_calls = [].
Proof. split_and!; vm_compute; reflexivity. Qed.

Lemma call_error_paths_witness :
  Connect.pending (Connect.run no_debug phone two_calls [Connect.Published 1 (Ok refused_everywhere); Connect.Received 0]) = ∅
  ∧ Connect.returned (Connect.run no_debug phone two_calls [Connect.Published 1 (Ok refused_everywhere); Connect.Received 0])
    = Connect.returned two_calls
      ++ [Connect.mkReturn 1 Request.Ping (Some (Connect.generate_id other_draws))
            (Err (Connect.Rejected Method.Ping "publish failed on every relay: {}"));
          Connect.mkReturn 0 (Request.SignEvent draft) (Some phone_id)
            (Err (Connect.Rejected Method.Ping "publish failed on every relay: {}"))].
Proof.
  destruct two_calls_wait as (H1 & H0 & Hp & Hs).
  refine (proj1 (call_error_paths no_debug phone two_calls 1 Request.Ping (Connect.generate_id other_draws) H1)
    refused_everywhere 0%nat (Request.SignEvent draft) phone_id _ _ H0 Hp _); [reflexivity|discriminate|].
  rewrite Hs. apply not_elem_of_nil.
Defined.

(** ** The wire forms of remote signing read back *)

Section addresses.
Context `{FasterHex, !FasterHexLaws, Secp256k1, SerdeJson, !SerdeJsonLaws, SigSerde, !SigSerdeLaws, JsonText, !JsonEvents,
  UrlCrate, !UrlCrateLaws, !UrlText, JsonBorrow, !JsonRpc, !UrlQuery, !UrlQueryLaws}.

(** What either side writes the other reads: connection addresses, envelopes,
    canonical requests and results that are not reserved come back as themselves.  A
    request loses an empty secret before permissions, and permissions that are not
    tokens: [a,b] comes back as two.  A request for an unknown method is not read as
    such but as a response with neither result nor error. *)
Theorem connection_round_trip :
  (∀ u, Uri.valid u → Uri.parse (Uri.to_string u) = Ok u)
  ∧ (∀ m, Nip46.Message.from_str (Nip46.Message.to_string m) = Some m)
  ∧ (∀ i r, Request.valid r → Nip46.Message.into_request (Nip46.Message.request i r) = Ok (Request.read_back r))
  ∧ (∀ r, Request.canonical r → Request.read_back r = r)
  ∧ (∀ i m v, ResponseResult.fits m v = true → ResponseResult.valid v → ResponseResult.plain v →
       Nip46.Message.into_response (Nip46.Message.response i (Response.with_result v)) m = Ok (Response.with_result v))
  ∧ Permission.split (Permission.join [Permission.Other "a,b"]) = [Permission.Other "a"; Permission.Other "b"]
  ∧ (∀ l i name ps, Method.from_str name = Err name →
       Nip46.Message.deserialize l (JObj [("id", JStr i); ("method", JStr name); ("params", JArr (JStr <$> ps))])
         = Some (Nip46.Message.Response i None None)).
Proof.
  split; [apply uri_reads|]. split; [apply envelope_reads|].
  split; [intros i r Hr; by apply request_reads|]. split; [apply canonical_read_back|].
  split. { intros i m v Hf Hv Hp. cbn. unfold Response.from_wire. by rewrite result_reads. }
  split; [reflexivity|].
  intros l i name ps Hn. unfold Nip46.Message.deserialize. rewrite de_map_obj. cbn [mbind option_bind].
  unfold Nip46.Message.de_request, Nip46.Message.de_response. cbn [foldl mbind option_bind]. rewrite rq_visit_id, rs_visit_id.
  cbn [mbind option_bind]. unfold Nip46.Message.visit_request at 2.
  cbn [decide]. rewrite decide_False, decide_True by done. unfold Nip46.Message.de_method.
  destruct l; [rewrite de_str_str; cbn [mbind option_bind]; rewrite Hn|]; done.
Qed.
End addresses.

(** ** Instances *)

(** An address as its text. *)
Record text_url := mkTextUrl { text : string; text_ascii : Utf8.ascii_only text = true }.

Lemma text_url_eq a b : text a = text b → a = b.
Proof. destruct a as [s Ha], b as [t Hb]. cbn. intros ->. f_equal. apply (UIP_dec Bool.bool_dec). Qed.
#[local] Instance text_url_eq_dec : EqDecision text_url.
Proof. intros a b. destruct (decide (text a = text b)) as [E|E]; [left; by apply text_url_eq|right; congruence]. Defined.

Definition read_text (s : string) : result text_url string :=
  match Bool.bool_dec (Utf8.ascii_only s) true with
  | left H => Ok (mkTextUrl s H)
  | right _ => Err "invalid international domain name"
  end.
Lemma read_text_Ok s (H : Utf8.ascii_only s = true) : read_text s = Ok (mkTextUrl s H).
Proof. unfold read_text. destruct (Bool.bool_dec _ _) as [H'|]; [|done]. f_equal. by apply text_url_eq. Qed.

#[local] Instance text_url_countable : Countable text_url.
Proof.
  refine (inj_countable text (λ s, result_ok (read_text s)) _). intros [s H]. cbn. by rewrite (read_text_Ok s H).
Defined.

Definition after_scheme (u : text_url) : string := default EmptyString (snd <$> split_once_str "://" (text u)).
Definition host_and_query (u : text_url) : string * string :=
  default (after_scheme u, EmptyString) (split_once "?" (after_scheme u)).

#[local] Instance text_urls : UrlCrate | 0 := {|
  url := text_url;
  url_parse := read_text;
  url_as_str := text;
  url_scheme u := default EmptyString (fst <$> split_once_str "://" (text u));
  url_host_str u := Some (host_and_query u).1;
  url_port _ := None;
  url_fragment _ := None;
  url_without_fragment u := u;
  url_without_port u := Some u;
|}.
#[local] Instance text_url_laws : UrlCrateLaws.
Proof. split; try done. - intros [s H]. apply read_text_Ok. - by intros u u' [= <-]. - by intros u u' [= <-]. Qed.
#[local] Instance text_url_utf8 : UrlText.
Proof. intros [s H]. by apply Utf8.ascii_is_str. Qed.

Definition read_pair (s : string) : string * string :=
  match split_once "=" s with Some (k, v) => (k, percent_decode v) | None => (percent_decode s, EmptyString) end.
#[local] Instance text_query : UrlQuery :=
  {| query_pairs u := match (host_and_query u).2 with EmptyString => [] | q => read_pair <$> split "&" q end |}.

(** What an encoded value is written with. *)
Definition query_char (c : ascii) : bool := Uri.preserve c || Ascii.eqb c "%".
Lemma url_encode_chars v : Dec.string_forallb query_char (Uri.url_encode v) = true.
Proof.
  induction v as [|c v IH]; [done|]. cbn [Uri.url_encode]. destruct (Uri.preserve c) eqn:Hc; cbn [Dec.string_forallb].
  - unfold query_char at 1. by rewrite Hc, IH.
  - rewrite IH, andb_true_r. destruct c as [[] [] [] [] [] [] [] []]; reflexivity.
Qed.

Definition pair_text (p : string * string) : string := p.1 +:+ "=" +:+ Uri.url_encode p.2.
Definition known_key (k : string) : Prop := k ∈ ["relay"; "metadata"; "secret"; "perms"].

Lemma known_key_chars k c : known_key k → c ∈ ["&"; "="; "?"]%char → no_char c k = true ∧ Dec.string_forallb ascii_char k = true.
Proof.
  unfold known_key. intros Hk Hc. set_unfold in Hk. set_unfold in Hc.
  destruct Hk as [->|[->|[->|[->|[]]]]], Hc as [->|[->|[->|[]]]]; done.
Qed.
Lemma pair_text_chars p : known_key p.1 → no_char "&" (pair_text p) = true ∧ Dec.string_forallb ascii_char (pair_text p) = true.
Proof.
  intros Hk. destruct (known_key_chars p.1 "&" Hk ltac:(set_solver)) as [Hn Ha]. unfold pair_text.
  rewrite !no_char_app, !string_forallb_app, Hn, Ha. split.
  - cbn. apply (string_forallb_no_char _ query_char); [done|apply url_encode_chars].
  - cbn. apply (string_forallb_impl query_char); [|apply url_encode_chars].
    intros c. destruct c as [[] [] [] [] [] [] [] []]; vm_compute; done.
Qed.
Lemma emit_join pairs : Uri.emit false pairs = match pairs with [] => EmptyString | _ => "&" +:+ join "&" (pair_text <$> pairs) end.
Proof.
  induction pairs as [|[k v] pairs IH]; [done|]. cbn [Uri.emit]. rewrite IH. destruct pairs as [|p ps]; [by rewrite string_app_nil|].
  change (join "&" (pair_text <$> (k, v) :: p :: ps))
    with (pair_text (k, v) +:+ String "&" (join "&" (pair_text <$> p :: ps))).
  unfold pair_text. cbn [fst snd]. by rewrite !string_app_assoc.
Qed.
Lemma emit_first pairs : Uri.emit true pairs = match pairs with [] => EmptyString | _ => "?" +:+ join "&" (pair_text <$> pairs) end.
Proof.
  destruct pairs as [|[k v] ps]; [done|]. cbn [Uri.emit]. rewrite emit_join. destruct ps as [|p ps]; [by rewrite string_app_nil|].
  change (join "&" (pair_text <$> (k, v) :: p :: ps))
    with (pair_text (k, v) +:+ String "&" (join "&" (pair_text <$> p :: ps))).
  unfold pair_text. cbn [fst snd]. by rewrite !string_app_assoc.
Qed.
Lemma join_chars pairs : Forall (λ p, known_key p.1) pairs → Dec.string_forallb ascii_char (join "&" (pair_text <$> pairs)) = true.
Proof.
  induction 1 as [|p [|q ps] Hp _ IH]; [done|by apply pair_text_chars|].
  change (join "&" (pair_text <$> p :: q :: ps)) with (pair_text p +:+ String "&" (join "&" (pair_text <$> q :: ps))).
  rewrite string_forallb_app. rewrite (proj2 (pair_text_chars p Hp)). exact IH.
Qed.
Lemma read_pair_text p : known_key p.1 → read_pair (pair_text p) = (p.1, percent_decode (Uri.url_encode p.2)).
Proof.
  intros Hk. destruct (known_key_chars p.1 "=" Hk ltac:(set_solver)) as [Hn _].
  unfold read_pair, pair_text. change ("=" +:+ Uri.url_encode p.2) with (String "=" (Uri.url_encode p.2)).
  by rewrite split_once_app.
Qed.

#[local] Instance text_query_laws : UrlQueryLaws.
Proof.
  intros scheme host pairs Hs _ Hh Hp. destruct (hex_chars host Hh) as [Hq Ha].
  assert (Forall (λ p, known_key p.1) pairs) as Hk by (eapply Forall_impl; [exact Hp|]; by intros p [? _]).
  assert (no_char ":" scheme = true ∧ Dec.string_forallb ascii_char scheme = true) as [Hns Has].
  { set_unfold in Hs. by destruct Hs as [->|[->|[]]]. }
  assert (Utf8.ascii_only (scheme +:+ "://" +:+ host +:+ Uri.emit true pairs) = true) as Hascii.
  { apply ascii_only_chars. rewrite !string_forallb_app, Has, Ha, emit_first. cbn.
    destruct pairs as [|p ps]; [done|]. by apply (join_chars (p :: ps)). }
  exists (mkTextUrl _ Hascii). split; [apply read_text_Ok|]. cbn [url_scheme text_urls text url_host_str].
  assert (split_once_str "://" (scheme +:+ "://" +:+ host +:+ Uri.emit true pairs) = Some (scheme, host +:+ Uri.emit true pairs)) as Esplit
    by (by apply split_once_str_app).
  assert (host_and_query (mkTextUrl _ Hascii) =
          (host, match pairs with [] => EmptyString | _ => join "&" (pair_text <$> pairs) end)) as Ehq.
  { unfold host_and_query, after_scheme. cbn [text]. rewrite Esplit.
    change (default EmptyString (snd <$> Some (scheme, host +:+ Uri.emit true pairs))) with (host +:+ Uri.emit true pairs).
    rewrite emit_first. destruct pairs as [|p ps].
    - by rewrite string_app_nil, split_once_None.
    - pose proof (split_once_app "?" host (join "&" (pair_text <$> p :: ps)) Hq) as Esp.
      change (String "?" (join "&" (pair_text <$> p :: ps))) with ("?" +:+ join "&" (pair_text <$> p :: ps)) in Esp.
      by rewrite Esp. }
  split; [by rewrite Esplit|]. split; [by rewrite Ehq|]. cbn [query_pairs text_query]. rewrite Ehq. cbn [snd].
  destruct pairs as [|p ps]; [done|]. destruct (join "&" (pair_text <$> p :: ps)) as [|c q] eqn:Ej.
  - exfalso. inversion Hk as [|? ? Hp1 _]; subst. destruct p as [k v]. cbn [fst] in Hp1.
    unfold known_key in Hp1. set_unfold in Hp1. destruct ps; destruct Hp1 as [->|[->|[->|[->|[]]]]]; discriminate Ej.
  - rewrite <-Ej, split_join.
    + rewrite <-list_fmap_compose. apply list_fmap_ext. intros i x Hx. cbn. apply read_pair_text.
      rewrite Forall_forall in Hk. apply Hk. by eapply list_elem_of_lookup_2.
    + done.
    + apply Forall_fmap. eapply Forall_impl; [exact Hk|]. intros x Hx. by apply pair_text_chars.
Qed.

#[local] Existing Instance sample_secp.

Definition phone_relay : RelayUrl := RelayUrl.mk (mkTextUrl "wss://relay.example" eq_refl).
Definition phone_address : Uri :=
  Uri.Client alice [phone_relay] (Metadata.new "Phone & co") "a b%" [Permission.Method Method.Ping; Permission.SignEventKind 1].

Lemma connection_round_trip_witness :
  Uri.parse (Uri.to_string phone_address) = Ok phone_address
  ∧ ∃ rest, Uri.to_string phone_address = "nostrconnect://" +:+ PublicKey.to_hex alice +:+ "?relay=wss://relay.example&metadata=" +:+ rest.
Proof.
  split.
  - apply (proj1 connection_round_trip). split; [reflexivity|]. split; [|split; [reflexivity|split; [|reflexivity]]].
    + constructor; [|constructor]. split; [right; reflexivity|by eexists|reflexivity|discriminate].
    + constructor; [exact I|]. constructor; [|constructor]. discriminate.
  - eexists. reflexivity.
Defined.
