(* ===== verification/Derive.v ===== *)
(** * What [serde] derives

    The data of the JSON-RPC protocols are structs with derived readers and writers.
    A derived reader takes an object, whose keys may come in any order and among
    others, or an array of the fields in order; a known key that comes twice is an
    error.  [serde_json::Value] keeps an object as a map of its keys. *)

From Stdlib Require Import Ascii NArith Lia.
From S2P Require Import Prelude Encoding Text Ids Tags Event Filter FilterWire.

(** ** Fields *)

Fixpoint field_values (key : string) (entries : list (string * Json)) : list Json :=
  match entries with
  | [] => []
  | (k, v) :: entries => if String.eqb k key then v :: field_values key entries else field_values key entries
  end.

(** A field, if it is there; [None] is the error. *)
Definition field {A} (de : Json → option A) (key : string) (entries : list (string * Json)) : option (option A) :=
  match field_values key entries with
  | [] => Some None
  | [v] => Some <$> de v
  | _ => None
  end.
Definition required {A} (de : Json → option A) (key : string) (entries : list (string * Json)) : option A :=
  mjoin (field de key entries).
(** An [Option], and a field with a default. *)
Definition nullable {A} (de : Json → option A) (v : Json) : option (option A) :=
  match v with JNull => Some None | _ => Some <$> de v end.
Definition optional {A} (de : Json → option A) (key : string) (entries : list (string * Json)) : option (option A) :=
  match field (nullable de) key entries with Some o => Some (mjoin o) | None => None end.
Definition defaulted {A} (de : Json → option A) (dflt : A) (key : string) (entries : list (string * Json)) : option A :=
  match field de key entries with Some o => Some (default dflt o) | None => None end.

(** The entries a struct with these fields is read from. *)
Definition struct_entries `{SerdeJson} (names : list string) (v : Json) : option (list (string * Json)) :=
  match de_map v with
  | Some entries => Some entries
  | None => vs ← de_seq v; if (length vs <=? length names)%nat then Some (zip names vs) else None
  end.

(** [Serialize] and [Deserialize]; errors are not told apart. *)
Class Serde (A : Type) := { ser : A → Json; de : Json → option A }.

(** ** Values *)

(** [serde_json::Value] read from any source, and made from a serialization. *)
Class JsonValues := { to_value : Json → option Json }.

(** A value that its text keeps: integers of 64 bits, no key twice, and nesting
    within the reader's limit. *)
Definition RECURSION_LIMIT : nat := 127.
Fixpoint json_plain (depth : nat) (v : Json) : bool :=
  match v with
  | JNull | JBool _ | JStr _ => true
  | JNum n => (n <=? Dec.u64_max)%N
  | JNumOther _ => false
  | JArr vs => match depth with O => false | S depth => forallb (json_plain depth) vs end
  | JObj entries =>
      match depth with
      | O => false
      | S depth => bool_decide (NoDup entries.*1) && forallb (λ e, json_plain depth e.2) entries
      end
  end.

(** Equal up to the order of keys. *)
Definition atom (v : Json) : bool := match v with JArr _ | JObj _ => false | _ => true end.
Inductive same_value : Json → Json → Prop :=
| same_atom v : atom v = true → same_value v v
| same_arr vs vs' : Forall2 same_value vs vs' → same_value (JArr vs) (JArr vs')
| same_obj es es' es'' :
    Forall2 (λ e e', e.1 = e'.1 ∧ same_value e.2 e'.2) es es' → es' ≡ₚ es'' → same_value (JObj es) (JObj es'').

(** The map of an object is determined by its keys and their values. *)
Class JsonValueLaws `{JsonValues} : Prop := {
  to_value_same : ∀ d v, json_plain d v = true → ∃ v', to_value v = Some v' ∧ same_value v v';
  to_value_canon : ∀ d v v', json_plain d v = true → same_value v v' → to_value v = to_value v';
}.
Arguments JsonValueLaws : clear implicits.
Arguments JsonValueLaws {_}.

(** ** Lemmas *)

Definition same_entries (es es'' : list (string * Json)) : Prop :=
  ∃ es', Forall2 (λ e e', e.1 = e'.1 ∧ same_value e.2 e'.2) es es' ∧ es' ≡ₚ es''.

Lemma same_obj_inv es v : same_value (JObj es) v → ∃ es'', v = JObj es'' ∧ same_entries es es''.
Proof. inversion 1; [done|]. subst. eexists. split; [done|]. by eexists. Qed.
Lemma same_arr_inv vs v : same_value (JArr vs) v → ∃ vs', v = JArr vs' ∧ Forall2 same_value vs vs'.
Proof. inversion 1; [done|]. subst. by eexists. Qed.
Lemma same_atom_inv a v : atom a = true → same_value a v → v = a.
Proof. intros Ha. inversion 1; subst; done. Qed.

Lemma field_values_perm key es es' : es ≡ₚ es' → field_values key es ≡ₚ field_values key es'.
Proof.
  induction 1 as [|[k v] es es' _ IH|[k v] [k' v'] es|es1 es2 es3 _ IH1 _ IH2]; cbn; [done| | |by etrans].
  - destruct (String.eqb k key); [by constructor|done].
  - destruct (String.eqb k key), (String.eqb k' key); try done. constructor.
Qed.
Lemma field_values_same key es es' :
  Forall2 (λ e e', e.1 = e'.1 ∧ same_value e.2 e'.2) es es' → Forall2 same_value (field_values key es) (field_values key es').
Proof.
  induction 1 as [|[k v] [k' v'] es es' [Hk Hv] _ IH]; cbn in *; [constructor|]. subst k'.
  destruct (String.eqb k key); [by constructor|done].
Qed.
Lemma field_values_app key es es' : field_values key (es ++ es') = field_values key es ++ field_values key es'.
Proof. induction es as [|[k v] es IH]; cbn; [done|]. destruct (String.eqb k key); cbn; by rewrite IH. Qed.
Lemma field_values_opt {A} key k (enc : A → Json) o :
  field_values key (FilterWire.opt_entry k enc o) = if String.eqb k key then match o with Some a => [enc a] | None => [] end else [].
Proof. destruct o; cbn; by destruct (String.eqb k key). Qed.

Lemma field_absent {A} (de : Json → option A) key es es' :
  same_entries es es' → field_values key es = [] → field de key es' = Some None.
Proof.
  intros (mid & Hm & Hp) E. apply (field_values_same key) in Hm. rewrite E in Hm. apply Forall2_nil_inv_l in Hm as Hn.
  apply (field_values_perm key) in Hp. rewrite Hn in Hp. unfold field. by rewrite (Permutation_nil Hp).
Qed.
Lemma field_present {A} (de : Json → option A) key es es' j a :
  same_entries es es' → field_values key es = [j] → (∀ v, same_value j v → de v = Some a) →
  field de key es' = Some (Some a).
Proof.
  intros (mid & Hm & Hp) E Hde. apply (field_values_same key) in Hm. rewrite E in Hm.
  apply Forall2_cons_inv_l in Hm as (v & rest & Hv & ->%Forall2_nil_inv_l & Hn).
  apply (field_values_perm key) in Hp. rewrite Hn in Hp. unfold field. rewrite (Permutation_length_1_inv Hp). cbn. by rewrite (Hde v Hv).
Qed.

(** A field is read from whatever holds the same values. *)
Lemma required_same {A} (de : Json → option A) key es es' j a :
  same_entries es es' → field_values key es = [j] → (∀ v, same_value j v → de v = Some a) → required de key es' = Some a.
Proof. intros Hs E Hde. unfold required. by rewrite (field_present de key es es' j a Hs E Hde). Qed.
Lemma optional_same {A} (de : Json → option A) (enc : A → Json) key es es' o :
  same_entries es es' → field_values key es = match o with Some a => [enc a] | None => [] end →
  (∀ a v, o = Some a → same_value (enc a) v → v ≠ JNull ∧ de v = Some a) → optional de key es' = Some o.
Proof.
  intros Hs E Hde. unfold optional. destruct o as [a|]; [|by rewrite (field_absent _ key es es' Hs E)].
  rewrite (field_present (nullable de) key es es' (enc a) (Some a) Hs E); [done|].
  intros v Hv. destruct (Hde a v eq_refl Hv) as [Hn Hd]. destruct v; try done; unfold nullable; by rewrite Hd.
Qed.
Lemma defaulted_same {A} (de : Json → option A) dflt key es es' j a :
  same_entries es es' → field_values key es = [j] → (∀ v, same_value j v → de v = Some a) → defaulted de dflt key es' = Some a.
Proof. intros Hs E Hde. unfold defaulted. by rewrite (field_present de key es es' j a Hs E Hde). Qed.
Lemma defaulted_absent {A} (de : Json → option A) dflt key es es' :
  same_entries es es' → field_values key es = [] → defaulted de dflt key es' = Some dflt.
Proof. intros Hs E. unfold defaulted. by rewrite (field_absent de key es es' Hs E). Qed.

Lemma field_self {A} (de : Json → option A) key es j :
  field_values key es = [j] → field de key es = Some <$> de j.
Proof. unfold field. by intros ->. Qed.

Lemma forallb_perm {A} (p : A → bool) l l' : l ≡ₚ l' → forallb p l = forallb p l'.
Proof. induction 1; cbn; [done|by f_equal|by rewrite !andb_assoc, (andb_comm (p _))|by etrans]. Qed.

(** What is the same is as plain. *)
Lemma same_plain d v v' : same_value v v' → json_plain d v = true → json_plain d v' = true.
Proof.
  revert v v'. induction d as [|d IH]; intros v v' Hs Hp; inversion Hs as [|vs vs' Hvs|es es' es'' Hes Hperm]; subst; try done.
  - cbn [json_plain] in *. clear Hs. induction Hvs as [|x y vs vs' Hxy _ IHvs]; [done|]. cbn in *. apply andb_prop in Hp as [Hx Hp].
    by rewrite (IH _ _ Hxy Hx), IHvs.
  - cbn [json_plain] in *. apply andb_prop in Hp as [Hnd%bool_decide_eq_true Hp]. rewrite <-(forallb_perm _ _ _ Hperm).
    rewrite bool_decide_true by (rewrite <-Hperm; replace es'.*1 with es.*1; [done|]; clear -Hes;
      induction Hes as [|? ? ? ? [Hk _] _ IHe]; cbn; [done|by rewrite Hk, IHe]).
    cbn [andb]. clear Hs Hperm Hnd. induction Hes as [|x y es es' [_ Hxy] _ IHes]; [done|]. cbn in *. apply andb_prop in Hp as [Hx Hp].
    by rewrite (IH _ _ Hxy Hx), IHes.
Qed.

(** ** Reading back *)

(** A type whose values are read from whatever holds the same values, and are plain. *)
Class SerdeRound (A : Type) `{Serde A} (ok : A → Prop) (depth : nat) : Prop := {
  ser_plain : ∀ a, ok a → json_plain depth (ser a) = true;
  de_same : ∀ a v, ok a → same_value (ser a) v → v ≠ JNull ∧ de v = Some a;
}.

(** Keys that come in the order of the fields, some of them absent. *)
Lemma keys_opt {A} k (enc : A → Json) o (es : list (string * Json)) names :
  es.*1 `sublist_of` names → (FilterWire.opt_entry k enc o ++ es).*1 `sublist_of` (k :: names).
Proof. destruct o; cbn; [by constructor|by apply sublist_cons]. Qed.
Lemma keys_opt_last {A} k (enc : A → Json) o : (FilterWire.opt_entry k enc o).*1 `sublist_of` [k].
Proof. destruct o; cbn; [done|by apply sublist_cons]. Qed.
Lemma keys_cons (k : string) (v : Json) (es : list (string * Json)) names : es.*1 `sublist_of` names → ((k, v) :: es).*1 `sublist_of` (k :: names).
Proof. cbn. by constructor. Qed.
Lemma struct_plain d (es : list (string * Json)) names :
  es.*1 `sublist_of` names → bool_decide (NoDup names) = true → forallb (λ e, json_plain d e.2) es = true →
  json_plain (S d) (JObj es) = true.
Proof.
  intros Hs Hn%bool_decide_eq_true He. cbn [json_plain]. rewrite He, andb_true_r. apply bool_decide_eq_true.
  by apply (sublist_NoDup _ names).
Qed.
Lemma forallb_opt {A} d k (enc : A → Json) o :
  (∀ a, o = Some a → json_plain d (enc a) = true) →
  forallb (λ e, json_plain d e.2) (FilterWire.opt_entry k enc o) = true.
Proof. destruct o; cbn; intros Hp; [|done]. by rewrite Hp. Qed.

(** A list of values is read element by element. *)
Lemma de_vec_same `{SerdeJsonLaws} {A} (enc : A → Json) (de : Json → option A) l v :
  (∀ a v, a ∈ l → same_value (enc a) v → de v = Some a) →
  same_value (JArr (enc <$> l)) v → v ≠ JNull ∧ FilterWire.de_vec de v = Some l.
Proof.
  intros Hde (vs & -> & Hvs)%same_arr_inv. split; [done|]. unfold FilterWire.de_vec. rewrite de_seq_arr. cbn [mbind option_bind].
  revert vs Hvs. induction l as [|a l IH]; intros vs Hvs; cbn [fmap list_fmap] in Hvs.
  - apply Forall2_nil_inv_l in Hvs. by subst.
  - apply Forall2_cons_inv_l in Hvs as (w & ws & Hw & Hws & ->). cbn. rewrite (Hde a w) by (done || by left). cbn.
    rewrite IH; [done|intros b u Hb; apply Hde; by right|done].
Qed.
Lemma arr_plain {A} d (enc : A → Json) l : (∀ a, a ∈ l → json_plain d (enc a) = true) → json_plain (S d) (JArr (enc <$> l)) = true.
Proof.
  intros Hp. cbn [json_plain]. induction l as [|a l IH]; [done|]. cbn [fmap list_fmap forallb]. rewrite Hp by (by left).
  apply IH. intros b Hb. apply Hp. by right.
Qed.

Lemma json_plain_mono d d' v : (d ≤ d')%nat → json_plain d v = true → json_plain d' v = true.
Proof.
  revert d' v. induction d as [|d IH]; intros d' v Hle Hp; [by destruct d', v|]. destruct d' as [|d']; [lia|].
  destruct v as [| | | | |vs|es]; try done; cbn [json_plain] in *.
  - induction vs as [|v vs IHvs]; [done|]. cbn in *. apply andb_prop in Hp as [Hv Hp]. rewrite (IH d' v) by (done || lia).
    by apply IHvs.
  - apply andb_prop in Hp as [-> Hp]. cbn. induction es as [|e es IHes]; [done|]. cbn in *. apply andb_prop in Hp as [He Hp].
    rewrite (IH d' _) by (done || lia). by apply IHes.
Qed.
Lemma same_refl v d : json_plain d v = true → same_value v v.
Proof.
  revert v. induction d as [|d IH]; intros v Hp; (destruct v as [| | | | |vs|es]; try (by constructor); try done).
  - apply same_arr. cbn [json_plain] in Hp. induction vs as [|v vs IHvs]; [constructor|]. cbn in Hp. apply andb_prop in Hp as [Hv Hp].
    constructor; [by apply IH|by apply IHvs].
  - eapply same_obj; [|reflexivity]. cbn [json_plain] in Hp. apply andb_prop in Hp as [_ Hp].
    induction es as [|e es IHes]; [constructor|]. cbn in Hp. apply andb_prop in Hp as [He Hp].
    constructor; [split; [done|by apply IH]|by apply IHes].
Qed.
