(* ===== verification/Nip47.v ===== *)
(** * Wallet connect ([nula-core/src/nips/nip47.rs])

    Encryption negotiation, connection addresses, the wallet's info event, and the
    requests, responses and notifications with the events that carry them.  What the
    operating system draws is an argument. *)

From Stdlib Require Import Ascii NArith Lia.
From S2P Require Import Prelude Encoding Text Ids Tags Event Filter FilterWire Nips Message HttpAuth Entities Derive.
From S2P Require Import GiftWrap.

(** [url::form_urlencoded]: the pairs of a query, and the query of pairs. *)
Class FormUrlEncoded := {
  form_parse : string → list (string * string);
  form_serialize : list (string * string) → string;
}.
Class FormLaws `{FormUrlEncoded} : Prop :=
  form_round : ∀ pairs, Forall (λ p, Utf8.is_str p.1 ∧ Utf8.is_str p.2) pairs → form_parse (form_serialize pairs) = pairs.
Arguments FormLaws : clear implicits.
Arguments FormLaws {_}.

(** [serde_json] reads back a plain value it wrote, and writes Rust strings. *)
Class JsonPlainText `{SerdeJson, JsonText} : Prop := {
  reads_plain : ∀ v, json_plain RECURSION_LIMIT v = true → json_from_slice (as_bytes (json_to_string v)) = Ok v;
  text_utf8 : ∀ v, Utf8.is_str (json_to_string v);
}.

Module Nip47.
Local Open Scope N_scope.

Definition KIND_INFO : Kind := 13194.
Definition KIND_REQUEST : Kind := 23194.
Definition KIND_RESPONSE : Kind := 23195.
Definition KIND_NOTIFICATION : Kind := 23197.
Definition KIND_NOTIFICATION_LEGACY : Kind := 23196.
Definition URI_SCHEME : string := "nostr+walletconnect://".
Definition ENCRYPTION_TAG : string := "encryption".
Definition NOTIFICATIONS_TAG : string := "notifications".

Inductive Encryption := Nip44V2 | Nip04.
#[global] Instance Encryption_eq_dec : EqDecision Encryption.
Proof. solve_decision. Defined.

(** The source of an [InvalidJson] is not told apart. *)
Inductive NwcError `{UrlCrate} :=
| WrongKind (k : Kind)
| UriBadScheme
| UriMissingPubkey
| UriMissingRelay
| UriMissingSecret
| InvalidPublicKey (e : PublicKey.Error)
| InvalidSecretKey (e : SecretKey.Error)
| InvalidRelayUrl (e : RelayUrl.Error)
| UnknownEncryption (token : string)
| EncryptionNotNegotiable
| InvalidJson
| MissingPTag
| MissingETag
| Nip44Err (e : Nip44.Nip44Error)
| Nip04Err (e : Nip04.Nip04Error).

Definition as_token (e : Encryption) : string := match e with Nip44V2 => "nip44_v2" | Nip04 => "nip04" end.

Section encryption.
Context `{UrlCrate}.
Definition parse_token (token : string) : result Encryption NwcError :=
  if decide (token = "nip44_v2") then Ok Nip44V2
  else if decide (token = "nip04") then Ok Nip04
  else Err (UnknownEncryption token).

Definition negotiate (wallet client : list Encryption) : result Encryption NwcError :=
  match wallet with
  | [] => Ok Nip04
  | _ =>
      if bool_decide (Nip44V2 ∈ wallet) && bool_decide (Nip44V2 ∈ client) then Ok Nip44V2
      else if bool_decide (Nip04 ∈ wallet) && bool_decide (Nip04 ∈ client) then Ok Nip04
      else Err EncryptionNotNegotiable
  end.
End encryption.

(** ** Connection addresses *)

Section uri.
Context `{FasterHex, Secp256k1, SecretScalar, UrlCrate, FormUrlEncoded}.

Record ConnectionUri := mkUri {
  wallet_pubkey : PublicKey;
  relays : list RelayUrl;
  secret : SecretKey;
  lud16 : option string;
}.

(** The values read so far. *)
Record Params := mkParams { q_relays : list RelayUrl; q_secret : option SecretKey; q_lud16 : option string }.
Definition visit_pair (acc : Params) (kv : string * string) : result Params NwcError :=
  let '(key, value) := kv in
  if decide (key = "relay") then
    let? u := map_err InvalidRelayUrl (RelayUrl.parse value) in
    Ok (mkParams (q_relays acc ++ [u]) (q_secret acc) (q_lud16 acc))
  else if decide (key = "secret") then
    let? sk := map_err InvalidSecretKey (SecretKey.parse value) in
    Ok (mkParams (q_relays acc) (Some sk) (q_lud16 acc))
  else if decide (key = "lud16") then Ok (mkParams (q_relays acc) (q_secret acc) (Some value))
  else Ok acc.
Fixpoint visit_pairs (acc : Params) (pairs : list (string * string)) : result Params NwcError :=
  match pairs with
  | [] => Ok acc
  | kv :: pairs => let? acc := visit_pair acc kv in visit_pairs acc pairs
  end.

Definition parse (input : string) : result ConnectionUri NwcError :=
  let? rest := ok_or (Text.strip_prefix URI_SCHEME input) UriBadScheme in
  let '(host, query) := match Text.split_once "?" rest with Some p => p | None => (rest, EmptyString) end in
  if decide (host = EmptyString) then Err UriMissingPubkey
  else
    let? pk := map_err InvalidPublicKey (PublicKey.parse host) in
    let? q := visit_pairs (mkParams [] None None) (form_parse query) in
    match q_relays q with
    | [] => Err UriMissingRelay
    | rs => let? sk := ok_or (q_secret q) UriMissingSecret in Ok (mkUri pk rs sk (q_lud16 q))
    end.

Definition query_pairs_of (u : ConnectionUri) : list (string * string) :=
  ((λ r, ("relay", RelayUrl.as_str r)) <$> relays u) ++ [("secret", SecretKey.to_hex (secret u))]
  ++ match lud16 u with Some l => [("lud16", l)] | None => [] end.
Definition to_uri (u : ConnectionUri) : string :=
  URI_SCHEME +:+ PublicKey.to_hex (wallet_pubkey u) +:+ "?" +:+ form_serialize (query_pairs_of u).

(** The values of the Rust types, with at least one relay. *)
Definition uri_valid (u : ConnectionUri) : Prop :=
  PublicKey.valid (wallet_pubkey u) ∧ relays u ≠ [] ∧ Forall RelayUrl.normal (relays u)
  ∧ SecretKey.valid (secret u) ∧ (∀ l, lud16 u = Some l → Utf8.is_str l).
End uri.

(** ** The info event *)

Record InfoEvent := mkInfo {
  methods : list string;
  notifications : list string;
  encryption_schemes : list Encryption;
}.
Definition info_new : InfoEvent := mkInfo [] [] [].
Definition method (i : InfoEvent) (m : string) : InfoEvent := mkInfo (methods i ++ [m]) (notifications i) (encryption_schemes i).
Definition notification (i : InfoEvent) (n : string) : InfoEvent :=
  mkInfo (methods i) (notifications i ++ [n]) (encryption_schemes i).
Definition encryption (i : InfoEvent) (e : Encryption) : InfoEvent :=
  mkInfo (methods i) (notifications i) (encryption_schemes i ++ [e]).
Definition content (i : InfoEvent) : string := Text.join " " (methods i).

Definition custom_tag (name : string) (args : list string) : Tag := Tag.with_ (TagKind.from_wire name) args.
Definition to_tags (i : InfoEvent) : list Tag :=
  match encryption_schemes i with [] => [] | es => [custom_tag ENCRYPTION_TAG [Text.join " " (as_token <$> es)]] end
  ++ match notifications i with [] => [] | ns => [custom_tag NOTIFICATIONS_TAG [Text.join " " ns]] end.
Definition nwc_info (i : InfoEvent) : EventBuilder :=
  foldl EventBuilder.add_tag (EventBuilder.new KIND_INFO (content i)) (to_tags i).

Section info.
Context `{UrlCrate}.

Definition parse_notifications_tag (tag : Tag) (out : list string) : list string :=
  match Tag.get tag 1 with Some v => split_whitespace v | None => out end.
Fixpoint push_tokens (tokens : list string) (out : list Encryption) : result (list Encryption) NwcError :=
  match tokens with
  | [] => Ok out
  | token :: tokens => let? e := parse_token token in push_tokens tokens (out ++ [e])
  end.
Definition parse_encryption_tag (tag : Tag) (out : list Encryption) : result (list Encryption) NwcError :=
  match Tag.get tag 1 with Some v => push_tokens (split_whitespace v) out | None => Ok out end.

Fixpoint visit_tags (tags : list Tag) (ns : list string) (es : list Encryption) :
    result (list string * list Encryption) NwcError :=
  match tags with
  | [] => Ok (ns, es)
  | tag :: tags =>
      if decide (Tag.name tag = NOTIFICATIONS_TAG) then visit_tags tags (parse_notifications_tag tag ns) es
      else if decide (Tag.name tag = ENCRYPTION_TAG) then
        let? es := parse_encryption_tag tag es in visit_tags tags ns es
      else visit_tags tags ns es
  end.
Definition from_event (event : Event) : result InfoEvent NwcError :=
  if decide (Event.kind event ≠ KIND_INFO) then Err (WrongKind (Event.kind event))
  else
    let? p := visit_tags (Event.tags event) [] [] in
    Ok (mkInfo (split_whitespace (Event.content event)) p.1 p.2).
End info.

(** ** Requests, responses, notifications *)

Inductive ErrorCode :=
| RateLimited | NotImplemented | InsufficientBalance | QuotaExceeded | Restricted | Unauthorized | Internal
| UnsupportedEncryption | PaymentFailed | NotFound | Other | Custom (s : string).
Definition code_as_str (c : ErrorCode) : string :=
  match c with
  | RateLimited => "RATE_LIMITED" | NotImplemented => "NOT_IMPLEMENTED" | InsufficientBalance => "INSUFFICIENT_BALANCE"
  | QuotaExceeded => "QUOTA_EXCEEDED" | Restricted => "RESTRICTED" | Unauthorized => "UNAUTHORIZED" | Internal => "INTERNAL"
  | UnsupportedEncryption => "UNSUPPORTED_ENCRYPTION" | PaymentFailed => "PAYMENT_FAILED" | NotFound => "NOT_FOUND"
  | Other => "OTHER" | Custom s => s
  end.
Definition standard_codes : list ErrorCode :=
  [RateLimited; NotImplemented; InsufficientBalance; QuotaExceeded; Restricted; Unauthorized; Internal;
   UnsupportedEncryption; PaymentFailed; NotFound; Other].
Definition code_parse (token : string) : ErrorCode :=
  default (Custom token) (List.find (λ c, String.eqb (code_as_str c) token) standard_codes).
(** No custom code spells a standard one. *)
Definition code_ok (c : ErrorCode) : Prop := ∀ s, c = Custom s → s ∉ code_as_str <$> standard_codes.

Record Request := mkRequest { req_method : string; params : Json }.
Record ResponseError := mkResponseError { code : ErrorCode; message : string }.
Record Response := mkResponse { result_type : string; error : option ResponseError; result : option Json }.
Record Notification := mkNotification { notification_type : string; payload : Json }.

Section json.
Context `{SerdeJson, JsonValues}.

#[global] Instance serde_error : Serde ResponseError := {|
  ser e := JObj [("code", JStr (code_as_str (code e))); ("message", JStr (message e))];
  de v :=
    es ← struct_entries ["code"; "message"] v;
    c ← required de_str "code" es; m ← required de_str "message" es;
    Some (mkResponseError (code_parse c) m);
|}.
#[global] Instance serde_request : Serde Request := {|
  ser r := JObj [("method", JStr (req_method r)); ("params", params r)];
  de v :=
    es ← struct_entries ["method"; "params"] v;
    m ← required de_str "method" es; p ← required to_value "params" es; Some (mkRequest m p);
|}.
#[global] Instance serde_response : Serde Response := {|
  ser r :=
    JObj ([("result_type", JStr (result_type r))] ++ FilterWire.opt_entry "error" ser (error r)
          ++ FilterWire.opt_entry "result" id (result r));
  de v :=
    es ← struct_entries ["result_type"; "error"; "result"] v;
    t ← required de_str "result_type" es; e ← optional de "error" es; r ← optional to_value "result" es;
    Some (mkResponse t e r);
|}.
#[global] Instance serde_notification : Serde Notification := {|
  ser n := JObj [("notification_type", JStr (notification_type n)); ("notification", payload n)];
  de v :=
    es ← struct_entries ["notification_type"; "notification"] v;
    t ← required de_str "notification_type" es; n ← required to_value "notification" es; Some (mkNotification t n);
|}.

(** [serde_json::from_str] and [to_string]. *)
Definition from_text `{JsonText} {A} `{Serde A} (text : string) : option A :=
  v ← result_ok (json_from_slice (as_bytes text)); de v.
Definition to_text {A} `{Serde A} (a : A) : string := json_to_string (ser a).
End json.

(** ** Carrying events *)

(** What an encryption draws: the nonce of one scheme, the vector of the other. *)
Record Entropy := mkEntropy { nonce : Prelude.result bytes32 string; iv : Prelude.result (list byte) string }.

Section events.
Context `{FasterHex, Secp256k1, SerdeJson, JsonText, JsonValues, UrlCrate, EventCrypto, !Nip44Crates, Base64, AesCbc}.

Definition encrypt_with (draw : Entropy) (encryption : Encryption) (secret : secret_key) (peer : PublicKey) (plaintext : string) :
    Prelude.result string NwcError :=
  match encryption with
  | Nip44V2 => map_err Nip44Err (Nip44.encrypt (nonce draw) secret peer plaintext)
  | Nip04 => map_err Nip04Err (Nip04.encrypt (iv draw) secret peer plaintext)
  end.
Definition decrypt_with (encryption : Encryption) (secret : secret_key) (peer : PublicKey) (payload : string) :
    Prelude.result string NwcError :=
  match encryption with
  | Nip44V2 => map_err Nip44Err (Nip44.decrypt secret peer payload)
  | Nip04 => map_err Nip04Err (Nip04.decrypt secret peer payload)
  end.

Fixpoint encryption_of (tags : list Tag) : Prelude.result Encryption NwcError :=
  match tags with
  | [] => Ok Nip04
  | tag :: tags =>
      if decide (Tag.name tag = ENCRYPTION_TAG) then
        match Tag.get tag 1 with Some token => parse_token token | None => encryption_of tags end
      else encryption_of tags
  end.
Definition encryption_for_event (event : Event) : Prelude.result Encryption NwcError := encryption_of (Event.tags event).

Definition p_tag (pubkey : PublicKey) : Tag :=
  Tag.with_ (TagKind.single_letter (SingleLetterTag.lowercase Alphabet.P)) [PublicKey.to_hex pubkey].
Definition e_tag (id : EventId) : Tag :=
  Tag.with_ (TagKind.single_letter (SingleLetterTag.lowercase Alphabet.E)) [EventId.to_hex id].

Definition nwc_request (draw : Entropy) (client_secret : secret_key) (wallet_public : PublicKey) (request : Request)
    (encryption : Encryption) (expiration : option Timestamp) : Prelude.result EventBuilder NwcError :=
  let? ciphertext := encrypt_with draw encryption client_secret wallet_public (to_text request) in
  let builder :=
    EventBuilder.add_tag (EventBuilder.add_tag (EventBuilder.new KIND_REQUEST ciphertext) (p_tag wallet_public))
      (custom_tag ENCRYPTION_TAG [as_token encryption]) in
  Ok (match expiration with Some ts => Nip40.expiration builder ts | None => builder end).

Definition nwc_response (draw : Entropy) (wallet_secret : secret_key) (client_public : PublicKey) (request_event_id : EventId)
    (response : Response) (encryption : Encryption) : Prelude.result EventBuilder NwcError :=
  let? ciphertext := encrypt_with draw encryption wallet_secret client_public (to_text response) in
  Ok (EventBuilder.add_tag
        (EventBuilder.add_tag (EventBuilder.add_tag (EventBuilder.new KIND_RESPONSE ciphertext) (p_tag client_public))
           (e_tag request_event_id))
        (custom_tag ENCRYPTION_TAG [as_token encryption])).

Definition nwc_notification (draw : Entropy) (wallet_secret : secret_key) (client_public : PublicKey)
    (notification : Notification) (encryption : Encryption) : Prelude.result EventBuilder NwcError :=
  let kind := match encryption with Nip44V2 => KIND_NOTIFICATION | Nip04 => KIND_NOTIFICATION_LEGACY end in
  let? ciphertext := encrypt_with draw encryption wallet_secret client_public (to_text notification) in
  Ok (EventBuilder.add_tag (EventBuilder.add_tag (EventBuilder.new kind ciphertext) (p_tag client_public))
        (custom_tag ENCRYPTION_TAG [as_token encryption])).

(** What the three readers share, behind the check of the kind. *)
Definition open_payload {A} `{Serde A} (event : Event) (secret : secret_key) : Prelude.result A NwcError :=
  let? encryption := encryption_for_event event in
  let? plaintext := decrypt_with encryption secret (Event.pubkey event) (Event.content event) in
  ok_or (from_text plaintext) InvalidJson.

Definition decrypt_request (event : Event) (wallet_secret : secret_key) : Prelude.result Request NwcError :=
  if decide (Event.kind event ≠ KIND_REQUEST) then Err (WrongKind (Event.kind event)) else open_payload event wallet_secret.
Definition decrypt_response (event : Event) (client_secret : secret_key) : Prelude.result Response NwcError :=
  if decide (Event.kind event ≠ KIND_RESPONSE) then Err (WrongKind (Event.kind event)) else open_payload event client_secret.
Definition decrypt_notification (event : Event) (client_secret : secret_key) : Prelude.result Notification NwcError :=
  if bool_decide (Event.kind event ≠ KIND_NOTIFICATION) && bool_decide (Event.kind event ≠ KIND_NOTIFICATION_LEGACY)
  then Err (WrongKind (Event.kind event)) else open_payload event client_secret.
End events.
End Nip47.

(** ** The typed calls of a wallet ([nula-nwc/src/methods.rs])

    The parameters and results of the seven methods with their derived JSON forms,
    and that each is read back from whatever holds the same values. *)

(** Short forms for the fields of a struct. *)
Definition str_entry (key : string) : option string → list (string * Json) := FilterWire.opt_entry key JStr.
Definition num_entry (key : string) : option N → list (string * Json) := FilterWire.opt_entry key JNum.
Definition strings_json (l : list string) : Json := JArr (JStr <$> l).

Module TransactionType.
Inductive t := Incoming | Outgoing.
Definition as_str (d : t) : string := match d with Incoming => "incoming" | Outgoing => "outgoing" end.
Definition from_str (s : string) : option t :=
  if decide (s = "incoming") then Some Incoming else if decide (s = "outgoing") then Some Outgoing else None.
(** A unit variant is read from a string, or from an object of the string and [null]. *)
#[global] Instance serde_direction `{SerdeJson} : Serde t := {|
  ser d := JStr (as_str d);
  de v :=
    match v with
    | JStr s => from_str s
    | JObj [(s, JNull)] => from_str s
    | _ => None
    end;
|}.
End TransactionType.
Abbreviation TransactionType := TransactionType.t.

Module PayInvoiceRequest.
Record t := mk { invoice : string; amount : option N }.
Definition new (invoice : string) : t := mk invoice None.
Definition set_amount (r : t) (msat : N) : t := mk (invoice r) (Some msat).
#[global] Instance serde_pay_invoice `{SerdeJson} : Serde t := {|
  ser r := JObj ([("invoice", JStr (invoice r))] ++ num_entry "amount" (amount r));
  de v :=
    es ← struct_entries ["invoice"; "amount"] v;
    i ← required de_str "invoice" es; a ← optional de_u64 "amount" es; Some (mk i a);
|}.
End PayInvoiceRequest.

Module PayInvoiceResponse.
Record t := mk { preimage : string; fees_paid : option N }.
#[global] Instance serde_paid `{SerdeJson} : Serde t := {|
  ser r := JObj ([("preimage", JStr (preimage r))] ++ num_entry "fees_paid" (fees_paid r));
  de v :=
    es ← struct_entries ["preimage"; "fees_paid"] v;
    p ← required de_str "preimage" es; f ← optional de_u64 "fees_paid" es; Some (mk p f);
|}.
End PayInvoiceResponse.

Module KeysendTlvRecord.
Record t := mk { tlv_type : N; value : string }.
#[global] Instance serde_tlv `{SerdeJson} : Serde t := {|
  ser r := JObj [("type", JNum (tlv_type r)); ("value", JStr (value r))];
  de v :=
    es ← struct_entries ["type"; "value"] v;
    t ← required de_u64 "type" es; x ← required de_str "value" es; Some (mk t x);
|}.
End KeysendTlvRecord.

Module PayKeysendRequest.
Record t := mk {
  id : option string;
  amount : N;
  pubkey : string;
  preimage : option string;
  tlv_records : list KeysendTlvRecord.t;
}.
Definition new (pubkey : string) (amount : N) : t := mk None amount pubkey None [].
Definition set_preimage (r : t) (p : string) : t := mk (id r) (amount r) (pubkey r) (Some p) (tlv_records r).
Definition tlv_record (r : t) (tlv_type : N) (value : string) : t :=
  mk (id r) (amount r) (pubkey r) (preimage r) (tlv_records r ++ [KeysendTlvRecord.mk tlv_type value]).
#[global] Instance serde_keysend `{SerdeJson} : Serde t := {|
  ser r :=
    JObj (str_entry "id" (id r) ++ [("amount", JNum (amount r)); ("pubkey", JStr (pubkey r))]
          ++ str_entry "preimage" (preimage r)
          ++ match tlv_records r with [] => [] | rs => [("tlv_records", JArr (ser <$> rs))] end);
  de v :=
    es ← struct_entries ["id"; "amount"; "pubkey"; "preimage"; "tlv_records"] v;
    i ← optional de_str "id" es; a ← required de_u64 "amount" es; p ← required de_str "pubkey" es;
    pre ← optional de_str "preimage" es; rs ← defaulted (FilterWire.de_vec de) [] "tlv_records" es;
    Some (mk i a p pre rs);
|}.
End PayKeysendRequest.

Module GetBalanceResponse.
Record t := mk { balance : N }.
#[global] Instance serde_balance `{SerdeJson} : Serde t := {|
  ser r := JObj [("balance", JNum (balance r))];
  de v := es ← struct_entries ["balance"] v; b ← required de_u64 "balance" es; Some (mk b);
|}.
End GetBalanceResponse.

Module GetInfoResponse.
Record t := mk {
  alias : option string;
  color : option string;
  pubkey : option string;
  network : option string;
  block_height : option N;
  block_hash : option string;
  methods : list string;
  notifications : option (list string);
}.
#[global] Instance serde_info `{SerdeJson} : Serde t := {|
  ser r :=
    JObj (str_entry "alias" (alias r) ++ str_entry "color" (color r) ++ str_entry "pubkey" (pubkey r)
          ++ str_entry "network" (network r) ++ num_entry "block_height" (block_height r)
          ++ str_entry "block_hash" (block_hash r) ++ [("methods", strings_json (methods r))]
          ++ FilterWire.opt_entry "notifications" strings_json (notifications r));
  de v :=
    es ← struct_entries ["alias"; "color"; "pubkey"; "network"; "block_height"; "block_hash"; "methods"; "notifications"] v;
    a ← optional de_str "alias" es; c ← optional de_str "color" es; p ← optional de_str "pubkey" es;
    n ← optional de_str "network" es; h ← optional de_u64 "block_height" es; b ← optional de_str "block_hash" es;
    ms ← defaulted (FilterWire.de_vec de_str) [] "methods" es; ns ← optional (FilterWire.de_vec de_str) "notifications" es;
    Some (mk a c p n h b ms ns);
|}.
End GetInfoResponse.

Module MakeInvoiceRequest.
Record t := mk {
  amount : N;
  description : option string;
  description_hash : option string;
  expiry : option N;
}.
Definition new (amount : N) : t := mk amount None None None.
Definition set_description (r : t) (d : string) : t := mk (amount r) (Some d) (description_hash r) (expiry r).
Definition set_expiry (r : t) (seconds : N) : t := mk (amount r) (description r) (description_hash r) (Some seconds).
#[global] Instance serde_make_invoice `{SerdeJson} : Serde t := {|
  ser r :=
    JObj ([("amount", JNum (amount r))] ++ str_entry "description" (description r)
          ++ str_entry "description_hash" (description_hash r) ++ num_entry "expiry" (expiry r));
  de v :=
    es ← struct_entries ["amount"; "description"; "description_hash"; "expiry"] v;
    a ← required de_u64 "amount" es; d ← optional de_str "description" es;
    h ← optional de_str "description_hash" es; x ← optional de_u64 "expiry" es; Some (mk a d h x);
|}.
End MakeInvoiceRequest.

Module LookupInvoiceRequest.
Record t := mk { payment_hash : option string; invoice : option string }.
#[global] Instance serde_lookup `{SerdeJson} : Serde t := {|
  ser r := JObj (str_entry "payment_hash" (payment_hash r) ++ str_entry "invoice" (invoice r));
  de v :=
    es ← struct_entries ["payment_hash"; "invoice"] v;
    p ← optional de_str "payment_hash" es; i ← optional de_str "invoice" es; Some (mk p i);
|}.
End LookupInvoiceRequest.

Module Transaction.
Record t := mk {
  direction : option TransactionType;
  invoice : option string;
  description : option string;
  description_hash : option string;
  preimage : option string;
  payment_hash : string;
  amount : N;
  fees_paid : N;
  created_at : N;
  expires_at : option N;
  settled_at : option N;
  metadata : option Json;
}.
#[global] Instance serde_transaction `{SerdeJson, JsonValues} : Serde t := {|
  ser r :=
    JObj (FilterWire.opt_entry "type" ser (direction r) ++ str_entry "invoice" (invoice r)
          ++ str_entry "description" (description r) ++ str_entry "description_hash" (description_hash r)
          ++ str_entry "preimage" (preimage r)
          ++ [("payment_hash", JStr (payment_hash r)); ("amount", JNum (amount r)); ("fees_paid", JNum (fees_paid r));
              ("created_at", JNum (created_at r))]
          ++ num_entry "expires_at" (expires_at r) ++ num_entry "settled_at" (settled_at r)
          ++ FilterWire.opt_entry "metadata" (λ v, v) (metadata r));
  de v :=
    es ← struct_entries ["type"; "invoice"; "description"; "description_hash"; "preimage"; "payment_hash"; "amount";
                         "fees_paid"; "created_at"; "expires_at"; "settled_at"; "metadata"] v;
    t ← optional de "type" es; i ← optional de_str "invoice" es; d ← optional de_str "description" es;
    h ← optional de_str "description_hash" es; pre ← optional de_str "preimage" es;
    p ← required de_str "payment_hash" es; a ← required de_u64 "amount" es; f ← defaulted de_u64 0%N "fees_paid" es;
    c ← required de_u64 "created_at" es; x ← optional de_u64 "expires_at" es; s ← optional de_u64 "settled_at" es;
    m ← optional to_value "metadata" es; Some (mk t i d h pre p a f c x s m);
|}.
End Transaction.

Module ListTransactionsRequest.
Record t := mk {
  from : option N;
  until : option N;
  limit : option N;
  offset : option N;
  unpaid : option bool;
  direction : option TransactionType;
}.
#[global] Instance serde_list `{SerdeJson} : Serde t := {|
  ser r :=
    JObj (num_entry "from" (from r) ++ num_entry "until" (until r) ++ num_entry "limit" (limit r)
          ++ num_entry "offset" (offset r) ++ FilterWire.opt_entry "unpaid" JBool (unpaid r)
          ++ FilterWire.opt_entry "type" ser (direction r));
  de v :=
    es ← struct_entries ["from"; "until"; "limit"; "offset"; "unpaid"; "type"] v;
    f ← optional de_u64 "from" es; u ← optional de_u64 "until" es; l ← optional de_u64 "limit" es;
    o ← optional de_u64 "offset" es; p ← optional de_bool "unpaid" es; d ← optional de "type" es;
    Some (mk f u l o p d);
|}.
End ListTransactionsRequest.

Module ListTransactionsResponse.
Record t := mk { transactions : list Transaction.t }.
#[global] Instance serde_listed `{SerdeJson, JsonValues} : Serde t := {|
  ser r := JObj [("transactions", JArr (ser <$> transactions r))];
  de v := es ← struct_entries ["transactions"] v; ts ← required (FilterWire.de_vec de) "transactions" es; Some (mk ts);
|}.
End ListTransactionsResponse.
