(* ===== verification/Nwc.v ===== *)
(** * The wallet-connect client ([nula-nwc])

    Calls, the table of waiting calls and the task that answers them
    ([client.rs], [pending.rs], [dispatcher.rs]).  As with the remote signer, the
    clones of a client share one record, and a run is any sequence of the steps that
    callers, the pool, the timer and the subscription take. *)

From Stdlib Require Import Ascii NArith Lia.
From S2P Require Import Prelude Encoding Text Ids Tags Event Filter FilterWire Nips Message HttpAuth Entities.
From S2P Require Import Storage Database Client Pool Derive GiftWrap Nip47.

Module Nwc.
Import Nip47.

(** [options.rs]; durations are nanoseconds. *)
Record NwcOptions := mkOptions { timeout : N; opt_encryption : Encryption; notification_buffer : N }.
Definition TIMEOUT : N := (30 * 1000000000)%N.
Definition NOTIFICATION_BUFFER : N := 256%N.
Definition default_options : NwcOptions := mkOptions TIMEOUT Nip44V2 NOTIFICATION_BUFFER.
Definition set_timeout (o : NwcOptions) (t : N) : NwcOptions := mkOptions t (opt_encryption o) (notification_buffer o).
Definition set_encryption (o : NwcOptions) (e : Encryption) : NwcOptions := mkOptions (timeout o) e (notification_buffer o).
Definition set_notification_buffer (o : NwcOptions) (n : N) : NwcOptions := mkOptions (timeout o) (opt_encryption o) n.

(** The source of a [Json] error is not told apart. *)
Inductive Error `{UrlCrate} :=
| PoolErr (e : PoolError)
| RelayErr (e : ClientError)
| NwcErr (e : NwcError)
| EventErr (e : EventBuilder.Error)
| Wallet (method : string) (code : ErrorCode) (message : string)
| UnexpectedResult (method message : string)
| Timeout (method : string)
| PublishFailed (why : string)
| DispatcherDown (why : string)
| MissingUri
| MissingPool
| JsonErr.

Section client.
Context `{FasterHex, Secp256k1, SecretScalar, SerdeJson, JsonText, JsonValues, UrlCrate, EventCrypto, !Nip44Crates, Base64, AesCbc}.

(** ** State *)

Inductive Stage := Sending | Awaiting.
Record Call := mkCall { c_request : Request; c_id : EventId; c_stage : Stage }.
Record Return := mkReturn {
  r_number : nat;
  r_request : Request;
  r_id : option EventId;
  r_result : Prelude.result Response Error;
}.

(** What the clones of a client share: the table, by the id of the request's event,
    of reply channels (a channel is the number of its call); whether the task still
    runs; the values sent on channels; the notifications broadcast; the calls under
    way; and, in order, what was published and what calls returned. *)
Record Inner := mkInner {
  pending : gmap EventId nat;
  listening : bool;
  sent : list (nat * Prelude.result Response Error);
  broadcast : list Notification;
  calls : gmap nat Call;
  next_call : nat;
  outbox : list Event;
  returned : list Return;
}.
Definition set_pending (s : Inner) p :=
  mkInner p (listening s) (sent s) (broadcast s) (calls s) (next_call s) (outbox s) (returned s).
Definition set_listening (s : Inner) b :=
  mkInner (pending s) b (sent s) (broadcast s) (calls s) (next_call s) (outbox s) (returned s).
Definition set_calls (s : Inner) c :=
  mkInner (pending s) (listening s) (sent s) (broadcast s) c (next_call s) (outbox s) (returned s).
Definition set_next (s : Inner) n :=
  mkInner (pending s) (listening s) (sent s) (broadcast s) (calls s) n (outbox s) (returned s).
Definition publish (s : Inner) e :=
  mkInner (pending s) (listening s) (sent s) (broadcast s) (calls s) (next_call s) (outbox s ++ [e]) (returned s).
Definition announce (s : Inner) n :=
  mkInner (pending s) (listening s) (sent s) (broadcast s ++ [n]) (calls s) (next_call s) (outbox s) (returned s).
Definition send (s : Inner) (n : nat) (r : Prelude.result Response Error) : Inner :=
  mkInner (pending s) (listening s) (sent s ++ [(n, r)]) (broadcast s) (calls s) (next_call s) (outbox s) (returned s).

(** ** The table ([pending.rs]) *)

(** A previous channel under the id is dropped. *)
Definition insert (s : Inner) (id : EventId) (n : nat) : Inner := set_pending s (<[id := n]> (pending s)).
Definition take (s : Inner) (id : EventId) : option nat * Inner := (pending s !! id, set_pending s (delete id (pending s))).
Definition resolve (s : Inner) (id : EventId) (reply : Prelude.result Response Error) : Inner :=
  match take s id with
  | (Some n, s) => send s n reply
  | (None, s) => s
  end.
Definition cancel_all (s : Inner) (error : Error) : Inner :=
  foldl (λ s n, send s n (Err error)) (set_pending s ∅) (map_to_list (pending s)).*2.

(** ** The task ([dispatcher.rs]) *)

Record Config := mkConfig {
  client_keys : secret_key;
  wallet : PublicKey;
  cfg_relays : list RelayUrl;
  cfg_lud16 : option string;
  options : NwcOptions;
}.

Definition on_item (cfg : Config) (s : Inner) (item : Prelude.result Event unit) : Inner :=
  match item with
  | Err _ => s
  | Ok event =>
      if decide (Event.pubkey event ≠ wallet cfg) then s
      else if decide (Event.kind event = KIND_RESPONSE) then
        match decrypt_response event (client_keys cfg) with
        | Err _ => s
        | Ok response =>
            match Tags.event_ids (Event.tags event) with
            | [] => s
            | request_id :: _ => resolve s request_id (Ok response)
            end
        end
      else if bool_decide (Event.kind event = KIND_NOTIFICATION) || bool_decide (Event.kind event = KIND_NOTIFICATION_LEGACY) then
        match decrypt_notification event (client_keys cfg) with Ok n => announce s n | Err _ => s end
      else s
  end.
(** Without relays the task is over at once. *)
Definition stream_over (s : Inner) (ended : bool) : Inner :=
  cancel_all (set_listening s false) (DispatcherDown (if ended then "stream ended" else "stream errored")).

(** ** Calls ([client.rs]) *)

Record Draws := mkDraws { entropy : Entropy; clock : option Timestamp }.

Definition finish (s : Inner) (r : Return) : Inner :=
  mkInner (pending s) (listening s) (sent s) (broadcast s) (delete (r_number r) (calls s)) (next_call s)
    (outbox s) (returned s ++ [r]).

(** The event of a request. *)
Definition request_event (cfg : Config) (d : Draws) (request : Request) : Prelude.result Event Error :=
  let? builder :=
    map_err NwcErr (nwc_request (entropy d) (client_keys cfg) (wallet cfg) request (opt_encryption (options cfg)) None) in
  map_err EventErr (EventBuilder.sign_with_keys (clock d) builder (client_keys cfg)).

(** [dispatch] up to the publish. *)
Definition dispatch (cfg : Config) (d : Draws) (s : Inner) (request : Request) : Inner :=
  let n := next_call s in
  let s := set_next s (S n) in
  match request_event cfg d request with
  | Err e => finish s (mkReturn n request None (Err e))
  | Ok event =>
      let id := Event.id event in
      let s := insert s id n in
      publish (set_calls s (<[n := mkCall request id Sending]> (calls s))) event
  end.

(** The failures of every relay as the debug text of the map. *)
Variable debug_failed : gmap RelayUrl string → string.

Definition published (s : Inner) (n : nat) (outcome : Prelude.result (Output EventId) PoolError) : Inner :=
  match calls s !! n with
  | Some (mkCall request id Sending) =>
      match outcome with
      | Err e => finish s (mkReturn n request (Some id) (Err (PoolErr e)))
      | Ok out =>
          if is_total_failure out then
            finish (take s id).2 (mkReturn n request (Some id) (Err (PublishFailed (debug_failed (failed out)))))
          else set_calls s (<[n := mkCall request id Awaiting]> (calls s))
      end
  | _ => s
  end.

Definition closed (s : Inner) (n : nat) : bool := bool_decide (map_Forall (λ _ m, m ≠ n) (pending s)).
Definition sent_to (s : Inner) (n : nat) : option (Prelude.result Response Error) :=
  snd <$> List.find (λ p, Nat.eqb p.1 n) (sent s).

Definition received (s : Inner) (n : nat) : Inner :=
  match calls s !! n with
  | Some (mkCall request id Awaiting) =>
      match sent_to s n with
      | Some r => finish s (mkReturn n request (Some id) r)
      | None =>
          if closed s n
          then finish s (mkReturn n request (Some id) (Err (DispatcherDown "pending channel cancelled"))) else s
      end
  | _ => s
  end.
Definition timed_out (s : Inner) (n : nat) : Inner :=
  match calls s !! n with
  | Some (mkCall request id Awaiting) =>
      finish (take s id).2 (mkReturn n request (Some id) (Err (Timeout (req_method request))))
  | _ => s
  end.

(** ** Runs *)

Inductive Step :=
| Start (d : Draws) (request : Request)
| Published (n : nat) (outcome : Prelude.result (Output EventId) PoolError)
| Received (n : nat)
| TimedOut (n : nat)
| Item (item : Prelude.result Event unit)
| StreamOver (ended : bool)
| Aborted.

(** A step that is not possible is skipped; an abort cancels nothing. *)
Definition step (cfg : Config) (s : Inner) (st : Step) : Inner :=
  match st with
  | Start d request => dispatch cfg d s request
  | Published n outcome => published s n outcome
  | Received n => received s n
  | TimedOut n => timed_out s n
  | Item item => if listening s then on_item cfg s item else s
  | StreamOver ended => if listening s then stream_over s ended else s
  | Aborted => set_listening s false
  end.
Definition run (cfg : Config) (s : Inner) (steps : list Step) : Inner := foldl (step cfg) s steps.

(** [build]: the client of an address.  A broadcast channel without room, or with more
    than half the address space, is the panic [None]. *)
Definition USIZE_HALF : N := (2 ^ 63 - 1)%N.
Definition build (uri : option ConnectionUri) (pool : option (Prelude.result unit Error)) (opts : NwcOptions) :
    option (Prelude.result (Config * Inner) Error) :=
  match uri, pool with
  | None, _ => Some (Err MissingUri)
  | _, None => Some (Err MissingPool)
  | _, Some (Err e) => Some (Err e)
  | Some u, Some (Ok _) =>
      if (notification_buffer opts =? 0)%N || (USIZE_HALF <? notification_buffer opts)%N then None
      else
        Some (Ok (mkConfig (keypair (secret u)) (wallet_pubkey u) (relays u) (lud16 u) opts,
                  mkInner ∅ true [] [] ∅ 0 [] []))
  end.

(** ** Typed calls *)

Definition call_request {P} `{Serde P} (method : string) (params : P) : Prelude.result Request Error :=
  let? params := ok_or (to_value (ser params)) JsonErr in Ok (mkRequest method params).
Definition call_result {R} `{Serde R} (method : string) (reply : Prelude.result Response Error) : Prelude.result R Error :=
  let? response := reply in
  match error response with
  | Some e => Err (Wallet method (code e) (message e))
  | None =>
      let? v := ok_or (result response) (UnexpectedResult method "wallet returned neither result nor error") in
      ok_or (de v) JsonErr
  end.

(** [serde_json::json!({})]. *)
Record NoParams := mkNoParams {}.
#[global] Instance serde_no_params : Serde NoParams := {| ser _ := JObj []; de _ := Some mkNoParams |}.

(** The method of each call, its parameters and its result. *)
Definition pay_invoice : PayInvoiceRequest.t → Prelude.result Request Error := call_request "pay_invoice".
Definition pay_invoice_result : Prelude.result Response Error → Prelude.result PayInvoiceResponse.t Error := call_result "pay_invoice".
Definition pay_keysend : PayKeysendRequest.t → Prelude.result Request Error := call_request "pay_keysend".
Definition pay_keysend_result : Prelude.result Response Error → Prelude.result PayInvoiceResponse.t Error := call_result "pay_keysend".
Definition get_balance : Prelude.result Request Error := call_request "get_balance" mkNoParams.
Definition get_balance_result : Prelude.result Response Error → Prelude.result GetBalanceResponse.t Error := call_result "get_balance".
Definition get_info : Prelude.result Request Error := call_request "get_info" mkNoParams.
Definition get_info_result : Prelude.result Response Error → Prelude.result GetInfoResponse.t Error := call_result "get_info".
Definition make_invoice : MakeInvoiceRequest.t → Prelude.result Request Error := call_request "make_invoice".
Definition make_invoice_result : Prelude.result Response Error → Prelude.result Transaction.t Error := call_result "make_invoice".
Definition lookup_invoice : LookupInvoiceRequest.t → Prelude.result Request Error := call_request "lookup_invoice".
Definition lookup_invoice_result : Prelude.result Response Error → Prelude.result Transaction.t Error := call_result "lookup_invoice".
Definition list_transactions : ListTransactionsRequest.t → Prelude.result Request Error := call_request "list_transactions".
Definition list_transactions_result : Prelude.result Response Error → Prelude.result ListTransactionsResponse.t Error :=
  call_result "list_transactions".

(** The first info event of the wallet on a stream that delivers these items and ends. *)
Fixpoint read_info_event (wallet : PublicKey) (items : list (Prelude.result Event unit)) : Prelude.result InfoEvent Error :=
  match items with
  | [] => Err (UnexpectedResult "get_info_event" "info stream ended without a kind:13194 event")
  | Err _ :: items => read_info_event wallet items
  | Ok event :: items =>
      if bool_decide (Event.pubkey event = wallet) && bool_decide (Event.kind event = KIND_INFO)
      then map_err NwcErr (from_event event) else read_info_event wallet items
  end.
(** [None]: the time was up. *)
Definition get_info_event (cfg : Config) (stream : option (Prelude.result (list (Prelude.result Event unit)) PoolError)) :
    Prelude.result InfoEvent Error :=
  match stream with
  | Some (Ok items) => read_info_event (wallet cfg) items
  | Some (Err e) => Err (PoolErr e)
  | None => Err (Timeout "get_info_event")
  end.
End client.
End Nwc.
