(* ===== verification/NwcProofs.v ===== *)
(** * Lemmas about wallet connect: what is written is read *)

From Stdlib Require Import Ascii NArith Lia.
From S2P Require Import Prelude Encoding Text Ids Tags Event Filter FilterWire Nips Message HttpAuth Entities.
From S2P Require Import EntityTheorems Storage Database Client Pool Derive GiftWrap GiftWrapProofs Nip47.
From S2P Require Import Nip47 Nwc.

(** ** Typed parameters and results *)

Definition u64 (n : N) : Prop := (n <= Dec.u64_max)%N.
Definition opt_u64 (o : option N) : Prop := ∀ n, o = Some n → u64 n.

(** A [Value]: as the map of keys keeps it, plain, and present. *)
Definition value_ok `{JsonValues} (d : nat) (v : Json) : Prop := to_value v = Some v ∧ json_plain d v = true ∧ v ≠ JNull.

(** The entries of a struct: one field's values. *)
Ltac field_entries :=
  unfold str_entry, num_entry; rewrite ?field_values_app, ?field_values_opt; cbn; rewrite ?app_nil_r; reflexivity.
Ltac struct_keys names :=
  apply (struct_plain _ _ names);
  [unfold str_entry, num_entry; cbn [app];
   repeat first [apply keys_opt | apply keys_cons | apply keys_opt_last | reflexivity]
  |vm_compute; reflexivity
  |unfold str_entry, num_entry; rewrite ?forallb_app; cbn [forallb app fst snd];
   repeat match goal with |- _ && _ = true => apply andb_true_intro; split end; try reflexivity].

Section methods.
Context `{SerdeJson, !SerdeJsonLaws, JsonValues, !JsonValueLaws}.

Lemma str_same s v : same_value (JStr s) v → v ≠ JNull ∧ de_str v = Some s.
Proof. intros ->%same_atom_inv; [|done]. split; [done|apply de_str_str]. Qed.
Lemma num_same n v : u64 n → same_value (JNum n) v → v ≠ JNull ∧ de_u64 v = Some n.
Proof. intros Hn ->%same_atom_inv; [|done]. split; [done|by apply de_u64_num]. Qed.
Lemma bool_same b v : same_value (JBool b) v → v ≠ JNull ∧ de_bool v = Some b.
Proof. intros ->%same_atom_inv; [|done]. split; [done|apply de_bool_bool]. Qed.
Lemma direction_same (d : TransactionType) v : same_value (ser d) v → v ≠ JNull ∧ de v = Some d.
Proof. intros ->%same_atom_inv; [|done]. split; [done|]. by destruct d. Qed.
Lemma strings_same l v : same_value (Nip47.strings_json l) v → v ≠ JNull ∧ FilterWire.de_vec de_str v = Some l.
Proof. apply de_vec_same. intros a w _ Hw. by apply str_same. Qed.

(** The fields of a struct that holds the same values. *)
Lemma req_str es es' key s : same_entries es es' → field_values key es = [JStr s] → required de_str key es' = Some s.
Proof. intros Hs E. apply (required_same _ _ _ _ _ _ Hs E). apply str_same. Qed.
Lemma req_num es es' key n : u64 n → same_entries es es' → field_values key es = [JNum n] → required de_u64 key es' = Some n.
Proof. intros Hn Hs E. apply (required_same _ _ _ _ _ _ Hs E). intros v. by apply num_same. Qed.
Lemma opt_str es es' key o :
  same_entries es es' → field_values key es = match o with Some s => [JStr s] | None => [] end → optional de_str key es' = Some o.
Proof. intros Hs E. apply (optional_same _ JStr _ _ _ _ Hs E). intros a v _. apply str_same. Qed.
Lemma opt_num es es' key o : opt_u64 o →
  same_entries es es' → field_values key es = match o with Some n => [JNum n] | None => [] end → optional de_u64 key es' = Some o.
Proof. intros Ho Hs E. apply (optional_same _ JNum _ _ _ _ Hs E). intros a v Ha. apply num_same. by apply Ho. Qed.

Lemma struct_read names es v es' : same_value (JObj es) v → v = JObj es' → struct_entries names v = Some es'.
Proof. intros _ ->. unfold struct_entries. by rewrite de_map_obj. Qed.

Ltac read_struct Hv :=
  apply same_obj_inv in Hv as (es' & -> & Hs); split; [done|];
  unfold struct_entries; rewrite de_map_obj; cbn [mbind option_bind].

Lemma plain_opt_str d k o : forallb (λ e, json_plain d e.2) (FilterWire.opt_entry k JStr o) = true.
Proof. apply forallb_opt. intros a _. by destruct d. Qed.
Lemma plain_num d n : u64 n → json_plain d (JNum n) = true.
Proof. intros Hn%N.leb_le. by destruct d. Qed.
Lemma plain_opt_num d k o : opt_u64 o → forallb (λ e, json_plain d e.2) (FilterWire.opt_entry k JNum o) = true.
Proof. intros Ho. apply forallb_opt. intros n Hn. by apply plain_num, Ho. Qed.
Lemma plain_strings d l : json_plain (S d) (Nip47.strings_json l) = true.
Proof. apply arr_plain. intros a _. by destruct d. Qed.

Create HintDb plain.
#[local] Hint Resolve plain_opt_str plain_num plain_opt_num plain_strings : plain.
Ltac plain_struct names := struct_keys names; eauto with plain.

Ltac found lem := rewrite lem by field_entries; cbn [mbind option_bind].

#[global] Instance pay_invoice_round :
  SerdeRound PayInvoiceRequest.t (λ r, opt_u64 (PayInvoiceRequest.amount r)) 1.
Proof.
  split; intros r; [intros Hr|intros v Hr Hv]; cbn [ser de PayInvoiceRequest.serde_pay_invoice] in *.
  - plain_struct ["invoice"; "amount"].
  - read_struct Hv. found (req_str _ _ "invoice" (PayInvoiceRequest.invoice r) Hs).
    found (opt_num _ _ "amount" (PayInvoiceRequest.amount r) Hr Hs). by destruct r.
Qed.
#[global] Instance paid_round :
  SerdeRound PayInvoiceResponse.t (λ r, opt_u64 (PayInvoiceResponse.fees_paid r)) 1.
Proof.
  split; intros r; [intros Hr|intros v Hr Hv]; cbn [ser de PayInvoiceResponse.serde_paid] in *.
  - plain_struct ["preimage"; "fees_paid"].
  - read_struct Hv. found (req_str _ _ "preimage" (PayInvoiceResponse.preimage r) Hs).
    found (opt_num _ _ "fees_paid" (PayInvoiceResponse.fees_paid r) Hr Hs). by destruct r.
Qed.
#[global] Instance tlv_round : SerdeRound KeysendTlvRecord.t (λ r, u64 (KeysendTlvRecord.tlv_type r)) 1.
Proof.
  split; intros r; [intros Hr|intros v Hr Hv]; cbn [ser de KeysendTlvRecord.serde_tlv] in *.
  - plain_struct ["type"; "value"].
  - read_struct Hv. found (req_num _ _ "type" (KeysendTlvRecord.tlv_type r) Hr Hs).
    found (req_str _ _ "value" (KeysendTlvRecord.value r) Hs). by destruct r.
Qed.

Definition keysend_ok (r : PayKeysendRequest.t) : Prop :=
  u64 (PayKeysendRequest.amount r) ∧ Forall (λ t, u64 (KeysendTlvRecord.tlv_type t)) (PayKeysendRequest.tlv_records r).
#[global] Instance keysend_round : SerdeRound PayKeysendRequest.t keysend_ok 3.
Proof.
  split; intros r; [intros [Ha Ht]|intros v [Ha Ht] Hv]; cbn [ser de PayKeysendRequest.serde_keysend] in *.
  - assert (∀ rs, Forall (λ t, u64 (KeysendTlvRecord.tlv_type t)) rs → json_plain 2 (JArr (ser <$> rs)) = true) as Hrs.
    { intros rs Hrs. apply arr_plain. intros t Hin. apply ser_plain. by rewrite Forall_forall in Hrs; apply Hrs. }
    destruct r as [i a p pre [|t ts]]; cbn [PayKeysendRequest.tlv_records] in *; rewrite ?app_nil_r.
    + plain_struct ["id"; "amount"; "pubkey"; "preimage"].
    + plain_struct ["id"; "amount"; "pubkey"; "preimage"; "tlv_records"].
  - read_struct Hv. destruct r as [i a p pre rs]. cbn [PayKeysendRequest.amount PayKeysendRequest.tlv_records
      PayKeysendRequest.id PayKeysendRequest.pubkey PayKeysendRequest.preimage] in *.
    match type of Hs with same_entries (_ ++ _ ++ _ ++ ?t) _ => set (tail := t) in Hs end.
    assert (∀ key, String.eqb "tlv_records" key = false → field_values key tail = []) as Hother.
    { intros key Hk. unfold tail. destruct rs; [done|]. cbn [field_values]. by rewrite Hk. }
    assert (defaulted (FilterWire.de_vec de) [] "tlv_records" es' = Some rs) as Htlv.
    { clear Hother. subst tail. destruct rs as [|t ts]; [apply (defaulted_absent _ [] "tlv_records" _ _ Hs); field_entries|].
      apply (defaulted_same _ [] "tlv_records" _ _ (JArr (ser <$> t :: ts)) (t :: ts) Hs); [field_entries|].
      intros v Hv. apply (de_vec_same ser de (t :: ts) v); [|done]. intros b w Hb Hw. apply (de_same b w); [|done].
      by rewrite Forall_forall in Ht; apply Ht. }
    assert (∀ key l, field_values key (str_entry "id" i ++ [("amount", JNum a); ("pubkey", JStr p)] ++ str_entry "preimage" pre) = l →
      String.eqb "tlv_records" key = false →
      field_values key (str_entry "id" i ++ [("amount", JNum a); ("pubkey", JStr p)] ++ str_entry "preimage" pre
        ++ tail) = l) as Hrest.
    { intros key l Hl Hk. rewrite !app_assoc, field_values_app, (Hother key Hk), app_nil_r, <-!app_assoc. done. }
    rewrite (opt_str _ _ "id" i Hs) by (apply Hrest; [field_entries|done]). cbn [mbind option_bind].
    rewrite (req_num _ _ "amount" a Ha Hs) by (apply Hrest; [field_entries|done]). cbn [mbind option_bind].
    rewrite (req_str _ _ "pubkey" p Hs) by (apply Hrest; [field_entries|done]). cbn [mbind option_bind].
    rewrite (opt_str _ _ "preimage" pre Hs) by (apply Hrest; [field_entries|done]). cbn [mbind option_bind].
    by rewrite Htlv.
Qed.
#[global] Instance balance_round : SerdeRound GetBalanceResponse.t (λ r, u64 (GetBalanceResponse.balance r)) 1.
Proof.
  split; intros r; [intros Hr|intros v Hr Hv]; cbn [ser de GetBalanceResponse.serde_balance] in *.
  - plain_struct ["balance"].
  - read_struct Hv. found (req_num _ _ "balance" (GetBalanceResponse.balance r) Hr Hs). by destruct r.
Qed.
#[global] Instance info_round : SerdeRound GetInfoResponse.t (λ r, opt_u64 (GetInfoResponse.block_height r)) 2.
Proof.
  split; intros r; [intros Hr|intros v Hr Hv]; cbn [ser de GetInfoResponse.serde_info] in *.
  - plain_struct ["alias"; "color"; "pubkey"; "network"; "block_height"; "block_hash"; "methods"; "notifications"].
    apply forallb_opt. eauto with plain.
  - read_struct Hv. found (opt_str _ _ "alias" (GetInfoResponse.alias r) Hs). found (opt_str _ _ "color" (GetInfoResponse.color r) Hs).
    found (opt_str _ _ "pubkey" (GetInfoResponse.pubkey r) Hs). found (opt_str _ _ "network" (GetInfoResponse.network r) Hs).
    found (opt_num _ _ "block_height" (GetInfoResponse.block_height r) Hr Hs).
    found (opt_str _ _ "block_hash" (GetInfoResponse.block_hash r) Hs).
    rewrite (defaulted_same (FilterWire.de_vec de_str) [] "methods" _ _ (Nip47.strings_json (GetInfoResponse.methods r))
      (GetInfoResponse.methods r) Hs); [|field_entries|intros w; apply strings_same]. cbn [mbind option_bind].
    rewrite (optional_same (FilterWire.de_vec de_str) Nip47.strings_json "notifications" _ _ (GetInfoResponse.notifications r) Hs);
      [|field_entries|intros a w _; apply strings_same]. by destruct r.
Qed.
#[global] Instance make_invoice_round :
  SerdeRound MakeInvoiceRequest.t (λ r, u64 (MakeInvoiceRequest.amount r) ∧ opt_u64 (MakeInvoiceRequest.expiry r)) 1.
Proof.
  split; intros r; [intros [Ha He]|intros v [Ha He] Hv]; cbn [ser de MakeInvoiceRequest.serde_make_invoice] in *.
  - plain_struct ["amount"; "description"; "description_hash"; "expiry"].
  - read_struct Hv. found (req_num _ _ "amount" (MakeInvoiceRequest.amount r) Ha Hs).
    found (opt_str _ _ "description" (MakeInvoiceRequest.description r) Hs).
    found (opt_str _ _ "description_hash" (MakeInvoiceRequest.description_hash r) Hs).
    found (opt_num _ _ "expiry" (MakeInvoiceRequest.expiry r) He Hs). by destruct r.
Qed.
#[global] Instance lookup_round : SerdeRound LookupInvoiceRequest.t (λ _, True) 1.
Proof.
  split; intros r; [intros Hr|intros v Hr Hv]; cbn [ser de LookupInvoiceRequest.serde_lookup] in *.
  - plain_struct ["payment_hash"; "invoice"].
  - read_struct Hv. found (opt_str _ _ "payment_hash" (LookupInvoiceRequest.payment_hash r) Hs).
    found (opt_str _ _ "invoice" (LookupInvoiceRequest.invoice r) Hs). by destruct r.
Qed.

(** *** With values of any shape *)

Lemma value_same d a v : value_ok d a → same_value a v → v ≠ JNull ∧ to_value v = Some a.
Proof.
  intros (Ht & Hp & Hn) Hs. rewrite <-(to_value_canon d a v Hp Hs). split; [|done].
  intros ->. apply Hn. by inversion Hs.
Qed.
Definition opt_value (d : nat) (o : option Json) : Prop := ∀ v, o = Some v → value_ok d v.

Definition transaction_ok (d : nat) (t : Transaction.t) : Prop :=
  u64 (Transaction.amount t) ∧ u64 (Transaction.fees_paid t) ∧ u64 (Transaction.created_at t)
  ∧ opt_u64 (Transaction.expires_at t) ∧ opt_u64 (Transaction.settled_at t) ∧ opt_value d (Transaction.metadata t).
#[global] Instance transaction_round d : SerdeRound Transaction.t (transaction_ok d) (S d).
Proof.
  split; intros r; [intros (Ha & Hf & Hc & Hx & Hst & Hm)|intros v (Ha & Hf & Hc & Hx & Hst & Hm) Hv];
    cbn [ser de Transaction.serde_transaction] in *.
  - plain_struct ["type"; "invoice"; "description"; "description_hash"; "preimage"; "payment_hash"; "amount";
                  "fees_paid"; "created_at"; "expires_at"; "settled_at"; "metadata"].
    + apply forallb_opt. intros t _. by destruct d.
    + by destruct d.
    + apply forallb_opt. intros m E. by apply Hm.
  - read_struct Hv.
    rewrite (optional_same de ser "type" _ _ (Transaction.direction r) Hs); [|field_entries|intros a w _; apply direction_same].
    cbn [mbind option_bind].
    found (opt_str _ _ "invoice" (Transaction.invoice r) Hs). found (opt_str _ _ "description" (Transaction.description r) Hs).
    found (opt_str _ _ "description_hash" (Transaction.description_hash r) Hs).
    found (opt_str _ _ "preimage" (Transaction.preimage r) Hs). found (req_str _ _ "payment_hash" (Transaction.payment_hash r) Hs).
    found (req_num _ _ "amount" (Transaction.amount r) Ha Hs).
    rewrite (defaulted_same de_u64 0%N "fees_paid" _ _ (JNum (Transaction.fees_paid r)) (Transaction.fees_paid r) Hs);
      [|field_entries|intros w; by apply num_same]. cbn [mbind option_bind].
    found (req_num _ _ "created_at" (Transaction.created_at r) Hc Hs).
    found (opt_num _ _ "expires_at" (Transaction.expires_at r) Hx Hs).
    found (opt_num _ _ "settled_at" (Transaction.settled_at r) Hst Hs).
    rewrite (optional_same to_value (λ v, v) "metadata" _ _ (Transaction.metadata r) Hs);
      [|field_entries|intros a w E; apply (value_same d); by apply Hm]. by destruct r.
Qed.

Definition listing_ok (r : ListTransactionsRequest.t) : Prop :=
  opt_u64 (ListTransactionsRequest.from r) ∧ opt_u64 (ListTransactionsRequest.until r)
  ∧ opt_u64 (ListTransactionsRequest.limit r) ∧ opt_u64 (ListTransactionsRequest.offset r).
#[global] Instance listing_round : SerdeRound ListTransactionsRequest.t listing_ok 1.
Proof.
  split; intros r; [intros (Hf & Hu & Hl & Ho)|intros v (Hf & Hu & Hl & Ho) Hv];
    cbn [ser de ListTransactionsRequest.serde_list] in *.
  - plain_struct ["from"; "until"; "limit"; "offset"; "unpaid"; "type"]; by apply forallb_opt.
  - read_struct Hv. found (opt_num _ _ "from" (ListTransactionsRequest.from r) Hf Hs).
    found (opt_num _ _ "until" (ListTransactionsRequest.until r) Hu Hs). found (opt_num _ _ "limit" (ListTransactionsRequest.limit r) Hl Hs).
    found (opt_num _ _ "offset" (ListTransactionsRequest.offset r) Ho Hs).
    rewrite (optional_same de_bool JBool "unpaid" _ _ (ListTransactionsRequest.unpaid r) Hs); [|field_entries|intros a w _; apply bool_same].
    cbn [mbind option_bind].
    rewrite (optional_same de ser "type" _ _ (ListTransactionsRequest.direction r) Hs); [|field_entries|intros a w _; apply direction_same].
    by destruct r.
Qed.

#[global] Instance listed_round d :
  SerdeRound ListTransactionsResponse.t (λ r, Forall (transaction_ok d) (ListTransactionsResponse.transactions r)) (S (S (S d))).
Proof.
  split; intros r; [intros Hr|intros v Hr Hv]; cbn [ser de ListTransactionsResponse.serde_listed] in *.
  - plain_struct ["transactions"]. apply arr_plain. intros t Ht. apply (ser_plain (ok := transaction_ok d)).
    by rewrite Forall_forall in Hr; apply Hr.
  - read_struct Hv.
    rewrite (required_same (FilterWire.de_vec de) "transactions" _ _ (JArr (ser <$> ListTransactionsResponse.transactions r))
      (ListTransactionsResponse.transactions r) Hs); [by destruct r|field_entries|].
    intros w Hw. apply (de_vec_same ser de _ w); [|done]. intros b u Hb Hu. apply (de_same (ok := transaction_ok d) b u); [|done].
    by rewrite Forall_forall in Hr; apply Hr.
Qed.
#[global] Instance no_params_round : SerdeRound Nwc.NoParams (λ _, True) 1.
Proof. split; [done|]. intros [] v _ (es & -> & _)%same_obj_inv. done. Qed.

(** ** Envelopes *)

Lemma code_parse_as_str c : Nip47.code_ok c → Nip47.code_parse (Nip47.code_as_str c) = c.
Proof.
  intros Hc. destruct c; try reflexivity. specialize (Hc s eq_refl). change (Nip47.code_as_str (Nip47.Custom s)) with s. unfold Nip47.code_parse.
  assert (List.find (λ c, String.eqb (Nip47.code_as_str c) s) Nip47.standard_codes = None) as ->; [|done].
  destruct (List.find _ _) as [c|] eqn:E; [|done]. apply find_some in E as [Hin Heq%String.eqb_eq]. destruct Hc.
  rewrite <-Heq. apply list_elem_of_fmap_2. by apply list_elem_of_In.
Qed.

#[global] Instance error_round : SerdeRound Nip47.ResponseError (λ e, Nip47.code_ok (Nip47.code e)) 1.
Proof.
  split; intros r; [intros Hr|intros v Hr Hv]; cbn [ser de Nip47.serde_error] in *.
  - plain_struct ["code"; "message"].
  - read_struct Hv. found (req_str _ _ "code" (Nip47.code_as_str (Nip47.code r)) Hs).
    found (req_str _ _ "message" (Nip47.message r) Hs). rewrite code_parse_as_str by done. by destruct r.
Qed.

(** A value that is read, [null] included. *)
Definition any_value (d : nat) (v : Json) : Prop := to_value v = Some v ∧ json_plain d v = true.
#[global] Instance request_round d : SerdeRound Nip47.Request (λ r, any_value d (Nip47.params r)) (S d).
Proof.
  split; intros r; [intros [Ht Hp]|intros v [Ht Hp] Hv]; cbn [ser de Nip47.serde_request] in *.
  - plain_struct ["method"; "params"]. by destruct d.
  - read_struct Hv. found (req_str _ _ "method" (Nip47.req_method r) Hs).
    rewrite (required_same to_value "params" _ _ (Nip47.params r) (Nip47.params r) Hs); [by destruct r|field_entries|].
    intros w Hw. by rewrite <-(to_value_canon d _ w Hp Hw).
Qed.
#[global] Instance notification_round d : SerdeRound Nip47.Notification (λ r, any_value d (Nip47.payload r)) (S d).
Proof.
  split; intros r; [intros [Ht Hp]|intros v [Ht Hp] Hv]; cbn [ser de Nip47.serde_notification] in *.
  - plain_struct ["notification_type"; "notification"]. by destruct d.
  - read_struct Hv. found (req_str _ _ "notification_type" (Nip47.notification_type r) Hs).
    rewrite (required_same to_value "notification" _ _ (Nip47.payload r) (Nip47.payload r) Hs); [by destruct r|field_entries|].
    intros w Hw. by rewrite <-(to_value_canon d _ w Hp Hw).
Qed.

Definition response_ok (d : nat) (r : Nip47.Response) : Prop :=
  (∀ e, Nip47.error r = Some e → Nip47.code_ok (Nip47.code e)) ∧ opt_value (S d) (Nip47.result r).
#[global] Instance response_round d : SerdeRound Nip47.Response (response_ok d) (S (S d)).
Proof.
  split; intros r; [intros [He Hr]|intros v [He Hr] Hv]; cbn [ser de Nip47.serde_response] in *.
  - plain_struct ["result_type"; "error"; "result"].
    + apply forallb_opt. intros e E. apply (json_plain_mono 1); [lia|]. by apply ser_plain, He.
    + apply forallb_opt. intros x E. by apply Hr.
  - read_struct Hv. found (req_str _ _ "result_type" (Nip47.result_type r) Hs).
    rewrite (optional_same de ser "error" _ _ (Nip47.error r) Hs); [|field_entries|]. 2:{ intros a w E. apply de_same. by apply He. }
    cbn [mbind option_bind].
    rewrite (optional_same to_value (λ v, v) "result" _ _ (Nip47.result r) Hs); [by destruct r|field_entries|].
    intros a w E. apply (value_same (S d)). by apply Hr.
Qed.
End methods.

(** ** Payloads *)

Section payloads.
Context `{FasterHex, !FasterHexLaws, Secp256k1, SecretScalar, SerdeJson, !SerdeJsonLaws, JsonText, !JsonPlainText, JsonValues, !JsonValueLaws,
  UrlCrate, EventCrypto, !EventCryptoLaws, !Nip44Crates, !Nip44Laws, Base64, !Base64Laws, AesCbc, !AesCbcLaws}.
Import Nip47.

Lemma text_round {A} `{Serde A} {ok d} `{!SerdeRound A ok d} (a : A) : ok a → (d ≤ RECURSION_LIMIT)%nat → from_text (to_text a) = Some a.
Proof.
  intros Ha Hd. unfold from_text, to_text. pose proof (json_plain_mono d _ _ Hd (ser_plain a Ha)) as Hp.
  rewrite (reads_plain _ Hp). cbn [result_ok mbind option_bind]. apply (de_same a); [done|]. by eapply same_refl.
Qed.

(** The vector has the length of the array it is. *)
Definition draw_ok (draw : Entropy) : Prop := ∀ b, iv draw = Ok b → length b = Nip04.IV_BYTES.

Lemma encrypted_read draw e a b text ct : draw_ok draw → Utf8.is_str text →
  encrypt_with draw e a (xonly_public_key b) text = Ok ct → decrypt_with e b (xonly_public_key a) ct = Ok text.
Proof.
  intros Hd Hs. unfold encrypt_with, decrypt_with. destruct e.
  - destruct (Nip44.encrypt _ _ _ _) as [c|] eqn:Ee; cbn; [|done]. intros [= <-].
    unfold Nip44.encrypt in Ee. destruct (nonce draw) as [n|]; cbn in Ee; [|done]. unfold Nip44.decrypt.
    rewrite (derive_symmetric b a), (decrypt_encrypted _ _ _ _ Hs Ee). done.
  - destruct (Nip04.encrypt _ _ _ _) as [c|] eqn:Ee; cbn; [|done]. intros [= <-].
    destruct (iv draw) as [v|] eqn:Ev; [|done]. by rewrite (Nip04.legacy_round_trip v a b text c (Hd v Ev) Hs Ee).
Qed.

Lemma parse_as_token e : parse_token (as_token e) = Ok e.
Proof. by destruct e. Qed.
Lemma own_encryption e tags : Forall (λ t, Tag.name t ≠ ENCRYPTION_TAG) tags →
  encryption_of (tags ++ [custom_tag ENCRYPTION_TAG [as_token e]]) = Ok e.
Proof.
  induction 1 as [|t tags Ht _ IH]; cbn [app encryption_of].
  - rewrite decide_True by done. apply parse_as_token.
  - by rewrite decide_False by done.
Qed.

(** What one party writes in an event, the other opens. *)
Lemma payload_opens {A} `{Serde A} {ok d} `{!SerdeRound A ok d} (x : A) draw e a b ct event :
  draw_ok draw → ok x → (d ≤ RECURSION_LIMIT)%nat → encrypt_with draw e a (xonly_public_key b) (to_text x) = Ok ct →
  Event.pubkey event = xonly_public_key a → Event.content event = ct → encryption_for_event event = Ok e →
  open_payload event b = Ok x.
Proof.
  intros Hdr Hx Hd He Hpk Hct Hen. unfold open_payload. rewrite Hen. cbn [result_bind]. rewrite Hpk, Hct.
  rewrite (encrypted_read draw e a b _ ct Hdr (text_utf8 _) He). cbn [result_bind]. by rewrite (text_round (ok := ok) (d := d) x Hx Hd : from_text (json_to_string (ser x)) = Some x).
Qed.

(** The request a client writes is the one the wallet reads. *)
Lemma request_opens draw a b request e ct_builder clock event d : (S d ≤ RECURSION_LIMIT)%nat → draw_ok draw →
  any_value d (params request) →
  nwc_request draw a (xonly_public_key b) request e None = Ok ct_builder →
  EventBuilder.sign_with_keys clock ct_builder a = Ok event →
  Event.verify event = Ok tt ∧ Event.pubkey event = xonly_public_key a ∧ Event.kind event = KIND_REQUEST
  ∧ encryption_for_event event = Ok e ∧ decrypt_request event b = Ok request.
Proof.
  intros Hd Hdr Hp. unfold nwc_request. destruct (encrypt_with _ _ _ _ _) as [ct|] eqn:Ee; cbn [result_bind]; [|done].
  intros [= <-] Hs. pose proof (EventBuilder.signed_builder_verifies _ _ _ _ Hs) as Hv.
  apply EventBuilder.sign_Ok in Hs as (ts & _ & Ev).
  assert (encryption_for_event event = Ok e) as Hen.
  { rewrite Ev. unfold encryption_for_event. cbn [Event.tags]. apply (own_encryption e [p_tag (xonly_public_key b)]). by repeat constructor. }
  assert (Event.pubkey event = xonly_public_key a ∧ Event.content event = ct ∧ Event.kind event = KIND_REQUEST) as (Hpk & Hc & Hk)
    by (by rewrite Ev).
  split; [done|]. split; [done|]. split; [done|]. split; [done|]. unfold decrypt_request.
  rewrite decide_False by (by rewrite Hk; intros []).
  by eapply (payload_opens (d := S d) (ok := λ r, any_value d (params r))).
Qed.

(** The response a wallet writes is the one the client reads, under the request's id. *)
Lemma response_opens draw a b id response e ct_builder clock event d : (S (S d) ≤ RECURSION_LIMIT)%nat → draw_ok draw →
  response_ok d response →
  nwc_response draw a (xonly_public_key b) id response e = Ok ct_builder →
  EventBuilder.sign_with_keys clock ct_builder a = Ok event →
  Event.verify event = Ok tt ∧ Event.pubkey event = xonly_public_key a ∧ Event.kind event = KIND_RESPONSE
  ∧ decrypt_response event b = Ok response ∧ Tags.event_ids (Event.tags event) = [id].
Proof.
  intros Hd Hdr Hp. unfold nwc_response. destruct (encrypt_with _ _ _ _ _) as [ct|] eqn:Ee; cbn [result_bind]; [|done].
  intros [= <-] Hs. pose proof (EventBuilder.signed_builder_verifies _ _ _ _ Hs) as Hv.
  apply EventBuilder.sign_Ok in Hs as (ts & _ & Ev).
  assert (encryption_for_event event = Ok e) as Hen.
  { rewrite Ev. unfold encryption_for_event. cbn [Event.tags]. apply (own_encryption e [p_tag (xonly_public_key b); e_tag id]). by repeat constructor. }
  assert (Event.pubkey event = xonly_public_key a ∧ Event.content event = ct ∧ Event.kind event = KIND_RESPONSE
    ∧ Event.tags event = [p_tag (xonly_public_key b); e_tag id; custom_tag ENCRYPTION_TAG [as_token e]]) as (Hpk & Hc & Hk & Ht)
    by (by rewrite Ev).
  split; [done|]. split; [done|]. split; [done|]. split.
  - unfold decrypt_response. rewrite decide_False by (by rewrite Hk; intros []).
    by eapply (payload_opens (d := S (S d)) (ok := response_ok d)).
  - rewrite Ht. unfold Tags.event_ids.
    assert (Tags.find_letter [p_tag (xonly_public_key b); e_tag id; custom_tag ENCRYPTION_TAG [as_token e]] Alphabet.E = [e_tag id]) as ->.
    { vm_compute. reflexivity. }
    cbn. by rewrite EventId.parse_to_hex.
Qed.
Lemma notification_opens draw a b n e ct_builder clock event d : (S d ≤ RECURSION_LIMIT)%nat → draw_ok draw →
  any_value d (payload n) →
  nwc_notification draw a (xonly_public_key b) n e = Ok ct_builder →
  EventBuilder.sign_with_keys clock ct_builder a = Ok event →
  Event.pubkey event = xonly_public_key a ∧ decrypt_notification event b = Ok n
  ∧ (Event.kind event = KIND_NOTIFICATION ∨ Event.kind event = KIND_NOTIFICATION_LEGACY).
Proof.
  intros Hd Hdr Hp. unfold nwc_notification. destruct (encrypt_with _ _ _ _ _) as [ct|] eqn:Ee; cbn [result_bind]; [|done].
  intros [= <-] (ts & _ & Ev)%EventBuilder.sign_Ok.
  assert (encryption_for_event event = Ok e) as Hen.
  { rewrite Ev. unfold encryption_for_event. cbn [Event.tags]. apply (own_encryption e [p_tag (xonly_public_key b)]). by repeat constructor. }
  assert (Event.pubkey event = xonly_public_key a ∧ Event.content event = ct
    ∧ Event.kind event = match e with Nip44V2 => KIND_NOTIFICATION | Nip04 => KIND_NOTIFICATION_LEGACY end) as (Hpk & Hc & Hk) by (by rewrite Ev).
  split; [done|]. split; [|rewrite Hk; destruct e; [by left|by right]].
  unfold decrypt_notification. rewrite Hk.
  assert (open_payload event b = Ok n) as Hop by (by eapply (payload_opens (d := S d) (ok := λ r, any_value d (payload r)))).
  by destruct e; cbn.
Qed.
End payloads.

(** ** Runs of the wallet-connect client: what holds in every state *)

Import Nip47 Nwc.

Section runs.
Context `{FasterHex, Secp256k1, SecretScalar, SerdeJson, JsonText, JsonValues, UrlCrate, EventCrypto, !Nip44Crates, Base64, AesCbc}.

(** ** The table and the channels *)

(** A channel is held under one id and has not been used, or was used once. *)
Definition table_ok (s : Inner) : Prop :=
  (∀ id n, pending s !! id = Some n → (n < next_call s)%nat ∧ (n ∉ (sent s).*1) ∧ ∀ id', pending s !! id' = Some n → id' = id)
  ∧ NoDup (sent s).*1 ∧ Forall (λ n, (n < next_call s)%nat) (sent s).*1.

Definition channels (s : Inner) : list nat := (map_to_list (pending s)).*2.
Lemma elem_of_channels s n : n ∈ channels s ↔ ∃ id, pending s !! id = Some n.
Proof.
  unfold channels. rewrite list_elem_of_fmap. split.
  - intros ([id m] & -> & Hin%elem_of_map_to_list). by exists id.
  - intros [id Hid]. exists (id, n). split; [done|]. by apply elem_of_map_to_list.
Qed.
Lemma NoDup_channels s : table_ok s → NoDup (channels s).
Proof.
  intros (Hp & _ & _). unfold channels. apply NoDup_fmap_2_strong; [|apply NoDup_map_to_list].
  intros [i n] [j m] Hi%elem_of_map_to_list Hj%elem_of_map_to_list Hnm. cbn in Hnm. subst m.
  destruct (Hp i n Hi) as (_ & _ & Hu). by rewrite (Hu j Hj).
Qed.

Lemma cancel_all_state s error : cancel_all s error =
  mkInner ∅ (listening s) (sent s ++ ((λ n, (n, Err error)) <$> channels s)) (broadcast s) (calls s) (next_call s) (outbox s) (returned s).
Proof.
  unfold cancel_all, channels. generalize (map_to_list (pending s)).*2. intros ns.
  assert (∀ s', foldl (λ s n, send s n (Err error)) s' ns =
    mkInner (pending s') (listening s') (sent s' ++ ((λ n, (n, Err error)) <$> ns)) (broadcast s') (calls s') (next_call s')
      (outbox s') (returned s')) as Hf.
  { induction ns as [|n ns IH]; intros s'; cbn [foldl fmap list_fmap]; [rewrite app_nil_r; by destruct s'|].
    rewrite IH. unfold send. cbn. by rewrite <-app_assoc. }
  by rewrite Hf.
Qed.

(** Two states that differ outside the table. *)
Lemma table_ext s s' : pending s' = pending s → sent s' = sent s → (next_call s ≤ next_call s')%nat → table_ok s → table_ok s'.
Proof.
  intros Hp Hs Hn (Ht & Hd & Hb). unfold table_ok. rewrite Hp, Hs. split; [|split; [done|]].
  - intros id n Hid. destruct (Ht id n Hid) as (? & ? & ?). split; [lia|done].
  - eapply Forall_impl; [exact Hb|]. cbn. lia.
Qed.
Lemma table_delete s id : table_ok s → table_ok (set_pending s (delete id (pending s))).
Proof.
  intros (Ht & Hd & Hb). split; [|done]. cbn. intros i n Hi. apply lookup_delete_Some in Hi as [Hne Hi].
  destruct (Ht i n Hi) as (? & ? & Hu). split; [done|]. split; [done|]. intros j Hj. apply Hu. by apply lookup_delete_Some in Hj as [_ ?].
Qed.
Lemma table_insert s id : table_ok s → table_ok (insert (set_next s (S (next_call s))) id (next_call s)).
Proof.
  intros (Ht & Hd & Hb). rewrite Forall_forall in Hb. split; cbn.
  - intros i n Hi. apply lookup_insert_Some in Hi as [[<- <-]|[Hne Hi]].
    + split; [lia|]. split; [intros Hin; specialize (Hb _ Hin); cbn in Hb; lia|].
      intros j Hj. apply lookup_insert_Some in Hj as [[<- _]|[_ Hj]]; [done|]. destruct (Ht j _ Hj) as [? _]. lia.
    + destruct (Ht i n Hi) as (? & ? & Hu). split; [lia|]. split; [done|]. intros j Hj.
      apply lookup_insert_Some in Hj as [[_ <-]|[_ Hj]]; [lia|]. by apply Hu.
  - split; [done|]. apply Forall_forall. intros n Hn. specialize (Hb n Hn). cbn in Hb. lia.
Qed.
Lemma table_resolve s id reply : table_ok s → table_ok (resolve s id reply).
Proof.
  intros Hs. pose proof (table_delete s id Hs) as Hdel. unfold resolve, take. destruct (pending s !! id) as [n|] eqn:E; [|done].
  destruct Hs as (Ht & Hd & Hb). destruct (Ht id n E) as (Hn & Hns & Hu). destruct Hdel as (Ht' & _ & _). split; cbn in *.
  - intros i m Hi. destruct (Ht' i m Hi) as (? & ? & ?). split; [done|]. split; [|done]. rewrite fmap_app. cbn.
    intros [Hin|Hin%list_elem_of_singleton]%elem_of_app; [done|]. subst m.
    apply lookup_delete_Some in Hi as [Hne Hi]. by rewrite (Hu i Hi) in Hne.
  - rewrite fmap_app. split.
    + apply NoDup_app. split; [done|]. split; [|apply NoDup_singleton]. by intros x Hx ->%list_elem_of_singleton.
    + apply Forall_app. split; [done|]. by repeat constructor.
Qed.
Lemma table_cancel s error : table_ok s → table_ok (cancel_all s error).
Proof.
  intros Hs. pose proof (NoDup_channels s Hs) as Hc. rewrite cancel_all_state. destruct Hs as (Ht & Hd & Hb). split; cbn.
  - intros id n Hid. by rewrite lookup_empty in Hid.
  - rewrite fmap_app, <-list_fmap_compose. change (fst ∘ _) with (λ n : nat, n). rewrite list_fmap_id. split.
    + apply NoDup_app. split; [done|]. split; [|done]. intros n Hn (id & Hid)%elem_of_channels. by destruct (Ht id n Hid) as (_ & ? & _).
    + apply Forall_app. split; [done|]. apply Forall_forall. intros n (id & Hid)%elem_of_channels. by destruct (Ht id n Hid) as (? & _).
Qed.

Variable debug : gmap RelayUrl string → string.

Lemma table_step cfg s st : table_ok s → table_ok (step debug cfg s st).
Proof.
  intros Hs. destruct st as [d r|n out|n|n|item|ended|]; cbn [step].
  - unfold dispatch. destruct (request_event cfg d r) as [e|]; [|by eapply table_ext; [..|exact Hs]; cbn; lia || done].
    apply (table_insert s (Event.id e)) in Hs. by eapply table_ext; [..|exact Hs].
  - unfold published. destruct (calls s !! n) as [[r id []]|]; [|done..]. destruct out as [out|]; [|by eapply table_ext; [..|exact Hs]].
    destruct (is_total_failure out); [|by eapply table_ext; [..|exact Hs]].
    apply (table_delete s id) in Hs. by eapply table_ext; [..|exact Hs].
  - unfold received. destruct (calls s !! n) as [[r id []]|]; [done| |done].
    destruct (sent_to s n); [by eapply table_ext; [..|exact Hs]|]. destruct (closed s n); [by eapply table_ext; [..|exact Hs]|done].
  - unfold timed_out. destruct (calls s !! n) as [[r id []]|]; [done| |done].
    apply (table_delete s id) in Hs. by eapply table_ext; [..|exact Hs].
  - destruct (listening s); [|done]. unfold on_item. destruct item as [e|]; [|done]. case_decide; [done|]. case_decide.
    + destruct (decrypt_response e _); [|done]. destruct (Tags.event_ids _); [done|]. by apply table_resolve.
    + destruct (_ || _); [|done]. destruct (decrypt_notification e _); [|done]. by eapply table_ext; [..|exact Hs].
  - destruct (listening s); [|done]. apply table_cancel. by eapply table_ext; [..|exact Hs].
  - by eapply table_ext; [..|exact Hs].
Qed.

(** ** Calls: each is under way or has returned, once *)

Definition numbers (s : Inner) : list nat := (map_to_list (calls s)).*1 ++ (r_number <$> returned s).
Definition numbers_ok (s : Inner) : Prop := numbers s ≡ₚ seq 0 (next_call s).

Lemma numbers_ext s s' : calls s' = calls s → returned s' = returned s → next_call s' = next_call s → numbers_ok s → numbers_ok s'.
Proof. unfold numbers_ok, numbers. by intros -> -> ->. Qed.
Lemma numbers_finish s r c : calls s !! r_number r = Some c → numbers_ok s → numbers_ok (finish s r).
Proof.
  unfold numbers_ok, numbers. cbn [finish calls returned next_call]. intros Hc <-. rewrite fmap_app. cbn.
  rewrite <-(insert_delete_id (calls s) _ c Hc) at 2. rewrite map_to_list_insert by apply lookup_delete_eq. cbn. solve_Permutation.
Qed.
Lemma numbers_stage s n r id st st' : calls s !! n = Some (mkCall r id st) → numbers_ok s →
  numbers_ok (set_calls s (<[n := mkCall r id st']> (calls s))).
Proof.
  unfold numbers_ok, numbers. cbn [set_calls calls returned next_call]. intros Hc <-.
  rewrite <-insert_delete_eq. rewrite <-(insert_delete_id (calls s) n _ Hc) at 2.
  by rewrite !map_to_list_insert by apply lookup_delete_eq.
Qed.
Lemma call_bound s n c : numbers_ok s → calls s !! n = Some c → (n < next_call s)%nat.
Proof.
  intros Hn Hc. assert (n ∈ seq 0 (next_call s)) as Hin%elem_of_seq; [|lia].
  unfold numbers_ok in Hn. rewrite <-Hn. unfold numbers. apply elem_of_app. left. apply list_elem_of_fmap. exists (n, c). split; [done|]. by apply elem_of_map_to_list.
Qed.
Lemma fresh_call s : numbers_ok s → calls s !! next_call s = None.
Proof. intros Hn. destruct (calls s !! next_call s) as [c|] eqn:E; [|done]. pose proof (call_bound s _ c Hn E). lia. Qed.

Lemma numbers_step cfg s st : numbers_ok s → numbers_ok (step debug cfg s st).
Proof.
  intros Hs. destruct st as [d r|n out|n|n|item|ended|]; cbn [step].
  - pose proof (fresh_call s Hs) as Hf. unfold dispatch, numbers_ok, numbers in *.
    destruct (request_event cfg d r) as [e|]; cbn [finish publish set_calls insert set_pending set_next calls returned next_call r_number].
    + rewrite map_to_list_insert by done. rewrite seq_S. cbn. rewrite Hs. solve_Permutation.
    + rewrite delete_id by done. rewrite fmap_app, app_assoc, Hs, seq_S. done.
  - unfold published. destruct (calls s !! n) as [[r id []]|] eqn:Ec; [|done..].
    destruct out as [out|]; [|by eapply (numbers_finish _ (mkReturn n r (Some id) _)); [exact Ec|]].
    destruct (is_total_failure out); [|by eapply numbers_stage].
    eapply (numbers_finish _ (mkReturn n r (Some id) _)); [exact Ec|]. by eapply numbers_ext; [..|exact Hs].
  - unfold received. destruct (calls s !! n) as [[r id []]|] eqn:Ec; [done| |done].
    destruct (sent_to s n); [by eapply (numbers_finish _ (mkReturn n r (Some id) _)); [exact Ec|]|].
    destruct (closed s n); [|done]. by eapply (numbers_finish _ (mkReturn n r (Some id) _)); [exact Ec|].
  - unfold timed_out. destruct (calls s !! n) as [[r id []]|] eqn:Ec; [done| |done].
    eapply (numbers_finish _ (mkReturn n r (Some id) _)); [exact Ec|]. by eapply numbers_ext; [..|exact Hs].
  - destruct (listening s); [|done]. unfold on_item. destruct item as [e|]; [|done]. case_decide; [done|]. case_decide.
    + destruct (decrypt_response e _); [|done]. destruct (Tags.event_ids _) as [|i ids]; [done|].
      unfold resolve, take. destruct (pending s !! i); by eapply numbers_ext; [..|exact Hs].
    + destruct (_ || _); [|done]. destruct (decrypt_notification e _); [|done]. by eapply numbers_ext; [..|exact Hs].
  - destruct (listening s); [|done]. unfold stream_over. rewrite cancel_all_state. by eapply numbers_ext; [..|exact Hs].
  - by eapply numbers_ext; [..|exact Hs].
Qed.

(** ** Entries and their calls *)

(** The call of an entry is under way under its id, or the pool refused its event. *)
Definition owned (s : Inner) (id : EventId) (n : nat) : Prop :=
  (∃ r st, calls s !! n = Some (mkCall r id st)) ∨ (∃ r e, mkReturn n r (Some id) (Err (PoolErr e)) ∈ returned s).
Definition owners_ok (s : Inner) : Prop := ∀ id n, pending s !! id = Some n → owned s id n.

Lemma owners_sub s s' : (∀ id n, pending s' !! id = Some n → pending s !! id = Some n) →
  calls s' = calls s → returned s' = returned s → owners_ok s → owners_ok s'.
Proof. intros Hp Hc Hr Ho id n Hid. specialize (Ho id n (Hp _ _ Hid)). unfold owned in *. by rewrite Hc, Hr. Qed.
(** A call that returns leaves no entry behind that is not owned. *)
Lemma owners_finish s p r :
  owners_ok s → (∀ id n, p !! id = Some n → pending s !! id = Some n) →
  (∀ id, p !! id = Some (r_number r) → r_id r = Some id ∧ ∃ e, r_result r = Err (PoolErr e)) →
  owners_ok (finish (set_pending s p) r).
Proof.
  intros Ho Hp Hr id n Hid. cbn in Hid. destruct (decide (n = r_number r)) as [->|Hne].
  - destruct (Hr id Hid) as (Hi & e & He). right. exists (r_request r), e. cbn. apply elem_of_app. right.
    apply list_elem_of_singleton. destruct r. cbn in *. by subst.
  - destruct (Ho id n (Hp _ _ Hid)) as [(q & st & Hc)|(q & e & Hin)]; [left|right].
    + exists q, st. cbn. by rewrite lookup_delete_ne.
    + exists q, e. cbn. apply elem_of_app. by left.
Qed.
Lemma finish_same s r : finish s r = finish (set_pending s (pending s)) r.
Proof. by destruct s. Qed.
Lemma returned_not_called s n c r : numbers_ok s → calls s !! n = Some c → r ∈ returned s → r_number r ≠ n.
Proof.
  intros Hn Hc Hr <-. assert (NoDup (numbers s)) as Hd by (unfold numbers_ok in Hn; rewrite Hn; apply NoDup_seq).
  unfold numbers in Hd. apply NoDup_app in Hd as (_ & Hd & _). apply (Hd (r_number r)).
  - apply list_elem_of_fmap. exists (r_number r, c). split; [done|]. by apply elem_of_map_to_list.
  - by apply list_elem_of_fmap_2.
Qed.
Lemma owner_id s n r id st id' : numbers_ok s → owners_ok s →
  calls s !! n = Some (mkCall r id st) → pending s !! id' = Some n → id' = id.
Proof.
  intros Hn Ho Hc Hp. destruct (Ho id' n Hp) as [(q & st' & Hc')|(q & e & Hin)]; [congruence|].
  by destruct (returned_not_called s n _ _ Hn Hc Hin).
Qed.

Lemma sent_in s n v : sent_to s n = Some v → (n, v) ∈ sent s.
Proof.
  unfold sent_to. destruct (List.find _ (sent s)) as [[m w]|] eqn:E; cbn; [|done]. intros [= <-].
  apply find_some in E as [Hin Heq%Nat.eqb_eq]. cbn in Heq. subst. by apply list_elem_of_In.
Qed.

Lemma owners_step cfg s st : table_ok s → numbers_ok s → owners_ok s → owners_ok (step debug cfg s st).
Proof.
  intros Ht Hn Ho. destruct st as [d r|n out|n|n|item|ended|]; cbn [step].
  - pose proof (fresh_call s Hn) as Hf. unfold dispatch. destruct (request_event cfg d r) as [e|].
    + intros id m Hid. cbn in Hid. apply lookup_insert_Some in Hid as [[<- <-]|[Hne Hid]].
      { left. exists r, Sending. cbn. by rewrite lookup_insert_eq. }
      destruct (Ho id m Hid) as [(q & st & Hc)|?]; [left|by right]. exists q, st. cbn.
      rewrite lookup_insert_ne; [done|]. intros <-. congruence.
    + intros id m Hid. cbn in Hid. destruct (Ho id m Hid) as [(q & st & Hc)|(q & er & Hin)]; [left|right].
      * exists q, st. cbn. by rewrite delete_id.
      * exists q, er. cbn. apply elem_of_app. by left.
  - unfold published. destruct (calls s !! n) as [[r id []]|] eqn:Ec; [|done..].
    destruct out as [out|er]; [destruct (is_total_failure out)|].
    + apply (owners_finish s); [done| |].
      { intros i m Hi. by apply lookup_delete_Some in Hi as [_ ?]. }
      intros i Hi. cbn in Hi. apply lookup_delete_Some in Hi as [Hne Hi]. by rewrite (owner_id s n r id Sending i Hn Ho Ec Hi) in Hne.
    + intros i m Hi. cbn in Hi. destruct (Ho i m Hi) as [(q & st & Hc)|?]; [left|by right].
      destruct (decide (m = n)) as [->|Hne]; [|exists q, st; cbn; by rewrite lookup_insert_ne].
      exists r, Awaiting. cbn. rewrite lookup_insert_eq. by rewrite (owner_id s n r id Sending i Hn Ho Ec Hi).
    + rewrite finish_same. apply (owners_finish s); [done|done|]. intros i Hi. cbn in *.
      rewrite (owner_id s n r id Sending i Hn Ho Ec Hi). split; [done|]. by eexists.
  - unfold received. destruct (calls s !! n) as [[r id []]|] eqn:Ec; [done| |done].
    destruct (sent_to s n) as [v|] eqn:Es; [|destruct (closed s n) eqn:Ecl; [|done]].
    + rewrite finish_same. apply (owners_finish s); [done|done|]. intros i Hi. cbn in Hi. exfalso.
      destruct Ht as [Ht _]. destruct (Ht i n Hi) as (_ & Hns & _). apply Hns. apply sent_in in Es.
      by apply (list_elem_of_fmap_2 fst) in Es.
    + rewrite finish_same. apply (owners_finish s); [done|done|]. intros i Hi. cbn in Hi. exfalso.
      unfold closed in Ecl. apply bool_decide_eq_true in Ecl. by apply (Ecl i n Hi).
  - unfold timed_out. destruct (calls s !! n) as [[r id []]|] eqn:Ec; [done| |done].
    apply (owners_finish s); [done| |].
    { intros i m Hi. by apply lookup_delete_Some in Hi as [_ ?]. }
    intros i Hi. cbn in Hi. apply lookup_delete_Some in Hi as [Hne Hi]. by rewrite (owner_id s n r id Awaiting i Hn Ho Ec Hi) in Hne.
  - destruct (listening s); [|done]. unfold on_item. destruct item as [e|]; [|done]. case_decide; [done|]. case_decide.
    + destruct (decrypt_response e _); [|done]. destruct (Tags.event_ids _) as [|i ids]; [done|].
      unfold resolve, take. destruct (pending s !! i); (apply (owners_sub s); [|done|done|done]); cbn; intros j m Hj;
        by apply lookup_delete_Some in Hj as [_ ?].
    + destruct (_ || _); [|done]. destruct (decrypt_notification e _); [|done]. by apply (owners_sub s).
  - destruct (listening s); [|done]. unfold stream_over. rewrite cancel_all_state. intros i m Hi. cbn in Hi. by rewrite lookup_empty in Hi.
  - by apply (owners_sub s).
Qed.

(** ** Where answers come from *)

(** An event of the wallet among the steps carries this response to this request. *)
Definition brings (cfg : Config) (steps : list Step) (id : EventId) (v : Response) : Prop :=
  ∃ event, Item (Ok event) ∈ steps ∧ Event.pubkey event = wallet cfg ∧ Event.kind event = KIND_RESPONSE
    ∧ decrypt_response event (client_keys cfg) = Ok v ∧ head (Tags.event_ids (Event.tags event)) = Some id.
Definition authentic (cfg : Config) (steps : list Step) (s : Inner) : Prop :=
  (∀ n v c, (n, Ok v) ∈ sent s → calls s !! n = Some c → brings cfg steps (c_id c) v)
  ∧ (∀ r v, r ∈ returned s → r_result r = Ok v → ∃ id, r_id r = Some id ∧ brings cfg steps id v).

Lemma brings_more cfg steps st id v : brings cfg steps id v → brings cfg (steps ++ [st]) id v.
Proof. intros (e & He & ?). exists e. split; [|done]. apply elem_of_app. by left. Qed.
Lemma authentic_more cfg steps st s : authentic cfg steps s → authentic cfg (steps ++ [st]) s.
Proof.
  intros [Hs Hr]. split.
  - intros n v c Hin Hc. by apply brings_more, (Hs n v c).
  - intros r v Hin Hv. destruct (Hr r v Hin Hv) as (id & Hid & Hb). exists id. split; [done|]. by apply brings_more.
Qed.
Lemma authentic_sub cfg steps s s' :
  (∀ n v, (n, Ok v) ∈ sent s' → (n, Ok v) ∈ sent s) →
  (∀ n c, calls s' !! n = Some c → ∃ c', calls s !! n = Some c' ∧ c_id c' = c_id c) →
  returned s' = returned s → authentic cfg steps s → authentic cfg steps s'.
Proof.
  intros Hs Hc Hr [Ha Hb]. split; [|by rewrite Hr]. intros n v c Hin Hcall. destruct (Hc n c Hcall) as (c' & Hc' & <-).
  by apply (Ha n v c'); [apply Hs|].
Qed.
Lemma authentic_finish cfg steps s p r :
  authentic cfg steps s → (∀ v, r_result r = Ok v → ∃ id, r_id r = Some id ∧ brings cfg steps id v) →
  authentic cfg steps (finish (set_pending s p) r).
Proof.
  intros [Ha Hb] Hr. split; cbn.
  - intros n v c Hin Hc. apply lookup_delete_Some in Hc as [_ Hc]. by apply (Ha n v c).
  - intros q v [Hin|Hin%list_elem_of_singleton]%elem_of_app Hv; [by apply (Hb q v)|subst q; by apply Hr].
Qed.

Lemma authentic_step cfg steps s st : table_ok s → numbers_ok s → owners_ok s → authentic cfg steps s →
  authentic cfg (steps ++ [st]) (step debug cfg s st).
Proof.
  intros Ht Hn Ho Ha0. pose proof (authentic_more cfg steps st s Ha0) as Ha. clear Ha0.
  destruct st as [d r|n out|n|n|item|ended|]; cbn [step].
  - unfold dispatch. destruct (request_event cfg d r) as [e|].
    + destruct Ha as [Hs Hr]. split; [|done]. cbn. intros m v c Hin Hc.
      apply lookup_insert_Some in Hc as [[<- <-]|[_ Hc]]; [|by apply (Hs m v c)]. exfalso.
      destruct Ht as (_ & _ & Hb). rewrite Forall_forall in Hb. apply (list_elem_of_fmap_2 fst) in Hin. specialize (Hb _ Hin). cbn in Hb. lia.
    + by apply (authentic_finish cfg _ s (pending s)).
  - unfold published. destruct (calls s !! n) as [[r id []]|] eqn:Ec; [|done..].
    destruct out as [out|er]; [destruct (is_total_failure out)|].
    + by apply (authentic_finish cfg _ s).
    + apply (authentic_sub cfg _ s); [done| |done|done]. cbn. intros m c Hc.
      apply lookup_insert_Some in Hc as [[<- <-]|[_ Hc]]; [by eexists|by exists c].
    + rewrite finish_same. by apply (authentic_finish cfg _ s).
  - unfold received. destruct (calls s !! n) as [[r id []]|] eqn:Ec; [done| |done].
    destruct (sent_to s n) as [v|] eqn:Es; [|destruct (closed s n); [|done]].
    + rewrite finish_same. apply (authentic_finish cfg _ s); [done|]. cbn. intros w ->. exists id. split; [done|].
      destruct Ha as [Hs _]. by apply (Hs n w _ (sent_in s n _ Es) Ec).
    + rewrite finish_same. by apply (authentic_finish cfg _ s).
  - unfold timed_out. destruct (calls s !! n) as [[r id []]|] eqn:Ec; [done| |done]. by apply (authentic_finish cfg _ s).
  - destruct (listening s); [|done]. unfold on_item. destruct item as [e|]; [|done]. case_decide as Hpk; [done|]. case_decide as Hk.
    + destruct (decrypt_response e _) as [resp|] eqn:Ed; [|done]. destruct (Tags.event_ids _) as [|i ids] eqn:Ei; [done|].
      unfold resolve, take. destruct (pending s !! i) as [m|] eqn:Ep; [|by apply (authentic_sub cfg _ s); [done|intros k c Hc; by exists c|..]].
      destruct Ha as [Hs Hr]. split; [|done]. cbn. intros k v c [Hin|Hin%list_elem_of_singleton]%elem_of_app Hc; [by apply (Hs k v c)|]. injection Hin as -> ->.
      destruct c as [q id st]. assert (i = id) as -> by (by eapply owner_id). exists e.
      split; [apply elem_of_app; right; by apply list_elem_of_singleton|]. split; [done|]. by rewrite Ei.
    + destruct (_ || _); [|done]. destruct (decrypt_notification e _); [|done].
      apply (authentic_sub cfg _ s); [done|intros k c Hc; by exists c|done..].
  - destruct (listening s); [|done]. unfold stream_over. rewrite cancel_all_state.
    apply (authentic_sub cfg _ s); [|intros k c Hc; by exists c|done..]. cbn. intros k v [Hin|Hin]%elem_of_app; [done|].
    by apply list_elem_of_fmap in Hin as (? & [=] & _).
  - apply (authentic_sub cfg _ s); [done|intros k c Hc; by exists c|done..].
Qed.

(** ** All runs *)

Definition initial : Inner := mkInner ∅ true [] [] ∅ 0 [] [].
Lemma run_invariants cfg steps :
  let s := run debug cfg initial steps in table_ok s ∧ numbers_ok s ∧ owners_ok s ∧ authentic cfg steps s.
Proof.
  cbv zeta. unfold run. induction steps as [|st steps IH] using rev_ind.
  - assert (∀ id n, pending initial !! id ≠ Some n) as Hempty.
    { intros id n. change (pending initial) with (∅ : gmap EventId nat). by rewrite lookup_empty. }
    cbn [foldl]. split; [split; [intros id n Hid; by destruct (Hempty id n)|split; constructor]|].
    split; [unfold numbers_ok, numbers; cbn [initial calls returned next_call]; by rewrite map_to_list_empty|]. split; [intros id n Hid; by destruct (Hempty id n)|].
    split; [intros n v c Hin; by apply not_elem_of_nil in Hin|intros r v Hin; by apply not_elem_of_nil in Hin].
  - rewrite foldl_app. cbn [foldl]. destruct IH as (Ht & Hn & Ho & Ha).
    split; [by apply table_step|]. split; [by apply numbers_step|]. split; [by apply owners_step|by apply authentic_step].
Qed.
End runs.
