(* ===== verification/NwcTheorems.v ===== *)
(** * What the wallet-connect client guarantees *)

From Stdlib Require Import Ascii NArith Lia.
From S2P Require Import Prelude Encoding Text Ids Tags Event Filter FilterWire Nips Message HttpAuth Entities.
From S2P Require Import Storage Samples RelaySamples Database Client ClientSamples Pool EntityTheorems.
From S2P Require Import Derive GiftWrap GiftWrapProofs GiftWrapSamples Text Nip47 Nwc NwcProofs.
From S2P Require Import Nip46 RemoteSigner RemoteSignerProofs RemoteSignerTheorems.
Import Nip47 Nwc.

Section exchange.
Context `{FasterHex, !FasterHexLaws, Secp256k1, SecretScalar, SerdeJson, !SerdeJsonLaws, JsonText, !JsonPlainText, JsonValues, !JsonValueLaws,
  UrlCrate, EventCrypto, !EventCryptoLaws, !Nip44Crates, !Nip44Laws, Base64, !Base64Laws, AesCbc, !AesCbcLaws}.

(** The response of a wallet with a typed result. *)
Definition wallet_answer {R} `{Serde R} (method : string) (r : Prelude.result R ResponseError) : option Response :=
  match r with
  | Ok x => v ← to_value (ser x); Some (mkResponse method None (Some v))
  | Err e => Some (mkResponse method (Some e) None)
  end.

Lemma value_of_ser {A} `{Serde A} {ok d} `{!SerdeRound A ok d} (a : A) v : ok a → to_value (ser a) = Some v →
  value_ok d v ∧ de v = Some a.
Proof.
  intros Ha Hv. pose proof (ser_plain a Ha) as Hp. destruct (to_value_same d _ Hp) as (v' & Hv' & Hs).
  rewrite Hv in Hv'. injection Hv' as <-. destruct (de_same a v Ha Hs) as [Hn Hd]. split; [|done].
  split; [by rewrite <-(to_value_canon d _ _ Hp Hs)|]. split; [by eapply same_plain|done].
Qed.
Lemma value_exists {A} `{Serde A} {ok d} `{!SerdeRound A ok d} (a : A) : ok a → ∃ v, to_value (ser a) = Some v.
Proof. intros Ha. destruct (to_value_same d _ (ser_plain a Ha)) as (v & Hv & _). by exists v. Qed.

(** The answer of a wallet is a response the wire keeps, and the caller reads it as the result. *)
Lemma answer_read {R} `{Serde R} {ok d} `{!SerdeRound R ok (S d)} method (r : Prelude.result R ResponseError) response :
  (∀ x, r = Ok x → ok x) → (∀ e, r = Err e → code_ok (code e)) → wallet_answer method r = Some response →
  response_ok d response
  ∧ call_result method (Ok response) = match r with Ok x => Ok x | Err e => Err (Wallet method (code e) (message e)) end.
Proof.
  intros Hx He. unfold wallet_answer. destruct r as [x|e].
  - destruct (to_value (ser x)) as [v|] eqn:Ev; cbn [mbind option_bind]; [|done]. intros [= <-].
    destruct (value_of_ser x v (Hx x eq_refl) Ev) as [Hv Hd]. split; [split; [done|by intros w [= <-]]|]. cbn. by rewrite Hd.
  - intros [= <-]. split; [split; [|done]; intros e' [= <-]; by apply He|done].
Qed.

(** The turns of a call that is answered. *)
Lemma call_round debug cfg s d request e out reply response :
  table_ok s → numbers_ok s → listening s = true → pending s !! Event.id e = None →
  request_event cfg d request = Ok e → is_total_failure out = false →
  Event.pubkey reply = wallet cfg → Event.kind reply = KIND_RESPONSE → decrypt_response reply (client_keys cfg) = Ok response →
  Tags.event_ids (Event.tags reply) = [Event.id e] →
  let s' := run debug cfg s [Start d request; Published (next_call s) (Ok out); Item (Ok reply); Received (next_call s)] in
  outbox s' = outbox s ++ [e] ∧ returned s' = returned s ++ [mkReturn (next_call s) request (Some (Event.id e)) (Ok response)]
  ∧ pending s' = pending s ∧ calls s' = calls s.
Proof.
  intros Ht Hn Hl Hfresh He Hout Hpk Hk Hd Hids. pose proof (fresh_call s Hn) as Hfc. set (n := next_call s) in *. cbv zeta. unfold run. cbn [foldl].
  assert (step debug cfg s (Start d request) =
    mkInner (<[Event.id e := n]> (pending s)) true (sent s) (broadcast s) (<[n := mkCall request (Event.id e) Sending]> (calls s)) (S n)
      (outbox s ++ [e]) (returned s)) as ->.
  { cbn [step]. unfold dispatch. rewrite He. unfold publish, set_calls, insert, set_pending, set_next. cbn. by rewrite Hl. }
  cbn [step]. unfold published. cbn [calls]. rewrite lookup_insert_eq, Hout. cbn [set_calls listening].
  unfold on_item. rewrite decide_False by (by rewrite Hpk; intros []). rewrite decide_True by done. rewrite Hd, Hids.
  unfold resolve, take. cbn [pending set_calls]. rewrite lookup_insert_eq.
  cbn [send set_pending set_calls calls pending].
  unfold received. cbn [calls send set_pending set_calls]. rewrite lookup_insert_eq.
  assert (∀ x, sent x = sent s ++ [(n, Ok response)] → sent_to x n = Some (Ok response)) as Hsent.
  { intros x Hx. unfold sent_to. rewrite Hx. destruct Ht as (_ & _ & Hb).
    assert (Forall (λ p, p.1 ≠ n) (sent s)) as Hne.
    { apply Forall_forall. intros p Hp. rewrite Forall_forall in Hb. apply (list_elem_of_fmap_2 fst) in Hp. specialize (Hb _ Hp).
      unfold n. cbn in Hb. lia. }
    clear -Hne. induction Hne as [|p l Hp _ IH]; cbn [app List.find]; [by rewrite Nat.eqb_refl|]. apply Nat.eqb_neq in Hp. by rewrite Hp. }
  rewrite Hsent by done. cbn. rewrite delete_insert_id by done. split; [done|]. split; [done|]. split; [done|].
  rewrite !delete_insert_eq. by rewrite delete_id.
Qed.

(** C32: A remote call is a local one: the wallet reads the parameters the caller gave,
    from an event signed by the client's key; and whatever typed result or error the
    wallet answers with, in either encryption, is what the caller is handed, once,
    and the table of waiting calls is as before. *)
Theorem wallet_call_answered {P R} `{Serde P, Serde R} {okP okR dP dR} `{!SerdeRound P okP dP, !SerdeRound R okR (S dR)}
    debug cfg w steps d method (p : P) request e out (r : Prelude.result R ResponseError) response draw enc builder clock' reply :
  (S dP ≤ RECURSION_LIMIT)%nat → (S (S dR) ≤ RECURSION_LIMIT)%nat →
  let s := run debug cfg initial steps in
  let n := next_call s in
  wallet cfg = xonly_public_key w → listening s = true → draw_ok (entropy d) → draw_ok draw →
  okP p → call_request method p = Ok request → request_event cfg d request = Ok e → pending s !! Event.id e = None →
  is_total_failure out = false →
  (∀ x, r = Ok x → okR x) → (∀ er, r = Err er → code_ok (code er)) → wallet_answer method r = Some response →
  nwc_response draw w (Event.pubkey e) (Event.id e) response enc = Ok builder →
  EventBuilder.sign_with_keys clock' builder w = Ok reply →
  (decrypt_request e w = Ok request ∧ de (params request) = Some p ∧ Event.verify e = Ok tt
    ∧ Event.pubkey e = xonly_public_key (client_keys cfg))
  ∧ (let s' := run debug cfg s [Start d request; Published n (Ok out); Item (Ok reply); Received n] in
     outbox s' = outbox s ++ [e] ∧ returned s' = returned s ++ [mkReturn n request (Some (Event.id e)) (Ok response)]
     ∧ pending s' = pending s ∧ calls s' = calls s)
  ∧ call_result method (Ok response) = match r with Ok x => Ok x | Err er => Err (Wallet method (code er) (message er)) end.
Proof.
  intros HdP HdR s n Hw Hl Hdr Hdr' Hp Hreq He Hfresh Hout Hx Her Hans Hb Hsig.
  destruct (run_invariants debug cfg steps) as (Ht & Hn & _ & _). fold s in Ht, Hn.
  unfold call_request in Hreq. destruct (to_value (ser p)) as [v|] eqn:Ev; cbn in Hreq; [|done]. injection Hreq as <-.
  destruct (value_of_ser p v Hp Ev) as [(Hv & Hpl & _) Hde].
  pose proof He as He'. unfold request_event in He'. rewrite Hw in He'.
  destruct (nwc_request _ _ _ _ _ _) as [rb|] eqn:Erb; cbn [map_err result_bind] in He'; [|done].
  destruct (EventBuilder.sign_with_keys (clock d) rb _) as [ev|] eqn:Es; cbn [map_err] in He'; [|done]. injection He' as ->.
  destruct (request_opens _ _ _ _ _ _ _ _ dP HdP Hdr (conj Hv Hpl : any_value dP (params (mkRequest method v))) Erb Es)
    as (Hver & Hpk & _ & _ & Hdec).
  destruct (answer_read method r response Hx Her Hans) as [Hrok Hcall].
  rewrite Hpk in Hb. destruct (response_opens _ _ _ _ _ _ _ _ _ dR HdR Hdr' Hrok Hb Hsig) as (_ & Hrpk & Hrk & Hrd & Hids).
  split; [done|]. split; [|done]. apply (call_round debug cfg s d _ e out reply response); try done. by rewrite Hrpk.
Qed.
End exchange.

Section runs.
Context `{FasterHex, Secp256k1, SecretScalar, SerdeJson, JsonText, JsonValues, UrlCrate, EventCrypto, !Nip44Crates, Base64, AesCbc}.

(** Calls are accounted for, and only the wallet answers them: in every run each
    call that was started is under way or has returned, once; each reply channel is
    held under one id or got its one value; an entry of the table belongs to a call
    under way (or to one whose event the pool refused, which is never removed).  A
    successful answer is what an event of the wallet's key that arrived, tagged with
    the id of the call's own request, decrypts to; an event of any other key changes
    nothing.  A call that waits can always time out, and its entry goes with it. *)
Theorem wallet_calls_accounted debug cfg steps :
  let s := run debug cfg initial steps in
  (map_to_list (calls s)).*1 ++ (r_number <$> returned s) ≡ₚ seq 0 (next_call s)
  ∧ NoDup (channels s ++ (sent s).*1)
  ∧ (∀ id n, pending s !! id = Some n →
       (∃ r st, calls s !! n = Some (mkCall r id st)) ∨ (∃ r e, mkReturn n r (Some id) (Err (PoolErr e)) ∈ returned s))
  ∧ (∀ x v, x ∈ returned s → r_result x = Ok v →
       ∃ id event, r_id x = Some id ∧ Item (Ok event) ∈ steps ∧ Event.pubkey event = wallet cfg ∧ Event.kind event = KIND_RESPONSE
         ∧ decrypt_response event (client_keys cfg) = Ok v ∧ head (Tags.event_ids (Event.tags event)) = Some id)
  ∧ (∀ event, Event.pubkey event ≠ wallet cfg → step debug cfg s (Item (Ok event)) = s)
  ∧ (∀ n r id, calls s !! n = Some (mkCall r id Awaiting) →
       let s' := step debug cfg s (TimedOut n) in
       returned s' = returned s ++ [mkReturn n r (Some id) (Err (Timeout (req_method r)))] ∧ pending s' !! id = None).
Proof.
  cbv zeta. destruct (run_invariants debug cfg steps) as (Ht & Hn & Ho & Ha). set (s := run debug cfg initial steps) in *.
  split; [exact Hn|]. split.
  { pose proof (NoDup_channels s Ht) as Hc. destruct Ht as (Hp & Hd & _). apply NoDup_app. split; [done|]. split; [|done].
    intros n (id & Hid)%elem_of_channels. by destruct (Hp id n Hid) as (_ & ? & _). }
  split; [exact Ho|]. split.
  { intros x v Hx Hv. destruct Ha as [_ Hr]. destruct (Hr x v Hx Hv) as (id & Hid & e & ?). by exists id, e. }
  split.
  - intros event Hne. cbn [step]. destruct (listening s); [|done]. cbn [on_item]. by rewrite decide_True.
  - intros n r id Hc. cbn [step]. unfold timed_out. rewrite Hc. cbn. by rewrite lookup_delete_eq.
Qed.

(** How calls and readings fail: a call whose event the pool refuses returns but
    leaves its entry behind, one that every relay refuses takes its own entry and no
    other; after a shutdown nothing is cancelled and no answer is seen any more, so
    waiting calls end by their timeout; a client with no room for notifications
    panics when it is built; and one unknown encryption token makes the wallet's
    whole info event unreadable. *)
Theorem wallet_failures debug cfg s n r id :
  calls s !! n = Some (mkCall r id Sending) →
  (∀ e, let s' := step debug cfg s (Published n (Err e)) in
     pending s' = pending s ∧ returned s' = returned s ++ [mkReturn n r (Some id) (Err (PoolErr e))])
  ∧ (∀ out, is_total_failure out = true →
     let s' := step debug cfg s (Published n (Ok out)) in
     pending s' = delete id (pending s) ∧ sent s' = sent s
     ∧ returned s' = returned s ++ [mkReturn n r (Some id) (Err (PublishFailed (debug (failed out))))])
  ∧ (∀ items, let s' := run debug cfg s (Aborted :: (Item <$> items)) in
     pending s' = pending s ∧ sent s' = sent s ∧ calls s' = calls s)
  ∧ (∀ uri opts, notification_buffer opts = 0%N → build (Some uri) (Some (Ok tt)) opts = None)
  ∧ (∀ event token rest, Event.kind event = KIND_INFO → parse_token token = Err (UnknownEncryption token) → word token →
     Event.tags event = custom_tag ENCRYPTION_TAG [token] :: rest → from_event event = Err (UnknownEncryption token)).
Proof.
  intros Hc. cbn [step]. unfold published. rewrite Hc. split; [done|]. split; [intros out Hout; by rewrite Hout|]. split.
  { intros items. unfold run. cbn [foldl step].
    assert (∀ s', listening s' = false → foldl (step debug cfg) s' (Item <$> items) = s') as Hskip.
    { intros s' Hs'. induction items as [|i items IH]; [done|]. cbn [fmap list_fmap foldl step]. by rewrite Hs'. }
    by rewrite Hskip. }
  split; [intros uri opts Hb; unfold build; by rewrite Hb|].
  intros event token rest Hk Htok Hw Htags. unfold from_event. rewrite decide_False by (by rewrite Hk; intros []). rewrite Htags.
  cbn [visit_tags]. rewrite decide_False, decide_True by done. unfold parse_encryption_tag.
  change (Tag.get (custom_tag ENCRYPTION_TAG [token]) 1) with (Some token). cbv beta iota.
  pose proof (split_whitespace_join [token] (Forall_cons_2 _ _ _ Hw (Forall_nil_2 _))) as Hsp. change (Text.join " " [token]) with token in Hsp.
  rewrite Hsp. cbn [push_tokens]. by rewrite Htok.
Qed.
End runs.

Section addresses.
Context `{FasterHex, !FasterHexLaws, Secp256k1, SecretScalar, UrlCrate, !UrlCrateLaws, !UrlText, FormUrlEncoded, !FormLaws,
  EventCrypto, SerdeJson, !SerdeJsonLaws, JsonText, !JsonPlainText, JsonValues, !JsonValueLaws, !Nip44Crates, !Nip44Laws,
  Base64, !Base64Laws, AesCbc, !AesCbcLaws, !EventCryptoLaws}.

Lemma visit_wallet_relays rs acc pairs : Forall RelayUrl.normal rs →
  visit_pairs acc (((λ r, ("relay", RelayUrl.as_str r)) <$> rs) ++ pairs) =
  visit_pairs (mkParams (q_relays acc ++ rs) (q_secret acc) (q_lud16 acc)) pairs.
Proof.
  intros Hrs. revert acc. induction Hrs as [|r rs Hr _ IH]; intros acc; [rewrite app_nil_r; by destruct acc|].
  cbn [fmap list_fmap app visit_pairs visit_pair]. rewrite decide_True by done. rewrite RelayUrl.parse_as_str by done. cbn [map_err result_bind].
  rewrite IH. cbn. by rewrite <-app_assoc.
Qed.

Lemma sk_parse_to_hex sk : SecretKey.valid sk → SecretKey.parse (SecretKey.to_hex sk) = Ok sk.
Proof. intros Hv. unfold SecretKey.parse, SecretKey.to_hex. rewrite hex_decode_encode. by apply SecretKey.sk_from_slice. Qed.

Lemma uri_round u : uri_valid u → parse (to_uri u) = Ok u.
Proof.
  intros (Hpk & Hne & Hrs & Hsk & Hl). unfold parse, to_uri. rewrite Text.strip_prefix_app. cbn [ok_or result_bind].
  change (PublicKey.to_hex (wallet_pubkey u) +:+ "?" +:+ form_serialize (query_pairs_of u))
    with (PublicKey.to_hex (wallet_pubkey u) +:+ String "?" (form_serialize (query_pairs_of u))).
  rewrite split_once_app by (apply hex_chars; unfold PublicKey.to_hex; rewrite hex_encode_spec; apply Hex.fmt_lower_is_hex).
  rewrite decide_False.
  2:{ intros E. apply (f_equal String.length) in E. rewrite <-length_as_bytes in E. unfold PublicKey.to_hex in E.
      rewrite hex_encode_spec, Hex.length_fmt_lower, PublicKey.pk_length_to_byte_array in E. done. }
  rewrite PublicKey.pk_parse_to_hex by done. cbn [map_err result_bind].
  rewrite form_round.
  2:{ unfold query_pairs_of. apply Forall_app. split.
      - apply Forall_fmap, Forall_forall. intros r _. split; [by vm_compute|apply url_utf8].
      - apply Forall_app. split; [|destruct (lud16 u) as [l|]; [apply Forall_singleton; split; [by vm_compute|by apply Hl]|by apply Forall_nil_2]].
        apply Forall_singleton. split; [by vm_compute|]. apply Utf8.ascii_is_str, ascii_only_chars, hex_chars.
        unfold SecretKey.to_hex. rewrite hex_encode_spec. apply Hex.fmt_lower_is_hex. }
  unfold query_pairs_of. rewrite visit_wallet_relays by done. cbn [q_relays q_secret q_lud16 app].
  cbn [visit_pairs visit_pair]. rewrite decide_False, decide_True by done. rewrite sk_parse_to_hex by done. cbn [map_err result_bind q_relays q_lud16].
  destruct (lud16 u) as [l|] eqn:El; cbn [visit_pairs visit_pair app result_bind].
  - rewrite !decide_False, decide_True by done. cbn. destruct u as [pk [|r rs] sk lu]; [done|]. cbn in *. by subst.
  - cbn. destruct u as [pk [|r rs] sk lu]; [done|]. cbn in *. by subst.
Qed.

(** The words of an advert. *)
Definition info_ok (i : InfoEvent) : Prop := Forall word (methods i) ∧ Forall word (notifications i).

Lemma tokens_read es out : push_tokens (as_token <$> es) out = Ok (out ++ es).
Proof.
  revert out. induction es as [|e es IH]; intros out; cbn [fmap list_fmap push_tokens]; [by rewrite app_nil_r|].
  rewrite parse_as_token. cbn [result_bind]. rewrite IH. by rewrite <-app_assoc.
Qed.
Lemma tokens_words es : Forall word (as_token <$> es).
Proof. induction es as [|e es IH]; cbn; [constructor|]. constructor; [by destruct e; split|done]. Qed.
Lemma info_tags_read i : info_ok i → visit_tags (to_tags i) [] [] = Ok (notifications i, encryption_schemes i).
Proof.
  intros [_ Hn]. unfold to_tags. destruct i as [ms ns es]. cbn [notifications encryption_schemes] in *.
  assert (∀ acc, visit_tags (match ns with [] => [] | x :: l => [custom_tag NOTIFICATIONS_TAG [Text.join " " (x :: l)]] end) [] acc = Ok (ns, acc)) as Hns.
  { intros acc. destruct ns as [|n ns]; [done|]. cbn [visit_tags]. rewrite decide_True by done. unfold parse_notifications_tag.
    change (Tag.get (custom_tag NOTIFICATIONS_TAG [Text.join " " (n :: ns)]) 1) with (Some (Text.join " " (n :: ns))). cbv beta iota.
    by rewrite split_whitespace_join. }
  destruct es as [|e es]; cbn [app]; [apply Hns|]. cbn [visit_tags]. rewrite decide_False, decide_True by done.
  unfold parse_encryption_tag.
  change (Tag.get (custom_tag ENCRYPTION_TAG [Text.join " " (as_token <$> e :: es)]) 1) with (Some (Text.join " " (as_token <$> e :: es))).
  cbv beta iota. rewrite split_whitespace_join by apply tokens_words. rewrite tokens_read. cbn [result_bind app]. apply Hns.
Qed.

(** What either side writes the other reads: a connection address comes back as
    itself, an info event gives the advert it was built from, and a notification the
    wallet writes is what the client's listeners are given.  The encryption agreed on
    is one both accept, the newer where they can, or the older for a wallet that names
    none. *)
Theorem wallet_round_trip :
  (∀ u, uri_valid u → parse (to_uri u) = Ok u)
  ∧ (∀ i clock keys event, info_ok i → EventBuilder.sign_with_keys clock (nwc_info i) keys = Ok event → from_event event = Ok i)
  ∧ (∀ debug cfg s w draw clock n e builder event d, wallet cfg = xonly_public_key w → listening s = true →
       draw_ok draw → any_value d (payload n) → (S d ≤ RECURSION_LIMIT)%nat →
       nwc_notification draw w (xonly_public_key (client_keys cfg)) n e = Ok builder →
       EventBuilder.sign_with_keys clock builder w = Ok event →
       broadcast (step debug cfg s (Item (Ok event))) = broadcast s ++ [n])
  ∧ (∀ ws cs e, negotiate ws cs = Ok e →
       (ws = [] ∧ e = Nip47.Nip04) ∨ (e ∈ ws ∧ e ∈ cs ∧ (Nip44V2 ∈ ws → Nip44V2 ∈ cs → e = Nip44V2))).
Proof.
  split; [apply uri_round|]. split; [|split].
  - intros i clock keys event Hi (ts & _ & Ev)%EventBuilder.sign_Ok. rewrite Ev. unfold from_event. cbn [Event.kind Event.tags Event.content].
    assert (∀ tags b, EventBuilder.kind (foldl EventBuilder.add_tag b tags) = EventBuilder.kind b
      ∧ EventBuilder.content (foldl EventBuilder.add_tag b tags) = EventBuilder.content b
      ∧ Tags.items (EventBuilder.tags (foldl EventBuilder.add_tag b tags)) = Tags.items (EventBuilder.tags b) ++ tags) as Hf.
    { clear. intros tags. induction tags as [|t tags IH]; intros b; cbn [foldl]; [by rewrite app_nil_r|].
      destruct (IH (EventBuilder.add_tag b t)) as (-> & -> & ->). split; [done|]. split; [done|]. cbn. by rewrite <-app_assoc. }
    destruct (Hf (to_tags i) (EventBuilder.new KIND_INFO (content i))) as (Hk & Hc & Ht). unfold nwc_info. rewrite Hk, Hc, Ht.
    rewrite decide_False by (by intros []). change (Tags.items (EventBuilder.tags (EventBuilder.new KIND_INFO (content i))) ++ to_tags i) with (to_tags i).
    rewrite info_tags_read by done. cbn [result_bind fst snd]. change (EventBuilder.content (EventBuilder.new KIND_INFO (content i))) with (content i).
    unfold content. destruct Hi as [Hm _]. rewrite split_whitespace_join by done. by destruct i.
  - intros debug cfg s w draw clock n e builder event d Hw Hl Hdr Hv Hd Hb Hs.
    destruct (notification_opens _ _ _ _ _ _ _ _ d Hd Hdr Hv Hb Hs) as (Hpk & Hdec & Hk).
    cbn [step]. rewrite Hl. unfold on_item. rewrite decide_False by (rewrite Hpk, Hw; by intros []).
    rewrite decide_False by (by destruct Hk as [->| ->]).
    assert (bool_decide (Event.kind event = KIND_NOTIFICATION) || bool_decide (Event.kind event = KIND_NOTIFICATION_LEGACY) = true) as ->.
    { destruct Hk as [->| ->]; vm_compute; reflexivity. }
    by rewrite Hdec.
  - intros ws cs e. unfold negotiate. destruct ws as [|x ws]; [intros [= <-]; by left|]. intros Hneg. right.
    destruct (decide (Nip44V2 ∈ x :: ws ∧ Nip44V2 ∈ cs)) as [[Hw Hc]|Hno].
    { rewrite (bool_decide_true (Nip44V2 ∈ x :: ws)), (bool_decide_true (Nip44V2 ∈ cs)) in Hneg by done. cbn in Hneg. injection Hneg as <-. tauto. }
    assert (bool_decide (Nip44V2 ∈ x :: ws) && bool_decide (Nip44V2 ∈ cs) = false) as E.
    { rewrite <-bool_decide_and. by apply bool_decide_eq_false. }
    rewrite E, <-bool_decide_and in Hneg. destruct (decide (Nip47.Nip04 ∈ x :: ws ∧ Nip47.Nip04 ∈ cs)) as [[Hw Hc]|Hold];
      [|by rewrite bool_decide_false in Hneg].
    rewrite bool_decide_true in Hneg by done. injection Hneg as <-. split; [done|]. split; [done|]. intros; by destruct Hno.
Qed.
End addresses.

(** ** Instances *)

(** An object as the finite map of its keys. *)
Fixpoint normal_json (v : Json) : Json :=
  match v with
  | JArr vs => JArr (map normal_json vs)
  | JObj es => JObj (map_to_list (list_to_map (map (λ e, (e.1, normal_json e.2)) es) : gmap string Json))
  | v => v
  end.
#[local] Instance map_values : JsonValues := {| to_value v := Some (normal_json v) |}.

Lemma keys_same (es es' : list (string * Json)) : Forall2 (λ e e' : string * Json, e.1 = e'.1 ∧ same_value e.2 e'.2) es es' → es.*1 = es'.*1.
Proof. induction 1 as [|e e' es es' [He _] _ IH]; cbn; [done|by rewrite He, IH]. Qed.
Lemma keys_normal (es : list (string * Json)) : (map (λ e : string * Json, (e.1, normal_json e.2)) es).*1 = es.*1.
Proof. induction es as [|e es IH]; cbn; [done|by rewrite IH]. Qed.

Lemma normal_same d v : json_plain d v = true → same_value v (normal_json v).
Proof.
  revert v. induction d as [|d IH]; intros v Hp; (destruct v as [| | | | |vs|es]; try (by constructor); try done).
  - apply same_arr. cbn [json_plain] in Hp. induction vs as [|v vs IHvs]; [constructor|]. cbn in Hp |- *.
    apply andb_prop in Hp as [Hv Hp]. constructor; [by apply IH|by apply IHvs].
  - cbn [json_plain] in Hp. apply andb_prop in Hp as [Hnd%bool_decide_eq_true Hp]. eapply same_obj.
    2:{ symmetry. apply map_to_list_to_map. by rewrite keys_normal. }
    clear Hnd. induction es as [|e es IHes]; [constructor|]. cbn in Hp |- *. apply andb_prop in Hp as [He Hp].
    constructor; [split; [done|by apply IH]|by apply IHes].
Qed.
Lemma normal_canon d v v' : json_plain d v = true → same_value v v' → normal_json v = normal_json v'.
Proof.
  revert v v'. induction d as [|d IH]; intros v v' Hp Hs; inversion Hs as [|vs vs' Hvs|es es' es'' Hes Hperm]; subst; try done.
  - cbn [normal_json]. f_equal. cbn [json_plain] in Hp. clear Hs. induction Hvs as [|x y vs vs' Hxy _ IHvs]; [done|]. cbn in *.
    apply andb_prop in Hp as [Hx Hp]. by rewrite (IH x y Hx Hxy), IHvs.
  - cbn [normal_json json_plain] in *. apply andb_prop in Hp as [Hnd%bool_decide_eq_true Hp]. do 2 f_equal.
    assert (map (λ e, (e.1, normal_json e.2)) es = map (λ e, (e.1, normal_json e.2)) es') as ->.
    { clear Hs Hperm Hnd. induction Hes as [|x y es es' [Hk Hxy] _ IHes]; [done|]. cbn in *. apply andb_prop in Hp as [Hx Hp].
      by rewrite Hk, (IH _ _ Hx Hxy), IHes. }
    apply list_to_map_proper.
    + rewrite keys_normal, <-(keys_same _ _ Hes). done.
    + by apply Permutation_map.
Qed.
#[local] Instance map_value_laws : JsonValueLaws.
Proof.
  split.
  - intros d v Hp. exists (normal_json v). split; [done|by eapply normal_same].
  - intros d v v' Hp Hs. cbn. by rewrite (normal_canon d v v').
Qed.

#[local] Instance text_plain : JsonPlainText.
Proof.
  split.
  - intros v _. cbn [json_from_slice text_json json_to_string text_serde]. unfold as_bytes.
    by rewrite String.string_of_list_byte_of_string, read_json_text.
  - intros v. apply Utf8.ascii_is_str, json_text_ascii.
Qed.

Definition form_text (p : string * string) : string := Uri.url_encode p.1 +:+ String "=" (Uri.url_encode p.2).
Definition read_form (s : string) : string * string :=
  match Text.split_once "=" s with
  | Some (k, v) => (percent_decode k, percent_decode v)
  | None => (percent_decode s, EmptyString)
  end.
#[local] Instance text_form : FormUrlEncoded := {|
  form_parse q := match q with EmptyString => [] | q => read_form <$> Text.split "&" q end;
  form_serialize pairs := Text.join "&" (form_text <$> pairs);
|}.
#[local] Instance text_form_laws : FormLaws.
Proof.
  intros pairs _. cbn [form_parse form_serialize text_form].
  assert (∀ p, no_char "&" (form_text p) = true ∧ read_form (form_text p) = p) as Hp.
  { intros [k v]. unfold form_text, read_form. cbn [fst snd]. split.
    - rewrite no_char_app. cbn [no_char]. rewrite !(string_forallb_no_char "&" query_char) by (done || apply url_encode_chars). done.
    - rewrite split_once_app by (apply (string_forallb_no_char _ query_char); [done|apply url_encode_chars]).
      by rewrite !percent_decode_encode. }
  destruct pairs as [|p ps]; [done|]. destruct (Text.join "&" (form_text <$> p :: ps)) as [|c q] eqn:Ej.
  - exfalso. assert (form_text p ≠ EmptyString) as Hne by (unfold form_text; by destruct (Uri.url_encode p.1)).
    apply Hne. destruct ps as [|q ps]; [exact Ej|].
    change (form_text p +:+ String "&" (Text.join "&" (form_text <$> q :: ps)) = EmptyString) in Ej. by destruct (form_text p).
  - rewrite <-Ej, split_join.
    + rewrite <-list_fmap_compose. rewrite (list_fmap_ext _ id); [apply list_fmap_id|]. intros i x _. apply Hp.
    + done.
    + apply Forall_fmap, Forall_forall. intros x _. apply Hp.
Qed.

(** Alice pays an invoice from Bob's wallet. *)
#[local] Existing Instance sample_secp.

Definition payer : Config := mkConfig alice_keys (xonly_public_key bob_keys) [sample_relay] None default_options.
Definition payer_draws : Draws := mkDraws (mkEntropy (Ok (bytes32_of_N 9)) (Ok (replicate 16 x01))) (Some 1000%N).
Definition wallet_draws : Entropy := mkEntropy (Ok (bytes32_of_N 10)) (Ok (replicate 16 x02)).
Definition bill : PayInvoiceRequest.t := PayInvoiceRequest.set_amount (PayInvoiceRequest.new "lnbc1") 21.
Definition receipt : PayInvoiceResponse.t := PayInvoiceResponse.mk "0011" (Some 1%N).

Lemma payer_draw_ok : draw_ok (entropy payer_draws) ∧ draw_ok wallet_draws.
Proof. split; intros b [= <-]; reflexivity. Qed.
Abbreviation bill_request := (mkRequest "pay_invoice" (normal_json (ser bill))).
Abbreviation paid_response := (mkResponse "pay_invoice" None (Some (normal_json (ser receipt)))).
Abbreviation bill_event := (request_event payer payer_draws bill_request).
Lemma bill_event_Ok : ∃ e, bill_event = Ok e.
Proof. apply result_ok_Ok. vm_compute. eexists. reflexivity. Qed.
Abbreviation receipt_builder e :=
  (nwc_response wallet_draws bob_keys (Event.pubkey e) (Event.id e) paid_response Nip44V2).
Lemma receipt_event_Ok e : bill_event = Ok e → ∃ b reply, receipt_builder e = Ok b
  ∧ EventBuilder.sign_with_keys (Some 1001%N) b bob_keys = Ok reply.
Proof.
  intros He. assert (Event.pubkey e = xonly_public_key alice_keys) as Hpk.
  { unfold request_event in He. destruct (nwc_request _ _ _ _ _ _) as [b|]; cbn in He; [|done].
    destruct (EventBuilder.sign_with_keys _ _ _) as [ev|] eqn:Es; cbn in He; [|done]. injection He as ->.
    by apply EventBuilder.sign_Ok in Es as (ts & _ & ->). }
  rewrite Hpk. unfold nwc_response.
  assert (∃ ct, encrypt_with wallet_draws Nip44V2 bob_keys (xonly_public_key alice_keys) (to_text paid_response) = Ok ct) as [ct ->].
  { apply result_ok_Ok. vm_compute. eexists. reflexivity. }
  cbn [result_bind]. eexists. eexists. split; [reflexivity|]. reflexivity.
Qed.

Lemma wallet_call_answered_witness :
  ∃ e reply, returned (run no_debug payer initial
      [Start payer_draws bill_request; Published 0 (Ok accepted_everywhere); Item (Ok reply); Received 0])
    = [] ++ [mkReturn 0 bill_request (Some (Event.id e)) (Ok paid_response)]
    ∧ pay_invoice_result (Ok paid_response) = Ok receipt.
Proof.
  destruct bill_event_Ok as [e E]. destruct (receipt_event_Ok e E) as (b & reply & Hb & Hr). destruct payer_draw_ok as [Hd Hd'].
  exists e, reply.
  destruct (wallet_call_answered (P := PayInvoiceRequest.t) (R := PayInvoiceResponse.t) (dP := 1) (dR := 0)
    (okP := λ r, opt_u64 (PayInvoiceRequest.amount r)) (okR := λ r, opt_u64 (PayInvoiceResponse.fees_paid r))
    no_debug payer bob_keys [] payer_draws "pay_invoice" bill bill_request e accepted_everywhere (Ok receipt) paid_response
    wallet_draws Nip44V2 b (Some 1001%N) reply ltac:(apply Nat.leb_le; reflexivity) ltac:(apply Nat.leb_le; reflexivity)
    eq_refl eq_refl Hd Hd' ltac:(intros n [= <-]; apply N.leb_le; reflexivity) eq_refl E eq_refl ltac:(reflexivity)
    ltac:(intros x [= <-]; intros n [= <-]; apply N.leb_le; reflexivity) ltac:(discriminate) eq_refl Hb Hr)
    as (_ & (_ & Hret & _) & Hres).
  split; [exact Hret|exact Hres].
Defined.

Lemma wallet_failures_witness :
  ∃ s id, calls s !! 0%nat = Some (mkCall bill_request id Sending)
    ∧ pending (step no_debug payer s (Published 0 (Err PoolIsShutdown))) = pending s ∧ pending s !! id = Some 0%nat.
Proof.
  destruct bill_event_Ok as [e E]. exists (step no_debug payer initial (Start payer_draws bill_request)), (Event.id e).
  assert (step no_debug payer initial (Start payer_draws bill_request) =
    mkInner (<[Event.id e := 0%nat]> ∅) true [] [] (<[0%nat := mkCall bill_request (Event.id e) Sending]> ∅) 1 [e] []) as Es.
  { cbn [step]. unfold dispatch. rewrite E. reflexivity. }
  rewrite Es. cbn [calls pending]. rewrite !lookup_insert_eq. split; [reflexivity|]. split; [|reflexivity].
  exact (proj1 (proj1 (wallet_failures no_debug payer _ 0 bill_request (Event.id e) (lookup_insert_eq _ _ _)) PoolIsShutdown)).
Defined.

#[local] Instance any_scalar : SecretScalar := {| scalar_valid _ := true |}.
Definition wallet_address : ConnectionUri :=
  mkUri (xonly_public_key bob_keys) [sample_relay] (SecretKey.mk (bytes32_of_N 7)) (Some "a&b@c").
Lemma wallet_round_trip_witness : parse (to_uri wallet_address) = Ok wallet_address.
Proof.
  apply (proj1 wallet_round_trip). split; [reflexivity|]. split; [discriminate|]. split; [|split; [reflexivity|]].
  - apply Forall_singleton. split; [right; reflexivity|by eexists|reflexivity|discriminate].
  - intros l [= <-]. reflexivity.
Defined.
