(* ===== verification/Parser.v ===== *)
(** * The content parser ([nula-core/src/parser.rs])

    One pass over a text that recognises line breaks, hashtags, [nostr:] addresses
    and URLs.  Positions are byte offsets, as in the code; a slice off a character
    boundary is the [None] or the panic it is in Rust. *)

From Stdlib Require Import Ascii NArith Lia.
From S2P Require Import Prelude Encoding Text Ids Tags Event Filter FilterWire Nips Message HttpAuth Entities Samples.
From S2P Require Import RelaySamples EntityTheorems.

(** [bech32::Fe32::from_char] on an ASCII character. *)
Class Fe32Crate := { fe32_char : byte → bool }.
(** The characters of a bech32 string are ASCII letters and digits. *)
Class Fe32Laws `{Fe32Crate} : Prop :=
  fe32_alphanumeric : ∀ b, fe32_char b = true →
    ((48 <=? Byte.to_N b) && (Byte.to_N b <=? 57) || (65 <=? Byte.to_N b) && (Byte.to_N b <=? 90)
     || (97 <=? Byte.to_N b) && (Byte.to_N b <=? 122))%N = true.
Arguments Fe32Laws : clear implicits.
Arguments Fe32Laws {_}.

(** ** Slices of a [str] *)

Definition as_str (bs : list byte) : string := String.string_of_list_byte bs.

(** [str::is_char_boundary]. *)
Definition boundary (bs : list byte) (i : nat) : bool :=
  match i with
  | O => true
  | _ => match bs !! i with Some b => negb (Utf8.continuation b) | None => Nat.eqb i (length bs) end
  end.
(** [str::get] of a range; of a range to the end. *)
Definition str_get (bs : list byte) (a b : nat) : option (list byte) :=
  if (a <=? b)%nat && boundary bs a && boundary bs b then Some (take (b - a) (drop a bs)) else None.
Definition str_from (bs : list byte) (a : nat) : option (list byte) := if boundary bs a then Some (drop a bs) else None.
(** [slice::get] of a range. *)
Definition byte_range (bs : list byte) (a b : nat) : option (list byte) :=
  if (a <=? b)%nat && (b <=? length bs)%nat then Some (take (b - a) (drop a bs)) else None.

(** The length of a character from its first byte, and the first character. *)
Definition char_width (lead : byte) : nat :=
  let n := Byte.to_N lead in
  if (n <? 128)%N then 1 else if (n <? 224)%N then 2 else if (n <? 240)%N then 3 else 4.
Definition first_char (bs : list byte) : option (list byte) :=
  match bs with [] => None | lead :: _ => Some (take (char_width lead) bs) end.

(** [while let Some(&b) = bytes.get(end) { if p(b) { end += 1 } else { break } }]. *)
Fixpoint scan (p : byte → bool) (bs : list byte) : nat :=
  match bs with b :: bs => if p b then S (scan p bs) else 0 | [] => 0 end.

(** ** Characters *)

Definition in_range (lo hi : N) (b : byte) : bool := ((lo <=? Byte.to_N b) && (Byte.to_N b <=? hi))%N.
Definition is_ascii_digit (b : byte) : bool := in_range 48 57 b.
Definition is_ascii_lowercase (b : byte) : bool := in_range 97 122 b.
Definition is_ascii_alphabetic (b : byte) : bool := in_range 65 90 b || is_ascii_lowercase b.
Definition is_ascii_alphanumeric (b : byte) : bool := is_ascii_alphabetic b || is_ascii_digit b.
Definition is_ascii_whitespace (b : byte) : bool := existsb (Byte.eqb b) [x20; x09; x0a; x0c; x0d].

Definition one_of (s : string) (b : byte) : bool := existsb (Byte.eqb b) (as_bytes s).

(** [char::is_control]: the category Cc. *)
Definition is_control (ch : list byte) : bool :=
  match ch with
  | [b] => (Byte.to_N b <? 32)%N || (Byte.to_N b =? 127)%N
  | [a; b] => Byte.eqb a xc2 && in_range 128 159 b
  | _ => false
  end.

Definition is_forbidden_hashtag_char (ch : list byte) : bool :=
  if Text.is_whitespace (as_str ch) || is_control ch then true
  else match ch with [b] => one_of ".,!?()[]{}'@#;:&*+=<>/\|^~%$`" b || Byte.eqb b x22 | _ => false end.

Definition is_allowed_url_byte (b : byte) : bool := is_ascii_alphanumeric b || one_of "-._~:/?#[]@!$&'()*+,;=%" b.
Definition is_url_trailing_punct (b : byte) : bool := one_of ".,;:!?]}" b.

(** [None] is the panic of a slice that starts inside a character. *)
Definition utf8_step (text : list byte) (byte_index : nat) : option nat :=
  rest ← str_from text byte_index; Some (match first_char rest with Some ch => length ch | None => 1 end).

(** ** The parser *)

Module Parser.

Inductive MatchKind := MLineBreak | MHashtag | MNostrUri | MUrl.
Record Match := mkMatch { kind : MatchKind; start : nat; end_ : nat }.
Definition line_break (at_ : nat) : Match := mkMatch MLineBreak at_ (at_ + 1).
Definition hashtag (start end_ : nat) : Match := mkMatch MHashtag start end_.
Definition nostr (start end_ : nat) : Match := mkMatch MNostrUri start end_.
Definition url (start end_ : nat) : Match := mkMatch MUrl start end_.

Record NostrParserOptions := mkOptions {
  parse_nostr_uris : bool;
  parse_urls : bool;
  parse_hashtags : bool;
  emit_line_breaks : bool;
}.
Definition all_enabled : NostrParserOptions := mkOptions true true true true.
Definition all_disabled : NostrParserOptions := mkOptions false false false false.
Definition nostr_uris (o : NostrParserOptions) (enabled : bool) : NostrParserOptions :=
  mkOptions enabled (parse_urls o) (parse_hashtags o) (emit_line_breaks o).
Definition urls (o : NostrParserOptions) (enabled : bool) : NostrParserOptions :=
  mkOptions (parse_nostr_uris o) enabled (parse_hashtags o) (emit_line_breaks o).
Definition hashtags (o : NostrParserOptions) (enabled : bool) : NostrParserOptions :=
  mkOptions (parse_nostr_uris o) (parse_urls o) enabled (emit_line_breaks o).
Definition line_breaks (o : NostrParserOptions) (enabled : bool) : NostrParserOptions :=
  mkOptions (parse_nostr_uris o) (parse_urls o) (parse_hashtags o) enabled.

(** *** Matching at a position *)

(** The end of a hashtag's body: characters up to a forbidden one. *)
Fixpoint hashtag_end (fuel : nat) (text : list byte) (end_ : nat) : option nat :=
  match fuel with
  | O => Some end_
  | S fuel =>
      if (end_ <? length text)%nat then
        rest ← str_from text end_; ch ← first_char rest;
        if is_forbidden_hashtag_char ch then Some end_ else hashtag_end fuel text (end_ + length ch)
      else Some end_
  end.

Definition try_hashtag (text : list byte) (start : nat) : option Match :=
  b ← text !! start;
  if negb (Byte.eqb b x23) then None
  else if (0 <? start)%nat && match text !! (start - 1)%nat with Some prev => negb (is_ascii_whitespace prev) | None => false end
  then None
  else
    e ← hashtag_end (length text) text (start + 1);
    if Nat.eqb e (start + 1) then None else Some (hashtag start e).

Fixpoint trim_punct (text : list byte) (lo end_ : nat) : nat :=
  match end_ with
  | O => O
  | S e =>
      if (lo <? S e)%nat && match text !! e with Some b => is_url_trailing_punct b | None => false end
      then trim_punct text lo e else S e
  end.

Definition count_byte (b : byte) (bs : list byte) : nat := length (filter (λ x, x = b) bs).

(** An unmatched closing parenthesis at the end is left out. *)
Definition balance (text : list byte) (start end_ : nat) : nat :=
  if (start <? end_)%nat && bool_decide (text !! (end_ - 1)%nat = Some x29) then
    match byte_range text start end_ with
    | Some url_bytes => if (count_byte x28 url_bytes <? count_byte x29 url_bytes)%nat then end_ - 1 else end_
    | None => end_
    end
  else end_.

Definition try_url (text : list byte) (start : nat) : option Match :=
  b ← text !! start;
  if negb (is_ascii_alphabetic b) then None
  else
    let after_scheme :=
      start + 1 + scan (λ b, is_ascii_alphanumeric b || one_of "+-." b) (drop (start + 1) text) in
    if negb (bool_decide (byte_range text after_scheme (after_scheme + 3) = Some (as_bytes "://"))) then None
    else
      let lo := after_scheme + 3 in
      let e := lo + scan (λ b, negb (is_ascii_whitespace b || negb (is_allowed_url_byte b))) (drop lo text) in
      if (e <=? lo)%nat then None else Some (url start (balance text start (trim_punct text lo e))).

Section parser.
Context `{FasterHex, Secp256k1, SecretScalar, UrlCrate, Bech32Crate, !UrlBase, Fe32Crate}.

Inductive Token :=
| TText (s : list byte)
| TNostr (v : Nip21.Nip21)
| TUrl (u : Url.t)
| THashtag (body : list byte)
| TLineBreak.

Definition try_nostr_uri (text : list byte) (start : nat) : option Match :=
  let prefix := as_bytes Nip21.SCHEME_PREFIX in
  if negb (bool_decide (byte_range text start (start + length prefix) = Some prefix)) then None
  else
    let body_start := start + length prefix in
    let e := body_start + scan (λ b, is_ascii_lowercase b || Byte.eqb b x31 || fe32_char b) (drop body_start text) in
    if Nat.eqb e body_start then None else Some (nostr start e).

Definition match_at (o : NostrParserOptions) (text : list byte) (search : nat) : option Match :=
  if emit_line_breaks o && bool_decide (text !! search = Some x0a) then Some (line_break search)
  else
    match (if parse_hashtags o then try_hashtag text search else None) with
    | Some m => Some m
    | None =>
        match (if parse_nostr_uris o then try_nostr_uri text search else None) with
        | Some m => Some m
        | None => if parse_urls o then try_url text search else None
        end
    end.

(** The first match at or after a position; the outer [None] is a panic. *)
Fixpoint next_match (fuel : nat) (o : NostrParserOptions) (text : list byte) (search : nat) : option (option Match) :=
  match fuel with
  | O => Some None
  | S fuel =>
      if (search <? length text)%nat then
        match match_at o text search with
        | Some m => Some (Some m)
        | None => step ← utf8_step text search; next_match fuel o text (search + step)
        end
      else Some None
  end.

Definition materialise (text : list byte) (m : Match) : Token :=
  match str_get text (start m) (end_ m) with
  | None => TText []
  | Some slice =>
      match kind m with
      | MLineBreak => TLineBreak
      | MHashtag => match str_get slice 1 (length slice) with Some body => THashtag body | None => TText slice end
      | MNostrUri => match Nip21.parse (as_str slice) with Ok v => TNostr v | Err _ => TText slice end
      | MUrl => match Url.parse (as_str slice) with Ok u => TUrl u | Err _ => TText slice end
      end
  end.

Record NostrParserIter := mkIter {
  text : list byte;
  pos : nat;
  opts : NostrParserOptions;
  pending : option Match;
}.
Definition parse (s : string) (o : NostrParserOptions) : NostrParserIter := mkIter (as_bytes s) 0 o None.

(** [Iterator::next]: the token, if any, and the iterator after it; [None] is a panic. *)
Definition next (it : NostrParserIter) : option (option Token * NostrParserIter) :=
  let '(mkIter text pos o pending) := it in
  match pending with
  | Some m => Some (Some (materialise text m), mkIter text (end_ m) o None)
  | None =>
      if (length text <=? pos)%nat then Some (None, it)
      else
        found ← next_match (length text) o text pos;
        match found with
        | Some m =>
            if (pos <? start m)%nat then
              Some (match str_get text pos (start m) with
                    | Some gap => (Some (TText gap), mkIter text (start m) o (Some m))
                    | None => (None, it)
                    end)
            else Some (Some (materialise text m), mkIter text (end_ m) o None)
        | None =>
            Some (match str_from text pos with
                  | Some rest => (Some (TText rest), mkIter text (length text) o None)
                  | None => (None, it)
                  end)
        end
  end.

(** All tokens: [next] until it gives none. *)
Fixpoint collect (fuel : nat) (it : NostrParserIter) : option (list Token) :=
  match fuel with
  | O => None
  | S fuel =>
      '(tok, it') ← next it;
      match tok with
      | None => Some []
      | Some t => ts ← collect fuel it'; Some (t :: ts)
      end
  end.
End parser.
End Parser.

(** ** The content parser loses nothing

    Every text is cut at character boundaries into slices that make it up again, one
    per token; the parser never panics and always comes to an end. *)

(** ** Valid text, character by character *)

Definition is_char (c : list byte) : Prop :=
  ∃ lead tail, c = lead :: tail ∧ Utf8.continuation lead = false ∧ Forall (λ b, Utf8.continuation b = true) tail
    ∧ length c = char_width lead.

Inductive utf8 : list byte → Prop :=
| utf8_nil : utf8 []
| utf8_cons c rest : is_char c → utf8 rest → utf8 (c ++ rest).

Lemma validate_utf8 i bs : Utf8.validate i bs = Ok tt → utf8 bs.
Proof.
  revert i. induction bs as [bs IH] using (induction_ltof1 _ (@length byte)). unfold ltof in IH. intros i.
  destruct bs as [|a bs]; [constructor|]. cbn [Utf8.validate].
  assert (∀ c rest j, a :: bs = c ++ rest → is_char c → Utf8.validate j rest = Ok tt → utf8 (a :: bs)) as Hgo.
  { intros c rest j E Hc Hv. assert (length rest < length (a :: bs))%nat as Hl.
    { rewrite E, length_app. destruct Hc as (l & t & -> & _). cbn. lia. }
    rewrite E. constructor; [done|]. by apply (IH rest Hl j). }
  destruct (Byte.to_N a <? 128)%N eqn:E1.
  { intros Hv. apply (Hgo [a] bs (i + 1)%nat); [done| |done]. exists a, []. split; [done|]. split; [|split; [constructor|]].
    - unfold Utf8.continuation, Utf8.within. apply N.ltb_lt in E1. apply andb_false_intro1, N.leb_gt. lia.
    - unfold char_width. by rewrite E1. }
  destruct (Utf8.within 194 223 a) eqn:E2.
  { destruct bs as [|b bs]; [done|]. destruct (Utf8.continuation b) eqn:Eb; [|done]. intros Hv.
    apply (Hgo [a; b] bs (i + 2)%nat); [done| |done]. exists a, [b]. split; [done|].
    unfold Utf8.within in E2. apply andb_prop in E2 as [?%N.leb_le ?%N.leb_le]. split; [|split; [by repeat constructor|]].
    - unfold Utf8.continuation, Utf8.within. apply andb_false_intro2, N.leb_gt. lia.
    - unfold char_width. rewrite E1. destruct (N.ltb_spec (Byte.to_N a) 224); [done|lia]. }
  destruct (Utf8.within 224 239 a) eqn:E3.
  { destruct bs as [|b bs]; [done|]. destruct (Utf8.second_of_three a b) eqn:Eb; [|done].
    destruct bs as [|c bs]; [done|]. destruct (Utf8.continuation c) eqn:Ec; [|done]. intros Hv.
    apply (Hgo [a; b; c] bs (i + 3)%nat); [done| |done]. exists a, [b; c]. split; [done|].
    unfold Utf8.within in E3. apply andb_prop in E3 as [?%N.leb_le ?%N.leb_le]. split; [|split].
    - unfold Utf8.continuation, Utf8.within. apply andb_false_intro2, N.leb_gt. lia.
    - repeat constructor; [|done]. revert Eb. unfold Utf8.second_of_three, Utf8.continuation, Utf8.within.
      rewrite !orb_true_iff, !andb_true_iff, !N.leb_le. lia.
    - unfold char_width. rewrite E1. destruct (N.ltb_spec (Byte.to_N a) 224); [lia|].
      destruct (N.ltb_spec (Byte.to_N a) 240); [done|lia]. }
  destruct (Utf8.within 240 244 a) eqn:E4; [|done].
  destruct bs as [|b bs]; [done|]. destruct (Utf8.second_of_four a b) eqn:Eb; [|done].
  destruct bs as [|c bs]; [done|]. destruct (Utf8.continuation c) eqn:Ec; [|done].
  destruct bs as [|d bs]; [done|]. destruct (Utf8.continuation d) eqn:Ed; [|done]. intros Hv.
  apply (Hgo [a; b; c; d] bs (i + 4)%nat); [done| |done]. exists a, [b; c; d]. split; [done|].
  unfold Utf8.within in E4. apply andb_prop in E4 as [?%N.leb_le ?%N.leb_le]. split; [|split].
  - unfold Utf8.continuation, Utf8.within. apply andb_false_intro2, N.leb_gt. lia.
  - repeat constructor; [|done|done]. revert Eb. unfold Utf8.second_of_four, Utf8.continuation, Utf8.within.
    rewrite !orb_true_iff, !andb_true_iff, !N.leb_le. lia.
  - unfold char_width. rewrite E1. destruct (N.ltb_spec (Byte.to_N a) 224); [lia|].
    destruct (N.ltb_spec (Byte.to_N a) 240); [lia|done].
Qed.

(** ** Boundaries *)

Lemma boundary_le bs i : boundary bs i = true → (i ≤ length bs)%nat.
Proof.
  destruct i as [|i]; [lia|]. unfold boundary. destruct (bs !! S i) as [b|] eqn:E; [intros _|intros ?%Nat.eqb_eq; lia].
  apply lookup_lt_Some in E. lia.
Qed.
Lemma boundary_end bs : boundary bs (length bs) = true.
Proof. unfold boundary. destruct bs as [|b bs]; [done|]. rewrite lookup_ge_None_2 by done. by rewrite Nat.eqb_refl. Qed.

Lemma utf8_head d rest : utf8 (d :: rest) → Utf8.continuation d = false.
Proof.
  remember (d :: rest) as bs eqn:E. destruct 1 as [|c r (l & t & -> & Hl & _) _]; [done|]. injection E as -> _. done.
Qed.

(** At a boundary a character starts, and the next one behind it. *)
Lemma boundary_char bs i : utf8 bs → boundary bs i = true → (i < length bs)%nat →
  ∃ c rest, drop i bs = c ++ rest ∧ is_char c ∧ boundary bs (i + length c) = true ∧ first_char (drop i bs) = Some c.
Proof.
  intros Hu. revert i. induction Hu as [|c rest Hc Hr IH]; intros i Hb Hi; [cbn in Hi; lia|].
  assert (∀ r, first_char (c ++ r) = Some c) as Hfc.
  { intros r. destruct Hc as (l & t & -> & _ & _ & Hw). cbn [app first_char]. rewrite <-Hw. f_equal.
    change (l :: t ++ r) with ((l :: t) ++ r). by rewrite take_app_length. }
  assert (∀ j, boundary (c ++ rest) (length c + j) = boundary rest j) as Hshift.
  { intros j. destruct Hc as (l & t & -> & Hl & _ & Hw). destruct j as [|j].
    - rewrite Nat.add_0_r. unfold boundary at 1. cbn [length]. rewrite lookup_app_r by (cbn; lia).
      cbn [length]. rewrite Nat.sub_diag. destruct rest as [|d rest].
      + cbn. rewrite app_nil_r. apply Nat.eqb_refl.
      + cbn. by rewrite (utf8_head d rest Hr).
    - unfold boundary. replace (length (l :: t) + S j)%nat with (S (length t + S j))%nat by (cbn; lia).
      rewrite lookup_app_r by (cbn; lia). replace (S (length t + S j) - length (l :: t))%nat with (S j) by (cbn; lia).
      destruct (rest !! S j); [done|]. apply Bool.eq_iff_eq_true. rewrite !Nat.eqb_eq, length_app. cbn [length]. lia. }
  destruct (decide (i = 0)%nat) as [->|Hi0].
  { exists c, rest. cbn [drop]. split; [done|]. split; [done|]. split; [|apply Hfc].
    rewrite Nat.add_0_l, <-(Nat.add_0_r (length c)), Hshift. done. }
  destruct (decide (i < length c)%nat) as [Hlt|Hge].
  { exfalso. destruct Hc as (l & t & -> & _ & Ht & _). destruct i as [|i]; [lia|]. unfold boundary in Hb.
    rewrite lookup_app_l in Hb by done. cbn in Hb, Hlt. destruct (t !! i) as [b|] eqn:Eb.
    - rewrite Forall_lookup in Ht. by rewrite (Ht _ _ Eb) in Hb.
    - apply lookup_ge_None in Eb. lia. }
  replace i with (length c + (i - length c))%nat in Hb |- * by lia. rewrite Hshift in Hb.
  destruct (IH (i - length c)%nat Hb) as (c' & r' & Ed & Hc' & Hb' & Hf'); [rewrite length_app in Hi; lia|].
  rewrite drop_app_add. exists c', r'. split; [done|]. split; [done|]. split; [|done].
  rewrite <-Nat.add_assoc, Hshift. done.
Qed.

Lemma is_char_pos c : is_char c → (0 < length c)%nat.
Proof. intros (l & t & -> & _). cbn. lia. Qed.

(** Behind an ASCII byte there is a boundary. *)
Definition ascii (b : byte) : Prop := (Byte.to_N b < 128)%N.
Lemma boundary_ascii bs i b : utf8 bs → boundary bs i = true → bs !! i = Some b → ascii b → boundary bs (S i) = true.
Proof.
  intros Hu Hb Hi Ha. destruct (boundary_char bs i Hu Hb) as (c & r & Ed & (l & t & -> & _ & _ & Hw) & Hb' & _).
  { by eapply lookup_lt_Some. }
  assert (l = b) as ->.
  { apply (f_equal (λ x, x !! 0%nat)) in Ed. rewrite lookup_drop, Nat.add_0_r, Hi in Ed. by injection Ed. }
  unfold char_width in Hw. apply N.ltb_lt in Ha. rewrite Ha in Hw. rewrite Hw in Hb'.
  replace (S i) with (i + 1)%nat by lia. done.
Qed.

(** A run of ASCII bytes other than line feeds. *)
Definition run (bs : list byte) (a b : nat) : Prop :=
  ∀ j, (a ≤ j < b)%nat → ∃ x, bs !! j = Some x ∧ ascii x ∧ x ≠ x0a.
Lemma run_boundary bs a b : utf8 bs → boundary bs a = true → run bs a b → (a ≤ b)%nat → boundary bs b = true.
Proof.
  intros Hu Ha Hr Hab. induction Hab as [|b Hab IH]; [done|].
  destruct (Hr b) as (x & Hx & Hax & _); [lia|]. eapply boundary_ascii; [done| |done|done].
  apply IH. intros j Hj. apply Hr. lia.
Qed.
Lemma run_app bs a b c : run bs a b → run bs b c → run bs a c.
Proof. intros H1 H2 j Hj. destruct (decide (j < b)%nat); [apply H1|apply H2]; lia. Qed.
Lemma run_sub bs a b c : run bs a b → (c ≤ b)%nat → run bs a c.
Proof. intros H1 Hc j Hj. apply H1. lia. Qed.
Lemma run_le bs a b : run bs a b → (a < b)%nat → (b ≤ length bs)%nat.
Proof. intros Hr Hab. destruct (Hr (b - 1)%nat) as (x & Hx%lookup_lt_Some & _); lia. Qed.

(** The bytes a scan passes. *)
Lemma scan_lookup p bs j : (j < scan p bs)%nat → ∃ x, bs !! j = Some x ∧ p x = true.
Proof.
  revert j. induction bs as [|b bs IH]; intros j; cbn; [lia|]. destruct (p b) eqn:Ep; [|lia]. destruct j as [|j]; [by exists b|].
  intros Hj. apply IH. lia.
Qed.
Lemma scan_run p bs i : (∀ x, p x = true → ascii x ∧ x ≠ x0a) → run bs i (i + scan p (drop i bs)).
Proof.
  intros Hp j Hj. destruct (scan_lookup p (drop i bs) (j - i)%nat) as (x & Hx & Hpx); [lia|].
  rewrite lookup_drop in Hx. replace (i + (j - i))%nat with j in Hx by lia. exists x. split; [done|]. by apply Hp.
Qed.
Lemma byte_range_lookup bs a b s : byte_range bs a b = Some s → length s = (b - a)%nat ∧ ∀ j, (a ≤ j < b)%nat → bs !! j = s !! (j - a)%nat.
Proof.
  unfold byte_range. destruct (Nat.leb_spec a b), (Nat.leb_spec b (length bs)); cbn; try done. intros [= <-].
  split; [rewrite length_take, length_drop; lia|]. intros j Hj. rewrite lookup_take_lt by lia. rewrite lookup_drop.
  f_equal. lia.
Qed.
Lemma range_run bs a b s : byte_range bs a b = Some s → Forall (λ x, ascii x ∧ x ≠ x0a) s → run bs a b.
Proof.
  intros [Hl Hj]%byte_range_lookup Hs j Hjr. rewrite Hj by done.
  destruct (lookup_lt_is_Some_2 s (j - a)%nat) as [x Hx]; [lia|]. exists x. split; [done|].
  rewrite Forall_lookup in Hs. by apply (Hs _ _ Hx).
Qed.

(** ** Matches *)

Import Parser.

Definition segment (bs : list byte) (a b : nat) : list byte := take (b - a) (drop a bs).
Lemma segment_app bs a b c : (a ≤ b)%nat → (b ≤ c)%nat → segment bs a b ++ segment bs b c = segment bs a c.
Proof.
  intros Hab Hbc. unfold segment. replace (c - a)%nat with ((b - a) + (c - b))%nat by lia.
  rewrite <-take_take_drop, drop_drop. by replace (a + (b - a))%nat with b by lia.
Qed.
Lemma segment_end bs a : segment bs a (length bs) = drop a bs.
Proof. unfold segment. apply take_ge. rewrite length_drop. lia. Qed.
Lemma lookup_segment bs a b j : (a + j < b)%nat → segment bs a b !! j = bs !! (a + j)%nat.
Proof. intros Hj. unfold segment. rewrite lookup_take_lt by lia. apply lookup_drop. Qed.
Lemma length_segment bs a b : (b ≤ length bs)%nat → length (segment bs a b) = (b - a)%nat.
Proof. intros Hb. unfold segment. rewrite length_take, length_drop. lia. Qed.
Lemma run_no_newline bs a b : run bs a b → x0a ∉ segment bs a b.
Proof.
  intros Hr (j & Hj)%list_elem_of_lookup. pose proof (lookup_lt_Some _ _ _ Hj) as Hl. unfold segment in Hl. rewrite length_take in Hl.
  rewrite lookup_segment in Hj by lia. destruct (Hr (a + j)%nat) as (x & Hx & _ & Hne); [lia|]. congruence.
Qed.

(** The body of a hashtag: characters none of which is forbidden. *)
Inductive tag_body : list byte → Prop :=
| tag_body_nil : tag_body []
| tag_body_cons c rest : is_char c → is_forbidden_hashtag_char c = false → tag_body rest → tag_body (c ++ rest).

Lemma tag_body_no_newline body : tag_body body → x0a ∉ body.
Proof.
  induction 1 as [|c rest (l & t & -> & _ & Ht & Hw) Hf _ IH]; [apply not_elem_of_nil|].
  intros [Hin|Hin]%elem_of_app; [|done]. apply elem_of_cons in Hin as [<-|Hin].
  - unfold char_width in Hw. cbn in Hw. destruct t; [|done]. vm_compute in Hf. done.
  - rewrite Forall_forall in Ht. specialize (Ht _ Hin). vm_compute in Ht. done.
Qed.

(** What a match says about the text. *)
Definition good (o : NostrParserOptions) (bs : list byte) (m : Match) : Prop :=
  boundary bs (start m) = true ∧ boundary bs (end_ m) = true ∧ (start m < end_ m)%nat
  ∧ match kind m with
    | MLineBreak => emit_line_breaks o = true ∧ segment bs (start m) (end_ m) = [x0a]
    | MHashtag => parse_hashtags o = true ∧ ∃ body, segment bs (start m) (end_ m) = x23 :: body ∧ body ≠ [] ∧ tag_body body
    | MNostrUri => parse_nostr_uris o = true ∧ run bs (start m) (end_ m)
    | MUrl => parse_urls o = true ∧ run bs (start m) (end_ m)
    end.

Lemma segment_cons bs a b x : bs !! a = Some x → (a < b)%nat → segment bs a b = x :: segment bs (S a) b.
Proof.
  intros Hx Hab. unfold segment. rewrite (drop_S _ _ _ Hx). replace (b - a)%nat with (S (b - S a)) by lia. done.
Qed.

Lemma hashtag_end_spec fuel bs e0 : utf8 bs → boundary bs e0 = true →
  ∃ e, hashtag_end fuel bs e0 = Some e ∧ (e0 ≤ e)%nat ∧ boundary bs e = true ∧ tag_body (segment bs e0 e).
Proof.
  intros Hu. revert e0. induction fuel as [|fuel IH]; intros e0 Hb; cbn [hashtag_end].
  { exists e0. unfold segment. rewrite Nat.sub_diag. repeat split; [lia|done|constructor]. }
  assert (∃ e, Some e0 = Some e ∧ (e0 ≤ e)%nat ∧ boundary bs e = true ∧ tag_body (segment bs e0 e)) as Hstop.
  { exists e0. unfold segment. rewrite Nat.sub_diag. repeat split; [lia|done|constructor]. }
  destruct (Nat.ltb_spec e0 (length bs)) as [Hlt|Hge]; [|done].
  unfold str_from. rewrite Hb. cbn [mbind option_bind].
  destruct (boundary_char bs e0 Hu Hb Hlt) as (c & r & Ed & Hc & Hb' & Hf). rewrite Hf. cbn [mbind option_bind].
  destruct (is_forbidden_hashtag_char c) eqn:Ef; [done|].
  destruct (IH _ Hb') as (e & -> & He & Hbe & Hbody). pose proof (is_char_pos c Hc). pose proof (boundary_le _ _ Hb') as Hle.
  exists e. split; [done|]. split; [lia|]. split; [done|].
  rewrite <-(segment_app bs e0 (e0 + length c) e) by lia. constructor; [|..|done].
  - assert (segment bs e0 (e0 + length c) = c) as ->; [|done]. unfold segment. rewrite Ed, Nat.add_comm, Nat.add_sub. apply take_app_length.
  - assert (segment bs e0 (e0 + length c) = c) as ->; [|done]. unfold segment. rewrite Ed, Nat.add_comm, Nat.add_sub. apply take_app_length.
Qed.

Lemma hashtag_good o bs i m : utf8 bs → boundary bs i = true → parse_hashtags o = true → try_hashtag bs i = Some m →
  good o bs m ∧ start m = i ∧ bs !! i ≠ Some x0a.
Proof.
  intros Hu Hb Ho. unfold try_hashtag. destruct (bs !! i) as [b|] eqn:Ei; cbn [mbind option_bind]; [|done].
  destruct (Byte.eqb b x23) eqn:E; cbn [negb]; [|done]. apply Byte.byte_dec_bl in E. subst b. case_match; [done|].
  assert (boundary bs (i + 1) = true) as Hb1.
  { rewrite Nat.add_1_r. by apply (boundary_ascii bs i x23). }
  destruct (hashtag_end_spec (length bs) bs (i + 1) Hu Hb1) as (e & -> & He & Hbe & Hbody). cbn [mbind option_bind].
  destruct (Nat.eqb_spec e (i + 1)) as [|Hne]; [done|]. intros [= <-]. split; [|done].
  split; [done|]. split; [done|]. cbn [start end_ hashtag kind]. split; [lia|]. split; [done|].
  exists (segment bs (i + 1) e). rewrite (segment_cons bs i e x23 Ei), <-Nat.add_1_r by lia. split; [done|]. split; [|done].
  intros Hnil. apply (f_equal length) in Hnil. rewrite length_segment in Hnil by (by apply boundary_le). cbn in Hnil. lia.
Qed.

Lemma trim_punct_range bs lo e : (lo ≤ e)%nat → (lo ≤ trim_punct bs lo e ≤ e)%nat.
Proof.
  induction e as [|e IH]; intros Hle; cbn [trim_punct]; [lia|].
  destruct (Nat.ltb_spec lo (S e)) as [Hlt|]; cbn [andb]; [|lia]. destruct (bs !! e) as [b|]; [|lia].
  destruct (is_url_trailing_punct b); [|lia]. specialize (IH ltac:(lia)). lia.
Qed.
Lemma balance_range bs a e : (e - 1 ≤ balance bs a e ≤ e)%nat.
Proof.
  unfold balance. destruct (_ && _); [|lia]. destruct (byte_range bs a e); [|lia]. destruct (_ <? _)%nat; lia.
Qed.

Lemma url_byte_ascii x : is_allowed_url_byte x = true → ascii x ∧ x ≠ x0a.
Proof. by destruct x. Qed.

Lemma url_good o bs i m : utf8 bs → boundary bs i = true → parse_urls o = true → try_url bs i = Some m →
  good o bs m ∧ start m = i ∧ bs !! i ≠ Some x0a.
Proof.
  intros Hu Hb Ho. unfold try_url. destruct (bs !! i) as [b|] eqn:Ei; cbn [mbind option_bind]; [|done].
  destruct (is_ascii_alphabetic b) eqn:Eb; cbn [negb]; [|done].
  set (after := (i + 1 + scan _ (drop (i + 1) bs))%nat).
  case_bool_decide as Hsep; cbn [negb]; [|done].
  set (lo := (after + 3)%nat) in *. set (e := (lo + scan _ (drop lo bs))%nat).
  destruct (Nat.leb_spec e lo) as [|Hlo]; [done|]. intros [= <-].
  assert (run bs i e) as Hrun.
  { apply (run_app bs i (i + 1)).
    { intros j Hj. replace j with i by lia. exists b. split; [done|]. revert Eb. clear. by destruct b. }
    apply (run_app bs (i + 1) after).
    { apply scan_run. intros x. by destruct x. }
    apply (run_app bs after lo).
    { eapply range_run; [exact Hsep|]. repeat constructor; done. }
    apply scan_run. intros x. destruct (is_allowed_url_byte x) eqn:Ex; [intros _; by apply url_byte_ascii|].
    by rewrite orb_true_r. }
  pose proof (trim_punct_range bs lo e ltac:(lia)). pose proof (balance_range bs i (trim_punct bs lo e)).
  assert (i < after ∧ lo = after + 3)%nat as [] by (unfold lo, after; lia). split; [|split; [done|]].
  - split; [done|]. cbn [start end_ url kind].
    assert (run bs i (balance bs i (trim_punct bs lo e))) as Hr by (eapply run_sub; [exact Hrun|lia]).
    split; [apply (run_boundary bs i); [done|done|exact Hr|lia]|]. split; [lia|done].
  - destruct (Hrun i) as (x & Hx & _ & Hne); [lia|]. congruence.
Qed.

Section parser.
Context `{FasterHex, Secp256k1, SecretScalar, UrlCrate, Bech32Crate, !UrlBase, Fe32Crate, !Fe32Laws}.

Lemma nostr_good o bs i m : utf8 bs → boundary bs i = true → parse_nostr_uris o = true → try_nostr_uri bs i = Some m →
  good o bs m ∧ start m = i ∧ bs !! i ≠ Some x0a.
Proof.
  intros Hu Hb Ho. unfold try_nostr_uri. change (length (as_bytes Nip21.SCHEME_PREFIX)) with 6%nat.
  case_bool_decide as Hpre; cbn [negb]; [|done]. set (e := (i + 6 + scan _ (drop (i + 6) bs))%nat).
  destruct (Nat.eqb_spec e (i + 6)) as [|Hne]; [done|]. intros [= <-].
  assert (run bs i (i + 6)) as Hsix by (eapply range_run; [exact Hpre|]; repeat constructor; done).
  assert (run bs i e) as Hrun.
  { apply (run_app bs i (i + 6)); [done|]. apply scan_run. intros x Hx.
    assert (is_ascii_alphanumeric x = true) as Hal; [|revert Hal; clear; by destruct x].
    apply orb_prop in Hx as [[Hx|Hx]%orb_prop|Hx%fe32_alphanumeric]; revert Hx; clear; by destruct x. }
  split; [|split; [done|]].
  - split; [done|]. cbn [start end_ nostr kind]. split; [apply (run_boundary bs i); [done|done|exact Hrun|unfold e; lia]|].
    split; [unfold e; lia|done].
  - destruct (Hsix i) as (x & Hx & _ & Hnx); [lia|]. congruence.
Qed.

(** A match at a position starts there; where there is none, there is no line break either. *)
Lemma match_at_spec o bs i : utf8 bs → boundary bs i = true →
  match match_at o bs i with
  | Some m => good o bs m ∧ start m = i
  | None => emit_line_breaks o = true → bs !! i ≠ Some x0a
  end.
Proof.
  intros Hu Hb. unfold match_at.
  destruct (emit_line_breaks o && bool_decide (bs !! i = Some x0a)) eqn:Enl.
  { apply andb_prop in Enl as [Eo Hnl%bool_decide_eq_true].
    split; [|done]. split; [done|]. cbn [start end_ line_break kind]. split.
    { rewrite Nat.add_1_r. by apply (boundary_ascii bs i x0a). }
    split; [lia|]. split; [done|]. rewrite (segment_cons bs i (i + 1) x0a Hnl) by lia.
    unfold segment. by replace (i + 1 - S i)%nat with 0%nat by lia. }
  destruct (if parse_hashtags o then try_hashtag bs i else None) as [m|] eqn:E1.
  { destruct (parse_hashtags o) eqn:E; [|done]. destruct (hashtag_good o bs i m Hu Hb E E1) as (? & ? & _). done. }
  destruct (if parse_nostr_uris o then try_nostr_uri bs i else None) as [m|] eqn:E2.
  { destruct (parse_nostr_uris o) eqn:E; [|done]. destruct (nostr_good o bs i m Hu Hb E E2) as (? & ? & _). done. }
  destruct (if parse_urls o then try_url bs i else None) as [m|] eqn:E3.
  { destruct (parse_urls o) eqn:E; [|done]. destruct (url_good o bs i m Hu Hb E E3) as (? & ? & _). done. }
  intros Eo. rewrite Eo in Enl. by apply bool_decide_eq_false in Enl.
Qed.

(** A character that is not a line feed holds none. *)
Lemma char_no_newline c : is_char c → c !! 0%nat ≠ Some x0a → x0a ∉ c.
Proof.
  intros (l & t & -> & _ & Ht & _) Hl [<-|Hin]%elem_of_cons; [done|]. rewrite Forall_forall in Ht. by specialize (Ht _ Hin).
Qed.

(** The search finds a match without passing a line break, or there is none left; it never panics. *)
Lemma next_match_spec fuel o bs i : utf8 bs → boundary bs i = true → (length bs - i ≤ fuel)%nat →
  ∃ r, next_match fuel o bs i = Some r ∧
  match r with
  | Some m => good o bs m ∧ (i ≤ start m)%nat ∧ (emit_line_breaks o = true → x0a ∉ segment bs i (start m))
  | None => emit_line_breaks o = true → x0a ∉ drop i bs
  end.
Proof.
  intros Hu. revert i. induction fuel as [|fuel IH]; intros i Hb Hf.
  { exists None. split; [done|]. intros _. rewrite drop_ge by lia. apply not_elem_of_nil. }
  cbn [next_match]. destruct (Nat.ltb_spec i (length bs)) as [Hlt|Hge].
  2:{ exists None. split; [done|]. intros _. rewrite drop_ge by lia. apply not_elem_of_nil. }
  pose proof (match_at_spec o bs i Hu Hb) as Hm. destruct (match_at o bs i) as [m|].
  { exists (Some m). split; [done|]. destruct Hm as [Hg <-]. split; [done|]. split; [done|]. intros _.
    unfold segment. rewrite Nat.sub_diag. apply not_elem_of_nil. }
  destruct (boundary_char bs i Hu Hb Hlt) as (c & r & Ed & Hc & Hb' & Hfc).
  unfold utf8_step, str_from. rewrite Hb. cbn [mbind option_bind]. rewrite Hfc. pose proof (is_char_pos c Hc).
  destruct (IH (i + length c)%nat Hb') as (res & -> & Hres); [lia|]. exists res. split; [done|].
  assert (emit_line_breaks o = true → x0a ∉ c) as Hcn.
  { intros Ho. apply char_no_newline; [done|]. specialize (Hm Ho). apply (f_equal (λ x, x !! 0%nat)) in Ed.
    rewrite lookup_drop, Nat.add_0_r, lookup_app_l in Ed by done. congruence. }
  assert (segment bs i (i + length c) = c) as Hseg.
  { unfold segment. rewrite Ed, Nat.add_comm, Nat.add_sub. apply take_app_length. }
  destruct res as [m|].
  - destruct Hres as (Hg & Hle & Hn). split; [done|]. split; [lia|]. intros Ho.
    rewrite <-(segment_app bs i (i + length c) (start m)), Hseg by lia. rewrite elem_of_app. intros [Hin|Hin]; [by apply Hcn|by apply Hn].
  - intros Ho. rewrite <-segment_end. pose proof (boundary_le _ _ Hb').
    rewrite <-(segment_app bs i (i + length c)), Hseg, segment_end by lia. rewrite elem_of_app.
    intros [Hin|Hin]; [by apply Hcn|by apply Hres].
Qed.

(** ** Tokens *)

(** What a token says about the slice it stands for. *)
Definition token_ok (o : NostrParserOptions) (slice : list byte) (tok : Token) : Prop :=
  match tok with
  | TText s => s = slice ∧ (emit_line_breaks o = true → x0a ∉ slice)
  | THashtag body => parse_hashtags o = true ∧ slice = x23 :: body ∧ body ≠ [] ∧ tag_body body
  | TLineBreak => emit_line_breaks o = true ∧ slice = [x0a]
  | TNostr v => parse_nostr_uris o = true ∧ Nip21.parse (as_str slice) = Ok v
  | TUrl u => parse_urls o = true ∧ Url.parse (as_str slice) = Ok u
  end.

Lemma str_get_segment bs a b : boundary bs a = true → boundary bs b = true → (a ≤ b)%nat → str_get bs a b = Some (segment bs a b).
Proof. intros Ha Hb Hab. unfold str_get. apply Nat.leb_le in Hab. by rewrite Hab, Ha, Hb. Qed.

Lemma materialise_ok o bs m : utf8 bs → good o bs m → token_ok o (segment bs (start m) (end_ m)) (materialise bs m).
Proof.
  intros Hu (Hs & He & Hlt & Hk). unfold materialise. rewrite str_get_segment by (done || lia).
  destruct (kind m).
  - done.
  - destruct Hk as (Ho & body & Hseg & Hne & Hbody). rewrite Hseg.
    assert (str_get (x23 :: body) 1 (length (x23 :: body)) = Some body) as ->.
    { unfold str_get. rewrite boundary_end, andb_true_r. cbn [length Nat.leb andb].
      assert (boundary (x23 :: body) 1 = true) as ->.
      { unfold boundary. cbn. destruct Hbody as [|c rest (l & t & -> & Hl & _) _ _]; [done|]. cbn. by rewrite Hl. }
      cbn. by rewrite Nat.sub_0_r, firstn_all. }
    done.
  - destruct Hk as [Ho Hr]. destruct (Nip21.parse _) as [v|] eqn:E; [done|]. split; [done|]. intros _. by apply run_no_newline.
  - destruct Hk as [Ho Hr]. destruct (Url.parse _) as [v|] eqn:E; [done|]. split; [done|]. intros _. by apply run_no_newline.
Qed.

Definition iter_ok (it : NostrParserIter) : Prop :=
  utf8 (text it) ∧ boundary (text it) (pos it) = true
  ∧ ∀ m, pending it = Some m → good (opts it) (text it) m ∧ start m = pos it.

(** One call: nothing at the end, and before it a token for the next slice. *)
Lemma next_spec it : iter_ok it →
  (pos it = length (text it) ∧ next it = Some (None, it)) ∨
  ∃ tok it', next it = Some (Some tok, it') ∧ iter_ok it' ∧ text it' = text it ∧ opts it' = opts it
    ∧ (pos it < pos it')%nat ∧ token_ok (opts it) (segment (text it) (pos it) (pos it')) tok.
Proof.
  destruct it as [bs p o pend]. intros (Hu & Hb & Hp). cbn [text pos opts pending] in *. unfold next.
  pose proof (boundary_le _ _ Hb) as Hle.
  assert (∀ m, good o bs m → start m = p → ∃ tok it', Some (Some (materialise bs m), mkIter bs (end_ m) o None) = Some (Some tok, it')
    ∧ iter_ok it' ∧ text it' = bs ∧ opts it' = o ∧ (p < pos it')%nat ∧ token_ok o (segment bs p (pos it')) tok) as Hmat.
  { intros m Hg <-. eexists _, _. split; [done|]. cbn [text pos opts]. pose proof Hg as (_ & He & Hlt & _).
    split; [by split|]. split; [done|]. split; [done|]. split; [done|]. by apply materialise_ok. }
  destruct pend as [m|].
  { right. destruct (Hp m eq_refl) as [Hg Hst]. by apply Hmat. }
  destruct (Nat.leb_spec (length bs) p) as [|Hlt]; [left; split; [lia|done]|right].
  destruct (next_match_spec (length bs) o bs p Hu Hb) as (r & -> & Hr); [lia|]. cbn [mbind option_bind].
  destruct r as [m|].
  - destruct Hr as (Hg & Hst & Hn). destruct (Nat.ltb_spec p (start m)) as [Hgap|Hno]; [|apply Hmat; [done|lia]].
    pose proof Hg as (Hbs & _). rewrite str_get_segment by (done || lia). eexists _, _. split; [done|]. cbn [text pos opts].
    split; [|done]. split; [done|]. split; [done|]. intros m' [= <-]. done.
  - unfold str_from. rewrite Hb. eexists _, _. split; [done|]. cbn [text pos opts].
    split; [split; [done|]; split; [apply boundary_end|done]|]. split; [done|]. split; [done|]. split; [done|].
    rewrite segment_end. done.
Qed.

Lemma collect_tokens fuel it : iter_ok it → (length (text it) - pos it < fuel)%nat →
  ∃ toks slices, collect fuel it = Some toks ∧ concat slices = drop (pos it) (text it)
    ∧ Forall2 (token_ok (opts it)) slices toks ∧ Forall (λ s, s ≠ []) slices.
Proof.
  revert it. induction fuel as [|fuel IH]; intros it Hok Hf; [lia|]. cbn [collect].
  destruct (next_spec it Hok) as [[He ->]|(tok & it' & -> & Hok' & Ht & Ho & Hlt & Htok)]; cbn [mbind option_bind].
  { exists [], []. rewrite drop_ge by lia. repeat split; constructor. }
  pose proof Hok' as (_ & Hb' & _). pose proof (boundary_le _ _ Hb') as Hle.
  destruct (IH it' Hok') as (toks & slices & -> & Hc & Hall & Hne); [rewrite Ht in *; lia|]. cbn [mbind option_bind].
  exists (tok :: toks), (segment (text it) (pos it) (pos it') :: slices). split; [done|]. split.
  - cbn [concat]. rewrite Hc, Ht, <-!segment_end. apply segment_app; [lia|]. by rewrite <-Ht.
  - rewrite Ho in Hall. split; [by constructor|]. constructor; [|done]. intros Hnil. apply (f_equal length) in Hnil.
    rewrite length_segment in Hnil by (by rewrite <-Ht). cbn in Hnil. lia.
Qed.

Lemma next_match_disabled fuel bs i : utf8 bs → boundary bs i = true → next_match fuel all_disabled bs i = Some None.
Proof.
  intros Hu. revert i. induction fuel as [|fuel IH]; intros i Hb; [done|]. cbn [next_match].
  destruct (Nat.ltb_spec i (length bs)) as [Hlt|]; [|done].
  destruct (boundary_char bs i Hu Hb Hlt) as (c & r & _ & _ & Hb' & Hfc).
  unfold match_at, utf8_step, str_from. cbn. rewrite Hb. cbn [mbind option_bind]. rewrite Hfc. by apply IH.
Qed.

(** C37: (termination) parsing any text ends without a panic after at most as many calls as
    the text has bytes and one: the tokens stand, in order, for non-empty slices that make up
    the whole text.  A text token is its slice, and holds no line feed while line breaks are
    on; a hashtag is its slice behind the number sign, non-empty and free of the forbidden
    characters; a line break is a line feed; an address or a URL is what its slice parses to;
    and each appears only when its option is on.  With every option off a text comes back as
    one text token, and the empty text as none. *)
Theorem content_tokens s o : Utf8.is_str s →
  (∃ toks slices, collect (S (length (as_bytes s))) (parse s o) = Some toks
    ∧ concat slices = as_bytes s ∧ Forall2 (token_ok o) slices toks ∧ Forall (λ sl, sl ≠ []) slices)
  ∧ collect 2 (parse s all_disabled) = Some (if decide (as_bytes s = []) then [] else [TText (as_bytes s)]).
Proof.
  intros Hs%validate_utf8. split.
  - destruct (collect_tokens (S (length (as_bytes s))) (parse s o)) as (toks & slices & ? & Hc & ? & ?).
    + split; [done|]. split; done.
    + cbn. lia.
    + by exists toks, slices.
  - unfold parse. cbn [collect next]. destruct (as_bytes s) as [|b bs] eqn:E; [done|].
    rewrite (decide_False (P := b :: bs = [])) by done. change (length (b :: bs) <=? 0)%nat with false.
    rewrite (next_match_disabled _ (b :: bs) 0 Hs eq_refl). cbn [mbind option_bind str_from boundary drop].
    cbn [next]. by rewrite (proj2 (Nat.leb_le _ _) (le_n (length (b :: bs)))).
Qed.
End parser.

(** ** A sample text *)

#[local] Existing Instance sample_secp.
#[local] Instance sample_fe32 : Fe32Crate := {| fe32_char := is_ascii_alphanumeric |}.
#[local] Instance sample_fe32_laws : Fe32Laws.
Proof. intros b Hb. by destruct b. Qed.

Definition note_text : string := "gm #nostr (see wss://a.b/c) #".

Lemma note_text_tokens : collect 8 (parse note_text all_enabled)
  = Some [TText (as_bytes "gm "); THashtag (as_bytes "nostr"); TText (as_bytes " (see ");
          TUrl {| Url.inner := mkUrl Wss "a.b/c" eq_refl |}; TText (as_bytes ") #")].
Proof. vm_compute. reflexivity. Qed.

Lemma content_tokens_witness : Utf8.is_str note_text ∧
  (∃ toks slices, collect (S (length (as_bytes note_text))) (parse note_text all_enabled) = Some toks
    ∧ concat slices = as_bytes note_text ∧ Forall2 (token_ok all_enabled) slices toks ∧ Forall (λ sl, sl ≠ []) slices)
  ∧ collect 2 (parse note_text all_disabled)
    = Some (if decide (as_bytes note_text = []) then [] else [TText (as_bytes note_text)]).
Proof. split; [vm_compute; reflexivity|]. apply content_tokens. vm_compute. reflexivity. Defined.
