(* ===== verification/Facade.v ===== *)
(** * The client facade

    [crates/nula/src]: the client an application holds, which composes the relay
    pool, the relay router, a signer and a database ([client.rs], [gossip.rs],
    [policy.rs], [util.rs], [builder.rs], [monitor.rs], [error.rs]) and the
    helpers for relay lists and private messages ([nips/nip65.rs],
    [nips/nip17.rs]).  The reconciliation driver is in [FacadeSync].

    An operation runs with no other task in between.  What relays answer, the
    identifiers drawn and the clock are arguments; an admission policy is the
    function it is while the call runs. *)

From Stdlib Require Import Ascii NArith Lia.
From S2P Require Import Prelude Encoding Text Ids Tags Event Filter FilterWire Storage SpecProofs Database.
From S2P Require Import Nips Message Sync HttpAuth Entities RelayLists Gossip Client Pool GiftWrap.

Module Facade.

(** ** Admission ([policy.rs]) *)

Inductive AdmitStatus := Success | Rejected (reason : option string).
Definition rejected (reason : string) : AdmitStatus := Rejected (Some reason).
Definition is_success (s : AdmitStatus) : bool := match s with Success => true | Rejected _ => false end.

Section facade.
Context `{FasterHex, Secp256k1, SecretScalar, SerdeJson, SigSerde, JsonText, EventCrypto, !Nip44Crates, Base64, UrlCrate, LruCrate}.
Context {DB : Type} `{NostrDatabase DB}.

(** The error is the text of [PolicyError]. *)
Record AdmitPolicy := mkPolicy {
  admit_relay : RelayUrl → result AdmitStatus string;
  admit_connection : RelayUrl → result AdmitStatus string;
  admit_event : RelayUrl → SubscriptionId → Event → result AdmitStatus string;
}.
(** The default methods of the trait. *)
Definition default_policy : AdmitPolicy := mkPolicy (λ _, Ok Success) (λ _, Ok Success) (λ _ _ _, Ok Success).

(** ** Errors ([error.rs]) *)

Inductive Error :=
| Pool (e : PoolError)
| Relay (e : ClientError)
| EventBuilderErr (e : EventBuilder.Error)
| GossipErr (e : Gossip.Error)
| PrivateMessageRelaysNotFound
| Sync (e : Sync.Error)
| Storage (e : string)
| SignerNotConfigured
| Signer (e : string)
| SubscriptionIdGeneration (e : string)
| RelayUrlErr (e : RelayUrl.Error)
| UnknownRelay (url : RelayUrl)
| ConnectTimeout (url : RelayUrl)
| SyncFailed (reason : string)
| SyncStreamClosed
| PolicyRejected (stage : string) (reason : option string)
| Policy (e : string)
| Nip17 (e : Chat.Nip17Error)
| Nip65 (e : Nip65.RelayListError).

(** ** The client ([client.rs]) *)

(** The two mandatory methods of the signer trait; the error is its text. *)
Record NostrSigner := mkSigner {
  get_public_key : result PublicKey string;
  sign_event : UnsignedEvent → result Event string;
}.
(** [impl NostrSigner for Keys]. *)
Definition keys_signer (keys : secret_key) : NostrSigner :=
  mkSigner (Ok (xonly_public_key keys))
    (λ u, map_err Nip59.signer_error_text (UnsignedEvent.sign_with_keys u keys)).

Record SubscriptionRecord := mkSubscription { sub_relays : list RelayUrl; sub_filters : list Filter }.

(** [store] is the database of the pool.  The router has a store of its own. *)
Record InnerClient := mkClient {
  pool : Pool.Pool;
  store : DB;
  signer : option NostrSigner;
  gossip : option (Gossip.Inner (DB := DB));
  automatic_authentication : bool;
  subscriptions : gmap SubscriptionId SubscriptionRecord;
  admit_policy : option AdmitPolicy;
}.

Definition set_pool (c : InnerClient) p : InnerClient :=
  mkClient p (store c) (signer c) (gossip c) (automatic_authentication c) (subscriptions c) (admit_policy c).
Definition set_store (c : InnerClient) d : InnerClient :=
  mkClient (pool c) d (signer c) (gossip c) (automatic_authentication c) (subscriptions c) (admit_policy c).
Definition set_gossip (c : InnerClient) g : InnerClient :=
  mkClient (pool c) (store c) (signer c) g (automatic_authentication c) (subscriptions c) (admit_policy c).
Definition set_subscriptions (c : InnerClient) m : InnerClient :=
  mkClient (pool c) (store c) (signer c) (gossip c) (automatic_authentication c) m (admit_policy c).

(** *** Building ([builder.rs]) *)

Record ClientBuilder := mkBuilder {
  b_signer : option NostrSigner;
  b_database : option DB;
  b_gossip : option (Gossip.Inner (DB := DB));
  b_pool_options : RelayPoolOptions;
  b_automatic_authentication : bool;
  b_admit_policy : option AdmitPolicy;
}.

Definition with_auto_save (o : RelayPoolOptions) (enabled : bool) : RelayPoolOptions :=
  mkPoolOptions (max_relays o) (notification_channel_size o) (dedup_cache_size o) enabled (relay_options o).

(** [fallback]: the in-memory database of the feature [memory-fallback]. *)
Definition build (fallback : option DB) (b : ClientBuilder) : result InnerClient Error :=
  let database := match b_database b with Some d => Some d | None => fallback end in
  let options := match b_admit_policy b with
                 | Some _ => with_auto_save (b_pool_options b) false
                 | None => b_pool_options b
                 end in
  let? d := ok_or database (Pool MissingDatabase) in
  Ok (mkClient (pool_new options) d (b_signer b) (b_gossip b) (b_automatic_authentication b) ∅ (b_admit_policy b)).

(** *** Admission gates *)

Definition verdict (stage : string) (answer : result AdmitStatus string) : result unit Error :=
  match answer with
  | Err e => Err (Policy e)
  | Ok Success => Ok tt
  | Ok (Rejected reason) => Err (PolicyRejected stage reason)
  end.
Definition check_admit_relay (c : InnerClient) (url : RelayUrl) : result unit Error :=
  match admit_policy c with None => Ok tt | Some p => verdict "relay" (admit_relay p url) end.
Definition check_admit_connection (c : InnerClient) (url : RelayUrl) : result unit Error :=
  match admit_policy c with None => Ok tt | Some p => verdict "connection" (admit_connection p url) end.
Definition check_admit_event (c : InnerClient) (url : RelayUrl) (id : SubscriptionId) (event : Event) : result unit Error :=
  match admit_policy c with None => Ok tt | Some p => verdict "event" (admit_event p url id event) end.

(** *** Addresses ([util.rs]) *)

Class IntoRelayUrl (U : Type) := into_relay_url : U → result RelayUrl RelayUrl.Error.
#[global] Instance into_parsed : IntoRelayUrl RelayUrl := λ url, Ok url.
#[global] Instance into_parse : IntoRelayUrl string := RelayUrl.parse.

Fixpoint collect_relay_urls {U} `{IntoRelayUrl U} (us : list U) : result (list RelayUrl) RelayUrl.Error :=
  match us with
  | [] => Ok []
  | u :: us =>
      let? url := into_relay_url u in
      let? urls := collect_relay_urls us in
      Ok (url :: urls)
  end.

(** *** Relays *)

Definition add_relay_with_options (c : InnerClient) (url : RelayUrl) (caps : RelayCapabilities.t) (o : RelayOptions.t) :
    result bool Error * InnerClient :=
  match check_admit_relay c url with
  | Err e => (Err e, c)
  | Ok _ =>
      let '(r, p) := Pool.add_relay_with_options (pool c) url caps o in
      (map_err Pool r, set_pool c p)
  end.
Definition add_relay_with_capabilities (c : InnerClient) (url : RelayUrl) (caps : RelayCapabilities.t) :
    result bool Error * InnerClient :=
  match check_admit_relay c url with
  | Err e => (Err e, c)
  | Ok _ =>
      let '(r, p) := Pool.add_relay (pool c) url caps in
      (map_err Pool r, set_pool c p)
  end.

Section add.
Context {U : Type} `{IntoRelayUrl U}.
Definition add_parsed (c : InnerClient) (u : U) (caps : RelayCapabilities.t) : result bool Error * InnerClient :=
  match into_relay_url u with
  | Err e => (Err (RelayUrlErr e), c)
  | Ok url => add_relay_with_capabilities c url caps
  end.
Definition add_relay (c : InnerClient) (u : U) := add_parsed c u RelayCapabilities.default.
Definition add_discovery_relay (c : InnerClient) (u : U) := add_parsed c u RelayCapabilities.DISCOVERY.
Definition add_read_relay (c : InnerClient) (u : U) := add_parsed c u RelayCapabilities.READ.
Definition add_write_relay (c : InnerClient) (u : U) := add_parsed c u RelayCapabilities.WRITE.
Definition add_gossip_relay (c : InnerClient) (u : U) := add_parsed c u RelayCapabilities.GOSSIP.
End add.

Definition remove_relay (c : InnerClient) (url : RelayUrl) : result unit Error * InnerClient :=
  let '(r, p) := Pool.remove_relay (pool c) url in (map_err Pool r, set_pool c p).

(** [Display] of the only error of [Pool.remove_relay]. *)
Definition not_found_text (url : RelayUrl) : string := "relay '" +:+ RelayUrl.as_str url +:+ "' not found in pool".

Fixpoint remove_each (c : InnerClient) (urls : list RelayUrl) (o : Output unit) : Output unit * InnerClient :=
  match urls with
  | [] => (o, c)
  | url :: urls =>
      let '(r, p) := Pool.remove_relay (pool c) url in
      remove_each (set_pool c p) urls (record o url (map_err (λ _, not_found_text url) r))
  end.
Definition remove_all_relays (c : InnerClient) : Output unit * InnerClient :=
  remove_each c (elements (dom (snapshot (pool c)))) (output_new tt).

Definition client_shutdown (c : InnerClient) : InnerClient := set_pool c (pool_shutdown (pool c)).

(** The whole pool, without the gate of [connect_relay]. *)
Definition connect (answer : Pool.Relay → result unit string) (c : InnerClient) : Output unit * InnerClient :=
  let '(o, p) := try_connect_inner answer (pool c) in (o, set_pool c p).
Definition disconnect (answer : Pool.Relay → result unit string) (c : InnerClient) : Output unit * InnerClient :=
  let '(o, p) := pool_disconnect answer (pool c) in (o, set_pool c p).
Definition send_msg (answer : Pool.Relay → result unit string) (c : InnerClient) (m : ClientMessage) : Output unit * InnerClient :=
  let '(o, p) := pool_send_msg answer (pool c) m in (o, set_pool c p).

(** One relay; [answer] is [None] when the time of [try_connect_relay] is up. *)
Definition try_connect_relay (answer : Pool.Relay → option (result unit ClientError)) (c : InnerClient) (url : RelayUrl) :
    result unit Error * InnerClient :=
  match get_relay (pool c) url with
  | None => (Err (UnknownRelay url), c)
  | Some r =>
      match check_admit_connection c url with
      | Err e => (Err e, c)
      | Ok _ =>
          (match answer r with
           | None => Err (ConnectTimeout url)
           | Some res => map_err Relay res
           end, set_pool c (ask (pool c) r AskConnect))
      end
  end.
Definition connect_relay (answer : Pool.Relay → result unit ClientError) (c : InnerClient) (url : RelayUrl) :
    result unit Error * InnerClient :=
  match get_relay (pool c) url with
  | None => (Err (UnknownRelay url), c)
  | Some r =>
      match check_admit_connection c url with
      | Err e => (Err e, c)
      | Ok _ => (map_err Relay (answer r), set_pool c (ask (pool c) r AskConnect))
      end
  end.
Definition disconnect_relay (answer : Pool.Relay → result unit ClientError) (c : InnerClient) (url : RelayUrl) :
    result unit Error * InnerClient :=
  match get_relay (pool c) url with
  | None => (Err (UnknownRelay url), c)
  | Some r => (map_err Relay (answer r), set_pool c (ask (pool c) r AskDisconnect))
  end.

(** *** Waiting for connections *)

(** What a receiver of the notifications gets. *)
Inductive Received :=
| Got (n : PoolNotification)
| Lagged (skipped : N)
| Closed
| Elapsed.

Definition all_relays_connected (status : Pool.Relay → RelayStatus) (p : Pool.Pool) : bool :=
  negb (bool_decide (snapshot p = ∅))
  && forallb (λ x, bool_decide (status x.2 = RelayStatus.Connected)) (map_to_list (snapshot p)).

(** A turn of the loop: what is received, and then the relays and their
    statuses.  The loop runs until the deadline, so the turns end in [Elapsed]
    at the latest. *)
Fixpoint wait_loop (turns : list (Received * (Pool.Pool * (Pool.Relay → RelayStatus)))) : bool :=
  match turns with
  | [] => false
  | (Got (PoolStatus _ _), (p, status)) :: turns => if all_relays_connected status p then true else wait_loop turns
  | (Got _, _) :: turns => wait_loop turns
  | _ => false
  end.
Definition wait_for_connection (status : Pool.Relay → RelayStatus) (c : InnerClient)
    (turns : list (Received * (Pool.Pool * (Pool.Relay → RelayStatus)))) : bool :=
  if all_relays_connected status (pool c) then true else wait_loop turns.

(** The task behind [Client::monitor] ([builder.rs], [monitor.rs]). *)
Inductive MonitorNotification := StatusChanged (relay_url : RelayUrl) (status : RelayStatus).
Fixpoint forward_monitor_notifications (items : list Received) : list MonitorNotification :=
  match items with
  | Got (PoolStatus url status) :: items => StatusChanged url status :: forward_monitor_notifications items
  | Got _ :: items => forward_monitor_notifications items
  | _ => []
  end.

(** *** Publishing *)

Definition sign_event_builder (clock : option Timestamp) (c : InnerClient) (b : EventBuilder) : result Event Error :=
  let? s := ok_or (signer c) SignerNotConfigured in
  let? pubkey := map_err Signer (get_public_key s) in
  let? unsigned := map_err EventBuilderErr (EventBuilder.build_unsigned clock b pubkey) in
  map_err Signer (sign_event s unsigned).

(** [gossip.rs]: the relays of a route the pool does not know are added and
    connected, each as far as the gates and the pool let it. *)
Definition ensure_gossip_relay (c : InnerClient) (url : RelayUrl) : InnerClient :=
  match get_relay (pool c) url with
  | Some _ => c
  | None =>
      match check_admit_relay c url with
      | Err _ => c
      | Ok _ =>
          match Pool.add_relay (pool c) url RelayCapabilities.GOSSIP with
          | (Err _, p) => set_pool c p
          | (Ok _, p) =>
              let c := set_pool c p in
              match check_admit_connection c url with
              | Err _ => c
              | Ok _ =>
                  match get_relay (pool c) url with
                  | Some r => set_pool c (ask (pool c) r AskConnect)
                  | None => c
                  end
              end
          end
      end
  end.
Definition ensure_gossip_relays (c : InnerClient) (urls : list RelayUrl) : InnerClient :=
  foldl ensure_gossip_relay c urls.

Section publish.
Variable answer : Pool.Relay → result unit string.

Definition pool_publish (c : InnerClient) (event : Event) : result (Output EventId) Error * InnerClient :=
  let '(r, p) := Pool.pool_send_event answer (pool c) event in (map_err Pool r, set_pool c p).
Definition pool_publish_to (c : InnerClient) (urls : gset RelayUrl) (event : Event) :
    result (Output EventId) Error * InnerClient :=
  let '(r, p) := Pool.send_event_to answer (pool c) urls event in (map_err Pool r, set_pool c p).

Definition gossip_send_event (g : Gossip.Inner (DB := DB)) (c : InnerClient) (event : Event) :
    result (Output EventId) Error * InnerClient :=
  match break_down_event g event with
  | Relays relays => pool_publish_to (ensure_gossip_relays c (elements relays)) relays event
  | OrphanEvent true => (Err PrivateMessageRelaysNotFound, c)
  | OrphanEvent false => pool_publish c event
  end.
Definition send_event (c : InnerClient) (event : Event) : result (Output EventId) Error * InnerClient :=
  match gossip c with
  | Some g => gossip_send_event g c event
  | None => pool_publish c event
  end.
Definition send_event_to {U} `{IntoRelayUrl U} (c : InnerClient) (urls : list U) (event : Event) :
    result (Output EventId) Error * InnerClient :=
  match collect_relay_urls urls with
  | Err e => (Err (RelayUrlErr e), c)
  | Ok urls => pool_publish_to c (list_to_set urls) event
  end.

Definition send_event_builder (clock : option Timestamp) (c : InnerClient) (b : EventBuilder) :
    result (Output EventId) Error * InnerClient :=
  match sign_event_builder clock c b with
  | Err e => (Err e, c)
  | Ok event => send_event c event
  end.
Definition send_event_builder_to {U} `{IntoRelayUrl U} (clock : option Timestamp) (c : InnerClient) (urls : list U)
    (b : EventBuilder) : result (Output EventId) Error * InnerClient :=
  match sign_event_builder clock c b with
  | Err e => (Err e, c)
  | Ok event => send_event_to c urls event
  end.
End publish.

(** *** Subscriptions *)

(** [merged.success.extend(..)] and [merged.failed.extend(..)]. *)
Definition merge_output {A B} (merged : Output A) (one : Output B) : Output A :=
  mkOutput (value merged) (success merged ∪ success one) (failed one ∪ failed merged).

Section subscribe.
Variable answer : Pool.Relay → result unit string.

Definition pool_subscribe_to (c : InnerClient) (urls : gset RelayUrl) (id : SubscriptionId) (f : Filter) (o : SubscribeOptions) :
    result (Output SubscriptionId) Error * InnerClient :=
  let '(r, p) := Pool.subscribe_to answer (pool c) urls id [f] o in (map_err Pool r, set_pool c p).

(** The subscription on the READ relays, recorded when one of them took it. *)
Definition subscribe_generic (c : InnerClient) (id : SubscriptionId) (f : Filter) (o : SubscribeOptions) :
    result (Output SubscriptionId) Error * InnerClient :=
  match Pool.pool_subscribe answer (pool c) id [f] o with
  | (Err e, p) => (Err (Pool e), set_pool c p)
  | (Ok out, p) =>
      let c := set_pool c p in
      let relays := elements (success out) in
      (Ok out, if decide (relays = []) then c
               else set_subscriptions c (<[id := mkSubscription relays [f]]> (subscriptions c)))
  end.

(** The loop of [gossip_subscribe] over the routed relays. *)
Fixpoint subscribe_each (c : InnerClient) (id : SubscriptionId) (o : SubscribeOptions) (parts : list (RelayUrl * Filter))
    (out : Output SubscriptionId) (relays : list RelayUrl) (filters : list Filter) :
    Output SubscriptionId * list RelayUrl * list Filter * InnerClient :=
  match parts with
  | [] => (out, relays, filters, c)
  | (url, f) :: parts =>
      match pool_subscribe_to c {[url]} id f o with
      | (Err _, c) => subscribe_each c id o parts out relays filters
      | (Ok one, c) =>
          subscribe_each c id o parts
            (merge_output out one)
            (relays ++ [url]) (filters ++ [f])
      end
  end.

Definition gossip_subscribe (g : Gossip.Inner (DB := DB)) (c : InnerClient) (id : SubscriptionId) (f : Filter)
    (o : SubscribeOptions) : result (Output SubscriptionId) Error * InnerClient :=
  match break_down g f with
  | PerRelay m =>
      let parts := map_to_list m in
      let c := ensure_gossip_relays c parts.*1 in
      let '(out, relays, filters, c) := subscribe_each c id o parts (output_new id) [] [] in
      (Ok out, if decide (success out = ∅) then c
               else set_subscriptions c (<[id := mkSubscription relays filters]> (subscriptions c)))
  | _ => subscribe_generic c id f o
  end.

Definition subscribe_with_id (c : InnerClient) (id : SubscriptionId) (f : Filter) (o : SubscribeOptions) :
    result (Output SubscriptionId) Error * InnerClient :=
  match gossip c with
  | Some g => gossip_subscribe g c id f o
  | None => subscribe_generic c id f o
  end.

(** [fresh]: what [SubscriptionId::generate] gives. *)
Definition subscribe (fresh : result SubscriptionId string) (c : InnerClient) (f : Filter) (o : SubscribeOptions) :
    result (Output SubscriptionId) Error * InnerClient :=
  match fresh with
  | Err e => (Err (SubscriptionIdGeneration e), c)
  | Ok id => subscribe_with_id c id f o
  end.

(** The relays recorded are those asked for, whether or not they took it. *)
Definition subscribe_to {U} `{IntoRelayUrl U} (fresh : result SubscriptionId string) (c : InnerClient) (urls : list U)
    (f : Filter) (o : SubscribeOptions) : result (Output SubscriptionId) Error * InnerClient :=
  match fresh with
  | Err e => (Err (SubscriptionIdGeneration e), c)
  | Ok id =>
      match collect_relay_urls urls with
      | Err e => (Err (RelayUrlErr e), c)
      | Ok urls =>
          match pool_subscribe_to c (list_to_set urls) id f o with
          | (Err e, c) => (Err e, c)
          | (Ok out, c) =>
              (Ok out, if decide (success out = ∅) then c
                       else set_subscriptions c (<[id := mkSubscription urls [f]]> (subscriptions c)))
          end
      end
  end.
End subscribe.

Definition unsubscribe (c : InnerClient) (id : SubscriptionId) : Output unit * InnerClient :=
  (Pool.unsubscribe (pool c) id, set_subscriptions c (delete id (subscriptions c))).

Definition unsubscribe_each (c : InnerClient) (ids : list SubscriptionId) : Output unit * InnerClient :=
  foldl (λ st id, let '(one, c) := unsubscribe st.2 id in (merge_output st.1 one, c)) (output_new tt, c) ids.
Definition unsubscribe_all (c : InnerClient) : Output unit * InnerClient :=
  unsubscribe_each c (elements (dom (subscriptions c))).

Definition subscription (c : InnerClient) (id : SubscriptionId) : option SubscriptionRecord := subscriptions c !! id.

(** *** Fetching *)

(** A merged stream: the subscriptions it was opened with. *)
Definition Stream : Type := list (RelayUrl * SubscriptionId * Pool.Relay).
Definition eose_options : SubscribeOptions := mkSubscribeOptions true.

Section streams.
(** What relays answer to a subscription, and the identifiers drawn for the
    [k]-th stream. *)
Variable answer : Pool.Relay → result unit ClientError.
Variable fresh : nat → nat → option SubscriptionId.

Definition open_stream (k : nat) (c : InnerClient) (urls : gset RelayUrl) (f : Filter) : result Stream Error * InnerClient :=
  let '(r, p) := Pool.stream_events_to answer (fresh k) (pool c) urls [f] eose_options in
  (map_err Pool r, set_pool c p).

(** [RelayPool::stream_events]. *)
Definition stream_generic (k : nat) (c : InnerClient) (f : Filter) : result (list Stream) Error * InnerClient :=
  let '(r, c) := open_stream k c (relays_with_any_capability (pool c) RelayCapabilities.READ) f in
  (let? s := r in Ok [s], c).

Fixpoint open_each (k : nat) (c : InnerClient) (parts : list (RelayUrl * Filter)) (streams : list Stream) :
    list Stream * nat * InnerClient :=
  match parts with
  | [] => (streams, k, c)
  | (url, f) :: parts =>
      match open_stream k c {[url]} f with
      | (Ok s, c) => open_each (S k) c parts (streams ++ [s])
      | (Err _, c) => open_each (S k) c parts streams
      end
  end.

Definition gossip_stream_events (g : Gossip.Inner (DB := DB)) (c : InnerClient) (f : Filter) :
    result (list Stream) Error * InnerClient :=
  match break_down g f with
  | PerRelay m =>
      let parts := map_to_list m in
      let c := ensure_gossip_relays c parts.*1 in
      let '(streams, k, c) := open_each 0 c parts [] in
      if decide (streams = []) then stream_generic k c f else (Ok streams, c)
  | _ => stream_generic 0 c f
  end.

Definition stream_events (c : InnerClient) (f : Filter) : result (list Stream) Error * InnerClient :=
  match gossip c with
  | Some g => gossip_stream_events g c f
  | None => stream_generic 0 c f
  end.
Definition stream_events_from {U} `{IntoRelayUrl U} (c : InnerClient) (urls : list U) (f : Filter) :
    result (list Stream) Error * InnerClient :=
  match collect_relay_urls urls with
  | Err e => (Err (RelayUrlErr e), c)
  | Ok urls => let '(r, c) := open_stream 0 c (list_to_set urls) f in (let? s := r in Ok [s], c)
  end.

(** The drivers of the streams: each with its own cache, all with the pool's
    database when the pool saves what it receives.  [live] says which still
    run; [received] is what the consumer got, in order. *)
Record Drivers := mkDrivers { drivers : list (bool * lru); saved : DB; received : list StreamOut }.

(** One turn of the [i]-th driver. *)
Definition drivers_turn (auto_save : bool) (d : Drivers) (turn : nat * DriverWakeup) : Drivers :=
  match drivers d !! turn.1 with
  | Some (true, cache) =>
      let '(live, one) := driver_turn (mkDriver cache (if auto_save then Some (saved d) else None) (received d)) turn.2 in
      mkDrivers (<[turn.1 := (live, seen one)]> (drivers d)) (default (saved d) (Pool.database one)) (delivered one)
  | _ => d
  end.
Definition drivers_run (c : InnerClient) (streams : list Stream) (turns : list (nat * DriverWakeup)) : Drivers :=
  let o := pool_options (pool c) in
  foldl (drivers_turn (auto_save_events o))
    (mkDrivers ((λ _, (true, lru_new (dedup_cache_size o))) <$> streams) (store c) []) turns.

Definition collect_events (items : list StreamOut) : list Event :=
  Events.from_unsorted (omap (λ x, result_ok x.2) items).

(** [turns]: what the drivers of the opened streams wake up to. *)
Definition fetch_from (turns : list (nat * DriverWakeup)) (opened : result (list Stream) Error * InnerClient) :
    result (list Event) Error * InnerClient :=
  match opened with
  | (Err e, c) => (Err e, c)
  | (Ok streams, c) =>
      let d := drivers_run c streams turns in
      (Ok (collect_events (received d)), set_store c (saved d))
  end.
Definition fetch_events (turns : list (nat * DriverWakeup)) (c : InnerClient) (f : Filter) :
    result (list Event) Error * InnerClient := fetch_from turns (stream_events c f).
Definition fetch_events_from {U} `{IntoRelayUrl U} (turns : list (nat * DriverWakeup)) (c : InnerClient) (urls : list U)
    (f : Filter) : result (list Event) Error * InnerClient := fetch_from turns (stream_events_from c urls f).

(** ** Relay lists ([nips/nip65.rs]) *)

Definition latest_filter (kind : Kind) (pk : PublicKey) : Filter :=
  Filter.with_limit (Filter.add_author (Filter.add_kind Filter.new kind) pk) 1.

Definition get_relay_list (turns : list (nat * DriverWakeup)) (c : InnerClient) (pk : PublicKey) :
    result (option Nip65.RelayList) Error * InnerClient :=
  let '(r, c) := fetch_events turns c (latest_filter Kind.RELAY_LIST pk) in
  (let? events := r in
   match head events with
   | None => Ok None
   | Some event => let? l := map_err Nip65 (Nip65.from_event event) in Ok (Some l)
   end, c).

(** [clock] is the time the router's store reads. *)
Definition gossip_process (clock : result Timestamp string) (c : InnerClient) (event : Event) : InnerClient :=
  match gossip c with
  | Some g => set_gossip c (Some (Gossip.process clock g event None))
  | None => c
  end.

Definition refresh_one (clock : result Timestamp string) (turns : list (nat * DriverWakeup)) (c : InnerClient)
    (pk : PublicKey) (kind : Kind) : result nat Error * InnerClient :=
  match fetch_events turns c (latest_filter kind pk) with
  | (Err e, c) => (Err e, c)
  | (Ok events, c) =>
      match head events with
      | None => (Ok 0%nat, c)
      | Some event => (Ok 1%nat, gossip_process clock c event)
      end
  end.
End streams.

(** What the two fetches of one user meet. *)
Record RefreshWorld := mkRefreshWorld {
  r_answer : Pool.Relay → result unit ClientError;
  r_fresh : nat → nat → option SubscriptionId;
  r_turns : list (nat * DriverWakeup);
  r_clock : result Timestamp string;
}.
Definition refresh_in (w : RefreshWorld) := refresh_one (r_answer w) (r_fresh w) (r_clock w) (r_turns w).

Fixpoint refresh_users (world : PublicKey → Kind → RefreshWorld) (c : InnerClient) (pks : list PublicKey) (ingested : nat) :
    result nat Error * InnerClient :=
  match pks with
  | [] => (Ok ingested, c)
  | pk :: pks =>
      match refresh_in (world pk Kind.RELAY_LIST) c pk Kind.RELAY_LIST with
      | (Err e, c) => (Err e, c)
      | (Ok n, c) =>
          match refresh_in (world pk Nip17.DM_RELAYS) c pk Nip17.DM_RELAYS with
          | (Err e, c) => (Err e, c)
          | (Ok m, c) => refresh_users world c pks (ingested + n + m)
          end
      end
  end.
Definition refresh_relay_metadata (world : PublicKey → Kind → RefreshWorld) (c : InnerClient) (pks : list PublicKey) :
    result nat Error * InnerClient :=
  match gossip c with
  | None => (Ok 0%nat, c)
  | Some _ => refresh_users world c pks 0
  end.

Definition set_relay_list (answer : Pool.Relay → result unit string) (now : option Timestamp)
    (clock : result Timestamp string) (c : InnerClient) (l : Nip65.RelayList) : result (Output EventId) Error * InnerClient :=
  match sign_event_builder now c (Nip65.to_event_builder l) with
  | Err e => (Err e, c)
  | Ok signed => send_event answer (gossip_process clock c signed) signed
  end.

(** *** The refresher ([gossip.rs]) *)

(** What one refresh meets: the clock before it, the clock of the store, and
    what the discovery relays deliver. *)
Record TickWorld := mkTickWorld {
  t_now : option Timestamp;
  t_clock : result Timestamp string;
  t_stream : result (list (RelayUrl * result Event string)) string;
}.
Definition refresh_keys (world : PublicKey → ListKind → TickWorld) (k : ListKind) (discovery : list RelayUrl)
    (g : Gossip.Inner (DB := DB)) (keys : list OutdatedKey) : Gossip.Inner (DB := DB) :=
  foldl (λ g key,
      let w := world (Gossip.public_key key) k in
      (Gossip.refresh (t_now w) (t_clock w) g (Gossip.public_key key) k discovery (t_stream w)).2) g keys.

(** [entries g]: the routes in the order of the map; the keys come oldest first. *)
Definition refresh_tick (clock : option Timestamp) (entries : Gossip.Inner (DB := DB) → list (PublicKey * UserRoutes))
    (world : PublicKey → ListKind → TickWorld) (discovery : list RelayUrl) (batch : nat) (g : Gossip.Inner (DB := DB)) :
    Gossip.Inner (DB := DB) :=
  foldl (λ g k, refresh_keys world k discovery g (btree_iter outdated_le (Gossip.outdated clock g (entries g) k batch)))
    g [ListNip65; ListNip17].

(** A tick after the first: whether the loop goes on, and the router. *)
Definition refresher_turn (clock : option Timestamp) (entries : Gossip.Inner (DB := DB) → list (PublicKey * UserRoutes))
    (world : PublicKey → ListKind → TickWorld) (p : Pool.Pool) (g : Gossip.Inner (DB := DB)) : bool * Gossip.Inner (DB := DB) :=
  if Pool.shutdown p then (false, g)
  else
    let batch := Nat.max 1 (refresher_batch (Gossip.options g)) in
    let discovery := elements (relays_with_any_capability p (N.lor RelayCapabilities.DISCOVERY RelayCapabilities.READ)) in
    if decide (discovery = []) then (true, g) else (true, refresh_tick clock entries world discovery batch g).

(** ** Private messages ([nips/nip17.rs]) *)

(** What building the envelopes draws. *)
Record WrapWorld := mkWrapWorld {
  w_clocks : option Timestamp * option Timestamp * option Timestamp;
  w_seal_random : result (list byte) string;
  w_wrap_random : result (list byte) string;
  w_draws : nat → Nip59.Draws;
}.

Definition build_wraps (w : WrapWorld) (sender : secret_key) (recipients : list Chat.Recipient) (message : string)
    (reply_to : option Chat.ReplyTo) : result (list Event) Error :=
  if decide (recipients = []) then Err (Nip17 Chat.NoRecipients)
  else
    let? ts := map_err (λ e, Nip17 (Chat.Wrap e)) (Nip59.random_past (w_clocks w) (w_seal_random w) (w_wrap_random w)) in
    let rumor := Chat.build_chat_message_rumor sender recipients message (Nip59.rumor_at ts) None reply_to in
    map_err Nip17 (Chat.wrap_for_many (w_draws w) sender recipients rumor ts).

(** [answer e r]: what relay [r] answers to the event [e]. *)
Fixpoint send_wraps (answer : Event → Pool.Relay → result unit string) (c : InnerClient) (wraps : list Event)
    (urls : option (list RelayUrl)) (merged : Output (list EventId)) : result (Output (list EventId)) Error * InnerClient :=
  match wraps with
  | [] => (Ok merged, c)
  | wrap :: wraps =>
      match (match urls with
             | Some urls => send_event_to (answer wrap) c urls wrap
             | None => send_event (answer wrap) c wrap
             end) with
      | (Err e, c) => (Err e, c)
      | (Ok one, c) =>
          let merged := merge_output merged one in
          send_wraps answer c wraps urls (mkOutput (value merged ++ [value one]) (success merged) (failed merged))
      end
  end.

Definition send_private_msg (answer : Event → Pool.Relay → result unit string) (w : WrapWorld) (c : InnerClient)
    (sender : secret_key) (recipients : list Chat.Recipient) (message : string) (reply_to : option Chat.ReplyTo) :
    result (Output (list EventId)) Error * InnerClient :=
  match build_wraps w sender recipients message reply_to with
  | Err e => (Err e, c)
  | Ok wraps => send_wraps answer c wraps None (output_new [])
  end.
Definition send_private_msg_to {U} `{IntoRelayUrl U} (answer : Event → Pool.Relay → result unit string) (w : WrapWorld)
    (c : InnerClient) (urls : list U) (sender : secret_key) (recipients : list Chat.Recipient) (message : string)
    (reply_to : option Chat.ReplyTo) : result (Output (list EventId)) Error * InnerClient :=
  match collect_relay_urls urls with
  | Err e => (Err (RelayUrlErr e), c)
  | Ok urls =>
      match build_wraps w sender recipients message reply_to with
      | Err e => (Err e, c)
      | Ok wraps => send_wraps answer c wraps (Some urls) (output_new [])
      end
  end.

Record ReceivedPrivateMsg := mkReceived {
  wrap_id : EventId;
  wrap_pubkey : PublicKey;
  wrap_created_at : Timestamp;
  rumor : UnsignedEvent;
}.

Definition wrap_filter (pk : PublicKey) (since : option Timestamp) : Filter :=
  let f := Filter.pubkey (Filter.add_kind Filter.new Nip59.GIFT_WRAP) pk in
  match since with Some ts => Filter.with_since f ts | None => f end.
(** An envelope that does not open is left out. *)
Definition read_wrap (receiver : secret_key) (wrap : Event) : option ReceivedPrivateMsg :=
  match Chat.unwrap_dm_payload receiver wrap with
  | Ok rumor => Some (mkReceived (Event.id wrap) (Event.pubkey wrap) (Event.created_at wrap) rumor)
  | Err _ => None
  end.
Definition receive_private_msgs (answer : Pool.Relay → result unit ClientError) (fresh : nat → nat → option SubscriptionId)
    (turns : list (nat * DriverWakeup)) (c : InnerClient) (receiver : secret_key) (since : option Timestamp) :
    result (list ReceivedPrivateMsg) Error * InnerClient :=
  let '(r, c) := fetch_events answer fresh turns c (wrap_filter (xonly_public_key receiver) since) in
  (let? events := r in Ok (omap (read_wrap receiver) events), c).

Definition set_dm_relays (answer : Pool.Relay → result unit string) (clock : option Timestamp) (c : InnerClient)
    (relays : list RelayUrl) : result (Output EventId) Error * InnerClient :=
  send_event_builder answer clock c (Nip17.build_dm_relays_event relays).

(** The errors of the list reader among those of NIP-17. *)
Definition dm_relays_error (e : Nip17.DmRelaysError) : Chat.Nip17Error :=
  match e with
  | Nip17.UnexpectedKind got => Chat.UnexpectedKind got
  | Nip17.MissingRelayUrl => Chat.MissingRelayUrl
  | Nip17.InvalidRelayUrl e => Chat.InvalidRelayUrl e
  end.
Definition get_dm_relays (answer : Pool.Relay → result unit ClientError) (fresh : nat → nat → option SubscriptionId)
    (turns : list (nat * DriverWakeup)) (c : InnerClient) (pk : PublicKey) :
    result (option (list RelayUrl)) Error * InnerClient :=
  let '(r, c) := fetch_events answer fresh turns c (latest_filter Nip17.DM_RELAYS pk) in
  (let? events := r in
   match head events with
   | None => Ok None
   | Some event => let? l := map_err (λ e, Nip17 (dm_relays_error e)) (Nip17.parse_dm_relays_event event) in Ok (Some l)
   end, c).
End facade.
End Facade.
