(* ===== verification/FacadeSync.v ===== *)
(** * The reconciliation driver

    [crates/nula/src/sync.rs]: the client reconciles its database with a relay's
    by a NIP-77 session, then publishes what only it has and fetches what only
    the relay has.  The session itself is [Sync], the pool and its streams
    [Facade].

    What the relay sends and answers is an argument; the overall timeout, which
    abandons the driver at any of its waits, is not modelled. *)

From Stdlib Require Import Ascii NArith Lia.
From S2P Require Import Prelude Encoding Text Ids Tags Event Filter FilterWire Storage SpecProofs Database.
From S2P Require Import Nips Message Sync HttpAuth Client Pool Facade.

(** ** What the session's algorithm promises *)

Section dialogue.
Context `{NegentropyCrate}.

(** The two ends of a session, message by message, until the initiator is done:
    the ids it has found that it alone has, and that it alone needs. *)
Fixpoint neg_dialogue (n : nat) (initiator responder : neg_machine) (query : list byte) : option (list bytes32 * list bytes32) :=
  match n with
  | O => None
  | S n =>
      match neg_reconcile responder query with
      | (Err _, _) => None
      | (Ok reply, responder) =>
          match neg_reconcile_with_ids initiator reply with
          | (Err _, _) => None
          | (Ok (None, have, need), _) => Some (have, need)
          | (Ok (Some query, have, need), initiator) =>
              match neg_dialogue n initiator responder query with
              | Some (have', need') => Some (have ++ have', need ++ need')
              | None => None
              end
          end
      end
  end.
End dialogue.

(** The documented outcome of the [negentropy] crate: a storage holds the ids put
    into it, and a session that ends has found the differences. *)
Class NegentropyLaws `{NegentropyCrate} := {
  neg_contents : neg_storage → gset bytes32;
  neg_empty_contents : neg_contents neg_empty = ∅;
  neg_insert_contents : ∀ s ts id s', neg_insert s ts id = Ok s' → neg_contents s' = {[id]} ∪ neg_contents s;
  neg_seal_contents : ∀ s s', neg_seal s = Ok s' → neg_contents s' = neg_contents s;
  neg_differences : ∀ sa sb la lb ma mb query ma' n have need,
    neg_owned sa la = Ok ma → neg_owned sb lb = Ok mb → neg_initiate ma = (Ok query, ma') →
    neg_dialogue n ma' mb query = Some (have, need) →
    list_to_set have = neg_contents sa ∖ neg_contents sb ∧ list_to_set need = neg_contents sb ∖ neg_contents sa;
}.

(** [NostrDatabase::event_by_id]. *)
Class EventLookup (DB : Type) := store_event : DB → EventId → result (option Event) string.

Module FacadeSync.
Import Facade.

Inductive SyncDirection := Up | Down | Both.
Definition do_up (d : SyncDirection) : bool := match d with Up | Both => true | Down => false end.
Definition do_down (d : SyncDirection) : bool := match d with Down | Both => true | Up => false end.

Record SyncProgress := mkProgress { total : N; current : N }.
Definition saturating_add (a b : N) : N := N.min Dec.u64_max (a + b).

Record SyncSummary := mkSummary {
  local : gset EventId;
  remote : gset EventId;
  sent : gset EventId;
  received : gset EventId;
  send_failures : gmap EventId string;
  rejected_by_policy : gmap EventId (option string);
}.
Definition empty_summary : SyncSummary := mkSummary ∅ ∅ ∅ ∅ ∅ ∅.
Definition is_empty_exchange (s : SyncSummary) : bool :=
  bool_decide (sent s = ∅) && bool_decide (received s = ∅) && bool_decide (send_failures s = ∅).
(** What [other] has for a key takes the place of what [s] has. *)
Definition merge (s other : SyncSummary) : SyncSummary :=
  mkSummary (local s ∪ local other) (remote s ∪ remote other) (sent s ∪ sent other) (received s ∪ received other)
    (send_failures other ∪ send_failures s) (rejected_by_policy other ∪ rejected_by_policy s).

Definition mark_sent (s : SyncSummary) (id : EventId) : SyncSummary :=
  mkSummary (local s) (remote s) ({[id]} ∪ sent s) (received s) (send_failures s) (rejected_by_policy s).
Definition mark_failed (s : SyncSummary) (id : EventId) (e : string) : SyncSummary :=
  mkSummary (local s) (remote s) (sent s) (received s) (<[id := e]> (send_failures s)) (rejected_by_policy s).
Definition mark_received (s : SyncSummary) (id : EventId) : SyncSummary :=
  mkSummary (local s) (remote s) (sent s) ({[id]} ∪ received s) (send_failures s) (rejected_by_policy s).
Definition mark_rejected (s : SyncSummary) (id : EventId) (reason : option string) : SyncSummary :=
  mkSummary (local s) (remote s) (sent s) (received s) (send_failures s) (<[id := reason]> (rejected_by_policy s)).

(** The options; the progress channel is the value it holds. *)
Record SyncOptions := mkSyncOptions { direction : SyncDirection; dry_run : bool }.
Definition default_options : SyncOptions := mkSyncOptions Down false.

Definition MAX_NEG_ROUNDS : nat := N.to_nat 1024.

Definition tick_progress (p : option SyncProgress) : option SyncProgress :=
  (λ p, mkProgress (total p) (saturating_add (current p) 1)) <$> p.

(** The ids not there yet are counted. *)
Definition insert_all (ids : list EventId) (target : gset EventId) : N * gset EventId :=
  foldl (λ st id, if decide (id ∈ st.2) then st else (st.1 + 1, {[id]} ∪ st.2)%N) (0%N, target) ids.

Definition fold_outcome (o : SyncOptions) (outcome : Sync.ReconcileOutcome) (s : SyncSummary) (p : option SyncProgress) :
    SyncSummary * option SyncProgress :=
  let '(up, l) := if do_up (direction o) then insert_all (Sync.have outcome) (local s) else (0%N, local s) in
  let '(down, r) := if do_down (direction o) then insert_all (Sync.need outcome) (remote s) else (0%N, remote s) in
  let delta := saturating_add up down in
  (mkSummary l r (sent s) (received s) (send_failures s) (rejected_by_policy s),
   if (0 <? delta)%N then (λ p, mkProgress (saturating_add (total p) delta) (current p)) <$> p else p).

Section sync.
Context `{FasterHex, Secp256k1, UrlCrate, LruCrate, NegentropyCrate}.
Context {DB : Type} `{NostrDatabase DB, !EventLookup DB}.

(** ** The session *)

Record Run := mkRun {
  run_pool : Pool.Pool;
  session : Sync.Reconciliation;
  summary : SyncSummary;
  progress : option SyncProgress;
}.

(** [items]: what arrives on the session's stream, each with the outcome of
    sending the message it may call for. *)
Fixpoint neg_rounds (rounds : nat) (o : SyncOptions) (r : Pool.Relay) (id : SubscriptionId)
    (items : list (SubscriptionItem * result unit ClientError)) (st : Run) : result unit Error * Run :=
  match rounds, items with
  | S rounds, (item, answer) :: items =>
      match item with
      | ItemNegMsg message =>
          match Sync.reconcile_hex (session st) message with
          | (Err e, ss) => (Err (Sync e), mkRun (run_pool st) ss (summary st) (progress st))
          | (Ok outcome, ss) =>
              let '(s, p) := fold_outcome o outcome (summary st) (progress st) in
              match Sync.next_message_hex outcome with
              | None => (Ok tt, mkRun (run_pool st) ss s p)
              | Some next =>
                  let st := mkRun (ask (run_pool st) r (AskSend (ClientMessage.NegMsg id next))) ss s p in
                  match answer with
                  | Err e => (Err (Relay e), st)
                  | Ok _ => neg_rounds rounds o r id items st
                  end
              end
          end
      | ItemNegErr message => (Err (SyncFailed message), st)
      | _ => neg_rounds rounds o r id items st
      end
  | _, _ => (Err SyncStreamClosed, st)
  end.

(** [opened]: the outcome of [subscribe_neg].  The handle is dropped on the way
    out. *)
Definition reconcile_loop (o : SyncOptions) (r : Pool.Relay) (id : SubscriptionId) (f : Filter) (opening : string)
    (opened : result unit ClientError) (items : list (SubscriptionItem * result unit ClientError)) (st : Run) :
    result unit Error * Run :=
  let st := mkRun (ask (run_pool st) r (AskNeg id f opening)) (session st) (summary st) (progress st) in
  match opened with
  | Err e => (Err (Relay e), st)
  | Ok _ =>
      let '(res, st) := neg_rounds MAX_NEG_ROUNDS o r id items st in
      (res, mkRun (ask (run_pool st) r (AskClose id)) (session st) (summary st) (progress st))
  end.

(** ** The two phases *)

(** The client with the summary and the progress of the call. *)
Record Phase := mkPhase { client : InnerClient (DB := DB); so_far : SyncSummary; ticks : option SyncProgress }.

(** [publish e]: the relay's answer, an error as its text. *)
Definition upload_one (publish : Event → result unit string) (r : Pool.Relay) (st : Phase) (id : EventId) : Phase :=
  let c := client st in
  match store_event (store c) id with
  | Ok (Some event) =>
      let c := set_pool c (ask (pool c) r (AskPublish event publish_options_new)) in
      mkPhase c (match publish event with
                 | Ok _ => mark_sent (so_far st) id
                 | Err e => mark_failed (so_far st) id e
                 end) (tick_progress (ticks st))
  | Ok None => mkPhase c (mark_failed (so_far st) id "event not found in local database") (ticks st)
  | Err e => mkPhase c (mark_failed (so_far st) id e) (ticks st)
  end.
Definition upload_phase (publish : Event → result unit string) (r : Pool.Relay) (st : Phase) : Phase :=
  foldl (upload_one publish r) st (elements (local (so_far st))).

(** The loop over the events fetched; [clock e] is the time the database reads
    when it saves [e]. *)
Fixpoint download_each (clock : Event → result Timestamp string) (url : RelayUrl) (id : SubscriptionId)
    (events : list Event) (st : Phase) : result unit Error * Phase :=
  match events with
  | [] => (Ok tt, st)
  | event :: events =>
      match check_admit_event (client st) url id event with
      | Err (PolicyRejected _ reason) =>
          download_each clock url id events
            (mkPhase (client st) (mark_rejected (so_far st) (Event.id event) reason) (tick_progress (ticks st)))
      | Err e => (Err e, st)
      | Ok _ =>
          let '(res, d) := store_save (clock event) (store (client st)) event in
          download_each clock url id events
            (mkPhase (set_store (client st) d)
               (match res with
                | Ok _ => mark_received (so_far st) (Event.id event)
                | Err e => mark_failed (so_far st) (Event.id event) e
                end) (tick_progress (ticks st)))
      end
  end.

(** What the download meets. *)
Record FetchWorld := mkFetchWorld {
  f_answer : Pool.Relay → result unit ClientError;
  f_fresh : nat → nat → option SubscriptionId;
  f_turns : list (nat * DriverWakeup);
  f_clock : Event → result Timestamp string;
}.

Definition download_phase (w : FetchWorld) (url : RelayUrl) (id : SubscriptionId) (st : Phase) : result unit Error * Phase :=
  let f := Filter.add_ids Filter.new (elements (remote (so_far st))) in
  match fetch_events_from (f_answer w) (f_fresh w) (f_turns w) (client st) [url] f with
  | (Err e, c) => (Err e, mkPhase c (so_far st) (ticks st))
  | (Ok events, c) => download_each (f_clock w) url id events (mkPhase c (so_far st) (ticks st))
  end.

(** ** The driver *)

Record SyncWorld := mkSyncWorld {
  y_id : result SubscriptionId string;
  y_opened : result unit ClientError;
  y_items : list (SubscriptionItem * result unit ClientError);
  y_publish : Event → result unit string;
  y_fetch : FetchWorld;
}.

(** The phases after the session. *)
Definition exchange (w : SyncWorld) (o : SyncOptions) (url : RelayUrl) (r : Pool.Relay) (id : SubscriptionId) (st : Phase) :
    result SyncSummary Error * Phase :=
  if dry_run o then (Ok (so_far st), st)
  else
    let st := if do_up (direction o) then upload_phase (y_publish w) r st else st in
    if do_down (direction o) && negb (bool_decide (remote (so_far st) = ∅)) then
      match download_phase (y_fetch w) url id st with
      | (Err e, st) => (Err e, st)
      | (Ok _, st) => (Ok (so_far st), st)
      end
    else (Ok (so_far st), st).

Definition run_sync_to_relay (w : SyncWorld) (c : InnerClient (DB := DB)) (url : RelayUrl) (f : Filter) (o : SyncOptions)
    (p : option SyncProgress) : result SyncSummary Error * InnerClient (DB := DB) * option SyncProgress :=
  match get_relay (pool c) url with
  | None => (Err (UnknownRelay url), c, p)
  | Some r =>
      match (let? items := Sync.from_database (store_items (store c) f) in Sync.with_defaults items) with
      | Err e => (Err (Sync e), c, p)
      | Ok ss =>
          match y_id w with
          | Err e => (Err (SubscriptionIdGeneration e), c, p)
          | Ok id =>
              let '(res, run) := reconcile_loop o r id f (Sync.opening_message_hex ss) (y_opened w) (y_items w)
                                   (mkRun (pool c) ss empty_summary p) in
              let c := set_pool c (ask (run_pool run) r (AskSend (ClientMessage.NegClose id))) in
              match res with
              | Err e => (Err e, c, progress run)
              | Ok _ =>
                  let '(res, st) := exchange w o url r id (mkPhase c (summary run) (progress run)) in
                  (res, client st, ticks st)
              end
          end
      end
  end.

(** [sync_with]: one relay after the other, the first error ends it. *)
Fixpoint sync_each (world : nat → SyncWorld) (k : nat) (c : InnerClient (DB := DB)) (urls : list RelayUrl) (f : Filter)
    (o : SyncOptions) (p : option SyncProgress) (merged : SyncSummary) :
    result SyncSummary Error * InnerClient (DB := DB) * option SyncProgress :=
  match urls with
  | [] => (Ok merged, c, p)
  | url :: urls =>
      match run_sync_to_relay (world k) c url f o p with
      | (Err e, c, p) => (Err e, c, p)
      | (Ok s, c, p) => sync_each world (S k) c urls f o p (merge merged s)
      end
  end.
Definition sync_with {U} `{!IntoRelayUrl U} (world : nat → SyncWorld) (c : InnerClient (DB := DB)) (urls : list U) (f : Filter)
    (o : SyncOptions) (p : option SyncProgress) : result SyncSummary Error * InnerClient (DB := DB) * option SyncProgress :=
  match collect_relay_urls urls with
  | Err e => (Err (RelayUrlErr e), c, p)
  | Ok urls => sync_each world 0 c urls f o p empty_summary
  end.
End sync.
End FacadeSync.
