(* ===== verification/FacadeProofs.v ===== *)
(** * The client facade: lemmas

    What an operation may do to the pool and to the database, as a preorder on
    clients with one lemma for each primitive step, and the steps an application
    takes. *)

From Stdlib Require Import NArith Lia.
From S2P Require Import Prelude Encoding Text Ids Tags Event Filter FilterWire Storage SpecProofs Database.
From S2P Require Import Nips Message Sync HttpAuth Entities RelayLists Gossip Client Pool PoolTheorems GiftWrap.
From S2P Require Import Facade FacadeSync.
Import Facade.

(** ** The pool: what the operations ask for *)

Section pool_steps.
Context `{UrlCrate}.
Implicit Types p : Pool.Pool.

(** The table stays as it is, and nobody is asked to connect. *)
Record quiet p p' : Prop := {
  quiet_relays : relays p' = relays p;
  quiet_shutdown : Pool.shutdown p' = Pool.shutdown p;
  quiet_options : pool_options p' = pool_options p;
  quiet_asked : ∃ l, asked p' = asked p ++ l ∧ ∀ r, (r, AskConnect) ∉ l;
}.
#[global] Instance quiet_preorder : PreOrder quiet.
Proof.
  split.
  - intros p. split; try done. exists []. split; [by rewrite app_nil_r|set_solver].
  - intros p1 p2 p3 [R1 S1 O1 (l1 & E1 & G1)] [R2 S2 O2 (l2 & E2 & G2)]. split; [congruence..|].
    exists (l1 ++ l2). split; [by rewrite E2, E1, app_assoc|]. intros r. rewrite elem_of_app. naive_solver.
Qed.

Lemma quiet_get_relay p p' u : quiet p p' → get_relay p' u = get_relay p u.
Proof. intros Hq. unfold get_relay. by rewrite (quiet_relays _ _ Hq). Qed.

Lemma ask_quiet p r a : a ≠ AskConnect → quiet p (ask p r a).
Proof.
  intros Ha. split; try done. exists [(r, a)]. split; [done|]. intros r' [= ? ?]%list_elem_of_singleton. congruence.
Qed.
Lemma asks_quiet {B} p (l : list B) (f : B → Pool.Relay) (a : B → Ask) :
  (∀ x, a x ≠ AskConnect) → quiet p (foldl (λ p x, ask p (f x) (a x)) p l).
Proof.
  intros Ha. revert p. induction l as [|x l IH]; intros p; simpl; [done|].
  etrans; [apply (ask_quiet p (f x) (a x)), Ha|apply IH].
Qed.
Lemma fan_out_quiet {B} answer what targets (o : Output B) p :
  what ≠ AskConnect → quiet p (fan_out answer what targets o p).2.
Proof.
  intros Hw. revert o p. induction targets as [|[u r] targets IH]; intros o p; simpl; [done|].
  etrans; [by apply (ask_quiet p r what)|apply IH].
Qed.

Lemma send_event_to_quiet answer p urls e : quiet p (Pool.send_event_to answer p urls e).2.
Proof.
  unfold Pool.send_event_to. case_decide; [done|]. destruct (resolve _ _) as [l|]; [|done].
  pose proof (fan_out_quiet answer (AskPublish e publish_options_new) l (output_new (Event.id e)) p) as Hf.
  destruct (fan_out _ _ _ _ p). by apply Hf.
Qed.
Lemma subscribe_to_quiet answer p urls id fs o : quiet p (Pool.subscribe_to answer p urls id fs o).2.
Proof.
  unfold Pool.subscribe_to. case_decide; [done|]. destruct (resolve _ _) as [l|]; [|done].
  pose proof (fan_out_quiet answer (AskSubscribe id fs o) l (output_new id) p) as Hf.
  destruct (fan_out _ _ _ _ p) as [out p1]. simpl in *. etrans; [by apply Hf|].
  by apply (asks_quiet p1 _ snd (λ _, AskClose id)).
Qed.
Lemma open_streams_quiet answer fresh snap fs o urls n opened p :
  quiet p (open_streams answer fresh snap fs o urls n opened p).2.
Proof.
  revert n opened p. induction urls as [|u urls IH]; intros n opened p; simpl; [done|].
  assert (∀ q, quiet q (foldl (λ p x, ask p x.2 (AskClose x.1.2)) q opened)) as Hc
    by (intros q; by apply (asks_quiet q opened snd (λ x, AskClose x.1.2))).
  destruct (snap !! u) as [r|]; [|apply Hc]. destruct (fresh n) as [id|]; [|apply Hc].
  assert (quiet p (ask p r (AskSubscribe id fs o))) as Ha by by apply ask_quiet.
  destruct (answer r); [etrans; [exact Ha|apply IH]|etrans; [exact Ha|apply Hc]].
Qed.
Lemma stream_events_to_quiet answer fresh p urls fs o : quiet p (Pool.stream_events_to answer fresh p urls fs o).2.
Proof. unfold Pool.stream_events_to. case_decide; [done|]. apply open_streams_quiet. Qed.

(** [p'] holds relays of [p] and relays of [allowed], and was asked for more,
    connections only of relays of [gated]. *)
Record grown (allowed : RelayUrl → Prop) (gated : Pool.Relay → Prop) p p' : Prop := {
  grown_relays : ∀ u, is_Some (get_relay p' u) → is_Some (get_relay p u) ∨ allowed u;
  grown_asked : ∃ l, asked p' = asked p ++ l ∧ ∀ r, (r, AskConnect) ∈ l → gated r;
  grown_options : pool_options p' = pool_options p;
}.
#[global] Instance grown_preorder allowed gated : PreOrder (grown allowed gated).
Proof.
  split.
  - intros p. split; [by left| |done]. exists []. split; [by rewrite app_nil_r|set_solver].
  - intros p1 p2 p3 [H1 (l1 & E1 & G1) O1] [H2 (l2 & E2 & G2) O2]. split; [|exists (l1 ++ l2)|congruence].
    + intros u Hu. destruct (H2 u Hu) as [Hu'|?]; [by apply H1|by right].
    + split; [by rewrite E2, E1, app_assoc|]. intros r [?|?]%elem_of_app; eauto.
Qed.

Lemma grown_mono (A A' : RelayUrl → Prop) (G G' : Pool.Relay → Prop) p p' :
  grown A G p p' → (∀ u, A u → A' u) → (∀ r, G r → G' r) → grown A' G' p p'.
Proof.
  intros [H1 (l & E & Hl) H3] HA HG. split; [|by exists l; eauto|done].
  intros u Hu. destruct (H1 u Hu); eauto.
Qed.

Lemma quiet_grown A G p p' : quiet p p' → grown A G p p'.
Proof.
  intros [Hr _ Ho (l & E & Hl)]. split; [|by exists l; split; [|intros r ?%Hl]|done].
  intros u. unfold get_relay. rewrite Hr. by left.
Qed.

Lemma connect_grown A (G : Pool.Relay → Prop) p r : G r → grown A G p (ask p r AskConnect).
Proof.
  intros HG. split; [by left|exists [(r, AskConnect)]; split; [done|]|done].
  by intros r' [= ->]%list_elem_of_singleton.
Qed.
Lemma connects_grown {B} answer A (G : Pool.Relay → Prop) targets (o : Output B) p :
  (∀ x, x ∈ targets → G x.2) → grown A G p (fan_out answer AskConnect targets o p).2.
Proof.
  revert o p. induction targets as [|[u r] targets IH]; intros o p HG; simpl; [done|].
  etrans; [|apply IH; intros x Hx; apply HG; by right]. apply connect_grown, (HG (u, r)). left.
Qed.

Lemma add_grown (A : RelayUrl → Prop) G p url caps o :
  A url → grown A G p (Pool.add_relay_with_options p url caps o).2.
Proof.
  intros HA. unfold Pool.add_relay_with_options, add_relay_locked.
  destruct (Pool.shutdown p), (relays p !! url) as [entry|] eqn:E; simpl; try done.
  2: destruct (match max_relays (pool_options p) with Some max => _ | None => _ end); simpl; [done|].
  all: split; simpl; [|by exists []; rewrite app_nil_r; split; [|set_solver]|done].
  all: intros u; unfold get_relay; simpl; destruct (decide (u = url)) as [->|Hne]; [by right|].
  all: rewrite lookup_insert_ne by done; by left.
Qed.

Lemma remove_grown A G p url : grown A G p (Pool.remove_relay p url).2.
Proof.
  unfold Pool.remove_relay. destruct (relays p !! url) as [entry|]; simpl; [|done].
  split; simpl; [|exists [(relay entry, AskDisconnect)]; split; [done|]|done].
  - intros u. unfold get_relay. simpl. rewrite lookup_delete. case_decide; [by intros [? ?]|by left].
  - intros r Hr. apply list_elem_of_singleton in Hr. done.
Qed.

Lemma shutdown_grown A G p : grown A G p (pool_shutdown p).
Proof.
  unfold pool_shutdown. trans (mark_shutdown p).
  - unfold mark_shutdown. destruct (Pool.shutdown p); [done|]. split; [by left|exists []|done].
    split; [by rewrite app_nil_r|set_solver].
  - destruct (drain_spec (mark_shutdown p)) as (Hr & _ & _ & Ho & _ & Ha). split; [|eexists; split; [exact Ha|]|done].
    + intros u. unfold get_relay. rewrite Hr, lookup_empty. by intros [? ?].
    + by intros r (x & [=] & _)%list_elem_of_fmap.
Qed.
End pool_steps.

(** ** The client *)

Section client_steps.
Context `{FasterHex, Secp256k1, SecretScalar, SerdeJson, SigSerde, JsonText, EventCrypto, !Nip44Crates, Base64, UrlCrate, LruCrate}.
Context {DB : Type} `{NostrDatabase DB}.
Implicit Types c : InnerClient (DB := DB).

(** Only the pool differs. *)
Definition same_rest c c' : Prop := c' = set_pool c (pool c').
Lemma same_rest_refl c : same_rest c c.
Proof. by destruct c. Qed.
Lemma same_rest_trans c1 c2 c3 : same_rest c1 c2 → same_rest c2 c3 → same_rest c1 c3.
Proof. unfold same_rest. intros E1 E2. rewrite E2, E1. done. Qed.
Lemma same_rest_set_pool c p : same_rest c (set_pool c p).
Proof. done. Qed.

Lemma same_rest_admit c c' : same_rest c c' →
  (∀ u, check_admit_relay c' u = check_admit_relay c u) ∧ (∀ u, check_admit_connection c' u = check_admit_connection c u)
  ∧ (∀ u i e, check_admit_event c' u i e = check_admit_event c u i e).
Proof. intros E. unfold check_admit_relay, check_admit_connection, check_admit_event. by rewrite E. Qed.

(** *** Relays added on demand *)

Record ensured (urls : list RelayUrl) c c' : Prop := {
  en_rest : same_rest c c';
  en_keep : ∀ u r, get_relay (pool c) u = Some r → get_relay (pool c') u = Some r;
  en_grown : grown (λ u, u ∈ urls ∧ check_admit_relay c u = Ok tt)
    (λ r, ∃ u, u ∈ urls ∧ check_admit_connection c u = Ok tt ∧ get_relay (pool c') u = Some r ∧ get_relay (pool c) u = None)
    (pool c) (pool c');
  en_only : ∃ l, asked (pool c') = asked (pool c) ++ l ∧ Forall (λ x, x.2 = AskConnect) l;
  en_shutdown : Pool.shutdown (pool c') = Pool.shutdown (pool c);
  en_done : max_relays (pool_options (pool c)) = None → Pool.shutdown (pool c) = false →
    ∀ u, u ∈ urls → check_admit_relay c u = Ok tt → is_Some (get_relay (pool c') u);
}.

Lemma no_asks p : ∃ l, asked p = asked p ++ l ∧ Forall (λ x : Pool.Relay * Ask, x.2 = AskConnect) l.
Proof. exists []. split; [by rewrite app_nil_r|by apply Forall_nil_2]. Qed.

Lemma ensured_refl c : ensured [] c c.
Proof. split; [apply same_rest_refl|done|done|apply no_asks|done|set_solver]. Qed.

Lemma ensured_app us vs c1 c2 c3 : ensured us c1 c2 → ensured vs c2 c3 → ensured (us ++ vs) c1 c3.
Proof.
  intros [F1 K1 G1 (l1 & E1 & L1) S1 D1] [F2 K2 G2 (l2 & E2 & L2) S2 D2]. destruct (same_rest_admit _ _ F1) as (Ar & Ac & _). split.
  - by eapply same_rest_trans.
  - eauto.
  - etrans; eapply grown_mono; [exact G1| | |exact G2| |].
    + intros u [Hu Ha]. set_solver.
    + intros r (u & Hu & Ha & E & En). exists u. split_and!; [set_solver|done|eauto|done].
    + intros u [Hu Ha]. rewrite Ar in Ha. set_solver.
    + intros r (u & Hu & Ha & E & En). rewrite Ac in Ha. exists u. split_and!; [set_solver|done|done|].
      destruct (get_relay (pool c1) u) as [r'|] eqn:Eu; [|done]. apply K1 in Eu. congruence.
  - exists (l1 ++ l2). split; [by rewrite E2, E1, app_assoc|by apply Forall_app].
  - congruence.
  - intros Hm Hs u [Hu|Hu]%elem_of_app Ha.
    + destruct (D1 Hm Hs u Hu Ha) as [r Hr]. exists r. by apply K2.
    + apply D2; [by rewrite (grown_options _ _ _ _ G1)|congruence|done|by rewrite Ar].
Qed.

Lemma add_relay_kept p url caps o u r :
  get_relay p u = Some r → get_relay (Pool.add_relay_with_options p url caps o).2 u = Some r.
Proof.
  unfold Pool.add_relay_with_options, add_relay_locked, get_relay. intros E.
  destruct (Pool.shutdown p), (relays p !! url) as [entry|] eqn:Eu; simpl; try done.
  2: destruct (match max_relays (pool_options p) with Some max => _ | None => _ end); simpl; [done|].
  all: destruct (decide (url = u)) as [<-|Hne]; [rewrite lookup_insert_eq|by rewrite lookup_insert_ne by done].
  all: rewrite Eu in E; done.
Qed.

Lemma add_relay_shutdown p url caps o :
  Pool.shutdown (Pool.add_relay_with_options p url caps o).2 = Pool.shutdown p.
Proof.
  unfold Pool.add_relay_with_options, add_relay_locked.
  destruct (Pool.shutdown p) eqn:Es, (relays p !! url) as [entry|] eqn:Eu; simpl; try done.
  by destruct (match max_relays (pool_options p) with Some max => _ | None => _ end).
Qed.

Lemma add_relay_done p url caps o :
  max_relays (pool_options p) = None → Pool.shutdown p = false →
  result_ok (Pool.add_relay_with_options p url caps o).1 ≠ None
  ∧ is_Some (get_relay (Pool.add_relay_with_options p url caps o).2 url).
Proof.
  intros Hm Hs. unfold Pool.add_relay_with_options, add_relay_locked. rewrite Hs, Hm.
  destruct (relays p !! url) as [entry|] eqn:Eu; unfold get_relay; simpl; rewrite lookup_insert_eq; by eauto.
Qed.

Lemma add_relay_asked p url caps o :
  asked (Pool.add_relay_with_options p url caps o).2 = asked p.
Proof.
  unfold Pool.add_relay_with_options, add_relay_locked.
  destruct (Pool.shutdown p), (relays p !! url) as [entry|]; simpl; try done.
  by destruct (match max_relays (pool_options p) with Some max => _ | None => _ end).
Qed.

Lemma ensure_one c u : ensured [u] c (ensure_gossip_relay c u).
Proof.
  unfold ensure_gossip_relay. destruct (get_relay (pool c) u) as [r0|] eqn:E.
  { split; [apply same_rest_refl|done|done|apply no_asks|done|]. intros _ _ v ->%list_elem_of_singleton. by rewrite E. }
  destruct (check_admit_relay c u) as [[]|] eqn:Ea.
  2:{ split; [apply same_rest_refl|done|done|apply no_asks|done|]. intros _ _ v ->%list_elem_of_singleton. by rewrite Ea. }
  set (p := (Pool.add_relay (pool c) u RelayCapabilities.GOSSIP).2).
  assert (∀ v r, get_relay (pool c) v = Some r → get_relay p v = Some r) as Hk
    by (intros v r; apply add_relay_kept).
  assert (∀ G, grown (λ v, v ∈ [u] ∧ check_admit_relay c v = Ok tt) G (pool c) p) as Hg.
  { intros G. apply add_grown. split; [left|done]. }
  assert (Pool.shutdown p = Pool.shutdown (pool c)) as Hs by apply add_relay_shutdown.
  assert (max_relays (pool_options (pool c)) = None → Pool.shutdown (pool c) = false → is_Some (get_relay p u)) as Hd
    by (intros Hm Hs'; by apply add_relay_done).
  assert (asked p = asked (pool c)) as Hp by apply add_relay_asked.
  assert (ensured [u] c (set_pool c p)) as Hdone.
  { split; [done|exact Hk|apply Hg|simpl; rewrite Hp; apply no_asks|exact Hs|]. intros Hm Hs' v ->%list_elem_of_singleton _. by apply Hd. }
  unfold p in *. destruct (Pool.add_relay (pool c) u RelayCapabilities.GOSSIP) as [[b|e] q]; [|done]. simpl in *.
  change (check_admit_connection (set_pool c q) u) with (check_admit_connection c u).
  destruct (check_admit_connection c u) as [[]|] eqn:Ec; [|done].
  destruct (get_relay q u) as [r|] eqn:Eq; [|done]. split; [done|exact Hk| | |exact Hs|].
  - etrans; [apply Hg|]. apply connect_grown. exists u. split_and!; [left|done|done|done].
  - exists [(r, AskConnect)]. split; [by rewrite <-Hp|by apply Forall_singleton].
  - intros Hm Hs' v ->%list_elem_of_singleton _. by eexists.
Qed.

Lemma ensure_ensured c urls : ensured urls c (ensure_gossip_relays c urls).
Proof.
  unfold ensure_gossip_relays. induction urls as [|u urls IH] using rev_ind; [apply ensured_refl|].
  rewrite foldl_app. eapply ensured_app; [exact IH|apply ensure_one].
Qed.

(** *** Quiet operations *)

(** The pool is quiet, the database and the policy stay. *)
Record quiet_step c c' : Prop := {
  qs_pool : quiet (pool c) (pool c');
  qs_store : store c' = store c;
  qs_policy : admit_policy c' = admit_policy c;
}.
#[global] Instance quiet_step_preorder : PreOrder quiet_step.
Proof. split; [by split|]. intros c1 c2 c3 [Q1 S1 P1] [Q2 S2 P2]. split; [by etrans|congruence..]. Qed.

Lemma quiet_set_pool c p : quiet (pool c) p → quiet_step c (set_pool c p).
Proof. by split. Qed.
Lemma quiet_set_subscriptions c m : quiet_step c (set_subscriptions c m).
Proof. by split. Qed.

Lemma pool_publish_to_quiet answer c urls e : quiet_step c (pool_publish_to answer c urls e).2.
Proof.
  unfold pool_publish_to. pose proof (send_event_to_quiet answer (pool c) urls e).
  destruct (Pool.send_event_to answer (pool c) urls e). by apply quiet_set_pool.
Qed.
Lemma pool_publish_quiet answer c e : quiet_step c (pool_publish answer c e).2.
Proof. apply (pool_publish_to_quiet answer c (relays_with_any_capability (pool c) RelayCapabilities.WRITE) e). Qed.

Lemma pool_subscribe_to_quiet answer c urls id f o : quiet_step c (pool_subscribe_to answer c urls id f o).2.
Proof.
  unfold pool_subscribe_to. pose proof (subscribe_to_quiet answer (pool c) urls id [f] o).
  destruct (Pool.subscribe_to answer (pool c) urls id [f] o). by apply quiet_set_pool.
Qed.
Lemma subscribe_generic_quiet answer c id f o : quiet_step c (subscribe_generic answer c id f o).2.
Proof.
  unfold subscribe_generic, pool_subscribe.
  pose proof (subscribe_to_quiet answer (pool c) (relays_with_any_capability (pool c) RelayCapabilities.READ) id [f] o) as Hq.
  destruct (Pool.subscribe_to _ _ _ _ _ _) as [[out|e] p]; simpl in *; [|by apply quiet_set_pool].
  case_decide; by split.
Qed.
Lemma subscribe_each_quiet answer c id o parts out us fs : quiet_step c (subscribe_each answer c id o parts out us fs).2.
Proof.
  revert c out us fs. induction parts as [|[u f] parts IH]; intros c out us fs; simpl; [done|].
  pose proof (pool_subscribe_to_quiet answer c {[u]} id f o) as Hq.
  destruct (pool_subscribe_to answer c {[u]} id f o) as [[one|e] c1]; simpl in Hq; (etrans; [exact Hq|apply IH]).
Qed.

Lemma open_stream_quiet answer fresh k c urls f : quiet_step c (open_stream answer fresh k c urls f).2.
Proof.
  unfold open_stream. pose proof (stream_events_to_quiet answer (fresh k) (pool c) urls [f] eose_options).
  destruct (Pool.stream_events_to _ _ _ _ _ _). by apply quiet_set_pool.
Qed.
Lemma stream_generic_quiet answer fresh k c f : quiet_step c (stream_generic answer fresh k c f).2.
Proof.
  unfold stream_generic.
  pose proof (open_stream_quiet answer fresh k c (relays_with_any_capability (pool c) RelayCapabilities.READ) f) as Hq.
  by destruct (open_stream _ _ _ _ _ _).
Qed.
Lemma open_each_quiet answer fresh k c parts ss : quiet_step c (open_each answer fresh k c parts ss).2.
Proof.
  revert k c ss. induction parts as [|[u f] parts IH]; intros k c ss; simpl; [done|].
  pose proof (open_stream_quiet answer fresh k c {[u]} f) as Hq.
  destruct (open_stream answer fresh k c {[u]} f) as [[s|e] c1]; simpl in Hq; (etrans; [exact Hq|apply IH]).
Qed.

(** *** Operations that may add relays first *)

Definition extends c c' : Prop := ∃ urls c1, ensured urls c c1 ∧ quiet_step c1 c'.

Lemma quiet_extends c c' : quiet_step c c' → extends c c'.
Proof. intros Hq. exists [], c. split; [apply ensured_refl|done]. Qed.

Lemma extends_quiet c1 c2 c3 : extends c1 c2 → quiet_step c2 c3 → extends c1 c3.
Proof. intros (us & c & He & Hq) Hq'. exists us, c. split; [done|by etrans]. Qed.

Lemma extends_store c c' : extends c c' → store c' = store c ∧ admit_policy c' = admit_policy c.
Proof.
  intros (us & c1 & [Hr _ _ _ _ _] & [_ Hs Hp]). rewrite Hs, Hp. unfold same_rest in Hr. rewrite Hr. done.
Qed.

Lemma extends_options c c' : extends c c' → pool_options (pool c') = pool_options (pool c).
Proof.
  intros (us & c1 & He & Hq). rewrite (quiet_options _ _ (qs_pool _ _ Hq)). apply (grown_options _ _ _ _ (en_grown _ _ _ He)).
Qed.

Lemma send_event_extends answer c e : extends c (send_event answer c e).2.
Proof.
  unfold send_event, gossip_send_event. destruct (gossip c) as [g|]; [|apply quiet_extends, pool_publish_quiet].
  destruct (break_down_event g e) as [rs|[]]; [|by apply quiet_extends|apply quiet_extends, pool_publish_quiet].
  eexists _, _. split; [apply ensure_ensured|apply pool_publish_to_quiet].
Qed.

Lemma subscribe_extends answer c id f o : extends c (subscribe_with_id answer c id f o).2.
Proof.
  unfold subscribe_with_id, gossip_subscribe. destruct (gossip c) as [g|]; [|apply quiet_extends, subscribe_generic_quiet].
  destruct (break_down g f) as [m|?|?]; [|apply quiet_extends, subscribe_generic_quiet..].
  set (c1 := ensure_gossip_relays c (map_to_list m).*1). exists (map_to_list m).*1, c1.
  split; [apply ensure_ensured|].
  pose proof (subscribe_each_quiet answer c1 id o (map_to_list m) (output_new id) [] []) as Hq.
  destruct (subscribe_each answer c1 id o (map_to_list m) (output_new id) [] []) as [[[out us] fs] c2]. simpl in *.
  case_decide; [done|]. etrans; [exact Hq|apply quiet_set_subscriptions].
Qed.

Lemma stream_extends answer fresh c f : extends c (stream_events answer fresh c f).2.
Proof.
  unfold stream_events, gossip_stream_events. destruct (gossip c) as [g|]; [|apply quiet_extends, stream_generic_quiet].
  destruct (break_down g f) as [m|?|?]; [|apply quiet_extends, stream_generic_quiet..].
  set (c1 := ensure_gossip_relays c (map_to_list m).*1). exists (map_to_list m).*1, c1.
  split; [apply ensure_ensured|]. pose proof (open_each_quiet answer fresh 0 c1 (map_to_list m) []) as Hq.
  destruct (open_each answer fresh 0 c1 (map_to_list m) []) as [[ss k] c2]. simpl in Hq.
  case_decide; [|done]. etrans; [exact Hq|apply stream_generic_quiet].
Qed.

Lemma stream_from_quiet answer fresh c (urls : list RelayUrl) f : quiet_step c (stream_events_from answer fresh c urls f).2.
Proof.
  unfold stream_events_from. destruct (collect_relay_urls urls) as [us|]; [|done].
  pose proof (open_stream_quiet answer fresh 0 c (list_to_set us) f) as Hq. by destruct (open_stream _ _ _ _ _ _).
Qed.

(** Without auto-save the drivers leave the database alone. *)
Lemma driver_turn_database (d : Driver (DB := DB)) w :
  Pool.database d = None → Pool.database (driver_turn d w).2 = None.
Proof.
  intros Hd. destruct w as [| |clock open [[[url id] item]|]]; simpl; try done.
  destruct item; simpl; unfold tx_send; try by destruct open.
  destruct (lru_put (seen d) (Event.id event)) as [[] ?]; simpl; [done|]. rewrite Hd. by destruct open.
Qed.
Lemma drivers_run_saved c ss turns :
  auto_save_events (pool_options (pool c)) = false → saved (drivers_run c ss turns) = store c.
Proof.
  intros Ha. unfold drivers_run. rewrite Ha. generalize ((λ _, (true, lru_new (dedup_cache_size (pool_options (pool c))))) <$> ss).
  intros ds. change (store c) with (saved (mkDrivers ds (store c) [])) at 2. generalize (mkDrivers ds (store c) []). clear.
  induction turns as [|t turns IH]; intros d; [done|]. simpl. rewrite IH. unfold drivers_turn.
  destruct (drivers d !! t.1) as [[[] cache]|]; [|done..]. simpl.
  pose proof (driver_turn_database (mkDriver cache None (Facade.received d)) t.2 eq_refl) as Hd.
  destruct (driver_turn _ t.2) as [live one]. simpl in *. by rewrite Hd.
Qed.

Lemma fetch_extends turns (opened : result (list Stream) Error * InnerClient) c :
  auto_save_events (pool_options (pool c)) = false → extends c opened.2 → extends c (fetch_from turns opened).2.
Proof.
  intros Ha He. destruct opened as [[ss|e] c']; simpl in *; [|done].
  eapply extends_quiet; [exact He|]. split; [done| |done]. apply drivers_run_saved. by rewrite (extends_options _ _ He).
Qed.
End client_steps.

(** ** Reconciliation *)

Section sync_steps.
Context `{FasterHex, Secp256k1, UrlCrate, LruCrate, NegentropyCrate}.
Context {DB : Type} `{NostrDatabase DB, !EventLookup DB}.
Implicit Types c : InnerClient (DB := DB).

(** Events saved one after the other, all of them in [P]. *)
Definition saves (P : Event → Prop) (d d' : DB) : Prop :=
  ∃ l : list (result Timestamp string * Event),
    d' = foldl (λ d x, (store_save x.1 d x.2).2) d l ∧ Forall (λ x, P x.2) l.
#[global] Instance saves_preorder P : PreOrder (saves P).
Proof.
  split.
  - intros d. exists []. split; [done|by apply Forall_nil_2].
  - intros d1 d2 d3 (l1 & -> & F1) (l2 & -> & F2). exists (l1 ++ l2). split; [by rewrite foldl_app|by apply Forall_app].
Qed.
Lemma saves_one P clock d e : P e → saves P d (store_save clock d e).2.
Proof. intros He. exists [(clock, e)]. split; [done|by apply Forall_singleton]. Qed.

(** The pool is quiet, the policy stays, and only events it admits are saved. *)
Record guarded (P : Event → Prop) c c' : Prop := {
  gd_pool : quiet (pool c) (pool c');
  gd_policy : admit_policy c' = admit_policy c;
  gd_saves : saves P (store c) (store c');
}.
#[global] Instance guarded_preorder P : PreOrder (guarded P).
Proof.
  split; [by split|]. intros c1 c2 c3 [Q1 P1 S1] [Q2 P2 S2]. split; [by etrans|congruence|by etrans].
Qed.
Lemma quiet_guarded P c c' : quiet_step c c' → guarded P c c'.
Proof. intros [Hq Hs Hp]. split; [done|done|by rewrite Hs]. Qed.

Lemma neg_rounds_quiet n o r id items st :
  quiet (FacadeSync.run_pool st) (FacadeSync.run_pool (FacadeSync.neg_rounds n o r id items st).2).
Proof.
  revert n st. induction items as [|[item answer] items IH]; intros [|n] st; simpl; try done.
  destruct item; try done; try apply IH.
  destruct (Sync.reconcile_hex _ _) as [[outcome|e] ss]; [|done].
  destruct (FacadeSync.fold_outcome _ _ _ _) as [s p]. destruct (Sync.next_message_hex outcome) as [next|]; [|done].
  destruct answer; (etrans; [by apply (ask_quiet _ r (AskSend (ClientMessage.NegMsg id next)))|]); [apply (IH n (FacadeSync.mkRun _ ss s p))|done].
Qed.
Lemma reconcile_loop_quiet o r id f opening opened items st :
  quiet (FacadeSync.run_pool st) (FacadeSync.run_pool (FacadeSync.reconcile_loop o r id f opening opened items st).2).
Proof.
  unfold FacadeSync.reconcile_loop.
  assert (quiet (FacadeSync.run_pool st) (ask (FacadeSync.run_pool st) r (AskNeg id f opening))) as Hq by by apply ask_quiet.
  destruct opened as [[]|]; [|done]. etrans; [exact Hq|].
  pose proof (neg_rounds_quiet FacadeSync.MAX_NEG_ROUNDS o r id items
    (FacadeSync.mkRun (ask (FacadeSync.run_pool st) r (AskNeg id f opening)) (FacadeSync.session st)
       (FacadeSync.summary st) (FacadeSync.progress st))) as Hn.
  destruct (FacadeSync.neg_rounds _ _ _ _ _ _) as [res st']. simpl in *. etrans; [exact Hn|]. by apply ask_quiet.
Qed.

Lemma upload_quiet publish r (st : FacadeSync.Phase (DB := DB)) ids :
  quiet_step (FacadeSync.client st) (FacadeSync.client (foldl (FacadeSync.upload_one publish r) st ids)).
Proof.
  revert st. induction ids as [|id ids IH]; intros st; simpl; [done|]. etrans; [|apply IH].
  unfold FacadeSync.upload_one. destruct (store_event _ id) as [[e|]|]; simpl; [|done..].
  by apply quiet_set_pool, ask_quiet.
Qed.

(** The policy's verdict on an event of the relay [url] in the session [id]. *)
Definition event_admitted c (e : Event) : Prop := ∃ url id, check_admit_event c url id e = Ok tt.

Lemma admitted_policy c c' e : admit_policy c' = admit_policy c → event_admitted c' e → event_admitted c e.
Proof. intros E (url & id & Ha). exists url, id. unfold check_admit_event in *. by rewrite E in Ha. Qed.

Lemma guarded_admitted c c1 c2 : admit_policy c1 = admit_policy c →
  guarded (event_admitted c1) c1 c2 → guarded (event_admitted c) c1 c2.
Proof.
  intros E [Q P (l & El & Fl)]. split; [done|done|]. exists l. split; [done|].
  eapply Forall_impl; [exact Fl|]. intros x. by apply admitted_policy.
Qed.

Lemma download_each_guarded clock url id events (st : FacadeSync.Phase (DB := DB)) :
  guarded (event_admitted (FacadeSync.client st)) (FacadeSync.client st)
    (FacadeSync.client (FacadeSync.download_each clock url id events st).2).
Proof.
  revert st. induction events as [|e events IH]; intros st; simpl; [done|].
  destruct (check_admit_event (FacadeSync.client st) url id e) as [[]|err] eqn:Ea.
  - destruct (store_save (clock e) (store (FacadeSync.client st)) e) as [res d] eqn:Es.
    etrans; [|eapply guarded_admitted; [|apply (IH (FacadeSync.mkPhase (set_store (FacadeSync.client st) d) _ _))]; done].
    split; [done|done|]. simpl. rewrite <-(f_equal snd Es : (store_save _ _ e).2 = d). apply saves_one. by exists url, id.
  - destruct err; try done. apply (IH (FacadeSync.mkPhase (FacadeSync.client st) _ _)).
Qed.

Lemma download_phase_guarded w url id (st : FacadeSync.Phase (DB := DB)) :
  auto_save_events (pool_options (pool (FacadeSync.client st))) = false →
  guarded (event_admitted (FacadeSync.client st)) (FacadeSync.client st)
    (FacadeSync.client (FacadeSync.download_phase w url id st).2).
Proof.
  intros Ha. unfold FacadeSync.download_phase, fetch_events_from.
  set (f := Filter.add_ids _ _).
  pose proof (stream_from_quiet (FacadeSync.f_answer w) (FacadeSync.f_fresh w) (FacadeSync.client st) [url] f) as Hq.
  destruct (stream_events_from _ _ _ _ _) as [[ss|e] c']; simpl in *; [|by apply quiet_guarded].
  assert (quiet_step (FacadeSync.client st) (set_store c' (saved (drivers_run c' ss (FacadeSync.f_turns w))))) as Hq'.
  { etrans; [exact Hq|]. split; [done| |done]. apply drivers_run_saved. by rewrite (quiet_options _ _ (qs_pool _ _ Hq)). }
  etrans; [by apply quiet_guarded|]. apply guarded_admitted; [apply (qs_policy _ _ Hq')|].
  apply (download_each_guarded _ _ _ _ (FacadeSync.mkPhase _ _ _)).
Qed.

Lemma exchange_guarded w o url r id (st : FacadeSync.Phase (DB := DB)) :
  auto_save_events (pool_options (pool (FacadeSync.client st))) = false →
  guarded (event_admitted (FacadeSync.client st)) (FacadeSync.client st)
    (FacadeSync.client (FacadeSync.exchange w o url r id st).2).
Proof.
  intros Ha. unfold FacadeSync.exchange. destruct (FacadeSync.dry_run o); [done|].
  set (st1 := if FacadeSync.do_up _ then _ else _).
  assert (quiet_step (FacadeSync.client st) (FacadeSync.client st1)) as Hq.
  { subst st1. destruct (FacadeSync.do_up _); [|done]. apply upload_quiet. }
  assert (guarded (event_admitted (FacadeSync.client st)) (FacadeSync.client st) (FacadeSync.client st1)) as Hg
    by by apply quiet_guarded.
  destruct (FacadeSync.do_down _ && _); [|done].
  pose proof (download_phase_guarded (FacadeSync.y_fetch w) url id st1) as Hd.
  rewrite (quiet_options _ _ (qs_pool _ _ Hq)) in Hd. specialize (Hd Ha).
  apply (guarded_admitted (FacadeSync.client st)) in Hd; [|apply (qs_policy _ _ Hq)].
  destruct (FacadeSync.download_phase _ _ _ _) as [[[]|e] st2]; (etrans; [exact Hg|exact Hd]).
Qed.

Lemma sync_guarded w c url f o p :
  auto_save_events (pool_options (pool c)) = false →
  guarded (event_admitted c) c (FacadeSync.run_sync_to_relay w c url f o p).1.2.
Proof.
  intros Ha. unfold FacadeSync.run_sync_to_relay. destruct (get_relay (pool c) url) as [r|]; [|done].
  destruct (Sync.from_database (store_items (store c) f)) as [items|e]; cbn [mbind result_bind]; [|done].
  destruct (Sync.with_defaults items) as [ss|e]; [|done].
  destruct (FacadeSync.y_id w) as [id|e]; [|done].
  pose proof (reconcile_loop_quiet o r id f (Sync.opening_message_hex ss) (FacadeSync.y_opened w) (FacadeSync.y_items w)
    (FacadeSync.mkRun (pool c) ss FacadeSync.empty_summary p)) as Hq.
  destruct (FacadeSync.reconcile_loop _ _ _ _ _ _ _ _) as [res run]. simpl in Hq.
  set (c1 := set_pool c (ask (FacadeSync.run_pool run) r (AskSend (ClientMessage.NegClose id)))).
  assert (quiet_step c c1) as Hq1.
  { apply quiet_set_pool. etrans; [exact Hq|]. by apply ask_quiet. }
  destruct res as [[]|e]; [|by apply quiet_guarded].
  pose proof (exchange_guarded w o url r id (FacadeSync.mkPhase c1 (FacadeSync.summary run) (FacadeSync.progress run))) as He.
  cbn [FacadeSync.client] in He. rewrite (quiet_options _ _ (qs_pool _ _ Hq1)) in He. specialize (He Ha).
  apply (guarded_admitted c) in He; [|done].
  destruct (FacadeSync.exchange _ _ _ _ _ _) as [res st]. simpl in *. etrans; [by apply quiet_guarded|exact He].
Qed.
End sync_steps.
