(* ===== verification/FacadeSamples.v ===== *)
(** * Concrete inputs for the client

    A cache of recent ids, a reconciliation that compares the two sets of ids, and
    clients on the in-memory database. *)

From Stdlib Require Import NArith Lia.
From S2P Require Import Prelude Encoding Text Ids Tags Event Filter FilterWire Storage Samples Database.
From S2P Require Import Memory Backends Nips Message Sync HttpAuth RelaySamples RelayLists Gossip GossipTheorems.
From S2P Require Import Client Pool Entities EntityTheorems ClientSamples GiftWrap GiftWrapProofs GiftWrapSamples Facade FacadeSync.
Import Facade.

(** ** A cache *)

#[global] Instance client_lru : LruCrate := {|
  lru := nat * list EventId;
  lru_new n := (N.to_nat n, []);
  lru_put c k := (bool_decide (k ∈ c.2), (c.1, take c.1 (k :: filter (λ x, x ≠ k) c.2)));
|}.
#[global] Instance client_lru_laws : LruLaws.
Proof. by refine {| lru_keys := snd; lru_cap := fst |}; [intros|intros [n l] k]. Defined.

(** ** A reconciliation *)

(** A message is the sender's ids one after the other. *)
Fixpoint ids_of (fuel : nat) (l : list byte) : list bytes32 :=
  match fuel with
  | O => []
  | S fuel => match try_into32 (take 32 l) with Some i => i :: ids_of fuel (drop 32 l) | None => [] end
  end.

Lemma ids_of_concat fuel (ids : list bytes32) :
  (length ids ≤ fuel)%nat → ids_of fuel (concat (b32_list <$> ids)) = ids.
Proof.
  revert fuel. induction ids as [|i ids IH]; intros [|fuel] Hf; simpl in *; try lia; try done.
  rewrite take_app_length', drop_app_length' by by rewrite length_b32. rewrite try_into32_list. by rewrite IH by lia.
Qed.
Lemma length_ids (ids : list bytes32) : (length ids ≤ length (concat (b32_list <$> ids)))%nat.
Proof. induction ids as [|i ids IH]; [simpl; lia|]. rewrite fmap_cons. cbn [concat length]. rewrite length_app, length_b32. lia. Qed.

(** The initiator sends its ids, the other end answers with its own. *)
Definition comparing : NegentropyCrate := {|
  neg_storage := list bytes32;
  neg_empty := [];
  neg_insert st _ i := Ok (st ++ [i]);
  neg_seal st := Ok st;
  neg_machine := list bytes32;
  neg_owned st _ := Ok st;
  neg_initiate m := (Ok (concat (b32_list <$> m)), m);
  neg_reconcile m _ := (Ok (concat (b32_list <$> m)), m);
  neg_reconcile_with_ids m msg :=
    let theirs := ids_of (length msg) msg in
    (Ok (None, filter (λ i, i ∉ theirs) m, filter (λ i, i ∉ m) theirs), m);
|}.

Lemma comparing_laws : NegentropyLaws (H := comparing).
Proof.
  refine {| neg_contents := (λ s : neg_storage, list_to_set s) : @neg_storage comparing → gset bytes32 |}.
  - done.
  - intros s ts id s' [= <-]. rewrite list_to_set_app_L. set_solver.
  - by intros s s' [= <-].
  - intros sa sb la lb ma mb query ma' n have need [= ->] [= ->] [= <- <-]. destruct n as [|n]; [done|]. simpl.
    rewrite ids_of_concat by apply length_ids. intros [= <- <-]. split; apply set_eq; intros i;
      rewrite elem_of_list_to_set, list_elem_of_filter, elem_of_difference, !elem_of_list_to_set; tauto.
Defined.

(** ** Databases and clients *)

#[global] Instance memory_lookup : EventLookup MemoryStore := λ s id, Ok (event_by_id s id).

Definition pool_with (urls : list RelayUrl) : Pool.Pool :=
  foldl (λ p u, (Pool.add_relay p u RelayCapabilities.default).2) (pool_new pool_options_new) urls.

Section clients.
Local Existing Instance sample_secp.

Definition sample_client (urls : list RelayUrl) (g : option Inner) : InnerClient (DB := MemoryStore) :=
  mkClient (pool_with urls) (Memory.new mem_options_new) None g true ∅ None.
End clients.
