(* ===== verification/FacadeTheorems.v ===== *)
(** * The client facade: theorems

    Where an event is sent, what the admission policy guards, the registry of
    subscriptions, what a fetch returns, and private messages from the sender's
    client to the recipient's. *)

From Stdlib Require Import NArith Lia.
From S2P Require Import Prelude Encoding Text Ids Tags Event Filter FilterWire Storage SpecProofs Database RedbProofs.
From S2P Require Import Nips Message Sync HttpAuth Entities RelayLists Gossip GossipProofs GossipTheorems Client Pool.
From S2P Require Import PoolTheorems GiftWrap GiftWrapProofs GiftWrapTheorems Facade FacadeSync FacadeProofs Samples.
From S2P Require Import Memory MemoryProofs Backends RelaySamples EntityTheorems ClientSamples GiftWrapSamples.
From S2P Require Import FacadeSamples.

Import Facade.

(** ** Publishing *)

Section sending.
Context `{FasterHex, Secp256k1, SecretScalar, SerdeJson, SigSerde, JsonText, EventCrypto, !Nip44Crates, Base64, UrlCrate, LruCrate}.
Context {DB : Type} `{NostrDatabase DB}.
Implicit Types (c : InnerClient (DB := DB)) (g : Gossip.Inner (DB := DB)) (e : Event).

(** The relays the router finds for an event. *)
Definition destined g e (u : RelayUrl) : Prop :=
  if decide (Event.kind e = GIFT_WRAP) then ∃ pk, pk ∈ Tags.public_keys (Event.tags e) ∧ u ∈ dm_relays_of g pk
  else u ∈ outbox_relays g (Event.pubkey e)
    ∨ (Event.kind e ≠ Kind.CONTACTS ∧ ∃ pk, pk ∈ Tags.public_keys (Event.tags e) ∧ u ∈ inbox_relays g pk).

Lemma break_down_destined g e :
  match break_down_event g e with
  | Relays rs => rs ≠ ∅ ∧ ∀ u, u ∈ rs ↔ destined g e u
  | OrphanEvent private => (private = true ↔ Event.kind e = GIFT_WRAP) ∧ ∀ u, ¬ destined g e u
  end.
Proof. apply (event_routed g e). Qed.

(** [l]: the requests made; publishes go to [to], of [e] only. *)
Definition published_to (p : Pool.Pool) e (to : RelayUrl → Prop) (l : list (Pool.Relay * Ask)) : Prop :=
  ∀ r e' o, (r, AskPublish e' o) ∈ l → e' = e ∧ ∃ u, to u ∧ get_relay p u = Some r.

Lemma send_to_published answer p urls e :
  let '(r, p') := Pool.send_event_to answer p urls e in
  ∃ l, asked p' = asked p ++ l ∧ relays p' = relays p ∧ published_to p' e (.∈ urls) l
     ∧ (∀ o, r = Ok o → ∀ u, u ∈ urls → ∃ rl, get_relay p' u = Some rl ∧ (rl, AskPublish e publish_options_new) ∈ l).
Proof.
  pose proof (publish_fans_out answer p urls e) as Hp. destruct (Pool.send_event_to answer p urls e) as [[o|err] p'].
  - destruct Hp as (_ & _ & _ & _ & _ & _ & Hall & Ha & Hr). eexists. split; [exact Ha|].
    assert (∀ u, u ∈ urls → get_relay p' u = Some (default 0%N (get_relay p u))) as Hget.
    { intros u Hu. destruct (Hall u Hu) as [r Er]. unfold get_relay in *. by rewrite Hr, Er. }
    split_and!; [done| |].
    + intros r e' o' (u & [= -> -> ->] & Hu%elem_of_elements)%list_elem_of_fmap. split; [done|]. exists u. eauto.
    + intros _ _ u Hu. exists (default 0%N (get_relay p u)). split; [eauto|]. apply list_elem_of_fmap.
      exists u. by rewrite elem_of_elements.
  - destruct Hp as [-> _]. exists []. split_and!; [by rewrite app_nil_r|done| |done]. intros ???. set_solver.
Qed.

Lemma ensured_published urls c c' e to : ensured urls c c' →
  ∃ l, asked (pool c') = asked (pool c) ++ l ∧ published_to (pool c') e to l.
Proof.
  intros He. destruct (en_only _ _ _ He) as (l & El & Hl). exists l. split; [done|].
  intros r e' o Hin. rewrite Forall_forall in Hl. by apply Hl in Hin.
Qed.

Lemma published_to_app p e to l l' : published_to p e to l → published_to p e to l' → published_to p e to (l ++ l').
Proof. intros Hl1 Hl2 r e' o [?|?]%elem_of_app; eauto. Qed.

Lemma ensured_refused urls c c' u :
  ensured urls c c' → get_relay (pool c) u = None → check_admit_relay c u ≠ Ok tt → get_relay (pool c') u = None.
Proof.
  intros He Hn Ha. destruct (get_relay (pool c') u) eqn:E; [|done].
  destruct (grown_relays _ _ _ _ (en_grown _ _ _ He) u) as [[? ?]|[_ ?]]; [by eexists|congruence|done].
Qed.
Lemma ensured_known urls c c' u :
  ensured urls c c' → max_relays (pool_options (pool c)) = None → Pool.shutdown (pool c) = false → u ∈ urls →
  is_Some (get_relay (pool c) u) ∨ check_admit_relay c u = Ok tt → is_Some (get_relay (pool c') u).
Proof.
  intros He Hm Hs Hu [[r Hr]|Ha]; [exists r; by apply (en_keep _ _ _ He)|by apply (en_done _ _ _ He)].
Qed.

(** What is asked for, and that nothing but the pool changes. *)
Lemma send_published answer c g e :
  gossip c = Some g →
  let '(r, c') := send_event answer c e in
  let route := destined g e in
  let routed := ∃ u, route u in
  same_rest c c' ∧ (∀ u rl, get_relay (pool c) u = Some rl → get_relay (pool c') u = Some rl)
  ∧ (¬ routed → Event.kind e = GIFT_WRAP → r = Err PrivateMessageRelaysNotFound ∧ c' = c)
  ∧ ∃ l, asked (pool c') = asked (pool c) ++ l
    ∧ published_to (pool c') e (λ u, route u ∨
       (¬ routed ∧ Event.kind e ≠ GIFT_WRAP ∧ u ∈ relays_with_any_capability (pool c) RelayCapabilities.WRITE)) l
    ∧ (∀ o, r = Ok o → ∀ u, route u → ∃ rl, get_relay (pool c') u = Some rl ∧ (rl, AskPublish e publish_options_new) ∈ l).
Proof.
  intros Hg. unfold send_event. rewrite Hg. unfold gossip_send_event.
  pose proof (break_down_destined g e) as Hb. destruct (break_down_event g e) as [rs|[]].
  - destruct Hb as [Hne Hrs]. set (c1 := ensure_gossip_relays c (elements rs)).
    pose proof (ensure_ensured c (elements rs)) as He. fold c1 in He. unfold pool_publish_to.
    pose proof (send_to_published answer (pool c1) rs e) as Hs.
    destruct (Pool.send_event_to answer (pool c1) rs e) as [r p']. destruct Hs as (l & El & Er & Hl & Hall).
    destruct (ensured_published _ _ _ e (destined g e) He) as (l1 & El1 & Hl1).
    assert (∀ u, get_relay p' u = get_relay (pool c1) u) as Hget by (intros u; unfold get_relay; by rewrite Er).
    split_and!.
    + eapply same_rest_trans; [apply (en_rest _ _ _ He)|apply same_rest_set_pool].
    + intros u rl Hu. cbn [pool set_pool]. rewrite Hget. by apply (en_keep _ _ _ He).
    + intros Hno. destruct Hno. destruct (set_choose_L rs Hne) as [u Hu]. exists u. by apply Hrs.
    + cbn [pool set_pool]. exists (l1 ++ l). split; [by rewrite El, El1, app_assoc|]. split; [apply published_to_app|].
      * intros r' e' o Hin. destruct (Hl1 r' e' o Hin) as (-> & u & Hu & E). split; [done|]. exists u. rewrite Hget. eauto.
      * intros r' e' o Hin. destruct (Hl r' e' o Hin) as (-> & u & Hu & E). split; [done|]. exists u. rewrite <-Hrs. eauto.
      * intros o Ho u Hu%Hrs. destruct r as [o'|]; [|done]. destruct (Hall o' eq_refl u Hu) as (rl & ? & ?).
        exists rl. rewrite elem_of_app. auto.
  - destruct Hb as [Hk Hno]. split_and!; [apply same_rest_refl|done|done|].
    exists []. split_and!; [by rewrite app_nil_r|intros ???; set_solver|done].
  - destruct Hb as [Hk Hno]. unfold pool_publish, pool_send_event.
    set (W := relays_with_any_capability (pool c) RelayCapabilities.WRITE).
    pose proof (send_to_published answer (pool c) W e) as Hs.
    destruct (Pool.send_event_to answer (pool c) W e) as [r p']. destruct Hs as (l & El & Er & Hl & Hall).
    split_and!; [apply same_rest_set_pool|by unfold get_relay; simpl; rewrite Er|by intros _ Eg; apply Hk in Eg|].
    exists l. split_and!; [done| |by intros o _ u Hu%Hno].
    intros r' e' o Hin. destruct (Hl r' e' o Hin) as (-> & u & Hu & E). split; [done|].
    exists u. split; [|done]. right. split; [naive_solver|]. split; [|done]. intros Eg. by apply Hk in Eg.
Qed.

(** Each of the relays [to] was asked to publish [e] among the requests [l], and
    its answer is in the report [o]. *)
Definition asked_and_reported (answer : Pool.Relay → result unit string) (p : Pool.Pool) e (to : RelayUrl → Prop)
    (o : Output EventId) (l : list (Pool.Relay * Ask)) : Prop :=
  (∀ u, u ∈ success o ∪ dom (failed o) ↔ to u)
  ∧ ∀ u, to u → ∃ rl, get_relay p u = Some rl ∧ (rl, AskPublish e publish_options_new) ∈ l
      ∧ (u ∈ success o ↔ answer rl = Ok tt) ∧ ∀ t, failed o !! u = Some t ↔ answer rl = Err t.

Lemma send_to_reported answer p urls e o p' l0 :
  Pool.send_event_to answer p urls e = (Ok o, p') →
  ∃ l, asked p' = asked p ++ l ∧ asked_and_reported answer p' e (.∈ urls) o (l0 ++ l).
Proof.
  intros E. pose proof (publish_fans_out answer p urls e) as Hp. rewrite E in Hp.
  destruct Hp as (_ & _ & Hu & _ & Hs & Hf & Hall & Ha & Hr). eexists. split; [exact Ha|]. split; [by rewrite Hu|].
  intros u Hin. destruct (Hall u Hin) as [rl Hrl]. exists rl. split_and!; [unfold get_relay in *; by rewrite Hr| |eauto..].
  apply elem_of_app. right. apply list_elem_of_fmap. exists u. rewrite Hrl, elem_of_elements. done.
Qed.

Lemma reported_ext answer p e (to to' : RelayUrl → Prop) o l :
  (∀ u, to u ↔ to' u) → asked_and_reported answer p e to o l → asked_and_reported answer p e to' o l.
Proof. intros Ht [Hu Hall]. split; [intros u; by rewrite Hu|]. intros u Hin%Ht. by apply Hall. Qed.

Lemma capable_known (p : Pool.Pool) caps u : u ∈ relays_with_any_capability p caps → is_Some (get_relay p u).
Proof.
  unfold relays_with_any_capability, get_relay. intros [x (Hx & _)%map_lookup_filter_Some]%elem_of_dom. rewrite Hx. by eexists.
Qed.

(** What goes to the pool's write relays. *)
Lemma pool_publish_sent answer c e :
  let '(r, c') := pool_publish answer c e in
  let write := relays_with_any_capability (pool c) RelayCapabilities.WRITE in
  same_rest c c' ∧ relays (pool c') = relays (pool c) ∧
  ∃ l, asked (pool c') = asked (pool c) ++ l ∧ published_to (pool c') e (.∈ write) l
    ∧ if decide (write = ∅) then r = Err (Pool NoRelaysSpecified) ∧ l = []
      else ∃ o, r = Ok o ∧ asked_and_reported answer (pool c') e (.∈ write) o l.
Proof.
  unfold pool_publish, pool_send_event. cbv zeta. set (W := relays_with_any_capability (pool c) RelayCapabilities.WRITE).
  pose proof (publish_fans_out answer (pool c) W e) as Hp. pose proof (send_to_reported answer (pool c) W e) as Hrep.
  pose proof (send_to_published answer (pool c) W e) as Hpub.
  destruct (Pool.send_event_to answer (pool c) W e) as [r p']; cbn [pool set_pool]. destruct Hpub as (l & El & Er & Hl & _).
  split; [apply same_rest_set_pool|]. split; [done|]. exists l. split; [done|]. split; [done|]. destruct r as [o|err].
  - destruct Hp as [Hne _]. rewrite decide_False by done. exists o. split; [done|].
    destruct (Hrep o p' [] eq_refl) as (l' & El' & Hr). rewrite El' in El. by apply app_inv_head in El as <-.
  - destruct Hp as (-> & [[-> ->]|(u & Hu & Hn & _)]).
    { rewrite decide_True by done. split; [done|]. rewrite <-(app_nil_r (asked (pool c))) in El at 1. by apply app_inv_head in El. }
    apply capable_known in Hu as [? Hu]. congruence.
Qed.

(** C10: With a router, an event is published to the relays the router finds for
    it and, as long as there is one, to no other: a gift wrap only to the
    direct-message relays of its recipients, another event to the outbox relays
    of its author and, unless it is a contact list, the inbox relays of those it
    names.  A gift wrap without a route is refused and nobody is asked; another
    event without a route is published to the write relays of the pool, each of
    which is asked and its answer reported, and the call fails only if there are
    none.  When every relay of the route is known to the pool or can be added to
    it, each is asked to publish the event, and the report has exactly these
    relays, each with its answer.  When the policy refuses a relay of the route
    that the pool does not know, the call fails and no relay is sent the event,
    although the others are there. *)
Theorem event_sent answer c g e :
  gossip c = Some g →
  let '(r, c') := send_event answer c e in
  let route := destined g e in
  let routed := ∃ u, route u in
  let write := relays_with_any_capability (pool c) RelayCapabilities.WRITE in
  ∃ l, asked (pool c') = asked (pool c) ++ l
  ∧ published_to (pool c') e (λ u, route u ∨ (¬ routed ∧ Event.kind e ≠ GIFT_WRAP ∧ u ∈ write)) l
  ∧ (¬ routed → Event.kind e = GIFT_WRAP → r = Err PrivateMessageRelaysNotFound ∧ c' = c)
  ∧ (¬ routed → Event.kind e ≠ GIFT_WRAP →
     if decide (write = ∅) then r = Err (Pool NoRelaysSpecified) ∧ l = []
     else ∃ o, r = Ok o ∧ asked_and_reported answer (pool c') e (.∈ write) o l)
  ∧ (routed → max_relays (pool_options (pool c)) = None → Pool.shutdown (pool c) = false →
     (∀ u, route u → is_Some (get_relay (pool c) u) ∨ check_admit_relay c u = Ok tt) →
     ∃ o, r = Ok o ∧ asked_and_reported answer (pool c') e route o l)
  ∧ ((∃ u, route u ∧ get_relay (pool c) u = None ∧ check_admit_relay c u ≠ Ok tt) →
     (∃ u, route u ∧ r = Err (Pool (RelayNotFound u))) ∧ ∀ rl e' o, (rl, AskPublish e' o) ∉ l).
Proof.
  intros Hg. pose proof (send_published answer c g e Hg) as Hsend. revert Hsend. unfold send_event. rewrite Hg.
  unfold gossip_send_event. pose proof (break_down_destined g e) as Hb. destruct (break_down_event g e) as [rs|priv].
  2:{ destruct Hb as [Hk Hno]. intros Hsend.
      assert (Event.kind e ≠ GIFT_WRAP → priv = false) as Hpr by (destruct priv; [by intros Hgw; destruct Hgw; apply Hk|done]).
      pose proof (pool_publish_sent answer c e) as Hw. destruct (pool_publish answer c e) as [r0 c0].
      destruct (if priv then _ else _) as [r c'] eqn:E. destruct Hsend as (_ & _ & Hpm & l & El & Hl & _). exists l.
      split_and!; [done|done|done| |intros [u Hu]; by apply Hno in Hu|intros (u & Hu & _); by apply Hno in Hu].
      intros _ Hgw. rewrite (Hpr Hgw) in E. injection E as -> ->. destruct Hw as (_ & _ & l' & El' & _ & Hw).
      rewrite El' in El. by apply app_inv_head in El as <-. }
  destruct Hb as [Hne Hrs]. set (c1 := ensure_gossip_relays c (elements rs)).
  pose proof (ensure_ensured c (elements rs)) as He. fold c1 in He. unfold pool_publish_to.
  pose proof (publish_fans_out answer (pool c1) rs e) as Hp. pose proof (send_to_reported answer (pool c1) rs e) as Hrep.
  destruct (Pool.send_event_to answer (pool c1) rs e) as [r p']. cbn [pool set_pool]. intros (_ & _ & Hpm & l & El & Hl & _).
  destruct (en_only _ _ _ He) as (l2 & E2 & Hl2).
  assert (∃ u, destined g e u) as Hrouted by (destruct (set_choose_L rs Hne) as [u Hu]; exists u; by apply Hrs).
  exists l. split_and!; [done|done|done|done| |].
  - intros _ Hm Hsd Hall. destruct r as [o|err].
    + exists o. split; [done|]. destruct (Hrep o p' l2 eq_refl) as (l3 & E3 & Hr3).
      assert (l = l2 ++ l3) as -> by (rewrite E3, E2, <-app_assoc in El; by apply app_inv_head in El).
      by eapply reported_ext; [apply Hrs|].
    + exfalso. destruct Hp as (_ & [[? _]|(u & Hu & Hn & _)]); [done|].
      destruct (ensured_known _ _ _ u He Hm Hsd (proj2 (elem_of_elements rs u) Hu) (Hall u (proj1 (Hrs u) Hu))). congruence.
  - intros (u & Hu%Hrs & Hn & Ha). pose proof (ensured_refused _ _ _ u He Hn Ha) as Hn1. destruct r as [o|err].
    + destruct Hp as (_ & _ & _ & _ & _ & _ & Hk & _). destruct (Hk u Hu). congruence.
    + destruct Hp as (-> & [[? _]|(v & Hv & _ & ->)]); [done|]. split; [exists v; by rewrite <-Hrs|].
      intros rl e' o Hin. rewrite E2 in El. apply app_inv_head in El as <-. rewrite Forall_forall in Hl2. by apply Hl2 in Hin.
Qed.
End sending.

(** ** Admission *)

Section admission.
Context `{FasterHex, Secp256k1, SecretScalar, SerdeJson, SigSerde, JsonText, EventCrypto, !Nip44Crates, Base64, UrlCrate, LruCrate, NegentropyCrate}.
Context {DB : Type} `{NostrDatabase DB, !EventLookup DB}.
Implicit Types (c : InnerClient (DB := DB)) (pol : AdmitPolicy).

(** What an application does, with what each call meets; [OProcess] is the router
    learning from an event ([set_relay_list], [refresh_relay_metadata], the
    refresher). *)
Inductive Op :=
| OAdd (url : RelayUrl) (caps : RelayCapabilities.t) (o : option RelayOptions.t)
| ORemove (url : RelayUrl)
| ORemoveAll
| OShutdown
| OConnect (answer : Pool.Relay → result unit string)
| ODisconnect (answer : Pool.Relay → result unit string)
| OConnectRelay (answer : Pool.Relay → result unit ClientError) (url : RelayUrl)
| OTryConnectRelay (answer : Pool.Relay → option (result unit ClientError)) (url : RelayUrl)
| ODisconnectRelay (answer : Pool.Relay → result unit ClientError) (url : RelayUrl)
| OSendMsg (answer : Pool.Relay → result unit string) (m : ClientMessage)
| OSend (answer : Pool.Relay → result unit string) (e : Event)
| OSendTo (answer : Pool.Relay → result unit string) (urls : list RelayUrl) (e : Event)
| OSubscribe (answer : Pool.Relay → result unit string) (id : SubscriptionId) (f : Filter) (o : SubscribeOptions)
| OSubscribeTo (answer : Pool.Relay → result unit string) (id : SubscriptionId) (urls : list RelayUrl) (f : Filter) (o : SubscribeOptions)
| OUnsubscribe (id : SubscriptionId)
| OUnsubscribeAll
| OFetch (answer : Pool.Relay → result unit ClientError) (fresh : nat → nat → option SubscriptionId)
    (turns : list (nat * DriverWakeup)) (f : Filter)
| OFetchFrom (answer : Pool.Relay → result unit ClientError) (fresh : nat → nat → option SubscriptionId)
    (turns : list (nat * DriverWakeup)) (urls : list RelayUrl) (f : Filter)
| OSync (w : FacadeSync.SyncWorld) (url : RelayUrl) (f : Filter) (o : FacadeSync.SyncOptions) (p : option FacadeSync.SyncProgress)
| OProcess (clock : result Timestamp string) (e : Event).

Definition step c (op : Op) : InnerClient (DB := DB) :=
  match op with
  | OAdd url caps None => (add_relay_with_capabilities c url caps).2
  | OAdd url caps (Some o) => (add_relay_with_options c url caps o).2
  | ORemove url => (remove_relay c url).2
  | ORemoveAll => (remove_all_relays c).2
  | OShutdown => client_shutdown c
  | OConnect answer => (connect answer c).2
  | ODisconnect answer => (disconnect answer c).2
  | OConnectRelay answer url => (connect_relay answer c url).2
  | OTryConnectRelay answer url => (try_connect_relay answer c url).2
  | ODisconnectRelay answer url => (disconnect_relay answer c url).2
  | OSendMsg answer m => (send_msg answer c m).2
  | OSend answer e => (send_event answer c e).2
  | OSendTo answer urls e => (send_event_to answer c urls e).2
  | OSubscribe answer id f o => (subscribe_with_id answer c id f o).2
  | OSubscribeTo answer id urls f o => (subscribe_to answer (Ok id) c urls f o).2
  | OUnsubscribe id => (unsubscribe c id).2
  | OUnsubscribeAll => (unsubscribe_all c).2
  | OFetch answer fresh turns f => (fetch_events answer fresh turns c f).2
  | OFetchFrom answer fresh turns urls f => (fetch_events_from answer fresh turns c urls f).2
  | OSync w url f o p => (FacadeSync.run_sync_to_relay w c url f o p).1.2
  | OProcess clock e => gossip_process clock c e
  end.

(** The policy may answer differently from call to call. *)
Definition with_policy c pol : InnerClient (DB := DB) :=
  mkClient (pool c) (store c) (signer c) (gossip c) (automatic_authentication c) (subscriptions c) (Some pol).
Definition run c (steps : list (AdmitPolicy * Op)) : InnerClient (DB := DB) :=
  foldl (λ c s, step (with_policy c s.1) s.2) c steps.

Definition connects_all (op : Op) : Prop := match op with OConnect _ => True | _ => False end.

(** What one call under the policy [pol] did. *)
Record step_ok pol (op : Op) c c' : Prop := {
  so_policy : admit_policy c' = Some pol;
  so_pool : grown (λ u, admit_relay pol u = Ok Success)
    (λ r, connects_all op ∨ ∃ u, admit_connection pol u = Ok Success ∧ (get_relay (pool c) u = Some r ∨ get_relay (pool c') u = Some r))
    (pool c) (pool c');
  so_store : saves (λ e, ∃ url id, admit_event pol url id e = Ok Success) (store c) (store c');
}.

Lemma verdict_Ok stage a : verdict stage a = Ok tt ↔ a = Ok Success.
Proof. destruct a as [[]|]; simpl; split; congruence. Qed.

Lemma extends_ok pol op c c' : admit_policy c = Some pol → extends c c' → step_ok pol op c c'.
Proof.
  intros Hp He. destruct (extends_store _ _ He) as [Es Ep]. split; [congruence| |by rewrite Es].
  destruct He as (us & c1 & He & Hq). etrans; [|apply quiet_grown, (qs_pool _ _ Hq)].
  eapply grown_mono; [apply (en_grown _ _ _ He)| |]; unfold check_admit_relay, check_admit_connection; rewrite Hp.
  - intros u [_ Ha]. by eapply verdict_Ok.
  - intros r (u & _ & Ha & Hr & _). right. exists u. split; [by eapply verdict_Ok|]. right.
    by rewrite (quiet_get_relay _ _ _ (qs_pool _ _ Hq)).
Qed.

(** A call that only changes the pool. *)
Lemma pool_ok pol op c p :
  admit_policy c = Some pol →
  grown (λ u, admit_relay pol u = Ok Success)
    (λ r, connects_all op ∨ ∃ u, admit_connection pol u = Ok Success ∧ (get_relay (pool c) u = Some r ∨ get_relay p u = Some r))
    (pool c) p →
  step_ok pol op c (set_pool c p).
Proof. by split. Qed.

Lemma remove_each_ok pol op c urls o : admit_policy c = Some pol → step_ok pol op c (remove_each c urls o).2.
Proof.
  intros Hp. assert (∃ p, (remove_each c urls o).2 = set_pool c p ∧ ∀ A G, grown A G (pool c) p) as (p & -> & Hg).
  { clear Hp. revert c o. induction urls as [|u urls IH]; intros c o; simpl; [by exists (pool c); destruct c|].
    pose proof (λ A G, remove_grown A G (pool c) u) as Hr. destruct (Pool.remove_relay (pool c) u) as [r p].
    destruct (IH (set_pool c p) (record o u (map_err (λ _, not_found_text u) r))) as (p' & -> & Hg). exists p'.
    split; [done|]. intros A G. etrans; [apply Hr|apply Hg]. }
  by apply pool_ok.
Qed.

Lemma unsubscribe_each_quiet c ids : quiet_step c (unsubscribe_each c ids).2.
Proof.
  unfold unsubscribe_each. change c with (output_new tt, c).2 at 1. generalize (output_new tt, c).
  induction ids as [|id ids IH]; intros st; simpl; [done|]. etrans; [apply (quiet_set_subscriptions st.2)|]. apply (IH (_, _)).
Qed.

Lemma connect_relay_ok pol op answer c url :
  admit_policy c = Some pol → step_ok pol op c (try_connect_relay answer c url).2.
Proof.
  intros Hp. unfold try_connect_relay. destruct (get_relay (pool c) url) as [r|] eqn:Er; simpl; [|by apply extends_ok, quiet_extends].
  destruct (check_admit_connection c url) as [[]|] eqn:Ea; simpl; [|by apply extends_ok, quiet_extends].
  apply pool_ok; [done|]. apply connect_grown. right. exists url. split; [|by left].
  unfold check_admit_connection in Ea. rewrite Hp in Ea. by eapply verdict_Ok.
Qed.

Lemma call_add_ok pol op c url caps o :
  admit_policy c = Some pol → step_ok pol op c (add_relay_with_options c url caps o).2.
Proof.
  intros Hp. unfold add_relay_with_options. destruct (check_admit_relay c url) as [[]|] eqn:Ea; [|by apply extends_ok, quiet_extends].
  unfold check_admit_relay in Ea. rewrite Hp in Ea. apply verdict_Ok in Ea.
  pose proof (λ G, add_grown (λ u, admit_relay pol u = Ok Success) G (pool c) url caps o Ea) as Hg.
  destruct (Pool.add_relay_with_options (pool c) url caps o) as [r p]. by apply pool_ok.
Qed.

Lemma fan_quiet {A} answer what c targets (o : Output A) :
  what ≠ AskConnect → quiet_step c (set_pool c (fan_out answer what targets o (pool c)).2).
Proof. intros Hw. by apply quiet_set_pool, fan_out_quiet. Qed.

Lemma subscribe_to_quiet_step answer c id (urls : list RelayUrl) f o :
  quiet_step c (subscribe_to answer (Ok id) c urls f o).2.
Proof.
  unfold subscribe_to. destruct (collect_relay_urls urls) as [us|]; [|done].
  pose proof (pool_subscribe_to_quiet answer c (list_to_set us) id f o) as Hq.
  destruct (pool_subscribe_to _ _ _ _ _ _) as [[out|e] c']; simpl in *; [|done].
  case_decide; [done|]. etrans; [exact Hq|apply quiet_set_subscriptions].
Qed.

Lemma process_quiet clock c e : quiet_step c (gossip_process clock c e).
Proof. unfold gossip_process. by destruct (gossip c). Qed.

Lemma sync_ok pol w c url f o p :
  admit_policy c = Some pol → auto_save_events (pool_options (pool c)) = false →
  step_ok pol (OSync w url f o p) c (FacadeSync.run_sync_to_relay w c url f o p).1.2.
Proof.
  intros Hp Ha. destruct (sync_guarded w c url f o p Ha) as [Hq Hpol (l & El & Fl)].
  split; [congruence|by apply quiet_grown|]. exists l. split; [done|]. eapply Forall_impl; [exact Fl|].
  intros x (u & id & Hx). exists u, id. unfold check_admit_event in Hx. rewrite Hp in Hx. by eapply verdict_Ok.
Qed.

Lemma step_step_ok pol op c :
  admit_policy c = Some pol → auto_save_events (pool_options (pool c)) = false → step_ok pol op c (step c op).
Proof.
  intros Hp Ha. destruct op; simpl.
  - destruct o; by apply call_add_ok.
  - unfold remove_relay. pose proof (λ A G, remove_grown A G (pool c) url) as Hr.
    destruct (Pool.remove_relay (pool c) url). by apply pool_ok.
  - by apply remove_each_ok.
  - apply pool_ok; [done|apply shutdown_grown].
  - unfold connect, try_connect_inner.
    pose proof (λ A G, connects_grown answer A G (map_to_list (snapshot (pool c))) (output_new tt) (pool c)) as Hf.
    destruct (fan_out _ _ _ _ _). apply pool_ok; [done|]. apply Hf. by left.
  - unfold disconnect, pool_disconnect.
    pose proof (fan_quiet answer AskDisconnect c (map_to_list (snapshot (pool c))) (output_new tt)) as Hf.
    destruct (fan_out _ _ _ _ _). by apply extends_ok, quiet_extends, Hf.
  - pose proof (connect_relay_ok pol (OConnectRelay answer url) (λ r, Some (answer r)) c url Hp) as Hc.
    unfold try_connect_relay in Hc. unfold connect_relay.
    destruct (get_relay (pool c) url); [|done]. by destruct (check_admit_connection c url).
  - by apply connect_relay_ok.
  - unfold disconnect_relay. apply extends_ok, quiet_extends; [done|].
    destruct (get_relay (pool c) url); [|done]. by apply quiet_set_pool, ask_quiet.
  - unfold send_msg, pool_send_msg.
    pose proof (fan_quiet answer (AskSend m) c (map_to_list (snapshot (pool c))) (output_new tt)) as Hf.
    destruct (fan_out _ _ _ _ _). by apply extends_ok, quiet_extends, Hf.
  - apply extends_ok, send_event_extends. done.
  - apply extends_ok, quiet_extends; [done|]. unfold send_event_to.
    destruct (collect_relay_urls urls); [apply pool_publish_to_quiet|done].
  - apply extends_ok, subscribe_extends. done.
  - apply extends_ok, quiet_extends, subscribe_to_quiet_step. done.
  - apply extends_ok, quiet_extends, quiet_set_subscriptions. done.
  - apply extends_ok, quiet_extends, unsubscribe_each_quiet. done.
  - apply extends_ok, fetch_extends, stream_extends; done.
  - apply extends_ok, fetch_extends, quiet_extends, stream_from_quiet; done.
  - by apply sync_ok.
  - apply extends_ok, quiet_extends, process_quiet. done.
Qed.

(** What one save adds to the live events. *)
Lemma save_adds o st e now x :
  live_in (Spec.live (Spec.save o st e now).2) x → live_in (Spec.live st) x ∨ x = e.
Proof.
  unfold Spec.save. destruct (Spec.admission o st e now); [|by left]. cbn [snd]. rewrite accept_prepared.
  cbv zeta. cbn [Spec.live]. unfold live_in at 1. intros Hx.
  eapply lookup_weaken in Hx; [|apply evict_subseteq]. apply live_in_insert in Hx as [->|[_ Hx]]; [by right|left].
  eapply lookup_weaken in Hx; [|apply prepared_live]. by apply map_lookup_filter_Some in Hx as [? _].
Qed.

Context `{!DatabaseContract DB}.

Lemma saves_repr (P : Event → Prop) o d d' st :
  store_repr o d st → (∀ e, P e → storable e) → saves P d d' →
  ∃ st', store_repr o d' st' ∧ ∀ e, live_in (Spec.live st') e → live_in (Spec.live st) e ∨ P e.
Proof.
  intros Hr HP (l & -> & Fl). revert d st Hr. induction Fl as [|[clock e] l He _ IH]; intros d st Hr; simpl.
  { exists st. split; [done|by left]. }
  destruct clock as [now|err].
  - destruct (store_save_ok o d st e now Hr (HP e He)) as (d1 & E & Hr1).
    destruct (IH d1 _ Hr1) as (st' & Hr' & Hl). rewrite E. exists st'. split; [done|].
    intros x Hx%Hl. destruct Hx as [[Hx|Hx]%save_adds|Hx]; [by left|right; by rewrite Hx|by right].
  - destruct (store_save_no_clock d e err) as [text E]. rewrite E. by apply IH.
Qed.

Lemma run_snoc c steps s : run c (steps ++ [s]) = step (with_policy (run c steps) s.1) s.2.
Proof. unfold run. by rewrite foldl_app. Qed.

Lemma run_options c steps :
  auto_save_events (pool_options (pool c)) = false → pool_options (pool (run c steps)) = pool_options (pool c).
Proof.
  intros Ha. induction steps as [|[pol op] steps IH] using rev_ind; [done|]. rewrite run_snoc. cbn [fst snd].
  rewrite (grown_options _ _ _ _ (so_pool _ _ _ _ (step_step_ok pol op (with_policy (run c steps) pol) eq_refl
    ltac:(simpl; by rewrite IH)))). exact IH.
Qed.

End admission.

(** ** The registry of subscriptions *)

Section registry.
Context `{FasterHex, Secp256k1, UrlCrate, LruCrate}.
Context {DB : Type} `{NostrDatabase DB}.
Implicit Types (c : InnerClient (DB := DB)).
Variable answer : Pool.Relay → result unit string.

(** The relays [urls] of the pool were asked for the subscription, and those that
    took it were then asked to close it. *)
Definition opened_and_closed (p p' : Pool.Pool) (urls : gset RelayUrl) (id : SubscriptionId) (fs : list Filter) (o : SubscribeOptions) : Prop :=
  ∃ targets, targets.*1 = elements urls ∧ (∀ x, x ∈ targets → get_relay p x.1 = Some x.2)
    ∧ asked p' = asked p ++ ((λ x, (x.2, AskSubscribe id fs o)) <$> targets)
        ++ ((λ x, (x.2, AskClose id)) <$> filter (λ x, answer x.2 = Ok tt) targets).

Lemma asks_log {B} p (l : list B) (f : B → Pool.Relay) (a : Ask) :
  asked (foldl (λ p x, ask p (f x) a) p l) = asked p ++ ((λ x, (f x, a)) <$> l).
Proof.
  revert p. induction l as [|x l IH]; intros p; simpl; [by rewrite app_nil_r|].
  rewrite IH. simpl. by rewrite <-app_assoc.
Qed.

Lemma pool_subscribe_spec p urls id fs o :
  match Pool.subscribe_to answer p urls id fs o with
  | (Ok out, p') =>
      value out = id ∧ (∀ u, u ∈ success out ↔ ∃ r, u ∈ urls ∧ get_relay p u = Some r ∧ answer r = Ok tt)
      ∧ (∀ u t, failed out !! u = Some t ↔ ∃ r, u ∈ urls ∧ get_relay p u = Some r ∧ answer r = Err t)
      ∧ opened_and_closed p p' urls id fs o
  | (Err e, p') => p' = p ∧ (urls = ∅ ∧ e = NoRelaysSpecified ∨ ∃ u, u ∈ urls ∧ get_relay p u = None ∧ e = RelayNotFound u)
  end.
Proof.
  unfold Pool.subscribe_to. case_decide as Hne; [by split; [|left]|].
  pose proof (resolve_spec answer (snapshot p) (elements urls)) as Hr.
  assert (∀ u, snapshot p !! u = get_relay p u) as Hsn by (intros u; unfold snapshot, get_relay; by rewrite lookup_fmap).
  destruct (resolve (snapshot p) (elements urls)) as [targets|e].
  2:{ split; [done|]. right. destruct Hr as (u & Hu%elem_of_elements & Hn & ->). exists u. by rewrite <-Hsn. }
  destruct Hr as [Hfst Hin]. pose proof (fan_out_spec answer (AskSubscribe id fs o) targets (output_new id) p) as Hfo.
  rewrite Hfst in Hfo. specialize (Hfo (NoDup_elements urls)).
  destruct (fan_out answer _ targets _ p) as [out p1].
  destruct Hfo as ((Hv & Hs & Hf) & Ha & _); [intros u _; apply lookup_empty|].
  assert (∀ u r, (u, r) ∈ targets ↔ u ∈ urls ∧ get_relay p u = Some r) as Hin'
    by (intros u r; by rewrite Hin, elem_of_elements, Hsn).
  split_and!; [exact Hv| | |].
  - intros u. rewrite Hs. setoid_rewrite Hin'. set_solver.
  - intros u t. rewrite Hf. setoid_rewrite Hin'. simpl. rewrite lookup_empty. naive_solver.
  - exists targets. split_and!; [done|intros [u r] Hx; by apply Hin'|].
    rewrite asks_log, Ha, <-app_assoc. do 2 f_equal. f_equal. clear. induction targets as [|[u r] l IH]; [done|].
    rewrite !filter_cons. simpl. destruct (answer r) as [[]|]; simpl; rewrite IH; done.
Qed.

Lemma unsubscribe_each_registry c ids :
  subscriptions (unsubscribe_each c ids).2 = subscriptions c ∖ (gset_to_gmap (mkSubscription [] []) (list_to_set ids))
  ∧ pool (unsubscribe_each c ids).2 = pool c.
Proof.
  unfold unsubscribe_each. change c with (output_new tt, c).2 at 2 4. generalize (output_new tt, c).
  induction ids as [|id ids IH]; intros st; simpl; [by rewrite gset_to_gmap_empty, map_difference_empty|].
  destruct (IH (merge_output st.1 (unsubscribe st.2 id).1, (unsubscribe st.2 id).2)) as [E1 E2].
  split; [|exact E2]. etrans; [exact E1|]. simpl. apply map_eq. intros i.
  rewrite gset_to_gmap_union_singleton, !lookup_difference, lookup_delete, lookup_insert.
  case_decide; [|done]. by destruct (gset_to_gmap _ _ !! _).
Qed.

(** A subscription on the read relays. *)
Definition subscribed_generic c id f o (r : result (Output SubscriptionId) Error * InnerClient (DB := DB)) : Prop :=
  match r with
  | (Ok out, c') =>
      opened_and_closed (pool c) (pool c') (relays_with_any_capability (pool c) RelayCapabilities.READ) id [f] o
      ∧ (∀ u, u ∈ success out → ∃ r, get_relay (pool c) u = Some r ∧ answer r = Ok tt)
      ∧ subscriptions c' = if decide (success out = ∅) then subscriptions c
                           else <[id := mkSubscription (elements (success out)) [f]]> (subscriptions c)
  | (Err e, c') => c' = c
  end.
Lemma subscribe_generic_spec c id f o : subscribed_generic c id f o (subscribe_generic answer c id f o).
Proof.
  unfold subscribe_generic, pool_subscribe.
  set (R := relays_with_any_capability (pool c) RelayCapabilities.READ).
  pose proof (pool_subscribe_spec (pool c) R id [f] o) as Hp.
  destruct (Pool.subscribe_to answer (pool c) R id [f] o) as [[out|e] p'].
  + destruct Hp as (_ & Hs & _ & Hoc). split_and!.
    * by destruct (decide (elements (success out) = [])).
    * intros u (r & _ & ? & ?)%Hs. eauto.
    * destruct (decide (success out = ∅)) as [E|E], (decide (elements (success out) = [])) as [E'|E']; try done.
      -- by rewrite E, elements_empty in E'.
      -- apply elements_empty_iff in E'. by apply leibniz_equiv in E'.
  + destruct Hp as [-> _]. by destruct c.
Qed.

(** The filters the router makes for single relays, if it does. *)
Definition routed_filters c f : option (gmap RelayUrl Filter) :=
  match gossip c with
  | Some g => match break_down g f with PerRelay m => Some m | _ => None end
  | None => None
  end.

(** What is asked for the relays of [parts] the pool knows. *)
Definition routed_asks (p : Pool.Pool) (id : SubscriptionId) (o : SubscribeOptions) (parts : list (RelayUrl * Filter)) :
    list (Pool.Relay * Ask) :=
  concat ((λ x, match get_relay p x.1 with
                | None => []
                | Some r => (r, AskSubscribe id [x.2] o) :: (if decide (answer r = Ok tt) then [(r, AskClose id)] else [])
                end) <$> parts).

Lemma subscribe_one_spec c id o url f :
  let '(res, c') := pool_subscribe_to answer c {[url]} id f o in
  same_rest c c' ∧ relays (pool c') = relays (pool c) ∧ asked (pool c') = asked (pool c) ++ routed_asks (pool c) id o [(url, f)]
  ∧ match res with
    | Ok one => is_Some (get_relay (pool c) url)
        ∧ ∀ u, u ∈ success one ↔ u = url ∧ ∃ r, get_relay (pool c) url = Some r ∧ answer r = Ok tt
    | Err _ => get_relay (pool c) url = None
    end.
Proof.
  pose proof (subscribe_to_quiet answer (pool c) {[url]} id [f] o) as Hq. pose proof (pool_subscribe_spec (pool c) {[url]} id [f] o) as Hp.
  unfold pool_subscribe_to, routed_asks. destruct (Pool.subscribe_to answer (pool c) {[url]} id [f] o) as [[out|e] p']; simpl.
  - destruct Hp as (_ & Hs & _ & targets & Hfst & Hin & Ea). rewrite elements_singleton in Hfst.
    destruct targets as [|[u r] [|]]; [done| |done]. simpl in Hfst. injection Hfst as ->.
    specialize (Hin (url, r) ltac:(set_solver)). simpl in Hin. rewrite Hin, Ea.
    split; [done|]. split; [apply (quiet_relays _ _ Hq)|]. split; [|split; [by eexists|]].
    + rewrite filter_cons. simpl. by case_decide.
    + intros u. rewrite Hs. set_solver.
  - destruct Hp as (-> & [[? _]|(u & ->%elem_of_singleton & Hn & _)]); [set_solver|]. rewrite Hn. simpl.
    by rewrite !app_nil_r.
Qed.

Lemma routed_asks_cons p id o x parts : routed_asks p id o (x :: parts) = routed_asks p id o [x] ++ routed_asks p id o parts.
Proof. unfold routed_asks. simpl. by rewrite app_nil_r. Qed.

(** The loop over the routed relays. *)
Lemma subscribe_each_spec c id o parts out us fs :
  let '(out', us', fs', c') := subscribe_each answer c id o parts out us fs in
  let known := filter (λ x, is_Some (get_relay (pool c) x.1)) parts in
  same_rest c c' ∧ relays (pool c') = relays (pool c) ∧ asked (pool c') = asked (pool c) ++ routed_asks (pool c) id o parts
  ∧ us' = us ++ known.*1 ∧ fs' = fs ++ known.*2
  ∧ ∀ u, u ∈ success out' ↔ u ∈ success out ∨ (u ∈ parts.*1 ∧ ∃ r, get_relay (pool c) u = Some r ∧ answer r = Ok tt).
Proof.
  revert c out us fs. induction parts as [|[url f] parts IH]; intros c out us fs; simpl.
  { split_and!; [apply same_rest_refl|done|by rewrite app_nil_r|by rewrite app_nil_r|by rewrite app_nil_r|set_solver]. }
  pose proof (subscribe_one_spec c id o url f) as Hone. destruct (pool_subscribe_to answer c {[url]} id f o) as [res c1].
  destruct Hone as (Hr1 & Hrel1 & Ha1 & Hres).
  assert (∀ u, get_relay (pool c1) u = get_relay (pool c) u) as Hget by (intros u; unfold get_relay; by rewrite Hrel1).
  assert (∀ ps, routed_asks (pool c1) id o ps = routed_asks (pool c) id o ps) as Hasks.
  { intros ps. unfold routed_asks. f_equal. apply list_fmap_ext. intros ? x _. by rewrite Hget. }
  assert (∀ ps : list (RelayUrl * Filter), filter (λ x, is_Some (get_relay (pool c1) x.1)) ps = filter (λ x, is_Some (get_relay (pool c) x.1)) ps) as Hfil.
  { intros ps. apply list_filter_iff. intros x. by rewrite Hget. }
  rewrite routed_asks_cons, filter_cons. simpl. destruct res as [one|e].
  - destruct Hres as [Hk Hs1]. rewrite decide_True by done.
    specialize (IH c1 (merge_output out one) (us ++ [url]) (fs ++ [f])). destruct (subscribe_each _ _ _ _ _ _ _ _) as [[[out' us'] fs'] c'].
    rewrite Hasks, Hfil in IH. destruct IH as (Hr & Hrel & Ha & -> & -> & Hs). rewrite <-!app_assoc. split_and!; [by eapply same_rest_trans|congruence| |done|done|].
    + by rewrite Ha, Ha1, app_assoc.
    + intros u. rewrite Hs, elem_of_cons. setoid_rewrite Hget. simpl. rewrite elem_of_union, Hs1. naive_solver.
  - rewrite decide_False by (rewrite Hres; by intros [? ?]). specialize (IH c1 out us fs).
    destruct (subscribe_each _ _ _ _ _ _ _ _) as [[[out' us'] fs'] c']. rewrite Hasks, Hfil in IH.
    destruct IH as (Hr & Hrel & Ha & -> & -> & Hs). split_and!; [by eapply same_rest_trans|congruence| |done|done|].
    + by rewrite Ha, Ha1, app_assoc.
    + intros u. rewrite Hs, elem_of_cons. setoid_rewrite Hget. naive_solver.
Qed.

Lemma routed_subscription c id o (m : gmap RelayUrl Filter) :
  let parts := map_to_list m in
  let c1 := ensure_gossip_relays c parts.*1 in
  let '(out, us, fs, c2) := subscribe_each answer c1 id o parts (output_new id) [] [] in
  let c' := if decide (success out = ∅) then c2
            else set_subscriptions c2 (<[id := mkSubscription us fs]> (subscriptions c2)) in
  let known := filter (λ x, is_Some (get_relay (pool c') x.1)) parts in
  (∀ u, u ∈ success out ↔ u ∈ dom m ∧ ∃ r, get_relay (pool c') u = Some r ∧ answer r = Ok tt)
  ∧ subscriptions c' = (if decide (success out = ∅) then subscriptions c
                        else <[id := mkSubscription known.*1 known.*2]> (subscriptions c))
  ∧ (∃ l, asked (pool c') = asked (pool c) ++ l ++ routed_asks (pool c') id o parts ∧ Forall (λ x, x.2 = AskConnect) l)
  ∧ ∀ u, is_Some (get_relay (pool c') u) → is_Some (get_relay (pool c) u) ∨ (u ∈ dom m ∧ check_admit_relay c u = Ok tt).
Proof.
  intros parts c1. pose proof (ensure_ensured c parts.*1) as He. fold c1 in He.
  pose proof (subscribe_each_spec c1 id o parts (output_new id) [] []) as Hs.
  destruct (subscribe_each answer c1 id o parts (output_new id) [] []) as [[[out us] fs] c2].
  destruct Hs as (Hrest & Hrel & Ha & -> & -> & Hs). cbv zeta.
  set (c' := if decide (success out = ∅) then c2 else _).
  assert (pool c' = pool c2) as Hp by (unfold c'; by case_decide). rewrite Hp.
  assert (∀ u, get_relay (pool c2) u = get_relay (pool c1) u) as Hget by (intros u; unfold get_relay; by rewrite Hrel).
  assert (filter (λ x, is_Some (get_relay (pool c2) x.1)) parts = filter (λ x, is_Some (get_relay (pool c1) x.1)) parts) as ->
    by (apply list_filter_iff; intros x; by rewrite Hget).
  assert (routed_asks (pool c2) id o parts = routed_asks (pool c1) id o parts) as ->
    by (unfold routed_asks; f_equal; apply list_fmap_ext; intros ? x _; by rewrite Hget).
  assert (subscriptions c2 = subscriptions c) as Hsub by (rewrite Hrest, (en_rest _ _ _ He); done).
  assert (∀ u, u ∈ parts.*1 ↔ u ∈ dom m) as Hdom.
  { intros u. unfold parts. rewrite elem_of_dom, list_elem_of_fmap. split.
    - intros ([v x] & -> & Hx%elem_of_map_to_list). by eexists.
    - intros [x Hx]. exists (u, x). by rewrite elem_of_map_to_list. }
  split_and!.
  - intros u. rewrite Hs, Hdom, Hget. simpl. set_solver.
  - unfold c'. case_decide; simpl; by rewrite Hsub.
  - destruct (en_only _ _ _ He) as (l & El & Hl). exists l. by rewrite Ha, El, app_assoc.
  - intros u Hu. rewrite Hget in Hu. destruct (grown_relays _ _ _ _ (en_grown _ _ _ He) u Hu) as [?|[? ?]]; [by left|].
    right. by rewrite <-Hdom.
Qed.

(** C40: What the registry of subscriptions says and what the relays were asked.
    Without a router, and with one that names no relays for the filter, a
    subscription is asked of the read relays and recorded when at least one took
    it, with exactly those that did.  With a router that names relays, each that
    the pool knows after the router's relays were added is asked with the filter
    made for it, the subscription is recorded when at least one took it, and the
    record has all of those asked, each with its filter, those that refused it
    too; so has the record of a subscription on given relays.  In all three every
    relay that took the subscription is asked to close it again in the same call,
    so no recorded subscription is open at a relay.  Unsubscribing removes the
    record and asks nobody; unsubscribing from all leaves none. *)
Theorem subscription_registry c id f o urls :
  match routed_filters c f with
  | None => subscribed_generic c id f o (subscribe_with_id answer c id f o)
  | Some m =>
      let '(r, c') := subscribe_with_id answer c id f o in
      let parts := map_to_list m in
      let known := filter (λ x, is_Some (get_relay (pool c') x.1)) parts in
      ∃ out, r = Ok out
        ∧ (∀ u, u ∈ success out ↔ u ∈ dom m ∧ ∃ r, get_relay (pool c') u = Some r ∧ answer r = Ok tt)
        ∧ subscriptions c' = (if decide (success out = ∅) then subscriptions c
                              else <[id := mkSubscription known.*1 known.*2]> (subscriptions c))
        ∧ (∃ l, asked (pool c') = asked (pool c) ++ l ++ routed_asks (pool c') id o parts ∧ Forall (λ x, x.2 = AskConnect) l)
        ∧ ∀ u, is_Some (get_relay (pool c') u) → is_Some (get_relay (pool c) u) ∨ (u ∈ dom m ∧ check_admit_relay c u = Ok tt)
  end
  ∧ match subscribe_to answer (Ok id) c urls f o with
    | (Ok out, c') =>
        opened_and_closed (pool c) (pool c') (list_to_set urls) id [f] o
        ∧ subscriptions c' = (if decide (success out = ∅) then subscriptions c
                              else <[id := mkSubscription urls [f]]> (subscriptions c))
        ∧ ∀ u t, failed out !! u = Some t → u ∈ urls
    | (Err e, c') => c' = c
    end
  ∧ (let c' := (unsubscribe c id).2 in subscriptions c' = delete id (subscriptions c) ∧ pool c' = pool c)
  ∧ (let c' := (unsubscribe_all c).2 in subscriptions c' = ∅ ∧ pool c' = pool c).
Proof.
  split; [|split; [|split]].
  - unfold subscribe_with_id, routed_filters. destruct (gossip c) as [g|]; [|apply subscribe_generic_spec].
    unfold gossip_subscribe. destruct (break_down g f) as [m| |]; [|apply subscribe_generic_spec..].
    pose proof (routed_subscription c id o m) as Hr. cbv zeta in Hr.
    destruct (subscribe_each _ _ _ _ _ _ _ _) as [[[out us] fs] c2]. exists out. by split.
  - unfold subscribe_to. assert (collect_relay_urls urls = Ok urls) as ->.
    { induction urls as [|u us IH]; [done|]. simpl. by rewrite IH. }
    unfold pool_subscribe_to. pose proof (pool_subscribe_spec (pool c) (list_to_set urls) id [f] o) as Hp.
    destruct (Pool.subscribe_to answer (pool c) (list_to_set urls) id [f] o) as [[out|e] p']; simpl.
    + destruct Hp as (_ & _ & Hf & Hoc). split_and!; [by case_decide|by case_decide|].
      intros u t (r & Hu & _)%Hf. by apply elem_of_list_to_set in Hu.
    + destruct Hp as [-> _]. by destruct c.
  - done.
  - unfold unsubscribe_all. cbv zeta. destruct (unsubscribe_each_registry c (elements (dom (subscriptions c)))) as [-> Hp].
    split; [|exact Hp]. rewrite list_to_set_elements_L. apply map_eq. intros i. rewrite lookup_difference, lookup_empty.
    destruct (subscriptions c !! i) eqn:E; [|by destruct (gset_to_gmap _ _ !! i)].
    rewrite lookup_gset_to_gmap, option_guard_True; [done|]. apply elem_of_dom. eauto.
Qed.
End registry.

(** ** Fetching *)

Section fetching.
Context `{FasterHex, Secp256k1, UrlCrate, LruCrate, !LruLaws}.
Context {DB : Type} `{NostrDatabase DB}.
Implicit Types (c : InnerClient (DB := DB)) (d : Drivers (DB := DB)).

(** The consumer of a fetch listens until the streams end. *)
Definition listening (turn : nat * DriverWakeup) : Prop :=
  match turn.2 with ConsumerGone => False | TimeUp => True | NextItem _ open _ => open = true end.

(** The events that reach a driver which still runs. *)
Definition arrival_of d (turn : nat * DriverWakeup) : list Event :=
  match drivers d !! turn.1, turn.2 with
  | Some (true, _), NextItem _ _ (Some (_, _, ItemEvent e)) => [e]
  | _, _ => []
  end.
Fixpoint arrivals (auto_save : bool) d (turns : list (nat * DriverWakeup)) : list Event :=
  match turns with
  | [] => []
  | t :: turns => arrival_of d t ++ arrivals auto_save (drivers_turn auto_save d t) turns
  end.

Definition delivered_events d : list Event := omap (λ x, result_ok x.2) (Facade.received d).

(** A cache holds ids of events the consumer got. *)
Definition caches_ok d : Prop :=
  ∀ i live cache k, drivers d !! i = Some (live, cache) → k ∈ lru_keys cache → k ∈ Event.id <$> delivered_events d.

Definition out_events (l : list StreamOut) : list Event := omap (λ x, result_ok x.2) l.

Lemma caches_step d i cache live cache' db extra :
  caches_ok d → drivers d !! i = Some (true, cache) →
  (∀ k, k ∈ lru_keys cache' → k ∈ lru_keys cache ∨ k ∈ Event.id <$> out_events extra) →
  caches_ok (mkDrivers (<[i := (live, cache')]> (drivers d)) db (Facade.received d ++ extra)).
Proof.
  intros Hc Ei Hk j live' c' k. unfold delivered_events. simpl. rewrite omap_app, fmap_app, elem_of_app.
  rewrite list_lookup_insert_Some. intros [(<- & [= <- <-] & _)|[_ E]] Hin.
  - destruct (Hk k Hin) as [Hin'|Hin']; [left; exact (Hc i true cache k Ei Hin')|by right].
  - left. exact (Hc j live' c' k E Hin).
Qed.

(** One turn of a driver: what it delivers. *)
Lemma turn_delivers auto_save d t :
  caches_ok d → listening t →
  let d' := drivers_turn auto_save d t in
  caches_ok d' ∧ (∀ e, e ∈ delivered_events d' → e ∈ delivered_events d ∨ e ∈ arrival_of d t)
  ∧ (∀ k, k ∈ Event.id <$> delivered_events d' ↔ k ∈ Event.id <$> delivered_events d ∨ k ∈ Event.id <$> arrival_of d t).
Proof.
  intros Hc Hl. destruct t as [i w]. unfold drivers_turn, arrival_of. unfold listening in Hl. simpl in *.
  destruct (drivers d !! i) as [[[] cache]|] eqn:Ei; [|set_solver..].
  pose proof (λ live db, caches_step d i cache live cache db [] Hc Ei (λ k Hk, or_introl Hk)) as Hsame.
  setoid_rewrite app_nil_r in Hsame.
  assert (∀ live db, let d' := mkDrivers (<[i := (live, cache)]> (drivers d)) db (Facade.received d) in
    caches_ok d' ∧ (∀ e, e ∈ delivered_events d' → e ∈ delivered_events d ∨ e ∈ @nil Event)
    ∧ (∀ k, k ∈ Event.id <$> delivered_events d' ↔ k ∈ Event.id <$> delivered_events d ∨ k ∈ Event.id <$> @nil Event)) as Hid.
  { intros live db. split; [apply Hsame|]. split; [by left|]. intros k. rewrite elem_of_nil. unfold delivered_events. simpl. tauto. }
  destruct w as [| |clock open [[[url id] item]|]]; simpl in *; [done|apply Hid| |apply Hid]. subst open.
  destruct item as [e| |m|m|m]; simpl; try apply Hid.
  - destruct (lru_put_spec cache (Event.id e)) as (Hp & _ & Hk). destruct (lru_put cache (Event.id e)) as [known cache']. simpl in *.
    assert (∀ k, k ∈ lru_keys cache' → k = Event.id e ∨ k ∈ lru_keys cache) as Hk'.
    { intros k. rewrite Hk. intros (j & Hj & _)%elem_of_take. apply list_elem_of_lookup_2, elem_of_cons in Hj as [->|[_ ?]%list_elem_of_filter]; auto. }
    destruct known; simpl.
    + symmetry in Hp. apply bool_decide_eq_true in Hp. pose proof (Hc i true cache _ Ei Hp) as Hin.
      split; [|split; [by left|]].
      2:{ intros k. unfold delivered_events in *. simpl. rewrite list_elem_of_singleton. naive_solver. }
      rewrite <-(app_nil_r (Facade.received d)). apply (caches_step d i cache); [done..|]. intros k [->|?]%Hk'; by left.
    + split; [|unfold delivered_events; simpl; rewrite omap_app; simpl; split; [by intros x ?%elem_of_app|]].
      2:{ intros k. by rewrite fmap_app, elem_of_app. }
      apply (caches_step d i cache); [done..|]. intros k [->|?]%Hk'; [right; left|by left].
  - split; [apply (caches_step d i cache); [done..|by left]|]. unfold delivered_events. simpl. rewrite omap_app, app_nil_r.
    split; [by left|]. intros k. rewrite elem_of_nil. tauto.
Qed.

Lemma turns_deliver auto_save d turns :
  caches_ok d → Forall listening turns →
  let d' := foldl (drivers_turn auto_save) d turns in
  (∀ e, e ∈ delivered_events d' → e ∈ delivered_events d ∨ e ∈ arrivals auto_save d turns)
  ∧ (∀ k, k ∈ Event.id <$> delivered_events d' ↔ k ∈ Event.id <$> delivered_events d ∨ k ∈ Event.id <$> arrivals auto_save d turns).
Proof.
  intros Hc Hl. revert d Hc. induction Hl as [|t turns Ht _ IH]; intros d Hc; simpl; [set_solver|].
  destruct (turn_delivers auto_save d t Hc Ht) as (Hc' & Hs & Hk). destruct (IH _ Hc') as [Hs' Hk']. split.
  - intros e [[?|?]%Hs|?]%Hs'; set_solver.
  - intros k. rewrite Hk', Hk. set_solver.
Qed.

Lemma collect_events_spec l :
  let es := collect_events l in
  StronglySorted event_le es ∧ NoDup (Event.id <$> es)
  ∧ (∀ e, e ∈ es → e ∈ out_events l) ∧ (∀ k, k ∈ Event.id <$> es ↔ k ∈ Event.id <$> out_events l).
Proof.
  unfold collect_events, Events.from_unsorted. fold (out_events l).
  destruct (seen_fold (out_events l) ∅ []) as (Hn & Hs & Hi); [set_solver|apply NoDup_nil_2|set_solver|].
  set (out := (foldl Events.seen_step (∅, []) (out_events l)).2) in *. cbv zeta. split_and!.
  - apply Sorted_StronglySorted; [apply _|]. apply Sorted_merge_sort; apply _.
  - by rewrite merge_sort_Permutation.
  - intros e. rewrite merge_sort_Permutation. intros He. destruct (Hs e He); [set_solver|done].
  - intros k. rewrite merge_sort_Permutation, !list_elem_of_fmap. split.
    + intros (e & -> & He). destruct (Hs e He); [set_solver|eauto].
    + intros (e & -> & He). destruct (Hi e) as (e' & He' & E); [by right|]. eauto.
Qed.

(** C23: A fetch over any number of relays and streams returns the union of what
    arrived before each stream ended: the events in canonical order, newest
    first, every id that arrived exactly once and no other, however the caches
    forget and the streams interleave.  The relay list read from a fetch is the
    one of the first of these events, whoever signed it. *)
Theorem fetch_union answer fresh turns c f pk :
  Forall listening turns →
  match stream_events answer fresh c f, fetch_events answer fresh turns c f with
  | (Ok streams, c1), (Ok events, _) =>
      let o := pool_options (pool c1) in
      let arrived := arrivals (auto_save_events o)
        (mkDrivers ((λ _, (true, lru_new (dedup_cache_size o))) <$> streams) (store c1) []) turns in
      StronglySorted event_le events ∧ NoDup (Event.id <$> events)
      ∧ (∀ e, e ∈ events → e ∈ arrived) ∧ (∀ k, k ∈ Event.id <$> events ↔ k ∈ Event.id <$> arrived)
  | (Err e, c1), (Err e', c2) => e = e' ∧ c2 = c1
  | _, _ => False
  end
  ∧ (get_relay_list answer fresh turns c pk).1 =
      match (fetch_events answer fresh turns c (latest_filter Kind.RELAY_LIST pk)).1 with
      | Err e => Err e
      | Ok [] => Ok None
      | Ok (e :: _) => match Nip65.from_event e with Ok l => Ok (Some l) | Err err => Err (Nip65 err) end
      end.
Proof.
  intros Hl. split.
  - unfold fetch_events. destruct (stream_events answer fresh c f) as [[streams|e] c1]; simpl; [|done].
    unfold drivers_run. set (o := pool_options (pool c1)). set (d := mkDrivers _ (store c1) []).
    destruct (turns_deliver (auto_save_events o) d turns) as [Hs Hk]; [|done|].
    { intros i live cache k. simpl. rewrite list_lookup_fmap. destruct (streams !! i); simpl; [|done].
      intros [= _ <-]. destruct (lru_new_keys (dedup_cache_size o)) as [-> _]. set_solver. }
    destruct (collect_events_spec (Facade.received (foldl (drivers_turn (auto_save_events o)) d turns))) as (Ho & Hn & Hsub & Hids).
    split_and!; [done|done| |].
    + intros e He%Hsub. destruct (Hs e He) as [?|?]; [set_solver|done].
    + intros k. rewrite Hids. unfold out_events. fold (delivered_events (foldl (drivers_turn (auto_save_events o)) d turns)).
      rewrite Hk. set_solver.
  - unfold get_relay_list. destruct (fetch_events _ _ _ _ _) as [[[|e es]|err] c']; [done| |done].
    simpl. by destruct (Nip65.from_event e).
Qed.
End fetching.

(** ** Witnesses *)

#[local] Existing Instance sample_secp.

(** Alice publishes a note with an empty pool: the router names her outbox, the
    relay is added and asked. *)
Lemma event_sent_witness :
  ∃ o c', send_event (λ _, Ok tt) (sample_client [] (Some sample_graph)) note1 = (Ok o, c') ∧ relay_a ∈ success o.
Proof.
  pose proof (event_sent (λ _, Ok tt) (sample_client [] (Some sample_graph)) sample_graph note1 eq_refl) as Hs.
  assert (destined sample_graph note1 relay_a) as Ha by (left; apply (bool_decide_unpack _); vm_compute; exact I).
  destruct (send_event _ _ _) as [r c']. destruct Hs as (l & _ & _ & _ & _ & Hok & _).
  destruct Hok as (o & -> & _ & Hu); [by exists relay_a|reflexivity|reflexivity|by right|].
  exists o, c'. split; [reflexivity|]. destruct (Hu relay_a Ha) as (rl & _ & _ & Hiff & _). by apply Hiff.
Defined.

(** A policy that admits one relay, and the notes of Alice. *)
Definition picky : AdmitPolicy :=
  mkPolicy (λ u, Ok (if decide (u = relay_a) then Success else rejected "unknown"))
    (λ _, Ok Success) (λ _ _ e, Ok (if decide (Event.pubkey e = alice) then Success else Rejected None)).
Definition picky_client : InnerClient (DB := MemoryStore) :=
  mkClient (pool_new (with_auto_save pool_options_new false)) (Memory.new mem_options_new) None None true ∅ (Some picky).
Definition picky_steps : list (AdmitPolicy * Op) :=
  [(picky, OAdd relay_a RelayCapabilities.default None); (picky, OAdd relay_b RelayCapabilities.default None);
   (picky, OConnectRelay (λ _, Ok tt) relay_a)].

Lemma picky_repr : store_repr (Spec.mkOptions None true true) (store picky_client) Spec.empty.
Proof. split_and!; [apply Inv_empty|reflexivity|reflexivity]. Qed.


(** One of two relays refuses the subscription; a subscription on the read relays
    records the other, one on both relays records both.  Both were asked to open
    it and one to close it. *)
Definition first_only (r : Pool.Relay) : result unit string := if (r =? 0)%N then Ok tt else Err "refused".
Definition two_relay_client : InnerClient (DB := MemoryStore) := sample_client [relay_a; relay_b] None.

Lemma subscription_registry_witness :
  subscriptions (subscribe_with_id first_only two_relay_client sub1 Filter.new subscribe_options_new).2 !! sub1
    = Some (mkSubscription [relay_a] [Filter.new])
  ∧ subscriptions (subscribe_to first_only (Ok sub1) two_relay_client [relay_a; relay_b] Filter.new subscribe_options_new).2 !! sub1
    = Some (mkSubscription [relay_a; relay_b] [Filter.new])
  ∧ subscriptions (unsubscribe_all two_relay_client).2 = ∅.
Proof.
  destruct (subscription_registry first_only two_relay_client sub1 Filter.new subscribe_options_new [relay_a; relay_b])
    as (_ & _ & _ & Hall & _).
  split; [vm_compute; reflexivity|]. split; [vm_compute; reflexivity|exact Hall].
Defined.

(** Two relays send notes, one of them twice. *)
Definition fetch_ids (stream relay : nat) : option SubscriptionId := Some (if decide (relay = 0%nat) then sub1 else sub2).
Definition fetch_turns : list (nat * DriverWakeup) :=
  [(0%nat, NextItem (Ok 1000%N) true (Some (relay_a, sub1, ItemEvent note1)));
   (0%nat, NextItem (Ok 1000%N) true (Some (relay_b, sub2, ItemEvent note1)));
   (0%nat, NextItem (Ok 1001%N) true (Some (relay_b, sub2, ItemEvent note3)));
   (0%nat, NextItem (Ok 1001%N) true None)].

Abbreviation sample_fetch := (fetch_events (λ _, Ok tt) fetch_ids fetch_turns two_relay_client Filter.new).
Abbreviation sample_streams := (stream_events (λ _, Ok tt) fetch_ids two_relay_client Filter.new).
Lemma sample_fetch_Ok : ∃ events, sample_fetch.1 = Ok events.
Proof. vm_compute. eexists. reflexivity. Qed.

Lemma fetch_union_witness :
  ∃ events c', sample_fetch = (Ok events, c')
    ∧ NoDup (Event.id <$> events) ∧ Event.id note1 ∈ Event.id <$> events ∧ Event.id note3 ∈ Event.id <$> events.
Proof.
  assert (Forall listening fetch_turns) as Hl by (repeat constructor).
  destruct (fetch_union (λ _, Ok tt) fetch_ids fetch_turns two_relay_client Filter.new alice Hl) as [Hu _].
  destruct sample_fetch_Ok as [events Ef]. rewrite (surjective_pairing sample_fetch), Ef in Hu.
  assert (sample_streams.1 = Ok [[(relay_a, sub1, 0%N); (relay_b, sub2, 1%N)]]) as Es by (vm_compute; reflexivity).
  rewrite (surjective_pairing sample_streams), Es in Hu.
  destruct Hu as (_ & Hn & _ & Hk). exists events, sample_fetch.2. split; [by rewrite <-Ef, <-surjective_pairing|].
  split; [exact Hn|]. rewrite !Hk. split; apply (bool_decide_unpack _); vm_compute; exact I.
Defined.

(** ** The client facade: private messages

    A private message from the sender's client to the relays its recipients take
    private messages on. *)

Import Facade.

Section messages.
Context `{FasterHex, !FasterHexLaws, Secp256k1, SecretScalar, SerdeJson, !SerdeJsonLaws, SigSerde, !SigSerdeLaws,
  JsonText, !JsonEvents, EventCrypto, !EventCryptoLaws, !Nip44Crates, !Nip44Laws, Base64, !Base64Laws, UrlCrate, LruCrate}.
Context {DB : Type} `{NostrDatabase DB}.
Implicit Types (c : InnerClient (DB := DB)) (g : Gossip.Inner (DB := DB)) (e : Event).

(** An envelope for [pk]. *)
Definition addressed_to pk e : Prop :=
  Event.kind e = GIFT_WRAP ∧ Tags.public_keys (Event.tags e) = [pk].

Lemma addressed_destined g pk e u : addressed_to pk e → destined g e u ↔ u ∈ dm_relays_of g pk.
Proof.
  intros [Hk Ht]. unfold destined. rewrite decide_True by done. rewrite Ht. split; [|set_solver].
  by intros (? & ->%list_elem_of_singleton & ?).
Qed.

Lemma recipient_tag_addressed pk hint : PublicKey.valid pk → Tags.public_keys [Nip59.recipient_tag pk hint] = [pk].
Proof.
  intros Hv. unfold Tags.public_keys. assert (Tags.find_letter [Nip59.recipient_tag pk hint] Alphabet.P = [Nip59.recipient_tag pk hint]) as ->
    by by destruct hint.
  assert (Tag.content (Nip59.recipient_tag pk hint) = Some (PublicKey.to_hex pk)) as Ec by by destruct hint.
  simpl. rewrite Ec. simpl. by rewrite PublicKey.pk_parse_to_hex.
Qed.

(** The envelopes of a message, one for each of those it is for. *)
Lemma wrap_for_many_addressed draws sender rs rumor ts ws :
  Forall (λ r, PublicKey.valid (Chat.public_key r)) rs → PublicKey.valid (xonly_public_key sender) →
  Chat.wrap_for_many draws sender rs rumor ts = Ok ws →
  Forall2 addressed_to (xonly_public_key sender :: (Chat.public_key <$> rs)) ws.
Proof.
  intros Hv Hs Hw. unfold Chat.wrap_for_many in Hw. destruct rs as [|r0 rs]; [done|].
  apply wrap_each_spec in Hw as [Hl Hw]. change (xonly_public_key sender :: (Chat.public_key <$> r0 :: rs))
    with (Chat.public_key <$> (Chat.recipient_new (xonly_public_key sender) :: r0 :: rs)).
  assert (Forall (λ r, PublicKey.valid (Chat.public_key r)) (Chat.recipient_new (xonly_public_key sender) :: r0 :: rs)) as Hall
    by by apply Forall_cons.
  generalize dependent (Chat.recipient_new (xonly_public_key sender) :: r0 :: rs). intros all Hl Hw Hall.
  apply Forall2_same_length_lookup. split; [by rewrite length_fmap|]. intros j pk w Hj Hwj.
  destruct (Hw j w Hwj) as (r & Hr & Esw). rewrite list_lookup_fmap, Hr in Hj. injection Hj as <-.
  rewrite Forall_lookup in Hall. specialize (Hall j r Hr).
  unfold Nip59.seal_and_wrap in Esw. destruct (Nip59.create_seal _ _ _ _ _) as [seal|]; cbn [result_bind] in Esw; [|done].
  pose proof (create_gift_wrap_spec (Nip59.ephemeral_bytes (draws (0 + j)%nat)) (Nip59.wrap_nonce (draws (0 + j)%nat)) seal
    (Chat.public_key r) (Chat.relay_hint r) (Nip59.wrap_at ts)) as Hg. rewrite Esw in Hg.
  destruct Hg as (_ & _ & _ & Hk & Ht). split; [done|]. rewrite Ht. by apply recipient_tag_addressed.
Qed.

(** Where an envelope for [pk] goes: with a router to the direct-message relays
    of [pk], without one to the write relays of the pool. *)
Definition envelope_relays c pk : gset RelayUrl :=
  match gossip c with
  | Some g => dm_relays_of g pk
  | None => relays_with_any_capability (pool c) RelayCapabilities.WRITE
  end.

Lemma envelope_sent answer c pk e :
  addressed_to pk e →
  let '(r, c') := send_event answer c e in
  (∀ pk', envelope_relays c' pk' = envelope_relays c pk')
  ∧ (∀ u rl, get_relay (pool c) u = Some rl → get_relay (pool c') u = Some rl)
  ∧ (envelope_relays c pk = ∅ → (∃ err, r = Err err) ∧ asked (pool c') = asked (pool c))
  ∧ ∃ l, asked (pool c') = asked (pool c) ++ l
    ∧ (∀ rl e' o, (rl, AskPublish e' o) ∈ l → e' = e ∧ ∃ u, u ∈ envelope_relays c pk ∧ get_relay (pool c') u = Some rl)
    ∧ (∀ o, r = Ok o → ∀ u, u ∈ envelope_relays c pk →
         ∃ rl, get_relay (pool c') u = Some rl ∧ (rl, AskPublish e publish_options_new) ∈ l).
Proof.
  intros He. unfold envelope_relays. destruct (gossip c) as [g|] eqn:Hg.
  - pose proof (send_published answer c g e Hg) as Hs. destruct (send_event answer c e) as [r c'].
    destruct Hs as (Hrest & Hkeep & Hnone & l & El & Hp & Hall). pose proof (addressed_destined g pk e) as Hd.
    assert (gossip c' = gossip c) as Hg' by by rewrite Hrest.
    split_and!; [by intros pk'; rewrite Hg', Hg|done| |].
    + intros Hemp. destruct Hnone as [-> ->]; [|by destruct He|by eauto].
      intros [u Hu]. rewrite (Hd u He), Hemp in Hu. set_solver.
    + exists l. split_and!; [done| |].
      * intros rl e' o Hin. destruct (Hp rl e' o Hin) as (-> & u & [Hu|(_ & Hk & _)] & Hr); [|by destruct He].
        split; [done|]. exists u. by rewrite <-(Hd u He).
      * intros o Ho u Hu%(Hd u He). by apply (Hall o).
  - unfold send_event. rewrite Hg. pose proof (pool_publish_sent answer c e) as Hs. destruct (pool_publish answer c e) as [r c'].
    destruct Hs as (Hrest & Hrel & l & El & Hp & Hr). assert (gossip c' = gossip c) as Hg' by by rewrite Hrest. split_and!.
    + intros pk'. rewrite Hg', Hg. unfold relays_with_any_capability. by rewrite Hrel.
    + unfold get_relay. by rewrite Hrel.
    + intros Hemp. rewrite decide_True in Hr by done. destruct Hr as [-> ->]. rewrite app_nil_r in El. eauto.
    + exists l. split_and!; [done|exact Hp|]. intros o -> u Hu. case_decide; [by destruct Hr|]. destruct Hr as (o' & [= <-] & _ & Hr).
      destruct (Hr u Hu) as (rl & ? & ? & _). eauto.
Qed.

(** Envelopes sent one after the other. *)
Lemma send_wraps_spec answer c pks ws merged :
  Forall2 addressed_to pks ws →
  let '(r, c') := send_wraps answer c ws None merged in
  (∀ u rl, get_relay (pool c) u = Some rl → get_relay (pool c') u = Some rl)
  ∧ ∃ l, asked (pool c') = asked (pool c) ++ l
    ∧ (∀ rl e o, (rl, AskPublish e o) ∈ l → ∃ i pk u, pks !! i = Some pk ∧ ws !! i = Some e
         ∧ u ∈ envelope_relays c pk ∧ get_relay (pool c') u = Some rl)
    ∧ (∀ out, r = Ok out → ∀ i pk e, pks !! i = Some pk → ws !! i = Some e →
         envelope_relays c pk ≠ ∅ ∧ ∀ u, u ∈ envelope_relays c pk →
           ∃ rl, get_relay (pool c') u = Some rl ∧ (rl, AskPublish e publish_options_new) ∈ l).
Proof.
  intros HF. revert c merged. induction HF as [|pk e pks ws He _ IH]; intros c merged; simpl.
  { split; [done|]. exists []. split_and!; [by rewrite app_nil_r|set_solver|done]. }
  pose proof (envelope_sent (answer e) c pk e He) as Hs. destruct (send_event (answer e) c e) as [r c1].
  destruct Hs as (Hsame & Hkeep & Hnone & l1 & El1 & Hl1 & Hall1). destruct r as [one|err].
  - set (m := mkOutput _ _ _). specialize (IH c1 m). destruct (send_wraps answer c1 ws None m) as [r c'].
    destruct IH as (Hk' & l2 & El2 & Hp2 & Hall2). split; [eauto|]. exists (l1 ++ l2).
    split; [by rewrite El2, El1, app_assoc|]. split.
    + intros rl e' o [(-> & u & Hu & Hr)%Hl1|(i & pk' & u & ? & ? & ? & ?)%Hp2]%elem_of_app.
      * exists 0%nat, pk, u. eauto.
      * exists (S i), pk', u. rewrite <-Hsame. eauto.
    + intros out Ho [|i] pk' e'; simpl.
      * intros [= <-] [= <-]. split; [intros Hemp; by destruct (Hnone Hemp) as [[? ?] _]|].
        intros u Hu. destruct (Hall1 one eq_refl u Hu) as (rl & ? & ?). exists rl. rewrite elem_of_app. eauto.
      * intros Hi Hw. destruct (Hall2 out Ho i pk' e' Hi Hw) as [? Hu]. rewrite Hsame in *. split; [done|].
        intros u (rl & ? & ?)%Hu. exists rl. rewrite elem_of_app. eauto.
  - split; [done|]. exists l1. split_and!; [done| |done].
    intros rl e' o (-> & u & Hu & Hr)%Hl1. exists 0%nat, pk, u. eauto.
Qed.

End messages.

(** ** Witness *)

#[local] Existing Instance sample_secp.

(** Alice and Bob both take private messages on a relay each. *)
Definition dm_graph : Gossip.Inner (DB := MemoryStore) :=
  mkInner default_options (Memory.new mem_options_new)
    {[alice := set_nip17 no_routes [relay_a] 90%N; bob := set_nip17 no_routes [relay_b] 90%N]}.
Definition wrap_world : WrapWorld :=
  mkWrapWorld (Some 1000%N, Some 1000%N, Some 1000%N) (Ok [x07]) (Ok [x08]) (λ i, draws (N.of_nat i * 3 + 7)).
Abbreviation sample_message :=
  (send_private_msg (λ _ _, Ok tt) wrap_world (sample_client [] (Some dm_graph)) alice_keys [Chat.recipient_new bob] "hello" None).
Lemma sample_message_Ok : ∃ out, sample_message.1 = Ok out.
Proof.
  assert (match sample_message.1 with Ok _ => true | Err _ => false end = true) as E by (vm_compute; reflexivity).
  destruct sample_message.1 as [out|e]; [by exists out|discriminate E].
Qed.

