(* ===== verification/FacadeSyncTheorems.v ===== *)
(** * The reconciliation driver: theorems

    What a sync reports is what it did, whatever the relay sends, and a sync with
    a relay that answers as the session's responder leaves nothing of the relay's
    out. *)

From Stdlib Require Import NArith Lia.
From S2P Require Import Prelude Encoding Text Ids Tags Event Filter FilterWire Storage SpecProofs Database.
From S2P Require Import RedbProofs.
From S2P Require Import Nips Message Sync HttpAuth Client Pool PoolTheorems Facade FacadeSync FacadeProofs FacadeTheorems.
From S2P Require Import Samples Memory MemoryProofs Backends Gossip GossipTheorems RelaySamples FacadeSamples.
Import Facade FacadeSync.

Section accounting.
Context `{FasterHex, Secp256k1, UrlCrate, LruCrate, NegentropyCrate}.
Context {DB : Type} `{NostrDatabase DB, !EventLookup DB}.
Implicit Types (c : InnerClient (DB := DB)) (st : Phase (DB := DB)).

(** *** The session *)

Definition is_neg_msg (x : Pool.Relay * Ask) : Prop :=
  match x.2 with AskSend (ClientMessage.NegMsg _ _) => True | _ => False end.
#[local] Instance is_neg_msg_dec x : Decision (is_neg_msg x).
Proof. unfold is_neg_msg. destruct x as [? [| | | |[]| |]]; apply _. Defined.
Definition neg_msgs (l : list (Pool.Relay * Ask)) : nat := length (filter is_neg_msg l).

Lemma insert_all_spec ids target : (insert_all ids target).2 = list_to_set ids ∪ target.
Proof.
  unfold insert_all. generalize 0%N. revert target. induction ids as [|i ids IH]; intros target n; simpl; [set_solver|].
  case_decide; rewrite IH; set_solver.
Qed.

Lemma fold_outcome_spec o out s p :
  let s' := (fold_outcome o out s p).1 in
  local s' = (if do_up (direction o) then list_to_set (Sync.have out) ∪ local s else local s)
  ∧ remote s' = (if do_down (direction o) then list_to_set (Sync.need out) ∪ remote s else remote s)
  ∧ sent s' = sent s ∧ received s' = received s ∧ send_failures s' = send_failures s
  ∧ rejected_by_policy s' = rejected_by_policy s.
Proof.
  unfold fold_outcome. pose proof (insert_all_spec (Sync.have out) (local s)) as Hu.
  pose proof (insert_all_spec (Sync.need out) (remote s)) as Hd.
  destruct (do_up (direction o)), (do_down (direction o)), (insert_all (Sync.have out) (local s)), (insert_all (Sync.need out) (remote s));
    simpl in *; by subst.
Qed.

(** Nothing was exchanged yet, and only the asked directions were looked at. *)
Record only_found (o : SyncOptions) (s : SyncSummary) : Prop := {
  of_up : do_up (direction o) = false → local s = ∅;
  of_down : do_down (direction o) = false → remote s = ∅;
  of_sent : sent s = ∅;
  of_received : received s = ∅;
  of_failures : send_failures s = ∅;
  of_rejected : rejected_by_policy s = ∅;
}.
Lemma only_found_fold o out s p : only_found o s → only_found o (fold_outcome o out s p).1.
Proof.
  intros [Hu Hd Hs Hr Hf Hj]. destruct (fold_outcome_spec o out s p) as (El & Er & Es & Ev & Ef & Ej).
  split; [intros E; rewrite El, E; auto|intros E; rewrite Er, E; auto|congruence..].
Qed.

Lemma neg_rounds_spec n o r id items (st : Run) :
  let st' := (neg_rounds n o r id items st).2 in
  (only_found o (summary st) → only_found o (summary st'))
  ∧ ∃ l, asked (run_pool st') = asked (run_pool st) ++ l ∧ (neg_msgs l ≤ n)%nat.
Proof.
  assert (∀ n (st : Run), (only_found o (summary st) → only_found o (summary st)) ∧
    ∃ l, asked (run_pool st) = asked (run_pool st) ++ l ∧ (neg_msgs l ≤ n)%nat) as Hend.
  { intros m st1. split; [done|]. exists []. split; [by rewrite app_nil_r|unfold neg_msgs; simpl; lia]. }
  revert n st. induction items as [|[item answer] items IH]; intros [|n] st; simpl; try apply Hend.
  assert (∀ st : Run, let st' := (neg_rounds n o r id items st).2 in
    (only_found o (summary st) → only_found o (summary st'))
    ∧ ∃ l, asked (run_pool st') = asked (run_pool st) ++ l ∧ (neg_msgs l ≤ S n)%nat) as Hgo.
  { intros st1. destruct (IH n st1) as (Hs2 & l & El & Hl). split; [done|]. exists l. split; [done|lia]. }
  destruct item as [e| |m|m|m]; try (by apply Hgo); [|by apply Hend].
  destruct (Sync.reconcile_hex _ _) as [[out|e] ss]; [|apply (Hend (S n) (mkRun (run_pool st) ss (summary st) (progress st)))].
  pose proof (only_found_fold o out (summary st) (progress st)) as Hf.
  destruct (fold_outcome _ _ _ _) as [s p]. simpl in Hf.
  destruct (Sync.next_message_hex out) as [next|].
  2:{ destruct (Hend (S n) (mkRun (run_pool st) ss s p)) as [_ Ha]. split; [exact Hf|exact Ha]. }
  set (st1 := mkRun _ ss s p). destruct answer as [[]|e].
  - destruct (IH n st1) as (Hs2 & l & El & Hl). split; [by intros Ho%Hf%Hs2|].
    exists ((r, AskSend (ClientMessage.NegMsg id next)) :: l). split; [rewrite El; simpl; by rewrite <-app_assoc|].
    unfold neg_msgs in *. rewrite filter_cons, decide_True by done. simpl. lia.
  - split; [exact Hf|]. exists [(r, AskSend (ClientMessage.NegMsg id next))]. split; [done|].
    unfold neg_msgs. rewrite filter_cons, decide_True by done. simpl. lia.
Qed.

Lemma reconcile_loop_spec o r id f opening opened items (st : Run) :
  let st' := (reconcile_loop o r id f opening opened items st).2 in
  (only_found o (summary st) → only_found o (summary st'))
  ∧ ∃ l, asked (run_pool st') = asked (run_pool st) ++ l ∧ (neg_msgs l ≤ MAX_NEG_ROUNDS)%nat.
Proof.
  unfold reconcile_loop. set (st1 := mkRun _ _ _ _). destruct opened as [[]|e].
  2:{ split; [done|]. exists [(r, AskNeg id f opening)]. split; [done|]. unfold neg_msgs. simpl. lia. }
  destruct (neg_rounds_spec MAX_NEG_ROUNDS o r id items st1) as (Ho & l & El & Hl).
  destruct (neg_rounds MAX_NEG_ROUNDS o r id items st1) as [res st2]. cbn [snd] in *. split; [exact Ho|].
  exists ([(r, AskNeg id f opening)] ++ l ++ [(r, AskClose id)]). split.
  - cbn [run_pool]. simpl. rewrite El. simpl. by rewrite <-!app_assoc.
  - unfold neg_msgs in *. rewrite !filter_app, !length_app. simpl. lia.
Qed.

(** *** The phases *)

(** The event is in the database and the relay accepted it. *)
Definition uploaded (publish : Event → result unit string) (d : DB) (id : EventId) : Prop :=
  ∃ e, store_event d id = Ok (Some e) ∧ publish e = Ok tt.

(** The ids of [P] were taken care of. *)
Record uploads publish (d : DB) (P : EventId → Prop) st st' : Prop := {
  up_store : store (client st') = store (client st);
  up_local : local (so_far st') = local (so_far st);
  up_remote : remote (so_far st') = remote (so_far st);
  up_received : received (so_far st') = received (so_far st);
  up_rejected : rejected_by_policy (so_far st') = rejected_by_policy (so_far st);
  up_sent : ∀ i, i ∈ sent (so_far st') ↔ i ∈ sent (so_far st) ∨ (P i ∧ uploaded publish d i);
  up_failed : ∀ i, is_Some (send_failures (so_far st') !! i) ↔
    is_Some (send_failures (so_far st) !! i) ∨ (P i ∧ ¬ uploaded publish d i);
  up_asked : ∃ l, asked (pool (client st')) = asked (pool (client st)) ++ l ∧ neg_msgs l = 0%nat;
}.

Lemma uploads_nothing publish d st : uploads publish d (.∈ @nil EventId) st st.
Proof. split; try done; [set_solver..|]. exists []. by rewrite app_nil_r. Qed.

Lemma neg_msgs_app l l' : neg_msgs (l ++ l') = (neg_msgs l + neg_msgs l')%nat.
Proof. unfold neg_msgs. by rewrite filter_app, length_app. Qed.

Lemma uploads_app publish d (P Q : EventId → Prop) st1 st2 st3 :
  uploads publish d P st1 st2 → uploads publish d Q st2 st3 → uploads publish d (λ i, P i ∨ Q i) st1 st3.
Proof.
  intros [A1 A2 A3 A4 A5 A6 A7 (l1 & E1 & L1)] [B1 B2 B3 B4 B5 B6 B7 (l2 & E2 & L2)]. split; try congruence.
  - intros i. rewrite B6, A6. tauto.
  - intros i. rewrite B7, A7. tauto.
  - exists (l1 ++ l2). rewrite E2, E1, app_assoc, neg_msgs_app. split; [done|lia].
Qed.

Lemma upload_one_spec publish r st i : uploads publish (store (client st)) (.= i) st (upload_one publish r st i).
Proof.
  assert (∀ t p e, ¬ uploaded publish (store (client st)) i →
    store p = store (client st) → (∃ l, asked (pool p) = asked (pool (client st)) ++ l ∧ neg_msgs l = 0%nat) →
    uploads publish (store (client st)) (.= i) st (mkPhase p (mark_failed (so_far st) i e) t)) as Hfail.
  { intros t p e Hn Es Ha. split; simpl; try done.
    - intros j. split; [by left|]. intros [?|[-> ?]]; done.
    - intros j. rewrite lookup_insert_is_Some. destruct (decide (i = j)); naive_solver. }
  assert (∃ l, asked (pool (client st)) = asked (pool (client st)) ++ l ∧ neg_msgs l = 0%nat) as Hnil
    by (exists []; by rewrite app_nil_r).
  unfold upload_one. destruct (store_event (store (client st)) i) as [[e|]|e] eqn:E.
  - set (p := set_pool _ _). assert (∃ l, asked (pool p) = asked (pool (client st)) ++ l ∧ neg_msgs l = 0%nat) as Ha
      by by exists [(r, AskPublish e publish_options_new)].
    destruct (publish e) as [[]|err] eqn:Ep.
    + assert (uploaded publish (store (client st)) i) as Hu by by exists e. split; simpl; try done.
      * intros j. rewrite elem_of_union, elem_of_singleton. naive_solver.
      * intros j. split; [by left|]. intros [?|[-> ?]]; done.
    + apply Hfail; try done. intros (e' & Ee & Hp). congruence.
  - apply Hfail; try done. intros (e' & Ee & Hp). congruence.
  - apply Hfail; try done. intros (e' & Ee & Hp). congruence.
Qed.

Lemma upload_spec publish r st ids :
  uploads publish (store (client st)) (.∈ ids) st (foldl (upload_one publish r) st ids).
Proof.
  induction ids as [|i ids IH] using rev_ind; [apply uploads_nothing|]. rewrite foldl_app.
  pose proof (upload_one_spec publish r (foldl (upload_one publish r) st ids) i) as Ho.
  rewrite (up_store _ _ _ _ _ IH) in Ho. pose proof (uploads_app _ _ _ _ _ _ _ IH Ho) as [].
  split; try done; intros j; rewrite elem_of_app, list_elem_of_singleton; eauto.
Qed.

(** What the loop over the fetched events notes. *)
Record downloads c url id (events : list Event) st st' : Prop := {
  dl_pool : pool (client st') = pool (client st);
  dl_local : local (so_far st') = local (so_far st);
  dl_remote : remote (so_far st') = remote (so_far st);
  dl_sent : sent (so_far st') = sent (so_far st);
  dl_kept : ∀ i, is_Some (send_failures (so_far st) !! i) → is_Some (send_failures (so_far st') !! i);
  dl_received : ∀ i, i ∈ received (so_far st') →
    i ∈ received (so_far st) ∨ ∃ e, e ∈ events ∧ Event.id e = i ∧ check_admit_event c url id e = Ok tt;
  dl_rejected : ∀ i, is_Some (rejected_by_policy (so_far st') !! i) ↔
    is_Some (rejected_by_policy (so_far st) !! i) ∨
    ∃ e, e ∈ events ∧ Event.id e = i ∧ ∃ stage reason, check_admit_event c url id e = Err (PolicyRejected stage reason);
  dl_all : ∀ e, e ∈ events → Event.id e ∈ received (so_far st') ∨ is_Some (send_failures (so_far st') !! Event.id e)
    ∨ is_Some (rejected_by_policy (so_far st') !! Event.id e);
}.

Lemma check_admit_same c c' url id e : admit_policy c' = admit_policy c → check_admit_event c' url id e = check_admit_event c url id e.
Proof. intros E. unfold check_admit_event. by rewrite E. Qed.

(** What is noted stays noted. *)
Lemma download_each_keeps clock url id events st i :
  let st' := (download_each clock url id events st).2 in
  (i ∈ received (so_far st) → i ∈ received (so_far st'))
  ∧ (is_Some (send_failures (so_far st) !! i) → is_Some (send_failures (so_far st') !! i)).
Proof.
  revert st. induction events as [|e events IH]; intros st; simpl; [done|].
  destruct (check_admit_event _ _ _ _) as [[]|[]]; try done.
  - destruct (store_save _ _ _) as [res d]. destruct (IH (mkPhase (set_store (client st) d) (match res with
      | Ok _ => mark_received (so_far st) (Event.id e) | Err x => mark_failed (so_far st) (Event.id e) x end)
      (tick_progress (ticks st)))) as [K1 K2]. split; [intros Hi; apply K1|intros Hi; apply K2]; destruct res; simpl; try done.
    + set_solver.
    + rewrite lookup_insert_is_Some. destruct (decide (Event.id e = i)); auto.
  - apply (IH (mkPhase (client st) (mark_rejected (so_far st) (Event.id e) reason) (tick_progress (ticks st)))).
Qed.

Lemma verdict_Err stage a err : verdict stage a = Err err → (∃ reason, err = PolicyRejected stage reason) ∨ ∃ t, err = Policy t.
Proof. destruct a as [[|reason]|t]; simpl; [done|intros [= <-]; eauto..]. Qed.

Lemma download_each_spec clock url id events st :
  match download_each clock url id events st with
  | (Ok _, st') => downloads (client st) url id events st st'
  | (Err _, st') => pool (client st') = pool (client st)
  end.
Proof.
  revert st. induction events as [|e events IH]; intros st; simpl.
  { split; try done; set_solver. }
  destruct (check_admit_event (client st) url id e) as [[]|err] eqn:Ea.
  - destruct (store_save (clock e) (store (client st)) e) as [res d].
    set (st1 := mkPhase (set_store (client st) d) _ _). specialize (IH st1).
    pose proof (download_each_keeps clock url id events st1 (Event.id e)) as Hk.
    destruct (download_each clock url id events st1) as [[[]|err] st']; [|done]. destruct IH as [D1 D2 D3 D4 D5 D6 D7 D8].
    simpl in Hk. split.
    + done.
    + etrans; [exact D2|]. by destruct res.
    + etrans; [exact D3|]. by destruct res.
    + etrans; [exact D4|]. by destruct res.
    + intros i Hi. apply D5. destruct res; simpl; [done|]. rewrite lookup_insert_is_Some. destruct (decide (Event.id e = i)); auto.
    + intros i [Hi|(x & Hx & Ei & Hadm)]%D6; [|right; exists x; set_solver].
      destruct res; simpl in Hi; [|by left]. apply elem_of_union in Hi as [->%elem_of_singleton|Hi]; [right; exists e; set_solver|by left].
    + intros i. rewrite D7. assert (rejected_by_policy (so_far st1) = rejected_by_policy (so_far st)) as -> by by destruct res.
      split; [intros [?|(x & Hx & Ei & Hr)]; [by left|right; exists x; set_solver]|].
      intros [?|(x & [->|Hx]%elem_of_cons & Ei & Hr)]; [by left| |right; exists x; eauto].
      destruct Hr as (stage & reason & Hr). congruence.
    + intros x [->|Hx]%elem_of_cons; [|by apply D8]. destruct Hk as [K1 K2].
      destruct res; [left; apply K1; simpl; set_solver|right; left; apply K2; simpl; rewrite lookup_insert_eq; eauto].
  - destruct (verdict_Err "event" (match admit_policy (client st) with Some p => admit_event p url id e | None => Ok Success end) err)
      as [[reason ->]|[t ->]]; [unfold check_admit_event in Ea; destruct (admit_policy (client st)); done| |done].
    set (st1 := mkPhase (client st) _ _). specialize (IH st1).
    destruct (download_each clock url id events st1) as [[[]|err] st']; [|done]. destruct IH as [D1 D2 D3 D4 D5 D6 D7 D8].
    assert (is_Some (rejected_by_policy (so_far st1) !! Event.id e)) as He by (simpl; rewrite lookup_insert_eq; eauto). split; try done.
    + intros i [Hi|(x & Hx & Ei & Hadm)]%D6; [by left|right; exists x; set_solver].
    + intros i. rewrite D7. simpl. rewrite lookup_insert_is_Some. split.
      * intros [[<-|[_ ?]]|(x & Hx & Ei & Hr)]; [right; exists e; set_solver|by left|right; exists x; set_solver].
      * intros [?|(x & [->|Hx]%elem_of_cons & Ei & Hr)]; [|left; left; done|right; exists x; eauto].
        left. destruct (decide (Event.id e = i)); auto.
    + intros x [->|Hx]%elem_of_cons; [|by apply D8]. right; right. apply D7. by left.
Qed.

(** The whole download, the fetch included. *)
Lemma download_phase_spec w url id st st' :
  download_phase w url id st = (Ok tt, st') →
  ∃ events c1, NoDup (Event.id <$> events) ∧ admit_policy c1 = admit_policy (client st)
    ∧ downloads (client st) url id events (mkPhase c1 (so_far st) (ticks st)) st'.
Proof.
  unfold download_phase, fetch_events_from.
  set (f := Filter.add_ids _ _).
  pose proof (stream_from_quiet (f_answer w) (f_fresh w) (client st) [url] f) as Hq.
  destruct (stream_events_from _ _ _ _ _) as [[ss|e] c1]; simpl; [|done].
  set (d := drivers_run c1 ss (f_turns w)). intros E. exists (collect_events (Facade.received d)), (set_store c1 (saved d)).
  split; [apply (collect_events_spec (Facade.received d))|]. split; [apply (qs_policy _ _ Hq)|].
  set (st1 := mkPhase (set_store c1 (saved d)) (so_far st) (ticks st)) in *.
  pose proof (download_each_spec (f_clock w) url id (collect_events (Facade.received d)) st1) as Hd. rewrite E in Hd.
  assert (∀ e, check_admit_event (client st1) url id e = check_admit_event (client st) url id e) as Hc
    by (intros e; apply check_admit_same; apply (qs_policy _ _ Hq)).
  destruct Hd as [D1 D2 D3 D4 D5 D6 D7 D8]. split; try done.
  - intros i Hi. destruct (D6 i Hi) as [?|(x & ? & ? & Hx)]; [by left|]. rewrite Hc in Hx. right. eauto.
  - intros i. rewrite D7. by setoid_rewrite Hc.
Qed.

(** What the phases make of a summary that only says what was found. *)
Record accounted w c (o : SyncOptions) url (s : SyncSummary) (d' : DB) : Prop := {
  ac_up : do_up (direction o) = false → local s = ∅ ∧ sent s = ∅;
  ac_down : do_down (direction o) = false → remote s = ∅ ∧ received s = ∅ ∧ rejected_by_policy s = ∅ ∧ d' = store c;
  ac_dry : dry_run o = true →
    sent s = ∅ ∧ received s = ∅ ∧ send_failures s = ∅ ∧ rejected_by_policy s = ∅ ∧ d' = store c;
  ac_sent : ∀ i, i ∈ sent s ↔ dry_run o = false ∧ i ∈ local s ∧ uploaded (y_publish w) (store c) i;
  ac_failed : dry_run o = false → ∀ i, i ∈ local s → i ∉ sent s → is_Some (send_failures s !! i);
  ac_received : ∀ i, i ∈ received s → ∃ id e, Event.id e = i ∧ check_admit_event c url id e = Ok tt;
  ac_rejected : ∀ i, is_Some (rejected_by_policy s !! i) → (i ∉ received s)
    ∧ ∃ id e stage reason, Event.id e = i ∧ check_admit_event c url id e = Err (PolicyRejected stage reason);
}.

Lemma only_found_accounted w c o url s :
  only_found o s → (dry_run o = true ∨ do_up (direction o) = false) → accounted w c o url s (store c).
Proof.
  intros [Hu Hd Hs Hr Hf Hj] Ho. split; rewrite ?Hs, ?Hr, ?Hf, ?Hj; auto; try done.
  - intros i. split; [set_solver|]. intros (Hn & Hi & _). destruct Ho as [Ho|Ho]; [congruence|]. rewrite (Hu Ho) in Hi. set_solver.
  - intros Hn i Hi _. destruct Ho as [Ho|Ho]; [congruence|]. rewrite (Hu Ho) in Hi. set_solver.
  - intros i. rewrite lookup_empty. by intros [? ?].
Qed.

Lemma upload_accounted w c o url r st :
  only_found o (so_far st) → store (client st) = store c → dry_run o = false → do_up (direction o) = true →
  accounted w c o url (so_far (upload_phase (y_publish w) r st)) (store c)
  ∧ store (client (upload_phase (y_publish w) r st)) = store c.
Proof.
  intros [Hu Hd Hs Hr Hf Hj] Hst Hdry Hup. unfold upload_phase.
  destruct (upload_spec (y_publish w) r st (elements (local (so_far st)))) as [U1 U2 U3 U4 U5 U6 U7 _].
  rewrite Hst in *. set (st' := foldl _ st _) in *. split; [|done].
  assert (∀ i, i ∈ sent (so_far st') ↔ i ∈ local (so_far st) ∧ uploaded (y_publish w) (store c) i) as Hsent.
  { intros i. rewrite U6, Hs, elem_of_elements. set_solver. }
  split; rewrite ?U2, ?U3, ?U4, ?U5, ?Hr, ?Hj; try done; try congruence.
  - intros E. rewrite (Hd E). done.
  - intros i. rewrite Hsent. naive_solver.
  - intros _ i Hi Hn. apply U7. right. rewrite elem_of_elements. split; [done|]. intros Hup'. apply Hn, Hsent. done.
  - intros i. rewrite lookup_empty. by intros [? ?].
Qed.

Lemma download_accounted w c o url id st st' :
  accounted w c o url (so_far st) (store c) → admit_policy (client st) = admit_policy c → dry_run o = false →
  do_down (direction o) = true → received (so_far st) = ∅ → rejected_by_policy (so_far st) = ∅ →
  download_phase (y_fetch w) url id st = (Ok tt, st') → accounted w c o url (so_far st') (store (client st')).
Proof.
  intros [A1 A2 A3 A4 A5 A6 A7] Hpol Hdry Hdown Hr Hj E.
  destruct (download_phase_spec _ _ _ _ _ E) as (events & c1 & Hnd & Hpol1 & [D1 D2 D3 D4 D5 D6 D7 D8]). simpl in *.
  assert (∀ e, check_admit_event (client st) url id e = check_admit_event c url id e) as Hc
    by (intros e; by apply check_admit_same).
  split; rewrite ?D2, ?D3, ?D4; try done; try congruence.
  - intros _ i Hi Hn. apply D5. by apply A5.
  - intros i Hi. destruct (D6 i Hi) as [?|(x & ? & ? & Hx)]; [rewrite Hr in *; set_solver|]. rewrite Hc in Hx. eauto.
  - intros i Hi. apply D7 in Hi as [[? Hi]|(x & Hx & Ei & stage & reason & Hrej)]; [by rewrite Hj, lookup_empty in Hi|].
    split; [|rewrite Hc in Hrej; eauto 10]. intros Hin. destruct (D6 i Hin) as [?|(y & Hy & Eiy & Hadm)]; [rewrite Hr in *; set_solver|].
    assert (x = y) as -> by (eapply (NoDup_fmap_inj_elem Event.id events); [exact Hnd|done|done|congruence]). congruence.
Qed.

End accounting.

(** ** A sync with a relay that answers *)

Section converging.
Context `{FasterHex, !FasterHexLaws, Secp256k1, UrlCrate, LruCrate, !LruLaws, NegentropyCrate, !NegentropyLaws}.
Context {DB : Type} `{NostrDatabase DB, !EventLookup DB, !DatabaseContract DB}.
Implicit Types (c : InnerClient (DB := DB)) (st : Phase (DB := DB)).

(** *** The relay

    The relay [rl] holds the events [has] and answers the requests [l] it is
    sent, in order, by NIP-77 and NIP-01. *)

Section relay.
Variables (rl : Pool.Relay) (has : list Event).

(** The events it holds under one of the filters. *)
Definition under (fs : list Filter) : list Event :=
  filter (λ e, existsb (λ f, Filter.match_event f e match_options_default) fs = true) has.
Definition items_under (f : Filter) : list (EventId * Timestamp) :=
  (λ e, (Event.id e, Event.created_at e)) <$> under [f].

Definition respond (resp : Sync.Responder) (query : string) : option Sync.Responder * list string :=
  match Sync.responder_reconcile_hex resp query with
  | (Ok reply, resp) => (Some resp, [reply])
  | (Err _, _) => (None, [])
  end.

(** One request of the session [sub]: NEG-OPEN makes a responder over the events
    under the filter it names, NEG-MSG is for the responder there is. *)
Definition neg_turn (sub : SubscriptionId) (resp : option Sync.Responder) (x : Pool.Relay * Ask) :
    option Sync.Responder * list string :=
  match x.2, resp with
  | AskNeg id f query, _ =>
      if decide (x.1 = rl ∧ id = sub) then
        match (let? sb := Sync.prepare_storage (items_under f) in Sync.responder_with_defaults sb) with
        | Ok resp => respond resp query
        | Err _ => (None, [])
        end
      else (resp, [])
  | AskSend (ClientMessage.NegMsg id query), Some resp =>
      if decide (x.1 = rl ∧ id = sub) then respond resp query else (Some resp, [])
  | _, _ => (resp, [])
  end.
Fixpoint neg_replies (sub : SubscriptionId) (resp : option Sync.Responder) (l : list (Pool.Relay * Ask)) : list string :=
  match l with
  | [] => []
  | x :: l => let '(resp, out) := neg_turn sub resp x in out ++ neg_replies sub resp l
  end.

(** The events it sends on the subscription [sid]. *)
Definition served (sid : SubscriptionId) (l : list (Pool.Relay * Ask)) : list Event :=
  concat ((λ x : Pool.Relay * Ask,
    match x.2 with AskSubscribe id fs _ => if decide (x.1 = rl ∧ id = sid) then under fs else [] | _ => [] end) <$> l).

Lemma elem_of_under fs e :
  e ∈ under fs ↔ e ∈ has ∧ ∃ f, f ∈ fs ∧ Filter.match_event f e match_options_default = true.
Proof.
  unfold under. rewrite list_elem_of_filter, existsb_exists. setoid_rewrite <-list_elem_of_In. tauto.
Qed.
Lemma elem_of_items_under f i :
  i ∈ (items_under f).*1 ↔ ∃ e, e ∈ has ∧ Event.id e = i ∧ Filter.match_event f e match_options_default = true.
Proof.
  unfold items_under. rewrite <-list_fmap_compose, list_elem_of_fmap. setoid_rewrite elem_of_under. simpl. split.
  - intros (e & -> & He & f' & ->%list_elem_of_singleton & Hm). eauto.
  - intros (e & He & <- & Hm). exists e. split; [done|]. split; [done|]. exists f. by rewrite list_elem_of_singleton.
Qed.
(** A filter of ids: the events with these ids. *)
Lemma elem_of_under_ids ids e : e ∈ under [Filter.add_ids Filter.new ids] ↔ e ∈ has ∧ Event.id e ∈ ids.
Proof.
  rewrite elem_of_under. setoid_rewrite list_elem_of_singleton. split.
  - intros (He & f & -> & Hm). split; [done|]. apply Filter.match_event_default in Hm as (Hi & _).
    specialize (Hi _ eq_refl). apply elem_of_foldl_push_new in Hi as [Hi|Hi]; [by apply elem_of_nil in Hi|done].
  - intros [He Hi]. split; [done|]. eexists. split; [done|]. apply Filter.match_event_default.
    split_and!; try done; [|by intros ?? ?%elem_of_nil]. intros xs [= <-]. apply elem_of_foldl_push_new. by right.
Qed.

(** Requests without a subscription are not served events. *)
Definition subscribes (x : Pool.Relay * Ask) : Prop := match x.2 with AskSubscribe _ _ _ => True | _ => False end.
Lemma served_app sid l l' : served sid (l ++ l') = served sid l ++ served sid l'.
Proof. unfold served. by rewrite fmap_app, concat_app. Qed.
Lemma served_none sid l : Forall (λ x, ¬ subscribes x) l → served sid l = [].
Proof.
  induction 1 as [|[r a] l Hx _ IH]; [done|]. unfold served in *. cbn [fmap list_fmap concat]. rewrite IH.
  unfold subscribes in Hx. simpl in *. by destruct a.
Qed.
End relay.

Abbreviation event_ids := (fmap (M := list) Sync.neg_id_to_event_id).

(** The session asks for messages to be sent, nothing else. *)
Lemma neg_rounds_asks n o r id items (st : Run) :
  ∃ l, asked (run_pool (neg_rounds n o r id items st).2) = asked (run_pool st) ++ l ∧ Forall (λ x, ¬ subscribes x) l.
Proof.
  assert (∀ st : Run, ∃ l, asked (run_pool st) = asked (run_pool st) ++ l ∧ Forall (λ x, ¬ subscribes x) l) as Hend.
  { intros st1. exists []. by rewrite app_nil_r. }
  revert n st. induction items as [|[item answer] items IH]; intros [|n] st; simpl; try apply Hend.
  destruct item; try apply IH; try apply Hend.
  destruct (Sync.reconcile_hex _ _) as [[out|e] ss]; [|apply (Hend st)].
  destruct (fold_outcome _ _ _ _) as [s p]. destruct (Sync.next_message_hex out) as [next|]; [|apply (Hend st)].
  destruct answer as [[]|e].
  - destruct (IH n (mkRun (ask (run_pool st) r (AskSend (ClientMessage.NegMsg id next))) ss s p)) as (l & El & Hl).
    exists ((r, AskSend (ClientMessage.NegMsg id next)) :: l). split; [rewrite El; simpl; by rewrite <-app_assoc|].
    constructor; [by intros []|done].
  - exists [(r, AskSend (ClientMessage.NegMsg id next))]. split; [done|]. apply Forall_singleton. by intros [].
Qed.

(** What arrives, when every message is sent. *)
Definition neg_items (replies : list string) : list (SubscriptionItem * result unit ClientError) :=
  (λ m, (ItemNegMsg m, Ok tt)) <$> replies.

(** The rounds with a relay whose answers are those to the messages sent in
    them, [l], and maybe more. *)
Lemma rounds_dialogue n m o rl has sub ini resp query items l tail (run0 : Run) have need :
  neg_dialogue n (Sync.inner ini) (Sync.responder_inner resp) query = Some (have, need) → session run0 = ini → (n ≤ m)%nat →
  let '(res, run') := neg_rounds m o rl sub items run0 in
  asked (run_pool run') = asked (run_pool run0) ++ l →
  items = neg_items (let '(s, out) := respond resp (Hex.encode query) in out ++ neg_replies rl has sub s (l ++ tail)) →
  res = Ok tt
    ∧ local (summary run') = (if do_up (direction o) then list_to_set (event_ids have) ∪ local (summary run0) else local (summary run0))
    ∧ remote (summary run') = (if do_down (direction o) then list_to_set (event_ids need) ∪ remote (summary run0) else remote (summary run0)).
Proof.
  revert m ini resp query items l run0 have need.
  induction n as [|n IH]; intros m ini resp query items l run0 have need Hd Hs Hm; [done|]. destruct m as [|m]; [lia|].
  cbn [neg_dialogue] in Hd. unfold respond, Sync.responder_reconcile_hex. rewrite hex_decode_encode.
  unfold Sync.responder_reconcile. destruct (neg_reconcile (Sync.responder_inner resp) query) as [[reply|] mr]; [|done].
  cbn [map_err result_bind]. destruct items as [|[item answer] items]; [by intros _|].
  destruct (neg_rounds (S m) o rl sub _ run0) as [res run'] eqn:E. intros Hl. cbn [neg_items fmap list_fmap app]. intros [= -> -> Hi].
  cbn [neg_rounds] in E. rewrite Hs in E. unfold Sync.reconcile_hex in E. rewrite hex_decode_encode in E.
  unfold Sync.reconcile in E. destruct (neg_reconcile_with_ids (Sync.inner ini) reply) as [[[[next h] d]|] mi]; [|done].
  cbn [map_err result_bind] in E. unfold Sync.next_message_hex in E. cbn [Sync.next_message] in E. revert E.
  set (out := Sync.mkOutcome _ _ _). destruct (fold_outcome_spec o out (summary run0) (progress run0)) as (El & Er & _).
  destruct (fold_outcome o out (summary run0) (progress run0)) as [s p]. cbn [fst] in El, Er.
  destruct next as [query'|]; cbn [fmap option_fmap option_map]; intros E.
  - destruct (neg_dialogue n mi mr query') as [[h' d']|] eqn:En; [|done]. injection Hd as <- <-.
    set (x := (rl, AskSend (ClientMessage.NegMsg sub (Hex.encode query')))).
    set (st1 := mkRun (ask (run_pool run0) x.1 x.2) (Sync.mkReconciliation mi (Sync.opening ini)) s p).
    change (neg_rounds m o rl sub items st1 = (res, run')) in E.
    destruct (neg_rounds_asks m o rl sub items st1) as (l' & El' & _). rewrite E in El'. cbn [snd] in El'.
    assert (l = x :: l') as ->.
    { rewrite El' in Hl. cbn [st1 run_pool ask asked] in Hl. rewrite <-app_assoc in Hl. by apply app_inv_head in Hl. }
    pose proof (IH m (Sync.mkReconciliation mi (Sync.opening ini)) (Sync.mkResponder mr) query' items l' st1
      h' d' En eq_refl ltac:(lia)) as IH'. rewrite E in IH'. destruct IH' as (-> & E1 & E2); [exact El'| |].
    { rewrite Hi. unfold neg_items. f_equal. cbn [app neg_replies]. unfold neg_turn. cbn [x fst snd]. by rewrite decide_True by done. }
    split; [done|]. cbn [st1 summary] in E1, E2. rewrite E1, E2, El, Er. rewrite !fmap_app, !list_to_set_app_L.
    destruct (do_up (direction o)), (do_down (direction o)); split; set_solver.
  - injection Hd as <- <-. injection E as <- <-. cbn [summary]. by rewrite El, Er.
Qed.

(** The ids of a list of items. *)
Definition item_ids (items : list (EventId * Timestamp)) : gset EventId := list_to_set items.*1.

Lemma insert_items_contents s items s' :
  Sync.insert_items s items = Ok s' → neg_contents s' = list_to_set (EventId.inner <$> items.*1) ∪ neg_contents s.
Proof.
  revert s. induction items as [|[i ts] items IH]; intros s; simpl; [intros [= ->]; set_solver|].
  unfold Sync.event_id_to_neg_id. destruct (neg_insert s ts (EventId.inner i)) as [s1|] eqn:E; simpl; [|done].
  intros ->%IH. rewrite (neg_insert_contents _ _ _ _ E). set_solver.
Qed.
Lemma prepared_contents items s :
  Sync.prepare_storage items = Ok s → neg_contents s = list_to_set (EventId.inner <$> items.*1).
Proof.
  unfold Sync.prepare_storage. destruct (Sync.insert_items neg_empty items) as [s1|] eqn:E; simpl; [|done].
  destruct (neg_seal s1) as [s2|] eqn:Es; simpl; [|done]. intros [= <-].
  rewrite (neg_seal_contents _ _ Es), (insert_items_contents _ _ _ E), neg_empty_contents. set_solver.
Qed.

(** Differences of the crate's ids are differences of event ids. *)
Lemma event_ids_difference (l : list bytes32) (xs ys : list (EventId * Timestamp)) :
  list_to_set l = (list_to_set (EventId.inner <$> xs.*1) : gset bytes32) ∖ list_to_set (EventId.inner <$> ys.*1) →
  (list_to_set (event_ids l) : gset EventId) = item_ids xs ∖ item_ids ys.
Proof.
  intros El. assert (∀ (i : EventId) (zs : list (EventId * Timestamp)), EventId.inner i ∈ EventId.inner <$> zs.*1 ↔ i ∈ zs.*1) as Hin.
  { intros i zs. rewrite list_elem_of_fmap. split; [|by eauto]. by intros ([b] & Eb & Hb); destruct i; simpl in Eb; subst. }
  apply set_eq. intros i. unfold item_ids. rewrite elem_of_difference, !elem_of_list_to_set, <-!Hin, list_elem_of_fmap.
  transitivity (EventId.inner i ∈ l).
  - split; [by intros (b & -> & Hb)|]. intros Hb. exists (EventId.inner i). by destruct i.
  - rewrite <-(elem_of_list_to_set (C := gset bytes32) (EventId.inner i) l), El, elem_of_difference, !elem_of_list_to_set. done.
Qed.

Lemma saves_mono (P Q : Event → Prop) (d d' : DB) : saves P d d' → (∀ e, P e → Q e) → saves Q d d'.
Proof. intros (l & El & Fl) HPQ. exists l. split; [done|]. eapply Forall_impl; [exact Fl|]. intros x. apply HPQ. Qed.

(** The relay sends [events] on the one stream, and ends it. *)
Definition deliver (clock : result Timestamp string) (url : RelayUrl) (sid : SubscriptionId) (events : list Event) :
    list (nat * DriverWakeup) := (λ e, (0%nat, NextItem clock true (Some (url, sid, ItemEvent e)))) <$> events.

Lemma deliver_turn auto_save (d : Drivers (DB := DB)) cache clock url sid e :
  drivers d !! 0%nat = Some (true, cache) →
  let d' := drivers_turn auto_save d (0%nat, NextItem clock true (Some (url, sid, ItemEvent e))) in
  (∃ cache', drivers d' !! 0%nat = Some (true, cache')) ∧ saves (.= e) (saved d) (saved d').
Proof.
  intros E. unfold drivers_turn. cbn [fst snd]. rewrite E. cbn [driver_turn forward]. simpl.
  apply lookup_lt_Some in E as Hlt. destruct (lru_put cache (Event.id e)) as [[] cache']; simpl.
  - split; [exists cache'; by apply list_lookup_insert_eq|]. destruct auto_save; done.
  - split; [exists cache'; by apply list_lookup_insert_eq|]. destruct auto_save; simpl; [by apply saves_one|done].
Qed.

Lemma deliver_spec auto_save (d : Drivers (DB := DB)) cache clock url sid events :
  drivers d !! 0%nat = Some (true, cache) →
  arrivals auto_save d (deliver clock url sid events) = events
  ∧ saves (.∈ events) (saved d) (saved (foldl (drivers_turn auto_save) d (deliver clock url sid events))).
Proof.
  revert d cache. induction events as [|e events IH]; intros d cache E; [split; done|]. cbn [deliver fmap list_fmap arrivals foldl].
  destruct (deliver_turn auto_save d cache clock url sid e E) as [[cache' E'] Hs]. destruct (IH _ cache' E') as [IH1 IH2].
  split.
  - unfold arrival_of. cbn [fst snd]. rewrite E. simpl. f_equal. exact IH1.
  - etrans; [|eapply saves_mono; [exact IH2|set_solver]]. eapply saves_mono; [exact Hs|set_solver].
Qed.

(** Every event is admitted, and the database takes it. *)
Lemma download_all clock url id events st so state :
  Forall (λ e, check_admit_event (client st) url id e = Ok tt ∧ storable e ∧ is_Some (result_ok (clock e))) events →
  store_repr so (store (client st)) state →
  ∃ st' state', download_each clock url id events st = (Ok tt, st')
    ∧ received (so_far st') = list_to_set (Event.id <$> events) ∪ received (so_far st)
    ∧ local (so_far st') = local (so_far st) ∧ remote (so_far st') = remote (so_far st)
    ∧ rejected_by_policy (so_far st') = rejected_by_policy (so_far st)
    ∧ store_repr so (store (client st')) state'
    ∧ ∀ x, live_in (Spec.live state') x → live_in (Spec.live state) x ∨ x ∈ events.
Proof.
  intros HF. revert st state HF. induction events as [|e events IH]; intros st state HF Hr.
  { exists st, state. split_and!; [done|set_solver|done..|by left]. }
  apply Forall_cons in HF as [(Ha & Hst & now & Hc) HF]. simpl. rewrite Ha.
  destruct (clock e) as [t|] eqn:Ec; [|done].
  destruct (store_save_ok so _ state e t Hr Hst) as (d & Es & Hr'). rewrite Es.
  destruct (IH (mkPhase (set_store (client st) d) (mark_received (so_far st) (Event.id e)) (tick_progress (ticks st)))
    (Spec.save so state e t).2) as (st' & state' & E1 & E2 & E3 & E3' & E3'' & E4 & E5); [done|done|].
  exists st', state'. split_and!; [exact E1|rewrite E2; simpl; set_solver|exact E3|exact E3'|exact E3''|exact E4|].
  intros x [[?| ->]%save_adds|?]%E5; [by left|right; left|right; by right].
Qed.

(** The stream of one relay that takes the subscription. *)
Lemma stream_one answer fresh c url rl sid f :
  get_relay (pool c) url = Some rl → answer rl = Ok tt → fresh 0%nat 0%nat = Some sid →
  ∃ c1, stream_events_from answer fresh c [url] f = (Ok [[(url, sid, rl)]], c1) ∧ quiet_step c c1
    ∧ asked (pool c1) = asked (pool c) ++ [(rl, AskSubscribe sid [f] eose_options)].
Proof.
  intros Hg Ha Hf. exists (stream_events_from answer fresh c [url] f).2. split; [|split; [apply stream_from_quiet|]].
  all: unfold stream_events_from, open_stream, Pool.stream_events_to; cbn [collect_relay_urls into_relay_url into_parsed result_bind].
  all: rewrite (right_id_L ∅ (∪) {[url]} : list_to_set [url] = {[url]}).
  all: rewrite decide_False by set_solver; rewrite elements_singleton; cbn [open_streams].
  all: assert (snapshot (pool c) !! url = Some rl) as -> by (unfold snapshot; by rewrite lookup_fmap).
  all: by rewrite Hf, Ha.
Qed.

(** Later requests follow. *)
Lemma exchange_asks w o url r id st :
  ∃ l, asked (pool (client (exchange w o url r id st).2)) = asked (pool (client st)) ++ l.
Proof.
  assert (quiet (pool (client st)) (pool (client (exchange w o url r id st).2))) as Hq; [|destruct (quiet_asked _ _ Hq) as (l & El & _); eauto].
  unfold exchange. destruct (dry_run o); [done|]. set (st1 := if do_up _ then _ else _).
  assert (quiet_step (client st) (client st1)) as [Hq1 _ _].
  { subst st1. destruct (do_up _); [|done]. apply upload_quiet. }
  destruct (do_down _ && _); [|exact Hq1]. etrans; [exact Hq1|]. unfold download_phase, fetch_events_from.
  set (f := Filter.add_ids _ _).
  pose proof (stream_from_quiet (f_answer (y_fetch w)) (f_fresh (y_fetch w)) (client st1) [url] f) as [Hq2 _ _].
  destruct (stream_events_from _ _ _ _ _) as [[ss|e] c1]; simpl in *; [|exact Hq2]. set (st2 := mkPhase _ _ _).
  pose proof (gd_pool _ _ _ (download_each_guarded (f_clock (y_fetch w)) url id (collect_events (Facade.received (drivers_run c1 ss (f_turns (y_fetch w))))) st2)) as Hq3.
  destruct (download_each _ _ _ _ st2) as [[[]|e] st3]; (etrans; [exact Hq2|exact Hq3]).
Qed.
Lemma upload_asks publish r st ids :
  ∃ l, asked (pool (client (foldl (upload_one publish r) st ids))) = asked (pool (client st)) ++ l ∧ Forall (λ x, ¬ subscribes x) l.
Proof.
  revert st. induction ids as [|i ids IH]; intros st; simpl; [exists []; by rewrite app_nil_r|].
  destruct (IH (upload_one publish r st i)) as (l & -> & Hl). unfold upload_one.
  destruct (store_event _ i) as [[e|]|]; simpl; [|by eauto..].
  exists ((r, AskPublish e publish_options_new) :: l). rewrite <-app_assoc. split; [done|]. constructor; [by intros []|done].
Qed.

(** The session's outcome: the differences, when what arrives is what the relay
    answers to the requests [l]. *)
Lemma session_found o rl has sub f mine sa sb ss resp items run l tail :
  Sync.prepare_storage mine = Ok sa → Sync.with_defaults sa = Ok ss →
  Sync.prepare_storage (items_under has f) = Ok sb → Sync.responder_with_defaults sb = Ok resp →
  is_Some (neg_dialogue MAX_NEG_ROUNDS (Sync.inner ss) (Sync.responder_inner resp) (Sync.opening ss)) →
  session run = ss → summary run = empty_summary →
  let '(res, run') := reconcile_loop o rl sub f (Sync.opening_message_hex ss) (Ok tt) items run in
  asked (run_pool run') ++ tail = asked (run_pool run) ++ l → items = neg_items (neg_replies rl has sub None l) →
  res = Ok tt ∧ only_found o (summary run')
    ∧ (do_up (direction o) = true → local (summary run') = item_ids mine ∖ item_ids (items_under has f))
    ∧ (do_down (direction o) = true → remote (summary run') = item_ids (items_under has f) ∖ item_ids mine)
    ∧ ∃ l1, asked (run_pool run') = asked (run_pool run) ++ l1 ∧ Forall (λ x, ¬ subscribes x) l1.
Proof.
  intros Hsa Hss Hsb Hresp [[have need] Hd] Hs Hsum. unfold reconcile_loop. revert Hd.
  generalize MAX_NEG_ROUNDS. intros n Hd.
  assert (list_to_set have = neg_contents sa ∖ neg_contents sb ∧ list_to_set need = neg_contents sb ∖ neg_contents sa) as [Hh Hn].
  { unfold Sync.with_defaults, Sync.initiate in Hss. destruct (neg_owned sa _) as [ma|] eqn:Ea; simpl in Hss; [|done].
    destruct (neg_initiate ma) as [[q|] ma'] eqn:Ei; simpl in Hss; [|done]. injection Hss as <-.
    unfold Sync.responder_with_defaults, Sync.responder_new in Hresp.
    destruct (neg_owned sb _) as [mb|] eqn:Eb; simpl in Hresp; [|done]. injection Hresp as <-. eapply neg_differences; eauto. }
  rewrite (prepared_contents _ _ Hsa), (prepared_contents _ _ Hsb) in Hh, Hn. apply event_ids_difference in Hh, Hn.
  set (x := (rl, AskNeg sub f (Sync.opening_message_hex ss))).
  set (run1 := mkRun (ask (run_pool run) x.1 x.2) (session run) (summary run) (progress run)).
  change (mkRun _ _ _ _) with run1 at 1.
  destruct (neg_rounds_asks n o rl sub items run1) as (l1 & El1 & Hl1).
  destruct (neg_rounds_spec n o rl sub items run1) as [Ho _].
  pose proof (λ tl, rounds_dialogue n n o rl has sub ss resp (Sync.opening ss) items l1 tl run1 have need Hd Hs (le_n _)) as Hr.
  destruct (neg_rounds n o rl sub items run1) as [res run']. cbn [snd] in *. cbn [run_pool ask asked]. intros Hl Hi.
  assert (l = x :: l1 ++ (rl, AskClose sub) :: tail) as ->.
  { rewrite El1 in Hl. cbn [run1 run_pool ask asked] in Hl. rewrite <-!app_assoc in Hl. symmetry. by apply app_inv_head in Hl. }
  destruct (Hr ((rl, AskClose sub) :: tail) El1) as (-> & El & Er).
  { rewrite Hi. cbn [neg_replies neg_turn fst snd x]. rewrite decide_True by done. rewrite Hsb. cbn [result_bind]. rewrite Hresp. done. }
  cbn [run1 summary] in El, Er, Ho |- *. rewrite Hsum in El, Er. cbn [local remote empty_summary] in El, Er.
  split; [done|]. split; [apply Ho; rewrite Hsum; by split|].
  split; [intros Hdir; by rewrite El, Hdir, right_id_L by apply _|]. split; [intros Hdir; by rewrite Er, Hdir, right_id_L by apply _|].
  exists (x :: l1 ++ [(rl, AskClose sub)]). split.
  - rewrite El1. cbn [run1 run_pool ask asked]. by rewrite <-!app_assoc.
  - constructor; [by intros []|]. apply Forall_app. split; [done|]. apply Forall_singleton. by intros [].
Qed.

(** What the download asks of the relay. *)
Lemma download_asks w url rl sub st sid :
  get_relay (pool (client st)) url = Some rl → f_answer w rl = Ok tt → f_fresh w 0%nat 0%nat = Some sid →
  asked (pool (client (download_phase w url sub st).2)) = asked (pool (client st))
    ++ [(rl, AskSubscribe sid [Filter.add_ids Filter.new (elements (remote (so_far st)))] eose_options)].
Proof.
  intros Hg Han Hfr. unfold download_phase, fetch_events_from.
  destruct (stream_one (f_answer w) (f_fresh w) (client st) url rl sid (Filter.add_ids Filter.new (elements (remote (so_far st)))) Hg Han Hfr)
    as (c1 & -> & _ & <-). cbn [fetch_from]. set (st1 := mkPhase _ _ _).
  set (events := collect_events _). pose proof (download_each_spec (f_clock w) url sub events st1) as Hd.
  destruct (download_each (f_clock w) url sub events st1) as [[[]|e] st']; cbn [snd]; [by rewrite (dl_pool _ _ _ _ _ _ Hd)|by rewrite Hd].
Qed.

(** The download of what one relay delivers. *)
Lemma download_received w url rl sub st sid clock events so state :
  get_relay (pool (client st)) url = Some rl → f_answer w rl = Ok tt → f_fresh w 0%nat 0%nat = Some sid →
  f_turns w = deliver clock url sid events →
  Forall (λ e, check_admit_event (client st) url sub e = Ok tt ∧ storable e ∧ is_Some (result_ok (f_clock w e))) events →
  store_repr so (store (client st)) state → received (so_far st) = ∅ →
  ∃ st' state', download_phase w url sub st = (Ok tt, st')
    ∧ (∀ i, i ∈ received (so_far st') ↔ i ∈ Event.id <$> events)
    ∧ local (so_far st') = local (so_far st) ∧ remote (so_far st') = remote (so_far st)
    ∧ rejected_by_policy (so_far st') = rejected_by_policy (so_far st)
    ∧ store_repr so (store (client st')) state'
    ∧ ∀ x, live_in (Spec.live state') x → live_in (Spec.live state) x ∨ x ∈ events.
Proof.
  intros Hg Han Hfr Hturns Hall Hrepr Hrec. unfold download_phase, fetch_events_from.
  destruct (stream_one (f_answer w) (f_fresh w) (client st) url rl sid (Filter.add_ids Filter.new (elements (remote (so_far st)))) Hg Han Hfr)
    as (c1 & -> & Hq & _). cbn [fetch_from]. rewrite Hturns. unfold drivers_run.
  set (o := pool_options (pool c1)). set (d := mkDrivers _ (store c1) []).
  destruct (deliver_spec (auto_save_events o) d (lru_new (dedup_cache_size o)) clock url sid events eq_refl) as [Harr Hsave].
  destruct (turns_deliver (auto_save_events o) d (deliver clock url sid events)) as [Hsub Hids].
  { intros [|i] live cache k; [|done]. intros [= _ <-]. destruct (lru_new_keys (dedup_cache_size o)) as [-> _]. set_solver. }
  { apply Forall_fmap, Forall_true. done. }
  rewrite Harr in Hsub, Hids. set (d' := foldl _ d _) in *.
  destruct (collect_events_spec (Facade.received d')) as (_ & _ & Hcs & Hck).
  destruct (saves_repr (.∈ events) so (saved d) (saved d') state) as (state1 & Hr1 & Hl1); [| |exact Hsave|].
  { simpl. by rewrite (qs_store _ _ Hq). }
  { intros e He. rewrite Forall_forall in Hall. by apply Hall. }
  assert (∀ e, e ∈ collect_events (Facade.received d') → e ∈ events) as Hin.
  { intros e He%Hcs. destruct (Hsub e He) as [?|?]; [set_solver|done]. }
  destruct (download_all (f_clock w) url sub (collect_events (Facade.received d'))
    (mkPhase (set_store c1 (saved d')) (so_far st) (ticks st)) so state1) as (st' & state' & E1 & E2 & E3 & E3' & E3'' & E4 & E5); [|exact Hr1|].
  { apply Forall_forall. intros e He%Hin. rewrite Forall_forall in Hall. destruct (Hall e He) as (Ha & ? & ?). split; [|done].
    rewrite <-Ha. apply check_admit_same. apply (qs_policy _ _ Hq). }
  exists st', state'. split_and!; [exact E1| |exact E3|exact E3'|exact E3''|exact E4|].
  - intros i. rewrite E2. cbn [so_far]. rewrite Hrec, union_empty_r_L, elem_of_list_to_set, Hck.
    unfold out_events. fold (delivered_events d'). rewrite Hids. set_solver.
  - intros x [[?|?]%Hl1|?%Hin]%E5; auto.
Qed.

(** What the relay has that the client does not. *)
Lemma news_spec has f (mine : gset EventId) e :
  NoDup (Event.id <$> has) →
  e ∈ under has [Filter.add_ids Filter.new (elements (item_ids (items_under has f) ∖ mine))] ↔ e ∈ under has [f] ∧ Event.id e ∉ mine.
Proof.
  intros Hnd. rewrite elem_of_under_ids, elem_of_elements, elem_of_difference. unfold item_ids at 1.
  rewrite elem_of_list_to_set, elem_of_items_under, elem_of_under. setoid_rewrite list_elem_of_singleton. split.
  - intros (He & (e' & He' & Ei & Hm) & Hn). split; [|done]. split; [done|].
    assert (e' = e) as -> by by eapply (NoDup_fmap_inj_elem Event.id has). eauto.
  - intros [[He (g & -> & Hm)] Hn]. eauto 10.
Qed.
Lemma news_ids has f (mine : gset EventId) i :
  i ∈ Event.id <$> under has [Filter.add_ids Filter.new (elements (item_ids (items_under has f) ∖ mine))]
    ↔ i ∈ item_ids (items_under has f) ∖ mine.
Proof.
  rewrite list_elem_of_fmap. setoid_rewrite elem_of_under_ids. setoid_rewrite elem_of_elements. split; [by intros (e & -> & _ & ?)|].
  intros Hi. pose proof Hi as [(e & He & <- & Hm)%elem_of_list_to_set%elem_of_items_under _]%elem_of_difference. eauto.
Qed.

(** The phases after the session: what the relay serves to the download's request
    is received. *)
Lemma exchange_received w o url rl has sub st sid l clock so state :
  get_relay (pool (client st)) url = Some rl → f_answer (y_fetch w) rl = Ok tt → f_fresh (y_fetch w) 0%nat 0%nat = Some sid →
  do_down (direction o) = true → dry_run o = false → only_found o (so_far st) → store_repr so (store (client st)) state →
  let news := under has [Filter.add_ids Filter.new (elements (remote (so_far st)))] in
  Forall (λ e, check_admit_event (client st) url sub e = Ok tt ∧ storable e ∧ is_Some (result_ok (f_clock (y_fetch w) e))) news →
  asked (pool (client (exchange w o url rl sub st).2)) = asked (pool (client st)) ++ l →
  f_turns (y_fetch w) = deliver clock url sid (served rl has sid l) →
  ∃ st' state', exchange w o url rl sub st = (Ok (so_far st'), st')
    ∧ local (so_far st') = local (so_far st) ∧ remote (so_far st') = remote (so_far st) ∧ rejected_by_policy (so_far st') = ∅
    ∧ (∀ i, i ∈ received (so_far st') ↔ i ∈ Event.id <$> news)
    ∧ store_repr so (store (client st')) state'
    ∧ ∀ x, live_in (Spec.live state') x → live_in (Spec.live state) x ∨ x ∈ news.
Proof.
  intros Hg Han Hfr Hdown Hdry Ho Hrepr news Hall. unfold exchange. rewrite Hdry, Hdown, andb_true_l.
  set (st1 := if do_up (direction o) then _ else st).
  assert (quiet_step (client st) (client st1) ∧ local (so_far st1) = local (so_far st) ∧ remote (so_far st1) = remote (so_far st)
    ∧ received (so_far st1) = ∅ ∧ rejected_by_policy (so_far st1) = ∅
    ∧ ∃ lu, asked (pool (client st1)) = asked (pool (client st)) ++ lu ∧ Forall (λ x, ¬ subscribes x) lu)
    as (Hq1 & Hl1 & Hr1 & Hrec & Hrej & lu & Elu & Hlu).
  { subst st1. destruct (do_up (direction o)).
    - pose proof (upload_spec (y_publish w) rl st (elements (local (so_far st)))) as [_ U2 U3 U4 U5 _ _ _].
      split_and!; [apply upload_quiet|done|done|rewrite <-(of_received _ _ Ho); exact U4|rewrite <-(of_rejected _ _ Ho); exact U5|
        apply upload_asks].
    - split_and!; [done|done|done|apply Ho|apply Ho|exists []; by rewrite app_nil_r]. }
  assert (∀ e, check_admit_event (client st1) url sub e = check_admit_event (client st) url sub e) as Hc
    by (intros e; apply check_admit_same, (qs_policy _ _ Hq1)).
  assert (get_relay (pool (client st1)) url = Some rl) as Hg1 by by rewrite (quiet_get_relay _ _ _ (qs_pool _ _ Hq1)).
  assert (store_repr so (store (client st1)) state) as Hrepr1 by by rewrite (qs_store _ _ Hq1).
  destruct (bool_decide (remote (so_far st1) = ∅)) eqn:Eb; cbn [negb].
  - intros _ _. apply bool_decide_eq_true in Eb. exists st1, state. split_and!; [done..| |done|by left].
    assert (news = []) as ->; [|intros i; rewrite Hrec; set_solver]. apply elem_of_nil_inv. intros e [_ He]%elem_of_under_ids.
    by rewrite <-Hr1, Eb, elements_empty in He; apply elem_of_nil in He.
  - pose proof (download_asks (y_fetch w) url rl sub st1 sid Hg1 Han Hfr) as Hask. rewrite Hr1 in Hask.
    intros Hl Hturns.
    assert (served rl has sid l = news) as Es.
    { assert (l = lu ++ [(rl, AskSubscribe sid [Filter.add_ids Filter.new (elements (remote (so_far st)))] eose_options)]) as ->.
      { destruct (download_phase _ _ _ st1) as [[[]|e] st2]; cbn [snd] in *; rewrite Hask, Elu, <-app_assoc in Hl; by apply app_inv_head in Hl. }
      rewrite served_app, (served_none _ _ sid lu Hlu). unfold served. simpl. rewrite decide_True by done. apply app_nil_r. }
    rewrite Es in Hturns.
    destruct (download_received (y_fetch w) url rl sub st1 sid clock news so state Hg1 Han Hfr Hturns)
      as (st' & state' & -> & Hrc & E1 & E2 & E3 & Hrp & Hlv); [by setoid_rewrite Hc|exact Hrepr1|exact Hrec|].
    exists st', state'. split_and!; [done|congruence|congruence|congruence|done|done|done].
Qed.

(** The relay [rl] that holds [has] answers a run of the driver: what arrives in
    the session and in the download is what it sends to the requests made of it
    in this run. *)
Definition relay_answers w c url f o p rl (has : list Event) sub sid : Prop :=
  ∃ l clock, asked (pool (run_sync_to_relay w c url f o p).1.2) = asked (pool c) ++ l
    ∧ y_items w = neg_items (neg_replies rl has sub None l)
    ∧ f_turns (y_fetch w) = deliver clock url sid (served rl has sid l).

(** C12: A sync with a relay that answers finds exactly the difference.  The relay
    holds some events and answers the very requests the client sends it: the
    NEG-OPEN with a session over what it holds under the filter named there, each
    NEG-MSG with that session's next message, and the subscription of the
    download with what it holds under its filter.  When the session ends within
    its rounds, the summary names as the relay's the ids the relay alone has
    under the filter and, in both directions, as the client's those the client
    alone has.  Outside a dry run and not for an upload alone, when the policy
    admits what the relay has under the filter and the database can take it,
    every one of the relay's is reported received, none rejected, and the
    database has gained nothing but events of the relay under the filter that it
    did not have. *)
Theorem sync_converges w c url rl has f o p sub mine sa sb ss resp sid so state :
  get_relay (pool c) url = Some rl → store_items (store c) f = Ok mine →
  Sync.prepare_storage mine = Ok sa → Sync.with_defaults sa = Ok ss →
  Sync.prepare_storage (items_under has f) = Ok sb → Sync.responder_with_defaults sb = Ok resp →
  is_Some (neg_dialogue MAX_NEG_ROUNDS (Sync.inner ss) (Sync.responder_inner resp) (Sync.opening ss)) →
  y_id w = Ok sub → y_opened w = Ok tt → f_answer (y_fetch w) rl = Ok tt → f_fresh (y_fetch w) 0%nat 0%nat = Some sid →
  relay_answers w c url f o p rl has sub sid →
  direction o = Down ∨ direction o = Both → dry_run o = false → NoDup (Event.id <$> has) →
  Forall (λ e, check_admit_event c url sub e = Ok tt ∧ storable e ∧ is_Some (result_ok (f_clock (y_fetch w) e))) (under has [f]) →
  store_repr so (store c) state →
  let theirs := item_ids (items_under has f) in
  ∃ s c' p', run_sync_to_relay w c url f o p = (Ok s, c', p')
    ∧ remote s = theirs ∖ item_ids mine
    ∧ (direction o = Both → local s = item_ids mine ∖ theirs)
    ∧ received s = theirs ∖ item_ids mine ∧ rejected_by_policy s = ∅
    ∧ ∃ state', store_repr so (store c') state' ∧
        ∀ e, live_in (Spec.live state') e →
          live_in (Spec.live state) e ∨ (e ∈ under has [f] ∧ Event.id e ∉ item_ids mine).
Proof.
  intros Hg Hm Hsa Hss Hsb Hresp Hd Hid Hop Han Hfr (L & clock & HL & Hit & Hturns) Hdir Hdry Hnd Hall Hrepr theirs.
  assert (do_down (direction o) = true) as Hdown by by destruct Hdir as [-> | ->].
  revert HL. unfold run_sync_to_relay. rewrite Hg, Hm. unfold Sync.from_database. cbn [map_err result_bind]. rewrite Hsa.
  cbn [result_bind]. rewrite Hss, Hid, Hop.
  pose proof (λ tl, session_found o rl has sub f mine sa sb ss resp (y_items w) (mkRun (pool c) ss empty_summary p) L tl
    Hsa Hss Hsb Hresp Hd eq_refl eq_refl) as Hsess.
  pose proof (reconcile_loop_quiet o rl sub f (Sync.opening_message_hex ss) (Ok tt) (y_items w) (mkRun (pool c) ss empty_summary p)) as Hq.
  destruct (reconcile_loop _ _ _ _ _ _ _ _) as [res run']. cbn [snd run_pool] in Hq, Hsess.
  set (c1 := set_pool c _). set (ph := mkPhase c1 (summary run') (progress run')).
  destruct (exchange_asks w o url rl sub ph) as (l2 & El2). intros HL.
  destruct (Hsess ((rl, AskSend (ClientMessage.NegClose sub)) :: match res with Ok _ => l2 | Err _ => [] end)) as
    (-> & Ho & Hup & Hrem & l1 & El1 & Hl1); [|exact Hit|].
  { rewrite <-HL. destruct res as [[]|e]; [|done]. destruct (exchange w o url rl sub ph) as [r st]. cbn [fst snd] in *.
    rewrite El2. cbn [ph client c1 set_pool pool ask asked]. by rewrite <-app_assoc. }
  specialize (Hrem Hdown). fold theirs in Hrem.
  set (news := under has [Filter.add_ids Filter.new (elements (remote (so_far ph)))]).
  assert (∀ e, e ∈ news ↔ e ∈ under has [f] ∧ Event.id e ∉ item_ids mine) as Hnews.
  { intros e. unfold news. change (remote (so_far ph)) with (remote (summary run')). rewrite Hrem. by apply news_spec. }
  assert (∃ l, L = l1 ++ (rl, AskSend (ClientMessage.NegClose sub)) :: l ∧ asked (pool (client (exchange w o url rl sub ph).2)) = asked (pool (client ph)) ++ l)
    as (l & -> & El).
  { exists l2. split; [|done]. destruct (exchange w o url rl sub ph) as [r st]. cbn [fst snd] in *.
    rewrite El2 in HL. cbn [ph client c1 set_pool pool ask asked] in HL. rewrite El1 in HL. cbn [run_pool] in HL.
    rewrite <-!app_assoc in HL. symmetry. by apply app_inv_head in HL. }
  rewrite served_app, (served_none _ _ sid l1 Hl1) in Hturns.
  destruct (exchange_received w o url rl has sub ph sid l clock so state) as (st' & state' & -> & E1 & E2 & E3 & Hrc & Hrp & Hlv); try done.
  { cbn [ph client c1 set_pool pool]. unfold get_relay. simpl. rewrite (quiet_relays _ _ Hq). exact Hg. }
  { apply Forall_forall. intros e [He _]%Hnews. rewrite Forall_forall in Hall. by apply Hall. }
  do 3 eexists. split; [reflexivity|]. rewrite E1, E2, E3. split_and!; [done|intros Hb; apply Hup; by rewrite Hb| |done|].
  - apply set_eq. intros i. rewrite Hrc. change (remote (so_far ph)) with (remote (summary run')). rewrite Hrem. apply news_ids.
  - exists state'. split; [done|]. intros e [?|?%Hnews]%Hlv; auto.
Qed.
End converging.

(** ** Witness *)

#[local] Existing Instance sample_secp.
#[local] Existing Instance comparing.
#[local] Existing Instance comparing_laws.

(** The client has the first note, the relay the third. *)
Definition one_note : MemoryStore := (memory_db_save (Ok 1000%N) (Memory.new mem_options_new) note1).2.
Definition sync_client : InnerClient (DB := MemoryStore) :=
  mkClient (pool_with [relay_a]) one_note None None true ∅ None.
Definition ids_mine : @neg_storage comparing := [EventId.inner (Event.id note1)].
Definition ids_theirs : @neg_storage comparing := [EventId.inner (Event.id note3)].
Definition sync_session : Sync.Reconciliation := Sync.mkReconciliation ids_mine (concat (b32_list <$> (ids_mine : list bytes32))).
Definition sync_responder : Sync.Responder := Sync.mkResponder ids_theirs.
(** The requests of the run, and what the relay makes of them. *)
Definition sync_requests : list (Pool.Relay * Ask) :=
  [(0%N, AskNeg sub1 Filter.new (Sync.opening_message_hex sync_session)); (0%N, AskClose sub1);
   (0%N, AskSend (ClientMessage.NegClose sub1));
   (0%N, AskSubscribe sub2 [Filter.add_ids Filter.new [Event.id note3]] eose_options)].
Definition sync_world : SyncWorld :=
  mkSyncWorld (Ok sub1) (Ok tt) (neg_items (neg_replies 0%N [note3] sub1 None sync_requests))
    (λ _, Ok tt) (mkFetchWorld (λ _, Ok tt) (λ _ _, Some sub2)
      (deliver (Ok 1000%N) relay_a sub2 (served 0%N [note3] sub2 sync_requests)) (λ _, Ok 1000%N)).

Lemma sync_converges_witness :
  ∃ s c' p', run_sync_to_relay sync_world sync_client relay_a Filter.new default_options None = (Ok s, c', p')
    ∧ remote s = {[Event.id note3]} ∧ received s = {[Event.id note3]}.
Proof.
  assert (item_ids (items_under [note3] Filter.new) ∖ item_ids (negentropy_items one_note Filter.new) = {[Event.id note3]}) as Ed
    by (apply (bool_decide_unpack _); vm_compute; exact I).
  destruct (sync_converges sync_world sync_client relay_a 0%N [note3] Filter.new default_options None sub1
    (negentropy_items one_note Filter.new) ids_mine ids_theirs sync_session sync_responder sub2
    (Spec.mkOptions None true true) (abs one_note)) as (s & c' & p' & Er & Hr & _ & Hv & _).
  - vm_compute. reflexivity.
  - reflexivity.
  - vm_compute. reflexivity.
  - vm_compute. reflexivity.
  - vm_compute. reflexivity.
  - vm_compute. reflexivity.
  - apply (bool_decide_unpack _). vm_compute. exact I.
  - reflexivity.
  - reflexivity.
  - reflexivity.
  - reflexivity.
  - exists sync_requests, (Ok 1000%N). split; [vm_compute; reflexivity|]. by split.
  - by left.
  - reflexivity.
  - apply NoDup_singleton.
  - apply Forall_forall. intros e _. split; [reflexivity|]. split; [exact I|]. by eexists.
  - split_and!; [|vm_compute; reflexivity|exact eq_refl].
    apply (save_event_ok (Memory.new mem_options_new) note1 1000 (Inv_empty _ _ _ _)).
  - exists s, c', p'. split; [exact Er|]. rewrite Hr, Hv, Ed. by split.
Defined.
