(* ===== verification/TagReader.v ===== *)
(** * Reading events tag by tag

    The readers of the event formats in [nula-core/src/nips] walk the tags of an
    event once, each tag changing what has been read so far or ending the walk
    with an error.  This file holds that walk, the optional columns of a tag, and
    the lemmas on what printed columns read back as. *)

From Stdlib Require Import Ascii NArith Lia.
From S2P Require Import Prelude Encoding Text Ids Tags Event Nips.

(** ** Results *)

Lemma bind_Ok {A B E} (c : result A E) (k : A → result B E) b :
  result_bind c k = Ok b ↔ ∃ a, c = Ok a ∧ k a = Ok b.
Proof. destruct c; simpl; naive_solver. Qed.
Lemma map_err_Ok {A E F} (f : E → F) (c : result A E) a : map_err f c = Ok a ↔ c = Ok a.
Proof. destruct c; simpl; naive_solver. Qed.
Lemma ok_or_Ok {A E} (o : option A) (e : E) a : ok_or o e = Ok a ↔ o = Some a.
Proof. destruct o; simpl; naive_solver. Qed.

(** Takes a successful computation apart. *)
Ltac invert_ok :=
  repeat match goal with
  | H : result_bind _ _ = Ok _ |- _ => apply bind_Ok in H as (? & ? & H)
  | H : map_err _ _ = Ok _ |- _ => apply map_err_Ok in H
  | H : ok_or _ _ = Ok _ |- _ => apply ok_or_Ok in H
  end.

(** ** The walk *)

Fixpoint read_tags {S X E} (step : S → X → result S E) (s : S) (tags : list X) : result S E :=
  match tags with
  | [] => Ok s
  | tag :: tags => let? s := step s tag in read_tags step s tags
  end.

Section walk.
Context {S X E : Type}.
Implicit Types (step : S → X → result S E).

Lemma read_tags_app step s l l' :
  read_tags step s (l ++ l') = result_bind (read_tags step s l) (λ s, read_tags step s l').
Proof. revert s. induction l as [|t l IH]; intros s; simpl; [done|]. destruct (step s t); simpl; auto. Qed.

Lemma read_tags_cons step s s' t l :
  step s t = Ok s' → read_tags step s (t :: l) = read_tags step s' l.
Proof. intros Hs. simpl. by rewrite Hs. Qed.

(** A list of tags that each add one item. *)
Lemma read_tags_items {A} step (f : A → X) (add : S → A → S) s xs :
  (∀ s x, x ∈ xs → step s (f x) = Ok (add s x)) → read_tags step s (f <$> xs) = Ok (foldl add s xs).
Proof.
  revert s. induction xs as [|x xs IH]; intros s Hs; [done|].
  cbn [fmap list_fmap]. rewrite (read_tags_cons step s (add s x)); [apply IH; set_solver|apply Hs; left].
Qed.

(** An optional tag that sets one field. *)
Lemma read_tags_option {A} step (f : A → X) (set : S → A → S) s (o : option A) :
  (∀ x, o = Some x → step s (f x) = Ok (set s x)) →
  read_tags step s (option_list (f <$> o)) = Ok (match o with Some x => set s x | None => s end).
Proof. intros Hs. destruct o as [x|]; [|done]. simpl. by rewrite Hs. Qed.

(** The same, when the state before and after are known. *)
Lemma read_tags_field {A} step (f : A → X) (s s' : S) (o : option A) l :
  (∀ x, o = Some x → step s (f x) = Ok s') → (o = None → s = s') →
  read_tags step s (option_list (f <$> o) ++ l) = read_tags step s' l.
Proof. intros Hs Hn. destruct o as [x|]; simpl; [by rewrite Hs|by rewrite Hn]. Qed.
Lemma read_tags_many {A} step (f : A → X) (set : list A → S) (xs : list A) l :
  (∀ ys x, x ∈ xs → step (set ys) (f x) = Ok (set (ys ++ [x]))) →
  read_tags step (set []) ((f <$> xs) ++ l) = read_tags step (set xs) l.
Proof.
  intros Hs. rewrite read_tags_app. assert (∀ ys, read_tags step (set ys) (f <$> xs) = Ok (set (ys ++ xs))) as ->; [|done].
  induction xs as [|x xs IH]; intros ys; [by rewrite app_nil_r|]. cbn [fmap list_fmap read_tags]. rewrite Hs by left. simpl.
  rewrite IH; [by rewrite <-app_assoc|]. intros ? ? ?. apply Hs. by right.
Qed.

(** An invariant of what is read. *)
Lemma read_tags_ind step (P : S → Prop) s tags s' :
  P s → (∀ s t s', P s → t ∈ tags → step s t = Ok s' → P s') → read_tags step s tags = Ok s' → P s'.
Proof.
  intros Hs Hstep. revert s Hs. induction tags as [|t tags IH]; intros s Hs; simpl; [by intros [= <-]|].
  destruct (step s t) as [s1|e] eqn:Es; simpl; [|done]. apply IH; [|by eapply Hstep; [|left|]].
  intros ? ? ? ? ?. apply Hstep; [done|by right].
Qed.
End walk.

(** ** Columns *)

(** The columns of a built tag. *)
Ltac columns := cbv [Tag.get Tag.with_ Tag.values lookup list_lookup].

(** A column that is there and not empty. *)
Definition non_empty (o : option string) : option string :=
  match o with Some s => if decide (s = EmptyString) then None else Some s | None => None end.

Definition read_column {A B E} (parse : string → result A B) (err : B → E) (o : option string) : result (option A) E :=
  match non_empty o with
  | Some s => let? a := map_err err (parse s) in Ok (Some a)
  | None => Ok None
  end.

Definition unwrap_or_default (o : option string) : string := default EmptyString o.
Arguments read_column : simpl never.
Arguments unwrap_or_default : simpl never.

Lemma read_column_None {A B E} (parse : string → result A B) (err : B → E) : read_column parse err None = Ok None.
Proof. done. Qed.
Lemma read_column_Some {A B E} (parse : string → result A B) (err : B → E) o a :
  read_column parse err o = Ok (Some a) → ∃ s, parse s = Ok a ∧ s ≠ EmptyString.
Proof.
  unfold read_column. destruct (non_empty o) as [s|] eqn:En; [|done]. destruct (parse s) as [b|] eqn:Ep; [|done].
  intros [= <-]. exists s. split; [done|]. unfold non_empty in En. destruct o; [|done]. by case_decide; simplify_eq.
Qed.

Lemma read_column_printed {A B E} (parse : string → result A B) (err : B → E) (print : A → string) (o : option A) :
  (∀ a, o = Some a → parse (print a) = Ok a ∧ print a ≠ EmptyString) →
  read_column parse err (Some (unwrap_or_default (print <$> o))) = Ok o
  ∧ read_column parse err (print <$> o) = Ok o.
Proof.
  unfold read_column, non_empty, unwrap_or_default. destruct o as [a|]; [|done]. intros Hp. destruct (Hp a eq_refl) as [E1 E2]. simpl.
  rewrite decide_False by done. simpl. by rewrite E1.
Qed.

Lemma column_absent {A} (print : A → string) (o : option A) :
  (∀ a, print a ≠ EmptyString) → ¬ unwrap_or_default (print <$> o) ≠ EmptyString → o = None.
Proof. intros Hp Hn. destruct o as [a|]; [|done]. by destruct Hn; apply Hp. Qed.

Lemma hex_not_empty `{FasterHex, !FasterHexLaws} bs : bs ≠ [] → Hex.encode bs ≠ EmptyString.
Proof.
  intros Hne E. rewrite hex_encode_spec in E. apply (f_equal (λ s, length (as_bytes s))) in E.
  rewrite Hex.length_fmt_lower in E. destruct bs; [done|]. simpl in E. lia.
Qed.
Lemma pk_hex_not_empty `{FasterHex, !FasterHexLaws} pk : PublicKey.to_hex pk ≠ EmptyString.
Proof.
  apply hex_not_empty. intros E%(f_equal length). by rewrite PublicKey.pk_length_to_byte_array in E.
Qed.

(** No URL is empty: [url] refuses the empty text, as a relative reference. *)
Class UrlNotEmpty `{UrlCrate} : Prop := url_parse_empty : ∀ u, url_parse EmptyString ≠ Ok u.

Lemma relay_not_empty `{UrlCrate, !UrlCrateLaws, !UrlNotEmpty} r : RelayUrl.as_str r ≠ EmptyString.
Proof.
  unfold RelayUrl.as_str. intros E. pose proof (url_parse_as_str (RelayUrl.inner r)) as Hp. rewrite E in Hp.
  by apply url_parse_empty in Hp.
Qed.

(** ** Hashtags *)

(** [str::to_lowercase], after the tables of Unicode, and what it is on ASCII. *)
Class StrLowercase := { str_to_lowercase : string → string }.
Definition ascii_text (s : string) : Prop := Dec.string_forallb ascii_char s = true.
Class StrLowercaseAscii `{StrLowercase} : Prop :=
  str_lowercase_ascii : ∀ s, ascii_text s → str_to_lowercase s = Text.to_ascii_lowercase s.
(** [Tag::t]. *)
Definition tag_t `{StrLowercase} (hashtag : string) : Tag := Tag.with_ (Tag.lower Alphabet.T) [str_to_lowercase hashtag].
(** A hashtag both lowercase functions leave alone. *)
Definition lower_text `{StrLowercase} (s : string) : Prop := str_to_lowercase s = s ∧ Text.to_ascii_lowercase s = s.
Lemma lower_text_ascii `{StrLowercase, !StrLowercaseAscii} s : ascii_text s → Text.to_ascii_lowercase s = s → lower_text s.
Proof. intros Ha Hl. split; [by rewrite str_lowercase_ascii|done]. Qed.

(** ASCII letters alone. *)
#[global] Instance ascii_lowercase : StrLowercase := {| str_to_lowercase := Text.to_ascii_lowercase |}.
#[global] Instance ascii_lowercase_laws : StrLowercaseAscii.
Proof. done. Qed.

(** ** First tags *)

(** The second column of the first tag a test picks. *)
Definition first_value (P : Tag → Prop) `{∀ t, Decision (P t)} (tags : list Tag) : option string :=
  list_find P tags ≫= λ p, Tag.get p.2 1.
Definition custom_value (tags : list Tag) (name : string) : option string := first_value (λ t, Tag.name t = name) tags.
Definition single_value (tags : list Tag) (letter : Alphabet.t) : option string :=
  first_value (λ t, Tag.kind t = Tag.lower letter) tags.

Section first_tags.
Context (P : Tag → Prop) `{∀ t, Decision (P t)}.
Lemma list_find_skip l l' : Forall (λ t, ¬ P t) l → list_find P (l ++ l') ≫= (λ p, Some p.2) = list_find P l' ≫= (λ p, Some p.2).
Proof. intros Hl. rewrite list_find_app_r by (by apply list_find_None). by destruct (list_find P l') as [[]|]. Qed.
Lemma first_value_skip l l' : Forall (λ t, ¬ P t) l → first_value P (l ++ l') = first_value P l'.
Proof.
  intros Hl. unfold first_value. rewrite list_find_app_r by (by apply list_find_None). by destruct (list_find P l') as [[]|].
Qed.
Lemma first_value_hit t l : P t → first_value P (t :: l) = Tag.get t 1.
Proof. intros Ht. unfold first_value. simpl. by rewrite decide_True. Qed.
Lemma first_value_miss t l : ¬ P t → first_value P (t :: l) = first_value P l.
Proof. intros Ht. change (t :: l) with ([t] ++ l). apply first_value_skip. by repeat constructor. Qed.
Lemma first_value_option {A} (f : A → Tag) o l :
  (∀ x, P (f x)) → first_value P l = None →
  first_value P (option_list (f <$> o) ++ l) = o ≫= λ x, Tag.get (f x) 1.
Proof. intros Hf Hl. destruct o as [x|]; [|done]. simpl. by apply first_value_hit. Qed.
Lemma first_value_none l : Forall (λ t, ¬ P t) l → first_value P l = None.
Proof. intros Hl. unfold first_value. by rewrite (proj2 (list_find_None P l)). Qed.
End first_tags.

Lemma Forall_option {A B} (P : B → Prop) (f : A → B) (o : option A) : (∀ x, P (f x)) → Forall P (option_list (f <$> o)).
Proof. intros Hf. destruct o; simpl; [constructor; [done|constructor]|constructor]. Qed.
Lemma Forall_fmap_all {A B} (P : B → Prop) (f : A → B) (l : list A) : (∀ x, P (f x)) → Forall P (f <$> l).
Proof. intros Hf. apply Forall_fmap, Forall_true. done. Qed.

(** Finds the tag a reader asks for among those a writer wrote, one field at a time:
    the heads are constants. *)
Ltac other_heads :=
  repeat first
  [ apply Forall_app; split | apply Forall_option; intros ? | apply Forall_fmap_all; intros ?
  | apply Forall_cons; split | apply Forall_nil_2 ]; try by vm_compute.

Ltac find_value :=
  unfold custom_value, single_value; cbn [app];
  repeat first [rewrite first_value_skip by other_heads | rewrite first_value_miss by by vm_compute];
  first
  [ rewrite first_value_hit by (by vm_compute)
  | rewrite first_value_option; [|intros ?; by vm_compute|apply first_value_none; other_heads] ].
(** The same for a list of tags picked by their kind. *)
Lemma find_all_none (k : TagKind) l : Forall (λ t, Tag.kind t ≠ k) l → Tags.find_all l k = [].
Proof. intros Hl. unfold Tags.find_all. induction Hl; [done|]. by rewrite filter_cons_False. Qed.
Lemma find_all_app (k : TagKind) l l' : Tags.find_all (l ++ l') k = Tags.find_all l k ++ Tags.find_all l' k.
Proof. apply filter_app. Qed.
Lemma find_all_skip (k : TagKind) l l' : Forall (λ t, Tag.kind t ≠ k) l → Tags.find_all (l ++ l') k = Tags.find_all l' k.
Proof. intros Hl. by rewrite find_all_app, find_all_none. Qed.
Lemma find_all_miss (k : TagKind) t l : Tag.kind t ≠ k → Tags.find_all (t :: l) k = Tags.find_all l k.
Proof. intros Ht. change (t :: l) with ([t] ++ l). apply find_all_skip. by repeat constructor. Qed.
Lemma find_all_items {A} (k : TagKind) (f : A → Tag) xs l :
  (∀ x, Tag.kind (f x) = k) → Forall (λ t, Tag.kind t ≠ k) l → Tags.find_all ((f <$> xs) ++ l) k = f <$> xs.
Proof.
  intros Hf Hl. rewrite find_all_app, (find_all_none k l), app_nil_r by done. unfold Tags.find_all. induction xs as [|x xs IH]; [done|]. cbn [fmap list_fmap]. rewrite filter_cons_True by done. by f_equal.
Qed.

(** ** What may be printed *)

Definition opt_ok {A} (P : A → Prop) (o : option A) : Prop := ∀ a, o = Some a → P a.
Definition kind_ok (k : Kind) : Prop := (k <= Dec.u16_max)%N.
Definition coordinate_wf `{Secp256k1} (c : Coordinate) : Prop :=
  (Coordinate.kind c <= Dec.u16_max)%N ∧ PublicKey.valid (Coordinate.author c).

Section printed.
Context `{FasterHex, !FasterHexLaws, Secp256k1, UrlCrate, !UrlCrateLaws, !UrlNotEmpty}.

Lemma read_relay_column {E} (err : RelayUrl.Error → E) (o : option RelayUrl) :
  opt_ok RelayUrl.normal o →
  read_column RelayUrl.parse err (Some (unwrap_or_default (RelayUrl.as_str <$> o))) = Ok o
  ∧ read_column RelayUrl.parse err (RelayUrl.as_str <$> o) = Ok o.
Proof.
  intros Ho. apply read_column_printed. intros r Hr. split; [apply RelayUrl.parse_as_str, Ho, Hr|apply relay_not_empty].
Qed.
Lemma read_key_column {E} (err : PublicKey.Error → E) (o : option PublicKey) :
  opt_ok PublicKey.valid o →
  read_column PublicKey.parse err (Some (unwrap_or_default (PublicKey.to_hex <$> o))) = Ok o
  ∧ read_column PublicKey.parse err (PublicKey.to_hex <$> o) = Ok o.
Proof.
  intros Ho. apply read_column_printed. intros pk Hp. split; [apply PublicKey.pk_parse_to_hex, Ho, Hp|apply pk_hex_not_empty].
Qed.
Lemma parse_kind_printed k : kind_ok k → Dec.parse_u16 (Dec.to_string k) = Some k.
Proof. apply Dec.parse_to_string. Qed.
Lemma coordinate_printed c : coordinate_wf c → Coordinate.parse (Coordinate.to_wire c) = Ok c.
Proof. intros [Hk Hv]. by apply Coordinate.from_str_to_wire_ok. Qed.
End printed.

(** ** Signed events *)

Section signed.
Context `{FasterHex, EventCrypto}.

Lemma signed_parts clock b keys e :
  EventBuilder.sign_with_keys clock b keys = Ok e →
  Event.kind e = EventBuilder.kind b ∧ Event.content e = EventBuilder.content b
  ∧ Event.tags e = Tags.items (EventBuilder.tags b) ∧ Event.pubkey e = xonly_public_key keys.
Proof. by intros (ts & _ & ->)%EventBuilder.sign_Ok. Qed.

Lemma foldl_add_tag b tags :
  let b' := foldl EventBuilder.add_tag b tags in
  EventBuilder.kind b' = EventBuilder.kind b ∧ EventBuilder.content b' = EventBuilder.content b
  ∧ Tags.items (EventBuilder.tags b') = Tags.items (EventBuilder.tags b) ++ tags.
Proof.
  revert b. induction tags as [|t tags IH]; intros b; simpl; [by rewrite app_nil_r|].
  destruct (IH (EventBuilder.add_tag b t)) as (-> & -> & ->). simpl. by rewrite <-app_assoc.
Qed.

(** A builder that starts from nothing and adds tags. *)
Lemma signed_add_tags clock k c tags keys e :
  EventBuilder.sign_with_keys clock (EventBuilder.add_tags (EventBuilder.new k c) tags) keys = Ok e →
  Event.kind e = k ∧ Event.content e = c ∧ Event.tags e = tags ∧ Event.pubkey e = xonly_public_key keys.
Proof. intros (-> & -> & -> & ->)%signed_parts. done. Qed.
Lemma signed_foldl clock k c tags keys e :
  EventBuilder.sign_with_keys clock (foldl EventBuilder.add_tag (EventBuilder.new k c) tags) keys = Ok e →
  Event.kind e = k ∧ Event.content e = c ∧ Event.tags e = tags ∧ Event.pubkey e = xonly_public_key keys.
Proof.
  intros (-> & -> & -> & ->)%signed_parts. by destruct (foldl_add_tag (EventBuilder.new k c) tags) as (-> & -> & ->).
Qed.
End signed.
