(* ===== verification/Threads.v ===== *)
(** * Conversations

    Replies and mentions ([nips/nip10.rs]), reposts ([nips/nip18.rs]), comments
    ([nips/nip22.rs]) and reactions ([nips/nip25.rs]): their data, the tags that
    carry them and the readers of those tags. *)

From Stdlib Require Import Ascii NArith Lia.
From S2P Require Import Prelude Encoding Text Ids Tags Event Nips FilterWire Message TagReader.

(** ** NIP-10: replies and mentions *)

Module Nip10.

Inductive NoteMarker := Root | Reply | Mention.
#[global] Instance NoteMarker_eq_dec : EqDecision NoteMarker.
Proof. solve_decision. Defined.

Definition marker_as_str (m : NoteMarker) : string :=
  match m with Root => "root" | Reply => "reply" | Mention => "mention" end.

Inductive NoteMarkerError := Unknown (marker : string).
Definition marker_from_str (s : string) : result NoteMarker NoteMarkerError :=
  if decide (s = "root") then Ok Root
  else if decide (s = "reply") then Ok Reply
  else if decide (s = "mention") then Ok Mention
  else Err (Unknown s).

Inductive ThreadError :=
| NotEventTag (head : string)
| MissingEventId
| InvalidEventId (e : EventId.Error)
| InvalidRelay (e : RelayUrl.Error)
| InvalidMarker (e : NoteMarkerError)
| InvalidAuthor (e : PublicKey.Error).

Section nip10.
Context `{FasterHex, Secp256k1, UrlCrate}.

Record EventReference := mkReference {
  event_id : EventId;
  relay_hint : option RelayUrl;
  marker : option NoteMarker;
  author_hint : option PublicKey;
}.
Definition reference_new (id : EventId) : EventReference := mkReference id None None None.
Definition with_relay_hint (r : EventReference) relay : EventReference :=
  mkReference (event_id r) (Some relay) (marker r) (author_hint r).
Definition with_marker (r : EventReference) m : EventReference :=
  mkReference (event_id r) (relay_hint r) (Some m) (author_hint r).
Definition with_author_hint (r : EventReference) author : EventReference :=
  mkReference (event_id r) (relay_hint r) (marker r) (Some author).

Record ThreadContext := mkContext {
  events : list EventReference;
  mentioned_pubkeys : list PublicKey;
}.
Definition new : ThreadContext := mkContext [] [].
Definition reference (c : ThreadContext) r : ThreadContext := mkContext (events c ++ [r]) (mentioned_pubkeys c).
Definition mention (c : ThreadContext) pk : ThreadContext := mkContext (events c) (mentioned_pubkeys c ++ [pk]).

Definition marked (m : NoteMarker) (r : EventReference) : bool := bool_decide (marker r = Some m).
Definition root (c : ThreadContext) : option EventReference := List.find (marked Root) (events c).
Definition reply (c : ThreadContext) : option EventReference := List.find (marked Reply) (events c).
Definition mentions (c : ThreadContext) : list EventReference := List.filter (marked Mention) (events c).

(** The positions of the references without a marker. *)
Definition unmarked (l : list EventReference) : list nat :=
  omap (λ p, match marker p.2 with None => Some p.1 | Some _ => None end) (imap pair l).
Definition assign (l : list EventReference) (idx : nat) (m : NoteMarker) : list EventReference :=
  alter (λ r, with_marker r m) idx l.
Definition infer_legacy_markers (c : ThreadContext) : ThreadContext :=
  mkContext
    (match unmarked (events c) with
     | [] => events c
     | [only] => assign (events c) only Root
     | first :: rest =>
         let l := assign (events c) first Root in
         let l := assign l (List.last rest 0%nat) Reply in
         foldl (λ l idx, assign l idx Mention) l (removelast rest)
     end) (mentioned_pubkeys c).

Definition build_e_tag (r : EventReference) : Tag :=
  let id := EventId.to_hex (event_id r) in
  let relay := unwrap_or_default (RelayUrl.as_str <$> relay_hint r) in
  let mark := unwrap_or_default (marker_as_str <$> marker r) in
  let author := unwrap_or_default (PublicKey.to_hex <$> author_hint r) in
  Tag.with_ (Tag.lower Alphabet.E)
    (if decide (author ≠ EmptyString) then [id; relay; mark; author]
     else if decide (mark ≠ EmptyString) then [id; relay; mark]
     else if decide (relay ≠ EmptyString) then [id; relay]
     else [id]).
Definition to_tags (c : ThreadContext) : list Tag :=
  (build_e_tag <$> events c) ++ (Tag.p <$> mentioned_pubkeys c).

(** The strict reader of one tag. *)
Definition from_tag (tag : Tag) : result EventReference ThreadError :=
  if decide (Tag.kind tag ≠ Tag.lower Alphabet.E) then Err (NotEventTag (TagKind.as_str (Tag.kind tag)))
  else
    let? value := ok_or (Tag.get tag 1) MissingEventId in
    let? id := map_err InvalidEventId (EventId.parse value) in
    let? relay := read_column RelayUrl.parse InvalidRelay (Tag.get tag 2) in
    let? mark := read_column marker_from_str InvalidMarker (Tag.get tag 3) in
    let? author := read_column PublicKey.parse InvalidAuthor (Tag.get tag 4) in
    Ok (mkReference id relay mark author).

(** The tolerant reader of an event: a tag it cannot read is skipped. *)
Definition from_event_step (c : ThreadContext) (tag : Tag) : ThreadContext :=
  match (if decide (Tag.kind tag = Tag.lower Alphabet.E) then result_ok (from_tag tag) else None) with
  | Some r => reference c r
  | None =>
      if decide (Tag.kind tag = Tag.lower Alphabet.P) then
        match Tag.get tag 1 ≫= λ s, result_ok (PublicKey.parse s) with
        | Some pk => mention c pk
        | None => c
        end
      else c
  end.
Definition from_event (event : Event) : ThreadContext := foldl from_event_step new (Event.tags event).

(** [EventBuilder::note_with_context]. *)
Definition note_with_context (content : string) (c : ThreadContext) : EventBuilder :=
  EventBuilder.add_tags (EventBuilder.new Kind.TEXT_NOTE content) (to_tags c).
End nip10.
End Nip10.

(** ** NIP-22: comments *)

Module Nip22.

Definition COMMENT : Kind := 1111.

Inductive CommentError :=
| UnexpectedKind (k : N)
| MissingRoot
| MissingParent
| MissingValue (tag : string)
| InvalidKind (s : string)
| InvalidEventId (e : EventId.Error)
| InvalidCoordinate (e : Coordinate.Error)
| InvalidRelay (e : RelayUrl.Error)
| InvalidPubkey (e : PublicKey.Error).

Section nip22.
Context `{FasterHex, Secp256k1, UrlCrate}.

Inductive CommentScope :=
| Event (id : EventId) (relay_hint : option RelayUrl)
| Address (coordinate : Coordinate) (relay_hint : option RelayUrl)
| External (value : string) (context : option string).
Definition event (id : EventId) : CommentScope := Event id None.
Definition address (c : Coordinate) : CommentScope := Address c None.
Definition external (value : string) : CommentScope := External value None.

Record Comment := mkComment {
  root : CommentScope;
  root_kind : option Kind;
  root_author : option PublicKey;
  parent : CommentScope;
  parent_kind : option Kind;
  parent_author : option PublicKey;
  content : string;
}.
Definition top_level (r : CommentScope) (text : string) : Comment := mkComment r None None r None None text.
Definition with_root_kind (c : Comment) k : Comment :=
  mkComment (root c) (Some k) (root_author c) (parent c) (parent_kind c) (parent_author c) (content c).
Definition with_root_author (c : Comment) pk : Comment :=
  mkComment (root c) (root_kind c) (Some pk) (parent c) (parent_kind c) (parent_author c) (content c).
Definition with_parent_kind (c : Comment) k : Comment :=
  mkComment (root c) (root_kind c) (root_author c) (parent c) (Some k) (parent_author c) (content c).
Definition with_parent_author (c : Comment) pk : Comment :=
  mkComment (root c) (root_kind c) (root_author c) (parent c) (parent_kind c) (Some pk) (content c).
Definition with_parent (c : Comment) p : Comment :=
  mkComment (root c) (root_kind c) (root_author c) p (parent_kind c) (parent_author c) (content c).

(** [push_scope_tags]: the one tag of a scope. *)
Definition scope_tag (s : CommentScope) (is_root : bool) : Tag :=
  match s with
  | Event id hint =>
      Tag.with_ (TagKind.from_wire (if is_root then "E" else "e"))
        (EventId.to_hex id :: option_list (RelayUrl.as_str <$> hint))
  | Address c hint =>
      Tag.with_ (TagKind.from_wire (if is_root then "A" else "a"))
        (Coordinate.to_wire c :: option_list (RelayUrl.as_str <$> hint))
  | External value context =>
      Tag.with_ (TagKind.from_wire (if is_root then "I" else "i")) (value :: option_list context)
  end.
Definition kind_tag (head : string) (k : Kind) : Tag := Tag.with_ (TagKind.from_wire head) [Dec.to_string k].
Definition key_tag (head : string) (pk : PublicKey) : Tag := Tag.with_ (TagKind.from_wire head) [PublicKey.to_hex pk].
Definition to_tags (c : Comment) : list Tag :=
  [scope_tag (root c) true] ++ option_list (kind_tag "K" <$> root_kind c) ++ option_list (key_tag "P" <$> root_author c)
  ++ [scope_tag (parent c) false] ++ option_list (kind_tag "k" <$> parent_kind c)
  ++ option_list (key_tag "p" <$> parent_author c).

Definition parse_event_scope (tag : Tag) : result CommentScope CommentError :=
  let? value := ok_or (Tag.get tag 1) (MissingValue "E/e") in
  let? id := map_err InvalidEventId (EventId.parse value) in
  let? hint := read_column RelayUrl.parse InvalidRelay (Tag.get tag 2) in
  Ok (Event id hint).
Definition parse_address_scope (tag : Tag) : result CommentScope CommentError :=
  let? value := ok_or (Tag.get tag 1) (MissingValue "A/a") in
  let? c := map_err InvalidCoordinate (Coordinate.from_str value) in
  let? hint := read_column RelayUrl.parse InvalidRelay (Tag.get tag 2) in
  Ok (Address c hint).
Definition parse_external_scope (tag : Tag) : result CommentScope CommentError :=
  let? value := ok_or (Tag.get tag 1) (MissingValue "I/i") in
  Ok (External value (non_empty (Tag.get tag 2))).
Definition parse_kind (tag : Tag) (name : string) : result Kind CommentError :=
  let? value := ok_or (Tag.get tag 1) (MissingValue name) in
  ok_or (Dec.parse_u16 value) (InvalidKind value).
Definition parse_pubkey (tag : Tag) (name : string) : result PublicKey CommentError :=
  let? value := ok_or (Tag.get tag 1) (MissingValue name) in
  map_err InvalidPubkey (PublicKey.parse value).

(** The six slots of the loop. *)
Record Slots := mkSlots {
  s_root : option CommentScope; s_root_kind : option Kind; s_root_author : option PublicKey;
  s_parent : option CommentScope; s_parent_kind : option Kind; s_parent_author : option PublicKey;
}.
Definition no_slots : Slots := mkSlots None None None None None None.
Definition from_event_step (s : Slots) (tag : Tag) : result Slots CommentError :=
  let head := TagKind.as_str (Tag.kind tag) in
  let set_root (r : result CommentScope CommentError) : result Slots CommentError :=
    let? r := r in Ok (mkSlots (Some r) (s_root_kind s) (s_root_author s) (s_parent s) (s_parent_kind s) (s_parent_author s)) in
  let set_parent (r : result CommentScope CommentError) : result Slots CommentError :=
    let? r := r in Ok (mkSlots (s_root s) (s_root_kind s) (s_root_author s) (Some r) (s_parent_kind s) (s_parent_author s)) in
  if decide (head = "E") then set_root (parse_event_scope tag)
  else if decide (head = "A") then set_root (parse_address_scope tag)
  else if decide (head = "I") then set_root (parse_external_scope tag)
  else if decide (head = "K") then
    let? k := parse_kind tag "K" in
    Ok (mkSlots (s_root s) (Some k) (s_root_author s) (s_parent s) (s_parent_kind s) (s_parent_author s))
  else if decide (head = "P") then
    let? pk := parse_pubkey tag "P" in
    Ok (mkSlots (s_root s) (s_root_kind s) (Some pk) (s_parent s) (s_parent_kind s) (s_parent_author s))
  else if decide (head = "e") then set_parent (parse_event_scope tag)
  else if decide (head = "a") then set_parent (parse_address_scope tag)
  else if decide (head = "i") then set_parent (parse_external_scope tag)
  else if decide (head = "k") then
    let? k := parse_kind tag "k" in
    Ok (mkSlots (s_root s) (s_root_kind s) (s_root_author s) (s_parent s) (Some k) (s_parent_author s))
  else if decide (head = "p") then
    let? pk := parse_pubkey tag "p" in
    Ok (mkSlots (s_root s) (s_root_kind s) (s_root_author s) (s_parent s) (s_parent_kind s) (Some pk))
  else Ok s.
Definition from_event (e : Event.t) : result Comment CommentError :=
  if decide (Event.kind e ≠ COMMENT) then Err (UnexpectedKind (Event.kind e))
  else
    let? s := read_tags from_event_step no_slots (Event.tags e) in
    let? r := ok_or (s_root s) MissingRoot in
    let? p := ok_or (s_parent s) MissingParent in
    Ok (mkComment r (s_root_kind s) (s_root_author s) p (s_parent_kind s) (s_parent_author s) (Event.content e)).

(** [EventBuilder::comment]. *)
Definition comment (c : Comment) : EventBuilder :=
  EventBuilder.add_tags (EventBuilder.new COMMENT (content c)) (to_tags c).
End nip22.
End Nip22.

(** ** NIP-25: reactions *)

(** [str::strip_suffix]. *)
Fixpoint strip_suffix (suffix s : string) : option string :=
  if decide (s = suffix) then Some EmptyString
  else match s with
       | EmptyString => None
       | String c s => String c <$> strip_suffix suffix s
       end.

Module Nip25.

Inductive Reaction := Like | Dislike | Emoji (text : string) | CustomEmoji (shortcode : string).

Definition REACTION : Kind := 7.
Definition LIKE : string := "+".
Definition DISLIKE : string := "-".

Definition parse_custom_emoji (content : string) : option string :=
  rest ← Text.strip_prefix ":" content; stripped ← strip_suffix ":" rest;
  if decide (stripped = EmptyString) then None
  else if no_char ":" stripped then Some stripped else None.

Definition parse (content : string) : Reaction :=
  if decide (content = EmptyString ∨ content = LIKE) then Like
  else if decide (content = DISLIKE) then Dislike
  else match parse_custom_emoji content with
       | Some shortcode => CustomEmoji shortcode
       | None => Emoji content
       end.
Definition content (r : Reaction) : string :=
  match r with
  | Like => LIKE
  | Dislike => DISLIKE
  | Emoji s => s
  | CustomEmoji shortcode => ":" +:+ shortcode +:+ ":"
  end.
Definition is_positive (r : Reaction) : bool := match r with Like => true | _ => false end.
Definition is_negative (r : Reaction) : bool := match r with Dislike => true | _ => false end.

Section nip25.
Context `{FasterHex, Secp256k1, UrlCrate}.

Record ReactionTarget := mkTarget {
  event_id : EventId;
  author : PublicKey;
  kind : option Kind;
  coordinate : option Coordinate;
  relay_hint : option RelayUrl;
}.
Definition target_new (id : EventId) (pk : PublicKey) : ReactionTarget := mkTarget id pk None None None.

(** The first tag [d], with or without a value. *)
Fixpoint find_d_tag (tags : list Tag) : option string :=
  match tags with
  | [] => None
  | tag :: tags => if decide (Tag.kind tag = Tag.lower Alphabet.D) then Tag.get tag 1 else find_d_tag tags
  end.
(** The coordinate of an addressable event that has a tag [d]. *)
Definition own_coordinate (e : Event) : option Coordinate :=
  if Kind.is_addressable (Event.kind e)
  then (λ d, Coordinate.mk (Event.kind e) (Event.pubkey e) d) <$> find_d_tag (Event.tags e)
  else None.
Definition target_from_event (e : Event) : ReactionTarget :=
  mkTarget (Event.id e) (Event.pubkey e) (Some (Event.kind e)) (own_coordinate e) None.
Definition with_relay_hint (t : ReactionTarget) r : ReactionTarget :=
  mkTarget (event_id t) (author t) (kind t) (coordinate t) (Some r).
Definition with_kind (t : ReactionTarget) k : ReactionTarget :=
  mkTarget (event_id t) (author t) (Some k) (coordinate t) (relay_hint t).
Definition with_coordinate (t : ReactionTarget) c : ReactionTarget :=
  mkTarget (event_id t) (author t) (kind t) (Some c) (relay_hint t).

Definition reaction_e_tag (t : ReactionTarget) : Tag :=
  Tag.with_ (Tag.lower Alphabet.E)
    [EventId.to_hex (event_id t); unwrap_or_default (RelayUrl.as_str <$> relay_hint t); PublicKey.to_hex (author t)].
Definition reaction_p_tag (t : ReactionTarget) : Tag :=
  match relay_hint t with
  | None => Tag.p (author t)
  | Some r => Tag.p_with_relay (author t) (RelayUrl.as_str r)
  end.
Definition reaction_a_tag (c : Coordinate) (relay : option RelayUrl) : Tag :=
  match relay with
  | None => tag_a c
  | Some r => tag_a_with_relay c (RelayUrl.as_str r)
  end.
(** [EventBuilder::reaction]. *)
Definition reaction (t : ReactionTarget) (r : Reaction) : EventBuilder :=
  foldl EventBuilder.add_tag (EventBuilder.new REACTION (content r))
    ([reaction_e_tag t; reaction_p_tag t] ++ option_list (Tag.k <$> kind t)
     ++ option_list ((λ c, reaction_a_tag c (relay_hint t)) <$> coordinate t)).

(** The values of the tags with the letter. *)
Definition letter_values (tags : list Tag) (letter : Alphabet.t) : list string :=
  omap (λ tag, if decide (Tag.kind tag = Tag.lower letter) then Tag.get tag 1 else None) tags.
Definition first_single_letter_value (tags : list Tag) (letter : Alphabet.t) : option string :=
  head (letter_values tags letter).
Definition last_single_letter_value (tags : list Tag) (letter : Alphabet.t) : option string :=
  last (letter_values tags letter).

Definition target_event_id (tags : list Tag) : option EventId :=
  last_single_letter_value tags Alphabet.E ≫= λ hex, result_ok (EventId.parse hex).
Definition target_pubkey (tags : list Tag) : option PublicKey :=
  last_single_letter_value tags Alphabet.P ≫= λ hex, result_ok (PublicKey.parse hex).
Definition target_kind (tags : list Tag) : option Kind :=
  first_single_letter_value tags Alphabet.K ≫= Dec.parse_u16.
End nip25.
End Nip25.

(** ** NIP-18: reposts *)

Module Nip18.

Definition REPOST : Kind := 6.
Definition GENERIC_REPOST : Kind := 16.

(** The serializer of an event does not fail. *)
Inductive RepostError := NotATextNote (k : N).

Section nip18.
Context `{FasterHex, Secp256k1, SerdeJson, SigSerde, UrlCrate}.

Definition event_json (e : Event) : string := json_to_string (EventJson.serialize e).

Definition repost_e_tag (id : EventId) (relay : RelayUrl) : Tag :=
  Tag.with_ (Tag.lower Alphabet.E) [EventId.to_hex id; RelayUrl.as_str relay].
Definition repost (target : Event) (relay : RelayUrl) : result EventBuilder RepostError :=
  if decide (Event.kind target ≠ Kind.TEXT_NOTE) then Err (NotATextNote (Event.kind target))
  else
    let content := if Nip70.is_protected target then EmptyString else event_json target in
    Ok (EventBuilder.add_tag
          (EventBuilder.add_tag (EventBuilder.new REPOST content) (repost_e_tag (Event.id target) relay))
          (Tag.p_with_relay (Event.pubkey target) (RelayUrl.as_str relay))).

Definition generic_repost (target : Event) (relay : RelayUrl) : EventBuilder :=
  let coord := Nip25.own_coordinate target in
  let content := if bool_decide (is_Some coord) || Nip70.is_protected target then EmptyString else event_json target in
  foldl EventBuilder.add_tag (EventBuilder.new GENERIC_REPOST content)
    ([repost_e_tag (Event.id target) relay; Tag.p_with_relay (Event.pubkey target) (RelayUrl.as_str relay);
      Tag.k (Event.kind target)] ++ option_list ((λ c, tag_a_with_relay c (RelayUrl.as_str relay)) <$> coord)).

(** The value of the first tag with the letter, which may have none. *)
Fixpoint first_value (tags : list Tag) (letter : Alphabet.t) : option string :=
  match tags with
  | [] => None
  | tag :: tags => if decide (Tag.kind tag = Tag.lower letter) then Tag.get tag 1 else first_value tags letter
  end.
Definition reposted_event_id (tags : list Tag) : option EventId :=
  first_value tags Alphabet.E ≫= λ v, result_ok (EventId.parse v).
Definition reposted_event_pubkey (tags : list Tag) : option PublicKey :=
  first_value tags Alphabet.P ≫= λ v, result_ok (PublicKey.parse v).
Definition reposted_event_kind (tags : list Tag) : option Kind :=
  first_value tags Alphabet.K ≫= Dec.parse_u16.
(** The first tag [a] that has a value. *)
Definition reposted_event_coordinate (tags : list Tag) : option Coordinate :=
  Nip25.first_single_letter_value tags Alphabet.A ≫= λ v, result_ok (Coordinate.parse v).
End nip18.
End Nip18.
