(* ===== verification/ThreadTheorems.v ===== *)
(** * Theorems about conversations

    Threads, comments, reactions and reposts read back from the events that carry
    them; references without a marker get the one their position says. *)

From Stdlib Require Import Ascii NArith Lia.
From S2P Require Import Prelude Encoding Text Ids Tags Event Nips FilterWire Message HttpAuth TagReader Threads GiftWrap GiftWrapProofs.

(** ** Threads *)

Section threads.
Context `{FasterHex, !FasterHexLaws, Secp256k1, UrlCrate, !UrlCrateLaws, !UrlNotEmpty}.
Import Nip10.

Definition reference_ok (r : EventReference) : Prop :=
  opt_ok RelayUrl.normal (relay_hint r) ∧ opt_ok PublicKey.valid (author_hint r).
Definition context_ok (c : ThreadContext) : Prop :=
  Forall reference_ok (events c) ∧ Forall PublicKey.valid (mentioned_pubkeys c).

Lemma marker_as_str_not_empty m : marker_as_str m ≠ EmptyString.
Proof. by destruct m. Qed.
Lemma read_marker_column {E} (err : NoteMarkerError → E) (o : option NoteMarker) :
  read_column marker_from_str err (Some (unwrap_or_default (marker_as_str <$> o))) = Ok o.
Proof. apply read_column_printed. intros m _. split; [by destruct m|apply marker_as_str_not_empty]. Qed.

Lemma from_build_e_tag r : reference_ok r → from_tag (build_e_tag r) = Ok r.
Proof.
  intros [Hr Ha]. destruct r as [id relay mark author]. cbn [relay_hint author_hint] in *. unfold from_tag, build_e_tag. cbv zeta.
  rewrite Tag.kind_with_lower, decide_False by by intros []. cbn [event_id relay_hint marker author_hint].
  destruct (read_relay_column InvalidRelay relay Hr) as [Er _]. pose proof (read_marker_column InvalidMarker mark) as Em.
  destruct (read_key_column InvalidAuthor author Ha) as [Ea _].
  destruct (decide (unwrap_or_default (PublicKey.to_hex <$> author) ≠ EmptyString)) as [_|Hx];
    [|apply column_absent in Hx as ->; [|apply pk_hex_not_empty];
      destruct (decide (unwrap_or_default (marker_as_str <$> mark) ≠ EmptyString)) as [_|Hx];
      [|apply column_absent in Hx as ->; [|apply marker_as_str_not_empty];
        destruct (decide (unwrap_or_default (RelayUrl.as_str <$> relay) ≠ EmptyString)) as [_|Hx];
        [|apply column_absent in Hx as ->; [|apply relay_not_empty]]]].
  all: columns; cbn [ok_or result_bind]; rewrite EventId.parse_to_hex; cbn [map_err result_bind];
    rewrite ?read_column_None, ?Er; cbn [result_bind]; rewrite ?read_column_None, ?Em; cbn [result_bind];
    by rewrite ?read_column_None, ?Ea.
Qed.

Lemma from_tag_ok tag r : from_tag tag = Ok r → reference_ok r.
Proof.
  unfold from_tag. case_decide; [done|]. intros Hr. invert_ok. simplify_eq.
  split; intros a Ea; simpl in Ea; subst.
  - edestruct @read_column_Some as (s & Hs & _); [eassumption|]. by eapply RelayUrl.parse_normal.
  - edestruct @read_column_Some as (s & Hs & _); [eassumption|]. by eapply PublicKey.parse_valid.
Qed.

Lemma step_reference c r : reference_ok r → from_event_step c (build_e_tag r) = reference c r.
Proof.
  intros Hr. unfold from_event_step. assert (Tag.kind (build_e_tag r) = Tag.lower Alphabet.E) as -> by apply Tag.kind_with_lower.
  rewrite decide_True by done. by rewrite from_build_e_tag.
Qed.
Lemma step_mention c pk : PublicKey.valid pk → from_event_step c (Tag.p pk) = mention c pk.
Proof.
  intros Hp. unfold from_event_step. assert (Tag.kind (Tag.p pk) = Tag.lower Alphabet.P) as -> by apply Tag.kind_with_lower.
  rewrite decide_False, decide_True by done. unfold Tag.p. columns. simpl. by rewrite PublicKey.pk_parse_to_hex.
Qed.
Lemma context_read_back c : context_ok c → foldl from_event_step new (to_tags c) = c.
Proof.
  intros [He Hp]. unfold to_tags. rewrite foldl_app.
  assert (∀ l c, Forall reference_ok l → foldl from_event_step c (build_e_tag <$> l) = mkContext (events c ++ l) (mentioned_pubkeys c)) as Hes.
  { clear He Hp c. induction l as [|r l IH]; intros c Hl; [by destruct c; simpl; rewrite app_nil_r|].
    apply Forall_cons in Hl as [Hr Hl]. cbn [fmap list_fmap foldl]. rewrite step_reference, IH by done. simpl. by rewrite <-app_assoc. }
  assert (∀ l c, Forall PublicKey.valid l → foldl from_event_step c (Tag.p <$> l) = mkContext (events c) (mentioned_pubkeys c ++ l)) as Hps.
  { clear He Hp Hes c. induction l as [|pk l IH]; intros c Hl; [by destruct c; simpl; rewrite app_nil_r|].
    apply Forall_cons in Hl as [Hr Hl]. cbn [fmap list_fmap foldl]. rewrite step_mention, IH by done. simpl. by rewrite <-app_assoc. }
  rewrite Hes, Hps by done. by destruct c.
Qed.

Lemma from_event_context_ok e : context_ok (from_event e).
Proof.
  unfold from_event. assert (context_ok new) as Hn by done. revert Hn. generalize new.
  induction (Event.tags e) as [|t tags IH]; intros c Hc; simpl; [done|]. apply IH. destruct Hc as [He Hp].
  unfold from_event_step. case_decide as Hk.
  - destruct (from_tag t) as [r|] eqn:Er; simpl.
    + split; [|done]. simpl. apply Forall_app. split; [done|]. apply Forall_singleton. by eapply from_tag_ok.
    + rewrite decide_False by (rewrite Hk; done). done.
  - case_decide; [|done]. destruct (Tag.get t 1 ≫= λ s, result_ok (PublicKey.parse s)) as [pk|] eqn:Ep; [|done].
    split; [done|]. simpl. apply Forall_app. split; [done|]. apply Forall_singleton.
    apply bind_Some in Ep as (s & _ & Hs). destruct (PublicKey.parse s) eqn:Es; simplify_eq/=. by eapply PublicKey.parse_valid.
Qed.
(** *** Positions *)

Definition has_marker (r : EventReference) : Prop := is_Some (marker r).
#[local] Instance has_marker_dec r : Decision (has_marker r) := ltac:(unfold has_marker; apply _).

(** What the position of a reference without a marker says. *)
Definition role (l : list EventReference) (i : nat) : NoteMarker :=
  if decide (Forall has_marker (take i l)) then Root
  else if decide (Forall has_marker (drop (S i) l)) then Reply else Mention.
Definition placed (l : list EventReference) (i : nat) (r : EventReference) : EventReference :=
  match marker r with Some _ => r | None => with_marker r (role l i) end.

Lemma unmarked_cons r l :
  unmarked (r :: l) = match marker r with None => [0%nat] | Some _ => [] end ++ (S <$> unmarked l).
Proof.
  assert (omap (λ p : nat * EventReference, match marker p.2 with None => Some p.1 | Some _ => None end) (imap (pair ∘ S) l)
    = S <$> unmarked l) as E.
  { unfold unmarked. assert (imap (pair ∘ S) l = (λ p, (S p.1, p.2)) <$> imap pair l) as ->.
    { rewrite fmap_imap. by apply imap_ext. }
    induction (imap pair l) as [|[k x] ps IH]; [done|]. csimpl. destruct (marker x); csimpl; by rewrite IH. }
  unfold unmarked at 1. rewrite imap_cons. csimpl. by destruct (marker r); csimpl; rewrite E.
Qed.
Lemma elem_of_unmarked l i : i ∈ unmarked l ↔ ∃ r, l !! i = Some r ∧ ¬ has_marker r.
Proof.
  revert i. induction l as [|r l IH]; intros i; [by split; [intros ?%elem_of_nil|intros (? & ? & ?)]|].
  rewrite unmarked_cons, elem_of_app, list_elem_of_fmap. unfold has_marker in *. destruct i as [|i]; simpl.
  - split.
    + intros [Hi|(j & ? & _)]; [|done]. exists r. split; [done|]. destruct (marker r); [by apply elem_of_nil in Hi|by intros [? ?]].
    + intros (? & [= <-] & Hn). left. destruct (marker r); [by destruct Hn|by left].
  - rewrite <-IH. split; [|by right; eauto]. intros [Hi|(j & [= <-] & Hj)]; [|done].
    destruct (marker r); [by apply elem_of_nil in Hi|by apply list_elem_of_singleton in Hi].
Qed.
Lemma unmarked_sorted l : StronglySorted lt (unmarked l).
Proof.
  induction l as [|r l IH]; [constructor|]. rewrite unmarked_cons.
  assert (StronglySorted lt (S <$> unmarked l)) as Hs.
  { induction IH as [|x xs _ IHx Hx]; simpl; constructor; [done|]. apply Forall_fmap. eapply Forall_impl; [exact Hx|]. simpl. lia. }
  destruct (marker r); simpl; [done|]. constructor; [done|]. apply Forall_fmap, Forall_true. simpl. lia.
Qed.

Lemma role_before l i : Forall has_marker (take i l) ↔ ∀ j, j ∈ unmarked l → (i ≤ j)%nat.
Proof.
  rewrite Forall_lookup. split.
  - intros Hall j (r & Hr & Hn)%elem_of_unmarked. destruct (decide (i ≤ j)%nat); [done|]. destruct Hn. apply (Hall j).
    by rewrite lookup_take_lt by lia.
  - intros Hall j r (Hr & Hj)%lookup_take_Some. destruct (decide (has_marker r)); [done|].
    assert (j ∈ unmarked l) as Hu by (apply elem_of_unmarked; eauto). apply Hall in Hu. lia.
Qed.
Lemma role_after l i : Forall has_marker (drop (S i) l) ↔ ∀ j, j ∈ unmarked l → (j ≤ i)%nat.
Proof.
  rewrite Forall_lookup. split.
  - intros Hall j (r & Hr & Hn)%elem_of_unmarked. destruct (decide (j ≤ i)%nat); [done|]. destruct Hn.
    apply (Hall (j - S i)%nat). rewrite lookup_drop. by replace (S i + (j - S i))%nat with j by lia.
  - intros Hall j r Hr. rewrite lookup_drop in Hr. destruct (decide (has_marker r)); [done|].
    assert ((S i + j)%nat ∈ unmarked l) as Hu by (apply elem_of_unmarked; eauto). apply Hall in Hu. lia.
Qed.

Lemma lookup_assign l k m i : assign l k m !! i = (λ r, if decide (i = k) then with_marker r m else r) <$> l !! i.
Proof.
  unfold assign. destruct (decide (i = k)) as [->|Hne]; [by rewrite list_lookup_alter_eq|].
  rewrite list_lookup_alter_ne by done. by destruct (l !! i).
Qed.
Lemma lookup_assigns l ks m i :
  foldl (λ l k, assign l k m) l ks !! i = (λ r, if decide (i ∈ ks) then with_marker r m else r) <$> l !! i.
Proof.
  revert l. induction ks as [|k ks IH]; intros l.
  { simpl. by destruct (l !! i). }
  cbn [foldl]. rewrite IH, lookup_assign. destruct (l !! i) as [r|]; [|done]. simpl. f_equal.
  destruct (decide (i = k)), (decide (i ∈ ks)), (decide (i ∈ k :: ks)); first [done|set_solver].
Qed.

Lemma infer_placed c : events (infer_legacy_markers c) = imap (placed (events c)) (events c).
Proof.
  unfold infer_legacy_markers. cbn [events]. generalize (events c). intros l.
  apply list_eq. intros i. rewrite list_lookup_imap. pose proof (unmarked_sorted l) as Hs.
  pose proof (elem_of_unmarked l i) as Hi. pose proof (role_before l i) as Hb. pose proof (role_after l i) as Ha.
  unfold placed, role.
  assert (∀ (f : EventReference → EventReference),
    (∀ r, has_marker r → i ∉ unmarked l → f r = r) →
    (∀ r, ¬ has_marker r → i ∈ unmarked l →
       f r = with_marker r (if decide (Forall has_marker (take i l)) then Root
                            else if decide (Forall has_marker (drop (S i) l)) then Reply else Mention)) →
    f <$> l !! i = (λ r, match marker r with Some _ => r | None => with_marker r
       (if decide (Forall has_marker (take i l)) then Root
        else if decide (Forall has_marker (drop (S i) l)) then Reply else Mention) end) <$> l !! i) as Hf.
  { intros f Hm1 Hm2. destruct (l !! i) as [r|]; [|done]. simpl. f_equal. destruct (marker r) eqn:Em.
    - apply Hm1; [by eexists|]. rewrite Hi. intros (? & [= <-] & Hn). by destruct Hn; eexists.
    - assert (¬ has_marker r) as Hn by (intros [? ?]; congruence). apply Hm2; [done|]. apply Hi. eauto. }
  destruct (unmarked l) as [|first rest] eqn:Eu.
  { rewrite <-(option_fmap_id (l !! i)) at 1. apply Hf; [done|]. intros r _ ?%elem_of_nil. done. }
  apply StronglySorted_inv in Hs as [Hs Hmin]. rewrite Forall_forall in Hmin. destruct rest as [|x rest].
  { rewrite lookup_assign. apply Hf.
    - intros r _ Hni. rewrite decide_False by set_solver. done.
    - intros r _ ->%list_elem_of_singleton. rewrite decide_True by done. rewrite decide_True; [done|]. apply Hb. set_solver. }
  assert (x :: rest = removelast (x :: rest) ++ [List.last (x :: rest) 0%nat]) as El by (by apply app_removelast_last).
  revert Hs Hmin Hi Hb Ha Hf. rewrite El. rewrite removelast_last, List.last_last.
  generalize (List.last (x :: rest) 0%nat), (removelast (x :: rest)). clear El. intros la mid Hs Hmin Hi Hb Ha Hf.
  assert (∀ j, j ∈ mid → (j < la)%nat) as Hla.
  { intros j Hj. eapply StronglySorted_app_1_elem_of; [exact Hs|done|set_solver]. }
  assert (first < la)%nat as Hfl by (apply Hmin; set_solver).
  rewrite lookup_assigns, lookup_assign, lookup_assign, <-!option_fmap_compose. apply Hf.
  - intros r _ Hni. simpl. rewrite !decide_False by set_solver. done.
  - intros r _ [-> | [Hm | ->%list_elem_of_singleton]%elem_of_app]%elem_of_cons; simpl.
    + rewrite (decide_True (P := first = first)) by done. rewrite (decide_False (P := first = la)) by lia.
      rewrite (decide_False (P := first ∈ mid)). 2:{ intros Hx. specialize (Hmin first ltac:(set_solver)). lia. }
      rewrite decide_True; [done|]. apply Hb. intros j [->|Hj]%elem_of_cons; [done|]. apply Hmin in Hj. lia.
    + pose proof (Hla i Hm). pose proof (Hmin i ltac:(set_solver)).
      rewrite (decide_False (P := i = first)), (decide_False (P := i = la)), (decide_True (P := i ∈ mid)) by (done || lia).
      rewrite decide_False; [rewrite decide_False; [done|]|].
      * intros Hx. apply Ha with (j := la) in Hx; [lia|set_solver].
      * intros Hx. apply Hb with (j := first) in Hx; [lia|set_solver].
    + rewrite (decide_False (P := la = first)) by lia. rewrite (decide_True (P := la = la)) by done.
      rewrite (decide_False (P := la ∈ mid)). 2:{ intros Hx%Hla. lia. }
      rewrite decide_False; [rewrite decide_True; [done|]|].
      * apply Ha. intros j [-> | [Hj | ->%list_elem_of_singleton]%elem_of_app]%elem_of_cons; [lia|apply Hla in Hj; lia|done].
      * intros Hx. apply Hb with (j := first) in Hx; [lia|set_solver].
Qed.
End threads.

(** ** Comments *)

Section comments.
Context `{FasterHex, !FasterHexLaws, Secp256k1, UrlCrate, !UrlCrateLaws, !UrlNotEmpty}.
Import Nip22.

Definition scope_ok (sc : CommentScope) : Prop :=
  match sc with
  | Event _ hint => opt_ok RelayUrl.normal hint
  | Address c hint => coordinate_wf c ∧ opt_ok RelayUrl.normal hint
  | External _ context => opt_ok (λ s, s ≠ EmptyString) context
  end.
Definition comment_ok (c : Comment) : Prop :=
  scope_ok (root c) ∧ scope_ok (parent c) ∧ opt_ok kind_ok (root_kind c) ∧ opt_ok kind_ok (parent_kind c)
  ∧ opt_ok PublicKey.valid (root_author c) ∧ opt_ok PublicKey.valid (parent_author c).

Lemma head_with h args : TagKind.as_str (Tag.kind (Tag.with_ (TagKind.from_wire h) args)) = h.
Proof. by rewrite Tag.kind_with_from_wire, TagKind.as_str_from_wire. Qed.

Lemma hint_read {E} (err : RelayUrl.Error → E) hint :
  opt_ok RelayUrl.normal hint → read_column RelayUrl.parse err (option_list (RelayUrl.as_str <$> hint) !! 0%nat) = Ok hint.
Proof. intros Hh. destruct (read_relay_column err hint Hh) as [_ E2]. by destruct hint. Qed.

(** The reader a scope's tag is given to. *)
Definition parse_scope (sc : CommentScope) : Tag → result CommentScope CommentError :=
  match sc with Event _ _ => parse_event_scope | Address _ _ => parse_address_scope | External _ _ => parse_external_scope end.
Lemma scope_read sc b : scope_ok sc → parse_scope sc (scope_tag sc b) = Ok sc.
Proof.
  destruct sc as [id hint|c hint|v ctx]; cbn [parse_scope scope_tag scope_ok].
  - intros Hh. unfold parse_event_scope. columns. simpl. rewrite EventId.parse_to_hex. simpl.
    pose proof (hint_read InvalidRelay hint Hh) as E. revert E. cbv [lookup list_lookup]. by intros ->.
  - intros [Hc Hh]. unfold parse_address_scope. columns. simpl. destruct Hc as [Hk Hv].
    rewrite Coordinate.from_str_to_wire_ok by done. simpl.
    pose proof (hint_read InvalidRelay hint Hh) as E. revert E. cbv [lookup list_lookup]. by intros ->.
  - intros Hc. unfold parse_external_scope. columns. simpl. destruct ctx as [s|]; [|done]. simpl.
    by rewrite decide_False by by apply Hc.
Qed.

Lemma step_root s sc : scope_ok sc → from_event_step s (scope_tag sc true) =
  Ok (mkSlots (Some sc) (s_root_kind s) (s_root_author s) (s_parent s) (s_parent_kind s) (s_parent_author s)).
Proof.
  intros Hs. pose proof (scope_read sc true Hs) as E. unfold from_event_step.
  destruct sc as [id hint|c hint|v ctx]; cbn [parse_scope scope_tag] in *; rewrite head_with, E; reflexivity.
Qed.
Lemma step_parent s sc : scope_ok sc → from_event_step s (scope_tag sc false) =
  Ok (mkSlots (s_root s) (s_root_kind s) (s_root_author s) (Some sc) (s_parent_kind s) (s_parent_author s)).
Proof.
  intros Hs. pose proof (scope_read sc false Hs) as E. unfold from_event_step.
  destruct sc as [id hint|c hint|v ctx]; cbn [parse_scope scope_tag] in *; rewrite head_with, E; reflexivity.
Qed.
Lemma kind_read h name k : kind_ok k → parse_kind (kind_tag h k) name = Ok k.
Proof. intros Hk. unfold parse_kind, kind_tag. columns. simpl. by rewrite parse_kind_printed. Qed.
Lemma key_read h name pk : PublicKey.valid pk → parse_pubkey (key_tag h pk) name = Ok pk.
Proof. intros Hp. unfold parse_pubkey, key_tag. columns. simpl. by rewrite PublicKey.pk_parse_to_hex. Qed.

Lemma step_root_kind s k : kind_ok k → from_event_step s (kind_tag "K" k) =
  Ok (mkSlots (s_root s) (Some k) (s_root_author s) (s_parent s) (s_parent_kind s) (s_parent_author s)).
Proof.
  intros Hk. unfold from_event_step. rewrite (kind_read _ _ _ Hk).
  by assert (TagKind.as_str (Tag.kind (kind_tag "K" k)) = "K") as -> by apply head_with.
Qed.
Lemma step_parent_kind s k : kind_ok k → from_event_step s (kind_tag "k" k) =
  Ok (mkSlots (s_root s) (s_root_kind s) (s_root_author s) (s_parent s) (Some k) (s_parent_author s)).
Proof.
  intros Hk. unfold from_event_step. rewrite !(kind_read _ _ _ Hk).
  by assert (TagKind.as_str (Tag.kind (kind_tag "k" k)) = "k") as -> by apply head_with.
Qed.
Lemma step_root_author s pk : PublicKey.valid pk → from_event_step s (key_tag "P" pk) =
  Ok (mkSlots (s_root s) (s_root_kind s) (Some pk) (s_parent s) (s_parent_kind s) (s_parent_author s)).
Proof.
  intros Hp. unfold from_event_step. rewrite !(key_read _ _ _ Hp).
  by assert (TagKind.as_str (Tag.kind (key_tag "P" pk)) = "P") as -> by apply head_with.
Qed.
Lemma step_parent_author s pk : PublicKey.valid pk → from_event_step s (key_tag "p" pk) =
  Ok (mkSlots (s_root s) (s_root_kind s) (s_root_author s) (s_parent s) (s_parent_kind s) (Some pk)).
Proof.
  intros Hp. unfold from_event_step. rewrite !(key_read _ _ _ Hp).
  by assert (TagKind.as_str (Tag.kind (key_tag "p" pk)) = "p") as -> by apply head_with.
Qed.

Lemma comment_read_back c : comment_ok c →
  read_tags from_event_step no_slots (to_tags c) =
    Ok (mkSlots (Some (root c)) (root_kind c) (root_author c) (Some (parent c)) (parent_kind c) (parent_author c)).
Proof.
  intros (Hr & Hp & Hrk & Hpk & Hra & Hpa). unfold to_tags. destruct c as [r rk ra p pk pa ct].
  cbn [root root_kind root_author parent parent_kind parent_author] in *.
  destruct rk as [rk|], ra as [ra|], pk as [pk|], pa as [pa|];
    cbn [fmap option_fmap option_map option_list option_rect app read_tags];
    repeat (progress rewrite ?step_root, ?step_parent, ?step_root_kind, ?step_root_author, ?step_parent_kind, ?step_parent_author by
        (first [assumption|apply Hrk; reflexivity|apply Hpk; reflexivity|apply Hra; reflexivity|apply Hpa; reflexivity]);
      cbn [result_bind s_root s_root_kind s_root_author s_parent s_parent_kind s_parent_author no_slots]); reflexivity.
Qed.

Definition slots_ok (s : Slots) : Prop :=
  opt_ok scope_ok (s_root s) ∧ opt_ok scope_ok (s_parent s) ∧ opt_ok kind_ok (s_root_kind s) ∧ opt_ok kind_ok (s_parent_kind s)
  ∧ opt_ok PublicKey.valid (s_root_author s) ∧ opt_ok PublicKey.valid (s_parent_author s).

Lemma parse_event_scope_ok tag sc : parse_event_scope tag = Ok sc → scope_ok sc.
Proof.
  unfold parse_event_scope. intros Hs. invert_ok. simplify_eq. intros r ->.
  edestruct @read_column_Some as (s & Hs & _); [eassumption|]. by eapply RelayUrl.parse_normal.
Qed.
Lemma parse_address_scope_ok tag sc : parse_address_scope tag = Ok sc → scope_ok sc.
Proof.
  unfold parse_address_scope. intros Hs. invert_ok. simplify_eq. split; [by eapply Coordinate.from_str_valid|]. intros r ->.
  edestruct @read_column_Some as (s & Hs & _); [eassumption|]. by eapply RelayUrl.parse_normal.
Qed.
Lemma parse_external_scope_ok tag sc : parse_external_scope tag = Ok sc → scope_ok sc.
Proof.
  unfold parse_external_scope. intros Hs. invert_ok. simplify_eq. intros r. unfold non_empty.
  destruct (Tag.get tag 2); [|done]. case_decide; naive_solver.
Qed.
Lemma parse_kind_ok tag name k : parse_kind tag name = Ok k → kind_ok k.
Proof. unfold parse_kind. intros Hs. invert_ok. by eapply Dec.parse_uint_bound. Qed.
Lemma parse_pubkey_ok tag name pk : parse_pubkey tag name = Ok pk → PublicKey.valid pk.
Proof. unfold parse_pubkey. intros Hs. invert_ok. by eapply PublicKey.parse_valid. Qed.

Lemma opt_ok_Some {A} (P : A → Prop) a : P a → opt_ok P (Some a).
Proof. by intros Ha b [= <-]. Qed.

Lemma step_slots_ok s tag s' : slots_ok s → from_event_step s tag = Ok s' → slots_ok s'.
Proof.
  intros (O1 & O2 & O3 & O4 & O5 & O6). unfold from_event_step. cbv zeta.
  repeat case_decide; intros Hs; invert_ok; simplify_eq; split_and!; simpl; try done; apply opt_ok_Some;
    eauto using parse_event_scope_ok, parse_address_scope_ok, parse_external_scope_ok, parse_kind_ok, parse_pubkey_ok.
Qed.

Lemma from_event_comment_ok e c : from_event e = Ok c → comment_ok c.
Proof.
  unfold from_event. case_decide; [done|]. intros Hf. apply bind_Ok in Hf as (s & Hs & Hf). invert_ok. simplify_eq.
  assert (slots_ok s) as (O1 & O2 & O3 & O4 & O5 & O6).
  { eapply (read_tags_ind from_event_step slots_ok no_slots); [by split_and!| |exact Hs]. intros. by eapply step_slots_ok. }
  split_and!; simpl; auto.
Qed.
End comments.

(** ** Reactions *)

Lemma strip_suffix_app suf s : strip_suffix suf (s +:+ suf) = Some s.
Proof.
  assert (∀ a b : string, String.length (a +:+ b) = (String.length a + String.length b)%nat) as Hlen.
  { induction a as [|c a IH]; intros b; [done|]. change (S (String.length (a +:+ b)) = S (String.length a + String.length b)). by rewrite IH. }
  induction s as [|c s IH].
  - change (EmptyString +:+ suf) with suf. destruct suf as [|d suf]; [done|]. cbn [strip_suffix]. by rewrite decide_True.
  - change (String c s +:+ suf) with (String c (s +:+ suf)). cbn [strip_suffix]. rewrite decide_False; [by rewrite IH|].
    intros E%(f_equal String.length). simpl in E. rewrite Hlen in E. lia.
Qed.
Lemma strip_suffix_Some suf s r : strip_suffix suf s = Some r → s = r +:+ suf.
Proof.
  revert r. induction s as [|c s IH]; intros r; cbn [strip_suffix].
  - case_decide as E; [|done]. intros [= <-]. by rewrite <-E.
  - case_decide as E; [intros [= <-]; by rewrite <-E|]. intros (r' & Hr & ->)%fmap_Some. by rewrite (IH r' Hr).
Qed.

Section reactions.
Context `{FasterHex, !FasterHexLaws, Secp256k1, UrlCrate}.
Import Nip25.

(** The reactions that are what their text is read as. *)
Definition canonical (r : Reaction) : Prop :=
  match r with
  | Like | Dislike => True
  | Emoji s => s ≠ EmptyString ∧ s ≠ LIKE ∧ s ≠ DISLIKE ∧ parse_custom_emoji s = None
  | CustomEmoji c => c ≠ EmptyString ∧ no_char ":" c = true
  end.

Lemma parse_custom_emoji_Some s c :
  parse_custom_emoji s = Some c ↔ s = ":" +:+ c +:+ ":" ∧ c ≠ EmptyString ∧ no_char ":" c = true.
Proof.
  unfold parse_custom_emoji. split.
  - intros (rest & Hr%Text.strip_prefix_Some & Hs)%bind_Some. apply bind_Some in Hs as (st & Hst%strip_suffix_Some & Hc).
    case_decide; [done|]. destruct (no_char ":" st) eqn:En; [|done]. injection Hc as <-. by rewrite Hr, Hst.
  - intros (-> & Hne & Hn). change (":" +:+ c +:+ ":") with (":" +:+ (c +:+ ":")). rewrite Text.strip_prefix_app. simpl.
    rewrite strip_suffix_app. simpl. rewrite decide_False by done. by rewrite Hn.
Qed.

Lemma parse_canonical s : canonical (parse s).
Proof.
  unfold parse. case_decide; [done|]. case_decide; [done|]. destruct (parse_custom_emoji s) as [c|] eqn:E; simpl; [|naive_solver].
  by apply parse_custom_emoji_Some in E as (_ & ? & ?).
Qed.
Lemma parse_content r : canonical r → parse (content r) = r.
Proof.
  destruct r as [| |s|c]; [done|done| |]; simpl; unfold parse.
  - intros (H1' & H2' & H3' & H4'). rewrite !decide_False by naive_solver. by rewrite H4'.
  - intros [Hne Hn]. assert (parse_custom_emoji (":" +:+ c +:+ ":") = Some c) as E by by apply parse_custom_emoji_Some.
    rewrite E. rewrite !decide_False; [done|done|]. intros [? |?]; done.
Qed.
Lemma content_parse s : content (parse s) = if decide (s = EmptyString) then LIKE else s.
Proof.
  unfold parse. case_decide as H1'; [destruct H1' as [-> | ->]; done|]. rewrite (decide_False (P := s = EmptyString)) by tauto.
  case_decide as H2'; [by subst|]. destruct (parse_custom_emoji s) as [c|] eqn:E; [|done].
  by apply parse_custom_emoji_Some in E as (-> & _).
Qed.

(** The tags of a reaction. *)
Definition reaction_tags (t : ReactionTarget) : list Tag :=
  [reaction_e_tag t; reaction_p_tag t] ++ option_list (Tag.k <$> kind t)
     ++ option_list ((λ c, reaction_a_tag c (relay_hint t)) <$> coordinate t).

Lemma letter_values_app l l' a : letter_values (l ++ l') a = letter_values l a ++ letter_values l' a.
Proof. apply omap_app. Qed.

(** The first column of every tag of the letter. *)
Lemma reaction_values t :
  letter_values (reaction_tags t) Alphabet.E = [EventId.to_hex (event_id t)]
  ∧ letter_values (reaction_tags t) Alphabet.P = [PublicKey.to_hex (author t)]
  ∧ letter_values (reaction_tags t) Alphabet.K = option_list (Dec.to_string <$> kind t)
  ∧ letter_values (reaction_tags t) Alphabet.A = option_list (Coordinate.to_wire <$> coordinate t).
Proof.
  assert (∀ a args, Tag.kind (Tag.mk (TagKind.as_str (Tag.lower a) :: args)) = Tag.lower a) as Hk
    by (intros; apply Tag.kind_with_lower).
  unfold reaction_tags, reaction_e_tag, reaction_p_tag, reaction_a_tag, letter_values.
  destruct t as [id pk k c r]. simpl. unfold Tag.p, Tag.p_with_relay, Tag.k, tag_a, tag_a_with_relay, Tag.with_.
  destruct r as [r|], k as [k|], c as [c|]; simpl; rewrite ?Hk; simpl; rewrite ?Hk; split_and!; reflexivity.
Qed.
End reactions.

(** ** What is read from a signed event *)

Section read_back.
Context `{FasterHex, !FasterHexLaws, Secp256k1, EventCrypto, UrlCrate, !UrlCrateLaws, !UrlNotEmpty}.
Context `{SerdeJson, !SerdeJsonLaws, SigSerde, !SigSerdeLaws, JsonText, !JsonEvents}.

(** A thread reads back from the note that carries it.  Whatever note is read, the
    hints of its references are addresses and keys.  References without a marker
    get the one their position says, the first the root, the last of several the
    reply, those between a mention; nothing else changes. *)
Theorem thread_round_trip clock content c keys e :
  EventBuilder.sign_with_keys clock (Nip10.note_with_context content c) keys = Ok e → context_ok c →
  Nip10.from_event e = c
  ∧ (∀ e', context_ok (Nip10.from_event e'))
  ∧ Nip10.events (Nip10.infer_legacy_markers c) = imap (placed (Nip10.events c)) (Nip10.events c)
  ∧ Nip10.mentioned_pubkeys (Nip10.infer_legacy_markers c) = Nip10.mentioned_pubkeys c.
Proof.
  intros (Hk & Hc & Ht & _)%signed_add_tags Hok. split_and!; [|apply from_event_context_ok|apply infer_placed|done].
  unfold Nip10.from_event. rewrite Ht. by apply context_read_back.
Qed.

(** A comment reads back from the event that carries it, and what is read from any
    event is such a comment. *)
Theorem comment_round_trip clock c keys e :
  EventBuilder.sign_with_keys clock (Nip22.comment c) keys = Ok e → comment_ok c →
  Nip22.from_event e = Ok c ∧ ∀ e' c', Nip22.from_event e' = Ok c' → comment_ok c'.
Proof.
  intros (Hk & Hc & Ht & _)%signed_add_tags Hok. split; [|apply from_event_comment_ok].
  unfold Nip22.from_event. rewrite Hk, Ht, Hc, decide_False by by intros []. rewrite comment_read_back by done. by destruct c.
Qed.

(** A reaction's target and text read back from its event, also when tags of a
    thread come before its own; the text of a reaction is read as the reaction,
    and every text but the empty one is the text of what it is read as. *)
Theorem reaction_round_trip clock t r keys e before :
  EventBuilder.sign_with_keys clock (Nip25.reaction t r) keys = Ok e → PublicKey.valid (Nip25.author t) →
  opt_ok kind_ok (Nip25.kind t) →
  Nip25.target_event_id (before ++ Event.tags e) = Some (Nip25.event_id t)
  ∧ Nip25.target_pubkey (before ++ Event.tags e) = Some (Nip25.author t)
  ∧ Nip25.target_kind (Event.tags e) = Nip25.kind t
  ∧ (canonical r → Nip25.parse (Event.content e) = r)
  ∧ ∀ s, canonical (Nip25.parse s) ∧ Nip25.content (Nip25.parse s) = if decide (s = EmptyString) then Nip25.LIKE else s.
Proof.
  intros (Hk & Hc & Ht & _)%signed_foldl Hv Hkd. fold (reaction_tags t) in Ht. rewrite Ht, Hc.
  destruct (reaction_values t) as (Ee & Ep & Ek & _).
  unfold Nip25.target_event_id, Nip25.target_pubkey, Nip25.target_kind, Nip25.last_single_letter_value, Nip25.first_single_letter_value.
  rewrite !letter_values_app, Ee, Ep, Ek, !last_snoc. simpl. rewrite EventId.parse_to_hex, PublicKey.pk_parse_to_hex by done.
  split_and!; [done|done| |apply parse_content|split; [apply parse_canonical|apply content_parse]].
  destruct (Nip25.kind t) as [k|] eqn:E; [|done]. simpl. apply parse_kind_printed. by apply Hkd.
Qed.

(** *** Reposts *)

Lemma first_value_cons a args tags b :
  Nip18.first_value (Tag.with_ (Tag.lower a) args :: tags) b =
    if decide (a = b) then head args else Nip18.first_value tags b.
Proof.
  cbn [Nip18.first_value]. rewrite Tag.kind_with_lower.
  destruct (decide (a = b)) as [-> |Hne]; [by rewrite decide_True; [destruct args|]|]. rewrite decide_False; [done|]. by intros [=].
Qed.

(** What a repost carries is the event, unless it is protected or (in a generic
    repost) addressable, and its tags name the event and its author.  Only text
    notes get the older kind. *)
Theorem repost_round_trip clock target relay keys :
  EventJson.json_ok target →
  (∀ b e, Nip18.repost target relay = Ok b → EventBuilder.sign_with_keys clock b keys = Ok e →
     Event.kind target = Kind.TEXT_NOTE
     ∧ Nip18.reposted_event_id (Event.tags e) = Some (Event.id target)
     ∧ Nip18.reposted_event_pubkey (Event.tags e) = Some (Event.pubkey target)
     ∧ (Nip70.is_protected target = false → from_json EventJson.deserialize (Event.content e) = Ok target)
     ∧ (Nip70.is_protected target = true → Event.content e = EmptyString))
  ∧ (∀ e, EventBuilder.sign_with_keys clock (Nip18.generic_repost target relay) keys = Ok e →
     Nip18.reposted_event_id (Event.tags e) = Some (Event.id target)
     ∧ Nip18.reposted_event_pubkey (Event.tags e) = Some (Event.pubkey target)
     ∧ Nip18.reposted_event_kind (Event.tags e) = Some (Event.kind target)
     ∧ Nip18.reposted_event_coordinate (Event.tags e) = Nip25.own_coordinate target
     ∧ (Nip25.own_coordinate target = None → Nip70.is_protected target = false → from_json EventJson.deserialize (Event.content e) = Ok target)).
Proof.
  intros Hok. pose proof Hok as (Hv & (_ & Hkd & _) & _).
  assert (from_json EventJson.deserialize (Nip18.event_json target) = Ok target) as Hj.
  { unfold from_json, Nip18.event_json. rewrite reads_event by done. cbn [result_bind]. by rewrite event_json_round. }
  split.
  - intros b e. unfold Nip18.repost. case_decide as Hk; [done|]. intros [= <-] (_ & Hc & Ht & _)%signed_parts.
    simpl in Hc, Ht. rewrite Ht, Hc. split; [done|]. unfold Nip18.reposted_event_id, Nip18.reposted_event_pubkey, Nip18.repost_e_tag, Tag.p_with_relay.
    rewrite !first_value_cons. simpl. rewrite EventId.parse_to_hex, PublicKey.pk_parse_to_hex by done.
    split_and!; [done|done|by intros ->|by intros ->].
  - intros e (_ & Hc & Ht & _)%signed_foldl.
    unfold Nip18.reposted_event_id, Nip18.reposted_event_pubkey, Nip18.reposted_event_kind, Nip18.reposted_event_coordinate.
    assert (Nip25.first_single_letter_value (Event.tags e) Alphabet.A = Coordinate.to_wire <$> Nip25.own_coordinate target) as Ea.
    { rewrite Ht. unfold Nip25.first_single_letter_value, Nip25.letter_values, Nip18.repost_e_tag, Tag.p_with_relay, Tag.k, tag_a_with_relay.
      cbn [app omap list_omap]. rewrite !Tag.kind_with_lower. destruct (Nip25.own_coordinate target) as [c|]; [|reflexivity]. cbn [fmap option_fmap option_map option_list option_rect omap list_omap]. rewrite Tag.kind_with_lower. reflexivity. }
    rewrite Ea. assert ((Coordinate.to_wire <$> Nip25.own_coordinate target) ≫= (λ v, result_ok (Coordinate.parse v)) = Nip25.own_coordinate target) as ->.
    { unfold Nip25.own_coordinate. destruct (Kind.is_addressable _); [|done]. destruct (Nip25.find_d_tag _); [|done].
      simpl. by rewrite coordinate_printed. }
    rewrite Ht, Hc. unfold Nip18.repost_e_tag, Tag.p_with_relay, Tag.k. cbn [app]. rewrite !first_value_cons. simpl.
    rewrite EventId.parse_to_hex, PublicKey.pk_parse_to_hex by done. split_and!; [done|done|by apply parse_kind_printed|done|].
    by intros -> ->.
Qed.
End read_back.
