(* ===== verification/Zaps.v ===== *)
(** * Lightning zaps

    [nula-core/src/nips/nip57.rs]: the request a payer signs, the receipt the
    payment's provider publishes, the checks a provider makes, and the tags that
    split a payment. *)

From Stdlib Require Import Ascii NArith Lia.
From S2P Require Import Prelude Encoding Text Ids Tags Event Nips FilterWire Message HttpAuth TagReader GiftWrap.

Module Nip57.

Definition KIND_ZAP_REQUEST : Kind := 9734.
Definition KIND_ZAP_RECEIPT : Kind := 9735.

Definition RELAYS : string := "relays".
Definition AMOUNT : string := "amount".
Definition LNURL : string := "lnurl".
Definition BOLT11 : string := "bolt11".
Definition DESCRIPTION : string := "description".
Definition PREIMAGE : string := "preimage".
Definition ZAP : string := "zap".

Inductive ZapError :=
| WrongKind (k : Kind)
| MissingRecipient
| MissingBolt11
| MissingDescription
| MalformedRecipient
| MalformedSender
| MalformedEventTarget
| MalformedAddressTarget
| InvalidKindTag
| InvalidAmount (s : string)
| InvalidWeight (s : string)
| InvalidPublicKey (e : PublicKey.Error)
| InvalidEventId (e : EventId.Error)
| InvalidCoordinate (e : Coordinate.Error)
| InvalidRelayUrl (e : RelayUrl.Error)
| DescriptionParse (e : string)
| NotZapSplitTag.

Inductive ZapValidationError :=
| MissingTags
| WrongPCount (n : nat)
| TooManyECount (n : nat)
| AmountMismatch (expected actual : N).

Definition custom_tag (name : string) (args : list string) : Tag := Tag.with_ (TagKind.from_wire name) args.
Definition letter_tag (a : Alphabet.t) (args : list string) : Tag := Tag.with_ (Tag.lower a) args.
Definition upper (a : Alphabet.t) : TagKind := TagKind.single_letter (SingleLetterTag.uppercase a).
Definition letter_tag_uppercase (a : Alphabet.t) (args : list string) : Tag := Tag.with_ (upper a) args.

Section nip57.
Context `{FasterHex, Secp256k1, SerdeJson, SigSerde, JsonText, UrlCrate}.

(** ** Requests *)

Record ZapRequest := mkRequest {
  recipient : PublicKey;
  relays : list RelayUrl;
  amount_msats : option N;
  lnurl : option string;
  event_target : option EventId;
  address_target : option Coordinate;
  kind_target : option Kind;
  message : string;
}.
Definition request_new (recipient : PublicKey) (relays : list RelayUrl) : ZapRequest :=
  mkRequest recipient relays None None None None None EmptyString.
Definition with_amount_msats (r : ZapRequest) (amount : N) : ZapRequest :=
  mkRequest (recipient r) (relays r) (Some amount) (lnurl r) (event_target r) (address_target r) (kind_target r) (message r).
Definition with_lnurl (r : ZapRequest) (l : string) : ZapRequest :=
  mkRequest (recipient r) (relays r) (amount_msats r) (Some l) (event_target r) (address_target r) (kind_target r) (message r).
Definition with_event_target (r : ZapRequest) (id : EventId) : ZapRequest :=
  mkRequest (recipient r) (relays r) (amount_msats r) (lnurl r) (Some id) (address_target r) (kind_target r) (message r).
Definition with_address_target (r : ZapRequest) (c : Coordinate) : ZapRequest :=
  mkRequest (recipient r) (relays r) (amount_msats r) (lnurl r) (event_target r) (Some c) (kind_target r) (message r).
Definition with_kind_target (r : ZapRequest) (k : Kind) : ZapRequest :=
  mkRequest (recipient r) (relays r) (amount_msats r) (lnurl r) (event_target r) (address_target r) (Some k) (message r).
Definition with_message (r : ZapRequest) (m : string) : ZapRequest :=
  mkRequest (recipient r) (relays r) (amount_msats r) (lnurl r) (event_target r) (address_target r) (kind_target r) m.

Definition request_to_tags (r : ZapRequest) : list Tag :=
  (if decide (relays r = []) then [] else [custom_tag RELAYS (RelayUrl.as_str <$> relays r)])
  ++ option_list ((λ a, custom_tag AMOUNT [Dec.to_string a]) <$> amount_msats r)
  ++ option_list ((λ l, custom_tag LNURL [l]) <$> lnurl r)
  ++ [letter_tag Alphabet.P [PublicKey.to_hex (recipient r)]]
  ++ option_list ((λ i, letter_tag Alphabet.E [EventId.to_hex i]) <$> event_target r)
  ++ option_list ((λ c, letter_tag Alphabet.A [Coordinate.to_wire c]) <$> address_target r)
  ++ option_list ((λ k, letter_tag Alphabet.K [Dec.to_string k]) <$> kind_target r).

(** [EventBuilder::zap_request]. *)
Definition zap_request (r : ZapRequest) : EventBuilder :=
  foldl EventBuilder.add_tag (EventBuilder.new KIND_ZAP_REQUEST (message r)) (request_to_tags r).

Definition read_key (tag : Tag) (missing : ZapError) : result PublicKey ZapError :=
  let? hex := ok_or (Tag.get tag 1) missing in map_err InvalidPublicKey (PublicKey.parse hex).
Definition read_event_target (tag : Tag) : result EventId ZapError :=
  let? hex := ok_or (Tag.get tag 1) MalformedEventTarget in map_err InvalidEventId (EventId.parse hex).
Definition read_address_target (tag : Tag) : result Coordinate ZapError :=
  let? s := ok_or (Tag.get tag 1) MalformedAddressTarget in map_err InvalidCoordinate (Coordinate.parse s).
Definition parse_kind_tag (tag : Tag) (target : option Kind) : result (option Kind) ZapError :=
  match Tag.get tag 1 with
  | None => Ok target
  | Some k => let? k := ok_or (Dec.parse_u16 k) InvalidKindTag in Ok (Some k)
  end.
Fixpoint parse_relays (relays : list RelayUrl) (values : list string) : result (list RelayUrl) ZapError :=
  match values with
  | [] => Ok relays
  | v :: values => let? url := map_err InvalidRelayUrl (RelayUrl.parse v) in parse_relays (relays ++ [url]) values
  end.
Definition parse_relays_tag (tag : Tag) (relays : list RelayUrl) : result (list RelayUrl) ZapError :=
  parse_relays relays (drop 1 (Tag.values tag)).
Definition parse_amount_tag (tag : Tag) (target : option N) : result (option N) ZapError :=
  match Tag.get tag 1 with
  | None => Ok target
  | Some a => let? n := ok_or (Dec.parse_u64 a) (InvalidAmount a) in Ok (Some n)
  end.

(** What the loop has read. *)
Record RequestSlots := mkRequestSlots {
  q_recipient : option PublicKey; q_relays : list RelayUrl; q_amount : option N; q_lnurl : option string;
  q_event : option EventId; q_address : option Coordinate; q_kind : option Kind;
}.
Definition no_request : RequestSlots := mkRequestSlots None [] None None None None None.
Definition request_step (s : RequestSlots) (tag : Tag) : result RequestSlots ZapError :=
  let '(mkRequestSlots rc rs am ln ev ad kd) := s in
  if decide (Tag.kind tag = Tag.lower Alphabet.P) then
    let? pk := read_key tag MalformedRecipient in Ok (mkRequestSlots (Some pk) rs am ln ev ad kd)
  else if decide (Tag.kind tag = Tag.lower Alphabet.E) then
    let? i := read_event_target tag in Ok (mkRequestSlots rc rs am ln (Some i) ad kd)
  else if decide (Tag.kind tag = Tag.lower Alphabet.A) then
    let? c := read_address_target tag in Ok (mkRequestSlots rc rs am ln ev (Some c) kd)
  else if decide (Tag.kind tag = Tag.lower Alphabet.K) then
    let? k := parse_kind_tag tag kd in Ok (mkRequestSlots rc rs am ln ev ad k)
  else if decide (Tag.name tag = RELAYS) then
    let? rs := parse_relays_tag tag rs in Ok (mkRequestSlots rc rs am ln ev ad kd)
  else if decide (Tag.name tag = AMOUNT) then
    let? am := parse_amount_tag tag am in Ok (mkRequestSlots rc rs am ln ev ad kd)
  else if decide (Tag.name tag = LNURL) then Ok (mkRequestSlots rc rs am (Tag.get tag 1) ev ad kd)
  else Ok s.
Definition from_tags_and_content (tags : list Tag) (content : string) : result ZapRequest ZapError :=
  let? s := read_tags request_step no_request tags in
  let? rc := ok_or (q_recipient s) MissingRecipient in
  Ok (mkRequest rc (q_relays s) (q_amount s) (q_lnurl s) (q_event s) (q_address s) (q_kind s) content).
Definition request_from_event (e : Event) : result ZapRequest ZapError :=
  if decide (Event.kind e ≠ KIND_ZAP_REQUEST) then Err (WrongKind (Event.kind e))
  else from_tags_and_content (Event.tags e) (Event.content e).

Definition count_lowercase_letter (tags : list Tag) (letter : Alphabet.t) : nat :=
  length (filter (λ t, Tag.kind t = Tag.lower letter) tags).
Definition validate (r : ZapRequest) (raw_tags : list Tag) (expected : option N) : result unit ZapValidationError :=
  if decide (raw_tags = []) then Err MissingTags
  else
    let p_count := count_lowercase_letter raw_tags Alphabet.P in
    if decide (p_count ≠ 1%nat) then Err (WrongPCount p_count)
    else
      let e_count := count_lowercase_letter raw_tags Alphabet.E in
      if decide (1 < e_count)%nat then Err (TooManyECount e_count)
      else match expected, amount_msats r with
           | Some expected, Some actual => if decide (expected ≠ actual) then Err (AmountMismatch expected actual) else Ok tt
           | _, _ => Ok tt
           end.

(** ** Receipts *)

Record ZapReceipt := mkReceipt {
  rc_recipient : PublicKey;
  sender : option PublicKey;
  rc_event_target : option EventId;
  rc_address_target : option Coordinate;
  rc_kind_target : option Kind;
  bolt11 : string;
  description : string;
  preimage : option string;
}.
Definition receipt_new (recipient : PublicKey) (bolt11 description : string) : ZapReceipt :=
  mkReceipt recipient None None None None bolt11 description None.
Definition rc_with_sender (r : ZapReceipt) (pk : PublicKey) : ZapReceipt :=
  mkReceipt (rc_recipient r) (Some pk) (rc_event_target r) (rc_address_target r) (rc_kind_target r) (bolt11 r) (description r) (preimage r).
Definition rc_with_event_target (r : ZapReceipt) (id : EventId) : ZapReceipt :=
  mkReceipt (rc_recipient r) (sender r) (Some id) (rc_address_target r) (rc_kind_target r) (bolt11 r) (description r) (preimage r).
Definition rc_with_address_target (r : ZapReceipt) (c : Coordinate) : ZapReceipt :=
  mkReceipt (rc_recipient r) (sender r) (rc_event_target r) (Some c) (rc_kind_target r) (bolt11 r) (description r) (preimage r).
Definition rc_with_kind_target (r : ZapReceipt) (k : Kind) : ZapReceipt :=
  mkReceipt (rc_recipient r) (sender r) (rc_event_target r) (rc_address_target r) (Some k) (bolt11 r) (description r) (preimage r).
Definition rc_with_preimage (r : ZapReceipt) (p : string) : ZapReceipt :=
  mkReceipt (rc_recipient r) (sender r) (rc_event_target r) (rc_address_target r) (rc_kind_target r) (bolt11 r) (description r) (Some p).

Definition receipt_to_tags (r : ZapReceipt) : list Tag :=
  [letter_tag Alphabet.P [PublicKey.to_hex (rc_recipient r)]]
  ++ option_list ((λ pk, letter_tag_uppercase Alphabet.P [PublicKey.to_hex pk]) <$> sender r)
  ++ option_list ((λ i, letter_tag Alphabet.E [EventId.to_hex i]) <$> rc_event_target r)
  ++ option_list ((λ c, letter_tag Alphabet.A [Coordinate.to_wire c]) <$> rc_address_target r)
  ++ option_list ((λ k, letter_tag Alphabet.K [Dec.to_string k]) <$> rc_kind_target r)
  ++ [custom_tag BOLT11 [bolt11 r]; custom_tag DESCRIPTION [description r]]
  ++ option_list ((λ p, custom_tag PREIMAGE [p]) <$> preimage r).

(** [EventBuilder::zap_receipt]. *)
Definition zap_receipt (r : ZapReceipt) : EventBuilder :=
  foldl EventBuilder.add_tag (EventBuilder.new KIND_ZAP_RECEIPT EmptyString) (receipt_to_tags r).

Record ReceiptSlots := mkReceiptSlots {
  t_recipient : option PublicKey; t_sender : option PublicKey; t_event : option EventId; t_address : option Coordinate;
  t_kind : option Kind; t_bolt11 : option string; t_description : option string; t_preimage : option string;
}.
Definition no_receipt : ReceiptSlots := mkReceiptSlots None None None None None None None None.
Definition receipt_step (s : ReceiptSlots) (tag : Tag) : result ReceiptSlots ZapError :=
  let '(mkReceiptSlots rc sd ev ad kd bo de pr) := s in
  if decide (Tag.kind tag = Tag.lower Alphabet.P) then
    let? pk := read_key tag MalformedRecipient in Ok (mkReceiptSlots (Some pk) sd ev ad kd bo de pr)
  else if decide (Tag.kind tag = upper Alphabet.P) then
    let? pk := read_key tag MalformedSender in Ok (mkReceiptSlots rc (Some pk) ev ad kd bo de pr)
  else if decide (Tag.kind tag = Tag.lower Alphabet.E) then
    let? i := read_event_target tag in Ok (mkReceiptSlots rc sd (Some i) ad kd bo de pr)
  else if decide (Tag.kind tag = Tag.lower Alphabet.A) then
    let? c := read_address_target tag in Ok (mkReceiptSlots rc sd ev (Some c) kd bo de pr)
  else if decide (Tag.kind tag = Tag.lower Alphabet.K) then
    let? k := parse_kind_tag tag kd in Ok (mkReceiptSlots rc sd ev ad k bo de pr)
  else if decide (Tag.name tag = BOLT11) then Ok (mkReceiptSlots rc sd ev ad kd (Tag.get tag 1) de pr)
  else if decide (Tag.name tag = DESCRIPTION) then Ok (mkReceiptSlots rc sd ev ad kd bo (Tag.get tag 1) pr)
  else if decide (Tag.name tag = PREIMAGE) then Ok (mkReceiptSlots rc sd ev ad kd bo de (Tag.get tag 1))
  else Ok s.
Definition receipt_from_event (e : Event) : result ZapReceipt ZapError :=
  if decide (Event.kind e ≠ KIND_ZAP_RECEIPT) then Err (WrongKind (Event.kind e))
  else
    let? s := read_tags receipt_step no_receipt (Event.tags e) in
    let? rc := ok_or (t_recipient s) MissingRecipient in
    let? bo := ok_or (t_bolt11 s) MissingBolt11 in
    let? de := ok_or (t_description s) MissingDescription in
    Ok (mkReceipt rc (t_sender s) (t_event s) (t_address s) (t_kind s) bo de (t_preimage s)).

Definition description_request (r : ZapReceipt) : result (Event * ZapRequest) ZapError :=
  let? e := map_err DescriptionParse (from_json EventJson.deserialize (description r)) in
  let? q := request_from_event e in Ok (e, q).

(** ** Splits *)

Record ZapSplitTarget := mkSplit { pubkey : PublicKey; relay : option RelayUrl; weight : option N }.
Definition split_new (pk : PublicKey) : ZapSplitTarget := mkSplit pk None None.
Definition split_relay (t : ZapSplitTarget) (r : RelayUrl) : ZapSplitTarget := mkSplit (pubkey t) (Some r) (weight t).
Definition split_weight (t : ZapSplitTarget) (w : N) : ZapSplitTarget := mkSplit (pubkey t) (relay t) (Some w).

Definition split_to_tag (t : ZapSplitTarget) : Tag :=
  custom_tag ZAP
    (PublicKey.to_hex (pubkey t) ::
     match relay t, weight t with
     | Some r, Some w => [RelayUrl.as_str r; Dec.to_string w]
     | Some r, None => [RelayUrl.as_str r]
     | None, Some w => [EmptyString; Dec.to_string w]
     | None, None => []
     end).
Definition parse_weight (s : string) : result N string := ok_or (Dec.parse_u64 s) s.
Definition split_from_tag (tag : Tag) : result ZapSplitTarget ZapError :=
  if decide (Tag.name tag ≠ ZAP) then Err NotZapSplitTag
  else
    let? pk := read_key tag MalformedRecipient in
    let? r := read_column RelayUrl.parse InvalidRelayUrl (Tag.get tag 2) in
    let? w := read_column parse_weight InvalidWeight (Tag.get tag 3) in
    Ok (mkSplit pk r w).
Fixpoint parse_split_tags (out : list ZapSplitTarget) (tags : list Tag) : result (list ZapSplitTarget) ZapError :=
  match tags with
  | [] => Ok out
  | tag :: tags =>
      if decide (Tag.name tag = ZAP) then let? t := split_from_tag tag in parse_split_tags (out ++ [t]) tags
      else parse_split_tags out tags
  end.
Definition parse_zap_split_targets (e : Event) : result (list ZapSplitTarget) ZapError :=
  parse_split_tags [] (Event.tags e).
End nip57.
End Nip57.
