(* ===== verification/ZapTheorems.v ===== *)
(** * Theorems about zaps *)

From Stdlib Require Import Ascii NArith Lia.
From S2P Require Import Prelude Encoding Text Ids Tags Event Nips FilterWire Message HttpAuth TagReader GiftWrap GiftWrapProofs Zaps.
From S2P Require Import Filter Storage Samples RelaySamples Client ClientSamples GiftWrapSamples.
Import Nip57.

Section zaps.
Context `{FasterHex, !FasterHexLaws, Secp256k1, EventCrypto, !EventCryptoLaws, UrlCrate, !UrlCrateLaws, !UrlNotEmpty}.
Context `{SerdeJson, !SerdeJsonLaws, SigSerde, !SigSerdeLaws, JsonText, !JsonEvents}.

Definition request_ok (r : ZapRequest) : Prop :=
  PublicKey.valid (recipient r) ∧ Forall RelayUrl.normal (relays r) ∧ opt_ok (λ a, a <= Dec.u64_max)%N (amount_msats r)
  ∧ opt_ok coordinate_wf (address_target r) ∧ opt_ok kind_ok (kind_target r).
Definition receipt_ok (r : ZapReceipt) : Prop :=
  PublicKey.valid (rc_recipient r) ∧ opt_ok PublicKey.valid (sender r)
  ∧ opt_ok coordinate_wf (rc_address_target r) ∧ opt_ok kind_ok (rc_kind_target r).
Definition split_ok (t : ZapSplitTarget) : Prop :=
  PublicKey.valid (pubkey t) ∧ opt_ok RelayUrl.normal (relay t) ∧ opt_ok (λ w, w <= Dec.u64_max)%N (weight t).

(** *** Heads and columns *)

Lemma custom_kind n args : Tag.kind (custom_tag n args) = TagKind.from_wire n.
Proof. apply Tag.kind_with_from_wire. Qed.
Lemma custom_name n args : Tag.name (custom_tag n args) = n.
Proof. unfold Tag.name, custom_tag, Tag.with_. simpl. apply TagKind.as_str_from_wire. Qed.
Lemma letter_kind a args : Tag.kind (letter_tag a args) = Tag.lower a.
Proof. apply Tag.kind_with_lower. Qed.
Lemma upper_kind a args : Tag.kind (letter_tag_uppercase a args) = upper a.
Proof. unfold Tag.kind, Tag.name. simpl. by destruct a. Qed.

Lemma key_column a b missing pk : PublicKey.valid pk →
  read_key (Tag.with_ a (PublicKey.to_hex pk :: b)) missing = Ok pk.
Proof. intros Hv. unfold read_key. columns. simpl. by rewrite PublicKey.pk_parse_to_hex. Qed.
Lemma event_column a i : read_event_target (Tag.with_ a [EventId.to_hex i]) = Ok i.
Proof. unfold read_event_target. columns. simpl. by rewrite EventId.parse_to_hex. Qed.
Lemma address_column a c : coordinate_wf c → read_address_target (Tag.with_ a [Coordinate.to_wire c]) = Ok c.
Proof. intros Hc. unfold read_address_target. columns. simpl. by rewrite coordinate_printed. Qed.
Lemma kind_column a k o : kind_ok k → parse_kind_tag (Tag.with_ a [Dec.to_string k]) o = Ok (Some k).
Proof. intros Hk. unfold parse_kind_tag. columns. simpl. by rewrite parse_kind_printed. Qed.
Lemma amount_column a n o : (n <= Dec.u64_max)%N → parse_amount_tag (Tag.with_ a [Dec.to_string n]) o = Ok (Some n).
Proof. intros Hn. unfold parse_amount_tag. columns. simpl. unfold Dec.parse_u64. by rewrite Dec.parse_to_string. Qed.
Lemma relays_column l rs : Forall RelayUrl.normal rs → parse_relays l (RelayUrl.as_str <$> rs) = Ok (l ++ rs).
Proof.
  intros Hr. revert l. induction Hr as [|r rs Hr _ IH]; intros l; simpl; [by rewrite app_nil_r|].
  rewrite RelayUrl.parse_as_str by done. simpl. rewrite IH. by rewrite <-app_assoc.
Qed.

(** *** Requests *)

Lemma step_relays rc rs am ln ev ad kd l : Forall RelayUrl.normal l →
  request_step (mkRequestSlots rc rs am ln ev ad kd) (custom_tag RELAYS (RelayUrl.as_str <$> l)) = Ok (mkRequestSlots rc (rs ++ l) am ln ev ad kd).
Proof.
  intros Hl. unfold request_step. rewrite custom_kind, custom_name.
  assert (parse_relays_tag (custom_tag RELAYS (RelayUrl.as_str <$> l)) rs = Ok (rs ++ l)) as -> by by apply relays_column.
  reflexivity.
Qed.
Lemma step_amount rc rs am ln ev ad kd a : (a <= Dec.u64_max)%N →
  request_step (mkRequestSlots rc rs am ln ev ad kd) (custom_tag AMOUNT [Dec.to_string a]) = Ok (mkRequestSlots rc rs (Some a) ln ev ad kd).
Proof. intros Ha. unfold request_step. rewrite custom_kind, custom_name. unfold custom_tag. rewrite (amount_column _ _ am Ha). reflexivity. Qed.
Lemma step_lnurl rc rs am ln ev ad kd l :
  request_step (mkRequestSlots rc rs am ln ev ad kd) (custom_tag LNURL [l]) = Ok (mkRequestSlots rc rs am (Some l) ev ad kd).
Proof. unfold request_step. rewrite custom_kind, custom_name. reflexivity. Qed.
Lemma step_recipient rc rs am ln ev ad kd pk : PublicKey.valid pk →
  request_step (mkRequestSlots rc rs am ln ev ad kd) (letter_tag Alphabet.P [PublicKey.to_hex pk]) = Ok (mkRequestSlots (Some pk) rs am ln ev ad kd).
Proof. intros Hv. unfold request_step. rewrite letter_kind. unfold letter_tag. rewrite (key_column _ _ _ _ Hv). reflexivity. Qed.
Lemma step_event rc rs am ln ev ad kd i :
  request_step (mkRequestSlots rc rs am ln ev ad kd) (letter_tag Alphabet.E [EventId.to_hex i]) = Ok (mkRequestSlots rc rs am ln (Some i) ad kd).
Proof. unfold request_step. rewrite letter_kind. unfold letter_tag. rewrite event_column. reflexivity. Qed.
Lemma step_address rc rs am ln ev ad kd c : coordinate_wf c →
  request_step (mkRequestSlots rc rs am ln ev ad kd) (letter_tag Alphabet.A [Coordinate.to_wire c]) = Ok (mkRequestSlots rc rs am ln ev (Some c) kd).
Proof. intros Hc. unfold request_step. rewrite letter_kind. unfold letter_tag. rewrite (address_column _ _ Hc). reflexivity. Qed.
Lemma step_kind rc rs am ln ev ad kd k : kind_ok k →
  request_step (mkRequestSlots rc rs am ln ev ad kd) (letter_tag Alphabet.K [Dec.to_string k]) = Ok (mkRequestSlots rc rs am ln ev ad (Some k)).
Proof. intros Hk. unfold request_step. rewrite letter_kind. unfold letter_tag. rewrite (kind_column _ _ kd Hk). reflexivity. Qed.

(** One tag after the other; the side conditions are in the context. *)
Ltac walk lemmas :=
  cbn [fmap option_fmap option_map option_list option_rect app read_tags];
  repeat (progress lemmas; cbn [result_bind]); try reflexivity.

Lemma request_read_back r : request_ok r →
  read_tags request_step no_request (request_to_tags r) =
    Ok (mkRequestSlots (Some (recipient r)) (relays r) (amount_msats r) (lnurl r) (event_target r) (address_target r) (kind_target r)).
Proof.
  intros (Hp & Hr & Ha & Hc & Hk). destruct r as [rc rs am ln ev ad kd m]. unfold request_to_tags.
  cbn [recipient relays amount_msats lnurl event_target address_target kind_target] in *.
  rewrite read_tags_app. assert (read_tags request_step no_request (if decide (rs = []) then [] else [custom_tag RELAYS (RelayUrl.as_str <$> rs)])
    = Ok (mkRequestSlots None rs None None None None None)) as ->.
  { case_decide as E; [by rewrite E|]. cbn [read_tags]. unfold no_request. by rewrite step_relays. }
  cbn [result_bind]. destruct am as [am|], ln as [ln|], ev as [ev|], ad as [ad|], kd as [kd|];
    walk ltac:(rewrite ?step_amount, ?step_lnurl, ?step_recipient, ?step_event, ?step_address, ?step_kind by
      (first [assumption|apply Ha; reflexivity|apply Hc; reflexivity|apply Hk; reflexivity])).
Qed.

Lemma count_app l l' a : count_lowercase_letter (l ++ l') a = (count_lowercase_letter l a + count_lowercase_letter l' a)%nat.
Proof. unfold count_lowercase_letter. by rewrite filter_app, length_app. Qed.
Lemma count_option {A} (f : A → Tag) o a :
  count_lowercase_letter (option_list (f <$> o)) a =
    match o with Some x => if decide (Tag.kind (f x) = Tag.lower a) then 1%nat else 0%nat | None => 0%nat end.
Proof. unfold count_lowercase_letter. destruct o as [x|]; [|done]. cbn [fmap option_fmap option_map option_list option_rect]. rewrite filter_cons. by case_decide. Qed.

Lemma request_counts r :
  count_lowercase_letter (request_to_tags r) Alphabet.P = 1%nat
  ∧ (count_lowercase_letter (request_to_tags r) Alphabet.E ≤ 1)%nat.
Proof.
  unfold request_to_tags. rewrite !count_app, !count_option.
  destruct r as [rc rs am ln ev ad kd m]; simpl. destruct (decide (rs = [])), am, ln, ev, ad, kd; vm_compute; lia.
Qed.

Lemma validate_spec r tags expected :
  validate r tags expected = Ok tt ↔
    count_lowercase_letter tags Alphabet.P = 1%nat ∧ (count_lowercase_letter tags Alphabet.E ≤ 1)%nat
    ∧ ∀ x a, expected = Some x → amount_msats r = Some a → x = a.
Proof.
  unfold validate. case_decide as Ht; [subst; split; [done|by intros (? & _)]|].
  case_decide as Hp; [split; [done|by intros (? & _)]|]. case_decide as He; [split; [done|by intros (_ & ? & _); lia]|].
  split; [|intros (_ & _ & Ha)].
  - intros Hm. split_and!; [lia|lia|]. intros x a -> Ea. rewrite Ea in Hm. by case_decide.
  - destruct expected as [x|]; [|done]. destruct (amount_msats r) as [a|]; [|done]. rewrite decide_False; [done|]. naive_solver.
Qed.

(** *** Receipts *)

Lemma receipt_recipient rc sd ev ad kd bo de pr pk : PublicKey.valid pk →
  receipt_step (mkReceiptSlots rc sd ev ad kd bo de pr) (letter_tag Alphabet.P [PublicKey.to_hex pk]) = Ok (mkReceiptSlots (Some pk) sd ev ad kd bo de pr).
Proof. intros Hv. unfold receipt_step. rewrite letter_kind. unfold letter_tag. rewrite !(key_column _ _ _ _ Hv). reflexivity. Qed.
Lemma receipt_sender rc sd ev ad kd bo de pr pk : PublicKey.valid pk →
  receipt_step (mkReceiptSlots rc sd ev ad kd bo de pr) (letter_tag_uppercase Alphabet.P [PublicKey.to_hex pk]) = Ok (mkReceiptSlots rc (Some pk) ev ad kd bo de pr).
Proof. intros Hv. unfold receipt_step. rewrite upper_kind. unfold letter_tag_uppercase. rewrite !(key_column _ _ _ _ Hv). reflexivity. Qed.
Lemma receipt_event rc sd ev ad kd bo de pr i :
  receipt_step (mkReceiptSlots rc sd ev ad kd bo de pr) (letter_tag Alphabet.E [EventId.to_hex i]) = Ok (mkReceiptSlots rc sd (Some i) ad kd bo de pr).
Proof. unfold receipt_step. rewrite letter_kind. unfold letter_tag. rewrite event_column. reflexivity. Qed.
Lemma receipt_address rc sd ev ad kd bo de pr c : coordinate_wf c →
  receipt_step (mkReceiptSlots rc sd ev ad kd bo de pr) (letter_tag Alphabet.A [Coordinate.to_wire c]) = Ok (mkReceiptSlots rc sd ev (Some c) kd bo de pr).
Proof. intros Hc. unfold receipt_step. rewrite letter_kind. unfold letter_tag. rewrite (address_column _ _ Hc). reflexivity. Qed.
Lemma receipt_kind rc sd ev ad kd bo de pr k : kind_ok k →
  receipt_step (mkReceiptSlots rc sd ev ad kd bo de pr) (letter_tag Alphabet.K [Dec.to_string k]) = Ok (mkReceiptSlots rc sd ev ad (Some k) bo de pr).
Proof. intros Hk. unfold receipt_step. rewrite letter_kind. unfold letter_tag. rewrite (kind_column _ _ kd Hk). reflexivity. Qed.
Lemma receipt_bolt11 rc sd ev ad kd bo de pr t :
  receipt_step (mkReceiptSlots rc sd ev ad kd bo de pr) (custom_tag BOLT11 [t]) = Ok (mkReceiptSlots rc sd ev ad kd (Some t) de pr).
Proof. unfold receipt_step. rewrite custom_kind, custom_name. reflexivity. Qed.
Lemma receipt_description rc sd ev ad kd bo de pr t :
  receipt_step (mkReceiptSlots rc sd ev ad kd bo de pr) (custom_tag DESCRIPTION [t]) = Ok (mkReceiptSlots rc sd ev ad kd bo (Some t) pr).
Proof. unfold receipt_step. rewrite custom_kind, custom_name. reflexivity. Qed.
Lemma receipt_preimage rc sd ev ad kd bo de pr t :
  receipt_step (mkReceiptSlots rc sd ev ad kd bo de pr) (custom_tag PREIMAGE [t]) = Ok (mkReceiptSlots rc sd ev ad kd bo de (Some t)).
Proof. unfold receipt_step. rewrite custom_kind, custom_name. reflexivity. Qed.

Lemma receipt_read_back r : receipt_ok r →
  read_tags receipt_step no_receipt (receipt_to_tags r) =
    Ok (mkReceiptSlots (Some (rc_recipient r)) (sender r) (rc_event_target r) (rc_address_target r) (rc_kind_target r)
          (Some (bolt11 r)) (Some (description r)) (preimage r)).
Proof.
  intros (Hp & Hs & Hc & Hk). destruct r as [rc sd ev ad kd bo de pr]. unfold receipt_to_tags, no_receipt.
  cbn [rc_recipient sender rc_event_target rc_address_target rc_kind_target bolt11 description preimage] in *.
  destruct sd as [sd|], ev as [ev|], ad as [ad|], kd as [kd|], pr as [pr|];
    walk ltac:(rewrite ?receipt_recipient, ?receipt_sender, ?receipt_event, ?receipt_address, ?receipt_kind, ?receipt_bolt11,
        ?receipt_description, ?receipt_preimage by
      (first [assumption|apply Hs; reflexivity|apply Hc; reflexivity|apply Hk; reflexivity])).
Qed.

(** *** Splits *)

Lemma decimal_not_empty n : Dec.to_string n ≠ EmptyString.
Proof. unfold Dec.to_string. by destruct (Dec.digits_head (N.to_nat (N.size n)) n EmptyString) as (d & s & _ & ->). Qed.
Lemma weight_column {E} (err : string → E) (o : option N) : opt_ok (λ w, w <= Dec.u64_max)%N o →
  read_column parse_weight err (Dec.to_string <$> o) = Ok o.
Proof.
  intros Ho. apply read_column_printed. intros w Hw. split; [|apply decimal_not_empty].
  unfold parse_weight, Dec.parse_u64. by rewrite Dec.parse_to_string by by apply Ho.
Qed.

Lemma split_read_back t : split_ok t → split_from_tag (split_to_tag t) = Ok t.
Proof.
  intros (Hv & Hr & Hw). unfold split_from_tag, split_to_tag. rewrite custom_name, decide_False by by intros [].
  unfold custom_tag. rewrite (key_column _ _ _ _ Hv). cbn [result_bind].
  destruct (read_relay_column InvalidRelayUrl (relay t) Hr) as [_ Er]. pose proof (weight_column InvalidWeight (weight t) Hw) as Ew.
  destruct t as [pk [r|] [w|]]; cbn [relay weight fmap option_fmap option_map pubkey] in *; columns;
    rewrite ?Er, ?read_column_None; cbn [result_bind]; rewrite ?Ew; try done.
Qed.
Lemma split_tags_read_back out ts others :
  Forall split_ok ts → Forall (λ t, Tag.name t ≠ ZAP) others →
  parse_split_tags out (others ++ (split_to_tag <$> ts)) = Ok (out ++ ts).
Proof.
  intros Ht Ho. induction Ho as [|o others Ho _ IH]; simpl; [|by rewrite decide_False].
  revert out. induction Ht as [|t ts Ht _ IH]; intros out; [by simpl; rewrite app_nil_r|]. cbn [fmap list_fmap parse_split_tags].
  rewrite decide_True by (unfold split_to_tag; apply custom_name). rewrite split_read_back by done. cbn [result_bind].
  rewrite IH. by rewrite <-app_assoc.
Qed.

Lemma option_tag_wf {A} (f : A → Tag) o : (∀ x, Tag.wf (f x)) → Forall Tag.wf (option_list (f <$> o)).
Proof. intros Hf. destruct o; simpl; auto. Qed.
Lemma request_tags_wf q : Forall Tag.wf (request_to_tags q).
Proof.
  unfold request_to_tags. repeat (apply Forall_app; split); try by (apply option_tag_wf; intros; apply Tag.with_wf).
  - case_decide; [constructor|]. apply Forall_singleton, Tag.with_wf.
  - apply Forall_singleton, Tag.with_wf.
Qed.

(** *** The whole exchange *)

(** C26: The exchange of a zap.  The request a payer signs is read by the provider as
    what the payer asked for and passes its checks with the amount asked for; the
    checks let through exactly the requests with one recipient, at most one event
    and no other amount.  The receipt the provider signs for it is read as such,
    and the request inside is the payer's, with a valid signature. *)
Theorem zap_round_trip clock later payer provider q request r receipt :
  request_ok q → receipt_ok r → keys_ok payer → (Event.created_at request <= Dec.u64_max)%N →
  EventBuilder.sign_with_keys clock (zap_request q) payer = Ok request →
  description r = json_to_string (EventJson.serialize request) →
  EventBuilder.sign_with_keys later (zap_receipt r) provider = Ok receipt →
  request_from_event request = Ok q
  ∧ validate q (Event.tags request) (amount_msats q) = Ok tt
  ∧ (∀ tags q' expected, validate q' tags expected = Ok tt ↔
       count_lowercase_letter tags Alphabet.P = 1%nat ∧ (count_lowercase_letter tags Alphabet.E ≤ 1)%nat
       ∧ ∀ x a, expected = Some x → amount_msats q' = Some a → x = a)
  ∧ receipt_from_event receipt = Ok r
  ∧ description_request r = Ok (request, q) ∧ Event.verify request = Ok tt.
Proof.
  intros Hq Hr [Hv Hsig] Hts Hs1 Hd Hs2. pose proof (EventBuilder.signed_builder_verifies _ _ _ _ Hs1) as Hver.
  assert (length (Event.sig request) = 64%nat) as Hlen by (apply EventBuilder.sign_Ok in Hs1 as (ts & _ & ->); apply Hsig).
  apply signed_foldl in Hs1 as (Hk & Hc & Ht & Hp). apply signed_foldl in Hs2 as (Hk2 & _ & Ht2 & _).
  assert (request_from_event request = Ok q) as Hread.
  { unfold request_from_event. rewrite Hk, decide_False by by intros []. unfold from_tags_and_content.
    rewrite Ht, Hc, request_read_back by done. by destruct q. }
  split_and!; [done| |intros; apply validate_spec| | |done].
  - apply validate_spec. rewrite Ht. destruct (request_counts q). split_and!; [done|done|]. congruence.
  - unfold receipt_from_event. rewrite Hk2, decide_False by by intros []. rewrite Ht2, receipt_read_back by done. by destruct r.
  - assert (EventJson.json_ok request) as Hok.
    { split; [by rewrite Hp|]. split; [|done]. split; [done|]. rewrite Hk, Ht. split; [done|]. apply request_tags_wf. }
    unfold description_request, from_json. rewrite Hd, reads_event by done. cbn [result_bind].
    rewrite event_json_round by done. cbn [map_err result_bind]. by rewrite Hread.
Qed.
End zaps.

(** ** Witness *)

#[local] Existing Instance sample_secp.
#[local] Instance sample_url_not_empty : UrlNotEmpty (H := sample_urls).
Proof. by intros u. Qed.

(** Alice pays Bob 21 sats for his first note; the provider has the key 5. *)
Definition payment : ZapRequest :=
  with_message (with_kind_target (with_event_target (with_amount_msats (request_new bob [sample_relay]) 21000) (Event.id note1)) 1) "thanks".
Definition payment_event : Event := default note1 (result_ok (EventBuilder.sign_with_keys (Some 1000%N) (zap_request payment) alice_keys)).
Definition paid : ZapReceipt :=
  rc_with_sender (receipt_new bob "lnbc210n1" (json_to_string (EventJson.serialize payment_event))) (xonly_public_key alice_keys).
Definition paid_event : Event := default note1 (result_ok (EventBuilder.sign_with_keys (Some 1001%N) (zap_receipt paid) (sample_key 5))).

Lemma zap_round_trip_witness :
  request_from_event payment_event = Ok payment ∧ validate payment (Event.tags payment_event) (Some 21000%N) = Ok tt
  ∧ description_request paid = Ok (payment_event, payment).
Proof.
  assert (RelayUrl.normal sample_relay) as Hn by by apply (RelayUrl.parse_normal "wss://relay.example").
  destruct (zap_round_trip (Some 1000%N) (Some 1001%N) alice_keys (sample_key 5) payment payment_event paid paid_event) as (Hq & Hv & _ & _ & Hd & _).
  - split_and!; [done|by apply Forall_singleton| | |]; intros ? [= <-]; done.
  - split_and!; [done| | |]; intros ? [= <-]; done.
  - apply sample_keys_ok.
  - vm_compute. discriminate.
  - vm_compute. reflexivity.
  - reflexivity.
  - vm_compute. reflexivity.
  - by split_and!.
Defined.
