(* ===== verification/Nip49.v ===== *)
(** * Encrypted secret keys (NIP-49, [nips/nip49.rs])

    A secret key sealed under a password as an [ncryptsec1...] string.  Unicode
    normalisation, the key derivation and the cipher are classes; salt and nonce
    drawn from the operating system are arguments.  Fixed-size arrays are lists of
    bytes with their length in [wf]; the outer [None] is the panic of an [expect]. *)

From Stdlib Require Import Ascii NArith Lia.
From S2P Require Import Prelude Encoding Text Ids Tags Event Filter FilterWire Nips Message HttpAuth Entities.
From S2P Require Import Samples EntityTheorems.

(** [unicode_normalization], [scrypt] and [chacha20poly1305]: the normal form of a
    text, [Params::new] (the cost, [r], [p]), the derivation into a buffer of 32
    bytes, and the cipher on key, nonce, message and associated data. *)
Class SealingCrates := {
  nfkc : string → string;
  scrypt_params : Type;
  scrypt_params_new : byte → N → N → result scrypt_params string;
  scrypt : list byte → list byte → scrypt_params → result bytes32 string;
  aead_encrypt : bytes32 → list byte → list byte → list byte → option (list byte);
  aead_decrypt : bytes32 → list byte → list byte → list byte → option (list byte);
}.

(** The cipher adds a tag of 16 bytes and only refuses messages of [2^32] blocks of
    64 bytes or more; a ciphertext opens exactly to the message it is the
    encryption of. *)
Class SealingLaws `{SealingCrates} : Prop := {
  aead_total : ∀ k n m a, (N.of_nat (length m) < 64 * (2 ^ 32 - 1))%N → is_Some (aead_encrypt k n m a);
  aead_length : ∀ k n m a c, aead_encrypt k n m a = Some c → length c = (length m + 16)%nat;
  aead_opens : ∀ k n m a c, aead_decrypt k n c a = Some m ↔ aead_encrypt k n m a = Some c;
}.
Arguments SealingLaws : clear implicits.
Arguments SealingLaws {_}.

(** [slice::split_first_chunk] and [slice::first_chunk]. *)
Definition split_first_chunk (n : nat) (bs : list byte) : option (list byte * list byte) :=
  if (n <=? length bs)%nat then Some (take n bs, drop n bs) else None.
Definition first_chunk (n : nat) (bs : list byte) : option (list byte) := fst <$> split_first_chunk n bs.

Lemma split_first_chunk_app n a b : length a = n → split_first_chunk n (a ++ b) = Some (a, b).
Proof.
  intros <-. unfold split_first_chunk. rewrite length_app.
  destruct (Nat.leb_spec (length a) (length a + length b)); [|lia]. by rewrite take_app_length, drop_app_length.
Qed.
Lemma split_first_chunk_Some n bs : n ≤ length bs →
  ∃ a b, split_first_chunk n bs = Some (a, b) ∧ bs = a ++ b ∧ length a = n.
Proof.
  intros Hn. exists (take n bs), (drop n bs). unfold split_first_chunk. rewrite (proj2 (Nat.leb_le n _) Hn).
  by rewrite take_drop, length_take_le.
Qed.

Module Nip49.

Definition HRP : string := "ncryptsec".
Definition VERSION_BYTE : byte := "002"%byte.
Definition SALT_BYTES : nat := 16.
Definition NONCE_BYTES : nat := 24.
Definition SECRET_BYTES : nat := 32.
Definition TAG_BYTES : nat := 16.
Definition CIPHERTEXT_BYTES : nat := SECRET_BYTES + TAG_BYTES.
Definition PAYLOAD_BYTES : nat := 1 + 1 + SALT_BYTES + NONCE_BYTES + 1 + CIPHERTEXT_BYTES.
Definition MAX_LOG_N : N := 30.
Definition SCRYPT_P : N := 1.
Definition SCRYPT_R : N := 8.

Inductive KeySecurity := Weak | Strong | Untracked.
#[global] Instance KeySecurity_eq_dec : EqDecision KeySecurity.
Proof. solve_decision. Defined.

Inductive Nip49Error :=
| InvalidParams (log_n : byte) (message : string)
| LogNTooLarge (log_n : byte)
| Scrypt (e : string)
| Aead
| InvalidLength (got : nat)
| UnsupportedVersion (v : byte)
| InvalidKeySecurity (b : byte)
| Decode (e : string)
| Encode (e : string)
| UnexpectedHrp (hrp : string)
| SecretKeyErr (e : SecretKey.Error)
| Rng (e : string).

(** [security as u8]. *)
Definition as_u8 (s : KeySecurity) : byte :=
  match s with Weak => "000"%byte | Strong => "001"%byte | Untracked => "002"%byte end.
Definition from_byte (b : byte) : result KeySecurity Nip49Error :=
  match Byte.to_N b with
  | 0%N => Ok Weak
  | 1%N => Ok Strong
  | 2%N => Ok Untracked
  | _ => Err (InvalidKeySecurity b)
  end.

Record EncryptedSecretKey := mk {
  log_n : byte;
  salt : list byte;
  nonce : list byte;
  security : KeySecurity;
  ciphertext : list byte;
}.
#[global] Instance EncryptedSecretKey_eq_dec : EqDecision EncryptedSecretKey.
Proof. solve_decision. Defined.

(** The lengths of the arrays. *)
Definition wf (k : EncryptedSecretKey) : Prop :=
  length (salt k) = SALT_BYTES ∧ length (nonce k) = NONCE_BYTES ∧ length (ciphertext k) = CIPHERTEXT_BYTES.

Section nip49.
Context `{SealingCrates, SecretScalar, Bech32Crate}.

Definition derive_symmetric_key (password : string) (salt : list byte) (log_n : byte) : result bytes32 Nip49Error :=
  let normalized := nfkc password in
  let? params := map_err (InvalidParams log_n) (scrypt_params_new log_n SCRYPT_R SCRYPT_P) in
  map_err Scrypt (scrypt (as_bytes normalized) salt params).

Definition encrypt_with (secret : SecretKey) (password : string) (log_n : byte) (security : KeySecurity)
    (salt nonce : list byte) : option (result EncryptedSecretKey Nip49Error) :=
  if (MAX_LOG_N <? Byte.to_N log_n)%N then Some (Err (LogNTooLarge log_n))
  else
    match derive_symmetric_key password salt log_n with
    | Err e => Some (Err e)
    | Ok sym_key =>
        match aead_encrypt sym_key nonce (SecretKey.to_byte_array secret) [as_u8 security] with
        | None => Some (Err Aead)
        | Some ct =>
            if decide (length ct = CIPHERTEXT_BYTES) then Some (Ok (mk log_n salt nonce security ct)) else None
        end
    end.

(** [encrypt], with the outcomes of the two draws. *)
Definition encrypt (random_salt random_nonce : result (list byte) string) (secret : SecretKey) (password : string)
    (log_n : byte) (security : KeySecurity) : option (result EncryptedSecretKey Nip49Error) :=
  match random_salt, random_nonce with
  | Err e, _ => Some (Err (Rng e))
  | Ok _, Err e => Some (Err (Rng e))
  | Ok salt, Ok nonce => encrypt_with secret password log_n security salt nonce
  end.

Definition decrypt (k : EncryptedSecretKey) (password : string) : result SecretKey Nip49Error :=
  let? sym_key := derive_symmetric_key password (salt k) (log_n k) in
  let? plaintext := ok_or (aead_decrypt sym_key (nonce k) (ciphertext k) [as_u8 (security k)]) Aead in
  let? secret_array := ok_or (try_into32 plaintext) (InvalidLength (length plaintext)) in
  map_err SecretKeyErr (SecretKey.from_byte_array secret_array).

Definition to_payload_bytes (k : EncryptedSecretKey) : option (list byte) :=
  let buf := [VERSION_BYTE; log_n k] ++ salt k ++ nonce k ++ [as_u8 (security k)] ++ ciphertext k in
  if decide (length buf = PAYLOAD_BYTES) then Some buf else None.

Definition from_payload_bytes (bytes : list byte) : option (result EncryptedSecretKey Nip49Error) :=
  if decide (length bytes ≠ PAYLOAD_BYTES) then Some (Err (InvalidLength (length bytes)))
  else
    '(head, rest) ← split_first_chunk 2 bytes;
    match head with
    | [version; log_n] =>
        if decide (version ≠ VERSION_BYTE) then Some (Err (UnsupportedVersion version))
        else
          '(salt, rest) ← split_first_chunk SALT_BYTES rest;
          '(nonce, rest) ← split_first_chunk NONCE_BYTES rest;
          '(aad_chunk, ciphertext_slice) ← split_first_chunk 1 rest;
          match aad_chunk with
          | [aad_byte] =>
              match from_byte aad_byte with
              | Err e => Some (Err e)
              | Ok security =>
                  ciphertext ← first_chunk CIPHERTEXT_BYTES ciphertext_slice;
                  Some (Ok (mk log_n salt nonce security ciphertext))
              end
          | _ => None
          end
    | _ => None
    end.

Definition to_bech32 (k : EncryptedSecretKey) : option (result string Nip49Error) :=
  bytes ← to_payload_bytes k;
  Some (map_err Encode (bech32_encode HRP bytes)).

Definition from_bech32 (input : string) : option (result EncryptedSecretKey Nip49Error) :=
  match bech32_decode input with
  | Err e => Some (Err (Decode e))
  | Ok (hrp, bytes) =>
      if decide (hrp ≠ HRP) then Some (Err (UnexpectedHrp hrp)) else from_payload_bytes bytes
  end.
End nip49.
End Nip49.

(** ** What is sealed can be opened *)

(** [bech32] reads what it wrote under this prefix. *)
Class NcryptsecLaws `{Bech32Crate} : Prop :=
  ncryptsec_reads : ∀ data s, bech32_encode Nip49.HRP data = Ok s → bech32_decode s = Ok (Nip49.HRP, data).
Arguments NcryptsecLaws : clear implicits.
Arguments NcryptsecLaws {_}.

Section sealed.
Import Nip49.
Context `{SealingCrates, !SealingLaws, SecretScalar, Bech32Crate, !NcryptsecLaws}.

Lemma from_byte_as_u8 s b : from_byte b = Ok s ↔ b = as_u8 s.
Proof. split; [|intros ->; by destruct s]. by destruct b, s. Qed.

Lemma payload_written k : wf k →
  to_payload_bytes k = Some ([VERSION_BYTE; log_n k] ++ salt k ++ nonce k ++ [as_u8 (security k)] ++ ciphertext k).
Proof.
  intros (Hs & Hn & Hc). unfold to_payload_bytes. apply decide_True. rewrite !length_app, Hs, Hn, Hc. reflexivity.
Qed.
Lemma payload_reads k bs : wf k → to_payload_bytes k = Some bs → from_payload_bytes bs = Some (Ok k).
Proof.
  intros Hw. pose proof Hw as (Hs & Hn & Hc). rewrite payload_written by done. intros [= <-].
  unfold from_payload_bytes. rewrite decide_False by (intros Hd; apply Hd; cbn [length app]; rewrite !length_app; cbn [length app]; rewrite Hs, Hn, Hc; reflexivity).
  change (VERSION_BYTE :: log_n k :: ?r) with ([VERSION_BYTE; log_n k] ++ r).
  rewrite (split_first_chunk_app 2) by done. cbn [mbind option_bind]. rewrite decide_False by by intros [].
  rewrite (split_first_chunk_app SALT_BYTES) by done. cbn [mbind option_bind].
  rewrite (split_first_chunk_app NONCE_BYTES) by done. cbn [mbind option_bind].
  change (as_u8 (security k) :: ciphertext k) with ([as_u8 (security k)] ++ ciphertext k).
  rewrite (split_first_chunk_app 1) by done. cbn [mbind option_bind].
  rewrite (proj2 (from_byte_as_u8 (security k) _) eq_refl). unfold first_chunk.
  rewrite <-(app_nil_r (ciphertext k)), (split_first_chunk_app CIPHERTEXT_BYTES) by done. by destruct k.
Qed.

(** Whatever bytes arrive, the reader does not panic, and what it accepts is the
    payload of a well-formed key. *)
Lemma payload_read bs :
  ∃ r, from_payload_bytes bs = Some r ∧ ∀ k, r = Ok k → wf k ∧ to_payload_bytes k = Some bs.
Proof.
  unfold from_payload_bytes. case_decide as Hl; [by eexists|]. unfold PAYLOAD_BYTES in Hl.
  destruct (split_first_chunk_Some 2 bs) as (h & r1 & -> & -> & Hh); [lia|]. cbn [mbind option_bind].
  destruct h as [|v [|l [|]]]; [done|done| |done]. case_decide as Hv; [by eexists|]. try subst v.
  rewrite length_app, Hh in Hl. unfold SALT_BYTES, NONCE_BYTES, CIPHERTEXT_BYTES, SECRET_BYTES, TAG_BYTES in *.
  destruct (split_first_chunk_Some 16 r1) as (s & r2 & -> & -> & Hs); [lia|]. cbn [mbind option_bind]. rewrite length_app, Hs in Hl.
  destruct (split_first_chunk_Some 24 r2) as (n & r3 & -> & -> & Hn); [lia|]. cbn [mbind option_bind]. rewrite length_app, Hn in Hl.
  destruct (split_first_chunk_Some 1 r3) as (a & r4 & -> & -> & Ha); [lia|]. cbn [mbind option_bind]. rewrite length_app, Ha in Hl.
  destruct a as [|a [|]]; [done| |done]. destruct (from_byte a) as [sec|e] eqn:Eb; [|by eexists].
  apply from_byte_as_u8 in Eb as ->. unfold first_chunk.
  destruct (split_first_chunk_Some (32 + 16) r4) as (c & r5 & Ec & -> & Hc); [lia|]. rewrite Ec. cbn [fmap option_fmap option_map fst mbind option_bind].
  rewrite length_app, Hc in Hl. destruct r5 as [|]; [|simpl in Hl; lia].
  eexists. split; [reflexivity|]. intros k [= <-]. assert (wf (mk l s n sec c)) as Hw by done.
  split; [done|]. rewrite payload_written by done. simpl. by rewrite app_nil_r.
Qed.

(** A password opens a sealed key exactly when sealing with it gives the same bytes. *)
Lemma opens_iff k password sk :
  decrypt k password = Ok sk ↔
    SecretKey.valid sk ∧ ∃ key, derive_symmetric_key password (salt k) (log_n k) = Ok key
      ∧ aead_encrypt key (nonce k) (SecretKey.to_byte_array sk) [as_u8 (security k)] = Some (ciphertext k).
Proof.
  unfold decrypt. destruct (derive_symmetric_key _ _ _) as [key|e]; cbn [result_bind];
    [|split; [done|by intros (_ & ? & ? & _)]].
  split.
  - destruct (aead_decrypt _ _ _ _) as [p|] eqn:Ed; [|done]. cbn [ok_or result_bind].
    destruct (try_into32 p) as [a|] eqn:Ep; [|done]. cbn [ok_or result_bind]. unfold SecretKey.from_byte_array.
    destruct (scalar_valid a) eqn:Ev; [|done]. intros [= <-]. split; [done|]. exists key. split; [done|].
    apply try_into32_Some in Ep as <-. by apply aead_opens.
  - intros (Hv & ? & [= <-] & He). apply aead_opens in He. rewrite He. cbn [ok_or result_bind]. unfold SecretKey.to_byte_array.
    rewrite try_into32_list. cbn [ok_or result_bind]. unfold SecretKey.from_byte_array. rewrite Hv. by destruct sk.
Qed.

(** Sealing never panics: it refuses costs above the cap and whatever the derivation
    refuses.  What it returns opens with every password of the same normal form, and
    with no password that does not seal the key to the same bytes; it is read back
    from its string.  No string makes the reader panic.  The cap is not applied when a
    key is opened: the cost of a string someone else wrote goes to the derivation. *)
Theorem sealed_key_opens secret password ln sec salt nonce :
  SecretKey.valid secret → length salt = SALT_BYTES → length nonce = NONCE_BYTES →
  (∃ r, encrypt_with secret password ln sec salt nonce = Some r
     ∧ ((∃ k, r = Ok k) ↔ (Byte.to_N ln <= MAX_LOG_N)%N ∧ ∃ key, derive_symmetric_key password salt ln = Ok key))
  ∧ (∀ k, encrypt_with secret password ln sec salt nonce = Some (Ok k) →
       (∀ password', nfkc password' = nfkc password → decrypt k password' = Ok secret)
       ∧ (∀ s, to_bech32 k = Some (Ok s) → from_bech32 s = Some (Ok k)))
  ∧ (∀ k password' sk, decrypt k password' = Ok sk ↔
       SecretKey.valid sk ∧ ∃ key, derive_symmetric_key password' (Nip49.salt k) (log_n k) = Ok key
         ∧ aead_encrypt key (Nip49.nonce k) (SecretKey.to_byte_array sk) [as_u8 (security k)] = Some (ciphertext k))
  ∧ (∀ s, from_bech32 s ≠ None).
Proof.
  intros Hv Hs Hn. split; [|split; [|split; [intros; apply opens_iff|]]].
  - unfold encrypt_with. destruct (N.ltb_spec MAX_LOG_N (Byte.to_N ln)) as [Hl|Hl].
    { eexists. split; [reflexivity|]. split; [by intros [? ?]|]. intros [? _]. lia. }
    destruct (derive_symmetric_key _ _ _) as [key|e]; [|eexists; split; [reflexivity|]; split; [by intros [? ?]|by intros (_ & ? & ?)]].
    destruct (aead_total key nonce (SecretKey.to_byte_array secret) [as_u8 sec]) as [ct Hct]; [unfold SecretKey.to_byte_array; by rewrite length_b32|].
    rewrite Hct. apply aead_length in Hct. unfold SecretKey.to_byte_array in Hct. rewrite length_b32 in Hct. rewrite decide_True by done.
    eexists. split; [reflexivity|]. split; [by eauto|]. intros _. by eexists.
  - intros k. unfold encrypt_with. destruct (N.ltb_spec MAX_LOG_N (Byte.to_N ln)); [done|].
    destruct (derive_symmetric_key _ _ _) as [key|e] eqn:Ek; [|done].
    destruct (aead_encrypt _ _ _ _) as [ct|] eqn:Ec; [|done]. case_decide as Hl; [|done]. intros [= <-]. split.
    + intros password' Hp. apply opens_iff. split; [done|]. exists key. split; [|done].
      unfold derive_symmetric_key in *. simpl. by rewrite Hp.
    + intros s. unfold to_bech32. assert (wf (mk ln salt nonce sec ct)) as Hw by done.
      destruct (to_payload_bytes _) as [bs|] eqn:Eb; [|done]. cbn [mbind option_bind].
      destruct (bech32_encode HRP bs) as [t|] eqn:Et; [|done]. intros [= <-]. unfold from_bech32.
      rewrite (ncryptsec_reads _ _ Et), decide_False by by intros []. by eapply payload_reads.
  - intros s. unfold from_bech32. destruct (bech32_decode s) as [[hrp bs]|]; [|done]. case_decide; [done|].
    by destruct (payload_read bs) as (r & -> & _).
Qed.
End sealed.

(** ** Concrete inputs *)

(** The key is the number the password is, the tag half of the key. *)
Definition toy_tag (k : bytes32) : list byte := take 16 (rev (b32_list k)).
#[global] Instance toy_sealing : SealingCrates := {|
  nfkc s := s;
  scrypt_params := unit;
  scrypt_params_new ln _ _ := if (Byte.to_N ln <? 64)%N then Ok tt else Err "invalid parameters";
  scrypt p _ _ := Ok (bytes32_of_N (BigEndian.from_be_bytes p));
  aead_encrypt k _ m _ := Some (m ++ toy_tag k);
  aead_decrypt k _ c _ := let m := take (length c - 16) c in if decide (c = m ++ toy_tag k) then Some m else None;
|}.
#[global] Instance toy_sealing_laws : SealingLaws.
Proof.
  assert (∀ k, length (toy_tag k) = 16%nat) as Ht by (intros k; unfold toy_tag; rewrite length_take, length_rev, length_b32; lia).
  split; cbn [aead_encrypt aead_decrypt toy_sealing].
  - by eexists.
  - intros k _ m _ c [= <-]. by rewrite length_app, Ht.
  - intros k _ m _ c. case_decide as E; split; intros Hm; simplify_eq.
    + by rewrite <-E.
    + rewrite length_app, Ht. by replace (length m + 16 - 16)%nat with (length m) by lia; rewrite take_app_length.
    + destruct E. rewrite length_app, Ht. replace (length m + 16 - 16)%nat with (length m) by lia. by rewrite take_app_length.
Qed.
#[global] Instance sample_ncryptsec : NcryptsecLaws.
Proof.
  intros data s. cbn [bech32_encode bech32_decode sample_bech32]. case_match; [done|]. intros [= <-].
  rewrite split_once_app by done. by rewrite HexModel.unhex_fmt_lower.
Qed.

Example sealed_under_password :
  let sealed ln := Nip49.encrypt_with (SecretKey.mk (bytes32_of_N 7)) "secret" ln Nip49.Strong
    (replicate 16 "001"%byte) (replicate 24 "002"%byte) in
  (∃ k, sealed "016"%byte = Some (Ok k)
     ∧ Nip49.decrypt k "secret" = Ok (SecretKey.mk (bytes32_of_N 7)) ∧ Nip49.decrypt k "guess!" = Err Nip49.Aead)
  ∧ sealed "031"%byte = Some (Err (Nip49.LogNTooLarge "031"%byte)).
Proof. split; [eexists; split; [vm_compute; reflexivity|split]|]; vm_compute; reflexivity. Qed.
