(* ===== verification/Lists.v ===== *)
(** * Follow lists and curated lists

    Follow lists with their legacy relay map ([nips/nip02.rs], [Module Nip02]) and
    the lists and sets of NIP-51 ([nips/nip51.rs], [Module Nip51]), whose private
    items travel encrypted under the owner's own key. *)

From Stdlib Require Import Ascii NArith Lia.
From S2P Require Import Prelude Encoding Text Ids Tags Event Filter FilterWire Nips Message HttpAuth Entities RelayLists.
From S2P Require Import Derive GiftWrap TagReader.

(** ** Follow lists *)

Module Nip02.

Inductive ContactListError :=
| UnexpectedKind (k : N)
| MissingPubkey
| InvalidPubkey (e : PublicKey.Error)
| InvalidRelay (e : RelayUrl.Error)
| InvalidLegacyJson (e : string).

Section nip02.
Context `{FasterHex, Secp256k1, UrlCrate, SerdeJson, JsonText}.

Record Contact := mkContact {
  pubkey : PublicKey;
  relay_hint : option RelayUrl;
  petname : option string;
}.
Definition contact_new (pk : PublicKey) : Contact := mkContact pk None None.
Definition with_relay_hint (c : Contact) (hint : RelayUrl) : Contact := mkContact (pubkey c) (Some hint) (petname c).
Definition with_petname (c : Contact) (name : string) : Contact := mkContact (pubkey c) (relay_hint c) (Some name).

Record ContactList := mkContacts { contacts : list Contact }.
Definition new : ContactList := mkContacts [].
Definition follow (l : ContactList) (c : Contact) : ContactList := mkContacts (contacts l ++ [c]).
Definition len (l : ContactList) : nat := length (contacts l).
Definition is_empty (l : ContactList) : bool := Nat.eqb (len l) 0.

Definition build_p_tag (c : Contact) : Tag :=
  let pk := PublicKey.to_hex (pubkey c) in
  let relay := unwrap_or_default (RelayUrl.as_str <$> relay_hint c) in
  let name := unwrap_or_default (petname c) in
  Tag.with_ (Tag.lower Alphabet.P)
    (if decide (name ≠ EmptyString) then [pk; relay; name]
     else if decide (relay ≠ EmptyString) then [pk; relay]
     else [pk]).
Definition to_tags (l : ContactList) : list Tag := build_p_tag <$> contacts l.

(** One [p] tag of a follow list. *)
Definition from_tag (tag : Tag) : result Contact ContactListError :=
  let? value := ok_or (Tag.get tag 1) MissingPubkey in
  let? pk := map_err InvalidPubkey (PublicKey.parse value) in
  let? relay := read_column RelayUrl.parse InvalidRelay (Tag.get tag 2) in
  Ok (mkContact pk relay (non_empty (Tag.get tag 3))).
Definition from_event_step (l : ContactList) (tag : Tag) : result ContactList ContactListError :=
  if decide (Tag.kind tag ≠ Tag.lower Alphabet.P) then Ok l
  else let? c := from_tag tag in Ok (follow l c).
Definition from_event (e : Event) : result ContactList ContactListError :=
  if decide (Event.kind e ≠ Kind.CONTACTS) then Err (UnexpectedKind (Event.kind e))
  else read_tags from_event_step new (Event.tags e).

(** [EventBuilder::contact_list]. *)
Definition contact_list (l : ContactList) : EventBuilder :=
  EventBuilder.add_tags (EventBuilder.new Kind.CONTACTS EmptyString) (to_tags l).

Record LegacyRelayEntry := mkLegacy { read : bool; write : bool }.

(** The derived reader of an entry, and of a [BTreeMap] of them, in which the last
    entry of a key counts. *)
Definition de_legacy_entry (v : Json) : option LegacyRelayEntry :=
  es ← struct_entries ["read"; "write"] v;
  r ← defaulted de_bool false "read" es;
  w ← defaulted de_bool false "write" es;
  Some (mkLegacy r w).
Definition de_legacy_map (v : Json) : option (gmap string LegacyRelayEntry) :=
  es ← de_map v;
  foldr (λ e k m, x ← de_legacy_entry e.2; k (<[e.1 := x]> m)) Some es ∅.

Definition legacy_marker (e : LegacyRelayEntry) : option Nip65.RelayMarker :=
  match read e, write e with
  | true, true => Some Nip65.ReadWrite
  | true, false => Some Nip65.Read
  | false, true => Some Nip65.Write
  | false, false => None
  end.
Fixpoint legacy_loop (out : gmap RelayUrl Nip65.RelayMarker) (raw : list (string * LegacyRelayEntry)) :
    result (gmap RelayUrl Nip65.RelayMarker) ContactListError :=
  match raw with
  | [] => Ok out
  | (url, entry) :: raw =>
      match legacy_marker entry with
      | None => legacy_loop out raw
      | Some m => let? parsed := map_err InvalidRelay (RelayUrl.parse url) in legacy_loop (<[parsed := m]> out) raw
      end
  end.
(** The entries of a [BTreeMap] in the order of their keys. *)
Definition in_key_order (raw : gmap string LegacyRelayEntry) : list (string * LegacyRelayEntry) :=
  omap (λ k, (λ x, (k, x)) <$> raw !! k) (btree_iter FilterWire.string_le (dom raw)).
(** The text of a type error of [serde_json] is left to the parameter. *)
Definition legacy_relays (type_error content : string) : result (gmap RelayUrl Nip65.RelayMarker) ContactListError :=
  let trimmed := Text.trim content in
  if decide (trimmed = EmptyString) then Ok ∅
  else
    let? v := map_err InvalidLegacyJson (json_from_slice (as_bytes trimmed)) in
    let? raw := ok_or (de_legacy_map v) (InvalidLegacyJson type_error) in
    legacy_loop ∅ (in_key_order raw).
End nip02.
End Nip02.

(** ** Lists and sets *)

(** [str::contains] on a text. *)
Definition contains_str (pat s : string) : bool := match split_once_str pat s with Some _ => true | None => false end.

Module Nip51.

Inductive ListItemError :=
| MissingValue (tag : string)
| InvalidPublicKey (e : PublicKey.Error)
| InvalidEventId (e : EventId.Error)
| InvalidCoordinate (e : Coordinate.Error)
| InvalidRelayUrl (e : RelayUrl.Error).

Inductive ListError := InvalidItem (e : ListItemError) | InvalidTag (e : Tag.Error).

(** The causes of the [serde_json] error of the items' reader: the text, its shape,
    a tag without a head, an item. *)
Inductive JsonCause :=
| NotJson (e : string)
| NotTags
| NoHead (e : Tag.Error)
| NotAnItem (e : ListItemError).

Inductive ListEncryptionError :=
| NoPayload
| Encrypt (e : Nip44.Nip44Error)
| Decrypt (e : Nip44.Nip44Error)
| InvalidJson (e : JsonCause)
| Nip04Err (e : Nip04.Nip04Error).

Definition letter_tag (a : Alphabet.t) (args : list string) : Tag := Tag.with_ (Tag.lower a) args.
Definition custom_tag (name : string) (args : list string) : Tag := Tag.with_ (TagKind.Custom name) args.

Section nip51.
Context `{FasterHex, Secp256k1, UrlCrate, SerdeJson, JsonText, EventCrypto, !Nip44Crates, Base64, AesCbc}.

Inductive ListItem :=
| Pubkey (pubkey : PublicKey) (relay_hint : option RelayUrl) (petname : option string)
| Event (id : EventId) (relay_hint : option RelayUrl)
| Address (coordinate : Coordinate) (relay_hint : option RelayUrl)
| Hashtag (t : string)
| Word (w : string)
| Relay (url : RelayUrl)
| Server (url : string)
| Emoji (shortcode url : string)
| Group (id : string) (relay : RelayUrl) (name : option string)
| Other (tag : Tag).

Definition relay_hint_value (hint : option RelayUrl) : string := unwrap_or_default (RelayUrl.as_str <$> hint).

Definition to_tag (i : ListItem) : Tag :=
  match i with
  | Pubkey pk relay petname =>
      letter_tag Alphabet.P ([PublicKey.to_hex pk; relay_hint_value relay] ++ option_list petname)
  | Event id relay => letter_tag Alphabet.E (EventId.to_hex id :: option_list (RelayUrl.as_str <$> relay))
  | Address c relay => letter_tag Alphabet.A (Coordinate.to_wire c :: option_list (RelayUrl.as_str <$> relay))
  | Hashtag t => letter_tag Alphabet.T [t]
  | Word w => custom_tag "word" [w]
  | Relay url => custom_tag "relay" [RelayUrl.as_str url]
  | Server url => custom_tag "server" [url]
  | Emoji shortcode url => custom_tag "emoji" [shortcode; url]
  | Group id relay name => custom_tag "group" ([id; RelayUrl.as_str relay] ++ option_list name)
  | Other tag => tag
  end.

Definition parse_pubkey (tag : Tag) : result ListItem ListItemError :=
  let? pk_hex := ok_or (Tag.get tag 1) (MissingValue "p") in
  let? pk := map_err InvalidPublicKey (PublicKey.parse pk_hex) in
  let? relay := read_column RelayUrl.parse InvalidRelayUrl (Tag.get tag 2) in
  Ok (Pubkey pk relay (Tag.get tag 3)).
Definition parse_event (tag : Tag) : result ListItem ListItemError :=
  let? id_hex := ok_or (Tag.get tag 1) (MissingValue "e") in
  let? id := map_err InvalidEventId (EventId.parse id_hex) in
  let? relay := read_column RelayUrl.parse InvalidRelayUrl (Tag.get tag 2) in
  Ok (Event id relay).
Definition parse_address (tag : Tag) : result ListItem ListItemError :=
  let? coord_str := ok_or (Tag.get tag 1) (MissingValue "a") in
  let? c := map_err InvalidCoordinate (Coordinate.parse coord_str) in
  let? relay := read_column RelayUrl.parse InvalidRelayUrl (Tag.get tag 2) in
  Ok (Address c relay).
Definition parse_hashtag (tag : Tag) : result ListItem ListItemError :=
  let? t := ok_or (Tag.get tag 1) (MissingValue "t") in Ok (Hashtag t).
Definition parse_word (tag : Tag) : result ListItem ListItemError :=
  let? w := ok_or (Tag.get tag 1) (MissingValue "word") in Ok (Word w).
Definition parse_relay (tag : Tag) : result ListItem ListItemError :=
  let? url_str := ok_or (Tag.get tag 1) (MissingValue "relay") in
  let? url := map_err InvalidRelayUrl (RelayUrl.parse url_str) in
  Ok (Relay url).
Definition parse_server (tag : Tag) : result ListItem ListItemError :=
  let? url := ok_or (Tag.get tag 1) (MissingValue "server") in Ok (Server url).
Definition parse_emoji (tag : Tag) : result ListItem ListItemError :=
  let? shortcode := ok_or (Tag.get tag 1) (MissingValue "emoji") in
  let? url := ok_or (Tag.get tag 2) (MissingValue "emoji") in
  Ok (Emoji shortcode url).
Definition parse_group (tag : Tag) : result ListItem ListItemError :=
  let? id := ok_or (Tag.get tag 1) (MissingValue "group") in
  let? relay_str := ok_or (Tag.get tag 2) (MissingValue "group") in
  let? relay := map_err InvalidRelayUrl (RelayUrl.parse relay_str) in
  Ok (Group id relay (Tag.get tag 3)).

Definition from_tag (tag : Tag) : result ListItem ListItemError :=
  match Tag.kind tag with
  | TagKind.SingleLetter s =>
      if SingleLetterTag.is_uppercase s then Ok (Other tag)
      else
        match SingleLetterTag.character s with
        | Alphabet.P => parse_pubkey tag
        | Alphabet.E => parse_event tag
        | Alphabet.A => parse_address tag
        | Alphabet.T => parse_hashtag tag
        | _ => Ok (Other tag)
        end
  | TagKind.Custom name =>
      if decide (name = "word") then parse_word tag
      else if decide (name = "relay") then parse_relay tag
      else if decide (name = "server") then parse_server tag
      else if decide (name = "emoji") then parse_emoji tag
      else if decide (name = "group") then parse_group tag
      else Ok (Other tag)
  end.

Record List := mkList {
  kind : Kind;
  identifier : option string;
  title : option string;
  description : option string;
  image : option string;
  public_items : list ListItem;
  private_items : list ListItem;
  encrypted_payload : option string;
}.
Definition new (k : Kind) : List := mkList k None None None None [] [] None.
Definition with_identifier (l : List) (s : string) : List :=
  mkList (kind l) (Some s) (title l) (description l) (image l) (public_items l) (private_items l) (encrypted_payload l).
Definition with_title (l : List) (s : string) : List :=
  mkList (kind l) (identifier l) (Some s) (description l) (image l) (public_items l) (private_items l) (encrypted_payload l).
Definition with_description (l : List) (s : string) : List :=
  mkList (kind l) (identifier l) (title l) (Some s) (image l) (public_items l) (private_items l) (encrypted_payload l).
Definition with_image (l : List) (s : string) : List :=
  mkList (kind l) (identifier l) (title l) (description l) (Some s) (public_items l) (private_items l) (encrypted_payload l).
Definition public_item (l : List) (i : ListItem) : List :=
  mkList (kind l) (identifier l) (title l) (description l) (image l) (public_items l ++ [i]) (private_items l) (encrypted_payload l).
Definition private_item (l : List) (i : ListItem) : List :=
  mkList (kind l) (identifier l) (title l) (description l) (image l) (public_items l) (private_items l ++ [i]) (encrypted_payload l).

Definition to_public_tags (l : List) : list Tag :=
  option_list (Tag.d <$> identifier l) ++ option_list (Tag.title <$> title l)
  ++ option_list ((λ i, custom_tag "image" [i]) <$> image l)
  ++ option_list ((λ d, custom_tag "description" [d]) <$> description l)
  ++ (to_tag <$> public_items l).

Definition serialize_items (items : list ListItem) : string :=
  json_to_string (JArr ((λ i, JArr (JStr <$> Tag.values (to_tag i))) <$> items)).
Definition read_item (values : list string) : result ListItem JsonCause :=
  let? tag := map_err NoHead (Tag.new values) in
  map_err NotAnItem (from_tag tag).
Fixpoint read_items (raw : list (list string)) : result (list ListItem) JsonCause :=
  match raw with
  | [] => Ok []
  | values :: raw => let? i := read_item values in let? l := read_items raw in Ok (i :: l)
  end.
Definition deserialize_items (json : string) : result (list ListItem) JsonCause :=
  let? v := map_err NotJson (json_from_slice (as_bytes json)) in
  let? raw := ok_or (FilterWire.de_vec (FilterWire.de_vec de_str) v) NotTags in
  read_items raw.

(** [nonce]: the outcome of the draw of [nip44::encrypt]. *)
Definition encrypt_private (nonce : result bytes32 string) (l : List) (owner_secret : secret_key) (owner_public : PublicKey) :
    result (option string) ListEncryptionError :=
  if decide (private_items l = []) then Ok None
  else
    let? payload := map_err Encrypt (Nip44.encrypt nonce owner_secret owner_public (serialize_items (private_items l))) in
    Ok (Some payload).

Definition set_private (l : List) (items : list ListItem) (payload : option string) : List :=
  mkList (kind l) (identifier l) (title l) (description l) (image l) (public_items l) items payload.

(** The list after the call comes with the outcome: [take] empties the payload before
    anything is decrypted. *)
Definition decrypt_private (l : List) (owner_secret : secret_key) (owner_public : PublicKey) :
    result unit ListEncryptionError * List :=
  match encrypted_payload l with
  | None => (Err NoPayload, l)
  | Some payload =>
      let taken := set_private l (private_items l) None in
      match
        let? json :=
          if contains_str "?iv=" payload then map_err Nip04Err (Nip04.decrypt owner_secret owner_public payload)
          else map_err Decrypt (Nip44.decrypt owner_secret owner_public payload) in
        map_err InvalidJson (deserialize_items json)
      with
      | Ok items => (Ok tt, set_private taken items None)
      | Err e => (Err e, taken)
      end
  end.

Definition list_step (l : List) (tag : Tag) : result List ListError :=
  match Tag.kind tag with
  | TagKind.SingleLetter s =>
      if decide (s = SingleLetterTag.lowercase Alphabet.D) then
        Ok (mkList (kind l) (Tag.get tag 1) (title l) (description l) (image l) (public_items l) (private_items l) (encrypted_payload l))
      else let? i := map_err InvalidItem (from_tag tag) in Ok (public_item l i)
  | TagKind.Custom name =>
      if decide (name = "title") then
        Ok (mkList (kind l) (identifier l) (Tag.get tag 1) (description l) (image l) (public_items l) (private_items l) (encrypted_payload l))
      else if decide (name = "description") then
        Ok (mkList (kind l) (identifier l) (title l) (Tag.get tag 1) (image l) (public_items l) (private_items l) (encrypted_payload l))
      else if decide (name = "image") then
        Ok (mkList (kind l) (identifier l) (title l) (description l) (Tag.get tag 1) (public_items l) (private_items l) (encrypted_payload l))
      else let? i := map_err InvalidItem (from_tag tag) in Ok (public_item l i)
  end.
Definition from_tags_and_content (k : Kind) (tags : list Tag) (content : string) : result List ListError :=
  let? l := read_tags list_step (new k) tags in
  Ok (if decide (content = EmptyString) then l else set_private l (private_items l) (Some content)).
Definition from_event (e : Event.t) : result List ListError :=
  from_tags_and_content (Event.kind e) (Event.tags e) (Event.content e).

(** [EventBuilder::list] and [EventBuilder::list_with_private_items]. *)
Definition list (l : List) : EventBuilder :=
  foldl EventBuilder.add_tag (EventBuilder.new (kind l) EmptyString) (to_public_tags l).
Definition list_with_private_items (nonce : result bytes32 string) (l : List) (owner_secret : secret_key)
    (owner_public : PublicKey) : result EventBuilder ListEncryptionError :=
  let? payload := encrypt_private nonce l owner_secret owner_public in
  Ok (foldl EventBuilder.add_tag (EventBuilder.new (kind l) (unwrap_or_default payload)) (to_public_tags l)).
End nip51.
End Nip51.
