(* ===== verification/ListTheorems.v ===== *)
(** * Theorems about follow lists and curated lists *)

From Stdlib Require Import Ascii NArith Lia.
From S2P Require Import Prelude Encoding Text Ids Tags Event Filter FilterWire Nips Message HttpAuth Entities RelayLists.
From S2P Require Import Derive GiftWrap GiftWrapProofs Nip47 TagReader Lists.
From S2P Require Import Storage Samples RelaySamples Client ClientSamples GiftWrapSamples RemoteSignerTheorems.

Lemma split_once_str_absent c sep s : no_char c s = true → split_once_str (String c sep) s = None.
Proof.
  induction s as [|d s IH]; [done|]. cbn [no_char]. intros [Hd Hs]%andb_prop. cbn [split_once_str Text.strip_prefix].
  rewrite Ascii.eqb_sym. destruct (Ascii.eqb d c); [done|]. by rewrite IH.
Qed.
Lemma base64_no_mark `{Base64, !Base64Laws} b : no_char "?" (base64_encode b) = true.
Proof.
  pose proof (base64_alphabet b) as Ha. revert Ha. generalize (base64_encode b). intros s.
  induction s as [|c s IH]; [done|]. cbn [Dec.string_forallb no_char]. intros [Hc ?]%andb_prop.
  rewrite IH by done. rewrite andb_true_r. revert Hc. by destruct c as [[] [] [] [] [] [] [] []].
Qed.

Section follows.
Context `{FasterHex, !FasterHexLaws, Secp256k1, UrlCrate, !UrlCrateLaws, !UrlNotEmpty, EventCrypto}.
Import Nip02.

Definition contact_ok (c : Contact) : Prop :=
  PublicKey.valid (pubkey c) ∧ opt_ok RelayUrl.normal (relay_hint c) ∧ petname c ≠ Some EmptyString.

Lemma contact_back c : contact_ok c → from_tag (build_p_tag c) = Ok c.
Proof.
  intros (Hv & Hr & Hp). destruct (read_relay_column InvalidRelay (relay_hint c) Hr) as [Er _].
  unfold from_tag, build_p_tag. destruct c as [pk r [n|]]; cbn [pubkey relay_hint petname] in *.
  - assert (n ≠ EmptyString) as Hn by congruence. change (unwrap_or_default (Some n)) with n.
    rewrite decide_True by done. columns. simpl.
    rewrite PublicKey.pk_parse_to_hex by done. cbn [map_err result_bind]. rewrite Er. cbn [result_bind].
    by rewrite decide_False.
  - rewrite decide_False by by intros []. destruct r as [r|]; cbn [fmap option_fmap option_map] in *.
    + rewrite decide_True by apply relay_not_empty. columns. simpl. rewrite PublicKey.pk_parse_to_hex by done.
      cbn [map_err result_bind]. by rewrite Er.
    + rewrite decide_False by by intros []. columns. simpl. by rewrite PublicKey.pk_parse_to_hex.
Qed.
Lemma contact_kind c : Tag.kind (build_p_tag c) = Tag.lower Alphabet.P.
Proof. unfold build_p_tag. apply Tag.kind_with_lower. Qed.

(** A follow list reads back, in order, from the event that carries it. *)
Theorem follow_list_round_trip clock l keys e :
  EventBuilder.sign_with_keys clock (contact_list l) keys = Ok e → Forall contact_ok (contacts l) →
  from_event e = Ok l.
Proof.
  intros (Hk & _ & Ht & _)%signed_add_tags Hok. unfold from_event. rewrite Hk, decide_False by by intros [].
  rewrite Ht. unfold to_tags. rewrite (read_tags_items _ _ follow).
  - f_equal. destruct l as [cs]. cbn [contacts]. clear. unfold new.
    assert (∀ a, foldl follow (mkContacts a) cs = mkContacts (a ++ cs)) as Hf; [|apply Hf].
    induction cs as [|c cs IH]; intros a; simpl; [by rewrite app_nil_r|]. unfold follow at 2. simpl. rewrite IH, <-app_assoc. done.
  - intros s c Hc. unfold from_event_step. rewrite decide_False by (rewrite contact_kind; by intros []).
    rewrite contact_back; [done|]. by eapply Forall_forall in Hc; [|exact Hok].
Qed.
End follows.

Section lists.
Context `{FasterHex, !FasterHexLaws, Secp256k1, UrlCrate, !UrlCrateLaws, !UrlNotEmpty}.
Context `{SerdeJson, !SerdeJsonLaws, JsonText, !JsonPlainText, EventCrypto, !Nip44Crates, !Nip44Laws, Base64, !Base64Laws, AesCbc, !AesCbcLaws}.
Import Nip51.

(** Items that print as a tag of their own kind; the other tags are those no typed
    item is read from. *)
Definition item_ok (i : ListItem) : Prop :=
  match i with
  | Pubkey pk relay _ => PublicKey.valid pk ∧ opt_ok RelayUrl.normal relay
  | Event _ relay => opt_ok RelayUrl.normal relay
  | Address c relay => coordinate_wf c ∧ opt_ok RelayUrl.normal relay
  | Relay url => RelayUrl.normal url
  | Group _ relay _ => RelayUrl.normal relay
  | Other tag => Tag.wf tag ∧ from_tag tag = Ok (Other tag)
  | Hashtag _ | Word _ | Server _ | Emoji _ _ => True
  end.
(** The heads that describe the list itself. *)
Definition describes (k : TagKind) : bool :=
  bool_decide (k ∈ [Tag.lower Alphabet.D; TagKind.Custom "title"; TagKind.Custom "description"; TagKind.Custom "image"]).
Definition public_ok (i : ListItem) : Prop := item_ok i ∧ describes (Tag.kind (to_tag i)) = false.

Lemma custom_head n args : TagKind.from_wire n = TagKind.Custom n → Tag.kind (custom_tag n args) = TagKind.Custom n.
Proof. done. Qed.
Lemma letter_head a args : Tag.kind (letter_tag a args) = Tag.lower a.
Proof. apply Tag.kind_with_lower. Qed.

Lemma item_back i : item_ok i → from_tag (to_tag i) = Ok i.
Proof.
  destruct i as [pk r n|id r|c r|t|w|url|url|s url|id r n|tag]; cbn [item_ok to_tag]; try by (intros []).
  - intros [Hv Hr]. destruct (read_relay_column InvalidRelayUrl r Hr) as [Er _].
    unfold from_tag. rewrite letter_head. unfold Tag.lower. simpl. unfold parse_pubkey, letter_tag, relay_hint_value. columns. simpl.
    rewrite PublicKey.pk_parse_to_hex by done. cbn [map_err result_bind]. rewrite Er. by destruct n.
  - intros Hr. destruct (read_relay_column InvalidRelayUrl r Hr) as [_ Er]. unfold from_tag. rewrite letter_head. unfold Tag.lower. simpl.
    unfold parse_event, letter_tag. columns. simpl. rewrite EventId.parse_to_hex. cbn [map_err result_bind].
    destruct r as [r|]; cbn [fmap option_fmap option_map option_list option_rect] in *; by rewrite Er.
  - intros [Hc Hr]. destruct (read_relay_column InvalidRelayUrl r Hr) as [_ Er]. unfold from_tag. rewrite letter_head. unfold Tag.lower. simpl.
    unfold parse_address, letter_tag. columns. simpl. rewrite coordinate_printed by done. cbn [map_err result_bind].
    destruct r as [r|]; cbn [fmap option_fmap option_map option_list option_rect] in *; by rewrite Er.
  - intros Hr. unfold from_tag. rewrite custom_head by done. unfold parse_relay. columns. simpl.
    by rewrite RelayUrl.parse_as_str.
  - intros Hr. unfold from_tag. rewrite custom_head by done. unfold parse_group. columns. simpl.
    rewrite RelayUrl.parse_as_str by done. by destruct n.
Qed.

Lemma item_step l i : public_ok i → list_step l (to_tag i) = Ok (public_item l i).
Proof.
  intros [Hi Hd]. unfold list_step. rewrite item_back by done. cbn [map_err result_bind].
  unfold describes in Hd. apply bool_decide_eq_false in Hd.
  destruct (Tag.kind (to_tag i)) as [s|n] eqn:Ek.
  - rewrite decide_False; [done|]. intros ->. destruct Hd. left.
  - rewrite !decide_False; [done|..]; intros ->; destruct Hd; set_solver.
Qed.

Lemma public_items_foldl l items :
  foldl public_item l items =
    mkList (kind l) (identifier l) (title l) (description l) (image l) (public_items l ++ items) (private_items l) (encrypted_payload l).
Proof.
  revert l. induction items as [|i items IH]; intros l; simpl; [rewrite app_nil_r; by destruct l|].
  rewrite IH. simpl. by rewrite <-app_assoc.
Qed.

Lemma public_back l : Forall public_ok (public_items l) →
  read_tags list_step (new (kind l)) (to_public_tags l) =
    Ok (mkList (kind l) (identifier l) (title l) (description l) (image l) (public_items l) [] None).
Proof.
  intros Hok. unfold to_public_tags. rewrite !read_tags_app.
  destruct (identifier l) as [d|]; cbn [fmap option_fmap option_map option_list option_rect read_tags];
  destruct (title l) as [t|]; cbn [fmap option_fmap option_map option_list option_rect read_tags];
  destruct (image l) as [i|]; cbn [fmap option_fmap option_map option_list option_rect read_tags];
  destruct (description l) as [c|]; cbn [fmap option_fmap option_map option_list option_rect read_tags];
  (assert (∀ s, read_tags list_step s (to_tag <$> public_items l) = Ok (foldl public_item s (public_items l))) as Hitems
    by (intros s; apply read_tags_items; intros s' x Hx; apply item_step; by eapply Forall_forall in Hx; [|exact Hok]));
  simpl; rewrite Hitems, public_items_foldl; done.
Qed.

Lemma items_back items : Forall item_ok items → deserialize_items (serialize_items items) = Ok items.
Proof.
  intros Hok. unfold deserialize_items, serialize_items.
  assert (json_plain RECURSION_LIMIT (JArr ((λ i, JArr (JStr <$> Tag.values (to_tag i))) <$> items)) = true) as Hp.
  { apply (json_plain_mono 2); [unfold RECURSION_LIMIT; lia|]. apply arr_plain. intros i _. by apply arr_plain. }
  rewrite reads_plain by done. cbn [map_err result_bind].
  change ((λ i, JArr (JStr <$> Tag.values (to_tag i))) <$> items) with ((λ vs, JArr (JStr <$> vs)) ∘ (λ i, Tag.values (to_tag i)) <$> items).
  rewrite list_fmap_compose.
  rewrite FilterWire.de_vec_map.
  2:{ apply Forall_forall. intros vs _. apply FilterWire.de_strings. }
  cbn [ok_or result_bind]. clear Hp. induction Hok as [|i items Hi _ IH]; [done|]. cbn [fmap list_fmap read_items].
  assert (read_item (Tag.values (to_tag i)) = Ok i) as ->; [|cbn [result_bind]; by rewrite IH].
  unfold read_item. assert (Tag.new (Tag.values (to_tag i)) = Ok (to_tag i)) as ->.
  { assert (Tag.wf (to_tag i)) as Hw by (destruct i; try done; by destruct Hi). unfold Tag.wf in Hw.
    destruct (to_tag i) as [[|v vs]]; [done|]. done. }
  cbn [map_err result_bind]. by rewrite item_back.
Qed.

Lemma encrypted_plainly keys pk nonce text payload :
  Utf8.is_str text → Nip44.encrypt nonce keys pk text = Ok payload →
  payload ≠ EmptyString ∧ contains_str "?iv=" payload = false ∧ Nip44.decrypt keys pk payload = Ok text.
Proof.
  intros Hs. unfold Nip44.encrypt, Nip44.decrypt. destruct nonce as [nonce|]; [|done]. cbn [map_err result_bind]. intros He.
  pose proof (decrypt_encrypted _ _ _ _ Hs He) as Hd. pose proof Hd as [[Hlen _] _]%GiftWrapProofs.decrypt_Ok.
  split_and!; [|unfold contains_str|done].
  - intros ->. simpl in Hlen. lia.
  - unfold Nip44.encrypt_inner in He. apply bind_Ok in He as (buf & _ & [= <-]).
    by rewrite split_once_str_absent by apply base64_no_mark.
Qed.
Lemma encrypted_legacy keys iv text payload :
  Utf8.is_str text → length iv = Nip04.IV_BYTES → Nip04.encrypt (Ok iv) keys (xonly_public_key keys) text = Ok payload →
  contains_str "?iv=" payload = true ∧ Nip04.decrypt keys (xonly_public_key keys) payload = Ok text.
Proof.
  intros Hs Hiv He. split; [|by eapply Nip04.legacy_round_trip]. unfold Nip04.encrypt in He. cbn [map_err result_bind] in He.
  injection He as <-. unfold contains_str, Nip04.SEPARATOR. by rewrite split_once_str_app by apply base64_no_mark.
Qed.
Lemma items_text items : Utf8.is_str (serialize_items items).
Proof. apply text_utf8. Qed.

(** C33: What the owner of a list puts into its private part the owner reads back.
    The event of a list carries its public items as tags, in order, and nothing of
    the private ones but the encrypted payload; the list reads back from it, sealed,
    and opening it with the owner's key gives the list, also when the payload was
    written by the older encryption.  Opening that fails loses the payload: the list
    keeps its items, and opening again finds nothing to open. *)
Theorem private_list_round_trip clock nonce l keys b e :
  Forall public_ok (public_items l) → Forall item_ok (private_items l) → encrypted_payload l = None →
  list_with_private_items nonce l keys (xonly_public_key keys) = Ok b →
  EventBuilder.sign_with_keys clock b keys = Ok e →
  let sealed := set_private l [] (if decide (private_items l = []) then None else Some (Event.content e)) in
  from_event e = Ok sealed ∧ Event.tags e = to_public_tags l
  ∧ (private_items l ≠ [] → decrypt_private sealed keys (xonly_public_key keys) = (Ok tt, l))
  ∧ (∀ iv payload, length iv = Nip04.IV_BYTES →
       Nip04.encrypt (Ok iv) keys (xonly_public_key keys) (serialize_items (private_items l)) = Ok payload →
       decrypt_private (set_private l [] (Some payload)) keys (xonly_public_key keys) = (Ok tt, l))
  ∧ (∀ l1 sk pk err l2, decrypt_private l1 sk pk = (Err err, l2) →
       l2 = set_private l1 (private_items l1) None ∧ decrypt_private l2 sk pk = (Err NoPayload, l2)).
Proof.
  intros Hpub Hpriv Hnone Hb He sealed. unfold list_with_private_items in Hb. apply bind_Ok in Hb as (po & Hpo & [= <-]).
  apply signed_foldl in He as (Hk & Hc & Ht & _).
  assert (∀ p, set_private (set_private l [] p) (private_items l) None = l) as Hback by (intros p; destruct l; simpl in *; by subst).
  assert (∀ text, deserialize_items text = Ok (private_items l) → ∀ payload,
    (contains_str "?iv=" payload = true ∧ Nip04.decrypt keys (xonly_public_key keys) payload = Ok text)
    ∨ (contains_str "?iv=" payload = false ∧ Nip44.decrypt keys (xonly_public_key keys) payload = Ok text) →
    decrypt_private (set_private l [] (Some payload)) keys (xonly_public_key keys) = (Ok tt, l)) as Hopen.
  { intros text Hi payload Hp. unfold decrypt_private. cbn [encrypted_payload set_private private_items].
    destruct Hp as [[-> ->]|[-> ->]]; cbn [map_err result_bind]; rewrite Hi; cbn [map_err]; f_equal; apply (Hback (Some payload)). }
  assert (private_items l = [] ∧ po = None ∨ private_items l ≠ [] ∧ ∃ payload, po = Some payload
    ∧ Nip44.encrypt nonce keys (xonly_public_key keys) (serialize_items (private_items l)) = Ok payload) as Hcase.
  { unfold encrypt_private in Hpo. case_decide as Hd; [left; by injection Hpo as <-|right]. split; [done|].
    apply bind_Ok in Hpo as (p & Hp%map_err_Ok & [= <-]). by exists p. }
  split_and!; [|done| | |].
  - unfold from_event, from_tags_and_content. rewrite Hk, Ht, public_back by done. cbn [result_bind]. f_equal. subst sealed.
    destruct Hcase as [[E ->]|(Hne & payload & -> & Hp)].
    + rewrite (decide_True (P := private_items l = [])) by done. rewrite Hc. by rewrite decide_True.
    + rewrite (decide_False (P := private_items l = [])) by done. rewrite Hc.
      destruct (encrypted_plainly _ _ _ _ _ (items_text _) Hp) as (Hn & _ & _). unfold unwrap_or_default. cbn [default].
      by rewrite decide_False.
  - intros Hne. destruct Hcase as [[E _]|(_ & payload & -> & Hp)]; [done|]. subst sealed. rewrite decide_False by done.
    rewrite Hc. eapply Hopen; [by apply items_back|]. right. by destruct (encrypted_plainly _ _ _ _ _ (items_text _) Hp).
  - intros iv payload Hiv Hp. eapply Hopen; [by apply items_back|]. left. by apply (encrypted_legacy _ iv); [apply items_text| |].
  - intros l1 sk pk err l2. unfold decrypt_private at 1. destruct (encrypted_payload l1) as [p|] eqn:Ep.
    + destruct (result_bind _ _) as [items|]; [done|]. by intros [= <- <-].
    + intros [= <- <-]. unfold decrypt_private. rewrite Ep. split; [|done]. by destruct l1; simpl in *; subst.
Qed.
End lists.

(** ** Witness *)

#[local] Existing Instance sample_secp.
#[local] Instance sample_url_nonempty : UrlNotEmpty (H := sample_urls).
Proof. by intros u. Qed.
#[local] Instance plain_texts : JsonPlainText.
Proof.
  split.
  - intros v _. cbn [json_from_slice text_json json_to_string text_serde]. unfold as_bytes.
    by rewrite String.string_of_list_byte_of_string, read_json_text.
  - intros v. apply Utf8.ascii_is_str, json_text_ascii.
Qed.

(** Alice mutes Bob in public and a word in private. *)
Definition mute_list : Nip51.List :=
  Nip51.private_item (Nip51.public_item (Nip51.with_title (Nip51.new 10000) "muted") (Nip51.Pubkey bob (Some sample_relay) None)) (Nip51.Word "spam").
Definition mute_builder : EventBuilder :=
  default (Nip51.list mute_list)
    (result_ok (Nip51.list_with_private_items (Ok (bytes32_of_N 9)) mute_list alice_keys (xonly_public_key alice_keys))).
Definition mute_event : Event := default note1 (result_ok (EventBuilder.sign_with_keys (Some 1000%N) mute_builder alice_keys)).

Lemma private_list_round_trip_witness :
  Event.tags mute_event = Nip51.to_public_tags mute_list
  ∧ ∃ sealed, Nip51.from_event mute_event = Ok sealed ∧ Nip51.private_items sealed = []
    ∧ Nip51.decrypt_private sealed alice_keys (xonly_public_key alice_keys) = (Ok tt, mute_list).
Proof.
  assert (RelayUrl.normal sample_relay) as Hn by by apply (RelayUrl.parse_normal "wss://relay.example").
  destruct (private_list_round_trip (Some 1000%N) (Ok (bytes32_of_N 9)) mute_list alice_keys mute_builder mute_event) as (Hf & Ht & Hd & _).
  - apply Forall_singleton. split; [split; [done|]|reflexivity]. by intros ? [= <-].
  - by apply Forall_singleton.
  - reflexivity.
  - vm_compute. reflexivity.
  - vm_compute. reflexivity.
  - split; [exact Ht|]. eexists. split; [exact Hf|]. split; [reflexivity|]. by apply Hd.
Defined.
