(* ===== verification/Counting.v ===== *)
(** * Counts and sketches (NIP-45, [nips/nip45.rs])

    Requests and answers of the verb COUNT and the sketch of 256 registers that
    relays send so that clients can count over several of them.  The estimate is
    floating-point arithmetic and is not modelled. *)

From Stdlib Require Import Ascii NArith Lia.
From S2P Require Import Prelude Encoding Text Ids Tags Event Filter FilterWire Nips Message.

Module Nip45.

Definition HLL_REGISTERS : nat := 256.
Definition HLL_HEX_LEN : nat := HLL_REGISTERS * 2.

Record HyperLogLog := mk { registers : list byte }.
#[global] Instance HyperLogLog_eq_dec : EqDecision HyperLogLog.
Proof. solve_decision. Defined.

(** The length of the array. *)
Definition wf (h : HyperLogLog) : Prop := length (registers h) = HLL_REGISTERS.

Record CountRequest := mkRequest { rq_subscription_id : SubscriptionId; filters : list Filter }.
Record CountResponse := mkResponse {
  subscription_id : SubscriptionId;
  count : N;
  approximate : bool;
  hll : option HyperLogLog;
}.

(** The text of a decoding error is left out. *)
Inductive CountError := HllLength (n : nat) | HllHex (e : Hex.HexError).

Definition new : HyperLogLog := mk (replicate HLL_REGISTERS x00).
Definition hll_as_bytes (h : HyperLogLog) : list byte := registers h.
Definition from_bytes (r : list byte) : HyperLogLog := mk r.

(** [u8::saturating_add] and [u8::leading_zeros]. *)
Definition saturating_add (a b : N) : N := N.min 255 (a + b).
Definition leading_zeros (b : byte) : N := 8 - N.size (Byte.to_N b).

(** The loop over the bytes behind the register's. *)
Fixpoint count_zeros (zeros : N) (tail : list byte) : N :=
  match tail with
  | [] => zeros
  | b :: tail =>
      if Byte.eqb b x00 then count_zeros (saturating_add zeros 8) tail else saturating_add zeros (leading_zeros b)
  end.

(** [slot.max(value)], as the code writes it. *)
Definition raise (value slot : byte) : byte := if (Byte.to_N slot <? Byte.to_N value)%N then value else slot.

Definition observe (h : HyperLogLog) (offset : nat) (hash : bytes32) : bool * HyperLogLog :=
  if negb ((8 <=? offset)%nat && (offset <=? 23)%nat) then (false, h)
  else
    match b32_list hash !! offset with
    | None => (false, h)
    | Some register_byte =>
        let register_index := N.to_nat (Byte.to_N register_byte) in
        let tail := drop (offset + 1) (b32_list hash) in
        let value := byte_of_N (saturating_add (count_zeros 0 tail) 1) in
        match registers h !! register_index with
        | None => (false, h)
        | Some slot => (true, mk (<[register_index := raise value slot]> (registers h)))
        end
    end.

Fixpoint merge_registers (a b : list byte) : list byte :=
  match a, b with
  | x :: a, y :: b => raise y x :: merge_registers a b
  | a, _ => a
  end.
Definition merge (h other : HyperLogLog) : HyperLogLog := mk (merge_registers (registers h) (registers other)).

Section nip45.
Context `{FasterHex, EventCrypto}.

Definition to_hex (h : HyperLogLog) : string := Hex.encode (registers h).
Definition from_hex (hex_str : string) : result HyperLogLog CountError :=
  if decide (String.length hex_str ≠ HLL_HEX_LEN) then Err (HllLength (String.length hex_str))
  else
    let? bytes := map_err HllHex (Hex.decode (as_bytes hex_str)) in
    if decide (length bytes = HLL_REGISTERS) then Ok (mk bytes) else Err (HllLength (length bytes * 2)).

Definition is_ascii_hexdigit (b : byte) : bool :=
  let n := Byte.to_N b in
  ((48 <=? n) && (n <=? 57) || (65 <=? n) && (n <=? 70) || (97 <=? n) && (n <=? 102))%N.
Definition is_64_hex (s : string) : bool := (String.length s =? 64)%nat && forallb is_ascii_hexdigit (as_bytes s).
Definition coordinate_pubkey_part (s : string) : option string :=
  match splitn 3 ":" s with
  | _ :: pubkey :: _ :: _ => Some pubkey
  | _ => None
  end.
Definition canonical_hex_for_value (value : string) : string :=
  if is_64_hex value then Text.to_ascii_lowercase value
  else
    match coordinate_pubkey_part value with
    | Some pubkey => if is_64_hex pubkey then Text.to_ascii_lowercase pubkey else Hex.encode (b32_list (sha256 (as_bytes value)))
    | None => Hex.encode (b32_list (sha256 (as_bytes value)))
    end.
Definition hex_digit_value (b : byte) : N :=
  let n := Byte.to_N b in
  if ((48 <=? n) && (n <=? 57))%N then n - 48
  else if ((97 <=? n) && (n <=? 102))%N then n - 97 + 10
  else if ((65 <=? n) && (n <=? 70))%N then n - 65 + 10
  else 0.
Definition hll_offset_for_value (value : string) : nat :=
  let hex_str := canonical_hex_for_value value in
  let nibble := match as_bytes hex_str !! 32%nat with Some b => hex_digit_value b | None => 0%N end in
  8 + N.to_nat nibble.
End nip45.
End Nip45.

(** ** What a sketch is *)

Section sketches.
Import Nip45.

(** A register as a number. *)
Definition reg (h : HyperLogLog) (i : nat) : N := default 0%N (Byte.to_N <$> registers h !! i).

(** The register a hash goes to, and the value it raises it to. *)
Definition target (offset : nat) (hash : bytes32) : nat := N.to_nat (Byte.to_N (default x00 (b32_list hash !! offset))).
Definition rank (offset : nat) (hash : bytes32) : N :=
  saturating_add (count_zeros 0 (drop (offset + 1) (b32_list hash))) 1.
Definition contribution (offset i : nat) (hash : bytes32) : N := if decide (target offset hash = i) then rank offset hash else 0.

Lemma wf_ext a b : wf a → wf b → (∀ i, reg a i = reg b i) → a = b.
Proof.
  destruct a as [a], b as [b]. unfold wf, reg. simpl. intros Ha Hb Hr. f_equal. apply list_eq_same_length with (n := HLL_REGISTERS); [done|done|].
  intros i x y _ Hx Hy. specialize (Hr i). rewrite Hx, Hy in Hr. by apply byte_to_N_inj.
Qed.

Lemma raise_max v s : Byte.to_N (raise v s) = N.max (Byte.to_N s) (Byte.to_N v).
Proof. unfold raise. destruct (N.ltb_spec (Byte.to_N s) (Byte.to_N v)); lia. Qed.

Lemma merge_wf a b : wf a → wf b → wf (merge a b).
Proof.
  destruct a as [a], b as [b]. unfold wf. simpl. intros Ha Hb. rewrite <-Hb in Ha. rewrite <-Hb. clear Hb. revert b Ha.
  induction a as [|x a IH]; intros [|y b] Ha; simpl in *; try done. f_equal. apply IH. lia.
Qed.
Lemma merge_reg a b i : wf a → wf b → reg (merge a b) i = N.max (reg a i) (reg b i).
Proof.
  destruct a as [a], b as [b]. unfold wf, reg. simpl. intros Ha Hb. rewrite <-Hb in Ha. clear Hb. revert b i Ha.
  induction a as [|x a IH]; intros [|y b] i Ha; simpl in *; try done. destruct i as [|i]; simpl; [apply raise_max|].
  apply IH. lia.
Qed.

Lemma byte_of_saturated n : Byte.to_N (byte_of_N (saturating_add n 1)) = saturating_add n 1.
Proof. rewrite to_N_byte_of_N. apply N.mod_small. unfold saturating_add. lia. Qed.

Lemma observe_spec h offset hash : wf h → 8 ≤ offset ≤ 23 →
  ∃ h', observe h offset hash = (true, h') ∧ wf h' ∧ ∀ i, reg h' i = N.max (reg h i) (contribution offset i hash).
Proof.
  intros Hw Ho. unfold observe. rewrite (proj2 (Nat.leb_le 8 offset)), (proj2 (Nat.leb_le offset 23)) by lia. cbn [andb negb].
  destruct (lookup_lt_is_Some_2 (b32_list hash) offset) as [r Hr]; [rewrite length_b32; lia|]. rewrite Hr.
  assert (N.to_nat (Byte.to_N r) < 256)%nat as Hlt by (pose proof (byte_to_N_lt r); lia).
  destruct (lookup_lt_is_Some_2 (registers h) (N.to_nat (Byte.to_N r))) as [s Hs]; [unfold wf, HLL_REGISTERS in Hw; lia|].
  rewrite Hs. eexists. split; [reflexivity|]. split; [unfold wf; simpl; by rewrite length_insert|].
  intros i. unfold reg, contribution, target, rank. cbn [registers]. rewrite Hr. cbn [default from_option].
  destruct (decide (N.to_nat (Byte.to_N r) = i)) as [<-|Hne].
  - rewrite list_lookup_insert_eq by (unfold wf, HLL_REGISTERS in Hw; lia). rewrite Hs. simpl. rewrite raise_max, byte_of_saturated. by rewrite decide_True.
  - rewrite list_lookup_insert_ne by done. rewrite decide_False by done. lia.
Qed.

(** The sketch of a list of hashes, and the number of each register. *)
Definition observe_all (offset : nat) (h : HyperLogLog) (hashes : list bytes32) : HyperLogLog :=
  foldl (λ h x, (observe h offset x).2) h hashes.
Definition sketch (offset : nat) (hashes : list bytes32) : HyperLogLog := observe_all offset new hashes.
Definition highest (offset i : nat) (hashes : list bytes32) : N := foldr N.max 0%N (contribution offset i <$> hashes).

Lemma highest_cons offset i x hashes : highest offset i (x :: hashes) = N.max (contribution offset i x) (highest offset i hashes).
Proof. reflexivity. Qed.
Lemma observe_all_spec offset hashes h : wf h → 8 ≤ offset ≤ 23 →
  wf (observe_all offset h hashes) ∧ ∀ i, reg (observe_all offset h hashes) i = N.max (reg h i) (highest offset i hashes).
Proof.
  intros Hw Ho. revert h Hw. induction hashes as [|x hashes IH]; intros h Hw; simpl; [split; [done|]; intros i; unfold highest; simpl; lia|].
  destruct (observe_spec h offset x Hw Ho) as (h' & -> & Hw' & Hr'). simpl. destruct (IH h' Hw') as [Hw'' Hr'']. split; [done|].
  intros i. rewrite Hr'', Hr', highest_cons. lia.
Qed.
Lemma sketch_new_wf : wf new.
Proof. apply length_replicate. Qed.
Lemma reg_new i : reg new i = 0%N.
Proof.
  unfold reg, new. cbn [registers]. destruct (replicate HLL_REGISTERS x00 !! i) as [b|] eqn:E; [|reflexivity].
  apply lookup_replicate in E as [-> _]. reflexivity.
Qed.
Lemma sketch_spec offset hashes : 8 ≤ offset ≤ 23 → wf (sketch offset hashes) ∧ ∀ i, reg (sketch offset hashes) i = highest offset i hashes.
Proof.
  intros Ho. destruct (observe_all_spec offset hashes new sketch_new_wf Ho) as [Hw Hr]. split; [done|]. intros i. unfold sketch. rewrite Hr, reg_new. lia.
Qed.
Lemma highest_le offset i hashes n : (highest offset i hashes <= n)%N ↔ ∀ x, x ∈ hashes → (contribution offset i x <= n)%N.
Proof.
  induction hashes as [|x hashes IH]; [unfold highest; simpl; split; [set_solver|lia]|]. rewrite highest_cons, N.max_lub_iff, IH. set_solver.
Qed.
Lemma highest_app offset i l l' : highest offset i (l ++ l') = N.max (highest offset i l) (highest offset i l').
Proof.
  induction l as [|x l IH]; [unfold highest; simpl; lia|]. rewrite <-app_comm_cons, !highest_cons, IH. lia.
Qed.
End sketches.

Section counting.
Context `{FasterHex, !FasterHexLaws, EventCrypto}.
Import Nip45.

Lemma hex_digit_range b : (hex_digit_value b <= 15)%N.
Proof. by destruct b. Qed.
Lemma offset_range value : (8 ≤ hll_offset_for_value value ≤ 23)%nat.
Proof.
  unfold hll_offset_for_value. destruct (_ !! 32%nat) as [b|]; [|lia]. pose proof (hex_digit_range b). lia.
Qed.

Lemma sketch_hex h : wf h → from_hex (to_hex h) = Ok h.
Proof.
  intros Hw. unfold from_hex, to_hex. rewrite decide_False.
  - rewrite hex_decode_encode. cbn [map_err result_bind]. rewrite decide_True by done. by destruct h.
  - rewrite <-length_as_bytes, hex_encode_spec, Hex.length_fmt_lower, Hw. intros []. reflexivity.
Qed.
Lemma sketch_hex_length s h : from_hex s = Ok h → wf h ∧ String.length s = HLL_HEX_LEN.
Proof.
  unfold from_hex. case_decide as Hl; [done|]. destruct (Hex.decode _); [|done]. cbn [map_err result_bind].
  case_decide; [|done]. intros [= <-]. split; [done|lia].
Qed.

(** Counting over several relays.  The offset a value gives is one the sketch takes.
    Merging the sketches two relays made is the sketch of all they saw, so the order
    of the events, how they are spread over the relays and how often each was seen
    do not matter; merging is commutative, associative and idempotent.  A sketch
    survives its hex form, and only texts of its length are read. *)
Theorem sketches_merge value l l' : let o := hll_offset_for_value value in
  merge (sketch o l) (sketch o l') = sketch o (l ++ l')
  ∧ ((∀ x, x ∈ l ↔ x ∈ l') → sketch o l = sketch o l')
  ∧ (∀ i, reg (sketch o l) i = highest o i l)
  ∧ (∀ a b c, wf a → wf b → wf c →
       merge a b = merge b a ∧ merge a (merge b c) = merge (merge a b) c ∧ merge a a = a ∧ merge a new = a)
  ∧ (∀ h x, wf h → (observe h o x).1 = true)
  ∧ from_hex (to_hex (sketch o l)) = Ok (sketch o l)
  ∧ ∀ s h, from_hex s = Ok h → wf h ∧ String.length s = HLL_HEX_LEN.
Proof.
  intros o. pose proof (offset_range value) as Ho. fold o in Ho.
  destruct (sketch_spec o l Ho) as [Hw Hr], (sketch_spec o l' Ho) as [Hw' Hr'], (sketch_spec o (l ++ l') Ho) as [Hwa Hra].
  split_and!; [| |done| | |by apply sketch_hex|apply sketch_hex_length].
  - apply wf_ext; [by apply merge_wf|done|]. intros i. by rewrite merge_reg, Hr, Hr', Hra, highest_app.
  - intros Hs. apply wf_ext; [done..|]. intros i. rewrite Hr, Hr'.
    apply N.le_antisymm; apply highest_le; intros x Hx; eapply highest_le; [done|by apply Hs|done|by apply Hs].
  - intros a b c Ha Hb Hc. pose proof sketch_new_wf.
    split_and!; (apply wf_ext; [by repeat apply merge_wf|by repeat apply merge_wf|]); intros i;
      rewrite !merge_reg by (try by repeat apply merge_wf); rewrite ?reg_new; lia.
  - intros h x Hh. by destruct (observe_spec h o x Hh Ho) as (h' & -> & _).
Qed.
End counting.
