(* ===== verification/Scanning.v ===== *)
(** * What texts refer to

    The scanners of contents for [nostr:] addresses ([nips/nip27.rs]) and for custom
    emoji ([nips/nip30.rs]), search queries ([nips/nip50.rs]) and internet
    identifiers ([nips/nip05.rs]).  Positions are byte offsets. *)

From Stdlib Require Import Ascii NArith Lia.
From S2P Require Import Prelude Encoding Text Ids Tags Event Filter FilterWire Nips Message HttpAuth Entities Derive.
From S2P Require Import GiftWrap TagReader Parser.

(** ** Scanners

    A scanner is a cursor over a text.  One round of the loop in its [next] ends the
    iteration, moves the cursor on, or yields an item with the cursor behind it. *)

Inductive Round (A : Type) :=
| Stop
| Skip (cursor : nat)
| Yield (item : A) (cursor : nat).
Arguments Stop {_}.
Arguments Skip {_}.
Arguments Yield {_}.

(** [Iterator::next], and all the items it yields. *)
Fixpoint next {A} (fuel : nat) (round : nat → Round A) (cursor : nat) : option (A * nat) :=
  match fuel with
  | O => None
  | S fuel =>
      match round cursor with
      | Stop => None
      | Skip c => next fuel round c
      | Yield a c => Some (a, c)
      end
  end.
Fixpoint collect {A} (fuel inner : nat) (round : nat → Round A) (cursor : nat) : list A :=
  match fuel with
  | O => []
  | S fuel =>
      match next inner round cursor with
      | Some (a, c) => a :: collect fuel inner round c
      | None => []
      end
  end.
(** Every round moves the cursor within the text, so its length bounds both loops. *)
Definition scan_all {A} (len : nat) (round : nat → Round A) : list A := collect (S len) (S len) round 0.

Section scanner.
Context {A : Type} (round : nat → Round A) (len : nat).
Implicit Types (c : nat) (a : A).

(** Progress within the text, up to its end. *)
Definition progresses : Prop :=
  (∀ c, len ≤ c → round c = Stop)
  ∧ (∀ c c', round c = Skip c' → c < c')
  ∧ (∀ c a c', round c = Yield a c' → c < c').

Context (Hp : progresses).

Lemma next_S fuel c :
  next (S fuel) round c = match round c with Stop => None | Skip c' => next fuel round c' | Yield a c' => Some (a, c') end.
Proof. done. Qed.
Lemma next_unfold fuel c : len < fuel + c →
  next fuel round c = match round c with Stop => None | Skip c' => next fuel round c' | Yield a c' => Some (a, c') end.
Proof.
  destruct Hp as (Hstop & Hskip & _). revert c. induction fuel as [|fuel IH]; intros c Hf.
  - simpl. rewrite Hstop by lia. done.
  - rewrite next_S. destruct (round c) as [|c'|a c'] eqn:E; [done| |done]. apply Hskip in E. by rewrite next_S, (IH c') by lia.
Qed.
Lemma next_moves fuel c a c' : next fuel round c = Some (a, c') → c < c'.
Proof.
  destruct Hp as (_ & Hskip & Hyield). revert c. induction fuel as [|fuel IH]; intros c; [done|]. cbn [next].
  destruct (round c) as [|d|b d] eqn:E; [done| |].
  - intros Hn%IH. apply Hskip in E. lia.
  - intros [= <- <-]. by eapply Hyield.
Qed.

Definition items c : list A := collect (S (len - c)) (S len) round c.

Lemma collect_fuel fuel fuel' c : len < fuel + c → len < fuel' + c →
  collect fuel (S len) round c = collect fuel' (S len) round c.
Proof.
  revert fuel' c. induction fuel as [|fuel IH]; intros fuel' c H1 H2.
  - destruct fuel' as [|fuel']; [done|]. cbn [collect]. rewrite next_unfold by lia. destruct Hp as (Hstop & _). by rewrite Hstop by lia.
  - destruct fuel' as [|fuel'].
    + cbn [collect]. rewrite next_unfold by lia. destruct Hp as (Hstop & _). by rewrite Hstop by lia.
    + cbn [collect]. destruct (next (S len) round c) as [[a c']|] eqn:E; [|done]. apply next_moves in E. f_equal. apply IH; lia.
Qed.
Lemma collect_S fuel c :
  collect (S fuel) (S len) round c = match next (S len) round c with Some (a, c') => a :: collect fuel (S len) round c' | None => [] end.
Proof. done. Qed.
Lemma items_unfold c :
  items c = match round c with Stop => [] | Skip c' => items c' | Yield a c' => a :: items c' end.
Proof.
  unfold items. rewrite (collect_S (len - c)), next_unfold by lia. pose proof Hp as (_ & Hskip & Hyield).
  destruct (round c) as [|c'|a c'] eqn:E; [done| |].
  - apply Hskip in E. rewrite collect_S. destruct (next (S len) round c') as [[a d]|] eqn:En; [|done]. apply next_moves in En.
    f_equal. apply collect_fuel; lia.
  - apply Hyield in E. f_equal. apply collect_fuel; lia.
Qed.
Lemma scan_all_items : scan_all len round = items 0.
Proof. unfold scan_all, items. apply collect_fuel; lia. Qed.

(** Induction along the rounds. *)
Lemma rounds_ind (P : nat → list A → Prop) :
  (∀ c, round c = Stop → P c []) →
  (∀ c c', round c = Skip c' → P c' (items c') → P c (items c')) →
  (∀ c a c', round c = Yield a c' → P c' (items c') → P c (a :: items c')) →
  ∀ c, P c (items c).
Proof.
  intros H1 H2 H3 c. pose proof Hp as (Hstop & Hskip & Hyield).
  remember (len - c) as n eqn:En. revert c En. induction n as [n IH] using lt_wf_ind. intros c ->. rewrite items_unfold.
  destruct (decide (len ≤ c)) as [Hc|Hc]; [rewrite Hstop by done; apply H1; by apply Hstop|].
  destruct (round c) as [|c'|a c'] eqn:E; [by apply H1| |].
  - apply H2; [done|]. apply Hskip in E. destruct (decide (len ≤ c')); [rewrite items_unfold, Hstop by done; apply H1; by apply Hstop|].
    eapply IH; [|reflexivity]. lia.
  - apply H3; [done|]. apply Hyield in E. destruct (decide (len ≤ c')); [rewrite items_unfold, Hstop by done; apply H1; by apply Hstop|].
    eapply IH; [|reflexivity]. lia.
Qed.
End scanner.

(** ** Addresses in a content *)

(** [slice::windows] and [position]: the first place a pattern is at. *)
Fixpoint is_prefix (p bs : list byte) : bool :=
  match p, bs with
  | [], _ => true
  | a :: p, b :: bs => Byte.eqb a b && is_prefix p bs
  | _ :: _, [] => false
  end.
Fixpoint find_bytes (p bs : list byte) : option nat :=
  if is_prefix p bs then Some 0
  else match bs with [] => None | _ :: bs => S <$> find_bytes p bs end.

Module Nip27.

Definition SCHEME : string := "nostr:".

Section nip27.
Context `{FasterHex, Secp256k1, SecretScalar, UrlCrate, Bech32Crate}.

Record Reference := mkReference { range : nat * nat; entity : Nip21.Nip21 }.

Definition find_scheme (haystack : list byte) : option nat := find_bytes (as_bytes SCHEME) haystack.
Definition body_byte (b : byte) : bool := is_ascii_lowercase b || is_ascii_digit b.
Definition scan_bech32_body (bs : list byte) : nat := scan body_byte bs.

Definition round (content : list byte) (cursor : nat) : Round Reference :=
  if (length content <? cursor)%nat then Stop
  else
    match find_scheme (drop cursor content) with
    | None => Stop
    | Some rel =>
        let start := cursor + rel in
        let body_start := start + String.length SCHEME in
        let body_end := scan_bech32_body (drop body_start content) + body_start in
        if (body_end =? body_start)%nat then Skip body_start
        else
          match str_get content start body_end with
          | None => Stop
          | Some uri =>
              match Nip21.parse (as_str uri) with
              | Ok e => Yield (mkReference (start, body_end) e) body_end
              | Err _ => Skip body_end
              end
          end
    end.
Definition references_in (content : string) : list Reference :=
  scan_all (String.length content) (round (as_bytes content)).

Definition make_tag (letter : Alphabet.t) (args : list string) : Tag := Tag.with_ (Tag.lower letter) args.
Definition entity_to_tags (e : Nip21.Nip21) : list Tag :=
  match e with
  | Nip21.Pubkey pk => [Tag.p pk]
  | Nip21.Profile p =>
      [make_tag Alphabet.P (PublicKey.to_hex (Nip19.public_key p) :: option_list (RelayUrl.as_str <$> head (Nip19.p_relays p)))]
  | Nip21.EventIdUri id => [make_tag Alphabet.Q [EventId.to_hex id]]
  | Nip21.EventUri e =>
      [make_tag Alphabet.Q ([EventId.to_hex (Nip19.event_id e); unwrap_or_default (RelayUrl.as_str <$> head (Nip19.e_relays e))]
                            ++ option_list (PublicKey.to_hex <$> Nip19.author e))]
  | Nip21.CoordinateUri c =>
      [make_tag Alphabet.Q (Coordinate.to_wire (Nip19.coordinate c) :: option_list (RelayUrl.as_str <$> head (Nip19.c_relays c)))]
  end.
(** The loop, with the values seen so far. *)
Definition push_new (acc : gset (list string) * list Tag) (tag : Tag) : gset (list string) * list Tag :=
  if decide (Tag.values tag ∈ acc.1) then acc else ({[Tag.values tag]} ∪ acc.1, acc.2 ++ [tag]).
Definition tags_from_content (content : string) : list Tag :=
  (foldl push_new (∅, []) (r ← references_in content; entity_to_tags (entity r))).2.
End nip27.
End Nip27.

(** ** Custom emoji *)

Module Nip30.

Definition EMOJI_TAG_KEY : string := "emoji".

Inductive Nip30Error :=
| EmptyShortcode
| InvalidShortcode (s : string)
| EmptyUrl
| InvalidSet (s : string).

Definition shortcode_byte (b : byte) : bool := is_ascii_alphanumeric b || Byte.eqb b x2d || Byte.eqb b x5f.
Definition validate_shortcode (s : string) : result unit Nip30Error :=
  if decide (s = EmptyString) then Err EmptyShortcode
  else if negb (forallb shortcode_byte (as_bytes s)) then Err (InvalidShortcode s)
  else Ok tt.

Record Emoji := mkEmoji { shortcode : string; url : string; set : option Coordinate }.
Definition new (shortcode url : string) : result Emoji Nip30Error :=
  let? _ := validate_shortcode shortcode in
  if decide (url = EmptyString) then Err EmptyUrl else Ok (mkEmoji shortcode url None).
Definition with_set (e : Emoji) (c : Coordinate) : Emoji := mkEmoji (shortcode e) (url e) (Some c).
Definition token (e : Emoji) : string := ":" +:+ shortcode e +:+ ":".

Section nip30.
Context `{FasterHex, Secp256k1}.

(** [Tag::emoji]. *)
Definition emoji (e : Emoji) : Tag :=
  Tag.with_ (TagKind.Custom EMOJI_TAG_KEY) ([shortcode e; url e] ++ option_list (Coordinate.to_wire <$> set e)).
Definition from_tag (tag : Tag) : option Emoji :=
  if decide (Tag.kind tag ≠ TagKind.Custom EMOJI_TAG_KEY) then None
  else
    shortcode ← Tag.get tag 1;
    url ← Tag.get tag 2;
    match validate_shortcode shortcode with
    | Err _ => None
    | Ok _ =>
        if decide (url = EmptyString) then None
        else Some (mkEmoji shortcode url (Tag.get tag 3 ≫= λ raw, result_ok (Coordinate.parse raw)))
    end.
Definition emojis_from_tags (tags : list Tag) : list Emoji := omap from_tag tags.
End nip30.

Definition count_shortcode_bytes (bs : list byte) : nat := scan shortcode_byte bs.

Definition round (bs : list byte) (cursor : nat) : Round (nat * nat * list byte) :=
  match bs !! cursor with
  | None => Stop
  | Some first =>
      if negb (Byte.eqb first x3a) then Skip (cursor + 1)
      else
        let start := cursor in
        let body_start := start + 1 in
        let body_len := count_shortcode_bytes (drop body_start bs) in
        let end_ := body_start + body_len in
        if (body_len =? 0)%nat || negb (bool_decide (bs !! end_ = Some x3a)) then Skip (start + 1)
        else
          let full_end := end_ + 1 in
          match str_get bs body_start end_ with
          | None => Stop
          | Some body => Yield (start, full_end, body) full_end
          end
  end.
(** A span and the shortcode in it, as bytes. *)
Definition shortcodes_in (content : string) : list (nat * nat * list byte) :=
  scan_all (String.length content) (round (as_bytes content)).
End Nip30.

(** ** What the scanners find *)

Definition spans_ordered {A} (range : A → nat * nat) (c : nat) (l : list A) : Prop :=
  ∀ i a, l !! i = Some a → c ≤ (range a).1 ∧ (range a).1 < (range a).2
    ∧ ∀ b, l !! S i = Some b → (range a).2 ≤ (range b).1.

Lemma spans_cons {A} (range : A → nat * nat) c a l :
  c ≤ (range a).1 → (range a).1 < (range a).2 → spans_ordered range (range a).2 l → spans_ordered range c (a :: l).
Proof.
  intros H1 H2 Hl i x Hx. destruct i as [|i]; simpl in Hx.
  - injection Hx as <-. split_and!; [done|done|]. intros b Hb. simpl in Hb. by apply (Hl 0%nat b Hb).
  - destruct (Hl i x Hx) as (H3 & H4 & H5). split_and!; [lia|done|done].
Qed.
Lemma spans_weaken {A} (range : A → nat * nat) c c' l : c ≤ c' → spans_ordered range c' l → spans_ordered range c l.
Proof. intros Hc Hl i x Hx. destruct (Hl i x Hx) as (H3 & H4 & H5). split_and!; [lia|done|done]. Qed.

Section shortcodes.
Import Nip30.
Context (bs : list byte).

(** A shortcode between colons at a place of the text. *)
Definition shortcode_at (i : nat) (body : list byte) : Prop :=
  body ≠ [] ∧ forallb shortcode_byte body = true ∧ ∃ rest, drop i bs = x3a :: body ++ x3a :: rest.

Lemma scan_exact p body x rest : forallb p body = true → p x = false → scan p (body ++ x :: rest) = length body.
Proof.
  intros Hb Hx. induction body as [|b body IH]; simpl in *; [by rewrite Hx|]. apply andb_prop in Hb as [-> Hb]. by rewrite IH.
Qed.
Lemma shortcode_ascii b : shortcode_byte b = true → ascii b ∧ b ≠ x0a.
Proof. by destruct b. Qed.
Lemma ascii_boundary i b : bs !! i = Some b → ascii b → boundary bs i = true.
Proof.
  intros Hi Ha. unfold boundary. destruct i as [|i]; [done|]. rewrite Hi. unfold ascii in Ha. revert Ha. by destruct b.
Qed.
Lemma drop_lookup i l x : drop i bs = l → ∀ j, l !! j = Some x → bs !! (i + j)%nat = Some x.
Proof. intros <- j Hj. by rewrite lookup_drop in Hj. Qed.

Lemma round_shortcode i body : shortcode_at i body →
  round bs i = Yield (i, i + length body + 2, body) (i + length body + 2).
Proof.
  intros (Hne & Hb & rest & Hd). unfold round, count_shortcode_bytes.
  pose proof (drop_lookup i _ x3a Hd 0%nat eq_refl) as H0. rewrite Nat.add_0_r in H0. rewrite H0.
  change (Byte.eqb x3a x3a) with true. cbn [negb].
  assert (drop (i + 1) bs = body ++ x3a :: rest) as Hd1 by (rewrite <-drop_drop, Hd; done). rewrite Hd1.
  rewrite (scan_exact _ _ _ _ Hb) by done.
  assert (bs !! (i + 1 + length body)%nat = Some x3a) as H1.
  { eapply drop_lookup; [exact Hd1|]. by rewrite lookup_app_r, Nat.sub_diag. }
  rewrite H1, bool_decide_true by done. destruct (Nat.eqb_spec (length body) 0); [by destruct body|]. cbn [orb negb].
  destruct body as [|b0 body'] eqn:Eb; [done|]. rewrite <-Eb in *.
  assert (bs !! (i + 1)%nat = Some b0) as Hb0.
  { rewrite <-(Nat.add_0_r (i + 1)). eapply drop_lookup; [exact Hd1|]. by rewrite Eb. }
  assert (ascii b0) as Ha0 by (rewrite Eb in Hb; simpl in Hb; apply andb_prop in Hb as [Hb _]; by apply shortcode_ascii).
  rewrite str_get_segment; [|by eapply ascii_boundary|by apply (ascii_boundary _ x3a)|lia].
  unfold segment. rewrite Hd1. replace (i + 1 + length body - (i + 1))%nat with (length body) by lia. rewrite take_app_length.
  by replace (i + 1 + length body + 1)%nat with (i + length body + 2)%nat by lia.
Qed.

Lemma round_yields i x c : round bs i = Yield x c → ∃ body, shortcode_at i body ∧ x = (i, i + length body + 2, body) ∧ c = i + length body + 2.
Proof.
  unfold round, count_shortcode_bytes. destruct (bs !! i) as [b|] eqn:Ei; [|done]. destruct (Byte.eqb b x3a) eqn:Eb; [|done]. cbn [negb].
  apply Byte.byte_dec_bl in Eb as ->. set (n := scan shortcode_byte (drop (i + 1) bs)).
  destruct (Nat.eqb_spec n 0) as [|Hn]; [done|]. case_bool_decide as He; [|done]. cbn [orb negb].
  destruct (str_get bs (i + 1) (i + 1 + n)) as [body|] eqn:Es; [|done]. intros [= <- <-].
  unfold str_get in Es. destruct (_ && _); [|done]. injection Es as <-.
  set (body := take (i + 1 + n - (i + 1)) (drop (i + 1) bs)).
  assert (length body = n) as Hl.
  { unfold body. rewrite length_take, length_drop. apply lookup_lt_Some in He. lia. }
  exists body. rewrite Hl. split; [|by replace (i + 1 + n + 1)%nat with (i + n + 2)%nat by lia].
  split; [by destruct body; simpl in Hl|]. split.
  - apply forallb_forall. intros x (j & Hj)%list_elem_of_In%list_elem_of_lookup.
    pose proof (lookup_lt_Some _ _ _ Hj) as Hlt. unfold body in Hj. rewrite lookup_take_lt in Hj by lia.
    destruct (scan_lookup shortcode_byte (drop (i + 1) bs) j) as (y & Hy & Hp); [fold n; lia|]. congruence.
  - exists (drop (i + 1 + n + 1) bs). rewrite (drop_S _ x3a) by done. f_equal. rewrite <-(take_drop n (drop (S i) bs)).
    unfold body. replace (i + 1 + n - (i + 1))%nat with n by lia. rewrite Nat.add_1_r. f_equal. rewrite drop_drop.
    replace (S i + n)%nat with (i + 1 + n)%nat by lia. rewrite (drop_S _ x3a) by done. f_equal. f_equal. lia.
Qed.
Lemma round_skips i c : round bs i = Skip c → c = i + 1.
Proof. unfold round. repeat (case_match; try done); by intros [= <-]. Qed.

Lemma shortcodes_progress : progresses (round bs) (length bs).
Proof.
  split_and!.
  - intros c Hc. unfold round. by rewrite (proj2 (lookup_ge_None bs c)).
  - intros c c' ->%round_skips. lia.
  - intros c a c' (body & _ & _ & ->)%round_yields. lia.
Qed.
Lemma round_stops i : round bs i = Stop → length bs ≤ i.
Proof.
  intros Hs. apply lookup_ge_None. destruct (bs !! i) as [b|] eqn:Ei; [|done]. exfalso. revert Hs. unfold round. rewrite Ei.
  destruct (Byte.eqb b x3a) eqn:Eb; [|done]. cbn [negb]. set (n := count_shortcode_bytes (drop (i + 1) bs)).
  destruct (Nat.eqb_spec n 0) as [|Hn]; [done|]. case_bool_decide as He; [|done]. cbn [orb negb].
  destruct (scan_lookup shortcode_byte (drop (i + 1) bs) 0) as (y & Hy & Hp); [fold (count_shortcode_bytes (drop (i + 1) bs)); fold n; lia|].
  rewrite lookup_drop, Nat.add_0_r in Hy. rewrite str_get_segment; [done| | |lia].
  - eapply ascii_boundary; [done|by apply shortcode_ascii].
  - by eapply ascii_boundary.
Qed.
End shortcodes.

Section emoji.
Import Nip30.

(** The scanner of a content finds shortcodes between colons, one behind the other,
    and all of them but those that overlap one it found. *)
Lemma shortcodes_spans content (bs := as_bytes content) :
  spans_ordered (λ s, s.1) 0 (shortcodes_in content)
  ∧ (∀ s e body, (s, e, body) ∈ shortcodes_in content → shortcode_at bs s body ∧ e = s + length body + 2)
  ∧ (∀ i body, shortcode_at bs i body →
       ∃ s e b, (s, e, b) ∈ shortcodes_in content ∧ s < i + length body + 2 ∧ i < e).
Proof.
  assert (shortcodes_in content = items (round bs) (length bs) 0) as ->.
  { unfold shortcodes_in. fold bs. rewrite <-length_as_bytes. fold bs. apply scan_all_items, shortcodes_progress. }
  pose proof (shortcodes_progress bs) as Hp. split_and!.
  - apply (rounds_ind _ _ Hp (λ c l, spans_ordered (λ s, s.1) c l)).
    + by intros c _ i x.
    + intros c c' ->%round_skips Hs. eapply spans_weaken; [|done]. lia.
    + intros c x c' (body & _ & -> & ->)%round_yields Hs. apply spans_cons; simpl; [done|lia|done].
  - intros s e body. revert s e body. apply (rounds_ind _ _ Hp (λ c l, ∀ s e body, (s, e, body) ∈ l → shortcode_at bs s body ∧ e = s + length body + 2)).
    + intros c _ s e body Hin. set_solver.
    + by intros c c' _ Hs.
    + intros c x c' (body & Hb & -> & ->)%round_yields Hs s e body'. rewrite elem_of_cons. intros [[= -> -> ->]|Hin]; [done|by apply Hs].
  - intros i body Hi. assert (0 ≤ i) as H0 by lia. revert H0.
    apply (rounds_ind _ _ Hp (λ c l, c ≤ i → ∃ s e b, (s, e, b) ∈ l ∧ s < i + length body + 2 ∧ i < e)).
    + intros c Hc%round_stops Hle. destruct Hi as (_ & _ & rest & Hd). rewrite drop_ge in Hd by lia. done.
    + intros c c' Hr IH Hle. destruct (decide (c = i)) as [->|]; [by rewrite (round_shortcode _ _ _ Hi) in Hr|].
      apply round_skips in Hr as ->. apply IH. lia.
    + intros c x c' (b & Hb & -> & ->)%round_yields IH Hle. destruct (decide (c + length b + 2 ≤ i)) as [Hc|Hc].
      * destruct (IH Hc) as (s & e & b' & Hin & ?). exists s, e, b'. split; [by right|done].
      * exists c, (c + length b + 2), b. split; [left|]. lia.
Qed.

Context `{FasterHex, !FasterHexLaws, Secp256k1}.

(** An emoji that was constructed reads back from its tag; its token in a content is
    found. *)
Lemma emoji_back e : validate_shortcode (shortcode e) = Ok tt → url e ≠ EmptyString → opt_ok coordinate_wf (set e) →
  emojis_from_tags [emoji e] = [e].
Proof.
  intros Hs Hu Hc. unfold emojis_from_tags, from_tag, emoji. cbn [omap list_omap]. rewrite decide_False by by intros [].
  columns. cbn [mbind option_bind app]. rewrite Hs, decide_False by done.
  destruct e as [sc u [c|]]; cbn [shortcode url set option_list option_rect fmap option_fmap option_map] in *; [|done].
  cbn [mbind option_bind]. by rewrite coordinate_printed by by apply Hc.
Qed.
End emoji.

Lemma is_prefix_spec p bs : is_prefix p bs = true ↔ ∃ rest, bs = p ++ rest.
Proof.
  revert bs. induction p as [|a p IH]; intros bs; simpl; [split; [by exists bs|done]|]. destruct bs as [|b bs]; [split; [done|by intros [? ?]]|].
  rewrite andb_true_iff, IH. split.
  - intros [E (rest & ->)]. apply Byte.byte_dec_bl in E as ->. by exists rest.
  - intros (rest & [= -> ->]). split; [by destruct a|by exists rest].
Qed.
Lemma find_bytes_first p bs n : find_bytes p bs = Some n →
  (∃ rest, drop n bs = p ++ rest) ∧ ∀ m, m < n → ¬ ∃ rest, drop m bs = p ++ rest.
Proof.
  revert n. induction bs as [|b bs IH]; intros n; cbn [find_bytes]; destruct (is_prefix p _) eqn:E;
    try (intros [= <-]; apply is_prefix_spec in E; split; [done|lia]); [done|].
  destruct (find_bytes p bs) as [k|] eqn:Ek; [|done]. intros [= <-]. destruct (IH k eq_refl) as [H1 H2]. split; [done|].
  intros [|m] Hm; [by rewrite <-is_prefix_spec; simpl drop; rewrite E|]. apply H2. lia.
Qed.
Lemma find_bytes_complete p bs m rest : p ≠ [] → drop m bs = p ++ rest → ∃ n, find_bytes p bs = Some n ∧ n ≤ m.
Proof.
  intros Hp. revert m. induction bs as [|b bs IH]; intros m Hd.
  - exfalso. rewrite drop_nil in Hd. by destruct p.
  - cbn [find_bytes]. destruct (is_prefix p (b :: bs)) eqn:E; [exists 0%nat; split; [done|lia]|].
    destruct m as [|m]; [exfalso; simpl in Hd; rewrite (proj2 (is_prefix_spec p (b :: bs))) in E by (by exists rest); done|].
    destruct (IH m Hd) as (n & -> & Hn). exists (S n). split; [done|lia].
Qed.

Section references.
Import Nip27.
Context `{FasterHex, Secp256k1, SecretScalar, UrlCrate, Bech32Crate}.
Context (bs : list byte).
Local Abbreviation scheme := (as_bytes SCHEME).

Lemma body_ascii b : body_byte b = true → ascii b ∧ b ≠ x0a.
Proof. by destruct b. Qed.

(** The scheme does not overlap itself. *)
Lemma scheme_apart i j r r' : drop i bs = scheme ++ r → drop j bs = scheme ++ r' → i < j → i + 6 ≤ j.
Proof.
  intros Hi Hj Hlt. destruct (decide (i + 6 ≤ j)) as [|Hn]; [done|exfalso].
  assert (drop (j - i) (scheme ++ r) = scheme ++ r') as Hd by (rewrite <-Hi, drop_drop, <-Hj; f_equal; lia).
  assert (∃ d, j - i = S d ∧ d < 5) as (d & Ed & Hd5) by (exists (j - i - 1)%nat; lia). rewrite Ed in Hd.
  destruct d as [|[|[|[|[|d]]]]]; simpl in Hd; try done. lia.
Qed.

Definition body_end (start : nat) : nat := start + 6 + scan body_byte (drop (start + 6) bs).

Lemma scheme_run start r : drop start bs = scheme ++ r → run bs start (body_end start).
Proof.
  intros Hd. apply (run_app bs start (start + 6)); [|apply scan_run, body_ascii].
  intros j Hj. destruct (lookup_lt_is_Some_2 scheme (j - start)%nat) as [x Hx]; [simpl; lia|]. exists x. split.
  - replace j with (start + (j - start))%nat by lia. rewrite <-lookup_drop, Hd. by apply lookup_app_l_Some.
  - assert (Forall (λ x, ascii x ∧ x ≠ x0a) scheme) as Hs by (repeat constructor; done). rewrite Forall_lookup in Hs. by apply (Hs _ _ Hx).
Qed.

(** One round, by the first scheme at or behind the cursor. *)
Lemma round_spec c : utf8 bs →
  (round bs c = Stop ∧ ∀ i r, c ≤ i → drop i bs ≠ scheme ++ r)
  ∨ ∃ start r, c ≤ start ∧ drop start bs = scheme ++ r ∧ (∀ i r, c ≤ i → drop i bs = scheme ++ r → start ≤ i)
    ∧ round bs c =
        if decide (scan body_byte (drop (start + 6) bs) = 0) then Skip (start + 6)
        else match Nip21.parse (as_str (segment bs start (body_end start))) with
             | Ok e => Yield (mkReference (start, body_end start) e) (body_end start)
             | Err _ => Skip (body_end start)
             end.
Proof.
  intros Hu. unfold round. destruct (Nat.ltb_spec (length bs) c) as [Hc|Hc].
  { left. split; [done|]. intros i r Hi Hd. rewrite drop_ge in Hd by lia. done. }
  unfold find_scheme. destruct (find_bytes scheme (drop c bs)) as [rel|] eqn:Ef.
  - right. apply find_bytes_first in Ef as [(r & Hr) Hfirst]. rewrite drop_drop in Hr. exists (c + rel)%nat, r.
    split_and!; [lia|done| |].
    + intros i r' Hi Hd. destruct (decide (c + rel ≤ i)) as [|Hn]; [done|]. destruct (Hfirst (i - c)%nat); [lia|].
      exists r'. rewrite drop_drop. by replace (c + (i - c))%nat with i by lia.
    + change (String.length SCHEME) with 6. unfold scan_bech32_body. set (n := scan body_byte (drop (c + rel + 6) bs)).
      rewrite (Nat.add_comm n). destruct (Nat.eqb_spec (c + rel + 6 + n) (c + rel + 6)) as [E|E]; [by rewrite decide_True by lia|].
      rewrite decide_False by lia. fold (body_end (c + rel)). pose proof (scheme_run _ _ Hr) as Hrun.
      assert (boundary bs (c + rel) = true) as Hb.
      { eapply ascii_boundary; [|by instantiate (1 := x6e)]. rewrite <-(Nat.add_0_r (c + rel)), <-lookup_drop, Hr. done. }
      rewrite str_get_segment; [done|done| |unfold body_end; lia]. apply (run_boundary bs (c + rel)); [done|done|done|unfold body_end; lia].
  - left. split; [done|]. intros i r Hi Hd. destruct (find_bytes_complete scheme (drop c bs) (i - c) r) as (n & Hn & _); [done| |congruence].
    rewrite drop_drop. by replace (c + (i - c))%nat with i by lia.
Qed.
End references.

Section mentions.
Import Nip27.
Context `{FasterHex, Secp256k1, SecretScalar, UrlCrate, Bech32Crate}.

Lemma references_progress bs : utf8 bs → progresses (round bs) (length bs).
Proof.
  intros Hu. assert (∀ s, s < body_end bs s) as Hlt by (intros s; unfold body_end; lia). split_and!.
  - intros c Hc. destruct (round_spec bs c Hu) as [[-> _]|(s & r & Hs & Hd & _)]; [done|]. rewrite drop_ge in Hd by lia. done.
  - intros c c' Hr. destruct (round_spec bs c Hu) as [[E _]|(s & r & Hs & _ & _ & E)]; rewrite E in Hr; [done|]. specialize (Hlt s).
    case_decide; [injection Hr as <-; lia|]. destruct (Nip21.parse _); [done|]. injection Hr as <-. lia.
  - intros c a c' Hr. destruct (round_spec bs c Hu) as [[E _]|(s & r & Hs & _ & _ & E)]; rewrite E in Hr; [done|]. specialize (Hlt s).
    case_decide; [done|]. destruct (Nip21.parse _); [|done]. injection Hr as <- <-. lia.
Qed.
Lemma references_items content : Utf8.is_str content → references_in content = items (round (as_bytes content)) (length (as_bytes content)) 0.
Proof.
  intros Hu%validate_utf8. unfold references_in. rewrite <-length_as_bytes. apply scan_all_items. by apply references_progress.
Qed.

(** An address: the scheme, a body of lowercase letters and digits, and nothing of
    the kind behind it; nothing before it that would run into it. *)
Definition address_at (bs : list byte) (i : nat) (body : list byte) : Prop :=
  body ≠ [] ∧ forallb body_byte body = true
  ∧ (∃ rest, drop i bs = as_bytes SCHEME ++ body ++ rest ∧ ∀ b rest', rest = b :: rest' → body_byte b = false)
  ∧ (∀ b, 0 < i → bs !! (i - 1)%nat = Some b → body_byte b = false ∧ b ≠ x3a).

Lemma address_end bs i body : address_at bs i body →
  scan body_byte (drop (i + 6) bs) = length body ∧ segment bs i (body_end bs i) = as_bytes SCHEME ++ body.
Proof.
  intros (_ & Hb & (rest & Hd & Hrest) & _).
  assert (drop (i + 6) bs = body ++ rest) as Hd6 by (rewrite <-drop_drop, Hd; done).
  assert (scan body_byte (drop (i + 6) bs) = length body) as Hn.
  { rewrite Hd6. destruct rest as [|b rest']; [|apply scan_exact; [done|by eapply Hrest]].
    rewrite app_nil_r. clear -Hb. induction body as [|x body IH]; [done|]. simpl in *. apply andb_prop in Hb as [-> Hb]. by rewrite IH. }
  split; [done|]. unfold segment, body_end. rewrite Hn, Hd. rewrite app_assoc. apply take_app_length'. rewrite length_app. simpl. lia.
Qed.

Lemma string_of_bytes_app a b : String.string_of_list_byte (a ++ b) = String.string_of_list_byte a +:+ String.string_of_list_byte b.
Proof. apply as_bytes_inj. rewrite as_bytes_app. unfold as_bytes. by rewrite !String.list_byte_of_string_of_list_byte. Qed.

Lemma uri_text body : as_str (as_bytes SCHEME ++ body) = SCHEME +:+ as_str body.
Proof. unfold as_str. by rewrite string_of_bytes_app. Qed.

(** The body of an earlier address ends before. *)
Lemma body_stops bs s i r body : drop s bs = as_bytes SCHEME ++ r → address_at bs i body → s + 6 ≤ i → body_end bs s ≤ i.
Proof.
  intros Hd (_ & _ & _ & Hbefore) Hi. destruct (decide (body_end bs s ≤ i)) as [|Hn]; [done|exfalso]. unfold body_end in Hn.
  destruct (decide (i = s + 6)) as [->|].
  - destruct (Hbefore x3a) as [_ []]; [lia| |done]. replace (s + 6 - 1)%nat with (s + 5)%nat by lia. rewrite <-lookup_drop, Hd. done.
  - destruct (scan_lookup body_byte (drop (s + 6) bs) (i - 1 - (s + 6))) as (x & Hx & Hp); [lia|]. rewrite lookup_drop in Hx.
    replace (s + 6 + (i - 1 - (s + 6)))%nat with (i - 1)%nat in Hx by lia. destruct (Hbefore x) as [Hf _]; [lia|done|congruence].
Qed.

(** The scanner finds addresses, one behind the other, each what its slice of the
    text is read as.  It finds every address whose neighbours are not part of it: one
    directly behind another scheme or word can be missed. *)
Lemma references_found content (bs := as_bytes content) : Utf8.is_str content →
  spans_ordered range 0 (references_in content)
  ∧ (∀ r, r ∈ references_in content → Nip21.parse (as_str (segment bs (range r).1 (range r).2)) = Ok (entity r))
  ∧ (∀ i body e, address_at bs i body → Nip21.parse (SCHEME +:+ as_str body) = Ok e →
       mkReference (i, i + 6 + length body) e ∈ references_in content).
Proof.
  intros Hs. rewrite references_items by done. apply validate_utf8 in Hs as Hu. fold bs in Hu |- *.
  pose proof (references_progress bs Hu) as Hp. assert (∀ s, s < body_end bs s) as Hlt by (intros s; unfold body_end; lia). split_and!.
  - apply (rounds_ind _ _ Hp (spans_ordered range)).
    + by intros c _ i x.
    + intros c c' Hr Hl. eapply spans_weaken; [|done]. apply Hp in Hr. lia.
    + intros c x c' Hr Hl. destruct (round_spec bs c Hu) as [[E _]|(s & r & Hcs & _ & _ & E)]; rewrite E in Hr; [done|].
      case_decide; [done|]. destruct (Nip21.parse _); [|done]. injection Hr as <- <-. by apply spans_cons.
  - apply (rounds_ind _ _ Hp (λ _ l, ∀ r, r ∈ l → Nip21.parse (as_str (segment bs (range r).1 (range r).2)) = Ok (entity r))).
    + intros c _ r Hr. by apply not_elem_of_nil in Hr.
    + by intros c c' _ Hl.
    + intros c x c' Hr Hl y. rewrite elem_of_cons. intros [->|Hy]; [|by apply Hl].
      destruct (round_spec bs c Hu) as [[E _]|(s & r & _ & _ & _ & E)]; rewrite E in Hr; [done|].
      case_decide; [done|]. destruct (Nip21.parse (as_str (segment _ _ _))) eqn:Ep; [|done]. by injection Hr as <- <-.
  - intros i body e Hi He. destruct (address_end bs i body Hi) as [Hn Hseg]. pose proof Hi as (Hne & _ & (rest & Hd & _) & Hbefore).
    assert (0 ≤ i) as Hpos by lia. revert Hpos. apply (rounds_ind _ _ Hp (λ c l, c ≤ i → mkReference (i, i + 6 + length body) e ∈ l)).
    + intros c Hr Hc. destruct (round_spec bs c Hu) as [[_ Hnone]|(s & r & _ & _ & _ & E)].
      * by destruct (Hnone i _ Hc Hd).
      * rewrite E in Hr. case_decide; [done|]. by destruct (Nip21.parse (as_str (segment _ _ _))).
    + intros c c' Hr IH Hc. destruct (round_spec bs c Hu) as [[E _]|(s & r & Hcs & Hds & Hfirst & E)]; rewrite E in Hr; [done|].
      pose proof (Hfirst i _ Hc Hd) as Hsi. destruct (decide (s = i)) as [->|Hsne].
      { exfalso. rewrite Hn in Hr. rewrite decide_False in Hr by (destruct body; simpl; done). by rewrite Hseg, uri_text, He in Hr. }
      apply IH. pose proof (scheme_apart bs s i r _ Hds Hd ltac:(lia)) as H6. case_decide as Hz; [injection Hr as <-; lia|].
      destruct (Nip21.parse (as_str (segment _ _ _))); [done|]. injection Hr as <-. by eapply body_stops.
    + intros c x c' Hr IH Hc. destruct (round_spec bs c Hu) as [[E _]|(s & r & Hcs & Hds & Hfirst & E)]; rewrite E in Hr; [done|].
      pose proof (Hfirst i _ Hc Hd) as Hsi. case_decide as Hz; [done|]. destruct (Nip21.parse (as_str (segment _ _ _))) as [v|] eqn:Ep; [|done]. injection Hr as <- <-.
      destruct (decide (s = i)) as [->|Hsne].
      * rewrite Hseg, uri_text, He in Ep. injection Ep as <-. assert (body_end bs i = i + 6 + length body) as -> by (unfold body_end; by rewrite Hn). left.
      * right. apply IH. pose proof (scheme_apart bs s i r _ Hds Hd ltac:(lia)). by eapply body_stops.
Qed.
End mentions.

Section mention_tags.
Import Nip27.
Context `{FasterHex, Secp256k1, SecretScalar, UrlCrate, Bech32Crate}.

Lemma tag_values_inj : Inj (=) (=) Tag.values.
Proof. intros [a] [b]. simpl. by intros ->. Qed.

Lemma push_new_spec seen out tags : seen = list_to_set (Tag.values <$> out) → NoDup out →
  let acc := foldl push_new (seen, out) tags in
  NoDup acc.2 ∧ (∀ t, t ∈ acc.2 ↔ t ∈ out ∨ t ∈ tags) ∧ ∃ added, acc.2 = out ++ added ∧ added `sublist_of` tags.
Proof.
  revert seen out. induction tags as [|t tags IH]; intros seen out Hseen Hnd; simpl.
  - split; [done|]. split; [set_solver|]. exists []. by rewrite app_nil_r.
  - unfold push_new at 2 4 6. cbn [fst snd].
    assert (Tag.values t ∈ seen ↔ t ∈ out) as Hin.
    { rewrite Hseen, elem_of_list_to_set, list_elem_of_fmap. split; [intros (t' & Ht%tag_values_inj & ?); by subst|by exists t]. }
    case_decide as Hd.
    + destruct (IH seen out Hseen Hnd) as (H5 & H6 & added & H7 & H8). split; [done|]. split; [|by exists added; split; [|by apply sublist_cons]].
      intros u. rewrite H6, elem_of_cons. apply Hin in Hd. naive_solver.
    + destruct (IH ({[Tag.values t]} ∪ seen) (out ++ [t])) as (H5 & H6 & added & H7 & H8).
      * rewrite fmap_app, list_to_set_app_L, Hseen. simpl. set_solver.
      * apply NoDup_app. split; [done|]. split; [|apply NoDup_singleton]. intros u Hu ->%list_elem_of_singleton. tauto.
      * split; [done|]. split; [intros u; rewrite H6; clear; set_solver|].
        exists (t :: added). rewrite H7, <-app_assoc. split; [done|by constructor].
Qed.

(** The tags a content asks for: those of the entities it mentions, in order, each once. *)
Lemma mention_tags_spec content :
  NoDup (tags_from_content content)
  ∧ (∀ t, t ∈ tags_from_content content ↔ ∃ r, r ∈ references_in content ∧ t ∈ entity_to_tags (entity r))
  ∧ tags_from_content content `sublist_of` (r ← references_in content; entity_to_tags (entity r)).
Proof.
  destruct (push_new_spec ∅ [] (r ← references_in content; entity_to_tags (entity r)) eq_refl ltac:(constructor)) as (H5 & H6 & added & H7 & H8).
  unfold tags_from_content. split; [done|]. split; [|by rewrite H7].
  intros t. rewrite H6, list_elem_of_bind. set_solver.
Qed.
End mention_tags.

(** ** Search queries *)

Module Nip50.

Inductive Sentiment := Negative | Neutral | Positive | OtherSentiment (s : string).
Definition sentiment_as_str (s : Sentiment) : string :=
  match s with Negative => "negative" | Neutral => "neutral" | Positive => "positive" | OtherSentiment s => s end.
Definition sentiment_parse (s : string) : Sentiment :=
  if decide (s = "negative") then Negative
  else if decide (s = "neutral") then Neutral
  else if decide (s = "positive") then Positive
  else OtherSentiment s.

Inductive SearchExtension :=
| IncludeSpam
| Domain (d : string)
| Language (l : string)
| SentimentExt (s : Sentiment)
| Nsfw (b : bool)
| Other (key value : string).

Inductive SearchExtensionError := EmptyKey | InvalidNsfwValue (s : string).

Definition bool_str (b : bool) : string := if b then "true" else "false".
Definition parse_bool (s : string) : result bool SearchExtensionError :=
  if decide (s = "true") then Ok true
  else if decide (s = "false") then Ok false
  else Err (InvalidNsfwValue s).

Definition ext_render (e : SearchExtension) : string :=
  match e with
  | IncludeSpam => "include:spam"
  | Domain d => "domain:" +:+ d
  | Language l => "language:" +:+ l
  | SentimentExt s => "sentiment:" +:+ sentiment_as_str s
  | Nsfw b => "nsfw:" +:+ bool_str b
  | Other key value => key +:+ ":" +:+ value
  end.

Definition parse_token (token : string) : result (option SearchExtension) SearchExtensionError :=
  match split_once ":" token with
  | None => Ok None
  | Some (key, value) =>
      if decide (key = EmptyString) then Err EmptyKey
      else
        let key_lc := Text.to_ascii_lowercase key in
        let? parsed :=
          if decide (key_lc = "include" ∧ value = "spam") then Ok IncludeSpam
          else if decide (key_lc = "domain") then Ok (Domain value)
          else if decide (key_lc = "language") then Ok (Language value)
          else if decide (key_lc = "sentiment") then Ok (SentimentExt (sentiment_parse value))
          else if decide (key_lc = "nsfw") then let? b := parse_bool value in Ok (Nsfw b)
          else Ok (Other key_lc value) in
        Ok (Some parsed)
  end.

Record SearchQuery := mkQuery { free_text : string; extensions : list SearchExtension }.
Definition new (text : string) : SearchQuery := mkQuery text [].
Definition with_extension (q : SearchQuery) (e : SearchExtension) : SearchQuery :=
  mkQuery (free_text q) (extensions q ++ [e]).

Definition push_ext (out : string) (e : SearchExtension) : string :=
  (if decide (out = EmptyString) then out else out +:+ " ") +:+ ext_render e.
Definition render (q : SearchQuery) : string :=
  if decide (extensions q = []) then free_text q
  else foldl push_ext (Text.trim (free_text q)) (extensions q).

(** The two buckets of the loop. *)
Definition parse_step (acc : list SearchExtension * list string) (token : string) : list SearchExtension * list string :=
  match parse_token token with
  | Ok (Some e) => (acc.1 ++ [e], acc.2)
  | Ok None | Err _ => (acc.1, acc.2 ++ [token])
  end.
Definition parse (query : string) : SearchQuery :=
  let acc := foldl parse_step ([], []) (split_whitespace query) in
  mkQuery (Text.join " " acc.2) acc.1.

(** [Filter::search_query]. *)
Definition search_query (f : Filter) (q : SearchQuery) : Filter := Filter.with_search f (render q).
End Nip50.

Section queries.
Import Nip50.

(** Words of a free text hold no colon; an extension is one word, and what it is
    written as is read as it. *)
Definition free_word (w : string) : Prop := word w ∧ no_char ":" w = true.
Definition known_keys : list string := ["domain"; "language"; "sentiment"; "nsfw"].
Definition ext_ok (e : SearchExtension) : Prop :=
  match e with
  | IncludeSpam | Nsfw _ => True
  | Domain d | Language d => Dec.string_forallb graphic d = true
  | SentimentExt s =>
      Dec.string_forallb graphic (sentiment_as_str s) = true
      ∧ match s with OtherSentiment s => s ∉ ["negative"; "neutral"; "positive"] | _ => True end
  | Other key value =>
      key ≠ EmptyString ∧ no_char ":" key = true ∧ Text.to_ascii_lowercase key = key ∧ (key ∉ known_keys)
      ∧ (¬ (key = "include" ∧ value = "spam")) ∧ Dec.string_forallb graphic (key +:+ ":" +:+ value) = true
  end.

Lemma token_read key value :
  no_char ":" key = true → split_once ":" (key +:+ ":" +:+ value) = Some (key, value).
Proof. apply (split_once_app ":"). Qed.

Lemma sentiment_read s : match s with OtherSentiment s => s ∉ ["negative"; "neutral"; "positive"] | _ => True end →
  sentiment_parse (sentiment_as_str s) = s.
Proof.
  destruct s as [| | |s]; try done. intros Hs. unfold sentiment_parse. simpl.
  rewrite !decide_False by (intros ->; apply Hs; set_solver). done.
Qed.

Lemma ext_word e : ext_ok e → word (ext_render e).
Proof.
  destruct e as [|d|l|s|b|key value]; simpl; intros He; split; try done.
  - by destruct He.
  - by destruct b.
  - destruct He as (Hk & _). by destruct key.
  - by destruct He as (_ & _ & _ & _ & _ & ?).
Qed.
Lemma ext_read e : ext_ok e → parse_token (ext_render e) = Ok (Some e).
Proof.
  destruct e as [|d|l|s|b|key value]; unfold parse_token; intros He.
  - done.
  - change (ext_render (Domain d)) with ("domain" +:+ ":" +:+ d). rewrite token_read by done. reflexivity.
  - change (ext_render (Language l)) with ("language" +:+ ":" +:+ l). rewrite token_read by done. reflexivity.
  - change (ext_render (SentimentExt s)) with ("sentiment" +:+ ":" +:+ sentiment_as_str s). rewrite token_read by done.
    destruct He as [_ He]. simpl. rewrite sentiment_read by done. done.
  - by destruct b.
  - destruct He as (Hk & Hc & Hl & Hn & Hi & _). unfold ext_render. rewrite token_read by done. rewrite decide_False by done.
    cbv zeta. rewrite Hl. rewrite (decide_False (P := key = "include" ∧ value = "spam")) by done.
    rewrite !decide_False by (intros ->; apply Hn; unfold known_keys; set_solver). done.
Qed.
Lemma free_read w : free_word w → parse_token w = Ok None.
Proof. intros [_ Hc]. unfold parse_token. by rewrite split_once_None. Qed.

Lemma parse_words ws : Forall word ws →
  parse (Text.join " " ws) = let acc := foldl parse_step ([], []) ws in mkQuery (Text.join " " acc.2) acc.1.
Proof. intros Hw. unfold parse. by rewrite split_whitespace_join. Qed.

Lemma steps_free ws exts l : Forall free_word ws → foldl parse_step (exts, l) ws = (exts, l ++ ws).
Proof.
  intros Hw. revert l. induction Hw as [|w ws Hw _ IH]; intros l; simpl; [by rewrite app_nil_r|].
  unfold parse_step at 2. rewrite free_read by done. simpl. rewrite IH, <-app_assoc. done.
Qed.
Lemma steps_ext es exts l : Forall ext_ok es → foldl parse_step (exts, l) (ext_render <$> es) = (exts ++ es, l).
Proof.
  intros Hw. revert exts. induction Hw as [|e es He _ IH]; intros exts; simpl; [by rewrite app_nil_r|].
  unfold parse_step at 2. rewrite ext_read by done. simpl. rewrite IH, <-app_assoc. done.
Qed.

(** Words and the text they make: no blank at either end. *)
Lemma ends_skip cs c : last cs = Some c → Text.is_whitespace c = false → Text.skip_white (rev cs) = rev cs.
Proof.
  intros (l & ->)%last_Some Hc. rewrite rev_app_distr. simpl. by rewrite Hc.
Qed.
Lemma join_printable ws : Forall word ws → Dec.string_forallb printable (Text.join " " ws) = true.
Proof.
  induction 1 as [|w l [_ Hw] _ IH]; [done|]. assert (Dec.string_forallb printable w = true) as Hp.
  { apply (string_forallb_impl graphic); [|done]. intros c. by destruct c as [[] [] [] [] [] [] [] []]. }
  destruct l as [|v l]; [done|]. change (Text.join " " (w :: v :: l)) with (w +:+ String " " (Text.join " " (v :: l))).
  rewrite string_forallb_app, Hp. cbn [Dec.string_forallb]. exact IH.
Qed.
Lemma graphic_last w c : Dec.string_forallb graphic w = true → last (String.list_ascii_of_string w) = Some c → graphic c = true.
Proof.
  intros Hw (l & Hl)%last_Some. assert (Forall (λ c, graphic c = true) (String.list_ascii_of_string w)) as Hf.
  { clear Hl. induction w as [|d w IH]; [constructor|]. cbn [Dec.string_forallb] in Hw. apply andb_prop in Hw as [Hd Hw]. constructor; auto. }
  rewrite Hl, Forall_app in Hf. destruct Hf as [_ Hf]. by apply Forall_inv in Hf.
Qed.
Lemma join_last ws w : Forall word (ws ++ [w]) → word w →
  ∃ c, last (String.list_ascii_of_string (Text.join " " (ws ++ [w]))) = Some c ∧ graphic c = true.
Proof.
  intros Hws [Hne Hw]. assert (∃ c, last (String.list_ascii_of_string w) = Some c) as (c & Hc).
  { destruct w as [|d w]; [done|]. destruct (last (String.list_ascii_of_string (String d w))) as [c|] eqn:E; [by exists c|].
    by apply last_None in E. }
  exists c. split; [|by eapply graphic_last]. clear Hws. induction ws as [|v ws IH]; [done|].
  assert (Text.join " " ((v :: ws) ++ [w]) = v +:+ String " " (Text.join " " (ws ++ [w]))) as -> by by destruct ws.
  rewrite list_ascii_app, last_app. cbn [String.list_ascii_of_string]. by rewrite last_cons, IH.
Qed.
Lemma trim_join ws : Forall word ws → Text.trim (Text.join " " ws) = Text.join " " ws.
Proof.
  intros Hws. destruct ws as [|w ws] using rev_ind; [done|]. clear IHws. pose proof Hws as [_ Hw]%Forall_app. apply Forall_inv in Hw.
  unfold Text.trim. rewrite (chars_printable _ (join_printable _ Hws)). set (cs := char_str <$> _).
  assert (Text.skip_white cs = cs) as ->.
  { destruct (ws ++ [w]) as [|v vs] eqn:E; [by destruct ws|]. apply Forall_inv in Hws as [Hv Hg].
    destruct v as [|c v]; [done|]. cbn [Dec.string_forallb] in Hg. apply andb_prop in Hg as [Hc _].
    assert (∃ r, Text.join " " (String c v :: vs) = String c r) as (r & Er) by (destruct vs; by eexists).
    subst cs. rewrite Er. cbn [String.list_ascii_of_string fmap list_fmap Text.skip_white]. by rewrite (graphic_not_white c Hc). }
  destruct (join_last ws w Hws Hw) as (c & Hc & Hg). rewrite (ends_skip cs (char_str c)).
  - rewrite rev_involutive. apply concat_chars.
  - subst cs. by rewrite fmap_last, Hc.
  - by apply graphic_not_white.
Qed.

Lemma push_ext_words es ws : Forall word ws → Forall ext_ok es →
  foldl push_ext (Text.join " " ws) es = Text.join " " (ws ++ (ext_render <$> es)).
Proof.
  intros Hws Hes. revert ws Hws. induction Hes as [|e es He _ IH]; intros ws Hws; simpl; [by rewrite app_nil_r|].
  assert (push_ext (Text.join " " ws) e = Text.join " " (ws ++ [ext_render e])) as ->.
  { unfold push_ext. destruct ws as [|w ws]; [done|]. rewrite decide_False.
    - clear. revert w. induction ws as [|v ws IHw]; intros w; [apply string_app_assoc|].
      change (Text.join " " (w :: v :: ws)) with (w +:+ String " " (Text.join " " (v :: ws))).
      change (Text.join " " ((w :: v :: ws) ++ [ext_render e])) with (w +:+ String " " (Text.join " " ((v :: ws) ++ [ext_render e]))).
      rewrite <-IHw, !string_app_assoc. done.
    - apply Forall_inv in Hws as [Hw _]. destruct w as [|c w]; [done|]. by destruct ws. }
  rewrite IH, <-app_assoc; [done|]. apply Forall_app. split; [done|]. by apply Forall_singleton, ext_word.
Qed.

(** A query whose free text is plain words reads back from its text, and of any text
    of words the words that hold no extension are the free text, in order. *)
Lemma query_back ws exts : Forall free_word ws → Forall ext_ok exts →
  parse (render (mkQuery (Text.join " " ws) exts)) = mkQuery (Text.join " " ws) exts.
Proof.
  intros Hws Hes. assert (Forall word ws) as Hw by (eapply Forall_impl; [done|by intros w []]).
  assert (render (mkQuery (Text.join " " ws) exts) = Text.join " " (ws ++ (ext_render <$> exts))) as ->.
  { unfold render. cbn [free_text extensions]. case_decide as E; [subst; simpl; by rewrite app_nil_r|].
    by rewrite trim_join, push_ext_words. }
  rewrite parse_words.
  - cbv zeta. rewrite foldl_app, steps_free, steps_ext by done. done.
  - apply Forall_app. split; [done|]. apply Forall_fmap. eapply Forall_impl; [done|]. apply ext_word.
Qed.
End queries.

(** ** Internet identifiers *)

Module Nip05.

Definition ROOT_LOCAL_PART : string := "_".
Definition WELL_KNOWN_PATH : string := "/.well-known/nostr.json".

Inductive Nip05Error :=
| MalformedAddress
| InvalidLocalPart (s : string)
| EmptyDomain
| DocumentParse (e : string)
| NameNotListed (s : string).
Inductive Nip05FetchError := Transport (e : string) | Status (code : N) | Redirected.
Inductive Nip05LookupError := AddressErr (e : Nip05Error) | Fetch (e : Nip05FetchError) | Document (e : Nip05Error).

Record Nip05Address := mkAddress { local : string; domain : string }.

Definition local_byte (b : byte) : bool :=
  is_ascii_lowercase b || is_ascii_digit b || Byte.eqb b x2d || Byte.eqb b x5f || Byte.eqb b x2e.
Definition is_valid_local_part (s : string) : bool := negb (bool_decide (s = EmptyString)) && forallb local_byte (as_bytes s).

Definition parse (input : string) : result Nip05Address Nip05Error :=
  let? p := ok_or (split_once "@" input) MalformedAddress in
  let '(local, domain) := p in
  if negb (no_char "@" local) || negb (no_char "@" domain) then Err MalformedAddress
  else if decide (domain = EmptyString) then Err EmptyDomain
  else
    let local_lower := Text.to_ascii_lowercase local in
    if negb (is_valid_local_part local_lower) then Err (InvalidLocalPart local)
    else Ok (mkAddress local_lower (Text.to_ascii_lowercase domain)).

Definition well_known_url (a : Nip05Address) : string :=
  "https://" +:+ domain a +:+ WELL_KNOWN_PATH +:+ "?name=" +:+ local a.
Definition is_root (a : Nip05Address) : bool := bool_decide (local a = ROOT_LOCAL_PART).
Definition display (a : Nip05Address) : string := if is_root a then domain a else local a +:+ "@" +:+ domain a.

(** Whether [serde_json] can lend the keys and the URLs of a document, that is,
    whether they are written without escapes: their readers take a [&str]. *)
Class LendsDocument := { lends_document : string → bool }.
(** No backslash: nothing is escaped. *)
#[global] Instance lends_unescaped : LendsDocument | 100 := {| lends_document := no_char "\" |}.

Section nip05.
Context `{FasterHex, Secp256k1, UrlCrate, SerdeJson, JsonText, LendsDocument}.

Record Nip05Document := mkDocument { names : gmap string PublicKey; relays : gmap PublicKey (list RelayUrl) }.

(** The derived readers: a map keeps the last entry of a key. *)
Fixpoint read_entries {K V} `{Countable K} (key : string → option K) (value : Json → option V)
    (m : gmap K V) (es : list (string * Json)) : option (gmap K V) :=
  match es with
  | [] => Some m
  | (k, v) :: es => k' ← key k; v' ← value v; read_entries key value (<[k' := v']> m) es
  end.
Definition de_relay_url (v : Json) : option RelayUrl := s ← de_str v; result_ok (RelayUrl.parse s).
Definition de_names (v : Json) : option (gmap string PublicKey) :=
  es ← de_map v; read_entries Some FilterWire.de_public_key ∅ es.
Definition de_relays (v : Json) : option (gmap PublicKey (list RelayUrl)) :=
  es ← de_map v; read_entries (λ k, result_ok (PublicKey.parse k)) (FilterWire.de_vec de_relay_url) ∅ es.
Definition de_document (v : Json) : option Nip05Document :=
  es ← struct_entries ["names"; "relays"] v;
  n ← defaulted de_names ∅ "names" es;
  r ← defaulted de_relays ∅ "relays" es;
  Some (mkDocument n r).

(** The text of a type error of [serde_json] is left to the parameter. *)
Context (type_error : string).
Definition document_parse (json : string) : result Nip05Document Nip05Error :=
  let? v := map_err DocumentParse (json_from_slice (as_bytes json)) in
  ok_or (if lends_document json then de_document v else None) (DocumentParse type_error).
Definition pubkey_for (d : Nip05Document) (local : string) : option PublicKey := names d !! local.
Definition relays_for (d : Nip05Document) (pk : PublicKey) : list RelayUrl := default [] (relays d !! pk).

Definition verify_document (a : Nip05Address) (document_json : string) (expected : PublicKey) : result bool Nip05Error :=
  let? doc := document_parse document_json in
  let? listed := ok_or (pubkey_for doc (local a)) (NameNotListed (local a)) in
  Ok (bool_decide (listed = expected)).

(** The fetcher is what the network answers to a URL. *)
Context (fetch : string → result string Nip05FetchError).
Definition lookup_with_relays (a : Nip05Address) : result (PublicKey * list RelayUrl) Nip05LookupError :=
  let? body := map_err Fetch (fetch (well_known_url a)) in
  let? doc := map_err Document (document_parse body) in
  let? pk := ok_or (pubkey_for doc (local a)) (Document (NameNotListed (local a))) in
  Ok (pk, relays_for doc pk).
Definition lookup_pubkey (a : Nip05Address) : result PublicKey Nip05LookupError :=
  let? body := map_err Fetch (fetch (well_known_url a)) in
  let? doc := map_err Document (document_parse body) in
  let? pk := ok_or (pubkey_for doc (local a)) (Document (NameNotListed (local a))) in
  Ok pk.
Definition verify_identifier (a : Nip05Address) (expected : PublicKey) : result bool Nip05LookupError :=
  let? body := map_err Fetch (fetch (well_known_url a)) in
  map_err Document (verify_document a body expected).
End nip05.
End Nip05.

Section identifiers.
Import Nip05.
Context `{FasterHex, Secp256k1, UrlCrate, SerdeJson, JsonText, LendsDocument} (type_error : string) (fetch : string → result string Nip05FetchError).

Lemma lower_no_at s : no_char "@" s = true → no_char "@" (Text.to_ascii_lowercase s) = true.
Proof.
  induction s as [|c s IH]; [done|]. cbn [no_char Text.to_ascii_lowercase]. intros [Hc Hs]%andb_prop. rewrite IH by done.
  rewrite andb_true_r. revert Hc. by destruct c as [[] [] [] [] [] [] [] []].
Qed.
Lemma lower_empty s : Text.to_ascii_lowercase s = EmptyString → s = EmptyString.
Proof. by destruct s. Qed.
Lemma local_no_at s : is_valid_local_part s = true → no_char "@" s = true.
Proof.
  unfold is_valid_local_part. intros [_ Hs]%andb_prop. revert Hs. induction s as [|c s IH]; [done|]. rewrite as_bytes_cons. cbn [forallb no_char].
  intros [Hc Hs]%andb_prop. rewrite IH by done. rewrite andb_true_r. revert Hc. by destruct c as [[] [] [] [] [] [] [] []].
Qed.

(** An identifier is read in lowercase: a name of the allowed characters and a
    domain, and it reads back from its full form.  Verification says yes exactly when
    the document behind the identifier's own address lists the key under the name. *)
Theorem identifier_verified input a pk : parse input = Ok a →
  parse (local a +:+ "@" +:+ domain a) = Ok a ∧ is_valid_local_part (local a) = true ∧ domain a ≠ EmptyString
  ∧ (is_root a = false → parse (display a) = Ok a)
  ∧ (verify_identifier type_error fetch a pk = Ok true ↔
       ∃ body doc, fetch (well_known_url a) = Ok body ∧ document_parse type_error body = Ok doc ∧ names doc !! local a = Some pk)
  ∧ (verify_identifier type_error fetch a pk = Ok true ↔ lookup_pubkey type_error fetch a = Ok pk).
Proof.
  unfold parse at 1. destruct (split_once "@" input) as [[l d]|]; [|done]. cbn [ok_or result_bind].
  destruct (no_char "@" l) eqn:El; [|done]. destruct (no_char "@" d) eqn:Ed; [|done]. cbn [negb orb].
  case_decide as Hd; [done|]. destruct (is_valid_local_part (Text.to_ascii_lowercase l)) eqn:Ev; [|done]. cbn [negb]. intros [= <-].
  assert (parse (Text.to_ascii_lowercase l +:+ "@" +:+ Text.to_ascii_lowercase d) =
    Ok (mkAddress (Text.to_ascii_lowercase l) (Text.to_ascii_lowercase d))) as Hback.
  { unfold parse. change ("@" +:+ Text.to_ascii_lowercase d) with (String "@" (Text.to_ascii_lowercase d)).
    rewrite (split_once_app "@") by (by apply local_no_at). cbn [ok_or result_bind].
    rewrite !lower_no_at by done. cbn [negb orb]. rewrite decide_False by (by intros ?%lower_empty).
    by rewrite !Text.to_ascii_lowercase_idemp, Ev. }
  cbn [local domain]. split_and!; [done|done|by intros ?%lower_empty|by unfold display; intros ->| |].
  - unfold verify_identifier, verify_document, pubkey_for. cbn [local].
    destruct (fetch _) as [body|]; cbn [map_err result_bind]; [|split; [done|by intros (? & ? & ? & _)]].
    destruct (document_parse type_error body) as [doc|] eqn:Ep; cbn [map_err result_bind];
      [|split; [done|intros (? & ? & [= <-] & ? & _); congruence]].
    destruct (names doc !! Text.to_ascii_lowercase l) as [k|] eqn:En; cbn [ok_or map_err result_bind];
      [|split; [done|intros (? & ? & [= <-] & ? & ?); congruence]].
    case_bool_decide as Hk; split; [by exists body, doc; subst|done|done|intros (? & ? & [= <-] & ? & ?); congruence].
  - unfold verify_identifier, verify_document, lookup_pubkey, pubkey_for. cbn [local].
    destruct (fetch _) as [body|]; cbn [map_err result_bind]; [|done].
    destruct (document_parse type_error body) as [doc|]; cbn [map_err result_bind]; [|done].
    destruct (names doc !! _) as [k|]; cbn [ok_or map_err result_bind]; [|done].
    case_bool_decide as Hk; [by subst|]. split; [done|]. by intros [= ->].
Qed.
End identifiers.
