(* ===== verification/Wiki.v ===== *)
(** * Wiki articles (NIP-54, [nips/nip54.rs])

    Articles with their normalised names, redirects and merge requests: data,
    events and the readers of those events.  The Unicode properties of characters
    that the normalisation asks for are a class. *)

From Stdlib Require Import Ascii NArith Lia.
From S2P Require Import Prelude Encoding Text Ids Tags Event Nips TagReader.

(** [char::is_alphabetic], [is_numeric], [is_uppercase] and [to_lowercase]; a
    character is its UTF-8 bytes. *)
Class UnicodeChars := {
  is_alphabetic : string → bool;
  is_numeric : string → bool;
  is_uppercase : string → bool;
  to_lowercase : string → list string;
}.
(** What they are on ASCII. *)
Class UnicodeAscii `{UnicodeChars} : Prop := {
  alphabetic_ascii : ∀ c, (N_of_ascii c < 128)%N →
    is_alphabetic (char_str c) = (let n := N_of_ascii c in ((65 <=? n) && (n <=? 90) || (97 <=? n) && (n <=? 122))%N);
  numeric_ascii : ∀ c, (N_of_ascii c < 128)%N → is_numeric (char_str c) = (let n := N_of_ascii c in ((48 <=? n) && (n <=? 57))%N);
  uppercase_ascii : ∀ c, (N_of_ascii c < 128)%N → is_uppercase (char_str c) = (let n := N_of_ascii c in ((65 <=? n) && (n <=? 90))%N);
  lowercase_ascii : ∀ c, (N_of_ascii c < 128)%N → to_lowercase (char_str c) = [char_str (Text.lower c)];
}.
Arguments UnicodeAscii : clear implicits.
Arguments UnicodeAscii {_}.

Module Nip54.

Definition KIND_WIKI_ARTICLE : Kind := 30818.
Definition KIND_WIKI_REDIRECT : Kind := 30819.
Definition KIND_WIKI_MERGE_REQUEST : Kind := 818.
Definition TITLE_TAG : string := "title".
Definition SUMMARY_TAG : string := "summary".
Definition SOURCE_MARKER : string := "source".
Definition FORK_MARKER : string := "fork".
Definition DEFER_MARKER : string := "defer".

Inductive Relation := Fork | Defer.
#[global] Instance Relation_eq_dec : EqDecision Relation.
Proof. solve_decision. Defined.
Definition relation_as_str (r : Relation) : string := match r with Fork => FORK_MARKER | Defer => DEFER_MARKER end.
Definition relation_parse (token : string) : option Relation :=
  if decide (token = FORK_MARKER) then Some Fork
  else if decide (token = DEFER_MARKER) then Some Defer
  else None.

(** ** Names *)

Section names.
Context `{UnicodeChars}.

Definition alphanumeric (ch : string) : bool := is_alphabetic ch || is_numeric ch.

(** The loop of [is_canonical_d_tag]. *)
Fixpoint canonical_from (prev_dash : bool) (cs : list string) : bool :=
  match cs with
  | [] => true
  | ch :: cs =>
      if is_uppercase ch then false
      else if decide (ch = "-") then (if prev_dash then false else canonical_from true cs)
      else if alphanumeric ch then canonical_from false cs
      else false
  end.
Definition starts_with_dash (s : string) : bool := match s with String c _ => Ascii.eqb c "-" | EmptyString => false end.
Definition ends_with_dash (s : string) : bool := bool_decide (last (String.list_ascii_of_string s) = Some "-"%char).
Definition is_canonical_d_tag (input : string) : bool :=
  if starts_with_dash input || ends_with_dash input then false else canonical_from false (chars input).

(** The loop of [normalize_d_tag_cow], which pushes characters. *)
Fixpoint normalize_from (out : list string) (prev_dash : bool) (cs : list string) : list string :=
  match cs with
  | [] => out
  | ch :: cs =>
      if alphanumeric ch then normalize_from (out ++ to_lowercase ch) false cs
      else if (Text.is_whitespace ch || bool_decide (ch = "-") || bool_decide (ch = "_")) && negb prev_dash then
        normalize_from (out ++ ["-"]) true cs
      else normalize_from out prev_dash cs
  end.
(** [while out.ends_with('-') { out.pop(); }]. *)
Fixpoint drop_dashes (rev_out : list string) : list string :=
  match rev_out with
  | ch :: rest => if decide (ch = "-") then drop_dashes rest else rev_out
  | [] => []
  end.
Definition normalize_d_tag (input : string) : string :=
  if is_canonical_d_tag input then input
  else String.concat EmptyString (rev (drop_dashes (rev (normalize_from [] true (chars input))))).
End names.

Inductive WikiError :=
| WrongKind (k : Kind)
| MissingIdentifier
| MissingTarget
| MissingMergePubkey
| MissingMergeSource
| MalformedAddressTag
| MalformedEventTag
| InvalidCoordinate (e : Coordinate.Error)
| InvalidEventId (e : EventId.Error)
| InvalidRelayUrl (e : RelayUrl.Error)
| InvalidPublicKey (e : PublicKey.Error).

Section nip54.
Context `{FasterHex, Secp256k1, UrlCrate, UnicodeChars}.

Record RelationRef := mkRef {
  relation : Relation;
  coordinate : option Coordinate;
  coordinate_relay_hint : option RelayUrl;
  event_id : option EventId;
  event_relay_hint : option RelayUrl;
}.

Record WikiArticle := mkArticle {
  identifier : string;
  content : string;
  title : option string;
  summary : option string;
  relations : list RelationRef;
  extra_tags : list Tag;
}.
Definition article_new (id : string) : WikiArticle := mkArticle (normalize_d_tag id) EmptyString None None [] [].
Definition with_content (a : WikiArticle) (s : string) : WikiArticle :=
  mkArticle (identifier a) s (title a) (summary a) (relations a) (extra_tags a).
Definition with_title (a : WikiArticle) (s : string) : WikiArticle :=
  mkArticle (identifier a) (content a) (Some s) (summary a) (relations a) (extra_tags a).
Definition with_summary (a : WikiArticle) (s : string) : WikiArticle :=
  mkArticle (identifier a) (content a) (title a) (Some s) (relations a) (extra_tags a).
Definition with_relation (a : WikiArticle) (r : RelationRef) : WikiArticle :=
  mkArticle (identifier a) (content a) (title a) (summary a) (relations a ++ [r]) (extra_tags a).
Definition article_coordinate (a : WikiArticle) (author : PublicKey) : Coordinate :=
  Coordinate.mk KIND_WIKI_ARTICLE author (identifier a).

(** ** Tags with markers *)

Definition parse_a_tag_with_marker (tag : Tag) : result (Coordinate * option RelayUrl * option string) WikiError :=
  let? coord_str := ok_or (Tag.get tag 1) MalformedAddressTag in
  let? coord := map_err InvalidCoordinate (Coordinate.parse coord_str) in
  let? relay := read_column RelayUrl.parse InvalidRelayUrl (Tag.get tag 2) in
  Ok (coord, relay, non_empty (Tag.get tag 3)).
Definition parse_e_tag_with_marker (tag : Tag) : result (EventId * option RelayUrl * option string) WikiError :=
  let? id_hex := ok_or (Tag.get tag 1) MalformedEventTag in
  let? id := map_err InvalidEventId (EventId.parse id_hex) in
  let? relay := read_column RelayUrl.parse InvalidRelayUrl (Tag.get tag 2) in
  Ok (id, relay, non_empty (Tag.get tag 3)).

(** [tags.find_first(d)] and its value. *)
Definition d_value (tags : list Tag) : option string :=
  Tags.find_first tags (Tag.lower Alphabet.D) ≫= λ t, Tag.get t 1.

(** The marked references met so far, those of coordinates and those of events. *)
Definition pending_a : Type := list (Coordinate * option RelayUrl * option Relation).
Definition pending_e : Type := list (EventId * option RelayUrl * option Relation).

Fixpoint pair_rest (e_tags : pending_e) : list RelationRef :=
  match e_tags with
  | [] => []
  | (id, relay, rel) :: e_tags => mkRef (default Fork rel) None None (Some id) relay :: pair_rest e_tags
  end.
Fixpoint pair_relations (a_tags : pending_a) (e_tags : pending_e) : list RelationRef :=
  match a_tags with
  | [] => pair_rest e_tags
  | (coord, coord_relay, rel) :: a_tags =>
      let companion := head e_tags in
      mkRef (default Fork rel) (Some coord) coord_relay ((λ c, c.1.1) <$> companion) (companion ≫= λ c, c.1.2)
      :: pair_relations a_tags (tail e_tags)
  end.

Record ArticleSlots := mkSlots { s_title : option string; s_summary : option string; s_extra : list Tag; s_a : pending_a; s_e : pending_e }.
Definition no_slots : ArticleSlots := mkSlots None None [] [] [].
Definition absorb_marker_tag_a (s : ArticleSlots) (tag : Tag) : result ArticleSlots WikiError :=
  let? p := parse_a_tag_with_marker tag in
  let '(coord, relay, marker) := p in
  match marker ≫= relation_parse with
  | Some rel => Ok (mkSlots (s_title s) (s_summary s) (s_extra s) (s_a s ++ [(coord, relay, Some rel)]) (s_e s))
  | None => Ok (mkSlots (s_title s) (s_summary s) (s_extra s ++ [tag]) (s_a s) (s_e s))
  end.
Definition absorb_marker_tag_e (s : ArticleSlots) (tag : Tag) : result ArticleSlots WikiError :=
  let? p := parse_e_tag_with_marker tag in
  let '(id, relay, marker) := p in
  match marker ≫= relation_parse with
  | Some rel => Ok (mkSlots (s_title s) (s_summary s) (s_extra s) (s_a s) (s_e s ++ [(id, relay, Some rel)]))
  | None => Ok (mkSlots (s_title s) (s_summary s) (s_extra s ++ [tag]) (s_a s) (s_e s))
  end.
Definition article_step (s : ArticleSlots) (tag : Tag) : result ArticleSlots WikiError :=
  if decide (Tag.kind tag = Tag.lower Alphabet.D) then Ok s
  else if decide (Tag.kind tag = Tag.lower Alphabet.A) then absorb_marker_tag_a s tag
  else if decide (Tag.kind tag = Tag.lower Alphabet.E) then absorb_marker_tag_e s tag
  else if decide (Tag.name tag = TITLE_TAG) then Ok (mkSlots (Tag.get tag 1) (s_summary s) (s_extra s) (s_a s) (s_e s))
  else if decide (Tag.name tag = SUMMARY_TAG) then Ok (mkSlots (s_title s) (Tag.get tag 1) (s_extra s) (s_a s) (s_e s))
  else Ok (mkSlots (s_title s) (s_summary s) (s_extra s ++ [tag]) (s_a s) (s_e s)).
Definition article_from_event (e : Event) : result WikiArticle WikiError :=
  if decide (Event.kind e ≠ KIND_WIKI_ARTICLE) then Err (WrongKind (Event.kind e))
  else
    let? id := ok_or (d_value (Event.tags e)) MissingIdentifier in
    let? s := read_tags article_step no_slots (Event.tags e) in
    Ok (mkArticle id (Event.content e) (s_title s) (s_summary s) (pair_relations (s_a s) (s_e s)) (s_extra s)).

(** ** Redirects *)

Record WikiRedirect := mkRedirect {
  rd_identifier : string;
  target : Coordinate;
  target_relay_hint : option RelayUrl;
  rd_extra_tags : list Tag;
}.
Definition redirect_new (id : string) (target : Coordinate) : WikiRedirect := mkRedirect (normalize_d_tag id) target None [].
Definition with_target_relay_hint (r : WikiRedirect) (relay : RelayUrl) : WikiRedirect :=
  mkRedirect (rd_identifier r) (target r) (Some relay) (rd_extra_tags r).
Definition redirect_coordinate (r : WikiRedirect) (author : PublicKey) : Coordinate :=
  Coordinate.mk KIND_WIKI_REDIRECT author (rd_identifier r).

Definition redirect_step (s : option (Coordinate * option RelayUrl) * list Tag) (tag : Tag) :
    result (option (Coordinate * option RelayUrl) * list Tag) WikiError :=
  if decide (Tag.kind tag = Tag.lower Alphabet.D) then Ok s
  else if decide (Tag.kind tag = Tag.lower Alphabet.A ∧ s.1 = None) then
    let? p := parse_a_tag_with_marker tag in Ok (Some p.1, s.2)
  else Ok (s.1, s.2 ++ [tag]).
Definition redirect_from_event (e : Event) : result WikiRedirect WikiError :=
  if decide (Event.kind e ≠ KIND_WIKI_REDIRECT) then Err (WrongKind (Event.kind e))
  else
    let? id := ok_or (d_value (Event.tags e)) MissingIdentifier in
    let? s := read_tags redirect_step (None, []) (Event.tags e) in
    let? t := ok_or s.1 MissingTarget in
    Ok (mkRedirect id t.1 t.2 s.2).

(** ** Merge requests *)

Record MergeRequest := mkMerge {
  destination : Coordinate;
  destination_relay_hint : option RelayUrl;
  destination_pubkey : PublicKey;
  base_revision : option EventId;
  base_revision_relay_hint : option RelayUrl;
  source_revision : EventId;
  source_revision_relay_hint : option RelayUrl;
  mr_content : string;
  mr_extra_tags : list Tag;
}.
Definition merge_new (d : Coordinate) (pk : PublicKey) (source : EventId) : MergeRequest :=
  mkMerge d None pk None None source None EmptyString [].
Definition with_destination_relay_hint (m : MergeRequest) (r : RelayUrl) : MergeRequest :=
  mkMerge (destination m) (Some r) (destination_pubkey m) (base_revision m) (base_revision_relay_hint m)
    (source_revision m) (source_revision_relay_hint m) (mr_content m) (mr_extra_tags m).
Definition with_base_revision (m : MergeRequest) (id : EventId) : MergeRequest :=
  mkMerge (destination m) (destination_relay_hint m) (destination_pubkey m) (Some id) (base_revision_relay_hint m)
    (source_revision m) (source_revision_relay_hint m) (mr_content m) (mr_extra_tags m).
Definition with_base_revision_relay_hint (m : MergeRequest) (r : RelayUrl) : MergeRequest :=
  mkMerge (destination m) (destination_relay_hint m) (destination_pubkey m) (base_revision m) (Some r)
    (source_revision m) (source_revision_relay_hint m) (mr_content m) (mr_extra_tags m).
Definition with_source_revision_relay_hint (m : MergeRequest) (r : RelayUrl) : MergeRequest :=
  mkMerge (destination m) (destination_relay_hint m) (destination_pubkey m) (base_revision m) (base_revision_relay_hint m)
    (source_revision m) (Some r) (mr_content m) (mr_extra_tags m).
Definition with_merge_content (m : MergeRequest) (s : string) : MergeRequest :=
  mkMerge (destination m) (destination_relay_hint m) (destination_pubkey m) (base_revision m) (base_revision_relay_hint m)
    (source_revision m) (source_revision_relay_hint m) s (mr_extra_tags m).

Record MergeSlots := mkMergeSlots {
  m_destination : option (Coordinate * option RelayUrl);
  m_pubkey : option PublicKey;
  m_base : option (EventId * option RelayUrl);
  m_source : option (EventId * option RelayUrl);
  m_extra : list Tag;
}.
Definition no_merge : MergeSlots := mkMergeSlots None None None None [].
Definition absorb_merge_e_tag (s : MergeSlots) (tag : Tag) : result MergeSlots WikiError :=
  let? p := parse_e_tag_with_marker tag in
  let '(id, relay, marker) := p in
  if decide (marker = Some SOURCE_MARKER) then Ok (mkMergeSlots (m_destination s) (m_pubkey s) (m_base s) (Some (id, relay)) (m_extra s))
  else
    match m_base s with
    | None => Ok (mkMergeSlots (m_destination s) (m_pubkey s) (Some (id, relay)) (m_source s) (m_extra s))
    | Some _ => Ok (mkMergeSlots (m_destination s) (m_pubkey s) (m_base s) (m_source s) (m_extra s ++ [tag]))
    end.
Definition merge_step (s : MergeSlots) (tag : Tag) : result MergeSlots WikiError :=
  if decide (Tag.kind tag = Tag.lower Alphabet.A ∧ m_destination s = None) then
    let? p := parse_a_tag_with_marker tag in
    Ok (mkMergeSlots (Some p.1) (m_pubkey s) (m_base s) (m_source s) (m_extra s))
  else if decide (Tag.kind tag = Tag.lower Alphabet.P ∧ m_pubkey s = None) then
    let? pk_hex := ok_or (Tag.get tag 1) MissingMergePubkey in
    let? pk := map_err InvalidPublicKey (PublicKey.parse pk_hex) in
    Ok (mkMergeSlots (m_destination s) (Some pk) (m_base s) (m_source s) (m_extra s))
  else if decide (Tag.kind tag = Tag.lower Alphabet.E) then absorb_merge_e_tag s tag
  else Ok (mkMergeSlots (m_destination s) (m_pubkey s) (m_base s) (m_source s) (m_extra s ++ [tag])).
Definition merge_from_event (e : Event) : result MergeRequest WikiError :=
  if decide (Event.kind e ≠ KIND_WIKI_MERGE_REQUEST) then Err (WrongKind (Event.kind e))
  else
    let? s := read_tags merge_step no_merge (Event.tags e) in
    let? d := ok_or (m_destination s) MissingTarget in
    let? pk := ok_or (m_pubkey s) MissingMergePubkey in
    let? src := ok_or (m_source s) MissingMergeSource in
    Ok (mkMerge d.1 d.2 pk (fst <$> m_base s) (m_base s ≫= snd) src.1 src.2 (Event.content e) (m_extra s)).

(** ** Builders *)

Definition a_tag (c : Coordinate) (relay : option RelayUrl) : Tag :=
  Tag.with_ (Tag.lower Alphabet.A) (Coordinate.to_wire c :: option_list (RelayUrl.as_str <$> relay)).
Definition push_relation_tags (r : RelationRef) : list Tag :=
  option_list ((λ c, Tag.with_ (Tag.lower Alphabet.A)
    [Coordinate.to_wire c; unwrap_or_default (RelayUrl.as_str <$> coordinate_relay_hint r); relation_as_str (relation r)]) <$> coordinate r)
  ++ option_list ((λ id, Tag.with_ (Tag.lower Alphabet.E)
    [EventId.to_hex id; unwrap_or_default (RelayUrl.as_str <$> event_relay_hint r); relation_as_str (relation r)]) <$> event_id r).

Definition article_tags (a : WikiArticle) : list Tag :=
  [Tag.d (identifier a)]
  ++ option_list ((λ t, Tag.with_ (TagKind.from_wire TITLE_TAG) [t]) <$> title a)
  ++ option_list ((λ t, Tag.with_ (TagKind.from_wire SUMMARY_TAG) [t]) <$> summary a)
  ++ (relations a ≫= push_relation_tags) ++ extra_tags a.
Definition wiki_article (a : WikiArticle) : EventBuilder :=
  foldl EventBuilder.add_tag (EventBuilder.new KIND_WIKI_ARTICLE (content a)) (article_tags a).

Definition redirect_tags (r : WikiRedirect) : list Tag :=
  [Tag.d (rd_identifier r); a_tag (target r) (target_relay_hint r)] ++ rd_extra_tags r.
Definition wiki_redirect (r : WikiRedirect) : EventBuilder :=
  foldl EventBuilder.add_tag (EventBuilder.new KIND_WIKI_REDIRECT EmptyString) (redirect_tags r).

Definition merge_tags (m : MergeRequest) : list Tag :=
  [a_tag (destination m) (destination_relay_hint m)]
  ++ option_list ((λ base, Tag.with_ (Tag.lower Alphabet.E)
       (EventId.to_hex base :: option_list (RelayUrl.as_str <$> base_revision_relay_hint m))) <$> base_revision m)
  ++ [Tag.p (destination_pubkey m);
      Tag.with_ (Tag.lower Alphabet.E)
        [EventId.to_hex (source_revision m); unwrap_or_default (RelayUrl.as_str <$> source_revision_relay_hint m); SOURCE_MARKER]]
  ++ mr_extra_tags m.
Definition wiki_merge_request (m : MergeRequest) : EventBuilder :=
  foldl EventBuilder.add_tag (EventBuilder.new KIND_WIKI_MERGE_REQUEST (mr_content m)) (merge_tags m).
End nip54.
End Nip54.

(** ** Names are normalised *)

Section normal_names.
Import Nip54.
Context `{UnicodeChars, !UnicodeAscii}.

Lemma chars_ascii s : ascii_text s → chars s = char_str <$> String.list_ascii_of_string s.
Proof.
  unfold ascii_text. induction s as [|c s IH]; [done|]. cbn [Dec.string_forallb]. intros [Hc Hs]%andb_prop. cbn [chars]. rewrite (IH Hs).
  destruct s as [|d s]; [done|]. cbn [String.list_ascii_of_string fmap list_fmap char_str].
  cbn [Dec.string_forallb] in Hs. apply andb_prop in Hs as [Hd _].
  assert (is_continuation d = false) as ->; [|done]. revert Hd. by destruct d as [[] [] [] [] [] [] [] []].
Qed.

(** A character a name keeps. *)
Definition name_char (c : ascii) : bool :=
  let n := N_of_ascii c in ((48 <=? n) && (n <=? 57) || (97 <=? n) && (n <=? 122))%N.
Definition ascii_of (c : ascii) : Prop := (N_of_ascii c < 128)%N.

Lemma name_char_alphanumeric c : name_char c = true → ascii_of c ∧ c ≠ "-"%char.
Proof. unfold ascii_of. by destruct c as [[] [] [] [] [] [] [] []]. Qed.
Lemma name_char_props c : name_char c = true → alphanumeric (char_str c) = true ∧ is_uppercase (char_str c) = false.
Proof.
  intros Hn. destruct (name_char_alphanumeric c Hn) as [Ha _]. unfold alphanumeric.
  rewrite alphabetic_ascii, numeric_ascii, uppercase_ascii by done. revert Hn. by destruct c as [[] [] [] [] [] [] [] []].
Qed.
Lemma alphanumeric_lower c : ascii_of c → alphanumeric (char_str c) = true → name_char (Text.lower c) = true.
Proof.
  intros Ha. unfold alphanumeric. rewrite alphabetic_ascii, numeric_ascii by done. by destruct c as [[] [] [] [] [] [] [] []].
Qed.

(** What the loop has written: names, single dashes between them; [prev] tells
    whether nothing or a dash was written last. *)
Inductive named : bool → list ascii → Prop :=
| named_start : named true []
| named_char prev l c : named prev l → name_char c = true → named false (l ++ [c])
| named_dash l : named false l → named true (l ++ ["-"%char]).

Lemma normalize_named cs prev l : Forall ascii_of cs → named prev l →
  ∃ prev' l', normalize_from (char_str <$> l) prev (char_str <$> cs) = char_str <$> l' ∧ named prev' l'.
Proof.
  intros Hcs. revert prev l. induction Hcs as [|c cs Hc _ IH]; intros prev l Hn; [by exists prev, l|].
  cbn [fmap list_fmap normalize_from]. destruct (alphanumeric (char_str c)) eqn:Ea.
  - rewrite lowercase_ascii by done. change [char_str (Text.lower c)] with (char_str <$> [Text.lower c]). rewrite <-fmap_app. apply IH.
    eapply named_char; [done|]. by apply alphanumeric_lower.
  - destruct (_ && negb prev) eqn:Ed; [|by apply IH]. apply andb_prop in Ed as [_ Hp]. destruct prev; [done|].
    change ["-"] with (char_str <$> ["-"%char]). rewrite <-fmap_app. apply IH. by apply named_dash.
Qed.

Lemma drop_dashes_named prev l : named prev l → ∃ l', drop_dashes (rev (char_str <$> l)) = rev (char_str <$> l') ∧ (l' = [] ∨ named false l').
Proof.
  intros Hn. destruct Hn as [|prev l c Hn Hc|l Hn].
  - exists []. split; [done|by left].
  - exists (l ++ [c]). split; [|right; by eapply named_char]. rewrite fmap_app, rev_app_distr. cbn [fmap list_fmap rev app drop_dashes].
    rewrite decide_False; [done|]. intros E. destruct (name_char_alphanumeric c Hc) as [_ Hd]. apply Hd. by injection E.
  - exists l. rewrite fmap_app, rev_app_distr. cbn [fmap list_fmap rev app drop_dashes]. rewrite decide_True by done.
    split; [|by right]. inversion Hn as [|prev l' c Hn' Hc|]; subst. rewrite fmap_app, rev_app_distr. cbn [fmap list_fmap rev app drop_dashes].
    rewrite decide_False; [done|]. intros E. destruct (name_char_alphanumeric c Hc) as [_ Hd]. apply Hd. by injection E.
Qed.

Lemma named_canonical prev l rest : named prev l →
  canonical_from false ((char_str <$> l) ++ rest) = canonical_from (if decide (l = []) then false else prev) rest.
Proof.
  intros Hn. revert rest. induction Hn as [|prev l c Hn IH Hc|l Hn IH]; intros rest.
  - done.
  - rewrite fmap_app, <-app_assoc, IH, (decide_False (P := l ++ [c] = [])) by by destruct l.
    destruct (name_char_props c Hc) as [Ha Hu]. cbn [fmap list_fmap app canonical_from]. rewrite Hu, Ha.
    rewrite decide_False; [done|]. intros E. destruct (name_char_alphanumeric c Hc) as [_ Hd]. apply Hd. by injection E.
  - assert (l ≠ []) as Hl by (inversion Hn; subst; by destruct l0).
    rewrite fmap_app, <-app_assoc, IH, (decide_False (P := l = [])), (decide_False (P := l ++ ["-"%char] = [])) by (done || by destruct l).
    cbn [fmap list_fmap app canonical_from]. change (char_str "-") with "-". by rewrite (uppercase_ascii "-").
Qed.
Lemma named_head prev l c r : named prev l → l = c :: r → name_char c = true.
Proof.
  intros Hn. revert c r. induction Hn as [|prev l d Hn IH Hd|l Hn IH]; intros c r; [done| |].
  - destruct l as [|x l]; simpl; intros [= <- <-]; [done|by eapply IH].
  - inversion Hn; subst; destruct l0 as [|x l0]; simpl; intros [= <- <-]; by eapply IH.
Qed.
Lemma named_ascii prev l : named prev l → ascii_text (String.string_of_list_ascii l).
Proof.
  assert (∀ a b, ascii_text (String.string_of_list_ascii a) → ascii_char b = true → ascii_text (String.string_of_list_ascii (a ++ [b]))) as Happ.
  { intros a b Ha Hb. unfold ascii_text in *. induction a as [|x a IH]; simpl in *; [by rewrite Hb|].
    apply andb_prop in Ha as [-> Ha]. by apply IH. }
  induction 1 as [|prev l c _ IH Hc|l _ IH]; [done|apply Happ; [done|]|by apply Happ].
  apply name_char_alphanumeric in Hc as [Hc _]. by apply N.ltb_lt.
Qed.

(** Names of ASCII text are normalised once and for all: lowercase letters and digits
    with single dashes between them, which the check accepts. *)
Theorem ascii_name_normal s : ascii_text s →
  is_canonical_d_tag (normalize_d_tag s) = true ∧ normalize_d_tag (normalize_d_tag s) = normalize_d_tag s.
Proof.
  intros Hs. assert (is_canonical_d_tag (normalize_d_tag s) = true) as Hc; [|split; [done|]; unfold normalize_d_tag at 1; by rewrite Hc].
  unfold normalize_d_tag. destruct (is_canonical_d_tag s) eqn:Ec; [done|]. rewrite (chars_ascii s Hs).
  destruct (normalize_named (String.list_ascii_of_string s) true []) as (prev & l & Hl & Hn); [|constructor|].
  { clear Ec. revert Hs. unfold ascii_text. induction s as [|c s IH]; [constructor|]. cbn [Dec.string_forallb]. intros [Hc Hs]%andb_prop.
    constructor; [by apply N.ltb_lt|by apply IH]. }
  change (char_str <$> []) with (@nil string) in Hl. rewrite Hl. destruct (drop_dashes_named prev l Hn) as (l' & -> & Hl').
  rewrite rev_involutive. set (t := String.string_of_list_ascii l').
  assert (String.list_ascii_of_string t = l') as Ht by apply String.list_ascii_of_string_of_list_ascii.
  rewrite <-Ht, concat_chars. destruct Hl' as [El|Hn']; [unfold t; by rewrite El|]. unfold is_canonical_d_tag.
  rewrite (chars_ascii t) by (by eapply named_ascii). rewrite Ht.
  pose proof (named_canonical false l' [] Hn') as Hcan. rewrite app_nil_r in Hcan. rewrite Hcan.
  assert (starts_with_dash t = false) as ->.
  { unfold t. destruct l' as [|c r]; [done|]. simpl. pose proof (named_head _ _ c r Hn' eq_refl) as Hc.
    destruct (name_char_alphanumeric c Hc) as [_ Hd]. by destruct (Ascii.eqb_spec c "-"). }
  assert (ends_with_dash t = false) as ->; [|by case_decide].
  unfold ends_with_dash. apply bool_decide_eq_false. rewrite Ht.
  assert (∃ l0 c, l' = l0 ++ [c] ∧ name_char c = true) as (l0 & c & El & Hc) by (clear -Hn'; inversion Hn'; eauto).
  rewrite El, last_snoc. intros [= ->]. by destruct (name_char_alphanumeric _ Hc).
Qed.
End normal_names.

(** The letters and digits of ASCII alone. *)
Definition ascii_between (lo hi : N) (ch : string) : bool :=
  match ch with String c EmptyString => (lo <=? N_of_ascii c)%N && (N_of_ascii c <=? hi)%N | _ => false end.
#[global] Instance ascii_chars : UnicodeChars := {|
  is_alphabetic ch := ascii_between 65 90 ch || ascii_between 97 122 ch;
  is_numeric := ascii_between 48 57;
  is_uppercase := ascii_between 65 90;
  to_lowercase ch := [Text.to_ascii_lowercase ch];
|}.
#[global] Instance ascii_chars_laws : UnicodeAscii.
Proof. by split. Qed.
Example wiki_topics :
  (Nip54.normalize_d_tag "Wiki  Article", Nip54.normalize_d_tag "--What's Up?_", Nip54.is_canonical_d_tag "whats-up")
  = ("wiki-article", "whats-up", true).
Proof. vm_compute. done. Qed.

(** ** Reading back *)

Section wiki.
Import Nip54.
Context `{FasterHex, !FasterHexLaws, Secp256k1, UrlCrate, !UrlCrateLaws, !UrlNotEmpty, UnicodeChars, EventCrypto}.

(** A relation that names both the article and the revision; a tag no field is read
    from. *)
Definition relation_ok (r : RelationRef) : Prop :=
  (∃ c id, coordinate r = Some c ∧ event_id r = Some id ∧ coordinate_wf c)
  ∧ opt_ok RelayUrl.normal (coordinate_relay_hint r) ∧ opt_ok RelayUrl.normal (event_relay_hint r).
Definition plain_extra (t : Tag) : Prop :=
  (Tag.kind t ∉ [Tag.lower Alphabet.D; Tag.lower Alphabet.A; Tag.lower Alphabet.E]) ∧ (Tag.name t ∉ [TITLE_TAG; SUMMARY_TAG]).

Definition pend_a (r : RelationRef) : list (Coordinate * option RelayUrl * option Relation) :=
  option_list ((λ c, (c, coordinate_relay_hint r, Some (relation r))) <$> coordinate r).
Definition pend_e (r : RelationRef) : list (EventId * option RelayUrl * option Relation) :=
  option_list ((λ id, (id, event_relay_hint r, Some (relation r))) <$> event_id r).

Lemma marker_back r : non_empty (Some (relation_as_str r)) ≫= relation_parse = Some r.
Proof. by destruct r. Qed.

Lemma relation_read s r : relation_ok r →
  read_tags article_step s (push_relation_tags r) =
    Ok (mkSlots (s_title s) (s_summary s) (s_extra s) (s_a s ++ pend_a r) (s_e s ++ pend_e r)).
Proof.
  intros ((c & id & Ec & Ei & Hc) & Hr & Hr'). unfold push_relation_tags, pend_a, pend_e. rewrite Ec, Ei.
  cbn [fmap option_fmap option_map option_list option_rect app read_tags].
  assert (∀ s tag, Tag.kind tag = Tag.lower Alphabet.A → article_step s tag = absorb_marker_tag_a s tag) as HA by by (intros ? ? E; unfold article_step; rewrite E).
  assert (∀ s tag, Tag.kind tag = Tag.lower Alphabet.E → article_step s tag = absorb_marker_tag_e s tag) as HE by by (intros ? ? E; unfold article_step; rewrite E).
  rewrite HA by apply Tag.kind_with_lower. unfold absorb_marker_tag_a, parse_a_tag_with_marker. columns. cbn [ok_or result_bind].
  rewrite coordinate_printed by done. cbn [map_err result_bind]. rewrite (proj1 (read_relay_column InvalidRelayUrl _ Hr)). cbn [result_bind].
  rewrite marker_back. cbn [result_bind].
  rewrite HE by apply Tag.kind_with_lower. unfold absorb_marker_tag_e, parse_e_tag_with_marker. columns. cbn [ok_or result_bind].
  rewrite EventId.parse_to_hex. cbn [map_err result_bind]. rewrite (proj1 (read_relay_column InvalidRelayUrl _ Hr')). cbn [result_bind].
  by rewrite marker_back.
Qed.
Lemma relations_read s rs : Forall relation_ok rs →
  read_tags article_step s (rs ≫= push_relation_tags) =
    Ok (mkSlots (s_title s) (s_summary s) (s_extra s) (s_a s ++ (rs ≫= pend_a)) (s_e s ++ (rs ≫= pend_e))).
Proof.
  intros Hr. revert s. induction Hr as [|r rs Hr _ IH]; intros s; [simpl; rewrite !app_nil_r; by destruct s|].
  rewrite !bind_cons, read_tags_app, relation_read by done. cbn [result_bind]. rewrite IH. simpl. by rewrite !app_assoc.
Qed.
Lemma pairs_back rs : Forall relation_ok rs → pair_relations (rs ≫= pend_a) (rs ≫= pend_e) = rs.
Proof.
  induction 1 as [|r rs ((c & id & Ec & Ei & _) & _) _ IH]; [done|]. rewrite !bind_cons. unfold pend_a at 1, pend_e at 1. rewrite Ec, Ei.
  cbn [fmap option_fmap option_map option_list option_rect app pair_relations head tail mbind option_bind]. rewrite IH. f_equal.
  destruct r; simpl in *; by subst.
Qed.
Lemma extras_read s ts : Forall plain_extra ts →
  read_tags article_step s ts = Ok (mkSlots (s_title s) (s_summary s) (s_extra s ++ ts) (s_a s) (s_e s)).
Proof.
  intros Ht. revert s. induction Ht as [|t ts [Hk Hn] _ IH]; intros s; [simpl; rewrite app_nil_r; by destruct s|].
  cbn [read_tags]. assert (article_step s t = Ok (mkSlots (s_title s) (s_summary s) (s_extra s ++ [t]) (s_a s) (s_e s))) as ->.
  { unfold article_step. rewrite !decide_False; [done|..]; intros E; rewrite E in *; set_solver. }
  cbn [result_bind]. rewrite IH. simpl. by rewrite <-app_assoc.
Qed.

(** An article whose relations name article and revision reads back from its event. *)
Theorem article_round_trip clock a keys e :
  EventBuilder.sign_with_keys clock (wiki_article a) keys = Ok e →
  Forall relation_ok (relations a) → Forall plain_extra (extra_tags a) → article_from_event e = Ok a.
Proof.
  intros (Hk & Hc & Ht & _)%signed_foldl Hr Hx. unfold article_from_event. rewrite Hk, decide_False by by intros []. rewrite Ht, Hc.
  unfold article_tags. assert (d_value ([Tag.d (identifier a)] ++
    option_list ((λ t, Tag.with_ (TagKind.from_wire TITLE_TAG) [t]) <$> title a) ++
    option_list ((λ t, Tag.with_ (TagKind.from_wire SUMMARY_TAG) [t]) <$> summary a) ++ (relations a ≫= push_relation_tags) ++ extra_tags a)
    = Some (identifier a)) as -> by done.
  cbn [ok_or result_bind]. rewrite read_tags_app. cbn [read_tags].
  assert (article_step no_slots (Tag.d (identifier a)) = Ok no_slots) as -> by done. cbn [result_bind].
  rewrite read_tags_app, (read_tags_option _ _ (λ s t, mkSlots (Some t) (s_summary s) (s_extra s) (s_a s) (s_e s))) by done. cbn [result_bind].
  rewrite read_tags_app, (read_tags_option _ _ (λ s t, mkSlots (s_title s) (Some t) (s_extra s) (s_a s) (s_e s))) by done. cbn [result_bind].
  rewrite read_tags_app, relations_read by done. cbn [result_bind]. rewrite extras_read by done. cbn [result_bind].
  destruct a as [id ct ti su rs ex]; cbn [title summary relations extra_tags identifier content] in *.
  destruct ti, su; simpl; by rewrite pairs_back.
Qed.

(** A reference to an article and one to a revision, of different kinds, come back as
    one relation of the first kind. *)
Lemma relations_confused c id :
  pair_relations ([mkRef Defer (Some c) None None None; mkRef Fork None None (Some id) None] ≫= pend_a)
    ([mkRef Defer (Some c) None None None; mkRef Fork None None (Some id) None] ≫= pend_e)
  = [mkRef Defer (Some c) None (Some id) None].
Proof. done. Qed.

Lemma a_tag_back s relay : coordinate_wf s → opt_ok RelayUrl.normal relay → ∃ m, parse_a_tag_with_marker (a_tag s relay) = Ok (s, relay, m).
Proof.
  intros Hc Hr. unfold parse_a_tag_with_marker, a_tag. columns. cbn [ok_or result_bind]. rewrite coordinate_printed by done.
  cbn [map_err result_bind]. pose proof (proj2 (read_relay_column InvalidRelayUrl relay Hr)) as Er.
  destruct relay as [r|]; cbn [fmap option_fmap option_map option_list option_rect] in *; rewrite Er; by eexists.
Qed.

Lemma a_tag_kind d r : Tag.kind (a_tag d r) = Tag.lower Alphabet.A.
Proof. apply Tag.kind_with_lower. Qed.

(** Redirects read back, whatever other tags they carry, further targets included. *)
Theorem redirect_round_trip clock r keys e :
  EventBuilder.sign_with_keys clock (wiki_redirect r) keys = Ok e →
  coordinate_wf (target r) → opt_ok RelayUrl.normal (target_relay_hint r) →
  Forall (λ t, Tag.kind t ≠ Tag.lower Alphabet.D) (rd_extra_tags r) → redirect_from_event e = Ok r.
Proof.
  intros (Hk & _ & Ht & _)%signed_foldl Hc Hr Hx. unfold redirect_from_event. rewrite Hk, decide_False by by intros [].
  rewrite Ht. unfold redirect_tags. assert (d_value ([Tag.d (rd_identifier r); a_tag (target r) (target_relay_hint r)] ++ rd_extra_tags r)
    = Some (rd_identifier r)) as -> by done.
  cbn [ok_or result_bind]. rewrite read_tags_app. cbn [read_tags].
  assert (redirect_step (None, []) (Tag.d (rd_identifier r)) = Ok (None, [])) as -> by done. cbn [result_bind].
  assert (redirect_step (None, []) (a_tag (target r) (target_relay_hint r)) = Ok (Some (target r, target_relay_hint r), [])) as ->.
  { unfold redirect_step. rewrite a_tag_kind. rewrite decide_False, decide_True by done.
    by destruct (a_tag_back _ _ Hc Hr) as (m & ->). }
  cbn [result_bind]. assert (∀ l, read_tags redirect_step (Some (target r, target_relay_hint r), l) (rd_extra_tags r)
    = Ok (Some (target r, target_relay_hint r), l ++ rd_extra_tags r)) as ->.
  { clear -Hx. induction Hx as [|t ts Ht _ IH]; intros l; [simpl; by rewrite app_nil_r|]. cbn [read_tags]. unfold redirect_step at 1.
    rewrite (decide_False (P := Tag.kind t = Tag.lower Alphabet.D)) by done. rewrite decide_False by (by intros [_ ?]). cbn [result_bind fst snd].
    rewrite IH. by rewrite <-app_assoc. }
  cbn. by destruct r.
Qed.

Definition merge_ok (m : MergeRequest) : Prop :=
  coordinate_wf (destination m) ∧ PublicKey.valid (destination_pubkey m)
  ∧ opt_ok RelayUrl.normal (destination_relay_hint m) ∧ opt_ok RelayUrl.normal (base_revision_relay_hint m)
  ∧ opt_ok RelayUrl.normal (source_revision_relay_hint m)
  ∧ (base_revision m = None → base_revision_relay_hint m = None)
  ∧ Forall (λ t, Tag.kind t ≠ Tag.lower Alphabet.E) (mr_extra_tags m).

Lemma merge_a s d relay : m_destination s = None → coordinate_wf d → opt_ok RelayUrl.normal relay →
  merge_step s (a_tag d relay) = Ok (mkMergeSlots (Some (d, relay)) (m_pubkey s) (m_base s) (m_source s) (m_extra s)).
Proof.
  intros Hs Hc Hr. unfold merge_step. rewrite a_tag_kind, decide_True by done. by destruct (a_tag_back _ _ Hc Hr) as (m & ->).
Qed.
Lemma merge_p s pk : m_pubkey s = None → PublicKey.valid pk →
  merge_step s (Tag.p pk) = Ok (mkMergeSlots (m_destination s) (Some pk) (m_base s) (m_source s) (m_extra s)).
Proof.
  intros Hs Hv. unfold merge_step, Tag.p. rewrite !Tag.kind_with_lower. rewrite decide_False by by intros [[=] _]. rewrite decide_True by done.
  columns. cbn [ok_or result_bind]. by rewrite PublicKey.pk_parse_to_hex.
Qed.
Lemma merge_base s id relay : m_base s = None → opt_ok RelayUrl.normal relay →
  merge_step s (Tag.with_ (Tag.lower Alphabet.E) (EventId.to_hex id :: option_list (RelayUrl.as_str <$> relay)))
  = Ok (mkMergeSlots (m_destination s) (m_pubkey s) (Some (id, relay)) (m_source s) (m_extra s)).
Proof.
  intros Hs Hr. unfold merge_step. rewrite !Tag.kind_with_lower. rewrite !decide_False by by intros [[=] _]. rewrite decide_True by done.
  unfold absorb_merge_e_tag, parse_e_tag_with_marker. columns. cbn [ok_or result_bind]. rewrite EventId.parse_to_hex. cbn [map_err result_bind].
  pose proof (proj2 (read_relay_column InvalidRelayUrl relay Hr)) as Er.
  destruct relay as [r|]; cbn [fmap option_fmap option_map option_list option_rect] in *; rewrite Er; cbn [result_bind non_empty]; by rewrite Hs.
Qed.
Lemma merge_source s id relay : opt_ok RelayUrl.normal relay →
  merge_step s (Tag.with_ (Tag.lower Alphabet.E) [EventId.to_hex id; unwrap_or_default (RelayUrl.as_str <$> relay); SOURCE_MARKER])
  = Ok (mkMergeSlots (m_destination s) (m_pubkey s) (m_base s) (Some (id, relay)) (m_extra s)).
Proof.
  intros Hr. unfold merge_step. rewrite !Tag.kind_with_lower. rewrite !decide_False by by intros [[=] _]. rewrite decide_True by done.
  unfold absorb_merge_e_tag, parse_e_tag_with_marker. columns. cbn [ok_or result_bind]. rewrite EventId.parse_to_hex. cbn [map_err result_bind].
  by rewrite (proj1 (read_relay_column InvalidRelayUrl relay Hr)).
Qed.
Lemma merge_extras s ts : is_Some (m_destination s) → is_Some (m_pubkey s) → Forall (λ t, Tag.kind t ≠ Tag.lower Alphabet.E) ts →
  read_tags merge_step s ts = Ok (mkMergeSlots (m_destination s) (m_pubkey s) (m_base s) (m_source s) (m_extra s ++ ts)).
Proof.
  intros [d Hd] [p Hp] Ht. revert s Hd Hp. induction Ht as [|t ts Ht _ IH]; intros s Hd Hp; [simpl; rewrite app_nil_r; by destruct s|].
  cbn [read_tags]. assert (merge_step s t = Ok (mkMergeSlots (m_destination s) (m_pubkey s) (m_base s) (m_source s) (m_extra s ++ [t]))) as ->.
  { unfold merge_step. rewrite Hd, Hp. rewrite !decide_False; [done|done|by intros [_ ?]|by intros [_ ?]]. }
  cbn [result_bind]. rewrite IH by done. simpl. by rewrite <-app_assoc.
Qed.

(** Merge requests read back. *)
Theorem merge_round_trip clock m keys e :
  EventBuilder.sign_with_keys clock (wiki_merge_request m) keys = Ok e → merge_ok m → merge_from_event e = Ok m.
Proof.
  intros (Hk & Hc & Ht & _)%signed_foldl (Hd & Hv & Hdr & Hbr & Hsr & Hnb & Hx). unfold merge_from_event. rewrite Hk, decide_False by by intros [].
  rewrite Ht, Hc. unfold merge_tags. rewrite read_tags_app. cbn [read_tags]. rewrite merge_a by done. cbn [result_bind].
  rewrite read_tags_app. destruct m as [ds dr pk [b|] br sr srr ct ex]; cbn [destination destination_relay_hint destination_pubkey base_revision
    base_revision_relay_hint source_revision source_revision_relay_hint mr_content mr_extra_tags] in *;
    cbn [fmap option_fmap option_map option_list option_rect read_tags result_bind].
  - rewrite merge_base by done. cbn [result_bind]. rewrite read_tags_app. cbn [read_tags]. rewrite merge_p by done. cbn [result_bind].
    rewrite merge_source by done. cbn [result_bind]. rewrite merge_extras by (done || by eexists). reflexivity.
  - rewrite Hnb by done. rewrite read_tags_app. cbn [read_tags]. rewrite merge_p by done. cbn [result_bind].
    rewrite merge_source by done. cbn [result_bind]. rewrite merge_extras by (done || by eexists). reflexivity.
Qed.
End wiki.
