(* ===== verification/Media.v ===== *)
(** * Media: file metadata, attachments, pictures

    [types/image.rs] (image dimensions), [nips/nip94.rs] (file metadata events),
    [nips/nip92.rs] (the [imeta] tag of an attachment) and [nips/nip68.rs] (picture
    posts), with the theorems that what is written reads back and what is read can
    be written. *)

From Stdlib Require Import Ascii NArith Lia.
From S2P Require Import Prelude Encoding Text Ids Tags Event Nips Message HttpAuth TagReader.

(** ** Image dimensions *)

Module Image.

Inductive ImageError := InvalidFormat (s : string) | ParseInt | Zero.
Record ImageDimensions := mkDim { width : N; height : N }.
Definition u32_max : N := 4294967295.

Definition new (w h : N) : result ImageDimensions ImageError :=
  if (w =? 0)%N || (h =? 0)%N then Err Zero else Ok (mkDim w h).
Definition to_string (d : ImageDimensions) : string := Dec.to_string (width d) +:+ "x" +:+ Dec.to_string (height d).
Definition from_str (s : string) : result ImageDimensions ImageError :=
  let? p := ok_or (split_once "x" s) (InvalidFormat s) in
  let '(lhs, rhs) := p in
  if decide (lhs = EmptyString ∨ rhs = EmptyString) then Err (InvalidFormat s)
  else
    let? w := ok_or (Dec.parse_uint u32_max lhs) ParseInt in
    let? h := ok_or (Dec.parse_uint u32_max rhs) ParseInt in
    new w h.
End Image.
Abbreviation ImageDimensions := Image.ImageDimensions.

(** ** Hashes in hex *)

(** The body both readers of hashes have, with their errors. *)
Definition read_hash `{FasterHex} {E} (bad_length : nat → E) (bad_hex : Hex.HexError → E) (input : string) : result bytes32 E :=
  if negb (length (as_bytes input) =? 64)%nat then Err (bad_length (length (as_bytes input)))
  else
    let? bytes := map_err bad_hex (Hex.decode_to_slice (as_bytes input) 32) in
    ok_or (try_into32 bytes) (bad_hex Hex.Overflow).
Definition hash_hex `{FasterHex} (h : bytes32) : string := Hex.encode (b32_list h).

(** ** NIP-94 *)

Module Nip94.

Definition KIND_FILE_METADATA : Kind := 1063.
Definition URL_TAG : string := "url".
Definition OX_TAG : string := "ox".
Definition SIZE_TAG : string := "size".
Definition DIM_TAG : string := "dim".
Definition MAGNET_TAG : string := "magnet".
Definition BLURHASH_TAG : string := "blurhash".
Definition THUMB_TAG : string := "thumb".
Definition IMAGE_TAG : string := "image".
Definition SUMMARY_TAG : string := "summary".
Definition ALT_TAG : string := "alt".
Definition FALLBACK_TAG : string := "fallback".
Definition SERVICE_TAG : string := "service".

Inductive FileMetadataError :=
| WrongKind (k : Kind)
| MissingUrl
| MissingMimeType
| MissingHash
| InvalidUrl (e : Url.Error)
| InvalidHash (e : Hex.HexError)
| InvalidHashLength (n : nat)
| InvalidSize (s : string)
| InvalidDim (e : Image.ImageError).

Definition custom (name : string) (args : list string) : Tag := Tag.with_ (TagKind.Custom name) args.
Definition letter (a : Alphabet.t) (args : list string) : Tag := Tag.with_ (Tag.lower a) args.

Section nip94.
Context `{FasterHex, UrlBase}.

Record FileVariant := mkVariant { v_url : Url; v_hash : option bytes32 }.
Definition variant_new (u : Url) : FileVariant := mkVariant u None.
Definition with_hash (v : FileVariant) (h : bytes32) : FileVariant := mkVariant (v_url v) (Some h).

Record FileMetadata := mkMeta {
  url : option Url;
  mime_type : option string;
  hash : option bytes32;
  original_hash : option bytes32;
  size : option N;
  dim : option ImageDimensions;
  magnet : option string;
  torrent_infohash : option string;
  blurhash : option string;
  thumb : option FileVariant;
  preview_image : option FileVariant;
  summary : option string;
  alt : option string;
  fallback_urls : list Url;
  service : option string;
}.
Definition new (u : Url) (mime : string) (h : bytes32) : FileMetadata :=
  mkMeta (Some u) (Some mime) (Some h) None None None None None None None None None None [] None.
Definition with_original_hash (m : FileMetadata) (h : bytes32) : FileMetadata :=
  let '(mkMeta u mt hs _ sz dm mg ti bh th pi su al fb sv) := m in mkMeta u mt hs (Some h) sz dm mg ti bh th pi su al fb sv.
Definition with_size (m : FileMetadata) (n : N) : FileMetadata :=
  let '(mkMeta u mt hs ox _ dm mg ti bh th pi su al fb sv) := m in mkMeta u mt hs ox (Some n) dm mg ti bh th pi su al fb sv.
Definition with_dim (m : FileMetadata) (d : ImageDimensions) : FileMetadata :=
  let '(mkMeta u mt hs ox sz _ mg ti bh th pi su al fb sv) := m in mkMeta u mt hs ox sz (Some d) mg ti bh th pi su al fb sv.
Definition with_magnet (m : FileMetadata) (s : string) : FileMetadata :=
  let '(mkMeta u mt hs ox sz dm _ ti bh th pi su al fb sv) := m in mkMeta u mt hs ox sz dm (Some s) ti bh th pi su al fb sv.
Definition with_torrent_infohash (m : FileMetadata) (s : string) : FileMetadata :=
  let '(mkMeta u mt hs ox sz dm mg _ bh th pi su al fb sv) := m in mkMeta u mt hs ox sz dm mg (Some s) bh th pi su al fb sv.
Definition with_blurhash (m : FileMetadata) (s : string) : FileMetadata :=
  let '(mkMeta u mt hs ox sz dm mg ti _ th pi su al fb sv) := m in mkMeta u mt hs ox sz dm mg ti (Some s) th pi su al fb sv.
Definition with_thumb (m : FileMetadata) (v : FileVariant) : FileMetadata :=
  let '(mkMeta u mt hs ox sz dm mg ti bh _ pi su al fb sv) := m in mkMeta u mt hs ox sz dm mg ti bh (Some v) pi su al fb sv.
Definition with_preview_image (m : FileMetadata) (v : FileVariant) : FileMetadata :=
  let '(mkMeta u mt hs ox sz dm mg ti bh th _ su al fb sv) := m in mkMeta u mt hs ox sz dm mg ti bh th (Some v) su al fb sv.
Definition with_summary (m : FileMetadata) (s : string) : FileMetadata :=
  let '(mkMeta u mt hs ox sz dm mg ti bh th pi _ al fb sv) := m in mkMeta u mt hs ox sz dm mg ti bh th pi (Some s) al fb sv.
Definition with_alt (m : FileMetadata) (s : string) : FileMetadata :=
  let '(mkMeta u mt hs ox sz dm mg ti bh th pi su _ fb sv) := m in mkMeta u mt hs ox sz dm mg ti bh th pi su (Some s) fb sv.
Definition with_fallback (m : FileMetadata) (f : Url) : FileMetadata :=
  let '(mkMeta u mt hs ox sz dm mg ti bh th pi su al fb sv) := m in mkMeta u mt hs ox sz dm mg ti bh th pi su al (fb ++ [f]) sv.
Definition with_service (m : FileMetadata) (s : string) : FileMetadata :=
  let '(mkMeta u mt hs ox sz dm mg ti bh th pi su al fb _) := m in mkMeta u mt hs ox sz dm mg ti bh th pi su al fb (Some s).

Definition parse_sha256 : string → result bytes32 FileMetadataError := read_hash InvalidHashLength InvalidHash.

Definition parse_variant (tags : list Tag) (name : string) : result (option FileVariant) FileMetadataError :=
  match Tags.find_first tags (TagKind.Custom name) with
  | None => Ok None
  | Some tag =>
      match Tag.get tag 1 with
      | None => Ok None
      | Some url_str =>
          let? u := map_err InvalidUrl (Url.parse url_str) in
          let? h := match non_empty (Tag.get tag 2) with
                    | Some hex => let? h := parse_sha256 hex in Ok (Some h)
                    | None => Ok None
                    end in
          Ok (Some (mkVariant u h))
      end
  end.
Definition variant_tag (name : string) (v : FileVariant) : Tag :=
  custom name (Url.as_str (v_url v) :: option_list ((λ h, hash_hex h) <$> v_hash v)).

(** [if let Some(raw) = … { Some(read(raw)?) }]. *)
Definition read_opt {A E} (read : string → result A E) (o : option string) : result (option A) E :=
  match o with Some raw => let? a := read raw in Ok (Some a) | None => Ok None end.
Definition read_fallback (acc : list Url) (tag : Tag) : result (list Url) FileMetadataError :=
  match Tag.get tag 1 with
  | Some raw => let? u := map_err InvalidUrl (Url.parse raw) in Ok (acc ++ [u])
  | None => Ok acc
  end.

Definition from_tags (tags : list Tag) : result FileMetadata FileMetadataError :=
  let? url_str := ok_or (custom_value tags URL_TAG) MissingUrl in
  let? u := map_err InvalidUrl (Url.parse url_str) in
  let? mime := ok_or (single_value tags Alphabet.M) MissingMimeType in
  let? hex := ok_or (single_value tags Alphabet.X) MissingHash in
  let? h := parse_sha256 hex in
  let? ox := read_opt parse_sha256 (custom_value tags OX_TAG) in
  let? sz := read_opt (λ raw, ok_or (Dec.parse_u64 raw) (InvalidSize raw)) (custom_value tags SIZE_TAG) in
  let? dm := read_opt (λ raw, map_err InvalidDim (Image.from_str raw)) (custom_value tags DIM_TAG) in
  let? th := parse_variant tags THUMB_TAG in
  let? pi := parse_variant tags IMAGE_TAG in
  let? fb := read_tags read_fallback [] (Tags.find_all tags (TagKind.Custom FALLBACK_TAG)) in
  Ok (mkMeta (Some u) (Some mime) (Some h) ox sz dm (custom_value tags MAGNET_TAG) (single_value tags Alphabet.I)
        (custom_value tags BLURHASH_TAG) th pi (custom_value tags SUMMARY_TAG) (custom_value tags ALT_TAG) fb
        (custom_value tags SERVICE_TAG)).
Definition from_event (e : Event) : result FileMetadata FileMetadataError :=
  if decide (Event.kind e ≠ KIND_FILE_METADATA) then Err (WrongKind (Event.kind e)) else from_tags (Event.tags e).

Definition to_tags (m : FileMetadata) : result (list Tag) FileMetadataError :=
  let? u := ok_or (url m) MissingUrl in
  let? mime := ok_or (mime_type m) MissingMimeType in
  let? h := ok_or (hash m) MissingHash in
  Ok ([custom URL_TAG [Url.as_str u]; letter Alphabet.M [mime]; letter Alphabet.X [hash_hex h]]
      ++ option_list ((λ x, custom OX_TAG [hash_hex x]) <$> original_hash m)
      ++ option_list ((λ n, custom SIZE_TAG [Dec.to_string n]) <$> size m)
      ++ option_list ((λ d, custom DIM_TAG [Image.to_string d]) <$> dim m)
      ++ option_list ((λ s, custom MAGNET_TAG [s]) <$> magnet m)
      ++ option_list ((λ s, letter Alphabet.I [s]) <$> torrent_infohash m)
      ++ option_list ((λ s, custom BLURHASH_TAG [s]) <$> blurhash m)
      ++ option_list (variant_tag THUMB_TAG <$> thumb m)
      ++ option_list (variant_tag IMAGE_TAG <$> preview_image m)
      ++ option_list ((λ s, custom SUMMARY_TAG [s]) <$> summary m)
      ++ option_list ((λ s, custom ALT_TAG [s]) <$> alt m)
      ++ ((λ f, custom FALLBACK_TAG [Url.as_str f]) <$> fallback_urls m)
      ++ option_list ((λ s, custom SERVICE_TAG [s]) <$> service m)).

(** [EventBuilder::file_metadata]. *)
Definition file_metadata (caption : string) (m : FileMetadata) : result EventBuilder FileMetadataError :=
  let? tags := to_tags m in
  Ok (foldl EventBuilder.add_tag (EventBuilder.new KIND_FILE_METADATA caption) tags).
End nip94.
End Nip94.

(** ** NIP-92 *)

Module Nip92.
Import Nip94.

Definition IMETA_TAG : string := "imeta".

Inductive MediaAttachmentError :=
| WrongTag
| MissingUrl
| MissingOtherField
| MalformedField (s : string)
| InvalidSize (s : string)
| InvalidHashLength (n : nat)
| InvalidHashHex (e : Hex.HexError)
| InvalidUrl (e : Url.Error)
| InvalidDim (e : Image.ImageError).

Section nip92.
Context `{FasterHex, UrlBase}.

Record MediaAttachment := mkMedia {
  url : option Url;
  mime_type : option string;
  hash : option bytes32;
  original_hash : option bytes32;
  size : option N;
  dim : option ImageDimensions;
  magnet : option string;
  blurhash : option string;
  alt : option string;
  summary : option string;
  thumb : option FileVariant;
  image : option FileVariant;
  fallback_urls : list Url;
  service : option string;
  extra_fields : list (string * string);
}.
Definition default_attachment : MediaAttachment := mkMedia None None None None None None None None None None None None [] None [].
Definition new (u : Url) : MediaAttachment := mkMedia (Some u) None None None None None None None None None None None [] None [].
Definition with_url (a : MediaAttachment) (x : Url) : MediaAttachment :=
  let '(mkMedia _ mt hs ox sz dm mg bh al su th im fb sv ex) := a in mkMedia (Some x) mt hs ox sz dm mg bh al su th im fb sv ex.
Definition with_mime_type (a : MediaAttachment) (x : string) : MediaAttachment :=
  let '(mkMedia u _ hs ox sz dm mg bh al su th im fb sv ex) := a in mkMedia u (Some x) hs ox sz dm mg bh al su th im fb sv ex.
Definition with_hash (a : MediaAttachment) (x : bytes32) : MediaAttachment :=
  let '(mkMedia u mt _ ox sz dm mg bh al su th im fb sv ex) := a in mkMedia u mt (Some x) ox sz dm mg bh al su th im fb sv ex.
Definition with_original_hash (a : MediaAttachment) (x : bytes32) : MediaAttachment :=
  let '(mkMedia u mt hs _ sz dm mg bh al su th im fb sv ex) := a in mkMedia u mt hs (Some x) sz dm mg bh al su th im fb sv ex.
Definition with_size (a : MediaAttachment) (x : N) : MediaAttachment :=
  let '(mkMedia u mt hs ox _ dm mg bh al su th im fb sv ex) := a in mkMedia u mt hs ox (Some x) dm mg bh al su th im fb sv ex.
Definition with_dim (a : MediaAttachment) (x : ImageDimensions) : MediaAttachment :=
  let '(mkMedia u mt hs ox sz _ mg bh al su th im fb sv ex) := a in mkMedia u mt hs ox sz (Some x) mg bh al su th im fb sv ex.
Definition with_magnet (a : MediaAttachment) (x : string) : MediaAttachment :=
  let '(mkMedia u mt hs ox sz dm _ bh al su th im fb sv ex) := a in mkMedia u mt hs ox sz dm (Some x) bh al su th im fb sv ex.
Definition with_blurhash (a : MediaAttachment) (x : string) : MediaAttachment :=
  let '(mkMedia u mt hs ox sz dm mg _ al su th im fb sv ex) := a in mkMedia u mt hs ox sz dm mg (Some x) al su th im fb sv ex.
Definition with_alt (a : MediaAttachment) (x : string) : MediaAttachment :=
  let '(mkMedia u mt hs ox sz dm mg bh _ su th im fb sv ex) := a in mkMedia u mt hs ox sz dm mg bh (Some x) su th im fb sv ex.
Definition with_summary (a : MediaAttachment) (x : string) : MediaAttachment :=
  let '(mkMedia u mt hs ox sz dm mg bh al _ th im fb sv ex) := a in mkMedia u mt hs ox sz dm mg bh al (Some x) th im fb sv ex.
Definition with_thumb (a : MediaAttachment) (x : FileVariant) : MediaAttachment :=
  let '(mkMedia u mt hs ox sz dm mg bh al su _ im fb sv ex) := a in mkMedia u mt hs ox sz dm mg bh al su (Some x) im fb sv ex.
Definition with_image (a : MediaAttachment) (x : FileVariant) : MediaAttachment :=
  let '(mkMedia u mt hs ox sz dm mg bh al su th _ fb sv ex) := a in mkMedia u mt hs ox sz dm mg bh al su th (Some x) fb sv ex.
Definition with_fallback (a : MediaAttachment) (x : Url) : MediaAttachment :=
  let '(mkMedia u mt hs ox sz dm mg bh al su th im fb sv ex) := a in mkMedia u mt hs ox sz dm mg bh al su th im (fb ++ [x]) sv ex.
Definition with_service (a : MediaAttachment) (x : string) : MediaAttachment :=
  let '(mkMedia u mt hs ox sz dm mg bh al su th im fb _ ex) := a in mkMedia u mt hs ox sz dm mg bh al su th im fb (Some x) ex.
Definition push_extra (a : MediaAttachment) (x : string * string) : MediaAttachment :=
  let '(mkMedia u mt hs ox sz dm mg bh al su th im fb sv ex) := a in mkMedia u mt hs ox sz dm mg bh al su th im fb sv (ex ++ [x]).

Definition known_keys : list string :=
  [URL_TAG; "m"; "x"; OX_TAG; SIZE_TAG; DIM_TAG; MAGNET_TAG; BLURHASH_TAG; ALT_TAG; SUMMARY_TAG; THUMB_TAG; IMAGE_TAG;
   FALLBACK_TAG; SERVICE_TAG].
Definition is_known_key (key : string) : bool := bool_decide (key ∈ known_keys).
(** [MediaAttachment::extra]. *)
Definition extra (a : MediaAttachment) (key value : string) : MediaAttachment :=
  if is_known_key key then a else push_extra a (key, value).

Definition field (key value : string) : string := key +:+ String " " value.
Definition push_optional (key : string) (value : option string) : list string := option_list (field key <$> value).

Definition other_fields (a : MediaAttachment) : list string :=
  push_optional "m" (mime_type a)
  ++ option_list ((λ h, field "x" (hash_hex h)) <$> hash a)
  ++ option_list ((λ h, field OX_TAG (hash_hex h)) <$> original_hash a)
  ++ option_list ((λ n, field SIZE_TAG (Dec.to_string n)) <$> size a)
  ++ option_list ((λ d, field DIM_TAG (Image.to_string d)) <$> dim a)
  ++ push_optional MAGNET_TAG (magnet a)
  ++ push_optional BLURHASH_TAG (blurhash a)
  ++ push_optional ALT_TAG (alt a)
  ++ push_optional SUMMARY_TAG (summary a)
  ++ option_list ((λ v, field THUMB_TAG (Url.as_str (v_url v))) <$> thumb a)
  ++ option_list ((λ v, field IMAGE_TAG (Url.as_str (v_url v))) <$> image a)
  ++ ((λ u, field FALLBACK_TAG (Url.as_str u)) <$> fallback_urls a)
  ++ push_optional SERVICE_TAG (service a)
  ++ ((λ p, field p.1 p.2) <$> extra_fields a).
Definition to_tag (a : MediaAttachment) : result Tag MediaAttachmentError :=
  let? u := ok_or (url a) MissingUrl in
  if decide (other_fields a = []) then Err MissingOtherField
  else Ok (Tag.with_ (TagKind.from_wire IMETA_TAG) (field URL_TAG (Url.as_str u) :: other_fields a)).

Definition split_field (raw : string) : result (string * string) MediaAttachmentError :=
  ok_or (split_once " " raw) (MalformedField raw).
Definition parse_sha256 : string → result bytes32 MediaAttachmentError := read_hash InvalidHashLength InvalidHashHex.
Definition parse_url (value : string) : result Url MediaAttachmentError := map_err InvalidUrl (Url.parse value).

Definition apply_field (a : MediaAttachment) (key value : string) : result MediaAttachment MediaAttachmentError :=
  if decide (key = URL_TAG) then let? u := parse_url value in Ok (with_url a u)
  else if decide (key = "m") then Ok (with_mime_type a value)
  else if decide (key = "x") then let? h := parse_sha256 value in Ok (with_hash a h)
  else if decide (key = OX_TAG) then let? h := parse_sha256 value in Ok (with_original_hash a h)
  else if decide (key = SIZE_TAG) then
    let? n := ok_or (Dec.parse_u64 value) (InvalidSize value) in Ok (with_size a n)
  else if decide (key = DIM_TAG) then let? d := map_err InvalidDim (Image.from_str value) in Ok (with_dim a d)
  else if decide (key = MAGNET_TAG) then Ok (with_magnet a value)
  else if decide (key = BLURHASH_TAG) then Ok (with_blurhash a value)
  else if decide (key = ALT_TAG) then Ok (with_alt a value)
  else if decide (key = SUMMARY_TAG) then Ok (with_summary a value)
  else if decide (key = THUMB_TAG) then let? u := parse_url value in Ok (with_thumb a (variant_new u))
  else if decide (key = IMAGE_TAG) then let? u := parse_url value in Ok (with_image a (variant_new u))
  else if decide (key = FALLBACK_TAG) then let? u := parse_url value in Ok (with_fallback a u)
  else if decide (key = SERVICE_TAG) then Ok (with_service a value)
  else Ok (push_extra a (key, value)).

(** The loop of [from_tag], with the number of fields other than [url]. *)
Definition entry_step (s : MediaAttachment * nat) (entry : string) : result (MediaAttachment * nat) MediaAttachmentError :=
  let? kv := split_field entry in
  let n := if decide (kv.1 = URL_TAG) then s.2 else S s.2 in
  let? a := apply_field s.1 kv.1 kv.2 in
  Ok (a, n).
Definition from_tag (tag : Tag) : result MediaAttachment MediaAttachmentError :=
  if decide (Tag.name tag ≠ IMETA_TAG) then Err WrongTag
  else
    let? s := read_tags entry_step (default_attachment, 0) (drop 1 (Tag.values tag)) in
    if decide (url s.1 = None) then Err MissingUrl
    else if decide (s.2 = 0) then Err MissingOtherField
    else Ok s.1.
(** [Tag::imeta]. *)
Definition imeta (a : MediaAttachment) : result Tag MediaAttachmentError := to_tag a.

Definition attachments_step (out : list MediaAttachment) (tag : Tag) : result (list MediaAttachment) MediaAttachmentError :=
  let? a := from_tag tag in Ok (out ++ [a]).
Definition attachments_from_tags (tags : list Tag) : result (list MediaAttachment) MediaAttachmentError :=
  read_tags attachments_step [] (Tags.find_all tags (TagKind.from_wire IMETA_TAG)).

Definition from_file_metadata (m : FileMetadata) : MediaAttachment :=
  mkMedia (Nip94.url m) (Nip94.mime_type m) (Nip94.hash m) (Nip94.original_hash m) (Nip94.size m) (Nip94.dim m) (Nip94.magnet m)
    (Nip94.blurhash m) (Nip94.alt m) (Nip94.summary m) (Nip94.thumb m) (preview_image m) (Nip94.fallback_urls m)
    (Nip94.service m) [].
Definition to_file_metadata (a : MediaAttachment) : FileMetadata :=
  mkMeta (url a) (mime_type a) (hash a) (original_hash a) (size a) (dim a) (magnet a) None (blurhash a) (thumb a) (image a)
    (summary a) (alt a) (fallback_urls a) (service a).
End nip92.
End Nip92.

(** ** NIP-68 *)

Module Nip68.
Import Nip92.

Definition KIND_PICTURE : Kind := 20.
Definition TITLE_TAG : string := "title".
Definition CONTENT_WARNING_TAG : string := "content-warning".
Definition LOCATION_TAG : string := "location".
Definition SUPPORTED_MIME_TYPES : list string :=
  ["image/apng"; "image/avif"; "image/gif"; "image/jpeg"; "image/png"; "image/webp"].

Inductive PictureError :=
| WrongKind (k : Kind)
| MalformedTaggedUser
| InvalidPublicKey (e : PublicKey.Error)
| InvalidRelayUrl (e : RelayUrl.Error)
| InvalidMediaAttachment (e : MediaAttachmentError).

Section nip68.
Context `{FasterHex, Secp256k1, UrlBase, StrLowercase}.

Record PictureTaggedUser := mkUser { pubkey : PublicKey; relay_hint : option RelayUrl }.
Definition user_new (pk : PublicKey) : PictureTaggedUser := mkUser pk None.

Record PicturePost := mkPost {
  title : option string;
  description : string;
  pictures : list MediaAttachment;
  content_warning : option string;
  tagged_users : list PictureTaggedUser;
  media_types : list string;
  hashes : list string;
  hashtags : list string;
  location : option string;
  geohash : option string;
  language_labels : list string;
  extra_tags : list Tag;
}.

Definition user_to_tag (u : PictureTaggedUser) : Tag :=
  Tag.with_ (Tag.lower Alphabet.P) (PublicKey.to_hex (pubkey u) :: option_list (RelayUrl.as_str <$> relay_hint u)).
Definition user_from_tag (tag : Tag) : result PictureTaggedUser PictureError :=
  let? pk_hex := ok_or (Tag.get tag 1) MalformedTaggedUser in
  let? pk := map_err InvalidPublicKey (PublicKey.parse pk_hex) in
  let? r := read_column RelayUrl.parse InvalidRelayUrl (Tag.get tag 2) in
  Ok (mkUser pk r).

Definition post_new (descr : string) (ps : list MediaAttachment) : PicturePost :=
  mkPost None descr ps None [] [] [] [] None None [] [].
Definition post_title (p : PicturePost) (t : string) : PicturePost :=
  let '(mkPost _ d ps cw us ms hs ht lo ge la ex) := p in mkPost (Some t) d ps cw us ms hs ht lo ge la ex.
Definition post_hashtag (p : PicturePost) (t : string) : PicturePost :=
  let '(mkPost ti d ps cw us ms hs ht lo ge la ex) := p in
  mkPost ti d ps cw us ms hs (ht ++ [Text.to_ascii_lowercase t]) lo ge la ex.

(** [if let Some(raw) = tag.get(1) { list.push(..) }]. *)
Definition push_value (l : list string) (f : string → string) (tag : Tag) : list string := l ++ option_list (f <$> Tag.get tag 1).

Definition absorb_tag (out : PicturePost) (tag : Tag) : result PicturePost PictureError :=
  let '(mkPost ti d ps cw us ms hs ht lo ge la ex) := out in
  if decide (Tag.kind tag = Tag.lower Alphabet.P) then
    let? u := user_from_tag tag in Ok (mkPost ti d ps cw (us ++ [u]) ms hs ht lo ge la ex)
  else if decide (Tag.kind tag = Tag.lower Alphabet.T) then
    Ok (mkPost ti d ps cw us ms hs (push_value ht Text.to_ascii_lowercase tag) lo ge la ex)
  else if decide (Tag.kind tag = Tag.lower Alphabet.G) then Ok (mkPost ti d ps cw us ms hs ht lo (Tag.get tag 1) la ex)
  else if decide (Tag.kind tag = Tag.lower Alphabet.X) then Ok (mkPost ti d ps cw us ms (push_value hs id tag) ht lo ge la ex)
  else if decide (Tag.kind tag = Tag.lower Alphabet.M) then Ok (mkPost ti d ps cw us (push_value ms id tag) hs ht lo ge la ex)
  else if decide (Tag.kind tag = Tag.lower Alphabet.L) then Ok (mkPost ti d ps cw us ms hs ht lo ge (push_value la id tag) ex)
  else if decide (Tag.kind tag = TagKind.single_letter (SingleLetterTag.uppercase Alphabet.L)) then
    Ok (mkPost ti d ps cw us ms hs ht lo ge (push_value la id tag) ex)
  else if decide (Tag.name tag = "imeta") then
    let? a := map_err InvalidMediaAttachment (from_tag tag) in Ok (mkPost ti d (ps ++ [a]) cw us ms hs ht lo ge la ex)
  else if decide (Tag.name tag = TITLE_TAG) then Ok (mkPost (Tag.get tag 1) d ps cw us ms hs ht lo ge la ex)
  else if decide (Tag.name tag = CONTENT_WARNING_TAG) then Ok (mkPost ti d ps (Tag.get tag 1) us ms hs ht lo ge la ex)
  else if decide (Tag.name tag = LOCATION_TAG) then Ok (mkPost ti d ps cw us ms hs ht (Tag.get tag 1) ge la ex)
  else Ok (mkPost ti d ps cw us ms hs ht lo ge la (ex ++ [tag])).
Definition from_event (e : Event) : result PicturePost PictureError :=
  if decide (Event.kind e ≠ KIND_PICTURE) then Err (WrongKind (Event.kind e))
  else read_tags absorb_tag (post_new (Event.content e) []) (Event.tags e).

(** The tags of the attachments, up to the first that cannot be written. *)
Fixpoint media_tags (ps : list MediaAttachment) : result (list Tag) MediaAttachmentError :=
  match ps with
  | [] => Ok []
  | p :: ps => let? t := to_tag p in let? ts := media_tags ps in Ok (t :: ts)
  end.
(** [EventBuilder::picture_post]. *)
Definition picture_post (p : PicturePost) : result EventBuilder PictureError :=
  let? ps := map_err InvalidMediaAttachment (media_tags (pictures p)) in
  Ok (foldl EventBuilder.add_tag (EventBuilder.new KIND_PICTURE (description p))
    (option_list ((λ t, Tag.with_ (TagKind.from_wire TITLE_TAG) [t]) <$> title p)
     ++ ps
     ++ option_list ((λ t, Tag.with_ (TagKind.from_wire CONTENT_WARNING_TAG) [t]) <$> content_warning p)
     ++ (user_to_tag <$> tagged_users p)
     ++ ((λ m, Tag.with_ (Tag.lower Alphabet.M) [m]) <$> media_types p)
     ++ ((λ h, Tag.with_ (Tag.lower Alphabet.X) [h]) <$> hashes p)
     ++ (tag_t <$> hashtags p)
     ++ option_list ((λ l, Tag.with_ (TagKind.from_wire LOCATION_TAG) [l]) <$> location p)
     ++ option_list ((λ g, Tag.with_ (Tag.lower Alphabet.G) [g]) <$> geohash p)
     ++ extra_tags p)).
End nip68.
End Nip68.

(** ** What reads back *)

Section values.
Context `{FasterHex, !FasterHexLaws, UrlBase, !UrlCrateLaws}.

Definition dim_ok (d : ImageDimensions) : Prop :=
  (0 < Image.width d <= Image.u32_max)%N ∧ (0 < Image.height d <= Image.u32_max)%N.
Definition absolute (u : Url) : Prop := cannot_be_a_base (Url.inner u) = false.
Definition size_ok (n : N) : Prop := (n <= Dec.u64_max)%N.

Lemma to_string_no_x n : no_char "x" (Dec.to_string n) = true.
Proof. apply (string_forallb_no_char _ Dec.is_digit_char); [done|apply Dec.to_string_digits]. Qed.
Lemma to_string_not_empty max n : (n <= max)%N → Dec.to_string n ≠ EmptyString.
Proof. intros Hn E. pose proof (Dec.parse_to_string max n Hn) as Hp. by rewrite E in Hp. Qed.
Lemma dim_printed d : dim_ok d → Image.from_str (Image.to_string d) = Ok d.
Proof.
  intros [Hw Hh]. unfold Image.from_str, Image.to_string. change ("x" +:+ ?s) with (String "x" s).
  rewrite split_once_app by apply to_string_no_x. cbn [ok_or result_bind].
  rewrite decide_False by (intros [E|E]; by eapply to_string_not_empty in E).
  rewrite !Dec.parse_to_string by (by apply Hw || by apply Hh). cbn [ok_or result_bind]. unfold Image.new.
  rewrite !(proj2 (N.eqb_neq _ _)) by lia. by destruct d.
Qed.
Lemma dim_read s d : Image.from_str s = Ok d → dim_ok d.
Proof.
  unfold Image.from_str, Image.new. destruct (split_once "x" s) as [[l r]|]; [|done]. cbn [ok_or result_bind]. case_decide; [done|].
  destruct (Dec.parse_uint _ l) as [w|] eqn:Ew; [|done]. destruct (Dec.parse_uint _ r) as [h|] eqn:Eh; [|done]. cbn [ok_or result_bind].
  apply Dec.parse_uint_bound in Ew, Eh. destruct (N.eqb_spec w 0); [done|]. destruct (N.eqb_spec h 0); [done|].
  intros [= <-]. unfold dim_ok. simpl. lia.
Qed.
Lemma url_printed u : absolute u → Url.parse (Url.as_str u) = Ok u.
Proof. intros Hu. unfold Url.parse, Url.as_str. rewrite url_parse_as_str. cbn [map_err result_bind]. rewrite Hu. by destruct u. Qed.
Lemma url_read s u : Url.parse s = Ok u → absolute u.
Proof.
  unfold Url.parse. destruct (url_parse s) as [i|]; [|done]. cbn [map_err result_bind]. destruct (cannot_be_a_base i) eqn:E; [done|].
  by intros [= <-].
Qed.
Lemma hash_printed {E} (len : nat → E) hex h : read_hash len hex (hash_hex h) = Ok h.
Proof.
  unfold read_hash, hash_hex. rewrite hex_encode_spec, Hex.length_fmt_lower, length_b32. cbn [Nat.mul Nat.add Nat.eqb negb].
  rewrite <-hex_encode_spec. rewrite <-(length_b32 h) at 1. rewrite hex_decode_to_slice_encode. cbn [map_err result_bind].
  by rewrite try_into32_list.
Qed.
Lemma hash_not_empty h : hash_hex h ≠ EmptyString.
Proof. apply hex_not_empty. intros E%(f_equal length). by rewrite length_b32 in E. Qed.
End values.

(** ** File metadata *)

Section files.
Import Nip94.
Context `{FasterHex, !FasterHexLaws, UrlBase, !UrlCrateLaws, EventCrypto}.

Definition variant_ok (v : FileVariant) : Prop := absolute (v_url v).
Record meta_ok (m : FileMetadata) : Prop := {
  mo_url : opt_ok absolute (url m);
  mo_size : opt_ok size_ok (size m);
  mo_dim : opt_ok dim_ok (dim m);
  mo_thumb : opt_ok variant_ok (thumb m);
  mo_preview : opt_ok variant_ok (preview_image m);
  mo_fallback : Forall absolute (fallback_urls m);
}.

Lemma read_opt_printed {A E} (read : string → result A E) (print : A → string) o :
  (∀ a, o = Some a → read (print a) = Ok a) → read_opt read (print <$> o) = Ok o.
Proof. intros Hp. destruct o as [a|]; [|done]. simpl. by rewrite Hp. Qed.

Lemma variant_skip name l l' : Forall (λ t, Tag.kind t ≠ TagKind.Custom name) l → parse_variant (l ++ l') name = parse_variant l' name.
Proof. intros Hl. unfold parse_variant, Tags.find_first. by rewrite list_find_skip. Qed.
Lemma variant_miss name t l : Tag.kind t ≠ TagKind.Custom name → parse_variant (t :: l) name = parse_variant l name.
Proof. intros Ht. change (t :: l) with ([t] ++ l). apply variant_skip. by repeat constructor. Qed.
Lemma variant_back name l o : TagKind.from_wire name = TagKind.Custom name →
  Forall (λ t, Tag.kind t ≠ TagKind.Custom name) l → opt_ok variant_ok o →
  parse_variant (option_list (variant_tag name <$> o) ++ l) name = Ok o.
Proof.
  intros Hn Hl Ho. unfold parse_variant, Tags.find_first. destruct o as [v|]; simpl.
  - rewrite decide_True by done. simpl. columns. rewrite url_printed by (by apply Ho). cbn [map_err result_bind].
    destruct v as [u [h|]]; simpl; [|done]. rewrite decide_False by apply hash_not_empty. unfold parse_sha256.
    by rewrite hash_printed.
  - rewrite (proj2 (list_find_None _ l)); done.
Qed.

Lemma fallbacks_back us acc : Forall absolute us →
  read_tags read_fallback acc ((λ f, custom FALLBACK_TAG [Url.as_str f]) <$> us) = Ok (acc ++ us).
Proof.
  intros Hu. revert acc. induction Hu as [|u us Hu _ IH]; intros acc; [by rewrite app_nil_r|]. cbn [fmap list_fmap read_tags].
  assert (read_fallback acc (custom FALLBACK_TAG [Url.as_str u]) = Ok (acc ++ [u])) as ->.
  { unfold read_fallback, custom. columns. by rewrite url_printed. }
  cbn [result_bind]. rewrite IH. by rewrite <-app_assoc.
Qed.

(** What is written reads back. *)
Lemma file_tags_back m tags : to_tags m = Ok tags → meta_ok m → from_tags tags = Ok m.
Proof.
  intros Ht [Hu Hs Hd Hth Hpi Hf]. unfold to_tags in Ht.
  destruct m as [[u|] [mt|] [h|] ox sz dm mg ti bh th pi su al fb sv]; try done. cbn in Hu, Hs, Hd, Hth, Hpi, Hf. cbn in Ht.
  injection Ht as <-. unfold from_tags. match goal with |- context [custom_value ?t URL_TAG] => set (tags := t) end.
  assert (custom_value tags URL_TAG = Some (Url.as_str u)) as -> by (by subst tags; find_value).
  assert (single_value tags Alphabet.M = Some mt) as -> by (by subst tags; find_value).
  assert (single_value tags Alphabet.X = Some (hash_hex h)) as -> by (by subst tags; find_value).
  assert (custom_value tags OX_TAG = hash_hex <$> ox) as -> by (by subst tags; find_value; destruct ox).
  assert (custom_value tags SIZE_TAG = Dec.to_string <$> sz) as -> by (by subst tags; find_value; destruct sz).
  assert (custom_value tags DIM_TAG = Image.to_string <$> dm) as -> by (by subst tags; find_value; destruct dm).
  assert (custom_value tags MAGNET_TAG = mg) as -> by (by subst tags; find_value; destruct mg).
  assert (single_value tags Alphabet.I = ti) as -> by (by subst tags; find_value; destruct ti).
  assert (custom_value tags BLURHASH_TAG = bh) as -> by (by subst tags; find_value; destruct bh).
  assert (custom_value tags SUMMARY_TAG = su) as -> by (by subst tags; find_value; destruct su).
  assert (custom_value tags ALT_TAG = al) as -> by (by subst tags; find_value; destruct al).
  assert (custom_value tags SERVICE_TAG = sv) as ->.
  { subst tags. rewrite <-(app_nil_r (option_list (_ <$> sv))). find_value. by destruct sv. }
  assert (parse_variant tags THUMB_TAG = Ok th) as ->.
  { subst tags. repeat first [rewrite variant_skip by other_heads | rewrite variant_miss by by vm_compute].
    apply variant_back; [done|other_heads|done]. }
  assert (parse_variant tags IMAGE_TAG = Ok pi) as ->.
  { subst tags. repeat first [rewrite variant_skip by other_heads | rewrite variant_miss by by vm_compute].
    apply variant_back; [done|other_heads|done]. }
  assert (Tags.find_all tags (TagKind.Custom FALLBACK_TAG) = (λ f, custom FALLBACK_TAG [Url.as_str f]) <$> fb) as ->.
  { subst tags. repeat first [rewrite find_all_skip by other_heads | rewrite find_all_miss by by vm_compute].
    apply find_all_items; [done|other_heads]. }
  cbn [ok_or result_bind]. rewrite url_printed by (by apply Hu). cbn [map_err result_bind]. unfold parse_sha256 at 1. rewrite hash_printed.
  cbn [result_bind]. rewrite read_opt_printed by (intros ? _; apply hash_printed). cbn [result_bind].
  rewrite read_opt_printed by (intros n Hn; unfold Dec.parse_u64; by rewrite Dec.parse_to_string by (by apply Hs)). cbn [result_bind].
  rewrite read_opt_printed by (intros d Ed; by rewrite dim_printed by (by apply Hd)). cbn [result_bind].
  by rewrite fallbacks_back.
Qed.

(** What is read can be written. *)
Lemma read_opt_Ok {A E} (read : string → result A E) (P : A → Prop) o r :
  (∀ s a, read s = Ok a → P a) → read_opt read o = Ok r → opt_ok P r.
Proof.
  intros Hr. unfold read_opt. destruct o as [s|]; [|by intros [= <-]]. destruct (read s) as [a|] eqn:Ea; [|done].
  intros [= <-] ? [= <-]. by eapply Hr.
Qed.
Lemma variant_read tags name v : parse_variant tags name = Ok v → opt_ok variant_ok v.
Proof.
  unfold parse_variant. destruct (Tags.find_first _ _) as [t|]; [|by intros [= <-]]. destruct (Tag.get t 1) as [s|]; [|by intros [= <-]].
  intros Hv. invert_ok. injection Hv as <-. intros ? [= <-]. by eapply url_read.
Qed.
Lemma file_tags_read tags m : from_tags tags = Ok m → meta_ok m ∧ ∃ tags', to_tags m = Ok tags'.
Proof.
  unfold from_tags. intros Hm. invert_ok. injection Hm as <-. split; [|by eexists]. split; cbn.
  - intros ? [= <-]. by eapply url_read.
  - eapply read_opt_Ok; [|done]. intros s n. unfold size_ok. intros Hn. cbn beta in Hn. invert_ok. by eapply Dec.parse_uint_bound.
  - eapply read_opt_Ok; [|done]. intros s d Hd. cbn beta in Hd. invert_ok. by eapply dim_read.
  - by eapply variant_read.
  - by eapply variant_read.
  - eapply (read_tags_ind read_fallback (Forall absolute)); [constructor| |done]. intros s t s' Hs _. unfold read_fallback.
    destruct (Tag.get t 1) as [raw|]; [|by intros [= <-]]. intros Hr. invert_ok. injection Hr as <-. apply Forall_app_2; [done|].
    apply Forall_singleton. by eapply url_read.
Qed.

(** A file metadata event reads back as its bundle. *)
Theorem file_metadata_round_trip clock caption m b keys e :
  file_metadata caption m = Ok b → EventBuilder.sign_with_keys clock b keys = Ok e → meta_ok m →
  from_event e = Ok m ∧ Event.content e = caption.
Proof.
  unfold file_metadata. intros Hb Hs Hm. invert_ok. injection Hb as <-. apply signed_foldl in Hs as (Hk & Hc & Ht & _).
  unfold from_event. rewrite Hk, decide_False by by intros []. rewrite Ht. split; [by eapply file_tags_back|done].
Qed.
(** What is read of any event can be written, and reads back. *)
Theorem file_metadata_reread e m :
  from_event e = Ok m → meta_ok m ∧ ∃ tags, to_tags m = Ok tags ∧ from_tags tags = Ok m.
Proof. unfold from_event. case_decide; [done|]. intros [Ho (tags & Ht')]%file_tags_read. eauto using file_tags_back. Qed.
End files.

(** ** Attachments *)

Section attachments.
Import Nip94 Nip92.
Context `{FasterHex, !FasterHexLaws, UrlBase, !UrlCrateLaws}.

(** Variants without a hash, which the tag has no place for, and keys the reader
    gives to [extra_fields]. *)
Definition plain_variant (v : FileVariant) : Prop := absolute (v_url v) ∧ v_hash v = None.
Definition extra_ok (p : string * string) : Prop := no_char " " p.1 = true ∧ p.1 ∉ known_keys.
Record media_ok (a : MediaAttachment) : Prop := {
  md_url : opt_ok absolute (url a);
  md_size : opt_ok size_ok (size a);
  md_dim : opt_ok dim_ok (dim a);
  md_thumb : opt_ok plain_variant (thumb a);
  md_image : opt_ok plain_variant (image a);
  md_fallback : Forall absolute (fallback_urls a);
  md_extra : Forall extra_ok (extra_fields a);
}.

(** The loop without its counter. *)
Definition field_step (a : MediaAttachment) (entry : string) : result MediaAttachment MediaAttachmentError :=
  let? kv := split_field entry in apply_field a kv.1 kv.2.
Definition other_field (entry : string) : Prop := ∃ k v, split_field entry = Ok (k, v) ∧ k ≠ URL_TAG.

Lemma entries_fields es a n a' : read_tags field_step a es = Ok a' ↔ ∃ n', read_tags entry_step (a, n) es = Ok (a', n').
Proof.
  revert a n. induction es as [|x es IH]; intros a n; cbn [read_tags].
  - split; [intros [= <-]; by eexists|by intros (n' & [= <- _])].
  - unfold field_step at 1, entry_step at 1. destruct (split_field x) as [kv|]; cbn [result_bind fst snd]; [|split; [done|by intros (? & ?)]].
    destruct (apply_field a kv.1 kv.2) as [a1|]; cbn [result_bind]; [apply IH|]. split; [done|by intros (? & ?)].
Qed.
Lemma entries_count es a n a' n' : read_tags entry_step (a, n) es = Ok (a', n') →
  n <= n' ∧ (Exists other_field es → n < n').
Proof.
  revert a n. induction es as [|x es IH]; intros a n; cbn [read_tags]; [intros [= _ <-]; split; [done|by inversion 1]|].
  intros Hx. apply bind_Ok in Hx as ([a1 n1] & Hx & Hr). unfold entry_step in Hx. invert_ok. cbn [fst snd] in *. injection Hx as -> <-.
  apply IH in Hr as [Hle Hlt]. case_decide as Hk; split; [lia|..|lia|lia].
  intros He. inversion He as [? ? (k & v & Es & Hn)|]; subst; [|by apply Hlt].
  exfalso. apply Hn. match goal with H : split_field x = Ok x0 |- _ => rewrite Es in H; injection H as <- end. done.
Qed.

Lemma split_field_field k v : no_char " " k = true → split_field (field k v) = Ok (k, v).
Proof. intros Hk. unfold split_field, field. by rewrite split_once_app. Qed.
Lemma field_step_field a k v : no_char " " k = true → field_step a (field k v) = apply_field a k v.
Proof. intros Hk. unfold field_step. by rewrite split_field_field. Qed.
Lemma other_field_field k v : no_char " " k = true → k ≠ URL_TAG → other_field (field k v).
Proof. intros Hk Hn. exists k, v. by rewrite split_field_field. Qed.

Lemma others_other a : media_ok a → Forall other_field (other_fields a).
Proof.
  intros [_ _ _ _ _ _ Hx]. unfold other_fields, push_optional.
  repeat first [apply Forall_app; split | apply Forall_option; intros ? | apply other_field_field; done];
    [by apply Forall_fmap_all; intros ?; apply other_field_field|].
  apply Forall_fmap. eapply Forall_impl; [done|]. intros [k v] [Hk Hn]. apply other_field_field; [done|]. intros E.
  apply Hn. cbn [fst] in E |- *. rewrite E. by left.
Qed.

Lemma apply_extra a k v : k ∉ known_keys → apply_field a k v = Ok (push_extra a (k, v)).
Proof.
  intros Hk. unfold apply_field. rewrite !decide_False; [done|..]; intros E; apply Hk; rewrite E; unfold known_keys; set_solver.
Qed.

Lemma parse_url_printed u : absolute u → parse_url (Url.as_str u) = Ok u.
Proof. intros Hu. unfold parse_url. by rewrite url_printed. Qed.
Lemma plain_eq v : plain_variant v → variant_new (v_url v) = v.
Proof. destruct v as [u h]. by intros [_ Hh]; simpl in Hh; subst. Qed.
Lemma apply_text a k v r : no_char " " k = true → apply_field a k v = r → field_step a (field k v) = r.
Proof. intros Hk <-. by apply field_step_field. Qed.

#[local] Arguments parse_url : simpl never.
#[local] Arguments Nip92.parse_sha256 : simpl never.
#[local] Arguments Image.from_str : simpl never.
#[local] Arguments Dec.parse_u64 : simpl never.
Ltac at_key := unfold apply_field; repeat (rewrite decide_False by done); rewrite decide_True by done.
Ltac seg s' tac := rewrite (read_tags_field field_step _ _ s'); [|intros x ->; apply apply_text; [done|]; tac x|by intros ->].
Lemma fields_back a u : url a = Some u → media_ok a → read_tags field_step default_attachment (field URL_TAG (Url.as_str u) :: other_fields a) = Ok a.
Proof.
  intros Eu [Hu Hs Hd Hth Him Hf Hx]. destruct a as [u' mt hs ox sz dm mg bh al su th im fb sv ex].
  cbn [url size dim thumb image fallback_urls extra_fields] in *. subst u'.
  rewrite (read_tags_cons _ _ (new u)) by (apply apply_text; [done|]; at_key; by rewrite parse_url_printed by (by apply Hu)).
  unfold other_fields, push_optional, new. cbn [mime_type hash original_hash size dim magnet blurhash alt summary thumb image fallback_urls service extra_fields].
  seg (mkMedia (Some u) mt None None None None None None None None None None [] None []) ltac:(fun x => at_key; done).
  seg (mkMedia (Some u) mt hs None None None None None None None None None [] None []) ltac:(fun x => at_key; unfold parse_sha256; by rewrite hash_printed).
  seg (mkMedia (Some u) mt hs ox None None None None None None None None [] None []) ltac:(fun x => at_key; unfold parse_sha256; by rewrite hash_printed).
  seg (mkMedia (Some u) mt hs ox sz None None None None None None None [] None [])
    ltac:(fun x => at_key; unfold Dec.parse_u64; by rewrite Dec.parse_to_string by (by apply Hs)).
  seg (mkMedia (Some u) mt hs ox sz dm None None None None None None [] None []) ltac:(fun x => at_key; by rewrite dim_printed by (by apply Hd)).
  seg (mkMedia (Some u) mt hs ox sz dm mg None None None None None [] None []) ltac:(fun x => at_key; done).
  seg (mkMedia (Some u) mt hs ox sz dm mg bh None None None None [] None []) ltac:(fun x => at_key; done).
  seg (mkMedia (Some u) mt hs ox sz dm mg bh al None None None [] None []) ltac:(fun x => at_key; done).
  seg (mkMedia (Some u) mt hs ox sz dm mg bh al su None None [] None []) ltac:(fun x => at_key; done).
  seg (mkMedia (Some u) mt hs ox sz dm mg bh al su th None [] None [])
    ltac:(fun x => destruct (Hth x eq_refl); at_key; rewrite parse_url_printed by done; cbn; by rewrite plain_eq).
  seg (mkMedia (Some u) mt hs ox sz dm mg bh al su th im [] None [])
    ltac:(fun x => destruct (Him x eq_refl); at_key; rewrite parse_url_printed by done; cbn; by rewrite plain_eq).
  rewrite (read_tags_many field_step _ (λ l, mkMedia (Some u) mt hs ox sz dm mg bh al su th im l None [])).
  2: { intros ys x Hin. rewrite Forall_forall in Hf. apply apply_text; [done|]. at_key. by rewrite parse_url_printed by (by apply Hf). }
  seg (mkMedia (Some u) mt hs ox sz dm mg bh al su th im fb sv []) ltac:(fun x => at_key; done).
  rewrite <-(app_nil_r (_ <$> ex)).
  rewrite (read_tags_many field_step _ (λ l, mkMedia (Some u) mt hs ox sz dm mg bh al su th im fb sv l)); [done|].
  intros ys x Hin. rewrite Forall_forall in Hx. destruct (Hx x Hin). apply apply_text; [done|]. rewrite apply_extra by done. by destruct x.
Qed.

(** An attachment reads back from its tag. *)
Theorem attachment_round_trip a t : to_tag a = Ok t → media_ok a → from_tag t = Ok a.
Proof.
  unfold to_tag. intros Ht Ha. destruct (url a) as [u|] eqn:Eu; [|done]. cbn [ok_or result_bind] in Ht. case_decide as Hn; [done|].
  injection Ht as <-. unfold from_tag. rewrite decide_False by by intros []. cbn [Tag.values Tag.with_ drop].
  destruct (proj1 (entries_fields _ default_attachment 0 a) (fields_back a u Eu Ha)) as (n & En). rewrite En. cbn [result_bind fst snd].
  rewrite decide_False by (by rewrite Eu). rewrite decide_False; [done|]. apply entries_count in En as [_ Hlt].
  cut (0 < n); [lia|]. apply Hlt. right. pose proof (others_other a Ha) as Ho. destruct (other_fields a) as [|x l]; [done|].
  left. by inversion Ho.
Qed.

(** Each field other than [url] leaves something to write. *)
Lemma apply_url a v a' : apply_field a URL_TAG v = Ok a' → other_fields a' = other_fields a.
Proof. at_key. intros Ha. invert_ok. injection Ha as <-. by destruct a. Qed.
Ltac not_nil E := unfold other_fields, push_optional in E; cbn in E; repeat (apply app_eq_nil in E as [? E]);
  first [done | match goal with H : _ <$> (?l ++ [_]) = [] |- _ => apply fmap_nil_inv in H; by destruct l end].
Lemma apply_other a k v a' : apply_field a k v = Ok a' → k ≠ URL_TAG → other_fields a' ≠ [].
Proof.
  intros Ha Hk En. destruct a as [u mt hs ox sz dm mg bh al su th im fb sv ex]. unfold apply_field in Ha.
  repeat (case_decide as Hc; [first [done | clear Hc; invert_ok; injection Ha as <-; not_nil En]|clear Hc]).
  injection Ha as <-. not_nil En.
Qed.
Lemma plain_read s u : Url.parse s = Ok u → plain_variant (variant_new u).
Proof. intros Hu. split; [by eapply url_read|done]. Qed.
Lemma apply_ok a k v a' : apply_field a k v = Ok a' → no_char " " k = true → media_ok a → media_ok a'.
Proof.
  intros Ha Hk [Hu Hs Hd Hth Him Hf Hx]. destruct a as [u mt hs ox sz dm mg bh al su th im fb sv ex]. unfold apply_field in Ha.
  cbn [url size dim thumb image fallback_urls extra_fields] in *.
  repeat (case_decide; [unfold parse_url in Ha; invert_ok; injection Ha as <-; split; cbn; try done;
    first [intros ? [= <-] | apply Forall_app_2; [done|apply Forall_singleton]]; unfold size_ok; solve [eauto using url_read, dim_read, plain_read, Dec.parse_uint_bound]|]).
  injection Ha as <-. split; cbn; try done. apply Forall_app_2; [done|apply Forall_singleton]. split; [done|]. cbn [fst].
  unfold known_keys. set_solver.
Qed.
Lemma split_once_head c s kv : split_once c s = Some kv → no_char c kv.1 = true.
Proof.
  revert kv. induction s as [|d s IH]; intros kv; [done|]. cbn [split_once]. destruct (Ascii.eqb d c) eqn:Ed; [by intros [= <-]|].
  destruct (split_once c s) as [[k v]|]; [|done]. intros [= <-]. cbn [fst no_char]. rewrite Ed. by apply (IH (k, v)).
Qed.
Lemma entry_read s x s' : entry_step s x = Ok s' → media_ok s.1 → (0 < s.2 → other_fields s.1 ≠ []) →
  media_ok s'.1 ∧ (0 < s'.2 → other_fields s'.1 ≠ []).
Proof.
  unfold entry_step, split_field. intros Hs Hm Hn. apply bind_Ok in Hs as ([k v] & Hx & Hs). cbn [fst snd] in Hs. invert_ok.
  injection Hs as <-. cbn [fst snd]. split; [eapply apply_ok; [done|by apply (split_once_head _ x (k, v))|done]|].
  case_decide as Hk; [|intros _; by eapply apply_other]. subst k. intros Hp. erewrite apply_url by done. by apply Hn.
Qed.

(** What is read of a tag can be written, and reads back. *)
Theorem attachment_reread t a : from_tag t = Ok a → media_ok a ∧ ∃ t', to_tag a = Ok t' ∧ from_tag t' = Ok a.
Proof.
  unfold from_tag at 1. case_decide; [done|]. intros Ha. apply bind_Ok in Ha as ([a1 n] & Hr & Ha). cbn [fst snd] in Ha.
  case_decide as Hu; [done|]. case_decide as Hn; [done|]. injection Ha as ->.
  assert (media_ok a ∧ (0 < n → other_fields a ≠ [])) as [Hm Ho].
  { apply (read_tags_ind entry_step (λ s, media_ok s.1 ∧ (0 < s.2 → other_fields s.1 ≠ [])) _ _ _) in Hr; [done| |].
    - split; [by split|]. cbn. lia.
    - intros s x s' [Hm Hp] _ Hx. by eapply entry_read. }
  split; [done|]. destruct (url a) as [u|] eqn:Eu; [|done]. specialize (Ho ltac:(lia)).
  assert (∃ t', to_tag a = Ok t') as (t' & Ht'); [|eauto using attachment_round_trip].
  unfold to_tag. rewrite Eu. cbn [ok_or result_bind]. rewrite decide_False by done. by eexists.
Qed.

(** An attachment crosses to a file's metadata and back, its unknown fields apart. *)
Lemma attachment_metadata a : from_file_metadata (to_file_metadata a) =
  mkMedia (url a) (mime_type a) (hash a) (original_hash a) (size a) (dim a) (magnet a) (blurhash a) (alt a) (summary a) (thumb a) (image a)
    (fallback_urls a) (service a) [].
Proof. done. Qed.
End attachments.

(** ** Pictures *)

Section pictures.
Import Nip92 Nip68.
Context `{FasterHex, !FasterHexLaws, Secp256k1, UrlBase, !UrlCrateLaws, !UrlNotEmpty, StrLowercase, EventCrypto}.

Definition user_ok (u : PictureTaggedUser) : Prop := PublicKey.valid (pubkey u) ∧ opt_ok RelayUrl.normal (relay_hint u).
(** A tag no field is read from. *)
Definition foreign_tag (t : Tag) : Prop :=
  (Tag.kind t ∉ (Tag.lower <$> [Alphabet.P; Alphabet.T; Alphabet.G; Alphabet.X; Alphabet.M; Alphabet.L]))
  ∧ Tag.kind t ≠ TagKind.single_letter (SingleLetterTag.uppercase Alphabet.L)
  ∧ Tag.name t ∉ ["imeta"; TITLE_TAG; CONTENT_WARNING_TAG; LOCATION_TAG].
Record post_ok (p : PicturePost) : Prop := {
  po_pictures : Forall media_ok (pictures p);
  po_users : Forall user_ok (tagged_users p);
  po_hashtags : Forall lower_text (hashtags p);
  po_extra : Forall foreign_tag (extra_tags p);
}.

Lemma user_back u : user_ok u → user_from_tag (user_to_tag u) = Ok u.
Proof.
  intros [Hv Hr]. unfold user_from_tag, user_to_tag. columns. cbn [ok_or result_bind]. rewrite PublicKey.pk_parse_to_hex by done.
  cbn [map_err result_bind]. pose proof (proj2 (read_relay_column InvalidRelayUrl _ Hr)) as Er.
  destruct u as [pk [r|]]; cbn [relay_hint fmap option_fmap option_map option_list option_rect] in *; by rewrite Er.
Qed.
Lemma media_tags_spec ps ts : media_tags ps = Ok ts → Forall2 (λ p t, to_tag p = Ok t) ps ts.
Proof.
  revert ts. induction ps as [|p ps IH]; intros ts; cbn [media_tags]; [by intros [= <-]|]. intros Ht. invert_ok. injection Ht as <-. auto.
Qed.

Lemma media_read ps ts ti d : Forall2 (λ p t, to_tag p = Ok t) ps ts → Forall media_ok ps →
  read_tags absorb_tag (mkPost ti d [] None [] [] [] [] None None [] []) ts = Ok (mkPost ti d ps None [] [] [] [] None None [] []).
Proof.
  intros Hts Hps. assert (∀ qs, read_tags absorb_tag (mkPost ti d qs None [] [] [] [] None None [] []) ts =
    Ok (mkPost ti d (qs ++ ps) None [] [] [] [] None None [] [])) as ->; [|done]. revert Hps.
  induction Hts as [|p t ps ts Ht _ IH]; intros Hps qs; [by rewrite app_nil_r|]. inversion Hps as [|? ? Hp Hps']; subst.
  pose proof (attachment_round_trip p t Ht Hp) as Hr. assert (∃ args, t = Tag.with_ (TagKind.from_wire IMETA_TAG) args) as (args & ->).
  { unfold to_tag in Ht. invert_ok. case_decide; [done|]. injection Ht as <-. by eexists. }
  cbn [read_tags]. change (absorb_tag ?p0 ?t0) with
    (let? a := map_err InvalidMediaAttachment (from_tag t0) in Ok (mkPost ti d (qs ++ [a]) None [] [] [] [] None None [] [])).
  rewrite Hr. cbn [map_err result_bind]. rewrite IH by done. by rewrite <-app_assoc.
Qed.
Lemma foreign_read ti d ps cw us ms hs ht lo ge ts : Forall foreign_tag ts →
  read_tags absorb_tag (mkPost ti d ps cw us ms hs ht lo ge [] []) ts = Ok (mkPost ti d ps cw us ms hs ht lo ge [] ts).
Proof.
  intros Ht. rewrite <-(app_nil_r ts) at 1. rewrite <-(list_fmap_id ts) at 1.
  rewrite (read_tags_many absorb_tag id (λ l, mkPost ti d ps cw us ms hs ht lo ge [] l)); [done|]. intros ys t Hin.
  rewrite Forall_forall in Ht. destruct (Ht t Hin) as (Hk & Hl & Hn). unfold absorb_tag. cbn [id].
  rewrite !decide_False; [done|..]; intros E; rewrite E in *; set_solver.
Qed.

(** A picture post reads back; its language labels are not written. *)
Theorem picture_round_trip clock p b keys e :
  picture_post p = Ok b → EventBuilder.sign_with_keys clock b keys = Ok e → post_ok p →
  from_event e = Ok (mkPost (title p) (description p) (pictures p) (content_warning p) (tagged_users p) (media_types p) (hashes p)
    (hashtags p) (location p) (geohash p) [] (extra_tags p)).
Proof.
  unfold picture_post. intros Hb Hs [Hp Hu Hh Hx]. apply bind_Ok in Hb as (ts & Hts & Hb). apply map_err_Ok, media_tags_spec in Hts.
  injection Hb as <-. apply signed_foldl in Hs as (Hk & Hc & Ht & _). unfold from_event. rewrite Hk, decide_False by by intros [].
  rewrite Ht, Hc. destruct p as [ti d ps cw us ms hs ht lo ge la ex].
  cbn [title description pictures content_warning tagged_users media_types hashes hashtags location geohash extra_tags] in *. unfold post_new.
  rewrite (read_tags_field absorb_tag _ _ (mkPost ti d [] None [] [] [] [] None None [] [])) by (by intros ? -> || by intros ->).
  rewrite read_tags_app, (media_read ps ts) by done. cbn [result_bind].
  rewrite (read_tags_field absorb_tag _ _ (mkPost ti d ps cw [] [] [] [] None None [] [])) by (by intros ? -> || by intros ->).
  rewrite (read_tags_many absorb_tag _ (λ l, mkPost ti d ps cw l [] [] [] None None [] [])).
  2: { intros ys u Hin. rewrite Forall_forall in Hu. change (absorb_tag ?p (user_to_tag u)) with
         (let? u := user_from_tag (user_to_tag u) in Ok (mkPost ti d ps cw (ys ++ [u]) [] [] [] None None [] [])).
       by rewrite user_back by (by apply Hu). }
  rewrite (read_tags_many absorb_tag _ (λ l, mkPost ti d ps cw us l [] [] None None [] [])) by done.
  rewrite (read_tags_many absorb_tag _ (λ l, mkPost ti d ps cw us ms l [] None None [] [])) by done.
  rewrite (read_tags_many absorb_tag _ (λ l, mkPost ti d ps cw us ms hs l None None [] [])).
  2: { intros ys t Hin. rewrite Forall_forall in Hh. destruct (Hh t Hin) as [E1 E2]. unfold tag_t. rewrite E1.
       change (absorb_tag ?p ?t') with (Ok (E := PictureError) (mkPost ti d ps cw us ms hs (ys ++ [Text.to_ascii_lowercase t]) None None [] [])).
       by rewrite E2. }
  rewrite (read_tags_field absorb_tag _ _ (mkPost ti d ps cw us ms hs ht lo None [] [])) by (by intros ? -> || by intros ->).
  rewrite (read_tags_field absorb_tag _ _ (mkPost ti d ps cw us ms hs ht lo ge [] [])) by (by intros ? -> || by intros ->).
  by rewrite foreign_read.
Qed.
End pictures.
